(* ===== verification/_CoqProject ===== *)
-Q . S2P
Prelude.v
Levels.v
LevelFacts.v
Syntax.v
Subst.v
Inst.v
Context.v
Conversion.v
ConvSpec.v
ConvFacts.v
Checker.v
Typing.v
Weakening.v
TypingFacts.v
Stability.v
Termination.v
Nbe.v
Values.v
EvalSound.v
ReadbackSound.v
CompareSound.v
NbeChecker.v
NbeTyping.v
NbeSound.v
NbeFacts.v
Admission.v
AdmissionFacts.v
Replay.v
LeanExport.v
Process.v
Cli.v
Words.v
Encoding.v
EncodingFacts.v
Codec.v
TypeRefs.v
TypeRefFacts.v
NanBox.v
NanBoxFacts.v
Registers.v
Frames.v
FrameInvariant.v
FrameEffects.v
FrameFacts.v
Opcodes.v
Instruction.v
InstructionEncode.v
InstructionDecode.v
InstructionOk.v
InstructionFacts.v
InstructionRoundtrip.v
InstructionImage.v
InstructionTotal.v
JumpFixup.v
JumpFixupFacts.v
Validate.v
ValidateFacts.v
WidthArith.v
WidthArithFacts.v
Operands.v
OperandsFacts.v
Interp.v
IntegerOps.v
ArithExtended.v
Machine.v
MachineSpec.v
MachineFacts.v
MachineProgram.v
IntegerFacts.v
LockOrder.v
LockOrderFacts.v
Cbgr.v
CbgrFacts.v
Dominance.v
DominanceFacts.v
DominanceTree.v
Assertions.v
AssertionFacts.v
Hoare.v
HoareFacts.v
