(* ===== verification/Prelude.v ===== *)
(** * Verum: a verification development

    Verum is a language with dependent proofs, an ahead-of-time compiler and a
    bytecode interpreter.  This library models four of its parts: the proof
    kernel, the crate [src/crates/verum_proof], whole; the ground floor of
    the bytecode machine in [src/crates/verum_vbc]: the instruction set and its
    encoding, the representation of values, calls with their checked references,
    the dispatch loop with its integer instructions; the generational references of
    [src/crates/verum_common] with the dominance analysis of [src/crates/verum_cbgr]
    that makes them unnecessary; and, of [src/crates/verum_verification], the
    check of lock orders and the weakest preconditions with their triples.
    File names below are relative to these crates.

    ** The program

    The proof kernel receives a judgment (a statement and a certificate) as
    JSON bytes.  [src/admission.rs] bounds and scans the bytes, deserializes
    them, bounds the terms, and hands the certificate to two independent type
    checkers: [src/proof_checker.rs], which substitutes, and
    [src/proof_checker_nbe.rs], which evaluates; both must accept.
    [src/process.rs] runs this in a worker process under limits that
    [src/limits.rs] computes, [src/main.rs] is the command line, and
    [src/lean_export.rs] prints judgments as Lean files for an outside check.

    The bytecode crate stores programs with the primitives of [src/encoding.rs];
    instructions ([src/instruction.rs]) and the types inside them have the codec
    of [src/bytecode.rs], which also converts jumps, from counts of instructions
    in the code generator to bytes in the program and back.  The
    interpreter keeps every value in one 64-bit word ([src/value.rs]), the
    registers of all frames in one vector with a generation per slot
    ([src/interpreter/registers.rs]) and the frames in a stack
    ([src/interpreter/stack.rs]).  A reference to a register is a word with the
    slot's number and generation; the handlers under
    [src/interpreter/dispatch_table] make such references and check the
    generation on use.  The dispatch loop of the same directory fetches an opcode,
    looks its handler up and runs it; handlers read their operands from the bytes
    themselves, without the decoder.

    Every allocation has a header with a generation and an epoch
    ([verum_common/src/cbgr.rs]); a reference carries the values it was made with,
    and using it compares them.  The compiler promotes a reference to an unchecked
    one when it does not escape and its allocation dominates its uses
    ([verum_cbgr/src/dominance_analysis.rs]).

    The compiler checks the order in which locks are taken
    ([src/lock_ordering.rs]): every lock type has a level, an acquisition must be
    above the levels of all locks held, and the acquisitions form a graph that is
    searched for cycles.  Contracts are checked by Hoare logic
    ([src/hoare_logic.rs], over the formulas of [src/vcgen.rs]): from a command
    and a postcondition a calculator computes a formula, with conditions for the
    measures of loops, which a solver is asked to prove.

    ** The files: the proof kernel

    - [Prelude] (this file): outcomes with their monad, loops that can fail,
      lemmas and tactics ([invert_ok]) shared by all.
    - [Levels], [LevelFacts]: universe levels over 32-bit integers ([Level] and
      its methods, [level_max_canonical], [level_eq]); [eval] gives the number a
      level denotes.
    - [Syntax]: [Term], [DataField], [DataConstructor], [map_children].
    - [Subst], [Inst]: [shift_up], [subst], [shift_down],
      [contains_free_by], all instances of one traversal; parallel substitution.
    - [Context]: [Context] with its definitions.
    - [Conversion]: [CheckError], [whnf], [def_eq], [eta_match]; specified by
      [ConvSpec] (a big-step relation and the congruence [conv]), [ConvFacts].
    - [Checker]: [infer], [check_against] and [Certificate::verify], one
      definition per arm; [Typing] has the declarative rules [has_type] and
      soundness, [Weakening] their metatheory, [TypingFacts],
      [Stability] and [Termination] the consequences.
    - [Nbe], [NbeChecker]: the second kernel, its values, closures with captured
      environments, evaluation, readback, comparison, and the checker.  Its
      soundness for the same rules goes through [Values] (what term a value
      stands for, and what a captured environment is), [EvalSound], [ReadbackSound], [CompareSound],
      [NbeTyping], [NbeSound]; [NbeFacts] concludes, with stability.
    - [Admission], [AdmissionFacts], [Replay]: [limits.rs] and
      [admission.rs]; [LeanExport]: [lean_export.rs];
      [Process], [Cli]: [process.rs] and [main.rs].

    ** The files: the bytecode machine

    - [Words]: integers of a fixed width as [Z] ([is_u], [wrap], [to_signed]),
      bytes, little-endian words.
    - [Encoding], [EncodingFacts]: every function of [encoding.rs], with the
      standard library's check of UTF-8; [Codec]:
      how round trips of parts make round trips of wholes ([reads], [writes]).
    - [TypeRefs], [TypeRefFacts]: [TypeRef] of [types.rs], [encode_type_ref],
      [decode_type_ref] and the operand lists of [bytecode.rs].
    - [Opcodes]: the opcode and sub-opcode enums of
      [instruction.rs], a Module each, with their bytes; [Instruction]: the enum
      of the same name, 308 variants.
    - [InstructionEncode], [InstructionDecode]: [encode_instruction] and
      [decode_instruction] of [bytecode.rs], every arm, grouped by the headings
      of the source into one definition each; sequences and sizes.
    - [InstructionOk], [InstructionFacts]: the rules by which a
      writer and a decoder match ([codec]), the instructions that survive
      ([instruction_ok]), and the match of every arm ([arm_codec]).
      [InstructionRoundtrip]: what encoding writes, encoding then decoding; [InstructionImage]: decoding then encoding;
      [InstructionTotal]: decoding arbitrary bytes.
    - [JumpFixup], [JumpFixupFacts]: [fixup_jump_offsets],
      [jump_offsets_to_instr_indices], [encode_instructions_with_fixup].
    - [Validate], [ValidateFacts]: the bytecode pass of [validate.rs], with its
      checks of type references and constants; a module has the fields it reads.
    - [NanBox], [NanBoxFacts]: constructors, checks and extractors of
      [value.rs], its side tables as explicit state.
    - [Registers]: [registers.rs] and [stack.rs].
    - [Frames]: calls ([handle_call]), tail calls ([handle_tail_call_op]), returns
      ([do_return]), unwinding,
      [handle_ref_create] and its variants, the register arms of the
      dereferencing handlers, [reset]; runs are lists of operations.
    - [FrameInvariant], [FrameEffects], [FrameFacts]: the
      invariant, the effect of each operation and of one step, and the theorems.
    - [WidthArith], [WidthArithFacts]: [arith_helpers.rs], the bit operations of
      [arith_extended.rs], the coercions of operands and the conversions between
      [i64] and the bits of an [f64].
    - [Operands], [OperandsFacts]: what each of the 230 handlers reads, as a list of
      operand kinds, against what the decoder takes for the same opcode.
    - [Interp]: the monad of handlers ([M], with [Outside] for what leaves the
      model), the readers of [bytecode_io.rs], [dispatch_enveloped],
      [resolve_arg_value].  [IntegerOps]: [integer_arith.rs], [bitwise.rs] and the
      orderings of [comparison.rs]; [ArithExtended]: the arms of
      [arith_extended.rs]; [Machine]: the handlers of data movement and control
      flow, the table [handler], a turn [dispatch_step] and [dispatch_loop].
    - [MachineSpec]: a machine on lists of instructions, with jumps that count
      instructions, and what integer instructions compute; [MachineFacts], [MachineProgram]: the loop on encoded bytes
      implements it.
    - [IntegerFacts]: the handlers of integer instructions compute what they should.

    ** The files: references and static checks

    - [Cbgr], [CbgrFacts]: [cbgr.rs]; a call on a header is a program of atomic
      accesses, threads interleave them.
    - [Dominance], [DominanceFacts], [DominanceTree]: [dominance_analysis.rs] and the
      graph of [analysis.rs]; dominance by paths, the sets of dominators, and the
      tree with the frontiers and promotions.
    - [LockOrder], [LockOrderFacts]: [lock_ordering.rs]; the facts add threads that
      request, get and release locks as a step relation over the verifier.
    - [Assertions]: terms, formulas and substitution of [vcgen.rs]; commands, [wp],
      termination conditions, triples and the frame rule of [hoare_logic.rs].
      [AssertionFacts]: what formulas mean, over any interpretation of the symbols
      ([Interp], a class), and when substitution is assignment; [Hoare]:
      executions of commands and the induction over [wp]; [HoareFacts]: the
      theorems, and conditions that are valid for triples that are not.

    ** What the theorems show

    - Soundness of the kernel: what [replay] accepts is derivable by the
      declarative rules ([Replay.replay_sound], [TypingFacts.verify_sound],
      [NbeFacts.nbe_verify_sound]), by each kernel on its own; acceptance is
      exactly the conjunction of the program's tests
      ([Replay.replay_accepts_exactly]); evaluation, readback and comparison
      are sound for conversion.
    - Independence of resources: verdicts do not change with more fuel
      ([Stability.verdict_stable], [NbeFacts.nbe_verdict_stable]); the checker's
      own recursion is bounded by the certificate
      ([Termination.verify_terminates]).
    - Admission, process, export and command line: exact descriptions of what
      is admitted, heard from a worker, exported and parsed; no worker outlives
      its supervisor ([Process.supervisor_failures_operational]).
    - Encoding: round trips at any place in any input
      ([Codec.primitives_roundtrip], [TypeRefFacts.type_ref_roundtrip]),
      exactness on arbitrary input ([EncodingFacts.decode_varint_exact]) and
      the only panics a decoder has ([TypeRefFacts.decode_type_ref_total]).
    - Instructions: [InstructionOk.instruction_ok] describes the instructions that
      encode and decode to themselves, alone and in programs
      ([InstructionRoundtrip.instruction_roundtrip], [instructions_roundtrip]);
      whatever the decoder returns is one of them but for one exception
      ([InstructionImage.reencode_stable]); on any bytes the decoder answers
      inside the input ([InstructionTotal.decode_total]).  The variants outside
      [instruction_ok] share an encoding with another instruction; two of the
      losses are theorems ([unary_float_lost], [nursery_config_desynchronises]).
    - Jumps: once the passes settle every jump lands on the instruction it named
      and the conversion back is inverse ([JumpFixupFacts.fixup_lands],
      [fixup_inverse]); programs of short jumps settle ([short_jumps_settle]); ten
      passes are not always enough ([cascade_lands_short]).
    - Validation: in a function that passes, every offset that falling through and
      jumping reach, as the decoder reads them, is the start of an instruction whose
      checked operands are right ([ValidateFacts.validated_paths]), strings up to
      the size of their table only ([message_inside_a_string]); what the encoder and
      the fixup produce passes but for switches and receiver declarations
      ([compiled_code_validates]).
    - Values: the kinds partition the words and boxing is undone by unboxing,
      whatever is boxed later.
    - Calls: the windows of the frames always tile the register file, as long as
      tail calls keep the number of registers ([FrameFacts.frames_safe],
      [tail_call_outgrows]), a callee leaves its caller as it was
      ([FrameFacts.call_preserves_caller]), and a stale register reference is
      refused but for two exactly described exceptions
      ([FrameFacts.register_reference_exact], [FrameFacts.sentinel_generation]).
    - Running: an encoded program of the modelled instructions means what the list of
      instructions means ([MachineProgram.program_runs]); under an instruction
      limit every run of the model ends, in the program's own outcomes or by
      leaving the model ([loop_terminates]); handlers read exactly the operands
      the decoder reads but for a list of opcodes where they do not
      ([OperandsFacts.operands_agree], [operands_misread]).
    - Arithmetic: the integer instructions compute modulo 64 or 128 bits and change
      their destination only ([IntegerFacts.integer_exact]); the operations at a
      width wrap and saturate as their types do ([WidthArithFacts.wrapping_exact],
      [saturating_exact]), but for the shift to the right ([wrapping_shr_sign_lost]),
      the width 128, which is that of 64, and unsigned saturation at 64 bits.

    - References: which stale references a header refuses after any number of
      increments ([CbgrFacts.stale_reference_exact], [Wide.allocation_stale_exact]),
      that concurrent increments below the wrap-around are atomic and end
      ([concurrent_increments], [increments_end]), and that nothing is accepted after an invalidation
      ([no_success_after_invalidate]).
    - Dominance: both computations end and decide whether a block lies on every path
      ([DominanceFacts.cfg_dominates_exact], [DominanceTree.dominance_exact],
      [dominators_agree]); immediate dominators, frontiers and iterated frontiers are
      exact ([immediate_dominators_exact], [frontier_exact],
      [iterated_frontier_exact]); a promoted reference is allocated on every path to
      its uses ([promotion_exact]).
    - Locks: the check of an acquisition is exact
      ([LockOrderFacts.verify_acquisition_exact]), the search reports exactly when
      there is a cycle, in any iteration order ([detect_cycles_exact]), acquisitions
      checked at registered levels leave no cycle ([checked_graph_acyclic]), and
      threads that ask before they lock never wait in a circle and always can go on
      ([no_deadlock], [waiting_progress]).
    - Hoare logic: without loops the calculated formula is exact
      ([HoareFacts.wp_exact]); with loops that keep their invariants it is sound
      ([verified_sound]), and measures, single or lexicographic, make loops end
      ([measured_loop_terminates], [lexicographic_loop_terminates]); the frame rule
      accepts exactly the frames disjoint from the collected variables
      ([frame_exact]).  Where the conditions of these theorems fail the code proves
      false triples ([while_condition_local], [havoc_captures],
      [call_for_effect_drops], [call_result_hides], [for_variable_framed]).

    ** Bounds and fuel

    Rust functions that recurse without a structural measure take fuel here;
    running out is the outcome [Gas], which is no value of the program.  The
    head-reduction fuel [ceiling] is the program's own budget.  The gas of
    [infer] and [check_against] is bounded by twice the weight of the
    certificate; that of the comparison of terms and of the second kernel has no
    bound in the terms, and the stability theorems say that it never changes an
    answer.  [normalize] needs fuel for the size of the level,
    [decode_type_ref] and the loops of the decoders for the bytes of the input,
    and a variable-length integer at most ten steps; each is proved enough.  The admission traversal has fuel
    for the node budget of the policy.  In the kernel de Bruijn indices are
    natural numbers; in the bytecode files every integer has its width, with
    wrapping as the code wraps.  [usize] has 64 bits.

    ** Parameters

    Code that is not in the repository is a parameter with the hypotheses the
    theorems name: the JSON deserializer, the digest of the checker's sources,
    the operating system's processes and limits, readers and writers, whether
    the allocator grants a capacity, and the addresses it hands out; and the
    message of an error, which a derive macro writes; and the order in which hash
    maps and sets are walked, any permutation of their contents.  Of the
    table of intrinsics the decoder reads the tensor strategies, which are
    transcribed.  The fuel of [dispatch_loop] counts turns; with an instruction
    limit, as many as are left of it are enough.  The depth of the search for cycles is
    bounded by the lock types, that of the traversal of a graph by its blocks, and
    the sweeps for dominators by the square of the blocks.

    ** Not modelled

    In [verum_proof]: sharing through [Arc], memoised copies, builder functions
    and stubs for other systems.  In the modelled files of [verum_vbc]:
    formatting, tracing, statistics, debug assertions, the switch back to an
    older reference encoding, and, of the handlers, tasks, generators, contexts,
    the autodiff tape and references into the heap.  A vector's allocation by
    [decode_vec_with_capacity] is bounded by the input and has no outcome of its
    own; [i32] sums of [fixup_jump_offsets] wrap, as in a release build.  In the
    dispatch loop there is no cancellation flag, no deadline and no installed
    exception handler; a handler whose effect needs the heap, floats, strings or
    objects is [Outside], as are calls, which [Frames] models by themselves.
    The serialized module format, heap references ([src/interpreter] with
    [verum_common]) and the code generator of [verum_vbc] are not modelled.
    The front end, the
    optimisers, the LLVM back end, the SMT translation and the tools around them
    are left out: they are large, mostly data and glue over third-party
    libraries, or specified only by what they generate. *)

From stdpp Require Export base list option numbers strings.
From Stdlib Require Export Lia.

Declare Scope verum_scope.
Delimit Scope verum_scope with verum.

Create HintDb verum discriminated.
Create Rewrite HintDb verum.

(** ** Outcomes

    A Rust function returning [Result<A, E>] becomes a function into
    [outcome E A].  [Gas] is not a value of the program: it marks that the
    Rocq recursion counter of the model ran out, and [gas_kind] says which
    counter it was, so that theorems can exclude it. *)
Inductive gas_kind := CheckerGas | ConversionGas | ReductionGas | EvaluationGas | TraversalGas.

Inductive outcome (E A : Type) :=
| Ok (a : A)
| Err (e : E)
| Gas (k : gas_kind).
Arguments Ok {E A} a.
Arguments Err {E A} e.
Arguments Gas {E A} k.

#[export] Instance gas_kind_eq_dec : EqDecision gas_kind.
Proof. solve_decision. Defined.

#[export] Instance outcome_eq_dec `{EqDecision E, EqDecision A} :
  EqDecision (outcome E A).
Proof. solve_decision. Defined.

#[export] Instance outcome_ret {E} : MRet (outcome E) := λ A a, Ok a.

#[export] Instance outcome_bind {E} : MBind (outcome E) := λ A B f m,
  match m with
  | Ok a => f a
  | Err e => Err e
  | Gas k => Gas k
  end.

(** [?] on an [Option] turned into an error, Rust's [ok_or]. *)
Definition ok_or {E A} (o : option A) (e : E) : outcome E A :=
  match o with Some a => Ok a | None => Err e end.

(** Short-circuiting conjunction of fallible tests: [a? && b?]. *)
Notation "a &&? b" := (mbind (λ r : bool, if r then b else Ok false) a)
  (at level 40, left associativity) : verum_scope.

(** The loop of [all_checked]: stop at the first [false] or error. *)
Fixpoint all_checked {E T} (check : T → outcome E bool) (items : list T)
    : outcome E bool :=
  match items with
  | [] => Ok true
  | item :: items =>
      r ← check item;
      if r : bool then all_checked check items else Ok false
  end.

(** A loop whose body can fail, over the items of a list. *)
Fixpoint each_checked {E T} (check : T → outcome E unit) (items : list T)
    : outcome E unit :=
  match items with
  | [] => Ok tt
  | item :: items => _ ← check item; each_checked check items
  end.

(** [iter().enumerate().map(f)]. *)
Definition mapi_from {A B} (f : nat → A → B) : nat → list A → list B :=
  fix go (i : nat) (l : list A) : list B :=
    match l with
    | [] => []
    | x :: l => f i x :: go (S i) l
    end.

Definition enumerate {A} (l : list A) : list (nat * A) :=
  mapi_from (λ i x, (i, x)) 0 l.

(** [iter().enumerate().any(f)], counting from [i]. *)
Definition any_from {A} (f : nat → A → bool) : nat → list A → bool :=
  fix go (i : nat) (l : list A) : bool :=
    match l with
    | [] => false
    | x :: l => f i x || go (S i) l
    end.

(** ** Inversion of outcomes *)
Section outcome_lemmas.
Context {E A B : Type}.
Implicit Types (m : outcome E A) (f : A → outcome E B).

Lemma bind_Ok m f b : (m ≫= f) = Ok b → ∃ a, m = Ok a ∧ f a = Ok b.
Proof. destruct m; naive_solver. Qed.

Lemma bind_Gas m f k :
  (m ≫= f) = Gas k → m = Gas k ∨ ∃ a, m = Ok a ∧ f a = Gas k.
Proof. destruct m; naive_solver. Qed.

Lemma bind_Err m f e :
  (m ≫= f) = Err e → m = Err e ∨ ∃ a, m = Ok a ∧ f a = Err e.
Proof. destruct m; naive_solver. Qed.

Lemma ok_or_Ok (o : option A) (e : E) a : ok_or o e = Ok a → o = Some a.
Proof. destruct o; naive_solver. Qed.

Lemma ok_or_Err (o : option A) (e e' : E) : ok_or o e = Err e' → e' = e ∧ o = None.
Proof. destruct o; naive_solver. Qed.
End outcome_lemmas.

Lemma and_checked_true {E} (a b : outcome E bool) :
  mbind (λ r : bool, if r then b else Ok false) a = Ok true →
  a = Ok true ∧ b = Ok true.
Proof. intros ([] & ? & ?)%bind_Ok; naive_solver. Qed.

Lemma all_checked_true {E T} (check : T → outcome E bool) items :
  all_checked check items = Ok true → Forall (λ x, check x = Ok true) items.
Proof.
  induction items as [|x items IH]; simpl; [by constructor|].
  intros ([] & ? & ?)%bind_Ok; [|done]. constructor; auto.
Qed.

Lemma each_checked_Ok {E T} (check : T → outcome E unit) items u :
  each_checked check items = Ok u → Forall (λ x, check x = Ok tt) items.
Proof.
  induction items as [|x items IH]; simpl; [by constructor|].
  intros ([] & ? & ?)%bind_Ok. constructor; auto.
Qed.

(** Take apart every successful bind among the hypotheses. *)
Ltac invert_ok :=
  repeat match goal with
  | H : Ok _ = Ok _ |- _ => injection H as H; subst
  | H : Err _ = Ok _ |- _ => discriminate H
  | H : Gas _ = Ok _ |- _ => discriminate H
  | H : mret _ = Ok _ |- _ => injection H as H; subst
  | H : mbind (λ r : bool, if r then _ else Ok false) _ = Ok true |- _ =>
      apply and_checked_true in H as [? ?]
  | H : mbind _ _ = Ok _ |- _ => apply bind_Ok in H as (? & ? & H)
  | H : ok_or _ _ = Ok _ |- _ => apply ok_or_Ok in H
  end.

(** ** Enumerated maps *)
Section mapi.
Context {A B : Type}.
Implicit Types (f g : nat → A → B) (l : list A).

Lemma mapi_from_length f i l : length (mapi_from f i l) = length l.
Proof. revert i; induction l; simpl; auto. Qed.

Lemma mapi_from_ext f g i l :
  (∀ j x, i ≤ j → j < i + length l → x ∈ l → f j x = g j x) →
  mapi_from f i l = mapi_from g i l.
Proof.
  revert i; induction l as [|x l IH]; intros i H; simpl; [done|].
  f_equal; [apply H; simpl; try lia; left|].
  apply IH; intros j y ? ? ?; apply H; simpl; try lia. by right.
Qed.

Lemma lookup_mapi_from f i l j :
  mapi_from f i l !! j = f (i + j) <$> l !! j.
Proof.
  revert i j; induction l as [|x l IH]; intros i [|j]; simpl; try done.
  - by rewrite Nat.add_0_r.
  - rewrite IH. by replace (S i + j) with (i + S j) by lia.
Qed.
End mapi.

Lemma mapi_from_mapi_from {A B C} (f : nat → A → B) (g : nat → B → C) i l :
  mapi_from g i (mapi_from f i l) = mapi_from (λ j x, g j (f j x)) i l.
Proof. revert i; induction l; simpl; intros; f_equal; auto. Qed.

Lemma map_mapi_from {A B C} (f : nat → A → B) (g : B → C) i l :
  map g (mapi_from f i l) = mapi_from (λ j x, g (f j x)) i l.
Proof. revert i; induction l; simpl; intros; f_equal; auto. Qed.

Lemma mapi_from_id {A} (f : nat → A → A) i l :
  (∀ j x, f j x = x) → mapi_from f i l = l.
Proof. intros H; revert i; induction l; simpl; intros; f_equal; auto. Qed.

#[export] Hint Rewrite @mapi_from_length : verum.
