(* ===== verification/Levels.v ===== *)
(** * Universe levels

    [u32] models Rust's 32-bit unsigned integers with the checked and
    saturating operations the kernel uses; [Level] models the enum [Level] of
    [verum_proof/src/proof_checker.rs] and its normalisation. *)
From S2P Require Import Prelude.

(** ** 32-bit unsigned integers *)
Definition U32_MAX : N := 4294967295.

(** The bound is a boolean equation, so two integers with the same value are
    equal, and [u32_try] lets literals evaluate to a canonical proof. *)
Record u32 : Type := U32 {
  u32_val : N;
  u32_ok : N.leb u32_val U32_MAX = true
}.

Definition u32_try (n : N) : option u32 :=
  match N.leb n U32_MAX as b return N.leb n U32_MAX = b → option u32 with
  | true => λ e, Some (U32 n e)
  | false => λ _, None
  end eq_refl.

Definition u32_max_value : u32 := U32 U32_MAX eq_refl.

(** Literals, and the result of an operation that saturates at [u32::MAX]. *)
Definition u32_of (n : N) : u32 := default u32_max_value (u32_try n).

Definition checked_add (x y : u32) : option u32 := u32_try (u32_val x + u32_val y).
Definition saturating_add (x y : u32) : u32 := u32_of (u32_val x + u32_val y).
Definition saturating_sub (x y : u32) : u32 := u32_of (u32_val x - u32_val y).
Definition u32_max (x y : u32) : u32 :=
  if N.leb (u32_val x) (u32_val y) then y else x.
Definition u32_min (x y : u32) : u32 :=
  if N.leb (u32_val x) (u32_val y) then x else y.
Definition u32_cmp (x y : u32) : comparison := N.compare (u32_val x) (u32_val y).

Section u32_facts.
Implicit Types x y : u32.

Lemma u32_eq x y : u32_val x = u32_val y → x = y.
Proof.
  destruct x as [a p], y as [b q]; simpl; intros <-. f_equal.
  apply Eqdep_dec.UIP_dec. apply Bool.bool_dec.
Qed.

Lemma u32_le_max x : (u32_val x ≤ U32_MAX)%N.
Proof. apply N.leb_le, u32_ok. Qed.

Lemma u32_try_Some n x : u32_try n = Some x ↔ u32_val x = n.
Proof.
  unfold u32_try. generalize (eq_refl (N.leb n U32_MAX)).
  assert (∀ b (e : N.leb n U32_MAX = b),
    match b as b' return N.leb n U32_MAX = b' → option u32 with
    | true => λ e, Some (U32 n e) | false => λ _, None end e = Some x
    ↔ u32_val x = n) as H; [|apply H].
  intros [] e; split; intros Hx.
  - by injection Hx as <-.
  - f_equal. by apply u32_eq.
  - done.
  - subst n. by rewrite u32_ok in e.
Qed.

Lemma u32_try_None n : u32_try n = None ↔ (U32_MAX < n)%N.
Proof.
  split; intros H.
  - apply N.lt_nge. intros Hn.
    enough (u32_try n = Some (U32 n (proj2 (N.leb_le _ _) Hn))) by congruence.
    by apply u32_try_Some.
  - destruct (u32_try n) as [x|] eqn:E; [|done].
    apply u32_try_Some in E. pose proof (u32_le_max x). lia.
Qed.

Lemma u32_of_val n : u32_val (u32_of n) = N.min n U32_MAX.
Proof.
  unfold u32_of. destruct (u32_try n) as [x|] eqn:E; simpl.
  - apply u32_try_Some in E. pose proof (u32_le_max x). lia.
  - apply u32_try_None in E. change (u32_val u32_max_value) with U32_MAX. lia.
Qed.

Lemma saturating_sub_val x y :
  u32_val (saturating_sub x y) = (u32_val x - u32_val y)%N.
Proof.
  unfold saturating_sub. rewrite u32_of_val. pose proof (u32_le_max x). lia.
Qed.

Lemma saturating_add_val x y :
  u32_val (saturating_add x y) = N.min (u32_val x + u32_val y) U32_MAX.
Proof. apply u32_of_val. Qed.

Lemma u32_max_val x y : u32_val (u32_max x y) = N.max (u32_val x) (u32_val y).
Proof. unfold u32_max. destruct (N.leb_spec (u32_val x) (u32_val y)); lia. Qed.

Lemma u32_min_val x y : u32_val (u32_min x y) = N.min (u32_val x) (u32_val y).
Proof. unfold u32_min. destruct (N.leb_spec (u32_val x) (u32_val y)); lia. Qed.

Lemma u32_cmp_eq x y : u32_cmp x y = Eq ↔ x = y.
Proof.
  unfold u32_cmp. rewrite N.compare_eq_iff. split; [apply u32_eq|congruence].
Qed.
End u32_facts.

#[export] Instance u32_eq_dec : EqDecision u32 := λ x y,
  match N.eq_dec (u32_val x) (u32_val y) with
  | left e => left (u32_eq x y e)
  | right n => right (λ e, n (f_equal u32_val e))
  end.

#[export] Hint Rewrite u32_of_val saturating_sub_val saturating_add_val
  u32_max_val u32_min_val : verum.

(** Turn the operations into arithmetic on their values, with the bounds. *)
Ltac u32_simpl :=
  repeat match goal with
  | H : checked_add _ _ = Some _ |- _ => apply u32_try_Some in H
  | H : checked_add _ _ = None |- _ => apply u32_try_None in H
  | H : @eq u32 ?x ?y |- _ => apply (f_equal u32_val) in H
  end; autorewrite with verum in *;
  repeat match goal with
  | x : u32 |- _ =>
      lazymatch goal with
      | _ : (u32_val x ≤ U32_MAX)%N |- _ => fail
      | _ => pose proof (u32_le_max x)
      end
  end.
Ltac u32_lia := u32_simpl; simpl in *; unfold U32_MAX in *; lia.

(** ** Level expressions *)
Module Level.

Inductive Level : Type :=
| Concrete (n : u32)
| Var (name : string)
| Succ (inner : Level)
| Max (a b : Level)
| Offset (base : Level) (by_ : u32).

Fixpoint level_eqb (a b : Level) : bool :=
  match a, b with
  | Concrete n, Concrete m => bool_decide (n = m)
  | Var v, Var w => bool_decide (v = w)
  | Succ x, Succ y => level_eqb x y
  | Max x x', Max y y' => level_eqb x y && level_eqb x' y'
  | Offset x n, Offset y m => level_eqb x y && bool_decide (n = m)
  | _, _ => false
  end.

Lemma level_eqb_eq a b : level_eqb a b = true ↔ a = b.
Proof.
  revert b; induction a as [n|v|x IHx|x IHx y IHy|x IHx n];
    intros [m|w|x'|x' y'|x' m]; simpl;
    rewrite ?andb_true_iff, ?bool_decide_eq_true, ?IHx, ?IHy;
    intuition congruence.
Qed.

#[export] Instance level_eq_dec : EqDecision Level := λ a b,
  match level_eqb a b as r return level_eqb a b = r → _ with
  | true => λ e, left (proj1 (level_eqb_eq a b) e)
  | false => λ e, right (λ h,
      eq_true_false_abs _ (proj2 (level_eqb_eq a b) h) e)
  end eq_refl.

(** [Level::successor]. *)
Definition successor (l : Level) : Level :=
  match l with
  | Concrete n =>
      match checked_add n (u32_of 1) with
      | Some next => Concrete next
      | None => Succ l
      end
  | other => Succ other
  end.

Definition level_offset_node (base : Level) (by_ : u32) : Level :=
  if decide (u32_val by_ = 0%N) then base
  else if decide (u32_val by_ = 1%N) then Succ base
  else Offset base by_.

Fixpoint level_add_offset (base : Level) (by_ : u32) {struct base} : Level :=
  if decide (u32_val by_ = 0%N) then base else
  match base with
  | Concrete n =>
      match checked_add n by_ with
      | Some next => Concrete next
      | None =>
          level_offset_node (Concrete u32_max_value)
            (saturating_sub by_ (saturating_sub u32_max_value n))
      end
  | Succ inner =>
      match checked_add by_ (u32_of 1) with
      | Some sum => level_add_offset inner sum
      | None => level_offset_node (Succ inner) by_
      end
  | Offset inner prior =>
      match checked_add prior by_ with
      | Some sum => level_add_offset inner sum
      | None => level_offset_node (Offset inner prior) by_
      end
  | other => level_offset_node other by_
  end.

Fixpoint flatten_max_into (l : Level) (out : list Level) : list Level :=
  match l with
  | Max a b => flatten_max_into b (flatten_max_into a out)
  | other => out ++ [other]
  end.

Definition rank (l : Level) : N :=
  match l with
  | Concrete _ => 0 | Var _ => 1 | Succ _ => 2 | Max _ _ => 3 | Offset _ _ => 4
  end.

(** [Ordering::then_with]. *)
Definition then_with (c d : comparison) : comparison :=
  match c with Eq => d | _ => c end.

Fixpoint level_struct_cmp (a b : Level) : comparison :=
  match N.compare (rank a) (rank b) with
  | Eq =>
      match a, b with
      | Concrete x, Concrete y => u32_cmp x y
      | Var x, Var y => String.compare x y
      | Succ x, Succ y => level_struct_cmp x y
      | Offset x n, Offset y m => then_with (level_struct_cmp x y) (u32_cmp n m)
      | Max xa xb, Max ya yb =>
          then_with (level_struct_cmp xa ya) (level_struct_cmp xb yb)
      | _, _ => Eq
      end
  | other => other
  end.

(** [slice::sort_by] (a stable sort) and [Vec::dedup]. *)
Fixpoint sort_insert (x : Level) (l : list Level) : list Level :=
  match l with
  | [] => [x]
  | y :: l' =>
      match level_struct_cmp x y with
      | Gt => y :: sort_insert x l'
      | _ => x :: l
      end
  end.

Definition sort_levels (l : list Level) : list Level := foldr sort_insert [] l.

Fixpoint dedup (l : list Level) : list Level :=
  match l with
  | x :: (y :: _) as rest =>
      if decide (x = y) then dedup rest else x :: dedup rest
  | l => l
  end.

Fixpoint level_succ_depth_from (depth : u32) (cur : Level) : u32 :=
  match cur with
  | Succ inner => level_succ_depth_from (saturating_add depth (u32_of 1)) inner
  | Offset inner by_ => level_succ_depth_from (saturating_add depth by_) inner
  | _ => depth
  end.

Definition level_succ_depth (l : Level) : u32 := level_succ_depth_from (u32_of 0) l.

Definition level_common_succ_depth (concrete : option u32) (symbolic : list Level)
    : u32 :=
  match (level_succ_depth <$> symbolic) ++ option_list concrete with
  | [] => u32_of 0
  | d :: ds => foldl u32_min d ds
  end.

Fixpoint level_strip_succ (l : Level) (remaining : u32) : Level :=
  if decide (u32_val remaining = 0%N) then l else
  match l with
  | Succ inner => level_strip_succ inner (saturating_sub remaining (u32_of 1))
  | Offset inner by_ =>
      if N.leb (u32_val by_) (u32_val remaining)
      then level_strip_succ inner (saturating_sub remaining by_)
      else level_add_offset inner (saturating_sub by_ remaining)
  | other => other
  end.

(** The right-nested chain [Max(a, Max(b, Max(c, d)))]. *)
Fixpoint max_chain (x : Level) (rest : list Level) : Level :=
  match rest with
  | [] => x
  | y :: rest => Max x (max_chain y rest)
  end.

Definition level_assemble_max (concrete : option u32) (symbolic : list Level)
    : Level :=
  let drop_zero :=
    bool_decide (u32_val <$> concrete = Some 0%N) && negb (bool_decide (symbolic = [])) in
  let concrete_to_keep := if drop_zero then None else concrete in
  match (Concrete <$> option_list concrete_to_keep) ++ symbolic with
  | [] => Concrete (u32_of 0)
  | x :: rest => max_chain x rest
  end.

(** The loop that merges concrete summands and keeps the others in order. *)
Definition split_summands (summands : list Level) : option u32 * list Level :=
  foldl (λ '(concrete, symbolic) s,
    match s with
    | Concrete n =>
        (Some (match concrete with None => n | Some c => u32_max c n end), symbolic)
    | other => (concrete, symbolic ++ [other])
    end) (None, []) summands.

(** [level_max_canonical]; [normalize] is the recursive call of its body. *)
Definition level_max_canonical (normalize : Level → option Level) (a b : Level)
    : option Level :=
  let summands := flatten_max_into b (flatten_max_into a []) in
  let '(concrete, symbolic) := split_summands summands in
  let symbolic := dedup (sort_levels symbolic) in
  let total_summands := length symbolic + length (option_list concrete) in
  let succ_count := level_common_succ_depth concrete symbolic in
  if (2 <=? total_summands) && negb (bool_decide (u32_val succ_count = 0%N)) then
    let stripped_concrete := (λ n, saturating_sub n succ_count) <$> concrete in
    let stripped_symbolic := (λ s, level_strip_succ s succ_count) <$> symbolic in
    inner ← normalize (level_assemble_max stripped_concrete stripped_symbolic);
    Some (level_add_offset inner succ_count)
  else Some (level_assemble_max concrete symbolic).

Fixpoint normalize_fuel (fuel : nat) (l : Level) : option Level :=
  match fuel with
  | 0 => None
  | S fuel =>
      match l with
      | Concrete _ | Var _ => Some l
      | Succ inner =>
          inner ← normalize_fuel fuel inner; Some (level_add_offset inner (u32_of 1))
      | Offset base by_ =>
          base ← normalize_fuel fuel base; Some (level_add_offset base by_)
      | Max a b =>
          a ← normalize_fuel fuel a;
          b ← normalize_fuel fuel b;
          level_max_canonical (normalize_fuel fuel) a b
      end
  end.

(** Constructors of a level; a non-zero constant counts twice. *)
Fixpoint size (l : Level) : nat :=
  match l with
  | Concrete n => if decide (u32_val n = 0%N) then 1 else 2
  | Var _ => 1
  | Succ inner => S (size inner)
  | Offset base _ => S (size base)
  | Max a b => S (size a + size b)
  end.

(** [Level::normalize]; [normalize_fuel_total] shows [size l] is enough fuel. *)
Definition normalize (l : Level) : Level :=
  default l (normalize_fuel (size l) l).

Definition is_zero (l : Level) : bool :=
  match l with Concrete n => bool_decide (u32_val n = 0%N) | _ => false end.

Definition max_with (a b : Level) : Level :=
  match normalize a, normalize b with
  | Concrete n, Concrete m => Concrete (u32_max n m)
  | a, b =>
      if is_zero a then b
      else if is_zero b then a
      else if decide (a = b) then a
      else normalize (Max a b)
  end.

Definition as_concrete (l : Level) : option u32 :=
  match normalize l with Concrete n => Some n | _ => None end.

Definition shifted_by (l : Level) (by_ : u32) : Level :=
  if decide (u32_val by_ = 0%N) then l else level_add_offset (normalize l) by_.

Definition level_eq (a b : Level) : bool :=
  level_eqb (normalize a) (normalize b).

End Level.
