(* ===== verification/LevelFacts.v ===== *)
(** * Facts about universe levels

    The reference semantics of a level is the natural number [eval ρ l] it
    denotes for an assignment [ρ] of its variables.  Every operation of
    [Levels] is exact for it, normalisation terminates within [size l] fuel,
    and the comparison [level_eq] is sound, and complete on closed levels that
    fit in 32 bits. *)
From stdpp Require Import sorting.
From S2P Require Import Prelude Levels.
Import Level.

Local Open Scope N_scope.

Fixpoint eval (ρ : string → N) (l : Level) : N :=
  match l with
  | Concrete n => u32_val n
  | Var v => ρ v
  | Succ l => eval ρ l + 1
  | Max a b => N.max (eval ρ a) (eval ρ b)
  | Offset l by_ => eval ρ l + u32_val by_
  end.

(** Two levels denote the same universe. *)
Definition level_equiv (a b : Level) : Prop := ∀ ρ, eval ρ a = eval ρ b.

#[export] Instance level_equiv_equiv : Equivalence level_equiv.
Proof.
  split; unfold level_equiv; [done|by intros ???|].
  intros a b c H1 H2 ρ. by rewrite H1.
Qed.

#[export] Instance Succ_proper : Proper (level_equiv ==> level_equiv) Succ.
Proof. intros a b H ρ; simpl. by rewrite H. Qed.
#[export] Instance Max_proper :
  Proper (level_equiv ==> level_equiv ==> level_equiv) Max.
Proof. intros a b H c d H' ρ; simpl. by rewrite H, H'. Qed.

Fixpoint closed_level (l : Level) : bool :=
  match l with
  | Concrete _ => true
  | Var _ => false
  | Succ l | Offset l _ => closed_level l
  | Max a b => closed_level a && closed_level b
  end.

(** ** Offsets *)
Lemma eval_successor ρ l : eval ρ (successor l) = eval ρ l + 1.
Proof.
  destruct l; simpl; try lia.
  destruct (checked_add _ _) eqn:E; simpl; u32_lia.
Qed.

Lemma eval_offset_node ρ l by_ :
  eval ρ (level_offset_node l by_) = eval ρ l + u32_val by_.
Proof. unfold level_offset_node. repeat case_decide; simpl; lia. Qed.

Lemma eval_add_offset ρ l by_ :
  eval ρ (level_add_offset l by_) = eval ρ l + u32_val by_.
Proof.
  revert by_; induction l as [n|v|l IH|a IHa b IHb|l IH prior]; intros by_; simpl;
    case_decide as Hz; try (simpl; lia);
    try (destruct (checked_add _ _) as [s|] eqn:E);
    rewrite ?IH, ?eval_offset_node; simpl; u32_lia.
Qed.

(** ** Lists of summands *)
Fixpoint lmax (ρ : string → N) (ls : list Level) : N :=
  match ls with
  | [] => 0
  | l :: ls => N.max (eval ρ l) (lmax ρ ls)
  end.

Definition cmax (c : option u32) : N := default 0 (u32_val <$> c).

Section lmax.
Context (ρ : string → N).
Implicit Types ls : list Level.

Lemma lmax_app ls ls' : lmax ρ (ls ++ ls') = N.max (lmax ρ ls) (lmax ρ ls').
Proof. induction ls; simpl; lia. Qed.

Lemma lmax_perm ls ls' : ls ≡ₚ ls' → lmax ρ ls = lmax ρ ls'.
Proof. induction 1; simpl; lia. Qed.

Lemma lmax_dedup ls : lmax ρ (dedup ls) = lmax ρ ls.
Proof.
  induction ls as [|x [|y ls] IH]; [done..|].
  change (dedup (x :: y :: ls)) with
    (if decide (x = y) then dedup (y :: ls) else x :: dedup (y :: ls)).
  case_decide as Hxy; simpl in *; [subst; lia|lia].
Qed.

Lemma lmax_flatten l out :
  lmax ρ (flatten_max_into l out) = N.max (lmax ρ out) (eval ρ l).
Proof.
  revert out; induction l as [n|v|l IH|a IHa b IHb|l IH prior]; intros out; simpl;
    rewrite ?lmax_app, ?IHb, ?IHa; simpl; lia.
Qed.

Lemma lmax_chain x ls : eval ρ (max_chain x ls) = lmax ρ (x :: ls).
Proof.
  revert x; induction ls as [|y ls IH]; intros x; simpl; [|rewrite IH; simpl]; lia.
Qed.

Lemma eval_assemble c ls :
  eval ρ (level_assemble_max c ls) = N.max (cmax c) (lmax ρ ls).
Proof.
  unfold level_assemble_max.
  assert (∀ xs, eval ρ (match xs with [] => Concrete (u32_of 0)
                        | x :: rest => max_chain x rest end) = lmax ρ xs) as Hxs.
  { intros [|x xs]; [done|apply lmax_chain]. }
  rewrite Hxs. destruct c as [n|]; simpl; [|unfold cmax; simpl; lia].
  destruct (bool_decide (Some (u32_val n) = Some 0)) eqn:E; simpl.
  - apply bool_decide_eq_true in E. injection E as E.
    destruct ls; unfold cmax; simpl; lia.
  - unfold cmax; simpl; lia.
Qed.

Definition split_step : option u32 * list Level → Level → option u32 * list Level :=
  λ '(concrete, symbolic) s,
    match s with
    | Concrete n =>
        (Some (match concrete with None => n | Some c => u32_max c n end), symbolic)
    | other => (concrete, symbolic ++ [other])
    end.

Lemma lmax_split_from ls acc :
  let r := foldl split_step acc ls in
  N.max (cmax r.1) (lmax ρ r.2) = N.max (N.max (cmax acc.1) (lmax ρ acc.2)) (lmax ρ ls).
Proof.
  revert acc; induction ls as [|l ls IH]; intros [c s]; simpl.
  { lia. }
  rewrite IH. destruct l; simpl; rewrite ?lmax_app; unfold cmax; simpl;
    try lia. destruct c; simpl; rewrite ?u32_max_val; lia.
Qed.

Lemma lmax_split ls :
  N.max (cmax (split_summands ls).1) (lmax ρ (split_summands ls).2) = lmax ρ ls.
Proof.
  pose proof (lmax_split_from ls (None, [])) as H; simpl in H.
  unfold split_summands. unfold split_step in H. rewrite H. unfold cmax; simpl; lia.
Qed.
End lmax.

(** ** Common successors *)
Fixpoint succ_prefix (l : Level) : N :=
  match l with
  | Succ l => succ_prefix l + 1
  | Offset l by_ => succ_prefix l + u32_val by_
  | _ => 0
  end.

Lemma succ_depth_from_val acc l :
  u32_val (level_succ_depth_from acc l) = N.min (u32_val acc + succ_prefix l) U32_MAX.
Proof.
  revert acc; induction l as [n|v|l IH|a IHa b IHb|l IH by_]; intros acc; simpl;
    rewrite ?IH; u32_lia.
Qed.

Lemma succ_depth_val l : u32_val (level_succ_depth l) = N.min (succ_prefix l) U32_MAX.
Proof. unfold level_succ_depth. rewrite succ_depth_from_val. u32_lia. Qed.

Lemma eval_strip ρ l k :
  u32_val k ≤ succ_prefix l → eval ρ (level_strip_succ l k) + u32_val k = eval ρ l.
Proof.
  revert k; induction l as [n|v|l IH|a IHa b IHb|l IH by_]; intros k Hk; simpl in *;
    case_decide as Hz; try (simpl; lia).
  - rewrite <- (IH (saturating_sub k (u32_of 1))); u32_lia.
  - destruct (N.leb_spec (u32_val by_) (u32_val k)).
    + rewrite <- (IH (saturating_sub k by_)); u32_lia.
    + rewrite eval_add_offset. u32_lia.
Qed.

Lemma foldl_min_le d ds :
  u32_val (foldl u32_min d ds) ≤ u32_val d ∧
  Forall (λ x, u32_val (foldl u32_min d ds) ≤ u32_val x) ds.
Proof.
  revert d; induction ds as [|x ds IH]; intros d; simpl; [split; [lia|constructor]|].
  destruct (IH (u32_min d x)) as [H1 H2]. rewrite u32_min_val in H1.
  split; [lia|]. constructor; [lia|done].
Qed.

Lemma foldl_min_elem d ds : foldl u32_min d ds ∈ d :: ds.
Proof.
  revert d; induction ds as [|x ds IH]; intros d; simpl; [left|].
  specialize (IH (u32_min d x)). apply elem_of_cons in IH as [->|IH].
  - unfold u32_min. destruct (N.leb _ _); [left|right; left].
  - by right; right.
Qed.

Lemma common_depth_le c ls :
  (∀ n, c = Some n → u32_val (level_common_succ_depth c ls) ≤ u32_val n) ∧
  Forall (λ l, u32_val (level_common_succ_depth c ls) ≤ succ_prefix l) ls.
Proof.
  unfold level_common_succ_depth.
  destruct ((level_succ_depth <$> ls) ++ option_list c) as [|d ds] eqn:E.
  { apply app_eq_nil in E as [E1%fmap_nil_inv E2]. subst ls. by destruct c. }
  assert (Forall (λ x, u32_val (foldl u32_min d ds) ≤ u32_val x)
    ((level_succ_depth <$> ls) ++ option_list c)) as H.
  { rewrite E. destruct (foldl_min_le d ds). by constructor. }
  apply Forall_app in H as [H1 H2]. split.
  - intros n ->. by apply Forall_cons in H2 as [? _].
  - rewrite Forall_fmap in H1. eapply Forall_impl; [exact H1|].
    intros l; simpl. rewrite succ_depth_val. lia.
Qed.

Lemma lmax_strip ρ k ls :
  ls ≠ [] → Forall (λ l, u32_val k ≤ succ_prefix l) ls →
  lmax ρ ((λ s, level_strip_succ s k) <$> ls) + u32_val k = lmax ρ ls.
Proof.
  intros Hne H. destruct H as [|l ls Hl H]; [done|]. clear Hne.
  simpl. rewrite <- (eval_strip ρ l k Hl).
  induction H as [|l' ls Hl' H IH]; simpl; [lia|].
  rewrite <- (eval_strip ρ l' k Hl'). lia.
Qed.

(** ** The order on summands *)
Lemma then_with_Eq c d : then_with c d = Eq ↔ c = Eq ∧ d = Eq.
Proof. destruct c, d; simpl; naive_solver. Qed.

Lemma level_struct_cmp_eq a b : level_struct_cmp a b = Eq ↔ a = b.
Proof.
  revert b; induction a as [n|v|a IH|a IHa a' IHa'|a IH n];
    intros [m|w|b|b b'|b m]; simpl; try done;
    rewrite ?then_with_Eq, ?IH, ?IHa, ?IHa', ?u32_cmp_eq; try naive_solver.
  split; [intros ->%String.compare_eq_iff; done|].
  intros [= ->]. pose proof (String.compare_antisym w w).
  by destruct (String.compare w w).
Qed.

Lemma level_struct_cmp_antisym a b :
  level_struct_cmp a b = CompOpp (level_struct_cmp b a).
Proof.
  revert b; induction a as [n|v|a IH|a IHa a' IHa'|a IH n];
    intros [m|w|b|b b'|b m]; simpl; try done.
  - unfold u32_cmp. by rewrite N.compare_antisym.
  - apply String.compare_antisym.
  - rewrite IHa, IHa'. by destruct (level_struct_cmp b a).
  - rewrite IH. unfold u32_cmp. rewrite (N.compare_antisym (u32_val m)).
    by destruct (level_struct_cmp b a).
Qed.

Lemma then_with_Lt c d : then_with c d = Lt ↔ c = Lt ∨ c = Eq ∧ d = Lt.
Proof. destruct c, d; simpl; naive_solver. Qed.

Lemma string_lt_trans s1 s2 s3 :
  String.compare s1 s2 = Lt → String.compare s2 s3 = Lt → String.compare s1 s3 = Lt.
Proof.
  revert s2 s3; induction s1 as [|c1 s1 IH]; intros [|c2 s2] [|c3 s3]; simpl; try done.
  unfold Ascii.compare. intros H1 H2.
  destruct (N.compare_spec (Ascii.N_of_ascii c1) (Ascii.N_of_ascii c2)) as [E1|L1|],
    (N.compare_spec (Ascii.N_of_ascii c2) (Ascii.N_of_ascii c3)) as [E2|L2|]; try done.
  - rewrite (proj2 (N.compare_eq_iff _ _)) by congruence. eauto.
  - by rewrite E1, (proj2 (N.compare_lt_iff _ _)).
  - by rewrite <- E2, (proj2 (N.compare_lt_iff _ _)).
  - by rewrite (proj2 (N.compare_lt_iff _ _)) by lia.
Qed.

Lemma level_struct_cmp_trans a b c :
  level_struct_cmp a b = Lt → level_struct_cmp b c = Lt → level_struct_cmp a c = Lt.
Proof.
  revert b c; induction a as [n|v|a IH|a IHa a' IHa'|a IH n];
    intros [m|w|b|b b'|b m] [k|z|c|c c'|c k]; simpl; try done; eauto.
  - unfold u32_cmp. rewrite !N.compare_lt_iff. lia.
  - apply string_lt_trans.
  - rewrite !then_with_Lt, !level_struct_cmp_eq. naive_solver.
  - unfold u32_cmp. rewrite !then_with_Lt, !level_struct_cmp_eq, !N.compare_lt_iff.
    intros [?|[-> ?]] [?|[-> ?]]; eauto. right. split; [done|lia].
Qed.

Definition struct_le (a b : Level) : Prop := level_struct_cmp a b ≠ Gt.

Lemma struct_le_alt a b : struct_le a b ↔ level_struct_cmp a b = Lt ∨ a = b.
Proof.
  unfold struct_le. rewrite <- level_struct_cmp_eq.
  destruct (level_struct_cmp a b); naive_solver.
Qed.

#[export] Instance struct_le_trans : Transitive struct_le.
Proof.
  intros a b c. rewrite !struct_le_alt. intros [H1| ->] [H2| ->]; auto.
  left. by eapply level_struct_cmp_trans.
Qed.

#[export] Instance struct_le_antisym : AntiSymm (=) struct_le.
Proof.
  intros a b. rewrite !struct_le_alt, (level_struct_cmp_antisym b a).
  intros [H|?] [H'|?]; try done. by rewrite H in H'.
Qed.

Lemma sort_insert_perm x l : sort_insert x l ≡ₚ x :: l.
Proof.
  induction l as [|y l IH]; simpl; [done|].
  destruct (level_struct_cmp x y); try done. rewrite IH. constructor.
Qed.

Lemma sort_levels_perm l : sort_levels l ≡ₚ l.
Proof. induction l; simpl; [done|]. by rewrite sort_insert_perm, IHl. Qed.

Lemma sort_insert_sorted x l : Sorted struct_le l → Sorted struct_le (sort_insert x l).
Proof.
  induction 1 as [|y l Hs IH Hd]; simpl; [by repeat constructor|].
  destruct (level_struct_cmp x y) eqn:E.
  1,2: constructor; [by constructor|]; constructor; unfold struct_le; by rewrite E.
  constructor; [done|].
  assert (struct_le y x) as Hyx.
  { unfold struct_le. rewrite level_struct_cmp_antisym, E. done. }
  destruct Hd as [|z l Hyz]; simpl; [by constructor|].
  destruct (level_struct_cmp x z); by constructor.
Qed.

Lemma sort_levels_sorted l : Sorted struct_le (sort_levels l).
Proof. induction l; simpl; [constructor|by apply sort_insert_sorted]. Qed.

(** Sorting forgets the order in which the summands were collected. *)
#[export] Instance sort_levels_proper : Proper ((≡ₚ) ==> (=)) sort_levels.
Proof.
  intros l l' H. apply (Sorted_unique struct_le); auto using sort_levels_sorted.
  by rewrite !sort_levels_perm.
Qed.

(** ** Normalisation terminates

    The recursive call on the interior of a [Max] is not on a subterm.  What
    shrinks is the number of constructors: a summand of minimal depth loses
    its whole successor prefix. *)
Local Open Scope nat_scope.

Lemma size_pos l : 1 ≤ size l.
Proof. destruct l; simpl; try case_decide; lia. Qed.

Lemma size_concrete_le n : size (Concrete n) ≤ 2.
Proof. simpl. case_decide; lia. Qed.

Lemma size_offset_node l by_ : size (level_offset_node l by_) ≤ S (size l).
Proof. unfold level_offset_node. repeat case_decide; simpl; lia. Qed.

Lemma size_add_offset l by_ : size (level_add_offset l by_) ≤ S (size l).
Proof.
  revert by_; induction l as [n|v|l IH|a IHa b IHb|l IH prior]; intros by_; simpl;
    case_decide as Hz; try (simpl; lia);
    try (destruct (checked_add _ _) as [s|] eqn:E);
    try (etrans; [apply size_offset_node|simpl; lia]);
    try (specialize (IH s); lia).
  - simpl. repeat case_decide; lia.
  - etrans; [apply size_offset_node|]. case_decide; [|simpl; lia].
    exfalso. u32_lia.
Qed.

Lemma size_strip l k : size (level_strip_succ l k) ≤ size l.
Proof.
  revert k; induction l as [n|v|l IH|a IHa b IHb|l IH by_]; intros k; simpl;
    case_decide as Hz; try (simpl; lia).
  - specialize (IH (saturating_sub k (u32_of 1))). lia.
  - destruct (N.leb _ _).
    + specialize (IH (saturating_sub k by_)). lia.
    + apply size_add_offset.
Qed.

Lemma size_strip_min l k :
  u32_val k ≠ 0%N → u32_val k = N.min (succ_prefix l) U32_MAX →
  size (level_strip_succ l k) < size l.
Proof.
  intros Hk Hd. destruct l as [n|v|l|a b|l by_]; simpl in *; try (exfalso; lia);
    rewrite decide_False by done.
  - pose proof (size_strip l (saturating_sub k (u32_of 1))). lia.
  - destruct (N.leb_spec (u32_val by_) (u32_val k)).
    + pose proof (size_strip l (saturating_sub k by_)). lia.
    + exfalso. u32_lia.
Qed.

(** Constructors of a list of summands, with one [Max] per summand. *)
Definition weight (ls : list Level) : nat := list_sum (S ∘ size <$> ls).

Lemma weight_cons l ls : weight (l :: ls) = S (size l) + weight ls.
Proof. done. Qed.

Lemma weight_app ls ls' : weight (ls ++ ls') = weight ls + weight ls'.
Proof. unfold weight. by rewrite fmap_app, list_sum_app. Qed.

Lemma weight_perm ls ls' : ls ≡ₚ ls' → weight ls = weight ls'.
Proof. induction 1; rewrite ?weight_cons in *; lia. Qed.

Lemma weight_dedup ls : weight (dedup ls) ≤ weight ls.
Proof.
  induction ls as [|x [|y ls] IH]; [done..|].
  change (dedup (x :: y :: ls)) with
    (if decide (x = y) then dedup (y :: ls) else x :: dedup (y :: ls)).
  case_decide; rewrite !weight_cons in *; lia.
Qed.

Lemma weight_flatten l out : weight (flatten_max_into l out) = weight out + S (size l).
Proof.
  revert out; induction l as [n|v|l IH|a IHa b IHb|l IH prior]; intros out; simpl;
    rewrite ?IHb, ?IHa, ?weight_app; unfold weight; simpl; lia.
Qed.

Definition cweight (c : option u32) : nat := weight (Concrete <$> option_list c).

Lemma weight_split_from ls acc :
  let r := foldl split_step acc ls in
  cweight r.1 + weight r.2 ≤ cweight acc.1 + weight acc.2 + weight ls.
Proof.
  revert acc; induction ls as [|l ls IH]; intros [c s]; [simpl; lia|].
  cbn [foldl]. etrans; [apply IH|]. rewrite weight_cons.
  destruct l; simpl; rewrite ?weight_app; unfold cweight, weight; simpl;
    try (destruct c; simpl); try lia.
  unfold u32_max. destruct (N.leb _ _); repeat case_decide; lia.
Qed.

Lemma weight_split ls :
  cweight (split_summands ls).1 + weight (split_summands ls).2 ≤ weight ls.
Proof. apply (weight_split_from ls (None, [])). Qed.

Lemma size_chain x ls : S (size (max_chain x ls)) = weight (x :: ls).
Proof.
  revert x; induction ls as [|y ls IH]; intros x; [unfold weight; simpl; lia|].
  rewrite weight_cons, <- (IH y). simpl. lia.
Qed.

Lemma size_assemble c ls :
  1 ≤ length ls + length (option_list c) →
  S (size (level_assemble_max c ls)) ≤ cweight c + weight ls.
Proof.
  intros Hlen. unfold level_assemble_max.
  set (keep := if _ : bool then None else c).
  assert (cweight keep + weight ls ≤ cweight c + weight ls) as Hk.
  { unfold keep. destruct (_ && _); [change (cweight None) with 0|]; lia. }
  assert ((Concrete <$> option_list keep) ++ ls ≠ []) as Hne.
  { unfold keep. destruct c as [n|], ls as [|l ls]; simpl in *;
      try done; try lia; rewrite ?andb_false_r; try done.
    by destruct (bool_decide _ && _). }
  destruct ((Concrete <$> option_list keep) ++ ls) as [|x rest] eqn:E; [done|].
  rewrite size_chain, <- E, weight_app. exact Hk.
Qed.

Lemma common_depth_elem c ls :
  1 ≤ length ls + length (option_list c) →
  c = Some (level_common_succ_depth c ls) ∨
  ∃ l, l ∈ ls ∧ level_common_succ_depth c ls = level_succ_depth l.
Proof.
  intros Hlen. unfold level_common_succ_depth.
  destruct ((level_succ_depth <$> ls) ++ option_list c) as [|d ds] eqn:E.
  { apply (f_equal length) in E. rewrite length_app, length_fmap in E. simpl in E. lia. }
  pose proof (foldl_min_elem d ds) as H. rewrite <- E in H.
  apply elem_of_app in H as [(l & -> & Hl)%list_elem_of_fmap|H]; [eauto|].
  destruct c; simpl in H; [|by apply elem_of_nil in H].
  apply list_elem_of_singleton in H as ->. by left.
Qed.

Lemma weight_strip_le k ls :
  weight ((λ s, level_strip_succ s k) <$> ls) ≤ weight ls.
Proof.
  induction ls as [|l ls IH]; [done|].
  rewrite fmap_cons, !weight_cons. pose proof (size_strip l k). lia.
Qed.

Lemma weight_strip_lt k ls l :
  l ∈ ls → u32_val k ≠ 0%N → k = level_succ_depth l →
  weight ((λ s, level_strip_succ s k) <$> ls) < weight ls.
Proof.
  intros Hl Hk Hd. apply list_elem_of_split in Hl as (l1 & l2 & ->).
  rewrite fmap_app, fmap_cons, !weight_app, !weight_cons.
  pose proof (weight_strip_le k l1). pose proof (weight_strip_le k l2).
  assert (size (level_strip_succ l k) < size l).
  { apply size_strip_min; [done|]. by rewrite Hd, succ_depth_val. }
  lia.
Qed.

Lemma cweight_strip k c :
  cweight ((λ n, saturating_sub n k) <$> c) ≤ cweight c ∧
  (u32_val k ≠ 0%N → c = Some k → cweight ((λ n, saturating_sub n k) <$> c) < cweight c).
Proof.
  destruct c as [n|]; unfold cweight, weight; simpl; [|split; [lia|done]].
  split; [repeat case_decide; u32_lia|].
  intros Hk [= ->]. rewrite decide_True, decide_False; [lia|done|u32_lia].
Qed.

(** The interior handed to the recursive call of [level_max_canonical]. *)
Definition stripped (c : option u32) (ls : list Level) : Level :=
  let k := level_common_succ_depth c ls in
  level_assemble_max ((λ n, saturating_sub n k) <$> c)
    ((λ s, level_strip_succ s k) <$> ls).

Lemma size_stripped c ls :
  2 ≤ length ls + length (option_list c) →
  u32_val (level_common_succ_depth c ls) ≠ 0%N →
  S (size (stripped c ls)) < cweight c + weight ls.
Proof.
  intros Hlen Hk. unfold stripped. set (k := level_common_succ_depth c ls) in *.
  pose proof (size_assemble ((λ n, saturating_sub n k) <$> c)
    ((λ s, level_strip_succ s k) <$> ls)) as Hs.
  rewrite length_fmap in Hs.
  assert (length (option_list ((λ n, saturating_sub n k) <$> c))
    = length (option_list c)) as Hc by (by destruct c).
  rewrite Hc in Hs. specialize (Hs ltac:(lia)).
  destruct (cweight_strip k c) as [Hc1 Hc2].
  pose proof (weight_strip_le k ls) as Hw.
  destruct (common_depth_elem c ls) as [H|(l & Hl & H)]; [lia|..].
  - specialize (Hc2 Hk H). lia.
  - pose proof (weight_strip_lt k ls l Hl Hk H). lia.
Qed.

(** The summands of [level_max_canonical], with the constant merged. *)
Definition summand_list (a b : Level) : list Level :=
  flatten_max_into b (flatten_max_into a []).
Definition constant_part (a b : Level) : option u32 :=
  (split_summands (summand_list a b)).1.
Definition symbolic_part (a b : Level) : list Level :=
  dedup (sort_levels (split_summands (summand_list a b)).2).

Lemma level_max_canonical_unfold f a b :
  level_max_canonical f a b =
    let c := constant_part a b in
    let s := symbolic_part a b in
    let k := level_common_succ_depth c s in
    if (2 <=? length s + length (option_list c)) && negb (bool_decide (u32_val k = 0%N))
    then inner ← f (stripped c s); Some (level_add_offset inner k)
    else Some (level_assemble_max c s).
Proof.
  unfold level_max_canonical, constant_part, symbolic_part, stripped, summand_list.
  by destruct (split_summands _).
Qed.

Lemma weight_parts a b :
  cweight (constant_part a b) + weight (symbolic_part a b) ≤ S (size a) + S (size b).
Proof.
  unfold constant_part, symbolic_part.
  pose proof (weight_split (summand_list a b)).
  assert (weight (summand_list a b) = S (size a) + S (size b)) as Hw.
  { unfold summand_list. rewrite !weight_flatten. unfold weight. simpl. lia. }
  pose proof (weight_dedup (sort_levels (split_summands (summand_list a b)).2)) as Hd.
  rewrite (weight_perm _ _ (sort_levels_perm _)) in Hd. lia.
Qed.

Lemma cweight_nil c : cweight c = 0 → c = None.
Proof. destruct c; unfold cweight, weight; simpl; [lia|done]. Qed.

Lemma size_canonical_plain a b :
  S (size (level_assemble_max (constant_part a b) (symbolic_part a b)))
    ≤ S (size a) + S (size b).
Proof.
  pose proof (weight_parts a b) as Hw.
  destruct (decide (1 ≤ length (symbolic_part a b)
    + length (option_list (constant_part a b)))) as [Hl|Hl].
  - pose proof (size_assemble _ _ Hl). lia.
  - destruct (symbolic_part a b) as [|l ls], (constant_part a b) as [n|];
      simpl in Hl; try lia.
    unfold level_assemble_max. simpl. pose proof (size_pos a). lia.
Qed.

(** Enough fuel is the number of constructors, and the result is no larger. *)
Lemma normalize_fuel_size n l :
  size l ≤ n → ∃ l', normalize_fuel n l = Some l' ∧ size l' ≤ size l.
Proof.
  revert l; induction n as [|n IH]; intros l Hn; [pose proof (size_pos l); lia|].
  destruct l as [c|v|l|a b|l by_].
  - exists (Concrete c). done.
  - exists (Var v). done.
  - simpl in Hn. destruct (IH l) as (l' & H1 & H2); [lia|].
    exists (level_add_offset l' (u32_of 1)). cbn [normalize_fuel]. rewrite H1.
    split; [done|]. pose proof (size_add_offset l' (u32_of 1)). simpl. lia.
  - simpl in Hn. destruct (IH a) as (a' & Ha1 & Ha2); [lia|].
    destruct (IH b) as (b' & Hb1 & Hb2); [lia|].
    cbn [normalize_fuel]. rewrite Ha1, Hb1. cbn [mbind option_bind].
    rewrite level_max_canonical_unfold. cbv zeta.
    pose proof (weight_parts a' b') as Hw.
    destruct (2 <=? _) eqn:Hlen; [|cbn [andb]]; cycle 1.
    { eexists; split; [done|]. pose proof (size_canonical_plain a' b'). simpl; lia. }
    case_bool_decide as Hk; cbn [andb negb].
    { eexists; split; [done|]. pose proof (size_canonical_plain a' b'). simpl; lia. }
    apply Nat.leb_le in Hlen. pose proof (size_stripped _ _ Hlen Hk) as Hs.
    destruct (IH (stripped (constant_part a' b') (symbolic_part a' b')))
      as (l' & H1 & H2); [lia|].
    rewrite H1. eexists; split; [done|].
    etrans; [apply size_add_offset|]. simpl. lia.
  - simpl in Hn. destruct (IH l) as (l' & H1 & H2); [lia|].
    exists (level_add_offset l' by_). cbn [normalize_fuel]. rewrite H1.
    split; [done|]. pose proof (size_add_offset l' by_). simpl. lia.
Qed.

Lemma normalize_fuel_mono n m l l' :
  n ≤ m → normalize_fuel n l = Some l' → normalize_fuel m l = Some l'.
Proof.
  revert m l l'; induction n as [|n IH]; intros m l l' Hm; [done|].
  destruct m as [|m]; [lia|].
  destruct l as [c|v|l|a b|l by_]; cbn [normalize_fuel]; try done.
  - intros (x & Hx & [= <-])%bind_Some. by rewrite (IH m _ _ ltac:(lia) Hx).
  - intros (x & Hx & (y & Hy & H)%bind_Some)%bind_Some.
    rewrite (IH m _ _ ltac:(lia) Hx), (IH m _ _ ltac:(lia) Hy). cbn [mbind option_bind].
    rewrite level_max_canonical_unfold in *. cbv zeta in *.
    destruct (_ && _); [|done].
    apply bind_Some in H as (z & Hz & [= <-]). by rewrite (IH m _ _ ltac:(lia) Hz).
  - intros (x & Hx & [= <-])%bind_Some. by rewrite (IH m _ _ ltac:(lia) Hx).
Qed.

Lemma normalize_fuel_normalize n l :
  size l ≤ n → normalize_fuel n l = Some (normalize l).
Proof.
  intros Hn. unfold normalize.
  destruct (normalize_fuel_size (size l) l) as (l' & H & _); [done|].
  rewrite H. simpl. by eapply normalize_fuel_mono.
Qed.

(** ** Normalisation is exact *)
Lemma canonical_eval f ρ a b l :
  (∀ x y, f x = Some y → eval ρ y = eval ρ x) →
  level_max_canonical f a b = Some l → eval ρ l = N.max (eval ρ a) (eval ρ b).
Proof.
  intros Hf. rewrite level_max_canonical_unfold. cbv zeta.
  set (c := constant_part a b). set (s := symbolic_part a b).
  assert (N.max (cmax c) (lmax ρ s) = N.max (eval ρ a) (eval ρ b)) as Hcs.
  { unfold c, s, constant_part, symbolic_part, summand_list.
    rewrite lmax_dedup, (lmax_perm _ _ _ (sort_levels_perm _)), lmax_split, !lmax_flatten.
    simpl. lia. }
  destruct (2 <=? _) eqn:Hlen; cbn [andb].
  2: { intros [= <-]. by rewrite eval_assemble. }
  case_bool_decide as Hk; cbn [negb].
  { intros [= <-]. by rewrite eval_assemble. }
  intros (x & Hx & [= <-])%bind_Some.
  rewrite eval_add_offset, (Hf _ _ Hx). unfold stripped. rewrite eval_assemble.
  destruct (common_depth_le c s) as [Hc Hs].
  set (k := level_common_succ_depth c s) in *. rewrite <- Hcs.
  destruct c as [n|]; destruct (decide (s = [])) as [E|E].
  - rewrite E in Hlen. done.
  - rewrite <- (lmax_strip ρ k s E Hs). specialize (Hc n eq_refl).
    unfold cmax. simpl. rewrite saturating_sub_val. lia.
  - rewrite E in Hlen. done.
  - rewrite <- (lmax_strip ρ k s E Hs). unfold cmax. simpl. lia.
Qed.

Lemma normalize_fuel_eval ρ n l l' :
  normalize_fuel n l = Some l' → eval ρ l' = eval ρ l.
Proof.
  revert l l'; induction n as [|n IH]; intros l l'; [done|].
  destruct l as [c|v|l|a b|l by_]; cbn [normalize_fuel].
  - by intros [= <-].
  - by intros [= <-].
  - intros (x & Hx & [= <-])%bind_Some.
    rewrite eval_add_offset, (IH _ _ Hx). simpl. u32_lia.
  - intros (x & Hx & (y & Hy & H)%bind_Some)%bind_Some.
    rewrite (canonical_eval _ ρ _ _ _ IH H), (IH _ _ Hx), (IH _ _ Hy). done.
  - intros (x & Hx & [= <-])%bind_Some. by rewrite eval_add_offset, (IH _ _ Hx).
Qed.

Lemma normalize_eval ρ l : eval ρ (normalize l) = eval ρ l.
Proof. eapply normalize_fuel_eval, normalize_fuel_normalize. done. Qed.

Lemma normalize_equiv l : level_equiv (normalize l) l.
Proof. intros ρ. apply normalize_eval. Qed.

(** ** Closed levels *)
Lemma closed_add_offset l by_ :
  closed_level l = true → closed_level (level_add_offset l by_) = true.
Proof.
  revert by_; induction l as [n|v|l IH|a IHa b IHb|l IH prior]; intros by_ Hl; simpl in *;
    case_decide; try done; unfold level_offset_node;
    try (destruct (checked_add _ _)); repeat case_decide; simpl; auto.
Qed.

Lemma add_offset_concrete n by_ :
  (u32_val n + u32_val by_ ≤ U32_MAX)%N →
  ∃ m, level_add_offset (Concrete n) by_ = Concrete m.
Proof.
  intros H. simpl. case_decide; [eauto|].
  destruct (checked_add n by_) eqn:E; [eauto|]. exfalso. u32_lia.
Qed.

Lemma canonical_concrete f n m :
  level_max_canonical f (Concrete n) (Concrete m) = Some (Concrete (u32_max n m)).
Proof.
  unfold level_max_canonical, level_assemble_max. simpl. by rewrite andb_false_r.
Qed.

Lemma normalize_fuel_closed ρ n l l' :
  closed_level l = true → (eval ρ l ≤ U32_MAX)%N → normalize_fuel n l = Some l' →
  ∃ m, l' = Concrete m.
Proof.
  revert l l'; induction n as [|n IH]; intros l l' Hc Hb; [done|].
  destruct l as [c|v|l|a b|l by_]; cbn [normalize_fuel closed_level eval] in *.
  - intros [= <-]. eauto.
  - done.
  - intros (x & Hx & [= <-])%bind_Some.
    destruct (IH _ _ Hc ltac:(lia) Hx) as [m ->].
    apply (normalize_fuel_eval ρ) in Hx. simpl in Hx. apply add_offset_concrete. u32_lia.
  - apply andb_true_iff in Hc as [Ha Hb'].
    intros (x & Hx & (y & Hy & H)%bind_Some)%bind_Some.
    destruct (IH _ _ Ha ltac:(lia) Hx) as [p ->].
    destruct (IH _ _ Hb' ltac:(lia) Hy) as [q ->].
    rewrite canonical_concrete in H. injection H as <-. eauto.
  - intros (x & Hx & [= <-])%bind_Some.
    destruct (IH _ _ Hc ltac:(lia) Hx) as [m ->].
    apply (normalize_fuel_eval ρ) in Hx. simpl in Hx. apply add_offset_concrete. u32_lia.
Qed.

Lemma normalize_closed ρ l :
  closed_level l = true → (eval ρ l ≤ U32_MAX)%N →
  ∃ m, normalize l = Concrete m ∧ u32_val m = eval ρ l.
Proof.
  intros Hc Hb. pose proof (normalize_fuel_normalize _ l (le_n _)) as H.
  destruct (normalize_fuel_closed ρ _ _ _ Hc Hb H) as [m Hm].
  exists m. split; [done|]. by rewrite <- (normalize_eval ρ l), Hm.
Qed.

(** ** [Max] is commutative for the normal form *)
Definition cjoin (c d : option u32) : option u32 :=
  match c, d with
  | Some n, Some m => Some (u32_max n m)
  | Some n, None => Some n
  | None, d => d
  end.

Lemma u32_max_comm n m : u32_max n m = u32_max m n.
Proof. apply u32_eq. rewrite !u32_max_val. lia. Qed.
Lemma u32_max_assoc n m k : u32_max n (u32_max m k) = u32_max (u32_max n m) k.
Proof. apply u32_eq. rewrite !u32_max_val. lia. Qed.

Lemma cjoin_assoc c d e : cjoin c (cjoin d e) = cjoin (cjoin c d) e.
Proof. destruct c, d, e; simpl; rewrite ?u32_max_assoc; done. Qed.
Lemma cjoin_comm c d : cjoin c d = cjoin d c.
Proof. destruct c, d; simpl; try done. by rewrite u32_max_comm. Qed.

Definition as_constant (l : Level) : option u32 :=
  match l with Concrete n => Some n | _ => None end.
Definition is_symbolic (l : Level) : Prop := as_constant l = None.

#[export] Instance is_symbolic_dec l : Decision (is_symbolic l).
Proof. unfold is_symbolic. apply _. Defined.

Lemma split_from_spec ls c s :
  foldl split_step (c, s) ls =
    (foldl cjoin c (as_constant <$> ls), s ++ filter is_symbolic ls).
Proof.
  revert c s; induction ls as [|l ls IH]; intros c s; [by rewrite app_nil_r|].
  cbn [foldl]. rewrite filter_cons. unfold split_step at 2.
  destruct l as [n| | | |]; rewrite IH; simpl;
    rewrite ?decide_False by done; rewrite ?decide_True by done;
    rewrite <- ?app_assoc; try (destruct c; done).
Qed.

Lemma foldl_cjoin c cs : foldl cjoin c cs = cjoin c (foldr cjoin None cs).
Proof.
  revert c; induction cs as [|d cs IH]; intros c; simpl; [by destruct c|].
  by rewrite IH, cjoin_assoc.
Qed.

Lemma foldr_cjoin_perm cs cs' :
  cs ≡ₚ cs' → foldr cjoin None cs = foldr cjoin None cs'.
Proof.
  induction 1 as [|c cs cs' _ IH|c d cs|cs1 cs2 cs3 _ IH1 _ IH2]; simpl; try congruence.
  rewrite !cjoin_assoc. f_equal. apply cjoin_comm.
Qed.

Lemma split_summands_perm ls ls' :
  ls ≡ₚ ls' →
  (split_summands ls).1 = (split_summands ls').1 ∧
  (split_summands ls).2 ≡ₚ (split_summands ls').2.
Proof.
  intros H. change (split_summands ls) with (foldl split_step (None, []) ls).
  change (split_summands ls') with (foldl split_step (None, []) ls').
  rewrite !split_from_spec; simpl. split; [|by rewrite H].
  rewrite !foldl_cjoin. f_equal. apply foldr_cjoin_perm. by rewrite H.
Qed.

Lemma flatten_app l out : flatten_max_into l out = out ++ flatten_max_into l [].
Proof.
  revert out; induction l as [n|v|l IH|a IHa b IHb|l IH p]; intros out; simpl; try done.
  by rewrite IHb, IHa, (IHb (flatten_max_into a [])), app_assoc.
Qed.

Lemma canonical_comm f a b : level_max_canonical f a b = level_max_canonical f b a.
Proof.
  rewrite !level_max_canonical_unfold.
  assert (summand_list a b ≡ₚ summand_list b a) as Hp.
  { unfold summand_list. rewrite (flatten_app b), (flatten_app a (flatten_max_into b [])).
    apply Permutation_app_comm. }
  destruct (split_summands_perm _ _ Hp) as [Hc Hs].
  assert (constant_part a b = constant_part b a) as -> by exact Hc.
  assert (symbolic_part a b = symbolic_part b a) as ->; [|done].
  unfold symbolic_part. by rewrite Hs.
Qed.

Lemma normalize_comm a b : normalize (Max a b) = normalize (Max b a).
Proof.
  assert (∀ n, normalize_fuel n (Max a b) = normalize_fuel n (Max b a)) as H.
  { intros [|n]; [done|]. cbn [normalize_fuel].
    destruct (normalize_fuel n a), (normalize_fuel n b); try done. apply canonical_comm. }
  pose proof (normalize_fuel_normalize (size (Max a b)) _ (le_n _)) as H1.
  rewrite H in H1. rewrite normalize_fuel_normalize in H1 by (simpl; lia). congruence.
Qed.

Lemma level_eq_equiv a b : level_eq a b = true → level_equiv a b.
Proof.
  unfold level_eq. intros H%level_eqb_eq.
  by rewrite <- (normalize_equiv a), H, normalize_equiv.
Qed.

(** ** Properties *)

(** [Level::normalize] terminates on every level: fuel equal to the number
    of its constructors is enough, for a term whose recursion is not
    structural; the result has no more constructors and denotes the same
    universe under every assignment of the level variables. *)
Theorem normalize_terminates_exact l n :
  size l ≤ n →
  normalize_fuel n l = Some (normalize l) ∧
  size (normalize l) ≤ size l ∧
  level_equiv (normalize l) l.
Proof.
  intros Hn. split; [by apply normalize_fuel_normalize|]. split; [|apply normalize_equiv].
  destruct (normalize_fuel_size _ l (le_n _)) as (l' & H & Hs).
  rewrite normalize_fuel_normalize in H by done. by injection H as <-.
Qed.

(** [level_eq] never identifies different universes: levels with the same
    normal form are equal under every assignment of their variables. *)
Theorem level_eq_sound a b : level_eq a b = true → level_equiv a b.
Proof. apply level_eq_equiv. Qed.

(** On closed levels whose value fits in 32 bits [level_eq] is complete:
    it decides equality of the universes they denote. *)
Theorem level_eq_closed_complete a b :
  closed_level a = true → closed_level b = true → (eval (λ _, 0%N) a ≤ U32_MAX)%N →
  level_eq a b = true ↔ level_equiv a b.
Proof.
  intros Ha Hb Hm. split; [apply level_eq_equiv|]. intros Hab.
  destruct (normalize_closed (λ _, 0%N) a) as (n & Hn & En); try done.
  destruct (normalize_closed (λ _, 0%N) b) as (m & Hm' & Em); [done|by rewrite <- Hab|].
  unfold level_eq. apply level_eqb_eq. rewrite Hn, Hm'. f_equal.
  apply u32_eq. by rewrite En, Em.
Qed.

(** The order in which the two sides of a [max] were written never matters
    to the comparison. *)
Theorem level_eq_max_comm a b : level_eq (Max a b) (Max b a) = true.
Proof. unfold level_eq. apply level_eqb_eq, normalize_comm. Qed.

Lemma max_with_eval ρ a b : eval ρ (max_with a b) = N.max (eval ρ a) (eval ρ b).
Proof.
  rewrite <- (normalize_eval ρ a), <- (normalize_eval ρ b). unfold max_with.
  destruct (normalize a) as [n| | | |], (normalize b) as [m| | | |]; cbn [is_zero];
    repeat case_bool_decide; try (case_decide as E; [apply (f_equal (eval ρ)) in E|]);
    rewrite ?normalize_eval; simpl in *; rewrite ?u32_max_val; lia.
Qed.

(** Every arithmetic operation on levels is exact, however large the
    offset: a successor, a shift and a maximum never wrap around or saturate
    at the 32-bit boundary of the representation. *)
Theorem level_arithmetic_exact ρ a b by_ :
  (eval ρ (successor a) = eval ρ a + 1)%N ∧
  (eval ρ (shifted_by a by_) = eval ρ a + u32_val by_)%N ∧
  eval ρ (max_with a b) = N.max (eval ρ a) (eval ρ b).
Proof.
  split; [apply eval_successor|]. split; [|apply max_with_eval].
  unfold shifted_by. case_decide; [lia|]. by rewrite eval_add_offset, normalize_eval.
Qed.

Definition lu : Level := Var "u".
Definition lv : Level := Var "v".
Definition lw : Level := Var "w".

(** The normal form is not canonical for nested maxima: [normalize] is not
    idempotent, and the two bracketings of one three-way maximum denote the
    same universe but are told apart. *)
Theorem normalize_not_idempotent :
  let l := Max (Succ lu) (Max (Succ lv) lw) in
  let r := Max (Max (Succ lu) (Succ lv)) lw in
  normalize (normalize l) ≠ normalize l ∧
  level_eq l (normalize l) = false ∧
  level_equiv l r ∧ level_eq l r = false.
Proof.
  cbv zeta. split; [|split; [|split]]; try (by vm_compute).
  intros ρ. simpl. lia.
Qed.

(** ** Witnesses *)
Lemma normalize_terminates_exact_witness :
  normalize_fuel 5 (Max (Succ lu) (Offset lv (u32_of 3))) =
    Some (Succ (Max lu (Offset lv (u32_of 2)))) ∧
  level_equiv (normalize (Max (Succ lu) (Offset lv (u32_of 3))))
    (Max (Succ lu) (Offset lv (u32_of 3))).
Proof.
  destruct (normalize_terminates_exact (Max (Succ lu) (Offset lv (u32_of 3))) 5)
    as (H & _ & E); [vm_compute; lia|].
  split; [|exact E]. rewrite H. vm_compute. reflexivity.
Defined.

Lemma level_eq_sound_witness :
  level_equiv (Max (Succ lu) (Succ lv)) (Succ (Max lu lv)).
Proof. apply level_eq_sound. vm_compute. reflexivity. Defined.

Lemma level_eq_closed_complete_witness :
  level_eq (Max (Succ (Concrete (u32_of 2))) (Concrete (u32_of 1)))
    (Offset (Concrete (u32_of 1)) (u32_of 2)) = true.
Proof.
  apply level_eq_closed_complete; [reflexivity|reflexivity|vm_compute; congruence|].
  intros ρ. vm_compute. reflexivity.
Defined.
