(* ===== verification/Syntax.v ===== *)
(** * Proof terms

    [Term] models the enum [Term] of [verum_proof/src/proof_checker.rs] with
    its constructors, [DataField] and [DataConstructor] the portable inductive
    declarations, and [map_children] the generic traversal.  A de Bruijn index
    is a [nat]: the model has no bound on the number of binders. *)

From S2P Require Import Prelude Levels.

Export Level (Level).

Inductive DataField (T : Type) : Type :=
| Value (ty : T)
| Dependent (ty : T)
| Recursive
| RecursiveAt (indices : list T).
Arguments Value {T} ty.
Arguments Dependent {T} ty.
Arguments Recursive {T}.
Arguments RecursiveAt {T} indices.

Record DataConstructor (F T : Type) : Type := Ctor {
  fields : list F;
  indices : list T
}.
Arguments Ctor {F T} fields indices.
Arguments fields {F T} d.
Arguments indices {F T} d.

Inductive Term : Type :=
| Data (name : string) (level : Level) (ixs : list Term)
    (constructors : list (DataConstructor (DataField Term) Term))
| Construct (data : Term) (constructor : nat) (args : list Term)
| Induct (scrutinee motive : Term) (cases : list Term)
| Let (value body : Term)
| Var (i : nat)
| Universe (l : Level)
| Pi (a b : Term)
| Lam (a b : Term)
| App (f x : Term)
| Sigma (a b : Term)
| Pair (a b : Term)
| Fst (p : Term)
| Snd (p : Term)
| Id (ty lhs rhs : Term)
| Refl (a : Term)
| J (motive base scrutinee : Term)
| IdElim (motive base scrutinee : Term)
| FunExt (function_type lhs rhs pointwise : Term).

Abbreviation TermConstructor := (DataConstructor (DataField Term) Term).

(** [Term::map_children]: every immediate child with its binder count. *)
Definition map_field (map : Term → nat → Term) (index : nat) (f : DataField Term)
    : DataField Term :=
  match f with
  | Value t => Value (map t 0)
  | Dependent t => Dependent (map t index)
  | Recursive => Recursive
  | RecursiveAt ixs => RecursiveAt (List.map (λ t, map t index) ixs)
  end.

Definition map_constructor (map : Term → nat → Term) (c : TermConstructor)
    : TermConstructor :=
  let count := length (fields c) in
  Ctor (mapi_from (map_field map) 0 (fields c))
       (List.map (λ t, map t count) (indices c)).

Definition map_children (map : Term → nat → Term) (t : Term) : Term :=
  match t with
  | FunExt function_type lhs rhs pointwise =>
      FunExt (map function_type 0) (map lhs 0) (map rhs 0) (map pointwise 0)
  | Data name level ixs constructors =>
      Data name level (mapi_from (λ i ty, map ty i) 0 ixs)
        (List.map (map_constructor map) constructors)
  | Construct data constructor args =>
      Construct (map data 0) constructor (List.map (λ t, map t 0) args)
  | Induct scrutinee motive cases =>
      Induct (map scrutinee 0) (map motive 0) (List.map (λ t, map t 0) cases)
  | Let value body => Let (map value 0) (map body 1)
  | Pi a b => Pi (map a 0) (map b 1)
  | Lam a b => Lam (map a 0) (map b 1)
  | Sigma a b => Sigma (map a 0) (map b 1)
  | App a b => App (map a 0) (map b 0)
  | Pair a b => Pair (map a 0) (map b 0)
  | Fst a => Fst (map a 0)
  | Snd a => Snd (map a 0)
  | Refl a => Refl (map a 0)
  | Id ty lhs rhs => Id (map ty 0) (map lhs 0) (map rhs 0)
  | J motive base scrutinee => J (map motive 0) (map base 0) (map scrutinee 0)
  | IdElim motive base scrutinee =>
      IdElim (map motive 0) (map base 0) (map scrutinee 0)
  | Var _ | Universe _ => t
  end.

(** [Term::map_variables]. *)
Fixpoint map_variables (t : Term) (depth : nat) (map : nat → nat → Term) : Term :=
  match t with
  | Var index => map index depth
  | t => map_children (λ child binders, map_variables child (depth + binders) map) t
  end.

(** ** Equality of terms, the derived [PartialEq] *)
Fixpoint list_eqb {A} (eqb : A → A → bool) (l l' : list A) : bool :=
  match l, l' with
  | [], [] => true
  | x :: l, x' :: l' => eqb x x' && list_eqb eqb l l'
  | _, _ => false
  end.

Definition field_eqb (eqb : Term → Term → bool) (f g : DataField Term) : bool :=
  match f, g with
  | Value a, Value b | Dependent a, Dependent b => eqb a b
  | Recursive, Recursive => true
  | RecursiveAt l, RecursiveAt l' => list_eqb eqb l l'
  | _, _ => false
  end.

Definition constructor_eqb (eqb : Term → Term → bool) (c d : TermConstructor) : bool :=
  list_eqb (field_eqb eqb) (fields c) (fields d) && list_eqb eqb (indices c) (indices d).

Fixpoint term_eqb (t u : Term) {struct t} : bool :=
  match t, u with
  | Data n l ixs cs, Data n' l' ixs' cs' =>
      String.eqb n n' && Level.level_eqb l l' && list_eqb term_eqb ixs ixs' &&
      list_eqb (constructor_eqb term_eqb) cs cs'
  | Construct d k args, Construct d' k' args' =>
      term_eqb d d' && Nat.eqb k k' && list_eqb term_eqb args args'
  | Induct s m cs, Induct s' m' cs' =>
      term_eqb s s' && term_eqb m m' && list_eqb term_eqb cs cs'
  | Var i, Var j => Nat.eqb i j
  | Universe l, Universe l' => Level.level_eqb l l'
  | Let a b, Let a' b' | Pi a b, Pi a' b' | Lam a b, Lam a' b' | App a b, App a' b'
  | Sigma a b, Sigma a' b' | Pair a b, Pair a' b' => term_eqb a a' && term_eqb b b'
  | Fst a, Fst a' | Snd a, Snd a' | Refl a, Refl a' => term_eqb a a'
  | Id a b c, Id a' b' c' | J a b c, J a' b' c' | IdElim a b c, IdElim a' b' c' =>
      term_eqb a a' && term_eqb b b' && term_eqb c c'
  | FunExt a b c d, FunExt a' b' c' d' =>
      term_eqb a a' && term_eqb b b' && term_eqb c c' && term_eqb d d'
  | _, _ => false
  end.

(** ** Immediate children with their binder counts *)
Definition field_children (index : nat) (f : DataField Term) : list (Term * nat) :=
  match f with
  | Value t => [(t, 0)]
  | Dependent t => [(t, index)]
  | Recursive => []
  | RecursiveAt ixs => (λ t, (t, index)) <$> ixs
  end.

Definition constructor_children (c : TermConstructor) : list (Term * nat) :=
  concat (mapi_from field_children 0 (fields c)) ++
  ((λ t, (t, length (fields c))) <$> indices c).

Definition children (t : Term) : list (Term * nat) :=
  match t with
  | Data _ _ ixs cs =>
      mapi_from (λ i ty, (ty, i)) 0 ixs ++ concat (constructor_children <$> cs)
  | Construct d _ args => (d, 0) :: ((λ t, (t, 0)) <$> args)
  | Induct s m cases => (s, 0) :: (m, 0) :: ((λ t, (t, 0)) <$> cases)
  | Let a b | Pi a b | Lam a b | Sigma a b => [(a, 0); (b, 1)]
  | App a b | Pair a b => [(a, 0); (b, 0)]
  | Fst a | Snd a | Refl a => [(a, 0)]
  | Id a b c | J a b c | IdElim a b c => [(a, 0); (b, 0); (c, 0)]
  | FunExt a b c d => [(a, 0); (b, 0); (c, 0); (d, 0)]
  | Var _ | Universe _ => []
  end.

(** ** Induction on terms through their children *)
Definition Forall_all {A} (P : A → Prop) (H : ∀ x, P x) : ∀ l, Forall P l :=
  fix go l :=
    match l with
    | [] => Forall_nil_2 P
    | x :: l => Forall_cons_2 P x l (H x) (go l)
    end.

Section term_ind.
Context (P : Term → Prop) (step : ∀ t, Forall (λ c, P c.1) (children t) → P t).

Definition on_field (f : DataField Term) : Prop :=
  match f with
  | Value t | Dependent t => P t
  | Recursive => True
  | RecursiveAt ixs => Forall P ixs
  end.
Definition on_constructor (c : TermConstructor) : Prop :=
  Forall on_field (fields c) ∧ Forall P (indices c).

Lemma Forall_tagged n (l : list Term) :
  Forall P l → Forall (λ c : Term * nat, P c.1) ((λ t, (t, n)) <$> l).
Proof. induction 1; constructor; auto. Qed.

Lemma Forall_enumerated n (l : list Term) :
  Forall P l → Forall (λ c : Term * nat, P c.1) (mapi_from (λ i ty, (ty, i)) n l).
Proof. intros H; revert n; induction H; intros n; constructor; simpl; auto. Qed.

Lemma field_children_ind n f :
  on_field f → Forall (λ c : Term * nat, P c.1) (field_children n f).
Proof. destruct f; simpl; intros; repeat constructor; auto using Forall_tagged. Qed.

Lemma constructor_children_ind c :
  on_constructor c → Forall (λ c : Term * nat, P c.1) (constructor_children c).
Proof.
  intros [Hf Hi]. apply Forall_app; split; [|by apply Forall_tagged].
  generalize 0. induction Hf as [|f fs Hf _ IH]; intros n; simpl; [constructor|].
  apply Forall_app; auto using field_children_ind.
Qed.

Lemma children_of_data ixs cs :
  Forall P ixs → Forall on_constructor cs →
  Forall (λ c : Term * nat, P c.1)
    (mapi_from (λ i ty, (ty, i)) 0 ixs ++ concat (constructor_children <$> cs)).
Proof.
  intros Hi Hc. apply Forall_app; split; [by apply Forall_enumerated|].
  induction Hc; simpl; [constructor|]. apply Forall_app; auto using constructor_children_ind.
Qed.

Definition field_ind (IH : ∀ t, P t) (f : DataField Term) : on_field f :=
  match f with
  | Value t => IH t
  | Dependent t => IH t
  | Recursive => I
  | RecursiveAt ixs => Forall_all P IH ixs
  end.
Definition constructor_ind (IH : ∀ t, P t) (c : TermConstructor) : on_constructor c :=
  match c with
  | Ctor fs ixs => conj (Forall_all on_field (field_ind IH) fs) (Forall_all P IH ixs)
  end.

Lemma term_children_ind : ∀ t, P t.
Proof.
  fix IH 1. intros t. apply step. destruct t; simpl.
  1: exact (children_of_data _ _ (Forall_all P IH ixs)
              (Forall_all on_constructor (constructor_ind IH) constructors)).
  1: exact (Forall_cons_2 _ (_, 0) _ (IH t) (Forall_tagged 0 _ (Forall_all P IH args))).
  1: exact (Forall_cons_2 _ (_, 0) _ (IH t1) (Forall_cons_2 _ (_, 0) _ (IH t2)
              (Forall_tagged 0 _ (Forall_all P IH cases)))).
  all: repeat (apply Forall_cons; split; [apply IH|]); apply Forall_nil; exact I.
Qed.
End term_ind.

(** ** [map_children] and [children] *)
Lemma map_tagged_ext n (f g : Term → nat → Term) l :
  Forall (λ c, f c.1 c.2 = g c.1 c.2) ((λ t, (t, n)) <$> l) →
  List.map (λ t, f t n) l = List.map (λ t, g t n) l.
Proof.
  induction l as [|x l IH]; simpl; [done|].
  intros [H1 H2]%Forall_cons. f_equal; [exact H1|auto].
Qed.

Lemma map_enumerated_ext n (f g : Term → nat → Term) l :
  Forall (λ c, f c.1 c.2 = g c.1 c.2) (mapi_from (λ i ty, (ty, i)) n l) →
  mapi_from (λ i ty, f ty i) n l = mapi_from (λ i ty, g ty i) n l.
Proof.
  revert n; induction l as [|x l IH]; intros n; simpl; [done|].
  intros [H1 H2]%Forall_cons. f_equal; [exact H1|auto].
Qed.

Lemma map_field_ext n (f g : Term → nat → Term) d :
  Forall (λ c, f c.1 c.2 = g c.1 c.2) (field_children n d) → map_field f n d = map_field g n d.
Proof.
  destruct d; simpl; intros H; rewrite ?Forall_cons in H; simpl in H; f_equal; try tauto.
  by apply map_tagged_ext.
Qed.

Lemma map_fields_ext n (f g : Term → nat → Term) fs :
  Forall (λ c, f c.1 c.2 = g c.1 c.2) (concat (mapi_from field_children n fs)) →
  mapi_from (map_field f) n fs = mapi_from (map_field g) n fs.
Proof.
  revert n; induction fs as [|x l IH]; intros n; simpl; [done|].
  intros [H1 H2]%Forall_app. f_equal; auto using map_field_ext.
Qed.

Lemma map_constructor_ext (f g : Term → nat → Term) c :
  Forall (λ c, f c.1 c.2 = g c.1 c.2) (constructor_children c) →
  map_constructor f c = map_constructor g c.
Proof.
  intros [H1 H2]%Forall_app. unfold map_constructor.
  f_equal; auto using map_fields_ext, map_tagged_ext.
Qed.

Lemma map_children_ext (f g : Term → nat → Term) t :
  Forall (λ c, f c.1 c.2 = g c.1 c.2) (children t) → map_children f t = map_children g t.
Proof.
  destruct t; simpl; intros H; rewrite ?Forall_cons, ?Forall_app in H; simpl in H;
    f_equal; try tauto; try (apply map_tagged_ext; tauto).
  - apply map_enumerated_ext; tauto.
  - destruct H as [_ H]. induction constructors as [|c cs IH]; simpl in *; [done|].
    apply Forall_app in H as [H1 H2]. f_equal; auto using map_constructor_ext.
Qed.

Lemma map_field_compose n (f g : Term → nat → Term) d :
  map_field g n (map_field f n d) = map_field (λ c b, g (f c b) b) n d.
Proof. destruct d; simpl; rewrite ?List.map_map; done. Qed.

Lemma map_constructor_compose (f g : Term → nat → Term) c :
  map_constructor g (map_constructor f c) = map_constructor (λ c b, g (f c b) b) c.
Proof.
  unfold map_constructor; simpl. rewrite mapi_from_mapi_from, mapi_from_length, List.map_map.
  f_equal. apply mapi_from_ext. intros. apply map_field_compose.
Qed.

Lemma map_children_compose (f g : Term → nat → Term) t :
  map_children g (map_children f t) = map_children (λ c b, g (f c b) b) t.
Proof.
  destruct t; simpl; rewrite ?mapi_from_mapi_from, ?List.map_map; try done.
  f_equal. apply List.map_ext, map_constructor_compose.
Qed.

Lemma tagged_map n (f : Term → nat → Term) l :
  (λ t, (t, n)) <$> List.map (λ t, f t n) l =
    (λ c : Term * nat, (f c.1 c.2, c.2)) <$> ((λ t, (t, n)) <$> l).
Proof. induction l as [|x l IH]; [done|]. cbn [List.map]. by rewrite !fmap_cons, IH. Qed.

Lemma field_children_map n (f : Term → nat → Term) d :
  field_children n (map_field f n d) = (λ c, (f c.1 c.2, c.2)) <$> field_children n d.
Proof. destruct d; try done. apply tagged_map. Qed.

Lemma constructor_children_map (f : Term → nat → Term) c :
  constructor_children (map_constructor f c) =
    (λ c, (f c.1 c.2, c.2)) <$> constructor_children c.
Proof.
  unfold constructor_children, map_constructor; simpl.
  rewrite fmap_app, mapi_from_length. f_equal.
  - rewrite mapi_from_mapi_from. generalize 0.
    induction (fields c) as [|d fs IH]; intros n; simpl; [done|].
    by rewrite fmap_app, field_children_map, IH.
  - apply tagged_map.
Qed.

Lemma children_map_children (f : Term → nat → Term) t :
  children (map_children f t) = (λ c, (f c.1 c.2, c.2)) <$> children t.
Proof.
  destruct t; simpl; try done; try (by rewrite tagged_map).
  - rewrite fmap_app, mapi_from_mapi_from. f_equal.
    + symmetry. apply map_mapi_from.
    + induction constructors as [|c cs IH]; [done|].
      cbn [List.map]. rewrite !fmap_cons. cbn [concat].
      by rewrite fmap_app, <- IH, constructor_children_map.
Qed.

(** Every term but a variable is rebuilt from its children. *)
Lemma map_variables_children t d map :
  (∀ i, t ≠ Var i) →
  map_variables t d map = map_children (λ c b, map_variables c (d + b) map) t.
Proof. destruct t; try done. intros H. by destruct (H i). Qed.

Lemma children_not_var t f i : map_children f t = Var i → t = Var i.
Proof. by destruct t. Qed.

Definition is_var (t : Term) : option nat :=
  match t with Var i => Some i | _ => None end.

Lemma var_or_not t : (∃ i, t = Var i) ∨ (∀ i, t ≠ Var i).
Proof. destruct t; eauto; right; done. Qed.

(** ** Correctness of [term_eqb] *)
Lemma list_eqb_eq {A} (eqb : A → A → bool) l :
  Forall (λ x, ∀ y, eqb x y = true ↔ x = y) l → ∀ l', list_eqb eqb l l' = true ↔ l = l'.
Proof.
  induction 1 as [|x l Hx _ IH]; intros [|y l']; simpl; try (split; congruence).
  rewrite andb_true_iff, Hx, IH. intuition congruence.
Qed.

Definition eqb_ok (t : Term) : Prop := ∀ u, term_eqb t u = true ↔ t = u.

Lemma untag n (P : Term → Prop) l :
  Forall (λ c : Term * nat, P c.1) ((λ t, (t, n)) <$> l) → Forall P l.
Proof. by rewrite Forall_fmap. Qed.

Lemma field_eqb_eq n f :
  Forall (λ c, eqb_ok c.1) (field_children n f) → ∀ g, field_eqb term_eqb f g = true ↔ f = g.
Proof.
  intros H [t|t| |ixs]; destruct f; simpl in *; try (split; congruence).
  1,2: apply Forall_cons in H as [H _]; rewrite (H t); simpl; intuition congruence.
  rewrite (list_eqb_eq _ _ (untag _ _ _ H)). intuition congruence.
Qed.

Lemma constructor_eqb_eq c :
  Forall (λ c, eqb_ok c.1) (constructor_children c) →
  ∀ d, constructor_eqb term_eqb c d = true ↔ c = d.
Proof.
  intros [H1 H2]%Forall_app [fs ixs]. destruct c as [fs' ixs']; unfold constructor_eqb; simpl in *.
  rewrite andb_true_iff, (list_eqb_eq _ _ (untag _ _ _ H2)), list_eqb_eq.
  - intuition congruence.
  - clear -H1. revert H1. generalize 0. induction fs' as [|f fs' IH]; intros n; simpl; [done|].
    intros [H H']%Forall_app. constructor; eauto using field_eqb_eq.
Qed.

Lemma term_eqb_eq t u : term_eqb t u = true ↔ t = u.
Proof.
  revert u; change (eqb_ok t). induction t as [t IH] using term_children_ind.
  intros u. destruct t, u; simpl in *;
    rewrite ?Forall_cons, ?Forall_nil in IH; simpl in IH; unfold eqb_ok in *; try (split; congruence);
    rewrite ?andb_true_iff, ?String.eqb_eq, ?Nat.eqb_eq, ?Level.level_eqb_eq.
  4-18: intuition (repeat match goal with
    | H : ∀ u, term_eqb ?x u = true ↔ _, H' : term_eqb ?x _ = true |- _ => apply H in H'
    | H : ∀ u, term_eqb ?x u = true ↔ _ |- term_eqb ?x _ = true => apply H
    end; congruence).
  - apply Forall_app in IH as [H1 H2].
    rewrite !list_eqb_eq; [intuition congruence| |].
    + clear -H2. induction constructors as [|c cs IH]; simpl in *; [done|].
      apply Forall_app in H2 as [? ?]. constructor; auto using constructor_eqb_eq.
    + clear -H1. revert H1. generalize 0. induction ixs; intros n; simpl; [done|].
      intros [? ?]%Forall_cons. constructor; eauto.
  - destruct IH as [H1 H2]. rewrite (list_eqb_eq _ _ (untag 0 eqb_ok _ H2)), H1.
    intuition congruence.
  - destruct IH as (H1 & H2 & H3).
    rewrite (list_eqb_eq _ _ (untag 0 eqb_ok _ H3)), H1, H2. intuition congruence.
Qed.

#[export] Instance term_eq_dec : EqDecision Term := λ t u,
  match term_eqb t u as r return term_eqb t u = r → _ with
  | true => λ e, left (proj1 (term_eqb_eq t u) e)
  | false => λ e, right (λ h, eq_true_false_abs _ (proj2 (term_eqb_eq t u) h) e)
  end eq_refl.

(** ** Sums over the children of a term

    Measures of terms are sums over their immediate children; this file relates
    the sum written over the fields of each constructor to the list
    [children]. *)

(** The sum of a function of binder count and term over the children. *)
Definition sum_field (f : nat → Term → nat) (i : nat) (d : DataField Term) : nat :=
  match d with
  | Value t => f 0 t
  | Dependent t => f i t
  | Recursive => 0
  | RecursiveAt ixs => list_sum (List.map (f i) ixs)
  end.

Definition sum_constructor (f : nat → Term → nat) (c : TermConstructor) : nat :=
  list_sum (mapi_from (sum_field f) 0 (fields c)) +
  list_sum (List.map (f (length (fields c))) (indices c)).

Definition sum_children (f : nat → Term → nat) (t : Term) : nat :=
  match t with
  | Data _ _ ixs cs =>
      list_sum (mapi_from f 0 ixs) + list_sum (List.map (sum_constructor f) cs)
  | Construct d _ args => f 0 d + list_sum (List.map (f 0) args)
  | Induct s m cases => f 0 s + (f 0 m + list_sum (List.map (f 0) cases))
  | Let a b | Pi a b | Lam a b | Sigma a b => f 0 a + f 1 b
  | App a b | Pair a b => f 0 a + f 0 b
  | Fst a | Snd a | Refl a => f 0 a
  | Id a b c | J a b c | IdElim a b c => f 0 a + (f 0 b + f 0 c)
  | FunExt a b c d => f 0 a + (f 0 b + (f 0 c + f 0 d))
  | Var _ | Universe _ => 0
  end.

Definition total (f : nat → Term → nat) (l : list (Term * nat)) : nat :=
  list_sum ((λ c, f c.2 c.1) <$> l).

Lemma total_app f l k : total f (l ++ k) = total f l + total f k.
Proof. unfold total. by rewrite fmap_app, list_sum_app. Qed.

Lemma total_tagged f n l : total f ((λ t, (t, n)) <$> l) = list_sum (List.map (f n) l).
Proof. unfold total. by rewrite <- list_fmap_compose. Qed.

Lemma total_enumerated f n l :
  total f (mapi_from (λ i t, (t, i)) n l) = list_sum (mapi_from f n l).
Proof. revert n. induction l as [|t l IH]; intros n; [done|]. cbn. f_equal. apply IH. Qed.

Lemma total_field f i d : total f (field_children i d) = sum_field f i d.
Proof. destruct d; cbn; try lia. apply total_tagged. Qed.

Lemma total_constructor f c : total f (constructor_children c) = sum_constructor f c.
Proof.
  unfold constructor_children, sum_constructor. rewrite total_app, total_tagged. f_equal.
  generalize 0. induction (fields c) as [|d fs IH]; intros n; [done|].
  cbn [mapi_from concat list_sum]. rewrite total_app, total_field, IH. done.
Qed.

Lemma sum_children_total f t : sum_children f t = total f (children t).
Proof.
  destruct t; cbn [sum_children children]; try (cbn; lia).
  - rewrite total_app, total_enumerated. f_equal.
    induction constructors as [|c cs IH]; [done|].
    change (concat (constructor_children <$> c :: cs))
      with (constructor_children c ++ concat (constructor_children <$> cs)).
    by rewrite total_app, total_constructor, <- IH.
  - cbn. unfold total. cbn. f_equal. symmetry. apply total_tagged.
  - cbn. unfold total. cbn. do 2 f_equal. symmetry. apply total_tagged.
Qed.

Lemma total_ext f g l : Forall (λ c, f c.2 c.1 = g c.2 c.1) l → total f l = total g l.
Proof. unfold total. induction 1; cbn; [done|]. by f_equal. Qed.

Lemma total_elem f l c : c ∈ l → f c.2 c.1 ≤ total f l.
Proof.
  intros (l1 & l2 & ->)%list_elem_of_split. rewrite total_app.
  change (c :: l2) with ([c] ++ l2). rewrite total_app. unfold total at 2. cbn. lia.
Qed.

(** Elements of the lists a node sums over. *)
Lemma list_sum_elem {A} (f : A → nat) l x : x ∈ l → f x ≤ list_sum (List.map f l).
Proof. unfold list_sum. induction 1; cbn in *; lia. Qed.

Lemma list_sum_mapi {A} (f : nat → A → nat) n l i x :
  l !! i = Some x → f (n + i) x ≤ list_sum (mapi_from f n l).
Proof.
  revert n i. induction l as [|y l IH]; intros n [|i] H; cbn in H; simplify_eq; cbn.
  - rewrite Nat.add_0_r. unfold list_sum in *. lia.
  - specialize (IH (S n) i H). rewrite Nat.add_succ_comm in IH. unfold list_sum in *. cbn. lia.
Qed.
