(* ===== verification/Subst.v ===== *)
(** * De Bruijn shifting and substitution

    [shift_up], [subst], [shift_down] and [contains_free_by] have the arms of
    [verum_proof/src/proof_checker.rs].  Each is shown equal to one generic
    traversal, [map_variables], and the calculus of substitutions is then
    proved once on variables. *)

From S2P Require Import Prelude Levels Syntax.

Fixpoint shift_up (t : Term) (amount cutoff : nat) {struct t} : Term :=
  if amount =? 0 then t else
  match t with
  | Let value body =>
      Let (shift_up value amount cutoff) (shift_up body amount (cutoff + 1))
  | Data _ _ _ _ | Construct _ _ _ | Induct _ _ _ | FunExt _ _ _ _ =>
      map_children (λ child binders, shift_up child amount (cutoff + binders)) t
  | Var i => if cutoff <=? i then Var (i + amount) else Var i
  | Universe level => Universe level
  | Pi a b => Pi (shift_up a amount cutoff) (shift_up b amount (cutoff + 1))
  | Lam a body => Lam (shift_up a amount cutoff) (shift_up body amount (cutoff + 1))
  | App f x => App (shift_up f amount cutoff) (shift_up x amount cutoff)
  | Sigma a b => Sigma (shift_up a amount cutoff) (shift_up b amount (cutoff + 1))
  | Pair a b => Pair (shift_up a amount cutoff) (shift_up b amount cutoff)
  | Fst p => Fst (shift_up p amount cutoff)
  | Snd p => Snd (shift_up p amount cutoff)
  | Id ty lhs rhs =>
      Id (shift_up ty amount cutoff) (shift_up lhs amount cutoff)
         (shift_up rhs amount cutoff)
  | Refl value => Refl (shift_up value amount cutoff)
  | J motive base scrutinee =>
      J (shift_up motive amount cutoff) (shift_up base amount cutoff)
        (shift_up scrutinee amount cutoff)
  | IdElim motive base scrutinee =>
      IdElim (shift_up motive amount cutoff) (shift_up base amount cutoff)
        (shift_up scrutinee amount cutoff)
  end.

Definition lift_term_one_binder (t : Term) : Term := shift_up t 1 0.

Fixpoint subst (t : Term) (target : nat) (replacement : Term) {struct t} : Term :=
  match t with
  | Let value body =>
      Let (subst value target replacement) (subst body (target + 1) replacement)
  | Data _ _ _ _ | Construct _ _ _ | Induct _ _ _ | FunExt _ _ _ _ =>
      map_children (λ child binders, subst child (target + binders) replacement) t
  | Var i =>
      match Nat.compare i target with
      | Eq => shift_up replacement target 0
      | Gt => Var (i - 1)
      | Lt => Var i
      end
  | Universe level => Universe level
  | Pi a b => Pi (subst a target replacement) (subst b (target + 1) replacement)
  | Lam a body => Lam (subst a target replacement) (subst body (target + 1) replacement)
  | App f x => App (subst f target replacement) (subst x target replacement)
  | Sigma a b => Sigma (subst a target replacement) (subst b (target + 1) replacement)
  | Pair a b => Pair (subst a target replacement) (subst b target replacement)
  | Fst p => Fst (subst p target replacement)
  | Snd p => Snd (subst p target replacement)
  | Id ty lhs rhs =>
      Id (subst ty target replacement) (subst lhs target replacement)
         (subst rhs target replacement)
  | Refl value => Refl (subst value target replacement)
  | J motive base scrutinee =>
      J (subst motive target replacement) (subst base target replacement)
        (subst scrutinee target replacement)
  | IdElim motive base scrutinee =>
      IdElim (subst motive target replacement) (subst base target replacement)
        (subst scrutinee target replacement)
  end.

Fixpoint shift_down (t : Term) (amount cutoff : nat) {struct t} : Term :=
  match t with
  | Let value body =>
      Let (shift_down value amount cutoff) (shift_down body amount (cutoff + 1))
  | Data _ _ _ _ | Construct _ _ _ | Induct _ _ _ | FunExt _ _ _ _ =>
      map_children (λ child binders, shift_down child amount (cutoff + binders)) t
  | Var i =>
      if cutoff + amount <=? i then Var (i - amount)
      else if i <? cutoff then Var i
      else Var i
  | Universe level => Universe level
  | Pi a b => Pi (shift_down a amount cutoff) (shift_down b amount (cutoff + 1))
  | Lam a body => Lam (shift_down a amount cutoff) (shift_down body amount (cutoff + 1))
  | App f x => App (shift_down f amount cutoff) (shift_down x amount cutoff)
  | Sigma a b => Sigma (shift_down a amount cutoff) (shift_down b amount (cutoff + 1))
  | Pair a b => Pair (shift_down a amount cutoff) (shift_down b amount cutoff)
  | Fst p => Fst (shift_down p amount cutoff)
  | Snd p => Snd (shift_down p amount cutoff)
  | Id ty lhs rhs =>
      Id (shift_down ty amount cutoff) (shift_down lhs amount cutoff)
         (shift_down rhs amount cutoff)
  | Refl value => Refl (shift_down value amount cutoff)
  | J motive base scrutinee =>
      J (shift_down motive amount cutoff) (shift_down base amount cutoff)
        (shift_down scrutinee amount cutoff)
  | IdElim motive base scrutinee =>
      IdElim (shift_down motive amount cutoff) (shift_down base amount cutoff)
        (shift_down scrutinee amount cutoff)
  end.

Fixpoint contains_free_by (t : Term) (depth : nat) (wanted : nat → bool) {struct t} : bool :=
  let here t := contains_free_by t depth wanted in
  match t with
  | Var index => if depth <=? index then wanted (index - depth) else false
  | Universe _ => false
  | Let value body => here value || contains_free_by body (depth + 1) wanted
  | Pi a b | Lam a b | Sigma a b => here a || contains_free_by b (depth + 1) wanted
  | App a b | Pair a b => here a || here b
  | Fst t | Snd t | Refl t => here t
  | Id ty lhs rhs => here ty || here lhs || here rhs
  | FunExt function_type lhs rhs pointwise =>
      here function_type || here lhs || here rhs || here pointwise
  | J motive base scrutinee | IdElim motive base scrutinee =>
      here motive || here base || here scrutinee
  | Data _ _ ixs constructors =>
      any_from (λ index ty, contains_free_by ty (depth + index) wanted) 0 ixs ||
      existsb (λ constructor : TermConstructor,
        existsb (λ t, contains_free_by t (depth + length (fields constructor)) wanted)
          (indices constructor) ||
        any_from (λ index field,
          match field with
          | Value ty => contains_free_by ty depth wanted
          | Dependent ty => contains_free_by ty (depth + index) wanted
          | Recursive => false
          | RecursiveAt ixs =>
              existsb (λ t, contains_free_by t (depth + index) wanted) ixs
          end) 0 (fields constructor)) constructors
  | Construct data _ args => here data || existsb (λ t, contains_free_by t depth wanted) args
  | Induct scrutinee motive cases =>
      here scrutinee || here motive ||
      existsb (λ t, contains_free_by t depth wanted) cases
  end.

(** [wanted.is_none_or(|wanted| index == wanted)]. *)
Definition contains_free (t : Term) (depth : nat) (wanted : option nat) : bool :=
  contains_free_by t depth (λ index,
    match wanted with None => true | Some wanted => index =? wanted end).

Definition is_free_in (t : Term) (target : nat) : bool :=
  contains_free t 0 (Some target).

(** ** The calculus of substitutions

    Shifting, substitution and the free-variable test are instances of
    [map_variables]; an equation between two composed traversals holds as soon
    as it holds on every variable under every number of binders. *)

(** ** The generic traversal *)
Lemma mv_compose_ext t d e d' e' f g f' g' :
  (∀ n i, map_variables (f i (d + n)) (e + n) g = map_variables (f' i (d' + n)) (e' + n) g') →
  map_variables (map_variables t d f) e g = map_variables (map_variables t d' f') e' g'.
Proof.
  revert d e d' e'. induction t as [t IH] using term_children_ind. intros d e d' e' H.
  destruct (var_or_not t) as [[i ->]|Hv].
  - specialize (H 0 i). by rewrite !Nat.add_0_r in H.
  - rewrite !(map_variables_children t) by done.
    rewrite !map_variables_children by (intros i E; eapply Hv, children_not_var, E).
    rewrite !map_children_compose. apply map_children_ext.
    eapply Forall_impl; [exact IH|]. intros [c b] Hc; simpl in *. apply Hc.
    intros n i. rewrite <- !Nat.add_assoc. apply H.
Qed.

Lemma mv_id t d f : (∀ n i, f i (d + n) = Var i) → map_variables t d f = t.
Proof.
  revert d. induction t as [t IH] using term_children_ind. intros d H.
  destruct (var_or_not t) as [[i ->]|Hv]; simpl.
  { specialize (H 0 i). by rewrite Nat.add_0_r in H. }
  rewrite map_variables_children by done.
  etrans; [apply (map_children_ext _ (λ c _, c))|].
  - eapply Forall_impl; [exact IH|]. intros [c b] Hc; simpl in *. apply Hc.
    intros n i. by rewrite <- Nat.add_assoc.
  - clear. destruct t; simpl; rewrite ?mapi_from_id, ?List.map_id by done; try done.
    f_equal. rewrite <- (List.map_id constructors) at 2. apply List.map_ext.
    intros [fs fixs]. unfold map_constructor; simpl. rewrite List.map_id. f_equal.
    apply mapi_from_id. intros j []; simpl; rewrite ?List.map_id; done.
Qed.

(** A traversal that is undone, or not, by a second one. *)
Lemma mv_compose_id t d e f g :
  (∀ n i, map_variables (f i (d + n)) (e + n) g = Var i) →
  map_variables (map_variables t d f) e g = t.
Proof.
  intros H. rewrite <- (mv_id t 0 (λ i _, Var i)) at 2 by done.
  rewrite <- (mv_id (map_variables t 0 (λ i _, Var i)) 0 (λ i _, Var i)) by done.
  by apply mv_compose_ext.
Qed.

Lemma mv_compose t d e d' f g h :
  (∀ n i, map_variables (f i (d + n)) (e + n) g = h i (d' + n)) →
  map_variables (map_variables t d f) e g = map_variables t d' h.
Proof.
  intros H. rewrite <- (mv_id (map_variables t d' h) 0 (λ i _, Var i)) by done.
  apply mv_compose_ext. intros n i. rewrite H. symmetry. by apply mv_id.
Qed.

(** ** The operations as traversals *)
Definition shift_var (amount : nat) (i depth : nat) : Term :=
  if depth <=? i then Var (i + amount) else Var i.
Definition subst_var (replacement : Term) (i depth : nat) : Term :=
  match Nat.compare i depth with
  | Eq => shift_up replacement depth 0
  | Gt => Var (i - 1)
  | Lt => Var i
  end.
Definition unshift_var (amount : nat) (i depth : nat) : Term :=
  if depth + amount <=? i then Var (i - amount) else Var i.

Ltac by_children IH :=
  apply map_children_ext; eapply Forall_impl; [exact IH|];
  intros [? ?] ?; simpl in *; auto.

Lemma shift_up_zero t c : shift_up t 0 c = t.
Proof. by destruct t. Qed.

Lemma shift_up_children t a c :
  a ≠ 0 → (∀ i, t ≠ Var i) →
  shift_up t a c = map_children (λ child b, shift_up child a (c + b)) t.
Proof.
  intros Ha Hv. destruct a; [done|]. destruct t; simpl; rewrite ?Nat.add_0_r; try done.
  by destruct (Hv i).
Qed.

Lemma subst_children t k r :
  (∀ i, t ≠ Var i) → subst t k r = map_children (λ child b, subst child (k + b) r) t.
Proof.
  intros Hv. destruct t; simpl; rewrite ?Nat.add_0_r; try done. by destruct (Hv i).
Qed.

Lemma shift_down_children t a c :
  (∀ i, t ≠ Var i) → shift_down t a c = map_children (λ child b, shift_down child a (c + b)) t.
Proof.
  intros Hv. destruct t; simpl; rewrite ?Nat.add_0_r; try done. by destruct (Hv i).
Qed.

Lemma shift_up_mv t a c : shift_up t a c = map_variables t c (shift_var a).
Proof.
  destruct (decide (a = 0)) as [->|Ha].
  { rewrite shift_up_zero, mv_id; [done|]. intros n i. unfold shift_var.
    rewrite Nat.add_0_r. by destruct (_ <=? _). }
  revert c. induction t as [t IH] using term_children_ind; intros c.
  destruct (var_or_not t) as [[i ->]|Hv]; [by destruct a|].
  rewrite shift_up_children, map_variables_children by done. by_children IH.
Qed.

Lemma subst_mv t k r : subst t k r = map_variables t k (subst_var r).
Proof.
  revert k. induction t as [t IH] using term_children_ind; intros k.
  destruct (var_or_not t) as [[i ->]|Hv]; [done|].
  rewrite subst_children, map_variables_children by done. by_children IH.
Qed.

Lemma shift_down_mv t a c : shift_down t a c = map_variables t c (unshift_var a).
Proof.
  revert c. induction t as [t IH] using term_children_ind; intros c.
  destruct (var_or_not t) as [[i ->]|Hv].
  { simpl. unfold unshift_var. by destruct (c + a <=? i), (i <? c). }
  rewrite shift_down_children, map_variables_children by done. by_children IH.
Qed.

(** Compute a traversal on variables and decide the comparisons of indices. *)
Ltac on_vars :=
  repeat first
  [ progress cbn [map_variables]
  | match goal with
    | |- context [shift_var ?a ?i ?d] =>
        change (shift_var a i d) with (if d <=? i then Var (i + a) else Var i)
    | |- context [unshift_var ?a ?i ?d] =>
        change (unshift_var a i d) with (if d + a <=? i then Var (i - a) else Var i)
    | |- context [subst_var ?r ?i ?d] =>
        change (subst_var r i d) with
          (match Nat.compare i d with
           | Eq => shift_up r d 0 | Gt => Var (i - 1) | Lt => Var i end)
    end
  | match goal with
    | |- context [?a <=? ?b] => destruct (Nat.leb_spec a b)
    | |- context [Nat.compare ?a ?b] => destruct (Nat.compare_spec a b)
    end ];
  try (exfalso; lia); try (f_equal; lia); subst.

Ltac to_mv := rewrite ?subst_mv, ?shift_down_mv, ?shift_up_mv.

(** ** Equations between shifts *)
Lemma shift_shift t a b c c' :
  c ≤ c' → c' ≤ c + a → shift_up (shift_up t a c) b c' = shift_up t (a + b) c.
Proof. intros. to_mv. apply mv_compose. intros n i. on_vars. Qed.

Lemma shift_commute t a b c c' :
  c ≤ c' → shift_up (shift_up t a c') b c = shift_up (shift_up t b c) a (c' + b).
Proof. intros. to_mv. apply mv_compose_ext. intros n i. on_vars. Qed.

Lemma shift_down_up t a c : shift_down (shift_up t a c) a c = t.
Proof. to_mv. apply mv_compose_id. intros n i. on_vars. Qed.

(** ** Equations between shifts and substitutions *)
Lemma subst_shift_cancel t a c k r :
  c ≤ k → k ≤ c + a → subst (shift_up t (a + 1) c) k r = shift_up t a c.
Proof. intros. to_mv. apply mv_compose. intros n i. on_vars. Qed.

Lemma subst_shift_id t k r : subst (shift_up t 1 k) k r = t.
Proof.
  pose proof (subst_shift_cancel t 0 k k r) as H. simpl in H. rewrite H by lia.
  apply shift_up_zero.
Qed.

Lemma shift_subst_low t k r a c :
  c ≤ k → shift_up (subst t k r) a c = subst (shift_up t a c) (k + a) r.
Proof.
  intros. to_mv. apply mv_compose_ext. intros n i. on_vars.
  rewrite <- shift_up_mv, shift_shift by lia. f_equal; lia.
Qed.

Lemma shift_subst_high t k r a c :
  shift_up (subst t k r) a (k + c) = subst (shift_up t a (k + 1 + c)) k (shift_up r a c).
Proof.
  to_mv. apply mv_compose_ext. intros n i. on_vars.
  rewrite <- !shift_up_mv, (shift_commute r a (k + n) 0 c) by lia. f_equal; lia.
Qed.

Lemma subst_subst t k u j v :
  subst (subst t k u) (k + j) v = subst (subst t (k + 1 + j) v) k (subst u j v).
Proof.
  to_mv. apply mv_compose_ext. intros n i. on_vars.
  - rewrite <- !subst_mv, shift_subst_low by lia. f_equal; lia.
  - rewrite <- subst_mv. replace (k + 1 + j + n) with (k + n + j + 1) by lia.
    rewrite subst_shift_cancel by lia. f_equal; lia.
Qed.

(** ** Free variables *)
Lemma existsb_ext_Forall {A} (f g : A → bool) l :
  Forall (λ x, f x = g x) l → existsb f l = existsb g l.
Proof. induction 1; simpl; congruence. Qed.

Lemma existsb_tagged n (f : Term * nat → bool) (l : list Term) :
  existsb f ((λ t, (t, n)) <$> l) = existsb (λ t, f (t, n)) l.
Proof. induction l as [|x l IH]; [done|]. rewrite fmap_cons. simpl. by rewrite IH. Qed.

Lemma existsb_concat {A} (f : A → bool) l : existsb f (concat l) = existsb (existsb f) l.
Proof. induction l as [|x l IH]; simpl; [done|]. by rewrite existsb_app, IH. Qed.

Lemma any_from_existsb {A B} (f : nat → A → bool) (g : B → bool) (h : nat → A → B) n l :
  (∀ i x, f i x = g (h i x)) → any_from f n l = existsb g (mapi_from h n l).
Proof. intros H. revert n; induction l; intros n; simpl; rewrite ?H, ?IHl; done. Qed.

Section contains_free_by.
Context (w : nat → bool).

Definition child_contains (d : nat) (c : Term * nat) : bool :=
  contains_free_by c.1 (d + c.2) w.

Lemma contains_free_by_children t d :
  (∀ i, t ≠ Var i) →
  contains_free_by t d w = existsb (child_contains d) (children t).
Proof.
  intros Hv. destruct t; simpl; unfold child_contains; simpl;
    rewrite ?existsb_tagged, ?Nat.add_0_r, ?orb_false_r, ?orb_assoc; simpl;
    rewrite ?Nat.add_0_r; try done.
  - rewrite existsb_app, existsb_concat. f_equal.
    { by apply any_from_existsb. }
    clear Hv. induction constructors as [|c cs IH]; [done|].
    rewrite fmap_cons. cbn [existsb]. f_equal; [|exact IH]. unfold constructor_children.
    rewrite existsb_app, existsb_concat, existsb_tagged, orb_comm. f_equal.
    apply any_from_existsb. intros j [ty|ty| |ixs']; simpl;
      rewrite ?Nat.add_0_r, ?orb_false_r, ?existsb_tagged; done.
  - by destruct (Hv i).
Qed.
End contains_free_by.

(** Two traversals that agree on every variable that can occur. *)
Lemma mv_ext_free t d d' k w f f' :
  (∀ n i, i < k + n ∨ w (i - (k + n)) = false → f i (d + n) = f' i (d' + n)) →
  contains_free_by t k w = false → map_variables t d f = map_variables t d' f'.
Proof.
  revert d d' k. induction t as [t IH] using term_children_ind. intros d d' k H Hw.
  destruct (var_or_not t) as [[i ->]|Hv].
  { simpl in *. specialize (H 0 i). rewrite !Nat.add_0_r in H. apply H.
    destruct (Nat.leb_spec k i); auto. }
  rewrite !map_variables_children by done. apply map_children_ext.
  rewrite contains_free_by_children in Hw by done.
  rewrite Forall_forall in *. intros [c b] Hc. simpl.
  apply (IH (c, b) Hc _ _ (k + b)).
  - intros n i Hi. rewrite <- !Nat.add_assoc. apply H. by rewrite Nat.add_assoc.
  - apply not_true_is_false. intros E.
    enough (existsb (child_contains w k) (children t) = true) by congruence.
    apply existsb_exists. exists (c, b). split; [by apply list_elem_of_In|exact E].
Qed.

Lemma mv_id_free t d k w f :
  (∀ n i, i < k + n ∨ w (i - (k + n)) = false → f i (d + n) = Var i) →
  contains_free_by t k w = false → map_variables t d f = t.
Proof.
  intros H Hw. etrans; [apply (mv_ext_free t d 0 k w f (λ i _, Var i)); done|].
  by apply mv_id.
Qed.

(** The free variables of a traversal. *)
Lemma contains_free_by_mv t d e d' f w w' :
  (∀ n i, contains_free_by (f i (d + n)) (e + n) w = contains_free_by (Var i) (d' + n) w') →
  contains_free_by (map_variables t d f) e w = contains_free_by t d' w'.
Proof.
  revert d e d'. induction t as [t IH] using term_children_ind. intros d e d' H.
  destruct (var_or_not t) as [[i ->]|Hv].
  { specialize (H 0 i). by rewrite !Nat.add_0_r in H. }
  rewrite map_variables_children by done.
  rewrite !contains_free_by_children by
    (try done; intros i E; eapply Hv, children_not_var, E).
  rewrite children_map_children. clear Hv. unfold child_contains.
  induction IH as [|[c b] cs Hc _ IHcs]; [done|].
  rewrite fmap_cons. cbn [existsb fst snd]. f_equal; [|exact IHcs].
  apply Hc. intros n i. rewrite <- !Nat.add_assoc. apply H.
Qed.

(** Every variable of [t] is bound by one of [n] enclosing binders. *)
Definition scoped (n : nat) (t : Term) : Prop := contains_free_by t n (λ _, true) = false.

#[export] Instance scoped_dec n t : Decision (scoped n t).
Proof. unfold scoped. apply _. Defined.

Lemma scoped_var n i : scoped n (Var i) ↔ i < n.
Proof. unfold scoped; simpl. destruct (Nat.leb_spec n i); split; intros; try done; lia. Qed.

Lemma scoped_children n t :
  (∀ i, t ≠ Var i) → scoped n t ↔ Forall (λ c, scoped (n + c.2) c.1) (children t).
Proof.
  intros Hv. unfold scoped. rewrite contains_free_by_children by done.
  unfold child_contains. generalize (children t). induction l as [|c l IH]; simpl.
  { split; [constructor|done]. }
  rewrite orb_false_iff, Forall_cons, IH. done.
Qed.

Lemma contains_free_by_shift t a c k w :
  c ≤ k → contains_free_by (shift_up t a c) (k + a) w = contains_free_by t k w.
Proof.
  intros Hc. rewrite shift_up_mv. apply contains_free_by_mv. intros n i.
  unfold shift_var. destruct (Nat.leb_spec (c + n) i); simpl;
    repeat match goal with |- context [?a <=? ?b] => destruct (Nat.leb_spec a b) end;
    try (exfalso; lia); try done. f_equal; lia.
Qed.

Lemma scoped_shift t a c k : c ≤ k → scoped (k + a) (shift_up t a c) ↔ scoped k t.
Proof. intros. unfold scoped. by rewrite contains_free_by_shift. Qed.

Lemma shift_closed t a k : scoped k t → shift_up t a k = t.
Proof.
  intros H. rewrite shift_up_mv. apply (mv_id_free t k k (λ _, true)); [|exact H].
  intros n i [Hi|Hi]; [on_vars|done].
Qed.

Lemma shift_up_down t a k :
  contains_free_by t k (λ i, i <? a) = false → shift_up (shift_down t a k) a k = t.
Proof.
  intros H. rewrite shift_up_mv, shift_down_mv.
  rewrite (mv_compose t k k k _ _ (λ i d, map_variables (unshift_var a i d) d (shift_var a)))
    by done.
  eapply mv_id_free; [|exact H]. intros n i Hi. on_vars.
  destruct Hi as [Hi|Hi]; [lia|]. apply Nat.ltb_ge in Hi. lia.
Qed.

(** The η-rule's guard: a term without the bound variable is the lifting of
    its lowered form. *)
Lemma is_free_in_shift_down f :
  is_free_in f 0 = false → shift_up (shift_down f 1 0) 1 0 = f.
Proof.
  intros H. apply shift_up_down. unfold is_free_in, contains_free in H.
  rewrite <- H. generalize 0 at 1 3. clear H.
  induction f as [f IH] using term_children_ind. intros k.
  destruct (var_or_not f) as [[i ->]|Hv].
  { simpl. destruct (k <=? i); [|done]. by destruct (i - k) as [|[]]. }
  rewrite !contains_free_by_children by done. apply existsb_ext_Forall.
  eapply Forall_impl; [exact IH|]. intros [c b] Hc. apply Hc.
Qed.

(** The test of [Context::extend]. *)
Lemma contains_free_closed t : contains_free t 0 None = false ↔ scoped 0 t.
Proof. done. Qed.

(** ** Properties *)

(** [shift_up] and [subst] form the calculus of explicit substitutions:
    successive shifts add up and commute, substituting for a variable that a
    shift has just skipped is the identity, a shift passes through a
    substitution from either side, and two substitutions commute (the
    substitution lemma). *)
Theorem substitution_calculus t u v a b c j k :
  shift_up (shift_up t a c) b (c + a) = shift_up t (a + b) c ∧
  shift_up (shift_up t a (c + k)) b c = shift_up (shift_up t b c) a (c + k + b) ∧
  subst (shift_up t 1 k) k u = t ∧
  shift_up (subst t (c + k) u) a c = subst (shift_up t a c) (c + k + a) u ∧
  shift_up (subst t k u) a (k + c) = subst (shift_up t a (k + 1 + c)) k (shift_up u a c) ∧
  subst (subst t k u) (k + j) v = subst (subst t (k + 1 + j) v) k (subst u j v).
Proof.
  split_and!.
  - apply shift_shift; lia.
  - apply shift_commute; lia.
  - apply subst_shift_id.
  - apply shift_subst_low; lia.
  - apply shift_subst_high.
  - apply subst_subst.
Qed.

(** [shift_down] undoes [shift_up]; conversely lowering a term in which
    [is_free_in] does not find the innermost variable loses nothing, which is
    what makes the η-rule of conversion sound. *)
Theorem shift_down_inverse t a c f :
  shift_down (shift_up t a c) a c = t ∧
  (is_free_in f 0 = false → shift_up (shift_down f 1 0) 1 0 = f).
Proof. split; [apply shift_down_up|apply is_free_in_shift_down]. Qed.
