(* ===== verification/Inst.v ===== *)
(** * Parallel substitution

    [inst_at d σ t] replaces, below [d] local binders, the innermost free
    variables of [t] by the terms of [σ].  It is how the second kernel's
    environments act on terms: the substitution an environment stands for is
    applied to a body in one traversal. *)
From S2P Require Import Prelude Levels Syntax Subst.

Definition inst_var (σ : list Term) (i depth : nat) : Term :=
  if depth <=? i then
    match σ !! (i - depth) with
    | Some u => shift_up u depth 0
    | None => Var (i - length σ)
    end
  else Var i.

Definition inst_at (d : nat) (σ : list Term) (t : Term) : Term := map_variables t d (inst_var σ).

Abbreviation inst := (inst_at 0).

Lemma mv_ext t d d' f g :
  (∀ n i, f i (d + n) = g i (d' + n)) → map_variables t d f = map_variables t d' g.
Proof.
  intros H. rewrite <- (mv_id (map_variables t d f) 0 (λ i _, Var i)) by done.
  apply mv_compose. intros n i. by rewrite H, mv_id.
Qed.

Lemma inst_var_lt σ i d : i < d → inst_var σ i d = Var i.
Proof. intros H. unfold inst_var. by destruct (Nat.leb_spec d i); [lia|]. Qed.

Lemma inst_var_at σ j d u : σ !! j = Some u → inst_var σ (d + j) d = shift_up u d 0.
Proof.
  intros H. unfold inst_var. destruct (Nat.leb_spec d (d + j)); [|lia].
  replace (d + j - d) with j by lia. by rewrite H.
Qed.

Lemma inst_var_ge σ j d : length σ ≤ j → inst_var σ (d + j) d = Var (d + j - length σ).
Proof.
  intros H. unfold inst_var. destruct (Nat.leb_spec d (d + j)); [|lia].
  replace (d + j - d) with j by lia. by rewrite lookup_ge_None_2.
Qed.

(** The three cases of a variable under [d] binders. *)
Lemma inst_var_cases σ i d (P : Term → Prop) :
  (i < d → P (Var i)) →
  (∀ j u, i = d + j → σ !! j = Some u → P (shift_up u d 0)) →
  (∀ j, i = d + j → length σ ≤ j → P (Var (d + j - length σ))) →
  P (inst_var σ i d).
Proof.
  intros H1 H2 H3. destruct (Nat.lt_ge_cases i d) as [Hi|Hi].
  { rewrite inst_var_lt by done. auto. }
  assert (i = d + (i - d)) as E by lia. destruct (σ !! (i - d)) as [u|] eqn:Hu.
  - rewrite E, (inst_var_at _ _ _ u) by done. eauto.
  - apply lookup_ge_None in Hu. rewrite E, inst_var_ge by done. eauto.
Qed.

(** ** Equations on the binders of a term *)
Lemma inst_at_var d σ i : inst_at d σ (Var i) = inst_var σ i d.
Proof. done. Qed.

Lemma inst_at_children d σ t :
  (∀ i, t ≠ Var i) → inst_at d σ t = map_children (λ c b, inst_at (d + b) σ c) t.
Proof. apply map_variables_children. Qed.

Lemma inst_apply_terms d σ f args :
  inst_at d σ (foldl App f args) = foldl App (inst_at d σ f) (List.map (inst_at d σ) args).
Proof.
  revert f. induction args as [|x args IH]; intros f; [done|]. cbn [foldl List.map].
  rewrite IH. f_equal. unfold inst_at. cbn. by rewrite !Nat.add_0_r.
Qed.

(** Substituting the variable just below the binders extends the list. *)
Lemma subst_inst σ t x : subst (inst_at 1 σ t) 0 x = inst (x :: σ) t.
Proof.
  rewrite subst_mv. unfold inst_at. apply mv_compose. intros n i. cbn [Nat.add].
  pattern (inst_var σ i (S n)). apply inst_var_cases.
  - intros Hi. destruct (Nat.eq_dec i n) as [->|].
    + cbn. unfold subst_var. rewrite Nat.compare_refl.
      transitivity (inst_var (x :: σ) (n + 0) n); [|by rewrite Nat.add_0_r].
      by rewrite (inst_var_at _ _ _ x).
    + rewrite inst_var_lt by lia. cbn. unfold subst_var.
      destruct (Nat.compare_spec i n); [done|done|lia].
  - intros j u -> Hu. replace (S n + j) with (n + S j) by lia.
    rewrite (inst_var_at _ _ _ u) by done. replace (S n) with (n + 1) by lia.
    by rewrite <- subst_mv, subst_shift_cancel by lia.
  - intros j -> Hj. replace (S n + j) with (n + S j) by lia.
    rewrite inst_var_ge by (cbn; lia). cbn [length map_variables].
    unfold subst_var. destruct (Nat.compare_spec (n + S j - length σ) n); try lia.
    f_equal; lia.
Qed.

(** Opening [k] binders with the variables themselves. *)
Definition open_vars (k : nat) : list Term := List.map Var (seq 0 k).

Lemma open_vars_length k : length (open_vars k) = k.
Proof. unfold open_vars. by rewrite length_map, length_seq. Qed.

Lemma inst_open k σ t :
  scoped (length σ + k) t →
  inst (open_vars k ++ List.map (λ u, shift_up u k 0) σ) t = inst_at k σ t.
Proof.
  intros Ht. eapply mv_ext_free; [|exact Ht]. intros n i [Hb|Hb]; [|done]. cbn [Nat.add].
  destruct (Nat.lt_ge_cases i n) as [Hi|Hi]; [by rewrite !inst_var_lt by lia|].
  replace i with (n + (i - n)) in * by lia. revert Hb. generalize (i - n) as j. clear i Hi.
  intros j Hb. destruct (Nat.lt_ge_cases j k) as [Hj|Hj].
  - rewrite (inst_var_lt σ) by lia. rewrite (inst_var_at _ _ _ (Var j)).
    + rewrite shift_up_mv. cbn. f_equal; lia.
    + rewrite lookup_app_l by (rewrite open_vars_length; lia). unfold open_vars.
      change (List.map Var (seq 0 k)) with (Var <$> seq 0 k).
      by rewrite list_lookup_fmap, lookup_seq_lt by lia.
  - destruct (lookup_lt_is_Some_2 σ (j - k)) as [u Hu]; [lia|].
    replace (n + j) with (k + n + (j - k)) at 2 by lia. rewrite (inst_var_at σ _ _ u) by done.
    rewrite (inst_var_at _ _ _ (shift_up u k 0)).
    + rewrite shift_shift by lia. f_equal; lia.
    + rewrite lookup_app_r, open_vars_length by (rewrite open_vars_length; lia).
      change (List.map (λ u, shift_up u k 0) σ) with ((λ u, shift_up u k 0) <$> σ).
      by rewrite list_lookup_fmap, Hu.
Qed.

(** Shifting a substitution. *)
Lemma shift_inst a d σ t :
  scoped (length σ + d) t →
  shift_up (inst_at d σ t) a d = inst_at d (List.map (λ u, shift_up u a 0) σ) t.
Proof.
  intros Ht. rewrite shift_up_mv. unfold inst_at.
  rewrite (mv_compose t d d d _ _ (λ i e, map_variables (inst_var σ i e) e (shift_var a)))
    by done.
  eapply mv_ext_free; [|exact Ht]. intros n i Hi.
  destruct Hi as [Hi|Hi]; [|done].
  destruct (Nat.lt_ge_cases i (d + n)) as [Hin|Hin].
  - rewrite !inst_var_lt by lia. cbn. unfold shift_var.
    by destruct (Nat.leb_spec (d + n) i); [lia|].
  - destruct (lookup_lt_is_Some_2 σ (i - (d + n))) as [u Hu]; [lia|].
    replace i with (d + n + (i - (d + n))) by lia.
    rewrite (inst_var_at σ _ _ u) by done.
    rewrite (inst_var_at _ _ _ (shift_up u a 0)).
    + rewrite <- shift_up_mv, !shift_shift by lia. f_equal; lia.
    + change (List.map (λ u, shift_up u a 0) σ) with ((λ u, shift_up u a 0) <$> σ).
      by rewrite list_lookup_fmap, Hu.
Qed.

(** The identity substitution. *)
Lemma inst_id d n t : scoped (d + n) t → inst_at d (open_vars n) t = t.
Proof.
  intros Ht. eapply mv_id_free; [|exact Ht]. intros m i [Hi|Hi]; [|done].
  destruct (Nat.lt_ge_cases i (d + m)); [by apply inst_var_lt|].
  replace i with (d + m + (i - (d + m))) at 1 by lia.
  rewrite (inst_var_at _ _ _ (Var (i - (d + m)))).
  - rewrite shift_up_mv. cbn. f_equal. lia.
  - unfold open_vars. change (List.map Var (seq 0 n)) with (Var <$> seq 0 n).
    by rewrite list_lookup_fmap, lookup_seq_lt by lia.
Qed.

(** The scope of a traversal, from its value on the variables that occur. *)
Lemma scoped_mv_free t d k m w f :
  (∀ n i, i < k + n ∨ w (i - (k + n)) = false → scoped (m + n) (f i (d + n))) →
  contains_free_by t k w = false → scoped m (map_variables t d f).
Proof.
  revert d k m. induction t as [t IH] using term_children_ind. intros d k m H Hw.
  destruct (var_or_not t) as [[i ->]|Hv].
  { cbn in *. specialize (H 0 i). rewrite !Nat.add_0_r in H. apply H.
    destruct (Nat.leb_spec k i); auto. }
  rewrite map_variables_children by done.
  rewrite scoped_children by (intros i E; eapply Hv, children_not_var, E).
  rewrite contains_free_by_children in Hw by done.
  rewrite children_map_children, Forall_fmap, Forall_forall in *. intros [c b] Hc. cbn.
  apply (IH (c, b) Hc _ (k + b)).
  - intros n i Hi. rewrite <- !Nat.add_assoc. apply H. by rewrite Nat.add_assoc.
  - apply not_true_is_false. intros E.
    enough (existsb (child_contains w k) (children t) = true) by congruence.
    apply existsb_exists. exists (c, b). split; [by apply list_elem_of_In|exact E].
Qed.

Lemma scoped_inst n d σ t :
  Forall (scoped n) σ → scoped (length σ + d) t → scoped (n + d) (inst_at d σ t).
Proof.
  intros Hσ Ht. eapply scoped_mv_free; [|exact Ht]. intros m i [Hi|Hi]; [|done].
  apply inst_var_cases.
  - intros Hm. apply scoped_var. lia.
  - intros j u -> Hu. replace (n + d + m) with (n + (d + m)) by lia.
    apply scoped_shift; [lia|]. by eapply Forall_lookup_1.
  - intros j -> Hj. lia.
Qed.

(** A test of the free variables holds of one of them. *)
Lemma contains_free_by_witness t k w :
  contains_free_by t k w = true ↔
  ∃ i, w i = true ∧ contains_free_by t k (λ j, j =? i) = true.
Proof.
  revert k. induction t as [t IH] using term_children_ind. intros k.
  destruct (var_or_not t) as [[j ->]|Hv].
  { cbn. destruct (Nat.leb_spec k j).
    - split; [intros H'; exists (j - k); by rewrite Nat.eqb_refl|].
      by intros (i & Hi & ->%Nat.eqb_eq).
    - split; [done|]. by intros (i & _ & Hi). }
  setoid_rewrite contains_free_by_children; [|done..].
  rewrite existsb_exists. setoid_rewrite existsb_exists.
  rewrite Forall_forall in IH. split.
  - intros ([c b] & Hc & H). apply (IH (c, b)) in H as (i & Hi & H);
      [|by apply list_elem_of_In]. eauto.
  - intros (i & Hi & [c b] & Hc & H). exists (c, b). split; [done|].
    apply (IH (c, b)); [by apply list_elem_of_In|eauto].
Qed.

Lemma scoped_occurs n t k i :
  scoped n t → contains_free_by t k (λ j, j =? i) = true → k + i < n.
Proof.
  revert n k. induction t as [t IH] using term_children_ind. intros n k Hs H.
  destruct (var_or_not t) as [[j ->]|Hv].
  - apply scoped_var in Hs. cbn in H. destruct (Nat.leb_spec k j); [|done].
    apply Nat.eqb_eq in H. lia.
  - rewrite scoped_children in Hs by done. rewrite contains_free_by_children in H by done.
    apply existsb_exists in H as ([c b] & Hc%list_elem_of_In & H).
    rewrite Forall_forall in IH, Hs. specialize (IH _ Hc (n + b) (k + b) (Hs _ Hc) H). lia.
Qed.

(** ** The scope of a declaration *)
Definition field_scoped (n i : nat) (f : DataField Term) : Prop :=
  Forall (λ c, scoped (n + c.2) c.1) (field_children i f).

Definition constructor_scoped (n : nat) (c : TermConstructor) : Prop :=
  (∀ i f, fields c !! i = Some f → field_scoped n i f) ∧
  Forall (scoped (n + length (fields c))) (indices c).

Lemma scoped_tagged n k l :
  Forall (λ c : Term * nat, scoped (n + c.2) c.1) ((λ t, (t, k)) <$> l) ↔
  Forall (scoped (n + k)) l.
Proof. by rewrite Forall_fmap. Qed.

Lemma Forall_concat_iff {A} (P : A → Prop) ls : Forall P (concat ls) ↔ Forall (Forall P) ls.
Proof.
  induction ls as [|l ls IH]; cbn; [by split; constructor|]. by rewrite Forall_app, Forall_cons, IH.
Qed.

Lemma Forall_mapi {A B} (P : B → Prop) (f : nat → A → B) j l :
  Forall P (mapi_from f j l) ↔ ∀ i x, l !! i = Some x → P (f (j + i) x).
Proof.
  rewrite Forall_lookup. setoid_rewrite lookup_mapi_from. split.
  - intros H i x Hx. apply (H i). by rewrite Hx.
  - intros H i y. destruct (l !! i) as [x|] eqn:Hx; [|done]. intros [= <-]. by apply H.
Qed.

Lemma constructor_scoped_children n c :
  Forall (λ c, scoped (n + c.2) c.1) (constructor_children c) ↔ constructor_scoped n c.
Proof.
  unfold constructor_children, constructor_scoped.
  by rewrite Forall_app, Forall_concat_iff, Forall_mapi, scoped_tagged.
Qed.

Lemma scoped_data n name l ixs cs :
  scoped n (Data name l ixs cs) ↔
  (∀ i t, ixs !! i = Some t → scoped (n + i) t) ∧ Forall (constructor_scoped n) cs.
Proof.
  rewrite scoped_children by done. cbn [children].
  rewrite Forall_app, Forall_mapi, Forall_concat_iff, Forall_fmap. cbn.
  apply and_iff_compat_l. rewrite !Forall_forall. split; intros H c Hc.
  - by apply constructor_scoped_children, H.
  - by apply constructor_scoped_children, H.
Qed.
