(* ===== verification/Context.v ===== *)
(** * Typing contexts

    [Context] models the checker's stack of binder types with its optional
    transparent definitions ([verum_proof/src/proof_checker.rs], lines
    904-1049).  The bindings are a vector, outermost first.  The cached slice
    [types_view] of the source is a memoised copy of the types and is not
    modelled. *)
From S2P Require Import Prelude Levels Syntax Subst.

Inductive Foundation := Intensional | FunctionExtensionality.

#[export] Instance foundation_eq_dec : EqDecision Foundation.
Proof. solve_decision. Defined.

Record ContextBinding : Type := Binding {
  ty : Term;
  closed : bool;
  definition_of : option Term
}.

Record Context : Type := Ctx {
  foundation : Foundation;
  bindings : list ContextBinding
}.

Definition checked_sub (a b : nat) : option nat :=
  if b <=? a then Some (a - b) else None.

Definition with_foundation (f : Foundation) : Context := Ctx f [].

Definition lookup (ctx : Context) (i : nat) : option Term :=
  position ← checked_sub (length (bindings ctx)) (i + 1);
  binding ← bindings ctx !! position;
  Some (if closed binding then ty binding else shift_up (ty binding) (i + 1) 0).

Definition extend (ctx : Context) (t : Term) : Context :=
  let closed := negb (contains_free t 0 None) in
  Ctx (foundation ctx) (bindings ctx ++ [Binding t closed None]).

(** The last binding of the extended context gets the definition. *)
Definition define (ctx : Context) (t value : Term) : Context :=
  let out := extend ctx t in
  Ctx (foundation out)
    (alter (λ b, Binding (ty b) (closed b) (Some value))
      (length (bindings out) - 1) (bindings out)).

Definition definition_under (ctx : Context) (index binders : nat) : option Term :=
  position ← checked_sub (length (bindings ctx)) (index + 1);
  binding ← bindings ctx !! position;
  (λ t, shift_up t (index + 1 + binders) 0) <$> definition_of binding.

Definition definition (ctx : Context) (index : nat) : option Term :=
  definition_under ctx index 0.

Definition depth (ctx : Context) : nat := length (bindings ctx).

Definition types (ctx : Context) : list Term := ty <$> bindings ctx.

(** [Conversion]: a context seen under local binders without definitions. *)
Record Conversion : Type := Conv {
  context : Context;
  binders : nat
}.

Definition conversion (ctx : Context) : Conversion := Conv ctx 0.

Definition under (c : Conversion) (n : nat) : Conversion :=
  Conv (context c) (binders c + n).

(** The definition a variable unfolds to during reduction. *)
Definition unfold_var (c : Conversion) (index : nat) : option Term :=
  relative ← checked_sub index (binders c);
  definition_under (context c) relative (binders c).

(** ** Facts *)
Lemma under_under c n m : under (under c n) m = under c (n + m).
Proof. unfold under; simpl. by rewrite Nat.add_assoc. Qed.

Lemma under_0 c : under c 0 = c.
Proof. destruct c. unfold under; simpl. by rewrite Nat.add_0_r. Qed.

Lemma checked_sub_Some a b n : checked_sub a b = Some n ↔ a = b + n.
Proof.
  unfold checked_sub. destruct (Nat.leb_spec b a); split; intros; simplify_eq; try lia.
  - f_equal; lia.
Qed.

Lemma checked_sub_le a b : b ≤ a → checked_sub a b = Some (a - b).
Proof. unfold checked_sub. by destruct (Nat.leb_spec b a); [|lia]. Qed.

Lemma checked_sub_gt a b : a < b → checked_sub a b = None.
Proof. unfold checked_sub. by destruct (Nat.leb_spec b a); [lia|]. Qed.

Lemma bindings_define ctx t value :
  bindings (define ctx t value) =
    bindings ctx ++ [Binding t (negb (contains_free t 0 None)) (Some value)].
Proof.
  unfold define; simpl. rewrite length_app; simpl.
  replace (length (bindings ctx) + 1 - 1) with (length (bindings ctx)) by lia.
  by rewrite alter_app_r_alt, Nat.sub_diag by lia.
Qed.

Lemma depth_extend ctx t : depth (extend ctx t) = depth ctx + 1.
Proof. unfold depth; simpl. by rewrite length_app. Qed.

Lemma depth_define ctx t v : depth (define ctx t v) = depth ctx + 1.
Proof. unfold depth. rewrite bindings_define. by rewrite length_app. Qed.

Lemma foundation_define ctx t v : foundation (define ctx t v) = foundation ctx.
Proof. done. Qed.

Lemma lookup_lt ctx i t : lookup ctx i = Some t → i < depth ctx.
Proof.
  unfold lookup. intros (p & Hp & _)%bind_Some. apply checked_sub_Some in Hp.
  unfold depth. lia.
Qed.

Lemma definition_under_lt ctx i n t : definition_under ctx i n = Some t → i < depth ctx.
Proof.
  unfold definition_under. intros (p & Hp & _)%bind_Some. apply checked_sub_Some in Hp.
  unfold depth. lia.
Qed.

(** The recorded [closed] flags say what [contains_free] says. *)
Definition ctx_ok (ctx : Context) : Prop :=
  Forall (λ b, closed b = negb (contains_free (ty b) 0 None)) (bindings ctx).

Lemma ctx_ok_extend ctx t : ctx_ok ctx → ctx_ok (extend ctx t).
Proof. intros H. apply Forall_app; split; [exact H|]. by repeat constructor. Qed.

Lemma ctx_ok_define ctx t v : ctx_ok ctx → ctx_ok (define ctx t v).
Proof.
  intros H. unfold ctx_ok. rewrite bindings_define.
  apply Forall_app; split; [exact H|]. by repeat constructor.
Qed.

(** The specification of [lookup]: the type moved to the present frame. *)
Definition lookup_spec (ctx : Context) (i : nat) : option Term :=
  (λ t, shift_up t (i + 1) 0) <$> reverse (types ctx) !! i.

Lemma lookup_correct ctx i : ctx_ok ctx → lookup ctx i = lookup_spec ctx i.
Proof.
  intros Hok. unfold lookup, lookup_spec, types.
  destruct (checked_sub (length (bindings ctx)) (i + 1)) as [p|] eqn:Hp; simpl.
  - apply checked_sub_Some in Hp.
    rewrite reverse_lookup by (rewrite length_fmap; lia).
    rewrite length_fmap, Hp. replace (i + 1 + p - S i) with p by lia.
    rewrite list_lookup_fmap.
    destruct (bindings ctx !! p) as [b|] eqn:Hb; simpl; [|done]. f_equal.
    unfold ctx_ok in Hok. rewrite Forall_lookup in Hok. rewrite (Hok _ _ Hb).
    destruct (contains_free (ty b) 0 None) eqn:Hc; simpl; [done|].
    symmetry. by apply shift_closed.
  - rewrite lookup_ge_None_2; [done|]. rewrite length_reverse, length_fmap.
    unfold checked_sub in Hp. destruct (Nat.leb_spec (i + 1) (length (bindings ctx)));
      [done|lia].
Qed.

Lemma lookup_spec_extend ctx b :
  lookup_spec (Ctx (foundation ctx) (bindings ctx ++ [b])) 0 = Some (shift_up (ty b) 1 0) ∧
  ∀ i, lookup_spec (Ctx (foundation ctx) (bindings ctx ++ [b])) (S i) =
    (λ t, shift_up t 1 0) <$> lookup_spec ctx i.
Proof.
  unfold lookup_spec, types; simpl. rewrite fmap_app, reverse_app; simpl.
  split; [done|]. intros i. rewrite <- option_fmap_compose.
  destruct (_ !! i) as [t|]; simpl; [|done].
  rewrite shift_shift by lia. do 2 f_equal. lia.
Qed.

Lemma definition_extend ctx t i :
  definition (extend ctx t) 0 = None ∧
  definition (extend ctx t) (S i) = (λ t, shift_up t 1 0) <$> definition ctx i.
Proof.
  unfold definition, definition_under; cbn [extend bindings]. rewrite length_app.
  change (length [_]) with 1. split.
  - rewrite checked_sub_le by lia. cbn [mbind option_bind].
    by rewrite list_lookup_middle by lia.
  - destruct (decide (i + 1 ≤ length (bindings ctx))).
    2: { rewrite !checked_sub_gt by lia. done. }
    rewrite !checked_sub_le by lia. cbn [mbind option_bind].
    replace (length (bindings ctx) + 1 - (S i + 1))
      with (length (bindings ctx) - (i + 1)) by lia.
    rewrite lookup_app_l by lia.
    destruct (bindings ctx !! (length (bindings ctx) - (i + 1))) as [b|];
      cbn [mbind option_bind]; [|done].
    destruct (definition_of b) as [v|]; [|done]. cbn [fmap option_fmap option_map].
    rewrite shift_shift by lia. do 2 f_equal. lia.
Qed.

(** ** Properties *)

(** A context keeps the invariant of its [closed] flags, and under it the
    fast path of [lookup], which returns a closed type without shifting it,
    agrees with the specification: the innermost binder is the last pushed,
    every older type is lifted by one, and out of range there is no type. *)
Theorem context_lookup_correct ctx t v :
  ctx_ok ctx →
  ctx_ok (extend ctx t) ∧ ctx_ok (define ctx t v) ∧
  (∀ i, lookup ctx i = lookup_spec ctx i) ∧
  lookup (extend ctx t) 0 = Some (shift_up t 1 0) ∧
  (∀ i, lookup (extend ctx t) (S i) = (λ t, shift_up t 1 0) <$> lookup ctx i) ∧
  (∀ i, lookup (define ctx t v) i = lookup (extend ctx t) i).
Proof.
  intros Hok. pose proof (ctx_ok_extend ctx t Hok) as He.
  pose proof (ctx_ok_define ctx t v Hok) as Hd.
  destruct (lookup_spec_extend ctx (Binding t (negb (contains_free t 0 None)) None))
    as [H0 HS].
  split_and!; auto using lookup_correct.
  - rewrite lookup_correct by done. exact H0.
  - intros i. rewrite !lookup_correct by done. apply HS.
  - intros i. rewrite !lookup_correct by done.
    unfold lookup_spec, types. rewrite bindings_define. simpl. by rewrite !fmap_app.
Qed.

Lemma context_lookup_correct_witness :
  lookup (extend (extend (with_foundation Intensional) (Universe (Level.Concrete (u32_of 0))))
    (Var 0)) 0 = Some (Var 1).
Proof.
  destruct (context_lookup_correct
    (extend (with_foundation Intensional) (Universe (Level.Concrete (u32_of 0))))
    (Var 0) (Var 0)) as (_ & _ & _ & H & _).
  - by repeat constructor.
  - exact H.
Defined.
