(* ===== verification/Conversion.v ===== *)
(** * Definitional equality

    Weak head reduction with a fuel budget and the comparison of terms up to
    β, δ, ζ, ι and η ([impl Conversion] of [verum_proof/src/proof_checker.rs]).
    [ceiling] is the fuel each head reduction starts with; the program uses
    [WHNF_FUEL_CEILING].  The comparison recurses on reducts, so the model
    counts its depth with [gas]; running out is the outcome [Gas], never a
    verdict. *)

From S2P Require Import Prelude Levels Syntax Subst Context.

(** ** Verdicts of the checker

    [CheckError] models the enum of [verum_proof/src/proof_checker.rs], lines
    1892-1975. *)

Inductive CheckError : Type :=
| FuelExhausted
| FoundationRequired (f : Foundation)
| InvalidInductive (reason : string)
| UnboundVariable (i : nat)
| NotAType (t : Term)
| NotAFunction (t : Term)
| NotASigma (t : Term)
| NotAnIdentity (t : Term)
| ReflEndpointMismatch (lhs rhs : Term)
| NotAValidJMotive (t : Term)
| DomainMismatch (expected actual : Term)
| TypeMismatch (expected actual : Term)
| KernelV0ManifestUnclean (rule status_tag : string)
| KernelV0MetaSoundnessExceeded
| KernelV0StrictIntrinsicDisagreement (intrinsic : string)
| UniverseOverflow (level : u32)
| ClaimedTypeNotAType (claimed_type actual : Term).

#[export] Instance check_error_eq_dec : EqDecision CheckError.
Proof. solve_decision. Defined.

Open Scope verum_scope.

Definition WHNF_FUEL_CEILING : N := 1048576.

Definition result := outcome CheckError.

(** The branch of an induction on a constructor: the case applied to each
    argument and, after a recursive one, to its induction hypothesis. *)
Definition is_recursive (f : DataField Term) : bool :=
  match f with Recursive | RecursiveAt _ => true | _ => false end.

Definition apply_case (case motive : Term) (cases : list Term)
    (fs : list (DataField Term)) (args : list Term) : Term :=
  foldl (λ result '(field, argument),
    let result := App result argument in
    if is_recursive field then App result (Induct argument motive cases) else result)
    case (zip fs args).

(** [Conversion::whnf_fuel].  [gas] bounds the recursion of the model;
    [whnf_loop_gas] shows that more gas than fuel is enough. *)
Fixpoint whnf_loop (gas : nat) (c : Conversion) (term : Term) (fuel : N)
    : result (Term * N) :=
  match gas with
  | 0 => Gas ReductionGas
  | S gas =>
  if N.eqb fuel 0 then Err FuelExhausted else
  let fuel := N.pred fuel in
  match term with
  | Var index =>
      match unfold_var c index with
      | Some value => whnf_loop gas c value fuel
      | None => Ok (Var index, fuel)
      end
  | Let value body => whnf_loop gas c (subst body 0 value) fuel
  | Induct scrutinee motive cases =>
      '(head, fuel) ← whnf_loop gas c scrutinee fuel;
      match head with
      | Construct data constructor args =>
          '(declaration, fuel) ← whnf_loop gas c data fuel;
          match declaration with
          | Data _ _ _ constructors =>
              match constructors !! constructor, cases !! constructor with
              | Some ctor, Some case =>
                  if length (fields ctor) =? length args
                  then whnf_loop gas c
                         (apply_case case motive cases (fields ctor) args) fuel
                  else Ok (Induct head motive cases, fuel)
              | _, _ => Ok (Induct head motive cases, fuel)
              end
          | _ => Ok (Induct head motive cases, fuel)
          end
      | _ => Ok (Induct head motive cases, fuel)
      end
  | App f x =>
      '(f_whnf, fuel) ← whnf_loop gas c f fuel;
      match f_whnf with
      | Lam _ body => whnf_loop gas c (subst body 0 x) fuel
      | other => Ok (App other x, fuel)
      end
  | Fst p =>
      '(p_whnf, fuel) ← whnf_loop gas c p fuel;
      match p_whnf with
      | Pair a _ => whnf_loop gas c a fuel
      | other => Ok (Fst other, fuel)
      end
  | Snd p =>
      '(p_whnf, fuel) ← whnf_loop gas c p fuel;
      match p_whnf with
      | Pair _ b => whnf_loop gas c b fuel
      | other => Ok (Snd other, fuel)
      end
  | J motive base scrutinee =>
      '(s_whnf, fuel) ← whnf_loop gas c scrutinee fuel;
      match s_whnf with
      | Refl _ => whnf_loop gas c base fuel
      | other => Ok (J motive base other, fuel)
      end
  | IdElim motive base scrutinee =>
      '(s_whnf, fuel) ← whnf_loop gas c scrutinee fuel;
      match s_whnf with
      | Refl _ => whnf_loop gas c base fuel
      | other => Ok (IdElim motive base other, fuel)
      end
  | _ => Ok (term, fuel)
  end
  end.

Definition whnf_fuel (c : Conversion) (term : Term) (fuel : N) : result (Term * N) :=
  whnf_loop (S (N.to_nat fuel)) c term fuel.

(** [recursive_indices], [field_value_type] and [apply_terms] are the helpers
    of the checker the comparison already needs. *)
Definition recursive_indices (f : DataField Term) : option (list Term) :=
  match f with
  | Recursive => Some []
  | RecursiveAt ixs => Some ixs
  | _ => None
  end.

Definition field_value_type (f : DataField Term) (preceding : nat) : option Term :=
  match f with
  | Value t => Some (shift_up t preceding 0)
  | Dependent t => Some t
  | Recursive | RecursiveAt _ => None
  end.

Definition apply_terms (head : Term) (arguments : list Term) : Term :=
  foldl App head arguments.

Section conversion.
Context (ceiling : N).

Definition whnf (c : Conversion) (t : Term) : result Term :=
  '(t, _) ← whnf_fuel c t ceiling; Ok t.

Definition expect_universe (c : Conversion) (t : Term) : result (option Level) :=
  t ← whnf c t;
  Ok (match t with Universe level => Some (Level.normalize level) | _ => None end).

Section open_recursion.
Context (def_eq : Conversion → Term → Term → result bool).

Definition terms_def_eq (c : Conversion) (a b : list Term) : result bool :=
  if length a =? length b
  then all_checked (λ '(a, b), def_eq c a b) (zip a b)
  else Ok false.

Definition field_def_eq (c : Conversion) (index : nat) (a b : DataField Term)
    : result bool :=
  match recursive_indices a, recursive_indices b with
  | Some a, Some b => terms_def_eq (under c index) a b
  | None, None =>
      match field_value_type a index, field_value_type b index with
      | Some a, Some b => def_eq (under c index) a b
      | _, _ => Ok false
      end
  | _, _ => Ok false
  end.

Definition constructor_def_eq (c : Conversion) (a b : TermConstructor)
    : result bool :=
  Ok (length (fields a) =? length (fields b)) &&?
  terms_def_eq (under c (length (fields a))) (indices a) (indices b) &&?
  all_checked (λ '(index, (a, b)), field_def_eq c index a b)
    (enumerate (zip (fields a) (fields b))).

(** [eta_match]: the body of a λ against a term that is not one. *)
Definition eta_match (c : Conversion) (lam_body other : Term) : result bool :=
  app_body ← whnf (under c 1) lam_body;
  match app_body with
  | App f x =>
      x_whnf ← whnf (under c 1) x;
      match x_whnf with
      | Var 0 =>
          if is_free_in f 0 then Ok false
          else def_eq c (shift_down f 1 0) other
      | _ => Ok false
      end
  | _ => Ok false
  end.

Definition def_eq_whnf (c : Conversion) (a b : Term) : result bool :=
  match a, b with
  | Data an al ai ac, Data bn bl bi bc =>
      Ok (String.eqb an bn && Level.level_eq al bl && (length ai =? length bi)) &&?
      all_checked (λ '(index, (a, b)), def_eq (under c index) a b)
        (enumerate (zip ai bi)) &&?
      Ok (length ac =? length bc) &&?
      all_checked (λ '(a, b), constructor_def_eq c a b) (zip ac bc)
  | Construct ad ai aa, Construct bd bi ba =>
      Ok (ai =? bi) &&? def_eq c ad bd &&? terms_def_eq c aa ba
  | Induct a am ac, Induct b bm bc =>
      def_eq c a b &&? def_eq c am bm &&? terms_def_eq c ac bc
  | Var i, Var j => Ok (i =? j)
  | Universe l1, Universe l2 => Ok (Level.level_eq l1 l2)
  | Pi a1 b1, Pi a2 b2 => def_eq c a1 a2 &&? def_eq (under c 1) b1 b2
  | Lam a1 b1, Lam a2 b2 => def_eq c a1 a2 &&? def_eq (under c 1) b1 b2
  | App f1 x1, App f2 x2 => def_eq c f1 f2 &&? def_eq c x1 x2
  | Sigma a1 b1, Sigma a2 b2 => def_eq c a1 a2 &&? def_eq (under c 1) b1 b2
  | Pair a1 b1, Pair a2 b2 => def_eq c a1 a2 &&? def_eq c b1 b2
  | Pair first second, other | other, Pair first second =>
      def_eq c first (Fst other) &&? def_eq c second (Snd other)
  | Fst p1, Fst p2 => def_eq c p1 p2
  | Snd p1, Snd p2 => def_eq c p1 p2
  | Id t1 l1 r1, Id t2 l2 r2 =>
      def_eq c t1 t2 &&? def_eq c l1 l2 &&? def_eq c r1 r2
  | Refl v1, Refl v2 => def_eq c v1 v2
  | J m1 b1 s1, J m2 b2 s2 =>
      def_eq c m1 m2 &&? def_eq c b1 b2 &&? def_eq c s1 s2
  | IdElim m1 b1 s1, IdElim m2 b2 s2 =>
      def_eq c m1 m2 &&? def_eq c b1 b2 &&? def_eq c s1 s2
  | FunExt a b e d, FunExt a' b' e' d' =>
      def_eq c a a' &&? def_eq c b b' &&? def_eq c e e' &&? def_eq c d d'
  | Lam _ body, other => eta_match c body other
  | other, Lam _ body => eta_match c body other
  | _, _ => Ok false
  end.
End open_recursion.

Fixpoint def_eq (gas : nat) (c : Conversion) (a b : Term) : result bool :=
  match gas with
  | 0 => Gas ConversionGas
  | S gas =>
      if term_eqb a b then Ok true else
      a ← whnf c a;
      b ← whnf c b;
      def_eq_whnf (def_eq gas) c a b
  end.
End conversion.
