(* ===== verification/ConvSpec.v ===== *)
(** * The declarative conversion relation

    [conv c t u] is the congruence generated by the computation rules β, δ, ζ,
    the projections, the two identity eliminators, induction on constructors
    (ι), the η-rules of functions and pairs, and equality of universe levels
    under every assignment.  The algorithm of [Conversion] is sound for it, and
    so is the comparison of values of the second kernel ([NbeSound]); for its
    sake the owner of a constructor may be applied to the indices of a family
    in the ι-rule, where the first kernel requires a bare declaration. *)

From S2P Require Import Prelude Levels LevelFacts Syntax Subst Context Conversion.

(** ** Head reduction as a relation

    [whnf_run c t n u] says that [t] reduces to the weak head normal form [u]
    in [n] head steps.  [whnf_loop] is proved to compute exactly this
    relation within its fuel. *)

(** The case an induction on [Construct _ k args] selects, if it is saturated. *)
Definition selected_case (declaration : Term) (k : nat) (cases args : list Term)
    : option (list (DataField Term) * Term) :=
  match declaration with
  | Data _ _ _ constructors =>
      ctor ← constructors !! k;
      case ← cases !! k;
      if length (fields ctor) =? length args then Some (fields ctor, case) else None
  | _ => None
  end.

Definition is_lam (t : Term) : bool := match t with Lam _ _ => true | _ => false end.
Definition is_pair (t : Term) : bool := match t with Pair _ _ => true | _ => false end.
Definition is_refl (t : Term) : bool := match t with Refl _ => true | _ => false end.
Definition is_construct (t : Term) : bool :=
  match t with Construct _ _ _ => true | _ => false end.

(** Terms whose head never reduces. *)
Definition is_value (t : Term) : bool :=
  match t with
  | Data _ _ _ _ | Construct _ _ _ | Universe _ | Pi _ _ | Lam _ _ | Sigma _ _
  | Pair _ _ | Id _ _ _ | Refl _ | FunExt _ _ _ _ => true
  | _ => false
  end.

Inductive whnf_run (c : Conversion) : Term → N → Term → Prop :=
| run_delta i v n t :
    unfold_var c i = Some v → whnf_run c v n t → whnf_run c (Var i) (1 + n) t
| run_var i : unfold_var c i = None → whnf_run c (Var i) 1 (Var i)
| run_let v b n t : whnf_run c (subst b 0 v) n t → whnf_run c (Let v b) (1 + n) t
| run_beta f x a b n m t :
    whnf_run c f n (Lam a b) → whnf_run c (subst b 0 x) m t →
    whnf_run c (App f x) (1 + n + m) t
| run_app f x f' n :
    whnf_run c f n f' → is_lam f' = false → whnf_run c (App f x) (1 + n) (App f' x)
| run_fst_pair p a b n m t :
    whnf_run c p n (Pair a b) → whnf_run c a m t → whnf_run c (Fst p) (1 + n + m) t
| run_fst p p' n :
    whnf_run c p n p' → is_pair p' = false → whnf_run c (Fst p) (1 + n) (Fst p')
| run_snd_pair p a b n m t :
    whnf_run c p n (Pair a b) → whnf_run c b m t → whnf_run c (Snd p) (1 + n + m) t
| run_snd p p' n :
    whnf_run c p n p' → is_pair p' = false → whnf_run c (Snd p) (1 + n) (Snd p')
| run_J_refl mo ba s v n m t :
    whnf_run c s n (Refl v) → whnf_run c ba m t → whnf_run c (J mo ba s) (1 + n + m) t
| run_J mo ba s s' n :
    whnf_run c s n s' → is_refl s' = false → whnf_run c (J mo ba s) (1 + n) (J mo ba s')
| run_IdElim_refl mo ba s v n m t :
    whnf_run c s n (Refl v) → whnf_run c ba m t → whnf_run c (IdElim mo ba s) (1 + n + m) t
| run_IdElim mo ba s s' n :
    whnf_run c s n s' → is_refl s' = false →
    whnf_run c (IdElim mo ba s) (1 + n) (IdElim mo ba s')
| run_iota s mo cases d k args decl fs case n m p t :
    whnf_run c s n (Construct d k args) → whnf_run c d m decl →
    selected_case decl k cases args = Some (fs, case) →
    whnf_run c (apply_case case mo cases fs args) p t →
    whnf_run c (Induct s mo cases) (1 + n + m + p) t
| run_induct_construct s mo cases d k args decl n m :
    whnf_run c s n (Construct d k args) → whnf_run c d m decl →
    selected_case decl k cases args = None →
    whnf_run c (Induct s mo cases) (1 + n + m) (Induct (Construct d k args) mo cases)
| run_induct s mo cases s' n :
    whnf_run c s n s' → is_construct s' = false →
    whnf_run c (Induct s mo cases) (1 + n) (Induct s' mo cases)
| run_value t : is_value t = true → whnf_run c t 1 t.

Create HintDb whnf discriminated.
#[export] Hint Constructors whnf_run : whnf.

Local Open Scope N_scope.

Lemma whnf_run_pos c t n u : whnf_run c t n u → 1 ≤ n.
Proof. induction 1; lia. Qed.

(** Take apart one layer of [whnf_loop]. *)
Ltac loop_cases :=
  repeat match goal with
  | H : mbind _ _ = Ok _ |- _ => apply bind_Ok in H as ([? ?] & ? & H)
  | H : (if ?b then _ else _) = Ok _ |- _ => destruct b eqn:?; try discriminate H
  | H : match ?x with _ => _ end = Ok _ |- _ => destruct x eqn:?; try discriminate H
  | H : Ok _ = Ok _ |- _ => injection H as H; subst
  end.

Lemma whnf_loop_sound gas c t fuel u fuel' :
  whnf_loop gas c t fuel = Ok (u, fuel') → ∃ n, whnf_run c t n u ∧ fuel = n + fuel'.
Proof.
  revert t fuel u fuel'. induction gas as [|gas IH]; intros t fuel u fuel'; [done|].
  cbn [whnf_loop]. destruct (N.eqb_spec fuel 0) as [|Hf]; [done|].
  intros H. destruct t; loop_cases;
    repeat match goal with
    | H : whnf_loop gas _ _ _ = Ok _ |- _ => apply IH in H as (? & ? & ?)
    end; subst;
    try (eexists; split; [eauto with whnf; fail|lia]).
  all: try (eexists; split; [eapply run_iota; eauto; simpl;
    repeat match goal with H : _ !! _ = Some _ |- _ => rewrite H end; simpl;
    match goal with H : (_ =? _)%nat = true |- _ => by rewrite H end|lia]).
  all: eexists; split; [eapply run_induct_construct; eauto; simpl;
    repeat match goal with H : _ !! _ = _ |- _ => rewrite H end; simpl; try done;
    match goal with H : (_ =? _)%nat = false |- _ => by rewrite H end|lia].
Qed.

Lemma whnf_loop_complete c t n u :
  whnf_run c t n u →
  ∀ fuel gas, n ≤ fuel → (N.to_nat fuel < gas)%nat →
  whnf_loop gas c t fuel = Ok (u, fuel - n).
Proof.
  induction 1; intros fuel gas Hn Hg;
    (destruct gas as [|gas]; [lia|]); cbn [whnf_loop];
    (destruct (N.eqb_spec fuel 0) as [->|Hf];
      [repeat match goal with H : whnf_run _ _ _ _ |- _ => apply whnf_run_pos in H end; lia|]);
    repeat match goal with
    | IH : ∀ _ _, _ → _ → whnf_loop _ _ _ _ = _ |- _ =>
        rewrite IH by lia; clear IH; cbn [mbind outcome_bind]
    end;
    try match goal with H : unfold_var _ _ = _ |- _ => rewrite H end;
    rewrite ?IHwhnf_run by lia; try (f_equal; f_equal; lia).
  all: try match goal with
    | H : is_lam ?t = false |- _ => destruct t; try done; f_equal; f_equal; lia
    | H : is_pair ?t = false |- _ => destruct t; try done; f_equal; f_equal; lia
    | H : is_refl ?t = false |- _ => destruct t; try done; f_equal; f_equal; lia
    | H : is_construct ?t = false |- _ => destruct t; try done; f_equal; f_equal; lia
    | H : is_value ?t = true |- _ => destruct t; try done; f_equal; f_equal; lia
    end.
  - destruct decl; try done. simpl in *.
    destruct (constructors !! k), (cases !! k); try done; simpl in *.
    destruct (_ =? _)%nat; [|done]. match goal with H : Some _ = Some _ |- _ => injection H as <- <- end.
    rewrite IHwhnf_run3 by lia. f_equal; f_equal; lia.
  - destruct decl; simpl in *; try (f_equal; f_equal; lia).
    destruct (constructors !! k), (cases !! k); simpl in *; try (f_equal; f_equal; lia).
    destruct (_ =? _)%nat; [done|]. f_equal; f_equal; lia.
Qed.

Ltac loop_bind_gas H :=
  repeat match type of H with
  | mbind _ _ = Gas _ =>
      apply bind_Gas in H as [H|([? ?] & ? & H)]
  | (if ?b then _ else _) = Gas _ => destruct b eqn:?; try discriminate H
  | match ?x with _ => _ end = Gas _ => destruct x eqn:?; try discriminate H
  end.

Lemma whnf_loop_no_gas gas c t fuel k :
  (N.to_nat fuel < gas)%nat → whnf_loop gas c t fuel ≠ Gas k.
Proof.
  revert t fuel. induction gas as [|gas IH]; intros t fuel Hg H; [lia|].
  cbn [whnf_loop] in H. destruct (N.eqb_spec fuel 0) as [|Hf]; [done|].
  destruct t; loop_bind_gas H; try done;
    repeat match goal with
    | E : whnf_loop gas _ _ _ = Ok (_, _) |- _ =>
        apply whnf_loop_sound in E as (? & E & ?); apply whnf_run_pos in E
    end;
    (eapply IH; [|exact H]; lia).
Qed.

Ltac loop_bind_err H :=
  repeat match type of H with
  | mbind _ _ = Err _ =>
      apply bind_Err in H as [H|([? ?] & ? & H)]
  | (if ?b then _ else _) = Err _ => destruct b eqn:?; try discriminate H
  | match ?x with _ => _ end = Err _ => destruct x eqn:?; try discriminate H
  end.

Lemma whnf_loop_err gas c t fuel e : whnf_loop gas c t fuel = Err e → e = FuelExhausted.
Proof.
  revert t fuel. induction gas as [|gas IH]; intros t fuel H; [done|].
  cbn [whnf_loop] in H. destruct (N.eqb_spec fuel 0) as [|Hf]; [congruence|].
  destruct t; loop_bind_err H; first [discriminate H | eauto].
Qed.

Lemma whnf_fuel_run c t fuel u fuel' :
  whnf_fuel c t fuel = Ok (u, fuel') ↔ ∃ n, whnf_run c t n u ∧ fuel = n + fuel'.
Proof.
  split; [apply whnf_loop_sound|]. intros (n & H & ->).
  unfold whnf_fuel. rewrite (whnf_loop_complete _ _ _ _ H) by lia. do 2 f_equal. lia.
Qed.

(** Outcomes of a head reduction: a weak head normal form or exhaustion. *)
Lemma whnf_fuel_cases c t fuel :
  (∃ u n, whnf_fuel c t fuel = Ok (u, fuel - n) ∧ whnf_run c t n u ∧ n ≤ fuel) ∨
  (whnf_fuel c t fuel = Err FuelExhausted ∧ ∀ n u, whnf_run c t n u → fuel < n).
Proof.
  destruct (whnf_fuel c t fuel) as [[u f]|e|k] eqn:E.
  - left. apply whnf_fuel_run in E as (n & H & ->). exists u, n. split_and!; [|done|lia].
    do 2 f_equal. lia.
  - right. pose proof E as E'. apply whnf_loop_err in E as ->. split; [done|].
    intros n u H. apply N.lt_nge. intros Hn.
    unfold whnf_fuel in E'. by rewrite (whnf_loop_complete _ _ _ _ H _ _ Hn) in E' by lia.
  - exfalso. eapply whnf_loop_no_gas; [|exact E]. lia.
Qed.

Lemma whnf_run_det c t n u m v : whnf_run c t n u → whnf_run c t m v → n = m ∧ u = v.
Proof.
  intros H1 H2.
  pose proof (whnf_loop_complete _ _ _ _ H1 (n + m) (S (N.to_nat (n + m))) ltac:(lia) ltac:(lia)) as E1.
  pose proof (whnf_loop_complete _ _ _ _ H2 (n + m) (S (N.to_nat (n + m))) ltac:(lia) ltac:(lia)) as E2.
  rewrite E1 in E2. injection E2 as -> ?. split; [lia|done].
Qed.

(** A weak head normal form reduces to itself, at no greater cost. *)
Lemma whnf_run_normal c t n u : whnf_run c t n u → ∃ m, whnf_run c u m u ∧ m ≤ n.
Proof.
  induction 1; repeat match goal with
    | IH : ∃ _, _ ∧ _ |- _ => destruct IH as (? & ? & ?)
    end; try (eexists; split; [eauto with whnf; fail|lia]).
Qed.

Section whnf.
Context (ceiling : N).

Lemma whnf_Ok c t u : whnf ceiling c t = Ok u ↔ ∃ n, whnf_run c t n u ∧ n ≤ ceiling.
Proof.
  unfold whnf. split.
  - intros H. apply bind_Ok in H as ([v f] & H & [= ->]).
    apply whnf_fuel_run in H as (n & H & ->). exists n. split; [done|lia].
  - intros (n & H & Hn). destruct (whnf_fuel_cases c t ceiling) as [(v & m & E & H' & _)|[_ E]].
    + rewrite E. simpl. by destruct (whnf_run_det _ _ _ _ _ _ H H') as [_ ->].
    + apply E in H. lia.
Qed.

Lemma whnf_no_gas c t k : whnf ceiling c t ≠ Gas k.
Proof.
  unfold whnf. intros H. apply bind_Gas in H as [H|([] & _ & H)]; [|done].
  eapply whnf_loop_no_gas; [|exact H]. lia.
Qed.

Lemma whnf_Err c t e : whnf ceiling c t = Err e → e = FuelExhausted.
Proof.
  unfold whnf. intros H. apply bind_Err in H as [H|([] & _ & H)]; [|done].
  by apply whnf_loop_err in H.
Qed.
End whnf.

Lemma whnf_ceiling_mono F F' c t u :
  F ≤ F' → whnf F c t = Ok u → whnf F' c t = Ok u.
Proof.
  intros HF. rewrite !whnf_Ok. intros (n & H & Hn). exists n. split; [done|lia].
Qed.

(** ** Properties *)

(** [whnf_fuel] implements head reduction exactly and always returns: it
    yields a term and the remaining fuel precisely when a reduction of at most
    that cost exists, and otherwise reports [FuelExhausted], in which case no
    weak head normal form is reachable within the budget.  It never returns a
    partially reduced term: reducing its result again changes nothing and
    costs no more. *)
Theorem whnf_fuel_spec c t fuel :
  (∃ u n, whnf_fuel c t fuel = Ok (u, fuel - n) ∧ whnf_run c t n u ∧ 1 ≤ n ≤ fuel ∧
     ∃ m, m ≤ n ∧ whnf_fuel c u fuel = Ok (u, fuel - m)) ∨
  (whnf_fuel c t fuel = Err FuelExhausted ∧ ∀ n u, whnf_run c t n u → fuel < n).
Proof.
  destruct (whnf_fuel_cases c t fuel) as [(u & n & E & H & Hn)|H]; [left|by right].
  exists u, n. pose proof (whnf_run_pos _ _ _ _ H).
  destruct (whnf_run_normal _ _ _ _ H) as (m & Hm & Hmn).
  split_and!; try done. exists m. split; [done|].
  apply whnf_fuel_run. exists m. split; [done|lia].
Qed.

(** The term [Ω Ω] of the kernel's audit: [(λ. 0 0) (λ. 0 0)]. *)
Definition self_app : Term := Lam (Universe (Level.Concrete (u32_of 0))) (App (Var 0) (Var 0)).
Definition omega : Term := App self_app self_app.

Lemma omega_diverges c n u : ¬ whnf_run c omega n u.
Proof.
  intros H. remember omega as t eqn:E. revert E.
  induction H as [| | |f x a b n m t Hf _ _ IH|f x f' n Hf _ Hl| | | | | | | | | | | |t Hv];
    intros E; try discriminate E.
  - injection E as -> ->. inversion Hf; subst. by apply IH.
  - injection E as -> ->. inversion Hf; subst. done.
  - by subst t.
Qed.

(** An ill-typed term whose reduction loops cannot hang the checker: on
    [Ω Ω] head reduction reports [FuelExhausted] whatever the budget. *)
Theorem whnf_omega_exhausts c fuel : whnf_fuel c omega fuel = Err FuelExhausted.
Proof.
  destruct (whnf_fuel_cases c omega fuel) as [(u & n & _ & H & _)|[H _]]; [|done].
  by apply omega_diverges in H.
Qed.

Inductive field_conv (R : Term → Term → Prop) (preceding : nat)
    : DataField Term → DataField Term → Prop :=
| field_conv_rec f g a b :
    recursive_indices f = Some a → recursive_indices g = Some b →
    Forall2 R a b → field_conv R preceding f g
| field_conv_value f g a b :
    field_value_type f preceding = Some a → field_value_type g preceding = Some b →
    R a b → field_conv R preceding f g.

(** Pointwise relation of two telescopes, with the position of each entry. *)
Inductive tele {A} (R : nat → A → A → Prop) : nat → list A → list A → Prop :=
| tele_nil n : tele R n [] []
| tele_cons n x y l k : R n x y → tele R (S n) l k → tele R n (x :: l) (y :: k).

Inductive constructor_conv (R : nat → Term → Term → Prop)
    : TermConstructor → TermConstructor → Prop :=
| constructor_conv_intro fs ixs fs' ixs' :
    tele (λ i, field_conv (R i) i) 0 fs fs' →
    Forall2 (R (length fs)) ixs ixs' →
    constructor_conv R (Ctor fs ixs) (Ctor fs' ixs').

Inductive conv (c : Conversion) : Term → Term → Prop :=
| conv_refl t : conv c t t
| conv_sym t u : conv c t u → conv c u t
| conv_trans t u v : conv c t u → conv c u v → conv c t v
(* computation *)
| conv_delta i v : unfold_var c i = Some v → conv c (Var i) v
| conv_zeta v b : conv c (Let v b) (subst b 0 v)
| conv_beta a b x : conv c (App (Lam a b) x) (subst b 0 x)
| conv_fst a b : conv c (Fst (Pair a b)) a
| conv_snd a b : conv c (Snd (Pair a b)) b
| conv_J_refl mo ba v : conv c (J mo ba (Refl v)) ba
| conv_IdElim_refl mo ba v : conv c (IdElim mo ba (Refl v)) ba
| conv_iota mo cases d k args decl params fs case :
    conv c d (apply_terms decl params) → selected_case decl k cases args = Some (fs, case) →
    conv c (Induct (Construct d k args) mo cases) (apply_case case mo cases fs args)
(* extensionality *)
| conv_eta a f : conv c (Lam a (App (shift_up f 1 0) (Var 0))) f
| conv_pair_eta p : conv c (Pair (Fst p) (Snd p)) p
(* congruence *)
| conv_universe l m : level_equiv l m → conv c (Universe l) (Universe m)
| conv_data n l l' ixs ixs' cs cs' :
    level_equiv l l' →
    tele (λ i, conv (under c i)) 0 ixs ixs' →
    Forall2 (constructor_conv (λ i, conv (under c i))) cs cs' →
    conv c (Data n l ixs cs) (Data n l' ixs' cs')
| conv_construct d d' k args args' :
    conv c d d' → Forall2 (conv c) args args' →
    conv c (Construct d k args) (Construct d' k args')
| conv_induct s s' mo mo' cases cases' :
    conv c s s' → conv c mo mo' → Forall2 (conv c) cases cases' →
    conv c (Induct s mo cases) (Induct s' mo' cases')
| conv_pi a a' b b' : conv c a a' → conv (under c 1) b b' → conv c (Pi a b) (Pi a' b')
| conv_lam a a' b b' : conv c a a' → conv (under c 1) b b' → conv c (Lam a b) (Lam a' b')
| conv_sigma a a' b b' :
    conv c a a' → conv (under c 1) b b' → conv c (Sigma a b) (Sigma a' b')
| conv_app f f' x x' : conv c f f' → conv c x x' → conv c (App f x) (App f' x')
| conv_pair a a' b b' : conv c a a' → conv c b b' → conv c (Pair a b) (Pair a' b')
| conv_fst_cong p p' : conv c p p' → conv c (Fst p) (Fst p')
| conv_snd_cong p p' : conv c p p' → conv c (Snd p) (Snd p')
| conv_refl_cong a a' : conv c a a' → conv c (Refl a) (Refl a')
| conv_id a a' x x' y y' :
    conv c a a' → conv c x x' → conv c y y' → conv c (Id a x y) (Id a' x' y')
| conv_J a a' x x' y y' :
    conv c a a' → conv c x x' → conv c y y' → conv c (J a x y) (J a' x' y')
| conv_IdElim a a' x x' y y' :
    conv c a a' → conv c x x' → conv c y y' → conv c (IdElim a x y) (IdElim a' x' y')
| conv_funext a a' x x' y y' z z' :
    conv c a a' → conv c x x' → conv c y y' → conv c z z' →
    conv c (FunExt a x y z) (FunExt a' x' y' z').

#[export] Instance conv_equivalence c : Equivalence (conv c).
Proof.
  split; [intros t; apply conv_refl|intros t u; apply conv_sym|intros t u v; apply conv_trans].
Qed.

(** Conversion is a congruence, for rewriting under the eliminators. *)
#[export] Instance App_conv c : Proper (conv c ==> conv c ==> conv c) App.
Proof. intros f f' Hf x x' Hx. by apply conv_app. Qed.
#[export] Instance Pair_conv c : Proper (conv c ==> conv c ==> conv c) Pair.
Proof. intros f f' Hf x x' Hx. by apply conv_pair. Qed.
#[export] Instance Fst_conv c : Proper (conv c ==> conv c) Fst.
Proof. intros p p' H. by apply conv_fst_cong. Qed.
#[export] Instance Snd_conv c : Proper (conv c ==> conv c) Snd.
Proof. intros p p' H. by apply conv_snd_cong. Qed.
#[export] Instance J_conv c : Proper (conv c ==> conv c ==> conv c ==> conv c) J.
Proof. intros a a' Ha b b' Hb s s' Hs. by apply conv_J. Qed.
#[export] Instance IdElim_conv c : Proper (conv c ==> conv c ==> conv c ==> conv c) IdElim.
Proof. intros a a' Ha b b' Hb s s' Hs. by apply conv_IdElim. Qed.
#[export] Instance Universe_conv c : Proper (level_equiv ==> conv c) Universe.
Proof. intros l m H. by apply conv_universe. Qed.

Lemma Forall2_conv_refl c l : Forall2 (conv c) l l.
Proof. by apply Forall_Forall2_diag, Forall_true, conv_refl. Qed.

Lemma conv_induct_head c s s' mo cases :
  conv c s s' → conv c (Induct s mo cases) (Induct s' mo cases).
Proof. intros H. apply conv_induct; [done|reflexivity|apply Forall2_conv_refl]. Qed.

(** ** Reduction is conversion *)
Lemma whnf_run_conv c t n u : whnf_run c t n u → conv c t u.
Proof.
  induction 1 as
    [i v n t Hi _ IH|i Hi|v b n t _ IH
    |f x a b n m t _ IHf _ IH|f x f' n _ IH _
    |p a b n m t _ IHp _ IH|p p' n _ IH _|p a b n m t _ IHp _ IH|p p' n _ IH _
    |mo ba s v n m t _ IHs _ IH|mo ba s s' n _ IH _
    |mo ba s v n m t _ IHs _ IH|mo ba s s' n _ IH _
    |s mo cases d k args decl fs case n m p t _ IHs _ IHd Hs _ IH
    |s mo cases d k args decl n m _ IHs _ IHd Hs|s mo cases s' n _ IH _|t Hv].
  - etrans; [by apply conv_delta|done].
  - reflexivity.
  - etrans; [apply conv_zeta|done].
  - rewrite IHf. etrans; [apply conv_beta|done].
  - by rewrite IH.
  - rewrite IHp. etrans; [apply conv_fst|done].
  - by rewrite IH.
  - rewrite IHp. etrans; [apply conv_snd|done].
  - by rewrite IH.
  - rewrite IHs. etrans; [apply conv_J_refl|done].
  - by rewrite IH.
  - rewrite IHs. etrans; [apply conv_IdElim_refl|done].
  - by rewrite IH.
  - etrans; [by apply conv_induct_head|]. etrans; [by apply (conv_iota _ _ _ _ _ _ decl [] fs case)|done].
  - by apply conv_induct_head.
  - by apply conv_induct_head.
  - reflexivity.
Qed.

Lemma whnf_conv F c t u : whnf F c t = Ok u → conv c t u.
Proof. intros (n & H & _)%whnf_Ok. by eapply whnf_run_conv. Qed.

(** ** Soundness of the comparison *)
Section sound.
Context (F : N) (rec : Conversion → Term → Term → result bool).
Context (rec_sound : ∀ c a b, rec c a b = Ok true → conv c a b).

Lemma terms_def_eq_sound c l k : terms_def_eq rec c l k = Ok true → Forall2 (conv c) l k.
Proof.
  unfold terms_def_eq. destruct (Nat.eqb_spec (length l) (length k)) as [E|]; [|done].
  intros H%all_checked_true. revert k E H; induction l as [|x l IH]; intros [|y k] E H;
    simplify_eq/=; constructor.
  - apply Forall_cons in H as [H _]. auto.
  - apply Forall_cons in H as [_ H]. auto.
Qed.

Lemma field_def_eq_sound c i f g :
  field_def_eq rec c i f g = Ok true → field_conv (conv (under c i)) i f g.
Proof.
  unfold field_def_eq.
  destruct (recursive_indices f) eqn:Ef, (recursive_indices g) eqn:Eg; try done.
  - intros H%terms_def_eq_sound. by eapply field_conv_rec.
  - destruct (field_value_type f i) eqn:Vf, (field_value_type g i) eqn:Vg; try done.
    intros H%rec_sound. by eapply field_conv_value.
Qed.

Lemma enumerate_sound {A} (check : nat → A → A → result bool) (R : nat → A → A → Prop)
    n (l k : list A) :
  (∀ i x y, check i x y = Ok true → R i x y) →
  length l = length k →
  all_checked (λ '(i, (a, b)), check i a b) (mapi_from (λ i x, (i, x)) n (zip l k)) = Ok true →
  tele R n l k.
Proof.
  intros HR. revert n k. induction l as [|x l IH]; intros n [|y k] E H; simplify_eq/=;
    [constructor|].
  apply bind_Ok in H as ([] & H1 & H2); [|done]. constructor; auto.
Qed.

Lemma constructor_def_eq_sound c x y :
  constructor_def_eq rec c x y = Ok true →
  constructor_conv (λ i, conv (under c i)) x y.
Proof.
  unfold constructor_def_eq. destruct x as [fs ixs], y as [fs' ixs'].
  intros [[Hl Hi]%and_checked_true Hf]%and_checked_true. injection Hl as Hl.
  cbn [fields indices] in *.
  apply Nat.eqb_eq in Hl. constructor; [|by apply terms_def_eq_sound].
  eapply (enumerate_sound (field_def_eq rec c)); eauto using field_def_eq_sound.
Qed.

Lemma constructors_def_eq_sound c xs ys :
  length xs = length ys →
  all_checked (λ '(a, b), constructor_def_eq rec c a b) (zip xs ys) = Ok true →
  Forall2 (constructor_conv (λ i, conv (under c i))) xs ys.
Proof.
  revert ys. induction xs as [|x xs IH]; intros [|y ys] E H; simplify_eq/=; [constructor|].
  apply bind_Ok in H as ([] & H1 & H2); [|done].
  constructor; auto using constructor_def_eq_sound.
Qed.

Lemma eta_match_sound c a body other :
  eta_match F rec c body other = Ok true → conv c (Lam a body) other.
Proof.
  unfold eta_match. intros (app & Happ & H)%bind_Ok.
  destruct app; try done. apply bind_Ok in H as (x' & Hx & H).
  destruct x' as [| | | |[]| | | | | | | | | | | | | ]; try done.
  destruct (is_free_in app1 0) eqn:Hfree; [done|].
  apply rec_sound in H. rewrite <- H.
  apply whnf_conv in Happ, Hx.
  etrans; [apply conv_lam; [reflexivity|]|apply (conv_eta c a)].
  rewrite Happ, Hx. by rewrite is_free_in_shift_down.
Qed.

Lemma pair_eta_sound c x y p :
  rec c x (Fst p) = Ok true → rec c y (Snd p) = Ok true → conv c (Pair x y) p.
Proof.
  intros H1%rec_sound H2%rec_sound. rewrite H1, H2. apply conv_pair_eta.
Qed.

Ltac conv_from_rec :=
  repeat match goal with
  | H : mbind (λ r : bool, if r then _ else Ok false) _ = Ok true |- _ =>
      apply and_checked_true in H as [? ?]
  | H : (if ?b then _ else Ok false) = Ok true |- _ =>
      destruct b eqn:?; [|discriminate H]
  | H : Ok _ = Ok true |- _ => injection H as H
  | H : (_ && _)%bool = true |- _ => apply andb_true_iff in H as [? ?]
  | H : Nat.eqb _ _ = true |- _ => apply Nat.eqb_eq in H
  | H : String.eqb _ _ = true |- _ => apply String.eqb_eq in H
  | H : Level.level_eq _ _ = true |- _ => apply level_eq_equiv in H
  | H : rec _ _ _ = Ok true |- _ => apply rec_sound in H
  | H : terms_def_eq rec _ _ _ = Ok true |- _ => apply terms_def_eq_sound in H
  end; subst.

Lemma def_eq_data_sound c an al ai ac bn bl bi bc :
  def_eq_whnf F rec c (Data an al ai ac) (Data bn bl bi bc) = Ok true →
  conv c (Data an al ai ac) (Data bn bl bi bc).
Proof.
  cbn [def_eq_whnf]. intros H. conv_from_rec. apply conv_data; [done| |by apply constructors_def_eq_sound].
  eapply (enumerate_sound (λ i a b, rec (under c i) a b)); eauto.
Qed.

Lemma def_eq_whnf_sound c a b : def_eq_whnf F rec c a b = Ok true → conv c a b.
Proof.
  destruct a, b; try apply def_eq_data_sound; cbn [def_eq_whnf]; intros H;
    try discriminate H;
    try (by apply eta_match_sound); try (by apply conv_sym, eta_match_sound);
    try (apply and_checked_true in H as [? ?]; first
      [ by apply pair_eta_sound | by apply conv_sym, pair_eta_sound
      | conv_from_rec; by constructor]);
    conv_from_rec; by constructor.
Qed.
End sound.

Lemma def_eq_conv F gas c a b : def_eq F gas c a b = Ok true → conv c a b.
Proof.
  revert c a b. induction gas as [|gas IH]; intros c a b; [done|]. cbn [def_eq].
  destruct (term_eqb a b) eqn:E; [apply term_eqb_eq in E as ->; reflexivity|].
  intros (a' & Ha & (b' & Hb & H)%bind_Ok)%bind_Ok.
  apply whnf_conv in Ha, Hb. rewrite Ha, Hb. by eapply def_eq_whnf_sound.
Qed.

Lemma expect_universe_conv F c t l :
  expect_universe F c t = Ok (Some l) → conv c t (Universe l).
Proof.
  unfold expect_universe. intros (u & Hu & H)%bind_Ok. apply whnf_conv in Hu.
  destruct u; try done. injection H as <-. rewrite Hu.
  apply conv_universe. symmetry. apply normalize_equiv.
Qed.

(** ** Symmetry of the comparison *)
Lemma level_eq_comm l m : Level.level_eq l m = Level.level_eq m l.
Proof.
  unfold Level.level_eq. apply eq_true_iff_eq. by rewrite !Level.level_eqb_eq.
Qed.

Lemma term_eqb_comm a b : term_eqb a b = term_eqb b a.
Proof. apply eq_true_iff_eq. by rewrite !term_eqb_eq. Qed.

Lemma all_checked_zip_comm {A} (f g : A → A → result bool) l k :
  (∀ x y, f x y = g y x) →
  all_checked (λ '(x, y), f x y) (zip l k) = all_checked (λ '(x, y), g x y) (zip k l).
Proof.
  intros H. revert k. induction l as [|x l IH]; intros [|y k]; simpl; try done.
  by rewrite H, IH.
Qed.

Lemma all_checked_enumerate_comm {A} (f g : nat → A → A → result bool) n l k :
  (∀ i x y, f i x y = g i y x) →
  all_checked (λ '(i, (x, y)), f i x y) (mapi_from (λ i x, (i, x)) n (zip l k)) =
  all_checked (λ '(i, (x, y)), g i x y) (mapi_from (λ i x, (i, x)) n (zip k l)).
Proof.
  intros H. revert n k. induction l as [|x l IH]; intros n [|y k]; simpl; try done.
  by rewrite H, IH.
Qed.

Section symmetric.
Context (F : N) (rec : Conversion → Term → Term → result bool).
Context (Hrec : ∀ c a b, rec c a b = rec c b a).

Lemma terms_def_eq_comm c l k : terms_def_eq rec c l k = terms_def_eq rec c k l.
Proof.
  unfold terms_def_eq. rewrite Nat.eqb_sym. destruct (Nat.eqb _ _); [|done].
  by apply all_checked_zip_comm.
Qed.

Lemma field_def_eq_comm c i f g : field_def_eq rec c i f g = field_def_eq rec c i g f.
Proof.
  unfold field_def_eq. destruct (recursive_indices f), (recursive_indices g);
    auto using terms_def_eq_comm.
  destruct (field_value_type f i), (field_value_type g i); auto.
Qed.

Lemma constructor_def_eq_comm c x y : constructor_def_eq rec c x y = constructor_def_eq rec c y x.
Proof.
  unfold constructor_def_eq, enumerate. rewrite Nat.eqb_sym.
  destruct (Nat.eqb_spec (length (fields y)) (length (fields x))) as [->|]; [|done].
  rewrite terms_def_eq_comm.
  rewrite (all_checked_enumerate_comm (field_def_eq rec c) (field_def_eq rec c));
    auto using field_def_eq_comm.
Qed.

Lemma def_eq_whnf_comm c a b : def_eq_whnf F rec c a b = def_eq_whnf F rec c b a.
Proof.
  destruct a, b; cbn [def_eq_whnf]; try done;
    repeat match goal with
    | |- context [rec ?c ?x ?y] =>
        lazymatch goal with |- _ = ?r =>
          lazymatch r with context [rec c y x] => rewrite (Hrec c x y) end end
    end; try done.
  - unfold enumerate. rewrite String.eqb_sym, level_eq_comm, (Nat.eqb_sym (length ixs)).
    rewrite (Nat.eqb_sym (length constructors)).
    rewrite (all_checked_enumerate_comm (λ i a b, rec (under c i) a b)
      (λ i a b, rec (under c i) a b)) by auto.
    rewrite (all_checked_zip_comm (constructor_def_eq rec c) (constructor_def_eq rec c));
      auto using constructor_def_eq_comm.
  - by rewrite Nat.eqb_sym, terms_def_eq_comm.
  - by rewrite terms_def_eq_comm.
  - by rewrite Nat.eqb_sym.
  - by rewrite level_eq_comm.
Qed.
End symmetric.

(** ** Properties *)

(** The comparison is sound for conversion: terms it identifies, at any
    fuel, are related by the congruence of the computation rules, η and the
    equality of universe levels. *)
Theorem def_eq_sound F gas c a b : def_eq F gas c a b = Ok true → conv c a b.
Proof. apply def_eq_conv. Qed.

(** The comparison is symmetric, exactly: swapping its arguments changes
    neither the verdict nor whether the budget is exhausted, although the
    η-rules and inductive declarations treat the two sides differently. *)
Theorem def_eq_symmetric F gas c a b : def_eq F gas c a b = def_eq F gas c b a.
Proof.
  revert c a b. induction gas as [|gas IH]; intros c a b; [done|]. cbn [def_eq].
  rewrite term_eqb_comm. destruct (term_eqb b a); [done|].
  destruct (whnf F c a) as [a'|e|k] eqn:Ea, (whnf F c b) as [b'|e'|k'] eqn:Eb;
    cbn [mbind outcome_bind]; try done;
    try (by apply whnf_no_gas in Ea); try (by apply whnf_no_gas in Eb);
    try (by apply whnf_Err in Ea as ->; apply whnf_Err in Eb as ->).
  by apply def_eq_whnf_comm.
Qed.

(** ** Witness *)

(** [λ x : Type 0. f x] against [f], by η in both directions. *)
Lemma def_eq_sound_witness :
  conv (under (conversion (with_foundation Intensional)) 1)
    (Lam (Universe (Level.Concrete (u32_of 0))) (App (Var 1) (Var 0))) (Var 0).
Proof. apply (def_eq_sound 100 10). vm_compute. reflexivity. Defined.
