(* ===== verification/ConvFacts.v ===== *)
(** * Conversion under binders and substitutions

    Conversion is preserved when definitions or binders are added anywhere in
    its context ([conv_weaken]) and is a congruence for every traversal of a
    term, in particular for substitution of convertible terms. *)
From S2P Require Import Prelude Levels LevelFacts Syntax Subst Inst Context Conversion ConvSpec.

(** ** Shifting, one constructor at a time *)
Lemma shift_map_children t n k :
  (∀ i, t ≠ Var i) → shift_up t n k = map_children (λ c b, shift_up c n (k + b)) t.
Proof.
  intros Hv. rewrite shift_up_mv, map_variables_children by done.
  apply map_children_ext, Forall_true. intros [c b]. by rewrite shift_up_mv.
Qed.

Lemma shift_Var n k i : shift_up (Var i) n k = Var (if k <=? i then i + n else i).
Proof. rewrite shift_up_mv. cbn. unfold shift_var. by destruct (k <=? i). Qed.

Lemma shift_Universe n k l : shift_up (Universe l) n k = Universe l.
Proof. by rewrite shift_up_mv. Qed.

Ltac shift_node := rewrite shift_map_children by done; cbn; by rewrite ?Nat.add_0_r.

Lemma shift_Let n k v b : shift_up (Let v b) n k = Let (shift_up v n k) (shift_up b n (k + 1)).
Proof. shift_node. Qed.
Lemma shift_Pi n k a b : shift_up (Pi a b) n k = Pi (shift_up a n k) (shift_up b n (k + 1)).
Proof. shift_node. Qed.
Lemma shift_Lam n k a b : shift_up (Lam a b) n k = Lam (shift_up a n k) (shift_up b n (k + 1)).
Proof. shift_node. Qed.
Lemma shift_Sigma n k a b :
  shift_up (Sigma a b) n k = Sigma (shift_up a n k) (shift_up b n (k + 1)).
Proof. shift_node. Qed.
Lemma shift_App n k a b : shift_up (App a b) n k = App (shift_up a n k) (shift_up b n k).
Proof. shift_node. Qed.
Lemma shift_Pair n k a b : shift_up (Pair a b) n k = Pair (shift_up a n k) (shift_up b n k).
Proof. shift_node. Qed.
Lemma shift_Fst n k a : shift_up (Fst a) n k = Fst (shift_up a n k).
Proof. shift_node. Qed.
Lemma shift_Snd n k a : shift_up (Snd a) n k = Snd (shift_up a n k).
Proof. shift_node. Qed.
Lemma shift_Refl n k a : shift_up (Refl a) n k = Refl (shift_up a n k).
Proof. shift_node. Qed.
Lemma shift_Id n k a b c :
  shift_up (Id a b c) n k = Id (shift_up a n k) (shift_up b n k) (shift_up c n k).
Proof. shift_node. Qed.
Lemma shift_J n k a b c :
  shift_up (J a b c) n k = J (shift_up a n k) (shift_up b n k) (shift_up c n k).
Proof. shift_node. Qed.
Lemma shift_IdElim n k a b c :
  shift_up (IdElim a b c) n k = IdElim (shift_up a n k) (shift_up b n k) (shift_up c n k).
Proof. shift_node. Qed.
Lemma shift_FunExt n k a b c d :
  shift_up (FunExt a b c d) n k =
    FunExt (shift_up a n k) (shift_up b n k) (shift_up c n k) (shift_up d n k).
Proof. shift_node. Qed.
Lemma shift_Construct n k d i args :
  shift_up (Construct d i args) n k =
    Construct (shift_up d n k) i (List.map (λ t, shift_up t n k) args).
Proof. shift_node. Qed.
Lemma shift_Induct n k s m cases :
  shift_up (Induct s m cases) n k =
    Induct (shift_up s n k) (shift_up m n k) (List.map (λ t, shift_up t n k) cases).
Proof. shift_node. Qed.
Lemma shift_Data n k name l ixs cs :
  shift_up (Data name l ixs cs) n k =
    Data name l (mapi_from (λ i t, shift_up t n (k + i)) 0 ixs)
      (List.map (map_constructor (λ t b, shift_up t n (k + b))) cs).
Proof. shift_node. Qed.

#[export] Hint Rewrite shift_Var shift_Universe shift_Let shift_Pi shift_Lam shift_Sigma shift_App
  shift_Pair shift_Fst shift_Snd shift_Refl shift_Id shift_J shift_IdElim shift_FunExt
  shift_Construct shift_Induct shift_Data : verum.

Lemma shift_apply_terms n k f args :
  shift_up (apply_terms f args) n k =
    apply_terms (shift_up f n k) (List.map (λ t, shift_up t n k) args).
Proof.
  revert f. induction args as [|x args IH]; intros f; [done|]. unfold apply_terms in *.
  cbn [foldl List.map]. by rewrite IH, shift_App.
Qed.

Lemma scoped_apply_terms n f args :
  scoped n (apply_terms f args) ↔ scoped n f ∧ Forall (scoped n) args.
Proof.
  revert f. induction args as [|x args IH]; intros f; cbn; [split; [by split|tauto]|].
  unfold apply_terms in IH. rewrite IH, (scoped_children _ (App f x)) by done.
  rewrite (Forall_cons _ x). cbn. rewrite !Forall_cons. cbn. rewrite !Nat.add_0_r, Forall_nil.
  tauto.
Qed.

Lemma is_recursive_map f i d : is_recursive (map_field f i d) = is_recursive d.
Proof. by destruct d. Qed.

Lemma shift_apply_case n k case mo cases fs args j :
  shift_up (apply_case case mo cases fs args) n k =
    apply_case (shift_up case n k) (shift_up mo n k) (List.map (λ t, shift_up t n k) cases)
      (mapi_from (map_field (λ t b, shift_up t n (k + b))) j fs)
      (List.map (λ t, shift_up t n k) args).
Proof.
  unfold apply_case. revert case args j.
  induction fs as [|f fs IH]; intros case [|x args] j; try done.
  cbn [zip zip_with foldl mapi_from List.map]. rewrite (IH _ _ (S j)), is_recursive_map.
  destruct (is_recursive f); by autorewrite with verum.
Qed.

Lemma selected_case_shift n k decl i cases args fs case :
  selected_case decl i cases args = Some (fs, case) →
  selected_case (shift_up decl n k) i (List.map (λ t, shift_up t n k) cases)
    (List.map (λ t, shift_up t n k) args) =
  Some (mapi_from (map_field (λ t b, shift_up t n (k + b))) 0 fs, shift_up case n k).
Proof.
  destruct decl; try done. rewrite shift_Data. cbn [selected_case].
  change (List.map ?f ?l) with (f <$> l). rewrite !list_lookup_fmap.
  destruct (constructors !! i) as [c|]; [|done]. destruct (cases !! i) as [case'|]; [|done].
  cbn. rewrite mapi_from_length, length_fmap.
  destruct (_ =? _); [|done]. by intros [= <- <-].
Qed.

(** ** Conversion contexts with more in them *)

(** [c'] has [n] more binders than [c], [k] binders from the inside, and
    every definition of [c]. *)
Definition cweak (n k : nat) (c c' : Conversion) : Prop :=
  ∀ i v, unfold_var c i = Some v →
    unfold_var c' (if k <=? i then i + n else i) = Some (shift_up v n k).

Lemma unfold_under c m i :
  unfold_var (under c m) i =
    if m <=? i then (λ v, shift_up v m 0) <$> unfold_var c (i - m) else None.
Proof.
  unfold unfold_var, definition_under, checked_sub. cbn [binders under context].
  destruct (Nat.leb_spec (binders c + m) i) as [H1|H1], (Nat.leb_spec m i);
    destruct (Nat.leb_spec (binders c) (i - m)); try lia; try done; cbn.
  replace (i - (binders c + m)) with (i - m - binders c) by lia.
  destruct (_ <=? _); [|done]. cbn. destruct (bindings (context c) !! _) as [b|]; [|done]. cbn.
  destruct (definition_of b) as [t|]; [|done]. cbn.
  rewrite shift_shift by lia. do 2 f_equal; lia.
Qed.

Lemma cweak_under n k c c' m : cweak n k c c' → cweak n (k + m) (under c m) (under c' m).
Proof.
  intros H i v. rewrite !unfold_under. destruct (Nat.leb_spec m i) as [Hi|]; [|done].
  destruct (unfold_var c (i - m)) as [w|] eqn:Hw; [|done]. intros [= <-].
  apply H in Hw. destruct (Nat.leb_spec k (i - m)), (Nat.leb_spec (k + m) i); try lia.
  - destruct (Nat.leb_spec m (i + n)); [|lia].
    replace (i + n - m) with (i - m + n) by lia. rewrite Hw. cbn. f_equal.
    apply (shift_commute w n m 0 k); lia.
  - destruct (Nat.leb_spec m i); [|lia]. rewrite Hw. cbn. f_equal.
    apply (shift_commute w n m 0 k); lia.
Qed.

Lemma cweak_binders c m : cweak m 0 c (under c m).
Proof.
  intros i v H. cbn [Nat.leb]. rewrite unfold_under.
  destruct (Nat.leb_spec m (i + m)); [|lia]. replace (i + m - m) with i by lia. by rewrite H.
Qed.

Lemma tele_map {A B} (R : nat → A → A → Prop) (R' : nat → B → B → Prop) (f : nat → A → B) n l l' :
  (∀ i x y, R i x y → R' i (f i x) (f i y)) →
  tele R n l l' → tele R' n (mapi_from f n l) (mapi_from f n l').
Proof. intros H. induction 1; cbn; constructor; auto. Qed.

Lemma tele_length {A} (R : nat → A → A → Prop) n l l' : tele R n l l' → length l = length l'.
Proof. induction 1; cbn; congruence. Qed.

Lemma field_value_map_type d i n k :
  field_value_type (map_field (λ t b, shift_up t n (k + b)) i d) i =
    (λ t, shift_up t n (k + i)) <$> field_value_type d i.
Proof.
  destruct d as [t|t| |]; cbn; try done. f_equal. rewrite Nat.add_0_r.
  apply (shift_commute t n i 0 k). lia.
Qed.

Lemma recursive_indices_map (f : Term → nat → Term) d i :
  recursive_indices (map_field f i d) = List.map (λ t, f t i) <$> recursive_indices d.
Proof. by destruct d. Qed.

Lemma shift_subst0 b v n k :
  shift_up (subst b 0 v) n k = subst (shift_up b n (k + 1)) 0 (shift_up v n k).
Proof. rewrite (Nat.add_comm k 1). apply (shift_subst_high b 0 v n k). Qed.

(** The lists inside a declaration, for relations that shifting maps into one
    another.  Transparent: the induction on conversions recurses through them. *)
Section shift_lists.
Context (n k : nat) (R R' : nat → Term → Term → Prop).
Context (HR : ∀ i x y, R i x y → R' i (shift_up x n (k + i)) (shift_up y n (k + i))).

Lemma shift_terms i l l' :
  Forall2 (R i) l l' →
  Forall2 (R' i) (List.map (λ t, shift_up t n (k + i)) l)
    (List.map (λ t, shift_up t n (k + i)) l').
Proof. induction 1; constructor; auto. Defined.

Lemma shift_tele j l l' :
  tele R j l l' →
  tele R' j (mapi_from (λ i t, shift_up t n (k + i)) j l)
    (mapi_from (λ i t, shift_up t n (k + i)) j l').
Proof. induction 1; cbn; constructor; auto. Defined.

Lemma shift_fields j l l' :
  tele (λ i, field_conv (R i) i) j l l' →
  tele (λ i, field_conv (R' i) i) j
    (mapi_from (map_field (λ t b, shift_up t n (k + b))) j l)
    (mapi_from (map_field (λ t b, shift_up t n (k + b))) j l').
Proof.
  induction 1 as [|j x y l l' Hxy _ IHl]; [constructor|].
  cbn. constructor; [|exact IHl]. destruct Hxy as [f g a b Ea Eb H|f g a b Ea Eb H].
  - eapply field_conv_rec; [by rewrite recursive_indices_map, Ea
      |by rewrite recursive_indices_map, Eb|by apply shift_terms].
  - eapply field_conv_value; [by rewrite field_value_map_type, Ea
      |by rewrite field_value_map_type, Eb|by apply HR].
Defined.

Lemma shift_constructors l l' :
  Forall2 (constructor_conv R) l l' →
  Forall2 (constructor_conv R')
    (List.map (map_constructor (λ t b, shift_up t n (k + b))) l)
    (List.map (map_constructor (λ t b, shift_up t n (k + b))) l').
Proof.
  induction 1 as [|x y l l' Hxy _ IHl]; [constructor|]. constructor; [|exact IHl].
  destruct Hxy as [fs ixs fs' ixs' Hfs Hixs]. unfold map_constructor. cbn [fields indices].
  rewrite <- (tele_length _ _ _ _ Hfs). constructor; [by apply shift_fields|].
  rewrite mapi_from_length. by apply shift_terms.
Defined.
End shift_lists.

Lemma conv_weaken c t u :
  conv c t u → ∀ n k c', cweak n k c c' → conv c' (shift_up t n k) (shift_up u n k).
Proof.
  revert c t u. fix IH 4. intros c t u H n k c' Hw.
  assert (Hu : ∀ i x y, conv (under c i) x y →
    conv (under c' i) (shift_up x n (k + i)) (shift_up y n (k + i))).
  { intros i x y Hxy. eapply IH; [exact Hxy|]. by apply cweak_under. }
  assert (Hs : ∀ l l', Forall2 (conv c) l l' →
    Forall2 (conv c') (List.map (λ t, shift_up t n k) l) (List.map (λ t, shift_up t n k) l')).
  { clear t u H. intros l l' H. induction H as [|x y l l' Hxy _ IHl]; constructor; eauto. }
  destruct H; autorewrite with verum.
  - apply conv_refl.
  - apply conv_sym; eauto.
  - eapply conv_trans; eauto.
  - apply conv_delta. by apply Hw.
  - rewrite shift_subst0. apply conv_zeta.
  - rewrite shift_subst0. apply conv_beta.
  - apply conv_fst.
  - apply conv_snd.
  - apply conv_J_refl.
  - apply conv_IdElim_refl.
  - rewrite (shift_apply_case _ _ _ _ _ _ _ 0). eapply conv_iota.
    + rewrite <- shift_apply_terms. eauto.
    + by apply selected_case_shift.
  - destruct (Nat.leb_spec (k + 1) 0); [lia|]. rewrite <- (shift_commute f n 1 0 k) by lia.
    apply conv_eta.
  - apply conv_pair_eta.
  - by apply conv_universe.
  - apply conv_data; [done|by eapply (shift_tele n k _ _ Hu)|by eapply (shift_constructors n k _ _ Hu)].
  - apply conv_construct; eauto.
  - apply conv_induct; eauto.
  - apply conv_pi; eauto.
  - apply conv_lam; eauto.
  - apply conv_sigma; eauto.
  - apply conv_app; eauto.
  - apply conv_pair; eauto.
  - apply conv_fst_cong; eauto.
  - apply conv_snd_cong; eauto.
  - apply conv_refl_cong; eauto.
  - apply conv_id; eauto.
  - apply conv_J; eauto.
  - apply conv_IdElim; eauto.
  - apply conv_funext; eauto.
Qed.

Lemma conv_shift c t u m : conv c t u → conv (under c m) (shift_up t m 0) (shift_up u m 0).
Proof. intros H. eapply conv_weaken; [exact H|apply cweak_binders]. Qed.

(** ** Congruence for traversals *)

(** Substitution, through a β-redex. *)
Lemma conv_subst c b b' x x' :
  conv (under c 1) b b' → conv c x x' → conv c (subst b 0 x) (subst b' 0 x').
Proof.
  intros Hb Hx. rewrite <- (conv_beta c x b x), <- (conv_beta c x b' x').
  apply conv_app; [by apply conv_lam|done].
Qed.

Lemma conv_let c v v' b b' :
  conv c v v' → conv (under c 1) b b' → conv c (Let v b) (Let v' b').
Proof. intros. rewrite !conv_zeta. by apply conv_subst. Qed.

Lemma Forall2_conv_map c (f g : Term → Term) l :
  (∀ x, x ∈ l → conv c (f x) (g x)) → Forall2 (conv c) (List.map f l) (List.map g l).
Proof.
  induction l as [|x l IH]; intros H; constructor; [apply H; left|].
  apply IH. intros y Hy. apply H. by right.
Qed.

Lemma Forall_map_tagged c n (f g : Term → nat → Term) l :
  Forall (λ x, conv (under c x.2) (f x.1 x.2) (g x.1 x.2)) ((λ t, (t, n)) <$> l) →
  Forall2 (conv (under c n)) (List.map (λ t, f t n) l) (List.map (λ t, g t n) l).
Proof.
  rewrite Forall_fmap, Forall_forall. intros H. apply Forall2_conv_map. intros x Hx.
  by apply (H x).
Qed.

Lemma conv_map_field c i (f g : Term → nat → Term) d :
  Forall (λ x, conv (under c x.2) (f x.1 x.2) (g x.1 x.2)) (field_children i d) →
  field_conv (conv (under c i)) i (map_field f i d) (map_field g i d).
Proof.
  destruct d as [t|t| |ixs]; cbn [field_children]; intros H;
    rewrite ?Forall_cons in H; cbn in H.
  - eapply field_conv_value; [done|done|]. apply conv_shift. rewrite under_0 in H. tauto.
  - eapply field_conv_value; [done|done|]. tauto.
  - by eapply field_conv_rec.
  - eapply field_conv_rec; [done|done|]. by apply Forall_map_tagged.
Qed.

Lemma conv_map_constructor c (f g : Term → nat → Term) x :
  Forall (λ x, conv (under c x.2) (f x.1 x.2) (g x.1 x.2)) (constructor_children x) →
  constructor_conv (λ i, conv (under c i)) (map_constructor f x) (map_constructor g x).
Proof.
  intros [Hf Hi]%Forall_app. destruct x as [fs ixs]. unfold map_constructor. cbn [fields indices] in *.
  constructor.
  - revert Hf. generalize 0. clear Hi. induction fs as [|d fs IH]; intros n H; [constructor|].
    cbn in H. apply Forall_app in H as [H1 H2]. constructor; auto using conv_map_field.
  - rewrite mapi_from_length. by apply Forall_map_tagged.
Qed.

Lemma conv_map_children c (f g : Term → nat → Term) t :
  (∀ i, t ≠ Var i) →
  Forall (λ x, conv (under c x.2) (f x.1 x.2) (g x.1 x.2)) (children t) →
  conv c (map_children f t) (map_children g t).
Proof.
  intros Hv H. destruct t; cbn [children map_children] in *;
    rewrite ?Forall_cons, ?Forall_app, ?under_0 in H; cbn in H; rewrite ?under_0 in H;
    try (apply conv_refl); try (by destruct (Hv i));
    try (constructor; try tauto; rewrite <- (under_0 c); apply Forall_map_tagged; tauto);
    try (constructor; tauto); try (apply conv_let; tauto).
  destruct H as [H1 H2]. apply conv_data; [done| |].
  - revert H1. generalize 0. clear H2. induction ixs as [|x ixs IH]; intros n H; [constructor|].
    cbn in H. apply Forall_cons in H as [? ?]. constructor; auto.
  - clear H1. induction constructors as [|x cs IH]; [constructor|].
    cbn in H2. apply Forall_app in H2 as [? ?]. constructor; auto using conv_map_constructor.
Qed.

Lemma conv_map_variables c t d d' f g :
  (∀ n i, conv (under c n) (f i (d + n)) (g i (d' + n))) →
  conv c (map_variables t d f) (map_variables t d' g).
Proof.
  revert c d d'. induction t as [t IH] using term_children_ind. intros c d d' H.
  destruct (var_or_not t) as [[i ->]|Hv].
  { specialize (H 0 i). by rewrite under_0, !Nat.add_0_r in H. }
  rewrite !map_variables_children by done. apply conv_map_children; [done|].
  eapply Forall_impl; [exact IH|]. intros [x b] Hx. cbn. apply Hx. intros n i.
  rewrite under_under, <- !Nat.add_assoc. apply H.
Qed.

Lemma conv_inst c d σ σ' t :
  Forall2 (conv c) σ σ' → conv (under c d) (inst_at d σ t) (inst_at d σ' t).
Proof.
  intros H. apply conv_map_variables. intros n i. rewrite under_under.
  pose proof (Forall2_length _ _ _ H) as HL. apply inst_var_cases.
  - intros Hi. rewrite inst_var_lt by done. apply conv_refl.
  - intros j u -> Hu. destruct (Forall2_lookup_l _ _ _ _ _ H Hu) as (u' & Hu' & Huu).
    rewrite (inst_var_at _ _ _ u') by done. by apply conv_shift.
  - intros j -> Hj. rewrite inst_var_ge, HL by lia. apply conv_refl.
Qed.

Lemma conv_apply_terms c f f' args args' :
  conv c f f' → Forall2 (conv c) args args' → conv c (apply_terms f args) (apply_terms f' args').
Proof.
  intros Hf H. revert f f' Hf. induction H as [|x x' args args' Hx _ IH]; intros f f' Hf; [done|].
  apply IH. by apply conv_app.
Qed.

Lemma conv_apply_head c f f' args : conv c f f' → conv c (apply_terms f args) (apply_terms f' args).
Proof. intros H. apply conv_apply_terms; [done|apply Forall2_conv_refl]. Qed.
