(* ===== verification/Checker.v ===== *)
(** * The bidirectional checker

    [infer], [check], [check_against] and [Certificate] of
    [verum_proof/src/proof_checker.rs].  Each arm of [infer_inner] is a
    definition over the two recursive functions of the program, which are then
    tied by recursion on [gas].  [ceiling] is the head-reduction fuel and
    [cgas] the recursion depth allowed to the comparison of terms. *)
From S2P Require Import Prelude Levels Syntax Subst Context Conversion.

Open Scope verum_scope.

(** ** Telescopes of inductive declarations *)
Definition instantiate_fields (term : Term) (arguments : list Term) : Term :=
  foldr (λ '(remaining, argument) term, subst term 0 (shift_up argument remaining 0))
    term (enumerate arguments).

Definition field_domain (data : Term) (field : DataField Term) (preceding : nat) : Term :=
  match field_value_type field preceding with
  | Some t => t
  | None =>
      apply_terms (shift_up data preceding 0) (default [] (recursive_indices field))
  end.

Definition rebind_fields (term : Term) (positions : list nat) (depth : nat) : Term :=
  let references := List.map (λ p, Var (depth - 1 - p)) positions in
  instantiate_fields (shift_up term depth (length positions)) references.

(** The loop of [induction_case_type] over the fields: the domains of the
    branch so far and the position of every field among them. *)
Definition case_domains (data motive : Term) (fs : list (DataField Term))
    : list Term * list nat :=
  foldl (λ '(domains, positions) field,
    let depth := length domains in
    let domain :=
      rebind_fields (field_domain data field (length positions)) positions depth in
    let hypothesis :=
      match recursive_indices field with
      | Some ixs =>
          let arguments := List.map (λ t, rebind_fields t positions (depth + 1)) ixs in
          [App (apply_terms (shift_up motive (depth + 1) 0) arguments) (Var 0)]
      | None => []
      end in
    (domains ++ domain :: hypothesis, positions ++ [depth])) ([], []) fs.

Definition induction_case_type (data motive : Term) (index : nat)
    (constructor : TermConstructor) : Term :=
  let '(domains, positions) := case_domains data motive (fields constructor) in
  let depth := length domains in
  let ixs := List.map (λ t, rebind_fields t positions depth) (indices constructor) in
  let applied :=
    Construct (shift_up data depth 0) index
      (List.map (λ p, Var (depth - 1 - p)) positions) in
  let result := App (apply_terms (shift_up motive depth 0) ixs) applied in
  foldr Pi result domains.

(** Applications at the head of a term; enough gas for [split_family]. *)
Fixpoint spine (t : Term) : nat :=
  match t with App f _ => S (spine f) | _ => 0 end.

Section checker.
Context (ceiling : N) (cgas : nat).

Definition ctx_whnf (ctx : Context) (t : Term) : result Term :=
  whnf ceiling (conversion ctx) t.
Definition ctx_def_eq (ctx : Context) (a b : Term) : result bool :=
  def_eq ceiling cgas (conversion ctx) a b.
Definition under_def_eq (ctx : Context) (n : nat) (a b : Term) : result bool :=
  def_eq ceiling cgas (under (conversion ctx) n) a b.

(** [expect_universe(&kind)?.ok_or_else(|| NotAType(t))?]. *)
Definition expect_type (ctx : Context) (kind t : Term) : result Level :=
  level ← expect_universe ceiling (conversion ctx) kind;
  ok_or level (NotAType t).

Fixpoint split_family_loop (gas : nat) (ctx : Context) (t : Term) (values : list Term)
    : result (Term * list Term) :=
  match gas with
  | 0 => Gas ReductionGas
  | S gas =>
      match t with
      | App head arg => t ← ctx_whnf ctx head; split_family_loop gas ctx t (arg :: values)
      | t => Ok (t, values)
      end
  end.

Definition split_family (ctx : Context) (t : Term) : result (option (Term * list Term)) :=
  '(t, values) ← split_family_loop (S (spine t)) ctx t [];
  Ok (match t with
      | Data _ _ ixs _ => if length ixs =? length values then Some (t, values) else None
      | _ => None
      end).

Section open_recursion.
Context (infer : Context → Term → result Term).
Context (check_against : Context → Term → Term → result unit).

Definition check_domain (ctx : Context) (term expected : Term) : result unit :=
  match check_against ctx term expected with
  | Err (TypeMismatch expected actual) => Err (DomainMismatch expected actual)
  | other => other
  end.

Definition check_indices (ctx : Context) (telescope arguments : list Term)
    (ambient_shift : nat) : result unit :=
  if negb (length telescope =? length arguments)
  then Err (InvalidInductive "family index arity mismatch")
  else
    each_checked (λ '(index, (t, value)),
      check_against ctx value
        (instantiate_fields (shift_up t ambient_shift index) (take index arguments)))
      (enumerate (zip telescope arguments)).

(** The type of [t] must be a universe; its level. *)
Definition infer_type (ctx : Context) (t : Term) : result Level :=
  kind ← infer ctx t; expect_type ctx kind t.

Definition infer_fun_ext (ctx : Context) (function_type lhs rhs pointwise : Term)
    : result Term :=
  if decide (foundation ctx = FunctionExtensionality) then
    _ ← infer_type ctx function_type;
    function ← ctx_whnf ctx function_type;
    match function with
    | Pi domain codomain =>
        _ ← check_against ctx lhs function_type;
        _ ← check_against ctx rhs function_type;
        let premise :=
          Pi domain (Id codomain (App (shift_up lhs 1 0) (Var 0))
                                 (App (shift_up rhs 1 0) (Var 0))) in
        _ ← check_against ctx pointwise premise;
        Ok (Id function_type lhs rhs)
    | _ => Err (NotAFunction function_type)
    end
  else Err (FoundationRequired FunctionExtensionality).

Definition infer_let (ctx : Context) (value body : Term) : result Term :=
  t ← infer ctx value;
  result ← infer (define ctx t value) body;
  Ok (subst result 0 value).

Fixpoint infer_index_types (ctx : Context) (ixs : list Term) : result unit :=
  match ixs with
  | [] => Ok tt
  | t :: ixs => _ ← infer_type ctx t; infer_index_types (extend ctx t) ixs
  end.

(** The loop over the fields of one constructor; the resulting context. *)
Fixpoint check_fields (data : Term) (level : Level) (ixs : list Term)
    (local : Context) (index : nat) (fs : list (DataField Term)) : result Context :=
  match fs with
  | [] => Ok local
  | field :: fs =>
      let domain := field_domain data field index in
      _ ← match recursive_indices field with
          | Some values => check_indices local ixs values index
          | None =>
              field_level ← infer_type local domain;
              if Level.level_eq (Level.max_with field_level level) level then Ok tt
              else Err (InvalidInductive "field exceeds declaration universe")
          end;
      check_fields data level ixs (extend local domain) (S index) fs
  end.

Definition check_constructor (ctx : Context) (data : Term) (level : Level)
    (ixs : list Term) (constructor : TermConstructor) : result unit :=
  local ← check_fields data level ixs ctx 0 (fields constructor);
  check_indices local ixs (indices constructor) (length (fields constructor)).

Definition infer_data (ctx : Context) (name : string) (level : Level)
    (ixs : list Term) (constructors : list TermConstructor) : result Term :=
  _ ← infer_index_types ctx ixs;
  _ ← each_checked (check_constructor ctx (Data name level ixs constructors) level ixs)
        constructors;
  Ok (foldr Pi (Universe (Level.normalize level)) ixs).

Definition infer_construct (ctx : Context) (data : Term) (constructor : nat)
    (args : list Term) : result Term :=
  _ ← infer ctx data;
  declaration ← ctx_whnf ctx data;
  match declaration with
  | Data _ _ _ constructors =>
      constructor ← ok_or (constructors !! constructor)
        (InvalidInductive "unknown constructor");
      if negb (length (fields constructor) =? length args)
      then Err (InvalidInductive "constructor field arity mismatch")
      else
        _ ← each_checked (λ '(index, (field, argument)),
              check_against ctx argument
                (instantiate_fields (field_domain declaration field index)
                  (take index args)))
              (enumerate (zip (fields constructor) args));
        Ok (apply_terms declaration
              (List.map (λ t, instantiate_fields t args) (indices constructor)))
  | _ => Err (InvalidInductive "constructor owner is not a data declaration")
  end.

(** The motive takes the family's indices, one binder each. *)
Fixpoint motive_indices (ctx : Context) (index : nat) (motive_kind : Term)
    (ixs : list Term) : result Term :=
  match ixs with
  | [] => Ok motive_kind
  | t :: ixs =>
      kind ← whnf ceiling (under (conversion ctx) index) motive_kind;
      match kind with
      | Pi domain result =>
          same ← under_def_eq ctx index domain t;
          if same : bool then motive_indices ctx (S index) result ixs
          else Err (InvalidInductive "induction motive index domain mismatch")
      | _ => Err (InvalidInductive "induction motive omits a family index")
      end
  end.

(** The last binder of the motive is the family at those indices. *)
Definition motive_family (ctx : Context) (declaration : Term) (ixs : list Term)
    (motive_kind : Term) : result unit :=
  let n := length ixs in
  kind ← whnf ceiling (under (conversion ctx) n) motive_kind;
  match kind with
  | Pi domain result =>
      let references := List.map Var (rev (seq 0 n)) in
      let expected_domain := apply_terms (shift_up declaration n 0) references in
      same ← under_def_eq ctx n domain expected_domain;
      if negb same then
        Err (InvalidInductive "induction motive domain or universe mismatch")
      else
        level ← expect_universe ceiling (under (conversion ctx) (n + 1)) result;
        match level with
        | Some _ => Ok tt
        | None => Err (InvalidInductive "induction motive domain or universe mismatch")
        end
  | _ => Err (InvalidInductive "induction motive is not a family")
  end.

Definition infer_induct (ctx : Context) (scrutinee motive : Term) (cases : list Term)
    : result Term :=
  actual ← infer ctx scrutinee;
  actual ← ctx_whnf ctx actual;
  family ← split_family ctx actual;
  '(declaration, values) ← ok_or family
    (InvalidInductive "induction requires a fully applied data family");
  match declaration with
  | Data _ _ ixs constructors =>
      motive_kind ← infer ctx motive;
      motive_kind ← motive_indices ctx 0 motive_kind ixs;
      _ ← motive_family ctx declaration ixs motive_kind;
      if negb (length cases =? length constructors)
      then Err (InvalidInductive "induction case count mismatch")
      else
        _ ← each_checked (λ '(index, (constructor, case)),
              check_against ctx case
                (induction_case_type declaration motive index constructor))
              (enumerate (zip constructors cases));
        Ok (App (apply_terms motive values) scrutinee)
  | _ => Err (InvalidInductive "unreachable")
  end.

(** T-Pi-Form and T-Sigma-Form. *)
Definition infer_binder (ctx : Context) (a b : Term) : result Term :=
  n ← infer_type ctx a;
  m ← infer_type (extend ctx a) b;
  Ok (Universe (Level.max_with n m)).

Definition infer_lam (ctx : Context) (domain body : Term) : result Term :=
  _ ← infer_type ctx domain;
  body_ty ← infer (extend ctx domain) body;
  Ok (Pi domain body_ty).

Definition infer_app (ctx : Context) (f x : Term) : result Term :=
  f_ty ← infer ctx f;
  f_ty ← ctx_whnf ctx f_ty;
  match f_ty with
  | Pi dom codom => _ ← check_domain ctx x dom; Ok (subst codom 0 x)
  | other => Err (NotAFunction other)
  end.

Definition infer_pair (ctx : Context) (a b : Term) : result Term :=
  a_ty ← infer ctx a;
  b_ty ← infer ctx b;
  Ok (Sigma a_ty (shift_up b_ty 1 0)).

Definition infer_fst (ctx : Context) (p : Term) : result Term :=
  p_ty ← infer ctx p;
  p_ty ← ctx_whnf ctx p_ty;
  match p_ty with
  | Sigma a _ => Ok a
  | other => Err (NotASigma other)
  end.

Definition infer_snd (ctx : Context) (p : Term) : result Term :=
  p_ty ← infer ctx p;
  p_ty ← ctx_whnf ctx p_ty;
  match p_ty with
  | Sigma _ b => Ok (subst b 0 (Fst p))
  | other => Err (NotASigma other)
  end.

Definition infer_id (ctx : Context) (t lhs rhs : Term) : result Term :=
  n ← infer_type ctx t;
  _ ← check_domain ctx lhs t;
  _ ← check_domain ctx rhs t;
  Ok (Universe n).

Definition infer_refl (ctx : Context) (value : Term) : result Term :=
  value_ty ← infer ctx value;
  Ok (Id value_ty value value).

(** The codomain of an eliminator's motive below its binders: one for [J],
    and for [IdElim] a second one of the path type at the fresh endpoint. *)
Definition path_motive (ctx : Context) (motive a_ty a_lhs motive_codom : Term)
    (dependent : bool) : result (Term * nat) :=
  if dependent then
    codomain ← whnf ceiling (under (conversion ctx) 1) motive_codom;
    match codomain with
    | Pi path_domain result =>
        let expected_path := Id (shift_up a_ty 1 0) (shift_up a_lhs 1 0) (Var 0) in
        same ← under_def_eq ctx 1 path_domain expected_path;
        if same : bool then Ok (result, 2)
        else Err (DomainMismatch expected_path path_domain)
    | _ => Err (NotAValidJMotive motive)
    end
  else Ok (motive_codom, 1).

Definition infer_identity_elim (ctx : Context) (dependent : bool)
    (motive base scrutinee : Term) : result Term :=
  s_ty ← infer ctx scrutinee;
  s_ty ← ctx_whnf ctx s_ty;
  match s_ty with
  | Id a_ty a_lhs a_rhs =>
      motive_ty ← infer ctx motive;
      motive_ty ← ctx_whnf ctx motive_ty;
      match motive_ty with
      | Pi motive_dom motive_codom =>
          same ← ctx_def_eq ctx motive_dom a_ty;
          if negb same then Err (DomainMismatch a_ty motive_dom) else
          '(result_codom, binders) ←
            path_motive ctx motive a_ty a_lhs motive_codom dependent;
          level ← expect_universe ceiling (under (conversion ctx) binders) result_codom;
          match level with
          | None => Err (NotAValidJMotive motive)
          | Some _ =>
              let at_base := App motive a_lhs in
              let expected_base_ty :=
                if dependent then App at_base (Refl a_lhs) else at_base in
              _ ← check_domain ctx base expected_base_ty;
              let result := App motive a_rhs in
              Ok (if dependent then App result scrutinee else result)
          end
      | _ => Err (NotAValidJMotive motive)
      end
  | other => Err (NotAnIdentity other)
  end.

Definition infer_inner (ctx : Context) (term : Term) : result Term :=
  match term with
  | FunExt function_type lhs rhs pointwise =>
      infer_fun_ext ctx function_type lhs rhs pointwise
  | Let value body => infer_let ctx value body
  | Data name level ixs constructors => infer_data ctx name level ixs constructors
  | Construct data constructor args => infer_construct ctx data constructor args
  | Induct scrutinee motive cases => infer_induct ctx scrutinee motive cases
  | Var i => ok_or (lookup ctx i) (UnboundVariable i)
  | Universe level => Ok (Universe (Level.successor (Level.normalize level)))
  | Pi a b => infer_binder ctx a b
  | Lam domain body => infer_lam ctx domain body
  | App f x => infer_app ctx f x
  | Sigma a b => infer_binder ctx a b
  | Pair a b => infer_pair ctx a b
  | Fst p => infer_fst ctx p
  | Snd p => infer_snd ctx p
  | Id t lhs rhs => infer_id ctx t lhs rhs
  | Refl value => infer_refl ctx value
  | J motive base scrutinee => infer_identity_elim ctx false motive base scrutinee
  | IdElim motive base scrutinee => infer_identity_elim ctx true motive base scrutinee
  end.

(** The last lines of [check_against]: synthesize and compare. *)
Definition check_inferred (ctx : Context) (term expected : Term) : result unit :=
  inferred ← infer ctx term;
  same ← ctx_def_eq ctx inferred expected;
  if same : bool then Ok tt else Err (TypeMismatch expected inferred).

(** The match of [check_against] on the term and the reduced type. *)
Definition check_shape (ctx : Context) (term expected : Term) : result unit :=
  expected_whnf ← ctx_whnf ctx expected;
  match term, expected_whnf with
  | Lam domain body, Pi expected_domain codomain =>
      _ ← infer_type ctx domain;
      same ← ctx_def_eq ctx domain expected_domain;
      if negb same then Err (TypeMismatch expected_domain domain)
      else check_against (extend ctx domain) body codomain
  | Pair first second, Sigma domain family =>
      _ ← check_against ctx first domain;
      check_against ctx second (subst family 0 first)
  | Refl value, Id t lhs rhs =>
      _ ← check_domain ctx value t;
      same ← ctx_def_eq ctx value lhs &&? ctx_def_eq ctx value rhs;
      if same : bool then Ok tt
      else Err (TypeMismatch expected (Id t value value))
  | _, _ => check_inferred ctx term expected
  end.

Definition check_against_step (ctx : Context) (term expected : Term) : result unit :=
  match term with
  | Let value body =>
      t ← infer ctx value;
      check_against (define ctx t value) body (shift_up expected 1 0)
  | Var index =>
      actual ← ok_or (lookup ctx index) (UnboundVariable index);
      same ← ctx_def_eq ctx actual expected;
      if same : bool then Ok tt else
      match definition ctx index with
      | Some source => check_against ctx source expected
      | None => check_shape ctx term expected
      end
  | _ => check_shape ctx term expected
  end.
End open_recursion.

(** [infer] and [check_against], each recursive call one unit of gas. *)
Fixpoint infer (gas : nat) (ctx : Context) (term : Term) {struct gas} : result Term :=
  match gas with
  | 0 => Gas CheckerGas
  | S gas =>
      match term with
      | Var index => ok_or (lookup ctx index) (UnboundVariable index)
      | _ => infer_inner (infer gas) (check_against gas) ctx term
      end
  end
with check_against (gas : nat) (ctx : Context) (term expected : Term) {struct gas}
    : result unit :=
  match gas with
  | 0 => Gas CheckerGas
  | S gas => check_against_step (infer gas) (check_against gas) ctx term expected
  end.

Definition check (gas : nat) (ctx : Context) (term expected : Term) : result unit :=
  _ ← infer_type (infer gas) ctx expected;
  check_against gas ctx term expected.
End checker.

(** ** Certificates *)
Record Certificate : Type := Cert {
  term : Term;
  claimed_type : Term;
  metadata : list (string * string)
}.

Definition verify_with_foundation (ceiling : N) (cgas gas : nat) (cert : Certificate)
    (f : Foundation) : result unit :=
  let ctx := with_foundation f in
  claimed_kind ← infer ceiling cgas gas ctx (claimed_type cert);
  level ← expect_universe ceiling (conversion ctx) claimed_kind;
  match level with
  | None => Err (ClaimedTypeNotAType (claimed_type cert) claimed_kind)
  | Some _ => check_against ceiling cgas gas ctx (term cert) (claimed_type cert)
  end.

Definition verify (ceiling : N) (cgas gas : nat) (cert : Certificate) : result unit :=
  verify_with_foundation ceiling cgas gas cert Intensional.
