(* ===== verification/Typing.v ===== *)
(** * The declarative type system and soundness of the checker

    [has_type Γ t T] states the typing rules the arms of [infer_inner] and
    [check_against] implement, with the conversion rule of [ConvSpec] and
    neither fuel nor evaluation order.  Types are presupposed: a rule asks for
    the formation of a type where the checker asks for it, and [verify] checks
    the claimed type first.  Every success of the algorithm is a derivation. *)
From S2P Require Import Prelude Levels LevelFacts Syntax Subst Context Conversion ConvSpec ConvFacts Checker.

(** The context of the indices of a family, and of the fields of a constructor
    of the declaration [data] from field [index] on. *)
Definition index_context (Γ : Context) (ixs : list Term) : Context := foldl extend Γ ixs.

Fixpoint field_context (Γ : Context) (data : Term) (index : nat)
    (fs : list (DataField Term)) : Context :=
  match fs with
  | [] => Γ
  | f :: fs => field_context (extend Γ (field_domain data f index)) data (S index) fs
  end.

(** The type of argument [j] of a telescope, its earlier arguments given. *)
Definition argument_type (ambient j : nat) (T : Term) (values : list Term) : Term :=
  instantiate_fields (shift_up T ambient j) (take j values).

(** The type of a motive over a family with these indices. *)
Definition motive_type (decl : Term) (ixs : list Term) (m : Level) : Term :=
  let n := length ixs in
  foldr Pi (Pi (apply_terms (shift_up decl n 0) (List.map Var (rev (seq 0 n)))) (Universe m))
    ixs.

Definition level_le (l m : Level) : Prop := ∀ ρ, (eval ρ l <= eval ρ m)%N.

Inductive has_type : Context → Term → Term → Prop :=
| T_Conv Γ t A B : has_type Γ t A → conv (conversion Γ) A B → has_type Γ t B
| T_Var Γ i T : lookup Γ i = Some T → has_type Γ (Var i) T
| T_Delta Γ i v T : definition Γ i = Some v → has_type Γ v T → has_type Γ (Var i) T
| T_Univ Γ l : has_type Γ (Universe l) (Universe (Level.successor l))
| T_Pi Γ a b l m :
    has_type Γ a (Universe l) → has_type (extend Γ a) b (Universe m) →
    has_type Γ (Pi a b) (Universe (Level.Max l m))
| T_Sigma Γ a b l m :
    has_type Γ a (Universe l) → has_type (extend Γ a) b (Universe m) →
    has_type Γ (Sigma a b) (Universe (Level.Max l m))
| T_Lam Γ a b B l :
    has_type Γ a (Universe l) → has_type (extend Γ a) b B → has_type Γ (Lam a b) (Pi a B)
| T_App Γ f x A B :
    has_type Γ f (Pi A B) → has_type Γ x A → has_type Γ (App f x) (subst B 0 x)
| T_Pair Γ a b A F :
    has_type Γ a A → has_type Γ b (subst F 0 a) → has_type Γ (Pair a b) (Sigma A F)
| T_Fst Γ p A F : has_type Γ p (Sigma A F) → has_type Γ (Fst p) A
| T_Snd Γ p A F : has_type Γ p (Sigma A F) → has_type Γ (Snd p) (subst F 0 (Fst p))
| T_Id Γ A x y l :
    has_type Γ A (Universe l) → has_type Γ x A → has_type Γ y A →
    has_type Γ (Id A x y) (Universe l)
| T_Refl Γ x A : has_type Γ x A → has_type Γ (Refl x) (Id A x x)
| T_J Γ motive base s A x y l :
    has_type Γ s (Id A x y) → has_type Γ motive (Pi A (Universe l)) →
    has_type Γ base (App motive x) → has_type Γ (J motive base s) (App motive y)
| T_IdElim Γ motive base s A x y l :
    has_type Γ s (Id A x y) →
    has_type Γ motive
      (Pi A (Pi (Id (shift_up A 1 0) (shift_up x 1 0) (Var 0)) (Universe l))) →
    has_type Γ base (App (App motive x) (Refl x)) →
    has_type Γ (IdElim motive base s) (App (App motive y) s)
| T_FunExt Γ F f g p A B l :
    foundation Γ = FunctionExtensionality →
    has_type Γ F (Universe l) → conv (conversion Γ) F (Pi A B) →
    has_type Γ f F → has_type Γ g F →
    has_type Γ p (Pi A (Id B (App (shift_up f 1 0) (Var 0)) (App (shift_up g 1 0) (Var 0)))) →
    has_type Γ (FunExt F f g p) (Id F f g)
| T_Let Γ v b A B :
    has_type Γ v A → has_type (define Γ A v) b B → has_type Γ (Let v b) (subst B 0 v)
| T_Data Γ name l ixs cs il fl :
    let D := Data name l ixs cs in
    (∀ i t, ixs !! i = Some t →
      has_type (index_context Γ (take i ixs)) t (Universe (il i))) →
    (* a plain field is a type within the universe of the declaration *)
    (∀ k c i f, cs !! k = Some c → fields c !! i = Some f → recursive_indices f = None →
      level_le (fl k i) l) →
    (∀ k c i f, cs !! k = Some c → fields c !! i = Some f → recursive_indices f = None →
      has_type (field_context Γ D 0 (take i (fields c))) (field_domain D f i)
        (Universe (fl k i))) →
    (* the indices of a recursive field, and those of the constructor *)
    (∀ k c i f values, cs !! k = Some c → fields c !! i = Some f →
      recursive_indices f = Some values → length ixs = length values) →
    (∀ k c i f values j T v, cs !! k = Some c → fields c !! i = Some f →
      recursive_indices f = Some values → ixs !! j = Some T → values !! j = Some v →
      has_type (field_context Γ D 0 (take i (fields c))) v (argument_type i j T values)) →
    (∀ k c, cs !! k = Some c → length ixs = length (indices c)) →
    (∀ k c j T v, cs !! k = Some c → ixs !! j = Some T → indices c !! j = Some v →
      has_type (field_context Γ D 0 (fields c)) v
        (argument_type (length (fields c)) j T (indices c))) →
    has_type Γ D (foldr Pi (Universe l) ixs)
| T_Construct Γ d K name l ixs cs k c args :
    let D := Data name l ixs cs in
    has_type Γ d K → conv (conversion Γ) d D → cs !! k = Some c →
    length (fields c) = length args →
    (∀ i f a, fields c !! i = Some f → args !! i = Some a →
      has_type Γ a (instantiate_fields (field_domain D f i) (take i args))) →
    has_type Γ (Construct d k args)
      (apply_terms D (List.map (λ t, instantiate_fields t args) (indices c)))
| T_Induct Γ s motive cases name l ixs cs values m :
    let D := Data name l ixs cs in
    has_type Γ s (apply_terms D values) → length ixs = length values →
    has_type Γ motive (motive_type D ixs m) → length cases = length cs →
    (∀ i c case, cs !! i = Some c → cases !! i = Some case →
      has_type Γ case (induction_case_type D motive i c)) →
    has_type Γ (Induct s motive cases) (App (apply_terms motive values) s).

#[export] Instance has_type_conv Γ t : Proper (conv (conversion Γ) ==> iff) (has_type Γ t).
Proof.
  intros A B H; split; intros Ht; (eapply T_Conv; [done|]); [done|by symmetry].
Qed.

(** ** Lists of checks *)
Lemma each_enumerated {A} (check : nat * A → result unit) n (l : list A) u :
  each_checked check (mapi_from (λ i x, (i, x)) n l) = Ok u →
  ∀ i x, l !! i = Some x → check (n + i, x) = Ok tt.
Proof.
  intros H%each_checked_Ok i x Hx. rewrite Forall_lookup in H.
  apply (H i). by rewrite lookup_mapi_from, Hx.
Qed.

Lemma each_zip_enumerated {A B} (check : nat * (A * B) → result unit) (l : list A) (k : list B) u :
  each_checked check (enumerate (zip l k)) = Ok u →
  ∀ i x y, l !! i = Some x → k !! i = Some y → check (i, (x, y)) = Ok tt.
Proof.
  intros H i x y Hx Hy. apply (each_enumerated check 0 _ _ H i (x, y)).
  rewrite lookup_zip_with, Hx, Hy. done.
Qed.

(** ** Types up to conversion *)
Lemma max_with_equiv a b : level_equiv (Level.max_with a b) (Level.Max a b).
Proof. intros ρ. by rewrite max_with_eval. Qed.

Lemma expect_type_sound F Γ kind t u l :
  has_type Γ t kind → expect_type F Γ kind u = Ok l → has_type Γ t (Universe l).
Proof.
  intros Ht (level & Hl & H)%bind_Ok. apply ok_or_Ok in H as ->.
  apply expect_universe_conv in Hl. by rewrite <- Hl.
Qed.

Lemma level_le_of_level_eq l m :
  Level.level_eq (Level.max_with l m) m = true → level_le l m.
Proof. intros H%level_eq_equiv ρ. specialize (H ρ). rewrite max_with_eval in H. lia. Qed.

Lemma split_family_loop_conv F gas Γ t values u values' :
  split_family_loop F gas Γ t values = Ok (u, values') →
  conv (conversion Γ) (apply_terms t values) (apply_terms u values').
Proof.
  revert t values. induction gas as [|gas IH]; intros t values; [done|].
  destruct t; cbn [split_family_loop]; try (intros [= <- <-]; reflexivity).
  intros (h & Hh & H)%bind_Ok. apply IH in H. rewrite <- H.
  apply (conv_apply_head _ _ _ (_ :: _)). by eapply whnf_conv.
Qed.

Lemma split_family_sound F Γ t D values :
  split_family F Γ t = Ok (Some (D, values)) →
  ∃ name l ixs cs, D = Data name l ixs cs ∧ length ixs = length values ∧
    conv (conversion Γ) t (apply_terms D values).
Proof.
  intros ([u vs] & Hs%split_family_loop_conv & H)%bind_Ok.
  destruct u as [name l ixs ctors| | | | | | | | | | | | | | | | |]; try done.
  destruct (Nat.eqb_spec (length ixs) (length vs)); [|done].
  injection H as <- <-. by exists name, l, ixs, ctors.
Qed.

Lemma and_bool_Ok (b : bool) {E A} (m n : outcome E A) a :
  (if b then m else n) = Ok a → (b = true ∧ m = Ok a) ∨ (b = false ∧ n = Ok a).
Proof. destruct b; auto. Qed.

(** ** Soundness of each arm *)
Section sound.
Context (F : N) (cgas : nat).
Context (I : Context → Term → result Term) (C : Context → Term → Term → result unit).
Context (I_sound : ∀ Γ t T, I Γ t = Ok T → has_type Γ t T).
Context (C_sound : ∀ Γ t T, C Γ t T = Ok tt → has_type Γ t T).

Lemma infer_type_sound Γ t l : infer_type F I Γ t = Ok l → has_type Γ t (Universe l).
Proof. intros (k & Hk & H)%bind_Ok. eauto using expect_type_sound. Qed.

Lemma check_domain_sound Γ t T : check_domain C Γ t T = Ok tt → has_type Γ t T.
Proof.
  unfold check_domain. intros H. apply C_sound.
  destruct (C Γ t T) as [|[]|]; by simplify_eq.
Qed.

Lemma check_indices_sound Γ ixs values ambient :
  check_indices C Γ ixs values ambient = Ok tt →
  length ixs = length values ∧
  ∀ j T v, ixs !! j = Some T → values !! j = Some v →
    has_type Γ v (argument_type ambient j T values).
Proof.
  unfold check_indices. destruct (Nat.eqb_spec (length ixs) (length values)) as [E|]; [|done].
  intros H. split; [done|]. intros j T v HT Hv.
  by apply C_sound, (each_zip_enumerated _ _ _ _ H).
Qed.

Lemma check_against_sound_if Γ a b t T : 
  def_eq F cgas (conversion Γ) a b = Ok true → has_type Γ t a → b = T → has_type Γ t T.
Proof. intros H%def_eq_conv Ha <-. by rewrite <- H. Qed.

Lemma infer_fun_ext_sound Γ G f g p T :
  infer_fun_ext F I C Γ G f g p = Ok T → has_type Γ (FunExt G f g p) T.
Proof.
  unfold infer_fun_ext. destruct (decide _) as [Hf|]; [|done].
  intros (l & Hl%infer_type_sound & (u & Hu%whnf_conv & H)%bind_Ok)%bind_Ok.
  destruct u; try done.
  apply bind_Ok in H as ([] & ?%C_sound & ([] & ?%C_sound & ([] & ?%C_sound & [= <-])%bind_Ok)%bind_Ok).
  by eapply T_FunExt.
Qed.

Lemma infer_let_sound Γ v b T : infer_let I Γ v b = Ok T → has_type Γ (Let v b) T.
Proof.
  intros (A & HA & (B & HB & [= <-])%bind_Ok)%bind_Ok. eapply T_Let; eauto.
Qed.

Lemma infer_binder_sound Γ a b T :
  infer_binder F I Γ a b = Ok T → has_type Γ (Pi a b) T ∧ has_type Γ (Sigma a b) T.
Proof.
  intros (l & Hl%infer_type_sound & (m & Hm%infer_type_sound & [= <-])%bind_Ok)%bind_Ok.
  rewrite (conv_universe _ _ _ (max_with_equiv l m)). split; [by apply T_Pi|by apply T_Sigma].
Qed.

Lemma infer_lam_sound Γ a b T : infer_lam F I Γ a b = Ok T → has_type Γ (Lam a b) T.
Proof.
  intros (l & Hl%infer_type_sound & (B & HB & [= <-])%bind_Ok)%bind_Ok.
  eapply T_Lam; eauto.
Qed.

Lemma infer_app_sound Γ f x T : infer_app F I C Γ f x = Ok T → has_type Γ (App f x) T.
Proof.
  intros (A & HA%I_sound & (u & Hu%whnf_conv & H)%bind_Ok)%bind_Ok.
  rewrite Hu in HA. destruct u; try done.
  apply bind_Ok in H as ([] & Hx%check_domain_sound & [= <-]). by eapply T_App.
Qed.

Lemma infer_pair_sound Γ a b T : infer_pair I Γ a b = Ok T → has_type Γ (Pair a b) T.
Proof.
  intros (A & HA & (B & HB & [= <-])%bind_Ok)%bind_Ok.
  apply T_Pair; [by apply I_sound|]. rewrite subst_shift_id. by apply I_sound.
Qed.

Lemma infer_fst_sound Γ p T : infer_fst F I Γ p = Ok T → has_type Γ (Fst p) T.
Proof.
  intros (A & HA%I_sound & (u & Hu%whnf_conv & H)%bind_Ok)%bind_Ok.
  rewrite Hu in HA. destruct u; try done. injection H as <-. by eapply T_Fst.
Qed.

Lemma infer_snd_sound Γ p T : infer_snd F I Γ p = Ok T → has_type Γ (Snd p) T.
Proof.
  intros (A & HA%I_sound & (u & Hu%whnf_conv & H)%bind_Ok)%bind_Ok.
  rewrite Hu in HA. destruct u; try done. injection H as <-. by eapply T_Snd.
Qed.

Lemma infer_id_sound Γ A x y T : infer_id F I C Γ A x y = Ok T → has_type Γ (Id A x y) T.
Proof.
  intros (l & Hl%infer_type_sound & ([] & Hx%check_domain_sound
    & ([] & Hy%check_domain_sound & [= <-])%bind_Ok)%bind_Ok)%bind_Ok.
  by apply T_Id.
Qed.

Lemma infer_refl_sound Γ x T : infer_refl I Γ x = Ok T → has_type Γ (Refl x) T.
Proof. intros (A & HA & [= <-])%bind_Ok. by apply T_Refl, I_sound. Qed.

Lemma infer_identity_elim_sound Γ dep motive base s T :
  infer_identity_elim F cgas I C Γ dep motive base s = Ok T →
  has_type Γ ((if dep then IdElim else J) motive base s) T.
Proof.
  intros (A & HA%I_sound & (u & Hu%whnf_conv & H)%bind_Ok)%bind_Ok. rewrite Hu in HA.
  destruct u as [| | | | | | | | | | | | |A' x y| | | |]; try done.
  apply bind_Ok in H as (M & HM%I_sound & (u & Hu'%whnf_conv & H)%bind_Ok).
  rewrite Hu' in HM. destruct u as [| | | | | |dom codom| | | | | | | | | | |]; try done.
  apply bind_Ok in H as (same & Hs & H). destruct same; [|done]. cbn [negb] in H.
  apply def_eq_conv in Hs.
  apply bind_Ok in H as ([res n] & Hp & (lv & Hlv & H)%bind_Ok).
  destruct lv as [l|]; [|done]. apply expect_universe_conv in Hlv.
  apply bind_Ok in H as ([] & Hb%check_domain_sound & [= <-]).
  destruct dep.
  - unfold path_motive in Hp. apply bind_Ok in Hp as (q & Hq%whnf_conv & Hp).
    destruct q as [| | | | | |path res'| | | | | | | | | | |]; try done.
    apply bind_Ok in Hp as (same & Hpath & Hp). destruct same; [|done].
    apply def_eq_conv in Hpath. injection Hp as <- <-.
    eapply T_IdElim; [done| |done].
    eapply T_Conv; [exact HM|]. apply conv_pi; [done|]. rewrite Hq.
    apply conv_pi; [done|]. by rewrite under_under.
  - injection Hp as <- <-. eapply T_J; [done| |done].
    eapply T_Conv; [exact HM|]. by apply conv_pi.
Qed.

(** Inductive declarations. *)
Lemma infer_index_types_sound Γ ixs :
  infer_index_types F I Γ ixs = Ok tt →
  ∃ il, ∀ i t, ixs !! i = Some t →
    has_type (index_context Γ (take i ixs)) t (Universe (il i)).
Proof.
  revert Γ. induction ixs as [|t ixs IH]; intros Γ; cbn [infer_index_types].
  { intros _. by exists (λ _, Level.Concrete (u32_of 0)). }
  intros (l & Hl%infer_type_sound & (il & H)%IH)%bind_Ok.
  exists (λ i, match i with 0 => l | S i => il i end).
  intros [|i] t' Ht; [by injection Ht as <-|]. by apply H.
Qed.

Definition field_typed (D : Term) (l : Level) (ixs : list Term) (Γ : Context)
    (index : nat) (fs : list (DataField Term)) (fl : nat → Level) : Prop :=
  ∀ i f, fs !! i = Some f →
    let Γi := field_context Γ D index (take i fs) in
    match recursive_indices f with
    | None => level_le (fl i) l ∧
        has_type Γi (field_domain D f (index + i)) (Universe (fl i))
    | Some values => length ixs = length values ∧
        ∀ j T v, ixs !! j = Some T → values !! j = Some v →
          has_type Γi v (argument_type (index + i) j T values)
    end.

Lemma field_typed_at D l ixs Γ fs fl i f :
  fs !! i = Some f → field_typed D l ixs Γ 0 fs fl →
  match recursive_indices f with
  | None => level_le (fl i) l ∧
      has_type (field_context Γ D 0 (take i fs)) (field_domain D f i) (Universe (fl i))
  | Some values => length ixs = length values ∧
      ∀ j T v, ixs !! j = Some T → values !! j = Some v →
        has_type (field_context Γ D 0 (take i fs)) v (argument_type i j T values)
  end.
Proof. intros Hf H. exact (H i f Hf). Qed.

Lemma check_fields_sound D l ixs Γ index fs Γ' :
  check_fields F I C D l ixs Γ index fs = Ok Γ' →
  Γ' = field_context Γ D index fs ∧ ∃ fl, field_typed D l ixs Γ index fs fl.
Proof.
  revert Γ index. induction fs as [|f fs IH]; intros Γ index; cbn [check_fields].
  { intros [= <-]. split; [done|]. by exists (λ _, l). }
  intros ([] & Hf & H)%bind_Ok. apply IH in H as [-> [fl H]]. split; [done|].
  assert (∃ lv, field_typed D l ixs Γ index [f] (λ _, lv)) as [lv Hlv].
  { destruct (recursive_indices f) as [values|] eqn:Er.
    - exists l. intros [|i] g Hg; [|done]. injection Hg as <-. rewrite Er, Nat.add_0_r.
      by apply check_indices_sound.
    - apply bind_Ok in Hf as (lv & Hd%infer_type_sound & Hle). exists lv.
      intros [|i] g Hg; [|done]. injection Hg as <-. rewrite Er, Nat.add_0_r.
      destruct (Level.level_eq _ _) eqn:E; [|done]. by split; [apply level_le_of_level_eq|]. }
  exists (λ i, match i with 0 => lv | S i => fl i end). intros [|i] g Hg.
  - by apply (Hlv 0).
  - rewrite Nat.add_succ_r. by apply H.
Qed.

Lemma check_constructor_sound Γ D l ixs c :
  check_constructor F I C Γ D l ixs c = Ok tt →
  (∃ fl, field_typed D l ixs Γ 0 (fields c) fl) ∧
  length ixs = length (indices c) ∧
  ∀ j T v, ixs !! j = Some T → indices c !! j = Some v →
    has_type (field_context Γ D 0 (fields c)) v
      (argument_type (length (fields c)) j T (indices c)).
Proof.
  intros (Γ' & [-> H]%check_fields_sound & Hi%check_indices_sound)%bind_Ok. done.
Qed.

(** A level function for each constructor gives one for the declaration. *)
Lemma constructor_levels (P : TermConstructor → (nat → Level) → Prop) cs :
  Forall (λ c, ∃ fl, P c fl) cs →
  ∃ fl : nat → nat → Level, ∀ k c, cs !! k = Some c → P c (fl k).
Proof.
  induction 1 as [|c cs [lv Hlv] _ [fl IH]].
  { by exists (λ _ _, Level.Concrete (u32_of 0)). }
  exists (λ k, match k with 0 => lv | S k => fl k end).
  intros [|k] c' Hc; [by injection Hc as <-|by apply IH].
Qed.

Lemma conv_foldr_Pi c ixs a b :
  conv (under c (length ixs)) a b → conv c (foldr Pi a ixs) (foldr Pi b ixs).
Proof.
  revert c. induction ixs as [|t ixs IH]; intros c H; simpl in *.
  - by rewrite under_0 in H.
  - apply conv_pi; [reflexivity|]. apply IH. by rewrite under_under.
Qed.

(** The rule for declarations, its premises grouped by constructor. *)
Lemma data_typed Γ name l ixs cs il :
  let D := Data name l ixs cs in
  (∀ i t, ixs !! i = Some t →
    has_type (index_context Γ (take i ixs)) t (Universe (il i))) →
  Forall (λ c,
    (∃ fl, field_typed D l ixs Γ 0 (fields c) fl) ∧
    length ixs = length (indices c) ∧
    ∀ j T v, ixs !! j = Some T → indices c !! j = Some v →
      has_type (field_context Γ D 0 (fields c)) v
        (argument_type (length (fields c)) j T (indices c))) cs →
  has_type Γ D (foldr Pi (Universe l) ixs).
Proof.
  intros D Hil Hcs.
  destruct (constructor_levels (λ c fl, field_typed D l ixs Γ 0 (fields c) fl) cs) as [fl Hfl].
  { eapply Forall_impl; [exact Hcs|]. naive_solver. }
  rewrite Forall_lookup in Hcs.
  apply T_Data with (il := il) (fl := fl); [done|..].
  - intros k c i f Hk Hi Er. apply Hfl, field_typed_at with (1 := Hi) in Hk.
    rewrite Er in Hk. apply Hk.
  - intros k c i f Hk Hi Er. apply Hfl, field_typed_at with (1 := Hi) in Hk.
    rewrite Er in Hk. apply Hk.
  - intros k c i f values Hk Hi Er. apply Hfl, field_typed_at with (1 := Hi) in Hk.
    rewrite Er in Hk. apply Hk.
  - intros k c i f values j T v Hk Hi Er. apply Hfl, field_typed_at with (1 := Hi) in Hk.
    rewrite Er in Hk. by apply Hk.
  - intros k c Hk. by apply (Hcs k c Hk).
  - intros k c j T v Hk. by apply (Hcs k c Hk).
Qed.

Lemma infer_data_sound Γ name l ixs cs T :
  infer_data F I C Γ name l ixs cs = Ok T → has_type Γ (Data name l ixs cs) T.
Proof.
  intros ([] & [il Hil]%infer_index_types_sound
    & ([] & Hcs%each_checked_Ok & [= <-])%bind_Ok)%bind_Ok.
  eapply T_Conv; [|apply conv_foldr_Pi, conv_universe; symmetry; apply normalize_equiv].
  apply data_typed with (il := il); [done|].
  exact (Forall_impl _ _ _ Hcs (check_constructor_sound Γ _ l ixs)).
Qed.

Lemma infer_construct_sound Γ d k args T :
  infer_construct F I C Γ d k args = Ok T → has_type Γ (Construct d k args) T.
Proof.
  intros (K & HK%I_sound & (D & HD%whnf_conv & H)%bind_Ok)%bind_Ok.
  destruct D as [name l ixs cs| | | | | | | | | | | | | | | | |]; try done.
  apply bind_Ok in H as (c & Hc%ok_or_Ok & H).
  destruct (Nat.eqb_spec (length (fields c)) (length args)); [|done]. cbn [negb] in H.
  apply bind_Ok in H as ([] & Hargs & [= <-]).
  eapply T_Construct; [done..|]. intros i f a Hf Ha.
  by apply C_sound, (each_zip_enumerated _ _ _ _ Hargs i f a).
Qed.

Lemma motive_indices_sound Γ index kind ixs kind' :
  motive_indices F cgas Γ index kind ixs = Ok kind' →
  ∀ K, conv (under (conversion Γ) (index + length ixs)) kind' K →
  conv (under (conversion Γ) index) kind (foldr Pi K ixs).
Proof.
  revert index kind. induction ixs as [|t ixs IH]; intros index kind; cbn [motive_indices].
  { intros [= <-] K. simpl. by rewrite Nat.add_0_r. }
  intros (u & Hu%whnf_conv & H)%bind_Ok K HK.
  destruct u as [| | | | | |dom res| | | | | | | | | | |]; try done.
  apply bind_Ok in H as (same & Hs & H). destruct same; [|done]. apply def_eq_conv in Hs.
  rewrite Hu. simpl. apply conv_pi; [done|]. rewrite under_under.
  replace (index + 1) with (S index) by lia. apply (IH _ _ H).
  simpl in HK. by rewrite Nat.add_succ_comm.
Qed.

Lemma motive_family_sound Γ D ixs kind :
  motive_family F cgas Γ D ixs kind = Ok tt →
  ∃ m, conv (under (conversion Γ) (length ixs)) kind
    (Pi (apply_terms (shift_up D (length ixs) 0)
           (List.map Var (rev (seq 0 (length ixs))))) (Universe m)).
Proof.
  intros (u & Hu%whnf_conv & H)%bind_Ok.
  destruct u as [| | | | | |dom res| | | | | | | | | | |]; try done.
  apply bind_Ok in H as (same & Hs & H). destruct same; [|done]. cbn [negb] in H.
  apply def_eq_conv in Hs. apply bind_Ok in H as (lv & Hlv & H).
  destruct lv as [m|]; [|done]. apply expect_universe_conv in Hlv.
  exists m. rewrite Hu. apply conv_pi; [done|]. by rewrite under_under.
Qed.

Lemma infer_induct_sound Γ s motive cases T :
  infer_induct F cgas I C Γ s motive cases = Ok T → has_type Γ (Induct s motive cases) T.
Proof.
  intros (A & HA%I_sound & (A' & HA'%whnf_conv & (fam & Hfam & H)%bind_Ok)%bind_Ok)%bind_Ok.
  apply bind_Ok in H as ([D values] & ->%ok_or_Ok & H).
  apply split_family_sound in Hfam as (name & l & ixs & cs & -> & El & HD).
  rewrite HA', HD in HA.
  apply bind_Ok in H as (K & HK%I_sound & H).
  apply bind_Ok in H as (kind & Hkind & H).
  apply bind_Ok in H as ([] & [m Hm]%motive_family_sound & H).
  destruct (Nat.eqb_spec (length cases) (length cs)); [|done]. cbn [negb] in H.
  apply bind_Ok in H as ([] & Hcases & [= <-]).
  eapply T_Induct; [done|done| |done|].
  - eapply T_Conv; [exact HK|]. unfold motive_type. rewrite <- (under_0 (conversion Γ)).
    by apply (motive_indices_sound _ _ _ _ _ Hkind).
  - intros i c case Hc Hcase.
    by apply C_sound, (each_zip_enumerated _ _ _ _ Hcases i c case).
Qed.

Lemma infer_inner_sound Γ t T : infer_inner F cgas I C Γ t = Ok T → has_type Γ t T.
Proof.
  destruct t; cbn [infer_inner].
  - apply infer_data_sound.
  - apply infer_construct_sound.
  - apply infer_induct_sound.
  - apply infer_let_sound.
  - intros H%ok_or_Ok. by apply T_Var.
  - intros [= <-]. eapply T_Conv; [apply T_Univ|]. apply conv_universe. intros ρ.
    by rewrite !eval_successor, normalize_eval.
  - apply infer_binder_sound.
  - apply infer_lam_sound.
  - apply infer_app_sound.
  - apply infer_binder_sound.
  - apply infer_pair_sound.
  - apply infer_fst_sound.
  - apply infer_snd_sound.
  - apply infer_id_sound.
  - apply infer_refl_sound.
  - apply (infer_identity_elim_sound Γ false).
  - apply (infer_identity_elim_sound Γ true).
  - apply infer_fun_ext_sound.
Qed.

Lemma check_inferred_sound Γ t T : check_inferred F cgas I Γ t T = Ok tt → has_type Γ t T.
Proof.
  intros (A & HA%I_sound & (same & Hs & H)%bind_Ok)%bind_Ok. destruct same; [|done].
  apply def_eq_conv in Hs. by rewrite <- Hs.
Qed.

Lemma check_shape_sound Γ t T : check_shape F cgas I C Γ t T = Ok tt → has_type Γ t T.
Proof.
  intros (W & HW%whnf_conv & H)%bind_Ok. rewrite HW.
  assert (check_inferred F cgas I Γ t T = Ok tt → has_type Γ t W) as Hplain.
  { intros Ht%check_inferred_sound. by rewrite <- HW. }
  destruct t, W; try (by apply Hplain).
  - apply bind_Ok in H as (l & Hl%infer_type_sound & H).
    apply bind_Ok in H as (same & Hs & H). destruct same; [|done]. cbn [negb] in H.
    apply def_eq_conv in Hs. eapply T_Conv; [eapply T_Lam; [done|by apply C_sound]|].
    apply conv_pi; [done|reflexivity].
  - apply bind_Ok in H as ([] & H1%C_sound & H2%C_sound). by apply T_Pair.
  - apply bind_Ok in H as ([] & Hv%check_domain_sound & H).
    apply bind_Ok in H as (same & Hs & H). destruct same; [|done].
    apply and_checked_true in Hs as [H1%def_eq_conv H2%def_eq_conv].
    eapply T_Conv; [by apply T_Refl|]. by apply conv_id.
Qed.

Lemma check_against_step_sound Γ t T :
  check_against_step F cgas I C Γ t T = Ok tt → has_type Γ t T.
Proof.
  destruct t; try apply check_shape_sound; cbn [check_against_step].
  - intros (A & HA%I_sound & H%C_sound)%bind_Ok.
    rewrite <- (subst_shift_id T 0 t1). by eapply T_Let.
  - intros (A & HA%ok_or_Ok%T_Var & (same & Hs & H)%bind_Ok)%bind_Ok. destruct same.
    + apply def_eq_conv in Hs. by rewrite <- Hs.
    + destruct (definition Γ i) eqn:Hd; [|by apply check_shape_sound].
      eapply T_Delta; [done|by apply C_sound].
Qed.
End sound.

Lemma checker_sound F cgas gas Γ t T :
  (infer F cgas gas Γ t = Ok T → has_type Γ t T) ∧
  (check_against F cgas gas Γ t T = Ok tt → has_type Γ t T).
Proof.
  revert Γ t T. induction gas as [|gas IH]; intros Γ t T; [done|].
  assert (∀ Γ t T, infer F cgas gas Γ t = Ok T → has_type Γ t T) as HI by apply IH.
  assert (∀ Γ t T, check_against F cgas gas Γ t T = Ok tt → has_type Γ t T) as HC by apply IH.
  split; cbn [infer check_against].
  - destruct t; try (by apply infer_inner_sound). intros H%ok_or_Ok. by apply T_Var.
  - by apply check_against_step_sound.
Qed.

Lemma verified_typed F cgas gas cert f u :
  verify_with_foundation F cgas gas cert f = Ok u →
  ∃ l, has_type (with_foundation f) (claimed_type cert) (Universe l) ∧
       has_type (with_foundation f) (term cert) (claimed_type cert).
Proof.
  intros (K & HK%checker_sound & H)%bind_Ok.
  apply bind_Ok in H as (lv & Hlv & H). destruct lv as [l|]; [|done].
  apply expect_universe_conv in Hlv. destruct u. apply checker_sound in H.
  exists l. by rewrite <- Hlv.
Qed.
