(* ===== verification/Weakening.v ===== *)
(** * Weakening

    A derivation stays valid in a context with more in it.  [weak n k Γ Γ']
    says that [Γ'] is [Γ] with [n] entries inserted [k] entries from the
    inside; subjects and types are shifted accordingly. *)

From S2P Require Import Prelude Levels LevelFacts Syntax Subst Inst Context Conversion ConvSpec.
From S2P Require Import ConvFacts Checker Typing.

#[local] Arguments shift_up : simpl never.

(** ** Shifting the telescopes of declarations *)
Abbreviation shift_list n k l := (List.map (λ t, shift_up t n k) l).
Abbreviation shift_indices n k l := (mapi_from (λ i t, shift_up t n (k + i)) 0 l).
Abbreviation shift_field n k i f := (map_field (λ t b, shift_up t n (k + b)) i f).
Abbreviation shift_constructor n k c := (map_constructor (λ t b, shift_up t n (k + b)) c).

Lemma shift_apply_terms_data n k D args :
  shift_up (apply_terms D args) n k = apply_terms (shift_up D n k) (shift_list n k args).
Proof. apply shift_apply_terms. Qed.

Lemma shift_foldr_Pi n k T ixs :
  shift_up (foldr Pi T ixs) n k = foldr Pi (shift_up T n (k + length ixs)) (shift_indices n k ixs).
Proof.
  enough (∀ j, shift_up (foldr Pi T ixs) n (k + j) =
    foldr Pi (shift_up T n (k + j + length ixs)) (mapi_from (λ i t, shift_up t n (k + i)) j ixs)) as H.
  { specialize (H 0). by rewrite Nat.add_0_r in H. }
  induction ixs as [|t ixs IH]; intros j; cbn; [f_equal; lia|].
  rewrite shift_Pi. f_equal. replace (k + j + 1) with (k + S j) by lia. rewrite IH. do 2 f_equal. lia.
Qed.

Lemma shift_instantiate n k t args :
  shift_up (instantiate_fields t args) n k =
    instantiate_fields (shift_up t n (k + length args)) (shift_list n k args).
Proof.
  unfold instantiate_fields, enumerate.
  enough (∀ j, shift_up (foldr (λ '(r, a) t, subst t 0 (shift_up a r 0)) t
      (mapi_from (λ i x, (i, x)) j args)) n (k + j) =
    foldr (λ '(r, a) t, subst t 0 (shift_up a r 0)) (shift_up t n (k + j + length args))
      (mapi_from (λ i x, (i, x)) j (shift_list n k args))) as H.
  { specialize (H 0). by rewrite Nat.add_0_r in H. }
  induction args as [|a args IH]; intros j; cbn; [f_equal; lia|].
  rewrite shift_subst0. f_equal.
  - replace (k + j + 1) with (k + S j) by lia. rewrite IH. do 2 f_equal. lia.
  - symmetry. apply shift_commute. lia.
Qed.

Lemma shift_take n k i l : take i (shift_list n k l) = shift_list n k (take i l).
Proof. change (List.map ?f ?l) with (f <$> l). symmetry. apply fmap_take. Qed.

Lemma take_mapi {A B} (f : nat → A → B) j i l : take i (mapi_from f j l) = mapi_from f j (take i l).
Proof. revert i j. induction l as [|x l IH]; intros [|i] j; cbn; try done. by rewrite IH. Qed.

Lemma shift_field_domain n k D f i :
  shift_up (field_domain D f i) n (k + i) = field_domain (shift_up D n k) (shift_field n k i f) i.
Proof.
  unfold field_domain. rewrite field_value_map_type. destruct (field_value_type f i) as [t|]; [done|].
  cbn. rewrite shift_apply_terms, recursive_indices_map. f_equal.
  - symmetry. apply shift_commute. lia.
  - by destruct (recursive_indices f).
Qed.

Lemma shift_argument_type n k i j T values :
  j ≤ length values →
  shift_up (argument_type i j T values) n (k + i) =
    argument_type i j (shift_up T n (k + j)) (shift_list n (k + i) values).
Proof.
  intros Hj. unfold argument_type. rewrite shift_instantiate, shift_take, length_take_le by done.
  f_equal. replace (k + i + j) with (k + j + i) by lia. symmetry. apply shift_commute. lia.
Qed.

Lemma shift_motive_type n k D ixs m :
  shift_up (motive_type D ixs m) n k = motive_type (shift_up D n k) (shift_indices n k ixs) m.
Proof.
  unfold motive_type. rewrite shift_foldr_Pi, mapi_from_length. do 2 f_equal.
  rewrite shift_Pi, shift_apply_terms, shift_Universe. do 2 f_equal.
  - symmetry. apply shift_commute. lia.
  - rewrite List.map_map. apply map_ext_in. intros i Hi%in_rev%in_seq. rewrite shift_Var.
    destruct (Nat.leb_spec (k + length ixs) i); [lia|done].
Qed.

(** ** The type of a branch of an induction *)
Lemma shift_rebind n k t positions depth :
  (positions ≠ [] → 0 < depth) →
  shift_up (rebind_fields t positions depth) n (k + depth) =
    rebind_fields (shift_up t n (k + length positions)) positions depth.
Proof.
  intros Hd. unfold rebind_fields. rewrite shift_instantiate, length_map. f_equal.
  - replace (k + depth + length positions) with (k + length positions + depth) by lia.
    symmetry. apply shift_commute. lia.
  - rewrite List.map_map. destruct positions as [|p ps]; [done|]. specialize (Hd ltac:(done)).
    apply map_ext. intros q. rewrite shift_Var.
    destruct (Nat.leb_spec (k + depth) (depth - 1 - q)); [lia|done].
Qed.

(** One field of [case_domains]. *)
Definition case_domain_step (data motive : Term) (acc : list Term * list nat)
    (field : DataField Term) : list Term * list nat :=
  let '(domains, positions) := acc in
  let depth := length domains in
  let domain := rebind_fields (field_domain data field (length positions)) positions depth in
  let hypothesis :=
    match recursive_indices field with
    | Some ixs =>
        let arguments := List.map (λ t, rebind_fields t positions (depth + 1)) ixs in
        [App (apply_terms (shift_up motive (depth + 1) 0) arguments) (Var 0)]
    | None => []
    end in
  (domains ++ domain :: hypothesis, positions ++ [depth]).

Lemma case_domains_step data motive fs :
  case_domains data motive fs = foldl (case_domain_step data motive) ([], []) fs.
Proof.
  unfold case_domains. generalize (@nil Term, @nil nat) as acc.
  induction fs as [|f fs IH]; intros [ds ps]; [done|]. apply IH.
Qed.

Lemma mapi_from_app {A B} (f : nat → A → B) j l k :
  mapi_from f j (l ++ k) = mapi_from f j l ++ mapi_from f (j + length l) k.
Proof.
  revert j. induction l as [|x l IH]; intros j; cbn; [by rewrite Nat.add_0_r|].
  by rewrite IH, Nat.add_succ_comm.
Qed.

Definition shift_domains (n k : nat) (acc : list Term * list nat) : list Term * list nat :=
  (shift_indices n k acc.1, acc.2).

Definition domains_ok (acc : list Term * list nat) : Prop := acc.2 ≠ [] → 0 < length acc.1.

Lemma case_domain_step_ok data motive acc f : domains_ok (case_domain_step data motive acc f).
Proof. destruct acc as [ds ps]. intros _. cbn. rewrite length_app. cbn. lia. Qed.

Lemma case_domain_step_shift n k data motive acc f :
  domains_ok acc →
  case_domain_step (shift_up data n k) (shift_up motive n k) (shift_domains n k acc)
    (shift_field n k (length acc.2) f) =
  shift_domains n k (case_domain_step data motive acc f).
Proof.
  intros Hd. destruct acc as [ds ps]. unfold shift_domains, domains_ok in *. cbn [fst snd] in *.
  unfold case_domain_step. cbv beta iota zeta. cbn [fst snd].
  rewrite mapi_from_length, mapi_from_app. f_equal. cbn [mapi_from Nat.add].
  do 2 f_equal.
  - rewrite shift_rebind, shift_field_domain by done. done.
  - rewrite recursive_indices_map. destruct (recursive_indices f) as [ixs|]; [|done]. cbn.
    f_equal. rewrite shift_App, shift_apply_terms, shift_Var.
    destruct (Nat.leb_spec (k + S (length ds)) 0); [lia|]. do 2 f_equal.
    + rewrite (shift_commute motive n (length ds + 1) 0 k) by lia. f_equal. lia.
    + rewrite !List.map_map. apply map_ext. intros t.
      replace (k + S (length ds)) with (k + (length ds + 1)) by lia.
      rewrite shift_rebind by lia. done.
Qed.

Lemma case_domains_positions data motive fs acc :
  length (foldl (case_domain_step data motive) acc fs).2 = length acc.2 + length fs.
Proof.
  revert acc. induction fs as [|f fs IH]; intros acc; cbn; [lia|]. rewrite IH.
  destruct acc as [ds ps]. cbn. rewrite length_app. cbn. lia.
Qed.

Lemma case_domains_ok data motive fs acc :
  domains_ok acc → domains_ok (foldl (case_domain_step data motive) acc fs).
Proof.
  revert acc. induction fs as [|f fs IH]; intros acc H; [done|]. apply IH, case_domain_step_ok.
Qed.

Lemma case_domains_shift n k data motive fs acc :
  domains_ok acc →
  foldl (case_domain_step (shift_up data n k) (shift_up motive n k)) (shift_domains n k acc)
    (mapi_from (map_field (λ t b, shift_up t n (k + b))) (length acc.2) fs) =
  shift_domains n k (foldl (case_domain_step data motive) acc fs).
Proof.
  revert acc. induction fs as [|f fs IH]; intros acc H; [done|]. cbn [mapi_from foldl].
  rewrite case_domain_step_shift by done. rewrite <- IH by apply case_domain_step_ok. f_equal.
  f_equal. destruct acc as [ds ps]. cbn. rewrite length_app. cbn. lia.
Qed.

Lemma shift_case_type n k data motive index c :
  shift_up (induction_case_type data motive index c) n k =
    induction_case_type (shift_up data n k) (shift_up motive n k) index (shift_constructor n k c).
Proof.
  unfold induction_case_type. rewrite !case_domains_step.
  pose proof (case_domains_shift n k data motive (fields c) ([], [])) as Hs.
  pose proof (case_domains_positions data motive (fields c) ([], [])) as Hp.
  pose proof (case_domains_ok data motive (fields c) ([], [])) as Hd.
  specialize (Hs ltac:(by intros [])); specialize (Hd ltac:(by intros [])).
  change (shift_domains n k ([], [])) with (@nil Term, @nil nat) in Hs. cbn [snd length] in Hs. cbn [map_constructor fields indices].
  rewrite Hs. clear Hs.
  destruct (foldl (case_domain_step data motive) ([], []) (fields c)) as [ds ps].
  unfold domains_ok in Hd. cbn [shift_domains fst snd length Nat.add] in *. rewrite shift_foldr_Pi, mapi_from_length.
  f_equal. rewrite shift_App, shift_apply_terms, shift_Construct. f_equal; [f_equal|f_equal].
  - symmetry. apply shift_commute. lia.
  - rewrite !List.map_map. apply map_ext. intros t. rewrite <- Hp. by apply shift_rebind.
  - symmetry. apply shift_commute. lia.
  - rewrite List.map_map. destruct ps as [|p ps]; [done|]. specialize (Hd ltac:(done)).
    apply map_ext. intros q. rewrite shift_Var.
    destruct (Nat.leb_spec (k + length ds) (length ds - 1 - q)); [lia|done].
Qed.

(** ** Contexts with more in them *)
Definition moved (n k i : nat) : nat := if k <=? i then i + n else i.

Record weak (n k : nat) (Γ Γ' : Context) : Prop := {
  weak_foundation : foundation Γ' = foundation Γ;
  weak_ok : ctx_ok Γ;
  weak_ok' : ctx_ok Γ';
  weak_lookup i T : lookup Γ i = Some T → lookup Γ' (moved n k i) = Some (shift_up T n k);
  weak_definition i v :
    definition Γ i = Some v → definition Γ' (moved n k i) = Some (shift_up v n k)
}.

Lemma unfold_conversion Γ i : unfold_var (conversion Γ) i = definition Γ i.
Proof.
  unfold unfold_var, definition. cbn [binders conversion context].
  rewrite checked_sub_le by lia. cbn. f_equal. lia.
Qed.

Lemma weak_cweak n k Γ Γ' : weak n k Γ Γ' → cweak n k (conversion Γ) (conversion Γ').
Proof.
  intros H i v. rewrite !unfold_conversion. apply (weak_definition _ _ _ _ H).
Qed.

Lemma weak_conv n k Γ Γ' A B :
  weak n k Γ Γ' → conv (conversion Γ) A B →
  conv (conversion Γ') (shift_up A n k) (shift_up B n k).
Proof. intros H HAB. eapply conv_weaken; [exact HAB|by apply weak_cweak]. Qed.

Lemma lookup_extend_0 Γ t : ctx_ok Γ → lookup (extend Γ t) 0 = Some (shift_up t 1 0).
Proof.
  intros H. rewrite lookup_correct by (by apply ctx_ok_extend).
  apply (lookup_spec_extend Γ (Binding t _ None)).
Qed.

Lemma lookup_extend_S Γ t i :
  ctx_ok Γ → lookup (extend Γ t) (S i) = (λ t, shift_up t 1 0) <$> lookup Γ i.
Proof.
  intros H. rewrite !lookup_correct by auto using ctx_ok_extend.
  apply (lookup_spec_extend Γ (Binding t _ None)).
Qed.

Lemma lookup_define Γ t v i : ctx_ok Γ → lookup (define Γ t v) i = lookup (extend Γ t) i.
Proof.
  intros H. rewrite !lookup_correct by auto using ctx_ok_extend, ctx_ok_define.
  unfold lookup_spec, types. rewrite bindings_define. simpl. by rewrite !fmap_app.
Qed.

Lemma definition_define Γ t v i :
  definition (define Γ t v) i =
    match i with 0 => Some (shift_up v 1 0) | S i => (λ t, shift_up t 1 0) <$> definition Γ i end.
Proof.
  destruct i as [|i].
  - unfold definition, definition_under. rewrite bindings_define, length_app.
    change (length [_]) with 1. rewrite checked_sub_le by lia. cbn [mbind option_bind].
    by rewrite list_lookup_middle by lia.
  - rewrite <- (proj2 (definition_extend Γ t i)).
    unfold definition, definition_under. rewrite bindings_define. cbn [extend bindings].
    rewrite !length_app. change (length [_]) with 1.
    destruct (checked_sub _ _) as [p|] eqn:Hp; [|done]. apply checked_sub_Some in Hp.
    cbn [mbind option_bind]. by rewrite !lookup_app_l by lia.
Qed.

Lemma moved_0 n k : moved n (k + 1) 0 = 0.
Proof. unfold moved. by destruct (Nat.leb_spec (k + 1) 0); [lia|]. Qed.

Lemma moved_S n k i : moved n (k + 1) (S i) = S (moved n k i).
Proof. unfold moved. destruct (Nat.leb_spec (k + 1) (S i)), (Nat.leb_spec k i); lia. Qed.

Lemma shift_1_commute t n k : shift_up (shift_up t n k) 1 0 = shift_up (shift_up t 1 0) n (k + 1).
Proof. apply shift_commute. lia. Qed.

Lemma weak_extend n k Γ Γ' t :
  weak n k Γ Γ' → weak n (k + 1) (extend Γ t) (extend Γ' (shift_up t n k)).
Proof.
  intros [Hf H1 H2 Hl Hd]. split; [done|by apply ctx_ok_extend..| |].
  - intros [|i] T.
    + rewrite moved_0, !lookup_extend_0 by done. intros [= <-]. by rewrite shift_1_commute.
    + rewrite moved_S, !lookup_extend_S by done. destruct (lookup Γ i) as [U|] eqn:HU; [|done].
      rewrite (Hl _ _ HU). intros [= <-]. cbn. by rewrite shift_1_commute.
  - intros [|i] v; [by rewrite (proj1 (definition_extend Γ t 0))|].
    rewrite moved_S, !(proj2 (definition_extend _ _ _)).
    destruct (definition Γ i) as [U|] eqn:HU; [|done].
    rewrite (Hd _ _ HU). intros [= <-]. cbn. by rewrite shift_1_commute.
Qed.

Lemma weak_define n k Γ Γ' t v :
  weak n k Γ Γ' →
  weak n (k + 1) (define Γ t v) (define Γ' (shift_up t n k) (shift_up v n k)).
Proof.
  intros Hw. destruct (weak_extend _ _ _ _ t Hw) as [Hf H1 H2 Hl Hd].
  pose proof (weak_ok _ _ _ _ Hw). pose proof (weak_ok' _ _ _ _ Hw).
  split; [by rewrite !foundation_define|by apply ctx_ok_define..| |].
  - intros i T. rewrite !lookup_define by done. apply Hl.
  - intros [|i] u; rewrite ?moved_0, ?moved_S, !definition_define.
    + intros [= <-]. by rewrite shift_1_commute.
    + destruct (definition Γ i) as [U|] eqn:HU; [|done].
      rewrite (weak_definition _ _ _ _ Hw _ _ HU). intros [= <-]. cbn. by rewrite shift_1_commute.
Qed.

Lemma weak_index_context n k Γ Γ' ixs :
  weak n k Γ Γ' →
  weak n (k + length ixs) (index_context Γ ixs) (index_context Γ' (shift_indices n k ixs)).
Proof.
  enough (∀ j, weak n (k + j) Γ Γ' → weak n (k + j + length ixs) (index_context Γ ixs)
    (index_context Γ' (mapi_from (λ i t, shift_up t n (k + i)) j ixs))) as H.
  { intros Hw. specialize (H 0). rewrite !Nat.add_0_r in H. by apply H. }
  revert Γ Γ'. induction ixs as [|t ixs IH]; intros Γ Γ' j Hw; cbn; [by rewrite Nat.add_0_r|].
  apply weak_extend with (t := t) in Hw. replace (k + j + 1) with (k + S j) in Hw by lia.
  replace (k + j + S (length ixs)) with (k + S j + length ixs) by lia. by apply IH.
Qed.

Lemma weak_field_context n k Γ Γ' D index fs :
  weak n (k + index) Γ Γ' →
  weak n (k + index + length fs) (field_context Γ D index fs)
    (field_context Γ' (shift_up D n k) index
       (mapi_from (map_field (λ t b, shift_up t n (k + b))) index fs)).
Proof.
  revert Γ Γ' index. induction fs as [|f fs IH]; intros Γ Γ' index Hw; cbn;
    [by rewrite Nat.add_0_r|].
  apply weak_extend with (t := field_domain D f index) in Hw. rewrite shift_field_domain in Hw.
  replace (k + index + 1) with (k + S index) in Hw by lia.
  replace (k + index + S (length fs)) with (k + S index + length fs) by lia. by apply IH.
Qed.

(** [Γ] with [Δ] inside it. *)
Lemma weak_bindings Γ Γ' Δ :
  ctx_ok Γ → ctx_ok Γ' → foundation Γ' = foundation Γ → bindings Γ' = bindings Γ ++ Δ →
  weak (length Δ) 0 Γ Γ'.
Proof.
  intros H1 H2 Hf HΔ. split; [done..| |]; unfold moved; cbn [Nat.leb].
  - intros i T. rewrite !lookup_correct by done.
    unfold lookup_spec, types. rewrite HΔ, fmap_app, reverse_app.
    rewrite lookup_app_r by (rewrite length_reverse, length_fmap; lia).
    rewrite length_reverse, length_fmap. replace (i + length Δ - length Δ) with i by lia.
    destruct (_ !! i) as [t|]; [|done]. intros [= <-]. cbn. rewrite shift_shift by lia.
    do 2 f_equal. lia.
  - intros i v. unfold definition, definition_under. rewrite HΔ, length_app.
    destruct (checked_sub (length (bindings Γ)) (i + 1)) as [p|] eqn:Hp; [|done].
    apply checked_sub_Some in Hp. cbn [mbind option_bind].
    rewrite checked_sub_le by lia. cbn [mbind option_bind].
    replace (length (bindings Γ) + length Δ - (i + length Δ + 1)) with p by lia.
    rewrite lookup_app_l by lia.
    destruct (bindings Γ !! p) as [b|]; [|done]. cbn [mbind option_bind].
    destruct (definition_of b) as [t|]; [|done]. cbn. intros [= <-].
    rewrite shift_shift by lia. do 2 f_equal. lia.
Qed.

Lemma weak_extend_1 Γ a : ctx_ok Γ → weak 1 0 Γ (extend Γ a).
Proof.
  intros H. apply (weak_bindings _ _ [Binding a (negb (contains_free a 0 None)) None]);
    [done|by apply ctx_ok_extend|done|done].
Qed.

Lemma weak_define_1 Γ a t : ctx_ok Γ → weak 1 0 Γ (define Γ a t).
Proof.
  intros H. apply (weak_bindings _ _ [Binding a (negb (contains_free a 0 None)) (Some t)]);
    [done|by apply ctx_ok_define|done|apply bindings_define].
Qed.

Lemma weak_trans n m Γ Γ' Γ'' : weak n 0 Γ Γ' → weak m 0 Γ' Γ'' → weak (n + m) 0 Γ Γ''.
Proof.
  intros [F1 O1 O1' L1 D1] [F2 O2 O2' L2 D2]. split; [congruence|done|done| |];
    unfold moved in *; cbn [Nat.leb] in *.
  - intros i T HT%L1%L2. rewrite shift_shift in HT by lia. by rewrite Nat.add_assoc.
  - intros i v Hv%D1%D2. rewrite shift_shift in Hv by lia. by rewrite Nat.add_assoc.
Qed.

(** ** Typing *)
Lemma shift_Var_0 n k : shift_up (Var 0) n (k + 1) = Var 0.
Proof. rewrite shift_Var. by destruct (Nat.leb_spec (k + 1) 0); [lia|]. Qed.

Lemma shift_pointwise n k A B f g :
  shift_up (Pi A (Id B (App (shift_up f 1 0) (Var 0)) (App (shift_up g 1 0) (Var 0)))) n k =
    Pi (shift_up A n k) (Id (shift_up B n (k + 1))
      (App (shift_up (shift_up f n k) 1 0) (Var 0)) (App (shift_up (shift_up g n k) 1 0) (Var 0))).
Proof.
  by rewrite shift_Pi, shift_Id, !shift_App, shift_Var_0, <- !shift_1_commute.
Qed.

Lemma shift_path_motive n k A x l :
  shift_up (Pi A (Pi (Id (shift_up A 1 0) (shift_up x 1 0) (Var 0)) (Universe l))) n k =
    Pi (shift_up A n k) (Pi (Id (shift_up (shift_up A n k) 1 0) (shift_up (shift_up x n k) 1 0)
      (Var 0)) (Universe l)).
Proof.
  by rewrite !shift_Pi, shift_Id, shift_Var_0, shift_Universe, <- !shift_1_commute.
Qed.

(** Lookups in shifted lists. *)
Lemma lookup_shift_list n k l i t :
  shift_list n k l !! i = Some t → ∃ u, l !! i = Some u ∧ t = shift_up u n k.
Proof.
  change (List.map ?f ?l) with (f <$> l). rewrite list_lookup_fmap.
  destruct (l !! i) as [u|]; [|done]. intros [= <-]. by exists u.
Qed.

Lemma lookup_mapi_Some {A B} (f : nat → A → B) l i y :
  mapi_from f 0 l !! i = Some y → ∃ x, l !! i = Some x ∧ y = f i x.
Proof.
  rewrite lookup_mapi_from. destruct (l !! i) as [x|]; [|done]. intros [= <-]. by exists x.
Qed.

Lemma lookup_shift_constructor n k (cs : list TermConstructor) i c :
  List.map (λ c, shift_constructor n k c) cs !! i = Some c →
  ∃ d, cs !! i = Some d ∧ c = shift_constructor n k d.
Proof.
  change (List.map ?f ?l) with (f <$> l). rewrite list_lookup_fmap.
  destruct (cs !! i) as [d|]; [|done]. intros [= <-]. by exists d.
Qed.

Lemma weak_take_indices n k Γ Γ' ixs i t :
  weak n k Γ Γ' → ixs !! i = Some t →
  weak n (k + i) (index_context Γ (take i ixs)) (index_context Γ' (take i (shift_indices n k ixs))).
Proof.
  intros Hw Hi. apply weak_index_context with (ixs := take i ixs) in Hw.
  rewrite take_mapi. rewrite length_take_le in Hw; [done|]. apply lookup_lt_Some in Hi. lia.
Qed.

Lemma weak_take_fields n k Γ Γ' D (fs : list (DataField Term)) i f :
  weak n k Γ Γ' → fs !! i = Some f →
  weak n (k + i) (field_context Γ D 0 (take i fs))
    (field_context Γ' (shift_up D n k) 0
       (take i (mapi_from (map_field (λ t b, shift_up t n (k + b))) 0 fs))).
Proof.
  intros Hw Hi. rewrite <- (Nat.add_0_r k) in Hw.
  apply weak_field_context with (D := D) (fs := take i fs) in Hw.
  rewrite take_mapi. rewrite length_take_le in Hw; [by rewrite Nat.add_0_r in Hw|].
  apply lookup_lt_Some in Hi. lia.
Qed.

Lemma weak_all_fields n k Γ Γ' D (fs : list (DataField Term)) :
  weak n k Γ Γ' →
  weak n (k + length fs) (field_context Γ D 0 fs)
    (field_context Γ' (shift_up D n k) 0
       (mapi_from (map_field (λ t b, shift_up t n (k + b))) 0 fs)).
Proof.
  intros Hw. rewrite <- (Nat.add_0_r k) in Hw.
  apply weak_field_context with (D := D) (fs := fs) in Hw. by rewrite Nat.add_0_r in Hw.
Qed.

(** Lookups in the parts of a shifted declaration, back to the declaration. *)
Ltac unshift :=
  repeat match goal with
  | H : List.map (map_constructor _) _ !! _ = Some _ |- _ =>
      apply lookup_shift_constructor in H as (? & H & ->)
  | H : shift_list _ _ _ !! _ = Some _ |- _ => apply lookup_shift_list in H as (? & H & ->)
  | H : fields (map_constructor _ _) !! _ = Some _ |- _ =>
      apply (lookup_mapi_Some (map_field _)) in H as (? & H & ->)
  | H : indices (map_constructor _ _) !! _ = Some _ |- _ => cbn [map_constructor indices] in H
  | H : mapi_from _ 0 _ !! _ = Some _ |- _ => apply lookup_mapi_Some in H as (? & H & ->)
  | H : recursive_indices (map_field _ _ _) = _ |- _ => rewrite recursive_indices_map in H
  | H : _ <$> recursive_indices ?f = _ |- _ =>
      destruct (recursive_indices f) as [?|] eqn:?; [|discriminate H];
      (discriminate H || injection H as <-)
  | H : _ <$> recursive_indices ?f = None |- _ =>
      destruct (recursive_indices f) as [?|] eqn:?; [discriminate H|clear H]
  end.

Lemma has_type_weak Γ t T :
  has_type Γ t T → ∀ n k Γ', weak n k Γ Γ' → has_type Γ' (shift_up t n k) (shift_up T n k).
Proof.
  induction 1 as
    [Γ t A B _ IH HAB|Γ i T Hi|Γ i v T Hi _ IH|Γ l|Γ a b l m _ IHa _ IHb
    |Γ a b l m _ IHa _ IHb|Γ a b B l _ IHa _ IHb|Γ g x A B _ IHg _ IHx
    |Γ a b A F _ IHa _ IHb|Γ p A F _ IH|Γ p A F _ IH|Γ A x y l _ IHA _ IHx _ IHy
    |Γ x A _ IH|Γ mo ba s A x y l _ IHs _ IHm _ IHb|Γ mo ba s A x y l _ IHs _ IHm _ IHb
    |Γ F g h p A B l Hf _ IHF HF _ IHg _ IHh _ IHp|Γ v b A B _ IHv _ IHb
    |Γ name l ixs cs il fl D _ IHi Hle _ IHp Hlr _ IHr Hlc _ IHc
    |Γ d K name l ixs cs k0 c args D _ IHd HD Hk Hl _ IHa
    |Γ s mo cases name l ixs cs values m D _ IHs Hv _ IHm Hl _ IHc];
    intros n k Γ' Hw;
    repeat match goal with
    | IH : ∀ n k Γ', weak n k Γ Γ' → _ |- _ => specialize (IH _ _ _ Hw)
    | IH : ∀ n k Γ', weak n k (extend Γ ?a) Γ' → _ |- _ =>
        specialize (IH _ _ _ (weak_extend _ _ _ _ a Hw))
    | IH : ∀ n k Γ', weak n k (define Γ ?a ?v) Γ' → _ |- _ =>
        specialize (IH _ _ _ (weak_define _ _ _ _ a v Hw))
    | IH : context [shift_up (Pi _ (Pi (Id _ _ _) _))] |- _ => rewrite shift_path_motive in IH
    | IH : context [shift_up (Pi _ (Id _ _ _))] |- _ => rewrite shift_pointwise in IH
    | IH : has_type _ _ _ |- _ => progress autorewrite with verum in IH
    end; autorewrite with verum; rewrite ?shift_subst0 in *; try (by econstructor).
  - eapply T_Conv; [done|by eapply weak_conv].
  - apply T_Var. by apply (weak_lookup _ _ _ _ Hw).
  - eapply T_Delta; [by apply (weak_definition _ _ _ _ Hw)|done].
  - autorewrite with verum. by eapply T_Snd.
  - apply (weak_conv _ _ _ _ _ _ Hw) in HF. rewrite shift_Pi in HF.
    eapply T_FunExt; [by rewrite (weak_foundation _ _ _ _ Hw)|done..].
  - pose proof (shift_Data n k name l ixs cs) as ED. fold D in ED.
    rewrite shift_foldr_Pi, shift_Universe, ED.
    apply T_Data with (il := il) (fl := fl); rewrite <- ?ED; intros; unshift.
    + specialize (IHi _ _ ltac:(done) _ _ _ (weak_take_indices _ _ _ _ _ _ _ Hw ltac:(done))).
      by autorewrite with verum in IHi.
    + by eapply Hle.
    + rewrite <- shift_field_domain. rewrite <- (shift_Universe n (k + i)).
      eapply IHp; [done..|]. by eapply weak_take_fields.
    + rewrite mapi_from_length, length_map. by eapply Hlr.
    + rewrite <- shift_argument_type.
      * eapply IHr; [done..|]. by eapply weak_take_fields.
      * match goal with H : ?l !! j = Some _ |- j ≤ length ?l => apply lookup_lt_Some in H; lia end.
    + rewrite mapi_from_length. cbn [map_constructor indices]. rewrite length_map. by eapply Hlc.
    + cbn [map_constructor fields indices]. rewrite mapi_from_length, <- shift_argument_type.
      * eapply IHc; [done..|]. by apply weak_all_fields.
      * match goal with H : ?l !! j = Some _ |- j ≤ length ?l => apply lookup_lt_Some in H; lia end.
  - apply (weak_conv _ _ _ _ _ _ Hw) in HD. unfold D in HD |- *.
    pose proof (shift_Data n k name l ixs cs) as ED. rewrite ED in HD. rewrite shift_apply_terms.
    replace (shift_list n k (List.map (λ t, instantiate_fields t args) (indices c))) with (List.map (λ t, instantiate_fields t (shift_list n k args))
      (indices (shift_constructor n k c))).
    + rewrite ED. eapply T_Construct; [done|exact HD| | |].
      * change (List.map ?f ?l) with (f <$> l). by rewrite list_lookup_fmap, Hk.
      * cbn [map_constructor fields]. by rewrite mapi_from_length, length_map.
      * intros; unshift. rewrite <- ED, <- shift_field_domain, shift_take.
        match goal with H : args !! i = Some _ |- _ => pose proof (lookup_lt_Some _ _ _ H) end.
        replace (k + i) with (k + length (take i args)) by (rewrite length_take_le; lia).
        rewrite <- shift_instantiate. by eapply IHa.
    + cbn [map_constructor indices]. rewrite !List.map_map. apply map_ext. intros t.
      rewrite shift_instantiate. by rewrite Hl.
  - unfold D in *.
    rewrite shift_apply_terms in IHs |- *. rewrite shift_motive_type in IHm.
    rewrite shift_Data in IHs, IHm.
    eapply T_Induct; [exact IHs|by rewrite mapi_from_length, length_map|exact IHm
      |by rewrite !length_map|].
    intros i c case. change (List.map ?f ?l) with (f <$> l). rewrite !list_lookup_fmap.
    destruct (cs !! i) as [c0|] eqn:Hc; [|done]. destruct (cases !! i) as [case0|] eqn:Hcase; [|done].
    intros [= <-] [= <-]. change (?f <$> cs) with (List.map f cs).
    rewrite <- shift_Data, <- shift_case_type. by eapply IHc.
Qed.

(** ** Telescopes as parallel substitutions

    [instantiate_fields] substitutes the arguments of a telescope one at a
    time; it is the parallel substitution of all of them.  Conversion and scope
    pass through it, and through the type of a branch of an induction. *)

#[local] Arguments shift_up : simpl never.

(** ** Composition of substitutions *)
Lemma subst_after_inst σ t x :
  subst (inst σ t) 0 x = inst (List.map (λ u, subst u 0 x) σ ++ [x]) t.
Proof.
  rewrite subst_mv. unfold inst_at. apply mv_compose. intros n i. cbn [Nat.add].
  pattern (inst_var σ i n). apply inst_var_cases.
  - intros Hi. rewrite inst_var_lt by done. cbn. unfold subst_var.
    destruct (Nat.compare_spec i n); [lia|done|lia].
  - intros j u -> Hu. rewrite (inst_var_at _ _ _ (subst u 0 x)).
    + rewrite <- subst_mv, (shift_subst_low u 0 x n 0) by lia. by rewrite Nat.add_0_l.
    + rewrite lookup_app_l.
      * change (List.map ?f ?l) with (f <$> l). by rewrite list_lookup_fmap, Hu.
      * rewrite length_map. by eapply lookup_lt_Some.
  - intros j -> Hj. cbn. unfold subst_var.
    destruct (Nat.eq_dec j (length σ)) as [->|].
    + rewrite (inst_var_at _ _ _ x).
      * destruct (Nat.compare_spec (n + length σ - length σ) n); [done|lia..].
      * by rewrite lookup_app_r, length_map, Nat.sub_diag by (rewrite length_map; lia).
    + rewrite inst_var_ge by (rewrite length_app, length_map; cbn; lia).
      rewrite length_app, length_map. cbn [length].
      destruct (Nat.compare_spec (n + j - length σ) n); try lia. f_equal; lia.
Qed.

Lemma inst_shift_cancel n τ u :
  inst_at n τ (shift_up u (length τ + n) 0) = shift_up u n 0.
Proof.
  rewrite !shift_up_mv. unfold inst_at. apply mv_compose. intros m i. cbn [Nat.add]. unfold shift_var.
  destruct (Nat.leb_spec m i).
  - cbn [map_variables]. replace (i + (length τ + n)) with (n + m + (i - m + length τ)) by lia.
    rewrite inst_var_ge by lia. f_equal; lia.
  - cbn [map_variables]. rewrite inst_var_lt by lia. done.
Qed.

Lemma inst_inst_at τ σ t : inst τ (inst_at (length τ) σ t) = inst (τ ++ σ) t.
Proof.
  unfold inst_at. apply mv_compose. intros n i. cbn [Nat.add].
  pattern (inst_var σ i (length τ + n)). apply inst_var_cases.
  - intros Hi. cbn [map_variables]. destruct (Nat.lt_ge_cases i n) as [Hn|Hn].
    + by rewrite !inst_var_lt.
    + destruct (lookup_lt_is_Some_2 τ (i - n)) as [u Hu]; [lia|].
      replace i with (n + (i - n)) by lia. rewrite !(inst_var_at _ _ _ u); [done| |done].
      rewrite lookup_app_l; [done|lia].
  - intros j u -> Hu. replace (length τ + n + j) with (n + (length τ + j)) by lia.
    rewrite (inst_var_at _ _ _ u) by (rewrite lookup_app_r by lia; by replace (length τ + j - length τ) with j by lia).
    apply (inst_shift_cancel n).
  - intros j -> Hj. cbn [map_variables].
    replace (length τ + n + j - length σ) with (n + (length τ + j - length σ)) by lia.
    replace (length τ + n + j) with (n + (length τ + j)) by lia.
    rewrite !inst_var_ge by (rewrite ?length_app; lia). rewrite length_app. f_equal; lia.
Qed.

(** ** [instantiate_fields] *)
Definition instantiate_from (j : nat) (t : Term) (args : list Term) : Term :=
  foldr (λ '(remaining, argument) term, subst term 0 (shift_up argument remaining 0))
    t (mapi_from (λ i x, (i, x)) j args).

Lemma instantiate_from_inst j t args :
  instantiate_from j t args = inst (List.map (λ a, shift_up a j 0) (rev args)) t.
Proof.
  revert j. induction args as [|a args IH]; intros j.
  - cbn. unfold inst_at. symmetry. apply mv_id. intros n i.
    destruct (Nat.lt_ge_cases i n); [by apply inst_var_lt|].
    replace i with (n + (i - n)) at 1 by lia. rewrite inst_var_ge by (cbn; lia). cbn. f_equal. lia.
  - change (instantiate_from j t (a :: args)) with
      (subst (instantiate_from (S j) t args) 0 (shift_up a j 0)).
    rewrite IH, subst_after_inst. cbn [rev]. rewrite map_app, List.map_map. cbn [List.map].
    do 2 f_equal. apply map_ext. intros b. replace (S j) with (j + 1) by lia.
    by rewrite subst_shift_cancel by lia.
Qed.

Lemma instantiate_inst t args : instantiate_fields t args = inst (rev args) t.
Proof.
  etrans; [apply (instantiate_from_inst 0)|]. f_equal. rewrite <- (map_id (rev args)) at 2.
  apply map_ext. intros a. apply shift_up_zero.
Qed.

Lemma instantiate_shift t args : instantiate_fields (shift_up t (length args) 0) args = t.
Proof.
  rewrite instantiate_inst. pose proof (inst_shift_cancel 0 (rev args) t) as H.
  rewrite length_rev, Nat.add_0_r in H. by rewrite H, shift_up_zero.
Qed.

Lemma instantiate_apply_terms f ts args :
  instantiate_fields (apply_terms f ts) args =
    apply_terms (instantiate_fields f args) (List.map (λ t, instantiate_fields t args) ts).
Proof.
  rewrite !instantiate_inst. etrans; [apply inst_apply_terms|]. unfold apply_terms. f_equal.
  apply map_ext. intros t. by rewrite instantiate_inst.
Qed.

Lemma scoped_instantiate n t args :
  Forall (scoped n) args → scoped (n + length args) t → scoped n (instantiate_fields t args).
Proof.
  intros Ha Ht. rewrite instantiate_inst. eapply scoped_mv_free; [|exact Ht].
  intros m i [Hi|Hi]; [|done]. cbn [Nat.add]. apply inst_var_cases.
  - intros Hm. apply scoped_var. lia.
  - intros j u -> Hu. apply scoped_shift; [lia|].
    apply Forall_lookup_1 with (1 := List.Forall_rev Ha) in Hu. done.
  - intros j -> Hj. rewrite length_rev in *. apply scoped_var. lia.
Qed.

Lemma conv_instantiate c t t' args args' :
  conv (under c (length args)) t t' → Forall2 (conv c) args args' →
  conv c (instantiate_fields t args) (instantiate_fields t' args').
Proof.
  intros Ht Ha. rewrite <- (under_0 c).
  enough (∀ j, conv (under c (j + length args)) t t' →
    conv (under c j) (instantiate_from j t args) (instantiate_from j t' args')) as H by (by apply (H 0)).
  clear Ht. induction Ha as [|a a' args args' Haa _ IH]; intros j H.
  - cbn. by rewrite Nat.add_0_r in H.
  - change (conv (under c j) (subst (instantiate_from (S j) t args) 0 (shift_up a j 0))
      (subst (instantiate_from (S j) t' args') 0 (shift_up a' j 0))).
    apply conv_subst; [|by apply conv_shift]. rewrite under_under, Nat.add_1_r. apply IH.
    by rewrite Nat.add_succ_comm.
Qed.

(** ** The scope of the type of a branch *)
Lemma scoped_App n f x : scoped n f → scoped n x → scoped n (App f x).
Proof. intros Hf Hx. by apply (scoped_apply_terms n f [x]); split; [|constructor]. Qed.

Lemma scoped_foldr_Pi n T ts :
  (∀ i t, ts !! i = Some t → scoped (n + i) t) → scoped (n + length ts) T →
  scoped n (foldr Pi T ts).
Proof.
  revert n. induction ts as [|t ts IH]; intros n Hts HT; cbn in *; [by rewrite Nat.add_0_r in HT|].
  rewrite scoped_children by done. cbn. repeat apply Forall_cons_2; cbn [fst snd]; [|apply IH|done].
  - by apply (Hts 0).
  - intros i u Hu. rewrite <- Nat.add_assoc. by apply (Hts (S i)).
  - by rewrite <- Nat.add_assoc.
Qed.

Lemma scoped_shift_0 n a t : scoped n t → scoped (n + a) (shift_up t a 0).
Proof. intros H. by apply scoped_shift; [lia|]. Qed.

Lemma scoped_field_domain n D f i :
  scoped n D → field_scoped n i f → scoped (n + i) (field_domain D f i).
Proof.
  intros HD Hf. unfold field_domain. destruct f as [t|t| |ts]; cbn in *.
  - apply Forall_cons in Hf as [Hf _]. cbn in Hf. rewrite Nat.add_0_r in Hf. by apply scoped_shift_0.
  - by apply Forall_cons in Hf as [Hf _].
  - by apply scoped_shift_0.
  - apply scoped_apply_terms. split; [by apply scoped_shift_0|]. by apply scoped_tagged.
Qed.

Lemma scoped_rebind n t positions depth :
  scoped (n + length positions) t → (positions ≠ [] → 0 < depth) →
  scoped (n + depth) (rebind_fields t positions depth).
Proof.
  intros Ht Hd. unfold rebind_fields. apply scoped_instantiate.
  - rewrite Forall_map, Forall_forall. intros p Hp. apply scoped_var.
    destruct positions; [by apply elem_of_nil in Hp|]. specialize (Hd ltac:(done)). lia.
  - rewrite length_map. replace (n + depth + length positions) with (n + length positions + depth) by lia.
    by apply scoped_shift; [lia|].
Qed.

Section case_type.
Context (n : nat) (data motive : Term).
Context (Hdata : scoped n data) (Hmotive : scoped n motive).

Definition domains_scoped (acc : list Term * list nat) : Prop :=
  (∀ i t, acc.1 !! i = Some t → scoped (n + i) t) ∧ domains_ok acc.

Lemma case_domain_step_scoped acc f :
  domains_scoped acc → field_scoped n (length acc.2) f →
  domains_scoped (case_domain_step data motive acc f).
Proof.
  intros [Hs Hok] Hf. split; [|by apply case_domain_step_ok].
  destruct acc as [ds ps]. unfold domains_ok in Hok. cbn [fst snd] in *.
  intros i t H. cbn [case_domain_step fst] in H. apply lookup_app_Some in H as [H|[Hi H]]; [by apply Hs|].
  replace i with (length ds + (i - length ds)) by lia. revert H. generalize (i - length ds) as j.
  intros [|j] H; cbn in H.
  - injection H as <-. rewrite Nat.add_0_r. apply scoped_rebind; [|done]. by apply scoped_field_domain.
  - destruct (recursive_indices f) as [ixs|] eqn:Er; [|by destruct j].
    destruct j as [|j]; [|done]. injection H as <-. apply scoped_App; [|apply scoped_var; lia].
    apply scoped_apply_terms. rewrite Nat.add_assoc, <- Nat.add_assoc. split; [by apply scoped_shift_0|].
    rewrite Forall_map. assert (Forall (scoped (n + length ps)) ixs) as Hixs.
    { destruct f; try discriminate Er; injection Er as <-; [constructor|]. by apply scoped_tagged. }
    eapply Forall_impl; [exact Hixs|]. intros t Ht. apply scoped_rebind; [done|lia].
Qed.

Lemma case_domains_scoped fs acc :
  domains_scoped acc → (∀ i f, fs !! i = Some f → field_scoped n (length acc.2 + i) f) →
  domains_scoped (foldl (case_domain_step data motive) acc fs).
Proof.
  revert acc. induction fs as [|f fs IH]; intros acc Ha Hf; [done|]. cbn. apply IH.
  - apply case_domain_step_scoped; [done|]. specialize (Hf 0 f eq_refl). by rewrite Nat.add_0_r in Hf.
  - intros i g Hg. destruct acc as [ds ps]. cbn. rewrite length_app, <- Nat.add_assoc.
    by apply (Hf (S i)).
Qed.

Lemma case_type_scoped index c :
  constructor_scoped n c → scoped n (induction_case_type data motive index c).
Proof.
  intros [Hf Hi]. unfold induction_case_type. rewrite case_domains_step.
  pose proof (case_domains_positions data motive (fields c) ([], [])) as Hp.
  assert (domains_scoped (foldl (case_domain_step data motive) ([], []) (fields c))) as [Hds Hok].
  { apply case_domains_scoped; [|done]. split; [done|by intros []]. }
  destruct (foldl _ _ _) as [ds ps]. unfold domains_ok in Hok. cbn [fst snd length Nat.add] in *.
  apply scoped_foldr_Pi; [done|]. apply scoped_App; [apply scoped_apply_terms; split|].
  - by apply scoped_shift_0.
  - rewrite Forall_map. eapply Forall_impl; [exact Hi|]. intros t Ht. rewrite <- Hp in Ht.
    by apply scoped_rebind.
  - rewrite scoped_children by done. cbn [children]. apply Forall_cons_2; cbn [fst snd].
    + rewrite Nat.add_0_r. by apply scoped_shift_0.
    + apply scoped_tagged. rewrite Nat.add_0_r, Forall_map, Forall_forall. intros p Hpe.
      apply scoped_var. destruct ps; [by apply elem_of_nil in Hpe|]. specialize (Hok ltac:(done)). lia.
Qed.
End case_type.

(** ** Properties *)

(** Instantiating a telescope, which the checker does one argument after
    the other with shifted arguments, is the parallel substitution of all the
    arguments; it commutes with shifting, and a term that does not mention the
    telescope is left alone. *)
Theorem instantiate_exact t args n k :
  instantiate_fields t args = inst (rev args) t ∧
  shift_up (instantiate_fields t args) n k =
    instantiate_fields (shift_up t n (k + length args)) (shift_list n k args) ∧
  instantiate_fields (shift_up t (length args) 0) args = t.
Proof. split_and!; [apply instantiate_inst|apply shift_instantiate|apply instantiate_shift]. Qed.

(** The type of a branch of an induction moves with its context: computing
    it from a shifted family, motive and constructor gives the shifted type,
    for every mix of plain, dependent and recursive fields, and it mentions
    only what the family, the motive and the constructor mention. *)
Theorem case_type_exact data motive index c n k m :
  scoped m data → scoped m motive → constructor_scoped m c →
  shift_up (induction_case_type data motive index c) n k =
    induction_case_type (shift_up data n k) (shift_up motive n k) index (shift_constructor n k c) ∧
  scoped m (induction_case_type data motive index c).
Proof. intros. split; [apply shift_case_type|by apply case_type_scoped]. Qed.

(** ** Witness *)
Definition nat_data : Term :=
  Data "Nat" (Level.Concrete (u32_of 0)) [] [Ctor [] []; Ctor [Recursive] []].

Lemma case_type_exact_witness :
  scoped 1 (Pi (shift_up nat_data 0 0)
    (Pi (App (Var 1) (Var 0)) (App (Var 2) (Construct nat_data 1 [Var 1])))) ∧
  induction_case_type nat_data (Var 0) 1 (Ctor [Recursive] []) =
    Pi nat_data (Pi (App (Var 1) (Var 0)) (App (Var 2) (Construct nat_data 1 [Var 1]))).
Proof.
  split; [|vm_compute; reflexivity].
  refine (proj2 (case_type_exact nat_data (Var 0) 1 (Ctor [Recursive] []) 0 0 1 _ _ _)).
  - vm_compute. reflexivity.
  - vm_compute. reflexivity.
  - split; [|constructor]. intros [|i] f Hf; [|by destruct i]. injection Hf as <-. constructor.
Defined.
