(* ===== verification/TypingFacts.v ===== *)
(** * What a verified certificate guarantees

    Consequences of soundness, by induction on typing derivations: terms the
    checker accepts are closed, use function extensionality only when the
    foundation grants it, and no universe is its own member. *)
From S2P Require Import Prelude Levels LevelFacts Syntax Subst Context Conversion ConvSpec Checker Typing.

(** ** Predicates that follow the structure of terms *)
Definition is_fun_ext (t : Term) : bool :=
  match t with FunExt _ _ _ _ => true | _ => false end.

(** [Q n t] is a predicate of terms under [n] binders that holds of bound
    variables, survives the undoing of a shift, and holds of a node when it
    holds of its children. *)
Class Structural (f : Foundation) (Q : nat → Term → Prop) : Prop := {
  structural_var n i : i < n → Q n (Var i);
  structural_unshift n a t : Q (n + a) (shift_up t a 0) → Q n t;
  structural_node n t : (∀ i, t ≠ Var i) →
    (is_fun_ext t = true → f = FunctionExtensionality) →
    Forall (λ c, Q (n + c.2) c.1) (children t) → Q n t
}.

Lemma depth_index_context Γ ixs : depth (index_context Γ ixs) = depth Γ + length ixs.
Proof.
  revert Γ. induction ixs as [|t ixs IH]; intros Γ; simpl; [lia|].
  rewrite IH, depth_extend. lia.
Qed.

Lemma depth_field_context Γ D i fs : depth (field_context Γ D i fs) = depth Γ + length fs.
Proof.
  revert Γ i. induction fs as [|f fs IH]; intros Γ i; simpl; [lia|].
  rewrite IH, depth_extend. lia.
Qed.

Lemma foundation_index_context Γ ixs : foundation (index_context Γ ixs) = foundation Γ.
Proof. revert Γ. induction ixs as [|t ixs IH]; intros Γ; simpl; [done|]. by rewrite IH. Qed.

Lemma foundation_field_context Γ D i fs :
  foundation (field_context Γ D i fs) = foundation Γ.
Proof. revert Γ i. induction fs as [|f fs IH]; intros Γ i; simpl; [done|]. by rewrite IH. Qed.

Lemma Forall_lookup_zip {A B} (P : B → Prop) (l : list A) (k : list B) :
  length l = length k →
  (∀ i x y, l !! i = Some x → k !! i = Some y → P y) → Forall P k.
Proof.
  intros E H. apply Forall_lookup. intros i y Hy.
  destruct (lookup_lt_is_Some_2 l i) as [x Hx].
  { rewrite E. by eapply lookup_lt_Some. }
  eauto.
Qed.

Lemma Forall_concat {A} (P : A → Prop) (ls : list (list A)) :
  Forall (Forall P) ls → Forall P (concat ls).
Proof. induction 1; simpl; [constructor|]. by apply Forall_app. Qed.

Section structural.
Context (Q : nat → Term → Prop).

Lemma Forall_same_depth n ts :
  Forall (Q n) ts → Forall (λ c, Q (n + c.2) c.1) ((λ t, (t, 0)) <$> ts).
Proof.
  intros H. apply Forall_fmap. eapply Forall_impl; [exact H|].
  intros t Ht. cbn. by rewrite Nat.add_0_r.
Qed.

Lemma structural_data_children f n name l ixs cs `{!Structural f Q} :
  let D := Data name l ixs cs in
  (∀ i t, ixs !! i = Some t → Q (n + i) t) →
  (∀ k c i g, cs !! k = Some c → fields c !! i = Some g → recursive_indices g = None →
    Q (n + i) (field_domain D g i)) →
  (∀ k c i g values, cs !! k = Some c → fields c !! i = Some g →
    recursive_indices g = Some values → Forall (Q (n + i)) values) →
  (∀ k c, cs !! k = Some c → Forall (Q (n + length (fields c))) (indices c)) →
  Forall (λ c, Q (n + c.2) c.1) (children D).
Proof.
  intros D Hixs Hplain Hrec Hind. cbn [children D]. apply Forall_app; split.
  - apply Forall_lookup. intros i [t j]. rewrite lookup_mapi_from.
    intros (u & Hu & [= -> ->])%fmap_Some. by apply Hixs.
  - apply Forall_concat, Forall_fmap, Forall_lookup. intros k c Hk.
    apply Forall_app; split.
    + apply Forall_concat, Forall_lookup. intros i l'. rewrite lookup_mapi_from.
      intros (g & Hg & ->)%fmap_Some. cbn [Nat.add].
      destruct g as [t|t| |values]; cbn [field_children].
      * repeat constructor. cbn [fst snd]. rewrite Nat.add_0_r.
        apply structural_unshift with (a := i). by apply (Hplain k c i _ Hk Hg).
      * repeat constructor. by apply (Hplain k c i _ Hk Hg).
      * constructor.
      * apply Forall_fmap. by apply (Hrec k c i _ values Hk Hg).
    + apply Forall_fmap. by apply (Hind k).
Qed.

Lemma has_type_structural Γ t T `{!Structural (foundation Γ) Q} :
  has_type Γ t T → Q (depth Γ) t.
Proof.
  intros H. remember (foundation Γ) as f eqn:Ef. revert Ef.
  induction H as
    [Γ t A B _ IH _|Γ i T Hi|Γ i v T Hi _ _|Γ l|Γ a b l m _ IHa _ IHb
    |Γ a b l m _ IHa _ IHb|Γ a b B l _ IHa _ IHb|Γ g x A B _ IHg _ IHx
    |Γ a b A F _ IHa _ IHb|Γ p A F _ IH|Γ p A F _ IH|Γ A x y l _ IHA _ IHx _ IHy
    |Γ x A _ IH|Γ mo ba s A x y l _ IHs _ IHm _ IHb|Γ mo ba s A x y l _ IHs _ IHm _ IHb
    |Γ F g h p A B l Hf _ IHF _ _ IHg _ IHh _ IHp|Γ v b A B _ IHv _ IHb
    |Γ name l ixs cs il fl D _ IHi _ _ IHp Hlr _ IHr Hlc _ IHc
    |Γ d K name l ixs cs k c args D _ IHd _ _ Hl _ IHa
    |Γ s mo cases name l ixs cs values m D _ IHs _ _ IHm Hl _ IHc];
    intros Ef; rewrite ?depth_extend, ?depth_define in *; auto;
    try (apply structural_node; [done|done|]; cbn [children];
         repeat constructor; cbn [fst snd]; rewrite ?Nat.add_0_r; auto; fail).
  - apply structural_var. by eapply lookup_lt.
  - apply structural_var. by eapply definition_under_lt.
  - apply structural_node; [done|by rewrite Ef|]. cbn [children].
    repeat constructor; cbn [fst snd]; rewrite ?Nat.add_0_r; auto.
  - apply structural_node; [done|done|]. apply (structural_data_children f (depth Γ) name l ixs cs).
    + intros i t Ht. specialize (IHi i t Ht).
      rewrite depth_index_context, foundation_index_context, length_take_le in IHi; [auto|].
      apply lookup_lt_Some in Ht. lia.
    + intros k c i g Hk Hg Er. specialize (IHp k c i g Hk Hg Er).
      rewrite depth_field_context, foundation_field_context, length_take_le in IHp; [auto|].
      apply lookup_lt_Some in Hg. lia.
    + intros k c i g vs Hk Hg Er. apply (Forall_lookup_zip _ ixs); [by eapply Hlr|].
      intros j T v HT Hv. specialize (IHr k c i g vs j T v Hk Hg Er HT Hv).
      rewrite depth_field_context, foundation_field_context, length_take_le in IHr; [auto|].
      apply lookup_lt_Some in Hg. lia.
    + intros k c Hk. apply (Forall_lookup_zip _ ixs); [by eapply Hlc|].
      intros j T v HT Hv. specialize (IHc k c j T v Hk HT Hv).
      rewrite depth_field_context, foundation_field_context in IHc. auto.
  - apply structural_node; [done|done|]. cbn [children]. constructor.
    { cbn [fst snd]. rewrite Nat.add_0_r. auto. }
    apply Forall_same_depth.
    apply (Forall_lookup_zip _ (fields c)); eauto.
  - apply structural_node; [done|done|]. cbn [children].
    do 2 (constructor; [cbn [fst snd]; rewrite Nat.add_0_r; auto|]).
    apply Forall_same_depth.
    apply (Forall_lookup_zip _ cs); eauto.
Qed.
End structural.

(** ** Scoping, and terms without function extensionality *)
#[export] Instance scoped_structural f : Structural f scoped.
Proof.
  split.
  - intros. by apply scoped_var.
  - intros n a t. by apply scoped_shift, le_0_n.
  - intros n t Hv _. by apply scoped_children.
Qed.

(** No node of the term is a use of function extensionality. *)
Inductive fun_ext_free : Term → Prop :=
| fun_ext_free_intro t :
    is_fun_ext t = false → (∀ c, c ∈ children t → fun_ext_free c.1) → fun_ext_free t.

Lemma fun_ext_free_children t :
  fun_ext_free t ↔ is_fun_ext t = false ∧ Forall (λ c, fun_ext_free c.1) (children t).
Proof.
  rewrite Forall_forall. split; [by intros [t' H1 H2]|]. intros [H1 H2]. by constructor.
Qed.

Lemma is_fun_ext_shift t a c : is_fun_ext (shift_up t a c) = is_fun_ext t.
Proof. destruct t; simpl; by repeat case_match. Qed.

Lemma fun_ext_free_unshift t a c : fun_ext_free (shift_up t a c) → fun_ext_free t.
Proof.
  destruct (decide (a = 0)) as [->|Ha]; [by rewrite shift_up_zero|].
  revert c. induction t as [t IH] using term_children_ind. intros c.
  destruct (var_or_not t) as [[i ->]|Hv].
  { intros _. by apply fun_ext_free_children. }
  rewrite (fun_ext_free_children (shift_up _ _ _)), is_fun_ext_shift, shift_up_children by done.
  intros [H1 H2]. apply fun_ext_free_children. split; [done|].
  rewrite children_map_children, Forall_fmap in H2.
  eapply Forall_impl; [exact (proj2 (Forall_and _ _) (conj IH H2))|].
  intros [u n] [Hu Hs]. by eapply Hu.
Qed.

#[export] Instance fun_ext_free_structural :
  Structural Intensional (λ _ t, fun_ext_free t).
Proof.
  split.
  - intros n i _. apply fun_ext_free_children. by repeat constructor.
  - intros n a t. apply fun_ext_free_unshift.
  - intros n t Hv Hf H. apply fun_ext_free_children. split; [|done].
    destruct (is_fun_ext t); [|done]. discriminate (Hf eq_refl).
Qed.

(** ** Universes *)
Lemma whnf_universe F c l u : whnf F c (Universe l) = Ok u → u = Universe l.
Proof.
  intros (n & H & _)%whnf_Ok. by inversion H.
Qed.

Lemma def_eq_universe F gas c l m :
  def_eq F gas c (Universe l) (Universe m) = Ok true → level_equiv l m.
Proof.
  destruct gas as [|gas]; [done|]. cbn [def_eq].
  destruct (term_eqb _ _) eqn:E; [apply term_eqb_eq in E as [= ->]; by intros _|].
  intros (a & ->%whnf_universe & (b & ->%whnf_universe & H)%bind_Ok)%bind_Ok.
  cbn [def_eq_whnf] in H. injection H as H. by apply level_eq_equiv.
Qed.

Lemma verified_universe F cgas gas l m md f :
  verify_with_foundation F cgas gas (Cert (Universe l) (Universe m) md) f = Ok tt →
  ∀ ρ, eval ρ m = (eval ρ l + 1)%N.
Proof.
  unfold verify_with_foundation. cbn [term claimed_type].
  intros (K & _ & (lv & _ & H)%bind_Ok)%bind_Ok. destruct lv; [|done].
  destruct gas as [|gas]; [done|]. cbn [check_against check_against_step] in H.
  unfold check_shape in H. apply bind_Ok in H as (W & ->%whnf_universe & H).
  apply bind_Ok in H as (A & HA & (same & Hs & H)%bind_Ok).
  destruct same; [|done]. destruct gas as [|gas]; [done|].
  injection HA as <-. apply def_eq_universe in Hs. intros ρ.
  by rewrite <- Hs, eval_successor, normalize_eval.
Qed.

(** ** Properties *)

(** Soundness of the checker: a type it infers, in any context and at any
    fuel, is derivable in the declarative system, and so is every judgment
    [check_against] accepts. *)
Theorem infer_check_sound F cgas gas Γ t T :
  (infer F cgas gas Γ t = Ok T → has_type Γ t T) ∧
  (check_against F cgas gas Γ t T = Ok tt → has_type Γ t T).
Proof. apply checker_sound. Qed.

(** C3. A certificate the kernel verifies is a proof: its claimed type is a
    type of some universe and its term inhabits that type, in the empty
    context of the requested foundation. *)
Theorem verify_sound F cgas gas cert f u :
  verify_with_foundation F cgas gas cert f = Ok u →
  ∃ l, has_type (with_foundation f) (claimed_type cert) (Universe l) ∧
       has_type (with_foundation f) (term cert) (claimed_type cert).
Proof. apply verified_typed. Qed.

(** A verified certificate is closed: neither its term nor its claimed
    type has a variable that no binder of its own binds, inside inductive
    declarations too. *)
Theorem verified_closed F cgas gas cert f u :
  verify_with_foundation F cgas gas cert f = Ok u →
  scoped 0 (term cert) ∧ scoped 0 (claimed_type cert).
Proof.
  intros (l & HT & Ht)%verified_typed.
  split; [exact (has_type_structural scoped _ _ _ Ht)|exact (has_type_structural scoped _ _ _ HT)].
Qed.

(** The intensional foundation really excludes function extensionality: a
    certificate [verify] accepts uses the [FunExt] constructor nowhere, neither
    in its term nor in its claimed type. *)
Theorem verified_intensional F cgas gas cert u :
  verify F cgas gas cert = Ok u → fun_ext_free (term cert) ∧ fun_ext_free (claimed_type cert).
Proof.
  intros (l & HT & Ht)%verified_typed.
  split; [exact (has_type_structural (λ _, fun_ext_free) _ _ _ Ht)
         |exact (has_type_structural (λ _, fun_ext_free) _ _ _ HT)].
Qed.

(** There is no type in type: a verified certificate that claims one
    universe as a member of another puts it in its exact successor, under
    every assignment of its variables, so no universe is a member of itself
    and membership is never mutual. *)
Theorem no_type_in_type F cgas gas l m md f :
  verify_with_foundation F cgas gas (Cert (Universe l) (Universe m) md) f = Ok tt →
  (∀ ρ, eval ρ m = (eval ρ l + 1)%N) ∧
  (∀ F' cgas' gas' md' f',
    verify_with_foundation F' cgas' gas' (Cert (Universe m) (Universe l) md') f' ≠ Ok tt).
Proof.
  intros H. pose proof (verified_universe _ _ _ _ _ _ _ H) as E. split; [done|].
  intros F' cgas' gas' md' f' H'. pose proof (verified_universe _ _ _ _ _ _ _ H') as E'.
  specialize (E (λ _, 0%N)). specialize (E' (λ _, 0%N)). lia.
Qed.

(** The three-way maximum of [LevelFacts]. *)
Definition three_way : Level := Level.Max (Level.Succ lu) (Level.Max (Level.Succ lv) lw).

(** The checker is incomplete for the universe rule: with a three-way
    maximum as its level, the instance [Universe l : Universe (l + 1)] of that
    rule is derivable but refused with a type mismatch, because the level is
    normalised twice on one side and [normalize] is not idempotent. *)
Theorem universe_rule_incomplete cgas gas :
  has_type (with_foundation Intensional) (Universe three_way) (Universe (Level.Succ three_way)) ∧
  ∃ expected actual,
    verify WHNF_FUEL_CEILING (S cgas) (S (S gas))
      (Cert (Universe three_way) (Universe (Level.Succ three_way)) []) =
      Err (TypeMismatch expected actual).
Proof.
  split; [apply T_Univ|]. do 2 eexists. vm_compute. reflexivity.
Qed.

(** ** Witnesses *)

(** The polymorphic identity, [λ A x. x : Π (A : Type 0) (x : A). A]. *)
Definition type0 : Term := Universe (Level.Concrete (u32_of 0)).
Definition identity_cert : Certificate :=
  Cert (Lam type0 (Lam (Var 0) (Var 0))) (Pi type0 (Pi (Var 0) (Var 1))) [].

Lemma infer_check_sound_witness :
  has_type (with_foundation Intensional) (Universe (Level.Var "u"))
    (Universe (Level.Succ (Level.Var "u"))).
Proof.
  apply (proj1 (infer_check_sound 10 10 10 _ _ _)). vm_compute. reflexivity.
Defined.

Lemma verify_sound_witness :
  ∃ l, has_type (with_foundation Intensional) (claimed_type identity_cert) (Universe l) ∧
       has_type (with_foundation Intensional) (term identity_cert) (claimed_type identity_cert).
Proof.
  apply (verify_sound WHNF_FUEL_CEILING 10 10 identity_cert Intensional tt).
  vm_compute. reflexivity.
Defined.

Lemma verified_closed_witness :
  scoped 0 (term identity_cert) ∧ scoped 0 (claimed_type identity_cert).
Proof.
  apply (verified_closed WHNF_FUEL_CEILING 10 10 identity_cert Intensional tt).
  vm_compute. reflexivity.
Defined.

Lemma verified_intensional_witness :
  fun_ext_free (term identity_cert) ∧ fun_ext_free (claimed_type identity_cert).
Proof.
  apply (verified_intensional WHNF_FUEL_CEILING 10 10 identity_cert tt).
  vm_compute. reflexivity.
Defined.

Lemma no_type_in_type_witness :
  verify 100 10 10 (Cert (Universe (Level.Var "u")) (Universe (Level.Succ (Level.Var "u"))) [])
    = Ok tt ∧
  (∀ ρ, eval ρ (Level.Succ (Level.Var "u")) = (eval ρ (Level.Var "u") + 1)%N).
Proof.
  split; [vm_compute; reflexivity|].
  apply (no_type_in_type 100 10 10 _ _ [] Intensional). vm_compute. reflexivity.
Defined.
