(* ===== verification/Stability.v ===== *)
(** * Verdicts do not depend on the resources

    The checker stops early when head reduction runs out of fuel, and the model
    also when one of its recursion counters does.  Neither is a verdict.  Every
    other result is stable: with more fuel and more gas it stays the same.
    [le] orders outcomes by this information, and every operation of the
    checker is monotone for it. *)
From S2P Require Import Prelude Levels Syntax Subst Context Conversion ConvSpec Checker.

Open Scope verum_scope.

(** ** The information order *)
Definition definite {A} (m : result A) : Prop :=
  match m with Gas _ | Err FuelExhausted => False | _ => True end.

#[export] Instance definite_dec {A} (m : result A) : Decision (definite m).
Proof. destruct m as [|[]|]; unfold definite; apply _. Defined.

Definition le {A} (m m' : result A) : Prop := definite m → m' = m.

#[export] Instance le_preorder {A} : PreOrder (@le A).
Proof.
  split; [by intros m _|]. intros m n p Hmn Hnp Hm.
  rewrite (Hnp ltac:(by rewrite (Hmn Hm))). auto.
Qed.

Lemma le_bind {A B} (m m' : result A) (f f' : A → result B) :
  le m m' → (∀ a, m = Ok a → le (f a) (f' a)) → le (m ≫= f) (m' ≫= f').
Proof.
  intros Hm Hf. destruct m as [a|e|k].
  - rewrite (Hm I). by apply Hf.
  - intros H. rewrite (Hm H). done.
  - by intros [].
Qed.

Lemma le_gas {A} k (m : result A) : le (Gas k) m.
Proof. by intros []. Qed.

Create HintDb le discriminated.
#[export] Hint Resolve le_gas : le.

(** Monotonicity follows the structure of the code: binds, case analysis on
    values both sides share, and the hints for the operations. *)
Ltac le_step :=
  match goal with
  | |- le ?m ?m => reflexivity
  | |- le (mbind _ _) (mbind _ _) => apply le_bind; [|intros ? _]
  | |- le (if ?b then _ else _) (if ?b then _ else _) => destruct b
  | |- le (match ?x with _ => _ end) (match ?x with _ => _ end) => destruct x
  | |- _ => solve [eauto with le nocore]
  end.
Ltac le_solve := repeat le_step.

Lemma le_all_checked {T} (f f' : T → result bool) l :
  (∀ x, le (f x) (f' x)) → le (all_checked f l) (all_checked f' l).
Proof.
  intros H. induction l as [|x l IH]; cbn [all_checked]; [done|].
  apply le_bind; [done|]. intros [] _; [done|reflexivity].
Qed.

Lemma le_each_checked {T} (f f' : T → result unit) l :
  (∀ x, le (f x) (f' x)) → le (each_checked f l) (each_checked f' l).
Proof.
  intros H. induction l as [|x l IH]; cbn [each_checked]; [done|].
  by apply le_bind.
Qed.

Lemma whnf_mono F F' c t : (F <= F')%N → le (whnf F c t) (whnf F' c t).
Proof.
  intros HF Hd. destruct (whnf F c t) as [u|e|k] eqn:E.
  - by eapply whnf_ceiling_mono.
  - apply whnf_Err in E as ->. done.
  - done.
Qed.

Lemma expect_universe_mono F F' c t :
  (F <= F')%N → le (expect_universe F c t) (expect_universe F' c t).
Proof. intros HF. apply le_bind; [by apply whnf_mono|]. reflexivity. Qed.

(** ** Comparison *)
Section comparison.
Context (F F' : N) (HF : (F <= F')%N).
Context (rec rec' : Conversion → Term → Term → result bool).
Context (Hrec : ∀ c a b, le (rec c a b) (rec' c a b)).

Lemma terms_def_eq_mono c l k : le (terms_def_eq rec c l k) (terms_def_eq rec' c l k).
Proof.
  unfold terms_def_eq. destruct (_ =? _); [|reflexivity].
  apply le_all_checked. by intros [].
Qed.

Lemma field_def_eq_mono c i f g : le (field_def_eq rec c i f g) (field_def_eq rec' c i f g).
Proof. unfold field_def_eq. repeat case_match; try reflexivity; auto using terms_def_eq_mono. Qed.

Lemma constructor_def_eq_mono c x y :
  le (constructor_def_eq rec c x y) (constructor_def_eq rec' c x y).
Proof.
  unfold constructor_def_eq. repeat (apply le_bind; [|intros [] _; [|reflexivity]]).
  - reflexivity.
  - apply terms_def_eq_mono.
  - apply le_all_checked. intros (i & f & g). apply field_def_eq_mono.
Qed.

Lemma eta_match_mono c b o : le (eta_match F rec c b o) (eta_match F' rec' c b o).
Proof using HF Hrec.
  unfold eta_match. apply le_bind; [by apply whnf_mono|]. intros u _.
  destruct u; try reflexivity. apply le_bind; [by apply whnf_mono|]. intros v _.
  repeat case_match; try reflexivity. apply Hrec.
Qed.

Lemma def_eq_whnf_mono c a b : le (def_eq_whnf F rec c a b) (def_eq_whnf F' rec' c a b).
Proof using HF Hrec.
  destruct a, b; cbn [def_eq_whnf]; try reflexivity; try apply Hrec; try apply eta_match_mono;
    repeat (apply le_bind; [|intros [] _; [|reflexivity]]);
    try reflexivity; try apply Hrec; try apply terms_def_eq_mono;
    apply le_all_checked.
  - intros (? & ? & ?). apply Hrec.
  - intros []. apply constructor_def_eq_mono.
Qed.
End comparison.

Lemma def_eq_mono F F' g g' c a b :
  (F <= F')%N → g ≤ g' → le (def_eq F g c a b) (def_eq F' g' c a b).
Proof.
  intros HF. revert g' c a b. induction g as [|g IH]; intros [|g'] c a b Hg;
    try lia; cbn [def_eq]; try apply le_gas.
  destruct (term_eqb a b); [reflexivity|].
  do 2 (apply le_bind; [by apply whnf_mono|]; intros ? _).
  apply def_eq_whnf_mono; [done|]. intros. apply IH. lia.
Qed.

(** ** The checker *)
Section checker.
Context (F F' : N) (HF : (F <= F')%N) (cgas cgas' : nat) (Hcgas : cgas ≤ cgas').

Lemma ctx_whnf_mono Γ t : le (ctx_whnf F Γ t) (ctx_whnf F' Γ t).
Proof using HF. by apply whnf_mono. Qed.
Lemma expect_universe_mono' c t : le (expect_universe F c t) (expect_universe F' c t).
Proof using HF. by apply expect_universe_mono. Qed.
Lemma under_whnf_mono c t : le (whnf F c t) (whnf F' c t).
Proof using HF. by apply whnf_mono. Qed.
Lemma ctx_def_eq_mono Γ a b : le (ctx_def_eq F cgas Γ a b) (ctx_def_eq F' cgas' Γ a b).
Proof using HF Hcgas. by apply def_eq_mono. Qed.
Lemma under_def_eq_mono Γ n a b :
  le (under_def_eq F cgas Γ n a b) (under_def_eq F' cgas' Γ n a b).
Proof using HF Hcgas. by apply def_eq_mono. Qed.
Lemma expect_type_mono Γ k t : le (expect_type F Γ k t) (expect_type F' Γ k t).
Proof using HF. apply le_bind; [by apply expect_universe_mono|reflexivity]. Qed.
Hint Resolve ctx_whnf_mono under_whnf_mono expect_universe_mono' ctx_def_eq_mono
  under_def_eq_mono expect_type_mono : le.

Lemma split_family_loop_mono gas Γ t vs :
  le (split_family_loop F gas Γ t vs) (split_family_loop F' gas Γ t vs).
Proof using HF.
  revert t vs. induction gas as [|gas IH]; intros t vs; cbn [split_family_loop];
    [reflexivity|]. destruct t; le_solve; apply IH.
Qed.

Lemma split_family_mono Γ t : le (split_family F Γ t) (split_family F' Γ t).
Proof using HF. apply le_bind; [apply split_family_loop_mono|]. intros [] _. reflexivity. Qed.
Hint Resolve split_family_mono : le.

Section open_recursion.
Context (I I' : Context → Term → result Term).
Context (C C' : Context → Term → Term → result unit).
Context (HI : ∀ Γ t, le (I Γ t) (I' Γ t)).
Context (HC : ∀ Γ t T, le (C Γ t T) (C' Γ t T)).
Hint Resolve HI HC : le.

Lemma check_domain_mono Γ t T : le (check_domain C Γ t T) (check_domain C' Γ t T).
Proof using HC.
  unfold check_domain, le. intros Hd.
  assert (C' Γ t T = C Γ t T) as ->; [|done]. apply HC.
  by destruct (C Γ t T) as [|[]|].
Qed.

Lemma check_indices_mono Γ ixs vs n :
  le (check_indices C Γ ixs vs n) (check_indices C' Γ ixs vs n).
Proof using HC.
  unfold check_indices. le_solve; apply le_each_checked; intros (? & ? & ?); apply HC.
Qed.

Lemma infer_type_mono Γ t : le (infer_type F I Γ t) (infer_type F' I' Γ t).
Proof using HF HI. unfold infer_type. le_solve. Qed.
Hint Resolve check_domain_mono check_indices_mono infer_type_mono : le.

Lemma infer_index_types_mono Γ ixs :
  le (infer_index_types F I Γ ixs) (infer_index_types F' I' Γ ixs).
Proof using HF HI.
  revert Γ. induction ixs as [|t ixs IH]; intros Γ; cbn [infer_index_types]; le_solve;
  apply IH.
Qed.

Lemma check_fields_mono D l ixs Γ i fs :
  le (check_fields F I C D l ixs Γ i fs) (check_fields F' I' C' D l ixs Γ i fs).
Proof using HF HI HC.
  revert Γ i. induction fs as [|f fs IH]; intros Γ i; cbn [check_fields]; le_solve;
  apply IH.
Qed.
Hint Resolve infer_index_types_mono check_fields_mono : le.

Lemma check_constructor_mono Γ D l ixs c :
  le (check_constructor F I C Γ D l ixs c) (check_constructor F' I' C' Γ D l ixs c).
Proof using HF HI HC. unfold check_constructor. le_solve. Qed.

Lemma motive_indices_mono Γ i k ixs :
  le (motive_indices F cgas Γ i k ixs) (motive_indices F' cgas' Γ i k ixs).
Proof using HF Hcgas.
  revert i k. induction ixs as [|t ixs IH]; intros i k; cbn [motive_indices]; le_solve;
  apply IH.
Qed.

Lemma motive_family_mono Γ D ixs k :
  le (motive_family F cgas Γ D ixs k) (motive_family F' cgas' Γ D ixs k).
Proof using HF Hcgas. unfold motive_family. le_solve. Qed.

Lemma path_motive_mono Γ mo a x b dep :
  le (path_motive F cgas Γ mo a x b dep) (path_motive F' cgas' Γ mo a x b dep).
Proof using HF Hcgas. unfold path_motive. le_solve. Qed.
Hint Resolve check_constructor_mono motive_indices_mono motive_family_mono
  path_motive_mono : le.

Lemma infer_data_mono Γ n l ixs cs :
  le (infer_data F I C Γ n l ixs cs) (infer_data F' I' C' Γ n l ixs cs).
Proof using HF HI HC.
  unfold infer_data. le_solve; apply le_each_checked; intros c; le_solve.
Qed.

Lemma infer_construct_mono Γ d k args :
  le (infer_construct F I C Γ d k args) (infer_construct F' I' C' Γ d k args).
Proof using HF HI HC.
  unfold infer_construct. le_solve; apply le_each_checked; intros (? & ? & ?); apply HC.
Qed.

Lemma infer_induct_mono Γ s mo cases :
  le (infer_induct F cgas I C Γ s mo cases) (infer_induct F' cgas' I' C' Γ s mo cases).
Proof using HF Hcgas HI HC.
  unfold infer_induct. le_solve; apply le_each_checked; intros (? & ? & ?); apply HC.
Qed.

Lemma infer_identity_elim_mono Γ dep mo base s :
  le (infer_identity_elim F cgas I C Γ dep mo base s)
     (infer_identity_elim F' cgas' I' C' Γ dep mo base s).
Proof using HF Hcgas HI HC. unfold infer_identity_elim. le_solve. Qed.

Lemma infer_inner_mono Γ t :
  le (infer_inner F cgas I C Γ t) (infer_inner F' cgas' I' C' Γ t).
Proof using HF Hcgas HI HC.
  destruct t; cbn [infer_inner]; unfold infer_let, infer_binder, infer_lam, infer_app,
    infer_pair, infer_fst, infer_snd, infer_id, infer_refl, infer_fun_ext;
    auto using infer_data_mono, infer_construct_mono, infer_induct_mono,
      infer_identity_elim_mono; le_solve.
Qed.

Lemma check_shape_mono Γ t T :
  le (check_shape F cgas I C Γ t T) (check_shape F' cgas' I' C' Γ t T).
Proof using HF Hcgas HI HC.
  assert (le (check_inferred F cgas I Γ t T) (check_inferred F' cgas' I' Γ t T)) as Hp.
  { unfold check_inferred. le_solve. }
  unfold check_shape. apply le_bind; [apply ctx_whnf_mono|]. intros W _.
  destruct t, W; try exact Hp; le_solve.
Qed.

Lemma check_against_step_mono Γ t T :
  le (check_against_step F cgas I C Γ t T) (check_against_step F' cgas' I' C' Γ t T).
Proof using HF Hcgas HI HC.
  destruct t; try apply check_shape_mono; cbn [check_against_step]; le_solve;
  apply check_shape_mono.
Qed.
End open_recursion.
End checker.

Lemma checker_mono F F' cgas cgas' gas gas' Γ t T :
  (F <= F')%N → cgas ≤ cgas' → gas ≤ gas' →
  le (infer F cgas gas Γ t) (infer F' cgas' gas' Γ t) ∧
  le (check_against F cgas gas Γ t T) (check_against F' cgas' gas' Γ t T).
Proof.
  intros HF Hc. revert gas' Γ t T.
  induction gas as [|gas IH]; intros [|gas'] Γ t T Hg; try lia;
    cbn [infer check_against]; try (split; apply le_gas).
  assert (∀ Γ t, le (infer F cgas gas Γ t) (infer F' cgas' gas' Γ t)) as HI.
  { intros Γ' t'. apply (IH gas' Γ' t' t'). lia. }
  assert (∀ Γ t T, le (check_against F cgas gas Γ t T) (check_against F' cgas' gas' Γ t T)) as HC.
  { intros. apply IH. lia. }
  split.
  - destruct t; try reflexivity; by apply infer_inner_mono.
  - by apply check_against_step_mono.
Qed.

Lemma verify_mono F F' cgas cgas' gas gas' cert f :
  (F <= F')%N → cgas ≤ cgas' → gas ≤ gas' →
  le (verify_with_foundation F cgas gas cert f) (verify_with_foundation F' cgas' gas' cert f).
Proof.
  intros HF Hc Hg. unfold verify_with_foundation.
  apply le_bind; [by apply (checker_mono _ _ _ _ _ _ _ _ (claimed_type cert))|]. intros K _.
  apply le_bind; [by apply expect_universe_mono|]. intros [l|] _; [|reflexivity].
  by apply checker_mono.
Qed.

(** ** Properties *)

(** C34. A verdict on a certificate does not depend on the resources: once the
    kernel answers at all, acceptance or a type error, it gives the same answer
    with any larger reduction budget or recursion depth, and two runs with
    unrelated budgets never answer differently. *)
Theorem verdict_stable F cgas gas cert f :
  let r := verify_with_foundation F cgas gas cert f in
  definite r →
  (∀ F' cgas' gas', (F <= F')%N → cgas ≤ cgas' → gas ≤ gas' →
    verify_with_foundation F' cgas' gas' cert f = r) ∧
  (∀ F' cgas' gas',
    let r' := verify_with_foundation F' cgas' gas' cert f in definite r' → r' = r).
Proof.
  cbv zeta. intros Hr. split.
  - intros F' cgas' gas' HF Hc Hg. exact (verify_mono _ _ _ _ _ _ cert f HF Hc Hg Hr).
  - intros F' cgas' gas' Hr'.
    rewrite <- (verify_mono F (N.max F F') cgas (max cgas cgas') gas (max gas gas') cert f)
      by (done || lia).
    symmetry. apply verify_mono; [lia..|done].
Qed.

(** ** Witness *)
Lemma verdict_stable_witness :
  verify WHNF_FUEL_CEILING 50 50
    (Cert (Fst (Pair (Universe (Level.Var "u")) (Universe (Level.Var "v"))))
       (Universe (Level.Succ (Level.Var "u"))) []) = Ok tt.
Proof.
  apply (proj1 (verdict_stable 20 9 9
    (Cert (Fst (Pair (Universe (Level.Var "u")) (Universe (Level.Var "v"))))
       (Universe (Level.Succ (Level.Var "u"))) []) Intensional I)); vm_compute; try lia; congruence.
Defined.
