(* ===== verification/Termination.v ===== *)
(** * The recursion of the checker terminates

    [infer] and [check_against] recurse on subterms and on the definitions of
    variables, so their depth is bounded by a weight of the term that counts
    every unfolding of its transparent definitions.  [split_family] strips
    applications from a term in normal form, so it stops too.  What remains is
    the comparison of reducts, which is not bounded by the terms. *)
From S2P Require Import Prelude Levels Syntax Subst Context Conversion ConvSpec Checker Stability.

Open Scope verum_scope.

(** ** The weight of a term under weights for its free variables *)
Definition wenv := nat → nat.
Definition wunder (n : nat) (e : wenv) : wenv := λ i, if i <? n then 0 else e (i - n).
Definition wpush (w : nat) (e : wenv) : wenv :=
  λ i, match i with 0 => w | S i => e i end.

Fixpoint weight (e : wenv) (t : Term) : nat :=
  S match t with
    | Var i => e i
    | Let v b => weight e v + weight (wpush (weight e v) e) b
    | _ => sum_children (λ n c, weight (wunder n e) c) t
    end.

Definition is_let (t : Term) : bool := match t with Let _ _ => true | _ => false end.

Lemma weight_node e t :
  (∀ i, t ≠ Var i) → is_let t = false →
  weight e t = S (total (λ n c, weight (wunder n e) c) (children t)).
Proof.
  intros Hv Hl. rewrite <- sum_children_total. destruct t; try done. by destruct (Hv i).
Qed.

(** Weights move with a shift. *)
Definition moved (c a : nat) (e e' : wenv) : Prop :=
  ∀ i, e' (if c <=? i then i + a else i) = e i.

Lemma moved_under c a n e e' :
  moved c a e e' → moved (c + n) a (wunder n e) (wunder n e').
Proof.
  intros H i. unfold wunder. destruct (Nat.leb_spec (c + n) i);
    repeat match goal with |- context [Nat.ltb ?a ?b] => destruct (Nat.ltb_spec a b) end;
    try lia.
  - rewrite <- (H (i - n)). destruct (Nat.leb_spec c (i - n)); [|lia]. f_equal. lia.
  - rewrite <- (H (i - n)). destruct (Nat.leb_spec c (i - n)); [lia|]. f_equal.
Qed.

Lemma moved_push c a w e e' : moved c a e e' → moved (S c) a (wpush w e) (wpush w e').
Proof.
  intros H [|i]; [done|]. cbn. rewrite <- (H i). by destruct (c <=? i).
Qed.

Lemma wunder_0 e i : wunder 0 e i = e i.
Proof. unfold wunder. simpl. f_equal. lia. Qed.

(** Every term is a variable, a [Let], or summed over its children. *)
Lemma term_shape t :
  (∃ i, t = Var i) ∨ (∃ v b, t = Let v b) ∨ ((∀ i, t ≠ Var i) ∧ is_let t = false).
Proof. destruct t; naive_solver. Qed.

Lemma weight_ext t e e' : (∀ i, e i = e' i) → weight e t = weight e' t.
Proof.
  revert e e'. induction t as [t IH] using term_children_ind. intros e e' H.
  destruct (term_shape t) as [[i ->]|[(v & b & ->)|[Hv Hl]]].
  - cbn. by rewrite H.
  - apply Forall_cons in IH as [Hv [Hb _]%Forall_cons]. cbn in *.
    rewrite (Hv e e') by done. do 2 f_equal. apply Hb. intros [|i]; [done|]. apply H.
  - rewrite !weight_node by done. f_equal. apply total_ext. eapply Forall_impl; [exact IH|].
    intros [c n] Hc. apply Hc. intros i. unfold wunder. by rewrite H.
Qed.

Lemma weight_shift t a c e e' : moved c a e e' → weight e' (shift_up t a c) = weight e t.
Proof.
  destruct (decide (a = 0)) as [->|Ha].
  { intros H. rewrite shift_up_zero. apply weight_ext. intros i. rewrite <- (H i).
    destruct (c <=? i); f_equal; lia. }
  revert c e e'. induction t as [t IH] using term_children_ind. intros c e e' H.
  destruct (term_shape t) as [[i ->]|[(v & b & ->)|[Hv Hl]]].
  - destruct a; [done|]. specialize (H i). cbn. destruct (c <=? i); cbn; by rewrite H.
  - apply Forall_cons in IH as [Hv [Hb _]%Forall_cons]. cbn in Hv, Hb.
    rewrite shift_up_children by done. cbn. rewrite Nat.add_0_r, (Hv c e e') by done.
    do 2 f_equal. apply Hb. rewrite Nat.add_1_r. by apply moved_push.
  - assert (∀ g, (∀ i, map_children g t ≠ Var i) ∧ is_let (map_children g t) = false) as Hg.
    { intros g. split; [intros i E%children_not_var; naive_solver|]. by destruct t. }
    rewrite shift_up_children, !weight_node by (done || apply Hg). f_equal.
    rewrite children_map_children. unfold total. rewrite <- list_fmap_compose.
    f_equal. apply Forall_fmap_ext_1. eapply Forall_impl; [exact IH|].
    intros [u n] Hu. cbn. apply Hu. by apply moved_under.
Qed.

(** ** Outcomes that only the comparison can leave open *)
Definition safe {A} (m : result A) : Prop := ∀ k, m = Gas k → k = ConversionGas.

Lemma safe_bind {A B} (m : result A) (f : A → result B) :
  safe m → (∀ a, m = Ok a → safe (f a)) → safe (m ≫= f).
Proof. intros Hm Hf k [H|(a & Ha & H)]%bind_Gas; [by apply Hm|by eapply Hf]. Qed.

Lemma safe_Ok {A} (a : A) : safe (Ok a : result A).
Proof. done. Qed.

Lemma safe_Err {A} e : safe (Err e : result A).
Proof. done. Qed.

Lemma safe_ok_or {A} (o : option A) e : safe (ok_or o e : result A).
Proof. by destruct o. Qed.

Lemma safe_whnf F c t : safe (whnf F c t).
Proof. intros k H. by apply whnf_no_gas in H. Qed.

Lemma safe_expect_universe F c t : safe (expect_universe F c t).
Proof. apply safe_bind; [apply safe_whnf|done]. Qed.

Lemma safe_expect_type F Γ k t : safe (expect_type F Γ k t).
Proof. apply safe_bind; [apply safe_expect_universe|]. intros. apply safe_ok_or. Qed.

Lemma safe_each_checked {T} (f : T → result unit) l :
  (∀ x, x ∈ l → safe (f x)) → safe (each_checked f l).
Proof.
  induction l as [|x l IH]; intros H; cbn [each_checked]; [done|].
  apply safe_bind; [apply H; by left|]. intros _ _. apply IH. intros y Hy. apply H. by right.
Qed.

Lemma safe_all_checked {T} (f : T → result bool) l :
  (∀ x, safe (f x)) → safe (all_checked f l).
Proof.
  intros H. induction l as [|x l IH]; cbn [all_checked]; [done|].
  apply safe_bind; [done|]. by intros [] _.
Qed.

Create HintDb safe discriminated.
#[export] Hint Resolve safe_Ok safe_Err safe_ok_or safe_whnf safe_expect_universe
  safe_expect_type : safe.

Ltac safe_step :=
  match goal with
  | |- safe (mbind _ _) => apply safe_bind; [|intros ? ?]
  | |- safe (if ?b then _ else _) => destruct b
  | |- safe (match ?x with _ => _ end) => destruct x
  | |- _ => solve [eauto with safe nocore]
  end.
Ltac safe_solve := repeat safe_step.

(** The comparison leaves no other counter open. *)
Section comparison.
Context (F : N) (rec : Conversion → Term → Term → result bool).
Context (Hrec : ∀ c a b, safe (rec c a b)).
Hint Resolve Hrec : safe.

Lemma safe_terms_def_eq c l k : safe (terms_def_eq rec c l k).
Proof using Hrec. unfold terms_def_eq. safe_solve. apply safe_all_checked. by intros []. Qed.
Hint Resolve safe_terms_def_eq : safe.

Lemma safe_def_eq_whnf c a b : safe (def_eq_whnf F rec c a b).
Proof using Hrec.
  assert (∀ c b o, safe (eta_match F rec c b o)) as Heta
    by (intros; unfold eta_match; safe_solve).
  assert (∀ c i f g, safe (field_def_eq rec c i f g)) as Hfield
    by (intros; unfold field_def_eq; safe_solve).
  assert (∀ c x y, safe (constructor_def_eq rec c x y)) as Hctor.
  { intros. unfold constructor_def_eq. safe_solve.
    apply safe_all_checked. intros (? & ? & ?). apply Hfield. }
  destruct a, b; cbn [def_eq_whnf]; try apply Heta; safe_solve;
    apply safe_all_checked.
  - intros (? & ? & ?). apply Hrec.
  - intros []. apply Hctor.
Qed.
End comparison.

Lemma safe_def_eq F g c a b : safe (def_eq F g c a b).
Proof.
  revert c a b. induction g as [|g IH]; intros c a b; cbn [def_eq].
  { by intros k [= <-]. }
  safe_solve. by apply safe_def_eq_whnf.
Qed.

(** Splitting a family: the term is a weak head normal form, and so is the
    head of an application in normal form. *)
Lemma whnf_run_app_head c f x n :
  whnf_run c (App f x) n (App f x) → ∃ m, whnf_run c f m f.
Proof.
  intros H. inversion H as [| | |? ? a b n1 m1 ? Hf Hb|? ? f' n1 Hf Hl| | | | | | | | | | | |];
    subst; try done.
  - exfalso. destruct (whnf_run_normal _ _ _ _ Hb) as (m' & Hm' & Hle).
    pose proof (whnf_run_det _ _ _ _ _ _ H Hm') as [E _].
    pose proof (whnf_run_pos _ _ _ _ Hf). lia.
  - eauto.
Qed.

Lemma safe_split_family F Γ t n : whnf_run (conversion Γ) t n t → safe (split_family F Γ t).
Proof.
  intros H. unfold split_family. apply safe_bind; [|intros []; done].
  assert (∀ gas t vs n, whnf_run (conversion Γ) t n t → spine t < gas →
    safe (split_family_loop F gas Γ t vs)) as Hloop; [|eapply Hloop; [done|lia]].
  clear. induction gas as [|gas IH]; intros t vs n Hn Hg; [lia|].
  destruct t; cbn [split_family_loop]; try apply safe_Ok.
  apply safe_bind; [apply safe_whnf|]. intros u (m & Hu & _)%whnf_Ok.
  destruct (whnf_run_app_head _ _ _ _ Hn) as [m' Hm'].
  destruct (whnf_run_det _ _ _ _ _ _ Hu Hm') as [_ ->].
  eapply IH; [done|]. cbn in Hg. lia.
Qed.

(** ** Weights that account for the definitions of a context *)
Definition bounds (e : wenv) (Γ : Context) : Prop :=
  ∀ i v, definition Γ i = Some v → weight e v ≤ e i.

Lemma moved_one e w : moved 0 1 e (wpush w e).
Proof. intros i. simpl. by rewrite Nat.add_1_r. Qed.

Lemma moved_wunder n e : moved 0 n e (wunder n e).
Proof.
  intros i. simpl. unfold wunder. destruct (Nat.ltb_spec (i + n) n); [lia|]. f_equal. lia.
Qed.

Lemma weight_wunder_0 e t : weight (wunder 0 e) t = weight e t.
Proof. apply weight_ext, wunder_0. Qed.

Lemma wunder_wunder a b e i : wunder a (wunder b e) i = wunder (b + a) e i.
Proof.
  unfold wunder. repeat match goal with |- context [Nat.ltb ?a ?b] => destruct (Nat.ltb_spec a b) end;
    try lia; f_equal; lia.
Qed.

Lemma bounds_ext e e' Γ : (∀ i, e i = e' i) → bounds e Γ → bounds e' Γ.
Proof. intros H Hb i v Hv. rewrite <- H, <- (weight_ext v e e' H). by apply Hb. Qed.

Lemma bounds_extend e Γ t : bounds e Γ → bounds (wunder 1 e) (extend Γ t).
Proof.
  intros H i v. destruct (definition_extend Γ t (pred i)) as [E0 ES].
  destruct i as [|i]; [by rewrite E0|]. cbn in ES. rewrite ES.
  intros (u & Hu & ->)%fmap_Some. rewrite (weight_shift u 1 0 e) by apply moved_wunder.
  unfold wunder. cbn. rewrite Nat.sub_0_r. by apply H.
Qed.

Lemma definition_define_cases Γ t v i :
  definition (define Γ t v) 0 = Some (shift_up v 1 0) ∧
  definition (define Γ t v) (S i) = definition (extend Γ t) (S i).
Proof.
  unfold definition, definition_under. rewrite bindings_define. cbn [extend bindings].
  rewrite !length_app. change (length [_]) with 1. split.
  - rewrite checked_sub_le by lia. cbn [mbind option_bind].
    by rewrite list_lookup_middle by lia.
  - destruct (decide (i + 1 ≤ length (bindings Γ))).
    2: { rewrite !checked_sub_gt by lia. done. }
    rewrite !checked_sub_le by lia. cbn [mbind option_bind].
    by rewrite !lookup_app_l by lia.
Qed.

Lemma bounds_define e Γ t v : bounds e Γ → bounds (wpush (weight e v) e) (define Γ t v).
Proof.
  intros H i u. destruct (definition_define_cases Γ t v (pred i)) as [E0 ES].
  destruct i as [|i].
  - rewrite E0. intros [= <-]. rewrite (weight_shift v 1 0 e) by apply moved_one. done.
  - cbn in ES. rewrite ES. destruct (definition_extend Γ t i) as [_ ->].
    intros (w & Hw & ->)%fmap_Some. rewrite (weight_shift w 1 0 e) by apply moved_one.
    by apply H.
Qed.

Lemma bounds_empty f : bounds (λ _, 0) (with_foundation f).
Proof. intros i v H%definition_under_lt. cbn in H. lia. Qed.

Lemma elem_of_enumerate_zip {A B} (l : list A) (k : list B) i x y :
  (i, (x, y)) ∈ enumerate (zip l k) → l !! i = Some x ∧ k !! i = Some y.
Proof.
  intros (j & Hj)%list_elem_of_lookup. unfold enumerate in Hj. rewrite lookup_mapi_from in Hj.
  apply fmap_Some in Hj as ([x' y'] & Hz & [= -> -> ->]).
  rewrite lookup_zip_with in Hz.
  destruct (l !! j) eqn:E1; [|done]. destruct (k !! j) eqn:E2; [|done]. by simplify_eq/=.
Qed.

Section checker.
Context (F : N) (cgas g : nat).
Context (I : Context → Term → result Term) (C : Context → Term → Term → result unit).
Context (HI : ∀ Γ e t, bounds e Γ → 2 * weight e t ≤ g → safe (I Γ t)).
Context (HC : ∀ Γ e t T, bounds e Γ → 2 * weight e t + 1 ≤ g → safe (C Γ t T)).

Lemma safe_ctx_def_eq Γ a b : safe (ctx_def_eq F cgas Γ a b).
Proof. apply safe_def_eq. Qed.
Lemma safe_under_def_eq Γ n a b : safe (under_def_eq F cgas Γ n a b).
Proof. apply safe_def_eq. Qed.
Lemma safe_ctx_whnf Γ t : safe (ctx_whnf F Γ t).
Proof. apply safe_whnf. Qed.
Hint Resolve safe_ctx_def_eq safe_under_def_eq safe_ctx_whnf : safe.

Lemma safe_check_domain Γ e t T :
  bounds e Γ → 2 * weight e t + 1 ≤ g → safe (check_domain C Γ t T).
Proof using HC.
  intros He Hg k. unfold check_domain. specialize (HC Γ e t T He Hg k).
  by destruct (C Γ t T) as [|[]|].
Qed.

Lemma safe_check_indices Γ e ixs vs n :
  bounds e Γ → Forall (λ t, 2 * weight e t + 1 ≤ g) vs →
  safe (check_indices C Γ ixs vs n).
Proof using HC.
  intros He Hg. unfold check_indices. destruct (negb _); [apply safe_Err|].
  apply safe_each_checked. intros (i & t & v) [_ Hv]%elem_of_enumerate_zip.
  rewrite Forall_lookup in Hg. eapply HC; eauto.
Qed.

Lemma safe_infer_type Γ e t : bounds e Γ → 2 * weight e t ≤ g → safe (infer_type F I Γ t).
Proof using HI.
  intros He Hg. unfold infer_type. apply safe_bind; [by eapply HI|].
  intros. apply safe_expect_type.
Qed.

(** Close a recursive call: pick the weights and compare them. *)
Ltac weigh :=
  first [eapply HI|eapply HC|eapply safe_infer_type|eapply safe_check_domain];
  [solve [eauto using bounds_extend, bounds_define]|
   cbn [weight sum_children] in *; rewrite ?weight_wunder_0 in *; try lia].
Ltac safe_arm := repeat first [safe_step | weigh; fail].

Lemma safe_infer_index_types Γ e ixs n :
  bounds (wunder n e) Γ →
  2 * list_sum (mapi_from (λ i t, weight (wunder i e) t) n ixs) ≤ g →
  safe (infer_index_types F I Γ ixs).
Proof using HI.
  revert Γ n. induction ixs as [|t ixs IH]; intros Γ n He Hg; cbn [infer_index_types]; [done|].
  cbn in Hg. apply safe_bind; [eapply safe_infer_type; [done|lia]|]. intros l _.
  apply (IH _ (S n)); [|unfold list_sum in *; lia].
  eapply bounds_ext; [|by apply bounds_extend].
  intros i. rewrite wunder_wunder. f_equal. lia.
Qed.

Lemma weight_field_domain D e f i :
  recursive_indices f = None →
  weight (wunder i e) (field_domain D f i) = sum_field (λ n t, weight (wunder n e) t) i f.
Proof.
  destruct f as [t|t| |]; try done; intros _; cbn.
  rewrite weight_wunder_0. apply weight_shift, moved_wunder.
Qed.

Lemma safe_check_fields D l ixs Γ e n fs :
  bounds (wunder n e) Γ →
  2 * list_sum (mapi_from (sum_field (λ i t, weight (wunder i e) t)) n fs) + 1 ≤ g →
  safe (check_fields F I C D l ixs Γ n fs).
Proof using HI HC.
  revert Γ n. induction fs as [|f fs IH]; intros Γ n He Hg; cbn [check_fields]; [done|].
  cbn in Hg. apply safe_bind.
  - destruct (recursive_indices f) as [vs|] eqn:Er.
    + eapply safe_check_indices; [done|]. apply Forall_forall. intros t Ht.
      destruct f as [| | |vs']; simplify_eq/=; [by apply elem_of_nil in Ht|].
      pose proof (list_sum_elem (λ t, weight (wunder n e) t) vs t Ht). lia.
    + apply safe_bind; [|intros; by safe_solve].
      eapply safe_infer_type; [done|]. rewrite (weight_field_domain D e f n Er). lia.
  - intros _ _. apply (IH _ (S n)); [|unfold list_sum in *; lia].
    eapply bounds_ext; [|by apply bounds_extend].
    intros i. rewrite wunder_wunder. f_equal. lia.
Qed.

Lemma safe_infer_data Γ e name l ixs cs :
  bounds e Γ → 2 * weight e (Data name l ixs cs) ≤ S g →
  safe (infer_data F I C Γ name l ixs cs).
Proof using HI HC.
  intros He Hg. cbn in Hg. assert (bounds (wunder 0 e) Γ) as He0.
  { eapply bounds_ext; [|done]. intros i. by rewrite wunder_0. }
  apply safe_bind; [eapply safe_infer_index_types; [done|lia]|]. intros _ _.
  apply safe_bind; [|intros; apply safe_Ok]. apply safe_each_checked. intros c Hc.
  pose proof (list_sum_elem (sum_constructor (λ i t, weight (wunder i e) t)) cs c Hc) as Hsum.
  unfold sum_constructor at 1 in Hsum.
  apply safe_bind; [eapply safe_check_fields; [done|lia]|]. intros Γ' HΓ'.
  eapply (safe_check_indices _ (wunder (length (fields c)) e)).
  - clear -HΓ' He0. replace (length (fields c)) with (0 + length (fields c)) by lia.
    revert HΓ' He0. generalize 0. revert Γ.
    induction (fields c) as [|f fs IH]; intros Γ n; cbn [check_fields].
    { intros [= ->]. by rewrite Nat.add_0_r. }
    intros (u & _ & H)%bind_Ok He. cbn [length]. rewrite Nat.add_succ_r. apply (IH _ (S n) H).
    eapply bounds_ext; [|by apply bounds_extend].
    intros i. rewrite wunder_wunder. f_equal. lia.
  - apply Forall_forall. intros t Ht.
    pose proof (list_sum_elem (λ t, weight (wunder (length (fields c)) e) t) _ t Ht).
    cbn beta in *. lia.
Qed.

Lemma safe_args {A} Γ e (l : list A) args (T : nat → A → Term) :
  bounds e Γ → 2 * list_sum (List.map (λ t, weight (wunder 0 e) t) args) + 1 ≤ g →
  safe (each_checked (λ '(index, (x, t)), C Γ t (T index x)) (enumerate (zip l args))).
Proof using HC.
  intros He Hg. apply safe_each_checked. intros (i & x & t) [_ Ht]%elem_of_enumerate_zip.
  apply (HC _ e); [done|].
  pose proof (list_sum_elem (λ t, weight (wunder 0 e) t) args t (list_elem_of_lookup_2 _ _ _ Ht)) as H.
  cbn beta in H. rewrite weight_wunder_0 in H. lia.
Qed.

Lemma safe_infer_construct Γ e d k args :
  bounds e Γ → 2 * weight e (Construct d k args) ≤ S g →
  safe (infer_construct F I C Γ d k args).
Proof using HI HC.
  intros He Hg. unfold infer_construct. cbn in Hg. rewrite weight_wunder_0 in Hg. safe_solve.
  - eapply HI; [done|lia].
  - eapply (safe_args _ e _ _ (λ index field,
      instantiate_fields (field_domain _ field index) (take index args)));
      [done|lia].
Qed.

Lemma safe_motive_indices Γ i k ixs : safe (motive_indices F cgas Γ i k ixs).
Proof.
  revert i k. induction ixs as [|t ixs IH]; intros i k; cbn [motive_indices]; safe_solve.
Qed.

Lemma safe_motive_family Γ D ixs k : safe (motive_family F cgas Γ D ixs k).
Proof. unfold motive_family. safe_solve. Qed.

Lemma safe_path_motive Γ mo a x b dep : safe (path_motive F cgas Γ mo a x b dep).
Proof. unfold path_motive. safe_solve. Qed.

Lemma safe_infer_induct Γ e s mo cases :
  bounds e Γ → 2 * weight e (Induct s mo cases) ≤ S g →
  safe (infer_induct F cgas I C Γ s mo cases).
Proof using HI HC.
  intros He Hg. unfold infer_induct. cbn in Hg. rewrite !weight_wunder_0 in Hg.
  apply safe_bind; [eapply HI; [done|lia]|]. intros A _.
  apply safe_bind; [apply safe_whnf|]. intros A' (n & Hn & _)%whnf_Ok.
  destruct (whnf_run_normal _ _ _ _ Hn) as (m & Hm & _).
  apply safe_bind; [by eapply safe_split_family|]. intros fam _.
  apply safe_bind; [apply safe_ok_or|]. intros [D vs] _. destruct D; try apply safe_Err.
  apply safe_bind; [eapply HI; [done|lia]|]. intros K _.
  apply safe_bind; [apply safe_motive_indices|]. intros kind _.
  apply safe_bind; [apply safe_motive_family|]. intros _ _.
  destruct (negb _); [apply safe_Err|]. apply safe_bind; [|intros; apply safe_Ok].
  eapply (safe_args _ e _ _ (λ index c, induction_case_type _ mo index c)); [done|lia].
Qed.

Lemma safe_identity_elim Γ e dep mo base s :
  bounds e Γ → 2 * weight e (J mo base s) ≤ S g →
  safe (infer_identity_elim F cgas I C Γ dep mo base s).
Proof using HI HC.
  intros He Hg. unfold infer_identity_elim. cbn in Hg. rewrite !weight_wunder_0 in Hg.
  apply safe_bind; [eapply HI; [done|lia]|]. intros A _.
  apply safe_bind; [apply safe_whnf|]. intros A' _. destruct A'; try apply safe_Err.
  apply safe_bind; [eapply HI; [done|lia]|]. intros M _.
  apply safe_bind; [apply safe_whnf|]. intros M' _. destruct M'; try apply safe_Err.
  apply safe_bind; [apply safe_def_eq|]. intros [] _; [|apply safe_Err].
  apply safe_bind; [apply safe_path_motive|]. intros [] _.
  apply safe_bind; [apply safe_expect_universe|]. intros [] _; [|apply safe_Err].
  apply safe_bind; [|intros; apply safe_Ok]. eapply safe_check_domain; [done|lia].
Qed.

Lemma safe_infer_inner Γ e t :
  bounds e Γ → 2 * weight e t ≤ S g → safe (infer_inner F cgas I C Γ t).
Proof using HI HC.
  intros He Hg. destruct t; cbn [infer_inner];
    try (by eapply safe_infer_data); try (by eapply safe_infer_construct);
    try (by eapply safe_infer_induct); try (by eapply safe_identity_elim);
    unfold infer_let, infer_binder, infer_lam, infer_app, infer_pair, infer_fst, infer_snd,
      infer_id, infer_refl, infer_fun_ext; safe_arm.
Qed.

Lemma safe_check_shape Γ e t T :
  bounds e Γ → 2 * weight e t ≤ g → safe (check_shape F cgas I C Γ t T).
Proof using HI HC.
  intros He Hg.
  assert (safe (check_inferred F cgas I Γ t T)) as Hp.
  { unfold check_inferred. safe_solve; by eapply HI. }
  unfold check_shape. apply safe_bind; [apply safe_ctx_whnf|]. intros W _.
  destruct t, W; try exact Hp; safe_arm.
Qed.

Lemma safe_check_against_step Γ e t T :
  bounds e Γ → 2 * weight e t + 1 ≤ S g →
  safe (check_against_step F cgas I C Γ t T).
Proof using HI HC.
  intros He Hg.
  assert (safe (check_shape F cgas I C Γ t T)) as Hs by (eapply safe_check_shape; [done|lia]).
  destruct t; try exact Hs; cbn [check_against_step].
  - safe_arm.
  - apply safe_bind; [apply safe_ok_or|]. intros A _.
    apply safe_bind; [apply safe_ctx_def_eq|]. intros [] _; [apply safe_Ok|].
    destruct (definition Γ i) as [v|] eqn:Hd; [|exact Hs].
    eapply HC; [done|]. specialize (He i v Hd). cbn in Hg. lia.
Qed.
End checker.

Lemma checker_safe F cgas g Γ e t T :
  bounds e Γ →
  (2 * weight e t ≤ g → safe (infer F cgas g Γ t)) ∧
  (2 * weight e t + 1 ≤ g → safe (check_against F cgas g Γ t T)).
Proof.
  revert Γ e t T. induction g as [|g IH]; intros Γ e t T He.
  { split; intros Hg; [|lia]. destruct t; cbn in Hg; lia. }
  assert (∀ Γ e t, bounds e Γ → 2 * weight e t ≤ g → safe (infer F cgas g Γ t)) as HI.
  { intros Γ' e' t' ? ?. by apply (IH Γ' e' t' t'). }
  assert (∀ Γ e t T, bounds e Γ → 2 * weight e t + 1 ≤ g →
    safe (check_against F cgas g Γ t T)) as HC by (intros; by eapply IH).
  split; intros Hg; cbn [infer check_against].
  - destruct t; try (by eapply safe_infer_inner). apply safe_ok_or.
  - by eapply safe_check_against_step.
Qed.

(** Gas enough for a certificate. *)
Definition certificate_gas (cert : Certificate) : nat :=
  2 * (weight (λ _, 0) (term cert) + weight (λ _, 0) (claimed_type cert)) + 1.

Lemma verify_safe F cgas gas cert f :
  certificate_gas cert ≤ gas → safe (verify_with_foundation F cgas gas cert f).
Proof.
  unfold certificate_gas. intros Hg. unfold verify_with_foundation.
  apply safe_bind.
  { eapply (checker_safe _ _ _ _ _ _ (claimed_type cert)); [apply bounds_empty|lia]. }
  intros K _. apply safe_bind; [apply safe_expect_universe|].
  intros [l|] _; [|apply safe_Err]. eapply checker_safe; [apply bounds_empty|lia].
Qed.

(** ** Properties *)

(** C35. The recursion of the checker is bounded by the certificate: with twice
    the weight of its terms as recursion depth, [verify] returns a verdict or
    exhausts its reduction budget, unless the comparison of reducts, the one
    recursion that does not follow the term, needs more depth.  In particular
    [split_family] always terminates. *)
Theorem verify_terminates F cgas gas cert f :
  certificate_gas cert ≤ gas →
  (∃ r, verify_with_foundation F cgas gas cert f = Ok r) ∨
  (∃ e, verify_with_foundation F cgas gas cert f = Err e) ∨
  verify_with_foundation F cgas gas cert f = Gas ConversionGas.
Proof.
  intros H%(verify_safe F cgas gas cert f).
  destruct (verify_with_foundation F cgas gas cert f) as [r|e|k]; [by eauto..|].
  right; right. by rewrite (H k eq_refl).
Qed.

(** Two terms with one infinite normal form [z (z (z ...))]. *)
Definition unfolder (A : Term) : Term := Lam A (App (Var 1) (App (Var 0) (Var 0))).
Definition looper (A : Term) : Term := App (unfolder A) (unfolder A).

Lemma whnf_looper l :
  whnf WHNF_FUEL_CEILING (under (conversion (with_foundation Intensional)) 1)
    (looper (Universe l)) = Ok (App (Var 0) (looper (Universe l))).
Proof.
  apply whnf_Ok. exists (1 + 1 + (1 + 1))%N. split; [|vm_compute; congruence].
  eapply run_beta; [by apply run_value|].
  apply (run_app _ (Var 0)); [|done]. by apply run_var.
Qed.

(** The comparison has no budget of its own: head reduction is fuelled,
    but on two ill-typed terms whose reducts never end, under one binder, the
    comparison recurses to any depth although every head reduction in it
    succeeds at the kernel's budget. *)
Theorem comparison_unbounded gas l m :
  l ≠ m →
  def_eq WHNF_FUEL_CEILING gas (under (conversion (with_foundation Intensional)) 1)
    (looper (Universe l)) (looper (Universe m)) = Gas ConversionGas.
Proof.
  intros Hlm. induction gas as [|gas IH]; [done|]. cbn [def_eq].
  destruct (term_eqb _ _) eqn:E; [apply term_eqb_eq in E as [= ?]; done|].
  rewrite !whnf_looper. cbn [mbind outcome_bind def_eq_whnf]. rewrite IH.
  destruct gas; [done|]. reflexivity.
Qed.

(** ** Witnesses *)
Lemma verify_terminates_witness :
  let cert := Cert (Let (Universe (Level.Var "u")) (Var 0))
    (Universe (Level.Succ (Level.Var "u"))) [] in
  verify WHNF_FUEL_CEILING 20 (certificate_gas cert) cert = Ok tt.
Proof.
  cbv zeta. edestruct verify_terminates as [[[] H]|[[e H]|H]]; [|exact H|exfalso..].
  - apply Nat.le_refl.
  - revert H. vm_compute. discriminate.
  - revert H. vm_compute. discriminate.
Defined.

Lemma comparison_unbounded_witness :
  def_eq WHNF_FUEL_CEILING 100 (under (conversion (with_foundation Intensional)) 1)
    (looper (Universe (Level.Var "u"))) (looper (Universe (Level.Var "v"))) = Gas ConversionGas.
Proof. apply comparison_unbounded. discriminate. Defined.
