(* ===== verification/Nbe.v ===== *)
(** * The second kernel: normalisation by evaluation

    The semantic domain, evaluation, readback and comparison of
    [verum_proof/src/proof_checker_nbe.rs].  The source recurses without a
    budget; the model counts the recursion with [gas], and running out is the
    outcome [Gas EvaluationGas].  Sharing through [Arc] is not modelled: values
    are immutable. *)
From S2P Require Import Prelude Levels Syntax Subst Context Conversion Checker.

Open Scope verum_scope.

(** ** The semantic domain *)
Record Closure (V : Type) : Type := Clo {
  env : list V;
  body : Term
}.
Arguments Clo {V} env body.
Arguments env {V} c.
Arguments body {V} c.

Inductive FieldValue (C : Type) : Type :=
| FValue (closure : C)
| FDependent (closure : C)
| FRecursive
| FRecursiveAt (indices : list C).
Arguments FValue {C} closure.
Arguments FDependent {C} closure.
Arguments FRecursive {C}.
Arguments FRecursiveAt {C} indices.

Inductive Value : Type :=
| VData (name : string) (level : Level) (ixs : list (Closure Value))
    (constructors : list (DataConstructor (FieldValue (Closure Value)) (Closure Value)))
    (arguments : list Value)
| VConstruct (data : Value) (constructor : nat) (args : list Value)
| VUniverse (l : Level)
| VPi (domain : Value) (codomain : Closure Value)
| VLam (domain : Value) (body : Closure Value)
| VNeutral (n : Neutral)
| VSigma (domain : Value) (codomain : Closure Value)
| VPair (a b : Value)
| VId (ty lhs rhs : Value)
| VRefl (a : Value)
with Neutral : Type :=
| NFunExt (function_type lhs rhs pointwise : Value)
| NInduct (scrutinee motive : Value) (cases : list Value)
| NVar (k : nat)
| NApp (n : Neutral) (x : Value)
| NFst (n : Neutral)
| NSnd (n : Neutral)
| NJ (motive base : Value) (scrutinee : Neutral)
| NIdElim (motive base : Value) (scrutinee : Neutral)
| NStuck (v : Value).

Abbreviation Env := (list Value).
Abbreviation ConstructorValue := (DataConstructor (FieldValue (Closure Value)) (Closure Value)).

(** The derived structural equality. *)
Definition closure_eqb {V} (eqb : V → V → bool) (a b : Closure V) : bool :=
  list_eqb eqb (env a) (env b) && term_eqb (body a) (body b).

Definition field_value_eqb {C} (eqb : C → C → bool) (a b : FieldValue C) : bool :=
  match a, b with
  | FValue a, FValue b | FDependent a, FDependent b => eqb a b
  | FRecursive, FRecursive => true
  | FRecursiveAt a, FRecursiveAt b => list_eqb eqb a b
  | _, _ => false
  end.

Definition constructor_value_eqb {C} (eqb : C → C → bool)
    (a b : DataConstructor (FieldValue C) C) : bool :=
  list_eqb (field_value_eqb eqb) (fields a) (fields b) &&
  list_eqb eqb (indices a) (indices b).

Fixpoint value_eqb (a b : Value) {struct a} : bool :=
  match a, b with
  | VData n l i c g, VData n' l' i' c' g' =>
      String.eqb n n' && Level.level_eqb l l' &&
      list_eqb (closure_eqb value_eqb) i i' &&
      list_eqb (constructor_value_eqb (closure_eqb value_eqb)) c c' &&
      list_eqb value_eqb g g'
  | VConstruct d k x, VConstruct d' k' x' =>
      value_eqb d d' && (k =? k') && list_eqb value_eqb x x'
  | VUniverse l, VUniverse l' => Level.level_eqb l l'
  | VPi d c, VPi d' c' | VLam d c, VLam d' c' | VSigma d c, VSigma d' c' =>
      value_eqb d d' && closure_eqb value_eqb c c'
  | VNeutral n, VNeutral n' => neutral_eqb n n'
  | VPair x y, VPair x' y' => value_eqb x x' && value_eqb y y'
  | VId t x y, VId t' x' y' => value_eqb t t' && value_eqb x x' && value_eqb y y'
  | VRefl x, VRefl x' => value_eqb x x'
  | _, _ => false
  end
with neutral_eqb (a b : Neutral) {struct a} : bool :=
  match a, b with
  | NFunExt t x y p, NFunExt t' x' y' p' =>
      value_eqb t t' && value_eqb x x' && value_eqb y y' && value_eqb p p'
  | NInduct s m c, NInduct s' m' c' =>
      value_eqb s s' && value_eqb m m' && list_eqb value_eqb c c'
  | NVar k, NVar k' => k =? k'
  | NApp n x, NApp n' x' => neutral_eqb n n' && value_eqb x x'
  | NFst n, NFst n' | NSnd n, NSnd n' => neutral_eqb n n'
  | NJ m b s, NJ m' b' s' | NIdElim m b s, NIdElim m' b' s' =>
      value_eqb m m' && value_eqb b b' && neutral_eqb s s'
  | NStuck v, NStuck v' => value_eqb v v'
  | _, _ => false
  end.

(** ** Closures *)

(** The position in an outer-first environment of length [len] of a free
    index. *)
Definition env_position (len index : nat) : option nat := checked_sub len (index + 1).

(** The positions that occur free in the body, ascending: the program collects
    them into a [BTreeSet] by visiting every free occurrence. *)
Definition free_positions (t : Term) (local_binders len : nat) : list nat :=
  List.filter (λ p, contains_free_by t local_binders (λ index,
    match env_position len index with Some q => p =? q | None => false end)) (seq 0 len).

(** [binary_search] on the ascending positions. *)
Fixpoint rank_of (p : nat) (positions : list nat) : nat :=
  match positions with
  | [] => 0
  | q :: positions => if p =? q then 0 else S (rank_of p positions)
  end.

Definition rebase (positions : list nat) (len index depth : nat) : Term :=
  match checked_sub index depth with
  | Some i =>
      match env_position len i with
      | Some position => Var (depth + length positions - 1 - rank_of position positions)
      | None => Var index
      end
  | None => Var index
  end.

Definition capture (t : Term) (env : Env) (local_binders : nat) : Closure Value :=
  let positions := free_positions t local_binders (length env) in
  let body :=
    if length positions =? length env then t
    else map_variables t local_binders (rebase positions (length env)) in
  Clo (omap (λ p, env !! p) positions) body.

Definition capture_field (env : Env) (index : nat) (field : DataField Term)
    : FieldValue (Closure Value) :=
  match field with
  | Syntax.Value t => FValue (capture t env 0)
  | Dependent t => FDependent (capture t env index)
  | Recursive => FRecursive
  | RecursiveAt ixs => FRecursiveAt (List.map (λ t, capture t env index) ixs)
  end.

Definition capture_constructor (env : Env) (c : TermConstructor) : ConstructorValue :=
  Ctor (mapi_from (capture_field env) 0 (fields c))
    (List.map (λ t, capture t env (length (fields c))) (indices c)).

(** ** Collecting the results of a fallible map *)
Fixpoint map_result {E A B} (f : A → outcome E B) (l : list A) : outcome E (list B) :=
  match l with
  | [] => Ok []
  | x :: l => y ← f x; l ← map_result f l; Ok (y :: l)
  end.

Definition fresh (level : nat) : Value := VNeutral (NVar level).

Definition fresh_values (level count : nat) : list Value :=
  List.map (λ i, fresh (level + i)) (seq 0 count).

Definition apply_fst (p : Value) : Value :=
  match p with
  | VPair a _ => a
  | VNeutral n => VNeutral (NFst n)
  | other => VNeutral (NFst (NStuck other))
  end.

Definition apply_snd (p : Value) : Value :=
  match p with
  | VPair _ b => b
  | VNeutral n => VNeutral (NSnd n)
  | other => VNeutral (NSnd (NStuck other))
  end.

Definition apply_identity_elim (motive base scrutinee : Value) (dependent : bool) : Value :=
  let stuck path :=
    VNeutral (if dependent then NIdElim motive base path else NJ motive base path) in
  match scrutinee with
  | VRefl _ => base
  | VNeutral n => stuck n
  | other => stuck (NStuck other)
  end.

Definition apply_j (motive base scrutinee : Value) : Value :=
  apply_identity_elim motive base scrutinee false.

Definition is_recursive_value {C} (f : FieldValue C) : bool :=
  match f with FRecursive | FRecursiveAt _ => true | _ => false end.

(** ** Evaluation *)
Section open_evaluation.
Context (eval : Term → Env → result Value).
Context (apply_induct : Value → Value → list Value → result Value).

Definition apply_fields (c : Closure Value) (previous : list Value) : result Value :=
  eval (body c) (env c ++ previous).

Definition apply (c : Closure Value) (arg : Value) : result Value :=
  eval (body c) (env c ++ [arg]).

Definition apply_value (f x : Value) : result Value :=
  match f with
  | VLam _ c => apply c x
  | VNeutral n => Ok (VNeutral (NApp n x))
  | VData name level ixs constructors arguments =>
      if length arguments <? length ixs
      then Ok (VData name level ixs constructors (arguments ++ [x]))
      else Ok (VNeutral (NApp (NStuck f) x))
  | other => Ok (VNeutral (NApp (NStuck other) x))
  end.

Fixpoint apply_values (head : Value) (arguments : list Value) : result Value :=
  match arguments with
  | [] => Ok head
  | x :: arguments => head ← apply_value head x; apply_values head arguments
  end.

(** The loop of [apply_induct] over the fields and arguments. *)
Fixpoint apply_branch (motive : Value) (cases : list Value) (result : Value)
    (fs : list (FieldValue (Closure Value) * Value)) : Conversion.result Value :=
  match fs with
  | [] => Ok result
  | (field, argument) :: fs =>
      result ← apply_value result argument;
      result ← (if is_recursive_value field
                then hypothesis ← apply_induct argument motive cases;
                     apply_value result hypothesis
                else Ok result);
      apply_branch motive cases result fs
  end.

Definition apply_induct_step (scrutinee motive : Value) (cases : list Value)
    : result Value :=
  let stuck := Ok (VNeutral (NInduct scrutinee motive cases)) in
  match scrutinee with
  | VConstruct (VData _ _ _ constructors _) constructor args =>
      match constructors !! constructor, cases !! constructor with
      | Some c, Some case =>
          if length (fields c) =? length args
          then apply_branch motive cases case (zip (fields c) args)
          else stuck
      | _, _ => stuck
      end
  | _ => stuck
  end.

Definition eval_step (t : Term) (env : Env) : result Value :=
  match t with
  | FunExt function_type lhs rhs pointwise =>
      function_type ← eval function_type env;
      lhs ← eval lhs env;
      rhs ← eval rhs env;
      pointwise ← eval pointwise env;
      Ok (VNeutral (NFunExt function_type lhs rhs pointwise))
  | Let value body => value ← eval value env; eval body (env ++ [value])
  | Data name level ixs constructors =>
      Ok (VData name level (mapi_from (λ i t, capture t env i) 0 ixs)
            (List.map (capture_constructor env) constructors) [])
  | Construct data constructor args =>
      data ← eval data env;
      args ← map_result (λ t, eval t env) args;
      Ok (VConstruct data constructor args)
  | Induct scrutinee motive cases =>
      scrutinee ← eval scrutinee env;
      motive ← eval motive env;
      cases ← map_result (λ t, eval t env) cases;
      apply_induct scrutinee motive cases
  | Universe level => Ok (VUniverse level)
  | Var i =>
      Ok (match env_position (length env) i with
          | Some position => default (VNeutral (NVar i)) (env !! position)
          | None => VNeutral (NVar i)
          end)
  | Pi domain body => domain ← eval domain env; Ok (VPi domain (capture body env 1))
  | Lam domain body => domain ← eval domain env; Ok (VLam domain (capture body env 1))
  | App f x => f ← eval f env; x ← eval x env; apply_value f x
  | Sigma domain body => domain ← eval domain env; Ok (VSigma domain (capture body env 1))
  | Pair a b => a ← eval a env; b ← eval b env; Ok (VPair a b)
  | Fst p => p ← eval p env; Ok (apply_fst p)
  | Snd p => p ← eval p env; Ok (apply_snd p)
  | Id ty lhs rhs =>
      ty ← eval ty env; lhs ← eval lhs env; rhs ← eval rhs env; Ok (VId ty lhs rhs)
  | Refl value => value ← eval value env; Ok (VRefl value)
  | J motive base scrutinee =>
      motive ← eval motive env; base ← eval base env; scrutinee ← eval scrutinee env;
      Ok (apply_j motive base scrutinee)
  | IdElim motive base scrutinee =>
      motive ← eval motive env; base ← eval base env; scrutinee ← eval scrutinee env;
      Ok (apply_identity_elim motive base scrutinee true)
  end.
End open_evaluation.

Fixpoint eval (gas : nat) (t : Term) (env : Env) {struct gas} : result Value :=
  match gas with
  | 0 => Gas EvaluationGas
  | S gas => eval_step (eval gas) (apply_induct gas) t env
  end
with apply_induct (gas : nat) (scrutinee motive : Value) (cases : list Value) {struct gas}
    : result Value :=
  match gas with
  | 0 => Gas EvaluationGas
  | S gas => apply_induct_step (eval gas) (apply_induct gas) scrutinee motive cases
  end.

(** ** Readback *)
Section open_readback.
Context (eval : Term → Env → result Value).
Context (quote : Value → nat → result Term) (quote_neutral : Neutral → nat → result Term).

Definition quote_closure (c : Closure Value) (previous : list Value) (level : nat)
    : result Term :=
  v ← apply_fields eval c previous; quote v level.

Definition quote_field (level : nat) (previous : list Value) (i : nat)
    (field : FieldValue (Closure Value)) : result (DataField Term) :=
  match field with
  | FValue c => t ← quote_closure c [] level; Ok (Syntax.Value t)
  | FDependent c => t ← quote_closure c (take i previous) (level + i); Ok (Dependent t)
  | FRecursive => Ok Recursive
  | FRecursiveAt ixs =>
      ixs ← map_result (λ c, quote_closure c (take i previous) (level + i)) ixs;
      Ok (RecursiveAt ixs)
  end.

Definition quote_constructor (level : nat) (c : ConstructorValue) : result TermConstructor :=
  let previous := fresh_values level (length (fields c)) in
  fs ← map_result (λ '(i, field), quote_field level previous i field) (enumerate (fields c));
  ixs ← map_result (λ c, quote_closure c previous (level + length previous)) (indices c);
  Ok (Ctor fs ixs).

(** Below a binder, opened with a fresh variable. *)
Definition quote_body (c : Closure Value) (level : nat) : result Term :=
  v ← apply eval c (fresh level); quote v (level + 1).

Definition quote_step (v : Value) (level : nat) : result Term :=
  match v with
  | VData name data_level ixs constructors arguments =>
      let index_vars := fresh_values level (length ixs) in
      ixs ← map_result (λ '(i, c), quote_closure c (take i index_vars) (level + i))
              (enumerate ixs);
      constructors ← map_result (quote_constructor level) constructors;
      arguments ← map_result (λ arg, quote arg level) arguments;
      Ok (apply_terms (Data name data_level ixs constructors) arguments)
  | VConstruct data constructor args =>
      data ← quote data level;
      args ← map_result (λ t, quote t level) args;
      Ok (Construct data constructor args)
  | VUniverse l => Ok (Universe l)
  | VPi domain codomain =>
      domain ← quote domain level; b ← quote_body codomain level; Ok (Pi domain b)
  | VLam domain body =>
      domain ← quote domain level; b ← quote_body body level; Ok (Lam domain b)
  | VNeutral n => quote_neutral n level
  | VSigma domain codomain =>
      domain ← quote domain level; b ← quote_body codomain level; Ok (Sigma domain b)
  | VPair a b => a ← quote a level; b ← quote b level; Ok (Pair a b)
  | VId ty lhs rhs =>
      ty ← quote ty level; lhs ← quote lhs level; rhs ← quote rhs level; Ok (Id ty lhs rhs)
  | VRefl value => value ← quote value level; Ok (Refl value)
  end.

Definition quote_neutral_step (n : Neutral) (level : nat) : result Term :=
  match n with
  | NFunExt function_type lhs rhs pointwise =>
      function_type ← quote function_type level; lhs ← quote lhs level;
      rhs ← quote rhs level; pointwise ← quote pointwise level;
      Ok (FunExt function_type lhs rhs pointwise)
  | NInduct scrutinee motive cases =>
      scrutinee ← quote scrutinee level; motive ← quote motive level;
      cases ← map_result (λ t, quote t level) cases;
      Ok (Induct scrutinee motive cases)
  | NVar k => Ok (if level <=? k then Var k else Var (level - 1 - k))
  | NApp n x => f ← quote_neutral n level; x ← quote x level; Ok (App f x)
  | NFst n => p ← quote_neutral n level; Ok (Fst p)
  | NSnd n => p ← quote_neutral n level; Ok (Snd p)
  | NJ motive base scrutinee =>
      motive ← quote motive level; base ← quote base level;
      scrutinee ← quote_neutral scrutinee level; Ok (J motive base scrutinee)
  | NIdElim motive base scrutinee =>
      motive ← quote motive level; base ← quote base level;
      scrutinee ← quote_neutral scrutinee level; Ok (IdElim motive base scrutinee)
  | NStuck v => quote v level
  end.
End open_readback.

Fixpoint quote (gas : nat) (v : Value) (level : nat) {struct gas} : result Term :=
  match gas with
  | 0 => Gas EvaluationGas
  | S gas => quote_step (eval gas) (quote gas) (quote_neutral gas) v level
  end
with quote_neutral (gas : nat) (n : Neutral) (level : nat) {struct gas} : result Term :=
  match gas with
  | 0 => Gas EvaluationGas
  | S gas => quote_neutral_step (quote gas) (quote_neutral gas) n level
  end.

(** ** Definitional equality *)
Section open_comparison.
Context (eval : Term → Env → result Value).
Context (def_eq : Value → Value → nat → result bool).
Context (def_eq_neutral : Neutral → Neutral → nat → result bool).

Definition values_def_eq (a b : list Value) (level : nat) : result bool :=
  Ok (length a =? length b) &&?
  all_checked (λ '(a, b), def_eq a b level) (zip a b).

(** [domain] and [recursive_indices] of [FieldValue]. *)
Definition domain (f : FieldValue (Closure Value)) (previous : list Value)
    : result (option Value) :=
  match f with
  | FValue c => v ← apply_fields eval c []; Ok (Some v)
  | FDependent c => v ← apply_fields eval c previous; Ok (Some v)
  | FRecursive | FRecursiveAt _ => Ok None
  end.

Definition recursive_indices (f : FieldValue (Closure Value)) (previous : list Value)
    : result (option (list Value)) :=
  match f with
  | FRecursive => Ok (Some [])
  | FRecursiveAt ixs =>
      vs ← map_result (λ c, apply_fields eval c previous) ixs; Ok (Some vs)
  | _ => Ok None
  end.

Definition closures_def_eq (previous : list Value) (level : nat) (a b : Closure Value)
    : result bool :=
  a ← apply_fields eval a previous; b ← apply_fields eval b previous; def_eq a b level.

Definition field_def_eq (level : nat) (previous : list Value) (i : nat)
    (a b : FieldValue (Closure Value)) : result bool :=
  let previous := take i previous in
  ra ← recursive_indices a previous;
  rb ← recursive_indices b previous;
  match ra, rb with
  | Some a, Some b => values_def_eq a b (level + i)
  | None, None =>
      da ← domain a previous;
      db ← domain b previous;
      match da, db with
      | Some a, Some b => def_eq a b (level + i)
      | _, _ => Ok false
      end
  | _, _ => Ok false
  end.

Definition constructor_def_eq (level : nat) (a b : ConstructorValue) : result bool :=
  let previous := fresh_values level (length (fields a)) in
  Ok (length (fields a) =? length (fields b)) &&?
  Ok (length (indices a) =? length (indices b)) &&?
  all_checked (λ '(a, b), closures_def_eq previous (level + length previous) a b)
    (zip (indices a) (indices b)) &&?
  all_checked (λ '(i, (a, b)), field_def_eq level previous i a b)
    (enumerate (zip (fields a) (fields b))).

(** Two closures opened with one fresh variable. *)
Definition bodies_def_eq (a b : Closure Value) (level : nat) : result bool :=
  a ← apply eval a (fresh level); b ← apply eval b (fresh level); def_eq a b (level + 1).

Definition eta_match (body : Closure Value) (other : Value) (level : nat) : result bool :=
  body_val ← apply eval body (fresh level);
  other_app ← apply_value eval other (fresh level);
  def_eq body_val other_app (level + 1).

Definition def_eq_step (a b : Value) (level : nat) : result bool :=
  match a, b with
  | VData an al ai ac aa, VData bn bl bi bc ba =>
      let index_vars := fresh_values level (length ai) in
      Ok (String.eqb an bn && Level.level_eq al bl) &&?
      values_def_eq aa ba level &&?
      Ok (length ai =? length bi) &&?
      all_checked (λ '(i, (a, b)), closures_def_eq (take i index_vars) (level + i) a b)
        (enumerate (zip ai bi)) &&?
      Ok (length ac =? length bc) &&?
      all_checked (λ '(a, b), constructor_def_eq level a b) (zip ac bc)
  | VConstruct ad ai aa, VConstruct bd bi ba =>
      Ok (ai =? bi) &&? def_eq ad bd level &&? values_def_eq aa ba level
  | VUniverse n, VUniverse m => Ok (Level.level_eq n m)
  | VPi d1 c1, VPi d2 c2 => def_eq d1 d2 level &&? bodies_def_eq c1 c2 level
  | VLam d1 b1, VLam d2 b2 => def_eq d1 d2 level &&? bodies_def_eq b1 b2 level
  | VLam _ body, other | other, VLam _ body => eta_match body other level
  | VNeutral n1, VNeutral n2 => def_eq_neutral n1 n2 level
  | VSigma d1 c1, VSigma d2 c2 => def_eq d1 d2 level &&? bodies_def_eq c1 c2 level
  | VPair a1 b1, VPair a2 b2 => def_eq a1 a2 level &&? def_eq b1 b2 level
  | VPair first second, other | other, VPair first second =>
      def_eq first (apply_fst other) level &&? def_eq second (apply_snd other) level
  | VId t1 l1 r1, VId t2 l2 r2 =>
      def_eq t1 t2 level &&? def_eq l1 l2 level &&? def_eq r1 r2 level
  | VRefl v1, VRefl v2 => def_eq v1 v2 level
  | _, _ => Ok false
  end.

Definition def_eq_neutral_step (a b : Neutral) (level : nat) : result bool :=
  match a, b with
  | NFunExt a b c d, NFunExt e f g h =>
      def_eq a e level &&? def_eq b f level &&? def_eq c g level &&? def_eq d h level
  | NInduct a am ac, NInduct b bm bc =>
      def_eq a b level &&? def_eq am bm level &&? values_def_eq ac bc level
  | NVar i, NVar j => Ok (i =? j)
  | NApp f1 x1, NApp f2 x2 => def_eq_neutral f1 f2 level &&? def_eq x1 x2 level
  | NFst n1, NFst n2 | NSnd n1, NSnd n2 => def_eq_neutral n1 n2 level
  | NJ m1 b1 s1, NJ m2 b2 s2 | NIdElim m1 b1 s1, NIdElim m2 b2 s2 =>
      def_eq m1 m2 level &&? def_eq b1 b2 level &&? def_eq_neutral s1 s2 level
  | NStuck v1, NStuck v2 => def_eq v1 v2 level
  | _, _ => Ok false
  end.
End open_comparison.

Fixpoint def_eq (gas : nat) (a b : Value) (level : nat) {struct gas} : result bool :=
  match gas with
  | 0 => Gas EvaluationGas
  | S gas =>
      if value_eqb a b then Ok true
      else def_eq_step (eval gas) (def_eq gas) (def_eq_neutral gas) a b level
  end
with def_eq_neutral (gas : nat) (a b : Neutral) (level : nat) {struct gas} : result bool :=
  match gas with
  | 0 => Gas EvaluationGas
  | S gas => def_eq_neutral_step (def_eq gas) (def_eq_neutral gas) a b level
  end.
