(* ===== verification/Values.v ===== *)
(** * Values as terms

    [embed L v] is the term a value of the second kernel stands for below [L]
    binders, read off without evaluating: a closure becomes its body with the
    environment substituted.  [vok A v] says that a value is well formed: its
    variables are among the levels [A] and every closure body is in scope. *)

From S2P Require Import Prelude Levels Syntax Subst Inst Context Conversion ConvSpec ConvFacts.
From S2P Require Import Checker Nbe.

#[local] Arguments shift_up : simpl never.

Lemma Forall_elem {A} (P : A → Prop) l x : Forall P l → x ∈ l → P x.
Proof. rewrite Forall_forall. auto. Qed.

(** ** Induction on values *)
Section value_ind.
Context (P : Value → Prop) (Q : Neutral → Prop).

Definition on_closure (c : Closure Value) : Prop := Forall P (env c).

Definition on_field_value (f : FieldValue (Closure Value)) : Prop :=
  match f with
  | FValue c | FDependent c => on_closure c
  | FRecursive => True
  | FRecursiveAt cs => Forall on_closure cs
  end.

Definition on_constructor_value (c : ConstructorValue) : Prop :=
  Forall on_field_value (fields c) ∧ Forall on_closure (indices c).

(** The induction hypotheses at a value and at a neutral. *)
Definition on_value (v : Value) : Prop :=
  match v with
  | VData _ _ ixs cs args =>
      Forall on_closure ixs ∧ Forall on_constructor_value cs ∧ Forall P args
  | VConstruct d _ args => P d ∧ Forall P args
  | VUniverse _ => True
  | VPi d c | VLam d c | VSigma d c => P d ∧ on_closure c
  | VNeutral n => Q n
  | VPair a b => P a ∧ P b
  | VId a b c => P a ∧ P b ∧ P c
  | VRefl a => P a
  end.

Definition on_neutral (n : Neutral) : Prop :=
  match n with
  | NFunExt a b c d => P a ∧ P b ∧ P c ∧ P d
  | NInduct s m cases => P s ∧ P m ∧ Forall P cases
  | NVar _ => True
  | NApp n x => Q n ∧ P x
  | NFst n | NSnd n => Q n
  | NJ m b s | NIdElim m b s => P m ∧ P b ∧ Q s
  | NStuck v => P v
  end.

Context (HP : ∀ v, on_value v → P v) (HQ : ∀ n, on_neutral n → Q n).

Definition closure_ind (IH : ∀ v, P v) (c : Closure Value) : on_closure c :=
  match c with Clo env _ => Forall_all P IH env end.

Definition field_value_ind (IH : ∀ v, P v) (f : FieldValue (Closure Value)) : on_field_value f :=
  match f with
  | FValue c | FDependent c => closure_ind IH c
  | FRecursive => I
  | FRecursiveAt cs => Forall_all on_closure (closure_ind IH) cs
  end.

Definition constructor_value_ind (IH : ∀ v, P v) (c : ConstructorValue)
    : on_constructor_value c :=
  match c with
  | Ctor fs ixs =>
      conj (Forall_all on_field_value (field_value_ind IH) fs)
        (Forall_all on_closure (closure_ind IH) ixs)
  end.

Fixpoint value_ind (v : Value) : P v :=
  HP v
    match v return on_value v with
    | VData _ _ ixs cs args =>
        conj (Forall_all on_closure (closure_ind value_ind) ixs)
          (conj (Forall_all on_constructor_value (constructor_value_ind value_ind) cs)
             (Forall_all P value_ind args))
    | VConstruct d _ args => conj (value_ind d) (Forall_all P value_ind args)
    | VUniverse _ => I
    | VPi d c | VLam d c | VSigma d c => conj (value_ind d) (closure_ind value_ind c)
    | VNeutral n => neutral_ind n
    | VPair a b => conj (value_ind a) (value_ind b)
    | VId a b c => conj (value_ind a) (conj (value_ind b) (value_ind c))
    | VRefl a => value_ind a
    end
with neutral_ind (n : Neutral) : Q n :=
  HQ n
    match n return on_neutral n with
    | NFunExt a b c d =>
        conj (value_ind a) (conj (value_ind b) (conj (value_ind c) (value_ind d)))
    | NInduct s m cases =>
        conj (value_ind s) (conj (value_ind m) (Forall_all P value_ind cases))
    | NVar _ => I
    | NApp n x => conj (neutral_ind n) (value_ind x)
    | NFst n | NSnd n => neutral_ind n
    | NJ m b s | NIdElim m b s => conj (value_ind m) (conj (value_ind b) (neutral_ind s))
    | NStuck v => value_ind v
    end.

Lemma values_ind : (∀ v, P v) ∧ (∀ n, Q n).
Proof. split; [apply value_ind|apply neutral_ind]. Qed.
End value_ind.

(** ** Reading a value as a term *)
Definition embed_closure (embed : Value → Term) (k : nat) (c : Closure Value) : Term :=
  inst_at k (rev (List.map embed (env c))) (body c).

Definition embed_field (embed : Value → Term) (i : nat) (f : FieldValue (Closure Value))
    : DataField Term :=
  match f with
  | FValue c => Syntax.Value (embed_closure embed 0 c)
  | FDependent c => Dependent (embed_closure embed i c)
  | FRecursive => Recursive
  | FRecursiveAt cs => RecursiveAt (List.map (embed_closure embed i) cs)
  end.

Definition embed_constructor (embed : Value → Term) (c : ConstructorValue) : TermConstructor :=
  Ctor (mapi_from (embed_field embed) 0 (fields c))
    (List.map (embed_closure embed (length (fields c))) (indices c)).

Fixpoint embed (L : nat) (v : Value) {struct v} : Term :=
  match v with
  | VData name l ixs cs args =>
      apply_terms
        (Data name l (mapi_from (embed_closure (embed L)) 0 ixs)
           (List.map (embed_constructor (embed L)) cs))
        (List.map (embed L) args)
  | VConstruct d k args => Construct (embed L d) k (List.map (embed L) args)
  | VUniverse l => Universe l
  | VPi d c => Pi (embed L d) (embed_closure (embed L) 1 c)
  | VLam d c => Lam (embed L d) (embed_closure (embed L) 1 c)
  | VNeutral n => embed_neutral L n
  | VSigma d c => Sigma (embed L d) (embed_closure (embed L) 1 c)
  | VPair a b => Pair (embed L a) (embed L b)
  | VId a b c => Id (embed L a) (embed L b) (embed L c)
  | VRefl a => Refl (embed L a)
  end
with embed_neutral (L : nat) (n : Neutral) {struct n} : Term :=
  match n with
  | NFunExt a b c d => FunExt (embed L a) (embed L b) (embed L c) (embed L d)
  | NInduct s m cases => Induct (embed L s) (embed L m) (List.map (embed L) cases)
  | NVar k => if L <=? k then Var k else Var (L - 1 - k)
  | NApp n x => App (embed_neutral L n) (embed L x)
  | NFst n => Fst (embed_neutral L n)
  | NSnd n => Snd (embed_neutral L n)
  | NJ m b s => J (embed L m) (embed L b) (embed_neutral L s)
  | NIdElim m b s => IdElim (embed L m) (embed L b) (embed_neutral L s)
  | NStuck v => embed L v
  end.

(** The substitution an environment stands for. *)
Definition esub (L : nat) (e : Env) : list Term := rev (List.map (embed L) e).

(** ** Well-formed values *)
Definition closure_ok (ok : Value → bool) (k : nat) (c : Closure Value) : bool :=
  forallb ok (env c) && bool_decide (scoped (length (env c) + k) (body c)).

Definition field_ok (ok : Value → bool) (i : nat) (f : FieldValue (Closure Value)) : bool :=
  match f with
  | FValue c => closure_ok ok 0 c
  | FDependent c => closure_ok ok i c
  | FRecursive => true
  | FRecursiveAt cs => forallb (closure_ok ok i) cs
  end.

Definition all_from {A} (f : nat → A → bool) : nat → list A → bool :=
  fix go i l := match l with [] => true | x :: l => f i x && go (S i) l end.

Definition constructor_ok (ok : Value → bool) (c : ConstructorValue) : bool :=
  all_from (field_ok ok) 0 (fields c) &&
  forallb (closure_ok ok (length (fields c))) (indices c).

Fixpoint vokb (A : nat → bool) (v : Value) {struct v} : bool :=
  match v with
  | VData _ _ ixs cs args =>
      all_from (closure_ok (vokb A)) 0 ixs && forallb (constructor_ok (vokb A)) cs &&
      forallb (vokb A) args
  | VConstruct d _ args => vokb A d && forallb (vokb A) args
  | VUniverse _ => true
  | VPi d c | VLam d c | VSigma d c => vokb A d && closure_ok (vokb A) 1 c
  | VNeutral n => nokb A n
  | VPair a b => vokb A a && vokb A b
  | VId a b c => vokb A a && vokb A b && vokb A c
  | VRefl a => vokb A a
  end
with nokb (A : nat → bool) (n : Neutral) {struct n} : bool :=
  match n with
  | NFunExt a b c d => vokb A a && vokb A b && vokb A c && vokb A d
  | NInduct s m cases => vokb A s && vokb A m && forallb (vokb A) cases
  | NVar k => A k
  | NApp n x => nokb A n && vokb A x
  | NFst n | NSnd n => nokb A n
  | NJ m b s | NIdElim m b s => vokb A m && vokb A b && nokb A s
  | NStuck v => vokb A v
  end.

Definition vok (A : nat → bool) (v : Value) : Prop := vokb A v = true.

Definition nok (A : nat → bool) (n : Neutral) : Prop := nokb A n = true.

Definition closure_wf (A : nat → bool) (k : nat) (c : Closure Value) : Prop :=
  Forall (vok A) (env c) ∧ scoped (length (env c) + k) (body c).

Definition field_wf (A : nat → bool) (i : nat) (f : FieldValue (Closure Value)) : Prop :=
  match f with
  | FValue c => closure_wf A 0 c
  | FDependent c => closure_wf A i c
  | FRecursive => True
  | FRecursiveAt cs => Forall (closure_wf A i) cs
  end.

Definition constructor_wf (A : nat → bool) (c : ConstructorValue) : Prop :=
  (∀ i f, fields c !! i = Some f → field_wf A i f) ∧
  Forall (closure_wf A (length (fields c))) (indices c).

Definition value_wf (A : nat → bool) (v : Value) : Prop :=
  match v with
  | VData _ _ ixs cs args =>
      (∀ i c, ixs !! i = Some c → closure_wf A i c) ∧ Forall (constructor_wf A) cs ∧
      Forall (vok A) args
  | VConstruct d _ args => vok A d ∧ Forall (vok A) args
  | VUniverse _ => True
  | VPi d c | VLam d c | VSigma d c => vok A d ∧ closure_wf A 1 c
  | VNeutral n => nok A n
  | VPair a b => vok A a ∧ vok A b
  | VId a b c => vok A a ∧ vok A b ∧ vok A c
  | VRefl a => vok A a
  end.

Definition neutral_wf (A : nat → bool) (n : Neutral) : Prop :=
  match n with
  | NFunExt a b c d => vok A a ∧ vok A b ∧ vok A c ∧ vok A d
  | NInduct s m cases => vok A s ∧ vok A m ∧ Forall (vok A) cases
  | NVar k => A k = true
  | NApp n x => nok A n ∧ vok A x
  | NFst n | NSnd n => nok A n
  | NJ m b s | NIdElim m b s => vok A m ∧ vok A b ∧ nok A s
  | NStuck v => vok A v
  end.

Lemma forallb_Forall_iff {T} (f : T → bool) (P : T → Prop) l :
  (∀ x, f x = true ↔ P x) → forallb f l = true ↔ Forall P l.
Proof.
  intros H. induction l as [|x l IH]; cbn; [by split; [constructor|]|].
  by rewrite andb_true_iff, IH, H, Forall_cons.
Qed.

Lemma all_from_iff {T} (f : nat → T → bool) (P : nat → T → Prop) n l :
  (∀ i x, f i x = true ↔ P i x) →
  all_from f n l = true ↔ ∀ i x, l !! i = Some x → P (n + i) x.
Proof.
  intros H. revert n. induction l as [|x l IH]; intros n; cbn; [done|].
  rewrite andb_true_iff, IH, H. split.
  - intros [Hx Hl] [|i] y Hy; [injection Hy as <-; by rewrite Nat.add_0_r|].
    rewrite Nat.add_succ_r. by apply (Hl i).
  - intros Hl. split; [specialize (Hl 0 x eq_refl); by rewrite Nat.add_0_r in Hl|].
    intros i y Hy. rewrite Nat.add_succ_comm. by apply (Hl (S i)).
Qed.

Lemma closure_ok_iff A k c : closure_ok (vokb A) k c = true ↔ closure_wf A k c.
Proof.
  unfold closure_ok, closure_wf. rewrite andb_true_iff, bool_decide_eq_true.
  by rewrite (forallb_Forall_iff _ (vok A)).
Qed.

Lemma field_ok_iff A i f : field_ok (vokb A) i f = true ↔ field_wf A i f.
Proof.
  destruct f as [c|c| |cs]; cbn; try apply closure_ok_iff; [done|].
  apply forallb_Forall_iff, closure_ok_iff.
Qed.

Lemma constructor_ok_iff A c : constructor_ok (vokb A) c = true ↔ constructor_wf A c.
Proof.
  unfold constructor_ok, constructor_wf.
  rewrite andb_true_iff, (all_from_iff _ (field_wf A)) by apply field_ok_iff.
  by rewrite (forallb_Forall_iff _ (closure_wf A _)) by apply closure_ok_iff.
Qed.

Lemma vok_unfold A v : vok A v ↔ value_wf A v.
Proof.
  unfold vok, value_wf, nok. destruct v; cbn [vokb];
    rewrite ?andb_true_iff, ?closure_ok_iff, ?(forallb_Forall_iff _ (vok A)) by done;
    unfold vok; try tauto.
  rewrite (all_from_iff _ (closure_wf A)) by apply closure_ok_iff.
  rewrite (forallb_Forall_iff _ (constructor_wf A)) by apply constructor_ok_iff. tauto.
Qed.

Lemma nok_unfold A n : nok A n ↔ neutral_wf A n.
Proof.
  unfold nok, neutral_wf. destruct n; cbn [nokb];
    rewrite ?andb_true_iff, ?(forallb_Forall_iff _ (vok A)) by done; unfold vok, nok; tauto.
Qed.

(** [A] only has levels below [L]. *)
Definition below (A : nat → bool) (L : nat) : Prop := ∀ k, A k = true → k < L.

(** ** Values at other levels *)
Section mono.
Context (A B : nat → bool) (HAB : ∀ k, A k = true → B k = true).
Let P v := vok A v → vok B v.

Lemma closure_wf_mono k c : on_closure P c → closure_wf A k c → closure_wf B k c.
Proof.
  unfold on_closure. rewrite Forall_forall. intros H [He Hs]. split; [|exact Hs].
  rewrite Forall_forall in *. intros x Hx. apply H; auto.
Qed.

Lemma field_wf_mono k f : on_field_value P f → field_wf A k f → field_wf B k f.
Proof.
  destruct f as [c|c| |cs]; cbn; eauto using closure_wf_mono.
  rewrite !Forall_forall. eauto using closure_wf_mono.
Qed.

Lemma constructor_wf_mono c : on_constructor_value P c → constructor_wf A c → constructor_wf B c.
Proof.
  intros [Hf Hi] [Hf' Hi']. rewrite Forall_forall in Hi, Hi'. split.
  - intros i f Hx. apply field_wf_mono; [by eapply Forall_lookup_1|auto].
  - rewrite Forall_forall. eauto using closure_wf_mono.
Qed.

Lemma Forall_wf_mono l : Forall P l → Forall (vok A) l → Forall (vok B) l.
Proof. rewrite !Forall_forall. unfold P. eauto. Qed.

Lemma vok_mono v : vok A v → vok B v.
Proof.
  revert v. apply (value_ind P (λ n, nok A n → nok B n)).
  - intros v H. unfold P. rewrite !vok_unfold.
    destruct v; cbn in *; unfold P in *; try tauto;
      try (intros [? ?]; destruct H; split; auto using closure_wf_mono, Forall_wf_mono; fail).
    intros (H1 & H2 & H3). destruct H as (I1 & I2 & I3). split_and!.
    + intros i c Hc. apply closure_wf_mono; [by eapply Forall_lookup_1|auto].
    + rewrite Forall_forall in *. eauto using constructor_wf_mono.
    + by apply Forall_wf_mono.
  - intros n H. rewrite !nok_unfold. destruct n; cbn in *; unfold P in *; try tauto; auto.
    intros (? & ? & ?). destruct H as (? & ? & ?). split_and!; auto using Forall_wf_mono.
Qed.
End mono.

Section shift.
Context (A : nat → bool) (L n : nat) (HL : below A L).
Let P v := vok A v → embed (L + n) v = shift_up (embed L v) n 0.

Lemma Forall_embed_shift l :
  Forall P l → Forall (vok A) l →
  List.map (embed (L + n)) l = List.map (λ t, shift_up t n 0) (List.map (embed L) l).
Proof.
  intros H Hl. rewrite List.map_map. induction H as [|v l Hv _ IH]; [done|].
  apply Forall_cons in Hl as [? ?]. cbn. f_equal; auto.
Qed.

Lemma embed_closure_shift k c :
  on_closure P c → closure_wf A k c →
  embed_closure (embed (L + n)) k c = shift_up (embed_closure (embed L) k c) n k.
Proof.
  intros H [He Hs]. unfold embed_closure. rewrite shift_inst.
  - by rewrite (Forall_embed_shift _ H He), map_rev.
  - by rewrite length_rev, length_map.
Qed.

Lemma Forall_closure_shift k cs :
  Forall (on_closure P) cs → Forall (closure_wf A k) cs →
  List.map (embed_closure (embed (L + n)) k) cs =
    List.map (λ t, shift_up t n k) (List.map (embed_closure (embed L) k) cs).
Proof.
  intros H Hl. rewrite List.map_map. induction H as [|c cs Hc _ IH]; [done|].
  apply Forall_cons in Hl as [? ?]. cbn. f_equal; auto using embed_closure_shift.
Qed.

Lemma embed_field_shift i f :
  on_field_value P f → field_wf A i f →
  embed_field (embed (L + n)) i f =
    map_field (λ t b, shift_up t n (0 + b)) i (embed_field (embed L) i f).
Proof.
  destruct f as [c|c| |cs]; cbn; intros; f_equal;
    auto using embed_closure_shift, Forall_closure_shift.
Qed.

Lemma mapi_from_wf_ext {T U} (f g : nat → T → U) (Q : T → Prop) (R : nat → T → Prop) j l :
  (∀ i x, Q x → R i x → f i x = g i x) → Forall Q l →
  (∀ i x, l !! i = Some x → R (j + i) x) → mapi_from f j l = mapi_from g j l.
Proof.
  intros H HQ. revert j. induction HQ as [|x l Hx _ IH]; intros j HR; [done|]. cbn. f_equal.
  - apply H; [done|]. specialize (HR 0 x eq_refl). by rewrite Nat.add_0_r in HR.
  - apply IH. intros i y Hy. rewrite Nat.add_succ_comm. by apply (HR (S i)).
Qed.

Lemma embed_constructor_shift c :
  on_constructor_value P c → constructor_wf A c →
  embed_constructor (embed (L + n)) c =
    map_constructor (λ t b, shift_up t n (0 + b)) (embed_constructor (embed L) c).
Proof.
  intros [H1 H2] [W1 W2]. unfold embed_constructor, map_constructor. cbn [fields indices].
  rewrite mapi_from_mapi_from, mapi_from_length. f_equal.
  - eapply mapi_from_wf_ext; [|exact H1|exact W1]. apply embed_field_shift.
  - by apply Forall_closure_shift.
Qed.

Lemma embed_shift_both :
  (∀ v, P v) ∧ (∀ m, nok A m → embed_neutral (L + n) m = shift_up (embed_neutral L m) n 0).
Proof.
  apply values_ind.
  - intros v H. unfold P. rewrite vok_unfold. destruct v; cbn in *; unfold P in H;
      intros W; decompose [and] H; decompose [and] W; autorewrite with verum; f_equal;
      auto using embed_closure_shift, Forall_embed_shift.
    rewrite shift_apply_terms, shift_Data. f_equal; [|by apply Forall_embed_shift]. f_equal.
    + rewrite mapi_from_mapi_from. eapply mapi_from_wf_ext; [|done|done].
      apply embed_closure_shift.
    + rewrite List.map_map. apply map_ext_in. intros c Hc%list_elem_of_In.
      apply embed_constructor_shift; by eapply Forall_elem.
  - intros m H. rewrite nok_unfold. destruct m; cbn in *; unfold P in H;
      intros W; decompose [and] H; decompose [and] W; autorewrite with verum; try f_equal;
      auto using Forall_embed_shift.
    apply HL in W. destruct (Nat.leb_spec (L + n) k), (Nat.leb_spec L k); try lia.
    rewrite shift_Var. cbn. f_equal. lia.
Qed.
End shift.

Lemma embed_shift A L n v :
  below A L → vok A v → embed (L + n) v = shift_up (embed L v) n 0.
Proof. intros HL. by apply (embed_shift_both A L n HL). Qed.

(** ** The scope of a value *)
Section scope.
Context (A : nat → bool) (L : nat) (HL : below A L).
Let P v := vok A v → scoped L (embed L v).

Lemma Forall_embed_scoped l :
  Forall P l → Forall (vok A) l → Forall (scoped L) (List.map (embed L) l).
Proof.
  induction 1 as [|v l Hv _ IH]; intros Hl; [constructor|].
  apply Forall_cons in Hl as [? ?]. constructor; auto.
Qed.

Lemma embed_closure_scoped k c :
  on_closure P c → closure_wf A k c → scoped (L + k) (embed_closure (embed L) k c).
Proof.
  intros H [He Hs]. apply scoped_inst.
  - apply List.Forall_rev. by apply Forall_embed_scoped.
  - by rewrite length_rev, length_map.
Qed.

Lemma Forall_closure_scoped k cs :
  Forall (on_closure P) cs → Forall (closure_wf A k) cs →
  Forall (scoped (L + k)) (List.map (embed_closure (embed L) k) cs).
Proof.
  induction 1 as [|c cs Hc _ IH]; intros Hl; [constructor|].
  apply Forall_cons in Hl as [? ?]. constructor; auto using embed_closure_scoped.
Qed.

Lemma Forall_scoped_tagged k l :
  Forall (scoped (L + k)) l → Forall (λ c, scoped (L + c.2) c.1) ((λ t, (t, k)) <$> l).
Proof. by rewrite Forall_fmap. Qed.

Lemma embed_constructor_scoped c :
  on_constructor_value P c → constructor_wf A c →
  Forall (λ c, scoped (L + c.2) c.1) (constructor_children (embed_constructor (embed L) c)).
Proof.
  intros [H1 H2] [W1 W2]. apply Forall_app. split.
  - cbn [embed_constructor fields]. clear H2 W2. revert W1.
    change (∀ i f, fields c !! i = Some f → field_wf A i f) with
      (∀ i f, fields c !! i = Some f → field_wf A (0 + i) f).
    generalize 0. induction H1 as [|f fs Hf _ IH]; intros j W; [constructor|].
    cbn. apply Forall_app. split.
    + specialize (W 0 f eq_refl). rewrite Nat.add_0_r in W.
      destruct f as [x|x| |xs]; cbn in *.
      * apply Forall_cons_2; [by apply embed_closure_scoped|constructor].
      * apply Forall_cons_2; [by apply embed_closure_scoped|constructor].
      * constructor.
      * by apply Forall_scoped_tagged, Forall_closure_scoped.
    + apply IH. intros i g Hg. rewrite Nat.add_succ_comm. by apply (W (S i)).
  - cbn [embed_constructor fields indices]. rewrite mapi_from_length.
    by apply Forall_scoped_tagged, Forall_closure_scoped.
Qed.

Lemma embed_scoped_both : (∀ v, P v) ∧ (∀ m, nok A m → scoped L (embed_neutral L m)).
Proof.
  apply values_ind.
  - intros v H. unfold P. rewrite vok_unfold. destruct v; cbn in *; unfold P in H;
      intros W; decompose [and] H; decompose [and] W;
      try (rewrite scoped_children by done; cbn; repeat apply Forall_cons_2; cbn [fst snd];
           rewrite ?Nat.add_0_r; try apply Forall_nil; auto using embed_closure_scoped; fail).
    + rewrite scoped_apply_terms. split; [|by apply Forall_embed_scoped].
      rewrite scoped_children by done. cbn. apply Forall_app. split.
      * rewrite Forall_lookup. intros i x. rewrite lookup_mapi_from, lookup_mapi_from.
        destruct (ixs !! i) as [c|] eqn:Hc; [|done]. intros [= <-]. cbn.
        apply embed_closure_scoped; [by eapply Forall_lookup_1|auto].
      * apply List.Forall_concat. rewrite Forall_fmap, Forall_map.
        rewrite Forall_forall. intros c Hc. cbn.
        apply embed_constructor_scoped; by eapply Forall_elem.
    + rewrite scoped_children by done. apply Forall_cons_2; cbn [fst snd]; rewrite ?Nat.add_0_r; auto.
      apply Forall_scoped_tagged. rewrite Nat.add_0_r. by apply Forall_embed_scoped.
    + auto.
  - intros m H. rewrite nok_unfold. destruct m; cbn in *; unfold P in H;
      intros W; decompose [and] H; decompose [and] W; auto;
      try (rewrite scoped_children by done; cbn; repeat apply Forall_cons_2; cbn [fst snd];
           rewrite ?Nat.add_0_r; try apply Forall_nil; auto; fail).
    + rewrite scoped_children by done. cbn. repeat apply Forall_cons_2; cbn [fst snd]; rewrite ?Nat.add_0_r; auto.
      apply Forall_scoped_tagged. rewrite Nat.add_0_r. by apply Forall_embed_scoped.
    + apply HL in W. destruct (Nat.leb_spec L k); [lia|]. apply scoped_var. lia.
Qed.
End scope.

Lemma embed_scoped A L v : below A L → vok A v → scoped L (embed L v).
Proof. intros HL. by apply (embed_scoped_both A L HL). Qed.

(** ** Environment capture

    [capture] keeps only the environment slots a body refers to and renumbers
    its variables.  The substitution the captured environment stands for has
    the same effect on the captured body as the whole environment on the body,
    and the captured body is in scope. *)

#[local] Arguments shift_up : simpl never.

(** ** Lists *)
Lemma rev_lookup {A} (l : list A) i : i < length l → rev l !! i = l !! (length l - 1 - i).
Proof.
  intros H. rewrite rev_alt. fold (reverse l). rewrite reverse_lookup by done. f_equal. lia.
Qed.

Lemma filter_full {A} (f : A → bool) l : length (List.filter f l) = length l → List.filter f l = l.
Proof.
  induction l as [|x l IH]; [done|]. cbn. pose proof (filter_length_le f l).
  destruct (f x); cbn; intros; [f_equal; auto with lia|lia].
Qed.

Lemma omap_lookup_total {A} (l : list A) ps :
  Forall (λ p, p < length l) ps →
  length (omap (λ p, l !! p) ps) = length ps ∧
  ∀ r p, ps !! r = Some p → omap (λ p, l !! p) ps !! r = l !! p.
Proof.
  induction 1 as [|p ps Hp _ [IH1 IH2]]; [done|]. cbn.
  destruct (lookup_lt_is_Some_2 l p Hp) as [x Hx]. rewrite Hx. cbn. split; [by f_equal|].
  intros [|r] q; cbn; [intros [= <-]; by rewrite Hx|apply IH2].
Qed.

Lemma omap_lookup_seq {A} (l : list A) : omap (λ p, l !! p) (seq 0 (length l)) = l.
Proof.
  apply list_eq. intros i.
  destruct (omap_lookup_total l (seq 0 (length l))) as [HL H].
  { apply Forall_forall. intros p Hp%elem_of_seq. lia. }
  destruct (Nat.lt_ge_cases i (length l)) as [Hi|Hi].
  - apply H. by apply lookup_seq_lt.
  - rewrite !lookup_ge_None_2; [done|lia|]. by rewrite HL, length_seq.
Qed.

Lemma rank_of_lookup p ps : p ∈ ps → ps !! rank_of p ps = Some p.
Proof.
  induction ps as [|q ps IH]; [by intros ?%elem_of_nil|]. cbn. intros H.
  destruct (Nat.eqb_spec p q) as [->|]; [done|]. cbn. apply IH.
  apply elem_of_cons in H as [->|]; done.
Qed.

Lemma env_position_Some len i p : env_position len i = Some p ↔ i < len ∧ p = len - 1 - i.
Proof.
  unfold env_position, checked_sub. destruct (Nat.leb_spec (i + 1) len); split;
    intros; simplify_eq; try lia; f_equal; lia.
Qed.

(** ** Free positions *)
Section capture.
Context (t : Term) (k len : nat).
Let ps := free_positions t k len.

Lemma free_position_elem i :
  contains_free_by t k (λ j, j =? i) = true → i < len → len - 1 - i ∈ ps.
Proof.
  intros H Hi. apply list_elem_of_In, filter_In. split; [apply in_seq; lia|].
  apply contains_free_by_witness. exists i. split; [|done].
  destruct (env_position len i) as [q|] eqn:Hq.
  - apply env_position_Some in Hq as [_ ->]. apply Nat.eqb_refl.
  - assert (env_position len i = Some (len - 1 - i)) by (by apply env_position_Some).
    congruence.
Qed.

Lemma free_positions_lt : Forall (λ p, p < len) ps.
Proof.
  apply Forall_forall. intros p Hp%list_elem_of_In. apply filter_In in Hp as [Hp _].
  apply in_seq in Hp. lia.
Qed.

(** The variables that do not occur. *)
Definition absent (i : nat) : bool :=
  negb (bool_decide (i < len ∧ len - 1 - i ∈ ps)).

Lemma absent_free : scoped (len + k) t → contains_free_by t k absent = false.
Proof.
  intros Hs. apply not_true_is_false. intros (i & Hi & H)%contains_free_by_witness.
  unfold absent in Hi. apply negb_true_iff, bool_decide_eq_false in Hi. apply Hi.
  enough (i < len) by (split; [done|by apply free_position_elem]).
  apply (scoped_occurs (len + k)) in H; [lia|done].
Qed.

Lemma absent_false i :
  absent i = false → i < len ∧ len - 1 - i ∈ ps ∧ rank_of (len - 1 - i) ps < length ps.
Proof.
  unfold absent. intros H%negb_false_iff%bool_decide_eq_true. destruct H as [H1 H2].
  split_and!; [done|done|]. by eapply lookup_lt_Some, rank_of_lookup.
Qed.

Lemma rebase_free i d :
  absent i = false →
  rebase ps len (d + i) d = Var (d + (length ps - 1 - rank_of (len - 1 - i) ps)).
Proof.
  intros (Hi & Hp & Hr)%absent_false. unfold rebase.
  rewrite checked_sub_le by lia. replace (d + i - d) with i by lia.
  replace (env_position len i) with (Some (len - 1 - i))
    by (symmetry; by apply env_position_Some).
  f_equal. lia.
Qed.
End capture.

Lemma rebase_lt ps len i d : i < d → rebase ps len i d = Var i.
Proof. intros H. unfold rebase. by rewrite checked_sub_gt. Qed.

(** ** Properties *)
Lemma capture_env t (e : Env) k : env (capture t e k) = omap (λ p, e !! p) (free_positions t k (length e)).
Proof. done. Qed.

Lemma capture_scoped t (e : Env) k :
  scoped (length e + k) t →
  scoped (length (env (capture t e k)) + k) (body (capture t e k)).
Proof.
  intros Hs. rewrite capture_env.
  rewrite (proj1 (omap_lookup_total e _ (free_positions_lt t k (length e)))).
  unfold capture. cbn [body]. destruct (Nat.eqb_spec (length (free_positions t k (length e))) (length e)) as [->|_];
    [done|].
  eapply scoped_mv_free; [|by apply absent_free]. intros n i Hi.
  destruct (Nat.lt_ge_cases i (k + n)) as [Hlt|Hge].
  - rewrite rebase_lt by done. apply scoped_var. lia.
  - destruct Hi as [|Hi]; [lia|]. replace i with (k + n + (i - (k + n))) at 1 by lia.
    rewrite rebase_free by done. apply absent_false in Hi as (_ & _ & Hr).
    apply scoped_var. lia.
Qed.

Lemma capture_inst (emb : Value → Term) t (e : Env) k :
  scoped (length e + k) t →
  embed_closure emb k (capture t e k) = inst_at k (rev (List.map emb e)) t.
Proof.
  intros Hs. unfold embed_closure, capture. cbn [env body].
  pose proof (omap_lookup_total e _ (free_positions_lt t k (length e))) as [HL Hl].
  destruct (Nat.eqb_spec (length (free_positions t k (length e))) (length e)) as [E|_].
  { unfold free_positions at 1. rewrite filter_full, omap_lookup_seq; [done|].
    unfold free_positions in E. by rewrite E, length_seq. }
  unfold inst_at. set (ps := free_positions t k (length e)) in *.
  rewrite (mv_compose t k k k _ _ (λ i d, map_variables (rebase ps (length e) i d) d
    (inst_var (rev (List.map emb (omap (λ p, e !! p) ps)))))) by done.
  eapply mv_ext_free; [|by apply absent_free]. intros n i Hi.
  destruct (Nat.lt_ge_cases i (k + n)) as [Hlt|Hge].
  { rewrite rebase_lt by done. cbn. by rewrite !inst_var_lt by done. }
  destruct Hi as [|Hi]; [lia|]. replace i with (k + n + (i - (k + n))) by lia.
  revert Hi. generalize (i - (k + n)) as j. intros j Hj. unfold ps.
  rewrite (rebase_free t k) by done. fold ps.
  apply absent_false in Hj as (Hj & Hp & Hr). fold ps in Hp, Hr. cbn [map_variables].
  destruct (lookup_lt_is_Some_2 e (length e - 1 - j)) as [x Hx]; [lia|].
  apply rank_of_lookup in Hp. specialize (Hl _ _ Hp). rewrite Hx in Hl.
  rewrite !(inst_var_at _ _ _ (emb x)); [done| |].
  - rewrite rev_lookup by (rewrite length_map; lia). rewrite length_map.
    change (List.map emb e) with (emb <$> e). by rewrite list_lookup_fmap, Hx.
  - rewrite rev_lookup by (rewrite length_map, HL; lia). rewrite length_map, HL.
    change (List.map emb ?l) with (emb <$> l). rewrite list_lookup_fmap.
    replace (length ps - 1 - (length ps - 1 - rank_of (length e - 1 - j) ps))
      with (rank_of (length e - 1 - j) ps) by lia.
    by rewrite Hl.
Qed.

Lemma capture_wf A t (e : Env) k :
  Forall (vok A) e → scoped (length e + k) t → closure_wf A k (capture t e k).
Proof.
  intros He Hs. split; [|by apply capture_scoped]. rewrite capture_env.
  apply Forall_forall. intros x (p & _ & Hp)%list_elem_of_omap. by eapply Forall_lookup_1.
Qed.

(** ** Captured declarations *)
Lemma mapi_from_lookup_ext {T U} (f g : nat → T → U) j l :
  (∀ i x, l !! i = Some x → f (j + i) x = g (j + i) x) → mapi_from f j l = mapi_from g j l.
Proof.
  revert j. induction l as [|x l IH]; intros j H; [done|]. cbn. f_equal.
  - specialize (H 0 x eq_refl). by rewrite Nat.add_0_r in H.
  - apply IH. intros i y Hy. rewrite Nat.add_succ_comm. by apply (H (S i)).
Qed.

Section capture_data.
Context (A : nat → bool) (emb : Value → Term) (e : Env) (He : Forall (vok A) e).
Let σ := rev (List.map emb e).

Lemma capture_list k ts :
  Forall (scoped (length e + k)) ts →
  Forall (closure_wf A k) (List.map (λ t, capture t e k) ts) ∧
  List.map (embed_closure emb k) (List.map (λ t, capture t e k) ts) =
    List.map (λ t, inst_at k σ t) ts.
Proof.
  induction 1 as [|t ts Ht _ [IH1 IH2]]; [by split; [constructor|]|]. cbn. split.
  - constructor; [by apply capture_wf|done].
  - rewrite IH2. f_equal. by apply capture_inst.
Qed.

Lemma capture_field_spec i f :
  Forall (λ c, scoped (length e + c.2) c.1) (field_children i f) →
  field_wf A i (capture_field e i f) ∧
  embed_field emb i (capture_field e i f) = map_field (λ t b, inst_at b σ t) i f.
Proof.
  intros H. destruct f as [t|t| |ts]; cbn in *; rewrite ?Forall_cons in H; cbn in H.
  - destruct H as [H _]. split; [by apply capture_wf|]. f_equal. by apply capture_inst.
  - destruct H as [H _]. split; [by apply capture_wf|]. f_equal. by apply capture_inst.
  - done.
  - rewrite Forall_fmap in H. apply (capture_list i) in H as [H1 H2]. split; [exact H1|]. f_equal. exact H2.
Qed.

Lemma capture_constructor_spec c :
  Forall (λ c, scoped (length e + c.2) c.1) (constructor_children c) →
  constructor_wf A (capture_constructor e c) ∧
  embed_constructor emb (capture_constructor e c) = map_constructor (λ t b, inst_at b σ t) c.
Proof.
  intros [Hf Hi]%Forall_app. rewrite Forall_fmap in Hi.
  apply (capture_list (length (fields c))) in Hi as [Hi1 Hi2].
  assert (Hfs : ∀ i f, fields c !! i = Some f →
    field_wf A i (capture_field e i f) ∧
    embed_field emb i (capture_field e i f) = map_field (λ t b, inst_at b σ t) i f).
  { intros i f Hif. apply capture_field_spec. apply List.Forall_concat in Hf.
    rewrite Forall_lookup in Hf. apply (Hf i). by rewrite lookup_mapi_from, Hif. }
  unfold capture_constructor, embed_constructor, map_constructor, constructor_wf.
  cbn [fields indices]. rewrite mapi_from_length, mapi_from_mapi_from. split_and!.
  - intros i f. rewrite lookup_mapi_from. destruct (fields c !! i) as [f'|] eqn:Hf'; [|done].
    intros [= <-]. by apply Hfs.
  - done.
  - f_equal; [|done]. apply mapi_from_lookup_ext. intros i f Hif. by apply Hfs.
Qed.
End capture_data.
