(* ===== verification/EvalSound.v ===== *)
(** * Soundness of evaluation

    Evaluating a term in an environment yields a value that stands for a term
    convertible to the instance of the term under the environment, in every
    conversion context, and evaluation preserves well-formedness. *)
From S2P Require Import Prelude Levels Syntax Subst Inst Context Conversion Checker ConvSpec ConvFacts Nbe Values.

Open Scope verum_scope.
#[local] Arguments shift_up : simpl never.

Lemma conv_eq cv t u : t = u → conv cv t u.
Proof. intros ->. reflexivity. Qed.

(** [conv] with the term written before the value. *)
Definition denotes (A : nat → bool) (L : nat) (cv : Conversion) (t : Term) (v : Value) : Prop :=
  vok A v ∧ conv cv t (embed L v).

Lemma map_result_Ok {E T U} (f : T → outcome E U) l k :
  map_result f l = Ok k → Forall2 (λ x y, f x = Ok y) l k.
Proof.
  revert k. induction l as [|x l IH]; intros k; cbn; [by intros [= <-]; constructor|].
  intros (y & Hy & (k' & Hk & [= <-])%bind_Ok)%bind_Ok. constructor; auto.
Qed.

Lemma esub_app L e k : esub L (e ++ k) = esub L k ++ esub L e.
Proof. unfold esub. by rewrite map_app, rev_app_distr. Qed.

Lemma esub_length L e : length (esub L e) = length e.
Proof. unfold esub. by rewrite length_rev, length_map. Qed.

Lemma esub_lookup L e i v : i < length e → e !! (length e - 1 - i) = Some v → esub L e !! i = Some (embed L v).
Proof.
  intros Hi Hv. unfold esub. rewrite rev_lookup by (by rewrite length_map).
  rewrite length_map. change (List.map (embed L) e) with (embed L <$> e).
  by rewrite list_lookup_fmap, Hv.
Qed.

Lemma Forall2_conv_denotes A L cv ts vs :
  Forall2 (denotes A L cv) ts vs → Forall (vok A) vs ∧ Forall2 (conv cv) ts (List.map (embed L) vs).
Proof. induction 1 as [|t v ts vs [H1 H2] _ [IH1 IH2]]; split; constructor; auto. Qed.

(** ** Eliminators that do not evaluate *)
Section eliminators.
Context (A : nat → bool) (L : nat) (cv : Conversion).

Lemma vok_neutral n : vok A (VNeutral n) ↔ nok A n.
Proof. by rewrite vok_unfold. Qed.

Lemma vok_stuck v : vok A v → nok A (NStuck v).
Proof. by rewrite nok_unfold. Qed.

Lemma vok_fst n : nok A n → vok A (VNeutral (NFst n)).
Proof. by rewrite vok_neutral, (nok_unfold _ (NFst n)). Qed.

Lemma vok_snd n : nok A n → vok A (VNeutral (NSnd n)).
Proof. by rewrite vok_neutral, (nok_unfold _ (NSnd n)). Qed.

Lemma apply_fst_denotes v : vok A v → denotes A L cv (Fst (embed L v)) (apply_fst v).
Proof.
  intros Hv. destruct v; cbn [apply_fst];
    try (split; [by apply vok_fst, vok_stuck|reflexivity]).
  - split; [by apply vok_fst, vok_neutral|reflexivity].
  - apply vok_unfold in Hv as [? _]. split; [done|apply conv_fst].
Qed.

Lemma apply_snd_denotes v : vok A v → denotes A L cv (Snd (embed L v)) (apply_snd v).
Proof.
  intros Hv. destruct v; cbn [apply_snd];
    try (split; [by apply vok_snd, vok_stuck|reflexivity]).
  - split; [by apply vok_snd, vok_neutral|reflexivity].
  - apply vok_unfold in Hv as [_ ?]. split; [done|apply conv_snd].
Qed.

Lemma apply_identity_elim_denotes m b s (dep : bool) :
  vok A m → vok A b → vok A s →
  denotes A L cv ((if dep then IdElim else J) (embed L m) (embed L b) (embed L s))
    (apply_identity_elim m b s dep).
Proof.
  intros Hm Hb Hs. destruct s; cbn [apply_identity_elim];
    try (split; [destruct dep; apply vok_neutral, nok_unfold; cbn;
      split_and!; try done; by first [apply vok_stuck|apply vok_neutral]|by destruct dep]).
  split; [done|]. destruct dep; [apply conv_IdElim_refl|apply conv_J_refl].
Qed.
End eliminators.

(** ** Evaluation, one level at a time *)
Section sound.
Context (ev : Term → Env → result Value).
Context (ai : Value → Value → list Value → result Value).
Context (A : nat → bool) (L : nat) (cv : Conversion).
Context (ev_ok : ∀ t e v, scoped (length e) t → Forall (vok A) e → ev t e = Ok v →
  denotes A L cv (inst (esub L e) t) v).
Context (ai_ok : ∀ s m cases v, vok A s → vok A m → Forall (vok A) cases →
  ai s m cases = Ok v →
  denotes A L cv (Induct (embed L s) (embed L m) (List.map (embed L) cases)) v).

Lemma apply_fields_denotes c previous v :
  closure_wf A (length previous) c → Forall (vok A) previous →
  apply_fields ev c previous = Ok v →
  denotes A L cv (inst (esub L (env c ++ previous)) (body c)) v.
Proof.
  intros [He Hs] Hp H. apply ev_ok; [by rewrite length_app|by apply Forall_app|done].
Qed.

Lemma apply_denotes c x v :
  closure_wf A 1 c → vok A x → apply ev c x = Ok v →
  denotes A L cv (subst (embed_closure (embed L) 1 c) 0 (embed L x)) v.
Proof.
  intros Hc Hx H. unfold embed_closure. rewrite subst_inst.
  fold (esub L (env c)). change (embed L x :: esub L (env c)) with (esub L [x] ++ esub L (env c)).
  rewrite <- esub_app. apply apply_fields_denotes; [done|by repeat constructor|done].
Qed.

Lemma apply_value_denotes f x v :
  vok A f → vok A x → apply_value ev f x = Ok v →
  denotes A L cv (App (embed L f) (embed L x)) v.
Proof.
  intros Hf Hx H.
  assert (Hstuck : ∀ g, vok A g → denotes A L cv (App (embed L g) (embed L x))
    (VNeutral (NApp (NStuck g) x))).
  { intros g Hg. split; [|reflexivity]. by rewrite vok_neutral, nok_unfold; split; [apply vok_stuck|]. }
  destruct f; cbn [apply_value] in H; try (injection H as <-; by apply Hstuck).
  - destruct (_ <? _); injection H as <-; [|by apply Hstuck].
    apply vok_unfold in Hf as (H1 & H2 & H3). split.
    + apply vok_unfold. split_and!; try done. apply Forall_app; split; [done|by constructor].
    + cbn [embed]. rewrite map_app. unfold apply_terms. rewrite foldl_app. reflexivity.
  - apply vok_unfold in Hf as [_ Hb]. destruct (apply_denotes _ _ _ Hb Hx H) as [Hv Hc].
    split; [done|]. etrans; [apply conv_beta|done].
  - injection H as <-. split; [|reflexivity]. apply vok_neutral, nok_unfold.
    split; [by apply vok_neutral|done].
Qed.

Lemma apply_values_denotes f xs v :
  vok A f → Forall (vok A) xs → apply_values ev f xs = Ok v →
  denotes A L cv (apply_terms (embed L f) (List.map (embed L) xs)) v.
Proof.
  revert f. induction xs as [|x xs IH]; intros f Hf Hxs; cbn.
  { intros [= <-]. split; [done|reflexivity]. }
  apply Forall_cons in Hxs as [Hx Hxs]. intros (g & Hg & H)%bind_Ok.
  destruct (apply_value_denotes _ _ _ Hf Hx Hg) as [Hgv Hgc].
  destruct (IH g Hgv Hxs H) as [Hv Hc]. split; [done|].
  etrans; [|exact Hc]. by apply conv_apply_head.
Qed.

(** The branch of an induction, as [apply_case] builds it. *)
Lemma apply_branch_denotes m cases fs args result v i :
  vok A m → Forall (vok A) cases → vok A result → Forall (vok A) args →
  apply_branch ev ai m cases result (zip fs args) = Ok v →
  denotes A L cv
    (apply_case (embed L result) (embed L m) (List.map (embed L) cases)
       (mapi_from (embed_field (embed L)) i fs) (List.map (embed L) args)) v.
Proof.
  intros Hm Hcases. revert args result i.
  induction fs as [|f fs IH]; intros [|x args] result i Hr Hargs;
    try (cbn; intros [= <-]; split; [done|reflexivity]).
  apply Forall_cons in Hargs as [Hx Hargs]. cbn [zip zip_with apply_branch].
  intros (r1 & H1 & (r2 & H2 & H)%bind_Ok)%bind_Ok.
  destruct (apply_value_denotes _ _ _ Hr Hx H1) as [Hr1 Hc1].
  set (head := if is_recursive_value f
    then App (App (embed L result) (embed L x))
           (Induct (embed L x) (embed L m) (List.map (embed L) cases))
    else App (embed L result) (embed L x)).
  assert (denotes A L cv head r2) as [Hr2 Hc2].
  { unfold head. destruct (is_recursive_value f).
    - apply bind_Ok in H2 as (h & Hh & H2). destruct (ai_ok _ _ _ _ Hx Hm Hcases Hh) as [Hhv Hhc].
      destruct (apply_value_denotes _ _ _ Hr1 Hhv H2) as [? ?]. split; [done|].
      by rewrite Hc1, Hhc.
    - injection H2 as <-. by split. }
  destruct (IH args r2 (S i) Hr2 Hargs H) as [Hv Hc]. split; [done|]. etrans; [|exact Hc].
  unfold apply_case. cbn [zip zip_with mapi_from List.map foldl].
  replace (is_recursive (embed_field (embed L) i f)) with (is_recursive_value f) by (by destruct f).
  fold head. clear -Hc2. generalize (mapi_from (embed_field (embed L)) (S i) fs) as gs.
  revert Hc2. generalize head, (embed L r2), (List.map (embed L) args).
  intros t u ys H gs. revert ys t u H.
  induction gs as [|g gs IH]; intros [|y ys] t u H; try done.
  cbn [zip zip_with foldl]. apply IH. by destruct (is_recursive g); rewrite H.
Qed.

Lemma apply_induct_step_denotes s m cases v :
  vok A s → vok A m → Forall (vok A) cases →
  apply_induct_step ev ai s m cases = Ok v →
  denotes A L cv (Induct (embed L s) (embed L m) (List.map (embed L) cases)) v.
Proof.
  intros Hs Hm Hcases H.
  assert (Hstuck : denotes A L cv (Induct (embed L s) (embed L m) (List.map (embed L) cases))
    (VNeutral (NInduct s m cases))).
  { split; [|reflexivity]. apply vok_neutral, nok_unfold. by split_and!. }
  unfold apply_induct_step in H.
  destruct s as [|[name l ixs cs dargs| | | | | | | | |] k args| | | | | | | |];
    try (injection H as <-; exact Hstuck).
  destruct (cs !! k) as [c|] eqn:Hc; [|injection H as <-; exact Hstuck].
  destruct (cases !! k) as [case|] eqn:Hcase; [|injection H as <-; exact Hstuck].
  destruct (Nat.eqb_spec (length (fields c)) (length args)) as [Hlen|];
    [|injection H as <-; exact Hstuck].
  apply vok_unfold in Hs as [Hd Hargs].
  destruct (apply_branch_denotes m cases (fields c) args case v 0) as [Hv Hconv]; try done.
  { by eapply Forall_lookup_1. }
  split; [done|]. etrans; [|exact Hconv]. cbn [embed]. eapply conv_iota; [reflexivity|].
  cbn [selected_case].
  change (List.map ?f ?l) with (f <$> l). rewrite !list_lookup_fmap, Hc, Hcase. cbn.
  rewrite mapi_from_length, length_fmap, Hlen, Nat.eqb_refl. done.
Qed.
(** The immediate subterms of a term in scope. *)
Ltac scoped_node H :=
  rewrite scoped_children in H by done; cbn [children] in H;
  rewrite ?Forall_cons, ?Forall_app, ?scoped_tagged in H; cbn [fst snd] in H;
  rewrite ?Nat.add_0_r in H.

Lemma eval_list_denotes ts e vs :
  Forall (scoped (length e)) ts → Forall (vok A) e → map_result (λ t, ev t e) ts = Ok vs →
  Forall (vok A) vs ∧ Forall2 (conv cv) (List.map (inst (esub L e)) ts) (List.map (embed L) vs).
Proof.
  intros Hts He H%map_result_Ok. apply Forall2_conv_denotes.
  revert Hts. induction H as [|t v ts vs Ht _ IH]; intros Hts; [constructor|].
  apply Forall_cons in Hts as [? ?]. constructor; [by apply ev_ok|auto].
Qed.

Lemma data_denotes name l ixs cs e :
  scoped (length e) (Data name l ixs cs) → Forall (vok A) e →
  denotes A L cv (inst (esub L e) (Data name l ixs cs))
    (VData name l (mapi_from (λ i t, capture t e i) 0 ixs)
       (List.map (capture_constructor e) cs) []).
Proof.
  intros Hs He. rewrite scoped_children in Hs by done. apply Forall_app in Hs as [Hi Hc].
  assert (Hix : ∀ i t, ixs !! i = Some t → scoped (length e + i) t).
  { intros i t Ht. rewrite Forall_lookup in Hi. apply (Hi i (t, i)).
    by rewrite lookup_mapi_from, Ht. }
  apply List.Forall_concat in Hc. rewrite Forall_fmap in Hc.
  assert (Hctor : ∀ c, c ∈ cs →
    constructor_wf A (capture_constructor e c) ∧
    embed_constructor (embed L) (capture_constructor e c) =
      map_constructor (λ t b, inst_at b (esub L e) t) c).
  { intros c Hin. pose proof (Forall_elem _ _ _ Hc Hin) as H. by apply capture_constructor_spec. }
  split.
  - apply vok_unfold. split_and!; [| |constructor].
    + intros i c. rewrite lookup_mapi_from. destruct (ixs !! i) as [t|] eqn:Ht; [|done].
      intros [= <-]. apply capture_wf; auto.
    + rewrite Forall_map. apply Forall_forall. intros c Hc'. by apply Hctor.
  - cbn [embed apply_terms List.map foldl]. unfold inst_at at 1. cbn [map_variables map_children].
    rewrite mapi_from_mapi_from, List.map_map.
    apply conv_eq. symmetry. f_equal.
    + apply mapi_from_lookup_ext. intros i t Ht. by apply capture_inst, Hix.
    + apply map_ext_in. intros c Hc'%list_elem_of_In. by apply Hctor.
Qed.

(** Every successful evaluation among the hypotheses, with what it denotes. *)
Ltac evaluated :=
  repeat match goal with
  | H : _ ∧ _ |- _ => destruct H
  | H : mbind _ _ = Ok _ |- _ => apply bind_Ok in H as (? & ? & H)
  | H : Ok _ = Ok _ |- _ => injection H as <-
  | Hs : scoped (length ?e) ?t, He : Forall (vok A) ?e, H : ev ?t ?e = Ok _ |- _ =>
      apply (ev_ok _ _ _ Hs He) in H as [? ?]
  end.

(** The value of a term whose head has been computed from values. *)
Lemma denotes_conv t u v : conv cv t u → denotes A L cv u v → denotes A L cv t v.
Proof. intros H [Hv Hc]. split; [done|by etrans]. Qed.

Lemma eval_step_denotes t e v :
  scoped (length e) t → Forall (vok A) e → eval_step ev ai t e = Ok v →
  denotes A L cv (inst (esub L e) t) v.
Proof.
  intros Hs He H.
  assert (Hcap : ∀ b, scoped (length e + 1) b →
    closure_wf A 1 (capture b e 1) ∧
    map_variables b (0 + 1) (inst_var (esub L e)) = embed_closure (embed L) 1 (capture b e 1)).
  { intros b Hb. split; [by apply capture_wf|by symmetry; apply capture_inst]. }
  destruct t; [injection H as <-; by apply data_denotes|..];
    try (scoped_node Hs); cbn [eval_step] in H; evaluated;
    try (split; [by apply vok_unfold|by constructor]);
    try (match goal with Hb : scoped (length e + 1) ?b |- _ => apply Hcap in Hb as [? E] end;
         split; [by apply vok_unfold|]; unfold inst_at; cbn [map_variables map_children embed];
         rewrite E; constructor; [done|reflexivity]).
  - destruct (eval_list_denotes args e x0) as [Hv Hvc]; [done..|].
    split; [by apply vok_unfold|by apply conv_construct].
  - destruct (eval_list_denotes cases e x1) as [Hv Hvc]; [done..|].
    eapply denotes_conv; [by apply conv_induct|by apply ai_ok].
  - apply ev_ok in H; [|by rewrite length_app|by apply Forall_app; split; [|constructor]].
    eapply denotes_conv; [|exact H]. rewrite esub_app.
    change (esub L [x] ++ esub L e) with (embed L x :: esub L e). rewrite <- subst_inst.
    etrans; [apply conv_zeta|]. apply conv_subst; [reflexivity|done].
  - apply scoped_var in Hs. unfold env_position in *. rewrite checked_sub_le by lia.
    destruct (lookup_lt_is_Some_2 e (length e - (i + 1))) as [w Hw]; [lia|].
    rewrite Hw. split; [by eapply Forall_lookup_1|].
    rewrite inst_at_var. change i with (0 + i) at 1.
    rewrite (inst_var_at _ _ _ (embed L w)); [by rewrite shift_up_zero|].
    apply esub_lookup; [done|]. by replace (length e - 1 - i) with (length e - (i + 1)) by lia.
  - eapply denotes_conv; [by apply conv_app|by apply apply_value_denotes].
  - eapply denotes_conv; [by apply conv_fst_cong|by apply apply_fst_denotes].
  - eapply denotes_conv; [by apply conv_snd_cong|by apply apply_snd_denotes].
  - eapply denotes_conv; [by apply conv_J|by apply (apply_identity_elim_denotes _ _ _ _ _ _ false)].
  - eapply denotes_conv;
      [by apply conv_IdElim|by apply (apply_identity_elim_denotes _ _ _ _ _ _ true)].
  - split; [by apply vok_neutral, nok_unfold|by apply conv_funext].
Qed.
End sound.

(** ** Evaluation *)
Lemma eval_denotes_both gas A L cv :
  (∀ t e v, scoped (length e) t → Forall (vok A) e → eval gas t e = Ok v →
    denotes A L cv (inst (esub L e) t) v) ∧
  (∀ s m cases v, vok A s → vok A m → Forall (vok A) cases →
    apply_induct gas s m cases = Ok v →
    denotes A L cv (Induct (embed L s) (embed L m) (List.map (embed L) cases)) v).
Proof.
  induction gas as [|gas [IH1 IH2]]; [done|]. split.
  - intros t e v. cbn [eval]. by apply eval_step_denotes.
  - intros s m cases v. cbn [apply_induct]. by apply apply_induct_step_denotes.
Qed.

Lemma eval_denotes gas A L cv t e v :
  scoped (length e) t → Forall (vok A) e → eval gas t e = Ok v →
  denotes A L cv (inst (esub L e) t) v.
Proof. apply eval_denotes_both. Qed.
