(* ===== verification/ReadbackSound.v ===== *)
(** * Soundness of readback

    Reading a value back below [L] binders gives a term in scope that is
    convertible to the term the value stands for. *)
From S2P Require Import Prelude Levels LevelFacts Syntax Subst Inst Context Conversion Checker ConvSpec ConvFacts Nbe Values EvalSound.

Open Scope verum_scope.
#[local] Arguments shift_up : simpl never.

(** Every level below [L]. *)
Definition levels_below (L : nat) : nat → bool := λ k, k <? L.

Lemma below_levels L : below (levels_below L) L.
Proof. intros k H. by apply Nat.ltb_lt. Qed.

Lemma vok_below A L v : below A L → vok A v → vok (levels_below L) v.
Proof. intros H. apply vok_mono. intros k Hk. apply Nat.ltb_lt. by apply H. Qed.

Lemma vok_raise L n v : vok (levels_below L) v → vok (levels_below (L + n)) v.
Proof. apply vok_mono. unfold levels_below. intros k. rewrite !Nat.ltb_lt. lia. Qed.

Lemma Forall_vok_raise L n vs :
  Forall (vok (levels_below L)) vs → Forall (vok (levels_below (L + n))) vs.
Proof. intros H. eapply Forall_impl; [exact H|]. intros v. apply vok_raise. Qed.

Lemma closure_wf_raise L n k c :
  closure_wf (levels_below L) k c → closure_wf (levels_below (L + n)) k c.
Proof. intros [H1 H2]. split; [by apply Forall_vok_raise|done]. Qed.

(** ** Fresh variables *)
Lemma vok_fresh L n i : i < n → vok (levels_below (L + n)) (fresh (L + i)).
Proof. intros H. apply vok_neutral, nok_unfold. apply Nat.ltb_lt. lia. Qed.

Lemma fresh_values_length L n : length (fresh_values L n) = n.
Proof. unfold fresh_values. by rewrite length_map, length_seq. Qed.

Lemma Forall_vok_fresh L n : Forall (vok (levels_below (L + n))) (fresh_values L n).
Proof.
  unfold fresh_values. rewrite Forall_map, Forall_seq. intros j Hj. apply vok_fresh. lia.
Qed.

Lemma take_fresh L i n : i ≤ n → take i (fresh_values L n) = fresh_values L i.
Proof.
  intros H. unfold fresh_values.
  change (List.map ?f ?l) with (f <$> l). rewrite <- fmap_take. f_equal.
  apply list_eq. intros j. destruct (Nat.lt_ge_cases j i) as [Hj|Hj].
  - by rewrite lookup_take_lt, !lookup_seq_lt by lia.
  - rewrite lookup_take_ge by lia. symmetry. by apply lookup_seq_ge.
Qed.

Lemma esub_fresh L n : esub (L + n) (fresh_values L n) = open_vars n.
Proof.
  apply list_eq. intros i. destruct (Nat.lt_ge_cases i n) as [Hi|Hi].
  - rewrite (esub_lookup _ _ _ (fresh (L + (n - 1 - i)))).
    + unfold open_vars. change (List.map Var (seq 0 n)) with (Var <$> seq 0 n).
      rewrite list_lookup_fmap, lookup_seq_lt by done. cbn.
      destruct (Nat.leb_spec (L + n) (L + (n - 1 - i))); [lia|]. do 2 f_equal. lia.
    + by rewrite fresh_values_length.
    + rewrite fresh_values_length. unfold fresh_values.
      change (List.map ?f ?l) with (f <$> l). by rewrite list_lookup_fmap, lookup_seq_lt by lia.
  - rewrite !lookup_ge_None_2; [done|by rewrite open_vars_length|].
    by rewrite esub_length, fresh_values_length.
Qed.

Lemma esub_raise L n e :
  Forall (vok (levels_below L)) e →
  esub (L + n) e = List.map (λ t, shift_up t n 0) (esub L e).
Proof.
  intros H. unfold esub. rewrite map_rev, List.map_map. f_equal.
  induction H as [|v e Hv _ IH]; [done|]. cbn. f_equal; [|done].
  by apply (embed_shift _ _ _ _ (below_levels L)).
Qed.

(** Opening a closure with fresh variables, and not opening it at all. *)
Lemma open_closure L k c :
  closure_wf (levels_below L) k c →
  inst (esub (L + k) (env c ++ fresh_values L k)) (body c) = embed_closure (embed L) k c.
Proof.
  intros [He Hs]. rewrite esub_app, esub_fresh, esub_raise by done.
  unfold embed_closure. apply inst_open. by rewrite length_rev, length_map.
Qed.

Lemma lift_closure L n c :
  closure_wf (levels_below L) 0 c →
  inst (esub (L + n) (env c ++ [])) (body c) = shift_up (embed_closure (embed L) 0 c) n 0.
Proof.
  intros [He Hs]. rewrite app_nil_r, esub_raise by done. unfold embed_closure.
  rewrite shift_inst; [done|]. by rewrite length_rev, length_map.
Qed.

Section opening.
Context (ev : Term → Env → result Value).
Context (ev_ok : ∀ A L cv t e v, scoped (length e) t → Forall (vok A) e → ev t e = Ok v →
  denotes A L cv (inst (esub L e) t) v).

Lemma open_denotes L k cv c v :
  closure_wf (levels_below L) k c → apply_fields ev c (fresh_values L k) = Ok v →
  denotes (levels_below (L + k)) (L + k) cv (embed_closure (embed L) k c) v.
Proof.
  intros Hc H. rewrite <- open_closure by done.
  eapply apply_fields_denotes; [apply ev_ok| |by apply Forall_vok_fresh|done].
  rewrite fresh_values_length. by apply closure_wf_raise.
Qed.

Lemma lift_denotes L n cv c v :
  closure_wf (levels_below L) 0 c → apply_fields ev c [] = Ok v →
  denotes (levels_below (L + n)) (L + n) cv (shift_up (embed_closure (embed L) 0 c) n 0) v.
Proof.
  intros Hc H. rewrite <- lift_closure by done.
  eapply apply_fields_denotes; [apply ev_ok|by apply closure_wf_raise|constructor|done].
Qed.

Lemma apply_open c L : apply ev c (fresh L) = apply_fields ev c (fresh_values L 1).
Proof. unfold apply, apply_fields, fresh_values. cbn. by rewrite Nat.add_0_r. Qed.
End opening.

(** ** Lists of results *)
Lemma map_result_enumerate {E T U} (f : nat → T → outcome E U) n l k :
  map_result (λ '(i, x), f i x) (mapi_from (λ i x, (i, x)) n l) = Ok k →
  length l = length k ∧
  ∀ i x y, l !! i = Some x → k !! i = Some y → f (n + i) x = Ok y.
Proof.
  revert n k. induction l as [|x l IH]; intros n k; cbn; [by intros [= <-]|].
  intros (y & Hy & (k' & Hk & [= <-])%bind_Ok)%bind_Ok.
  apply IH in Hk as [HL Hk]. cbn. split; [by f_equal|].
  intros [|i] x' y'; cbn; [intros [= <-] [= <-]; by rewrite Nat.add_0_r|].
  rewrite <- Nat.add_succ_comm. apply Hk.
Qed.

Lemma tele_lookup {A} (R : nat → A → A → Prop) n l l' :
  length l = length l' →
  (∀ i x y, l !! i = Some x → l' !! i = Some y → R (n + i) x y) → tele R n l l'.
Proof.
  revert n l'. induction l as [|x l IH]; intros n [|y l'] E H; try done; constructor.
  - specialize (H 0 x y eq_refl eq_refl). by rewrite Nat.add_0_r in H.
  - apply IH; [by injection E|]. intros i x' y' Hx Hy. rewrite Nat.add_succ_comm.
    by apply (H (S i)).
Qed.

Lemma lookup_same_length {A B} (l : list A) (k : list B) i y :
  length l = length k → k !! i = Some y → ∃ x, l !! i = Some x.
Proof. intros HL H%lookup_lt_Some. apply lookup_lt_is_Some_2. lia. Qed.

(** ** Readback, one level at a time *)

(** The term is in scope and convertible to the other in every context. *)
Definition reads_as (L : nat) (t u : Term) : Prop := scoped L t ∧ ∀ cv, conv cv t u.

Section readback.
Context (ev : Term → Env → result Value).
Context (ev_ok : ∀ A L cv t e v, scoped (length e) t → Forall (vok A) e → ev t e = Ok v →
  denotes A L cv (inst (esub L e) t) v).
Context (q : Value → nat → result Term) (qn : Neutral → nat → result Term).
Context (q_ok : ∀ v L t, vok (levels_below L) v → q v L = Ok t → reads_as L t (embed L v)).
Context (qn_ok : ∀ n L t, nok (levels_below L) n → qn n L = Ok t →
  reads_as L t (embed_neutral L n)).

Lemma quote_closure_reads L k c t :
  closure_wf (levels_below L) k c →
  quote_closure ev q c (fresh_values L k) (L + k) = Ok t →
  reads_as (L + k) t (embed_closure (embed L) k c).
Proof.
  intros Hc (v & Hv & H)%bind_Ok.
  assert (∀ cv, denotes (levels_below (L + k)) (L + k) cv (embed_closure (embed L) k c) v) as Hd
    by (intros cv; by apply (open_denotes ev ev_ok)).
  destruct (Hd (conversion (Context.with_foundation Intensional))) as [Hok _].
  destruct (q_ok _ _ _ Hok H) as [Hs Hconv]. split; [done|]. intros cv.
  etrans; [apply Hconv|]. symmetry. apply Hd.
Qed.

Lemma quote_value_reads L c t :
  closure_wf (levels_below L) 0 c → quote_closure ev q c [] L = Ok t →
  reads_as L t (embed_closure (embed L) 0 c).
Proof.
  intros Hc H. rewrite <- (Nat.add_0_r L) in H. apply (quote_closure_reads L 0) in H; [|done].
  by rewrite Nat.add_0_r in H.
Qed.

Lemma quote_body_reads L c t :
  closure_wf (levels_below L) 1 c → quote_body ev q c L = Ok t →
  reads_as (L + 1) t (embed_closure (embed L) 1 c).
Proof.
  unfold quote_body. rewrite apply_open. apply quote_closure_reads.
Qed.

Lemma quote_list_reads L vs ts :
  Forall (vok (levels_below L)) vs → map_result (λ v, q v L) vs = Ok ts →
  Forall (scoped L) ts ∧ ∀ cv, Forall2 (conv cv) ts (List.map (embed L) vs).
Proof.
  intros Hvs H%map_result_Ok. induction H as [|v t vs ts Ht _ IH]; [done|].
  apply Forall_cons in Hvs as [Hv Hvs]. destruct (IH Hvs) as [H1 H2].
  destruct (q_ok _ _ _ Hv Ht) as [Hs Hc]. split; [by constructor|]. intros cv.
  constructor; [apply Hc|apply H2].
Qed.

Lemma quote_closures_read L k cs ts :
  Forall (closure_wf (levels_below L) k) cs →
  map_result (λ c, quote_closure ev q c (fresh_values L k) (L + k)) cs = Ok ts →
  Forall (scoped (L + k)) ts ∧
  ∀ cv, Forall2 (conv cv) ts (List.map (embed_closure (embed L) k) cs).
Proof.
  intros Hcs H%map_result_Ok. induction H as [|c t cs ts Ht _ IH]; [done|].
  apply Forall_cons in Hcs as [Hc Hcs]. destruct (IH Hcs) as [H1 H2].
  destruct (quote_closure_reads _ _ _ _ Hc Ht) as [Hs Hcv]. split; [by constructor|]. intros cv.
  constructor; [apply Hcv|apply H2].
Qed.

Lemma quote_field_reads L n i f d :
  i ≤ n → field_wf (levels_below L) i f →
  quote_field ev q L (fresh_values L n) i f = Ok d →
  field_scoped L i d ∧
  ∀ cv, field_conv (conv (under cv i)) i d (embed_field (embed L) i f).
Proof.
  intros Hi Hf H. unfold quote_field in H. rewrite take_fresh in H by done.
  destruct f as [c|c| |cs]; [..|].
  - apply bind_Ok in H as (t & [Hs Hc]%quote_value_reads & [= <-]); [|done]. split.
    + apply Forall_cons_2; [by rewrite Nat.add_0_r|done].
    + intros cv. eapply field_conv_value; [done|done|]. by apply conv_shift.
  - apply bind_Ok in H as (t & [Hs Hc]%quote_closure_reads & [= <-]); [|done]. split.
    + by apply Forall_cons_2.
    + intros cv. by eapply field_conv_value.
  - injection H as <-. split; [constructor|]. intros cv. by eapply field_conv_rec.
  - apply bind_Ok in H as (ts & [Hs Hc]%quote_closures_read & [= <-]); [|done]. split.
    + by apply scoped_tagged.
    + intros cv. by eapply field_conv_rec.
Qed.

Lemma quote_constructor_reads L c d :
  constructor_wf (levels_below L) c → quote_constructor ev q L c = Ok d →
  constructor_scoped L d ∧
  ∀ cv, constructor_conv (λ i, conv (under cv i)) d (embed_constructor (embed L) c).
Proof.
  intros [Wf Wi] (fs & [HL Hfs]%(map_result_enumerate (quote_field _ _ _ _)) & H)%bind_Ok.
  apply bind_Ok in H as (ixs & Hixs & [= <-]). rewrite fresh_values_length in Hixs.
  apply quote_closures_read in Hixs as [Hs Hc]; [|done].
  assert (Hf : ∀ i f d, fields c !! i = Some f → fs !! i = Some d → field_scoped L i d ∧
    ∀ cv, field_conv (conv (under cv i)) i d (embed_field (embed L) i f)).
  { intros i f d H1 H2. eapply (quote_field_reads _ (length (fields c))); [|by apply Wf|by apply Hfs].
    apply lookup_lt_Some in H1. lia. }
  split.
  - split; cbn [fields indices].
    + intros i d H. destruct (lookup_same_length _ _ _ _ HL H) as [f Hfi]. by eapply Hf.
    + by rewrite <- HL.
  - intros cv. constructor; [|by rewrite <- HL].
    apply tele_lookup; [by rewrite mapi_from_length|]. intros i d e Hd.
    rewrite lookup_mapi_from. destruct (fields c !! i) as [f|] eqn:Hfi; [|done]. intros [= <-].
    by eapply Hf.
Qed.

Lemma quote_constructors_read L cs ds :
  Forall (constructor_wf (levels_below L)) cs →
  map_result (quote_constructor ev q L) cs = Ok ds →
  Forall (constructor_scoped L) ds ∧
  ∀ cv, Forall2 (constructor_conv (λ i, conv (under cv i))) ds
    (List.map (embed_constructor (embed L)) cs).
Proof.
  intros Hcs H%map_result_Ok. induction H as [|c d cs ds Hd _ IH]; [done|].
  apply Forall_cons in Hcs as [Hc Hcs]. destruct (IH Hcs) as [H1 H2].
  destruct (quote_constructor_reads _ _ _ Hc Hd) as [Hs Hcv]. split; [by constructor|].
  intros cv. constructor; [apply Hcv|apply H2].
Qed.

Lemma quote_data_reads L name l ixs cs args t :
  vok (levels_below L) (VData name l ixs cs args) →
  quote_step ev q qn (VData name l ixs cs args) L = Ok t →
  reads_as L t (embed L (VData name l ixs cs args)).
Proof.
  intros (Wi & Wc & Wa)%vok_unfold H. cbn [quote_step] in H.
  apply bind_Ok in H as (us & Hi & H).
  apply (map_result_enumerate
    (λ i c, quote_closure ev q c (take i (fresh_values L (length ixs))) (L + i))) in Hi as [HL Hi].
  apply bind_Ok in H as (ds & [Hcs Hcc]%quote_constructors_read & H); [|done].
  apply bind_Ok in H as (ts & [Has Hac]%quote_list_reads & [= <-]); [|done].
  assert (Hx : ∀ i c t, ixs !! i = Some c → us !! i = Some t →
    reads_as (L + i) t (embed_closure (embed L) i c)).
  { intros i c t Hci Ht. specialize (Hi i c t Hci Ht). cbn in Hi.
    rewrite take_fresh in Hi by (apply lookup_lt_Some in Hci; lia).
    apply quote_closure_reads; auto. }
  split.
  - rewrite scoped_apply_terms, scoped_data. split_and!; [|done..]. intros i t Ht.
    destruct (lookup_same_length _ _ _ _ HL Ht) as [c Hc]. by eapply Hx.
  - intros cv. cbn [embed]. apply conv_apply_terms; [|apply Hac].
    apply conv_data; [done| |apply Hcc].
    apply tele_lookup; [by rewrite mapi_from_length|]. intros i t u Ht.
    rewrite lookup_mapi_from. destruct (ixs !! i) as [c|] eqn:Hc; [|done]. intros [= <-].
    by eapply Hx.
Qed.

(** Every successful readback among the hypotheses. *)
Ltac readback :=
  repeat match goal with
  | H : _ ∧ _ |- _ => destruct H
  | H : mbind _ _ = Ok _ |- _ => apply bind_Ok in H as (? & ? & H)
  | H : Ok _ = Ok _ |- _ => injection H as <-
  | H : q _ _ = Ok _ |- _ => apply q_ok in H as [? ?]; [|done]
  | H : qn _ _ = Ok _ |- _ => apply qn_ok in H as [? ?]; [|done]
  | H : quote_body _ _ _ _ = Ok _ |- _ => apply quote_body_reads in H as [? ?]; [|done]
  | H : map_result _ _ = Ok _ |- _ => apply quote_list_reads in H as [? ?]; [|done]
  end.

(** The scope of a node from that of its children. *)
Ltac scope_node :=
  rewrite scoped_children by done; cbn [children];
  repeat apply Forall_cons_2; cbn [fst snd]; rewrite ?Nat.add_0_r, ?scoped_tagged, ?Nat.add_0_r;
  first [done|constructor].

Lemma quote_step_reads v L t :
  vok (levels_below L) v → quote_step ev q qn v L = Ok t → reads_as L t (embed L v).
Proof.
  intros Hv H. destruct v; [by apply quote_data_reads|..]; apply vok_unfold in Hv;
    cbn [quote_step value_wf] in *; readback;
    try (split; [scope_node|intros cv; cbn [embed]; by constructor]).
  by split.
Qed.

Lemma quote_neutral_step_reads n L t :
  nok (levels_below L) n → quote_neutral_step q qn n L = Ok t →
  reads_as L t (embed_neutral L n).
Proof.
  intros Hn H. destruct n; apply nok_unfold in Hn;
    cbn [quote_neutral_step neutral_wf] in *; readback;
    try (split; [scope_node|intros cv; cbn [embed_neutral]; by constructor]).
  - apply Nat.ltb_lt in Hn. destruct (Nat.leb_spec L k); [lia|].
    split; [apply scoped_var; lia|]. intros cv. cbn [embed_neutral].
    destruct (Nat.leb_spec L k); [lia|reflexivity].
  - by split.
Qed.
End readback.

(** ** Readback *)
Lemma quote_reads_both gas :
  (∀ v L t, vok (levels_below L) v → quote gas v L = Ok t → reads_as L t (embed L v)) ∧
  (∀ n L t, nok (levels_below L) n → quote_neutral gas n L = Ok t →
    reads_as L t (embed_neutral L n)).
Proof.
  induction gas as [|gas [IH1 IH2]]; [done|]. split.
  - intros v L t. apply quote_step_reads; [|done..]. apply eval_denotes.
  - intros n L t. by apply quote_neutral_step_reads.
Qed.

Lemma quote_reads gas A v L t :
  below A L → vok A v → quote gas v L = Ok t → reads_as L t (embed L v).
Proof. intros HA Hv. apply quote_reads_both. by eapply vok_below. Qed.
