(* ===== verification/CompareSound.v ===== *)
(** * Soundness of the comparison of values

    Two values the second kernel finds equal stand for convertible terms, in
    every conversion context. *)
From S2P Require Import Prelude Levels LevelFacts Syntax Subst Inst Context Conversion Checker ConvSpec ConvFacts Nbe Values EvalSound ReadbackSound.

Open Scope verum_scope.
#[local] Arguments shift_up : simpl never.

(** ** The structural equality *)
Section structural.
Let P a := ∀ b, value_eqb a b = true → a = b.

Lemma list_eqb_values l k : Forall P l → list_eqb value_eqb l k = true → l = k.
Proof.
  intros H. revert k. induction H as [|v l Hv _ IH]; intros [|w k]; try done. cbn.
  intros [H1%Hv H2%IH]%andb_true_iff. by subst.
Qed.

Lemma list_eqb_on {T} (eqb : T → T → bool) l k :
  Forall (λ a, ∀ b, eqb a b = true → a = b) l → list_eqb eqb l k = true → l = k.
Proof.
  intros H. revert k. induction H as [|v l Hv _ IH]; intros [|w k]; try done. cbn.
  intros [H1%Hv H2%IH]%andb_true_iff. by subst.
Qed.

Lemma closure_eqb_true c d : on_closure P c → closure_eqb value_eqb c d = true → c = d.
Proof.
  destruct c as [e t], d as [e' t']. intros H [H1%list_eqb_values H2%term_eqb_eq]%andb_true_iff; [|done].
  cbn in *. by subst.
Qed.

Lemma closures_eqb_true cs ds :
  Forall (on_closure P) cs → list_eqb (closure_eqb value_eqb) cs ds = true → cs = ds.
Proof.
  intros H. apply list_eqb_on. eapply Forall_impl; [exact H|]. intros c Hc d.
  by apply closure_eqb_true.
Qed.

Lemma field_value_eqb_true f g :
  on_field_value P f → field_value_eqb (closure_eqb value_eqb) f g = true → f = g.
Proof.
  destruct f as [c|c| |cs], g as [d|d| |ds]; cbn; try done; intros H E; f_equal;
    eauto using closure_eqb_true, closures_eqb_true.
Qed.

Lemma constructor_value_eqb_true c d :
  on_constructor_value P c → constructor_value_eqb (closure_eqb value_eqb) c d = true → c = d.
Proof.
  destruct c as [fs ixs], d as [fs' ixs']. intros [Hf Hi] [H1 H2]%andb_true_iff.
  cbn [fields indices] in *. f_equal; [|by apply closures_eqb_true].
  eapply list_eqb_on; [|exact H1]. eapply Forall_impl; [exact Hf|]. intros f Hff g.
  by apply field_value_eqb_true.
Qed.

Lemma value_eqb_true : (∀ a, P a) ∧ (∀ n m, neutral_eqb n m = true → n = m).
Proof.
  apply values_ind; unfold P.
  - intros a H b. destruct a, b; cbn [value_eqb]; try done; cbn [on_value] in H;
      rewrite ?andb_true_iff, ?String.eqb_eq, ?Nat.eqb_eq, ?Level.level_eqb_eq; intros E;
      decompose [and] H; decompose [and] E; f_equal;
      eauto using closure_eqb_true, closures_eqb_true, list_eqb_values.
    eapply list_eqb_on; [|done]. eapply Forall_impl; [done|]. intros c Hc d.
    by apply constructor_value_eqb_true.
  - intros n H m. destruct n, m; cbn [neutral_eqb]; try done; cbn [on_neutral] in H;
      rewrite ?andb_true_iff, ?Nat.eqb_eq; intros E;
      decompose [and] H; decompose [and] E; f_equal; eauto using list_eqb_values.
Qed.
End structural.

(** ** Comparison, one level at a time *)
Section compare.
Context (ev : Term → Env → result Value).
Context (ev_ok : ∀ A L cv t e v, scoped (length e) t → Forall (vok A) e → ev t e = Ok v →
  denotes A L cv (inst (esub L e) t) v).
Context (eqv : Value → Value → nat → result bool).
Context (eqn : Neutral → Neutral → nat → result bool).
Context (eqv_ok : ∀ a b L, vok (levels_below L) a → vok (levels_below L) b →
  eqv a b L = Ok true → ∀ cv, conv cv (embed L a) (embed L b)).
Context (eqn_ok : ∀ a b L, nok (levels_below L) a → nok (levels_below L) b →
  eqn a b L = Ok true → ∀ cv, conv cv (embed_neutral L a) (embed_neutral L b)).

Lemma values_def_eq_conv a b L :
  Forall (vok (levels_below L)) a → Forall (vok (levels_below L)) b →
  values_def_eq eqv a b L = Ok true →
  ∀ cv, Forall2 (conv cv) (List.map (embed L) a) (List.map (embed L) b).
Proof.
  intros Ha Hb H cv. unfold values_def_eq in H. apply and_checked_true in H as [[= HL%Nat.eqb_eq] H%all_checked_true].
  revert b Hb HL H. induction Ha as [|x a Hx _ IH]; intros [|y b] Hb HL H; try done.
  apply Forall_cons in Hb as [Hy Hb]. apply Forall_cons in H as [Hxy H].
  constructor; [by apply eqv_ok|]. apply IH; [done|by injection HL|done].
Qed.

(** Two terms and values for them, compared. *)
Lemma compare_denoted L t u a b :
  (∀ cv, denotes (levels_below L) L cv t a) → (∀ cv, denotes (levels_below L) L cv u b) →
  eqv a b L = Ok true → ∀ cv, conv cv t u.
Proof.
  intros Ha Hb H cv. destruct (Ha cv) as [Hva Hca], (Hb cv) as [Hvb Hcb].
  rewrite Hca, Hcb. by apply eqv_ok.
Qed.

Lemma closures_def_eq_conv k L a b :
  closure_wf (levels_below L) k a → closure_wf (levels_below L) k b →
  closures_def_eq ev eqv (fresh_values L k) (L + k) a b = Ok true →
  ∀ cv, conv cv (embed_closure (embed L) k a) (embed_closure (embed L) k b).
Proof.
  intros Ha Hb (va & Hva & (vb & Hvb & H)%bind_Ok)%bind_Ok.
  eapply compare_denoted; [| |exact H]; intros cv; by apply (open_denotes ev ev_ok).
Qed.

Lemma bodies_def_eq_conv L a b :
  closure_wf (levels_below L) 1 a → closure_wf (levels_below L) 1 b →
  bodies_def_eq ev eqv a b L = Ok true →
  ∀ cv, conv cv (embed_closure (embed L) 1 a) (embed_closure (embed L) 1 b).
Proof. unfold bodies_def_eq. rewrite !apply_open. apply closures_def_eq_conv. Qed.

Lemma recursive_indices_conv L i f values :
  field_wf (levels_below L) i f →
  Nbe.recursive_indices ev f (fresh_values L i) = Ok (Some values) →
  Forall (vok (levels_below (L + i))) values ∧
  ∃ ts, Conversion.recursive_indices (embed_field (embed L) i f) = Some ts ∧
    ∀ cv, Forall2 (conv cv) ts (List.map (embed (L + i)) values).
Proof.
  destruct f as [c|c| |cs]; cbn; intros Hf H; [done|done| |].
  - injection H as <-. split; [constructor|]. by exists [].
  - apply bind_Ok in H as (vs & H%map_result_Ok & [= <-]).
    assert (∀ cv, Forall2 (denotes (levels_below (L + i)) (L + i) cv)
      (List.map (embed_closure (embed L) i) cs) vs) as Hd.
    { intros cv. induction H as [|c v cs vs Hv _ IH]; [constructor|].
      apply Forall_cons in Hf as [Hc Hf]. constructor; [by apply (open_denotes ev ev_ok)|auto]. }
    split; [by eapply Forall2_conv_denotes, (Hd (conversion (Context.with_foundation Intensional)))|].
    eexists; split; [done|]. intros cv. by eapply Forall2_conv_denotes.
Qed.

Lemma recursive_indices_none L i f :
  Nbe.recursive_indices ev f (fresh_values L i) = Ok None →
  Conversion.recursive_indices (embed_field (embed L) i f) = None.
Proof.
  destruct f as [c|c| |cs]; cbn; try done. by intros (vs & _ & ?)%bind_Ok.
Qed.

Lemma domain_denotes L i f v :
  field_wf (levels_below L) i f → domain ev f (fresh_values L i) = Ok (Some v) →
  ∃ t, field_value_type (embed_field (embed L) i f) i = Some t ∧
    ∀ cv, denotes (levels_below (L + i)) (L + i) cv t v.
Proof.
  destruct f as [c|c| |cs]; cbn; intros Hf H; try done;
    apply bind_Ok in H as (w & Hw & [= <-]); eexists; split; try done; intros cv.
  - by apply (lift_denotes ev ev_ok).
  - by apply (open_denotes ev ev_ok).
Qed.

Lemma field_def_eq_conv L n i f g :
  i ≤ n → field_wf (levels_below L) i f → field_wf (levels_below L) i g →
  field_def_eq ev eqv L (fresh_values L n) i f g = Ok true →
  ∀ cv, field_conv (conv (under cv i)) i (embed_field (embed L) i f) (embed_field (embed L) i g).
Proof.
  intros Hi Hf Hg H cv. unfold field_def_eq in H. rewrite take_fresh in H by done.
  apply bind_Ok in H as (ra & Ha & (rb & Hb & H)%bind_Ok).
  destruct ra as [a|], rb as [b|]; try done.
  - apply recursive_indices_conv in Ha as (Wa & ta & Ea & Ca); [|done].
    apply recursive_indices_conv in Hb as (Wb & tb & Eb & Cb); [|done].
    eapply field_conv_rec; [done|done|]. etrans; [apply Ca|].
    etrans; [by apply values_def_eq_conv|]. symmetry. apply Cb.
  - apply bind_Ok in H as (da & Hda & (db & Hdb & H)%bind_Ok).
    destruct da as [da|], db as [db|]; try done.
    apply domain_denotes in Hda as (ta & Ea & Ca); [|done].
    apply domain_denotes in Hdb as (tb & Eb & Cb); [|done].
    eapply field_conv_value; [done|done|]. by eapply compare_denoted.
Qed.

(** Two lists of the same length whose entries are compared with their
    positions. *)
Lemma enumerate_checked {T} (check : nat → T → T → result bool) n l k :
  all_checked (λ '(i, (a, b)), check i a b) (mapi_from (λ i x, (i, x)) n (zip l k)) = Ok true →
  ∀ i a b, l !! i = Some a → k !! i = Some b → check (n + i) a b = Ok true.
Proof.
  intros H%all_checked_true i a b Ha Hb. rewrite Forall_lookup in H. apply (H i (_, (a, b))).
  rewrite lookup_mapi_from, lookup_zip_with, Ha, Hb. done.
Qed.

Lemma constructor_def_eq_conv L c d :
  constructor_wf (levels_below L) c → constructor_wf (levels_below L) d →
  Nbe.constructor_def_eq ev eqv L c d = Ok true →
  ∀ cv, constructor_conv (λ i, conv (under cv i)) (embed_constructor (embed L) c)
    (embed_constructor (embed L) d).
Proof.
  intros [Wc Wc'] [Wd Wd'] H cv. unfold Nbe.constructor_def_eq in H.
  apply and_checked_true in H as [H Hf].
  apply and_checked_true in H as [[[= El%Nat.eqb_eq] [= Ei%Nat.eqb_eq]]%and_checked_true Hi].
  pose proof (enumerate_checked (field_def_eq ev eqv L (fresh_values L (length (fields c)))) 0
    _ _ Hf) as Hfs.
  unfold embed_constructor. constructor.
  - apply tele_lookup; [by rewrite !mapi_from_length|]. intros i x y.
    rewrite !lookup_mapi_from. destruct (fields c !! i) as [f|] eqn:Hcf; [|done].
    destruct (fields d !! i) as [g|] eqn:Hdg; [|done]. intros [= <-] [= <-].
    eapply field_def_eq_conv; [|by apply Wc|by apply Wd|by apply Hfs].
    apply lookup_lt_Some in Hcf. lia.
  - rewrite mapi_from_length, <- El. rewrite fresh_values_length in Hi. clear Hf Hfs.
    apply all_checked_true in Hi. rewrite <- El in Wd'. revert Ei Wc' Wd' Hi.
    generalize (indices c), (indices d). intros l. induction l as [|a l IH]; intros [|b k] E Wa Wb H;
      try done.
    apply Forall_cons in Wa as [? ?], Wb as [? ?], H as [? ?]. constructor; [|auto with lia].
    by eapply closures_def_eq_conv.
Qed.

Lemma data_def_eq_conv an al ai ac aa bn bl bi bc ba L :
  vok (levels_below L) (VData an al ai ac aa) → vok (levels_below L) (VData bn bl bi bc ba) →
  def_eq_step ev eqv eqn (VData an al ai ac aa) (VData bn bl bi bc ba) L = Ok true →
  ∀ cv, conv cv (embed L (VData an al ai ac aa)) (embed L (VData bn bl bi bc ba)).
Proof.
  intros (Wai & Wac & Waa)%vok_unfold (Wbi & Wbc & Wba)%vok_unfold H cv. cbn [def_eq_step] in H.
  apply and_checked_true in H as [H Hc]. apply and_checked_true in H as [H [= Ec%Nat.eqb_eq]].
  apply and_checked_true in H as [H Hi]. apply and_checked_true in H as [H [= Ei%Nat.eqb_eq]].
  apply and_checked_true in H as [[= H] Ha]. apply andb_true_iff in H as [->%String.eqb_eq Hl].
  pose proof (enumerate_checked (λ i a b, closures_def_eq ev eqv
    (take i (fresh_values L (length ai))) (L + i) a b) 0 _ _ Hi) as His.
  cbn [embed]. apply conv_apply_terms; [|by apply values_def_eq_conv].
  apply conv_data; [by apply level_eq_equiv| |].
  - apply tele_lookup; [by rewrite !mapi_from_length|]. intros i x y.
    rewrite !lookup_mapi_from. destruct (ai !! i) as [c|] eqn:Hac; [|done].
    destruct (bi !! i) as [d|] eqn:Hbd; [|done]. intros [= <-] [= <-].
    specialize (His _ _ _ Hac Hbd). cbn in His.
    rewrite take_fresh in His by (apply lookup_lt_Some in Hac; lia).
    by apply closures_def_eq_conv; [apply Wai|apply Wbi|].
  - clear -Hc Ec Wac Wbc ev_ok eqv_ok. apply all_checked_true in Hc. revert bc Ec Wbc Hc.
    induction Wac as [|c ac Wc _ IH]; intros [|d bc] E Wbc H; try done.
    apply Forall_cons in Wbc as [? ?], H as [? ?]. constructor; [|auto with lia].
    by apply constructor_def_eq_conv.
Qed.

(** ** Extensionality *)
Lemma embed_fresh L : embed (L + 1) (fresh L) = Var 0.
Proof. cbn. destruct (Nat.leb_spec (L + 1) L); [lia|]. f_equal. lia. Qed.

Lemma eta_match_conv d c other L :
  vok (levels_below L) (VLam d c) → vok (levels_below L) other →
  Nbe.eta_match ev eqv c other L = Ok true →
  ∀ cv, conv cv (embed L (VLam d c)) (embed L other).
Proof.
  intros [_ Hc]%vok_unfold Ho (b & Hb & (o & Hob & H)%bind_Ok)%bind_Ok cv. rewrite apply_open in Hb.
  etrans; [apply conv_lam; [reflexivity|]|apply (conv_eta cv (embed L d))].
  rewrite <- (embed_shift _ _ 1 _ (below_levels L)), <- (embed_fresh L) by done.
  eapply compare_denoted; [| |exact H]; intros cv'.
  - by apply (open_denotes ev ev_ok).
  - eapply apply_value_denotes; [apply ev_ok|by apply vok_raise| |done].
    pose proof (vok_fresh L 1 0) as Hf. rewrite Nat.add_0_r in Hf. apply Hf. lia.
Qed.

Lemma pair_eta_conv a b p L :
  vok (levels_below L) (VPair a b) → vok (levels_below L) p →
  eqv a (apply_fst p) L &&? eqv b (apply_snd p) L = Ok true →
  ∀ cv, conv cv (embed L (VPair a b)) (embed L p).
Proof.
  intros [Ha Hb]%vok_unfold Hp [H1 H2]%and_checked_true cv.
  destruct (apply_fst_denotes _ L cv p Hp) as [Hf Cf], (apply_snd_denotes _ L cv p Hp) as [Hs Cs].
  cbn [embed]. rewrite (eqv_ok _ _ _ Ha Hf H1 cv), (eqv_ok _ _ _ Hb Hs H2 cv), <- Cf, <- Cs.
  apply conv_pair_eta.
Qed.

(** Every successful comparison among the hypotheses. *)
Ltac compared cv :=
  repeat match goal with
  | H : _ ∧ _ |- _ => destruct H
  | H : mbind (λ r : bool, if r then _ else Ok false) _ = Ok true |- _ =>
      apply and_checked_true in H as [? ?]
  | H : Ok _ = Ok true |- _ => injection H as H
  | H : (if ?b then _ else Ok false) = Ok true |- _ => destruct b eqn:?; [|discriminate H]
  | H : Nat.eqb _ _ = true |- _ => apply Nat.eqb_eq in H; subst
  | H : Level.level_eq _ _ = true |- _ => apply level_eq_equiv in H
  | H : eqv _ _ _ = Ok true |- _ => apply eqv_ok with (cv := cv) in H; [|done..]
  | H : eqn _ _ _ = Ok true |- _ => apply eqn_ok with (cv := cv) in H; [|done..]
  | H : bodies_def_eq _ _ _ _ _ = Ok true |- _ =>
      apply bodies_def_eq_conv with (cv := under cv 1) in H; [|done..]
  | H : values_def_eq eqv _ _ _ = Ok true |- _ =>
      apply values_def_eq_conv with (cv := cv) in H; [|done..]
  end.

Lemma def_eq_step_conv a b L :
  vok (levels_below L) a → vok (levels_below L) b →
  def_eq_step ev eqv eqn a b L = Ok true → ∀ cv, conv cv (embed L a) (embed L b).
Proof.
  intros Ha Hb H cv. destruct a, b; [by apply data_def_eq_conv|..]; try discriminate H;
    cbn [def_eq_step] in H;
    try (by apply eta_match_conv); try (symmetry; by apply eta_match_conv);
    try (by apply pair_eta_conv); try (symmetry; by apply pair_eta_conv);
    apply vok_unfold in Ha, Hb; cbn [value_wf embed] in *; compared cv; first [done|by constructor].
Qed.

Lemma def_eq_neutral_step_conv a b L :
  nok (levels_below L) a → nok (levels_below L) b →
  def_eq_neutral_step eqv eqn a b L = Ok true →
  ∀ cv, conv cv (embed_neutral L a) (embed_neutral L b).
Proof.
  intros Ha Hb H cv. destruct a, b; try discriminate H; cbn [def_eq_neutral_step] in H;
    apply nok_unfold in Ha, Hb; cbn [neutral_wf embed_neutral] in *; compared cv;
    first [done|by constructor].
Qed.
End compare.

(** ** Comparison *)
Lemma def_eq_conv_both gas :
  (∀ a b L, vok (levels_below L) a → vok (levels_below L) b → def_eq gas a b L = Ok true →
    ∀ cv, conv cv (embed L a) (embed L b)) ∧
  (∀ a b L, nok (levels_below L) a → nok (levels_below L) b → def_eq_neutral gas a b L = Ok true →
    ∀ cv, conv cv (embed_neutral L a) (embed_neutral L b)).
Proof.
  induction gas as [|gas [IH1 IH2]]; [done|]. split.
  - intros a b L Ha Hb. cbn [def_eq]. destruct (value_eqb a b) eqn:E.
    + intros _ cv. apply value_eqb_true in E as ->. reflexivity.
    + apply def_eq_step_conv; [|done..]. apply eval_denotes.
  - intros a b L. by apply def_eq_neutral_step_conv.
Qed.

Lemma values_equal_conv gas A a b L cv :
  below A L → vok A a → vok A b → def_eq gas a b L = Ok true →
  conv cv (embed L a) (embed L b).
Proof. intros HA Ha Hb H. apply (def_eq_conv_both gas); eauto using vok_below. Qed.
