(* ===== verification/NbeChecker.v ===== *)
(** * The checker of the second kernel

    [NbeContext], [infer_value], [check_value] and
    [verify_certificate_with_foundation] of
    [verum_proof/src/proof_checker_nbe.rs].  [egas] is the recursion depth
    allowed to evaluation, readback and comparison; the recursion of the
    checker itself is counted by [gas]. *)
From S2P Require Import Prelude Levels Syntax Subst Context Conversion Checker Nbe.

Open Scope verum_scope.

(** ** Contexts *)
Record Binding : Type := Bind {
  binding_ty : Value;
  binding_definition : option Term
}.

Record NbeContext : Type := NbeCtx {
  nbe_foundation : Foundation;
  nbe_bindings : list Binding;
  nbe_env : Env
}.

Definition with_foundation (f : Foundation) : NbeContext := NbeCtx f [] [].

Definition level (ctx : NbeContext) : nat := length (nbe_env ctx).

Definition extend (ctx : NbeContext) (domain_value : Value) : NbeContext :=
  NbeCtx (nbe_foundation ctx) (nbe_bindings ctx ++ [Bind domain_value None])
    (nbe_env ctx ++ [fresh (length (nbe_env ctx))]).

Definition define (ctx : NbeContext) (ty value : Value) (source : Term) : NbeContext :=
  NbeCtx (nbe_foundation ctx) (nbe_bindings ctx ++ [Bind ty (Some source)])
    (nbe_env ctx ++ [value]).

Definition lookup (ctx : NbeContext) (i : nat) : option Value :=
  let len := length (nbe_bindings ctx) in
  if len <=? i then None else binding_ty <$> nbe_bindings ctx !! (len - 1 - i).

Definition definition (ctx : NbeContext) (i : nat) : option Term :=
  position ← checked_sub (length (nbe_bindings ctx)) (i + 1);
  binding ← nbe_bindings ctx !! position;
  (λ source, shift_up source (i + 1) 0) <$> binding_definition binding.

Definition expect_universe (v : Value) : option Level :=
  match v with VUniverse l => Some (Level.normalize l) | _ => None end.

Section nbe_checker.
Context (egas : nat).

Definition ctx_eval (ctx : NbeContext) (t : Term) : result Value := eval egas t (nbe_env ctx).
Definition ctx_quote (ctx : NbeContext) (v : Value) : result Term := quote egas v (level ctx).
Definition close (c : Closure Value) (x : Value) : result Value := apply (eval egas) c x.
Definition close_fields (c : Closure Value) (xs : list Value) : result Value :=
  apply_fields (eval egas) c xs.
Definition app_value (f x : Value) : result Value := apply_value (eval egas) f x.
Definition app_values (f : Value) (xs : list Value) : result Value :=
  apply_values (eval egas) f xs.

Section open_recursion.
Context (infer_value : NbeContext → Term → result Value).
Context (check_value : NbeContext → Term → Value → result unit).

Definition check_domain_value (ctx : NbeContext) (term : Term) (expected : Value)
    : result unit :=
  match check_value ctx term expected with
  | Err (TypeMismatch expected actual) => Err (DomainMismatch expected actual)
  | other => other
  end.

(** [expect_universe(&infer_value(ctx, t)?)], or [NotAType]. *)
Definition infer_universe (ctx : NbeContext) (t : Term) : result Level :=
  kind ← infer_value ctx t; ok_or (expect_universe kind) (NotAType t).

Fixpoint check_index_loop (ctx : NbeContext) (values : list Value)
    (pairs : list (Closure Value * Term)) : result (list Value) :=
  match pairs with
  | [] => Ok values
  | (domain, argument) :: pairs =>
      expected ← close_fields domain values;
      _ ← check_value ctx argument expected;
      value ← ctx_eval ctx argument;
      check_index_loop ctx (values ++ [value]) pairs
  end.

Definition check_index_arguments (ctx : NbeContext) (telescope : list (Closure Value))
    (arguments : list Term) : result (list Value) :=
  if negb (length telescope =? length arguments)
  then Err (InvalidInductive "family index arity mismatch")
  else check_index_loop ctx [] (zip telescope arguments).

Definition infer_value_fun_ext (ctx : NbeContext) (function_type lhs rhs pointwise : Term)
    : result Value :=
  if decide (nbe_foundation ctx = FunctionExtensionality) then
    _ ← infer_universe ctx function_type;
    function ← ctx_eval ctx function_type;
    match function with
    | VPi domain codomain =>
        _ ← check_value ctx lhs function;
        _ ← check_value ctx rhs function;
        left ← ctx_eval ctx lhs;
        right ← ctx_eval ctx rhs;
        let probe := fresh (level ctx) in
        carrier ← close codomain probe;
        left_at ← app_value left probe;
        right_at ← app_value right probe;
        domain ← ctx_quote ctx domain;
        body ← quote egas (VId carrier left_at right_at) (level ctx + 1);
        premise ← ctx_eval ctx (Pi domain body);
        _ ← check_value ctx pointwise premise;
        Ok (VId function left right)
    | _ => t ← ctx_quote ctx function; Err (NotAFunction t)
    end
  else Err (FoundationRequired FunctionExtensionality).

Definition infer_value_let (ctx : NbeContext) (value body : Term) : result Value :=
  ty ← infer_value ctx value;
  v ← ctx_eval ctx value;
  infer_value (define ctx ty v value) body.

Fixpoint infer_value_indices (ctx : NbeContext) (ixs : list Term) : result unit :=
  match ixs with
  | [] => Ok tt
  | t :: ixs =>
      _ ← infer_universe ctx t;
      v ← ctx_eval ctx t;
      infer_value_indices (extend ctx v) ixs
  end.

Definition value_field_domain (ctx local : NbeContext) (declaration : Value) (l : Level)
    (index_domains : list (Closure Value)) (field : DataField Term) : result Value :=
  let plain field_ctx t :=
    field_level ← infer_universe field_ctx t;
    if negb (Level.level_eq (Level.max_with field_level l) l)
    then Err (InvalidInductive "field exceeds declaration universe")
    else ctx_eval field_ctx t in
  match field with
  | Syntax.Value t => plain ctx t
  | Dependent t => plain local t
  | Recursive =>
      values ← check_index_arguments local index_domains []; app_values declaration values
  | RecursiveAt arguments =>
      values ← check_index_arguments local index_domains arguments;
      app_values declaration values
  end.

Fixpoint check_value_fields (ctx local : NbeContext) (declaration : Value) (l : Level)
    (index_domains : list (Closure Value)) (fs : list (DataField Term))
    : result NbeContext :=
  match fs with
  | [] => Ok local
  | field :: fs =>
      domain ← value_field_domain ctx local declaration l index_domains field;
      check_value_fields ctx (extend local domain) declaration l index_domains fs
  end.

Definition infer_value_data (ctx : NbeContext) (name : string) (l : Level)
    (ixs : list Term) (constructors : list TermConstructor) : result Value :=
  _ ← infer_value_indices ctx ixs;
  declaration ← ctx_eval ctx (Data name l ixs constructors);
  match declaration with
  | VData _ _ index_domains _ _ =>
      _ ← each_checked (λ c,
            local ← check_value_fields ctx ctx declaration l index_domains (fields c);
            _ ← check_index_arguments local index_domains (indices c);
            Ok tt) constructors;
      ctx_eval ctx (foldr Pi (Universe (Level.normalize l)) ixs)
  | _ => Err (InvalidInductive "unreachable")
  end.

(** The arguments of a constructor, each against the domain of its field at
    the values of the earlier ones. *)
Fixpoint check_constructor_args (ctx : NbeContext) (declaration : Value)
    (previous : list Value) (pairs : list (FieldValue (Closure Value) * Term))
    : result (list Value) :=
  match pairs with
  | [] => Ok previous
  | (field, argument) :: pairs =>
      dom ← domain (eval egas) field previous;
      expected ← match dom with
        | Some v => Ok v
        | None =>
            ixs ← recursive_indices (eval egas) field previous;
            app_values declaration (default [] ixs)
        end;
      _ ← check_value ctx argument expected;
      v ← ctx_eval ctx argument;
      check_constructor_args ctx declaration (previous ++ [v]) pairs
  end.

Definition infer_value_construct (ctx : NbeContext) (data : Term) (constructor : nat)
    (args : list Term) : result Value :=
  _ ← infer_value ctx data;
  declaration ← ctx_eval ctx data;
  match declaration with
  | VData _ _ _ constructors arguments =>
      if negb (length arguments =? 0)
      then Err (InvalidInductive "constructor owner is an applied family")
      else
        c ← ok_or (constructors !! constructor) (InvalidInductive "unknown constructor");
        if negb (length (fields c) =? length args)
        then Err (InvalidInductive "constructor field arity mismatch")
        else
          previous ← check_constructor_args ctx declaration [] (zip (fields c) args);
          values ← map_result (λ c, close_fields c previous) (indices c);
          app_values declaration values
  | _ => Err (InvalidInductive "constructor owner is not a data declaration")
  end.

(** The motive's binders for the indices of the family; the remaining kind
    and the fresh references. *)
Fixpoint value_motive_indices (ctx : NbeContext) (motive_kind : Value)
    (references : list Value) (ixs : list (Closure Value))
    : result (Value * list Value) :=
  match ixs with
  | [] => Ok (motive_kind, references)
  | index_domain :: ixs =>
      match motive_kind with
      | VPi domain codomain =>
          let depth := level ctx + length references in
          expected ← close_fields index_domain references;
          same ← def_eq egas domain expected depth;
          if negb same
          then Err (InvalidInductive "induction motive index domain mismatch")
          else
            kind ← close codomain (fresh depth);
            value_motive_indices ctx kind (references ++ [fresh depth]) ixs
      | _ => Err (InvalidInductive "induction motive omits a family index")
      end
  end.

Definition value_motive_family (ctx : NbeContext) (declaration motive_kind : Value)
    (references : list Value) : result unit :=
  match motive_kind with
  | VPi domain codomain =>
      let depth := level ctx + length references in
      expected ← app_values declaration references;
      same ← def_eq egas domain expected depth;
      if negb same
      then Err (InvalidInductive "induction motive domain or universe mismatch")
      else
        kind ← close codomain (fresh depth);
        match expect_universe kind with
        | Some _ => Ok tt
        | None => Err (InvalidInductive "induction motive domain or universe mismatch")
        end
  | _ => Err (InvalidInductive "induction motive is not a family")
  end.

Definition infer_value_induct (ctx : NbeContext) (scrutinee motive : Term)
    (cases : list Term) : result Value :=
  declaration ← infer_value ctx scrutinee;
  match declaration with
  | VData name l ixs constructors values =>
      if negb (length ixs =? length values)
      then Err (InvalidInductive "induction requires a fully applied data family")
      else
        let declaration := VData name l ixs constructors [] in
        raw_declaration ← ctx_quote ctx declaration;
        match raw_declaration with
        | Data _ _ _ raw_constructors =>
            _ ← infer_value ctx raw_declaration;
            motive_kind ← infer_value ctx motive;
            '(motive_kind, references) ← value_motive_indices ctx motive_kind [] ixs;
            _ ← value_motive_family ctx declaration motive_kind references;
            if negb (length cases =? length raw_constructors)
            then Err (InvalidInductive "induction case count mismatch")
            else
              _ ← each_checked (λ '(index, (c, case)),
                    expected ← ctx_eval ctx
                      (induction_case_type raw_declaration motive index c);
                    check_value ctx case expected)
                  (enumerate (zip raw_constructors cases));
              motive ← ctx_eval ctx motive;
              family ← app_values motive values;
              scrutinee ← ctx_eval ctx scrutinee;
              app_value family scrutinee
        | _ => Err (InvalidInductive "unreachable")
        end
  | _ => Err (InvalidInductive "induction requires a fully applied data family")
  end.

Definition infer_value_binder (ctx : NbeContext) (a b : Term) : result Value :=
  n ← infer_universe ctx a;
  a_value ← ctx_eval ctx a;
  m ← infer_universe (extend ctx a_value) b;
  Ok (VUniverse (Level.max_with n m)).

(** A telescope of abstractions, read back once below all of them. *)
Fixpoint lam_telescope (extended : NbeContext) (body : Term) (domains : list Term)
    : result Term :=
  match body with
  | Lam domain inner =>
      _ ← infer_universe extended domain;
      value ← ctx_eval extended domain;
      lam_telescope (extend extended value) inner (domains ++ [domain])
  | body =>
      body_type ← infer_value extended body;
      codomain ← ctx_quote extended body_type;
      Ok (foldr Pi codomain domains)
  end.

Definition infer_value_lam (ctx : NbeContext) (term : Term) : result Value :=
  result ← lam_telescope ctx term []; ctx_eval ctx result.

Definition infer_value_app (ctx : NbeContext) (f x : Term) : result Value :=
  f_ty ← infer_value ctx f;
  match f_ty with
  | VPi dom codom =>
      _ ← check_domain_value ctx x dom;
      x_value ← ctx_eval ctx x;
      close codom x_value
  | other => t ← ctx_quote ctx other; Err (NotAFunction t)
  end.

Definition infer_value_pair (ctx : NbeContext) (a b : Term) : result Value :=
  a_ty ← infer_value ctx a;
  b_ty ← infer_value ctx b;
  b_ty_term ← ctx_quote ctx b_ty;
  a_ty_term ← ctx_quote ctx a_ty;
  ctx_eval ctx (Sigma a_ty_term (lift_term_one_binder b_ty_term)).

Definition infer_value_fst (ctx : NbeContext) (p : Term) : result Value :=
  p_ty ← infer_value ctx p;
  match p_ty with
  | VSigma domain _ => Ok domain
  | other => t ← ctx_quote ctx other; Err (NotASigma t)
  end.

Definition infer_value_snd (ctx : NbeContext) (p : Term) : result Value :=
  p_ty ← infer_value ctx p;
  match p_ty with
  | VSigma _ codomain => p_value ← ctx_eval ctx p; close codomain (apply_fst p_value)
  | other => t ← ctx_quote ctx other; Err (NotASigma t)
  end.

Definition infer_value_id (ctx : NbeContext) (ty lhs rhs : Term) : result Value :=
  n ← infer_universe ctx ty;
  ty_value ← ctx_eval ctx ty;
  _ ← check_domain_value ctx lhs ty_value;
  _ ← check_domain_value ctx rhs ty_value;
  Ok (VUniverse n).

Definition infer_value_refl (ctx : NbeContext) (value : Term) : result Value :=
  value_ty ← infer_value ctx value;
  v ← ctx_eval ctx value;
  Ok (VId value_ty v v).

(** The kind of the motive's result at fresh arguments. *)
Definition value_path_motive (ctx : NbeContext) (motive : Term) (a_ty a_lhs : Value)
    (motive_codom : Closure Value) (dependent : bool) : result Value :=
  let probe := fresh (level ctx) in
  codom_at_probe ← close motive_codom probe;
  if dependent then
    match codom_at_probe with
    | VPi domain codomain =>
        let expected := VId a_ty a_lhs probe in
        same ← def_eq egas domain expected (level ctx + 1);
        if negb same then
          expected ← quote egas expected (level ctx + 1);
          actual ← quote egas domain (level ctx + 1);
          Err (DomainMismatch expected actual)
        else close codomain (fresh (level ctx + 1))
    | _ => Err (NotAValidJMotive motive)
    end
  else Ok codom_at_probe.

Definition infer_value_identity_elim (ctx : NbeContext) (dependent : bool)
    (motive base scrutinee : Term) : result Value :=
  s_ty ← infer_value ctx scrutinee;
  match s_ty with
  | VId a_ty a_lhs a_rhs =>
      motive_ty ← infer_value ctx motive;
      match motive_ty with
      | VPi motive_dom motive_codom =>
          same ← def_eq egas motive_dom a_ty (level ctx);
          if negb same then
            expected ← ctx_quote ctx a_ty;
            actual ← ctx_quote ctx motive_dom;
            Err (DomainMismatch expected actual)
          else
            result_kind ← value_path_motive ctx motive a_ty a_lhs motive_codom dependent;
            match expect_universe result_kind with
            | None => Err (NotAValidJMotive motive)
            | Some _ =>
                motive_value ← ctx_eval ctx motive;
                at_base ← app_value motive_value a_lhs;
                expected_base_ty ←
                  (if dependent then app_value at_base (VRefl a_lhs) else Ok at_base);
                _ ← check_domain_value ctx base expected_base_ty;
                result ← app_value motive_value a_rhs;
                if dependent
                then s ← ctx_eval ctx scrutinee; app_value result s
                else Ok result
            end
      | _ => Err (NotAValidJMotive motive)
      end
  | other => t ← ctx_quote ctx other; Err (NotAnIdentity t)
  end.

Definition infer_value_step (ctx : NbeContext) (term : Term) : result Value :=
  match term with
  | FunExt function_type lhs rhs pointwise =>
      infer_value_fun_ext ctx function_type lhs rhs pointwise
  | Let value body => infer_value_let ctx value body
  | Data name l ixs constructors => infer_value_data ctx name l ixs constructors
  | Construct data constructor args => infer_value_construct ctx data constructor args
  | Induct scrutinee motive cases => infer_value_induct ctx scrutinee motive cases
  | Var i => ok_or (lookup ctx i) (UnboundVariable i)
  | Universe l => Ok (VUniverse (Level.successor (Level.normalize l)))
  | Pi a b => infer_value_binder ctx a b
  | Lam _ _ => infer_value_lam ctx term
  | App f x => infer_value_app ctx f x
  | Sigma a b => infer_value_binder ctx a b
  | Pair a b => infer_value_pair ctx a b
  | Fst p => infer_value_fst ctx p
  | Snd p => infer_value_snd ctx p
  | Id ty lhs rhs => infer_value_id ctx ty lhs rhs
  | Refl value => infer_value_refl ctx value
  | J motive base scrutinee => infer_value_identity_elim ctx false motive base scrutinee
  | IdElim motive base scrutinee =>
      infer_value_identity_elim ctx true motive base scrutinee
  end.

Definition check_value_inferred (ctx : NbeContext) (term : Term) (expected : Value)
    : result unit :=
  inferred ← infer_value ctx term;
  same ← def_eq egas inferred expected (level ctx);
  if same : bool then Ok tt else
  expected ← ctx_quote ctx expected;
  actual ← ctx_quote ctx inferred;
  Err (TypeMismatch expected actual).

Definition check_value_shape (ctx : NbeContext) (term : Term) (expected : Value)
    : result unit :=
  match term, expected with
  | Lam domain body, VPi expected_domain codomain =>
      _ ← infer_universe ctx domain;
      actual_domain ← ctx_eval ctx domain;
      same ← def_eq egas actual_domain expected_domain (level ctx);
      if negb same then
        expected ← ctx_quote ctx expected_domain;
        Err (TypeMismatch expected domain)
      else
        body_type ← close codomain (fresh (level ctx));
        check_value (extend ctx actual_domain) body body_type
  | Pair first second, VSigma domain codomain =>
      _ ← check_value ctx first domain;
      v ← ctx_eval ctx first;
      family ← close codomain v;
      check_value ctx second family
  | Refl value, VId ty lhs rhs =>
      _ ← check_domain_value ctx value ty;
      actual ← ctx_eval ctx value;
      same ← def_eq egas actual lhs (level ctx) &&? def_eq egas actual rhs (level ctx);
      if same : bool then Ok tt else
      expected ← ctx_quote ctx expected;
      actual ← ctx_quote ctx (VId ty actual actual);
      Err (TypeMismatch expected actual)
  | _, _ => check_value_inferred ctx term expected
  end.

Definition check_value_step (ctx : NbeContext) (term : Term) (expected : Value)
    : result unit :=
  match term with
  | Var index =>
      actual ← ok_or (lookup ctx index) (UnboundVariable index);
      same ← def_eq egas actual expected (level ctx);
      if same : bool then Ok tt else
      match definition ctx index with
      | Some source => check_value ctx source expected
      | None => check_value_shape ctx term expected
      end
  | Let value body =>
      ty ← infer_value ctx value;
      v ← ctx_eval ctx value;
      check_value (define ctx ty v value) body expected
  | _ => check_value_shape ctx term expected
  end.
End open_recursion.

Fixpoint infer_value (gas : nat) (ctx : NbeContext) (term : Term) {struct gas}
    : result Value :=
  match gas with
  | 0 => Gas CheckerGas
  | S gas => infer_value_step (infer_value gas) (check_value gas) ctx term
  end
with check_value (gas : nat) (ctx : NbeContext) (term : Term) (expected : Value) {struct gas}
    : result unit :=
  match gas with
  | 0 => Gas CheckerGas
  | S gas => check_value_step (infer_value gas) (check_value gas) ctx term expected
  end.

Definition infer (gas : nat) (ctx : NbeContext) (term : Term) : result Term :=
  v ← infer_value gas ctx term; ctx_quote ctx v.

Definition check (gas : nat) (ctx : NbeContext) (term expected : Term) : result unit :=
  _ ← infer_universe (infer_value gas) ctx expected;
  v ← ctx_eval ctx expected;
  check_value gas ctx term v.

Definition verify_certificate_with_foundation (gas : nat) (cert : Certificate)
    (f : Foundation) : result unit :=
  let ctx := with_foundation f in
  claimed_kind ← infer gas ctx (claimed_type cert);
  claimed_kind_value ← ctx_eval ctx claimed_kind;
  match expect_universe claimed_kind_value with
  | None => Err (ClaimedTypeNotAType (claimed_type cert) claimed_kind)
  | Some _ =>
      expected ← ctx_eval ctx (claimed_type cert);
      check_value gas ctx (term cert) expected
  end.

Definition verify_certificate (gas : nat) (cert : Certificate) : result unit :=
  verify_certificate_with_foundation gas cert Intensional.
End nbe_checker.
