(* ===== verification/NbeTyping.v ===== *)
(** * Contexts of the second kernel

    [tracks A Γ ctx] says that a context of the second kernel stands for the
    typing context [Γ]: its types are values of the types of [Γ], its
    environment evaluates every variable to a value convertible to it, and the
    values use only the levels [A], those of the variables without a
    definition. *)

From S2P Require Import Prelude Levels LevelFacts Syntax Subst Inst Context Conversion ConvSpec.
From S2P Require Import ConvFacts Checker Typing Weakening Nbe Values EvalSound ReadbackSound.
From S2P Require Import CompareSound NbeChecker.

(** ** The scope of terms the second kernel accepts

    Every subterm is visited, so a term [infer_value] or [check_value]
    succeeds on has all its variables among the bindings.  The checker
    evaluates a declaration before it has checked its constructors; this is why
    their scope is established first, without typing. *)

Open Scope verum_scope.

(** As many bindings as values. *)
Definition aligned (ctx : NbeContext) : Prop := length (nbe_bindings ctx) = level ctx.

Lemma aligned_extend ctx v : aligned ctx → aligned (extend ctx v).
Proof. unfold aligned, level. cbn. rewrite !length_app. cbn. lia. Qed.

Lemma aligned_define ctx ty v t : aligned ctx → aligned (define ctx ty v t).
Proof. unfold aligned, level. cbn. rewrite !length_app. cbn. lia. Qed.

Lemma level_extend ctx v : level (extend ctx v) = level ctx + 1.
Proof. unfold level. cbn. by rewrite length_app. Qed.

Lemma level_define ctx ty v t : level (define ctx ty v t) = level ctx + 1.
Proof. unfold level. cbn. by rewrite length_app. Qed.

Lemma scoped_lookup ctx i v : aligned ctx → lookup ctx i = Some v → i < level ctx.
Proof. unfold aligned, lookup. intros <-. by destruct (Nat.leb_spec (length (nbe_bindings ctx)) i). Qed.

(** The scope of a node from that of its children. *)
Ltac scope_node :=
  rewrite scoped_children by done; cbn [children];
  repeat apply Forall_cons_2; cbn [fst snd]; rewrite ?Nat.add_0_r, ?scoped_tagged, ?Nat.add_0_r;
  try first [done|by constructor].

Lemma scoped_list {A} n (l : list A) ts :
  length l = length ts →
  (∀ i x t, l !! i = Some x → ts !! i = Some t → scoped n t) → Forall (scoped n) ts.
Proof.
  intros HL H. rewrite Forall_lookup. intros i t Ht.
  destruct (lookup_lt_is_Some_2 l i) as [x Hx]; [rewrite HL; by eapply lookup_lt_Some|]. eauto.
Qed.

Section scope.
Context (egas : nat).
Context (I : NbeContext → Term → result Value) (C : NbeContext → Term → Value → result unit).
Context (I_scoped : ∀ ctx t v, aligned ctx → I ctx t = Ok v → scoped (level ctx) t).
Context (C_scoped : ∀ ctx t v u, aligned ctx → C ctx t v = Ok u → scoped (level ctx) t).

Lemma infer_universe_scoped ctx t l :
  aligned ctx → infer_universe I ctx t = Ok l → scoped (level ctx) t.
Proof. intros Ha (v & Hv & _)%bind_Ok. eauto. Qed.

Lemma check_domain_scoped ctx t v u :
  aligned ctx → check_domain_value C ctx t v = Ok u → scoped (level ctx) t.
Proof.
  unfold check_domain_value. intros Ha H. apply (C_scoped ctx t v u); [done|].
  by destruct (C ctx t v) as [|[]|].
Qed.

(** Every successful step among the hypotheses, and the scope it shows. *)
Ltac scope_steps :=
  repeat match goal with
  | H : mbind _ _ = Ok _ |- _ => apply bind_Ok in H as (? & ? & H)
  | H : (if negb ?b then Err _ else _) = Ok _ |- _ =>
      destruct b eqn:?; cbn [negb] in H; [|discriminate H]
  | H : (if ?b then _ else Err _) = Ok _ |- _ => destruct b eqn:?; [|discriminate H]
  | H : match ?v with VPi _ _ => _ | _ => _ end = Ok _ |- _ =>
      destruct v; try (by apply bind_Ok in H as (? & _ & ?)); try discriminate H
  | H : I ?c _ = Ok _ |- _ => apply I_scoped in H; [|by auto using aligned_extend, aligned_define]
  | H : C ?c _ _ = Ok _ |- _ => apply C_scoped in H; [|by auto using aligned_extend, aligned_define]
  | H : infer_universe I _ _ = Ok _ |- _ =>
      apply infer_universe_scoped in H; [|by auto using aligned_extend, aligned_define]
  | H : check_domain_value C _ _ _ = Ok _ |- _ =>
      apply check_domain_scoped in H; [|by auto using aligned_extend, aligned_define]
  end; rewrite ?level_extend, ?level_define in *.

Lemma check_index_loop_scoped ctx values pairs vs :
  aligned ctx → check_index_loop egas C ctx values pairs = Ok vs →
  Forall (λ p, scoped (level ctx) p.2) pairs.
Proof.
  intros Ha. revert values. induction pairs as [|[d t] pairs IH]; intros values H; [done|].
  cbn [check_index_loop] in H. scope_steps. constructor; [done|]. eauto.
Qed.

Lemma check_index_arguments_scoped ctx tele ts vs :
  aligned ctx → check_index_arguments egas C ctx tele ts = Ok vs → Forall (scoped (level ctx)) ts.
Proof.
  unfold check_index_arguments. intros Ha H. destruct (Nat.eqb_spec (length tele) (length ts)); [|done].
  apply check_index_loop_scoped in H; [|done]. rewrite Forall_lookup in H.
  eapply scoped_list; [done|]. intros i d t Hd Ht. apply (H i (d, t)).
  by rewrite lookup_zip_with, Hd, Ht.
Qed.

Lemma infer_value_indices_scoped ctx ixs u :
  aligned ctx → infer_value_indices egas I ctx ixs = Ok u →
  ∀ i t, ixs !! i = Some t → scoped (level ctx + i) t.
Proof.
  revert ctx. induction ixs as [|t ixs IH]; intros ctx Ha H [|i] t' Ht; try done.
  - injection Ht as <-. cbn [infer_value_indices] in H. scope_steps. by rewrite Nat.add_0_r.
  - cbn [infer_value_indices] in H. scope_steps. apply IH with (2 := H) in Ht.
    + by rewrite level_extend, <- Nat.add_assoc in Ht.
    + by apply aligned_extend.
Qed.

Lemma value_field_domain_scoped ctx local decl l doms i f v :
  aligned ctx → aligned local → level local = level ctx + i →
  value_field_domain egas I C ctx local decl l doms f = Ok v → field_scoped (level ctx) i f.
Proof.
  intros Ha Hl Hi H. unfold field_scoped. destruct f as [t|t| |ts]; cbn [field_children];
    cbn [value_field_domain] in H.
  - scope_steps. apply Forall_cons_2; [by cbn; rewrite Nat.add_0_r|constructor].
  - scope_steps. apply Forall_cons_2; [by cbn; rewrite <- Hi|constructor].
  - constructor.
  - apply bind_Ok in H as (vs & H & _). apply scoped_tagged. rewrite <- Hi.
    by eapply check_index_arguments_scoped.
Qed.

Lemma check_value_fields_scoped ctx local decl l doms i fs local' :
  aligned ctx → aligned local → level local = level ctx + i →
  check_value_fields egas I C ctx local decl l doms fs = Ok local' →
  (∀ j f, fs !! j = Some f → field_scoped (level ctx) (i + j) f) ∧
  aligned local' ∧ level local' = level local + length fs.
Proof.
  intros Ha. revert local i. induction fs as [|f fs IH]; intros local i Hl Hi H.
  { injection H as <-. split_and!; [done..|cbn; lia]. }
  cbn [check_value_fields] in H. apply bind_Ok in H as (v & Hv & H).
  apply IH with (i := S i) in H; [|by apply aligned_extend|rewrite level_extend; lia].
  rewrite level_extend in H. destruct H as (H1 & H2 & H3). split_and!; [|done|cbn; lia].
  intros [|j] g Hg.
  - injection Hg as <-. rewrite Nat.add_0_r. by eapply (value_field_domain_scoped ctx local).
  - rewrite <- Nat.add_succ_comm. by apply H1.
Qed.

Lemma infer_value_data_scoped ctx name l ixs cs v :
  aligned ctx → infer_value_data egas I C ctx name l ixs cs = Ok v →
  scoped (level ctx) (Data name l ixs cs).
Proof.
  intros Ha (u & Hi & (d & Hd & H)%bind_Ok)%bind_Ok. destruct d; try discriminate H.
  apply bind_Ok in H as (u' & Hcs%each_checked_Ok & _). apply scoped_data. split.
  - by eapply infer_value_indices_scoped.
  - eapply Forall_impl; [exact Hcs|]. cbn. intros c (local & Hf & H)%bind_Ok.
    apply bind_Ok in H as (vs & Hv & _).
    apply (check_value_fields_scoped _ _ _ _ _ 0) in Hf as (Hf & Hl & El); [|done..|lia].
    split; [exact Hf|]. rewrite <- El. by eapply check_index_arguments_scoped.
Qed.

Lemma check_constructor_args_scoped ctx decl previous pairs vs :
  aligned ctx → check_constructor_args egas C ctx decl previous pairs = Ok vs →
  Forall (λ p, scoped (level ctx) p.2) pairs.
Proof.
  intros Ha. revert previous. induction pairs as [|[f t] pairs IH]; intros previous H; [done|].
  cbn [check_constructor_args] in H. scope_steps. constructor; [done|]. eauto.
Qed.

Lemma infer_value_construct_scoped ctx d k args v :
  aligned ctx → infer_value_construct egas I C ctx d k args = Ok v →
  scoped (level ctx) (Construct d k args).
Proof.
  intros Ha (u & Hd & (D & _ & H)%bind_Ok)%bind_Ok. apply I_scoped in Hd; [|done].
  destruct D; try discriminate H. scope_steps.
  match goal with H : check_constructor_args _ _ _ _ _ _ = Ok _ |- _ =>
    apply check_constructor_args_scoped in H as Hargs; [|done] end.
  scope_node. rewrite Forall_lookup in Hargs. apply Nat.eqb_eq in Heqb0.
  eapply scoped_list; [exact Heqb0|]. intros i f t Hf Ht. apply (Hargs i (f, t)).
  by rewrite lookup_zip_with, Hf, Ht.
Qed.

Lemma infer_value_induct_scoped ctx s motive cases v :
  aligned ctx → infer_value_induct egas I C ctx s motive cases = Ok v →
  scoped (level ctx) (Induct s motive cases).
Proof.
  intros Ha (A & Hs & H)%bind_Ok. apply I_scoped in Hs; [|done].
  destruct A; try discriminate H. destruct (Nat.eqb _ _); [|discriminate H]. cbn [negb] in H.
  apply bind_Ok in H as (raw & _ & H). destruct raw; try discriminate H.
  apply bind_Ok in H as (u & _ & (K & Hm%I_scoped & H)%bind_Ok); [|done].
  apply bind_Ok in H as ([kind refs] & _ & (u' & _ & H)%bind_Ok).
  destruct (Nat.eqb_spec (length cases) (length constructors0)) as [E|]; [|discriminate H]. cbn [negb] in H.
  apply bind_Ok in H as (u'' & Hc & _). scope_node.
  eapply scoped_list; [symmetry; exact E|]. intros i c t Hci Ht.
  apply each_zip_enumerated with (2 := Hci) (3 := Ht) in Hc.
  apply bind_Ok in Hc as (e & _ & Hc). by eapply C_scoped.
Qed.

Lemma lam_telescope_scoped ctx t domains u :
  aligned ctx → lam_telescope egas I ctx t domains = Ok u → scoped (level ctx) t.
Proof.
  revert ctx domains. induction t as [t IH] using term_children_ind. intros ctx domains Ha H.
  destruct t; cbn [lam_telescope] in H; try (scope_steps; done).
  apply bind_Ok in H as (l & Hd & (v & _ & H)%bind_Ok).
  apply infer_universe_scoped in Hd; [|done]. apply Forall_cons in IH as [_ [IH _]%Forall_cons].
  apply IH in H; [|by apply aligned_extend]. rewrite level_extend in H. scope_node.
Qed.

Lemma infer_value_identity_elim_scoped ctx dep motive base s v :
  aligned ctx → infer_value_identity_elim egas I C ctx dep motive base s = Ok v →
  scoped (level ctx) ((if dep then IdElim else J) motive base s).
Proof.
  intros Ha (T & Hs%I_scoped & H)%bind_Ok; [|done].
  destruct T; try (by apply bind_Ok in H as (? & _ & ?)).
  apply bind_Ok in H as (M & Hm%I_scoped & H); [|done]. destruct M; try discriminate H.
  apply bind_Ok in H as (same & _ & H). destruct same; cbn [negb] in H;
    [|by apply bind_Ok in H as (? & _ & (? & _ & ?)%bind_Ok)].
  apply bind_Ok in H as (k & _ & H). destruct (expect_universe k); [|discriminate H].
  apply bind_Ok in H as (? & _ & (? & _ & H)%bind_Ok). apply bind_Ok in H as (? & _ & H).
  apply bind_Ok in H as (? & Hb%check_domain_scoped & _); [|done].
  destruct dep; scope_node.
Qed.

Lemma infer_value_step_scoped ctx t v :
  aligned ctx → infer_value_step egas I C ctx t = Ok v → scoped (level ctx) t.
Proof.
  intros Ha H. destruct t; cbn [infer_value_step] in H.
  - by eapply infer_value_data_scoped.
  - by eapply infer_value_construct_scoped.
  - by eapply infer_value_induct_scoped.
  - unfold infer_value_let in H. scope_steps. scope_node.
  - apply ok_or_Ok, scoped_lookup in H; [|done]. by apply scoped_var.
  - done.
  - unfold infer_value_binder in H. scope_steps. scope_node.
  - apply bind_Ok in H as (u & H & _). by eapply lam_telescope_scoped.
  - unfold infer_value_app in H. scope_steps. scope_node.
  - unfold infer_value_binder in H. scope_steps. scope_node.
  - unfold infer_value_pair in H. scope_steps. scope_node.
  - apply bind_Ok in H as (T & H & _). scope_steps. scope_node.
  - apply bind_Ok in H as (T & H & _). scope_steps. scope_node.
  - unfold infer_value_id in H. scope_steps. scope_node.
  - unfold infer_value_refl in H. scope_steps. scope_node.
  - by eapply (infer_value_identity_elim_scoped _ false).
  - by eapply (infer_value_identity_elim_scoped _ true).
  - unfold infer_value_fun_ext in H. scope_steps. scope_node.
Qed.

Lemma check_value_shape_scoped ctx t v u :
  aligned ctx → check_value_shape egas I C ctx t v = Ok u → scoped (level ctx) t.
Proof.
  intros Ha H. assert (Hplain : check_value_inferred egas I ctx t v = Ok u → scoped (level ctx) t).
  { intros (? & ? & _)%bind_Ok. eauto. }
  destruct t, v; try (by apply Hplain); cbn [check_value_shape] in H; clear Hplain.
  - apply bind_Ok in H as (l & Hd & (a & _ & (same & _ & H)%bind_Ok)%bind_Ok).
    destruct same; cbn [negb] in H; [|by apply bind_Ok in H as (? & _ & ?)].
    scope_steps. scope_node.
  - scope_steps. scope_node.
  - apply bind_Ok in H as (? & H & _). scope_steps. scope_node.
Qed.

Lemma check_value_step_scoped ctx t v u :
  aligned ctx → check_value_step egas I C ctx t v = Ok u → scoped (level ctx) t.
Proof.
  intros Ha H. destruct t; try (by eapply check_value_shape_scoped); cbn [check_value_step] in H.
  - scope_steps. scope_node.
  - apply bind_Ok in H as (a & H & _). apply ok_or_Ok, scoped_lookup in H; [|done].
    by apply scoped_var.
Qed.
End scope.

Lemma checked_scoped egas gas ctx :
  aligned ctx →
  (∀ t v, infer_value egas gas ctx t = Ok v → scoped (level ctx) t) ∧
  (∀ t v u, check_value egas gas ctx t v = Ok u → scoped (level ctx) t).
Proof.
  revert ctx. induction gas as [|gas IH]; intros ctx Ha; [done|].
  assert (∀ ctx t v, aligned ctx → infer_value egas gas ctx t = Ok v → scoped (level ctx) t) as HI
    by (intros c t v Hc; by apply IH).
  assert (∀ ctx t v u, aligned ctx → check_value egas gas ctx t v = Ok u → scoped (level ctx) t)
    as HC by (intros c t v u Hc; by apply IH).
  split; [intros t v|intros t v u]; [by apply infer_value_step_scoped|by apply check_value_step_scoped].
Qed.

Open Scope verum_scope.
#[local] Arguments shift_up : simpl never.

Record tracks (A : nat → bool) (Γ : Context) (ctx : NbeContext) : Prop := {
  tr_foundation : nbe_foundation ctx = foundation Γ;
  tr_ok : ctx_ok Γ;
  tr_definitions : binding_definition <$> nbe_bindings ctx = definition_of <$> bindings Γ;
  tr_aligned : aligned ctx;
  tr_below : below A (level ctx);
  tr_env : Forall (vok A) (nbe_env ctx);
  tr_vars : Forall2 (conv (conversion Γ)) (open_vars (level ctx)) (esub (level ctx) (nbe_env ctx));
  tr_types i v : lookup ctx i = Some v →
    vok A v ∧ ∃ T, Context.lookup Γ i = Some T ∧ conv (conversion Γ) T (embed (level ctx) v)
}.

Lemma tracks_empty f :
  tracks (λ _, false) (Context.with_foundation f) (with_foundation f).
Proof. split; try done; try (by constructor). Qed.

Lemma expect_universe_ok v l :
  expect_universe v = Some l → ∀ L cv, conv cv (embed L v) (Universe l).
Proof.
  destruct v; try done. intros [= <-] L cv. apply conv_universe. symmetry. apply normalize_equiv.
Qed.

(** ** Evaluation and its companions in a context *)
Section tracked.
Context (egas : nat) (A : nat → bool) (Γ : Context) (ctx : NbeContext) (Htr : tracks A Γ ctx).
Let L := level ctx.
Let cv := conversion Γ.

Lemma tracks_depth : depth Γ = L.
Proof.
  pose proof (f_equal length (tr_definitions _ _ _ Htr)) as H. rewrite !length_fmap in H.
  unfold depth. rewrite <- H. apply (tr_aligned _ _ _ Htr).
Qed.

Lemma ctx_eval_ok t v :
  scoped L t → ctx_eval egas ctx t = Ok v → vok A v ∧ conv cv t (embed L v).
Proof.
  intros Hs H. apply (eval_denotes _ A L cv) in H; [|done|apply (tr_env _ _ _ Htr)].
  destruct H as [Hv Hc]. split; [done|]. rewrite <- Hc. rewrite <- (inst_id 0 L t) at 1 by done.
  rewrite <- (under_0 cv). apply conv_inst, (tr_vars _ _ _ Htr).
Qed.

Lemma ctx_quote_ok v t :
  vok A v → ctx_quote egas ctx v = Ok t → scoped L t ∧ conv cv t (embed L v).
Proof.
  intros Hv H. eapply quote_reads in H as [Hs Hc]; [|apply (tr_below _ _ _ Htr)|done].
  split; [done|apply Hc].
Qed.

Lemma ctx_equal a b :
  vok A a → vok A b → def_eq egas a b L = Ok true → conv cv (embed L a) (embed L b).
Proof. apply values_equal_conv, (tr_below _ _ _ Htr). Qed.

Lemma close_ok c x v :
  closure_wf A 1 c → vok A x → close egas c x = Ok v →
  vok A v ∧ conv cv (subst (embed_closure (embed L) 1 c) 0 (embed L x)) (embed L v).
Proof. intros Hc Hx H. eapply apply_denotes; [apply eval_denotes|done..]. Qed.

Lemma app_value_ok f x v :
  vok A f → vok A x → app_value egas f x = Ok v →
  vok A v ∧ conv cv (App (embed L f) (embed L x)) (embed L v).
Proof. intros Hf Hx H. eapply apply_value_denotes; [apply eval_denotes|done..]. Qed.

Lemma app_values_ok f xs v :
  vok A f → Forall (vok A) xs → app_values egas f xs = Ok v →
  vok A v ∧ conv cv (apply_terms (embed L f) (List.map (embed L) xs)) (embed L v).
Proof. intros Hf Hx H. eapply apply_values_denotes; [apply eval_denotes|done..]. Qed.

End tracked.

(** ** Opening binders with a fresh variable *)
Lemma closure_below A L k c : below A L → closure_wf A k c → closure_wf (levels_below L) k c.
Proof.
  intros HL [He Hs]. split; [|done]. eapply Forall_impl; [exact He|]. intros v. by apply vok_below.
Qed.

Lemma vok_fresh_level L : vok (levels_below (L + 1)) (fresh L).
Proof. pose proof (vok_fresh L 1 0) as H. rewrite Nat.add_0_r in H. apply H. lia. Qed.

Lemma close_fresh egas L c v cv :
  closure_wf (levels_below L) 1 c → close egas c (fresh L) = Ok v →
  denotes (levels_below (L + 1)) (L + 1) cv (embed_closure (embed L) 1 c) v.
Proof.
  unfold close. rewrite apply_open. intros Hc. apply (open_denotes (eval egas)); [|done].
  apply eval_denotes.
Qed.

Lemma app_fresh egas L f v cv :
  vok (levels_below L) f → app_value egas f (fresh L) = Ok v →
  denotes (levels_below (L + 1)) (L + 1) cv (App (shift_up (embed L f) 1 0) (Var 0)) v.
Proof.
  intros Hf H. rewrite <- (embed_shift _ _ 1 _ (below_levels L)), <- (embed_fresh L) by done.
  eapply apply_value_denotes; [apply eval_denotes|by apply vok_raise|apply vok_fresh_level|done].
Qed.

(** ** Extending a context *)
Lemma lookup_snoc f bs e b w i :
  lookup (NbeCtx f (bs ++ [b]) (e ++ [w])) i =
    match i with 0 => Some (binding_ty b) | S i => lookup (NbeCtx f bs e) i end.
Proof.
  unfold lookup. cbn [nbe_bindings]. rewrite length_app. cbn [length]. destruct i as [|i].
  - destruct (Nat.leb_spec (length bs + 1) 0); [lia|]. by rewrite list_lookup_middle by lia.
  - destruct (Nat.leb_spec (length bs + 1) (S i)), (Nat.leb_spec (length bs) i); try lia; [done|].
    rewrite lookup_app_l by lia. do 2 f_equal. lia.
Qed.

Lemma definition_tracked A Γ ctx i : tracks A Γ ctx → definition ctx i = Context.definition Γ i.
Proof.
  intros H. pose proof (tr_definitions _ _ _ H) as Hd.
  pose proof (f_equal length Hd) as HL. rewrite !length_fmap in HL.
  unfold definition, Context.definition, definition_under. rewrite HL.
  destruct (checked_sub _ _) as [p|]; [|done]. cbn [mbind option_bind].
  assert ((binding_definition <$> nbe_bindings ctx) !! p = (definition_of <$> bindings Γ) !! p)
    as Hp by (by rewrite Hd).
  rewrite !list_lookup_fmap in Hp.
  destruct (nbe_bindings ctx !! p), (bindings Γ !! p); try done. cbn in *. injection Hp as ->.
  by rewrite Nat.add_0_r.
Qed.

Lemma open_vars_S n : open_vars (n + 1) = Var 0 :: List.map (λ t, shift_up t 1 0) (open_vars n).
Proof.
  unfold open_vars. rewrite Nat.add_1_r. cbn. f_equal. rewrite <- seq_shift, !List.map_map.
  apply map_ext. intros i. rewrite shift_Var. cbn. f_equal. lia.
Qed.

Lemma esub_snoc A L e v :
  below A L → Forall (vok A) e →
  esub (L + 1) (e ++ [v]) = embed (L + 1) v :: List.map (λ t, shift_up t 1 0) (esub L e).
Proof.
  intros HL He. rewrite esub_app, (esub_raise L 1 e); [done|]. eapply Forall_impl; [exact He|].
  intros w. by apply vok_below.
Qed.

Lemma Forall2_conv_weak Γ Γ' ts us :
  weak 1 0 Γ Γ' → Forall2 (conv (conversion Γ)) ts us →
  Forall2 (conv (conversion Γ')) (List.map (λ t, shift_up t 1 0) ts)
    (List.map (λ t, shift_up t 1 0) us).
Proof. intros Hw. induction 1; constructor; [by eapply weak_conv|done]. Qed.

(** The part common to [extend] and [define]. *)
Lemma tracks_types_snoc A B Γ Γ' ctx b w a :
  tracks A Γ ctx → weak 1 0 Γ Γ' → (∀ k, A k = true → B k = true) →
  vok A (binding_ty b) → conv (conversion Γ) a (embed (level ctx) (binding_ty b)) →
  Context.lookup Γ' 0 = Some (shift_up a 1 0) →
  ∀ i v, lookup (NbeCtx (nbe_foundation ctx) (nbe_bindings ctx ++ [b]) (nbe_env ctx ++ [w])) i = Some v →
    vok B v ∧ ∃ T, Context.lookup Γ' i = Some T ∧
      conv (conversion Γ') T (embed (level ctx + 1) v).
Proof.
  intros Htr Hw HAB Hb Ha H0 i v. rewrite lookup_snoc. pose proof (tr_below _ _ _ Htr) as HL.
  destruct i as [|i].
  - intros [= <-]. split; [by eapply vok_mono|]. eexists; split; [done|].
    rewrite (embed_shift A) by done. by eapply weak_conv.
  - destruct ctx as [f bs e]. intros Hv. apply (tr_types _ _ _ Htr) in Hv as (Hv & T & HT & Hc).
    split; [by eapply vok_mono|]. exists (shift_up T 1 0). split.
    + apply (weak_lookup _ _ _ _ Hw) in HT. unfold moved in HT. cbn in HT.
      by rewrite Nat.add_1_r in HT.
    + rewrite (embed_shift A) by done. by eapply weak_conv.
Qed.

Definition add_level (A : nat → bool) (n : nat) (k : nat) : bool := A k || (k =? n).

Lemma add_level_mono A n k : A k = true → add_level A n k = true.
Proof. unfold add_level. by intros ->. Qed.

Lemma vok_add A n v : vok A v → vok (add_level A n) v.
Proof. apply vok_mono, add_level_mono. Qed.

Lemma vok_fresh_add A n : vok (add_level A n) (fresh n).
Proof. apply vok_neutral, nok_unfold. cbn. unfold add_level. by rewrite Nat.eqb_refl, orb_true_r. Qed.

Lemma below_add A n : below A n → below (add_level A n) (n + 1).
Proof.
  intros H k [Hk|Hk%Nat.eqb_eq]%orb_true_iff; [apply H in Hk|]; lia.
Qed.

Lemma close_fresh_in egas A L c v cv :
  below A L → closure_wf A 1 c → close egas c (fresh L) = Ok v →
  denotes (add_level A L) (L + 1) cv (embed_closure (embed L) 1 c) v.
Proof.
  intros HL Hc H. split.
  - eapply (apply_denotes (eval egas) (add_level A L) L cv); [apply eval_denotes| |apply vok_fresh_add|exact H].
    destruct Hc as [He Hs]. split; [|done]. eapply Forall_impl; [exact He|]. intros w. apply vok_add.
  - by eapply close_fresh; [apply (closure_below A)|].
Qed.

Lemma tracks_extend A Γ ctx a v :
  tracks A Γ ctx → vok A v → conv (conversion Γ) a (embed (level ctx) v) →
  tracks (add_level A (level ctx)) (Context.extend Γ a) (extend ctx v).
Proof.
  intros Htr Hv Ha. pose proof (tr_ok _ _ _ Htr) as Hok. pose proof (tr_below _ _ _ Htr) as HL.
  pose proof (weak_extend_1 Γ a Hok) as Hw. split.
  - apply (tr_foundation _ _ _ Htr).
  - by apply ctx_ok_extend.
  - cbn. rewrite !fmap_app. by rewrite (tr_definitions _ _ _ Htr).
  - apply aligned_extend, (tr_aligned _ _ _ Htr).
  - rewrite level_extend. by apply below_add.
  - cbn. apply Forall_app. split.
    + eapply Forall_impl; [apply (tr_env _ _ _ Htr)|]. intros w. apply vok_add.
    + constructor; [apply vok_fresh_add|constructor].
  - rewrite level_extend, open_vars_S. cbn [extend nbe_env].
    rewrite (esub_snoc A) by (try apply (tr_env _ _ _ Htr); done). constructor.
    + apply conv_eq. symmetry. apply embed_fresh.
    + eapply Forall2_conv_weak; [exact Hw|apply (tr_vars _ _ _ Htr)].
  - rewrite level_extend. eapply tracks_types_snoc; [done|done|apply add_level_mono|done|done|].
    by apply lookup_extend_0.
Qed.

Lemma tracks_define A Γ ctx a ty t v :
  tracks A Γ ctx → vok A ty → conv (conversion Γ) a (embed (level ctx) ty) →
  vok A v → conv (conversion Γ) t (embed (level ctx) v) →
  tracks A (Context.define Γ a t) (define ctx ty v t).
Proof.
  intros Htr Hty Ha Hv Ht. pose proof (tr_ok _ _ _ Htr) as Hok. pose proof (tr_below _ _ _ Htr) as HL.
  pose proof (weak_define_1 Γ a t Hok) as Hw. split.
  - apply (tr_foundation _ _ _ Htr).
  - by apply ctx_ok_define.
  - rewrite bindings_define. cbn. rewrite !fmap_app. by rewrite (tr_definitions _ _ _ Htr).
  - apply aligned_define, (tr_aligned _ _ _ Htr).
  - rewrite level_define. intros k Hk%HL. lia.
  - cbn. apply Forall_app. split; [apply (tr_env _ _ _ Htr)|by constructor].
  - rewrite level_define, open_vars_S. cbn [define nbe_env].
    rewrite (esub_snoc A) by (try apply (tr_env _ _ _ Htr); done). constructor.
    + rewrite (embed_shift A) by done. etrans; [apply conv_delta|by eapply weak_conv].
      by rewrite unfold_conversion, definition_define.
    + eapply Forall2_conv_weak; [exact Hw|apply (tr_vars _ _ _ Htr)].
  - rewrite level_define. eapply tracks_types_snoc; [done|done|done|done|done|].
    rewrite lookup_define by done. by apply lookup_extend_0.
Qed.

(** ** Values of inductive families

    What the steps of the second kernel on telescopes, constructors and
    motives of an inductive family promise, short of the recursive calls of the
    checker. *)

Open Scope verum_scope.
#[local] Arguments shift_up : simpl never.
#[local] Arguments embed : simpl never.

(** ** Closures of several variables *)
Lemma close_fields_ok egas A L cv c values v :
  closure_wf A (length values) c → Forall (vok A) values →
  close_fields egas c values = Ok v →
  denotes A L cv (instantiate_fields (embed_closure (embed L) (length values) c)
    (List.map (embed L) values)) v.
Proof.
  intros Hc Hv H. rewrite instantiate_inst.
  change (rev (List.map (embed L) values)) with (esub L values).
  unfold embed_closure. rewrite <- (esub_length L values), inst_inst_at.
  change (rev (List.map (embed L) (env c))) with (esub L (env c)). rewrite <- esub_app.
  eapply apply_fields_denotes; [apply eval_denotes|done..].
Qed.

Lemma embed_closure_raise L n k c :
  closure_wf (levels_below L) k c →
  embed_closure (embed (L + n)) k c = shift_up (embed_closure (embed L) k c) n k.
Proof.
  intros [He Hs]. unfold embed_closure.
  change (rev (List.map (embed ?l) (env c))) with (esub l (env c)). rewrite esub_raise by done.
  by rewrite shift_inst by (by rewrite esub_length).
Qed.

(** ** Declarations *)
Lemma data_eval egas ctx name l ixs cs d :
  ctx_eval egas ctx (Data name l ixs cs) = Ok d →
  d = VData name l (mapi_from (λ i t, capture t (nbe_env ctx) i) 0 ixs)
        (List.map (capture_constructor (nbe_env ctx)) cs) [].
Proof. unfold ctx_eval. destruct egas; [done|]. by intros [= <-]. Qed.

Lemma capture_conv A Γ ctx k t :
  tracks A Γ ctx → scoped (level ctx + k) t →
  conv (under (conversion Γ) k) t (embed_closure (embed (level ctx)) k (capture t (nbe_env ctx) k)).
Proof.
  intros Htr Hs. rewrite (capture_inst (embed (level ctx))) by done.
  rewrite <- (inst_id k (level ctx) t) at 1 by (by rewrite Nat.add_comm).
  apply conv_inst, (tr_vars _ _ _ Htr).
Qed.

(** A declaration without arguments reads back as a declaration whose indices
    are those of the value. *)
Lemma quoted_data egas L name l ixs cs t :
  vok (levels_below L) (VData name l ixs cs []) →
  quote egas (VData name l ixs cs []) L = Ok t →
  ∃ us ds, t = Data name l us ds ∧ length ixs = length us ∧
    ∀ i c u, ixs !! i = Some c → us !! i = Some u →
      ∀ cv, conv cv u (embed_closure (embed L) i c).
Proof.
  intros (Wi & _ & _)%vok_unfold H. destruct egas as [|egas]; [done|]. cbn [quote quote_step] in H.
  apply bind_Ok in H as (us & Hi & (ds & _ & H)%bind_Ok). injection H as <-.
  apply (map_result_enumerate (λ i c, quote_closure (eval egas) (quote egas) c
    (take i (fresh_values L (length ixs))) (L + i))) in Hi as [HL Hi].
  exists us, ds. split_and!; [done..|]. intros i c u Hc Hu. specialize (Hi i c u Hc Hu). cbn in Hi.
  rewrite take_fresh in Hi by (apply lookup_lt_Some in Hc; lia).
  eapply quote_closure_reads in Hi as [_ Hi]; [exact Hi|apply eval_denotes
    |apply quote_reads_both|by apply Wi].
Qed.

(** ** Motives *)
Lemma fresh_values_snoc L n : fresh_values L (S n) = fresh_values L n ++ [fresh (L + n)].
Proof. unfold fresh_values. by rewrite seq_S, map_app. Qed.

Lemma embed_fresh_values L n :
  List.map (embed (L + n)) (fresh_values L n) = List.map Var (rev (seq 0 n)).
Proof.
  pose proof (esub_fresh L n) as H. unfold esub, open_vars in H.
  by rewrite map_rev, <- H, rev_involutive.
Qed.

Section motive.
Context (egas : nat) (A : nat → bool) (Γ : Context) (ctx : NbeContext) (Htr : tracks A Γ ctx).
Let L := level ctx.
Let cv := conversion Γ.

Lemma value_motive_indices_ok ixs us kind j kind' refs :
  (∀ i c, ixs !! i = Some c → closure_wf (levels_below L) (j + i) c) →
  length ixs = length us →
  (∀ i c u, ixs !! i = Some c → us !! i = Some u →
    ∀ cv, conv cv u (embed_closure (embed L) (j + i) c)) →
  vok (levels_below (L + j)) kind →
  value_motive_indices egas ctx kind (fresh_values L j) ixs = Ok (kind', refs) →
  refs = fresh_values L (j + length ixs) ∧ vok (levels_below (L + (j + length ixs))) kind' ∧
  ∀ K, conv (under cv (j + length ixs)) (embed (L + (j + length ixs)) kind') K →
    conv (under cv j) (embed (L + j) kind) (foldr Pi K us).
Proof.
  revert us kind j. induction ixs as [|c ixs IH]; intros [|u us] kind j Hc HL Hu Hk H; try done.
  { cbn in H. injection H as <- <-. cbn [length foldr]. rewrite Nat.add_0_r. by split_and!. }
  cbn [value_motive_indices] in H. destruct kind as [| | |dom cod| | | | | |]; try discriminate H.
  rewrite fresh_values_length in H. fold L in H. apply vok_unfold in Hk as [Vd Vc].
  apply bind_Ok in H as (e & He & (same & Hs & H)%bind_Ok). destruct same; [|discriminate H].
  cbn [negb] in H. apply bind_Ok in H as (k & Hk & H).
  assert (Hcj : closure_wf (levels_below L) j c) by (rewrite <- (Nat.add_0_r j); by apply (Hc 0)).
  apply (open_denotes (eval egas)) with (cv := under cv j) in He as [Ve Ee];
    [|apply eval_denotes|done].
  apply close_fresh with (cv := under (under cv j) 1) in Hk as [Vk Ek]; [|done].
  rewrite <- Nat.add_assoc, Nat.add_1_r in Vk, Ek. rewrite <- fresh_values_snoc in H.
  apply (IH us) in H as (-> & Vk' & HK); [| |by injection HL| |done].
  - cbn [length]. rewrite Nat.add_succ_r. rewrite Nat.add_succ_l in *. split_and!; [done..|].
    intros K HKK. cbn [foldr]. change (embed ?n (VPi ?a ?b)) with (Pi (embed n a) (embed_closure (embed n) 1 b)).
    apply conv_pi.
    + apply (values_equal_conv _ (levels_below (L + j)) _ _ _ (under cv j)) in Hs;
        [|apply below_levels|done..].
      etrans; [exact Hs|]. etrans; [symmetry; exact Ee|]. symmetry.
      specialize (Hu 0 c u eq_refl eq_refl (under cv j)). by rewrite Nat.add_0_r in Hu.
    + etrans; [exact Ek|]. rewrite under_under, Nat.add_1_r. by apply HK.
  - intros i d Hd. rewrite Nat.add_succ_comm. by apply (Hc (S i)).
  - intros i d w Hd Hw. rewrite Nat.add_succ_comm. by apply (Hu (S i)).
Qed.

Lemma value_motive_family_ok decl n kind :
  vok (levels_below L) decl → vok (levels_below (L + n)) kind →
  value_motive_family egas ctx decl kind (fresh_values L n) = Ok tt →
  ∃ m, conv (under cv n) (embed (L + n) kind)
    (Pi (apply_terms (shift_up (embed L decl) n 0) (List.map Var (rev (seq 0 n)))) (Universe m)).
Proof.
  intros Vdecl Vk H. unfold value_motive_family in H.
  destruct kind as [| | |dom cod| | | | | |]; try discriminate H. apply vok_unfold in Vk as [Vd Vc].
  rewrite fresh_values_length in H. fold L in H.
  apply bind_Ok in H as (e & He & (same & Hs & H)%bind_Ok). destruct same; [|discriminate H].
  cbn [negb] in H. apply bind_Ok in H as (k & Hk & H).
  destruct (expect_universe k) as [m|] eqn:Hm; [|discriminate H]. exists m.
  apply close_fresh with (cv := under (under cv n) 1) in Hk as [Vk Ek]; [|done].
  eapply apply_values_denotes with (cv := under cv n) (L := L + n) in He as [Ve Ee];
    [|apply eval_denotes|by apply vok_raise|apply Forall_vok_fresh].
  rewrite embed_fresh_values, (embed_shift _ _ _ _ (below_levels L)) in Ee by done.
  change (embed ?n (VPi ?a ?b)) with (Pi (embed n a) (embed_closure (embed n) 1 b)).
  apply conv_pi.
  - apply (values_equal_conv _ (levels_below (L + n)) _ _ _ (under cv n)) in Hs;
      [|apply below_levels|done..].
    etrans; [exact Hs|]. by symmetry.
  - etrans; [exact Ek|]. by apply expect_universe_ok.
Qed.
End motive.
