(* ===== verification/NbeSound.v ===== *)
(** * Soundness of the second kernel

    Every success of [infer_value] and [check_value] is a derivation of the
    declarative type system, at the term the inferred or expected value stands
    for. *)
From S2P Require Import Prelude Levels LevelFacts Syntax Subst Inst Context Conversion ConvSpec ConvFacts Checker Typing TypingFacts Weakening Nbe Values EvalSound ReadbackSound CompareSound NbeChecker NbeTyping.

Open Scope verum_scope.
#[local] Arguments shift_up : simpl never.
#[local] Arguments embed : simpl never.

Section sound.
Context (egas : nat).
Context (I : NbeContext → Term → result Value) (C : NbeContext → Term → Value → result unit).
Context (I_ok : ∀ A Γ ctx t v, tracks A Γ ctx → I ctx t = Ok v →
  vok A v ∧ has_type Γ t (embed (level ctx) v)).
Context (C_ok : ∀ A Γ ctx t v, tracks A Γ ctx → vok A v → C ctx t v = Ok tt →
  has_type Γ t (embed (level ctx) v)).
Context (I_scoped : ∀ ctx t v, aligned ctx → I ctx t = Ok v → scoped (level ctx) t).
Context (C_scoped : ∀ ctx t v u, aligned ctx → C ctx t v = Ok u → scoped (level ctx) t).

Lemma infer_universe_ok A Γ ctx t l :
  tracks A Γ ctx → infer_universe I ctx t = Ok l → has_type Γ t (Universe l).
Proof.
  intros Htr (k & Hk & H)%bind_Ok. apply ok_or_Ok in H.
  destruct (I_ok _ _ _ _ _ Htr Hk) as [_ Ht]. eapply T_Conv; [exact Ht|].
  by apply expect_universe_ok.
Qed.

Section arms.
Context (A : nat → bool) (Γ : Context) (ctx : NbeContext) (Htr : tracks A Γ ctx).
Let L := level ctx.
Let cv := conversion Γ.
Let HL : below A L := tr_below _ _ _ Htr.

Lemma typed_scoped t T : has_type Γ t T → scoped L t.
Proof. intros H. unfold L. rewrite <- (tracks_depth _ _ _ Htr). by apply (has_type_structural scoped Γ t T). Qed.

(** Evaluating a term that has a type. *)
Lemma eval_typed t T v :
  has_type Γ t T → ctx_eval egas ctx t = Ok v → vok A v ∧ conv cv t (embed L v).
Proof. intros Ht. by apply ctx_eval_ok, (typed_scoped t T). Qed.

Lemma check_domain_ok t v u : vok A v → check_domain_value C ctx t v = Ok u → has_type Γ t (embed L v).
Proof.
  unfold check_domain_value. intros Hv H. apply C_ok with (A := A); [done..|].
  destruct u. by destruct (C ctx t v) as [|[]|].
Qed.

Lemma check_ok t v u : vok A v → C ctx t v = Ok u → has_type Γ t (embed L v).
Proof. destruct u. intros Hv. by apply (C_ok A). Qed.

(** The values a successful step leaves, with what is known of them. *)
Ltac steps :=
  repeat match goal with
  | H : _ ∧ _ |- _ => destruct H
  | H : mbind _ _ = Ok _ |- _ => apply bind_Ok in H as (? & ? & H)
  | H : Ok _ = Ok _ |- _ => injection H as <-
  | H : (if negb ?b then _ else _) = Ok _ |- _ =>
      destruct b eqn:?; cbn [negb] in H;
      [|repeat (apply bind_Ok in H as (? & ? & H)); discriminate H]
  | H : (if ?b then Ok tt else _) = Ok _ |- _ =>
      destruct b eqn:?; [|repeat (apply bind_Ok in H as (? & ? & H)); discriminate H]
  | H : infer_universe I ctx _ = Ok _ |- _ => apply (infer_universe_ok _ _ _ _ _ Htr) in H
  | H : I ctx _ = Ok _ |- _ => apply (I_ok _ _ _ _ _ Htr) in H as [? ?]
  | H : check_domain_value C ctx _ _ = Ok _ |- _ => apply check_domain_ok in H; [|done]
  | H : C ctx _ _ = Ok _ |- _ => apply check_ok in H; [|done]
  | H : ctx_eval egas ctx ?t = Ok _, Ht : has_type Γ ?t _ |- _ =>
      apply (eval_typed _ _ _ Ht) in H as [? ?]
  | H : ctx_quote egas ctx _ = Ok _ |- _ =>
      eapply (ctx_quote_ok _ _ _ _ Htr) in H as [? ?]; [|done]
  | H : app_value egas _ _ = Ok _ |- _ => eapply (app_value_ok egas A Γ ctx) in H as [? ?]; [|done..]
  | H : def_eq egas _ _ (level ctx) = Ok true |- _ =>
      eapply (ctx_equal _ _ _ _ Htr) in H; [|done..]
  end.

Lemma infer_value_let_ok v b T :
  infer_value_let egas I ctx v b = Ok T → vok A T ∧ has_type Γ (Let v b) (embed L T).
Proof.
  intros H. unfold infer_value_let in H. steps.
  eapply I_ok in H as [HT Hb]; [|eapply tracks_define; [exact Htr|done|reflexivity|done..]].
  split; [done|]. rewrite level_define, (embed_shift A) in Hb by done.
  rewrite <- (subst_shift_id (embed L T) 0 v). by eapply T_Let.
Qed.

Lemma infer_value_binder_ok a b T :
  infer_value_binder egas I ctx a b = Ok T →
  vok A T ∧ has_type Γ (Pi a b) (embed L T) ∧ has_type Γ (Sigma a b) (embed L T).
Proof.
  intros H. unfold infer_value_binder in H. steps.
  match goal with H : infer_universe I (extend _ _) _ = Ok _ |- _ =>
    eapply infer_universe_ok in H; [|by eapply tracks_extend] end.
  split; [by apply vok_unfold|].
  change (embed L (VUniverse ?l)) with (Universe l).
  rewrite (conv_universe _ _ _ (max_with_equiv _ _)). split; [by apply T_Pi|by apply T_Sigma].
Qed.
Lemma infer_value_app_ok f x T :
  infer_value_app egas I C ctx f x = Ok T → vok A T ∧ has_type Γ (App f x) (embed L T).
Proof.
  intros H. unfold infer_value_app in H. steps.
  destruct x0 as [| | |dom cod| | | | | |]; try (by apply bind_Ok in H as (? & _ & ?)).
  match goal with Hv : vok A (VPi _ _) |- _ => apply vok_unfold in Hv as [Hd Hc] end. steps.
  eapply close_ok in H as [HT Hconv]; [|done..]. split; [done|].
  eapply T_Conv; [by eapply T_App|]. etrans; [|exact Hconv]. by apply conv_subst.
Qed.

Lemma infer_value_pair_ok a b T :
  infer_value_pair egas I ctx a b = Ok T → vok A T ∧ has_type Γ (Pair a b) (embed L T).
Proof.
  intros H. unfold infer_value_pair, lift_term_one_binder in H. steps.
  match goal with Ha : conv _ ?a (embed _ ?A), Hb : conv _ ?b (embed _ ?B),
      H : ctx_eval egas ctx (Sigma ?a _) = _ |- _ => rename a into ta, b into tb end.
  eapply ctx_eval_ok in H as [HT Hc]; [|exact Htr|]; last first.
  { scope_node. by apply scoped_shift; [lia|]. }
  split; [done|]. eapply T_Conv; [|exact Hc]. apply T_Pair; [by eapply T_Conv; [|symmetry]|].
  rewrite subst_shift_id. by eapply T_Conv; [|symmetry].
Qed.

Lemma infer_value_fst_ok p T :
  infer_value_fst egas I ctx p = Ok T → vok A T ∧ has_type Γ (Fst p) (embed L T).
Proof.
  intros H. unfold infer_value_fst in H. steps.
  destruct x as [| | | | | |dom cod| | |]; try (by apply bind_Ok in H as (? & _ & ?)).
  match goal with Hv : vok A (VSigma _ _) |- _ => apply vok_unfold in Hv as [Hd Hc] end. steps.
  split; [done|]. by eapply T_Fst.
Qed.

Lemma infer_value_snd_ok p T :
  infer_value_snd egas I ctx p = Ok T → vok A T ∧ has_type Γ (Snd p) (embed L T).
Proof.
  intros H. unfold infer_value_snd in H. steps.
  destruct x as [| | | | | |dom cod| | |]; try (by apply bind_Ok in H as (? & _ & ?)).
  match goal with Hv : vok A (VSigma _ _) |- _ => apply vok_unfold in Hv as [Hd Hc] end. steps.
  match goal with Hp : conv cv p (embed _ ?v), Hv : vok A ?v |- _ =>
    destruct (apply_fst_denotes A L cv v Hv) as [Hf Hcf]; rewrite <- Hp in Hcf end.
  eapply close_ok in H as [HT Hconv]; [|done..]. split; [done|].
  eapply T_Conv; [by eapply T_Snd|]. etrans; [|exact Hconv]. apply conv_subst; [reflexivity|done].
Qed.

Lemma infer_value_id_ok T x y U :
  infer_value_id egas I C ctx T x y = Ok U → vok A U ∧ has_type Γ (Id T x y) (embed L U).
Proof.
  intros H. unfold infer_value_id in H. steps. split; [by apply vok_unfold|].
  apply T_Id; [done|..]; by eapply T_Conv; [|symmetry].
Qed.

Lemma infer_value_refl_ok x T :
  infer_value_refl egas I ctx x = Ok T → vok A T ∧ has_type Γ (Refl x) (embed L T).
Proof.
  intros H. unfold infer_value_refl in H. steps. split; [by apply vok_unfold|].
  eapply T_Conv; [by apply T_Refl|]. by apply conv_id.
Qed.
(** Function extensionality. *)
Lemma infer_value_fun_ext_ok F f g p T :
  infer_value_fun_ext egas I C ctx F f g p = Ok T →
  vok A T ∧ has_type Γ (FunExt F f g p) (embed L T).
Proof.
  unfold infer_value_fun_ext. destruct (decide _) as [Hf|]; [|done]. intros H.
  apply bind_Ok in H as (l & HF%(infer_universe_ok _ _ _ _ _ Htr) & H).
  apply bind_Ok in H as (fn & Hfn & H). apply (eval_typed _ _ _ HF) in Hfn as [Hv HcF].
  destruct fn as [| | |dom cod| | | | | |]; try (by apply bind_Ok in H as (? & _ & ?)).
  pose proof Hv as [Hd Hc]%vok_unfold. apply (closure_below _ _ _ _ HL) in Hc.
  steps.
  match goal with
  | Hcar : close _ _ _ = Ok ?c, Hlf : app_value _ x1 _ = Ok ?lf, Hrg : app_value _ x2 _ = Ok ?rg,
    Hq : quote _ _ _ = Ok ?b, Hev : ctx_eval _ _ _ = Ok _ |- _ =>
      apply (close_fresh _ _ _ _ (under cv 1)) in Hcar as [Vc Ec]; [|done];
      apply (app_fresh _ _ _ _ (under cv 1)) in Hlf as [Vl El]; [|by apply (vok_below A)];
      apply (app_fresh _ _ _ _ (under cv 1)) in Hrg as [Vr Er]; [|by apply (vok_below A)];
      eapply quote_reads in Hq as [Hs Hb]; [|apply below_levels|by apply vok_unfold];
      eapply ctx_eval_ok in Hev as [Vp Ep]; [|exact Htr|scope_node]
  end.
  steps. split; [by apply vok_unfold|].
  eapply T_Conv; [|by apply conv_id; [exact HcF|..]].
  eapply T_FunExt; [by rewrite <- (tr_foundation _ _ _ Htr)|exact HF|exact HcF
    |by eapply T_Conv; [|symmetry]|by eapply T_Conv; [|symmetry]|].
  eapply T_Conv; [done|]. etrans; [symmetry; exact Ep|]. apply conv_pi; [done|].
  etrans; [apply Hb|]. change (embed ?n (VId ?a ?b ?c)) with (Id (embed n a) (embed n b) (embed n c)).
  apply conv_id; symmetry; [exact Ec|etrans; [|exact El]|etrans; [|exact Er]];
    (apply conv_app; [by apply conv_shift|reflexivity]).
Qed.
(** The two eliminators of paths. *)
Lemma value_path_motive_ok motive a l cod (dep : bool) k u :
  vok A a → vok A l → closure_wf A 1 cod →
  value_path_motive egas ctx motive a l cod dep = Ok k → expect_universe k = Some u →
  conv (under cv 1) (embed_closure (embed L) 1 cod)
    (if dep
     then Pi (Id (shift_up (embed L a) 1 0) (shift_up (embed L l) 1 0) (Var 0)) (Universe u)
     else Universe u).
Proof.
  intros Ha Hl Hc H Hk. apply (closure_below _ _ _ _ HL) in Hc.
  apply bind_Ok in H as (c & Hcl & H).
  apply (close_fresh _ _ _ _ (under cv 1)) in Hcl as [Vc Ec]; [|done].
  destruct dep.
  - destruct c as [| | |dom cod'| | | | | |]; try discriminate H. apply vok_unfold in Vc as [Vd Vc].
    apply bind_Ok in H as (same & Hs & H). destruct same; cbn [negb] in H;
      [|by apply bind_Ok in H as (? & _ & (? & _ & ?)%bind_Ok)].
    apply (close_fresh _ _ _ _ (under (under cv 1) 1)) in H as [Vk Ek]; [|done].
    etrans; [exact Ec|]. apply conv_pi.
    + apply (values_equal_conv _ (levels_below (L + 1)) _ _ _ (under cv 1)) in Hs;
        [|apply below_levels|done|].
      * etrans; [exact Hs|]. apply conv_eq.
        change (embed ?n (VId ?a ?b ?c)) with (Id (embed n a) (embed n b) (embed n c)).
        by rewrite !(embed_shift A), embed_fresh by done.
      * apply vok_unfold. split_and!; [..|apply vok_fresh_level]; apply vok_raise;
          by apply (vok_below A).
    + etrans; [exact Ek|]. by apply expect_universe_ok.
  - injection H as <-. etrans; [exact Ec|]. by apply expect_universe_ok.
Qed.

Lemma infer_value_identity_elim_ok (dep : bool) motive base s T :
  infer_value_identity_elim egas I C ctx dep motive base s = Ok T →
  vok A T ∧ has_type Γ ((if dep then IdElim else J) motive base s) (embed L T).
Proof.
  intros H. unfold infer_value_identity_elim in H.
  apply bind_Ok in H as (S & HS & H). apply (I_ok _ _ _ _ _ Htr) in HS as [VS HS].
  destruct S as [| | | | | | | |a l r|]; try (by apply bind_Ok in H as (? & _ & ?)).
  apply vok_unfold in VS as (Va & Vl & Vr).
  apply bind_Ok in H as (M & HM & H). apply (I_ok _ _ _ _ _ Htr) in HM as [VM HM].
  destruct M as [| | |dom cod| | | | | |]; try discriminate H. apply vok_unfold in VM as [Vd Vc].
  steps. destruct (expect_universe _) as [u|] eqn:Hu; [|discriminate H].
  match goal with Hp : value_path_motive _ _ _ _ _ _ _ = Ok _ |- _ =>
    apply value_path_motive_ok with (5 := Hu) in Hp as Hmot; [|done..] end.
  assert (HM' : has_type Γ motive (Pi (embed L a) (if dep
     then Pi (Id (shift_up (embed L a) 1 0) (shift_up (embed L l) 1 0) (Var 0)) (Universe u)
     else Universe u))) by (eapply T_Conv; [exact HM|by apply conv_pi]).
  assert (VR : vok A (VRefl l)) by (by apply vok_unfold).
  destruct dep; steps; (split; [done|]).
  - eapply T_Conv; [eapply T_IdElim; [exact HS|exact HM'|]|].
    + eapply T_Conv; [done|]. symmetry. etrans; [|done]. apply conv_app; [|reflexivity].
      etrans; [|done]. by apply conv_app.
    + etrans; [|done]. apply conv_app; [|done]. etrans; [|done]. by apply conv_app.
  - eapply T_Conv; [eapply T_J; [exact HS|exact HM'|]|].
    + eapply T_Conv; [done|]. symmetry. etrans; [|done]. by apply conv_app.
    + etrans; [|done]. by apply conv_app.
Qed.
(** Arguments against a telescope of index closures. *)
Lemma check_index_loop_ok doms ts values vs :
  (∀ i c, doms !! i = Some c → closure_wf A (length values + i) c) →
  Forall (vok A) values → length doms = length ts →
  check_index_loop egas C ctx values (zip doms ts) = Ok vs →
  ∃ ws, vs = values ++ ws ∧ Forall (vok A) ws ∧ Forall2 (conv cv) ts (List.map (embed L) ws) ∧
    ∀ i c t, doms !! i = Some c → ts !! i = Some t →
      has_type Γ t (instantiate_fields (embed_closure (embed L) (length values + i) c)
        (List.map (embed L) (values ++ take i ws))).
Proof.
  revert ts values. induction doms as [|c doms IH]; intros [|t ts] values Hc Hv Hlen H; try done.
  { injection H as <-. exists []. rewrite app_nil_r. by split_and!. }
  cbn [zip zip_with check_index_loop] in H.
  apply bind_Ok in H as (e & He & H). apply bind_Ok in H as (u & Ht & (v & Hev & H)%bind_Ok).
  pose proof (Hc 0 c eq_refl) as Hc0. rewrite Nat.add_0_r in Hc0.
  apply close_fields_ok with (A := A) (L := L) (cv := cv) in He as [Ve Ee]; [|done..].
  apply check_ok in Ht; [|done]. assert (Ht' : has_type Γ t
    (instantiate_fields (embed_closure (embed L) (length values) c) (List.map (embed L) values)))
    by (eapply T_Conv; [exact Ht|by symmetry]).
  apply (eval_typed _ _ _ Ht) in Hev as [Vv Ev].
  apply IH in H as (ws & -> & Hws & Hcs & Hts); [| | |by injection Hlen].
  - exists (v :: ws). rewrite <- app_assoc. split_and!; [done|by constructor|by constructor|].
    intros [|i] c' t' Hci Hti.
    + injection Hci as <-. injection Hti as <-. by rewrite Nat.add_0_r, app_nil_r.
    + specialize (Hts i c' t' Hci Hti). rewrite length_app in Hts. cbn [length] in Hts.
      replace (length values + 1 + i) with (length values + S i) in Hts by lia.
      by rewrite <- app_assoc in Hts.
  - intros i d Hd. rewrite length_app. cbn [length].
    replace (length values + 1 + i) with (length values + S i) by lia. by apply (Hc (S i)).
  - apply Forall_app. split; [done|by constructor].
Qed.

Lemma check_index_arguments_ok doms ts vs :
  (∀ i c, doms !! i = Some c → closure_wf A i c) →
  check_index_arguments egas C ctx doms ts = Ok vs →
  length doms = length ts ∧ Forall (vok A) vs ∧ Forall2 (conv cv) ts (List.map (embed L) vs) ∧
  ∀ j c t, doms !! j = Some c → ts !! j = Some t →
    has_type Γ t (instantiate_fields (embed_closure (embed L) j c) (take j ts)).
Proof.
  intros Hc H. unfold check_index_arguments in H.
  destruct (Nat.eqb_spec (length doms) (length ts)) as [HL'|]; [|discriminate H]. cbn [negb] in H.
  apply check_index_loop_ok in H as (ws & -> & Hws & Hcs & Hts); [|done|done|done].
  split_and!; [done..|]. intros j c t Hj Ht. specialize (Hts j c t Hj Ht). cbn in Hts.
  eapply T_Conv; [exact Hts|]. symmetry. apply conv_instantiate; [reflexivity|].
  change (List.map ?f (take j ws)) with (f <$> take j ws). rewrite fmap_take. by apply Forall2_take.
Qed.

(** Closures at the values of earlier arguments, for terms convertible to them. *)
Lemma close_all_ok cs previous ts ws :
  Forall (closure_wf A (length previous)) cs → Forall (vok A) previous →
  Forall2 (conv cv) ts (List.map (embed L) previous) →
  map_result (λ c, close_fields egas c previous) cs = Ok ws →
  Forall (vok A) ws ∧
  Forall2 (conv cv)
    (List.map (λ c, instantiate_fields (embed_closure (embed L) (length previous) c) ts) cs)
    (List.map (embed L) ws).
Proof.
  intros Hcs Hp Hts H%map_result_Ok. apply Forall2_conv_denotes.
  induction H as [|c w cs ws Hw _ IH]; [constructor|]. apply Forall_cons in Hcs as [Hc Hcs].
  constructor; [|auto]. apply (close_fields_ok egas A L cv c previous) in Hw as [Vw Ew]; [|done..].
  split; [done|]. etrans; [|exact Ew]. by apply conv_instantiate; [reflexivity|].
Qed.

(** The arguments of a constructor. *)
Lemma field_argument_ok name l ixs ctors args f previous ts dom e :
  let decl := VData name l ixs ctors args in
  let i := length previous in
  vok A decl → field_wf A i f → Forall (vok A) previous →
  Forall2 (conv cv) ts (List.map (embed L) previous) →
  domain (eval egas) f previous = Ok dom →
  match dom with
  | Some v => Ok v
  | None =>
      values ← Nbe.recursive_indices (eval egas) f previous;
      app_values egas decl (default [] values)
  end = Ok e →
  vok A e ∧
  conv cv (instantiate_fields (field_domain (embed L decl) (embed_field (embed L) i f) i) ts)
    (embed L e).
Proof.
  intros decl i Vd Hf Hp Hts Hd H. pose proof (Forall2_length _ _ _ Hts) as HL'. rewrite length_map in HL'.
  assert (Hrefl : ∀ t, conv cv (instantiate_fields t ts)
    (instantiate_fields t (List.map (embed L) previous)))
    by (intros t; by apply conv_instantiate; [reflexivity|]).
  assert (Hshift : ∀ t, instantiate_fields (shift_up t i 0) ts = t)
    by (intros t; unfold i; rewrite <- HL'; apply instantiate_shift).
  destruct f as [c|c| |cs]; cbn [domain Nbe.recursive_indices] in Hd, H.
  - apply bind_Ok in Hd as (v & Hv & [= <-]). injection H as <-.
    unfold field_domain. cbn [embed_field field_value_type]. rewrite Hshift.
    apply (close_fields_ok egas A L cv c []) in Hv; [exact Hv|done|constructor].
  - apply bind_Ok in Hd as (v & Hv & [= <-]). injection H as <-.
    apply (close_fields_ok egas A L cv c previous) in Hv as [Vv Ev]; [|done..]. split; [done|].
    etrans; [apply Hrefl|exact Ev].
  - injection Hd as <-. injection H as <-. split; [done|]. unfold field_domain. cbn.
    rewrite Hshift. reflexivity.
  - injection Hd as <-. apply bind_Ok in H as (vs & (ws & Hws & [= <-])%bind_Ok & H).
    cbn [default] in H.
    apply close_all_ok with (ts := ts) in Hws as [Vws Ews]; [|done..].
    eapply app_values_ok in H as [Ve Ee]; [|done..]. split; [done|]. etrans; [|exact Ee].
    unfold field_domain. cbn. rewrite instantiate_apply_terms, Hshift, List.map_map.
    by apply conv_apply_terms; [reflexivity|].
Qed.

Lemma check_constructor_args_ok decl fs ts previous vs :
  (∃ name l ixs ctors args, decl = VData name l ixs ctors args) →
  vok A decl → (∀ i f, fs !! i = Some f → field_wf A (length previous + i) f) →
  Forall (vok A) previous → length fs = length ts →
  check_constructor_args egas C ctx decl previous (zip fs ts) = Ok vs →
  ∀ ts0, Forall2 (conv cv) ts0 (List.map (embed L) previous) →
  Forall (vok A) vs ∧ Forall2 (conv cv) (ts0 ++ ts) (List.map (embed L) vs) ∧
  ∀ i f t, fs !! i = Some f → ts !! i = Some t →
    has_type Γ t (instantiate_fields
      (field_domain (embed L decl) (embed_field (embed L) (length previous + i) f)
        (length previous + i)) (ts0 ++ take i ts)).
Proof.
  intros Hdecl Vd. revert ts previous. induction fs as [|f fs IH]; intros [|t ts] previous Hf Hp Hlen H ts0 H0;
    try done.
  { injection H as <-. by rewrite app_nil_r. }
  cbn [zip zip_with check_constructor_args] in H.
  pose proof (Hf 0 f eq_refl) as Hf0. rewrite Nat.add_0_r in Hf0.
  apply bind_Ok in H as (d & Hd & (e & He & H)%bind_Ok).
  destruct Hdecl as (name & l & ixs & ctors & args & ->).
  eapply field_argument_ok in He as [Ve Ee]; [|done..].
  apply bind_Ok in H as (u & Ht & (v & Hev & H)%bind_Ok).
  apply check_ok in Ht; [|done]. apply (eval_typed _ _ _ Ht) in Hev as [Vv Ev].
  assert (Hsnoc : ∀ i, length (previous ++ [v]) + i = length previous + S i)
    by (intros i; rewrite length_app; cbn; lia).
  eapply IH with (ts0 := ts0 ++ [t]) in H as (Hvs & Hcs & Hts).
  - rewrite <- app_assoc in Hcs. split_and!; [done..|]. intros [|i] g w Hg Hw.
    + injection Hg as <-. injection Hw as <-. rewrite Nat.add_0_r, app_nil_r.
      eapply T_Conv; [exact Ht|by symmetry].
    + specialize (Hts i g w Hg Hw). by rewrite Hsnoc, <- app_assoc in Hts.
  - intros i g Hg. rewrite Hsnoc. by apply (Hf (S i)).
  - apply Forall_app. split; [done|by constructor].
  - by injection Hlen.
  - rewrite map_app. apply Forall2_app; [done|by constructor].
Qed.

Lemma infer_value_construct_ok d k args T :
  infer_value_construct egas I C ctx d k args = Ok T →
  vok A T ∧ has_type Γ (Construct d k args) (embed L T).
Proof.
  intros H. unfold infer_value_construct in H.
  apply bind_Ok in H as (K & HK & H). apply (I_ok _ _ _ _ _ Htr) in HK as [_ Hd].
  apply bind_Ok in H as (decl & Hdecl & H). apply (eval_typed _ _ _ Hd) in Hdecl as [Vd Ed].
  destruct decl as [name l ixs cs vs| | | | | | | | |]; try discriminate H.
  destruct (Nat.eqb_spec (length vs) 0) as [Hvs|]; [|discriminate H]. cbn [negb] in H.
  apply nil_length_inv in Hvs as ->.
  apply bind_Ok in H as (c & Hc%ok_or_Ok & H).
  destruct (Nat.eqb_spec (length (fields c)) (length args)) as [Hlen|]; [|discriminate H].
  cbn [negb] in H. apply bind_Ok in H as (previous & Hp & (values & Hval & H)%bind_Ok).
  pose proof Vd as (_ & Wc & _)%vok_unfold. pose proof (Forall_lookup_1 _ _ _ _ Wc Hc) as [Wf Wi].
  eapply check_constructor_args_ok with (ts0 := []) in Hp as (Vp & Ep & Hargs); [|by repeat eexists|done..|constructor].
  pose proof (Forall2_length _ _ _ Ep) as Hlp. rewrite length_map in Hlp. cbn [app] in Ep, Hlp.
  apply close_all_ok with (ts := args) in Hval as [Vv Ev]; [|by rewrite <- Hlp, <- Hlen|done..].
  eapply app_values_ok in H as [VT ET]; [|done..]. split; [done|].
  rewrite <- Hlp, <- Hlen in Ev.
  change (embed L (VData name l ixs cs [])) with (Data name l (mapi_from (embed_closure (embed L)) 0 ixs)
    (List.map (embed_constructor (embed L)) cs)) in *.
  eapply T_Conv; [eapply T_Construct; [exact Hd|exact Ed| | |]|].
  - change (List.map ?f ?l) with (f <$> l). by rewrite list_lookup_fmap, Hc.
  - cbn [embed_constructor fields]. by rewrite mapi_from_length.
  - intros i f a Hf Ha. cbn [embed_constructor fields] in Hf.
    apply lookup_mapi_Some in Hf as (g & Hg & ->). by apply (Hargs i g a).
  - cbn [embed_constructor indices]. rewrite List.map_map. etrans; [|exact ET].
    by apply conv_apply_terms; [reflexivity|].
Qed.
(** Induction. *)
Lemma value_motive_ok motive name l ixs ctors us ds kind kind' refs :
  let decl := VData name l ixs ctors [] in
  vok A decl → length ixs = length us →
  (∀ i c u, ixs !! i = Some c → us !! i = Some u →
    ∀ cv, conv cv u (embed_closure (embed L) i c)) →
  conv cv (Data name l us ds) (embed L decl) →
  vok A kind → has_type Γ motive (embed L kind) →
  value_motive_indices egas ctx kind [] ixs = Ok (kind', refs) →
  value_motive_family egas ctx decl kind' refs = Ok tt →
  ∃ m, has_type Γ motive (motive_type (Data name l us ds) us m).
Proof.
  intros decl Vd Hlen Hus Ed Vk Hm Hi Hf. pose proof (vok_below A L decl HL Vd) as Vd'.
  pose proof Vd' as (Wi & _ & _)%vok_unfold.
  change (@nil Value) with (fresh_values L 0) in Hi.
  eapply (value_motive_indices_ok egas Γ ctx _ us) in Hi as (-> & Vk' & HK);
    [|done|done|done|rewrite Nat.add_0_r; by apply (vok_below A)].
  cbn [Nat.add] in *. eapply value_motive_family_ok in Hf as [m Hfam]; [|done|exact Vk'].
  exists m. eapply T_Conv; [exact Hm|]. fold L in HK, Hfam. rewrite Nat.add_0_r, under_0 in HK.
  etrans; [apply HK; exact Hfam|]. unfold motive_type. rewrite <- Hlen.
  apply conv_foldr_Pi. rewrite <- Hlen. apply conv_pi; [|reflexivity].
  apply conv_apply_head. apply conv_shift. by symmetry.
Qed.

Lemma infer_value_induct_ok s motive cases T :
  infer_value_induct egas I C ctx s motive cases = Ok T →
  vok A T ∧ has_type Γ (Induct s motive cases) (embed L T).
Proof.
  intros H. unfold infer_value_induct in H.
  apply bind_Ok in H as (S & HS & H). apply (I_ok _ _ _ _ _ Htr) in HS as [VS HS].
  destruct S as [name l ixs ctors values| | | | | | | | |]; try discriminate H.
  destruct (Nat.eqb_spec (length ixs) (length values)) as [Hlen|]; [|discriminate H]. cbn [negb] in H.
  pose proof VS as (Wi & Wc & Vv)%vok_unfold.
  assert (Vd : vok A (VData name l ixs ctors [])) by (by apply vok_unfold).
  apply bind_Ok in H as (raw & Hraw & H).
  pose proof Hraw as (us & ds & -> & Hus & Hui)%quoted_data; [|by apply (vok_below A)].
  eapply ctx_quote_ok in Hraw as [Sr Er]; [|exact Htr|done].
  apply bind_Ok in H as (u & _ & (kind & Hk & H)%bind_Ok). apply (I_ok _ _ _ _ _ Htr) in Hk as [Vk Hm].
  apply bind_Ok in H as ([kind' refs] & Hi & ([] & Hf & H)%bind_Ok).
  destruct (value_motive_ok motive name l ixs ctors us ds kind kind' refs) as [m Hmt]; [done..|].
  destruct (Nat.eqb_spec (length cases) (length ds)) as [Hcl|]; [|discriminate H]. cbn [negb] in H.
  apply bind_Ok in H as (u' & Hcases & (mv & Hmv & H)%bind_Ok).
  apply (eval_typed _ _ _ Hm) in Hmv as [Vm Em].
  apply bind_Ok in H as (fam & Hfam & (sv & Hsv & H)%bind_Ok).
  apply (eval_typed _ _ _ HS) in Hsv as [Vs Es].
  eapply app_values_ok in Hfam as [Vf Ef]; [|done..]. eapply app_value_ok in H as [VT ET]; [|done..].
  split; [done|]. eapply T_Conv; [eapply T_Induct with (values := List.map (embed L) values); [| |exact Hmt|done|]|].
  - eapply T_Conv; [exact HS|]. symmetry. exact (conv_apply_head _ _ _ _ Er).
  - by rewrite length_map, <- Hus.
  - intros i c case Hc Hcase. pose proof (each_zip_enumerated _ _ _ _ Hcases i c case Hc Hcase) as Hone.
    cbn beta iota in Hone. apply bind_Ok in Hone as (e & He & Hone).
    eapply ctx_eval_ok in He as [Ve Ee]; [|exact Htr|].
    + apply check_ok in Hone; [|done]. eapply T_Conv; [exact Hone|by symmetry].
    + apply case_type_scoped; [done|by eapply typed_scoped|].
      apply scoped_data in Sr as [_ Sc]. by eapply Forall_lookup_1.
  - etrans; [|exact ET]. apply conv_app; [|done]. etrans; [|exact Ef]. by apply conv_apply_head.
Qed.
End arms.

(** ** Telescopes of abstractions *)
Lemma lam_telescope_ok t A Γ ctx domains r :
  tracks A Γ ctx → lam_telescope egas I ctx t domains = Ok r →
  ∃ U, scoped (level ctx) U ∧ has_type Γ t U ∧ r = foldr Pi U domains.
Proof.
  revert A Γ ctx domains. induction t as [t IH] using term_children_ind.
  intros A Γ ctx domains Htr H.
  assert (Hplain : (body_type ← I ctx t; codomain ← ctx_quote egas ctx body_type;
      Ok (foldr Pi codomain domains)) = Ok r →
    ∃ U, scoped (level ctx) U ∧ has_type Γ t U ∧ r = foldr Pi U domains).
  { clear H. intros (T & [HT Ht]%(I_ok _ _ _ _ _ Htr) & (u & Hu & [= <-])%bind_Ok)%bind_Ok.
    eapply ctx_quote_ok in Hu as [Hs Hc]; [|exact Htr|done]. exists u. split_and!; [done| |done].
    by eapply T_Conv; [|symmetry]. }
  destruct t; cbn [lam_telescope] in H; try (by apply Hplain). clear Hplain.
  apply bind_Ok in H as (l & Hd & (v & Hv & H)%bind_Ok).
  eapply infer_universe_ok in Hd; [|done].
  apply (eval_typed _ _ _ Htr _ _ _ Hd) in Hv as [Hv Hc].
  apply Forall_cons in IH as [_ [IH _]%Forall_cons].
  eapply IH in H as (U & Hs & Hb & ->); [|by eapply tracks_extend].
  rewrite level_extend in Hs. exists (Pi t1 U). split_and!.
  - apply (typed_scoped _ _ _ Htr) in Hd. scope_node.
  - by eapply T_Lam.
  - by rewrite foldr_app.
Qed.

Lemma infer_value_lam_ok A Γ ctx t T :
  tracks A Γ ctx → infer_value_lam egas I ctx t = Ok T →
  vok A T ∧ has_type Γ t (embed (level ctx) T).
Proof.
  intros Htr (r & Hr & H)%bind_Ok. eapply lam_telescope_ok in Hr as (U & Hs & Ht & ->); [|done].
  eapply ctx_eval_ok in H as [HT Hc]; [|exact Htr|exact Hs]. split; [done|]. by eapply T_Conv.
Qed.
(** ** Declarations *)
Lemma infer_value_indices_ok A Γ ctx ixs u :
  tracks A Γ ctx → infer_value_indices egas I ctx ixs = Ok u →
  ∃ il, ∀ i t, ixs !! i = Some t →
    has_type (index_context Γ (take i ixs)) t (Universe (il i)).
Proof.
  revert A Γ ctx. induction ixs as [|t ixs IH]; intros A Γ ctx Htr H.
  { by exists (λ _, Level.Concrete (u32_of 0)). }
  cbn [infer_value_indices] in H. apply bind_Ok in H as (l & Hl & (v & Hv & H)%bind_Ok).
  eapply infer_universe_ok in Hl; [|done]. apply (eval_typed _ _ _ Htr _ _ _ Hl) in Hv as [Vv Ev].
  eapply IH in H as [il Hil]; [|by eapply tracks_extend].
  exists (λ i, match i with 0 => l | S i => il i end).
  intros [|i] t' Ht; [by injection Ht as <-|]. by apply Hil.
Qed.

Section declaration.
Context (A : nat → bool) (Γ : Context) (ctx : NbeContext) (Htr : tracks A Γ ctx).
Context (name : string) (l : Level) (ixs : list Term) (cs : list TermConstructor).
Let L := level ctx.
Let D := Data name l ixs cs.
Let doms := mapi_from (λ i t, capture t (nbe_env ctx) i) 0 ixs.
Context (decl : Value) (Vdecl : vok A decl) (Edecl : conv (conversion Γ) D (embed L decl)).
Context (Hixs : ∀ i t, ixs !! i = Some t → scoped (L + i) t).

(** The context of the fields before position [i]. *)
Record local_tracks (i : nat) (A' : nat → bool) (Γ' : Context) (local : NbeContext) : Prop := {
  lt_tracks : tracks A' Γ' local;
  lt_weak : weak i 0 Γ Γ';
  lt_level : level local = L + i;
  lt_levels k : A k = true → A' k = true
}.

Lemma index_arguments_ok i A' Γ' local ts vs :
  local_tracks i A' Γ' local → check_index_arguments egas C local doms ts = Ok vs →
  length ixs = length ts ∧ Forall (vok A') vs ∧
  Forall2 (conv (conversion Γ')) ts (List.map (embed (L + i)) vs) ∧
  ∀ j T v, ixs !! j = Some T → ts !! j = Some v → has_type Γ' v (argument_type i j T ts).
Proof.
  intros [Htr' Hw Hl HA] H. pose proof (tr_env _ _ _ Htr) as He.
  apply (check_index_arguments_ok A' Γ' local Htr') in H as (Hlen & Vvs & Evs & Hts).
  - unfold doms in Hlen. rewrite mapi_from_length in Hlen. rewrite Hl in Evs.
    split_and!; [done..|]. intros j T v HT Hv.
    assert (Hc : doms !! j = Some (capture T (nbe_env ctx) j))
      by (unfold doms; by rewrite lookup_mapi_from, HT).
    specialize (Hts j _ v Hc Hv). eapply T_Conv; [exact Hts|]. symmetry. rewrite Hl.
    apply conv_instantiate; [|apply Forall2_conv_refl].
    rewrite length_take_le by (apply lookup_lt_Some in Hv; lia).
    rewrite embed_closure_raise.
    + eapply conv_weaken; [by eapply capture_conv, Hixs|].
      apply (cweak_under i 0), weak_cweak, Hw.
    + apply (closure_below A); [apply (tr_below _ _ _ Htr)|]. apply capture_wf; [done|by apply Hixs].
  - intros j c Hc. unfold doms in Hc. apply lookup_mapi_Some in Hc as (T & HT & ->).
    apply capture_wf; [|by apply Hixs]. eapply Forall_impl; [exact He|]. intros w. by apply vok_mono.
Qed.

(** The family at the values of its indices, inside the fields. *)
Lemma family_ok i A' Γ' local ts vs dom :
  local_tracks i A' Γ' local → Forall (vok A') vs →
  Forall2 (conv (conversion Γ')) ts (List.map (embed (L + i)) vs) →
  app_values egas decl vs = Ok dom →
  vok A' dom ∧ conv (conversion Γ') (apply_terms (shift_up D i 0) ts) (embed (L + i) dom).
Proof.
  intros [Htr' Hw Hl HA] Vvs Evs H.
  eapply (app_values_ok egas A' Γ' local) in H as [Vd Ed]; [|by eapply vok_mono|done].
  rewrite Hl in Ed. split; [done|]. etrans; [|exact Ed]. apply conv_apply_terms; [|done].
  rewrite (embed_shift A); [|apply (tr_below _ _ _ Htr)|done]. by eapply weak_conv.
Qed.

(** What one field contributes: its domain, and its typing. *)
Lemma value_field_domain_ok i A' Γ' local f dom :
  local_tracks i A' Γ' local → value_field_domain egas I C ctx local decl l doms f = Ok dom →
  vok A' dom ∧ conv (conversion Γ') (field_domain D f i) (embed (L + i) dom) ∧
  ∃ lv, field_typed D l ixs Γ' i [f] (λ _, lv).
Proof.
  intros Hlt H. pose proof Hlt as [Htr' Hw Hl HA]. destruct f as [t|t| |ts]; cbn [value_field_domain] in H.
  - apply bind_Ok in H as (lv & Hlv & H). eapply infer_universe_ok in Hlv; [|exact Htr].
    destruct (Level.level_eq _ _) eqn:Hle; [|discriminate H]. cbn [negb] in H.
    apply (eval_typed _ _ _ Htr _ _ _ Hlv) in H as [Vd Ed]. split_and!.
    + by eapply vok_mono.
    + unfold field_domain. cbn. rewrite (embed_shift A); [|apply (tr_below _ _ _ Htr)|done].
      by eapply weak_conv.
    + exists lv. intros [|j] g Hg; [|done]. injection Hg as <-. cbn. rewrite Nat.add_0_r.
      split; [by apply level_le_of_level_eq|]. rewrite <- (shift_Universe i 0). by eapply has_type_weak.
  - apply bind_Ok in H as (lv & Hlv & H). eapply infer_universe_ok in Hlv; [|exact Htr'].
    destruct (Level.level_eq _ _) eqn:Hle; [|discriminate H]. cbn [negb] in H.
    apply (eval_typed _ _ _ Htr' _ _ _ Hlv) in H as [Vd Ed]. rewrite Hl in Ed. split_and!; [done..|].
    exists lv. intros [|j] g Hg; [|done]. injection Hg as <-.
    split; [by apply level_le_of_level_eq|]. done.
  - apply bind_Ok in H as (vs & Hvs & H). eapply index_arguments_ok in Hvs as (Hlen & Vvs & Evs & Hts); [|done].
    eapply family_ok in H as [Vd Ed]; [|done..]. split_and!; [done..|].
    exists l. intros [|j] g Hg; [|done]. injection Hg as <-. cbn. rewrite Nat.add_0_r. by split.
  - apply bind_Ok in H as (vs & Hvs & H). eapply index_arguments_ok in Hvs as (Hlen & Vvs & Evs & Hts); [|done].
    eapply family_ok in H as [Vd Ed]; [|done..]. split_and!; [done..|].
    exists l. intros [|j] g Hg; [|done]. injection Hg as <-. cbn. rewrite Nat.add_0_r. by split.
Qed.

Lemma local_tracks_extend i A' Γ' local f dom :
  local_tracks i A' Γ' local → vok A' dom →
  conv (conversion Γ') (field_domain D f i) (embed (L + i) dom) →
  local_tracks (S i) (add_level A' (level local)) (Context.extend Γ' (field_domain D f i))
    (extend local dom).
Proof.
  intros [Htr' Hw Hl HA] Vd Ed. split.
  - apply tracks_extend; [done..|]. by rewrite Hl.
  - replace (S i) with (i + 1) by lia. eapply weak_trans; [exact Hw|].
    apply weak_extend_1, (tr_ok _ _ _ Htr').
  - rewrite level_extend. lia.
  - intros k Hk. by apply add_level_mono, HA.
Qed.

Lemma check_value_fields_ok i A' Γ' local fs local' :
  local_tracks i A' Γ' local → check_value_fields egas I C ctx local decl l doms fs = Ok local' →
  ∃ A'' fl, local_tracks (i + length fs) A'' (field_context Γ' D i fs) local' ∧
    field_typed D l ixs Γ' i fs fl.
Proof.
  revert i A' Γ' local. induction fs as [|f fs IH]; intros i A' Γ' local Hlt H.
  { injection H as <-. exists A', (λ _, l). rewrite Nat.add_0_r. by split. }
  cbn [check_value_fields] in H. apply bind_Ok in H as (dom & Hd & H).
  eapply value_field_domain_ok in Hd as (Vd & Ed & lv & Hlv); [|done].
  eapply IH in H as (A'' & fl & Hlt' & Hfl); [|by eapply local_tracks_extend].
  exists A'', (λ i, match i with 0 => lv | S i => fl i end). split.
  - cbn [length field_context]. by rewrite <- Nat.add_succ_comm.
  - intros [|j] g Hg; [by apply (Hlv 0)|]. rewrite <- Nat.add_succ_comm. by apply Hfl.
Qed.

Lemma value_constructor_ok c :
  (local ← check_value_fields egas I C ctx ctx decl l doms (fields c);
   _ ← check_index_arguments egas C local doms (indices c); Ok tt) = Ok tt →
  (∃ fl, field_typed D l ixs Γ 0 (fields c) fl) ∧
  length ixs = length (indices c) ∧
  ∀ j T v, ixs !! j = Some T → indices c !! j = Some v →
    has_type (field_context Γ D 0 (fields c)) v
      (argument_type (length (fields c)) j T (indices c)).
Proof.
  intros (local & Hf & (vs & Hi & _)%bind_Ok)%bind_Ok.
  apply (check_value_fields_ok 0 A Γ) in Hf as (A'' & fl & Hlt & Hfl).
  - eapply index_arguments_ok in Hi as (Hlen & _ & _ & Hts); [|exact Hlt]. split_and!; [by exists fl|done..].
  - split; [done| |unfold L; lia|done].
    apply (weak_bindings Γ Γ []); [apply (tr_ok _ _ _ Htr)..|done|by rewrite app_nil_r].
Qed.
End declaration.

Lemma infer_value_data_ok A Γ ctx name l ixs cs T :
  tracks A Γ ctx → infer_value_data egas I C ctx name l ixs cs = Ok T →
  vok A T ∧ has_type Γ (Data name l ixs cs) (embed (level ctx) T).
Proof.
  intros Htr H. pose proof H as Hs. apply infer_value_data_scoped in Hs; [|done..|apply (tr_aligned _ _ _ Htr)].
  apply bind_Ok in H as (u & Hi & (decl & Hdecl & H)%bind_Ok).
  pose proof (data_eval _ _ _ _ _ _ _ Hdecl) as Ed.
  apply (ctx_eval_ok _ _ _ _ Htr) in Hdecl as [Vd Cd]; [|done]. pose proof Hs as [Hsi _]%scoped_data.
  subst decl. apply bind_Ok in H as (u' & Hcs%each_checked_Ok & H).
  eapply infer_value_indices_ok in Hi as [il Hil]; [|done].
  assert (HD : has_type Γ (Data name l ixs cs) (foldr Pi (Universe l) ixs)).
  { apply data_typed with (il := il); [done|]. eapply Forall_impl; [exact Hcs|]. intros c Hc.
    eapply value_constructor_ok; [exact Htr|exact Vd|exact Cd|exact Hsi|exact Hc]. }
  eapply ctx_eval_ok in H as [VT ET]; [|exact Htr|].
  - split; [done|]. eapply T_Conv; [exact HD|]. etrans; [|exact ET].
    apply conv_foldr_Pi, conv_universe. symmetry. apply normalize_equiv.
  - by apply scoped_foldr_Pi.
Qed.
(** ** The two functions *)
Lemma infer_value_step_ok A Γ ctx t T :
  tracks A Γ ctx → infer_value_step egas I C ctx t = Ok T →
  vok A T ∧ has_type Γ t (embed (level ctx) T).
Proof.
  intros Htr. destruct t; cbn [infer_value_step].
  - by apply infer_value_data_ok.
  - by apply infer_value_construct_ok.
  - by apply infer_value_induct_ok.
  - by apply infer_value_let_ok.
  - intros H%ok_or_Ok. apply (tr_types _ _ _ Htr) in H as (VT & U & HU & Ec). split; [done|].
    eapply T_Conv; [by apply T_Var|done].
  - intros [= <-]. split; [by apply vok_unfold|]. eapply T_Conv; [apply T_Univ|].
    apply conv_universe. intros ρ. by rewrite !eval_successor, normalize_eval.
  - intros H. eapply infer_value_binder_ok in H as (? & ? & ?); done.
  - by apply infer_value_lam_ok.
  - by apply infer_value_app_ok.
  - intros H. eapply infer_value_binder_ok in H as (? & ? & ?); done.
  - by apply infer_value_pair_ok.
  - by apply infer_value_fst_ok.
  - by apply infer_value_snd_ok.
  - by apply infer_value_id_ok.
  - by apply infer_value_refl_ok.
  - by apply (infer_value_identity_elim_ok _ _ _ Htr false).
  - by apply (infer_value_identity_elim_ok _ _ _ Htr true).
  - by apply infer_value_fun_ext_ok.
Qed.

Lemma check_value_inferred_ok A Γ ctx t v :
  tracks A Γ ctx → vok A v → check_value_inferred egas I ctx t v = Ok tt →
  has_type Γ t (embed (level ctx) v).
Proof.
  intros Htr Hv (T & HT & (same & Hs & H)%bind_Ok)%bind_Ok.
  apply (I_ok _ _ _ _ _ Htr) in HT as [VT HT].
  destruct same; [|by apply bind_Ok in H as (? & _ & (? & _ & ?)%bind_Ok)].
  eapply T_Conv; [exact HT|]. by eapply ctx_equal.
Qed.

Lemma check_value_shape_ok A Γ ctx t v :
  tracks A Γ ctx → vok A v → check_value_shape egas I C ctx t v = Ok tt →
  has_type Γ t (embed (level ctx) v).
Proof.
  intros Htr Hv H. pose proof (check_value_inferred_ok A Γ ctx t v Htr Hv) as Hplain.
  pose proof (tr_below _ _ _ Htr) as HL.
  destruct t, v; try (by apply Hplain); clear Hplain; cbn [check_value_shape] in H;
    apply vok_unfold in Hv.
  - (* an abstraction against a function type *)
    destruct Hv as [Vd Vc]. apply bind_Ok in H as (l & Hl & (d & Hd & H)%bind_Ok).
    eapply infer_universe_ok in Hl; [|done]. apply (eval_typed _ _ _ Htr _ _ _ Hl) in Hd as [Va Ea].
    apply bind_Ok in H as (same & Hs & H). destruct same; cbn [negb] in H;
      [|by apply bind_Ok in H as (? & _ & ?)].
    eapply ctx_equal in Hs; [|done..]. apply bind_Ok in H as (bt & Hbt & H).
    apply close_fresh_in with (A := A) (cv := conversion (Context.extend Γ t1)) in Hbt as [Vbt Ebt];
      [|done..].
    eapply C_ok in H; [|by eapply tracks_extend|done]. rewrite level_extend in H.
    eapply T_Conv; [eapply T_Lam; [exact Hl|eapply T_Conv; [exact H|symmetry; exact Ebt]]|].
    apply conv_pi; [by etrans|reflexivity].
  - (* a pair against a type of pairs *)
    destruct Hv as [Vd Vc]. apply bind_Ok in H as (u & H1 & (f & Hf & H)%bind_Ok).
    apply (check_ok _ _ _ Htr) in H1; [|done]. apply (eval_typed _ _ _ Htr _ _ _ H1) in Hf as [Vf Ef].
    apply bind_Ok in H as (T & HT & H).
    eapply (close_ok egas A Γ ctx) in HT as [VT ET]; [|done..].
    apply (check_ok _ _ _ Htr) in H; [|done]. apply T_Pair; [done|].
    eapply T_Conv; [exact H|]. symmetry. etrans; [|exact ET]. by apply conv_subst; [reflexivity|].
  - (* a reflexivity path against an identity type *)
    destruct Hv as (VT & Vx & Vy). apply bind_Ok in H as (u & H1 & (f & Hf & H)%bind_Ok).
    apply (check_domain_ok _ _ _ Htr) in H1; [|done].
    apply (eval_typed _ _ _ Htr _ _ _ H1) in Hf as [Vf Ef].
    apply bind_Ok in H as (same & Hs & H).
    destruct same; [|by apply bind_Ok in H as (? & _ & (? & _ & ?)%bind_Ok)].
    apply and_checked_true in Hs as [Hx Hy].
    eapply ctx_equal in Hx; [|done..]. eapply ctx_equal in Hy; [|done..].
    eapply T_Conv; [by apply T_Refl|]. apply conv_id; [reflexivity|by etrans..].
Qed.

Lemma check_value_step_ok A Γ ctx t v :
  tracks A Γ ctx → vok A v → check_value_step egas I C ctx t v = Ok tt →
  has_type Γ t (embed (level ctx) v).
Proof.
  intros Htr Hv. destruct t; try (by apply (check_value_shape_ok A)); cbn [check_value_step].
  - intros (T & HT & (w & Hw & H)%bind_Ok)%bind_Ok.
    apply (I_ok _ _ _ _ _ Htr) in HT as [VT HT].
    apply (eval_typed _ _ _ Htr _ _ _ HT) in Hw as [Vw Ew].
    eapply C_ok in H; [|by eapply tracks_define; [exact Htr|exact VT|reflexivity|..]|done].
    rewrite level_define, (embed_shift A) in H; [|apply (tr_below _ _ _ Htr)|done].
    rewrite <- (subst_shift_id (embed (level ctx) v) 0 t1). by eapply T_Let.
  - intros (T & HT%ok_or_Ok & (same & Hs & H)%bind_Ok)%bind_Ok.
    apply (tr_types _ _ _ Htr) in HT as (VT & U & HU & Ec). destruct same.
    + eapply ctx_equal in Hs; [|done..]. eapply T_Conv; [by apply T_Var|]. by etrans.
    + rewrite (definition_tracked _ _ _ _ Htr) in H.
      destruct (Context.definition Γ i) eqn:Hd; [|by eapply check_value_shape_ok].
      eapply T_Delta; [exact Hd|]. by eapply C_ok.
Qed.
End sound.

(** ** The checker *)
Lemma nbe_checker_sound egas gas A Γ ctx :
  tracks A Γ ctx →
  (∀ t T, infer_value egas gas ctx t = Ok T → vok A T ∧ has_type Γ t (embed (level ctx) T)) ∧
  (∀ t v, vok A v → check_value egas gas ctx t v = Ok tt → has_type Γ t (embed (level ctx) v)).
Proof.
  revert A Γ ctx. induction gas as [|gas IH]; intros A Γ ctx Htr; [done|].
  assert (HI : ∀ A Γ ctx t v, tracks A Γ ctx → infer_value egas gas ctx t = Ok v →
    vok A v ∧ has_type Γ t (embed (level ctx) v)) by (intros A' Γ' c t v Hc; by apply IH).
  assert (HC : ∀ A Γ ctx t v, tracks A Γ ctx → vok A v → check_value egas gas ctx t v = Ok tt →
    has_type Γ t (embed (level ctx) v)) by (intros A' Γ' c t v Hc; by eapply IH).
  assert (HS : ∀ ctx t v, aligned ctx → infer_value egas gas ctx t = Ok v → scoped (level ctx) t)
    by (intros c t v Hc; by apply checked_scoped).
  assert (HS' : ∀ ctx t v u, aligned ctx → check_value egas gas ctx t v = Ok u →
    scoped (level ctx) t) by (intros c t v u Hc; by apply checked_scoped).
  split; intros t v; cbn [infer_value check_value].
  - by apply infer_value_step_ok.
  - by apply check_value_step_ok.
Qed.

(** Certificates: the empty context tracks itself, and the claimed type is
    read back and evaluated again to find its universe. *)
Lemma nbe_verified_typed egas gas cert f u :
  verify_certificate_with_foundation egas gas cert f = Ok u →
  ∃ l, has_type (Context.with_foundation f) (claimed_type cert) (Universe l) ∧
       has_type (Context.with_foundation f) (term cert) (claimed_type cert).
Proof.
  intros H. pose proof (tracks_empty f) as Htr.
  apply bind_Ok in H as (K & HK & H). apply bind_Ok in HK as (kind & Hk & HK).
  apply (nbe_checker_sound egas gas _ _ _ Htr) in Hk as [Vk Hk].
  eapply ctx_quote_ok in HK as [SK EK]; [|exact Htr|done].
  apply bind_Ok in H as (kv & Hkv & H). eapply ctx_eval_ok in Hkv as [Vkv Ekv]; [|exact Htr|done].
  destruct (expect_universe kv) as [l|] eqn:Hl; [|discriminate H]. exists l.
  assert (HT : has_type (Context.with_foundation f) (claimed_type cert) (Universe l)).
  { eapply T_Conv; [exact Hk|]. etrans; [symmetry; exact EK|]. etrans; [exact Ekv|].
    by apply expect_universe_ok. }
  split; [done|]. apply bind_Ok in H as (e & He & H).
  eapply ctx_eval_ok in He as [Ve Ee]; [|exact Htr|].
  - destruct u. eapply nbe_checker_sound in H; [|exact Htr|done].
    eapply T_Conv; [exact H|]. by symmetry.
  - pose proof (has_type_structural scoped _ _ _ HT) as Hs. exact Hs.
Qed.
