(* ===== verification/NbeFacts.v ===== *)
(** * What the second kernel guarantees

    The second kernel is sound for the same declarative rules as the first, so
    every consequence of soundness holds of it on its own: a defect of one
    kernel alone cannot make the pair accept a wrong certificate. *)

From S2P Require Import Prelude Levels LevelFacts Syntax Subst Inst Context Conversion ConvSpec.
From S2P Require Import ConvFacts Checker Typing Weakening TypingFacts Stability Nbe Values EvalSound.
From S2P Require Import ReadbackSound CompareSound NbeChecker NbeTyping NbeSound.

(** ** Verdicts of the second kernel do not depend on the gas

    The source of the second kernel recurses without a budget; the model counts
    the recursion.  Every result that is not an exhausted counter stays the same
    with more gas, so the counters only stand for termination. *)

Open Scope verum_scope.

Lemma le_map_result {T U} (f f' : T → result U) l :
  (∀ x, le (f x) (f' x)) → le (map_result f l) (map_result f' l).
Proof.
  intros H. induction l as [|x l IH]; cbn [map_result]; [reflexivity|].
  apply le_bind; [done|]. intros y _. apply le_bind; [done|]. reflexivity.
Qed.

(** A conjunction of checks. *)
Ltac le_and :=
  repeat first
    [ reflexivity
    | solve [eauto with le nocore]
    | apply le_bind; [|intros [|] _; [|reflexivity]] ].

(** ** Evaluation *)
Section evaluation.
Context (ev ev' : Term → Env → result Value) (Hev : ∀ t e, le (ev t e) (ev' t e)).
Context (ai ai' : Value → Value → list Value → result Value).
Context (Hai : ∀ s m cs, le (ai s m cs) (ai' s m cs)).
Hint Resolve Hev Hai : le.

Lemma apply_fields_mono c xs : le (apply_fields ev c xs) (apply_fields ev' c xs).
Proof using Hev. apply Hev. Qed.

Lemma apply_mono c x : le (apply ev c x) (apply ev' c x).
Proof using Hev. apply Hev. Qed.

Lemma apply_value_mono f x : le (apply_value ev f x) (apply_value ev' f x).
Proof using Hev. destruct f; cbn [apply_value]; try reflexivity. apply apply_mono. Qed.
Hint Resolve apply_fields_mono apply_mono apply_value_mono : le.

Lemma apply_values_mono f xs : le (apply_values ev f xs) (apply_values ev' f xs).
Proof using Hev.
  revert f. induction xs as [|x xs IH]; intros f; cbn [apply_values]; [reflexivity|].
  apply le_bind; [apply apply_value_mono|]. intros g _. apply IH.
Qed.

Lemma apply_branch_mono m cases r fs :
  le (apply_branch ev ai m cases r fs) (apply_branch ev' ai' m cases r fs).
Proof using Hev Hai.
  revert r. induction fs as [|[f x] fs IH]; intros r; cbn [apply_branch]; [reflexivity|].
  apply le_bind; [apply apply_value_mono|]. intros g _.
  apply le_bind; [le_solve|]. intros h _. apply IH.
Qed.
Hint Resolve apply_branch_mono : le.

Lemma apply_induct_step_mono s m cases :
  le (apply_induct_step ev ai s m cases) (apply_induct_step ev' ai' s m cases).
Proof using Hev Hai. unfold apply_induct_step. le_solve. Qed.

Lemma eval_step_mono t e : le (eval_step ev ai t e) (eval_step ev' ai' t e).
Proof using Hev Hai.
  destruct t; cbn [eval_step]; le_solve; apply le_map_result; intros; apply Hev.
Qed.
End evaluation.

Lemma eval_mono_both gas gas' :
  gas ≤ gas' →
  (∀ t e, le (eval gas t e) (eval gas' t e)) ∧
  (∀ s m cases, le (apply_induct gas s m cases) (apply_induct gas' s m cases)).
Proof.
  revert gas'. induction gas as [|gas IH]; intros [|gas'] Hg; try lia;
    cbn [eval apply_induct]; try (split; intros; apply le_gas).
  destruct (IH gas') as [H1 H2]; [lia|].
  split; intros; [by apply eval_step_mono|by apply apply_induct_step_mono].
Qed.

Lemma eval_mono gas gas' t e : gas ≤ gas' → le (eval gas t e) (eval gas' t e).
Proof. intros H. by apply eval_mono_both. Qed.

(** ** Readback *)
Section readback.
Context (ev ev' : Term → Env → result Value) (Hev : ∀ t e, le (ev t e) (ev' t e)).
Context (q q' : Value → nat → result Term) (Hq : ∀ v n, le (q v n) (q' v n)).
Context (qn qn' : Neutral → nat → result Term) (Hqn : ∀ v n, le (qn v n) (qn' v n)).
Hint Resolve Hq Hqn : le.

Lemma quote_closure_mono c xs n : le (quote_closure ev q c xs n) (quote_closure ev' q' c xs n).
Proof using Hev Hq. apply le_bind; [by apply apply_fields_mono|]. intros v _. apply Hq. Qed.

Lemma quote_body_mono c n : le (quote_body ev q c n) (quote_body ev' q' c n).
Proof using Hev Hq. apply le_bind; [by apply apply_mono|]. intros v _. apply Hq. Qed.
Hint Resolve quote_closure_mono quote_body_mono : le.

Lemma quote_field_mono n xs i f : le (quote_field ev q n xs i f) (quote_field ev' q' n xs i f).
Proof using Hev Hq.
  destruct f; cbn [quote_field]; le_solve; apply le_map_result; intros; apply quote_closure_mono.
Qed.

Lemma quote_constructor_mono n c : le (quote_constructor ev q n c) (quote_constructor ev' q' n c).
Proof using Hev Hq.
  unfold quote_constructor. le_solve; apply le_map_result.
  - intros []. apply quote_field_mono.
  - intros x. apply quote_closure_mono.
Qed.

Lemma quote_step_mono v n : le (quote_step ev q qn v n) (quote_step ev' q' qn' v n).
Proof using Hev Hq Hqn.
  destruct v; cbn [quote_step]; le_solve; apply le_map_result; intros; le_solve;
    apply quote_constructor_mono.
Qed.

Lemma quote_neutral_step_mono v n : le (quote_neutral_step q qn v n) (quote_neutral_step q' qn' v n).
Proof using Hq Hqn.
  destruct v; cbn [quote_neutral_step]; le_solve; apply le_map_result; intros; apply Hq.
Qed.
End readback.

Lemma quote_mono_both gas gas' :
  gas ≤ gas' →
  (∀ v n, le (quote gas v n) (quote gas' v n)) ∧
  (∀ v n, le (quote_neutral gas v n) (quote_neutral gas' v n)).
Proof.
  revert gas'. induction gas as [|gas IH]; intros [|gas'] Hg; try lia;
    cbn [quote quote_neutral]; try (split; intros; apply le_gas).
  destruct (IH gas') as [H1 H2]; [lia|].
  split; intros; [|by apply quote_neutral_step_mono].
  apply quote_step_mono; [|done..]. intros t e. apply eval_mono. lia.
Qed.

Lemma quote_mono gas gas' v n : gas ≤ gas' → le (quote gas v n) (quote gas' v n).
Proof. intros H. by apply quote_mono_both. Qed.

(** ** Comparison *)
Section comparison.
Context (ev ev' : Term → Env → result Value) (Hev : ∀ t e, le (ev t e) (ev' t e)).
Context (eqv eqv' : Value → Value → nat → result bool) (Heq : ∀ a b n, le (eqv a b n) (eqv' a b n)).
Context (eqn eqn' : Neutral → Neutral → nat → result bool).
Context (Heqn : ∀ a b n, le (eqn a b n) (eqn' a b n)).
Hint Resolve Heq Heqn : le.

Lemma values_def_eq_mono a b n : le (values_def_eq eqv a b n) (values_def_eq eqv' a b n).
Proof using Heq. unfold values_def_eq. le_and. apply le_all_checked. by intros []. Qed.

Lemma closures_def_eq_mono xs n a b :
  le (closures_def_eq ev eqv xs n a b) (closures_def_eq ev' eqv' xs n a b).
Proof using Hev Heq.
  do 2 (apply le_bind; [by apply apply_fields_mono|]; intros ? _). apply Heq.
Qed.

Lemma domain_mono f xs : le (domain ev f xs) (domain ev' f xs).
Proof using Hev.
  destruct f; cbn [domain]; try reflexivity;
    (apply le_bind; [by apply apply_fields_mono|reflexivity]).
Qed.

Lemma recursive_indices_mono f xs :
  le (Nbe.recursive_indices ev f xs) (Nbe.recursive_indices ev' f xs).
Proof using Hev.
  destruct f; cbn [Nbe.recursive_indices]; try reflexivity.
  apply le_bind; [apply le_map_result; intros; by apply apply_fields_mono|reflexivity].
Qed.
Hint Resolve values_def_eq_mono domain_mono recursive_indices_mono : le.

Lemma field_value_def_eq_mono n xs i a b :
  le (field_def_eq ev eqv n xs i a b) (field_def_eq ev' eqv' n xs i a b).
Proof using Hev Heq. unfold field_def_eq. le_solve. Qed.

Lemma constructor_value_def_eq_mono n a b :
  le (Nbe.constructor_def_eq ev eqv n a b) (Nbe.constructor_def_eq ev' eqv' n a b).
Proof using Hev Heq.
  unfold Nbe.constructor_def_eq. le_and; apply le_all_checked.
  - intros []. apply closures_def_eq_mono.
  - intros (? & ? & ?). apply field_value_def_eq_mono.
Qed.

Lemma bodies_def_eq_mono a b n : le (bodies_def_eq ev eqv a b n) (bodies_def_eq ev' eqv' a b n).
Proof using Hev Heq. do 2 (apply le_bind; [by apply apply_mono|]; intros ? _). apply Heq. Qed.

Lemma eta_match_value_mono b o n : le (Nbe.eta_match ev eqv b o n) (Nbe.eta_match ev' eqv' b o n).
Proof using Hev Heq.
  apply le_bind; [by apply apply_mono|]. intros x _.
  apply le_bind; [by apply apply_value_mono|]. intros y _. apply Heq.
Qed.
Hint Resolve bodies_def_eq_mono eta_match_value_mono : le.

Lemma def_eq_step_mono a b n : le (def_eq_step ev eqv eqn a b n) (def_eq_step ev' eqv' eqn' a b n).
Proof using Hev Heq Heqn.
  destruct a, b; cbn [def_eq_step]; le_and; apply le_all_checked.
  - intros (? & ? & ?). apply closures_def_eq_mono.
  - intros []. apply constructor_value_def_eq_mono.
Qed.

Lemma def_eq_neutral_step_mono a b n :
  le (def_eq_neutral_step eqv eqn a b n) (def_eq_neutral_step eqv' eqn' a b n).
Proof using Heq Heqn.
  destruct a, b; cbn [def_eq_neutral_step]; le_and.
Qed.
End comparison.

Lemma value_def_eq_mono_both gas gas' :
  gas ≤ gas' →
  (∀ a b n, le (Nbe.def_eq gas a b n) (Nbe.def_eq gas' a b n)) ∧
  (∀ a b n, le (def_eq_neutral gas a b n) (def_eq_neutral gas' a b n)).
Proof.
  revert gas'. induction gas as [|gas IH]; intros [|gas'] Hg; try lia;
    cbn [Nbe.def_eq def_eq_neutral]; try (split; intros; apply le_gas).
  destruct (IH gas') as [H1 H2]; [lia|]. split; intros; [|by apply def_eq_neutral_step_mono].
  destruct (value_eqb a b); [reflexivity|]. apply def_eq_step_mono; [|done..].
  intros t e. apply eval_mono. lia.
Qed.

(** ** The checker *)
Section checker.
Context (g g' : nat) (Hg : g ≤ g').

Lemma ctx_eval_mono ctx t : le (ctx_eval g ctx t) (ctx_eval g' ctx t).
Proof using Hg. by apply eval_mono. Qed.
Lemma ctx_quote_mono ctx v : le (ctx_quote g ctx v) (ctx_quote g' ctx v).
Proof using Hg. by apply quote_mono. Qed.
Lemma quote_mono' v n : le (quote g v n) (quote g' v n).
Proof using Hg. by apply quote_mono. Qed.
Lemma nbe_def_eq_mono a b n : le (Nbe.def_eq g a b n) (Nbe.def_eq g' a b n).
Proof using Hg. by apply value_def_eq_mono_both. Qed.
Lemma close_mono c x : le (close g c x) (close g' c x).
Proof using Hg. by apply eval_mono. Qed.
Lemma close_fields_mono c xs : le (close_fields g c xs) (close_fields g' c xs).
Proof using Hg. by apply eval_mono. Qed.
Lemma app_value_mono f x : le (app_value g f x) (app_value g' f x).
Proof using Hg. apply apply_value_mono. intros. by apply eval_mono. Qed.
Lemma app_values_mono f xs : le (app_values g f xs) (app_values g' f xs).
Proof using Hg. apply apply_values_mono. intros. by apply eval_mono. Qed.
Lemma domain_mono' f xs : le (domain (eval g) f xs) (domain (eval g') f xs).
Proof using Hg. apply domain_mono. intros. by apply eval_mono. Qed.
Lemma recursive_indices_mono' f xs :
  le (Nbe.recursive_indices (eval g) f xs) (Nbe.recursive_indices (eval g') f xs).
Proof using Hg. apply recursive_indices_mono. intros. by apply eval_mono. Qed.
Hint Resolve ctx_eval_mono ctx_quote_mono quote_mono' nbe_def_eq_mono close_mono
  close_fields_mono app_value_mono app_values_mono domain_mono' recursive_indices_mono' : le.

Section open_recursion.
Context (I I' : NbeContext → Term → result Value).
Context (C C' : NbeContext → Term → Value → result unit).
Context (HI : ∀ ctx t, le (I ctx t) (I' ctx t)) (HC : ∀ ctx t v, le (C ctx t v) (C' ctx t v)).
Hint Resolve HI HC : le.

Lemma check_domain_value_mono ctx t v :
  le (check_domain_value C ctx t v) (check_domain_value C' ctx t v).
Proof using HC.
  unfold check_domain_value, le. intros Hd.
  assert (C' ctx t v = C ctx t v) as ->; [|done]. apply HC.
  by destruct (C ctx t v) as [|[]|].
Qed.

Lemma infer_universe_mono ctx t : le (infer_universe I ctx t) (infer_universe I' ctx t).
Proof using HI. unfold infer_universe. le_solve. Qed.
Hint Resolve check_domain_value_mono infer_universe_mono : le.

Lemma check_index_loop_mono ctx vs ps :
  le (check_index_loop g C ctx vs ps) (check_index_loop g' C' ctx vs ps).
Proof using Hg HC.
  revert vs. induction ps as [|[] ps IH]; intros vs; cbn [check_index_loop]; le_solve; apply IH.
Qed.
Hint Resolve check_index_loop_mono : le.

Lemma check_index_arguments_mono ctx ds ts :
  le (check_index_arguments g C ctx ds ts) (check_index_arguments g' C' ctx ds ts).
Proof using Hg HC. unfold check_index_arguments. le_solve. Qed.
Hint Resolve check_index_arguments_mono : le.

Lemma infer_value_indices_mono ctx ixs :
  le (infer_value_indices g I ctx ixs) (infer_value_indices g' I' ctx ixs).
Proof using Hg HI.
  revert ctx. induction ixs as [|t ixs IH]; intros ctx; cbn [infer_value_indices]; le_solve; apply IH.
Qed.

Lemma value_field_domain_mono ctx local d l ds f :
  le (value_field_domain g I C ctx local d l ds f) (value_field_domain g' I' C' ctx local d l ds f).
Proof using Hg HI HC. unfold value_field_domain. le_solve. Qed.
Hint Resolve infer_value_indices_mono value_field_domain_mono : le.

Lemma check_value_fields_mono ctx local d l ds fs :
  le (check_value_fields g I C ctx local d l ds fs) (check_value_fields g' I' C' ctx local d l ds fs).
Proof using Hg HI HC.
  revert local. induction fs as [|f fs IH]; intros local; cbn [check_value_fields]; le_solve; apply IH.
Qed.
Hint Resolve check_value_fields_mono : le.

Lemma check_constructor_args_mono ctx d vs ps :
  le (check_constructor_args g C ctx d vs ps) (check_constructor_args g' C' ctx d vs ps).
Proof using Hg HC.
  revert vs. induction ps as [|[] ps IH]; intros vs; cbn [check_constructor_args]; le_solve; apply IH.
Qed.

Lemma value_motive_indices_mono ctx k refs ixs :
  le (value_motive_indices g ctx k refs ixs) (value_motive_indices g' ctx k refs ixs).
Proof using Hg.
  revert k refs. induction ixs as [|c ixs IH]; intros k refs; cbn [value_motive_indices]; le_solve; apply IH.
Qed.

Lemma value_motive_family_mono ctx d k refs :
  le (value_motive_family g ctx d k refs) (value_motive_family g' ctx d k refs).
Proof using Hg. unfold value_motive_family. le_solve. Qed.

Lemma lam_telescope_mono ctx t ds :
  le (lam_telescope g I ctx t ds) (lam_telescope g' I' ctx t ds).
Proof using Hg HI.
  revert ctx ds. induction t as [t IH] using term_children_ind. intros ctx ds.
  destruct t; cbn [lam_telescope]; le_solve.
  apply Forall_cons in IH as [_ [IH _]%Forall_cons]. apply IH.
Qed.

Lemma value_path_motive_mono ctx m a x c dep :
  le (value_path_motive g ctx m a x c dep) (value_path_motive g' ctx m a x c dep).
Proof using Hg. unfold value_path_motive. le_solve. Qed.
Hint Resolve check_constructor_args_mono value_motive_indices_mono value_motive_family_mono
  lam_telescope_mono value_path_motive_mono : le.

Lemma infer_value_data_mono ctx n l ixs cs :
  le (infer_value_data g I C ctx n l ixs cs) (infer_value_data g' I' C' ctx n l ixs cs).
Proof using Hg HI HC.
  unfold infer_value_data. le_solve. apply le_each_checked. intros c. le_solve.
Qed.

Lemma infer_value_construct_mono ctx d k args :
  le (infer_value_construct g I C ctx d k args) (infer_value_construct g' I' C' ctx d k args).
Proof using Hg HI HC.
  unfold infer_value_construct. le_solve. apply le_map_result. intros c. le_solve.
Qed.

Lemma infer_value_induct_mono ctx s m cases :
  le (infer_value_induct g I C ctx s m cases) (infer_value_induct g' I' C' ctx s m cases).
Proof using Hg HI HC.
  unfold infer_value_induct. le_solve. apply le_each_checked. intros (? & ? & ?). le_solve.
Qed.

Lemma infer_value_step_mono ctx t :
  le (infer_value_step g I C ctx t) (infer_value_step g' I' C' ctx t).
Proof using Hg HI HC.
  destruct t; cbn [infer_value_step]; auto using infer_value_data_mono,
    infer_value_construct_mono, infer_value_induct_mono;
    unfold infer_value_let, infer_value_binder, infer_value_lam, infer_value_app,
      infer_value_pair, infer_value_fst, infer_value_snd, infer_value_id, infer_value_refl,
      infer_value_identity_elim, infer_value_fun_ext; le_solve.
Qed.

Lemma check_value_shape_mono ctx t v :
  le (check_value_shape g I C ctx t v) (check_value_shape g' I' C' ctx t v).
Proof using Hg HI HC.
  assert (le (check_value_inferred g I ctx t v) (check_value_inferred g' I' ctx t v)) as Hp.
  { unfold check_value_inferred. le_solve. }
  destruct t, v; try exact Hp; cbn [check_value_shape]; le_solve.
Qed.

Lemma check_value_step_mono ctx t v :
  le (check_value_step g I C ctx t v) (check_value_step g' I' C' ctx t v).
Proof using Hg HI HC.
  destruct t; try apply check_value_shape_mono; cbn [check_value_step]; le_solve;
  apply check_value_shape_mono.
Qed.
End open_recursion.
End checker.

Lemma nbe_checker_mono g g' gas gas' ctx :
  g ≤ g' → gas ≤ gas' →
  (∀ t, le (infer_value g gas ctx t) (infer_value g' gas' ctx t)) ∧
  (∀ t v, le (check_value g gas ctx t v) (check_value g' gas' ctx t v)).
Proof.
  intros Hg. revert gas' ctx. induction gas as [|gas IH]; intros [|gas'] ctx Hgas; try lia;
    cbn [infer_value check_value]; try (split; intros; apply le_gas).
  split; intros; [apply infer_value_step_mono|apply check_value_step_mono]; try done;
    intros; apply IH; lia.
Qed.

Lemma nbe_verify_mono g g' gas gas' cert f :
  g ≤ g' → gas ≤ gas' →
  le (verify_certificate_with_foundation g gas cert f)
    (verify_certificate_with_foundation g' gas' cert f).
Proof.
  intros Hg Hgas. unfold verify_certificate_with_foundation, NbeChecker.infer.
  apply le_bind; [apply le_bind; [by apply nbe_checker_mono|intros; by apply ctx_quote_mono]|].
  intros K _. apply le_bind; [by apply ctx_eval_mono|]. intros kv _.
  destruct (NbeChecker.expect_universe kv); [|reflexivity].
  apply le_bind; [by apply ctx_eval_mono|]. intros v _. by apply nbe_checker_mono.
Qed.

Open Scope verum_scope.

(** Evaluating a term below [n] binders under [n] fresh variables. *)
Lemma eval_open g n t v :
  scoped n t → eval g t (fresh_values 0 n) = Ok v →
  vok (levels_below n) v ∧ ∀ c, conv c t (embed n v).
Proof.
  intros Ht H. assert (∀ c, denotes (levels_below n) n c t v) as Hd.
  { intros c. rewrite <- (inst_id 0 n t) by done.
    pose proof (esub_fresh 0 n) as E. cbn [Nat.add] in E. rewrite <- E.
    eapply eval_denotes; [by rewrite fresh_values_length|apply (Forall_vok_fresh 0)|exact H]. }
  split; [apply (Hd (conversion (Context.with_foundation Intensional)))|apply Hd].
Qed.

Lemma nbe_universe egas gas l m md f :
  verify_certificate_with_foundation egas gas (Cert (Universe l) (Universe m) md) f = Ok tt →
  ∀ ρ, LevelFacts.eval ρ m = (LevelFacts.eval ρ l + 1)%N.
Proof.
  intros (K & _ & (kv & _ & H)%bind_Ok)%bind_Ok. cbn [term claimed_type] in H.
  destruct (NbeChecker.expect_universe kv); [|done]. apply bind_Ok in H as (e & He & H).
  destruct egas as [|egas]; [done|]. injection He as <-.
  destruct gas as [|gas]; [done|]. cbn [check_value check_value_step check_value_shape] in H.
  apply bind_Ok in H as (T & HT & (same & Hs & H)%bind_Ok). destruct gas as [|gas]; [done|].
  injection HT as <-. destruct same; [|by apply bind_Ok in H as (? & _ & (? & _ & ?)%bind_Ok)].
  assert (He : level_equiv (Level.successor (Level.normalize l)) m).
  { cbn [Nbe.def_eq value_eqb def_eq_step] in Hs.
    destruct (Level.level_eqb _ _) eqn:E; [by apply Level.level_eqb_eq in E as ->|].
    injection Hs as Hs. by apply level_eq_equiv. }
  intros ρ. by rewrite <- (He ρ), eval_successor, normalize_eval.
Qed.

(** ** Properties *)

(** C4. The second kernel is sound on its own: a certificate it verifies has a
    claimed type that is a type and a term that inhabits it, by the same
    declarative rules the first kernel is sound for, inductive families,
    definitions and η included. *)
Theorem nbe_verify_sound egas gas cert f u :
  verify_certificate_with_foundation egas gas cert f = Ok u →
  ∃ l, has_type (Context.with_foundation f) (claimed_type cert) (Universe l) ∧
       has_type (Context.with_foundation f) (term cert) (claimed_type cert).
Proof. apply nbe_verified_typed. Qed.

(** Soundness of the second kernel in every context it can be in: the value
    [infer_value] returns is well formed and stands for a type of the term, and
    a term [check_value] accepts has the type the expected value stands for. *)
Theorem nbe_infer_check_sound egas gas A Γ ctx t v :
  tracks A Γ ctx →
  (infer_value egas gas ctx t = Ok v → vok A v ∧ has_type Γ t (embed (level ctx) v)) ∧
  (vok A v → check_value egas gas ctx t v = Ok tt → has_type Γ t (embed (level ctx) v)).
Proof. intros H. split; by apply (nbe_checker_sound egas gas A Γ ctx H). Qed.

(** Normalisation by evaluation preserves meaning: reading back the value
    of a term gives a term in the same scope that is convertible to it, in
    every context, whether or not the term is well typed. *)
Theorem nbe_normalization_sound g g' n t v u :
  scoped n t → eval g t (fresh_values 0 n) = Ok v → quote g' v n = Ok u →
  scoped n u ∧ ∀ c, conv c t u.
Proof.
  intros Ht He Hq. apply eval_open in He as [Hv Hc]; [|done].
  eapply quote_reads in Hq as [Hs Hr]; [|apply below_levels|done]. split; [done|]. intros c.
  etrans; [apply Hc|]. symmetry. apply Hr.
Qed.

(** The comparison of values is sound for conversion: terms whose values it
    finds equal are convertible, η for functions and pairs and the fields of
    inductive declarations included. *)
Theorem nbe_comparison_sound g g' n a b va vb :
  scoped n a → scoped n b →
  eval g a (fresh_values 0 n) = Ok va → eval g b (fresh_values 0 n) = Ok vb →
  Nbe.def_eq g' va vb n = Ok true → ∀ c, conv c a b.
Proof.
  intros Ha Hb Hea Heb H c. apply eval_open in Hea as [Va Ca], Heb as [Vb Cb]; [|done..].
  rewrite (Ca c), (Cb c). eapply values_equal_conv; [apply below_levels|done..].
Qed.

(** The verdict of the second kernel does not depend on how much recursion
    the model allows: an answer stays the same with more gas, and two runs
    never answer differently. *)
Theorem nbe_verdict_stable egas gas cert f :
  let r := verify_certificate_with_foundation egas gas cert f in
  definite r →
  (∀ egas' gas', egas ≤ egas' → gas ≤ gas' →
    verify_certificate_with_foundation egas' gas' cert f = r) ∧
  (∀ egas' gas',
    let r' := verify_certificate_with_foundation egas' gas' cert f in definite r' → r' = r).
Proof.
  cbv zeta. intros Hr. split.
  - intros egas' gas' He Hg. exact (nbe_verify_mono _ _ _ _ cert f He Hg Hr).
  - intros egas' gas' Hr'.
    rewrite <- (nbe_verify_mono egas (max egas egas') gas (max gas gas') cert f) by (done || lia).
    symmetry. apply nbe_verify_mono; [lia..|done].
Qed.

(** The second kernel has the safety properties of the first: a certificate
    it verifies is closed, uses function extensionality only in a foundation
    that has it, and puts a universe only in its exact successor. *)
Theorem nbe_verified_safe egas gas cert f u :
  verify_certificate_with_foundation egas gas cert f = Ok u →
  scoped 0 (term cert) ∧ scoped 0 (claimed_type cert) ∧
  (f = Intensional → fun_ext_free (term cert) ∧ fun_ext_free (claimed_type cert)) ∧
  (∀ l m, term cert = Universe l → claimed_type cert = Universe m →
    ∀ ρ, LevelFacts.eval ρ m = (LevelFacts.eval ρ l + 1)%N).
Proof.
  intros H. pose proof H as (lv & HT & Ht)%nbe_verified_typed. split_and!.
  - exact (has_type_structural scoped _ _ _ Ht).
  - exact (has_type_structural scoped _ _ _ HT).
  - intros ->. split; [exact (has_type_structural (λ _, fun_ext_free) _ _ _ Ht)
      |exact (has_type_structural (λ _, fun_ext_free) _ _ _ HT)].
  - intros l m El Em. destruct cert as [t T md]. cbn in El, Em. subst. destruct u.
    by apply (nbe_universe egas gas l m md f).
Qed.

(** Capturing an environment does not change what a closure means: the
    slots it keeps, with the renumbered body, substitute to the same term as
    the whole environment with the original body, the new body is in scope of
    them, and every slot kept occurs in the body. *)
Theorem capture_exact (emb : Value → Term) t (e : Env) k :
  scoped (length e + k) t →
  let c := capture t e k in
  embed_closure emb k c = inst_at k (rev (List.map emb e)) t ∧
  scoped (length (env c) + k) (body c) ∧
  length (env c) ≤ length e ∧
  (∀ v, v ∈ env c → ∃ i, e !! (length e - 1 - i) = Some v ∧
    contains_free_by t k (λ j, j =? i) = true).
Proof.
  intros Hs. cbv zeta. split_and!; [by apply capture_inst|by apply capture_scoped| |].
  - rewrite capture_env.
    rewrite (proj1 (omap_lookup_total e _ (free_positions_lt t k (length e)))).
    unfold free_positions. etrans; [apply filter_length_le|by rewrite length_seq].
  - intros v. rewrite capture_env. intros (p & Hp & Hv)%list_elem_of_omap.
    apply list_elem_of_In, filter_In in Hp as [_ Hp].
    apply contains_free_by_witness in Hp as (i & Hi & Ho). exists i. split; [|done].
    destruct (env_position (length e) i) as [q|] eqn:Hq; [|done].
    apply Nat.eqb_eq in Hi as <-. apply env_position_Some in Hq as [_ ->]. done.
Qed.

(** ** Witnesses *)
Definition nbe_redex : Term := App (Lam type0 (Pair (Var 0) (Var 1))) type0.

Lemma nbe_verify_sound_witness :
  ∃ l, has_type (Context.with_foundation Intensional) (claimed_type identity_cert) (Universe l) ∧
       has_type (Context.with_foundation Intensional) (term identity_cert)
         (claimed_type identity_cert).
Proof.
  apply (nbe_verify_sound 20 20 identity_cert Intensional tt). vm_compute. reflexivity.
Defined.

Lemma nbe_infer_check_sound_witness :
  vok (λ _, false) (VUniverse (Level.Succ (Level.Var "u"))) ∧
  has_type (Context.with_foundation Intensional) (Universe (Level.Var "u"))
    (Universe (Level.Succ (Level.Var "u"))).
Proof.
  apply (proj1 (nbe_infer_check_sound 9 9 (λ _, false) (Context.with_foundation Intensional)
    (NbeChecker.with_foundation Intensional) (Universe (Level.Var "u"))
    (VUniverse (Level.Succ (Level.Var "u"))) (tracks_empty Intensional))).
  vm_compute. reflexivity.
Defined.

Lemma nbe_normalization_sound_witness :
  scoped 1 (Pair type0 (Var 0)) ∧
  conv (conversion (Context.with_foundation Intensional)) nbe_redex (Pair type0 (Var 0)).
Proof.
  destruct (nbe_normalization_sound 9 9 1 nbe_redex
    (VPair (VUniverse (Level.Concrete (u32_of 0))) (fresh 0)) (Pair type0 (Var 0)))
    as [Hs Hc]; [vm_compute; reflexivity..|by split].
Defined.

Lemma nbe_comparison_sound_witness :
  conv (conversion (Context.with_foundation Intensional)) nbe_redex (Pair type0 (Var 0)).
Proof.
  apply (nbe_comparison_sound 9 9 1 nbe_redex (Pair type0 (Var 0))
    (VPair (VUniverse (Level.Concrete (u32_of 0))) (fresh 0))
    (VPair (VUniverse (Level.Concrete (u32_of 0))) (fresh 0))); vm_compute; reflexivity.
Defined.

Lemma nbe_verdict_stable_witness :
  verify_certificate_with_foundation 50 50 identity_cert Intensional = Ok tt.
Proof.
  apply (proj1 (nbe_verdict_stable 20 20 identity_cert Intensional I)); vm_compute; lia.
Defined.

Lemma nbe_verified_safe_witness :
  scoped 0 (term identity_cert) ∧ scoped 0 (claimed_type identity_cert).
Proof.
  destruct (nbe_verified_safe 20 20 identity_cert Intensional tt) as (H1 & H2 & _).
  - vm_compute. reflexivity.
  - by split.
Defined.

Lemma capture_exact_witness :
  env (capture (Pair (Var 0) (Var 3)) [fresh 0; fresh 1; fresh 2] 1) = [fresh 0] ∧
  embed_closure (embed 3) 1 (capture (Pair (Var 0) (Var 3)) [fresh 0; fresh 1; fresh 2] 1) =
    Pair (Var 0) (Var 3).
Proof.
  split; [vm_compute; reflexivity|].
  etrans; [apply (proj1 (capture_exact (embed 3) (Pair (Var 0) (Var 3))
    [fresh 0; fresh 1; fresh 2] 1 eq_refl))|]. vm_compute. reflexivity.
Defined.
