(* ===== verification/Admission.v ===== *)
(** * Resource policies and structural admission of judgments

    [verum_proof/src/limits.rs], and of [verum_proof/src/admission.rs] the bracket scan of the raw bytes, the
    worklist traversal that bounds the nodes and the depth of a judgment and
    checks that it is closed, and the classification of errors.  The
    deserializer is a third-party library and a parameter of [Replay].  Depths
    and counts are natural numbers with the checked additions of the source;
    binder counts are [nat]. *)

From Stdlib Require Import Strings.Byte.
From S2P Require Import Prelude Levels Syntax Subst Context Conversion Checker.

(** ** Resource policies

    [verum_proof/src/limits.rs] with its checked arithmetic.  [usize] and [u64]
    are natural numbers below 2^64 (a 64-bit target); a policy value is any
    natural number, and theorems about its arithmetic assume the range. *)

Local Open Scope N_scope.

Definition U64_MAX : N := 18446744073709551615.
Definition USIZE_MAX : N := U64_MAX.

Definition checked (max n : N) : option N := if n <=? max then Some n else None.
Definition usize_checked_add (a b : N) : option N := checked USIZE_MAX (a + b).
Definition usize_checked_mul (a b : N) : option N := checked USIZE_MAX (a * b).
Definition u64_checked_add (a b : N) : option N := checked U64_MAX (a + b).
Definition u64_try_from (n : N) : option N := checked U64_MAX n.
Definition usize_try_from (n : N) : option N := checked USIZE_MAX n.

Record AdmissionLimits : Type := AdmissionPolicy {
  max_bytes : N;
  max_nodes : N;
  max_depth : N
}.

Definition admission_default : AdmissionLimits := AdmissionPolicy (1024 * 1024) 65536 128.

Definition json_nesting_limit (l : AdmissionLimits) : option N :=
  n ← usize_checked_add (max_depth l) 1;
  n ← usize_checked_mul n 8;
  usize_checked_add n 8.

Definition read_limit (l : AdmissionLimits) : option N :=
  n ← u64_try_from (max_bytes l); u64_checked_add n 1.

Definition is_some {A} (o : option A) : bool := match o with Some _ => true | None => false end.

Definition admission_is_valid (l : AdmissionLimits) : bool :=
  is_some (json_nesting_limit l) && is_some (read_limit l).

Record ProcessLimits : Type := ProcessPolicy {
  wall_time_ms : N;
  cpu_seconds : N;
  memory_bytes : N;
  stack_bytes : N;
  output_bytes : N
}.

Definition process_default : ProcessLimits :=
  ProcessPolicy 5000 3 (512 * 1024 * 1024) (16 * 1024 * 1024) (64 * 1024).

Definition process_is_valid (l : ProcessLimits) : bool :=
  (0 <? cpu_seconds l) && (0 <? memory_bytes l) && (0 <? stack_bytes l) &&
  (0 <? output_bytes l) && is_some (u64_checked_add (output_bytes l) 1).

Record ReplayLimits : Type := ReplayPolicy {
  admission : AdmissionLimits;
  process : ProcessLimits
}.

Definition replay_default : ReplayLimits := ReplayPolicy admission_default process_default.

Definition replay_is_valid (l : ReplayLimits) : bool :=
  admission_is_valid (admission l) && process_is_valid (process l).

Record InstalledLimits : Type := Installed {
  installed_cpu_seconds : N;
  address_space_bytes : option N;
  installed_stack_bytes : N;
  installed_output_bytes : N
}.

Record WorkerReceipt : Type := Receipt {
  requested : ReplayLimits;
  installed : option InstalledLimits
}.

(** ** Facts *)
Lemma checked_Some max n m : checked max n = Some m ↔ m = n ∧ n ≤ max.
Proof.
  unfold checked. destruct (N.leb_spec n max); split; intros; simplify_eq; try naive_solver; lia.
Qed.

Lemma is_some_true {A} (o : option A) : is_some o = true ↔ ∃ a, o = Some a.
Proof. destruct o; naive_solver. Qed.

Lemma json_nesting_limit_Some l n :
  json_nesting_limit l = Some n ↔ n = 8 * (max_depth l + 1) + 8 ∧ n ≤ USIZE_MAX.
Proof.
  unfold json_nesting_limit, usize_checked_add, usize_checked_mul. split.
  - intros (a & [-> ?]%checked_Some & (b & [-> ?]%checked_Some & [-> ?]%checked_Some)%bind_Some)%bind_Some.
    split; lia.
  - intros [-> H]. apply bind_Some. exists (max_depth l + 1).
    rewrite checked_Some. split; [lia|]. apply bind_Some. exists ((max_depth l + 1) * 8).
    rewrite !checked_Some. lia.
Qed.

Lemma read_limit_Some l n : read_limit l = Some n ↔ n = max_bytes l + 1 ∧ n ≤ U64_MAX.
Proof.
  unfold read_limit, u64_try_from, u64_checked_add. split.
  - intros (a & [-> ?]%checked_Some & [-> ?]%checked_Some)%bind_Some. lia.
  - intros [-> H]. apply bind_Some. exists (max_bytes l). rewrite !checked_Some. lia.
Qed.

Lemma admission_valid_bounds l :
  admission_is_valid l = true ↔ 8 * max_depth l + 16 ≤ USIZE_MAX ∧ max_bytes l + 1 ≤ U64_MAX.
Proof.
  unfold admission_is_valid. rewrite andb_true_iff, !is_some_true. split.
  - intros [[n H1%json_nesting_limit_Some] [m H2%read_limit_Some]]. lia.
  - intros [H1 H2]. split; eexists; [apply json_nesting_limit_Some|apply read_limit_Some];
      (split; [reflexivity|lia]).
Qed.

(** ** Properties *)

(** A valid policy makes every later computation with it exact: the JSON
    nesting budget is eight containers for each logical level and the envelope,
    one byte more than the budget can be read so that an oversized input is
    told from one that just fits, no depth counted up to the budget overflows,
    and the supervisor can read one byte more than the allowed output.  An
    invalid policy is exactly one where this arithmetic would wrap, or a zero
    resource. *)
Theorem valid_policy_exact l :
  replay_is_valid l = true ↔
  ∃ nesting bytes out,
    json_nesting_limit (admission l) = Some nesting ∧ read_limit (admission l) = Some bytes ∧
    u64_checked_add (output_bytes (process l)) 1 = Some out ∧
    nesting = 8 * (max_depth (admission l) + 1) + 8 ∧ nesting ≤ USIZE_MAX ∧
    max_depth (admission l) + 1 ≤ USIZE_MAX ∧
    bytes = max_bytes (admission l) + 1 ∧ bytes ≤ U64_MAX ∧
    out = output_bytes (process l) + 1 ∧ out ≤ U64_MAX ∧
    0 < cpu_seconds (process l) ∧ 0 < memory_bytes (process l) ∧
    0 < stack_bytes (process l) ∧ 0 < output_bytes (process l).
Proof.
  unfold replay_is_valid. rewrite andb_true_iff, admission_valid_bounds.
  unfold process_is_valid, u64_checked_add. rewrite !andb_true_iff, !N.ltb_lt, is_some_true.
  split.
  - intros [[H1 H2] [[[[H3 H4] H5] H6] [o [-> Ho]%checked_Some]]].
    do 3 eexists. rewrite json_nesting_limit_Some, read_limit_Some, checked_Some.
    unfold U64_MAX, USIZE_MAX in *. split_and!; try reflexivity; lia.
  - intros (n & b & o & [-> Hn]%json_nesting_limit_Some & [-> Hb]%read_limit_Some & Ho & H).
    split; [lia|]. split; [lia|]. eauto.
Qed.

Local Close Scope N_scope.
Open Scope verum_scope.

#[export] Instance byte_eq_decision : EqDecision byte := Byte.byte_eq_dec.

Definition PROFILE : string := "verum-native/1".
Definition EXTENSIONAL_PROFILE : string := "verum-native-funext/1".

Definition profile_for (f : Foundation) : string :=
  match f with
  | Intensional => PROFILE
  | FunctionExtensionality => EXTENSIONAL_PROFILE
  end.

Record Judgment : Type := Judge {
  profile : string;
  statement : Term;
  certificate : Certificate
}.

Record Diagnostic : Type := Diagnose {
  code : string;
  stage : string;
  message : string
}.

Inductive ReplayOutcome :=
  Accepted | Rejected | Unsupported | ResourceExhausted | Inconclusive.

#[export] Instance replay_outcome_eq_dec : EqDecision ReplayOutcome.
Proof. solve_decision. Defined.

Definition tag (o : ReplayOutcome) : string :=
  match o with
  | Accepted => "accepted"
  | Rejected => "rejected"
  | Unsupported => "unsupported"
  | ResourceExhausted => "resource_exhausted"
  | Inconclusive => "inconclusive"
  end.

Record Report : Type := MkReport {
  report_profile : string;
  checker : string;
  accepted : bool;
  report_outcome : ReplayOutcome;
  limits : AdmissionLimits;
  worker : option WorkerReceipt;
  diagnostic : option Diagnostic
}.

Definition refusal (checker_identity : string) (f : Foundation) (limits : AdmissionLimits)
    (outcome : ReplayOutcome) (stage code message : string) : Report :=
  MkReport (profile_for f) checker_identity false outcome limits None
    (Some (Diagnose code stage message)).

Definition is_consistent (r : Report) : bool :=
  Bool.eqb (accepted r) (bool_decide (report_outcome r = Accepted)) &&
  Bool.eqb (accepted r) (negb (is_some (diagnostic r))).

Inductive AdmissionFailure :=
| Exhausted (code : string)
| Invalid (code : string).

Definition failure_outcome (e : AdmissionFailure) : ReplayOutcome :=
  match e with Exhausted _ => ResourceExhausted | Invalid _ => Rejected end.

Definition failure_code (e : AdmissionFailure) : string :=
  match e with Exhausted code | Invalid code => code end.

Definition classify_check_failure (e : CheckError) : ReplayOutcome * string :=
  match e with
  | FuelExhausted => (ResourceExhausted, "normalization_limit")
  | FoundationRequired _ => (Unsupported, "foundation_required")
  | InvalidInductive _ => (Rejected, "invalid_inductive")
  | UnboundVariable _ => (Rejected, "unbound_variable")
  | NotAType _ | ClaimedTypeNotAType _ _ => (Rejected, "not_a_type")
  | NotAFunction _ => (Rejected, "not_a_function")
  | NotASigma _ => (Rejected, "not_a_pair_type")
  | NotAnIdentity _ => (Rejected, "not_an_identity")
  | ReflEndpointMismatch _ _ => (Rejected, "identity_endpoints_differ")
  | NotAValidJMotive _ => (Rejected, "invalid_identity_motive")
  | DomainMismatch _ _ => (Rejected, "domain_mismatch")
  | TypeMismatch _ _ => (Rejected, "type_mismatch")
  | UniverseOverflow _ => (Unsupported, "universe_limit")
  | KernelV0ManifestUnclean _ _ | KernelV0MetaSoundnessExceeded
  | KernelV0StrictIntrinsicDisagreement _ => (Unsupported, "unsupported_kernel_extension")
  end.

(** ** The worklist *)
Inductive Node :=
| NTerm (t : Term) (binders : nat)
| NLevel (l : Level).

Definition structural_limit : AdmissionFailure := Exhausted "structural_limit".

(** [count.checked_add(n)], or exhaustion. *)
Definition add_count (count n : N) : outcome AdmissionFailure N :=
  ok_or (usize_checked_add count n) structural_limit.

(** The nodes a field pushes. *)
Definition push_field (binders index : nat) (field : DataField Term) : list Node :=
  match field with
  | Value ty => [NTerm ty binders]
  | Dependent ty => [NTerm ty (binders + index)]
  | Recursive => []
  | RecursiveAt ixs => List.map (λ t, NTerm t (binders + index)) ixs
  end.

Definition push_constructor (binders : nat) (c : TermConstructor) : list Node :=
  List.map (λ t, NTerm t (binders + length (fields c))) (indices c) ++
  concat (mapi_from (push_field binders) 0 (fields c)).

(** The nodes a node pushes, in the order of the pushes. *)
Definition pushes (node : Node) : list Node :=
  match node with
  | NLevel l =>
      match l with
      | Level.Concrete _ | Level.Var _ => []
      | Level.Succ a | Level.Offset a _ => [NLevel a]
      | Level.Max a b => [NLevel a; NLevel b]
      end
  | NTerm t binders =>
      match t with
      | FunExt a b c d => [NTerm a binders; NTerm b binders; NTerm c binders; NTerm d binders]
      | Data _ level ixs cs =>
          NLevel level :: mapi_from (λ i ty, NTerm ty (binders + i)) 0 ixs ++
          concat (List.map (push_constructor binders) cs)
      | Construct d _ args => NTerm d binders :: List.map (λ t, NTerm t binders) args
      | Induct s m cases =>
          NTerm s binders :: NTerm m binders :: List.map (λ t, NTerm t binders) cases
      | Universe l => [NLevel l]
      | Var _ => []
      | Let a b | Pi a b | Lam a b | Sigma a b => [NTerm a binders; NTerm b (binders + 1)]
      | App a b | Pair a b => [NTerm a binders; NTerm b binders]
      | Fst a | Snd a | Refl a => [NTerm a binders]
      | Id a b c | J a b c | IdElim a b c =>
          [NTerm a binders; NTerm b binders; NTerm c binders]
      end
  end.

(** One iteration after the pop: the new count, or a failure. *)
Fixpoint count_fields {A} (count : N) (fs : list A) : outcome AdmissionFailure N :=
  match fs with
  | [] => Ok count
  | _ :: fs => count ← add_count count 1; count_fields count fs
  end.

Fixpoint count_constructors (count : N) (cs : list TermConstructor)
    : outcome AdmissionFailure N :=
  match cs with
  | [] => Ok count
  | c :: cs => count ← count_fields count (fields c); count_constructors count cs
  end.

Definition visit (limits : AdmissionLimits) (count : N) (node : Node) (depth : N)
    : outcome AdmissionFailure N :=
  count ← add_count count 1;
  if ((max_nodes limits <? count) || (max_depth limits <? depth))%N
  then Err structural_limit
  else
    match node with
    | NTerm (Data _ _ _ cs) _ =>
        count ← add_count count (N.of_nat (length cs));
        count ← count_constructors count cs;
        if (max_nodes limits <? count)%N then Err structural_limit else Ok count
    | NTerm (Var index) binders =>
        if binders <=? index then Err (Invalid "unbound_variable") else Ok count
    | _ => Ok count
    end.

(** The loop; the stack holds the last pushed node first. *)
Fixpoint admit_loop (fuel : nat) (limits : AdmissionLimits) (count : N)
    (stack : list (Node * N)) : outcome AdmissionFailure unit :=
  match fuel with
  | 0 => Gas TraversalGas
  | S fuel =>
      match stack with
      | [] => Ok tt
      | (node, depth) :: stack =>
          count ← visit limits count node depth;
          admit_loop fuel limits count
            (rev (List.map (λ n, (n, depth + 1)%N) (pushes node)) ++ stack)
      end
  end.

(** Every iteration counts a node, so the node budget bounds the iterations. *)
Definition admission_fuel (limits : AdmissionLimits) : nat := N.to_nat (max_nodes limits) + 2.

Definition roots (j : Judgment) : list Node :=
  [NTerm (statement j) 0; NTerm (term (certificate j)) 0;
   NTerm (claimed_type (certificate j)) 0].

Definition admit_structure (j : Judgment) (limits : AdmissionLimits)
    : outcome AdmissionFailure unit :=
  admit_loop (admission_fuel limits) limits 0 (rev (List.map (λ n, (n, 0%N)) (roots j))).

(** ** The bracket scan *)
Record ScanState : Type := Scan {
  containers : list byte;
  quoted : bool;
  escaped : bool
}.

Definition scan_byte (max_nesting : N) (s : ScanState) (b : byte)
    : outcome AdmissionFailure ScanState :=
  if quoted s then
    Ok (if escaped s then Scan (containers s) true false
        else match b with
             | x5c => Scan (containers s) true true
             | x22 => Scan (containers s) false false
             | _ => s
             end)
  else
    match b with
    | x22 => Ok (Scan (containers s) true (escaped s))
    | x7b | x5b =>
        if (N.of_nat (length (containers s)) =? max_nesting)%N
        then Err (Exhausted "json_depth_limit")
        else Ok (Scan (b :: containers s) false (escaped s))
    | x7d | x5d =>
        let expected := match b with x7d => x7b | _ => x5b end in
        match containers s with
        | top :: rest =>
            if Byte.eqb top expected then Ok (Scan rest false (escaped s))
            else Err (Invalid "invalid_certificate")
        | [] => Err (Invalid "invalid_certificate")
        end
    | _ => Ok s
    end.

Fixpoint scan (max_nesting : N) (s : ScanState) (bytes : list byte)
    : outcome AdmissionFailure ScanState :=
  match bytes with
  | [] => Ok s
  | b :: bytes => s ← scan_byte max_nesting s b; scan max_nesting s bytes
  end.

Definition json_envelope (bytes : list byte) (max_nesting : N)
    : outcome AdmissionFailure unit :=
  s ← scan max_nesting (Scan [] false false) bytes;
  if quoted s || negb (length (containers s) =? 0)
  then Err (Invalid "invalid_certificate") else Ok tt.
