(* ===== verification/AdmissionFacts.v ===== *)
(** * What structural admission decides

    The worklist against recursive definitions of node count, depth and
    scoping, and the bracket scan against the language of nested brackets. *)
From S2P Require Import Prelude Levels Syntax Subst Context Conversion Checker Admission.
From Stdlib Require Import Strings.Byte.

Open Scope verum_scope.

(** ** Logical nodes of a term *)
Fixpoint level_count (l : Level) : nat :=
  match l with
  | Level.Concrete _ | Level.Var _ => 1
  | Level.Succ a | Level.Offset a _ => S (level_count a)
  | Level.Max a b => S (level_count a + level_count b)
  end.

(** Constructors and fields are counted with the node that declares them. *)
Definition declaration_count (t : Term) : nat :=
  match t with
  | Data _ _ _ cs => length cs + list_sum (List.map (λ c, length (fields c)) cs)
  | _ => 0
  end.

Definition levels_of (t : Term) : list Level :=
  match t with Data _ l _ _ | Universe l => [l] | _ => [] end.

Fixpoint term_count (t : Term) : nat :=
  S (declaration_count t + list_sum (List.map level_count (levels_of t)) +
     sum_children (λ _ c, term_count c) t).

Definition node_count (n : Node) : nat :=
  match n with NTerm t _ => term_count t | NLevel l => level_count l end.

Definition node_cost (n : Node) : nat :=
  match n with NTerm t _ => S (declaration_count t) | NLevel _ => 1 end.

(** Every variable is bound: levels have none. *)
Definition node_closed (n : Node) : Prop :=
  match n with NTerm t binders => scoped binders t | NLevel _ => True end.

(** No node lies deeper than the budget. *)
Inductive within (max : N) : Node → N → Prop :=
| within_intro n d :
    (d <= max)%N → (∀ m, m ∈ pushes n → within max m (d + 1)) → within max n d.

(** ** The pushes are the children *)
Definition child_node (binders : nat) (c : Term * nat) : Node := NTerm c.1 (binders + c.2).

Lemma concat_map_perm {A B} (f g : A → list B) l :
  (∀ x, f x ≡ₚ g x) → concat (List.map f l) ≡ₚ concat (List.map g l).
Proof. intros H. induction l as [|x l IH]; simpl; [done|]. by rewrite H, IH. Qed.

Lemma concat_map_fmap {A B C} (f : A → list B) (g : B → C) l :
  concat (List.map (λ x, g <$> f x) l) = g <$> concat (f <$> l).
Proof. induction l as [|x l IH]; [done|]. cbn. by rewrite IH, <- fmap_app. Qed.

Lemma push_field_children b i f :
  push_field b i f = child_node b <$> field_children i f.
Proof.
  destruct f as [t|t| |ixs]; cbn; unfold child_node; cbn; rewrite ?Nat.add_0_r; try done.
  by rewrite <- list_fmap_compose.
Qed.

Lemma push_fields_children b n fs :
  concat (mapi_from (push_field b) n fs) =
  child_node b <$> concat (mapi_from field_children n fs).
Proof.
  revert n. induction fs as [|f fs IH]; intros n; simpl; [done|].
  by rewrite fmap_app, push_field_children, IH.
Qed.

Lemma push_constructor_children b c :
  push_constructor b c ≡ₚ child_node b <$> constructor_children c.
Proof.
  unfold push_constructor, constructor_children.
  rewrite Permutation_app_comm, fmap_app, push_fields_children, <- list_fmap_compose. done.
Qed.

Lemma pushes_children t b :
  pushes (NTerm t b) ≡ₚ (NLevel <$> levels_of t) ++ (child_node b <$> children t).
Proof.
  destruct t; cbn [pushes levels_of children]; try done;
    unfold child_node; cbn; rewrite ?Nat.add_0_r, <- ?list_fmap_compose; cbn; try done.
  - constructor. rewrite fmap_app. apply Permutation_app.
    + apply eq_subrelation; [apply _|]. symmetry. apply (map_mapi_from (λ i ty, (ty, i))).
    + rewrite (concat_map_perm _ _ _ (push_constructor_children b)).
      apply eq_subrelation; [apply _|]. apply concat_map_fmap.
  - constructor. apply eq_subrelation; [apply _|]. apply List.map_ext. intros u.
    cbn. by rewrite Nat.add_0_r.
  - do 2 constructor. apply eq_subrelation; [apply _|]. apply List.map_ext. intros u.
    cbn. by rewrite Nat.add_0_r.
Qed.

Lemma level_count_pushes l :
  level_count l = S (list_sum (List.map node_count (pushes (NLevel l)))).
Proof. destruct l; cbn; lia. Qed.

Lemma term_count_node t :
  term_count t = S (declaration_count t + list_sum (List.map level_count (levels_of t)) +
    sum_children (λ _ c, term_count c) t).
Proof. by destruct t. Qed.

Lemma node_count_pushes n :
  node_count n = node_cost n + list_sum (List.map node_count (pushes n)).
Proof.
  destruct n as [t b|l]; [|apply level_count_pushes].
  assert (Permutation (List.map node_count (pushes (NTerm t b)))
    (List.map level_count (levels_of t) ++ List.map (term_count ∘ fst) (children t))) as ->.
  { rewrite pushes_children, List.map_app, !List.map_map. exact (Permutation_refl _). }
  rewrite list_sum_app. cbn [node_count node_cost]. rewrite term_count_node.
  rewrite sum_children_total.
  change (total (λ _ c, term_count c) (children t))
    with (list_sum (List.map (term_count ∘ fst) (children t))). lia.
Qed.

Definition local_ok (n : Node) : Prop :=
  match n with NTerm (Var i) b => i < b | _ => True end.

Lemma node_closed_pushes n :
  node_closed n ↔ local_ok n ∧ Forall node_closed (pushes n).
Proof.
  destruct n as [t b|l].
  2: { split; [|done]. intros _. split; [done|]. destruct l; repeat constructor. }
  rewrite pushes_children, Forall_app. cbn [node_closed].
  destruct (var_or_not t) as [[i ->]|Hv].
  { rewrite scoped_var. cbn. split; [intros; split_and!; by try constructor|tauto]. }
  rewrite scoped_children by done. rewrite !Forall_fmap.
  split; [|tauto]. intros H. split; [by destruct t; try done; destruct (Hv i)|].
  split; [|done]. destruct t; repeat constructor.
Qed.

(** ** One iteration *)
Section admission.
Context (limits : AdmissionLimits) (Hlimits : (max_nodes limits <= USIZE_MAX)%N).

Lemma add_count_cases c n :
  (add_count c n = Ok (c + n)%N ∧ (c + n <= USIZE_MAX)%N) ∨
  (add_count c n = Err structural_limit ∧ (max_nodes limits < c + n)%N).
Proof using Hlimits.
  unfold add_count, usize_checked_add, checked.
  destruct (N.leb_spec (c + n) USIZE_MAX); [by left|right]. split; [done|lia].
Qed.

Lemma count_fields_cases {A} c (fs : list A) :
  (count_fields c fs = Ok (c + N.of_nat (length fs))%N) ∨
  (count_fields c fs = Err structural_limit ∧
    (max_nodes limits < c + N.of_nat (length fs))%N).
Proof using Hlimits.
  revert c. induction fs as [|f fs IH]; intros c; cbn [count_fields].
  { left. cbn. f_equal. lia. }
  cbn [length]. destruct (add_count_cases c 1) as [[-> _]|[-> H]]; cbn [mbind outcome_bind].
  - destruct (IH (c + 1)%N) as [->|[-> H]]; [left; f_equal; lia|right; split; [done|lia]].
  - right. split; [done|lia].
Qed.

Definition fields_total (cs : list TermConstructor) : nat :=
  list_sum (List.map (λ c, length (fields c)) cs).

Lemma count_constructors_cases c cs :
  (count_constructors c cs = Ok (c + N.of_nat (fields_total cs))%N) ∨
  (count_constructors c cs = Err structural_limit ∧
    (max_nodes limits < c + N.of_nat (fields_total cs))%N).
Proof using Hlimits.
  unfold fields_total. revert c. induction cs as [|k cs IH]; intros c; cbn [count_constructors].
  { left. cbn. f_equal. lia. }
  cbn. destruct (count_fields_cases c (fields k)) as [->|[-> H]]; cbn [mbind outcome_bind].
  - destruct (IH (c + N.of_nat (length (fields k)))%N) as [->|[-> H]];
      unfold list_sum in *; [left; f_equal; lia|right; split; [done|lia]].
  - right. split; [done|lia].
Qed.

Definition cost (n : Node) : N := N.of_nat (node_cost n).

Lemma visit_cases c n d :
  (visit limits c n d = Ok (c + cost n)%N ∧ (c + cost n <= max_nodes limits)%N ∧
    (d <= max_depth limits)%N ∧ local_ok n) ∨
  (visit limits c n d = Err structural_limit ∧
    ((max_nodes limits < c + cost n)%N ∨ (max_depth limits < d)%N)) ∨
  (∃ s, visit limits c n d = Err (Invalid s) ∧ ¬ local_ok n).
Proof using Hlimits.
  unfold visit, cost. destruct (add_count_cases c 1) as [[-> _]|[-> H]]; cbn [mbind outcome_bind].
  2: { right; left. split; [done|]. left. destruct n as [[]|]; cbn; lia. }
  destruct ((_ || _)%N) eqn:E.
  { right; left. split; [done|]. apply orb_true_iff in E as [E|E]; apply N.ltb_lt in E;
      [left|by right]. destruct n as [[]|]; cbn; lia. }
  apply orb_false_iff in E as [E1 E2]. apply N.ltb_ge in E1, E2.
  destruct n as [t b|l]; [|left; cbn; auto].
  destruct t; try (left; cbn; split_and!; auto; fail).
  - destruct (add_count_cases (c + 1) (N.of_nat (length constructors))) as [[-> _]|[-> H]];
      cbn [mbind outcome_bind]; [|right; left; split; [done|]; left; cbn; lia].
    destruct (count_constructors_cases (c + 1 + N.of_nat (length constructors)) constructors)
      as [->|[-> H]]; cbn [mbind outcome_bind];
      [|right; left; split; [done|]; left; cbn; unfold fields_total in H; lia].
    unfold fields_total.
    assert (c + 1 + N.of_nat (length constructors) +
      N.of_nat (list_sum (List.map (λ c, length (fields c)) constructors)) =
      c + N.of_nat (node_cost (NTerm (Data name level ixs constructors) b)))%N as ->
      by (cbn; lia).
    destruct (N.ltb_spec (max_nodes limits)
      (c + N.of_nat (node_cost (NTerm (Data name level ixs constructors) b)))); [right; left|left];
      split_and!; auto; done.
  - destruct (Nat.leb_spec b i) as [Hi|Hi].
    + right; right. eexists; split; [done|]. cbn. lia.
    + left. cbn. auto.
Qed.

(** ** The loop *)
Definition stack_count (st : list (Node * N)) : N :=
  N.of_nat (list_sum (List.map (λ p, node_count p.1) st)).

Definition stack_fits (c : N) (st : list (Node * N)) : Prop :=
  (c + stack_count st <= max_nodes limits)%N ∧
  Forall (λ p, within (max_depth limits) p.1 p.2) st.

Definition stack_closed (st : list (Node * N)) : Prop := Forall (λ p, node_closed p.1) st.

Definition next (n : Node) (d : N) (st : list (Node * N)) : list (Node * N) :=
  rev (List.map (λ n, (n, d + 1)%N) (pushes n)) ++ st.

Lemma node_count_pos n : 1 ≤ node_count n.
Proof. rewrite node_count_pushes. destruct n; cbn; lia. Qed.

Lemma stack_count_next n d st :
  (stack_count ((n, d) :: st) = cost n + stack_count (next n d st))%N.
Proof.
  unfold stack_count, cost, next. rewrite <- Nat2N.inj_add. f_equal.
  cbn [List.map fst]. unfold list_sum at 1. cbn [foldr]. fold (list_sum (List.map (λ p : Node * N, node_count p.1) st)).
  rewrite node_count_pushes, List.map_app, list_sum_app, <- Nat.add_assoc. do 2 f_equal.
  rewrite List.map_rev, List.map_map. cbn. by rewrite <- Permutation_rev.
Qed.

Lemma Forall_next (P : Node * N → Prop) n d st :
  Forall P (next n d st) ↔ Forall (λ m, P (m, d + 1)%N) (pushes n) ∧ Forall P st.
Proof.
  unfold next. rewrite Forall_app, <- Permutation_rev. by rewrite Forall_fmap.
Qed.

Lemma within_next n d st :
  Forall (λ p, within (max_depth limits) p.1 p.2) ((n, d) :: st) ↔
  (d <= max_depth limits)%N ∧
  Forall (λ p, within (max_depth limits) p.1 p.2) (next n d st).
Proof.
  rewrite Forall_cons, Forall_next. cbn [fst snd]. split.
  - intros [H Hst]. inversion H as [? ? Hd Hm]; subst. split_and!; [done|by apply Forall_forall|done].
  - intros (Hd & Hm & Hst). rewrite Forall_forall in Hm. split; [by constructor|done].
Qed.

Lemma closed_next n d st :
  stack_closed ((n, d) :: st) ↔ local_ok n ∧ stack_closed (next n d st).
Proof.
  unfold stack_closed. rewrite Forall_cons, Forall_next. cbn [fst].
  rewrite node_closed_pushes. tauto.
Qed.

(** The verdict of the loop, exactly. *)
Definition loop_verdict (c : N) (st : list (Node * N))
    (r : outcome AdmissionFailure unit) : Prop :=
  match r with
  | Ok _ => stack_fits c st ∧ stack_closed st
  | Err (Exhausted s) => s = "structural_limit" ∧ ¬ stack_fits c st
  | Err (Invalid _) => ¬ stack_closed st
  | Gas _ => False
  end.

Lemma admit_loop_verdict fuel c st :
  (c <= max_nodes limits)%N → N.to_nat (max_nodes limits - c) + 1 < fuel →
  loop_verdict c st (admit_loop fuel limits c st).
Proof using Hlimits.
  revert c st. induction fuel as [|fuel IH]; intros c st Hc Hf; [lia|].
  cbn [admit_loop]. destruct st as [|[n d] st].
  { split; [|constructor]. split; [|constructor]. change (stack_count []) with 0%N. lia. }
  pose proof (stack_count_next n d st) as Hcount.
  destruct (visit_cases c n d) as [(-> & Hm & Hd & Hl)|[[-> H]|(s & -> & H)]];
    cbn [mbind outcome_bind].
  - fold (next n d st). specialize (IH (c + cost n)%N (next n d st) Hm).
    assert (1 ≤ node_cost n) by (destruct n; cbn; lia).
    assert (loop_verdict (c + cost n) (next n d st)
      (admit_loop fuel limits (c + cost n) (next n d st))) as Hv by (apply IH; unfold cost in *; lia).
    revert Hv. destruct (admit_loop _ _ _ _) as [u|[s|s]|k]; unfold loop_verdict, stack_fits;
      rewrite ?Hcount, ?within_next, ?closed_next, ?N.add_assoc; tauto.
  - split; [done|]. intros [Hn Hw]. destruct H as [H|H].
    + rewrite Hcount in Hn. lia.
    + apply within_next in Hw as [Hw _]. lia.
  - cbn. intros Hcl. apply closed_next in Hcl. tauto.
Qed.
End admission.

(** ** Judgments *)
Definition judgment_count (j : Judgment) : N :=
  N.of_nat (list_sum (List.map node_count (roots j))).

Definition judgment_within (max : N) (j : Judgment) : Prop :=
  Forall (λ n, within max n 0) (roots j).

Definition judgment_closed (j : Judgment) : Prop :=
  scoped 0 (statement j) ∧ scoped 0 (term (certificate j)) ∧
  scoped 0 (claimed_type (certificate j)).

Lemma admit_structure_verdict j limits :
  (max_nodes limits <= USIZE_MAX)%N →
  match admit_structure j limits with
  | Ok _ => ((judgment_count j <= max_nodes limits)%N ∧
      judgment_within (max_depth limits) j) ∧ judgment_closed j
  | Err (Exhausted s) => s = "structural_limit" ∧
      ¬ ((judgment_count j <= max_nodes limits)%N ∧ judgment_within (max_depth limits) j)
  | Err (Invalid _) => ¬ judgment_closed j
  | Gas _ => False
  end.
Proof.
  intros Hl. pose proof (admit_loop_verdict limits Hl (admission_fuel limits) 0
    (rev (List.map (λ n, (n, 0%N)) (roots j))) ltac:(lia)
    ltac:(unfold admission_fuel; lia)) as H.
  change (admit_loop _ _ _ _) with (admit_structure j limits) in H.
  assert (stack_fits limits 0 (rev (List.map (λ n, (n, 0%N)) (roots j))) ↔
    (judgment_count j <= max_nodes limits)%N ∧ judgment_within (max_depth limits) j) as Hfit.
  { unfold stack_fits, judgment_within, stack_count, judgment_count.
    rewrite <- Permutation_rev, List.map_map, Forall_fmap. done. }
  assert (stack_closed (rev (List.map (λ n, (n, 0%N)) (roots j))) ↔ judgment_closed j) as Hcl.
  { unfold stack_closed, judgment_closed. rewrite <- Permutation_rev, Forall_fmap. unfold roots.
    rewrite !Forall_cons, Forall_nil. cbn. tauto. }
  unfold loop_verdict in H. destruct (admit_structure j limits) as [u|[s|s]|k];
    rewrite ?Hfit, ?Hcl in H; done.
Qed.

(** ** The bracket scan *)

(** The brackets outside string literals, and whether the text ends inside
    one: a string runs to the next quote that no backslash escapes. *)
Inductive brackets : list byte → list byte → bool → Prop :=
| brackets_nil : brackets [] [] false
| brackets_open b s w u :
    b = x7b ∨ b = x5b ∨ b = x7d ∨ b = x5d → brackets s w u → brackets (b :: s) (b :: w) u
| brackets_other b s w u :
    b ∉ [x7b; x5b; x7d; x5d; x22] → brackets s w u → brackets (b :: s) w u
| brackets_quote s w u : string_body s w u → brackets (x22 :: s) w u
with string_body : list byte → list byte → bool → Prop :=
| string_end : string_body [] [] true
| string_close s w u : brackets s w u → string_body (x22 :: s) w u
| string_escape_end : string_body [x5c] [] true
| string_escape b s w u : string_body s w u → string_body (x5c :: b :: s) w u
| string_char b s w u :
    b ≠ x22 → b ≠ x5c → string_body s w u → string_body (b :: s) w u.

(** Well-nested brackets of depth at most [n]. *)
Inductive nested : nat → list byte → Prop :=
| nested_nil n : nested n []
| nested_object n v w : nested n v → nested (S n) w → nested (S n) (x7b :: v ++ x7d :: w)
| nested_array n v w : nested n v → nested (S n) w → nested (S n) (x5b :: v ++ x5d :: w).

(** The stack machine on brackets alone. *)
Fixpoint stack_machine (max : N) (st : list byte) (w : list byte)
    : outcome AdmissionFailure (list byte) :=
  match w with
  | [] => Ok st
  | b :: w =>
      s ← scan_byte max (Scan st false false) b;
      stack_machine max (containers s) w
  end.

Scheme brackets_mut := Induction for brackets Sort Prop
  with string_body_mut := Induction for string_body Sort Prop.
Combined Scheme brackets_string_ind from brackets_mut, string_body_mut.

Definition is_bracket (b : byte) : Prop := b = x7b ∨ b = x5b ∨ b = x7d ∨ b = x5d.

Definition closer (b : byte) : byte := match b with x7b => x7d | _ => x5d end.

Lemma brackets_only s w u : brackets s w u → Forall is_bracket w.
Proof.
  assert ((∀ s w u, brackets s w u → Forall is_bracket w) ∧
    (∀ s w u, string_body s w u → Forall is_bracket w)) as [H _]; [|exact (H s w u)].
  apply brackets_string_ind; intros; auto; by constructor.
Qed.

(** Every text has brackets: strings are skipped whatever they contain. *)
Lemma brackets_total s : ∃ w u, brackets s w u.
Proof.
  assert (∀ n s, length s ≤ n →
    (∃ w u, brackets s w u) ∧ (∃ w u, string_body s w u)) as H;
    [|by destruct (H (length s) s (Nat.le_refl _))].
  clear s. induction n as [|n IH]; intros s Hs.
  { destruct s; [|cbn in Hs; lia]. split; eexists _, _; constructor. }
  destruct s as [|b s]; [split; eexists _, _; constructor|]. cbn in Hs.
  destruct (IH s ltac:(lia)) as [(w & u & Hb) (w' & u' & Hq)]. split.
  - destruct (decide (b = x22)) as [->|H22]; [by eexists _, _; constructor|].
    destruct (decide (b ∈ [x7b; x5b; x7d; x5d])) as [Hin|Hout].
    + eexists _, _. apply brackets_open; [|exact Hb]. rewrite !elem_of_cons, elem_of_nil in Hin. tauto.
    + eexists _, _. apply brackets_other; [|exact Hb]. rewrite !elem_of_cons, elem_of_nil in *. tauto.
  - destruct (decide (b = x22)) as [->|H22]; [by eexists _, _; constructor|].
    destruct (decide (b = x5c)) as [->|H5c]; [|by eexists _, _; apply string_char].
    destruct s as [|c s]; [by eexists _, _; constructor|]. cbn in Hs.
    destruct (IH s ltac:(lia)) as [_ (w2 & u2 & H2)]. by eexists _, _; apply string_escape.
Qed.

(** Scanning a text is running the machine on its brackets. *)
Lemma scan_byte_other max st b :
  b ∉ [x7b; x5b; x7d; x5d; x22] → scan_byte max (Scan st false false) b = Ok (Scan st false false).
Proof.
  intros H. destruct b; try reflexivity; exfalso; apply H;
    rewrite !elem_of_cons; tauto.
Qed.

Lemma scan_byte_char max st b :
  b ≠ x22 → b ≠ x5c → scan_byte max (Scan st true false) b = Ok (Scan st true false).
Proof. intros H1 H2. destruct b; done. Qed.

Lemma scan_byte_bracket max st b s :
  is_bracket b → scan_byte max (Scan st false false) b = Ok s →
  quoted s = false ∧ escaped s = false.
Proof.
  intros [->|[->|[->| ->]]]; cbn; repeat case_match; intros; by simplify_eq.
Qed.

Lemma scan_machine max :
  (∀ s w u, brackets s w u → ∀ st, ∃ e,
    scan max (Scan st false false) s = (st ← stack_machine max st w; Ok (Scan st u e))) ∧
  (∀ s w u, string_body s w u → ∀ st, ∃ e,
    scan max (Scan st true false) s = (st ← stack_machine max st w; Ok (Scan st u e))).
Proof.
  apply brackets_string_ind; try (intros; by eexists).
  - intros b s w u Hb _ IH st. cbn [scan stack_machine].
    destruct (scan_byte max (Scan st false false) b) as [[st' q e]|e|k] eqn:E;
      cbn [mbind outcome_bind]; [|by exists false..].
    destruct (scan_byte_bracket _ _ _ _ Hb E) as [Hq He]. cbn in Hq, He. subst. apply IH.
  - intros b s w u Hb _ IH st. cbn [scan]. rewrite scan_byte_other by done. apply IH.
  - intros s w u _ IH st. apply IH.
  - intros s w u _ IH st. apply IH.
  - intros b s w u _ IH st. apply IH.
  - intros b s w u H1 H2 _ IH st. cbn [scan]. rewrite scan_byte_char by done. apply IH.
Qed.

(** The machine accepts exactly the nested words. *)
Lemma machine_open max st b w :
  b = x7b ∨ b = x5b → (N.of_nat (length st) < max)%N →
  stack_machine max st (b :: w) = stack_machine max (b :: st) w.
Proof.
  intros Hb Hn. assert ((N.of_nat (length st) =? max)%N = false) as E by (apply N.eqb_neq; lia).
  destruct Hb as [->| ->]; cbn; by rewrite E.
Qed.

Lemma machine_close max st b w :
  b = x7b ∨ b = x5b →
  stack_machine max (b :: st) (closer b :: w) = stack_machine max st w.
Proof. by intros [->| ->]. Qed.

Lemma nested_machine max n v :
  nested n v → ∀ st w, (N.of_nat (length st) + N.of_nat n <= max)%N →
  stack_machine max st (v ++ w) = stack_machine max st w.
Proof.
  induction 1 as [n|n v w _ IHv _ IHw|n v w _ IHv _ IHw]; intros st r Hn; [done|..];
    rewrite <- app_comm_cons, <- app_assoc, machine_open by (auto || lia);
    rewrite IHv by (cbn; lia); cbn [app].
  - rewrite (machine_close max st x7b) by auto. by apply IHw.
  - rewrite (machine_close max st x5b) by auto. by apply IHw.
Qed.

(** What is left to read when the brackets of [st] are open. *)
Fixpoint completes (max : nat) (st w : list byte) : Prop :=
  match st with
  | [] => nested max w
  | b :: st' => ∃ v w', w = v ++ closer b :: w' ∧
      nested (max - length st) v ∧ completes max st' w'
  end.

Lemma nested_cons n b v w :
  b = x7b ∨ b = x5b → nested (n - 1) v → nested n w → 0 < n →
  nested n (b :: v ++ closer b :: w).
Proof.
  intros Hb Hv Hw Hn. destruct n as [|n]; [lia|]. cbn in Hv. rewrite Nat.sub_0_r in Hv.
  destruct Hb as [->| ->]; by constructor.
Qed.

Lemma completes_open max b st w :
  b = x7b ∨ b = x5b → length st < max → completes max (b :: st) w → completes max st (b :: w).
Proof.
  intros Hb Hl (v & w' & -> & Hv & Hw). cbn [length] in Hv. destruct st as [|c st].
  - apply nested_cons; [done| |done|lia]. exact Hv.
  - destruct Hw as (v2 & w2 & -> & Hv2 & Hw2). exists (b :: v ++ closer b :: v2), w2.
    split_and!; [|..|done].
    + by rewrite <- app_comm_cons, <- app_assoc.
    + apply nested_cons; [done| |done|lia]. by replace (max - length (c :: st) - 1)
        with (max - S (length (c :: st))) by lia.
Qed.

Lemma machine_completes max st w :
  Forall (λ b, b = x7b ∨ b = x5b) st → Forall is_bracket w → length st ≤ N.to_nat max →
  stack_machine max st w = Ok [] → completes (N.to_nat max) st w.
Proof.
  intros Hst Hw. revert st Hst. induction Hw as [|b w Hb _ IH]; intros st Hst Hl H.
  { injection H as ->. constructor. }
  assert ((b = x7b ∨ b = x5b) ∨ (b = x7d ∨ b = x5d)) as [Ho|Hc] by (destruct Hb; tauto).
  - destruct (N.eqb_spec (N.of_nat (length st)) max) as [E|E].
    { apply N.eqb_eq in E. destruct Ho as [->| ->]; cbn in H; by rewrite E in H. }
    rewrite machine_open in H by (done || lia).
    apply completes_open; [done|lia|]. apply IH; [by constructor|cbn; lia|done].
  - destruct Hst as [|top st Ht Hst].
    { by destruct Hc as [->| ->]. }
    assert (b = closer top) as ->.
    { destruct Hc as [->| ->], Ht as [->| ->]; done. }
    rewrite machine_close in H by done. cbn in Hl.
    exists [], w. split_and!; [done|constructor|]. apply IH; [done|lia|done].
Qed.

Lemma json_envelope_nested bytes max :
  json_envelope bytes max = Ok tt ↔
  ∃ w, brackets bytes w false ∧ nested (N.to_nat max) w.
Proof.
  unfold json_envelope. split.
  - destruct (brackets_total bytes) as (w & u & Hb). pose proof (brackets_only _ _ _ Hb) as Hw.
    destruct (proj1 (scan_machine max) _ _ _ Hb []) as [e ->].
    destruct (stack_machine max [] w) as [st|err|k] eqn:E; cbn [mbind outcome_bind]; [|done..].
    cbn [quoted containers]. destruct u; [done|]. destruct st; [|done]. intros _.
    exists w. split; [done|]. apply (machine_completes max [] w); [constructor|done|cbn; lia|done].
  - intros (w & Hb & Hn). destruct (proj1 (scan_machine max) _ _ _ Hb []) as [e ->].
    pose proof (nested_machine max _ w Hn [] [] ltac:(cbn; lia)) as E. rewrite app_nil_r in E.
    by rewrite E.
Qed.

Lemma json_envelope_no_gas bytes max k : json_envelope bytes max ≠ Gas k.
Proof.
  unfold json_envelope. intros [H|(s & _ & H)]%bind_Gas; [|by destruct (_ || _)].
  revert H. generalize (Scan [] false false). induction bytes as [|b bytes IH]; intros s; [done|].
  cbn [scan]. intros [H|(s' & _ & H)]%bind_Gas; [|by eapply IH].
  revert H. unfold scan_byte. by repeat case_match.
Qed.

(** ** Properties *)

(** C38. Structural admission decides exactly its policy, whatever the shape of
    the terms and the order of the traversal: it admits a judgment if and only
    if the statement, the proof and the claimed type together have at most the
    allowed number of nodes, none is deeper than allowed, and all three are
    closed; it reports exhaustion only when a budget is exceeded and a scope
    error only for a term that is not closed; and the traversal terminates
    within the node budget, its checked counters never wrapping. *)
Theorem admission_exact j limits :
  (max_nodes limits <= USIZE_MAX)%N →
  let small := (judgment_count j <= max_nodes limits)%N ∧
    judgment_within (max_depth limits) j in
  (admit_structure j limits = Ok tt ↔ small ∧ judgment_closed j) ∧
  (∀ s, admit_structure j limits = Err (Exhausted s) → ¬ small) ∧
  (∀ s, admit_structure j limits = Err (Invalid s) → ¬ judgment_closed j) ∧
  (∀ k, admit_structure j limits ≠ Gas k).
Proof.
  intros Hl. cbv zeta. pose proof (admit_structure_verdict j limits Hl) as H.
  destruct (admit_structure j limits) as [[]|[s|s]|k]; split_and!;
    naive_solver.
Qed.

(** The scan of the raw bytes that guards the recursive deserializer
    accepts exactly the texts whose brackets, outside string literals with
    their escapes, are closed, well nested and at most as deep as the limit. *)
Theorem json_envelope_exact bytes max :
  json_envelope bytes max = Ok tt ↔
  ∃ w, brackets bytes w false ∧ nested (N.to_nat max) w.
Proof. apply json_envelope_nested. Qed.

(** ** Witness *)
Lemma admission_exact_witness :
  let t := Lam (Universe (Level.Var "u")) (Var 0) in
  let T := Pi (Universe (Level.Var "u")) (Universe (Level.Var "u")) in
  admit_structure (Judge PROFILE T (Cert t T [])) (AdmissionPolicy 100 15 2) = Ok tt ∧
  judgment_closed (Judge PROFILE T (Cert t T [])).
Proof.
  cbv zeta. split; [vm_compute; reflexivity|].
  destruct (admission_exact
    (Judge PROFILE (Pi (Universe (Level.Var "u")) (Universe (Level.Var "u")))
      (Cert (Lam (Universe (Level.Var "u")) (Var 0))
        (Pi (Universe (Level.Var "u")) (Universe (Level.Var "u"))) []))
    (AdmissionPolicy 100 15 2)) as [H _]; [vm_compute; congruence|].
  apply H. vm_compute. reflexivity.
Defined.
