(* ===== verification/Replay.v ===== *)
(** * Replaying a judgment

    [decode_judgment] and [replay_with_limits] of
    [verum_proof/src/admission.rs]: the pipeline from raw bytes to a report,
    through both kernels.  The JSON deserializer and the digest of the checker's
    own sources come from third-party code, the deserializer [decode] and the
    digest [checker_identity] are parameters. *)
From S2P Require Import Prelude Nbe NbeChecker Levels Syntax Subst Context Conversion Checker Typing TypingFacts Stability NbeFacts Admission AdmissionFacts.
From Stdlib Require Import Strings.Byte.

Open Scope verum_scope.

Section replay.
Context (decode : list byte → option Judgment) (checker_identity : string).
(** Fuel of head reduction and recursion depths of the two kernels. *)
Context (ceiling : N) (cgas gas egas ngas : nat).

(** A refused judgment carries the report to return. *)
Definition decode_judgment (bytes : list byte) (f : Foundation) (limits : AdmissionLimits)
    : outcome Report Judgment :=
  let refuse outcome stage code message :=
    Err (refusal checker_identity f limits outcome stage code message) in
  if negb (admission_is_valid limits) then
    refuse Inconclusive "policy" "invalid_limits"
      "Admission limits cannot be represented safely."
  else if (max_bytes limits <? N.of_nat (length bytes))%N then
    refuse ResourceExhausted "decode" "byte_limit"
      "Native judgment exceeds the input byte budget."
  else
    match json_envelope bytes (default 0%N (json_nesting_limit limits)) with
    | Err error =>
        refuse (failure_outcome error) "decode" (failure_code error)
          (match error with
           | Exhausted _ => "Native judgment exceeds the JSON nesting budget."
           | Invalid _ => "Native judgment has malformed JSON nesting."
           end)
    | Gas k => Gas k
    | Ok _ =>
        match decode bytes with
        | None =>
            refuse Rejected "decode" "invalid_certificate"
              "Expected one strict native judgment JSON object; duplicate or unknown fields and malformed terms are rejected."
        | Some judgment =>
            if negb (String.eqb (profile judgment) (profile_for f)) then
              refuse Unsupported "profile" "unsupported_profile"
                "The requested logical profile is not supported by this checker."
            else
              match admit_structure judgment limits with
              | Err error =>
                  refuse (failure_outcome error) "admission" (failure_code error)
                    (match error with
                     | Invalid _ =>
                         "A closed native judgment contains a variable outside its binder scope."
                     | Exhausted _ => "Native judgment exceeds the node or depth budget."
                     end)
              | Gas k => Gas k
              | Ok _ =>
                  if negb (term_eqb (statement judgment)
                             (claimed_type (certificate judgment))) then
                    refuse Rejected "statement" "statement_mismatch"
                      "The certificate claims a different formal statement."
                  else Ok judgment
              end
        end
    end.

Definition report_failure (f : Foundation) (limits : AdmissionLimits) (stage : string)
    (e : CheckError) : Report :=
  let '(outcome, code) := classify_check_failure e in
  refusal checker_identity f limits outcome stage code
    "The native checker did not establish the judgment.".

Definition replay_with_limits (bytes : list byte) (f : Foundation)
    (limits : AdmissionLimits) : outcome Report Report :=
  match decode_judgment bytes f limits with
  | Err report => Ok report
  | Gas k => Gas k
  | Ok judgment =>
      match verify_with_foundation ceiling cgas gas (certificate judgment) f with
      | Err e => Ok (report_failure f limits "substitution" e)
      | Gas k => Gas k
      | Ok _ =>
          match verify_certificate_with_foundation egas ngas (certificate judgment) f with
          | Err e => Ok (report_failure f limits "normalization" e)
          | Gas k => Gas k
          | Ok _ =>
              Ok (MkReport (profile_for f) checker_identity true Accepted limits None None)
          end
      end
  end.

Definition replay_with_foundation (bytes : list byte) (f : Foundation)
    : outcome Report Report := replay_with_limits bytes f admission_default.

Definition replay (bytes : list byte) : outcome Report Report :=
  replay_with_foundation bytes Intensional.
End replay.

(** ** Facts *)
Lemma refusal_consistent id f l o st c m :
  o ≠ Accepted → is_consistent (refusal id f l o st c m) = true.
Proof. by destruct o. Qed.

Lemma failure_outcome_refuses e : failure_outcome e ≠ Accepted.
Proof. by destruct e. Qed.

Lemma classify_refuses e : (classify_check_failure e).1 ≠ Accepted.
Proof. by destruct e. Qed.

Lemma classify_exhausted e :
  (classify_check_failure e).1 = ResourceExhausted ↔ e = FuelExhausted.
Proof. destruct e; cbn; split; congruence. Qed.

(** A report that refuses, with the caller's policy and foundation in it. *)
Definition refuses (id : string) (f : Foundation) (l : AdmissionLimits) (r : Report) : Prop :=
  ∃ o st c m, r = refusal id f l o st c m ∧ o ≠ Accepted.

Lemma refuses_intro id f l o st c m : o ≠ Accepted → refuses id f l (refusal id f l o st c m).
Proof. intros H. by exists o, st, c, m. Qed.

Section replay_facts.
Context (decode : list byte → option Judgment) (id : string).

(** What decoding has established about a judgment it returns. *)
Definition admitted (bytes : list byte) (f : Foundation) (l : AdmissionLimits)
    (j : Judgment) : Prop :=
  admission_is_valid l = true ∧ (N.of_nat (length bytes) <= max_bytes l)%N ∧
  json_envelope bytes (default 0%N (json_nesting_limit l)) = Ok tt ∧
  decode bytes = Some j ∧ profile j = profile_for f ∧ admit_structure j l = Ok tt ∧
  statement j = claimed_type (certificate j).

Lemma decode_judgment_cases bytes f l :
  match decode_judgment decode id bytes f l with
  | Ok j => admitted bytes f l j
  | Err r => refuses id f l r ∧ ¬ ∃ j, admitted bytes f l j
  | Gas _ => True
  end.
Proof.
  unfold decode_judgment, admitted.
  destruct (admission_is_valid l) eqn:Hv; cbn [negb].
  2: { split; [by apply refuses_intro|]. by intros (? & ? & _). }
  destruct (N.ltb_spec (max_bytes l) (N.of_nat (length bytes))) as [Hb|Hb].
  { split; [by apply refuses_intro|]. intros (j & _ & ? & _). lia. }
  destruct (json_envelope _ _) as [[]|e|k] eqn:He; [|split|done].
  2: { apply refuses_intro, failure_outcome_refuses. }
  2: { by intros (? & _ & _ & ? & _). }
  destruct (decode bytes) as [j|] eqn:Hd.
  2: { split; [by apply refuses_intro|]. by intros (? & _ & _ & _ & ? & _). }
  destruct (String.eqb_spec (profile j) (profile_for f)) as [Hp|Hp]; cbn [negb].
  2: { split; [by apply refuses_intro|]. intros (? & _ & _ & _ & [= <-] & ? & _). done. }
  destruct (admit_structure j l) as [[]|e|k] eqn:Ha; [|split|done].
  2: { apply refuses_intro, failure_outcome_refuses. }
  2: { intros (? & _ & _ & _ & [= <-] & _ & ? & _). congruence. }
  destruct (term_eqb _ _) eqn:Ht; cbn [negb].
  - apply term_eqb_eq in Ht. auto 10.
  - split; [by apply refuses_intro|]. intros (j' & _ & _ & _ & [= <-] & _ & _ & E).
    apply term_eqb_eq in E. congruence.
Qed.

Lemma decode_judgment_no_gas bytes f l k :
  (max_nodes l <= USIZE_MAX)%N → decode_judgment decode id bytes f l ≠ Gas k.
Proof.
  intros Hl. unfold decode_judgment. destruct (negb _); [done|]. destruct (_ <? _)%N; [done|].
  destruct (json_envelope _ _) eqn:He; [|done|by apply json_envelope_no_gas in He].
  destruct (decode bytes) as [j|]; [|done]. destruct (negb _); [done|].
  pose proof (admit_structure_verdict j l Hl) as H.
  destruct (admit_structure j l); [by destruct (negb _)|done|done].
Qed.

Context (F : N) (cgas gas egas ngas : nat).

Definition both_accept (j : Judgment) (f : Foundation) : Prop :=
  verify_with_foundation F cgas gas (certificate j) f = Ok tt ∧
  verify_certificate_with_foundation egas ngas (certificate j) f = Ok tt.

Lemma replay_cases bytes f l r :
  replay_with_limits decode id F cgas gas egas ngas bytes f l = Ok r →
  (r = MkReport (profile_for f) id true Accepted l None None ∧
    ∃ j, admitted bytes f l j ∧ both_accept j f) ∨
  (refuses id f l r ∧ ¬ ∃ j, admitted bytes f l j ∧ both_accept j f).
Proof.
  unfold replay_with_limits, both_accept. pose proof (decode_judgment_cases bytes f l) as H.
  destruct (decode_judgment _ _ _ _ _) as [j|r'|k]; [| |done].
  2: { intros [= <-]. right. naive_solver. }
  assert (∀ j', admitted bytes f l j' → j' = j) as Huniq.
  { intros j' (_ & _ & _ & E & _). destruct H as (_ & _ & _ & E' & _). congruence. }
  assert (∀ st e, refuses id f l (report_failure id f l st e)) as Hfail.
  { intros st e. unfold report_failure. pose proof (classify_refuses e).
    destruct (classify_check_failure e). by apply refuses_intro. }
  destruct (verify_with_foundation _ _ _ _ _) as [[]|e|k] eqn:Hv; [|intros [= <-]|done].
  2: { right. split; [done|]. intros (j' & ->%Huniq & E & _). congruence. }
  destruct (verify_certificate_with_foundation _ _ _ _) as [[]|e|k] eqn:Hn; [|intros [= <-]|done].
  2: { right. split; [done|]. intros (j' & ->%Huniq & _ & E). congruence. }
  intros [= <-]. left. eauto.
Qed.
End replay_facts.

(** ** Properties *)

(** C2. Acceptance is exactly the conjunction of every check: a report accepts
    if and only if the policy is valid, the bytes fit the budget and nest
    within the limit, they decode to a judgment of the requested profile that
    passes structural admission and whose statement is, syntactically, the type
    its certificate claims, and both kernels verify that certificate.  No other
    input, and nothing in the metadata, can make it accept. *)
Theorem replay_accepts_exactly decode id F cgas gas egas ngas bytes f l r :
  replay_with_limits decode id F cgas gas egas ngas bytes f l = Ok r →
  (accepted r = true ↔
    ∃ j, admitted decode bytes f l j ∧ both_accept F cgas gas egas ngas j f).
Proof.
  intros [[-> H]|[(o & st & c & m & -> & _) H]]%replay_cases; [by split|].
  by split.
Qed.

(** C1. An accepted replay is a theorem: the statement the judgment carries is
    a type, its certificate's term inhabits it, in the foundation the verifier
    chose, and both are closed. *)
Theorem replay_sound decode id F cgas gas egas ngas bytes f l r :
  (max_nodes l <= USIZE_MAX)%N →
  replay_with_limits decode id F cgas gas egas ngas bytes f l = Ok r → accepted r = true →
  ∃ j lv, decode bytes = Some j ∧
    has_type (with_foundation f) (statement j) (Universe lv) ∧
    has_type (with_foundation f) (term (certificate j)) (statement j) ∧
    judgment_closed j.
Proof.
  intros Hl [[_ (j & Hj & Hv & _)]|[(o & st & c & m & -> & _) _]]%replay_cases; [|done].
  intros _. destruct Hj as (_ & _ & _ & Hd & _ & Ha & Hs).
  pose proof (admit_structure_verdict j l Hl) as Hc. rewrite Ha in Hc.
  apply verified_typed in Hv as (lv & HT & Ht). exists j, lv. rewrite Hs.
  split_and!; try done. by apply Hc.
Qed.

(** Every report is consistent and speaks for the verifier's policy: the
    compatibility flag, the outcome and the presence of a diagnostic agree, and
    the profile, the limits and the checker identity are those of the caller,
    never those of the submitted bytes. *)
Theorem replay_report_consistent decode id F cgas gas egas ngas bytes f l r :
  replay_with_limits decode id F cgas gas egas ngas bytes f l = Ok r →
  is_consistent r = true ∧ report_profile r = profile_for f ∧ limits r = l ∧
  checker r = id ∧ worker r = None ∧ accepted r = bool_decide (report_outcome r = Accepted).
Proof.
  intros [[-> _]|[(o & st & c & m & -> & Ho) _]]%replay_cases; [done|].
  split_and!; try done; [by apply refusal_consistent|by destruct o].
Qed.

(** Exhaustion is never a rejection: unless the report says that a
    resource ran out, replaying the same bytes with a larger reduction budget
    and deeper recursion of either kernel returns the same report. *)
Theorem replay_verdict_stable decode id F F' cgas cgas' gas gas' egas egas' ngas ngas' bytes f l r :
  (F <= F')%N → cgas ≤ cgas' → gas ≤ gas' → egas ≤ egas' → ngas ≤ ngas' →
  replay_with_limits decode id F cgas gas egas ngas bytes f l = Ok r →
  report_outcome r ≠ ResourceExhausted →
  replay_with_limits decode id F' cgas' gas' egas' ngas' bytes f l = Ok r.
Proof.
  intros HF Hc Hg He Hn. unfold replay_with_limits.
  destruct (decode_judgment decode id bytes f l) as [j|r'|k]; [|done|done].
  pose proof (verify_mono F F' cgas cgas' gas gas' (certificate j) f HF Hc Hg) as Hle.
  pose proof (nbe_verify_mono egas egas' ngas ngas' (certificate j) f He Hn) as Hle'.
  destruct (verify_with_foundation F cgas gas (certificate j) f) as [u|e|k] eqn:Hv; [| |done].
  - rewrite (Hle I). destruct (verify_certificate_with_foundation egas ngas (certificate j) f)
      as [u'|e|k]; [by rewrite (Hle' I)| |done].
    intros [= <-] Ho. rewrite Hle'; [done|]. by destruct e.
  - intros [= <-] Ho. rewrite Hle; [done|]. by destruct e.
Qed.

(** ** Witnesses *)
Definition demo_judgment : Judgment :=
  Judge PROFILE (Pi (Universe (Level.Var "u")) (Pi (Var 0) (Var 1)))
    (Cert (Lam (Universe (Level.Var "u")) (Lam (Var 0) (Var 0)))
      (Pi (Universe (Level.Var "u")) (Pi (Var 0) (Var 1))) []).

(** A deserializer that knows one text, an empty object. *)
Definition demo_decode (bytes : list byte) : option Judgment :=
  if bool_decide (bytes = [x7b; x7d]) then Some demo_judgment else None.

Definition demo_report : Report :=
  MkReport PROFILE "digest" true Accepted admission_default None None.

Definition demo_replay : outcome Report Report :=
  replay_with_limits demo_decode "digest" 1000 20 20 20 20 [x7b; x7d] Intensional
    admission_default.

Lemma replay_accepts_exactly_witness :
  ∃ j, admitted demo_decode [x7b; x7d] Intensional admission_default j ∧
    both_accept 1000 20 20 20 20 j Intensional.
Proof.
  apply (replay_accepts_exactly demo_decode "digest" 1000 20 20 20 20 [x7b; x7d] Intensional
    admission_default demo_report); [vm_compute; reflexivity|reflexivity].
Defined.

Lemma replay_sound_witness :
  ∃ j lv, demo_decode [x7b; x7d] = Some j ∧
    has_type (with_foundation Intensional) (statement j) (Universe lv) ∧
    has_type (with_foundation Intensional) (term (certificate j)) (statement j) ∧
    judgment_closed j.
Proof.
  apply (replay_sound demo_decode "digest" 1000 20 20 20 20 [x7b; x7d] Intensional
    admission_default demo_report); [vm_compute; congruence|vm_compute; reflexivity|reflexivity].
Defined.

Lemma replay_report_consistent_witness : is_consistent demo_report = true.
Proof.
  apply (replay_report_consistent demo_decode "digest" 1000 20 20 20 20 [x7b; x7d] Intensional
    admission_default demo_report). vm_compute. reflexivity.
Defined.

Lemma replay_verdict_stable_witness :
  replay_with_limits demo_decode "digest" 5000 30 40 50 60 [x7b; x7d] Intensional
    admission_default = Ok demo_report.
Proof.
  apply (replay_verdict_stable demo_decode "digest" 1000 5000 20 30 20 40 20 50 20 60 [x7b; x7d]
    Intensional admission_default demo_report); [vm_compute; congruence|lia..| |discriminate].
  vm_compute. reflexivity.
Defined.
