(* ===== verification/LeanExport.v ===== *)
(** * Export to Lean

    [verum_proof/src/lean_export.rs]: the encoder of levels and terms, which
    numbers universe names by first occurrence in the statement, and the file
    it writes.  The encoder's mutable fields are a state passed through; a
    failed encoding returns the program's message.  The [HashMap] of names is a
    finite map. *)

From stdpp Require Import gmap pretty.
From Stdlib Require Import Strings.Byte.
From S2P Require Import Prelude Levels Syntax Subst Context Conversion Checker Nbe NbeChecker Admission.
From S2P Require Import AdmissionFacts Replay.

Open Scope verum_scope.

Definition PRELUDE : string := "import Init
set_option autoImplicit false
set_option warningAsError true
set_option maxRecDepth 4096
namespace VerumCertificate
universe u v
inductive Identity {A : Type u} (x : A) : A → Type u where
  | refl : Identity x x

def transport {A : Type u} {x y : A} (P : A → Type v) (b : P x)
    (p : Identity x y) : P y := match p with | .refl => b

def induction {A : Type u} {x y : A} (P : (z : A) → Identity x z → Type v)
    (b : P x (.refl)) (p : Identity x y) : P y p := match p with | .refl => b

".

Record Encoder : Type := Enc {
  levels : gmap string nat;
  in_statement : bool;
  out : string
}.

Definition encoded := outcome string Encoder.

Definition push_str (s : string) (e : Encoder) : Encoder :=
  Enc (levels e) (in_statement e) (out e +:+ s).

Fixpoint encode_level (l : Level) (e : Encoder) : encoded :=
  match l with
  | Level.Concrete n => Ok (push_str (pretty (u32_val n)) e)
  | Level.Var name =>
      if in_statement e then
        let next := size (levels e) in
        match levels e !! name with
        | Some index => Ok (push_str ("w" +:+ pretty index) e)
        | None =>
            Ok (push_str ("w" +:+ pretty next)
                 (Enc (<[name := next]> (levels e)) (in_statement e) (out e)))
        end
      else
        index ← ok_or (levels e !! name) "proof universe is outside the statement scope";
        Ok (push_str ("w" +:+ pretty index) e)
  | Level.Succ inner =>
      e ← encode_level inner (push_str "(" e); Ok (push_str (" + " +:+ "1" +:+ ")") e)
  | Level.Offset inner n =>
      e ← encode_level inner (push_str "(" e);
      Ok (push_str (" + " +:+ pretty (u32_val n) +:+ ")") e)
  | Level.Max a b =>
      e ← encode_level a (push_str "(max " e);
      e ← encode_level b (push_str " " e);
      Ok (push_str ")" e)
  end.

Definition binder_name (depth : nat) : string := "x" +:+ pretty depth.

(** A binder of [Pi], [Lam] or [Sigma] between its delimiters. *)
Definition encode_binder (term : Term → nat → Encoder → encoded) (open close : string)
    (a b : Term) (depth : nat) (e : Encoder) : encoded :=
  e ← term a depth (push_str (open +:+ "(" +:+ binder_name depth +:+ " : ") e);
  term b (depth + 1) (push_str close e).

Fixpoint encode_term (t : Term) (depth : nat) (e : Encoder) {struct t} : encoded :=
  let e := push_str "(" e in
  e ← match t with
      | Var i =>
          position ← ok_or (checked_sub depth (i + 1)) "unbound term variable";
          Ok (push_str (binder_name position) e)
      | Universe u => encode_level u (push_str "Type " e)
      | Pi a b => encode_binder encode_term "" ") → " a b depth e
      | Lam a b => encode_binder encode_term "fun " ") => " a b depth e
      | Sigma a b =>
          e ← encode_binder encode_term "Sigma (fun " ") => " a b depth e;
          Ok (push_str ")" e)
      | Let value body =>
          e ← encode_term value depth (push_str ("let " +:+ binder_name depth +:+ " := ") e);
          encode_term body (depth + 1) (push_str "; " e)
      | App f a =>
          e ← encode_term f depth e; encode_term a depth (push_str " " e)
      | Pair a b =>
          e ← encode_term a depth (push_str "⟨" e);
          e ← encode_term b depth (push_str ", " e);
          Ok (push_str "⟩" e)
      | Fst p => e ← encode_term p depth e; Ok (push_str ".1" e)
      | Snd p => e ← encode_term p depth e; Ok (push_str ".2" e)
      | Id ty lhs rhs =>
          e ← encode_term ty depth (push_str "@Identity " e);
          e ← encode_term lhs depth (push_str " " e);
          encode_term rhs depth (push_str " " e)
      | Refl x =>
          e ← encode_term x depth (push_str "Identity.refl (x := " e);
          Ok (push_str ")" e)
      | J motive base scrutinee | IdElim motive base scrutinee =>
          let e := push_str (match t with J _ _ _ => "transport" | _ => "induction" end) e in
          e ← encode_term motive depth (push_str " " e);
          e ← encode_term base depth (push_str " " e);
          encode_term scrutinee depth (push_str " " e)
      | FunExt _ _ _ _ => Err "extensionality is outside the intensional profile"
      | Data _ _ _ _ | Construct _ _ _ | Induct _ _ _ =>
          Err "native inductive declarations are outside this Lean export fragment"
      end;
  Ok (push_str ")" e).

Definition newline : string := String (Ascii.ascii_of_nat 10) EmptyString.

(** The universe declaration of the names the statement uses. *)
Definition universe_line (count : nat) : string :=
  if count =? 0 then EmptyString
  else "universe" +:+ String.concat EmptyString (List.map (λ i, " w" +:+ pretty i) (seq 0 count))
         +:+ newline.

(** [source] after the judgment is decoded. *)
Definition judgment_source (j : Judgment) : outcome string string :=
  e ← encode_term (statement j) 0 (Enc ∅ true EmptyString);
  let statement := out e in
  e ← encode_term (term (certificate j)) 0 (Enc (levels e) false EmptyString);
  Ok (PRELUDE +:+ universe_line (size (levels e)) +:+
      "def checked : " +:+ statement +:+ " :=" +:+ newline +:+ out e +:+ newline +:+
      "#print axioms checked" +:+ newline +:+ "end VerumCertificate" +:+ newline).

Definition source (decode : list byte → option Judgment) (checker_identity : string)
    (bytes : list byte) : outcome string string :=
  match decode_judgment decode checker_identity bytes Intensional admission_default with
  | Ok judgment => judgment_source judgment
  | Err r => Err (match diagnostic r with Some d => message d | None => "invalid judgment" end)
  | Gas k => Gas k
  end.

(** ** What the Lean exporter accepts

    The exporter succeeds on exactly one fragment, its universe names are
    numbered densely, and its output does not depend on the names. *)

Open Scope verum_scope.

(** ** The fragment and its universe names *)
Fixpoint level_names (l : Level) : gset string :=
  match l with
  | Level.Concrete _ => ∅
  | Level.Var name => {[name]}
  | Level.Succ a | Level.Offset a _ => level_names a
  | Level.Max a b => level_names a ∪ level_names b
  end.

Fixpoint fragment (t : Term) : bool :=
  match t with
  | Var _ | Universe _ => true
  | Pi a b | Lam a b | Sigma a b | Let a b | App a b | Pair a b => fragment a && fragment b
  | Fst a | Snd a | Refl a => fragment a
  | Id a b c | J a b c | IdElim a b c => fragment a && fragment b && fragment c
  | FunExt _ _ _ _ | Data _ _ _ _ | Construct _ _ _ | Induct _ _ _ => false
  end.

Fixpoint term_names (t : Term) : gset string :=
  match t with
  | Universe l => level_names l
  | Pi a b | Lam a b | Sigma a b | Let a b | App a b | Pair a b => term_names a ∪ term_names b
  | Fst a | Snd a | Refl a => term_names a
  | Id a b c | J a b c | IdElim a b c => term_names a ∪ term_names b ∪ term_names c
  | _ => ∅
  end.

(** ** Steps of the encoder *)

(** The names can be encoded: in the statement always, in the proof when the
    statement introduced them. *)
Definition admits (e : Encoder) (ns : gset string) : Prop :=
  in_statement e = true ∨ ns ⊆ dom (levels e).

(** The numbering is a bijection onto an initial segment. *)
Definition dense (m : gmap string nat) : Prop :=
  (∀ n i, m !! n = Some i → i < size m) ∧
  (∀ n n' i, m !! n = Some i → m !! n' = Some i → n = n').

Definition advances (e e' : Encoder) (ns : gset string) : Prop :=
  in_statement e' = in_statement e ∧
  (in_statement e = false → levels e' = levels e) ∧
  (in_statement e = true → dom (levels e') = dom (levels e) ∪ ns) ∧
  (dense (levels e) → dense (levels e')).

Definition steps (m : encoded) (e : Encoder) (ok : Prop) (ns : gset string) : Prop :=
  match m with
  | Ok e' => ok ∧ admits e ns ∧ advances e e' ns
  | Err _ => ¬ (ok ∧ admits e ns)
  | Gas _ => False
  end.

Lemma advances_refl e s : advances e (push_str s e) ∅.
Proof. split_and!; auto. intros _. cbn. set_solver. Qed.

Lemma advances_trans e1 e2 e3 ns ns' :
  advances e1 e2 ns → advances e2 e3 ns' → advances e1 e3 (ns ∪ ns').
Proof.
  intros (A1 & A2 & A3 & A4) (B1 & B2 & B3 & B4). split_and!.
  - congruence.
  - intros H. rewrite B2, A2 by congruence. done.
  - intros H. rewrite B3, A3 by congruence. set_solver.
  - auto.
Qed.

Lemma admits_advances e e' ns ns' : advances e e' ns → admits e' ns' ↔ admits e ns'.
Proof.
  intros (E & H1 & _). unfold admits. rewrite E. destruct (in_statement e); [tauto|].
  by rewrite H1.
Qed.

Lemma admits_union e ns ns' : admits e (ns ∪ ns') ↔ admits e ns ∧ admits e ns'.
Proof. unfold admits. destruct (in_statement e); [tauto|]. set_solver. Qed.

Lemma steps_push e s : steps (Ok (push_str s e)) e True ∅.
Proof.
  split_and!; [done| |apply advances_refl]. right. set_solver.
Qed.

(** Only the numbering and the phase of the encoder matter. *)
Lemma steps_same m e e' ok ns :
  steps m e ok ns → levels e = levels e' → in_statement e = in_statement e' →
  steps m e' ok ns.
Proof. unfold steps, admits, advances. intros H E1 E2. by rewrite E1, E2 in H. Qed.

Ltac step H := eapply steps_same; [apply H|reflexivity|reflexivity].

Lemma steps_bind m f e ok ns ok' ns' :
  steps m e ok ns →
  (∀ e', in_statement e' = in_statement e → advances e e' ns → steps (f e') e' ok' ns') →
  steps (m ≫= f) e (ok ∧ ok') (ns ∪ ns').
Proof.
  intros Hm Hf. destruct m as [e1|err|k]; cbn [mbind outcome_bind]; [| |done].
  - destruct Hm as (Hok & Ha & Hadv). specialize (Hf e1 (proj1 Hadv) Hadv).
    unfold steps in *. destruct (f e1) as [e2|err|k]; [|rewrite admits_union|done].
    + destruct Hf as (? & Ha' & ?). rewrite (admits_advances _ _ _ _ Hadv) in Ha'.
      rewrite admits_union. split_and!; auto. by eapply advances_trans.
    + rewrite (admits_advances _ _ _ _ Hadv) in Hf. tauto.
  - unfold steps in *. rewrite admits_union. tauto.
Qed.

Lemma steps_iff m e ok ns ok' ns' :
  steps m e ok ns → (ok ↔ ok') → ns = ns' → steps m e ok' ns'.
Proof. unfold steps. intros H Hok ->. destruct m; naive_solver. Qed.

Lemma dense_insert m n : dense m → m !! n = None → dense (<[n := size m]> m).
Proof.
  intros [H1 H2] Hn. assert (size (<[n := size m]> m) = S (size m)) as Hs.
  { by apply map_size_insert_None. }
  split.
  - intros n' i. rewrite Hs. intros [[<- <-]|[_ H]]%lookup_insert_Some; [lia|].
    apply H1 in H. lia.
  - intros a b i [[<- <-]|[? Ha]]%lookup_insert_Some [[<- Hb]|[? Hb]]%lookup_insert_Some;
      try done; try (apply H1 in Hb; lia); try (apply H1 in Ha; lia).
    by eapply H2.
Qed.

Lemma steps_level l e : steps (encode_level l e) e True (level_names l).
Proof.
  revert e. induction l as [n|name|l IH|a IHa b IHb|l IH n]; intros e; cbn [encode_level level_names].
  - apply steps_push.
  - unfold steps, admits. destruct (in_statement e) eqn:Es.
    + destruct (levels e !! name) as [i|] eqn:El; (split_and!; [done|by left|]).
      * split_and!; [done|done| |done]. intros _. apply elem_of_dom_2 in El. cbn. set_solver.
      * split_and!; [done|congruence| |intros H; cbn; by apply dense_insert].
        intros _. cbn. rewrite dom_insert_L. set_solver.
    + destruct (levels e !! name) as [i|] eqn:El; cbn [ok_or mbind outcome_bind].
      * split_and!; [done|right|]; [apply elem_of_dom_2 in El; set_solver|].
        split_and!; try done. by rewrite Es.
      * intros [_ [|H]]; [done|]. apply not_elem_of_dom in El. set_solver.
  - eapply steps_iff; [eapply (steps_bind _ _ e _ _ True ∅);
      [step IH|intros; step steps_push]|tauto|set_solver].
  - eapply steps_iff; [eapply (steps_bind _ _ e);
      [step IHa|intros; eapply (steps_bind _ _ _ _ _ True ∅);
        [step IHb|intros; step steps_push]]|tauto|set_solver].
  - eapply steps_iff; [eapply (steps_bind _ _ e _ _ True ∅);
      [step IH|intros; step steps_push]|tauto|set_solver].
Qed.

Lemma steps_fail e s (P : Prop) ns : ¬ P → steps (Err s) e P ns.
Proof. intros H. cbn. tauto. Qed.

Lemma steps_case m e ok ns : steps m (push_str "(" e) ok ns →
  steps (e ← m; Ok (push_str ")" e)) e ok ns.
Proof.
  intros H. eapply steps_iff; [eapply (steps_bind _ _ e _ _ True ∅);
    [step H|intros; step steps_push]|tauto|set_solver].
Qed.

(** What the encoder needs of a term under [d] binders. *)
Definition encodable (d : nat) (t : Term) : Prop := fragment t = true ∧ scoped d t.

Lemma steps_binder a b d e op cl :
  (∀ d e, steps (encode_term a d e) e (encodable d a) (term_names a)) →
  (∀ d e, steps (encode_term b d e) e (encodable d b) (term_names b)) →
  steps (encode_binder encode_term op cl a b d e) e (encodable d a ∧ encodable (d + 1) b)
    (term_names a ∪ term_names b).
Proof. intros Ha Hb. eapply (steps_bind _ _ e); [step Ha|intros; step Hb]. Qed.

Lemma encodable_children d t :
  (∀ i, t ≠ Var i) →
  encodable d t ↔ fragment t = true ∧ Forall (λ c, scoped (d + c.2) c.1) (children t).
Proof. intros Hv. unfold encodable. by rewrite scoped_children. Qed.

Ltac close_steps :=
  etrans; [|symmetry; apply encodable_children; done]; cbn [fragment children];
  rewrite ?Forall_cons, ?Forall_nil, ?andb_true_iff; cbn [fst snd]; rewrite ?Nat.add_0_r;
  unfold encodable; tauto.

Lemma steps_term t d e : steps (encode_term t d e) e (encodable d t) (term_names t).
Proof.
  revert d e.
  induction t as [name l ixs cs|c k args|s m cases|v IHv b IHb|i|l|a IHa b IHb|a IHa b IHb
    |f IHf x IHx|a IHa b IHb|a IHa b IHb|p IHp|p IHp|A IHA x IHx y IHy|x IHx
    |m IHm b IHb s IHs|m IHm b IHb s IHs|A IHA x IHx y IHy p IHp];
    intros d e; cbn [encode_term term_names]; apply steps_case.
  - apply steps_fail. by intros [? _].
  - apply steps_fail. by intros [? _].
  - apply steps_fail. by intros [? _].
  - eapply steps_iff; [eapply (steps_bind _ _ e); [step IHv|intros; step IHb]| |done].
    close_steps.
  - destruct (checked_sub d (i + 1)) as [n|] eqn:E; cbn [ok_or mbind outcome_bind].
    + apply checked_sub_Some in E. eapply steps_iff; [apply steps_push|split; [|done]|done].
      intros _. split; [done|]. apply scoped_var. lia.
    + apply steps_fail. intros [_ H%scoped_var]. rewrite checked_sub_le in E by lia. done.
  - eapply steps_iff; [step steps_level| |done]. close_steps.
  - eapply steps_iff; [step steps_binder; eassumption| |done]. close_steps.
  - eapply steps_iff; [step steps_binder; eassumption| |done]. close_steps.
  - eapply steps_iff; [eapply (steps_bind _ _ e); [step IHf|intros; step IHx]| |done].
    close_steps.
  - eapply steps_iff; [eapply (steps_bind _ _ e _ _ True ∅);
      [step steps_binder; eassumption|intros; step steps_push]| |set_solver]. close_steps.
  - eapply steps_iff; [eapply (steps_bind _ _ e); [step IHa|intros;
      eapply (steps_bind _ _ _ _ _ True ∅); [step IHb|intros; step steps_push]]| |set_solver].
    close_steps.
  - eapply steps_iff; [eapply (steps_bind _ _ e _ _ True ∅);
      [step IHp|intros; step steps_push]| |set_solver]. close_steps.
  - eapply steps_iff; [eapply (steps_bind _ _ e _ _ True ∅);
      [step IHp|intros; step steps_push]| |set_solver]. close_steps.
  - eapply steps_iff; [eapply (steps_bind _ _ e); [step IHA|intros;
      eapply steps_bind; [step IHx|intros; step IHy]]| |set_solver]. close_steps.
  - eapply steps_iff; [eapply (steps_bind _ _ e _ _ True ∅);
      [step IHx|intros; step steps_push]| |set_solver]. close_steps.
  - eapply steps_iff; [eapply (steps_bind _ _ e); [step IHm|intros;
      eapply steps_bind; [step IHb|intros; step IHs]]| |set_solver]. close_steps.
  - eapply steps_iff; [eapply (steps_bind _ _ e); [step IHm|intros;
      eapply steps_bind; [step IHb|intros; step IHs]]| |set_solver]. close_steps.
  - apply steps_fail. by intros [? _].
Qed.

(** ** Renaming universes *)
Section rename.
Context (ρ : string → string) `{!Inj (=) (=) ρ}.

Fixpoint rename_level (l : Level) : Level :=
  match l with
  | Level.Concrete n => Level.Concrete n
  | Level.Var name => Level.Var (ρ name)
  | Level.Succ a => Level.Succ (rename_level a)
  | Level.Max a b => Level.Max (rename_level a) (rename_level b)
  | Level.Offset a n => Level.Offset (rename_level a) n
  end.

Definition rename_node (t : Term) : Term :=
  match t with
  | Universe l => Universe (rename_level l)
  | Data name l ixs cs => Data name (rename_level l) ixs cs
  | t => t
  end.

Fixpoint rename_term (t : Term) : Term :=
  rename_node (map_children (λ c _, rename_term c) t).

Definition rename_encoder (e : Encoder) : Encoder :=
  Enc (kmap ρ (levels e)) (in_statement e) (out e).

Definition rename_encoded (m : encoded) : encoded :=
  match m with Ok e => Ok (rename_encoder e) | Err s => Err s | Gas k => Gas k end.

(** An encoding step that commutes with the renaming. *)
Definition commutes (f g : Encoder → encoded) : Prop :=
  ∀ e, g (rename_encoder e) = rename_encoded (f e).

Lemma rename_bind (m m' : encoded) f g :
  m' = rename_encoded m → commutes f g →
  (m' ≫= g) = rename_encoded (m ≫= f).
Proof. intros -> H. destruct m; cbn; auto. Qed.

Lemma size_kmap (m : gmap string nat) : size (kmap ρ m : gmap string nat) = size m.
Proof using Inj0. by rewrite <- !length_map_to_list, (map_to_list_kmap ρ), length_fmap. Qed.

Lemma rename_push s e : push_str s (rename_encoder e) = rename_encoder (push_str s e).
Proof. done. Qed.

Lemma commutes_level l : commutes (encode_level l) (encode_level (rename_level l)).
Proof using Inj0.
  induction l as [n|name|l IH|a IHa b IHb|l IH n]; intros e; cbn [encode_level rename_level].
  - done.
  - cbn [rename_encoder in_statement levels]. rewrite lookup_kmap by done.
    rewrite size_kmap. destruct (in_statement e).
    + destruct (levels e !! name) as [i|]; [done|]. unfold rename_encoded, rename_encoder, push_str.
      cbn. by rewrite kmap_insert.
    + by destruct (levels e !! name).
  - rewrite rename_push. apply rename_bind; [apply IH|done].
  - rewrite rename_push. apply rename_bind; [apply IHa|]. intros e'.
    rewrite rename_push. apply rename_bind; [apply IHb|done].
  - rewrite rename_push. apply rename_bind; [apply IH|done].
Qed.

Lemma commutes_binder a b d op cl :
  (∀ d, commutes (encode_term a d) (encode_term (rename_term a) d)) →
  (∀ d, commutes (encode_term b d) (encode_term (rename_term b) d)) →
  commutes (encode_binder encode_term op cl a b d)
    (encode_binder encode_term op cl (rename_term a) (rename_term b) d).
Proof.
  intros Ha Hb e. unfold encode_binder. rewrite rename_push. apply rename_bind; [apply Ha|].
  intros e'. rewrite rename_push. apply Hb.
Qed.

Ltac commute := repeat first
  [ done | rewrite !rename_push | apply commutes_level
  | match goal with H : ∀ d, commutes _ _ |- _ => apply H end
  | apply commutes_binder | apply rename_bind; [|intros ?] ].

Lemma commutes_term t d : commutes (encode_term t d) (encode_term (rename_term t) d).
Proof using Inj0.
  revert d.
  induction t as [name l ixs cs|c k args|s m cases|v IHv b IHb|i|l|a IHa b IHb|a IHa b IHb
    |f IHf x IHx|a IHa b IHb|a IHa b IHb|p IHp|p IHp|A IHA x IHx y IHy|x IHx
    |m IHm b IHb s IHs|m IHm b IHb s IHs|A IHA x IHx y IHy p IHp];
    intros d e; cbn [encode_term rename_term map_children rename_node];
    apply rename_bind; try done; commute.
  destruct (checked_sub d (i + 1)); done.
Qed.
End rename.

Definition rename_judgment (ρ : string → string) (j : Judgment) : Judgment :=
  Judge (profile j) (rename_term ρ (statement j))
    (Cert (rename_term ρ (term (certificate j))) (rename_term ρ (claimed_type (certificate j)))
      (metadata (certificate j))).

(** ** Properties *)

(** The exporter succeeds on exactly one fragment and never half-way: it
    writes a file if and only if the statement and the proof use neither
    function extensionality nor inductive declarations, are closed, and every
    universe name of the proof occurs in the statement.  Outside it, the export
    is refused. *)
Theorem export_exact j :
  (∃ s, judgment_source j = Ok s) ↔
  (fragment (statement j) = true ∧ scoped 0 (statement j)) ∧
  (fragment (term (certificate j)) = true ∧ scoped 0 (term (certificate j))) ∧
  term_names (term (certificate j)) ⊆ term_names (statement j).
Proof.
  unfold judgment_source.
  pose proof (steps_term (statement j) 0 (Enc ∅ true EmptyString)) as H1.
  destruct (encode_term (statement j) 0 (Enc ∅ true EmptyString)) as [e|err|k]; [| |done].
  2: { split; [by intros [? ?]|]. intros (H & _). destruct H1. split; [exact H|by left]. }
  destruct H1 as (Hs & _ & (_ & _ & Hdom & _)). specialize (Hdom eq_refl). cbn in Hdom.
  cbn [mbind outcome_bind].
  pose proof (steps_term (term (certificate j)) 0 (Enc (levels e) false EmptyString)) as H2.
  assert (admits (Enc (levels e) false EmptyString) (term_names (term (certificate j))) ↔
    term_names (term (certificate j)) ⊆ term_names (statement j)) as Hadm.
  { unfold admits. cbn. rewrite Hdom, dom_empty_L. set_solver. }
  destruct (encode_term _ _ (Enc (levels e) false EmptyString)) as [e'|err|k]; [| |done].
  - destruct H2 as (Ht & Ha & _). rewrite Hadm in Ha. split; [|by eexists].
    intros _. done.
  - split; [by intros [? ?]|]. intros (_ & Ht & Hn). destruct H2. by rewrite Hadm.
Qed.

(** The exporter numbers the universes of the statement densely: after the
    statement is encoded, its names carry distinct numbers, exactly those below
    the count that the emitted universe declaration declares, and encoding the
    proof changes none of them. *)
Theorem export_numbers_densely t p e e' :
  encode_term t 0 (Enc ∅ true EmptyString) = Ok e →
  encode_term p 0 (Enc (levels e) false EmptyString) = Ok e' →
  dom (levels e') = term_names t ∧ dense (levels e') ∧ levels e' = levels e.
Proof.
  intros Ht Hp. pose proof (steps_term t 0 (Enc ∅ true EmptyString)) as H1.
  pose proof (steps_term p 0 (Enc (levels e) false EmptyString)) as H2.
  rewrite Ht in H1. rewrite Hp in H2. destruct H1 as (_ & _ & (_ & _ & Hdom & Hd)).
  destruct H2 as (_ & _ & (_ & Hl & _ & _)). cbn in Hl. rewrite (Hl eq_refl).
  split_and!; [rewrite (Hdom eq_refl); cbn; set_solver| |done].
  apply Hd. split; intros *; cbn; rewrite lookup_empty; done.
Qed.

(** No universe name of a judgment reaches the exported file: consistently
    renaming them, in the statement and the proof, gives the same text, and the
    same refusal when the export fails. *)
Theorem export_alpha_invariant (ρ : string → string) j :
  Inj (=) (=) ρ →
  judgment_source (rename_judgment ρ j) = judgment_source j.
Proof.
  intros Hinj. unfold judgment_source. cbn [statement certificate term rename_judgment].
  assert (Enc ∅ true EmptyString = rename_encoder ρ (Enc ∅ true EmptyString)) as E0.
  { unfold rename_encoder. cbn. by rewrite (kmap_empty ρ). }
  rewrite E0 at 1. rewrite (commutes_term ρ (statement j) 0).
  destruct (encode_term (statement j) 0 (Enc ∅ true EmptyString)) as [e|err|k]; [|done|done].
  cbn [rename_encoded mbind outcome_bind].
  change (Enc (levels (rename_encoder ρ e)) false EmptyString)
    with (rename_encoder ρ (Enc (levels e) false EmptyString)).
  rewrite (commutes_term ρ (term (certificate j)) 0).
  destruct (encode_term (term (certificate j)) 0 (Enc (levels e) false EmptyString))
    as [e'|err|k]; [|done|done].
  cbn [rename_encoded mbind outcome_bind]. by rewrite (size_kmap ρ (levels e') : size (levels (rename_encoder ρ e')) = _).
Qed.

(** ** Witnesses *)
Lemma export_numbers_densely_witness :
  ∃ e e', dom (levels e') = term_names (statement demo_judgment) ∧ dense (levels e') ∧
    levels e' = levels e.
Proof.
  do 2 eexists.
  eapply (export_numbers_densely (statement demo_judgment)
    (term (certificate demo_judgment))); vm_compute; reflexivity.
Defined.

Lemma export_alpha_invariant_witness :
  judgment_source (rename_judgment (String (Ascii.ascii_of_nat 39)) demo_judgment) =
  judgment_source demo_judgment.
Proof.
  apply (export_alpha_invariant (String (Ascii.ascii_of_nat 39)) demo_judgment).
  intros s s' H. injection H as ->. reflexivity.
Defined.
