(* ===== verification/Process.v ===== *)
(** * The isolated worker and its supervisor

    [verum_proof/src/process.rs]: the supervisor computes the limits a worker
    inherits, runs it under a wall-clock and a memory budget by polling, reads
    a bounded response and validates the report in it; the worker installs the
    same limits before it reads its input.  The operating system is a
    parameter: [rlimit] are the inherited soft and hard limits, a run of the
    worker is what the supervisor observes at each poll.  The child is
    killed and waited for when [Running] is dropped.  Serialization is a
    third-party library, given as [serialize] and [deserialize]. *)
From S2P Require Import Prelude Nbe NbeChecker Levels Syntax Context Conversion Checker Admission AdmissionFacts Replay.
From Stdlib Require Import Strings.Byte.

Open Scope verum_scope.

Record WorkerFailure : Type := Failed {
  failed_outcome : ReplayOutcome;
  failed_diagnostic : Diagnostic
}.

Definition failure (outcome : ReplayOutcome) (code message : string) : WorkerFailure :=
  Failed outcome (Diagnose code "process" message).

Definition inconclusive (code message : string) : WorkerFailure :=
  failure Inconclusive code message.

Definition exhausted (code message : string) : WorkerFailure :=
  failure ResourceExhausted code message.

Definition with_worker (r : Report) (receipt : WorkerReceipt) : Report :=
  MkReport (report_profile r) (checker r) (accepted r) (report_outcome r) (limits r)
    (Some receipt) (diagnostic r).

Definition failure_report (identity : string) (f : Foundation) (l : ReplayLimits)
    (e : WorkerFailure) : Report :=
  with_worker
    (refusal identity f (admission l) (failed_outcome e) (stage (failed_diagnostic e))
       (code (failed_diagnostic e)) (message (failed_diagnostic e)))
    (Receipt l None).

#[export] Instance admission_limits_eq_dec : EqDecision AdmissionLimits.
Proof. solve_decision. Defined.
#[export] Instance process_limits_eq_dec : EqDecision ProcessLimits.
Proof. solve_decision. Defined.
#[export] Instance replay_limits_eq_dec : EqDecision ReplayLimits.
Proof. solve_decision. Defined.
#[export] Instance installed_limits_eq_dec : EqDecision InstalledLimits.
Proof. solve_decision. Defined.

(** ** Inherited limits *)
Inductive Resource := RLIMIT_CPU | RLIMIT_AS | RLIMIT_STACK | RLIMIT_FSIZE.

(** [getrlimit]: the soft and the hard limit, or an error. *)
Definition Rlimits := Resource → option (N * N).

Definition bound (rlimit : Rlimits) (r : Resource) (requested : N) : option N :=
  '(soft, hard) ← rlimit r; Some (N.min (N.min requested hard) soft).

(** On a Unix system other than macOS. *)
Definition effective_limits (rlimit : Rlimits) (l : ProcessLimits) : option InstalledLimits :=
  cpu ← bound rlimit RLIMIT_CPU (cpu_seconds l);
  space ← bound rlimit RLIMIT_AS (memory_bytes l);
  stack ← bound rlimit RLIMIT_STACK (stack_bytes l);
  output ← bound rlimit RLIMIT_FSIZE (output_bytes l);
  Some (Installed cpu (Some space) stack output).

(** The limits the worker sets: soft and hard alike. *)
Definition limited (i : InstalledLimits) : Rlimits := λ r,
  match r with
  | RLIMIT_CPU => Some (installed_cpu_seconds i, installed_cpu_seconds i)
  | RLIMIT_AS => (λ n, (n, n)) <$> address_space_bytes i
  | RLIMIT_STACK => Some (installed_stack_bytes i, installed_stack_bytes i)
  | RLIMIT_FSIZE => Some (installed_output_bytes i, installed_output_bytes i)
  end.

(** [install_limits]: the receipt and the limits in force afterwards.  Setting
    a limit can fail. *)
Definition install_limits (rlimit : Rlimits) (setrlimit_ok : bool) (l : ProcessLimits)
    : option (InstalledLimits * Rlimits) :=
  installed ← effective_limits rlimit l;
  if setrlimit_ok then Some (installed, limited installed) else None.

(** ** One run of a worker *)
Inductive ExitStatus := ExitSuccess | SIGXCPU | SIGXFSZ | ExitOther.

(** What the supervisor sees in one iteration of its loop: the elapsed time
    before and after it polls the child, the result of the poll ([None] when
    the poll fails) and the resident memory, if the process is found. *)
Record Observation : Type := Observe {
  elapsed : N;
  polled : option (option ExitStatus);
  elapsed_after : N;
  resident : option N
}.

Definition wall_limit : WorkerFailure :=
  exhausted "wall_limit" "The isolated checker exhausted its wall-clock budget.".

Definition worker_unavailable : WorkerFailure :=
  inconclusive "worker_unavailable"
    "The isolated checker could not be started or its response could not be read.".

Definition output_limit (message : string) : WorkerFailure := exhausted "output_limit" message.

Definition exit_failure (s : ExitStatus) : WorkerFailure :=
  match s with
  | SIGXCPU => exhausted "cpu_limit" "The worker exhausted its CPU budget."
  | SIGXFSZ => output_limit "The worker exhausted its output budget."
  | _ => inconclusive "worker_failed"
           "The isolated checker exited without a valid result; a resource limit or runtime failure may have interrupted it."
  end.

(** The child as the operating system has it: running, or gone but not waited
    for; sent a signal it cannot catch; waited for. *)
Inductive Child := Unreaped | Killed | Reaped.

(** [Child::kill] does nothing to a child that was waited for. *)
Definition kill (c : Child) : Child :=
  match c with Reaped => Reaped | Unreaped | Killed => Killed end.

(** [Child::wait]; a child that nothing makes exit can block it. *)
Definition wait (c : Child) : option Child :=
  match c with Unreaped => None | Killed | Reaped => Some Reaped end.

(** The polling loop.  The list is what will be observed, iteration by
    iteration; when it ends the worker is still running. *)
Fixpoint supervise (l : ProcessLimits) (run : list Observation)
    : outcome WorkerFailure unit * Child :=
  match run with
  | [] => (Gas TraversalGas, Unreaped)
  | o :: run =>
      if (wall_time_ms l <=? elapsed o)%N then (Err wall_limit, Unreaped) else
      match polled o with
      | None => (Err worker_unavailable, Unreaped)
      | Some (Some ExitSuccess) =>
          (if (wall_time_ms l <=? elapsed_after o)%N then Err wall_limit else Ok tt, Reaped)
      | Some (Some status) => (Err (exit_failure status), Reaped)
      | Some None =>
          match resident o with
          | Some m =>
              if (memory_bytes l <? m)%N
              then (Err (exhausted "memory_limit"
                     "The isolated checker exceeded its resident-memory termination threshold."),
                    Unreaped)
              else supervise l run
          | None => supervise l run
          end
      end
  end.

(** A worker that can be spawned shows a run and leaves an output file; reading
    the file can fail. *)
Record Launch : Type := Launched {
  observations : list Observation;
  output_file : option (list byte)
}.

(** [Running::drop], on every way out of the closure that owns the child. *)
Definition drop_running (result : outcome WorkerFailure (list byte)) (child : Child)
    : outcome WorkerFailure (list byte) * option Child :=
  match wait (kill child) with
  | Some child => (result, Some child)
  | None => (Gas TraversalGas, Some child)
  end.

Definition read_response (file : option (list byte)) (l : ProcessLimits)
    : outcome WorkerFailure (list byte) :=
  file ← ok_or file worker_unavailable;
  let response := take (N.to_nat (output_bytes l + 1)) file in
  if (output_bytes l <? N.of_nat (length response))%N
  then Err (output_limit "The worker exceeded its output budget.")
  else Ok response.

(** The response, and what has become of the child, if one was spawned. *)
Definition run_worker_command (launch : option Launch) (bytes : list byte) (l : ReplayLimits)
    : outcome WorkerFailure (list byte) * option Child :=
  if (max_bytes (admission l) <? N.of_nat (length bytes))%N then
    (Err (exhausted "byte_limit" "Proof input exceeds the input byte budget."), None)
  else if (wall_time_ms (process l) =? 0)%N then (Err wall_limit, None)
  else
    match launch with
    | None => (Err worker_unavailable, None)
    | Some launch =>
        match supervise (process l) (observations launch) with
        | (Gas k, child) => (Gas k, Some child)
        | (Err e, child) => drop_running (Err e) child
        | (Ok _, child) => drop_running (read_response (output_file launch) (process l)) child
        end
    end.

Section process.
Context (serialize : Report → list byte) (deserialize : list byte → option Report).
Context (identity : string).

Definition receipt_matches (l : ReplayLimits) (expected : InstalledLimits) (r : Report)
    : bool :=
  match worker r with
  | Some receipt =>
      bool_decide (requested receipt = l) &&
      match installed receipt with
      | Some i => bool_decide (i = expected)
      | None =>
          bool_decide (report_outcome r = Inconclusive) &&
          match diagnostic r with
          | Some d => String.eqb (stage d) "process" && String.eqb (code d) "sandbox_unavailable"
          | None => false
          end
      end
  | None => false
  end.

Definition validate_worker_report (response : list byte) (f : Foundation) (l : ReplayLimits)
    (expected : InstalledLimits) : outcome WorkerFailure Report :=
  report ← ok_or (deserialize response)
    (inconclusive "worker_protocol" "The worker returned an invalid response.");
  if negb (String.eqb (report_profile report) (profile_for f)) ||
     negb (String.eqb (checker report) identity) ||
     negb (bool_decide (limits report = admission l)) ||
     negb (is_consistent report) || negb (receipt_matches l expected report)
  then Err (inconclusive "worker_protocol"
         "The worker returned a different checker, foundation, resource policy or inconsistent outcome.")
  else Ok report.

(** The supervisor, [replay_with_limits] of the process API. *)
Definition supervised_replay (rlimit : Rlimits) (launch : option Launch)
    (bytes : list byte) (f : Foundation) (l : ReplayLimits) : outcome WorkerFailure Report :=
  if negb (replay_is_valid l) then
    Ok (failure_report identity f l
      (inconclusive "invalid_limits" "The resource policy cannot be represented safely."))
  else
    match effective_limits rlimit (process l) with
    | None =>
        Ok (failure_report identity f l (inconclusive "sandbox_unavailable"
          "The supervisor could not determine the worker's inherited limits."))
    | Some expected =>
        match (response ← (run_worker_command launch bytes l).1;
               validate_worker_report response f l expected) with
        | Ok report => Ok report
        | Err e => Ok (failure_report identity f l e)
        | Gas k => Gas k
        end
    end.

(** The worker, over the in-process replay of [Replay] and the bytes that
    arrive on its input; it reads at most one byte more than the budget. *)
Definition worker_with_limits (replay : list byte → Foundation → AdmissionLimits → Report)
    (rlimit : Rlimits) (setrlimit_ok : bool) (input : list byte) (f : Foundation)
    (l : ReplayLimits) : list byte :=
  let '(report, installed) :=
    if negb (replay_is_valid l) then
      (failure_report identity f l
         (inconclusive "invalid_limits" "The resource policy cannot be represented safely."),
       None)
    else
      match install_limits rlimit setrlimit_ok (process l) with
      | Some (actual, _) =>
          let bytes := take (N.to_nat (default 0%N (read_limit (admission l)))) input in
          (replay bytes f (admission l), Some actual)
      | None =>
          (failure_report identity f l (inconclusive "sandbox_unavailable"
             "The worker could not install its required process limits."), None)
      end in
  serialize (with_worker report (Receipt l installed)).
End process.

(** ** Facts *)
Lemma effective_limits_Some rlimit l i :
  effective_limits rlimit l = Some i ↔
  ∃ cs ch ms mh ss sh os oh,
    rlimit RLIMIT_CPU = Some (cs, ch) ∧ rlimit RLIMIT_AS = Some (ms, mh) ∧
    rlimit RLIMIT_STACK = Some (ss, sh) ∧ rlimit RLIMIT_FSIZE = Some (os, oh) ∧
    i = Installed (N.min (N.min (cpu_seconds l) ch) cs)
          (Some (N.min (N.min (memory_bytes l) mh) ms))
          (N.min (N.min (stack_bytes l) sh) ss) (N.min (N.min (output_bytes l) oh) os).
Proof.
  unfold effective_limits, bound. split.
  - destruct (rlimit RLIMIT_CPU) as [[cs ch]|]; [|done].
    destruct (rlimit RLIMIT_AS) as [[ms mh]|]; [|done].
    destruct (rlimit RLIMIT_STACK) as [[ss sh]|]; [|done].
    destruct (rlimit RLIMIT_FSIZE) as [[os oh]|]; [|done].
    intros [= <-]. repeat eexists.
  - intros (cs & ch & ms & mh & ss & sh & os & oh & -> & -> & -> & -> & ->). done.
Qed.

(** A poll at which the worker keeps running. *)
Definition keeps_running (l : ProcessLimits) (o : Observation) : Prop :=
  (elapsed o < wall_time_ms l)%N ∧ polled o = Some None ∧
  ∀ m, resident o = Some m → (m <= memory_bytes l)%N.

Lemma supervise_running l pre run :
  Forall (keeps_running l) pre → supervise l (pre ++ run) = supervise l run.
Proof.
  induction 1 as [|o pre (He & Hp & Hm) _ IH]; [done|]. cbn [app supervise].
  destruct (N.leb_spec (wall_time_ms l) (elapsed o)); [lia|]. rewrite Hp.
  destruct (resident o) as [m|]; [|done].
  destruct (N.ltb_spec (memory_bytes l) m); [|done]. specialize (Hm m eq_refl). lia.
Qed.

Lemma supervise_Ok l run child :
  supervise l run = (Ok tt, child) ↔
  child = Reaped ∧
  ∃ pre o post, run = pre ++ o :: post ∧ Forall (keeps_running l) pre ∧
    polled o = Some (Some ExitSuccess) ∧ (elapsed o < wall_time_ms l)%N ∧
    (elapsed_after o < wall_time_ms l)%N.
Proof.
  split.
  - induction run as [|o run IH]; [done|]. cbn [supervise].
    destruct (N.leb_spec (wall_time_ms l) (elapsed o)) as [|He]; [done|].
    destruct (polled o) as [[[]|]|] eqn:Hp; try done.
    + destruct (N.leb_spec (wall_time_ms l) (elapsed_after o)); [done|]. intros [= <-].
      split; [done|]. exists [], o, run. done.
    + intros H.
      assert (supervise l run = (Ok tt, child) ∧ keeps_running l o) as [Hs Hk].
      { unfold keeps_running. destruct (resident o) as [m|]; [|split_and!; naive_solver].
        destruct (N.ltb_spec (memory_bytes l) m); [done|]. split_and!; try done.
        by intros ? [= <-]. }
      destruct (IH Hs) as (-> & pre & o' & post & -> & Hpre & Hrest).
      split; [done|]. exists (o :: pre), o', post. split_and!; try apply Hrest; [done|by constructor].
  - intros (-> & pre & o & post & -> & Hpre & Hp & He & Ha). rewrite supervise_running by done.
    cbn [supervise]. rewrite Hp. destruct (N.leb_spec (wall_time_ms l) (elapsed o)); [lia|].
    by destruct (N.leb_spec (wall_time_ms l) (elapsed_after o)); [lia|].
Qed.

(** The loop leaves when the budget is over, if it has not left before. *)
Lemma supervise_deadline l run o post :
  (wall_time_ms l <= elapsed o)%N →
  (∀ k, (supervise l (run ++ o :: post)).1 ≠ Gas k) ∧
  (Forall (keeps_running l) run → (supervise l (run ++ o :: post)).1 = Err wall_limit).
Proof.
  intros Ho. split.
  - intros k. induction run as [|p run IH]; cbn [app supervise].
    + by destruct (N.leb_spec (wall_time_ms l) (elapsed o)); [|lia].
    + destruct (_ <=? _)%N; [done|]. destruct (polled p) as [[[]|]|]; try done.
      * cbn [fst]. by destruct (_ <=? _)%N.
      * destruct (resident p) as [m|]; [|done]. by destruct (_ <? _)%N.
  - intros Hrun. rewrite supervise_running by done. cbn [supervise].
    by destruct (N.leb_spec (wall_time_ms l) (elapsed o)); [|lia].
Qed.

(** Failures of a run are operational. *)
Definition operational (o : ReplayOutcome) : Prop := o = Inconclusive ∨ o = ResourceExhausted.

Lemma supervise_failure l run e child :
  supervise l run = (Err e, child) → operational (failed_outcome e).
Proof.
  unfold operational. induction run as [|o run IH]; [done|]. cbn [supervise].
  destruct (_ <=? _)%N; [intros [= <- _]; by right|].
  destruct (polled o) as [[[]|]|].
  - destruct (_ <=? _)%N; [intros [= <- _]; by right|done].
  - intros [= <- _]. by right.
  - intros [= <- _]. by right.
  - intros [= <- _]. by left.
  - destruct (resident o) as [m|]; [|done]. destruct (_ <? _)%N; [|done].
    intros [= <- _]. by right.
  - intros [= <- _]. by left.
Qed.

(** A child that is dropped is gone, however it was left. *)
Lemma drop_running_reaped result child : drop_running result child = (result, Some Reaped).
Proof. by destruct child. Qed.

Lemma read_response_Ok file l response :
  read_response file l = Ok response ↔
  file = Some response ∧ (N.of_nat (length response) <= output_bytes l)%N.
Proof.
  unfold read_response. split.
  - intros (f & ->%ok_or_Ok & H)%bind_Ok. cbv zeta in H.
    destruct (N.ltb_spec (output_bytes l)
      (N.of_nat (length (take (N.to_nat (output_bytes l + 1)) f)))) as [|Hlen]; [done|].
    rewrite length_take in Hlen. injection H as <-. rewrite take_ge by lia. split; [done|lia].
  - intros (-> & Hr). cbn [ok_or mbind outcome_bind]. rewrite take_ge by lia.
    by destruct (N.ltb_spec (output_bytes l) (N.of_nat (length response))); [lia|].
Qed.

Lemma run_worker_failure launch bytes l e :
  (run_worker_command launch bytes l).1 = Err e → operational (failed_outcome e).
Proof.
  unfold run_worker_command, operational. destruct (_ <? _)%N; [intros [= <-]; by right|].
  destruct (_ =? _)%N; [intros [= <-]; by right|].
  destruct launch as [la|]; [|intros [= <-]; by left].
  destruct (supervise _ _) as [[[]|e'|k] child] eqn:Hs; rewrite ?drop_running_reaped; cbn [fst].
  - intros [H|(file & _ & H)]%bind_Err; [apply ok_or_Err in H as [-> _]; by left|].
    revert H. cbv zeta. destruct (_ <? _)%N; [|done]. intros [= <-]. by right.
  - intros [= <-]. by eapply supervise_failure.
  - done.
Qed.

Lemma run_worker_Ok launch bytes l response :
  (run_worker_command launch bytes l).1 = Ok response ↔
  ∃ run, launch = Some (Launched run (Some response)) ∧
    supervise (process l) run = (Ok tt, Reaped) ∧
    (N.of_nat (length bytes) <= max_bytes (admission l))%N ∧ wall_time_ms (process l) ≠ 0%N ∧
    (N.of_nat (length response) <= output_bytes (process l))%N.
Proof.
  unfold run_worker_command. split.
  - destruct (N.ltb_spec (max_bytes (admission l)) (N.of_nat (length bytes))); [done|].
    destruct (N.eqb_spec (wall_time_ms (process l)) 0); [done|].
    destruct launch as [[run file]|]; [|done]. cbn [observations output_file].
    destruct (supervise _ _) as [[[]|e'|k] child] eqn:Hs; rewrite ?drop_running_reaped;
      cbn [fst]; [|done..].
    intros [-> Hlen]%read_response_Ok. exists run.
    pose proof (proj1 (proj1 (supervise_Ok _ _ _) Hs)) as ->. done.
  - intros (run & -> & Hs & Hb & Hw & Hr).
    destruct (N.ltb_spec (max_bytes (admission l)) (N.of_nat (length bytes))); [lia|].
    destruct (N.eqb_spec (wall_time_ms (process l)) 0); [done|].
    cbn [observations output_file]. rewrite Hs, drop_running_reaped. cbn [fst].
    by apply read_response_Ok.
Qed.

(** When the command returns, the child is gone. *)
Lemma run_worker_child launch bytes l result child :
  run_worker_command launch bytes l = (result, Some child) → (∀ k, result ≠ Gas k) →
  child = Reaped.
Proof.
  unfold run_worker_command. destruct (_ <? _)%N; [done|]. destruct (_ =? _)%N; [done|].
  destruct launch as [la|]; [|done].
  destruct (supervise _ _) as [[[]|e|k] c]; rewrite ?drop_running_reaped.
  - by intros [= _ <-].
  - by intros [= _ <-].
  - intros [= <- _] H. by destruct (H k).
Qed.

Section process_facts.
Context (deserialize : list byte → option Report) (identity : string).

(** What validation has established about a report. *)
Definition validated (response : list byte) (f : Foundation) (l : ReplayLimits)
    (expected : InstalledLimits) (r : Report) : Prop :=
  deserialize response = Some r ∧ report_profile r = profile_for f ∧ checker r = identity ∧
  limits r = admission l ∧ is_consistent r = true ∧ receipt_matches l expected r = true.

Lemma validate_Ok response f l expected r :
  validate_worker_report deserialize identity response f l expected = Ok r ↔
  validated response f l expected r.
Proof.
  unfold validate_worker_report, validated. split.
  - intros (r' & ->%ok_or_Ok & H)%bind_Ok.
    destruct (_ || _) eqn:E in H; [done|]. injection H as ->.
    repeat (apply orb_false_iff in E as [E ?]).
    repeat match goal with H : negb _ = false |- _ => apply negb_false_iff in H end.
    rewrite bool_decide_eq_true in *. split_and!; try done; by apply String.eqb_eq.
  - intros (-> & Hp & <- & Hl & Hc & Hr). cbn [ok_or mbind outcome_bind].
    rewrite Hp, !String.eqb_refl, Hc, Hr, bool_decide_eq_true_2 by done. done.
Qed.

Lemma validate_failure response f l expected e :
  validate_worker_report deserialize identity response f l expected = Err e →
  operational (failed_outcome e).
Proof.
  unfold operational. intros [H|(r & _ & H)]%bind_Err; left.
  - by apply ok_or_Err in H as [-> _].
  - revert H. destruct (_ || _); [|done]. by intros [= <-].
Qed.

Lemma supervised_cases rlimit launch bytes f l r :
  supervised_replay deserialize identity rlimit launch bytes f l = Ok r →
  (∃ e, r = failure_report identity f l e ∧ operational (failed_outcome e)) ∨
  (∃ response expected, replay_is_valid l = true ∧
    effective_limits rlimit (process l) = Some expected ∧
    (run_worker_command launch bytes l).1 = Ok response ∧ validated response f l expected r).
Proof.
  unfold supervised_replay. destruct (replay_is_valid l) eqn:Hv; cbn [negb].
  2: { intros [= <-]. left. eexists. split; [done|by left]. }
  destruct (effective_limits rlimit (process l)) as [i|] eqn:Hi.
  2: { intros [= <-]. left. eexists. split; [done|by left]. }
  destruct (response ← (run_worker_command launch bytes l).1; _) as [r'|e|k] eqn:E; [| |done];
    intros [= <-].
  - apply bind_Ok in E as (response & Hr & Hval%validate_Ok). right. eauto 10.
  - left. exists e. split; [done|].
    apply bind_Err in E as [E|(response & _ & E)];
      [by eapply run_worker_failure|by eapply validate_failure].
Qed.

Lemma receipt_installed l expected r :
  receipt_matches l expected r = true → accepted r = true → is_consistent r = true →
  worker r = Some (Receipt l (Some expected)).
Proof.
  unfold receipt_matches, is_consistent. destruct (worker r) as [[req [i|]]|]; [| |done]; cbn.
  - intros [->%bool_decide_eq_true ->%bool_decide_eq_true]%andb_true_iff. done.
  - intros [_ [Ho _]%andb_true_iff]%andb_true_iff -> [H _]%andb_true_iff.
    apply bool_decide_eq_true in Ho. cbn in Ho. by rewrite Ho in H.
Qed.
End process_facts.

(** ** Properties *)

(** C39. The supervisor never accepts on its own: it returns an accepting
    report only if it is, byte for byte, the bounded output of a worker that
    exited successfully within the wall-clock budget while every poll before
    found it within its memory budget, for an input within the byte budget and
    a valid policy; the report carries the caller's profile, limits and checker
    identity, and its receipt shows that the requested limits were installed
    exactly as the operating system grants them. *)
Theorem supervisor_accepts_validated deserialize identity rlimit launch bytes f l r :
  supervised_replay deserialize identity rlimit launch bytes f l = Ok r →
  accepted r = true →
  ∃ run response expected pre o post,
    launch = Some (Launched run (Some response)) ∧ deserialize response = Some r ∧
    replay_is_valid l = true ∧ effective_limits rlimit (process l) = Some expected ∧
    worker r = Some (Receipt l (Some expected)) ∧
    report_profile r = profile_for f ∧ checker r = identity ∧ limits r = admission l ∧
    run = pre ++ o :: post ∧ Forall (keeps_running (process l)) pre ∧
    polled o = Some (Some ExitSuccess) ∧ (elapsed_after o < wall_time_ms (process l))%N ∧
    (N.of_nat (length bytes) <= max_bytes (admission l))%N ∧
    (N.of_nat (length response) <= output_bytes (process l))%N.
Proof.
  intros [(e & -> & _)|(response & expected & Hv & He & Hr & Hval)]%supervised_cases; [done|].
  intros Ha. apply run_worker_Ok in Hr as (run & -> & Hs & Hb & _ & Hlen).
  apply supervise_Ok in Hs as (_ & pre & o & post & -> & Hpre & Hp & _ & Hafter).
  destruct Hval as (Hd & Hprof & Hid & Hl & Hc & Hm).
  exists (pre ++ o :: post), response, expected, pre, o, post.
  split_and!; try done. by eapply receipt_installed.
Qed.

(** C40. What the supervisor adds itself is operational, and no worker outlives
    it: a report it returns is either the validated content of the output file
    of a worker that exited successfully in time, or a refusal of its own with
    an inconclusive or a resource outcome, never a rejection of the proof.
    Whenever the command that runs the worker returns, on any path, a child
    that was spawned has been killed if need be and waited for.  Once the
    wall-clock budget is seen to be over, the command has returned, with the
    wall-limit failure if the input is within the byte budget and every poll before
    found the worker running within its memory budget.  (That a child sent the kill signal exits, and that a
    child already waited for is left alone, is the documented behaviour of
    Child::kill and Child::wait.) *)
Theorem supervisor_failures_operational deserialize identity rlimit launch bytes f l :
  (∀ r, supervised_replay deserialize identity rlimit launch bytes f l = Ok r →
    (∃ run response expected,
      launch = Some (Launched run (Some response)) ∧ supervise (process l) run = (Ok tt, Reaped) ∧
      effective_limits rlimit (process l) = Some expected ∧
      validated deserialize identity response f l expected r) ∨
    (accepted r = false ∧ (report_outcome r = Inconclusive ∨ report_outcome r = ResourceExhausted) ∧
     worker r = Some (Receipt l None))) ∧
  (∀ result child, run_worker_command launch bytes l = (result, Some child) →
    (∀ k, result ≠ Gas k) → child = Reaped) ∧
  (∀ run o post file, launch = Some (Launched (run ++ o :: post) file) →
    (wall_time_ms (process l) <= elapsed o)%N →
    (∀ k, (run_worker_command launch bytes l).1 ≠ Gas k) ∧
    (Forall (keeps_running (process l)) run →
     (N.of_nat (length bytes) <= max_bytes (admission l))%N →
     (run_worker_command launch bytes l).1 = Err wall_limit)).
Proof.
  split_and!.
  - intros r [(e & -> & He)|(response & expected & _ & Hi & Hr & Hval)]%supervised_cases;
      [by right|left].
    apply run_worker_Ok in Hr as (run & -> & Hs & _). by exists run, response, expected.
  - apply run_worker_child.
  - intros run o post file -> Ho.
    destruct (supervise_deadline (process l) run o post Ho) as [Hgas Hwall].
    unfold run_worker_command. cbn [observations output_file].
    destruct (N.ltb_spec (max_bytes (admission l)) (N.of_nat (length bytes))); [split; [done|lia]|].
    destruct (wall_time_ms (process l) =? 0)%N; [done|].
    destruct (supervise _ _) as [[[]|e|k] child]; rewrite ?drop_running_reaped; cbn [fst] in *.
    + split; [|by intros Hk; specialize (Hwall Hk)]. intros k. unfold read_response.
      destruct file; [|done]. cbn [ok_or mbind outcome_bind]. cbv zeta. by destruct (_ <? _)%N.
    + split; [done|]. intros Hk _. specialize (Hwall Hk). congruence.
    + by destruct (Hgas k).
Qed.

(** The limits a worker installs are never above the requested policy or
    the inherited limits, and computing them again in the process that has
    installed them gives the same receipt, so an honest worker's receipt is the
    one its supervisor expects. *)
Theorem effective_limits_stable rlimit l i :
  effective_limits rlimit l = Some i →
  (installed_cpu_seconds i <= cpu_seconds l)%N ∧ (installed_stack_bytes i <= stack_bytes l)%N ∧
  (installed_output_bytes i <= output_bytes l)%N ∧
  (∃ m, address_space_bytes i = Some m ∧ (m <= memory_bytes l)%N) ∧
  (∀ r soft hard, rlimit r = Some (soft, hard) →
    ∃ n, limited i r = Some (n, n) ∧ (n <= soft)%N ∧ (n <= hard)%N) ∧
  effective_limits (limited i) l = Some i.
Proof.
  intros (cs & ch & ms & mh & ss & sh & os & oh & Hc & Hm & Hs & Ho & ->)%effective_limits_Some.
  cbn [installed_cpu_seconds installed_stack_bytes installed_output_bytes address_space_bytes].
  split_and!; [lia..| | |].
  - eexists. split; [done|lia].
  - intros [] soft hard H; simplify_eq; (eexists; split; [reflexivity|]);
      cbn [installed_cpu_seconds installed_stack_bytes installed_output_bytes]; lia.
  - apply effective_limits_Some. do 8 eexists. split_and!; [done..|].
    cbn [installed_cpu_seconds installed_stack_bytes installed_output_bytes].
    f_equal; [|f_equal|..]; lia.
Qed.

(** An honest worker is heard: if its replay speaks for the caller's
    policy, its report survives serialization, and it exits successfully in
    time having written the whole report, the supervisor returns exactly that
    report with the installed limits on its receipt; and if the worker could
    not install its limits, it returns that refusal. *)
Theorem honest_worker_heard serialize deserialize identity
    (replay : list byte → Foundation → AdmissionLimits → Report) rlimit (set_ok : bool) run bytes f l i :
  let r := replay bytes f (admission l) in
  let expected :=
    if set_ok then with_worker r (Receipt l (Some i))
    else failure_report identity f l (inconclusive "sandbox_unavailable"
           "The worker could not install its required process limits.") in
  let response := worker_with_limits serialize identity replay rlimit set_ok bytes f l in
  is_consistent r = true → report_profile r = profile_for f → limits r = admission l →
  checker r = identity → deserialize (serialize expected) = Some expected →
  replay_is_valid l = true → effective_limits rlimit (process l) = Some i →
  (N.of_nat (length bytes) <= max_bytes (admission l))%N → wall_time_ms (process l) ≠ 0%N →
  (N.of_nat (length response) <= output_bytes (process l))%N →
  supervise (process l) run = (Ok tt, Reaped) →
  supervised_replay deserialize identity rlimit (Some (Launched run (Some response))) bytes f l =
  Ok expected.
Proof.
  intros r expected response Hc Hp Hl Hid Hser Hv Hi Hb Hw Hlen Hs.
  unfold supervised_replay. rewrite Hv, Hi. cbn [negb].
  rewrite (proj2 (run_worker_Ok _ _ _ response)) by (by eexists).
  cbn [mbind outcome_bind].
  rewrite (proj2 (validate_Ok deserialize identity _ f l i expected)); [done|].
  assert (response = serialize expected) as ->.
  { unfold response, worker_with_limits, install_limits. rewrite Hv, Hi.
    cbn [negb mbind option_bind]. unfold expected, r.
    destruct set_ok; [|done]. do 3 f_equal.
    assert (read_limit (admission l) = Some (max_bytes (admission l) + 1)%N) as ->.
    { apply read_limit_Some. split; [done|]. apply andb_true_iff in Hv as [Hv _].
      by apply admission_valid_bounds in Hv as [_ ?]. }
    apply take_ge. cbn [default]. unfold id. lia. }
  split; [done|]. unfold expected.
  destruct set_ok; split_and!; try done; unfold receipt_matches; cbn;
    by rewrite !bool_decide_eq_true_2.
Qed.

(** ** Witnesses *)
Definition demo_rlimits : Rlimits := λ r,
  match r with RLIMIT_CPU => Some (10, 20)%N | _ => Some (2 ^ 40, 2 ^ 40)%N end.

Definition demo_installed : InstalledLimits :=
  default (Installed 0 None 0 0) (effective_limits demo_rlimits process_default).

Definition demo_in_process (bytes : list byte) (f : Foundation) (l : AdmissionLimits) : Report :=
  MkReport (profile_for f) "digest" true Accepted l None None.

Definition demo_worker_report : Report :=
  with_worker (demo_in_process [] Intensional admission_default)
    (Receipt replay_default (Some demo_installed)).

Definition demo_serialize (_ : Report) : list byte := [x7b; x7d].
Definition demo_deserialize (bytes : list byte) : option Report :=
  if bool_decide (bytes = [x7b; x7d]) then Some demo_worker_report else None.

(** Two polls while the worker runs, then a clean exit. *)
Definition demo_run : list Observation :=
  [Observe 0 (Some None) 0 (Some 1000%N); Observe 5 (Some None) 5 None;
   Observe 10 (Some (Some ExitSuccess)) 11 None].

Lemma honest_worker_heard_witness :
  supervised_replay demo_deserialize "digest" demo_rlimits
    (Some (Launched demo_run (Some [x7b; x7d]))) [x7b] Intensional replay_default =
  Ok demo_worker_report.
Proof.
  apply (honest_worker_heard demo_serialize demo_deserialize "digest" demo_in_process
    demo_rlimits true demo_run [x7b] Intensional replay_default demo_installed);
    vm_compute; congruence.
Defined.

Lemma supervisor_accepts_validated_witness :
  ∃ run response expected pre o post,
    Some (Launched demo_run (Some [x7b; x7d])) = Some (Launched run (Some response)) ∧
    demo_deserialize response = Some demo_worker_report ∧
    replay_is_valid replay_default = true ∧
    effective_limits demo_rlimits (process replay_default) = Some expected ∧
    worker demo_worker_report = Some (Receipt replay_default (Some expected)) ∧
    report_profile demo_worker_report = profile_for Intensional ∧
    checker demo_worker_report = "digest" ∧
    limits demo_worker_report = admission replay_default ∧
    run = pre ++ o :: post ∧ Forall (keeps_running (process replay_default)) pre ∧
    polled o = Some (Some ExitSuccess) ∧
    (elapsed_after o < wall_time_ms (process replay_default))%N ∧
    (N.of_nat (length [x7b]) <= max_bytes (admission replay_default))%N ∧
    (N.of_nat (length response) <= output_bytes (process replay_default))%N.
Proof.
  apply (supervisor_accepts_validated demo_deserialize "digest" demo_rlimits
    (Some (Launched demo_run (Some [x7b; x7d]))) [x7b] Intensional replay_default
    demo_worker_report); vm_compute; reflexivity.
Defined.

(** A worker that never exits is stopped at the deadline. *)
Definition demo_hanging : list Observation :=
  [Observe 0 (Some None) 0 None; Observe 5000 (Some None) 5001 None].

Lemma supervisor_failures_operational_witness :
  (run_worker_command (Some (Launched demo_hanging None)) [] replay_default).1 = Err wall_limit ∧
  run_worker_command (Some (Launched demo_hanging None)) [] replay_default =
    (Err wall_limit, Some Reaped) ∧
  (∀ child, run_worker_command (Some (Launched demo_hanging None)) [] replay_default =
    (Err wall_limit, Some child) → child = Reaped).
Proof.
  pose proof (supervisor_failures_operational demo_deserialize "digest" demo_rlimits
    (Some (Launched demo_hanging None)) [] Intensional replay_default) as (_ & Hchild & Hwall).
  split_and!.
  - apply (Hwall [Observe 0 (Some None) 0 None] (Observe 5000 (Some None) 5001 None) [] None);
      [done|vm_compute; congruence| |vm_compute; congruence].
    constructor; [|constructor]. split_and!; [vm_compute; reflexivity|done|done].
  - vm_compute. reflexivity.
  - intros child H. by apply (Hchild _ _ H).
Defined.

Lemma effective_limits_stable_witness :
  effective_limits (limited demo_installed) process_default = Some demo_installed.
Proof.
  apply (effective_limits_stable demo_rlimits process_default demo_installed).
  vm_compute. reflexivity.
Defined.
