(* ===== verification/Cli.v ===== *)
(** * The command line of the checker

    [verum_proof/src/main.rs]: the option parser, the choice of a mode and the
    exit status.  The policy a worker receives on its command line is JSON,
    parsed by a third-party library ([parse_policy]). *)
From S2P Require Import Prelude Context Admission.
From Stdlib Require Import Ascii.

Open Scope verum_scope.

(** [str::parse::<u64>]: an optional plus sign and decimal digits, in range. *)
Definition digit (c : ascii) : option N :=
  let n := N_of_ascii c in
  if ((48 <=? n) && (n <=? 57))%N then Some (n - 48)%N else None.

Fixpoint digits (acc : N) (s : string) : option N :=
  match s with
  | EmptyString => Some acc
  | String c s => d ← digit c; n ← checked U64_MAX (acc * 10 + d); digits n s
  end.

Definition parse_u64 (s : string) : option N :=
  match s with
  | EmptyString => None
  | String c rest =>
      if Ascii.eqb c "+" then match rest with EmptyString => None | _ => digits 0 rest end
      else digits 0 s
  end.

(** One field of the policy replaced. *)
Definition set_admission (l : ReplayLimits) (a : AdmissionLimits) : ReplayLimits :=
  ReplayPolicy a (process l).
Definition set_process (l : ReplayLimits) (p : ProcessLimits) : ReplayLimits :=
  ReplayPolicy (admission l) p.

Definition size_value (flag : string) (number : N) : outcome string N :=
  ok_or (usize_try_from number) ("value for " +:+ flag +:+ " exceeds addressable size").

Definition set_limit (flag : string) (number : N) (l : ReplayLimits)
    : outcome string ReplayLimits :=
  let a := admission l in
  let p := process l in
  if String.eqb flag "--max-bytes" then
    n ← size_value flag number; Ok (set_admission l (AdmissionPolicy n (max_nodes a) (max_depth a)))
  else if String.eqb flag "--max-nodes" then
    n ← size_value flag number; Ok (set_admission l (AdmissionPolicy (max_bytes a) n (max_depth a)))
  else if String.eqb flag "--max-depth" then
    n ← size_value flag number; Ok (set_admission l (AdmissionPolicy (max_bytes a) (max_nodes a) n))
  else if String.eqb flag "--wall-ms" then
    Ok (set_process l (ProcessPolicy number (cpu_seconds p) (memory_bytes p) (stack_bytes p)
          (output_bytes p)))
  else if String.eqb flag "--cpu-seconds" then
    Ok (set_process l (ProcessPolicy (wall_time_ms p) number (memory_bytes p) (stack_bytes p)
          (output_bytes p)))
  else if String.eqb flag "--memory-bytes" then
    Ok (set_process l (ProcessPolicy (wall_time_ms p) (cpu_seconds p) number (stack_bytes p)
          (output_bytes p)))
  else if String.eqb flag "--stack-bytes" then
    Ok (set_process l (ProcessPolicy (wall_time_ms p) (cpu_seconds p) (memory_bytes p) number
          (output_bytes p)))
  else if String.eqb flag "--output-bytes" then
    Ok (set_process l (ProcessPolicy (wall_time_ms p) (cpu_seconds p) (memory_bytes p)
          (stack_bytes p) number))
  else Err ("unknown option: " +:+ flag).

Definition set_option (flag value : string) (s : Foundation * ReplayLimits)
    : outcome string (Foundation * ReplayLimits) :=
  if String.eqb flag "--foundation" then
    if String.eqb value "intensional" then Ok (Intensional, s.2)
    else if String.eqb value "function-extensionality" then Ok (FunctionExtensionality, s.2)
    else Err "unsupported foundation"
  else
    number ← ok_or (parse_u64 value) ("invalid nonnegative integer for " +:+ flag);
    l ← set_limit flag number s.2;
    Ok (s.1, l).

(** The loop over the arguments; [seen] are the flags so far. *)
Fixpoint options_loop (seen : list string) (args : list string)
    (s : Foundation * ReplayLimits) : outcome string (Foundation * ReplayLimits) :=
  match args with
  | [] => Ok s
  | flag :: args =>
      if existsb (String.eqb flag) seen then Err ("duplicate option: " +:+ flag)
      else
        match args with
        | [] => Err ("missing value for " +:+ flag)
        | value :: args =>
            s ← set_option flag value s;
            options_loop (flag :: seen) args s
        end
  end.

Definition options (args : list string) : outcome string (Foundation * ReplayLimits) :=
  s ← options_loop [] args (Intensional, replay_default);
  if replay_is_valid s.2 then Ok s else Err "resource limits cannot be represented safely".

(** ** Modes *)
Inductive Action :=
| ShowUsage
| ExportLean
| RunWorker (f : Foundation) (l : ReplayLimits)
| WorkerError
| Supervise (f : Foundation) (l : ReplayLimits)
| UsageError (message : string).

Definition WORKER_ARG : string := "--internal-native-proof-worker".
Definition EXTENSIONAL_WORKER_ARG : string := "--internal-native-funext-proof-worker".
Definition POLICY_ARG : string := "--resource-policy".

Definition worker_foundation (first : string) : option Foundation :=
  if String.eqb first WORKER_ARG then Some Intensional
  else if String.eqb first EXTENSIONAL_WORKER_ARG then Some FunctionExtensionality
  else None.

Definition supervise_action (args : list string) : Action :=
  match options args with
  | Ok (f, l) => Supervise f l
  | Err e => UsageError e
  | Gas _ => UsageError "unreachable"
  end.

Definition main_action (parse_policy : string → option ReplayLimits) (args : list string)
    : Action :=
  if bool_decide (args = ["--help"]) then ShowUsage
  else if bool_decide (args = ["export-lean"]) then ExportLean
  else
    match args with
    | first :: rest =>
        match worker_foundation first with
        | Some f =>
            match rest with
            | [] => RunWorker f replay_default
            | [flag; policy] =>
                if String.eqb flag POLICY_ARG
                then match parse_policy policy with
                     | Some l => RunWorker f l
                     | None => WorkerError
                     end
                else WorkerError
            | _ => WorkerError
            end
        | None => supervise_action args
        end
    | [] => supervise_action args
    end.

Definition exit_status (o : ReplayOutcome) : N :=
  match o with
  | Accepted => 0
  | Rejected => 1
  | Unsupported => 2
  | ResourceExhausted => 3
  | Inconclusive => 4
  end.

(** ** Facts *)
Definition flatten (pairs : list (string * string)) : list string :=
  concat (List.map (λ p, [p.1; p.2]) pairs).

(** The parsed effect of one option on the policy. *)
Definition effect (p : string * string) (s : Foundation * ReplayLimits)
    : outcome string (Foundation * ReplayLimits) := set_option p.1 p.2 s.

Fixpoint effects (pairs : list (string * string)) (s : Foundation * ReplayLimits)
    : outcome string (Foundation * ReplayLimits) :=
  match pairs with [] => Ok s | p :: pairs => s ← effect p s; effects pairs s end.

Lemma existsb_eqb flag seen : existsb (String.eqb flag) seen = true ↔ flag ∈ seen.
Proof.
  rewrite existsb_exists, list_elem_of_In. split.
  - by intros (x & Hx & ->%String.eqb_eq).
  - intros H. exists flag. split; [done|apply String.eqb_refl].
Qed.

Lemma options_loop_pairs args seen s s' :
  options_loop seen args s = Ok s' →
  ∃ pairs, args = flatten pairs ∧ NoDup (List.map fst pairs) ∧
    (∀ p, p ∈ pairs → p.1 ∉ seen) ∧ effects pairs s = Ok s'.
Proof.
  remember (length args) as n eqn:En. assert (length args ≤ n) as Hn by lia. clear En.
  revert args seen s Hn. induction n as [|n IH]; intros [|flag [|value args]] seen s Hn H;
    cbn in Hn; try lia; cbn [options_loop] in H.
  - exists []. split_and!; [done|constructor|by intros ? ?%elem_of_nil|done].
  - exists []. split_and!; [done|constructor|by intros ? ?%elem_of_nil|done].
  - by destruct (existsb _ _).
  - destruct (existsb (String.eqb flag) seen) eqn:Es; [done|].
    apply bind_Ok in H as (s1 & Hs1 & H).
    destruct (IH args (flag :: seen) s1 ltac:(lia) H) as (pairs & -> & Hnd & Hseen & He).
    exists ((flag, value) :: pairs). split_and!; [done|..].
    + cbn. constructor; [|done]. intros (p & Hp & Hin)%list_elem_of_fmap.
      apply (Hseen p Hin). rewrite <- Hp. by left.
    + intros p [->|Hp]%elem_of_cons.
      * intros Hin%existsb_eqb. cbn in Hin. congruence.
      * intros Hin. apply (Hseen p Hp). by right.
    + cbn [effects effect fst snd]. unfold effect. cbn [fst snd]. by rewrite Hs1.
Qed.

(** The value of the policy field a flag sets. *)
Definition setting (flag : string) (l : ReplayLimits) : option N :=
  let a := admission l in
  let p := process l in
  if String.eqb flag "--max-bytes" then Some (max_bytes a)
  else if String.eqb flag "--max-nodes" then Some (max_nodes a)
  else if String.eqb flag "--max-depth" then Some (max_depth a)
  else if String.eqb flag "--wall-ms" then Some (wall_time_ms p)
  else if String.eqb flag "--cpu-seconds" then Some (cpu_seconds p)
  else if String.eqb flag "--memory-bytes" then Some (memory_bytes p)
  else if String.eqb flag "--stack-bytes" then Some (stack_bytes p)
  else if String.eqb flag "--output-bytes" then Some (output_bytes p)
  else None.

Lemma set_limit_setting flag n l l' :
  set_limit flag n l = Ok l' →
  ∀ other, setting other l' = if String.eqb other flag then Some n else setting other l.
Proof.
  unfold set_limit, size_value, usize_try_from.
  assert (∀ m, checked USIZE_MAX n = Some m → m = n) as Hc by (intros m ?%checked_Some; tauto).
  repeat match goal with
  | |- context [if String.eqb flag ?x then _ else _] =>
      destruct (String.eqb_spec flag x) as [->|?]
  end; intros H; try discriminate H;
    try (apply bind_Ok in H as (m & Hm%ok_or_Ok & H); apply Hc in Hm as ->);
    injection H as <-; intros other; unfold setting;
    repeat match goal with
    | |- context [String.eqb other ?x] => destruct (String.eqb_spec other x) as [->|?]; [done|]
    end; done.
Qed.

(** Options agree with a final state: each given setting is the parsed value
    of its flag. *)
Definition agrees (s : Foundation * ReplayLimits) (p : string * string) : Prop :=
  if String.eqb p.1 "--foundation"
  then p.2 = match s.1 with
             | Intensional => "intensional"
             | FunctionExtensionality => "function-extensionality"
             end
  else setting p.1 s.2 = parse_u64 p.2 ∧ is_some (parse_u64 p.2) = true.

(** Nothing but the given flags changes. *)
Definition unchanged (s s' : Foundation * ReplayLimits) (flag : string) : Prop :=
  if String.eqb flag "--foundation" then s'.1 = s.1 else setting flag s'.2 = setting flag s.2.

Lemma effect_spec p s s' :
  effect p s = Ok s' → agrees s' p ∧ ∀ flag, flag ≠ p.1 → unchanged s s' flag.
Proof.
  unfold effect, set_option, agrees, unchanged. destruct (String.eqb_spec p.1 "--foundation") as [Hfl|Hfl].
  - destruct (String.eqb_spec p.2 "intensional") as [E|]; [|
      destruct (String.eqb_spec p.2 "function-extensionality") as [E|]; [|done]];
      intros [= <-]; (split; [done|]); intros flag Hf;
      (destruct (String.eqb_spec flag "--foundation"); [congruence|done]).
  - intros (n & Hn%ok_or_Ok & (l & Hl & [= <-])%bind_Ok)%bind_Ok.
    pose proof (set_limit_setting _ _ _ _ Hl) as Hset. cbn [fst snd]. split.
    + by rewrite Hset, String.eqb_refl, Hn.
    + intros flag Hf. destruct (String.eqb_spec flag "--foundation"); [done|].
      rewrite Hset. by destruct (String.eqb_spec flag p.1).
Qed.

Lemma agrees_unchanged s s' p : agrees s p → unchanged s s' p.1 → agrees s' p.
Proof.
  unfold agrees, unchanged. destruct (String.eqb _ _); [by intros ? ->|]. by intros ? ->.
Qed.

Lemma effects_spec pairs s s' :
  NoDup (List.map fst pairs) → effects pairs s = Ok s' →
  Forall (agrees s') pairs ∧ ∀ flag, flag ∉ List.map fst pairs → unchanged s s' flag.
Proof.
  intros Hnd. revert s. induction pairs as [|p pairs IH]; intros s H.
  { injection H as <-. split; [constructor|]. intros flag _. unfold unchanged.
    by destruct (String.eqb _ _). }
  apply bind_Ok in H as (s1 & [Ha Hu]%effect_spec & H).
  cbn in Hnd. apply NoDup_cons in Hnd as [Hp Hnd]. destruct (IH Hnd s1 H) as [Hall Hun]. split.
  - constructor; [|done]. eapply agrees_unchanged; [exact Ha|]. by apply Hun.
  - intros flag Hf. cbn in Hf. apply not_elem_of_cons in Hf as [Hne Hf].
    specialize (Hu flag Hne). specialize (Hun flag Hf). revert Hu Hun. unfold unchanged.
    destruct (String.eqb _ _); congruence.
Qed.

(** ** Properties *)

(** A command line is accepted only if it is a list of distinct flags with
    one value each, and the policy it yields is valid; every flag then sets its
    own field to its parsed value, in range, every field without a flag keeps
    its default, and the foundation is intensional unless the flag names the
    other one: the order of the options does not matter and nothing is silently
    ignored. *)
Theorem options_exact args f l :
  options args = Ok (f, l) →
  ∃ pairs, args = flatten pairs ∧ NoDup (List.map fst pairs) ∧ replay_is_valid l = true ∧
    Forall (agrees (f, l)) pairs ∧
    (∀ flag, flag ∉ List.map fst pairs → unchanged (Intensional, replay_default) (f, l) flag).
Proof.
  intros (s & (pairs & -> & Hnd & _ & He)%options_loop_pairs & H)%bind_Ok.
  destruct (replay_is_valid s.2) eqn:Hv; [|done]. injection H as ->.
  apply effects_spec in He as [Ha Hu]; [|done]. eauto 10.
Qed.

(** ** Witness *)
Lemma options_exact_witness :
  options ["--wall-ms"; "250"; "--foundation"; "function-extensionality"; "--max-depth"; "+64"] =
    Ok (FunctionExtensionality,
        ReplayPolicy (AdmissionPolicy 1048576 65536 64)
          (ProcessPolicy 250 3 536870912 16777216 65536)) ∧
  ∃ pairs, ["--wall-ms"; "250"; "--foundation"; "function-extensionality"; "--max-depth"; "+64"] =
    flatten pairs ∧ NoDup (List.map fst pairs).
Proof.
  split; [vm_compute; reflexivity|].
  edestruct options_exact as (pairs & H1 & H2 & _); [|exists pairs; split; [exact H1|exact H2]].
  vm_compute. reflexivity.
Defined.
