(* ===== verification/Words.v ===== *)
(** * Machine words

    The bytecode crate works on Rust integers of fixed width.  A [uN] or [iN]
    is an integer of [Z]; [is_u] and [is_i] are the ranges of the types, [wrap]
    is the cast [as uN] and [to_signed] the cast [as iN].  The lemmas turn the
    masks and shifts of the code into arithmetic. *)

From Stdlib Require Export ZArith.
From S2P Require Import Prelude.
Open Scope Z_scope.

Definition is_u (w z : Z) : Prop := 0 ≤ z < 2 ^ w.
Definition is_i (w z : Z) : Prop := - 2 ^ (w - 1) ≤ z < 2 ^ (w - 1).

(** [z as uN]: the low [w] bits. *)
Definition wrap (w z : Z) : Z := z mod 2 ^ w.

(** [z as iN]: the low [w] bits in two's complement. *)
Definition to_signed (w z : Z) : Z :=
  let m := wrap w z in if m <? 2 ^ (w - 1) then m else m - 2 ^ w.

Abbreviation bytes := (list Z).
Definition well_formed_bytes (l : bytes) : Prop := Forall (is_u 8) l.

(** ** Casts *)
Section casts.
Implicit Types w z : Z.

Lemma wrap_range w z : 0 ≤ w → is_u w (wrap w z).
Proof. intros. apply Z.mod_pos_bound. lia. Qed.

Lemma wrap_id w z : is_u w z → wrap w z = z.
Proof. apply Z.mod_small. Qed.

Lemma wrap_le w z : 0 ≤ w → 0 ≤ z → wrap w z ≤ z.
Proof. intros. apply Z.mod_le; lia. Qed.

Lemma wrap_shift w z k : 0 ≤ w → wrap w (z + k * 2 ^ w) = wrap w z.
Proof. intros. apply Z.mod_add. lia. Qed.

Lemma pow2_half w : 0 < w → 2 ^ w = 2 * 2 ^ (w - 1).
Proof. intros. rewrite <- Z.pow_succ_r by lia. f_equal. lia. Qed.

Lemma to_signed_range w z : 0 < w → is_i w (to_signed w z).
Proof.
  intros Hw. unfold to_signed, is_i. pose proof (wrap_range w z ltac:(lia)) as H.
  unfold is_u in H. pose proof (pow2_half w Hw). cbv zeta. case_match eqn:E.
  - apply Z.ltb_lt in E. lia.
  - apply Z.ltb_ge in E. lia.
Qed.

Lemma to_signed_id w z : 0 < w → is_i w z → to_signed w z = z.
Proof.
  intros Hw H. unfold to_signed, is_i in *. pose proof (pow2_half w Hw) as P. cbv zeta.
  destruct (decide (0 ≤ z)).
  - rewrite wrap_id by (unfold is_u; lia). rewrite (proj2 (Z.ltb_lt _ _)); lia.
  - rewrite <- (wrap_shift w z 1) by lia. rewrite wrap_id by (unfold is_u; lia).
    rewrite (proj2 (Z.ltb_ge _ _)); lia.
Qed.

(** A signed value survives the trip through the unsigned type. *)
Lemma to_signed_wrap w z : 0 < w → is_i w z → to_signed w (wrap w z) = z.
Proof.
  intros Hw H. rewrite <- (to_signed_id w z) at 2 by done. unfold to_signed.
  rewrite (wrap_id w (wrap w z)) by (apply wrap_range; lia). done.
Qed.

Lemma to_signed_small w z : 0 < w → 0 ≤ z < 2 ^ (w - 1) → to_signed w z = z.
Proof. intros. apply to_signed_id; unfold is_i; lia. Qed.
End casts.

(** ** Masks and shifts as arithmetic *)
Section bits.
Implicit Types a b n : Z.

Lemma land_mask a n : 0 ≤ n → Z.land a (2 ^ n - 1) = a mod 2 ^ n.
Proof. intros. rewrite <- Z.land_ones by done. by rewrite Z.ones_equiv, Z.sub_1_r. Qed.

Lemma shiftr_div a n : 0 ≤ n → Z.shiftr a n = a `div` 2 ^ n.
Proof. apply Z.shiftr_div_pow2. Qed.

Lemma testbit_high a n i : 0 ≤ a < 2 ^ n → n ≤ i → Z.testbit a i = false.
Proof.
  intros Ha Hi. destruct (decide (a = 0)) as [->|]; [apply Z.bits_0|].
  apply Z.bits_above_log2; [lia|]. apply Z.lt_le_trans with n; [|done].
  apply Z.log2_lt_pow2; lia.
Qed.

Lemma disjoint_land a b n : 0 ≤ n → 0 ≤ a < 2 ^ n → Z.land a (Z.shiftl b n) = 0.
Proof.
  intros Hn Ha. apply Z.bits_inj'. intros i Hi. rewrite Z.land_spec, Z.bits_0.
  destruct (decide (i < n)).
  - by rewrite Z.shiftl_spec_low, andb_false_r by lia.
  - by rewrite (testbit_high a n i) by lia.
Qed.

(** Fields that do not overlap are joined by [|] as by addition. *)
Lemma lor_shiftl a b n : 0 ≤ n → 0 ≤ a < 2 ^ n → Z.lor a (Z.shiftl b n) = a + b * 2 ^ n.
Proof.
  intros Hn Ha. rewrite <- Z.shiftl_mul_pow2 by done.
  pose proof (disjoint_land a b n Hn Ha) as D.
  by rewrite Z.add_nocarry_lxor, Z.lxor_lor by done.
Qed.

Lemma lor_high a n : 0 ≤ n → 0 ≤ a < 2 ^ n → Z.lor a (2 ^ n) = a + 2 ^ n.
Proof.
  intros Hn Ha. rewrite <- (Z.mul_1_l (2 ^ n)), <- Z.shiftl_mul_pow2 by done.
  by rewrite lor_shiftl, Z.shiftl_mul_pow2 by done.
Qed.

(** A single bit, tested by a mask. *)
Lemma land_bit a n : 0 ≤ n → Z.land a (2 ^ n) = Z.b2z (Z.testbit a n) * 2 ^ n.
Proof.
  intros Hn. apply Z.bits_inj'. intros i Hi.
  rewrite Z.land_spec, Z.pow2_bits_eqb, Z.mul_pow2_bits by done.
  destruct (Z.eqb_spec n i) as [<-|].
  - rewrite Z.sub_diag, Z.b2z_bit0. by rewrite andb_true_r.
  - rewrite andb_false_r. destruct (decide (i < n)); [by rewrite Z.testbit_neg_r by lia|].
    symmetry. destruct (Z.testbit a n); [|by apply Z.bits_0].
    apply (testbit_high 1 1); [done|lia].
Qed.

Lemma land_bit_zero a n : 0 ≤ n → (Z.land a (2 ^ n) =? 0) = negb (Z.testbit a n).
Proof.
  intros Hn. rewrite land_bit by done. destruct (Z.testbit a n); cbn [Z.b2z negb].
  - apply Z.eqb_neq. lia.
  - done.
Qed.

(** The top bit of a word, and the arithmetic shift of a signed word. *)
Lemma testbit_top a n : 0 ≤ n → 0 ≤ a < 2 ^ (n + 1) → Z.testbit a n = (2 ^ n <=? a).
Proof.
  intros Hn Ha. rewrite Z.testbit_eqb by done. rewrite Z.pow_add_r in Ha by lia.
  destruct (Z.leb_spec (2 ^ n) a).
  - rewrite <- (Z.div_unique a (2 ^ n) 1 (a - 2 ^ n)) by lia. done.
  - by rewrite Z.div_small by lia.
Qed.

Lemma is_u_decompose w n a : 0 ≤ n ≤ w → is_u w a →
  is_u n (a mod 2 ^ n) ∧ is_u (w - n) (a `div` 2 ^ n) ∧ a = a mod 2 ^ n + (a `div` 2 ^ n) * 2 ^ n.
Proof.
  intros Hn Ha. unfold is_u in *. split_and!; try (apply Z.mod_pos_bound; lia).
  - apply Z.div_pos; lia.
  - apply Z.div_lt_upper_bound; [lia|]. rewrite <- Z.pow_add_r by lia.
    replace (n + (w - n)) with w by lia. lia.
  - pose proof (Z.div_mod a (2 ^ n) ltac:(lia)). lia.
Qed.
End bits.

(** ** Little-endian words *)

(** [to_le_bytes] of a word of [n] bytes. *)
Fixpoint to_le_bytes (n : nat) (w : Z) : bytes :=
  match n with
  | O => []
  | S n => wrap 8 w :: to_le_bytes n (Z.shiftr w 8)
  end.

(** [from_le_bytes]. *)
Fixpoint from_le_bytes (l : bytes) : Z :=
  match l with
  | [] => 0
  | b :: l => Z.lor b (Z.shiftl (from_le_bytes l) 8)
  end.

Section little_endian.

Lemma length_to_le_bytes n w : length (to_le_bytes n w) = n.
Proof. revert w. induction n; intros; simpl; auto. Qed.

Lemma to_le_bytes_wf n w : well_formed_bytes (to_le_bytes n w).
Proof. revert w. induction n; intros; constructor; [by apply wrap_range|apply IHn]. Qed.

Lemma from_le_bytes_cons b l : is_u 8 b → from_le_bytes (b :: l) = b + from_le_bytes l * 256.
Proof. intros. cbn [from_le_bytes]. by rewrite lor_shiftl. Qed.

Lemma from_to_le_bytes n w : 0 ≤ w → from_le_bytes (to_le_bytes n w) = wrap (8 * Z.of_nat n) w.
Proof.
  revert w. induction n as [|n IH]; intros w Hw; [by rewrite Nat2Z.inj_0, Z.mul_0_r; unfold wrap; rewrite Z.mod_1_r|].
  cbn [to_le_bytes]. rewrite from_le_bytes_cons by by apply wrap_range.
  rewrite IH by (apply Z.shiftr_nonneg; lia). unfold wrap. rewrite shiftr_div by lia.
  rewrite Nat2Z.inj_succ. replace (8 * Z.succ (Z.of_nat n)) with (8 + 8 * Z.of_nat n) by lia.
  rewrite Z.pow_add_r by lia. rewrite (Z.rem_mul_r w (2 ^ 8)) by lia. lia.
Qed.

Lemma from_le_bytes_range l : well_formed_bytes l → is_u (8 * Z.of_nat (length l)) (from_le_bytes l).
Proof.
  induction 1 as [|b l Hb Hl IH]; [done|].
  rewrite from_le_bytes_cons by done. unfold is_u in *. cbn [length]. rewrite Nat2Z.inj_succ.
  replace (8 * Z.succ (Z.of_nat (length l))) with (8 + 8 * Z.of_nat (length l)) by lia.
  rewrite Z.pow_add_r by lia. change (2 ^ 8) with 256 in *. nia.
Qed.
End little_endian.
