(* ===== verification/Encoding.v ===== *)
(** * Binary encoding primitives

    [verum_vbc/src/encoding.rs]: variable-length integers, zigzag signed
    integers, fixed-width integers, registers, strings and length-prefixed
    payloads.  An encoder takes the output vector and returns it extended; a
    decoder is a function of the offset that returns its result and the offset
    it leaves, also on failure, since the code updates [*offset] in place. *)

From S2P Require Import Prelude Words.

(** ** UTF-8

    The standard library's decoding of UTF-8 that the bytecode crate uses: a
    string is the list of its bytes, [utf8_error] is the error of
    [String::from_utf8] and [from_utf8_lossy] replaces each maximal invalid
    part by U+FFFD. *)

Record Utf8Error := { valid_up_to : nat; error_len : option nat }.

#[export] Instance Utf8Error_eq_dec : EqDecision Utf8Error.
Proof. solve_decision. Defined.

Definition in_range (lo hi b : Z) : bool := (lo <=? b) && (b <=? hi).
Definition continuation (b : Z) : bool := in_range 0x80 0xBF b.

(** The second byte allowed after a first byte of a longer sequence. *)
Definition second3 (b c : Z) : bool :=
  if b =? 0xE0 then in_range 0xA0 0xBF c
  else if b =? 0xED then in_range 0x80 0x9F c
  else continuation c.
Definition second4 (b c : Z) : bool :=
  if b =? 0xF0 then in_range 0x90 0xBF c
  else if b =? 0xF4 then in_range 0x80 0x8F c
  else continuation c.

(** What starts at the head of the input: a character of some length, an
    invalid part of some length, or a character cut off by the end. *)
Inductive sequence := Character (n : nat) | Invalid (n : nat) | Truncated.

Definition utf8_head (b : Z) (rest : bytes) : sequence :=
  if b <? 0x80 then Character 1
  else if in_range 0xC2 0xDF b then
    match rest with
    | [] => Truncated
    | c :: _ => if continuation c then Character 2 else Invalid 1
    end
  else if in_range 0xE0 0xEF b then
    match rest with
    | [] => Truncated
    | c :: rest =>
        if second3 b c then
          match rest with
          | [] => Truncated
          | d :: _ => if continuation d then Character 3 else Invalid 2
          end
        else Invalid 1
    end
  else if in_range 0xF0 0xF4 b then
    match rest with
    | [] => Truncated
    | c :: rest =>
        if second4 b c then
          match rest with
          | [] => Truncated
          | d :: rest =>
              if continuation d then
                match rest with
                | [] => Truncated
                | e :: _ => if continuation e then Character 4 else Invalid 3
                end
              else Invalid 2
          end
        else Invalid 1
    end
  else Invalid 1.

(** [skip] counts the bytes of the sequence under way that are still to pass. *)
Fixpoint utf8_scan (skip position : nat) (l : bytes) : option Utf8Error :=
  match l with
  | [] => None
  | b :: l =>
      match skip with
      | S skip => utf8_scan skip (S position) l
      | O =>
          match utf8_head b l with
          | Character n => utf8_scan (pred n) (S position) l
          | Invalid n => Some {| valid_up_to := position; error_len := Some n |}
          | Truncated => Some {| valid_up_to := position; error_len := None |}
          end
      end
  end.

Definition utf8_error (l : bytes) : option Utf8Error := utf8_scan 0 0 l.
Definition valid_utf8 (l : bytes) : bool := bool_decide (utf8_error l = None).

Definition replacement : bytes := [0xEF; 0xBF; 0xBD].

Fixpoint lossy_scan (skip : nat) (keep : bool) (l : bytes) : bytes :=
  match l with
  | [] => []
  | b :: l =>
      match skip with
      | S skip => (if keep then [b] else []) ++ lossy_scan skip keep l
      | O =>
          match utf8_head b l with
          | Character n => b :: lossy_scan (pred n) true l
          | Invalid n => replacement ++ lossy_scan (pred n) false l
          | Truncated => replacement
          end
      end
  end.

Definition from_utf8_lossy (l : bytes) : bytes := lossy_scan 0 true l.

Lemma lossy_scan_valid skip position l :
  utf8_scan skip position l = None → lossy_scan skip true l = l.
Proof.
  revert skip position. induction l as [|b l IH]; intros [|skip] position; cbn [utf8_scan lossy_scan];
    try done.
  - destruct (utf8_head b l); [|done..]. intros H. f_equal. by eapply IH.
  - intros H. cbn [app]. f_equal. by eapply IH.
Qed.

Lemma from_utf8_lossy_valid l : valid_utf8 l = true → from_utf8_lossy l = l.
Proof. intros H%bool_decide_eq_true_1. by eapply lossy_scan_valid. Qed.

(** The errors of [VbcError] that decoding raises. *)
Inductive VbcError :=
| UnexpectedEof (offset expected : Z)
| VarIntOverflow (offset : Z)
| InvalidUtf8 (offset : Z) (error : Utf8Error)
| InvalidTypeRef (offset discriminant : Z)
| TableTooLarge (field : string) (count max : Z)
| InvalidOpcode (byte : Z)
| Deserialization (message : string)
| InvalidInstructionEncoding (offset : Z) (reason : string)
| InvalidTypeId (id : Z)
| CircularType (id : Z)
| InvalidFunctionId (id : Z)
| InvalidConstId (id : Z)
| InvalidStringId (id : Z)
| RegisterOutOfBounds (reg max : Z) (context : string)
| JumpOutOfBounds (target max offset : Z).

#[export] Instance VbcError_eq_dec : EqDecision VbcError.
Proof. solve_decision. Defined.

Definition eof (offset expected : Z) : VbcError := UnexpectedEof offset expected.

(** A decoder fails with an error or panics. *)
Inductive fault := Failed (e : VbcError) | Panicked.

#[export] Instance fault_eq_dec : EqDecision fault.
Proof. solve_decision. Defined.

Definition decoder (A : Type) : Type := nat → outcome fault A * nat.

#[export] Instance decoder_ret : MRet decoder := λ A a offset, (Ok a, offset).
#[export] Instance decoder_bind : MBind decoder := λ A B f m offset,
  match m offset with
  | (Ok a, offset) => f a offset
  | (Err e, offset) => (Err e, offset)
  | (Gas k, offset) => (Gas k, offset)
  end.

#[export] Instance decoder_fmap : FMap decoder := λ A B f m, m ≫= λ a, mret (f a).

Definition fail {A} (e : VbcError) : decoder A := λ offset, (Err (Failed e), offset).
Definition panic {A} : decoder A := λ offset, (Err Panicked, offset).
Definition here : decoder nat := λ offset, (Ok offset, offset).
Definition seek (to : nat) : decoder unit := λ _, (Ok tt, to).

(** ** Variable-length integers *)

(** The [while v >= 0x80] loop, at most [fuel] times. *)
Fixpoint varint_while (fuel : nat) (v : Z) (output : bytes) : Z * bytes :=
  match fuel with
  | O => (v, output)
  | S fuel =>
      if 0x80 <=? v
      then varint_while fuel (Z.shiftr v 7) (output ++ [Z.lor (wrap 8 v) 0x80])
      else (v, output)
  end.

(** Ten rounds consume any 64-bit value. *)
Definition VARINT_FUEL : nat := 10.

Definition encode_varint (value : Z) (output : bytes) : bytes * nat :=
  let start_len := length output in
  let '(v, output) := varint_while VARINT_FUEL value output in
  let output := output ++ [wrap 8 v] in
  (output, (length output - start_len)%nat).

Section Writer.
(** A writer: [write_all] takes the bytes and either fails or moves on. *)
Context {W IoError : Type} (write_all : bytes → W → outcome IoError W).

Fixpoint write_while (fuel : nat) (v : Z) (count : nat) (writer : W)
    : outcome IoError (Z * nat * W) :=
  match fuel with
  | O => Ok (v, count, writer)
  | S fuel =>
      if 0x80 <=? v
      then
        writer ← write_all [Z.lor (wrap 8 v) 0x80] writer;
        write_while fuel (Z.shiftr v 7) (S count) writer
      else Ok (v, count, writer)
  end.

Definition write_varint (value : Z) (writer : W) : outcome IoError (nat * W) :=
  '(v, count, writer) ← write_while VARINT_FUEL value 0 writer;
  writer ← write_all [wrap 8 v] writer;
  Ok (S count, writer).
End Writer.

Inductive varint_io_error (E : Type) := IoError (e : E) | InvalidData (message : string).
Arguments IoError {E} e.
Arguments InvalidData {E} message.

Section Reader.
(** A reader: [read_exact] into a one-byte buffer. *)
Context {R E : Type} (read_exact : R → outcome E Z * R).

Fixpoint read_loop (fuel : nat) (result shift : Z) (reader : R)
    : outcome (varint_io_error E) Z * R :=
  match fuel with
  | O => (Gas TraversalGas, reader)
  | S fuel =>
      match read_exact reader with
      | (Err e, reader) => (Err (IoError e), reader)
      | (Gas k, reader) => (Gas k, reader)
      | (Ok byte, reader) =>
          if (shift =? 63) && negb (Z.land byte 0x7E =? 0)
          then (Err (InvalidData "VarInt overflow: byte[9] bits 1..6 must be zero for u64"), reader)
          else
            let result := Z.lor result (wrap 64 (Z.shiftl (Z.land byte 0x7F) shift)) in
            if Z.land byte 0x80 =? 0 then (Ok result, reader)
            else
              let shift := shift + 7 in
              if 64 <=? shift then (Err (InvalidData "VarInt overflow"), reader)
              else read_loop fuel result shift reader
      end
  end.

Definition read_varint (reader : R) : outcome (varint_io_error E) Z * R :=
  read_loop VARINT_FUEL 0 0 reader.
End Reader.

Section Slice.
Context (data : bytes).

Fixpoint varint_loop (start fuel : nat) (result shift : Z) : decoder Z := λ offset,
  match fuel with
  | O => (Gas TraversalGas, offset)
  | S fuel =>
      match data !! offset with
      | None => (Err (Failed (eof (Z.of_nat offset) 1)), offset)
      | Some byte =>
          let offset := S offset in
          if (shift =? 63) && negb (Z.land byte 0x7E =? 0)
          then (Err (Failed (VarIntOverflow (Z.of_nat start))), offset)
          else
            let result := Z.lor result (wrap 64 (Z.shiftl (Z.land byte 0x7F) shift)) in
            if Z.land byte 0x80 =? 0 then (Ok result, offset)
            else
              let shift := shift + 7 in
              if 64 <=? shift
              then (Err (Failed (VarIntOverflow (Z.of_nat start))), offset)
              else varint_loop start fuel result shift offset
      end
  end.

Definition decode_varint : decoder Z := λ offset, varint_loop offset VARINT_FUEL 0 0 offset.

(** ** Zigzag signed integers *)

Definition zigzag (value : Z) : Z :=
  wrap 64 (Z.lxor (to_signed 64 (Z.shiftl value 1)) (Z.shiftr value 63)).

Definition encode_signed_varint (value : Z) (output : bytes) : bytes * nat :=
  encode_varint (zigzag value) output.

Definition decode_signed_varint : decoder Z :=
  zigzag ← decode_varint;
  mret (Z.lxor (to_signed 64 (Z.shiftr zigzag 1)) (- to_signed 64 (Z.land zigzag 1))).

(** ** Fixed-width integers *)

(** The tail of the input from the offset and its [first_chunk::<N>()]. *)
Definition decode_fixed (n : nat) : decoder bytes := λ offset,
  match (if (offset <=? length data)%nat then Some (drop offset data) else None) ≫=
        (λ tail, if (n <=? length tail)%nat then Some (take n tail) else None) with
  | None => (Err (Failed (eof (Z.of_nat offset) (Z.of_nat n))), offset)
  | Some bytes => (Ok bytes, (offset + n)%nat)
  end.

Definition encode_u16 (value : Z) (output : bytes) : bytes := output ++ to_le_bytes 2 value.
Definition decode_u16 : decoder Z := from_le_bytes <$> decode_fixed 2.
Definition encode_u32 (value : Z) (output : bytes) : bytes := output ++ to_le_bytes 4 value.
Definition decode_u32 : decoder Z := from_le_bytes <$> decode_fixed 4.
Definition encode_u64 (value : Z) (output : bytes) : bytes := output ++ to_le_bytes 8 value.
Definition decode_u64 : decoder Z := from_le_bytes <$> decode_fixed 8.
Definition encode_i64 (value : Z) (output : bytes) : bytes :=
  output ++ to_le_bytes 8 (wrap 64 value).
Definition decode_i64 : decoder Z := (λ l, to_signed 64 (from_le_bytes l)) <$> decode_fixed 8.
(** A float is its bit pattern. *)
Definition encode_f64 (bits : Z) (output : bytes) : bytes := output ++ to_le_bytes 8 bits.
Definition decode_f64 : decoder Z := from_le_bytes <$> decode_fixed 8.
Definition decode_f32 : decoder Z := from_le_bytes <$> decode_fixed 4.

Definition decode_u8 : decoder Z := λ offset,
  match data !! offset with
  | None => (Err (Failed (eof (Z.of_nat offset) 1)), offset)
  | Some byte => (Ok byte, S offset)
  end.

End Slice.

(** ** Registers *)

(** [Reg(pub u16)] and [RegRange] of instruction.rs. *)
Abbreviation Reg := Z.
Record RegRange := { start : Reg; count : Z }.

#[export] Instance RegRange_eq_dec : EqDecision RegRange.
Proof. solve_decision. Defined.

Definition encode_reg (reg : Reg) (output : bytes) : bytes :=
  if reg <? 128 then output ++ [wrap 8 reg]
  else output ++ [Z.lor 0x80 (wrap 8 (Z.shiftr reg 8))] ++ [wrap 8 reg].

Definition decode_reg (data : bytes) : decoder Reg :=
  byte ← decode_u8 data;
  if Z.land byte 0x80 =? 0 then mret byte
  else
    let high := wrap 16 (Z.shiftl (Z.land byte 0x7F) 8) in
    low ← decode_u8 data;
    mret (Z.lor high low).

Definition encode_reg_range (range : RegRange) (output : bytes) : bytes :=
  encode_reg (start range) output ++ [count range].

Definition decode_reg_range (data : bytes) : decoder RegRange :=
  start ← decode_reg data;
  count ← decode_u8 data;
  mret {| start := start; count := count |}.

(** ** Strings and payloads *)

Definition encode_string (s : bytes) (output : bytes) : bytes :=
  (encode_varint (Z.of_nat (length s)) output).1 ++ s.

(** The range is its start and its length; [usize] has 64 bits, so the
    conversion of the decoded length never fails. *)
Definition decode_payload_range (data : bytes) : decoder (nat * nat) :=
  len ← decode_varint data;
  start ← here;
  if Z.of_nat (length data) - Z.of_nat start <? len
  then fail (eof (Z.of_nat start) len)
  else
    _ ← seek (start + Z.to_nat len)%nat;
    mret (start, Z.to_nat len).

Definition slice (data : bytes) (start len : nat) : bytes := take len (drop start data).

Definition decode_string (data : bytes) : decoder bytes :=
  '(start, len) ← decode_payload_range data;
  let s := slice data start len in
  match utf8_error s with
  | None => mret s
  | Some error => fail (InvalidUtf8 (wrap 32 (Z.of_nat start)) error)
  end.

Definition decode_bytes (data : bytes) : decoder bytes :=
  '(start, len) ← decode_payload_range data;
  mret (slice data start len).

(** ** Sizes *)

Definition leading_zeros (value : Z) : Z := if value =? 0 then 64 else 63 - Z.log2 value.

Definition varint_size (value : Z) : nat :=
  if value =? 0 then 1
  else
    let bits := 64 - leading_zeros value in
    Z.to_nat ((bits + 6) `div` 7).

Definition signed_varint_size (value : Z) : nat := varint_size (zigzag value).

Definition reg_size (reg : Reg) : nat := if reg <? 128 then 1 else 2.
