(* ===== verification/EncodingFacts.v ===== *)
(** * Correctness of the encoding primitives

    [decode_varint] is compared with a reference reading of the input (the
    continued bytes, then the last one, as digits in base 128), on every input;
    the encoders are inverted by the decoders, wherever the encoding starts and
    whatever follows it. *)

From S2P Require Import Prelude Words Encoding.

(** ** Facts about single bytes, by enumeration *)
Lemma byte_cases (P : Z → bool) : forallb P (seqZ 0 256) = true → ∀ b, is_u 8 b → P b = true.
Proof.
  intros H b Hb. rewrite forallb_forall in H. apply H, list_elem_of_In, elem_of_seqZ.
  unfold is_u in Hb. change (2 ^ 8) with 256 in Hb. lia.
Qed.

Ltac by_byte b H :=
  let H' := fresh in
  pose proof (byte_cases _ ltac:(vm_compute; reflexivity) b H) as H'; cbv beta in H'.

Lemma byte_continued b : is_u 8 b → (Z.land b 0x80 =? 0) = (b <? 128).
Proof.
  intros H. apply eqb_prop.
  by apply (byte_cases (λ b, eqb (Z.land b 0x80 =? 0) (b <? 128))); [vm_compute|].
Qed.

Lemma byte_high_bits b : is_u 8 b → (Z.land b 0x7E =? 0) = (b mod 128 <? 2).
Proof.
  intros H. apply eqb_prop.
  by apply (byte_cases (λ b, eqb (Z.land b 0x7E =? 0) (b mod 128 <? 2))); [vm_compute|].
Qed.

Lemma byte_low b : Z.land b 0x7F = b mod 128.
Proof. exact (land_mask b 7 ltac:(lia)). Qed.

Lemma byte_mark b : is_u 8 b → Z.lor b 0x80 = b mod 128 + 128.
Proof.
  intros H. apply Z.eqb_eq.
  by apply (byte_cases (λ b, Z.lor b 0x80 =? b mod 128 + 128)); [vm_compute|].
Qed.

(** ** Base 128 *)
Fixpoint digits (l : bytes) : Z :=
  match l with
  | [] => 0
  | b :: l => b mod 128 + 128 * digits l
  end.

Definition continued (l : bytes) : Prop := Forall (λ b, 128 ≤ b < 256) l.

Notation "128^ n" := (2 ^ (7 * Z.of_nat n)) (at level 30, format "128^ n").

Lemma pow128_S n : 128^ (S n) = 128 * 128^ n.
Proof. rewrite Nat2Z.inj_succ. replace (7 * Z.succ (Z.of_nat n)) with (7 + 7 * Z.of_nat n) by lia.
  by rewrite Z.pow_add_r by lia. Qed.

Lemma pow128_pos n : 0 < 128^ n.
Proof. lia. Qed.

Lemma digits_range l : 0 ≤ digits l < 128^ (length l).
Proof.
  induction l as [|b l IH]; [done|]. cbn [digits length]. rewrite pow128_S.
  pose proof (Z.mod_pos_bound b 128 ltac:(lia)). lia.
Qed.

Lemma digits_app l k : digits (l ++ k) = digits l + digits k * 128^ (length l).
Proof.
  induction l as [|b l IH]; cbn [digits app length]; [by rewrite Z.mul_1_r|].
  rewrite IH, pow128_S. ring.
Qed.

Lemma digits_last l t : 0 ≤ t < 128 → digits (l ++ [t]) = digits l + t * 128^ (length l).
Proof. intros. rewrite digits_app. cbn [digits]. rewrite Z.mod_small by lia. ring. Qed.

(** ** Encoding *)
Lemma varint_while_spec fuel v output :
  0 ≤ v < 128^ (S fuel) →
  ∃ c t, varint_while fuel v output = (t, output ++ c) ∧ continued c ∧ 0 ≤ t < 128 ∧
    v = digits c + t * 128^ (length c) ∧ (t = 0 → c = []).
Proof.
  revert v output. induction fuel as [|fuel IH]; intros v output Hv.
  - exists [], v. rewrite app_nil_r. change (128^ 1) with 128 in Hv.
    cbn [digits length]. change (128^ 0) with 1. split_and!; done || lia || constructor.
  - cbn [varint_while]. destruct (Z.leb_spec 0x80 v).
    + destruct (IH (Z.shiftr v 7) (output ++ [Z.lor (wrap 8 v) 0x80])) as (c & t & E & Hc & Ht & Hd & Hz).
      { rewrite shiftr_div by lia. rewrite (pow128_S (S fuel)) in Hv. change (2 ^ 7) with 128.
        split; [apply Z.div_pos; lia|apply Z.div_lt_upper_bound; lia]. }
      rewrite E. assert (Hb : Z.lor (wrap 8 v) 0x80 = v mod 128 + 128).
      { rewrite byte_mark by by apply wrap_range. unfold wrap.
        change (2 ^ 8) with (128 * 2). rewrite Z.rem_mul_r by lia.
        by rewrite Z.mul_comm, Z.mod_add, Zmod_mod by lia. }
      rewrite Hb. rewrite shiftr_div in Hd by lia. change (2 ^ 7) with 128 in Hd.
      pose proof (Z.div_mod v 128 ltac:(lia)). pose proof (Z.mod_pos_bound v 128 ltac:(lia)).
      exists ((v mod 128 + 128) :: c), t. rewrite <- (assoc_L app). cbn [app digits length].
      rewrite pow128_S. split_and!; [done| |lia..| |].
      * constructor; [lia|done].
      * replace ((v mod 128 + 128) mod 128) with (v mod 128); [lia|].
        by rewrite <- (Z.mul_1_l 128) at 3; rewrite Z.mod_add, Zmod_mod by lia.
      * intros ->. rewrite (Hz eq_refl) in Hd. cbn in Hd. lia.
    + exists [], v. rewrite app_nil_r. cbn [digits length]. change (128^ 0) with 1.
      split_and!; done || lia || constructor.
Qed.

Lemma varint_size_digits v n : 128^ n ≤ v < 128^ (S n) → varint_size v = S n.
Proof.
  intros H. unfold varint_size, leading_zeros. pose proof (pow128_pos n).
  rewrite (proj2 (Z.eqb_neq v 0)) by lia.
  assert (Hl : 7 * Z.of_nat n ≤ Z.log2 v < 7 * Z.of_nat (S n)).
  { split; [by apply Z.log2_le_pow2; lia|by apply Z.log2_lt_pow2; lia]. }
  cbv zeta. replace (64 - (63 - Z.log2 v) + 6) with (Z.log2 v + 1 * 7) by lia.
  rewrite Z.div_add by lia.
  rewrite <- (Z.div_unique (Z.log2 v) 7 (Z.of_nat n) (Z.log2 v - 7 * Z.of_nat n)) by lia. lia.
Qed.

(** The bytes [encode_varint] appends. *)
Lemma encode_varint_spec v output :
  is_u 64 v →
  ∃ c t, encode_varint v output = (output ++ c ++ [t], S (length c)) ∧ continued c ∧
    0 ≤ t < 128 ∧ digits (c ++ [t]) = v ∧ S (length c) = varint_size v ∧
    (t = 0 → c = []) ∧ (length c ≤ 9)%nat.
Proof.
  intros Hv. assert (Hb : 0 ≤ v < 128^ (S VARINT_FUEL)).
  { unfold is_u in Hv. change (128^ (S VARINT_FUEL)) with (2 ^ 77). lia. }
  destruct (varint_while_spec VARINT_FUEL v output Hb) as (c & t & E & Hc & Ht & Hd & Hz).
  pose proof (digits_range c) as Hr.
  exists c, t. unfold encode_varint. rewrite E. unfold wrap. change (2 ^ 8) with 256.
  rewrite (Z.mod_small t 256) by lia. rewrite digits_last by done.
  assert (Hs : S (length c) = varint_size v).
  { destruct (decide (t = 0)) as [->|].
    - rewrite (Hz eq_refl) in *. cbn in Hd. by subst.
    - symmetry. apply varint_size_digits. rewrite pow128_S. nia. }
  split_and!; try (done || lia).
  - rewrite (assoc_L app). f_equal. rewrite !length_app. cbn [length]. lia.
  - destruct (decide (t = 0)) as [->|]; [rewrite (Hz eq_refl); cbn; lia|].
    destruct (decide (length c ≤ 9)%nat) as [|Hn]; [done|]. exfalso.
    assert (128^ 10 ≤ 128^ (length c)) by (apply Z.pow_le_mono_r; lia).
    change (128^ 10) with (2 ^ 70) in *. unfold is_u in Hv. nia.
Qed.

(** ** Decoding *)
Lemma drop_cons (data : bytes) offset b l :
  drop offset data = b :: l → data !! offset = Some b ∧ drop (S offset) data = l.
Proof.
  intros H. split.
  - rewrite <- (Nat.add_0_r offset), <- lookup_drop, H. done.
  - rewrite <- Nat.add_1_r, <- drop_drop, H. done.
Qed.

Lemma drop_nil (data : bytes) (offset : nat) :
  (offset ≤ length data)%nat → drop offset data = [] → offset = length data.
Proof. intros H E. apply (f_equal length) in E. rewrite length_drop in E. cbn in E. lia. Qed.

Lemma wf_drop (data : bytes) offset b l :
  well_formed_bytes data → drop offset data = b :: l → is_u 8 b.
Proof.
  intros H [E _]%drop_cons. by eapply Forall_lookup_1 in H.
Qed.

Section decode.
Context (data : bytes) (start : nat).

Lemma varint_loop_more fuel result k offset b :
  data !! offset = Some b → 128 ≤ b < 256 → (k ≤ 8)%nat → 0 ≤ result < 128^ k →
  varint_loop data start (S fuel) result (7 * Z.of_nat k) offset =
    varint_loop data start fuel (result + b mod 128 * 128^ k) (7 * Z.of_nat (S k)) (S offset).
Proof.
  intros Hl Hb Hk Hr. cbn [varint_loop]. rewrite Hl.
  rewrite (proj2 (Z.eqb_neq (7 * Z.of_nat k) 63)) by lia. cbn [andb].
  rewrite byte_continued by (unfold is_u; lia). rewrite (proj2 (Z.ltb_ge b 128)) by lia.
  rewrite (proj2 (Z.leb_gt 64 (7 * Z.of_nat k + 7))) by lia.
  rewrite byte_low. f_equal; [|lia].
  pose proof (Z.mod_pos_bound b 128 ltac:(lia)) as Hm.
  assert (128^ k ≤ 2 ^ 56) by (apply Z.pow_le_mono_r; lia).
  rewrite wrap_id; [by apply lor_shiftl; lia|].
  rewrite Z.shiftl_mul_pow2 by lia. unfold is_u. change (2 ^ 64) with (256 * 2 ^ 56). nia.
Qed.

(** A run of continued bytes accumulates their digits. *)
Lemma varint_loop_run c fuel result k offset l :
  drop offset data = c ++ l → continued c → (k + length c ≤ 9)%nat → 0 ≤ result < 128^ k →
  varint_loop data start (length c + fuel) result (7 * Z.of_nat k) offset =
    varint_loop data start fuel (result + digits c * 128^ k)
      (7 * Z.of_nat (k + length c)) (offset + length c)%nat ∧
  drop (offset + length c) data = l ∧
  0 ≤ result + digits c * 128^ k < 128^ (k + length c).
Proof.
  revert result k offset. induction c as [|b c IH]; intros result k offset Hd Hc Hk Hr.
  - cbn [length digits app] in *. rewrite !Nat.add_0_r, Z.mul_0_l, Z.add_0_r. done.
  - apply Forall_cons in Hc as [Hb Hc]. cbn [app length] in *.
    apply drop_cons in Hd as [Hl Hd]. cbn [Nat.add].
    rewrite (varint_loop_more _ _ _ _ b) by (done || lia).
    pose proof (Z.mod_pos_bound b 128 ltac:(lia)).
    destruct (IH (result + b mod 128 * 128^ k) (S k) (S offset)) as (E & E' & Hr');
      [done|done|lia|rewrite pow128_S; nia|].
    rewrite E. cbn [digits].
    replace (result + (b mod 128 + 128 * digits c) * 128^ k)
      with (result + b mod 128 * 128^ k + digits c * 128^ (S k)) by (rewrite pow128_S; ring).
    rewrite <- !Nat.add_succ_comm. cbn [Nat.add] in *.
    replace (k + S (length c))%nat with (S (k + length c)) by lia.
    replace (offset + S (length c))%nat with (S (offset + length c)) by lia. done.
Qed.

(** One last byte, at the position it has in the encoding. *)
Lemma varint_loop_last fuel result k offset t :
  data !! offset = Some t → 0 ≤ t < 128 → (k ≤ 9)%nat → 0 ≤ result < 128^ k →
  varint_loop data start (S fuel) result (7 * Z.of_nat k) offset =
    (if result + t * 128^ k <? 2 ^ 64
     then Ok (result + t * 128^ k) else Err (Failed (VarIntOverflow (Z.of_nat start))), S offset).
Proof.
  intros Hl Ht Hk Hr. cbn [varint_loop]. rewrite Hl.
  rewrite byte_continued, byte_high_bits, byte_low by (unfold is_u; lia).
  rewrite (Z.mod_small t 128), (proj2 (Z.ltb_lt t 128)) by lia.
  assert (H9 : k = 9%nat ∨ (k ≤ 8)%nat) by lia. destruct H9 as [->|H8].
  - change (7 * Z.of_nat 9 =? 63) with true. change (128^ 9) with (2 ^ 63) in *. cbn [andb].
    destruct (Z.ltb_spec t 2); cbn [negb].
    + rewrite (proj2 (Z.ltb_lt _ _)) by lia.
      rewrite wrap_id, lor_shiftl by (done || lia || (rewrite Z.shiftl_mul_pow2; unfold is_u; lia)).
      done.
    + by rewrite (proj2 (Z.ltb_ge _ _)) by lia.
  - rewrite (proj2 (Z.eqb_neq (7 * Z.of_nat k) 63)) by lia. cbn [andb].
    assert (128^ k ≤ 2 ^ 56) by (apply Z.pow_le_mono_r; lia).
    assert (result + t * 128^ k < 2 ^ 64) by (change (2 ^ 64) with (256 * 2 ^ 56); nia).
    rewrite (proj2 (Z.ltb_lt _ _)) by done.
    rewrite wrap_id, lor_shiftl by (done || lia || (rewrite Z.shiftl_mul_pow2; unfold is_u; nia)).
    done.
Qed.

(** A tenth continued byte is one too many. *)
Lemma varint_loop_tenth fuel result offset b :
  data !! offset = Some b → 128 ≤ b < 256 →
  varint_loop data start (S fuel) result (7 * Z.of_nat 9) offset =
    (Err (Failed (VarIntOverflow (Z.of_nat start))), S offset).
Proof.
  intros Hl Hb. cbn [varint_loop]. rewrite Hl.
  change (7 * Z.of_nat 9 =? 63) with true. cbn [andb].
  rewrite byte_continued by (unfold is_u; lia). rewrite (proj2 (Z.ltb_ge b 128)) by lia.
  by destruct (negb _).
Qed.

Lemma varint_loop_eof fuel result k offset :
  data !! offset = None →
  varint_loop data start (S fuel) result k offset =
    (Err (Failed (UnexpectedEof (Z.of_nat offset) 1)), offset).
Proof. intros Hl. cbn [varint_loop]. by rewrite Hl. Qed.
End decode.

(** ** The variable-length integers *)

(** The decoder reads its input as digits in base 128, on every input.
    With [c] the continued bytes at the offset and [l] what follows them: at
    most nine of them and a last byte make a number, which is returned if it
    fits 64 bits and refused as an overflow otherwise; at most nine and the end
    of the input fail at the end; ten or more overflow at the tenth. *)
Theorem decode_varint_exact (data : bytes) (offset : nat) (c l : bytes) :
  well_formed_bytes data → (offset ≤ length data)%nat →
  drop offset data = c ++ l → continued c → Forall (λ b, b < 128) (take 1 l) →
  decode_varint data offset =
    if (10 <=? length c)%nat then (Err (Failed (VarIntOverflow (Z.of_nat offset))), (offset + 10)%nat)
    else match l with
    | [] => (Err (Failed (UnexpectedEof (Z.of_nat (length data)) 1)), length data)
    | t :: _ =>
        (if digits (c ++ [t]) <? 2 ^ 64 then Ok (digits (c ++ [t]))
         else Err (Failed (VarIntOverflow (Z.of_nat offset))), (offset + length c + 1)%nat)
    end.
Proof.
  intros Hw Ho Hd Hc Hl. unfold decode_varint. destruct (Nat.leb_spec 10 (length c)).
  - rewrite <- (take_drop 9 c) in Hd, Hc. apply Forall_app in Hc as [Hc1 Hc2].
    destruct (drop 9 c) as [|b c2] eqn:E; [apply (f_equal length) in E; rewrite length_drop in E; cbn in E; lia|].
    apply Forall_cons in Hc2 as [Hb _]. rewrite <- (assoc_L app) in Hd.
    assert (H9 : length (take 9 c) = 9%nat) by (rewrite length_take; lia).
    destruct (varint_loop_run data offset (take 9 c) 1 0 0 offset _ Hd Hc1) as (R & Hd' & _); [lia|lia|].
    rewrite H9 in R, Hd'. change (7 * Z.of_nat 0) with 0 in R. cbn [Nat.add] in R.
    unfold VARINT_FUEL. rewrite R. cbn [app] in Hd'. apply drop_cons in Hd' as [Hb' _].
    rewrite (varint_loop_tenth data offset 0 _ _ b) by done. f_equal. lia.
  - destruct (varint_loop_run data offset c (10 - length c) 0 0 offset _ Hd Hc) as (R & Hd' & Hr); [lia|lia|].
    replace (length c + (10 - length c))%nat with VARINT_FUEL in R by (unfold VARINT_FUEL; lia).
    change (7 * Z.of_nat 0) with 0 in R. rewrite R. cbn [Nat.add] in Hr |- *.
    replace (10 - length c)%nat with (S (9 - length c)) by lia.
    destruct l as [|t l].
    + apply drop_nil in Hd'; [|apply (f_equal length) in Hd; rewrite length_drop, length_app in Hd; cbn in Hd; lia].
      rewrite Hd'. rewrite varint_loop_eof; [done|]. apply lookup_ge_None. lia.
    + pose proof (wf_drop _ _ _ _ Hw Hd') as Hu. apply drop_cons in Hd' as [Ht _].
      apply Forall_inv in Hl. unfold is_u in Hu.
      rewrite (varint_loop_last data offset _ _ _ _ t) by (done || lia).
      rewrite digits_last by lia. change (128^ 0) with 1. rewrite Z.mul_1_r, Z.add_0_l.
      f_equal. lia.
Qed.

Lemma continued_wf c : continued c → well_formed_bytes c.
Proof. intros H. eapply Forall_impl; [exact H|]. cbn. unfold is_u. intros. lia. Qed.

Lemma decode_encode_varint v (before after : bytes) :
  is_u 64 v →
  ∃ out n, encode_varint v before = (before ++ out, n) ∧ length out = n ∧ n = varint_size v ∧
    (1 ≤ n ≤ 10)%nat ∧ well_formed_bytes out ∧
    decode_varint (before ++ out ++ after) (length before) = (Ok v, (length before + n)%nat).
Proof.
  intros Hv. destruct (encode_varint_spec v before Hv) as (c & t & E & Hc & Ht & Hd & Hs & _ & H9).
  exists (c ++ [t]), (S (length c)). rewrite length_app. cbn [length].
  assert (Hdrop : drop (length before) (before ++ (c ++ [t]) ++ after) = c ++ t :: after)
    by by rewrite drop_app_length, <- (assoc_L app).
  split_and!; try (done || lia).
  { apply Forall_app. split; [by apply continued_wf|]. constructor; [unfold is_u; lia|done]. }
  destruct (varint_loop_run _ (length before) c (10 - length c) 0 0 (length before) _ Hdrop Hc)
    as (R & Hd' & Hr); [lia|lia|].
  unfold decode_varint. replace VARINT_FUEL with (length c + (10 - length c))%nat by (unfold VARINT_FUEL; lia).
  change (7 * Z.of_nat 0) with 0 in R. rewrite R. cbn [Nat.add] in *.
  apply drop_cons in Hd' as [Ht' _]. replace (10 - length c)%nat with (S (9 - length c)) by lia.
  rewrite (varint_loop_last _ _ _ _ _ _ t) by (done || lia).
  rewrite digits_last in Hd by lia. rewrite Z.mul_1_r, Z.add_0_l, Hd.
  unfold is_u in Hv. rewrite (proj2 (Z.ltb_lt _ _)) by lia. f_equal. lia.
Qed.

(** ** Zigzag *)
Lemma to_signed_congr w z : 0 < w → ∃ k, to_signed w z = z + k * 2 ^ w.
Proof.
  intros Hw. unfold to_signed, wrap. pose proof (Z.div_mod z (2 ^ w) ltac:(lia)).
  cbv zeta. case_match.
  - exists (- (z `div` 2 ^ w)). lia.
  - exists (- (z `div` 2 ^ w) - 1). lia.
Qed.

Lemma lxor_minus_1 a : Z.lxor a (-1) = - a - 1.
Proof. rewrite Z.lxor_m1_r. unfold Z.lnot. lia. Qed.

Lemma zigzag_spec v : is_i 64 v → zigzag v = if 0 <=? v then 2 * v else - 2 * v - 1.
Proof.
  unfold is_i. intros Hv. change (2 ^ (64 - 1)) with (2 ^ 63) in Hv. unfold zigzag.
  rewrite Z.shiftl_mul_pow2, shiftr_div by lia. change (2 ^ 1) with 2.
  destruct (to_signed_congr 64 (v * 2) ltac:(lia)) as [k ->].
  change (2 ^ 64) with (2 * 2 ^ 63). destruct (Z.leb_spec 0 v).
  - rewrite Z.div_small by lia. rewrite Z.lxor_0_r.
    rewrite <- (wrap_id 64 (2 * v)) by (unfold is_u; lia). unfold wrap.
    change (2 ^ 64) with (2 * 2 ^ 63). rewrite Z.mod_add by lia. f_equal. lia.
  - rewrite <- (Z.div_unique v (2 ^ 63) (-1) (v + 2 ^ 63)) by lia. rewrite lxor_minus_1.
    rewrite <- (wrap_id 64 (- 2 * v - 1)) by (unfold is_u; lia). unfold wrap.
    change (2 ^ 64) with (2 * 2 ^ 63).
    replace (- (v * 2 + k * (2 * 2 ^ 63)) - 1) with (- 2 * v - 1 + - k * (2 * 2 ^ 63)) by lia.
    by rewrite Z.mod_add by lia.
Qed.

Lemma zigzag_range v : is_i 64 v → is_u 64 (zigzag v).
Proof. intros _. unfold zigzag. by apply wrap_range. Qed.

Lemma zigzag_inverse v :
  is_i 64 v →
  Z.lxor (to_signed 64 (Z.shiftr (zigzag v) 1)) (- to_signed 64 (Z.land (zigzag v) 1)) = v.
Proof.
  intros Hv. pose proof (zigzag_range v Hv) as Hu. rewrite zigzag_spec in * by done.
  unfold is_u, is_i in *. change (2 ^ (64 - 1)) with (2 ^ 63) in Hv.
  assert (L : ∀ a, Z.land a 1 = a mod 2) by (intros; apply (land_mask a 1); lia).
  rewrite L, shiftr_div by lia. change (2 ^ 1) with 2.
  destruct (Z.leb_spec 0 v).
  - rewrite <- (Z.div_unique (2 * v) 2 v 0), <- (Z.mod_unique (2 * v) 2 v 0) by lia.
    rewrite !to_signed_small by (try done; change (2 ^ (64 - 1)) with (2 ^ 63); lia).
    apply Z.lxor_0_r.
  - rewrite <- (Z.div_unique (- 2 * v - 1) 2 (- v - 1) 1), <- (Z.mod_unique (- 2 * v - 1) 2 (- v - 1) 1) by lia.
    rewrite !to_signed_small by (try done; change (2 ^ (64 - 1)) with (2 ^ 63); lia).
    change (- (1)) with (-1). rewrite lxor_minus_1. lia.
Qed.

(** Every 64-bit integer, unsigned or signed, is read back from its encoding,
    wherever the encoding starts and whatever follows; the encoding has
    the size announced for it, between one and ten bytes. *)
Theorem varint_roundtrip (before after : bytes) :
  (∀ v, is_u 64 v →
    let '(out, n) := encode_varint v before in
    take (length before) out = before ∧ length out = (length before + n)%nat ∧
    n = varint_size v ∧ (1 ≤ n ≤ 10)%nat ∧
    decode_varint (out ++ after) (length before) = (Ok v, length out)) ∧
  (∀ v, is_i 64 v →
    let '(out, n) := encode_signed_varint v before in
    take (length before) out = before ∧ length out = (length before + n)%nat ∧
    n = signed_varint_size v ∧ (1 ≤ n ≤ 10)%nat ∧
    decode_signed_varint (out ++ after) (length before) = (Ok v, length out)).
Proof.
  split; intros v Hv.
  - destruct (decode_encode_varint v before after Hv) as (out & n & -> & Hl & Hn & Hb & _ & Hd).
    rewrite take_app_length, length_app, <- (assoc_L app), Hd, Hl. done.
  - unfold encode_signed_varint, decode_signed_varint, signed_varint_size.
    destruct (decode_encode_varint (zigzag v) before after (zigzag_range v Hv))
      as (out & n & -> & Hl & Hn & Hb & _ & Hd).
    rewrite take_app_length, length_app, <- (assoc_L app), Hl.
    unfold mbind, decoder_bind. rewrite Hd. cbn [mret decoder_ret].
    rewrite zigzag_inverse by done. done.
Qed.


(** ** The streaming writer and reader *)

(** A vector as a writer and a slice as a reader. *)
Definition vec_write_all (l : bytes) (w : bytes) : outcome Empty_set bytes := Ok (w ++ l).
Definition slice_read_exact (r : bytes) : outcome unit Z * bytes :=
  match r with [] => (Err tt, []) | b :: r => (Ok b, r) end.

Lemma varint_while_extends fuel v out : ∃ l, (varint_while fuel v out).2 = out ++ l.
Proof.
  revert v out. induction fuel as [|fuel IH]; intros v out; cbn [varint_while].
  - exists []. by rewrite app_nil_r.
  - destruct (0x80 <=? v).
    + destruct (IH (Z.shiftr v 7) (out ++ [Z.lor (wrap 8 v) 0x80])) as [l ->].
      rewrite <- (assoc_L app). by eexists.
    + exists []. by rewrite app_nil_r.
Qed.

Lemma write_while_vec fuel v count out :
  write_while vec_write_all fuel v count out =
    let '(v', out') := varint_while fuel v out in
    Ok (v', (count + (length out' - length out))%nat, out').
Proof.
  revert v count out. induction fuel as [|fuel IH]; intros v count out;
    cbn [write_while varint_while]; [by rewrite Nat.sub_diag, Nat.add_0_r|].
  destruct (0x80 <=? v); [|by rewrite Nat.sub_diag, Nat.add_0_r].
  cbn [vec_write_all mbind outcome_bind]. rewrite IH.
  destruct (varint_while_extends fuel (Z.shiftr v 7) (out ++ [Z.lor (wrap 8 v) 0x80])) as [l Hl].
  destruct (varint_while fuel _ _) as [v' out']. cbn [snd] in Hl. subst. do 3 f_equal.
  rewrite !length_app. cbn [length]. lia.
Qed.

Definition io_view (r : outcome fault Z) : outcome (varint_io_error unit) Z → Prop := λ r',
  match r, r' with
  | Ok v, Ok v' => v = v'
  | Err (Failed (UnexpectedEof _ _)), Err (IoError _) => True
  | Err (Failed (VarIntOverflow _)), Err (InvalidData _) => True
  | _, _ => False
  end.

Lemma read_loop_slice (data : bytes) start fuel result k offset :
  (10 ≤ fuel + k ∧ k < 10 ∧ offset ≤ length data)%nat →
  let '(r, offset') := varint_loop data start fuel result (7 * Z.of_nat k) offset in
  let '(r', rest) := read_loop slice_read_exact fuel result (7 * Z.of_nat k) (drop offset data) in
  io_view r r' ∧ rest = drop offset' data ∧ (offset ≤ offset' ≤ length data)%nat ∧
  match r with Ok _ => (offset < offset')%nat | _ => True end.
Proof.
  revert result k offset. induction fuel as [|fuel IH]; intros result k offset (Hf & Hk & Ho); [lia|].
  cbn [varint_loop read_loop]. destruct (drop offset data) as [|b l] eqn:E; cbn [slice_read_exact].
  - rewrite (proj2 (lookup_ge_None _ _)); [by rewrite E|].
    apply drop_nil in E; [lia|done].
  - assert (offset < length data)%nat
      by (apply (f_equal length) in E; rewrite length_drop in E; cbn in E; lia).
    apply drop_cons in E as [-> <-].
    destruct (_ && _); [split_and!; done || lia|].
    destruct (Z.land b 0x80 =? 0); [split_and!; done || lia|].
    destruct (Z.leb_spec 64 (7 * Z.of_nat k + 7)); [split_and!; done || lia|].
    replace (7 * Z.of_nat k + 7) with (7 * Z.of_nat (S k)) by lia.
    specialize (IH (Z.lor result (wrap 64 (Z.shiftl (Z.land b 127) (7 * Z.of_nat k)))) (S k) (S offset) ltac:(lia)).
    destruct (varint_loop _ _ _ _ _ _) as [r o], (read_loop _ _ _ _ _) as [r' rest].
    destruct IH as (? & ? & ? & ?). split_and!; try done || lia. destruct r; done || lia.
Qed.

(** The decoder ends on every input, inside it, and with success past its
    starting point. *)
Lemma decode_varint_total (data : bytes) (offset : nat) :
  (offset ≤ length data)%nat →
  let '(r, offset') := decode_varint data offset in
  (offset ≤ offset' ≤ length data)%nat ∧
  match r with Ok _ => (offset < offset')%nat | Err (Failed _) => True | _ => False end.
Proof.
  intros Ho. pose proof (read_loop_slice data offset VARINT_FUEL 0 0 offset) as H.
  unfold decode_varint. change (7 * Z.of_nat 0) with 0 in H.
  destruct (varint_loop _ _ _ _ _ _) as [r o], (read_loop _ _ _ _ _) as [r' rest].
  destruct H as (Hv & _ & Hr & Hs); [unfold VARINT_FUEL; lia|]. split; [done|].
  destruct r as [|[[]|]|]; done.
Qed.

(** The streaming functions agree with the ones on slices: written to a vector
    an integer gives the same bytes and count, and read from a slice the same
    value, or an error of the same kind, leaving the same bytes unread. *)
Theorem streaming_varint_agrees (data : bytes) (offset : nat) (v : Z) (output : bytes) :
  (offset ≤ length data)%nat →
  write_varint vec_write_all v output =
    (let '(out, n) := encode_varint v output in Ok (n, out)) ∧
  let '(r, offset') := decode_varint data offset in
  let '(r', rest) := read_varint slice_read_exact (drop offset data) in
  io_view r r' ∧ rest = drop offset' data ∧ (offset ≤ offset' ≤ length data)%nat.
Proof.
  intros Ho. split.
  - unfold write_varint, encode_varint. rewrite write_while_vec.
    destruct (varint_while_extends VARINT_FUEL v output) as [l Hl].
    destruct (varint_while VARINT_FUEL v output) as [v' out]. cbn [snd] in Hl. subst.
    cbn [mbind outcome_bind vec_write_all]. do 2 f_equal. rewrite !length_app. cbn [length]. lia.
  - pose proof (read_loop_slice data offset VARINT_FUEL 0 0 offset) as H.
    unfold decode_varint, read_varint. change (7 * Z.of_nat 0) with 0 in H.
    destruct (varint_loop _ _ _ _ _ _), (read_loop _ _ _ _ _).
    destruct H as (? & ? & ? & _); [unfold VARINT_FUEL; lia|done].
Qed.

(** ** Witnesses *)
Lemma decode_varint_exact_witness :
  decode_varint [0xFF; 0xAC; 0x02; 0x07] 1%nat = (Ok 300, 3%nat).
Proof.
  rewrite (decode_varint_exact _ _ [0xAC] [0x02; 0x07]);
    [vm_compute; reflexivity|repeat constructor; done|simpl; lia|reflexivity
    |repeat constructor; lia|repeat constructor; lia].
Defined.

Lemma varint_roundtrip_witness :
  let '(out, n) := encode_varint (2 ^ 64 - 1) [7] in
  n = 10%nat ∧ decode_varint (out ++ [8]) 1%nat = (Ok (2 ^ 64 - 1), 11%nat).
Proof.
  destruct (proj1 (varint_roundtrip [7] [8]) (2 ^ 64 - 1) ltac:(done)) as (_ & _ & _ & _ & H).
  split; [vm_compute; reflexivity|exact H].
Defined.

Lemma streaming_varint_agrees_witness :
  read_varint slice_read_exact [0xAC; 0x02; 0x07] = (Ok 300, [0x07]) ∧
  write_varint vec_write_all 300 [7] = Ok (2%nat, [7; 0xAC; 0x02]).
Proof.
  destruct (streaming_varint_agrees [0xAC; 0x02; 0x07] 0 300 [7]) as [H _]; [simpl; lia|].
  split; [vm_compute; reflexivity|rewrite H; vm_compute; reflexivity].
Defined.
