(* ===== verification/Codec.v ===== *)
(** * Composing codecs

    [reads d out a]: wherever the bytes [out] stand in the input, the decoder
    [d] started on them returns [a] and stops right after them; [writes e out]:
    the encoder [e] appends exactly [out].  Both compose, so that the round trip
    of a record or a list follows from those of its parts.  The file gives them
    for the registers, strings and payloads of [encoding.rs]. *)

From S2P Require Import Prelude Words Encoding EncodingFacts.

Definition reads {A} (d : bytes → decoder A) (out : bytes) (a : A) : Prop :=
  ∀ before after, d (before ++ out ++ after) (length before) =
    (Ok a, (length before + length out)%nat).

Definition writes (e : bytes → bytes) (out : bytes) : Prop := ∀ output, e output = output ++ out.

Lemma reads_ret {A} (a : A) : reads (λ _, mret a) [] a.
Proof. intros before after. cbn. by rewrite Nat.add_0_r. Qed.

Section compose.
Context {A B : Type}.

Lemma reads_bind (d : bytes → decoder A) (k : bytes → A → decoder B) out1 out2 a b :
  reads d out1 a → reads (λ data, k data a) out2 b →
  reads (λ data, d data ≫= k data) (out1 ++ out2) b.
Proof.
  intros Hd Hk before after. unfold mbind, decoder_bind.
  rewrite <- (assoc_L app). rewrite Hd.
  rewrite (assoc_L app before). rewrite length_app, <- length_app.
  rewrite Hk. f_equal. rewrite !length_app. lia.
Qed.

(** The last step returns without reading. *)
Lemma reads_bind_ret (d : bytes → decoder A) (f : A → B) out a :
  reads d out a → reads (λ data, d data ≫= λ x, mret (f x)) out (f a).
Proof.
  intros Hd. rewrite <- (app_nil_r out).
  apply (reads_bind d (λ _ x, mret (f x)) _ _ a); [done|apply reads_ret].
Qed.

Lemma reads_ext (d d' : bytes → decoder A) out a :
  (∀ data offset, d data offset = d' data offset) → reads d out a → reads d' out a.
Proof. intros H Hd before after. by rewrite <- H. Qed.
End compose.

(** ** Variable-length integers *)
Definition varint_bytes (v : Z) : bytes := (encode_varint v []).1.

Lemma varint_while_app fuel v output :
  varint_while fuel v output =
    ((varint_while fuel v []).1, output ++ (varint_while fuel v []).2).
Proof.
  revert v output. induction fuel as [|fuel IH]; intros v output; cbn [varint_while];
    [by rewrite app_nil_r|].
  destruct (0x80 <=? v); [|by rewrite app_nil_r].
  rewrite IH, (IH _ ([] ++ _)). cbn [app snd fst]. by rewrite <- (assoc_L app).
Qed.

Lemma encode_varint_writes v : writes (λ o, (encode_varint v o).1) (varint_bytes v).
Proof.
  intros output. unfold varint_bytes, encode_varint. rewrite varint_while_app.
  rewrite (varint_while_app _ _ []). cbn [fst snd app]. by rewrite <- (assoc_L app).
Qed.

Lemma encode_varint_length v output :
  is_u 64 v → (encode_varint v output).2 = length (varint_bytes v).
Proof.
  intros Hv. unfold varint_bytes.
  destruct (encode_varint_spec v output Hv) as (c & t & -> & _ & _ & _ & Hs & _).
  destruct (encode_varint_spec v [] Hv) as (c' & t' & -> & _ & _ & _ & Hs' & _).
  cbn [fst snd app]. rewrite length_app. cbn [length]. lia.
Qed.

Lemma decode_varint_reads v : is_u 64 v → reads decode_varint (varint_bytes v) v.
Proof.
  intros Hv before after.
  destruct (decode_encode_varint v before after Hv) as (out & n & E & Hl & _ & _ & _ & Hd).
  pose proof (encode_varint_writes v before) as E'. cbv beta in E'. rewrite E in E'. cbn [fst] in E'.
  apply (inj _) in E' as <-. by rewrite Hd, Hl.
Qed.

Lemma varint_bytes_wf v : is_u 64 v → well_formed_bytes (varint_bytes v) ∧ (1 ≤ length (varint_bytes v))%nat.
Proof.
  intros Hv. destruct (decode_encode_varint v [] [] Hv) as (out & n & E & Hl & _ & H1 & Hw & _).
  unfold varint_bytes. rewrite E. cbn [fst app]. split; [done|lia].
Qed.

(** ** Single bytes and registers *)
Lemma decode_u8_reads b : reads decode_u8 [b] b.
Proof.
  intros before after. unfold decode_u8. cbn [app]. rewrite list_lookup_middle by done.
  cbn [length]. by rewrite Nat.add_1_r.
Qed.

Definition reg_bytes (reg : Reg) : bytes := encode_reg reg [].

Lemma encode_reg_writes reg : writes (encode_reg reg) (reg_bytes reg).
Proof. intros output. unfold reg_bytes, encode_reg. by destruct (reg <? 128). Qed.

Lemma reg_bytes_length reg : length (reg_bytes reg) = reg_size reg.
Proof. unfold reg_bytes, reg_size, encode_reg. by destruct (reg <? 128). Qed.

(** Only the low fifteen bits of a register survive. *)
Lemma decode_reg_reads reg : is_u 16 reg → reads decode_reg (reg_bytes reg) (reg mod 2 ^ 15).
Proof.
  intros Hr. unfold is_u in Hr. change (2 ^ 16) with 65536 in Hr. change (2 ^ 15) with 32768.
  unfold reg_bytes, encode_reg. destruct (Z.ltb_spec reg 128).
  - rewrite wrap_id by (unfold is_u; lia). cbn [app]. rewrite Z.mod_small by lia.
    intros before after. unfold decode_reg, mbind, decoder_bind.
    rewrite decode_u8_reads, byte_continued by (unfold is_u; lia).
    by rewrite (proj2 (Z.ltb_lt reg 128)).
  - set (hi := Z.lor 0x80 (wrap 8 (Z.shiftr reg 8))). set (lo := wrap 8 reg). cbn [app].
    assert (Hlo : lo = reg mod 256) by done.
    assert (Hhi : hi = (reg `div` 256) mod 128 + 128 ∧ 128 ≤ hi < 256).
    { subst hi. rewrite Z.lor_comm, byte_mark by by apply wrap_range.
      rewrite shiftr_div by lia. change (2 ^ 8) with 256.
      rewrite wrap_id by (unfold is_u; split; [apply Z.div_pos; lia|apply Z.div_lt_upper_bound; lia]).
      pose proof (Z.mod_pos_bound (reg `div` 256) 128 ltac:(lia)). lia. }
    destruct Hhi as [Ehi Hhi]. intros before after. unfold decode_reg, mbind, decoder_bind.
    change (before ++ [hi; lo] ++ after) with (before ++ [hi] ++ [lo] ++ after).
    rewrite decode_u8_reads.
    rewrite byte_continued by (unfold is_u; lia). rewrite (proj2 (Z.ltb_ge hi 128)) by lia.
    rewrite (assoc_L app before).
    replace (length before + length [hi])%nat with (length (before ++ [hi])) by (by rewrite length_app).
    rewrite decode_u8_reads. rewrite !length_app. cbn [length mret decoder_ret].
    apply (f_equal2 pair); [f_equal|lia]. rewrite byte_low. pose proof (Z.mod_pos_bound hi 128 ltac:(lia)).
    rewrite wrap_id by (rewrite Z.shiftl_mul_pow2 by lia; unfold is_u; lia).
    rewrite Z.lor_comm, lor_shiftl by (subst lo; pose proof (wrap_range 8 reg ltac:(lia)) as W; unfold is_u in W; lia).
    assert (E7 : hi mod 128 = (reg `div` 256) mod 128).
    { symmetry. pose proof (Z.mod_pos_bound (reg `div` 256) 128 ltac:(lia)).
      apply (Z.mod_unique _ _ 1); lia. }
    rewrite E7, Hlo. change 32768 with (256 * 128). rewrite (Z.rem_mul_r reg 256 128) by lia.
    change (2 ^ 8) with 256. lia.
Qed.

Lemma reg_bytes_wf reg : is_u 16 reg → well_formed_bytes (reg_bytes reg).
Proof.
  intros Hr. unfold reg_bytes, encode_reg. pose proof (wrap_range 8 reg ltac:(lia)) as Hlo.
  pose proof (wrap_range 8 (Z.shiftr reg 8) ltac:(lia)) as Hhi.
  assert (Hm : is_u 8 (Z.lor 0x80 (wrap 8 (Z.shiftr reg 8)))).
  { rewrite Z.lor_comm, byte_mark by done. unfold is_u.
    pose proof (Z.mod_pos_bound (wrap 8 (Z.shiftr reg 8)) 128 ltac:(lia)). lia. }
  destruct (reg <? 128); cbn [app]; unfold well_formed_bytes; by decompose_Forall.
Qed.

(** ** Payloads and strings *)
Lemma decode_payload_reads s :
  Z.of_nat (length s) < 2 ^ 64 →
  ∀ before after, decode_payload_range (before ++ (varint_bytes (Z.of_nat (length s)) ++ s) ++ after)
      (length before) =
    (Ok ((length before + length (varint_bytes (Z.of_nat (length s))))%nat, length s),
     (length before + length (varint_bytes (Z.of_nat (length s)) ++ s))%nat).
Proof.
  intros Hs before after. set (n := Z.of_nat (length s)).
  assert (Hn : is_u 64 n) by (unfold is_u; lia).
  unfold decode_payload_range, mbind, decoder_bind. rewrite <- (assoc_L app).
  rewrite decode_varint_reads by done. cbn [here].
  rewrite !length_app, (proj2 (Z.ltb_ge _ _)) by lia. cbn [seek mret decoder_ret].
  subst n. rewrite Nat2Z.id. f_equal. lia.
Qed.

Lemma slice_app before p s after :
  slice (before ++ (p ++ s) ++ after) (length before + length p) (length s) = s.
Proof.
  unfold slice. rewrite <- (assoc_L app), (assoc_L app before), <- length_app.
  by rewrite drop_app_length, take_app_length.
Qed.

Lemma decode_bytes_reads s :
  Z.of_nat (length s) < 2 ^ 64 →
  reads decode_bytes (varint_bytes (Z.of_nat (length s)) ++ s) s.
Proof.
  intros Hs before after. unfold decode_bytes, mbind, decoder_bind.
  rewrite decode_payload_reads by done. by rewrite slice_app.
Qed.

Lemma encode_string_writes s : writes (encode_string s) (varint_bytes (Z.of_nat (length s)) ++ s).
Proof.
  intros output. unfold encode_string. rewrite (encode_varint_writes _ output).
  by rewrite (assoc_L app).
Qed.

Lemma decode_string_reads s :
  Z.of_nat (length s) < 2 ^ 64 → valid_utf8 s = true →
  reads decode_string (varint_bytes (Z.of_nat (length s)) ++ s) s.
Proof.
  intros Hs Hu%bool_decide_eq_true_1 before after. unfold decode_string, mbind, decoder_bind.
  rewrite decode_payload_reads by done. by rewrite slice_app, Hu.
Qed.

(** ** Reading at a fixed input

    A loop or a recursion whose fuel comes from the input's length is read at
    one input at a time. *)
Definition reads_at {A} (data : bytes) (d : decoder A) (out : bytes) (a : A) : Prop :=
  ∀ before after, data = before ++ out ++ after →
    d (length before) = (Ok a, (length before + length out)%nat).

Lemma reads_reads_at {A} (data : bytes) (d : bytes → decoder A) out a :
  reads d out a → reads_at data (d data) out a.
Proof. intros H before after ->. apply H. Qed.

Lemma reads_at_ret {A} (data : bytes) (a : A) : reads_at data (mret a) [] a.
Proof. intros before after _. cbn. by rewrite Nat.add_0_r. Qed.

Lemma reads_at_bind {A B} (data : bytes) (d : decoder A) (k : A → decoder B) out1 out2 a b :
  reads_at data d out1 a → reads_at data (k a) out2 b → reads_at data (d ≫= k) (out1 ++ out2) b.
Proof.
  intros Hd Hk before after E. unfold mbind, decoder_bind.
  rewrite <- (assoc_L app) in E. rewrite (Hd _ _ E).
  rewrite (assoc_L app before) in E. rewrite <- length_app, (Hk _ _ E).
  f_equal. rewrite !length_app. lia.
Qed.

Lemma reads_at_last {A B} (data : bytes) (d : decoder A) (f : A → B) out a :
  reads_at data d out a → reads_at data (d ≫= λ x, mret (f x)) out (f a).
Proof. intros H. rewrite <- (app_nil_r out). by eapply reads_at_bind, reads_at_ret. Qed.

Lemma reads_at_if {A} (data : bytes) (b : bool) (d d' : decoder A) out a :
  b = true → reads_at data d out a → reads_at data (if b then d else d') out a.
Proof. by intros ->. Qed.

Lemma reads_at_else {A} (data : bytes) (b : bool) (d d' : decoder A) out a :
  b = false → reads_at data d' out a → reads_at data (if b then d else d') out a.
Proof. by intros ->. Qed.

Lemma varint_reads_at data v : is_u 64 v → reads_at data (decode_varint data) (varint_bytes v) v.
Proof. intros. by apply reads_reads_at, decode_varint_reads. Qed.

Lemma u8_reads_at data b : reads_at data (decode_u8 data) [b] b.
Proof. apply reads_reads_at, decode_u8_reads. Qed.

(** One step of a run, whatever its outcome. *)
Lemma reads_at_step {A B} (data : bytes) (d : decoder A) (k : A → decoder B) out a before after :
  reads_at data d out a → data = before ++ out ++ after →
  (d ≫= k) (length before) = k a (length (before ++ out)).
Proof. intros H E. unfold mbind, decoder_bind. by rewrite (H _ _ E), length_app. Qed.

(** ** Fixed-width integers *)
Lemma decode_fixed_reads out : reads (λ data, decode_fixed data (length out)) out out.
Proof.
  intros before after. unfold decode_fixed.
  rewrite (proj2 (Nat.leb_le _ _)) by (rewrite length_app; lia). cbn [mbind option_bind].
  rewrite drop_app_length, (proj2 (Nat.leb_le _ _)) by (rewrite length_app; lia).
  cbn. by rewrite take_app_length.
Qed.

Lemma decode_word_reads {A} (n : nat) (f : bytes → A) w :
  reads (λ data, f <$> decode_fixed data n) (to_le_bytes n w) (f (to_le_bytes n w)).
Proof.
  apply (reads_bind_ret (λ data, decode_fixed data n) f).
  pose proof (decode_fixed_reads (to_le_bytes n w)) as H. by rewrite length_to_le_bytes in H.
Qed.

Lemma word_bytes n w : is_u (8 * Z.of_nat n) w → from_le_bytes (to_le_bytes n w) = w.
Proof. intros H. rewrite from_to_le_bytes by apply H. by apply wrap_id. Qed.

(** The remaining primitives come back from their encodings too: little-endian
    words, the bit patterns of floats, and strings of valid UTF-8; and a decoded
    string is a valid part of the input, whatever the input is. *)
Theorem primitives_roundtrip (before after : bytes) :
  (∀ w, is_u 16 w → let out := encode_u16 w before in
    decode_u16 (out ++ after) (length before) = (Ok w, length out)) ∧
  (∀ w, is_u 32 w → let out := encode_u32 w before in
    decode_u32 (out ++ after) (length before) = (Ok w, length out)) ∧
  (∀ w, is_u 64 w → let out := encode_u64 w before in
    decode_u64 (out ++ after) (length before) = (Ok w, length out) ∧
    decode_f64 (encode_f64 w before ++ after) (length before) = (Ok w, length out)) ∧
  (∀ w, is_i 64 w → let out := encode_i64 w before in
    decode_i64 (out ++ after) (length before) = (Ok w, length out)) ∧
  (∀ s, Z.of_nat (length s) < 2 ^ 64 → let out := encode_string s before in
    decode_bytes (out ++ after) (length before) = (Ok s, length out) ∧
    (decode_string (out ++ after) (length before) = (Ok s, length out) ↔ valid_utf8 s = true)) ∧
  (∀ data offset s offset', (offset ≤ length data)%nat →
    decode_string data offset = (Ok s, offset') →
    valid_utf8 s = true ∧ (offset < offset' ≤ length data)%nat ∧
    s = slice data (offset' - length s) (length s)).
Proof.
  assert (W : ∀ {A} n (f : bytes → A) w a, f (to_le_bytes n w) = a →
    (f <$> decode_fixed ((before ++ to_le_bytes n w) ++ after) n) (length before) =
      (Ok a, length (before ++ to_le_bytes n w))).
  { intros A n f w a <-. rewrite <- (assoc_L app). rewrite (decode_word_reads n f w before after).
    by rewrite length_app. }
  split_and!.
  - intros w Hw. by apply W, word_bytes.
  - intros w Hw. by apply W, word_bytes.
  - intros w Hw. split; by apply W, word_bytes.
  - intros w Hw. apply W. rewrite word_bytes by by apply wrap_range. by apply to_signed_wrap.
  - intros s Hs. cbv zeta. rewrite (encode_string_writes s), <- (assoc_L app).
    split; [rewrite (decode_bytes_reads s Hs before after); by rewrite (length_app before)|].
    unfold decode_string, mbind, decoder_bind. rewrite decode_payload_reads, slice_app by done.
    rewrite (length_app before). unfold valid_utf8. rewrite bool_decide_eq_true.
    by destruct (utf8_error s).
  - intros data offset s offset' Ho. unfold decode_string, decode_payload_range, mbind, decoder_bind.
    pose proof (decode_varint_total data offset Ho) as Hv.
    destruct (decode_varint data offset) as [[len|[]|] o]; [|done..]. destruct Hv as [Hr Hs].
    cbn [here]. destruct (Z.ltb_spec (Z.of_nat (length data) - Z.of_nat o) len); [done|].
    cbn [seek mret decoder_ret]. destruct (utf8_error _) eqn:E; [done|].
    intros [= <- <-]. split_and!; [by apply bool_decide_eq_true|lia|lia|].
    assert (L : length (slice data o (Z.to_nat len)) = Z.to_nat len)
      by (unfold slice; rewrite length_take, length_drop; lia).
    rewrite L. f_equal. lia.
Qed.

(** ** Witness *)
Lemma primitives_roundtrip_witness :
  decode_i64 (encode_i64 (-2) [7] ++ [8]) 1%nat = (Ok (-2), 9%nat) ∧
  decode_string (encode_string [0xC3; 0xA9] [7] ++ [8]) 1%nat = (Ok [0xC3; 0xA9], 4%nat).
Proof.
  destruct (primitives_roundtrip [7] [8]) as (_ & _ & _ & Hi & Hs & _). split.
  - apply (Hi (-2)). split; vm_compute; congruence.
  - apply (Hs [0xC3; 0xA9]); vm_compute; reflexivity.
Defined.
