(* ===== verification/TypeRefs.v ===== *)
(** * Type references and their bytecode encoding

    [TypeRef] of [verum_vbc/src/types.rs] with [encode_type_ref] and
    [decode_type_ref] of [verum_vbc/src/bytecode.rs]. *)

From S2P Require Import Prelude Words Encoding.

(** ** The data *)
Abbreviation TypeId := Z (only parsing).
Abbreviation TypeParamId := Z (only parsing).
Abbreviation ProtocolId := Z (only parsing).
Abbreviation ContextRef := Z (only parsing).

Inductive Mutability := Immutable | Mutable.
Inductive CbgrTier := Tier0 | Tier1 | Tier2.

Record ProtocolApplication (T : Type) := { protocol : ProtocolId; application_args : list T }.
Arguments protocol {T} _.
Arguments application_args {T} _.

Inductive TypeRef :=
| Concrete (id : TypeId)
| Generic (id : TypeParamId)
| Instantiated (base : TypeId) (args : list TypeRef)
| Function (is_async : bool) (params : list TypeRef) (return_type : TypeRef)
    (contexts : list ContextRef)
| Rank2Function (is_async : bool) (type_param_count : Z) (params : list TypeRef)
    (return_type : TypeRef) (contexts : list ContextRef)
| Reference (inner : TypeRef) (mutability : Mutability) (tier : CbgrTier)
| Tuple (elems : list TypeRef)
| Array (element : TypeRef) (len : Z)
| Slice (inner : TypeRef)
| AssociatedProjection (qualifier : option (ProtocolApplication TypeRef)) (args : list TypeRef)
    (base : TypeRef) (assoc : bytes)
| ConstValue (v : Z)
| RecordFieldProjection (owner : TypeId) (ordinal : Z).

Definition MAX_TYPE_APPLICATION_ARGUMENTS : nat := 64.

(** [*mutability as u8] and [*tier as u8]. *)
Definition mutability_byte (m : Mutability) : Z :=
  match m with Immutable => 0 | Mutable => 1 end.
Definition tier_byte (t : CbgrTier) : Z :=
  match t with Tier0 => 0 | Tier1 => 1 | Tier2 => 2 end.

Definition is_empty {A} (l : list A) : bool := match l with [] => true | _ => false end.
Definition is_some {A} (o : option A) : bool := match o with Some _ => true | None => false end.

(** ** Encoding *)

(** [encode_varint] as a statement, its result unused. *)
Definition put_varint (v : Z) (output : bytes) : bytes := (encode_varint v output).1.
Definition put_len {A} (l : list A) (output : bytes) : bytes :=
  put_varint (Z.of_nat (length l)) output.

Fixpoint encode_type_ref (type_ref : TypeRef) (output : bytes) : bytes :=
  match type_ref with
  | Concrete type_id => put_varint type_id (output ++ [0x00])
  | Generic type_param_id => put_varint type_param_id (output ++ [0x01])
  | Instantiated base args =>
      let output := put_varint base (output ++ [0x02]) in
      let output := put_len args output in
      fold_left (λ output arg, encode_type_ref arg output) args output
  | Function is_async params return_type contexts =>
      let output := output ++ [Z.lor 0x03 (Z.shiftl (Z.b2z is_async) 4)] in
      let output := put_len params output in
      let output := fold_left (λ output p, encode_type_ref p output) params output in
      let output := encode_type_ref return_type output in
      let output := put_len contexts output in
      fold_left (λ output ctx, put_varint ctx output) contexts output
  | Reference inner mutability tier =>
      let output := encode_type_ref inner (output ++ [0x04]) in
      (output ++ [mutability_byte mutability]) ++ [tier_byte tier]
  | Tuple elems =>
      let output := put_len elems (output ++ [0x05]) in
      fold_left (λ output e, encode_type_ref e output) elems output
  | Array element len => put_varint len (encode_type_ref element (output ++ [0x06]))
  | Slice inner => encode_type_ref inner (output ++ [0x07])
  | Rank2Function is_async type_param_count params return_type contexts =>
      let output := output ++ [Z.lor 0x0C (Z.shiftl (Z.b2z is_async) 4)] in
      let output := put_varint type_param_count output in
      let output := put_len params output in
      let output := fold_left (λ output p, encode_type_ref p output) params output in
      let output := encode_type_ref return_type output in
      let output := put_len contexts output in
      fold_left (λ output ctx, put_varint ctx output) contexts output
  | AssociatedProjection qualifier args base assoc =>
      let output := encode_type_ref base (output ++ [0x0E]) in
      let output := output ++ [Z.b2z (is_some qualifier)] in
      let output :=
        match qualifier with
        | Some application =>
            let output := put_varint (protocol application) output in
            let output := put_len (application_args application) output in
            fold_left (λ output argument, encode_type_ref argument output)
              (application_args application) output
        | None => output
        end in
      let output := put_len assoc output ++ assoc in
      let output := put_len args output in
      fold_left (λ output argument, encode_type_ref argument output) args output
  | ConstValue v => put_varint (wrap 64 v) (output ++ [0x0A])
  | RecordFieldProjection owner ordinal =>
      put_varint ordinal (put_varint owner (output ++ [0x0D]))
  end.

(** ** Decoding *)

(** [for _ in 0..count], collecting the results.  Each round reads at least one
    byte, so that [fuel] beyond the number of bytes left is never used up. *)
Fixpoint decode_times {A} (d : decoder A) (fuel : nat) (count : Z) : decoder (list A) :=
  if count <=? 0 then mret []
  else
    match fuel with
    | O => λ offset, (Gas TraversalGas, offset)
    | S fuel => x ← d; l ← decode_times d fuel (count - 1); mret (x :: l)
    end.

Section Decode.
Context (data : bytes).

(** Whether [SmallVec::with_capacity], a function of another crate, can provide
    a capacity; it panics or aborts if not. *)
Context (with_capacity : Z → bool).

Definition loop_fuel : nat := S (length data).

Definition invalid_type_ref {A} (back : Z) (discriminant : Z) : decoder A :=
  offset ← here;
  fail (InvalidTypeRef (wrap 32 (Z.of_nat offset - back)) discriminant).

Definition decode_u16_varint (discriminant : Z) : decoder Z :=
  v ← decode_varint data;
  if v <? 2 ^ 16 then mret v else invalid_type_ref 1 discriminant.

Definition decode_u32_varint (discriminant : Z) : decoder Z :=
  v ← decode_varint data;
  if v <? 2 ^ 32 then mret v else invalid_type_ref 0 discriminant.

Definition decode_contexts (ctx_count : Z) : decoder (list ContextRef) :=
  decode_times (ctx ← decode_varint data; mret (wrap 32 ctx)) loop_fuel ctx_count.

Section Step.
Context (decode_type_ref : decoder TypeRef).

Definition decode_types (count : Z) : decoder (list TypeRef) :=
  decode_times decode_type_ref loop_fuel count.

Definition decode_application_arguments : decoder (list TypeRef) :=
  count ← decode_varint data;
  if Z.of_nat MAX_TYPE_APPLICATION_ARGUMENTS <? count
  then fail (TableTooLarge "type_application_args" (count `min` (2 ^ 32 - 1))
         (Z.of_nat MAX_TYPE_APPLICATION_ARGUMENTS))
  else decode_types count.

(** The two arms of function types differ in the binder count and in how the
    vector of contexts is created. *)
Definition decode_function (discriminant : Z) : decoder TypeRef :=
  param_count ← decode_varint data;
  params ← decode_types param_count;
  return_type ← decode_type_ref;
  ctx_count ← decode_varint data;
  if with_capacity ctx_count
  then
    contexts ← decode_contexts ctx_count;
    mret (Function (negb (Z.land discriminant 0x10 =? 0)) params return_type contexts)
  else panic.

Definition decode_rank2_function (discriminant : Z) : decoder TypeRef :=
  type_param_count ← decode_u16_varint discriminant;
  param_count ← decode_varint data;
  params ← decode_types param_count;
  return_type ← decode_type_ref;
  ctx_count ← decode_varint data;
  contexts ← decode_contexts ctx_count;
  mret (Rank2Function (negb (Z.land discriminant 0x10 =? 0)) type_param_count params
    return_type contexts).

Definition decode_reference : decoder TypeRef :=
  inner ← decode_type_ref;
  mutability_byte ← decode_u8 data;
  tier_byte ← decode_u8 data;
  let mutability := if mutability_byte =? 0 then Immutable else Mutable in
  let tier := if tier_byte =? 0 then Tier0 else if tier_byte =? 1 then Tier1 else Tier2 in
  mret (Reference inner mutability tier).

(** The legacy form: the sum [*offset + len] overflows for a length near the
    top of [usize], which panics here (overflow check) or at the slice. *)
Definition decode_legacy_projection (discriminant : Z) : decoder TypeRef :=
  base ← decode_type_ref;
  len ← decode_varint data;
  offset ← here;
  if 2 ^ 64 <=? Z.of_nat offset + len then panic
  else if Z.of_nat (length data) <? Z.of_nat offset + len
  then invalid_type_ref 0 discriminant
  else
    let assoc := from_utf8_lossy (slice data offset (Z.to_nat len)) in
    _ ← seek (offset + Z.to_nat len)%nat;
    mret (AssociatedProjection None [] base assoc).

Definition decode_qualifier (discriminant : Z) : decoder (option (ProtocolApplication TypeRef)) :=
  flag ← decode_u8 data;
  if flag =? 0 then mret None
  else if flag =? 1 then
    protocol ← decode_u32_varint discriminant;
    args ← decode_application_arguments;
    mret (Some {| protocol := protocol; application_args := args |})
  else invalid_type_ref 0 discriminant.

(** [checked_add] fails only when the sum exceeds every slice length. *)
Definition decode_projection (discriminant : Z) : decoder TypeRef :=
  base ← decode_type_ref;
  qualifier ← decode_qualifier discriminant;
  len ← decode_varint data;
  offset ← here;
  if Z.of_nat (length data) <? Z.of_nat offset + len
  then invalid_type_ref 0 discriminant
  else
    let assoc := slice data offset (Z.to_nat len) in
    if valid_utf8 assoc then
      _ ← seek (offset + Z.to_nat len)%nat;
      args ← decode_application_arguments;
      if is_empty assoc
      then invalid_type_ref 0 discriminant
      else mret (AssociatedProjection qualifier args base assoc)
    else invalid_type_ref 0 discriminant.

Definition decode_type_ref_step : decoder TypeRef :=
  discriminant ← decode_u8 data;
  if discriminant =? 0x00 then
    id ← decode_varint data; mret (Concrete (wrap 32 id))
  else if discriminant =? 0x01 then
    id ← decode_u16_varint discriminant; mret (Generic id)
  else if discriminant =? 0x02 then
    base_id ← decode_varint data;
    arg_count ← decode_varint data;
    args ← decode_types arg_count;
    mret (Instantiated (wrap 32 base_id) args)
  else if (discriminant =? 0x03) || (discriminant =? 0x13) then decode_function discriminant
  else if discriminant =? 0x04 then decode_reference
  else if discriminant =? 0x05 then
    elem_count ← decode_varint data; elems ← decode_types elem_count; mret (Tuple elems)
  else if discriminant =? 0x06 then
    element ← decode_type_ref; len ← decode_varint data; mret (Array element len)
  else if discriminant =? 0x07 then
    inner ← decode_type_ref; mret (Slice inner)
  else if (discriminant =? 0x0C) || (discriminant =? 0x1C) then decode_rank2_function discriminant
  else if discriminant =? 0x09 then decode_legacy_projection discriminant
  else if discriminant =? 0x0E then decode_projection discriminant
  else if discriminant =? 0x0A then
    v ← decode_varint data; mret (ConstValue (to_signed 64 v))
  else if discriminant =? 0x0D then
    owner ← decode_u32_varint discriminant;
    ordinal ← decode_u32_varint discriminant;
    mret (RecordFieldProjection owner ordinal)
  else invalid_type_ref 1 discriminant.
End Step.

(** One unit of fuel per level of nesting, each of which reads a byte. *)
Fixpoint decode_type_fuel (fuel : nat) : decoder TypeRef :=
  match fuel with
  | O => λ offset, (Gas TraversalGas, offset)
  | S fuel => decode_type_ref_step (decode_type_fuel fuel)
  end.

Definition decode_type_ref : decoder TypeRef := decode_type_fuel (S (length data)).
End Decode.

(** ** Operand lists of instructions *)

Definition encode_reg_vec (regs : list Reg) (output : bytes) : bytes :=
  fold_left (λ output r, encode_reg r output) regs (put_len regs output).

Definition decode_reg_vec (data : bytes) : decoder (list Reg) :=
  count ← decode_varint data;
  decode_times (decode_reg data) (loop_fuel data) count.

Definition encode_optional_reg (reg : option Reg) (output : bytes) : bytes :=
  match reg with
  | Some r => encode_reg r (output ++ [1])
  | None => output ++ [0]
  end.

Definition decode_optional_reg (data : bytes) : decoder (option Reg) :=
  flag ← decode_u8 data;
  if flag =? 0 then mret None
  else r ← decode_reg data; mret (Some r).

(** The raw bytes of [n] register operands. *)
Fixpoint decode_extended_reg_operands (data : bytes) (n : nat) : decoder bytes :=
  match n with
  | O => mret []
  | S n =>
      first ← decode_u8 data;
      if negb (Z.land first 0x80 =? 0)
      then
        second ← decode_u8 data;
        operands ← decode_extended_reg_operands data n;
        mret (first :: second :: operands)
      else
        operands ← decode_extended_reg_operands data n;
        mret (first :: operands)
  end.
