(* ===== verification/TypeRefFacts.v ===== *)
(** * Correctness of the type reference codec

    Decoding inverts encoding on every type reference the format can carry
    ([type_ref_roundtrip]); on arbitrary input the decoder always answers, never
    runs past the input, and panics only where [decode_type_ref_total] says. *)

From S2P Require Import Prelude Words Encoding EncodingFacts Codec TypeRefs.

(** ** Induction on types *)
Section type_ref_induction.
Context (P : TypeRef → Prop).
Context (HConcrete : ∀ id, P (Concrete id)).
Context (HGeneric : ∀ id, P (Generic id)).
Context (HInstantiated : ∀ base args, Forall P args → P (Instantiated base args)).
Context (HFunction : ∀ a params ret ctxs, Forall P params → P ret → P (Function a params ret ctxs)).
Context (HRank2 : ∀ a n params ret ctxs, Forall P params → P ret →
  P (Rank2Function a n params ret ctxs)).
Context (HReference : ∀ inner m t, P inner → P (Reference inner m t)).
Context (HTuple : ∀ elems, Forall P elems → P (Tuple elems)).
Context (HArray : ∀ element len, P element → P (Array element len)).
Context (HSlice : ∀ inner, P inner → P (Slice inner)).
Context (HProjection : ∀ q args base assoc,
  (∀ application, q = Some application → Forall P (application_args application)) →
  Forall P args → P base → P (AssociatedProjection q args base assoc)).
Context (HConst : ∀ v, P (ConstValue v)).
Context (HField : ∀ owner ordinal, P (RecordFieldProjection owner ordinal)).

Fixpoint type_ref_ind' (t : TypeRef) : P t :=
  let all := fix all (l : list TypeRef) : Forall P l :=
    match l with
    | [] => Forall_nil_2 P
    | x :: l => Forall_cons_2 P x l (type_ref_ind' x) (all l)
    end in
  match t with
  | Concrete id => HConcrete id
  | Generic id => HGeneric id
  | Instantiated base args => HInstantiated base args (all args)
  | Function a params ret ctxs => HFunction a params ret ctxs (all params) (type_ref_ind' ret)
  | Rank2Function a n params ret ctxs => HRank2 a n params ret ctxs (all params) (type_ref_ind' ret)
  | Reference inner m t => HReference inner m t (type_ref_ind' inner)
  | Tuple elems => HTuple elems (all elems)
  | Array element len => HArray element len (type_ref_ind' element)
  | Slice inner => HSlice inner (type_ref_ind' inner)
  | AssociatedProjection q args base assoc =>
      HProjection q args base assoc
        (match q as q return ∀ application, q = Some application →
             Forall P (application_args application) with
         | Some application => λ application' E,
             match E in _ = o return
               match o with Some a => Forall P (application_args a) | None => True end with
             | eq_refl => all (application_args application)
             end
         | None => λ application E, match E with end
         end) (all args) (type_ref_ind' base)
  | ConstValue v => HConst v
  | RecordFieldProjection owner ordinal => HField owner ordinal
  end.
End type_ref_induction.

(** ** The bytes of a type *)
Definition type_bytes (t : TypeRef) : bytes := encode_type_ref t [].
Definition len_bytes {A} (l : list A) : bytes := varint_bytes (Z.of_nat (length l)).

Lemma put_varint_writes v output : put_varint v output = output ++ varint_bytes v.
Proof. apply (encode_varint_writes v). Qed.

Lemma put_len_writes {A} (l : list A) output : put_len l output = output ++ len_bytes l.
Proof. apply put_varint_writes. Qed.

Lemma fold_writes {A} (f : A → bytes → bytes) (g : A → bytes) l output :
  Forall (λ x, ∀ o, f x o = o ++ g x) l →
  fold_left (λ o x, f x o) l output = output ++ concat (map g l).
Proof.
  intros H. revert output. induction H as [|x l Hx Hl IH]; intros output; cbn [fold_left map concat].
  - by rewrite app_nil_r.
  - by rewrite IH, Hx, <- (assoc_L app).
Qed.

Lemma encode_type_writes t output : encode_type_ref t output = output ++ type_bytes t.
Proof.
  unfold type_bytes. revert output. induction t using type_ref_ind'; intros output;
    cbn [encode_type_ref]; unfold type_bytes in *;
    repeat match goal with
    | q : option (ProtocolApplication TypeRef) |- _ => destruct q as [[p qargs]|]
    | H : ∀ application, Some ?a = Some application → _ |- _ =>
        specialize (H a eq_refl); cbn [application_args] in H
    end; cbn [protocol application_args];
    repeat match goal with
    | |- context [fold_left (λ o x, encode_type_ref x o) ?l ?out] =>
        rewrite (fold_writes encode_type_ref (λ t, encode_type_ref t []) l out) by done
    | |- context [fold_left (λ o x, put_varint x o) ?l ?out] =>
        rewrite (fold_writes put_varint varint_bytes l out)
          by (apply Forall_forall; intros; apply put_varint_writes)
    | |- context [put_len ?l ?out] => rewrite (put_len_writes l out)
    | |- context [put_varint ?v ?out] => rewrite (put_varint_writes v out)
    | H : ∀ o, encode_type_ref ?t o = o ++ _ |- context [encode_type_ref ?t (?out ++ ?out')] =>
        rewrite (H (out ++ out'))
    | H : ∀ o, encode_type_ref ?t o = o ++ _ |- context [encode_type_ref ?t (?b :: ?out')] =>
        rewrite (H (b :: out'))
    end; cbn [app]; by rewrite <- ?(assoc_L app).
Qed.

Definition types_bytes (l : list TypeRef) : bytes := len_bytes l ++ concat (map type_bytes l).
Definition function_bytes (params : list TypeRef) (ret : TypeRef) (ctxs : list ContextRef) : bytes :=
  types_bytes params ++ type_bytes ret ++ len_bytes ctxs ++ concat (map varint_bytes ctxs).

(** The layout of an encoding, one level deep. *)
Definition layout (t : TypeRef) : bytes :=
  match t with
  | Concrete id => [0x00] ++ varint_bytes id
  | Generic id => [0x01] ++ varint_bytes id
  | Instantiated base args => [0x02] ++ varint_bytes base ++ types_bytes args
  | Function is_async params ret ctxs =>
      [Z.lor 0x03 (Z.shiftl (Z.b2z is_async) 4)] ++ function_bytes params ret ctxs
  | Reference inner m t => [0x04] ++ type_bytes inner ++ [mutability_byte m] ++ [tier_byte t]
  | Tuple elems => [0x05] ++ types_bytes elems
  | Array element len => [0x06] ++ type_bytes element ++ varint_bytes len
  | Slice inner => [0x07] ++ type_bytes inner
  | Rank2Function is_async n params ret ctxs =>
      [Z.lor 0x0C (Z.shiftl (Z.b2z is_async) 4)] ++ varint_bytes n ++ function_bytes params ret ctxs
  | AssociatedProjection q args base assoc =>
      [0x0E] ++ type_bytes base ++
      match q with
      | Some application =>
          [1] ++ varint_bytes (protocol application) ++ types_bytes (application_args application)
      | None => [0]
      end ++ (len_bytes assoc ++ assoc) ++ types_bytes args
  | ConstValue v => [0x0A] ++ varint_bytes (wrap 64 v)
  | RecordFieldProjection owner ordinal => [0x0D] ++ varint_bytes owner ++ varint_bytes ordinal
  end.

Lemma type_bytes_layout t : type_bytes t = layout t.
Proof.
  unfold type_bytes at 1. destruct t; cbn [encode_type_ref layout];
    unfold function_bytes, types_bytes;
    repeat match goal with q : option (ProtocolApplication TypeRef) |- _ => destruct q as [[p qargs]|] end;
    cbn [protocol application_args];
    repeat match goal with
    | |- context [fold_left (λ o x, encode_type_ref x o) ?l ?out] =>
        rewrite (fold_writes encode_type_ref type_bytes l out)
          by (apply Forall_forall; intros; apply encode_type_writes)
    | |- context [fold_left (λ o x, put_varint x o) ?l ?out] =>
        rewrite (fold_writes put_varint varint_bytes l out)
          by (apply Forall_forall; intros; apply put_varint_writes)
    | |- context [put_len ?l ?out] => rewrite (put_len_writes l out)
    | |- context [put_varint ?v ?out] => rewrite (put_varint_writes v out)
    | |- context [encode_type_ref ?t (?out ++ ?out')] => rewrite (encode_type_writes t (out ++ out'))
    | |- context [encode_type_ref ?t (?b :: ?out')] => rewrite (encode_type_writes t (b :: out'))
    end; cbn [app]; rewrite <- ?(assoc_L app); done.
Qed.

(** ** Decoding what was encoded *)
Definition u_ok (w z : Z) : bool := (0 <=? z) && (z <? 2 ^ w).
Definition i_ok (w z : Z) : bool := (- 2 ^ (w - 1) <=? z) && (z <? 2 ^ (w - 1)).
Definition len_ok {A} (l : list A) : bool := Z.of_nat (length l) <? 2 ^ 64.

(** What the format can carry: the integers are in the range of their types,
    and a projection has at most 64 arguments and a valid, nonempty name. *)
Fixpoint type_ok (t : TypeRef) : bool :=
  match t with
  | Concrete id => u_ok 32 id
  | Generic id => u_ok 16 id
  | Instantiated base args => u_ok 32 base && len_ok args && forallb type_ok args
  | Function _ params ret ctxs =>
      len_ok params && forallb type_ok params && type_ok ret &&
      len_ok ctxs && forallb (u_ok 32) ctxs
  | Rank2Function _ n params ret ctxs =>
      u_ok 16 n && (len_ok params && forallb type_ok params && type_ok ret &&
      len_ok ctxs && forallb (u_ok 32) ctxs)
  | Reference inner _ _ => type_ok inner
  | Tuple elems => len_ok elems && forallb type_ok elems
  | Array element len => type_ok element && u_ok 64 len
  | Slice inner => type_ok inner
  | AssociatedProjection q args base assoc =>
      type_ok base &&
      match q with
      | Some application =>
          u_ok 32 (protocol application) &&
          ((length (application_args application) <=? MAX_TYPE_APPLICATION_ARGUMENTS)%nat &&
           forallb type_ok (application_args application))
      | None => true
      end &&
      (len_ok assoc && valid_utf8 assoc && negb (is_empty assoc)) &&
      ((length args <=? MAX_TYPE_APPLICATION_ARGUMENTS)%nat && forallb type_ok args)
  | ConstValue v => i_ok 64 v
  | RecordFieldProjection owner ordinal => u_ok 32 owner && u_ok 32 ordinal
  end.

Lemma u_ok_true w z : u_ok w z = true → is_u w z.
Proof. unfold u_ok, is_u. rewrite andb_true_iff, Z.leb_le, Z.ltb_lt. done. Qed.

Lemma u_ok_mono w w' z : 0 ≤ w ≤ w' → u_ok w z = true → is_u w' z.
Proof.
  intros Hw H%u_ok_true. unfold is_u in *.
  assert (2 ^ w ≤ 2 ^ w') by (apply Z.pow_le_mono_r; lia). lia.
Qed.

Lemma i_ok_true w z : i_ok w z = true → is_i w z.
Proof. unfold i_ok, is_i. rewrite andb_true_iff, Z.leb_le, Z.ltb_lt. done. Qed.

Lemma len_ok_true {A} (l : list A) : len_ok l = true → is_u 64 (Z.of_nat (length l)).
Proof. unfold len_ok, is_u. rewrite Z.ltb_lt. lia. Qed.

Section decode.
Context (data : bytes) (with_capacity : Z → bool).

Lemma decode_times_reads {A} (d : decoder A) fuel (outs : list bytes) l :
  Forall2 (λ out x, reads_at data d out x) outs l → (length l ≤ fuel)%nat →
  reads_at data (decode_times d fuel (Z.of_nat (length l))) (concat outs) l.
Proof.
  intros H. revert fuel. induction H as [|out x outs l Hx Hl IH]; intros fuel Hf.
  - destruct fuel; apply reads_at_ret.
  - destruct fuel as [|fuel]; [cbn in Hf; lia|]. cbn [length concat decode_times] in *.
    rewrite (proj2 (Z.leb_gt _ _)) by lia. eapply reads_at_bind; [exact Hx|].
    replace (Z.of_nat (S (length l)) - 1) with (Z.of_nat (length l)) by lia.
    eapply (reads_at_last _ _ (cons x)), IH. lia.
Qed.

Lemma u16_reads_at v discriminant :
  u_ok 16 v = true → reads_at data (decode_u16_varint data discriminant) (varint_bytes v) v.
Proof.
  intros H. unfold decode_u16_varint. rewrite <- (app_nil_r (varint_bytes v)).
  eapply reads_at_bind; [apply varint_reads_at, (u_ok_mono 16); [lia|done]|].
  apply reads_at_if; [|apply reads_at_ret]. apply u_ok_true in H as [_ H]. by apply Z.ltb_lt.
Qed.

Lemma u32_reads_at v discriminant :
  u_ok 32 v = true → reads_at data (decode_u32_varint data discriminant) (varint_bytes v) v.
Proof.
  intros H. unfold decode_u32_varint. rewrite <- (app_nil_r (varint_bytes v)).
  eapply reads_at_bind; [apply varint_reads_at, (u_ok_mono 32); [lia|done]|].
  apply reads_at_if; [|apply reads_at_ret]. apply u_ok_true in H as [_ H]. by apply Z.ltb_lt.
Qed.

Lemma length_concat_ge {A} (f : A → bytes) l :
  (∀ x, x ∈ l → (1 ≤ length (f x))%nat) → (length l ≤ length (concat (map f l)))%nat.
Proof.
  induction l as [|x l IH]; intros H; cbn [map concat length]; [lia|].
  rewrite length_app. pose proof (H x ltac:(left)).
  assert (length l ≤ length (concat (map f l)))%nat by (apply IH; intros; apply H; by right). lia.
Qed.

Lemma contexts_reads_at ctxs :
  forallb (u_ok 32) ctxs = true → (length ctxs ≤ length data)%nat →
  reads_at data (decode_contexts data (Z.of_nat (length ctxs))) (concat (map varint_bytes ctxs)) ctxs.
Proof.
  intros H Hl. unfold decode_contexts. apply decode_times_reads; [|unfold loop_fuel; lia].
  clear Hl. induction ctxs as [|c ctxs IH]; cbn [map]; [constructor|].
  cbn [forallb] in H. apply andb_true_iff in H as [Hc H]. constructor; [|by apply IH].
  rewrite <- (wrap_id 32 c) at 2 by by apply u_ok_true.
  eapply (reads_at_last _ _ (wrap 32)). apply varint_reads_at, (u_ok_mono 32); [lia|done].
Qed.

Lemma type_bytes_pos t : (1 ≤ length (type_bytes t))%nat.
Proof. rewrite type_bytes_layout. destruct t; cbn [layout app length]; lia. Qed.

Lemma length_types_bytes l x : x ∈ l → (length (type_bytes x) ≤ length (concat (map type_bytes l)))%nat.
Proof.
  induction 1 as [x l|x y l _ IH]; cbn [map concat]; rewrite length_app; lia.
Qed.

Section step.
Context (dt : decoder TypeRef) (bound : nat).
Context (Hdt : ∀ t, type_ok t = true → (length (type_bytes t) ≤ bound)%nat →
  reads_at data dt (type_bytes t) t).
Context (Hbound : (bound ≤ length data)%nat).
Context (Hcap : ∀ n, (n ≤ length data)%nat → with_capacity (Z.of_nat n) = true).

Lemma types_reads_at l :
  forallb type_ok l = true → (length (concat (map type_bytes l)) ≤ bound)%nat →
  reads_at data (decode_types data dt (Z.of_nat (length l))) (concat (map type_bytes l)) l.
Proof.
  intros Hl Hb. apply decode_times_reads.
  - assert (H : Forall (λ x, reads_at data dt (type_bytes x) x) l).
    { apply Forall_forall. intros x Hx. apply Hdt.
      - rewrite forallb_forall in Hl. by apply Hl, list_elem_of_In.
      - pose proof (length_types_bytes l x Hx). lia. }
    clear Hl Hb. induction H; constructor; auto.
  - pose proof (length_concat_ge type_bytes l ltac:(intros; apply type_bytes_pos)).
    unfold loop_fuel. lia.
Qed.

Lemma arguments_reads_at l :
  (length l <=? MAX_TYPE_APPLICATION_ARGUMENTS)%nat && forallb type_ok l = true →
  (length (types_bytes l) ≤ bound)%nat →
  reads_at data (decode_application_arguments data dt) (types_bytes l) l.
Proof.
  intros [Hn%Nat.leb_le Hl]%andb_true_iff Hb. unfold types_bytes in *. rewrite length_app in Hb.
  eapply reads_at_bind.
  - apply varint_reads_at. unfold is_u, MAX_TYPE_APPLICATION_ARGUMENTS in *. lia.
  - apply reads_at_else; [apply Z.ltb_ge; lia|]. apply types_reads_at; [done|lia].
Qed.

(** The tail shared by the two function arms. *)
Lemma function_tail_reads_at {B} (k : list TypeRef → TypeRef → Z → decoder B) params ret ctxs b :
  len_ok params && forallb type_ok params && type_ok ret && len_ok ctxs &&
    forallb (u_ok 32) ctxs = true →
  (length (function_bytes params ret ctxs) ≤ bound)%nat →
  reads_at data (k params ret (Z.of_nat (length ctxs))) (concat (map varint_bytes ctxs)) b →
  reads_at data
    (param_count ← decode_varint data;
     params ← decode_types data dt param_count;
     ret ← dt; ctx_count ← decode_varint data; k params ret ctx_count)
    (function_bytes params ret ctxs) b.
Proof.
  rewrite !andb_true_iff. intros [[[[Hn Hp] Hr] Hc] _] Hb Hk.
  unfold function_bytes, types_bytes in *. rewrite !length_app in Hb. rewrite <- (assoc_L app).
  repeat (eapply reads_at_bind; [first [apply varint_reads_at; by apply len_ok_true
    |apply types_reads_at; [done|lia]|apply Hdt; [done|lia]]|]).
  done.
Qed.

Lemma contexts_length ctxs params ret :
  len_ok params && forallb type_ok params && type_ok ret && len_ok ctxs &&
    forallb (u_ok 32) ctxs = true →
  (length (function_bytes params ret ctxs) ≤ bound)%nat → (length ctxs ≤ length data)%nat.
Proof.
  rewrite !andb_true_iff. intros [_ H] Hb. unfold function_bytes in Hb. rewrite !length_app in Hb.
  etrans; [apply (length_concat_ge varint_bytes)|lia]. intros c Hc.
  rewrite forallb_forall in H. apply list_elem_of_In, H in Hc. apply varint_bytes_wf.
  apply (u_ok_mono 32); [lia|done].
Qed.

(** The name of a projection and what follows it. *)
Lemma name_reads_at {B} (k : bytes → decoder B) (err err' : decoder B) assoc out b :
  len_ok assoc && valid_utf8 assoc && negb (is_empty assoc) = true →
  reads_at data (k assoc) out b →
  reads_at data
    (len ← decode_varint data;
     offset ← here;
     if Z.of_nat (length data) <? Z.of_nat offset + len then err
     else
       let assoc := slice data offset (Z.to_nat len) in
       if valid_utf8 assoc then _ ← seek (offset + Z.to_nat len)%nat; k assoc else err')
    ((len_bytes assoc ++ assoc) ++ out) b.
Proof.
  rewrite !andb_true_iff. intros [[Hn Hv] _] Hk before after E.
  apply len_ok_true in Hn. rewrite <- !(assoc_L app) in E.
  unfold mbind at 1, decoder_bind at 1. rewrite (varint_reads_at _ _ Hn _ _ E).
  unfold mbind at 1, decoder_bind at 1. cbn [here]. fold (len_bytes assoc).
  rewrite (proj2 (Z.ltb_ge _ _)) by (subst data; rewrite !length_app; lia).
  rewrite Nat2Z.id. cbv zeta.
  assert (Es : slice data (length before + length (len_bytes assoc)) (length assoc) = assoc).
  { rewrite E, (assoc_L app (len_bytes assoc)). rewrite (assoc_L app (_ ++ _) out).
    rewrite <- (assoc_L app (_ ++ _) out). by apply slice_app. }
  rewrite Es, Hv. unfold mbind, decoder_bind. cbn [seek].
  rewrite <- length_app, <- length_app.
  rewrite (Hk ((before ++ len_bytes assoc) ++ assoc) after); [|by rewrite E, <- !(assoc_L app)].
  f_equal. rewrite !length_app. lia.
Qed.

Ltac reads := repeat first
  [ apply reads_at_if; [reflexivity|] | apply reads_at_else; [reflexivity|] ].

Lemma last_reads_at {A B} (d : decoder A) (f : A → B) out a b :
  reads_at data d out a → f a = b → reads_at data (d ≫= λ x, mret (f x)) out b.
Proof. intros H <-. by apply reads_at_last. Qed.

Lemma qualifier_reads_at discriminant q :
  match q with
  | Some application =>
      u_ok 32 (protocol application) &&
      ((length (application_args application) <=? MAX_TYPE_APPLICATION_ARGUMENTS)%nat &&
       forallb type_ok (application_args application))
  | None => true
  end = true →
  let out := match q with
    | Some application =>
        [1] ++ varint_bytes (protocol application) ++ types_bytes (application_args application)
    | None => [0]
    end in
  (length out ≤ S bound)%nat → reads_at data (decode_qualifier data dt discriminant) out q.
Proof.
  destruct q as [[p args]|]; cbn [protocol application_args]; intros H; cbv zeta; intros Hb;
    unfold decode_qualifier.
  - apply andb_true_iff in H as [Hp Ha]. rewrite !length_app in Hb. cbn [length] in Hb.
    eapply reads_at_bind; [apply u8_reads_at|]. reads.
    eapply reads_at_bind; [by apply u32_reads_at|].
    eapply last_reads_at; [apply arguments_reads_at; [done|lia]|done].
  - rewrite <- (app_nil_r [0]). eapply reads_at_bind; [apply u8_reads_at|]. reads. apply reads_at_ret.
Qed.

Lemma tier_reads t :
  (if tier_byte t =? 0 then Tier0 else if tier_byte t =? 1 then Tier1 else Tier2) = t.
Proof. by destruct t. Qed.

Lemma mutability_reads m : (if mutability_byte m =? 0 then Immutable else Mutable) = m.
Proof. by destruct m. Qed.

Lemma step_reads t :
  type_ok t = true → (length (type_bytes t) ≤ S bound)%nat →
  reads_at data (decode_type_ref_step data with_capacity dt) (type_bytes t) t.
Proof.
  intros Ht Hb. rewrite type_bytes_layout in *. unfold decode_type_ref_step.
  destruct t as [id|id|base args|a params ret ctxs|a n params ret ctxs|inner m t|elems|element len
    |inner|q args base assoc|v|owner ordinal]; cbn [layout type_ok] in *;
    rewrite ?length_app in Hb; cbn [length] in Hb;
    (eapply reads_at_bind; [apply u8_reads_at|]); try (reads; fail).
  - reads. eapply last_reads_at; [by apply varint_reads_at, (u_ok_mono 32)|].
    by rewrite wrap_id by by apply u_ok_true.
  - reads. eapply last_reads_at; [by apply u16_reads_at|done].
  - reads. apply andb_true_iff in Ht as [[Hi Hn]%andb_true_iff Ha].
    eapply reads_at_bind; [by apply varint_reads_at, (u_ok_mono 32)|].
    unfold types_bytes in *. rewrite length_app in Hb.
    eapply reads_at_bind; [by apply varint_reads_at, len_ok_true|].
    eapply last_reads_at; [apply types_reads_at; [done|lia]|].
    by rewrite wrap_id by by apply u_ok_true.
  - destruct a; reads; unfold decode_function; (eapply function_tail_reads_at; [done|lia|]);
      (apply reads_at_if; [apply Hcap; eapply contexts_length; [done|lia]|]);
      (eapply last_reads_at; [apply contexts_reads_at; [|eapply contexts_length; [done|lia]]|done]);
      by apply andb_true_iff in Ht as [_ Ht].
  - apply andb_true_iff in Ht as [Hu Ht].
    destruct a; reads; unfold decode_rank2_function;
      (eapply reads_at_bind; [by apply u16_reads_at|]);
      (eapply function_tail_reads_at; [done|lia|]);
      (eapply last_reads_at; [apply contexts_reads_at; [|eapply contexts_length; [done|lia]]|done]);
      by apply andb_true_iff in Ht as [_ Ht].
  - reads. unfold decode_reference. eapply reads_at_bind; [apply Hdt; [done|lia]|].
    eapply reads_at_bind; [apply u8_reads_at|].
    eapply last_reads_at; [apply u8_reads_at|]. by rewrite tier_reads, mutability_reads.
  - reads. apply andb_true_iff in Ht as [Hn Ht]. unfold types_bytes in *. rewrite length_app in Hb.
    eapply reads_at_bind; [by apply varint_reads_at, len_ok_true|].
    eapply last_reads_at; [apply types_reads_at; [done|lia]|done].
  - reads. apply andb_true_iff in Ht as [Ht Hl]. eapply reads_at_bind; [apply Hdt; [done|lia]|].
    eapply last_reads_at; [by apply varint_reads_at, u_ok_true|done].
  - reads. eapply last_reads_at; [apply Hdt; [done|lia]|done].
  - reads. rewrite !andb_true_iff in Ht. destruct Ht as [[[Hbase Hq] Hname] Hargs].
    unfold decode_projection. eapply reads_at_bind; [apply Hdt; [done|lia]|].
    eapply reads_at_bind; [apply qualifier_reads_at; [done|lia]|].
    eapply (name_reads_at (λ assoc, args ← decode_application_arguments data dt;
      if is_empty assoc then invalid_type_ref 0 0x0E
      else mret (AssociatedProjection q args base assoc))); [by rewrite !andb_true_iff|].
    rewrite <- (app_nil_r (types_bytes args)).
    eapply reads_at_bind; [apply arguments_reads_at; [by apply andb_true_iff|lia]|].
    destruct Hname as [_ Hne]. apply reads_at_else; [by apply negb_true_iff|apply reads_at_ret].
  - reads. eapply last_reads_at; [by apply varint_reads_at, wrap_range|].
    by rewrite to_signed_wrap by (done || by apply i_ok_true).
  - reads. apply andb_true_iff in Ht as [Ho Hd].
    eapply reads_at_bind; [by apply u32_reads_at|].
    eapply last_reads_at; [by apply u32_reads_at|done].
Qed.
End step.

Lemma fuel_reads fuel t :
  (∀ n, (n ≤ length data)%nat → with_capacity (Z.of_nat n) = true) →
  type_ok t = true → (length (type_bytes t) ≤ fuel)%nat → (fuel ≤ S (length data))%nat →
  reads_at data (decode_type_fuel data with_capacity fuel) (type_bytes t) t.
Proof.
  intros Hcap. revert t. induction fuel as [|fuel IH]; intros t Ht Hb Hf.
  - pose proof (type_bytes_pos t). lia.
  - cbn [decode_type_fuel]. apply (step_reads _ fuel); try done; [|lia].
    intros t' Ht' Hb'. apply IH; [done|done|lia].
Qed.
End decode.

(** C31. Decoding inverts encoding: a type reference that the format can carry is
    read back from its bytes, wherever they stand in the input, and the decoder
    stops right after them.  The only thing asked of the allocator is that it
    provides capacities up to the size of the input. *)
Theorem type_ref_roundtrip (with_capacity : Z → bool) (t : TypeRef) (before after : bytes) :
  type_ok t = true →
  let out := encode_type_ref t before in
  (∀ n : nat, (n ≤ length (out ++ after))%nat → with_capacity (Z.of_nat n) = true) →
  take (length before) out = before ∧
  decode_type_ref (out ++ after) with_capacity (length before) = (Ok t, length out).
Proof.
  intros Ht. rewrite encode_type_writes. cbv zeta. intros Hcap. split; [by rewrite take_app_length|].
  unfold decode_type_ref. rewrite (fuel_reads _ _ _ t Hcap Ht) with (before := before) (after := after).
  - by rewrite length_app.
  - rewrite !length_app. lia.
  - done.
  - by rewrite (assoc_L app).
Qed.

(** ** The decoder on arbitrary input *)
Section total.
Context (data : bytes) (with_capacity : Z → bool) (may_panic : Prop).
Context (Hcapacity : ∀ n, with_capacity n = false → may_panic).
Context (Hlegacy : 0x09 ∈ data → may_panic).

(** Started at [offset] the decoder ends inside the input, and success has read
    at least [min] bytes. *)
Definition total_at {A} (offset min : nat) (d : decoder A) : Prop :=
  let '(r, offset') := d offset in
  (offset ≤ offset' ≤ length data)%nat ∧
  match r with
  | Ok _ => (offset + min ≤ offset')%nat
  | Err (Failed _) => True
  | Err Panicked => may_panic
  | Gas _ => False
  end.

Definition total_from {A} (low min : nat) (d : decoder A) : Prop :=
  ∀ offset, (low ≤ offset ≤ length data)%nat → total_at offset min d.

Lemma total_weaken {A} low low' min min' (d : decoder A) :
  total_from low min d → (low ≤ low')%nat → (min' ≤ min)%nat → total_from low' min' d.
Proof.
  intros H Hl Hm offset Ho. pose proof (H offset ltac:(lia)) as R. unfold total_at in *.
  destruct (d offset) as [[|[]|] o]; naive_solver lia.
Qed.

Lemma total_bind {A B} low m1 m2 (d : decoder A) (k : A → decoder B) :
  total_from low m1 d → (∀ a, total_from (low + m1) m2 (k a)) →
  total_from low (m1 + m2) (d ≫= k).
Proof.
  intros Hd Hk offset Ho. pose proof (Hd offset Ho) as R. unfold total_at, mbind, decoder_bind in *.
  destruct (d offset) as [[a|[]|] o]; [|naive_solver..]. destruct R as [Hr Hm].
  pose proof (Hk a o ltac:(lia)) as R. unfold total_at in R.
  destruct (k a o) as [[|[]|] o']; naive_solver lia.
Qed.

(** The common case: what follows a step needs no further progress. *)
Lemma total_step {A B} low (d : decoder A) (k : A → decoder B) :
  total_from low 0 d → (∀ a, total_from low 0 (k a)) → total_from low 0 (d ≫= k).
Proof. intros Hd Hk. apply (total_bind low 0 0); [done|]. intros a. by rewrite Nat.add_0_r. Qed.

Lemma total_ret {A} low (a : A) : total_from low 0 (mret a).
Proof. intros offset Ho. cbn. lia. Qed.

Lemma total_fail {A} low min e : total_from low min (fail (A:=A) e).
Proof. intros offset Ho. cbn. lia. Qed.

Lemma total_panic {A} low min : may_panic → total_from low min (panic (A:=A)).
Proof. intros H offset Ho. cbn. split; [lia|done]. Qed.

Lemma total_if {A} low min (b : bool) (d d' : decoder A) :
  (b = true → total_from low min d) → (b = false → total_from low min d') →
  total_from low min (if b then d else d').
Proof. destruct b; auto. Qed.

Lemma total_here {A} low min (k : nat → decoder A) :
  (∀ offset, (low ≤ offset ≤ length data)%nat → total_at offset min (k offset)) →
  total_from low min (here ≫= k).
Proof. intros H offset Ho. exact (H offset Ho). Qed.

Lemma total_seek {A} low min offset to (k : unit → decoder A) :
  (offset ≤ to ≤ length data)%nat → (low ≤ to)%nat → total_from low min (k tt) →
  total_at offset min (seek to ≫= k).
Proof.
  intros Ho Hl H. pose proof (H to ltac:(lia)) as R. unfold total_at, mbind, decoder_bind in *.
  cbn [seek]. destruct (k tt to) as [[|[]|] o]; naive_solver lia.
Qed.

Lemma total_varint low : total_from low 1 (decode_varint data).
Proof.
  intros offset Ho. pose proof (decode_varint_total data offset ltac:(lia)) as H.
  unfold total_at. destruct (decode_varint data offset) as [[|[]|] o]; naive_solver lia.
Qed.

Lemma total_u8_bind {A} low min (k : Z → decoder A) :
  (∀ b, b ∈ data → total_from (S low) min (k b)) → total_from low (S min) (decode_u8 data ≫= k).
Proof.
  intros H offset Ho. unfold total_at, mbind, decoder_bind, decode_u8.
  destruct (data !! offset) as [b|] eqn:E; [|split; [lia|done]].
  pose proof (lookup_lt_Some _ _ _ E). pose proof (list_elem_of_lookup_2 _ _ _ E) as Hb.
  pose proof (H b Hb (S offset) ltac:(lia)) as R. unfold total_at in R.
  destruct (k b (S offset)) as [[|[]|] o]; naive_solver lia.
Qed.

Lemma total_u8 low : total_from low 1 (decode_u8 data).
Proof.
  intros offset Ho. unfold total_at, decode_u8. destruct (data !! offset) eqn:E; [|split; [lia|done]].
  apply lookup_lt_Some in E. lia.
Qed.

Lemma total_times {A} low (d : decoder A) fuel count :
  total_from low 1 d → (length data < fuel + low)%nat → total_from low 0 (decode_times d fuel count).
Proof.
  revert low count. induction fuel as [|fuel IH]; intros low count Hd Hf; cbn [decode_times];
    destruct (count <=? 0); try apply total_ret.
  - intros offset Ho. lia.
  - eapply (total_weaken _ _ (1 + (0 + 0))); [|done|lia]. apply total_bind; [done|]. intros x.
    apply total_bind; [apply IH; [eapply total_weaken; [done|lia..]|lia]|]. intros l. apply total_ret.
Qed.

Lemma total_varint_0 low : total_from low 0 (decode_varint data).
Proof. eapply total_weaken; [apply (total_varint low)|lia..]. Qed.

Lemma total_invalid {A} low min back discriminant :
  total_from low min (invalid_type_ref (A:=A) back discriminant).
Proof. apply total_here. intros offset Ho. cbn. lia. Qed.

Lemma total_bounded low w back discriminant :
  total_from low 0 (v ← decode_varint data; if v <? w then mret v else invalid_type_ref back discriminant).
Proof.
  apply total_step; [apply total_varint_0|]. intros v. destruct (v <? w);
    [apply total_ret|apply total_invalid].
Qed.

Lemma total_contexts low n : total_from low 0 (decode_contexts data n).
Proof.
  apply total_times; [|unfold loop_fuel; lia]. apply (total_bind _ 1 0); [apply total_varint|].
  intros. apply total_ret.
Qed.

Section step.
Context (low : nat) (dt : decoder TypeRef) (Hdt : total_from low 1 dt).

Lemma total_dt : total_from low 0 dt.
Proof. eapply total_weaken; [done|lia..]. Qed.

Lemma total_types n : total_from low 0 (decode_types data dt n).
Proof. apply total_times; [done|unfold loop_fuel; lia]. Qed.

Lemma total_arguments : total_from low 0 (decode_application_arguments data dt).
Proof.
  apply total_step; [apply total_varint_0|]. intros n. destruct (_ <? n);
    [apply total_fail|apply total_types].
Qed.

Ltac total := repeat first
  [ apply total_ret | apply total_fail | apply total_invalid | apply total_varint_0 | apply total_dt
  | apply total_types | apply total_arguments | apply total_contexts | apply total_bounded
  | apply total_step; [|intros] | apply total_if; intros ].

Lemma total_qualifier discriminant : total_from low 0 (decode_qualifier data dt discriminant).
Proof.
  eapply total_weaken; [apply (total_u8_bind _ 0)|done|lia]. intros b _.
  eapply (total_weaken low); [|lia|done]. unfold decode_u32_varint. total.
Qed.

Lemma total_name {A} (assoc_ok : bytes → bool) (too_far : nat → Z → bool) (err : decoder A)
    (k : bytes → decoder A) discriminant :
  total_from low 0 err →
  (∀ assoc, total_from low 0 (k assoc)) →
  total_from low 0
    (len ← decode_varint data;
     offset ← here;
     if too_far offset len then err
     else if Z.of_nat (length data) <? Z.of_nat offset + len
     then invalid_type_ref 0 discriminant
     else
       let assoc := slice data offset (Z.to_nat len) in
       if assoc_ok assoc
       then _ ← seek (offset + Z.to_nat len)%nat; k assoc
       else invalid_type_ref 0 discriminant).
Proof.
  intros He Hk. apply total_step; [apply total_varint_0|]. intros len. apply total_here.
  intros offset Ho. destruct (too_far offset len) eqn:Ef; [by apply He|].
  destruct (Z.ltb_spec (Z.of_nat (length data)) (Z.of_nat offset + len));
    [by apply (total_invalid low)|]. cbv zeta.
  destruct (assoc_ok _); [|by apply (total_invalid low)].
  apply (total_seek low); [lia..|apply Hk].
Qed.

Lemma total_legacy discriminant : 0x09 ∈ data →
  total_from low 0 (decode_legacy_projection data dt discriminant).
Proof.
  intros H9. apply total_step; [apply total_dt|]. intros base.
  apply (total_name (λ _, true) (λ offset len, 2 ^ 64 <=? Z.of_nat offset + len) panic
    (λ assoc, mret (AssociatedProjection None [] base (from_utf8_lossy assoc))) discriminant).
  - by apply total_panic, Hlegacy.
  - intros. apply total_ret.
Qed.

Lemma total_projection discriminant : total_from low 0 (decode_projection data dt discriminant).
Proof.
  apply total_step; [apply total_dt|]. intros base.
  apply total_step; [apply total_qualifier|]. intros q.
  apply (total_name valid_utf8 (λ _ _, false) (fail (eof 0 0))
    (λ assoc, args ← decode_application_arguments data dt;
      if is_empty assoc then invalid_type_ref 0 discriminant
      else mret (AssociatedProjection q args base assoc)) discriminant); [apply total_fail|].
  intros assoc. total.
Qed.

Lemma total_function discriminant :
  total_from low 0 (decode_function data with_capacity dt discriminant).
Proof.
  unfold decode_function. do 4 (apply total_step; [by total|]; intros).
  apply total_if; intros H; [total|]. by eapply total_panic, Hcapacity.
Qed.

Lemma total_reference : total_from low 0 (decode_reference data dt).
Proof.
  unfold decode_reference.
  repeat (apply total_step; [first [apply total_dt|eapply total_weaken; [apply (total_u8 low)|lia..]]|intros]).
  apply total_ret.
Qed.

Lemma total_rank2 discriminant : total_from low 0 (decode_rank2_function data dt discriminant).
Proof. unfold decode_rank2_function, decode_u16_varint. total. Qed.
End step.

Lemma total_step_arms low dt :
  total_from (S low) 1 dt → total_from low 1 (decode_type_ref_step data with_capacity dt).
Proof.
  intros Hdt. apply total_u8_bind. intros b Hb.
  pose proof (total_dt _ _ Hdt). pose proof (total_types _ _ Hdt).
  repeat (apply total_if; intros ?); try (apply total_invalid);
    unfold decode_u16_varint, decode_u32_varint;
    repeat first [ apply total_ret | apply total_varint_0 | apply total_bounded
      | by apply total_function | by apply total_reference | by apply total_rank2
      | by apply total_projection | apply total_legacy; [done|] | done
      | apply total_step; [|intros] ].
  match goal with H : (b =? 0x09) = true |- _ => apply Z.eqb_eq in H end. by subst.
Qed.

Lemma total_fuel fuel low :
  (length data < fuel + low)%nat → total_from low 1 (decode_type_fuel data with_capacity fuel).
Proof.
  revert low. induction fuel as [|fuel IH]; intros low Hf; cbn [decode_type_fuel].
  - intros offset Ho. lia.
  - apply total_step_arms, IH. lia.
Qed.
End total.

(** On every input the decoder answers, without reading past the end; a type
    that is decoded took at least a byte.  It can panic in two ways only: the
    allocation of the contexts of a function type is refused, or the input has
    the tag of the legacy projection. *)
Theorem decode_type_ref_total (with_capacity : Z → bool) (data : bytes) (offset : nat) :
  (offset ≤ length data)%nat →
  let '(r, offset') := decode_type_ref data with_capacity offset in
  (offset ≤ offset' ≤ length data)%nat ∧
  match r with
  | Ok _ => (offset < offset')%nat
  | Err (Failed _) => True
  | Err Panicked => (∃ n, with_capacity n = false) ∨ 0x09 ∈ data
  | Gas _ => False
  end.
Proof.
  intros Ho. pose proof (total_fuel data with_capacity
    ((∃ n, with_capacity n = false) ∨ 0x09 ∈ data) ltac:(eauto) ltac:(eauto)
    (S (length data)) 0 ltac:(lia) offset ltac:(lia)) as H.
  unfold decode_type_ref. unfold total_at in H.
  destruct (decode_type_fuel _ _ _ _) as [[|[]|] o]; naive_solver lia.
Qed.

(** Both panics can be reached by crafted bytes: a legacy projection whose name
    claims the largest length overflows the sum with the offset, and the number
    of contexts of a function type reaches the allocator as it stands in the
    input, whatever the input's size. *)
Theorem decode_type_ref_panics (with_capacity : Z → bool) (t : TypeRef) (n : Z) (before after : bytes) :
  type_ok t = true → is_u 64 n → with_capacity n = false →
  let base_data := before ++ [0x09] ++ type_bytes t ++ varint_bytes (2 ^ 64 - 1) ++ after in
  let data := before ++ [0x03] ++ varint_bytes 0 ++ type_bytes t ++ varint_bytes n ++ after in
  (∀ m : nat, (m ≤ length base_data + length data)%nat → with_capacity (Z.of_nat m) = true) →
  (decode_type_ref base_data with_capacity (length before)).1 = Err Panicked ∧
  (decode_type_ref data with_capacity (length before)).1 = Err Panicked.
Proof.
  intros Ht Hn Hw base_data data Hcap.
  assert (R : ∀ d : bytes, (length d ≤ length base_data + length data)%nat →
    (length (type_bytes t) ≤ length d)%nat →
    reads_at d (decode_type_fuel d with_capacity (length d)) (type_bytes t) t).
  { intros d Hd Hl. apply fuel_reads; [intros; apply Hcap; lia|done|done|lia]. }
  assert (Hlen : (length (type_bytes t) ≤ length base_data ∧ length (type_bytes t) ≤ length data)%nat)
    by (subst base_data data; rewrite !length_app; lia).
  split; unfold decode_type_ref; cbn [decode_type_fuel]; unfold decode_type_ref_step.
  - specialize (R base_data ltac:(lia) ltac:(lia)).
    rewrite (reads_at_step base_data _ _ _ _ before _ (u8_reads_at _ 0x09) eq_refl).
    cbn [Z.eqb Pos.eqb orb]. unfold decode_legacy_projection.
    erewrite (reads_at_step base_data _ _ _ _ (before ++ [0x09]) _ R); [|subst base_data; by rewrite <- !(assoc_L app)].
    erewrite (reads_at_step base_data _ _ _ _ ((before ++ [0x09]) ++ type_bytes t) after
      (varint_reads_at _ (2 ^ 64 - 1) ltac:(done))); [|subst base_data; by rewrite <- !(assoc_L app)].
    unfold mbind, decoder_bind. cbn [here].
    rewrite (proj2 (Z.leb_le _ _)); [done|]. rewrite !length_app. cbn [length]. lia.
  - specialize (R data ltac:(lia) ltac:(lia)).
    rewrite (reads_at_step data _ _ _ _ before _ (u8_reads_at _ 0x03) eq_refl).
    cbn [Z.eqb Pos.eqb orb]. unfold decode_function.
    erewrite (reads_at_step data _ _ _ _ (before ++ [0x03]) _ (varint_reads_at _ 0 ltac:(done)));
      [|subst data; by rewrite <- !(assoc_L app)].
    assert (R0 : reads_at data (decode_types data (decode_type_fuel data with_capacity (length data)) 0) [] [])
      by apply reads_at_ret.
    erewrite (reads_at_step data _ _ _ _ ((before ++ [0x03]) ++ varint_bytes 0) _ R0);
      [|subst data; by rewrite <- !(assoc_L app)].
    erewrite (reads_at_step data _ _ _ _ (((before ++ [0x03]) ++ varint_bytes 0) ++ []) _ R);
      [|subst data; rewrite app_nil_r; by rewrite <- !(assoc_L app)].
    erewrite (reads_at_step data _ _ _ _ ((((before ++ [0x03]) ++ varint_bytes 0) ++ []) ++ type_bytes t) after
      (varint_reads_at _ n Hn)); [|subst data; rewrite app_nil_r; by rewrite <- !(assoc_L app)].
    by rewrite Hw.
Qed.

(** ** Register operands *)
Lemma reg_reads reg : is_u 15 reg → reads decode_reg (reg_bytes reg) reg.
Proof.
  intros Hr. unfold is_u in *. change (2 ^ 15) with 32768 in *.
  rewrite <- (Z.mod_small reg 32768) at 2 by done. apply decode_reg_reads.
  unfold is_u. change (2 ^ 16) with 65536. lia.
Qed.

Lemma encode_reg_vec_writes regs output :
  encode_reg_vec regs output = output ++ len_bytes regs ++ concat (map reg_bytes regs).
Proof.
  unfold encode_reg_vec. rewrite (fold_writes encode_reg reg_bytes), put_len_writes.
  - by rewrite <- (assoc_L app).
  - apply Forall_forall. intros r _ o. apply encode_reg_writes.
Qed.

Lemma reg_vec_reads regs :
  Forall (is_u 15) regs → len_ok regs = true →
  reads decode_reg_vec (len_bytes regs ++ concat (map reg_bytes regs)) regs.
Proof.
  intros Hr Hn before after.
  set (data := before ++ (len_bytes regs ++ concat (map reg_bytes regs)) ++ after).
  assert (R : reads_at data (decode_reg_vec data) (len_bytes regs ++ concat (map reg_bytes regs)) regs);
    [|exact (R before after eq_refl)].
  eapply reads_at_bind; [by apply varint_reads_at, len_ok_true|]. apply decode_times_reads.
  - clearbody data. clear Hn before after. induction Hr; constructor; [by apply reads_reads_at, reg_reads|done].
  - pose proof (length_concat_ge reg_bytes regs) as H.
    unfold loop_fuel. subst data. rewrite !length_app.
    assert ((length regs ≤ length (concat (map reg_bytes regs)))%nat); [|lia].
    apply H. intros r _. rewrite reg_bytes_length. unfold reg_size. case_match; lia.
Qed.

(** Registers are encoded exactly: the size is the announced one, and decoding
    gives the low fifteen bits, so that a register comes back if and only if it
    is below 32768 (r128 to r16383 is the documented range).  Operand lists,
    optional operands and ranges of such registers come back whole. *)
Theorem register_operands_exact (before after : bytes) :
  (∀ reg, is_u 16 reg →
    let out := encode_reg reg before in
    length out = (length before + reg_size reg)%nat ∧
    decode_reg (out ++ after) (length before) = (Ok (reg mod 2 ^ 15), length out) ∧
    (decode_reg (out ++ after) (length before) = (Ok reg, length out) ↔ reg < 2 ^ 15)) ∧
  (∀ regs, Forall (is_u 15) regs → len_ok regs = true →
    let out := encode_reg_vec regs before in
    decode_reg_vec (out ++ after) (length before) = (Ok regs, length out)) ∧
  (∀ reg, (∀ r, reg = Some r → is_u 15 r) →
    let out := encode_optional_reg reg before in
    decode_optional_reg (out ++ after) (length before) = (Ok reg, length out)) ∧
  (∀ range, is_u 15 (start range) →
    let out := encode_reg_range range before in
    decode_reg_range (out ++ after) (length before) = (Ok range, length out)).
Proof.
  split_and!.
  - intros reg Hr. cbv zeta. rewrite encode_reg_writes, length_app, reg_bytes_length, <- (assoc_L app).
    rewrite (decode_reg_reads reg Hr before after), reg_bytes_length. split_and!; [done..|].
    unfold is_u in Hr. split.
    + intros [= E]. rewrite <- E. by apply Z.mod_pos_bound.
    + intros H. by rewrite Z.mod_small by lia.
  - intros regs Hr Hn. cbv zeta. rewrite encode_reg_vec_writes, <- (assoc_L app).
    rewrite (reg_vec_reads regs Hr Hn before after). by rewrite (length_app before).
  - intros [r|] Hr; cbv zeta; cbn [encode_optional_reg].
    + rewrite encode_reg_writes, <- !(assoc_L app).
      assert (R : reads decode_optional_reg ([1] ++ reg_bytes r) (Some r)).
      { apply (reads_bind decode_u8 (λ data flag,
          if flag =? 0 then mret None else r ← decode_reg data; mret (Some r)) _ _ 1);
          [apply decode_u8_reads|]. apply (reads_bind_ret decode_reg Some), reg_reads. by apply Hr. }
      specialize (R before after). rewrite <- ?(assoc_L app) in R.
      rewrite R. by rewrite (length_app before).
    + rewrite <- (assoc_L app). assert (R : reads decode_optional_reg [0] None).
      { rewrite <- (app_nil_r [0]). apply (reads_bind decode_u8 (λ data flag,
          if flag =? 0 then mret None else r ← decode_reg data; mret (Some r)) _ _ 0);
          [apply decode_u8_reads|apply reads_ret]. }
      specialize (R before after). rewrite <- ?(assoc_L app) in R.
      rewrite R. by rewrite (length_app before).
  - intros [s c] Hr. cbv zeta. cbn [start count encode_reg_range] in *. unfold encode_reg_range.
    cbn [start count]. rewrite encode_reg_writes, <- !(assoc_L app).
    assert (R : reads decode_reg_range (reg_bytes s ++ [c]) {| start := s; count := c |}).
    { apply (reads_bind decode_reg (λ data start, count ← decode_u8 data;
        mret {| start := start; count := count |}) _ _ s); [by apply reg_reads|].
      apply (reads_bind_ret decode_u8 (λ c, {| start := s; count := c |})), decode_u8_reads. }
    specialize (R before after). rewrite <- ?(assoc_L app) in R.
      rewrite R. by rewrite (length_app before).
Qed.

(** ** Witnesses *)
Definition sample_type : TypeRef :=
  Function true [Reference (Generic 3) Mutable Tier1; Array (Concrete 70000) 256]
    (AssociatedProjection (Some {| protocol := 9; application_args := [Concrete 2] |})
       [ConstValue (-1)] (Generic 0) [0x4F; 0x6B]) [5; 6].

Definition small_allocator (n : Z) : bool := n <? 1000.

Lemma type_ref_roundtrip_witness :
  decode_type_ref (encode_type_ref sample_type [1; 2] ++ [3]) (λ _, true) 2%nat =
    (Ok sample_type, length (encode_type_ref sample_type [1; 2])).
Proof.
  apply (type_ref_roundtrip (λ _, true) sample_type [1; 2] [3]); [vm_compute; reflexivity|done].
Defined.

Lemma decode_type_ref_total_witness :
  let '(r, offset') := decode_type_ref [0x02; 0x05; 0xFF; 0xFF; 0x01; 0x07] (λ _, true) 0%nat in
  (0 ≤ offset' ≤ 6)%nat ∧ r = Err (Failed (UnexpectedEof 6 1)).
Proof.
  pose proof (decode_type_ref_total (λ _, true) [0x02; 0x05; 0xFF; 0xFF; 0x01; 0x07] 0
    ltac:(simpl; lia)) as H.
  destruct (decode_type_ref _ _ _) as [r offset'] eqn:E. split; [exact (proj1 H)|].
  revert E. vm_compute. intros [= <- _]. reflexivity.
Defined.

Lemma decode_type_ref_panics_witness :
  (decode_type_ref ([0x03] ++ varint_bytes 0 ++ type_bytes (Concrete 0) ++ varint_bytes (2 ^ 63))
    small_allocator 0%nat).1 = Err Panicked.
Proof.
  refine (proj2 (decode_type_ref_panics small_allocator (Concrete 0) (2 ^ 63) [] [] _ _ _ _));
    [vm_compute; reflexivity|split; vm_compute; congruence|vm_compute; reflexivity|].
  intros m Hm. apply Z.ltb_lt. revert Hm. vm_compute length. lia.
Defined.

Lemma register_operands_exact_witness :
  decode_reg (encode_reg 40000 [] ++ []) 0%nat = (Ok 7232, 2%nat) ∧
  decode_reg_vec (encode_reg_vec [5; 300] [] ++ []) 0%nat = (Ok [5; 300], 4%nat).
Proof.
  destruct (register_operands_exact [] []) as (Hr & Hv & _). split.
  - destruct (Hr 40000) as (_ & H & _); [split; vm_compute; congruence|exact H].
  - apply (Hv [5; 300]); [repeat constructor; vm_compute; congruence|vm_compute; reflexivity].
Defined.
