(* ===== verification/NanBox.v ===== *)
(** * NaN-boxed values

    [verum_vbc/src/value.rs]: a runtime value is a 64-bit word.  The words that
    are not floats carry a three-bit tag and a 48-bit payload; integers beyond
    48 bits and heap references live in process-wide side tables and the word
    holds their index.  The tables are explicit state here. *)

From S2P Require Import Prelude Words.

(** ** Layout *)
Definition NAN_BITS : Z := 0x7FF8000000000000.
Definition TAG_MASK : Z := 0x0007000000000000.
Definition TAG_SHIFT : Z := 48.
Definition PAYLOAD_MASK : Z := 0x0000FFFFFFFFFFFF.

Definition TAG_POINTER : Z := 0x0.
Definition TAG_INTEGER : Z := 0x1.
Definition TAG_BOOLEAN : Z := 0x2.
Definition TAG_UNIT : Z := 0x3.
Definition TAG_SMALL_STRING : Z := 0x4.
Definition TAG_TYPE_REF : Z := 0x5.
Definition TAG_FUNC_REF : Z := 0x6.
Definition TAG_NAN : Z := 0x7.

Definition make_header (tag : Z) : Z := Z.lor NAN_BITS (Z.shiftl tag TAG_SHIFT).

Definition MAX_SMALL_INT : Z := 2 ^ 47 - 1.
Definition MIN_SMALL_INT : Z := - 2 ^ 47.

Definition SPECIAL_VALUE_MARKER : Z := 2 ^ 47.
Definition GENERATOR_MARKER : Z := SPECIAL_VALUE_MARKER.
Definition BOXED_INT_SUB_MARKER : Z := 2 ^ 46.
Definition BOXED_INT_MARKER : Z := Z.lor SPECIAL_VALUE_MARKER BOXED_INT_SUB_MARKER.
Definition GENERATOR_ID_MASK : Z := 2 ^ 45 - 1.
Definition BOXED_INT_INDEX_MASK : Z := 2 ^ 44 - 1.
Definition BOXED_I128_WIDTH_BIT : Z := 2 ^ 44.
Definition THIN_REF_SUB_MARKER : Z := 2 ^ 45.
Definition THIN_REF_MARKER : Z := Z.lor SPECIAL_VALUE_MARKER THIN_REF_SUB_MARKER.
Definition FAT_REF_SUB_MARKER : Z := 2 ^ 45.
Definition FAT_REF_MARKER : Z :=
  Z.lor (Z.lor SPECIAL_VALUE_MARKER BOXED_INT_SUB_MARKER) FAT_REF_SUB_MARKER.
Definition REF_INDEX_MASK : Z := 2 ^ 45 - 1.
Definition SLOT_REF_BIT : Z := 2 ^ 44.
Definition THIN_INDEX_MASK : Z := SLOT_REF_BIT - 1.

Definition CBGR_REGREF_MARKER : Z := 2 ^ 47.
Definition CBGR_REGREF_MUT_BIT : Z := 2 ^ 46.
Definition CBGR_REGREF_ABS_BITS : Z := 24.
Definition CBGR_REGREF_GEN_BITS : Z := 22.
Definition CBGR_REGREF_ABS_MASK : Z := 2 ^ CBGR_REGREF_ABS_BITS - 1.
Definition CBGR_REGREF_GEN_MASK : Z := 2 ^ CBGR_REGREF_GEN_BITS - 1.
Definition CBGR_REGREF_GEN_SHIFT : Z := CBGR_REGREF_ABS_BITS.

(** ** Heap references and the side tables *)
Record ThinRef := { ptr : Z; generation : Z; epoch_caps : Z }.
Record FatRef := { thin : ThinRef; metadata : Z; interior_offset : Z; reserved : Z }.

#[export] Instance ThinRef_eq_dec : EqDecision ThinRef.
Proof. solve_decision. Defined.
#[export] Instance FatRef_eq_dec : EqDecision FatRef.
Proof. solve_decision. Defined.

(** [ThinRef::new] packs the epoch and the capabilities. *)
Definition thin_ref_new (p generation epoch caps : Z) : ThinRef :=
  {| ptr := p; generation := generation; epoch_caps := Z.lor (Z.shiftl epoch 16) caps |}.
Definition thin_epoch (r : ThinRef) : Z := wrap 16 (Z.shiftr (epoch_caps r) 16).
Definition thin_capabilities (r : ThinRef) : Z := wrap 16 (Z.land (epoch_caps r) 0xFFFF).
(** [Capabilities::attenuate]: [self.0 & !remove]. *)
Definition capabilities_attenuate (caps remove : Z) : Z := Z.land caps (wrap 16 (Z.lnot remove)).
Definition thin_attenuate (r : ThinRef) (remove : Z) : ThinRef :=
  {| ptr := ptr r; generation := generation r;
     epoch_caps := Z.lor (Z.shiftl (thin_epoch r) 16)
       (capabilities_attenuate (thin_capabilities r) remove) |}.

Record Tables := {
  BOXED_INTS : list Z;
  BOXED_I128S : list (Z * bool);
  THIN_REFS : list ThinRef;
  FAT_REFS : list FatRef;
}.

(** The state of a process that has boxed nothing, and of
    [reset_global_value_tables]. *)
Definition empty_tables : Tables :=
  {| BOXED_INTS := []; BOXED_I128S := []; THIN_REFS := []; FAT_REFS := [] |}.
Definition reset_global_value_tables (_ : Tables) : Tables := empty_tables.

(** ** Constructors *)
Abbreviation Value := Z.

(** A tagged word: [NAN_BITS | (tag << TAG_SHIFT) | payload]. *)
Definition tagged (tag payload : Z) : Value :=
  Z.lor (Z.lor NAN_BITS (Z.shiftl tag TAG_SHIFT)) payload.

(** A float is its bit pattern. *)
Definition from_f64 (bits : Z) : Value :=
  let is_nan := (Z.land bits 0x7FF0000000000000 =? 0x7FF0000000000000) &&
                negb (Z.land bits 0x000FFFFFFFFFFFFF =? 0) in
  if is_nan then tagged TAG_NAN (Z.land bits PAYLOAD_MASK) else bits.

Definition from_i64_boxed (t : Tables) (i : Z) : Tables * Value :=
  let index := Z.of_nat (length (BOXED_INTS t)) in
  if BOXED_INT_INDEX_MASK <? index
  then (t, tagged TAG_INTEGER (Z.land index BOXED_INT_INDEX_MASK))
  else
    ({| BOXED_INTS := BOXED_INTS t ++ [i]; BOXED_I128S := BOXED_I128S t;
        THIN_REFS := THIN_REFS t; FAT_REFS := FAT_REFS t |},
     Z.lor (tagged TAG_POINTER BOXED_INT_MARKER) index).

Definition from_i64 (t : Tables) (i : Z) : Tables * Value :=
  if (MIN_SMALL_INT <=? i) && (i <=? MAX_SMALL_INT)
  then (t, tagged TAG_INTEGER (Z.land (wrap 64 i) PAYLOAD_MASK))
  else from_i64_boxed t i.

Definition from_i128_raw_signed (t : Tables) (raw : Z) (signed : bool) : Tables * Value :=
  let index := Z.of_nat (length (BOXED_I128S t)) in
  if BOXED_INT_INDEX_MASK <? index
  then (t, Z.lor (Z.lor (tagged TAG_POINTER BOXED_INT_MARKER) BOXED_I128_WIDTH_BIT)
             (Z.land index BOXED_INT_INDEX_MASK))
  else
    ({| BOXED_INTS := BOXED_INTS t; BOXED_I128S := BOXED_I128S t ++ [(raw, signed)];
        THIN_REFS := THIN_REFS t; FAT_REFS := FAT_REFS t |},
     Z.lor (Z.lor (tagged TAG_POINTER BOXED_INT_MARKER) BOXED_I128_WIDTH_BIT) index).

Definition from_i128_raw (t : Tables) (raw : Z) := from_i128_raw_signed t raw true.
Definition from_i128 (t : Tables) (i : Z) := from_i128_raw_signed t (wrap 128 i) true.
Definition from_u128 (t : Tables) (u : Z) := from_i128_raw_signed t u false.

Definition from_bool (b : bool) : Value := tagged TAG_BOOLEAN (Z.b2z b).
Definition from_char (t : Tables) (c : Z) : Tables * Value := from_i64 t c.
Definition unit_value : Value := Z.lor NAN_BITS (Z.shiftl TAG_UNIT TAG_SHIFT).
Definition VACANT_HASH_KEY : Value := Z.lor (make_header TAG_UNIT) 1.
Definition is_vacant_hash_key (v : Value) : bool := v =? VACANT_HASH_KEY.

(** [from_ptr], without the debug assertion that the address has 48 bits. *)
Definition from_ptr (addr : Z) : Value := tagged TAG_POINTER addr.
Definition nil : Value := from_ptr 0.

(** The loop packs byte [i] at bit [8 * i]. *)
Fixpoint pack (i : nat) (s : bytes) (payload : Z) : Z :=
  match s with
  | [] => payload
  | byte :: s => pack (S i) s (Z.lor payload (Z.shiftl byte (Z.of_nat i * 8)))
  end.

Definition from_small_string (s : bytes) : option Value :=
  if (6 <? length s)%nat || existsb (λ b, b =? 0) s then None
  else Some (tagged TAG_SMALL_STRING (pack 0 s 0)).

Definition from_type (type_id : Z) : Value := tagged TAG_TYPE_REF type_id.
Definition from_function (func_id : Z) : Value := tagged TAG_FUNC_REF func_id.
Definition from_generator (generator_id : Z) : Value :=
  Z.lor (tagged TAG_POINTER GENERATOR_MARKER) (Z.land generator_id GENERATOR_ID_MASK).

Definition from_thin_ref (t : Tables) (thin_ref : ThinRef) : Tables * Value :=
  let index := Z.of_nat (length (THIN_REFS t)) in
  if THIN_INDEX_MASK <? index then (t, nil)
  else
    ({| BOXED_INTS := BOXED_INTS t; BOXED_I128S := BOXED_I128S t;
        THIN_REFS := THIN_REFS t ++ [thin_ref]; FAT_REFS := FAT_REFS t |},
     Z.lor (tagged TAG_POINTER THIN_REF_MARKER) index).

Definition projected_slot (id : Z) : option Value :=
  if id <=? THIN_INDEX_MASK
  then Some (Z.lor (Z.lor (tagged TAG_POINTER THIN_REF_MARKER) SLOT_REF_BIT) id) else None.

Definition from_fat_ref (t : Tables) (fat_ref : FatRef) : Tables * Value :=
  let index := Z.of_nat (length (FAT_REFS t)) in
  if REF_INDEX_MASK <? index then (t, nil)
  else
    ({| BOXED_INTS := BOXED_INTS t; BOXED_I128S := BOXED_I128S t;
        THIN_REFS := THIN_REFS t; FAT_REFS := FAT_REFS t ++ [fat_ref] |},
     Z.lor (tagged TAG_POINTER FAT_REF_MARKER) index).

Definition cbgr_regref (abs_index generation : Z) (mutable : bool) : Value :=
  let abs := Z.land abs_index CBGR_REGREF_ABS_MASK in
  let gen_field := Z.shiftl (Z.land generation CBGR_REGREF_GEN_MASK) CBGR_REGREF_GEN_SHIFT in
  let mut_bit := if mutable then CBGR_REGREF_MUT_BIT else 0 in
  Z.lor (Z.lor (Z.lor (tagged TAG_UNIT CBGR_REGREF_MARKER) mut_bit) gen_field) abs.

(** ** Type checks *)
Definition is_float (v : Value) : bool := negb (Z.land v 0xFFF8000000000000 =? 0x7FF8000000000000).
Definition is_tagged (v : Value) : bool := negb (is_float v).

Definition tag (v : Value) : option Z :=
  if is_float v then None else Some (wrap 8 (Z.shiftr (Z.land v TAG_MASK) TAG_SHIFT)).

Definition has_tag (v : Value) (t : Z) : bool :=
  match tag v with Some t' => t' =? wrap 8 t | None => false end.

Definition is_nan_float (v : Value) : bool := has_tag v TAG_NAN.
Definition is_inline_int (v : Value) : bool := has_tag v TAG_INTEGER.
Definition is_boxed_int (v : Value) : bool :=
  has_tag v TAG_POINTER && (Z.land v BOXED_INT_MARKER =? BOXED_INT_MARKER) &&
  (Z.land v FAT_REF_SUB_MARKER =? 0) && (Z.land v BOXED_I128_WIDTH_BIT =? 0).
Definition is_boxed_i128 (v : Value) : bool :=
  has_tag v TAG_POINTER && (Z.land v BOXED_INT_MARKER =? BOXED_INT_MARKER) &&
  (Z.land v FAT_REF_SUB_MARKER =? 0) && negb (Z.land v BOXED_I128_WIDTH_BIT =? 0).
Definition is_int (v : Value) : bool := is_inline_int v || is_boxed_int v || is_boxed_i128 v.
Definition is_bool (v : Value) : bool := has_tag v TAG_BOOLEAN.
Definition is_unit (v : Value) : bool := has_tag v TAG_UNIT && (Z.land v PAYLOAD_MASK =? 0).
Definition is_cbgr_regref (v : Value) : bool :=
  has_tag v TAG_UNIT && negb (Z.land v CBGR_REGREF_MARKER =? 0).
Definition is_small_string (v : Value) : bool := has_tag v TAG_SMALL_STRING.
Definition is_type_ref (v : Value) : bool := has_tag v TAG_TYPE_REF.
Definition is_func_ref (v : Value) : bool := has_tag v TAG_FUNC_REF.
Definition is_generator (v : Value) : bool :=
  has_tag v TAG_POINTER && negb (Z.land v SPECIAL_VALUE_MARKER =? 0) &&
  (Z.land v BOXED_INT_SUB_MARKER =? 0) && (Z.land v THIN_REF_SUB_MARKER =? 0).
Definition is_thin_ref (v : Value) : bool :=
  has_tag v TAG_POINTER && (Z.land v THIN_REF_MARKER =? THIN_REF_MARKER) &&
  (Z.land v BOXED_INT_SUB_MARKER =? 0).
Definition is_projected_slot (v : Value) : bool :=
  is_thin_ref v && negb (Z.land v SLOT_REF_BIT =? 0).
Definition is_fat_ref (v : Value) : bool :=
  has_tag v TAG_POINTER && (Z.land v FAT_REF_MARKER =? FAT_REF_MARKER).
Definition is_cbgr_ref (v : Value) : bool := is_thin_ref v || is_fat_ref v.
Definition is_ptr (v : Value) : bool :=
  has_tag v TAG_POINTER && negb (is_boxed_int v) && negb (is_boxed_i128 v) &&
  negb (is_projected_slot v).
Definition is_nil (v : Value) : bool := is_ptr v && (Z.land v PAYLOAD_MASK =? 0).
Definition is_regular_ptr (v : Value) : bool :=
  has_tag v TAG_POINTER && (Z.land v SPECIAL_VALUE_MARKER =? 0) && negb (is_nil v).

(** ** Extractors *)
Definition cbgr_regref_abs (v : Value) : Z := wrap 32 (Z.land v CBGR_REGREF_ABS_MASK).
Definition cbgr_regref_generation (v : Value) : Z :=
  wrap 32 (Z.land (Z.shiftr v CBGR_REGREF_GEN_SHIFT) CBGR_REGREF_GEN_MASK).
Definition cbgr_regref_is_mut (v : Value) : bool := negb (Z.land v CBGR_REGREF_MUT_BIT =? 0).

Definition index_of (v mask : Z) : nat := Z.to_nat (Z.land v mask).

(** [(payload << 16) >> 16] on [i64]: sign extension from 48 bits. *)
Definition sign_extend_48 (v : Value) : Z :=
  Z.shiftr (to_signed 64 (Z.shiftl (to_signed 64 (Z.land v PAYLOAD_MASK)) 16)) 16.

Definition boxed_i128_raw (t : Tables) (v : Value) : Z :=
  match BOXED_I128S t !! index_of v BOXED_INT_INDEX_MASK with Some (raw, _) => raw | None => 0 end.

Definition as_i64 (t : Tables) (v : Value) : Z :=
  if is_boxed_i128 v then to_signed 64 (boxed_i128_raw t v)
  else if is_boxed_int v
  then default 0 (BOXED_INTS t !! index_of v BOXED_INT_INDEX_MASK)
  else sign_extend_48 v.

Definition as_i128_raw (t : Tables) (v : Value) : Z :=
  if is_boxed_i128 v then boxed_i128_raw t v
  else if is_int v then wrap 128 (as_i64 t v)
  else 0.

Definition boxed_i128_is_signed (t : Tables) (v : Value) : bool :=
  if is_boxed_i128 v then
    match BOXED_I128S t !! index_of v BOXED_INT_INDEX_MASK with
    | Some (_, signed) => signed | None => true end
  else true.

Definition as_bool (v : Value) : bool := negb (Z.land v 1 =? 0).

Definition is_truthy (t : Tables) (v : Value) : bool :=
  if is_bool v then negb (Z.land v 1 =? 0)
  else if is_int v then negb (as_i64 t v =? 0)
  else negb (is_nil v || is_unit v).

(** [char::from_u32] of the low 32 bits; its [expect] panics otherwise: [None]. *)
Definition is_char (c : Z) : bool := (0 <=? c) && ((c <? 0xD800) || ((0xE000 <=? c) && (c <=? 0x10FFFF))).
Definition as_char (t : Tables) (v : Value) : option Z :=
  let codepoint := wrap 32 (as_i64 t v) in if is_char codepoint then Some codepoint else None.

Definition as_ptr (v : Value) : Z := Z.land v PAYLOAD_MASK.
Definition as_type_id (v : Value) : Z := wrap 32 (Z.land v PAYLOAD_MASK).
Definition as_func_id (v : Value) : Z := wrap 32 (Z.land v PAYLOAD_MASK).
Definition as_generator_id (v : Value) : Z := Z.land v GENERATOR_ID_MASK.

(** Six bytes of the payload, cut after the last nonzero one. *)
Definition small_string_bytes (v : Value) : bytes :=
  map (λ i, Z.land (Z.shiftr (Z.land v PAYLOAD_MASK) (Z.of_nat i * 8)) 0xFF) (seq 0 6).
Fixpoint nonzero_prefix (i len : nat) (l : bytes) : nat :=
  match l with
  | [] => len
  | byte :: l => nonzero_prefix (S i) (if byte =? 0 then len else S i) l
  end.
Definition as_small_string (v : Value) : bytes :=
  let l := small_string_bytes v in take (nonzero_prefix 0 0 l) l.

(** [as_f64] of a boxed NaN or of a plain float. *)
Definition float_bits (v : Value) : Z :=
  if has_tag v TAG_NAN then Z.lor (Z.land v PAYLOAD_MASK) 0x7FF8000000000000 else v.

Definition try_as_f64 (v : Value) : option Z :=
  if is_float v || has_tag v TAG_NAN then Some (float_bits v) else None.
Definition try_as_i64 (t : Tables) (v : Value) : option Z :=
  if is_int v then Some (as_i64 t v) else None.
Definition try_as_bool (v : Value) : option bool :=
  if is_bool v then Some (as_bool v) else None.
Definition try_as_generator_id (v : Value) : option Z :=
  if is_generator v then Some (as_generator_id v) else None.
Definition try_as_thin_ref (t : Tables) (v : Value) : option ThinRef :=
  if negb (is_thin_ref v) || is_projected_slot v then None
  else THIN_REFS t !! index_of v THIN_INDEX_MASK.
Definition projection_id (v : Value) : option Z :=
  if is_projected_slot v then Some (Z.land v THIN_INDEX_MASK) else None.
(** [as_fat_ref] indexes the table and panics out of range: [None]. *)
Definition as_fat_ref (t : Tables) (v : Value) : option FatRef :=
  FAT_REFS t !! index_of v REF_INDEX_MASK.
Definition try_as_fat_ref (t : Tables) (v : Value) : option FatRef :=
  if is_fat_ref v then as_fat_ref t v else None.
