(* ===== verification/NanBoxFacts.v ===== *)
(** * Correctness of NaN-boxed values

    The type checks partition the 64-bit words ([value_kinds_exclusive]), and
    what a constructor boxes comes back from the extractor of its kind, also
    after any number of later boxings ([value_roundtrip]). *)

From S2P Require Import Prelude Words NanBox.

(** ** The two fields of a word *)
Definition header (v : Value) : Z := v `div` 2 ^ 48.
Definition payload (v : Value) : Z := v mod 2 ^ 48.

Section fields.
Implicit Types v p h m : Z.

Lemma land_low v m n : 0 ≤ n → 0 ≤ m < 2 ^ n → Z.land v m = Z.land (v mod 2 ^ n) m.
Proof.
  intros Hn Hm. apply Z.bits_inj'. intros i Hi. rewrite !Z.land_spec.
  destruct (decide (i < n)); [by rewrite Z.mod_pow2_bits_low by lia|].
  by rewrite (testbit_high m n i), !andb_false_r by lia.
Qed.

Lemma land_payload v m : 0 ≤ m < 2 ^ 48 → Z.land v m = Z.land (payload v) m.
Proof. intros. apply land_low; [lia|done]. Qed.

Lemma land_field v a b : 0 ≤ a → 0 ≤ b →
  Z.land v (Z.shiftl (2 ^ a - 1) b) = (v `div` 2 ^ b) mod 2 ^ a * 2 ^ b.
Proof.
  intros Ha Hb. rewrite <- shiftr_div, <- land_mask, <- Z.shiftl_mul_pow2 by done.
  rewrite Z.shiftl_land. apply Z.bits_inj'. intros i Hi. rewrite !Z.land_spec.
  destruct (decide (i < b)).
  - by rewrite (Z.shiftl_spec_low (2 ^ a - 1)), !andb_false_r by lia.
  - rewrite (Z.shiftl_spec_high (Z.shiftr v b)), Z.shiftr_spec by lia.
    do 2 f_equal. lia.
Qed.

Lemma word_fields p h : 0 ≤ p < 2 ^ 48 →
  header (p + h * 2 ^ 48) = h ∧ payload (p + h * 2 ^ 48) = p.
Proof.
  intros Hp. unfold header, payload. split.
  - rewrite Z.div_add by lia. rewrite Z.div_small by done. lia.
  - rewrite Z.mod_add by lia. by apply Z.mod_small.
Qed.

Lemma testbit_payload v i : 0 ≤ i < 48 → Z.testbit v i = Z.testbit (payload v) i.
Proof. intros. unfold payload. by rewrite Z.mod_pow2_bits_low by lia. Qed.

Lemma payload_range v : 0 ≤ payload v < 2 ^ 48.
Proof. by apply Z.mod_pos_bound. Qed.
End fields.

(** ** Tagged words *)
Lemma tagged_sum t p : 0 ≤ t < 8 → 0 ≤ p < 2 ^ 48 → tagged t p = p + (0x7FF8 + t) * 2 ^ 48.
Proof.
  intros Ht Hp. unfold tagged, NAN_BITS, TAG_SHIFT.
  change 0x7FF8000000000000 with (Z.shiftl 0xFFF 51).
  rewrite (Z.lor_comm (Z.shiftl 0xFFF 51)).
  assert (E : Z.shiftl t 48 = t * 2 ^ 48) by by apply Z.shiftl_mul_pow2.
  rewrite (lor_shiftl (Z.shiftl t 48)) by (rewrite ?E; change (2 ^ 51) with (8 * 2 ^ 48); lia).
  rewrite E. replace (t * 2 ^ 48 + 0xFFF * 2 ^ 51) with ((0x7FF8 + t) * 2 ^ 48)
    by (change (2 ^ 51) with (8 * 2 ^ 48); ring).
  rewrite <- (Z.shiftl_mul_pow2 (0x7FF8 + t)), Z.lor_comm by done.
  by rewrite lor_shiftl, Z.shiftl_mul_pow2 by done.
Qed.

Lemma tagged_lor t p q : Z.lor (tagged t p) q = tagged t (Z.lor p q).
Proof. unfold tagged. by rewrite <- Z.lor_assoc. Qed.

Lemma tagged_fields t p : 0 ≤ t < 8 → 0 ≤ p < 2 ^ 48 →
  header (tagged t p) = 0x7FF8 + t ∧ payload (tagged t p) = p.
Proof. intros Ht Hp. rewrite tagged_sum by done. by apply word_fields. Qed.

Lemma tagged_u64 t p : 0 ≤ t < 8 → 0 ≤ p < 2 ^ 48 → is_u 64 (tagged t p).
Proof.
  intros Ht Hp. rewrite tagged_sum by done. unfold is_u. change (2 ^ 64) with (0x10000 * 2 ^ 48). lia.
Qed.

Lemma header_range v : is_u 64 v → 0 ≤ header v < 0x10000.
Proof.
  intros Hv. unfold header, is_u in *. split; [apply Z.div_pos; lia|].
  apply Z.div_lt_upper_bound; [lia|]. change (2 ^ 48 * 0x10000) with (2 ^ 64). lia.
Qed.

Lemma is_float_spec v : is_u 64 v → is_float v = negb (header v `div` 8 =? 0xFFF).
Proof.
  intros Hv. unfold is_float. f_equal.
  change 0xFFF8000000000000 with (Z.shiftl (2 ^ 13 - 1) 51). rewrite land_field by lia.
  pose proof (header_range v Hv) as Hh. unfold header in *.
  replace (v `div` 2 ^ 51) with ((v `div` 2 ^ 48) `div` 8) by (rewrite Z.div_div by lia; done).
  rewrite Z.mod_small by (split; [apply Z.div_pos; lia|apply Z.div_lt_upper_bound; lia]).
  change 0x7FF8000000000000 with (0xFFF * 2 ^ 51).
  destruct (Z.eqb_spec ((v `div` 2 ^ 48) `div` 8) 0xFFF) as [->|Hn]; [done|].
  apply Z.eqb_neq. lia.
Qed.

Lemma has_tag_spec v t : is_u 64 v → 0 ≤ t < 8 → has_tag v t = (header v =? 0x7FF8 + t).
Proof.
  intros Hv Ht. unfold has_tag, tag. rewrite is_float_spec by done.
  pose proof (Z.div_mod (header v) 8 ltac:(lia)). pose proof (Z.mod_pos_bound (header v) 8 ltac:(lia)).
  destruct (Z.eqb_spec (header v `div` 8) 0xFFF) as [E|E]; cbn [negb].
  - change TAG_MASK with (Z.shiftl (2 ^ 3 - 1) 48). rewrite land_field by lia.
    unfold TAG_SHIFT. rewrite shiftr_div, Z.div_mul by lia. fold (header v). change (2 ^ 3) with 8.
    rewrite !wrap_id by (unfold is_u; change (2 ^ 8) with 256; lia).
    destruct (Z.eqb_spec (header v mod 8) t), (Z.eqb_spec (header v) (0x7FF8 + t)); done || lia.
  - symmetry. apply Z.eqb_neq. lia.
Qed.

(** A test against a mask is a test of its bits. *)
Lemma mask2 v a b : 0 ≤ a → 0 ≤ b →
  (Z.land v (Z.lor (2 ^ a) (2 ^ b)) =? Z.lor (2 ^ a) (2 ^ b)) = Z.testbit v a && Z.testbit v b.
Proof.
  intros Ha Hb. apply eq_true_iff_eq. rewrite andb_true_iff, Z.eqb_eq. split.
  - intros E. assert (H : ∀ i, Z.testbit (Z.lor (2 ^ a) (2 ^ b)) i = true → Z.testbit v i = true).
    { intros i Hi. rewrite <- E, Z.land_spec in Hi. by apply andb_true_iff in Hi as [? _]. }
    split; apply H; rewrite Z.lor_spec, !Z.pow2_bits_eqb, Z.eqb_refl by done; [done|apply orb_true_r].
  - intros [Ea Eb]. apply Z.bits_inj'. intros i Hi.
    rewrite Z.land_spec, Z.lor_spec, !Z.pow2_bits_eqb by done.
    destruct (Z.eqb_spec a i) as [->|]; [by rewrite Ea|].
    destruct (Z.eqb_spec b i) as [->|]; [by rewrite Eb|]. apply andb_false_r.
Qed.

Lemma mask3 v a b c : 0 ≤ a → 0 ≤ b → 0 ≤ c →
  (Z.land v (Z.lor (Z.lor (2 ^ a) (2 ^ b)) (2 ^ c)) =? Z.lor (Z.lor (2 ^ a) (2 ^ b)) (2 ^ c)) =
    Z.testbit v a && Z.testbit v b && Z.testbit v c.
Proof.
  intros Ha Hb Hc. rewrite <- mask2 by done. apply eq_true_iff_eq. rewrite andb_true_iff, !Z.eqb_eq.
  split.
  - intros E. assert (H : ∀ i, 0 ≤ i → Z.testbit (Z.lor (Z.lor (2 ^ a) (2 ^ b)) (2 ^ c)) i = true →
      Z.testbit v i = true).
    { intros i _ Hi. rewrite <- E, Z.land_spec in Hi. by apply andb_true_iff in Hi as [? _]. }
    split.
    + apply Z.bits_inj'. intros i Hi. rewrite Z.land_spec. specialize (H i Hi).
      rewrite (Z.lor_spec (Z.lor _ _)) in H. destruct (Z.testbit (Z.lor (2 ^ a) (2 ^ b)) i);
        [by rewrite H|apply andb_false_r].
    + apply H; [done|]. by rewrite (Z.lor_spec (Z.lor _ _)), (Z.pow2_bits_eqb c), Z.eqb_refl, orb_true_r.
  - intros [E Ec]. rewrite Z.land_lor_distr_r, E. f_equal.
    rewrite land_bit, Ec by done. cbn [Z.b2z]. lia.
Qed.

(** ** The type checks as tests of the header and of single bits *)
Ltac unfold_kinds :=
  unfold is_regular_ptr, is_nil, is_ptr, is_cbgr_ref, is_int, is_projected_slot, is_thin_ref,
    is_fat_ref, is_generator, is_boxed_int, is_boxed_i128, is_cbgr_regref, is_unit, is_nan_float,
    is_inline_int, is_bool, is_small_string, is_type_ref, is_func_ref,
    BOXED_INT_MARKER, FAT_REF_MARKER, THIN_REF_MARKER, SPECIAL_VALUE_MARKER, BOXED_INT_SUB_MARKER,
    THIN_REF_SUB_MARKER, FAT_REF_SUB_MARKER, BOXED_I128_WIDTH_BIT, SLOT_REF_BIT,
    CBGR_REGREF_MARKER.

Lemma payload_mask v : Z.land v PAYLOAD_MASK = payload v.
Proof. change PAYLOAD_MASK with (2 ^ 48 - 1). by apply land_mask. Qed.

Ltac kind_bits Hv :=
  unfold_kinds; rewrite ?mask2, ?mask3, ?land_bit_zero by lia; rewrite ?payload_mask;
  rewrite ?(has_tag_spec _ _ Hv) by done.

(** The checks of [Value], thin references without the projected slots. *)
Definition kind_checks (v : Value) : list bool :=
  [is_float v; is_nan_float v; is_inline_int v; is_boxed_int v; is_boxed_i128 v; is_bool v;
   is_unit v; is_cbgr_regref v; is_small_string v; is_type_ref v; is_func_ref v; is_generator v;
   is_thin_ref v && negb (is_projected_slot v); is_projected_slot v; is_fat_ref v;
   is_regular_ptr v; is_nil v].

(** Unit words that are neither the unit value nor a register reference; the
    vacant hash key is one of them. *)
Definition reserved_unit (v : Value) : bool :=
  has_tag v TAG_UNIT && negb (Z.land v PAYLOAD_MASK =? 0) && (Z.land v CBGR_REGREF_MARKER =? 0).

Lemma payload_zero_bit v i : 0 ≤ i < 48 → payload v = 0 → Z.testbit v i = false.
Proof. intros Hi H. rewrite testbit_payload, H by done. apply Z.bits_0. Qed.

(** The type checks partition the words: of any 64-bit word exactly one check
    holds, except for the reserved unit words, where none does.  So no integer,
    of any value or sign, is ever taken for a reference, and no kind of
    reference for another. *)
Theorem value_kinds_exclusive (v : Value) :
  is_u 64 v →
  length (filter (λ b, b = true) (kind_checks v)) = (if reserved_unit v then 0 else 1)%nat ∧
  (is_int v = true → is_cbgr_regref v = false ∧ is_ptr v = false ∧ is_cbgr_ref v = false) ∧
  (is_vacant_hash_key v = true → reserved_unit v = true).
Proof.
  intros Hv. split_and!.
  - unfold kind_checks, reserved_unit. rewrite is_float_spec by done. kind_bits Hv.
    pose proof (Z.div_mod (header v) 8 ltac:(lia)) as Hd.
    pose proof (Z.mod_pos_bound (header v) 8 ltac:(lia)) as Hm.
    pose proof (payload_zero_bit v 47 ltac:(lia)) as P47.
    destruct (Z.eqb_spec (header v `div` 8) 0xFFF) as [E|E]; cbn [negb].
    + rewrite E in Hd.
      assert (Ht : header v = 0x7FF8 ∨ header v = 0x7FF9 ∨ header v = 0x7FFA ∨ header v = 0x7FFB ∨
        header v = 0x7FFC ∨ header v = 0x7FFD ∨ header v = 0x7FFE ∨ header v = 0x7FFF) by lia.
      clear E Hd Hm Hv. destruct_or! Ht; rewrite Ht;
        destruct (Z.testbit v 47), (Z.testbit v 46), (Z.testbit v 45), (Z.testbit v 44),
          (Z.eqb_spec (payload v) 0); try reflexivity; naive_solver.
    + assert (H : ∀ t, 0 ≤ t < 8 → (header v =? 0x7FF8 + t) = false)
        by (intros; apply Z.eqb_neq; intros Hh; apply E; rewrite Hh; symmetry; apply (Z.div_unique _ _ _ t); lia).
      rewrite !H by done. reflexivity.
  - kind_bits Hv. unfold TAG_INTEGER, TAG_POINTER, TAG_UNIT.
    destruct (Z.eqb_spec (header v) (0x7FF8 + 1)) as [->|]; [done|].
    destruct (Z.eqb_spec (header v) (0x7FF8 + 0)) as [->|]; [|done].
    destruct (Z.testbit v 47), (Z.testbit v 46), (Z.testbit v 45), (Z.testbit v 44); done.
  - intros ->%Z.eqb_eq. reflexivity.
Qed.

(** ** Boxing and unboxing *)

(** A later state of the tables: each has only grown. *)
Definition tables_extend (t t' : Tables) : Prop :=
  BOXED_INTS t `prefix_of` BOXED_INTS t' ∧ BOXED_I128S t `prefix_of` BOXED_I128S t' ∧
  THIN_REFS t `prefix_of` THIN_REFS t' ∧ FAT_REFS t `prefix_of` FAT_REFS t'.

(** Every table has an index free. *)
Definition has_room (t : Tables) : Prop :=
  Z.of_nat (length (BOXED_INTS t)) < 2 ^ 44 ∧ Z.of_nat (length (BOXED_I128S t)) < 2 ^ 44 ∧
  Z.of_nat (length (THIN_REFS t)) < 2 ^ 44 ∧ Z.of_nat (length (FAT_REFS t)) < 2 ^ 45.

#[export] Instance tables_extend_preorder : PreOrder tables_extend.
Proof.
  unfold tables_extend. split; [intros t; split_and!; reflexivity|].
  intros t1 t2 t3 (? & ? & ? & ?) (? & ? & ? & ?). split_and!; by etrans.
Qed.

Lemma prefix_last {A} (l k : list A) x : (l ++ [x]) `prefix_of` k → k !! length l = Some x.
Proof. intros [r ->]. rewrite <- (assoc_L app). by apply list_lookup_middle. Qed.

(** The header and the bits of a word whose payload is a marker and an index. *)
Section marked.
Context (tg m n idx : Z).
Context (Htg : 0 ≤ tg < 8) (Hn : 0 ≤ n ≤ 48) (Hidx : 0 ≤ idx < 2 ^ n) (Hm : 0 ≤ m < 2 ^ (48 - n)).

Lemma marked_payload : Z.lor (tagged tg (Z.shiftl m n)) idx = tagged tg (idx + m * 2 ^ n).
Proof using Htg Hn Hidx Hm. rewrite tagged_lor, Z.lor_comm, lor_shiftl by lia. done. Qed.

Lemma marked_range : 0 ≤ idx + m * 2 ^ n < 2 ^ 48.
Proof using Hn Hidx Hm.
  replace 48 with (48 - n + n) by lia. rewrite Z.pow_add_r by lia. nia.
Qed.

Lemma marked_low : Z.land (tagged tg (idx + m * 2 ^ n)) (2 ^ n - 1) = idx.
Proof using Htg Hn Hidx Hm.
  pose proof marked_range. rewrite land_mask, tagged_sum by lia.
  replace 48 with (48 - n + n) by lia. rewrite Z.pow_add_r by lia.
  replace (idx + m * 2 ^ n + (0x7FF8 + tg) * (2 ^ (48 - n) * 2 ^ n))
    with (idx + (m + (0x7FF8 + tg) * 2 ^ (48 - n)) * 2 ^ n) by ring.
  rewrite Z.mod_add by lia. by apply Z.mod_small.
Qed.

Lemma marked_bit i : n ≤ i < 48 →
  Z.testbit (tagged tg (idx + m * 2 ^ n)) i = Z.testbit m (i - n).
Proof using Htg Hn Hidx Hm.
  intros Hi. pose proof marked_range. rewrite testbit_payload by lia.
  rewrite (proj2 (tagged_fields tg _ Htg marked_range)).
  rewrite <- lor_shiftl, Z.lor_spec, Z.shiftl_spec by lia.
  by rewrite (testbit_high idx n i) by lia.
Qed.

Lemma marked_header : header (tagged tg (idx + m * 2 ^ n)) = 0x7FF8 + tg.
Proof using Htg Hn Hidx Hm. apply tagged_fields; [done|apply marked_range]. Qed.

Lemma marked_u64 : is_u 64 (tagged tg (idx + m * 2 ^ n)).
Proof using Htg Hn Hidx Hm. apply tagged_u64; [done|apply marked_range]. Qed.
End marked.

Lemma boxed_word idx : 0 ≤ idx < 2 ^ 44 →
  let v := Z.lor (tagged TAG_POINTER BOXED_INT_MARKER) idx in
  is_u 64 v ∧ is_boxed_int v = true ∧ is_boxed_i128 v = false ∧
  index_of v BOXED_INT_INDEX_MASK = Z.to_nat idx.
Proof.
  intros Hi. cbv zeta. change BOXED_INT_MARKER with (Z.shiftl 12 44).
  rewrite marked_payload by (done || lia).
  pose proof (marked_u64 TAG_POINTER 12 44 idx ltac:(done) ltac:(done) Hi ltac:(done)) as Hv.
  unfold index_of, BOXED_INT_INDEX_MASK. rewrite marked_low by done.
  split; [done|]. kind_bits Hv. rewrite marked_header, !marked_bit by (done || lia). done.
Qed.

Ltac marked Hi :=
  rewrite marked_payload by (done || lia);
  match goal with
  | |- context [tagged ?tg (?idx + ?m * 2 ^ ?n)] =>
      let Hv := fresh "Hv" in
      pose proof (marked_u64 tg m n idx ltac:(done) ltac:(done) Hi ltac:(done)) as Hv;
      kind_bits Hv; rewrite ?marked_header, ?marked_bit by (done || lia)
  end.

Lemma boxed_i128_word idx : 0 ≤ idx < 2 ^ 44 →
  let v := Z.lor (Z.lor (tagged TAG_POINTER BOXED_INT_MARKER) BOXED_I128_WIDTH_BIT) idx in
  is_boxed_int v = false ∧ is_boxed_i128 v = true ∧ index_of v BOXED_INT_INDEX_MASK = Z.to_nat idx.
Proof.
  intros Hi. cbv zeta. rewrite tagged_lor.
  change (Z.lor BOXED_INT_MARKER BOXED_I128_WIDTH_BIT) with (Z.shiftl 13 44).
  unfold index_of, BOXED_INT_INDEX_MASK.
  split_and!; [marked Hi; done..|]. rewrite marked_payload by (done || lia). by rewrite marked_low.
Qed.

Lemma thin_word idx : 0 ≤ idx < 2 ^ 44 →
  let v := Z.lor (tagged TAG_POINTER THIN_REF_MARKER) idx in
  is_thin_ref v = true ∧ is_projected_slot v = false ∧ index_of v THIN_INDEX_MASK = Z.to_nat idx.
Proof.
  intros Hi. cbv zeta. change THIN_REF_MARKER with (Z.shiftl 10 44).
  unfold index_of, THIN_INDEX_MASK, SLOT_REF_BIT.
  split_and!; [marked Hi; done..|]. rewrite marked_payload by (done || lia). by rewrite marked_low.
Qed.

Lemma slot_word idx : 0 ≤ idx < 2 ^ 44 →
  let v := Z.lor (Z.lor (tagged TAG_POINTER THIN_REF_MARKER) SLOT_REF_BIT) idx in
  is_projected_slot v = true ∧ Z.land v THIN_INDEX_MASK = idx.
Proof.
  intros Hi. cbv zeta. rewrite tagged_lor.
  change (Z.lor THIN_REF_MARKER SLOT_REF_BIT) with (Z.shiftl 11 44).
  unfold THIN_INDEX_MASK. change (SLOT_REF_BIT - 1) with (2 ^ 44 - 1).
  split; [marked Hi; done|]. rewrite marked_payload by (done || lia). by rewrite marked_low.
Qed.

Lemma fat_word idx : 0 ≤ idx < 2 ^ 45 →
  let v := Z.lor (tagged TAG_POINTER FAT_REF_MARKER) idx in
  is_fat_ref v = true ∧ index_of v REF_INDEX_MASK = Z.to_nat idx.
Proof.
  intros Hi. cbv zeta. change FAT_REF_MARKER with (Z.shiftl 7 45).
  unfold index_of, REF_INDEX_MASK.
  split; [marked Hi; done|]. rewrite marked_payload by (done || lia). by rewrite marked_low.
Qed.

Lemma generator_word id : 0 ≤ id < 2 ^ 45 →
  is_generator (from_generator id) = true ∧ as_generator_id (from_generator id) = id.
Proof.
  intros Hi. unfold as_generator_id, from_generator, GENERATOR_ID_MASK.
  rewrite (land_mask id), Z.mod_small by lia. change GENERATOR_MARKER with (Z.shiftl 4 45).
  split; [marked Hi; done|]. rewrite marked_payload by (done || lia). by rewrite marked_low.
Qed.

Lemma tagged_kind t p t' : 0 ≤ t < 8 → 0 ≤ t' < 8 → 0 ≤ p < 2 ^ 48 → has_tag (tagged t p) t' = (t =? t').
Proof.
  intros Ht Ht' Hp. rewrite has_tag_spec by (done || by apply tagged_u64).
  rewrite (proj1 (tagged_fields t p Ht Hp)).
  destruct (Z.eqb_spec t t') as [->|]; [by rewrite Z.eqb_refl|]. apply Z.eqb_neq. lia.
Qed.

Lemma sign_extend_tagged t i : 0 ≤ t < 8 → - 2 ^ 47 ≤ i < 2 ^ 47 →
  sign_extend_48 (tagged t (i mod 2 ^ 48)) = i.
Proof.
  intros Ht Hi. unfold sign_extend_48. pose proof (Z.mod_pos_bound i (2 ^ 48) ltac:(lia)) as Hp.
  rewrite payload_mask, (proj2 (tagged_fields t _ Ht Hp)).
  rewrite (to_signed_small 64 (i mod 2 ^ 48)) by (done || (change (2 ^ (64 - 1)) with (2 ^ 63); lia)).
  rewrite Z.shiftl_mul_pow2 by done. unfold to_signed. cbv zeta.
  rewrite wrap_id by (unfold is_u; change (2 ^ 64) with (2 ^ 48 * 2 ^ 16); lia).
  rewrite shiftr_div by lia. change (2 ^ (64 - 1)) with (2 ^ 47 * 2 ^ 16).
  change (2 ^ 64) with (2 ^ 48 * 2 ^ 16).
  destruct (decide (0 ≤ i)).
  - rewrite (Z.mod_small i) in * by lia. rewrite (proj2 (Z.ltb_lt _ _)) by lia. by rewrite Z.div_mul by lia.
  - assert (E : i mod 2 ^ 48 = i + 2 ^ 48) by (symmetry; apply (Z.mod_unique _ _ (-1)); lia).
    rewrite E in *. rewrite (proj2 (Z.ltb_ge _ _)) by lia.
    replace ((i + 2 ^ 48) * 2 ^ 16 - 2 ^ 48 * 2 ^ 16) with (i * 2 ^ 16) by ring. by rewrite Z.div_mul by lia.
Qed.

Lemma inline_int_word i : - 2 ^ 47 ≤ i < 2 ^ 47 →
  let v := tagged TAG_INTEGER (Z.land (wrap 64 i) PAYLOAD_MASK) in
  is_inline_int v = true ∧ is_boxed_int v = false ∧ is_boxed_i128 v = false ∧ sign_extend_48 v = i.
Proof.
  intros Hi. cbv zeta. rewrite payload_mask. unfold payload.
  assert (E : wrap 64 i mod 2 ^ 48 = i mod 2 ^ 48).
  { unfold wrap. change (2 ^ 64) with (2 ^ 48 * 2 ^ 16).
    rewrite Z.rem_mul_r by lia. rewrite (Z.mul_comm (2 ^ 48)), Z.mod_add by lia. by apply Zmod_mod. }
  rewrite E. pose proof (Z.mod_pos_bound i (2 ^ 48) ltac:(lia)) as Hp.
  split_and!; [..|by apply sign_extend_tagged];
    unfold is_inline_int, is_boxed_int, is_boxed_i128; by rewrite tagged_kind.
Qed.

(** ** One lemma per family of constructors *)
Lemma from_i64_roundtrip t i :
  has_room t → is_i 64 i →
  let '(t', v) := from_i64 t i in
  tables_extend t t' ∧ ∀ t'', tables_extend t' t'' → try_as_i64 t'' v = Some i.
Proof.
  intros (H1 & _) Hi. unfold from_i64, MIN_SMALL_INT, MAX_SMALL_INT.
  destruct (Z.leb_spec (- 2 ^ 47) i), (Z.leb_spec i (2 ^ 47 - 1)); cbn [andb].
  1: { destruct (inline_int_word i ltac:(lia)) as (K1 & K2 & K3 & K4). split; [reflexivity|].
       intros t'' _. unfold try_as_i64, is_int, as_i64. by rewrite K1, K2, K3, K4. }
  all: unfold from_i64_boxed; rewrite (proj2 (Z.ltb_ge BOXED_INT_INDEX_MASK _))
    by (unfold BOXED_INT_INDEX_MASK; lia).
  all: destruct (boxed_word (Z.of_nat (length (BOXED_INTS t))) ltac:(lia)) as (_ & K1 & K2 & K3).
  all: split; [unfold tables_extend; cbn; split_and!; first [reflexivity|by apply prefix_app_r]|].
  all: intros t'' (E & _); cbn [BOXED_INTS] in E; apply prefix_last in E.
  all: unfold try_as_i64, is_int, as_i64; rewrite K1, K2, K3, Nat2Z.id, E; by rewrite orb_true_r.
Qed.

Lemma from_i128_roundtrip t raw signed :
  has_room t →
  let '(t', v) := from_i128_raw_signed t raw signed in
  tables_extend t t' ∧ is_boxed_i128 v = true ∧
  ∀ t'', tables_extend t' t'' →
    as_i128_raw t'' v = raw ∧ boxed_i128_is_signed t'' v = signed ∧
    try_as_i64 t'' v = Some (to_signed 64 raw).
Proof.
  intros (_ & H1 & _). unfold from_i128_raw_signed.
  rewrite (proj2 (Z.ltb_ge BOXED_INT_INDEX_MASK _)) by (unfold BOXED_INT_INDEX_MASK; lia).
  destruct (boxed_i128_word (Z.of_nat (length (BOXED_I128S t))) ltac:(lia)) as (K1 & K2 & K3).
  split; [unfold tables_extend; cbn; split_and!; first [reflexivity|by apply prefix_app_r]|].
  split; [done|]. intros t'' (_ & E & _). cbn [BOXED_I128S] in E. apply prefix_last in E.
  unfold as_i128_raw, boxed_i128_is_signed, try_as_i64, is_int, as_i64, boxed_i128_raw.
  rewrite K1, K2, K3, Nat2Z.id, E, orb_true_r. done.
Qed.

Lemma from_thin_roundtrip t r :
  has_room t →
  let '(t', v) := from_thin_ref t r in
  tables_extend t t' ∧ ∀ t'', tables_extend t' t'' → try_as_thin_ref t'' v = Some r.
Proof.
  intros (_ & _ & H1 & _). unfold from_thin_ref.
  rewrite (proj2 (Z.ltb_ge THIN_INDEX_MASK _)) by (change THIN_INDEX_MASK with (2 ^ 44 - 1); lia).
  destruct (thin_word (Z.of_nat (length (THIN_REFS t))) ltac:(lia)) as (K1 & K2 & K3).
  split; [unfold tables_extend; cbn; split_and!; first [reflexivity|by apply prefix_app_r]|].
  intros t'' (_ & _ & E & _). cbn [THIN_REFS] in E. apply prefix_last in E.
  unfold try_as_thin_ref. by rewrite K1, K2, K3, Nat2Z.id, E.
Qed.

Lemma from_fat_roundtrip t r :
  has_room t →
  let '(t', v) := from_fat_ref t r in
  tables_extend t t' ∧ ∀ t'', tables_extend t' t'' → try_as_fat_ref t'' v = Some r.
Proof.
  intros (_ & _ & _ & H1). unfold from_fat_ref.
  rewrite (proj2 (Z.ltb_ge REF_INDEX_MASK _)) by (unfold REF_INDEX_MASK; lia).
  destruct (fat_word (Z.of_nat (length (FAT_REFS t))) ltac:(lia)) as (K1 & K2).
  split; [unfold tables_extend; cbn; split_and!; first [reflexivity|by apply prefix_app_r]|].
  intros t'' (_ & _ & _ & E). cbn [FAT_REFS] in E. apply prefix_last in E.
  unfold try_as_fat_ref, as_fat_ref. by rewrite K1, K2, Nat2Z.id, E.
Qed.

(** A register reference keeps its index and mutability and the low 22 bits of
    the generation. *)
Lemma regref_word a g (mutable : bool) : 0 ≤ a < 2 ^ 24 →
  let v := cbgr_regref a g mutable in
  is_u 64 v ∧ is_cbgr_regref v = true ∧ cbgr_regref_abs v = a ∧
  cbgr_regref_generation v = g mod 2 ^ 22 ∧ cbgr_regref_is_mut v = mutable.
Proof.
  intros Ha. cbv zeta. unfold cbgr_regref, CBGR_REGREF_ABS_MASK, CBGR_REGREF_GEN_MASK,
    CBGR_REGREF_GEN_SHIFT, CBGR_REGREF_ABS_BITS, CBGR_REGREF_GEN_BITS.
  rewrite !land_mask by lia. rewrite (Z.mod_small a) by lia. rewrite !tagged_lor.
  pose proof (Z.mod_pos_bound g (2 ^ 22) ltac:(lia)) as Hg. set (gl := g mod 2 ^ 22) in *.
  set (c := if mutable then 3 else 2).
  assert (E : Z.lor (Z.lor (Z.lor CBGR_REGREF_MARKER (if mutable then CBGR_REGREF_MUT_BIT else 0))
      (Z.shiftl gl 24)) a = Z.lor (Z.shiftl (gl + c * 2 ^ 22) 24) a).
  { f_equal. rewrite <- (lor_shiftl gl c 22), Z.shiftl_lor, Z.lor_comm by lia. f_equal.
    rewrite Z.shiftl_shiftl by lia. subst c. by destruct mutable. }
  rewrite E, <- tagged_lor. assert (Hc : 2 ≤ c ≤ 3) by (subst c; destruct mutable; lia).
  assert (Hm : 0 ≤ gl + c * 2 ^ 22 < 2 ^ (48 - 24)) by (change (2 ^ (48 - 24)) with (4 * 2 ^ 22); lia).
  rewrite marked_payload by (done || lia).
  set (v := tagged TAG_UNIT (a + (gl + c * 2 ^ 22) * 2 ^ 24)).
  assert (Hv : is_u 64 v) by (apply marked_u64; done || lia).
  assert (Hlow : Z.land v (2 ^ 24 - 1) = a) by (apply marked_low; done || lia).
  assert (Hb : ∀ i, 24 ≤ i < 48 → Z.testbit v i = Z.testbit (gl + c * 2 ^ 22) (i - 24))
    by (intros; apply marked_bit; done || lia).
  assert (Hc2 : ∀ i, 22 ≤ i → Z.testbit (gl + c * 2 ^ 22) i = Z.testbit c (i - 22)).
  { intros i Hi. rewrite <- lor_shiftl, Z.lor_spec, Z.shiftl_spec by lia.
    by rewrite (testbit_high gl 22 i) by lia. }
  split; [done|]. unfold cbgr_regref_abs, cbgr_regref_generation, cbgr_regref_is_mut,
    CBGR_REGREF_MUT_BIT, CBGR_REGREF_ABS_MASK, CBGR_REGREF_GEN_MASK, CBGR_REGREF_GEN_SHIFT,
    CBGR_REGREF_ABS_BITS, CBGR_REGREF_GEN_BITS.
  assert (Hsh : Z.shiftr v 24 = gl + (c + (0x7FF8 + TAG_UNIT) * 4) * 2 ^ 22).
  { subst v. rewrite shiftr_div, tagged_sum by (done || (apply (marked_range (_ + _) 24); done || lia)).
    change (2 ^ 48) with (2 ^ 24 * 2 ^ 24). rewrite Z.mul_assoc, <- Z.add_assoc, <- Z.mul_add_distr_r.
    rewrite Z.div_add by lia. rewrite Z.div_small by lia. change (2 ^ 24) with (4 * 2 ^ 22). ring. }
  kind_bits Hv. split_and!.
  - assert (Hh : header v = 0x7FF8 + TAG_UNIT) by (apply marked_header; done || lia).
    rewrite Hh, Hb, Hc2 by lia. subst c. by destruct mutable.
  - by rewrite Hlow, wrap_id by (unfold is_u; change (2 ^ 32) with (256 * 2 ^ 24); lia).
  - rewrite land_mask, Hsh, Z.mod_add, Z.mod_small by lia.
    rewrite wrap_id by (unfold is_u; change (2 ^ 32) with (1024 * 2 ^ 22); lia). done.
  - rewrite Hb, Hc2 by lia. subst c. by destruct mutable.
Qed.

(** ** Floats *)
Definition is_nan_bits (bits : Z) : bool :=
  ((bits `div` 2 ^ 52) mod 2 ^ 11 =? 0x7FF) && negb (bits mod 2 ^ 52 =? 0).

Lemma from_f64_roundtrip bits : is_u 64 bits →
  try_as_f64 (from_f64 bits) =
    Some (if is_nan_bits bits then bits mod 2 ^ 48 + 0x7FF8 * 2 ^ 48 else bits) ∧
  is_int (from_f64 bits) = false.
Proof.
  intros Hb.
  assert (E : (Z.land bits 0x7FF0000000000000 =? 0x7FF0000000000000) &&
    negb (Z.land bits 0x000FFFFFFFFFFFFF =? 0) = is_nan_bits bits).
  { unfold is_nan_bits. change 0x7FF0000000000000 with (Z.shiftl (2 ^ 11 - 1) 52).
    rewrite land_field by lia. change 0x000FFFFFFFFFFFFF with (2 ^ 52 - 1). rewrite land_mask by lia.
    f_equal. change (Z.shiftl (2 ^ 11 - 1) 52) with (0x7FF * 2 ^ 52).
    destruct (Z.eqb_spec ((bits `div` 2 ^ 52) mod 2 ^ 11) 0x7FF) as [->|]; [by rewrite Z.eqb_refl|].
    apply Z.eqb_neq. lia. }
  unfold from_f64. rewrite E. cbv zeta. destruct (is_nan_bits bits) eqn:En.
  - rewrite payload_mask. pose proof (payload_range bits) as Hp. unfold try_as_f64, float_bits.
    unfold is_int, is_inline_int, is_boxed_int, is_boxed_i128.
    rewrite !tagged_kind by done. cbn [Z.eqb TAG_NAN TAG_INTEGER TAG_POINTER Pos.eqb andb orb].
    rewrite orb_true_r. split; [|done]. f_equal.
    rewrite payload_mask, (proj2 (tagged_fields TAG_NAN _ ltac:(done) Hp)).
    change 0x7FF8000000000000 with (Z.shiftl 0x7FF8 48). by rewrite lor_shiftl by done.
  - assert (Hf : is_float bits = true).
    { rewrite is_float_spec by done. apply negb_true_iff, Z.eqb_neq. intros H51.
      unfold is_nan_bits in En. unfold header in H51. rewrite Z.div_div in H51 by lia.
      change (2 ^ 48 * 8) with (2 ^ 51) in H51.
      pose proof (Z.div_mod bits (2 ^ 51) ltac:(lia)). pose proof (Z.mod_pos_bound bits (2 ^ 51) ltac:(lia)).
      rewrite H51 in *. assert (H52 : bits = bits mod 2 ^ 51 + 2 ^ 51 + 0x7FF * 2 ^ 52)
        by (change (2 ^ 52) with (2 * 2 ^ 51); lia).
      assert (Hlow : 0 ≤ bits mod 2 ^ 51 + 2 ^ 51 < 2 ^ 52) by (change (2 ^ 52) with (2 * 2 ^ 51); lia).
      rewrite H52, Z.div_add, Z.mod_add, (Z.div_small _ _ Hlow), (Z.mod_small _ _ Hlow) in En by lia.
      change ((0 + 0x7FF) mod 2 ^ 11 =? 0x7FF) with true in En. cbn [andb] in En.
      apply negb_false_iff, Z.eqb_eq in En. lia. }
    unfold try_as_f64, float_bits, is_int, is_inline_int, is_boxed_int, is_boxed_i128, has_tag, tag.
    by rewrite Hf.
Qed.

(** ** Small strings *)
Lemma pack_spec i s p :
  well_formed_bytes s → 0 ≤ p < 2 ^ (8 * Z.of_nat i) →
  pack i s p = p + from_le_bytes s * 2 ^ (8 * Z.of_nat i).
Proof.
  intros Hs. revert i p. induction Hs as [|b s Hb Hs IH]; intros i p Hp.
  - cbn. lia.
  - cbn [pack]. rewrite (Z.mul_comm _ 8), lor_shiftl by lia. unfold is_u in Hb.
    assert (P : 2 ^ (8 * Z.of_nat (S i)) = 256 * 2 ^ (8 * Z.of_nat i))
      by (rewrite Nat2Z.inj_succ; replace (8 * Z.succ (Z.of_nat i)) with (8 + 8 * Z.of_nat i) by lia;
          by rewrite Z.pow_add_r by lia).
    rewrite IH by (rewrite P; change (2 ^ 8) with 256 in Hb; nia).
    rewrite from_le_bytes_cons by done. rewrite P. ring.
Qed.

Lemma small_bytes_le v : small_string_bytes v = to_le_bytes 6 (payload v).
Proof.
  unfold small_string_bytes. rewrite payload_mask. cbn [seq map to_le_bytes].
  rewrite !Z.shiftr_shiftr by lia. change 0xFF with (2 ^ 8 - 1). rewrite !land_mask by lia.
  by rewrite Z.shiftr_0_r.
Qed.

Lemma to_from_le_bytes n s : well_formed_bytes s → (length s ≤ n)%nat →
  to_le_bytes n (from_le_bytes s) = s ++ replicate (n - length s) 0.
Proof.
  intros Hs. revert n. induction Hs as [|b s Hb Hs IH]; intros n Hn.
  - cbn [from_le_bytes length app]. rewrite Nat.sub_0_r. clear Hn.
    induction n as [|n IHn]; [done|]. cbn [to_le_bytes replicate]. by rewrite Z.shiftr_0_l, IHn.
  - destruct n as [|n]; [cbn in Hn; lia|]. cbn [length app to_le_bytes Nat.sub] in *.
    rewrite from_le_bytes_cons by done. rewrite shiftr_div by lia. unfold wrap.
    change (2 ^ 8) with 256. unfold is_u in Hb. change (2 ^ 8) with 256 in Hb.
    rewrite Z.mod_add, Z.div_add, Z.mod_small, Z.div_small by lia. f_equal. apply IH. lia.
Qed.

Lemma nonzero_prefix_zeros i len n : nonzero_prefix i len (replicate n 0) = len.
Proof. revert i. induction n as [|n IH]; intros i; [done|]. apply IH. Qed.

Lemma nonzero_prefix_app i len s n :
  Forall (λ b, b ≠ 0) s → len = i → nonzero_prefix i len (s ++ replicate n 0) = (i + length s)%nat.
Proof.
  intros Hs. revert i len. induction Hs as [|b s Hb Hs IH]; intros i len ->.
  - cbn [app length]. rewrite nonzero_prefix_zeros. lia.
  - cbn [app nonzero_prefix length]. rewrite (proj2 (Z.eqb_neq _ _)) by done. rewrite (IH (S i)) by done. lia.
Qed.

Lemma from_small_string_roundtrip s :
  well_formed_bytes s →
  match from_small_string s with
  | Some v => is_small_string v = true ∧ as_small_string v = s
  | None => (6 < length s)%nat ∨ 0 ∈ s
  end.
Proof.
  intros Hs. unfold from_small_string. destruct (Nat.ltb_spec 6 (length s)); [by left|]. cbn [orb].
  destruct (existsb _ s) eqn:Ez.
  { right. apply existsb_exists in Ez as (b & Hb & ->%Z.eqb_eq). by apply list_elem_of_In. }
  assert (Hz : Forall (λ b, b ≠ 0) s).
  { apply Forall_forall. intros b Hb ->.
    assert (existsb (λ b, b =? 0) s = true) by (apply existsb_exists; exists 0; split; [by apply list_elem_of_In|done]).
    congruence. }
  assert (E : pack 0 s 0 = from_le_bytes s)
    by (rewrite (pack_spec 0) by (done || (cbn; lia)); change (2 ^ (8 * Z.of_nat 0)) with 1; lia).
  rewrite E. assert (Hp : 0 ≤ from_le_bytes s < 2 ^ 48).
  { pose proof (from_le_bytes_range s Hs) as R. unfold is_u in R.
    assert (2 ^ (8 * Z.of_nat (length s)) ≤ 2 ^ 48) by (apply Z.pow_le_mono_r; lia). lia. }
  split; [unfold is_small_string; by rewrite tagged_kind|].
  unfold as_small_string. rewrite small_bytes_le.
  rewrite (proj2 (tagged_fields TAG_SMALL_STRING _ ltac:(done) Hp)).
  rewrite to_from_le_bytes by (done || lia). cbv zeta. rewrite nonzero_prefix_app by done.
  by rewrite Nat.add_0_l, take_app_length.
Qed.

Lemma id_roundtrip t id : 0 ≤ t < 8 → is_u 32 id →
  has_tag (tagged t id) t = true ∧ wrap 32 (Z.land (tagged t id) PAYLOAD_MASK) = id.
Proof.
  intros Ht Hid. assert (Hp : 0 ≤ id < 2 ^ 48) by (unfold is_u in Hid; change (2 ^ 48) with (2 ^ 32 * 65536); lia).
  rewrite tagged_kind, payload_mask, (proj2 (tagged_fields t _ Ht Hp)), Z.eqb_refl by done.
  split; [done|by apply wrap_id].
Qed.

(** A pointer of the lower half has none of the markers. *)
Lemma low_unmarked addr m : 0 ≤ addr < 2 ^ 47 → 0 ≤ m < 2 ^ 48 → Z.testbit m 47 = true →
  (Z.land (tagged TAG_POINTER addr) m =? m) = false.
Proof.
  intros Ha Hm Hb. assert (Hp : 0 ≤ addr < 2 ^ 48) by (change (2 ^ 48) with (2 ^ 47 * 2); lia).
  rewrite land_payload, (proj2 (tagged_fields TAG_POINTER _ ltac:(done) Hp)) by done.
  apply Z.eqb_neq. intros E. apply (f_equal (λ z, Z.testbit z 47)) in E. rewrite Z.land_spec, Hb in E.
  by rewrite (testbit_high addr 47 47) in E by lia.
Qed.

Lemma ptr_word addr : 0 ≤ addr < 2 ^ 47 →
  as_ptr (from_ptr addr) = addr ∧ is_ptr (from_ptr addr) = true ∧ is_nil (from_ptr addr) = (addr =? 0) ∧
  is_regular_ptr (from_ptr addr) = negb (addr =? 0).
Proof.
  intros Ha. assert (Hp : 0 ≤ addr < 2 ^ 48) by (change (2 ^ 48) with (2 ^ 47 * 2); lia).
  assert (Epay : Z.land (from_ptr addr) PAYLOAD_MASK = addr).
  { unfold from_ptr. by rewrite payload_mask, (proj2 (tagged_fields TAG_POINTER _ ltac:(done) Hp)). }
  assert (Eptr : is_ptr (from_ptr addr) = true).
  { unfold is_ptr, is_boxed_int, is_boxed_i128, is_projected_slot, is_thin_ref, from_ptr.
    rewrite (low_unmarked addr BOXED_INT_MARKER), (low_unmarked addr THIN_REF_MARKER) by (done || reflexivity).
    rewrite tagged_kind by done. done. }
  assert (Enil : is_nil (from_ptr addr) = (addr =? 0)) by (unfold is_nil; by rewrite Eptr, Epay).
  split_and!; [exact Epay|done|done|].
  unfold is_regular_ptr. rewrite Enil. unfold from_ptr. rewrite tagged_kind by done.
  assert (Z.land (tagged TAG_POINTER addr) SPECIAL_VALUE_MARKER = 0) as ->; [|done].
  rewrite land_payload, (proj2 (tagged_fields TAG_POINTER _ ltac:(done) Hp)) by done.
  apply Z.bits_inj'. intros i Hi. rewrite Z.land_spec, Z.bits_0. unfold SPECIAL_VALUE_MARKER.
  rewrite Z.pow2_bits_eqb by done. destruct (Z.eqb_spec 47 i) as [<-|]; [|apply andb_false_r].
  by rewrite (testbit_high addr 47 47) by lia.
Qed.

Lemma char_roundtrip t c : is_char c = true → has_room t →
  let '(t', v) := from_char t c in tables_extend t t' ∧ ∀ t'', tables_extend t' t'' → as_char t'' v = Some c.
Proof.
  intros Hc Ht. assert (Hr : 0 ≤ c ≤ 0x10FFFF).
  { unfold is_char in Hc. rewrite andb_true_iff, orb_true_iff, andb_true_iff, Z.ltb_lt, !Z.leb_le in Hc. lia. }
  pose proof (from_i64_roundtrip t c Ht) as H. unfold from_char.
  destruct (from_i64 t c) as [t' v]. destruct H as [He Hv].
  { unfold is_i. change (2 ^ (64 - 1)) with 9223372036854775808. lia. }
  split; [done|]. intros t'' Ht''. specialize (Hv t'' Ht''). unfold try_as_i64 in Hv.
  destruct (is_int v); [|done]. injection Hv as Hv. unfold as_char. rewrite Hv.
  rewrite wrap_id by (unfold is_u; change (2 ^ 32) with 4294967296; lia). by rewrite Hc.
Qed.

(** C33. Everything that is boxed comes back: with any process-wide tables that have
    room, and after any later boxings, each constructor's value passes the check
    of its kind and its extractor returns the original.  Exceptions are stated: a NaN
    is normalised to a positive quiet one that keeps its 48 payload bits; a string is
    refused exactly when it is longer than six bytes or has a zero byte; a register
    reference keeps its slot below 2^24, its mutability, and 22 bits of its
    generation; a pointer is below 2^47, where the markers of other kinds start;
    generators and projected slots have identifiers below 2^45 and 2^44. *)
Theorem value_roundtrip (t : Tables) :
  has_room t →
  (∀ i, is_i 64 i → let '(t', v) := from_i64 t i in
    tables_extend t t' ∧ ∀ t'', tables_extend t' t'' → try_as_i64 t'' v = Some i) ∧
  (∀ raw signed, let '(t', v) := from_i128_raw_signed t raw signed in
    tables_extend t t' ∧ is_boxed_i128 v = true ∧ ∀ t'', tables_extend t' t'' →
      as_i128_raw t'' v = raw ∧ boxed_i128_is_signed t'' v = signed ∧
      try_as_i64 t'' v = Some (to_signed 64 raw)) ∧
  (∀ r, let '(t', v) := from_thin_ref t r in
    tables_extend t t' ∧ ∀ t'', tables_extend t' t'' → try_as_thin_ref t'' v = Some r) ∧
  (∀ r, let '(t', v) := from_fat_ref t r in
    tables_extend t t' ∧ ∀ t'', tables_extend t' t'' → try_as_fat_ref t'' v = Some r) ∧
  (∀ bits, is_u 64 bits → is_int (from_f64 bits) = false ∧
    try_as_f64 (from_f64 bits) =
      Some (if is_nan_bits bits then bits mod 2 ^ 48 + 0x7FF8 * 2 ^ 48 else bits)) ∧
  (∀ b, try_as_bool (from_bool b) = Some b) ∧
  (∀ id, is_u 45 id → try_as_generator_id (from_generator id) = Some id) ∧
  (∀ id, is_u 44 id → projected_slot id ≫= projection_id = Some id) ∧
  (∀ id, is_u 32 id → is_type_ref (from_type id) = true ∧ as_type_id (from_type id) = id ∧
    is_func_ref (from_function id) = true ∧ as_func_id (from_function id) = id) ∧
  (∀ c, is_char c = true → let '(t', v) := from_char t c in
    tables_extend t t' ∧ ∀ t'', tables_extend t' t'' → as_char t'' v = Some c) ∧
  (∀ addr, 0 ≤ addr < 2 ^ 47 →
    as_ptr (from_ptr addr) = addr ∧ is_ptr (from_ptr addr) = true ∧ is_nil (from_ptr addr) = (addr =? 0) ∧
    is_regular_ptr (from_ptr addr) = negb (addr =? 0)) ∧
  is_nil nil = true ∧ is_unit unit_value = true ∧ is_vacant_hash_key VACANT_HASH_KEY = true ∧
  (∀ a g mutable, 0 ≤ a < 2 ^ 24 → let v := cbgr_regref a g mutable in
    is_cbgr_regref v = true ∧ cbgr_regref_abs v = a ∧ cbgr_regref_generation v = g mod 2 ^ 22 ∧
    cbgr_regref_is_mut v = mutable) ∧
  (∀ s, well_formed_bytes s → match from_small_string s with
    | Some v => is_small_string v = true ∧ as_small_string v = s
    | None => (6 < length s)%nat ∨ 0 ∈ s
    end).
Proof.
  intros Ht. split_and!.
  - intros. by apply from_i64_roundtrip.
  - intros. by apply from_i128_roundtrip.
  - intros. by apply from_thin_roundtrip.
  - intros. by apply from_fat_roundtrip.
  - intros bits Hb. by destruct (from_f64_roundtrip bits Hb).
  - by intros [].
  - intros id Hid. destruct (generator_word id Hid) as [H1 H2]. unfold try_as_generator_id. by rewrite H1, H2.
  - intros id Hid. destruct (slot_word id Hid) as [H1 H2]. unfold projected_slot, is_u in *.
    rewrite (proj2 (Z.leb_le id _)) by (change THIN_INDEX_MASK with (2 ^ 44 - 1); lia).
    cbn [mbind option_bind]. unfold projection_id. by rewrite H1, H2.
  - intros id Hid. destruct (id_roundtrip TAG_TYPE_REF id ltac:(done) Hid).
    destruct (id_roundtrip TAG_FUNC_REF id ltac:(done) Hid). done.
  - intros. by apply char_roundtrip.
  - apply ptr_word.
  - reflexivity.
  - reflexivity.
  - reflexivity.
  - intros a g mutable Ha. by destruct (regref_word a g mutable Ha).
  - apply from_small_string_roundtrip.
Qed.

(** ** Witnesses *)
Lemma value_kinds_exclusive_witness :
  length (filter (λ b, b = true) (kind_checks (from_i64 empty_tables (-131008744790)).2)) = 1%nat ∧
  is_cbgr_regref (from_i64 empty_tables (-131008744790)).2 = false.
Proof.
  destruct (value_kinds_exclusive (from_i64 empty_tables (-131008744790)).2) as (H & Hi & _).
  - split; vm_compute; congruence.
  - split; [exact H|exact (proj1 (Hi eq_refl))].
Defined.

Lemma value_roundtrip_witness :
  try_as_i64 {| BOXED_INTS := [2 ^ 50; 7]; BOXED_I128S := []; THIN_REFS := []; FAT_REFS := [] |}
    (from_i64 empty_tables (2 ^ 50)).2 = Some (2 ^ 50).
Proof.
  destruct (value_roundtrip empty_tables) as (H & _); [unfold has_room; simpl; lia|].
  destruct (H (2 ^ 50)) as [_ H']; [split; vm_compute; congruence|]. apply H'.
  split; [exists [7]; reflexivity|]. split; [reflexivity|]. split; reflexivity.
Defined.
