(* ===== verification/Registers.v ===== *)
(** * The register file and the call stack of the interpreter

    [verum_vbc/src/interpreter/registers.rs] and [stack.rs].  The registers of
    all frames are one vector, with a generation and an epoch per slot; the call
    stack gives each frame its window.  Operations that index a vector return
    [None] or [IndexPanic] where Rust panics; debug assertions, which a release
    build drops, are not modelled. *)

From S2P Require Import Prelude Words Encoding TypeRefs NanBox.

Definition MAX_SIZE : Z := 16 * 1024 * 1024.
Definition GEN_MAX : Z := 0xFFFFFFFE.
Definition GEN_INITIAL : Z := 1.
Definition GEN_NO_CHECK : Z := 0x7FFE.
Definition INITIAL_CAPACITY : nat := 1024.

Inductive InterpreterError :=
| StackOverflow (depth max_depth : Z)
| StackUnderflow
| CbgrPanic (register expected actual : Z)
| InvalidBytecode (pc : nat) (message : string)
| InvalidOpcode (opcode : Z) (pc : nat)
| NotImplemented (feature : string) (opcode : option Z)
| InvalidCharConversion (value : Z) (reason : string)
| DivisionByZero
| InstructionLimitExceeded (count limit : Z).

(** A Rust panic: an index out of range, the overflow of the register file, a
    failed [expect], a division by zero of the host. *)
Inductive interpreter_fault :=
  Raised (e : InterpreterError) | IndexPanic | RegisterPanic | ExpectPanic | DivisionPanic.

#[export] Instance InterpreterError_eq_dec : EqDecision InterpreterError.
Proof. solve_decision. Defined.
#[export] Instance interpreter_fault_eq_dec : EqDecision interpreter_fault.
Proof. solve_decision. Defined.

Abbreviation result A := (outcome interpreter_fault A).

(** ** The register file *)
Record RegisterFile := {
  registers : list Value;
  slot_generations : list Z;
  slot_epochs : list Z;
  top : nat;
  global_epoch : Z;
}.

Definition with_capacity (capacity : nat) : RegisterFile :=
  {| registers := replicate capacity unit_value;
     slot_generations := replicate capacity GEN_INITIAL;
     slot_epochs := replicate capacity 0;
     top := 0; global_epoch := 0 |}.

Definition new_registers : RegisterFile := with_capacity INITIAL_CAPACITY.

(** [for x in &mut l[lo..hi] { *x = f(x) }]; the slice panics unless
    [lo <= hi <= len]. *)
Definition update_slice {A} (lo hi : nat) (f : A → A) (l : list A) : option (list A) :=
  if ((lo <=? hi) && (hi <=? length l))%nat
  then Some (take lo l ++ map f (take (hi - lo) (drop lo l)) ++ drop hi l)
  else None.

Definition wrapping_succ (w g : Z) : Z := wrap w (g + 1).

(** Growing the three vectors together. *)
Definition grow (rf : RegisterFile) (new_top : nat) : RegisterFile :=
  if (length (registers rf) <? new_top)%nat then
    let new_size := Z.to_nat (Z.of_nat (new_top * 2) `min` MAX_SIZE) in
    {| registers := resize new_size unit_value (registers rf);
       slot_generations := resize new_size GEN_INITIAL (slot_generations rf);
       slot_epochs := resize new_size 0 (slot_epochs rf);
       top := top rf; global_epoch := global_epoch rf |}
  else rf.

Inductive push_outcome :=
| Pushed (base : Z) (rf : RegisterFile)
| Exceeds (new_top : nat)
| PushIndexPanic.

Definition try_push_frame (rf : RegisterFile) (count : nat) : push_outcome :=
  let base := wrap 32 (Z.of_nat (top rf)) in
  let new_top := (top rf + count)%nat in
  if MAX_SIZE <? Z.of_nat new_top then Exceeds new_top
  else
    let rf := grow rf new_top in
    match update_slice (top rf) new_top (λ _, unit_value) (registers rf),
          update_slice (top rf) new_top (wrapping_succ 32) (slot_generations rf) with
    | Some registers, Some generations =>
        Pushed base {| registers := registers; slot_generations := generations;
                       slot_epochs := slot_epochs rf; top := new_top;
                       global_epoch := global_epoch rf |}
    | _, _ => PushIndexPanic
    end.

Definition push_registers (rf : RegisterFile) (count : nat) : result (Z * RegisterFile) :=
  match try_push_frame rf count with
  | Pushed base rf => Ok (base, rf)
  | Exceeds _ => Err RegisterPanic
  | PushIndexPanic => Err IndexPanic
  end.

Definition pop_registers (rf : RegisterFile) (base : Z) : result RegisterFile :=
  match update_slice (Z.to_nat base) (top rf) (wrapping_succ 32) (slot_generations rf) with
  | Some generations =>
      Ok {| registers := registers rf; slot_generations := generations;
            slot_epochs := slot_epochs rf; top := Z.to_nat base;
            global_epoch := global_epoch rf |}
  | None => Err IndexPanic
  end.

(** [(base + reg.0 as u32) as usize]. *)
Definition slot (base : Z) (reg : Reg) : nat := Z.to_nat (wrap 32 (base + reg)).

(** Reads out of range give the unit value, writes are ignored. *)
Definition get (rf : RegisterFile) (base : Z) (reg : Reg) : Value :=
  default unit_value (registers rf !! slot base reg).

Definition with_registers (rf : RegisterFile) (l : list Value) : RegisterFile :=
  {| registers := l; slot_generations := slot_generations rf; slot_epochs := slot_epochs rf;
     top := top rf; global_epoch := global_epoch rf |}.

Definition set (rf : RegisterFile) (base : Z) (reg : Reg) (value : Value) : RegisterFile :=
  with_registers rf (<[slot base reg := value]> (registers rf)).

Definition get_absolute (rf : RegisterFile) (abs_index : Z) : result Value :=
  ok_or (registers rf !! Z.to_nat abs_index) IndexPanic.

Definition set_absolute (rf : RegisterFile) (abs_index : Z) (value : Value) : result RegisterFile :=
  if (Z.to_nat abs_index <? length (registers rf))%nat
  then Ok (with_registers rf (<[Z.to_nat abs_index := value]> (registers rf)))
  else Err IndexPanic.

Definition get_generation (rf : RegisterFile) (abs_index : Z) : result Z :=
  ok_or (slot_generations rf !! Z.to_nat abs_index) IndexPanic.

Definition get_epoch (rf : RegisterFile) (abs_index : Z) : result Z :=
  ok_or (slot_epochs rf !! Z.to_nat abs_index) IndexPanic.

Definition get_generation_epoch (rf : RegisterFile) (abs_index : Z) : result (Z * Z) :=
  g ← get_generation rf abs_index; e ← get_epoch rf abs_index; Ok (g, e).

Definition bump_generation (rf : RegisterFile) (abs_index : Z) : result RegisterFile :=
  let idx := Z.to_nat abs_index in
  current_gen ← get_generation rf abs_index;
  if GEN_MAX <=? current_gen then
    epoch ← get_epoch rf abs_index;
    Ok {| registers := registers rf;
          slot_generations := <[idx := GEN_INITIAL]> (slot_generations rf);
          slot_epochs := <[idx := wrapping_succ 16 epoch]> (slot_epochs rf);
          top := top rf; global_epoch := wrapping_succ 64 (global_epoch rf) |}
  else
    Ok {| registers := registers rf;
          slot_generations := <[idx := current_gen + 1]> (slot_generations rf);
          slot_epochs := slot_epochs rf; top := top rf; global_epoch := global_epoch rf |}.

Definition validate_ref (rf : RegisterFile) (abs_index ref_gen ref_epoch : Z) : result bool :=
  if ref_gen =? GEN_NO_CHECK then Ok true
  else
    if (top rf <=? Z.to_nat abs_index)%nat then Ok false
    else
      '(g, e) ← get_generation_epoch rf abs_index;
      Ok ((g =? ref_gen) && (e =? ref_epoch)).

Definition clear_registers (rf : RegisterFile) : RegisterFile :=
  {| registers := registers rf; slot_generations := slot_generations rf;
     slot_epochs := slot_epochs rf; top := 0; global_epoch := global_epoch rf |}.

(** [registers[dst] = registers[src]]. *)
Definition copy_register (rf : RegisterFile) (src_idx dst_idx : nat) : result RegisterFile :=
  match registers rf !! src_idx, registers rf !! dst_idx with
  | Some v, Some _ => Ok (with_registers rf (<[dst_idx := v]> (registers rf)))
  | _, _ => Err IndexPanic
  end.

Fixpoint copy_range_from (rf : RegisterFile) (src dst : Z) (i count : nat) : result RegisterFile :=
  match count with
  | O => Ok rf
  | S count =>
      rf ← copy_register rf (Z.to_nat (wrap 32 (src + Z.of_nat i)))
             (Z.to_nat (wrap 32 (dst + Z.of_nat i)));
      copy_range_from rf src dst (S i) count
  end.

Definition copy_range (rf : RegisterFile) (src_base : Z) (src_start : Reg) (dst_base : Z)
    (dst_start : Reg) (count : nat) : result RegisterFile :=
  copy_range_from rf (src_base + src_start) (dst_base + dst_start) 0 count.

Definition swap (rf : RegisterFile) (base : Z) (r1 r2 : Reg) : result RegisterFile :=
  let idx1 := slot base r1 in
  let idx2 := slot base r2 in
  match registers rf !! idx1, registers rf !! idx2 with
  | Some v1, Some v2 => Ok (with_registers rf (<[idx2 := v1]> (<[idx1 := v2]> (registers rf))))
  | _, _ => Err IndexPanic
  end.

(** [registers[start..end]] with [end] cut at [top]. *)
Definition frame_iter (rf : RegisterFile) (base : Z) (count : nat) : result (list Value) :=
  let start := Z.to_nat base in
  let stop := ((start + count) `min` top rf)%nat in
  if ((start <=? stop) && (stop <=? length (registers rf)))%nat
  then Ok (take (stop - start) (drop start (registers rf))) else Err IndexPanic.

(** ** The call stack *)
Abbreviation FunctionId := Z.

Record CallFrame := {
  function : FunctionId;
  frame_pc : Z;
  operand_end : Z;
  reg_base : Z;
  reg_count : nat;
  return_pc : Z;
  return_reg : Reg;
  caller_base : Z;
}.

#[export] Instance CallFrame_eq_dec : EqDecision CallFrame.
Proof. solve_decision. Defined.

Definition new_frame (function : FunctionId) (reg_base : Z) (reg_count : nat) (return_pc : Z)
    (return_reg : Reg) (caller_base : Z) : CallFrame :=
  {| function := function; frame_pc := 0; operand_end := 2 ^ 32 - 1; reg_base := reg_base;
     reg_count := reg_count; return_pc := return_pc; return_reg := return_reg;
     caller_base := caller_base |}.

(** [frames] and [generic_witnesses] are in the order of the vectors: the
    current frame is the last. *)
Record CallStack := {
  frames : list CallFrame;
  max_depth : nat;
  generic_witnesses : list (nat * list TypeRef);
}.

Definition DEFAULT_MAX_DEPTH : nat := 1024.
Definition with_max_depth (max_depth : nat) : CallStack :=
  {| frames := []; max_depth := max_depth; generic_witnesses := [] |}.

Definition depth (cs : CallStack) : nat := length (frames cs).
Definition current (cs : CallStack) : option CallFrame := last (frames cs).
Definition current_base (cs : CallStack) : Z := default 0 (reg_base <$> current cs).
Definition pc (cs : CallStack) : Z := default 0 (frame_pc <$> current cs).
Definition parent (cs : CallStack) : option CallFrame :=
  if (2 <=? length (frames cs))%nat then frames cs !! (length (frames cs) - 2)%nat else None.
Definition at_depth (cs : CallStack) (d : nat) : option CallFrame := frames cs !! d.
Definition stack_trace (cs : CallStack) : list (FunctionId * Z) :=
  map (λ f, (function f, frame_pc f)) (rev (frames cs)).

Definition with_frames (cs : CallStack) (l : list CallFrame) : CallStack :=
  {| frames := l; max_depth := max_depth cs; generic_witnesses := generic_witnesses cs |}.
Definition with_witnesses (cs : CallStack) (l : list (nat * list TypeRef)) : CallStack :=
  {| frames := frames cs; max_depth := max_depth cs; generic_witnesses := l |}.

Definition push_frame (cs : CallStack) (function : FunctionId) (reg_count : nat)
    (return_pc : Z) (return_reg : Reg) : result (Z * CallStack) :=
  if (max_depth cs <=? length (frames cs))%nat
  then Err (Raised (StackOverflow (Z.of_nat (length (frames cs))) (Z.of_nat (max_depth cs))))
  else
    let '(base, caller) :=
      match current cs with
      | Some f => (wrap 32 (reg_base f + Z.of_nat (Registers.reg_count f)), reg_base f)
      | None => (0, 0)
      end in
    Ok (base, with_frames cs (frames cs ++ [new_frame function base reg_count return_pc return_reg caller])).

(** [while v.last().is_some_and(p) { v.pop(); }]. *)
Fixpoint drop_while {A} (p : A → bool) (l : list A) : list A :=
  match l with
  | [] => []
  | x :: l' => if p x then drop_while p l' else l
  end.
Definition pop_while {A} (p : A → bool) (l : list A) : list A := rev (drop_while p (rev l)).

Definition pop_frame (cs : CallStack) : result (CallFrame * CallStack) :=
  match current cs with
  | None => Err (Raised StackUnderflow)
  | Some popped =>
      let frames := removelast (frames cs) in
      let witnesses :=
        pop_while (λ '(d, _), (length frames <? d)%nat) (generic_witnesses cs) in
      Ok (popped, {| frames := frames; max_depth := max_depth cs; generic_witnesses := witnesses |})
  end.

Definition set_generic_witnesses (cs : CallStack) (args : list TypeRef) : CallStack :=
  with_witnesses cs (generic_witnesses cs ++ [(length (frames cs), args)]).

Definition clear_current_generic_witnesses (cs : CallStack) : CallStack :=
  with_witnesses cs
    (pop_while (λ '(d, _), (d =? length (frames cs))%nat) (generic_witnesses cs)).

Definition current_generic_witnesses (cs : CallStack) : option (list TypeRef) :=
  match last (generic_witnesses cs) with
  | Some (d, args) => if (d =? length (frames cs))%nat then Some args else None
  | None => None
  end.

(** [clear] empties the frames only. *)
Definition clear_frames (cs : CallStack) : CallStack := with_frames cs [].

Definition update_current (f : CallFrame → CallFrame) (cs : CallStack) : CallStack :=
  match current cs with
  | Some frame => with_frames cs (removelast (frames cs) ++ [f frame])
  | None => cs
  end.

Definition frame_with_pc (pc : Z) (f : CallFrame) : CallFrame :=
  {| function := function f; frame_pc := pc; operand_end := operand_end f; reg_base := reg_base f;
     reg_count := reg_count f; return_pc := return_pc f; return_reg := return_reg f;
     caller_base := caller_base f |}.

Definition set_pc (cs : CallStack) (pc : Z) : CallStack := update_current (frame_with_pc pc) cs.
Definition advance_pc (cs : CallStack) (delta : Z) : CallStack :=
  update_current (λ f, frame_with_pc (wrap 32 (frame_pc f + delta)) f) cs.
