(* ===== verification/Frames.v ===== *)
(** * Calls, returns and register references

    The part of the interpreter's state that calls and register references act
    on, with the handlers of [dispatch_table]: entering a function, replacing the
    current one by a tail call, returning
    from it ([do_return]), unwinding to an exception handler, creating a
    reference to a register and reading, writing and dropping through one.
    Operands are arguments, decoded by the caller.  The context stack, tasks,
    generators, the autodiff tape and counters of statistics, which these
    handlers update as well, are not part of this state: none of them is read
    here and none of them touches registers or frames.  References have the
    tagged encoding; the environment switch back to the older integer encoding
    is not modelled. *)

From stdpp Require Import gmap.
From S2P Require Import Prelude Words Encoding TypeRefs NanBox Registers.

Record FrameState := {
  register_file : RegisterFile;
  call_stack : CallStack;
  (** The cells that returned references escape to, by their addresses. *)
  escape_cells : list Value;
  tables : Tables;
  cbgr_epoch : Z;
  cbgr_enabled : bool;
  cbgr_deref_source : option (Reg * Z);
  cbgr_ref_creation_epoch : gmap Z Z;
  cbgr_mutable_ptrs : gset Z;
}.

Definition with_register_file (s : FrameState) (rf : RegisterFile) : FrameState :=
  {| register_file := rf; call_stack := call_stack s; escape_cells := escape_cells s;
     tables := tables s; cbgr_epoch := cbgr_epoch s; cbgr_enabled := cbgr_enabled s;
     cbgr_deref_source := cbgr_deref_source s;
     cbgr_ref_creation_epoch := cbgr_ref_creation_epoch s; cbgr_mutable_ptrs := cbgr_mutable_ptrs s |}.
Definition with_call_stack (s : FrameState) (cs : CallStack) : FrameState :=
  {| register_file := register_file s; call_stack := cs; escape_cells := escape_cells s;
     tables := tables s; cbgr_epoch := cbgr_epoch s; cbgr_enabled := cbgr_enabled s;
     cbgr_deref_source := cbgr_deref_source s;
     cbgr_ref_creation_epoch := cbgr_ref_creation_epoch s; cbgr_mutable_ptrs := cbgr_mutable_ptrs s |}.
Definition with_epoch (s : FrameState) (e : Z) : FrameState :=
  {| register_file := register_file s; call_stack := call_stack s; escape_cells := escape_cells s;
     tables := tables s; cbgr_epoch := e; cbgr_enabled := cbgr_enabled s;
     cbgr_deref_source := cbgr_deref_source s;
     cbgr_ref_creation_epoch := cbgr_ref_creation_epoch s; cbgr_mutable_ptrs := cbgr_mutable_ptrs s |}.
Definition with_cells (s : FrameState) (cells : list Value) (t : Tables) : FrameState :=
  {| register_file := register_file s; call_stack := call_stack s; escape_cells := cells;
     tables := t; cbgr_epoch := cbgr_epoch s; cbgr_enabled := cbgr_enabled s;
     cbgr_deref_source := cbgr_deref_source s;
     cbgr_ref_creation_epoch := cbgr_ref_creation_epoch s; cbgr_mutable_ptrs := cbgr_mutable_ptrs s |}.
Definition with_pointers (s : FrameState) (source : option (Reg * Z)) (epochs : gmap Z Z)
    (ptrs : gset Z) : FrameState :=
  {| register_file := register_file s; call_stack := call_stack s; escape_cells := escape_cells s;
     tables := tables s; cbgr_epoch := cbgr_epoch s; cbgr_enabled := cbgr_enabled s;
     cbgr_deref_source := source; cbgr_ref_creation_epoch := epochs; cbgr_mutable_ptrs := ptrs |}.

(** [reg_base], [get_reg] and [set_reg] of [InterpreterState]. *)
Definition state_base (s : FrameState) : Z := current_base (call_stack s).
Definition get_reg (s : FrameState) (reg : Reg) : Value := get (register_file s) (state_base s) reg.
Definition set_reg (s : FrameState) (reg : Reg) (value : Value) : FrameState :=
  with_register_file s (set (register_file s) (state_base s) reg value).

(** The absolute index of a register of the current frame. *)
Definition abs_index (s : FrameState) (reg : Reg) : Z := wrap 32 (state_base s + reg).

(** ** Encoding register references *)
Definition CBGR_NO_CHECK_GENERATION : Z := 0x7FFE.

Definition encode_cbgr_ref (abs_index generation : Z) : Value := cbgr_regref abs_index generation false.
Definition encode_cbgr_ref_mut (abs_index generation : Z) : Value := cbgr_regref abs_index generation true.
Definition decode_cbgr_ref (encoded : Value) : Z * Z :=
  (cbgr_regref_abs encoded, cbgr_regref_generation encoded).
Definition is_cbgr_ref (v : Value) : bool := is_cbgr_regref v.
Definition is_cbgr_ref_mutable (v : Value) : bool := cbgr_regref_is_mut v.
Definition strip_cbgr_ref_mutability (encoded : Value) : Value :=
  if is_cbgr_ref_mutable encoded
  then let '(abs_index, generation) := decode_cbgr_ref encoded in encode_cbgr_ref abs_index generation
  else encoded.

Definition regref_generation_matches (ref_generation current_generation : Z) : bool :=
  Z.land ref_generation CBGR_REGREF_GEN_MASK =? Z.land current_generation CBGR_REGREF_GEN_MASK.

Definition validate_cbgr_generation (s : FrameState) (abs_index ref_generation : Z) : result unit :=
  if negb (cbgr_enabled s) then Ok tt
  else if negb (ref_generation =? CBGR_NO_CHECK_GENERATION) && negb (ref_generation =? GEN_NO_CHECK)
  then
    current_gen ← get_generation (register_file s) abs_index;
    if negb (regref_generation_matches ref_generation current_gen)
    then Err (Raised (CbgrPanic abs_index ref_generation current_gen))
    else Ok tt
  else Ok tt.

(** ** Creating references *)
(** [state.cbgr_deref_source.take()] with the condition that the source register
    is the destination of that dereference. *)
Definition taken_source (s : FrameState) (src : Reg) : option Z :=
  match cbgr_deref_source s with
  | Some (deref_dst_reg, data_ptr_addr) => if src =? deref_dst_reg then Some data_ptr_addr else None
  | None => None
  end.

Definition handle_ref_create (s : FrameState) (dst src : Reg) : result FrameState :=
  let source := taken_source s src in
  let s := with_pointers s None (cbgr_ref_creation_epoch s) (cbgr_mutable_ptrs s) in
  match source with
  | Some data_ptr_addr =>
      let s := with_pointers s None (<[data_ptr_addr := cbgr_epoch s]> (cbgr_ref_creation_epoch s))
                 (cbgr_mutable_ptrs s ∖ {[data_ptr_addr]}) in
      Ok (set_reg s dst (from_ptr data_ptr_addr))
  | None =>
      generation ← get_generation (register_file s) (abs_index s src);
      Ok (set_reg s dst (encode_cbgr_ref (abs_index s src) generation))
  end.

Definition handle_ref_mut (s : FrameState) (dst src : Reg) : result FrameState :=
  let source := taken_source s src in
  let s := with_pointers s None (cbgr_ref_creation_epoch s) (cbgr_mutable_ptrs s) in
  match source with
  | Some data_ptr_addr =>
      let s := with_pointers s None (<[data_ptr_addr := cbgr_epoch s]> (cbgr_ref_creation_epoch s))
                 (cbgr_mutable_ptrs s) in
      let s := set_reg s dst (from_ptr data_ptr_addr) in
      Ok (with_pointers s None (cbgr_ref_creation_epoch s) ({[data_ptr_addr]} ∪ cbgr_mutable_ptrs s))
  | None =>
      let src_val := get_reg s src in
      if is_cbgr_ref src_val && is_cbgr_ref_mutable src_val then Ok (set_reg s dst src_val)
      else
        generation ← get_generation (register_file s) (abs_index s src);
        Ok (set_reg s dst (encode_cbgr_ref_mut (abs_index s src) generation))
  end.

(** Tier 1 and tier 2 references skip the check by the sentinel. *)
Definition handle_ref_checked (s : FrameState) (dst src : Reg) : FrameState :=
  set_reg s dst (encode_cbgr_ref (abs_index s src) CBGR_NO_CHECK_GENERATION).
Definition handle_ref_unsafe (s : FrameState) (dst src : Reg) : FrameState :=
  set_reg s dst (encode_cbgr_ref (abs_index s src) CBGR_NO_CHECK_GENERATION).

(** ** Using register references: the register arms of [handle_deref],
    [handle_deref_mut] and [handle_chk_ref], and the end of [handle_drop_ref]. *)
Definition deref_register (s : FrameState) (dst : Reg) (ref_val : Value) : result FrameState :=
  let '(abs_index, generation) := decode_cbgr_ref ref_val in
  _ ← validate_cbgr_generation s abs_index generation;
  value ← get_absolute (register_file s) abs_index;
  Ok (set_reg s dst value).

Definition deref_mut_register (s : FrameState) (ref_val value : Value) : result FrameState :=
  let '(abs_index, generation) := decode_cbgr_ref ref_val in
  _ ← validate_cbgr_generation s abs_index generation;
  rf ← set_absolute (register_file s) abs_index value;
  Ok (with_epoch (with_register_file s rf) (wrapping_succ 64 (cbgr_epoch s))).

Definition chk_ref_register (s : FrameState) (ref_val : Value) : result unit :=
  let '(abs_index, generation) := decode_cbgr_ref ref_val in
  validate_cbgr_generation s abs_index generation.

Definition drop_register (s : FrameState) (src : Reg) : result FrameState :=
  rf ← bump_generation (register_file s) (abs_index s src);
  Ok (set_reg (with_register_file s rf) src unit_value).

(** The 16-bit epoch of a heap reference against the current epoch. *)
Definition validate_epoch_window (ref_epoch current_epoch window_size : Z) : bool :=
  let current_epoch_16 := wrap 16 (Z.land current_epoch 0xFFFF) in
  if ref_epoch =? current_epoch_16 then true
  else wrap 16 (current_epoch_16 - ref_epoch) <=? window_size.

(** ** Calls *)

(** The arguments are copied one by one from the caller's window. *)
Fixpoint copy_arguments (rf : RegisterFile) (caller_base new_base : Z) (start : Reg)
    (i count : nat) : RegisterFile :=
  match count with
  | O => rf
  | S count =>
      let arg_value := get rf caller_base (wrap 16 (start + Z.of_nat i)) in
      copy_arguments (set rf new_base (Z.of_nat i) arg_value) caller_base new_base start (S i) count
  end.

(** The end of [handle_call]: push both frames, copy, start at the first
    instruction.  A full call stack is an error, a full register file a panic. *)
Definition enter_function (s : FrameState) (func_id : FunctionId) (reg_count : nat) (dst : Reg)
    (args : RegRange) : result FrameState :=
  let return_pc := pc (call_stack s) in
  let caller_base := state_base s in
  '(new_base, cs) ← push_frame (call_stack s) func_id reg_count return_pc dst;
  '(_, rf) ← push_registers (register_file s) reg_count;
  let rf := copy_arguments rf caller_base new_base (start args) 0 (Z.to_nat (count args)) in
  Ok (with_call_stack (with_register_file s rf) (set_pc cs 0)).

(** The end of [handle_tail_call_op], once the function is found, is not generic and
    is not an intrinsic: the arguments are collected, the current frame becomes one
    of the new function, and the arguments are written to its first registers.  The
    top of the register file stays where it is, whatever [reg_count] is. *)
Definition frame_with_function (func_id : FunctionId) (count : nat) (f : CallFrame) : CallFrame :=
  {| function := func_id; frame_pc := 0; operand_end := operand_end f; reg_base := reg_base f;
     reg_count := count; return_pc := return_pc f; return_reg := return_reg f;
     caller_base := caller_base f |}.

Fixpoint set_arguments (rf : RegisterFile) (base : Z) (i : nat) (values : list Value) : RegisterFile :=
  match values with
  | [] => rf
  | value :: values => set_arguments (set rf base (Z.of_nat i) value) base (S i) values
  end.

Definition collect_arguments (s : FrameState) (args : RegRange) : list Value :=
  map (λ i, get (register_file s) (state_base s) (wrap 16 (start args + Z.of_nat i)))
    (seq 0 (Z.to_nat (count args))).

Definition tail_call (s : FrameState) (func_id : FunctionId) (reg_count : nat) (args : RegRange) : FrameState :=
  let current_base := state_base s in
  let arg_values := collect_arguments s args in
  let cs := clear_current_generic_witnesses (call_stack s) in
  let cs := update_current (frame_with_function func_id reg_count) cs in
  let rf := set_arguments (register_file s) current_base 0 arg_values in
  with_call_stack (with_register_file s rf) (set_pc cs 0).

(** The entry of [enter_declared_numeric_method], which reports a full register
    file as an error and takes the call frame back. *)
Definition try_enter (s : FrameState) (func_id : FunctionId) (reg_count : nat) (dst : Reg)
    : result Z * FrameState :=
  match push_frame (call_stack s) func_id reg_count (pc (call_stack s)) dst with
  | Ok (new_base, cs) =>
      match try_push_frame (register_file s) reg_count with
      | Pushed _ rf => (Ok new_base, with_call_stack (with_register_file s rf) cs)
      | Exceeds new_top =>
          match pop_frame cs with
          | Ok (_, cs) =>
              (Err (Raised (StackOverflow (Z.of_nat new_top) MAX_SIZE)), with_call_stack s cs)
          | Err e => (Err e, with_call_stack s cs)
          | Gas k => (Gas k, with_call_stack s cs)
          end
      | PushIndexPanic => (Err IndexPanic, with_call_stack s cs)
      end
  | Err e => (Err e, s)
  | Gas k => (Gas k, s)
  end.

(** ** Returns *)
Section Return.

(** The address the allocator gave the cell with this number. *)
Context (cell_address : nat → Z).

Definition READ_ONLY : Z := Z.lor 0x0001 0x0040.

(** A returned reference into the departing frame is redirected to a new cell
    that holds the value it points to. *)
Definition stabilise (s : FrameState) (value : Value) : result (FrameState * Value) :=
  if is_cbgr_ref value then
    let '(abs_index, _) := decode_cbgr_ref value in
    let frame_base := state_base s in
    let frame_top := wrap 32 (Z.of_nat (top (register_file s))) in
    if (frame_base <=? abs_index) && (abs_index <? frame_top) then
      inner ← get_absolute (register_file s) abs_index;
      let address := cell_address (length (escape_cells s)) in
      let thin := thin_ref_new address 0 (wrap 16 (cbgr_epoch s)) READ_ONLY in
      let '(t, value) := from_thin_ref (tables s) thin in
      Ok (with_cells s (escape_cells s ++ [inner]) t, value)
    else Ok (s, value)
  else Ok (s, value).

Inductive DispatchResult := Continue | FinalReturn (value : Value).

Definition do_return (s : FrameState) (value : Value) : result (DispatchResult * FrameState) :=
  '(s, value) ← stabilise s value;
  match pop_frame (call_stack s) with
  | Ok (frame, cs) =>
      rf ← pop_registers (register_file s) (reg_base frame);
      let s := with_call_stack (with_register_file s rf) cs in
      if (depth cs =? 0)%nat then Ok (FinalReturn value, s)
      else
        let s := with_register_file s (set (register_file s) (caller_base frame) (return_reg frame) value) in
        Ok (Continue, with_call_stack s (set_pc (call_stack s) (return_pc frame)))
  | Err _ => Ok (FinalReturn value, s)
  | Gas k => Gas k
  end.

(** [unwind_to_handler]: leave the frames above the handler's. *)
Fixpoint unwind (n : nat) (s : FrameState) : result FrameState :=
  match n with
  | O => Ok s
  | S n =>
      '(frame, cs) ← pop_frame (call_stack s);
      rf ← pop_registers (register_file s) (reg_base frame);
      unwind n (with_call_stack (with_register_file s rf) cs)
  end.

Definition unwind_to_handler (s : FrameState) (stack_depth : nat) (handler_pc : Z) : result FrameState :=
  s ← unwind (depth (call_stack s) - stack_depth) s;
  Ok (with_call_stack s (set_pc (call_stack s) (wrap 32 handler_pc))).
End Return.

(** [InterpreterState::reset], on this part of the state. *)
Definition reset (s : FrameState) : FrameState :=
  let s := with_call_stack (with_register_file s (clear_registers (register_file s)))
             (clear_frames (call_stack s)) in
  with_pointers (with_epoch s 1) None (cbgr_ref_creation_epoch s) ∅.

(** ** Runs *)

(** The operations of a program on this state. *)
Inductive operation :=
| Enter (func_id : FunctionId) (reg_count : nat) (dst : Reg) (args : RegRange)
| TailCall (func_id : FunctionId) (reg_count : nat) (args : RegRange)
| Return (value : Value)
| Unwind (stack_depth : nat) (handler_pc : Z)
| SetReg (reg : Reg) (value : Value)
| SetPc (pc : Z)
| RefCreate (dst src : Reg)
| RefMut (dst src : Reg)
| RefChecked (dst src : Reg)
| RefUnsafe (dst src : Reg)
| Deref (dst src : Reg)
| DerefMut (ref_reg src : Reg)
| ChkRef (src : Reg)
| DropRef (src : Reg).

Definition execute (cell_address : nat → Z) (op : operation) (s : FrameState) : result FrameState :=
  match op with
  | Enter func_id reg_count dst args => enter_function s func_id reg_count dst args
  | TailCall func_id reg_count args => Ok (tail_call s func_id reg_count args)
  | Return value => '(_, s) ← do_return cell_address s value; Ok s
  | Unwind stack_depth handler_pc => unwind_to_handler s stack_depth handler_pc
  | SetReg reg value => Ok (set_reg s reg value)
  | SetPc pc => Ok (with_call_stack s (set_pc (call_stack s) pc))
  | RefCreate dst src => handle_ref_create s dst src
  | RefMut dst src => handle_ref_mut s dst src
  | RefChecked dst src => Ok (handle_ref_checked s dst src)
  | RefUnsafe dst src => Ok (handle_ref_unsafe s dst src)
  | Deref dst src => deref_register s dst (get_reg s src)
  | DerefMut ref_reg src => deref_mut_register s (get_reg s ref_reg) (get_reg s src)
  | ChkRef src => _ ← chk_ref_register s (get_reg s src); Ok s
  | DropRef src => drop_register s src
  end.

Fixpoint execute_all (cell_address : nat → Z) (ops : list operation) (s : FrameState) : result FrameState :=
  match ops with
  | [] => Ok s
  | op :: ops => s ← execute cell_address op s; execute_all cell_address ops s
  end.

Definition initial_state (rf : RegisterFile) (max_depth : nat) : FrameState :=
  {| register_file := rf; call_stack := with_max_depth max_depth; escape_cells := [];
     tables := empty_tables; cbgr_epoch := 1; cbgr_enabled := true; cbgr_deref_source := None;
     cbgr_ref_creation_epoch := ∅; cbgr_mutable_ptrs := ∅ |}.
