(* ===== verification/FrameInvariant.v ===== *)
(** * The invariant of calls and returns

    The windows of the frames follow one another in the register file
    ([frames_ok]); every operation keeps them so, and each moves on the
    generations of the slots it gives out or takes back. *)

From S2P Require Import Prelude Words Encoding TypeRefs NanBox Registers Frames.

(** ** Facts about the register file and the call stack

    What each operation does to every slot, for all states that satisfy the
    invariant [registers_ok] of the register file. *)

(** ** Slices *)
Lemma update_slice_Some {A} lo hi (f : A → A) l l' :
  update_slice lo hi f l = Some l' →
  (lo ≤ hi ≤ length l)%nat ∧ length l' = length l ∧
  ∀ i, l' !! i = (if decide (lo ≤ i < hi)%nat then f <$> l !! i else l !! i).
Proof.
  unfold update_slice. destruct (Nat.leb_spec lo hi), (Nat.leb_spec hi (length l)); try done.
  intros [= <-]. split; [lia|]. change (List.map f) with (fmap (M:=list) f). split.
  - rewrite !length_app, length_fmap, !length_take, !length_drop. lia.
  - intros i. destruct (decide (i < lo)%nat).
    + rewrite lookup_app_l by (rewrite length_take; lia). rewrite lookup_take_lt by done.
      by rewrite decide_False by lia.
    + rewrite lookup_app_r by (rewrite length_take; lia). rewrite length_take.
      rewrite (Nat.min_l lo) by lia. destruct (decide (i < hi)%nat).
      * rewrite lookup_app_l by (rewrite length_fmap, length_take, length_drop; lia).
        rewrite list_lookup_fmap, lookup_take_lt, lookup_drop by lia.
        rewrite decide_True by lia. do 2 f_equal. lia.
      * rewrite lookup_app_r by (rewrite length_fmap, length_take, length_drop; lia).
        rewrite length_fmap, length_take, length_drop, lookup_drop, decide_False by lia. f_equal. lia.
Qed.

Lemma update_slice_ok {A} lo hi (f : A → A) l :
  (lo ≤ hi ≤ length l)%nat → ∃ l', update_slice lo hi f l = Some l'.
Proof.
  intros H. unfold update_slice.
  rewrite (proj2 (Nat.leb_le lo hi)), (proj2 (Nat.leb_le hi (length l))) by lia. by eexists.
Qed.

Lemma update_slice_Forall lo hi (l l' : list Z) :
  (∀ i, l' !! i = (if decide (lo ≤ i < hi)%nat then wrapping_succ 32 <$> l !! i else l !! i)) →
  Forall (is_u 32) l → Forall (is_u 32) l'.
Proof.
  intros U Hl. apply Forall_lookup. intros i g. rewrite U. destruct (decide _).
  - intros (g' & _ & ->)%fmap_Some. by apply wrap_range.
  - intros Hi. by eapply Forall_lookup_1 in Hl.
Qed.

(** ** The register file *)
Definition capacity (rf : RegisterFile) : nat := length (registers rf).

(** The three vectors are parallel, bounded, and cover the frames. *)
Definition registers_ok (rf : RegisterFile) : Prop :=
  length (slot_generations rf) = capacity rf ∧ length (slot_epochs rf) = capacity rf ∧
  Z.of_nat (capacity rf) ≤ MAX_SIZE ∧ (top rf ≤ capacity rf)%nat ∧
  Forall (is_u 32) (slot_generations rf).

Definition generation (rf : RegisterFile) (a : nat) : Z := default 0 (slot_generations rf !! a).

Lemma with_capacity_ok n : Z.of_nat n ≤ MAX_SIZE → registers_ok (with_capacity n).
Proof.
  intros H. unfold registers_ok, capacity, with_capacity. cbn. rewrite !length_replicate.
  split_and!; try (done || lia). apply Forall_replicate. done.
Qed.

Lemma generation_range rf a : registers_ok rf → is_u 32 (generation rf a).
Proof.
  intros (_ & _ & _ & _ & H). unfold generation. destruct (_ !! a) eqn:E; [|done].
  by eapply Forall_lookup_1 in H.
Qed.

Lemma get_generation_ok rf a : registers_ok rf → (a < capacity rf)%nat →
  get_generation rf (Z.of_nat a) = Ok (generation rf a).
Proof.
  intros (H & _) Ha. unfold get_generation, generation. rewrite Nat2Z.id.
  destruct (lookup_lt_is_Some_2 (slot_generations rf) a) as [g ->]; [lia|done].
Qed.

Lemma wrap_u32 a : Z.of_nat a ≤ MAX_SIZE → wrap 32 (Z.of_nat a) = Z.of_nat a.
Proof. intros H. apply wrap_id. unfold is_u, MAX_SIZE in *. change (2 ^ 32) with 4294967296. lia. Qed.

Lemma grow_spec rf n :
  registers_ok rf → Z.of_nat n ≤ MAX_SIZE →
  registers_ok (grow rf n) ∧ (n ≤ capacity (grow rf n))%nat ∧
  (capacity rf ≤ capacity (grow rf n))%nat ∧ top (grow rf n) = top rf ∧
  (∀ a, (a < capacity rf)%nat → registers (grow rf n) !! a = registers rf !! a ∧
    generation (grow rf n) a = generation rf a ∧ slot_epochs (grow rf n) !! a = slot_epochs rf !! a).
Proof.
  intros Hok Hn. destruct Hok as (Hg & He & Hc & Ht & Hu). unfold capacity in *.
  unfold grow. destruct (Nat.ltb_spec (length (registers rf)) n) as [Hlt|Hge]; cbn [registers top];
    [|unfold registers_ok, capacity; split_and!; done || lia].
  set (m := Z.to_nat (Z.of_nat (n * 2) `min` MAX_SIZE)).
  assert (Hm : (n ≤ m)%nat ∧ Z.of_nat m ≤ MAX_SIZE) by (subst m; unfold MAX_SIZE in *; lia).
  clearbody m. unfold registers_ok, capacity, generation. cbn [slot_generations slot_epochs registers top].
  rewrite !length_resize. split_and!; try (done || lia).
  - by apply Forall_resize.
  - intros a Ha. by rewrite !lookup_resize by lia.
Qed.

Definition in_range (lo hi a : nat) : bool := ((lo <=? a) && (a <? hi))%nat.

(** A frame is pushed exactly when it fits: it starts at the old top, holds
    unit values, and the generations of its slots move on by one; nothing else
    changes. *)
Lemma try_push_frame_spec rf n :
  registers_ok rf →
  match try_push_frame rf n with
  | Pushed base rf' =>
      Z.of_nat (top rf + n) ≤ MAX_SIZE ∧ base = Z.of_nat (top rf) ∧ registers_ok rf' ∧
      top rf' = (top rf + n)%nat ∧ (capacity rf ≤ capacity rf')%nat ∧
      (∀ a, (top rf ≤ a < top rf + n)%nat → registers rf' !! a = Some unit_value) ∧
      ∀ a, (a < capacity rf)%nat →
        registers rf' !! a = (if in_range (top rf) (top rf + n) a then Some unit_value else registers rf !! a) ∧
        generation rf' a =
          (if in_range (top rf) (top rf + n) a then wrap 32 (generation rf a + 1) else generation rf a)
  | Exceeds m => m = (top rf + n)%nat ∧ MAX_SIZE < Z.of_nat (top rf + n)
  | PushIndexPanic => False
  end.
Proof.
  intros Hok. unfold try_push_frame. destruct (Z.ltb_spec MAX_SIZE (Z.of_nat (top rf + n))); [done|].
  destruct (grow_spec rf (top rf + n) Hok) as (Hok' & Hn & Hc & Ht & Hs); [done|].
  pose proof Hok as (_ & _ & _ & Htop & _). pose proof Hok' as (Hg & He & Hm & Ht' & Hu).
  unfold capacity in *.
  destruct (update_slice_ok (top (grow rf (top rf + n))) (top rf + n) (λ _, unit_value)
    (registers (grow rf (top rf + n)))) as [l1 E1]; [lia|].
  destruct (update_slice_ok (top (grow rf (top rf + n))) (top rf + n) (wrapping_succ 32)
    (slot_generations (grow rf (top rf + n)))) as [l2 E2]; [lia|].
  rewrite E1, E2. apply update_slice_Some in E1 as (_ & L1 & U1), E2 as (_ & L2 & U2).
  split_and!; try done.
  - apply wrap_u32. lia.
  - unfold registers_ok, capacity. cbn [slot_generations slot_epochs registers top].
    split_and!; try lia. by eapply update_slice_Forall in U2.
  - cbn [registers]. lia.
  - intros a Ha. cbn [registers]. rewrite U1, Ht, decide_True by done.
    by destruct (lookup_lt_is_Some_2 (registers (grow rf (top rf + n))) a) as [v ->]; [lia|].
  - intros a Ha. cbn [registers slot_generations]. unfold generation. cbn [slot_generations].
    rewrite U1, U2, Ht. destruct (Hs a Ha) as (S1 & S2 & _). unfold in_range.
    assert (Hgl : is_Some (slot_generations rf !! a)).
    { apply lookup_lt_is_Some_2. destruct Hok as (Hgr & _). unfold capacity in Hgr. lia. }
    assert (Hgl' : is_Some (slot_generations (grow rf (top rf + n)) !! a))
      by (apply lookup_lt_is_Some_2; lia).
    destruct Hgl as [g Hgg], Hgl' as [g' Hgg']. unfold generation in S2. rewrite Hgg, Hgg' in *. cbn in S2.
    destruct (lookup_lt_is_Some_2 (registers rf) a Ha) as [v Hv].
    destruct (Nat.leb_spec (top rf) a), (Nat.ltb_spec a (top rf + n)); cbn [andb];
      [rewrite !decide_True by lia|rewrite !decide_False by lia..]; rewrite S1, Hv; cbn;
      unfold wrapping_succ; by rewrite ?S2.
Qed.

(** Popping needs the base below the top; the slots given up move on. *)
Lemma pop_registers_spec rf (base : nat) :
  registers_ok rf → (base ≤ top rf)%nat →
  ∃ rf', pop_registers rf (Z.of_nat base) = Ok rf' ∧ registers_ok rf' ∧ top rf' = base ∧
    registers rf' = registers rf ∧
    ∀ a, (a < capacity rf)%nat → generation rf' a =
      (if in_range base (top rf) a then wrap 32 (generation rf a + 1) else generation rf a).
Proof.
  intros Hok Hb. pose proof Hok as (Hg & He & Hm & Ht & Hu). unfold pop_registers. rewrite Nat2Z.id.
  destruct (update_slice_ok base (top rf) (wrapping_succ 32) (slot_generations rf)) as [l E]; [lia|].
  rewrite E. apply update_slice_Some in E as (_ & L & U). eexists. split; [done|].
  unfold registers_ok, capacity in *. cbn [slot_generations slot_epochs registers top].
  split_and!; try (done || lia).
  - by eapply update_slice_Forall in U.
  - intros a Ha. unfold generation. cbn [slot_generations]. rewrite U. unfold in_range.
    destruct (lookup_lt_is_Some_2 (slot_generations rf) a) as [g ->]; [lia|].
    destruct (Nat.leb_spec base a), (Nat.ltb_spec a (top rf)); cbn [andb];
      [rewrite decide_True by lia|rewrite decide_False by lia..]; done.
Qed.

(** ** The windows of a list of frames *)
Definition height (fs : list CallFrame) : nat := sum_list_with reg_count fs.

(** The windows start at [base] and leave no gap; [caller] is the base of the
    frame below, and results go to registers of 16 bits. *)
Fixpoint chain (base : nat) (caller : Z) (fs : list CallFrame) : Prop :=
  match fs with
  | [] => True
  | f :: fs =>
      reg_base f = Z.of_nat base ∧ caller_base f = caller ∧ is_u 16 (return_reg f) ∧
      chain (base + reg_count f) (Z.of_nat base) fs
  end.

(** The base of the current frame, 0 without frames. *)
Definition base_of (fs : list CallFrame) : Z := default 0 (reg_base <$> last fs).

Definition frames_ok (s : FrameState) : Prop :=
  let fs := frames (call_stack s) in
  registers_ok (register_file s) ∧ chain 0 0 fs ∧ height fs = top (register_file s) ∧
  (length fs ≤ max_depth (call_stack s))%nat.

Lemma height_app fs gs : height (fs ++ gs) = (height fs + height gs)%nat.
Proof. induction fs as [|f fs IH]; cbn; [done|]. unfold height in *. cbn. lia. Qed.

Lemma height_snoc fs f : height (fs ++ [f]) = (height fs + reg_count f)%nat.
Proof. rewrite height_app. unfold height. cbn. lia. Qed.

Lemma chain_app b c fs gs :
  chain b c (fs ++ gs) ↔ chain b c fs ∧ chain (b + height fs) (default c (reg_base <$> last fs)) gs.
Proof.
  revert b c. induction fs as [|f fs IH]; intros b c; cbn [app chain height sum_list_with].
  { cbn. rewrite Nat.add_0_r. naive_solver. }
  rewrite IH. assert (E : default (Z.of_nat b) (reg_base <$> last fs) =
    default (reg_base f) (reg_base <$> last fs) ∨ reg_base f ≠ Z.of_nat b) by
    (destruct (decide (reg_base f = Z.of_nat b)) as [->|]; auto).
  rewrite last_cons. fold (height fs). rewrite Nat.add_assoc.
  destruct E as [E|E]; [|naive_solver]. rewrite E. destruct (last fs); cbn; naive_solver.
Qed.

Lemma chain_snoc fs f :
  chain 0 0 (fs ++ [f]) ↔
  chain 0 0 fs ∧ reg_base f = Z.of_nat (height fs) ∧ caller_base f = base_of fs ∧
  is_u 16 (return_reg f).
Proof. rewrite chain_app. cbn. unfold base_of. naive_solver. Qed.

Lemma base_of_snoc fs f : base_of (fs ++ [f]) = reg_base f.
Proof. unfold base_of. by rewrite last_snoc. Qed.

Lemma frames_snoc cs f : current cs = Some f → frames cs = removelast (frames cs) ++ [f].
Proof.
  unfold current. intros (l & E)%last_Some. rewrite E. by rewrite removelast_last.
Qed.

Lemma base_of_le fs : chain 0 0 fs → ∃ b, base_of fs = Z.of_nat b ∧ (b ≤ height fs)%nat.
Proof.
  destruct fs as [|f fs] using rev_ind; [intros _; exists 0%nat; done|].
  rewrite chain_snoc, base_of_snoc, height_snoc. intros (_ & -> & _ & _). eexists. split; [done|]. lia.
Qed.

Lemma state_base_le s : frames_ok s →
  ∃ b, state_base s = Z.of_nat b ∧ (b ≤ top (register_file s))%nat.
Proof.
  intros (_ & Hc & <- & _). apply base_of_le in Hc as (b & E & Hb). exists b. split; [|done].
  unfold state_base, current_base, current. done.
Qed.

Lemma top_bound s : frames_ok s → Z.of_nat (top (register_file s)) ≤ MAX_SIZE.
Proof. intros ((_ & _ & Hm & Ht & _) & _). lia. Qed.

(** ** Operations that leave the frames and the generations alone *)
Record quiet (s s' : FrameState) : Prop := {
  quiet_stack : call_stack s' = call_stack s;
  quiet_top : top (register_file s') = top (register_file s);
  quiet_capacity : capacity (register_file s') = capacity (register_file s);
  quiet_generations : slot_generations (register_file s') = slot_generations (register_file s);
  quiet_epochs : slot_epochs (register_file s') = slot_epochs (register_file s);
  quiet_enabled : cbgr_enabled s' = cbgr_enabled s;
}.

#[export] Instance quiet_preorder : PreOrder quiet.
Proof. split; [by intros s|]. intros s1 s2 s3 [] []. split; congruence. Qed.

Lemma quiet_ok s s' : quiet s s' → frames_ok s → frames_ok s'.
Proof.
  intros [Hs Ht Hc Hg He _] (Hr & Hch & Hh & Hd). unfold frames_ok, registers_ok in *.
  rewrite Hs, Hg, He, Hc, Ht. done.
Qed.

Lemma quiet_set_reg s r v : quiet s (set_reg s r v).
Proof.
  unfold set_reg, set, with_registers, capacity. split; cbn; try done.
  unfold capacity. cbn. by rewrite length_insert.
Qed.

Lemma quiet_pointers s a b c : quiet s (with_pointers s a b c).
Proof. done. Qed.

#[export] Hint Resolve quiet_set_reg quiet_pointers : verum.

(** ** Pushing and popping *)
Lemma push_frame_spec s func_id n return_pc return_reg : frames_ok s →
  match push_frame (call_stack s) func_id n return_pc return_reg with
  | Ok (base, cs) =>
      (depth (call_stack s) < max_depth (call_stack s))%nat ∧
      base = Z.of_nat (top (register_file s)) ∧
      cs = with_frames (call_stack s)
             (frames (call_stack s) ++ [new_frame func_id base n return_pc return_reg (state_base s)])
  | Err e =>
      depth (call_stack s) = max_depth (call_stack s) ∧
      e = Raised (StackOverflow (Z.of_nat (depth (call_stack s))) (Z.of_nat (depth (call_stack s))))
  | Gas _ => False
  end.
Proof.
  intros Hok. pose proof (top_bound s Hok) as Hb. destruct Hok as (_ & Hc & Hh & Hd).
  unfold push_frame, depth. destruct (Nat.leb_spec (max_depth (call_stack s)) (length (frames (call_stack s)))).
  { split; [lia|]. by replace (max_depth _) with (length (frames (call_stack s))) by lia. }
  unfold state_base, current_base, current. destruct (frames (call_stack s)) as [|f fs _] eqn:E using rev_ind.
  { cbn. cbn in Hh. by rewrite <- Hh. }
  rewrite last_snoc. cbn [fmap option_fmap option_map default].
  rewrite chain_snoc in Hc. rewrite height_snoc in Hh. destruct Hc as (_ & Hr & _).
  assert (Eb : wrap 32 (reg_base f + Z.of_nat (reg_count f)) = Z.of_nat (top (register_file s))).
  { rewrite Hr, <- Nat2Z.inj_add, wrap_u32 by lia. by rewrite Hh. }
  split; [lia|]. split; [done|]. by rewrite Eb.
Qed.

Lemma push_ok s fid n rp rr rf :
  frames_ok s → (depth (call_stack s) < max_depth (call_stack s))%nat →
  registers_ok rf → top rf = (top (register_file s) + n)%nat → is_u 16 rr →
  frames_ok (with_call_stack (with_register_file s rf)
    (with_frames (call_stack s) (frames (call_stack s) ++
      [new_frame fid (Z.of_nat (top (register_file s))) n rp rr (state_base s)]))).
Proof.
  intros (_ & Hc & Hh & Hd) Hlt Hr Ht Hrr. unfold frames_ok. cbn. rewrite chain_snoc, height_snoc, length_app.
  cbn. unfold depth in Hlt. split_and!; done || lia || by rewrite Hh.
Qed.

(** Leaving the current frame. *)
Definition popped (s : FrameState) (rf : RegisterFile) (cs : CallStack) : FrameState :=
  with_call_stack (with_register_file s rf) cs.

Lemma pop_spec s fs f :
  frames_ok s → frames (call_stack s) = fs ++ [f] →
  ∃ cs rf, pop_frame (call_stack s) = Ok (f, cs) ∧ frames cs = fs ∧
    max_depth cs = max_depth (call_stack s) ∧
    pop_registers (register_file s) (reg_base f) = Ok rf ∧
    registers rf = registers (register_file s) ∧ capacity rf = capacity (register_file s) ∧
    (∀ a, (a < capacity rf)%nat → generation rf a =
      if in_range (height fs) (top (register_file s)) a
      then wrap 32 (generation (register_file s) a + 1) else generation (register_file s) a) ∧
    top rf = height fs ∧ frames_ok (popped s rf cs).
Proof.
  intros (Hr & Hc & Hh & Hd) E. unfold pop_frame, current. rewrite E, last_snoc, removelast_last.
  rewrite E, chain_snoc in Hc. destruct Hc as (Hc & Hb & _ & _). rewrite E, height_snoc in Hh.
  rewrite E, length_app in Hd. cbn in Hd.
  destruct (pop_registers_spec (register_file s) (height fs) Hr) as (rf & Er & Hr' & Ht & Hv & Hg); [lia|].
  eexists _, rf. split; [done|]. cbn [frames max_depth]. do 2 (split; [done|]).
  rewrite Hb. split; [done|]. assert (capacity rf = capacity (register_file s)) as Ec
    by (unfold capacity; by rewrite Hv).
  split_and!; try done. { by rewrite Ec. }
  unfold frames_ok, popped. cbn. split_and!; try (done || lia).
Qed.

Lemma frames_cases s : frames_ok s →
  frames (call_stack s) = [] ∧ top (register_file s) = 0%nat ∧ state_base s = 0 ∨
  ∃ fs f, frames (call_stack s) = fs ++ [f] ∧ chain 0 0 fs ∧ reg_base f = Z.of_nat (height fs) ∧
    caller_base f = base_of fs ∧ is_u 16 (return_reg f) ∧
    top (register_file s) = (height fs + reg_count f)%nat ∧
    state_base s = Z.of_nat (height fs).
Proof.
  intros (_ & Hc & Hh & _). unfold state_base, current_base, current.
  destruct (frames (call_stack s)) as [|f fs _] using rev_ind.
  { left. done. }
  rewrite chain_snoc in Hc. rewrite height_snoc in Hh. destruct Hc as (Hc & Hb & Hcb & Hrr).
  right. exists fs, f. rewrite last_snoc. split_and!; done.
Qed.

(** ** The program counter *)
Lemma set_pc_spec cs p :
  max_depth (set_pc cs p) = max_depth cs ∧
  (frames cs = [] ∧ frames (set_pc cs p) = [] ∨
   ∃ fs f, frames cs = fs ++ [f] ∧ frames (set_pc cs p) = fs ++ [frame_with_pc p f]).
Proof.
  unfold set_pc, update_current, current. destruct (frames cs) as [|f fs _] eqn:E using rev_ind.
  { cbn. auto. }
  rewrite last_snoc, removelast_last. cbn. split; [done|]. right. eauto.
Qed.

Lemma set_pc_ok s p : frames_ok s → frames_ok (with_call_stack s (set_pc (call_stack s) p)).
Proof.
  unfold frames_ok. cbn. destruct (set_pc_spec (call_stack s) p) as (-> & [[-> ->]|(fs & f & -> & ->)]); [done|].
  rewrite !chain_snoc, !height_snoc, !length_app. cbn. done.
Qed.

Lemma set_pc_base cs p : current_base (set_pc cs p) = current_base cs.
Proof.
  unfold current_base, current. destruct (set_pc_spec cs p) as (_ & [[-> ->]|(fs & f & -> & ->)]); [done|].
  by rewrite !last_snoc.
Qed.

Lemma set_pc_depth cs p : depth (set_pc cs p) = depth cs.
Proof.
  unfold depth. destruct (set_pc_spec cs p) as (_ & [[-> ->]|(fs & f & -> & ->)]); [done|].
  by rewrite !length_app.
Qed.
