(* ===== verification/FrameEffects.v ===== *)
(** * What each operation does to frames, registers and generations

    [effect] collects, for one step, what the theorems on runs need: the
    invariant is kept, the register file does not shrink, registers below the
    current window change only through mutable references, and the generation
    of a slot moves on by one exactly when the step gives the slot out, takes
    it back or drops a reference to it ([bumped]). *)

From S2P Require Import Prelude Words Encoding TypeRefs NanBox NanBoxFacts Registers Frames.
From S2P Require Import FrameInvariant.

(** Operands as the instruction decoder yields them: registers of 16 bits.  A tail
    call goes to a function with as many registers as the current frame has, which
    the handler does not check ([tail_call_outgrows]). *)
Definition operation_ok (s : FrameState) (op : operation) : Prop :=
  match op with
  | Enter _ _ dst args => is_u 16 dst ∧ is_u 16 (count args)
  | TailCall _ n args => is_u 16 (count args) ∧ (∀ f, current (call_stack s) = Some f → reg_count f = n)
  | Return _ | Unwind _ _ | SetPc _ => True
  | SetReg r _ | ChkRef r | DropRef r => is_u 16 r
  | RefCreate dst src | RefMut dst src | RefChecked dst src | RefUnsafe dst src
  | Deref dst src | DerefMut dst src => is_u 16 dst ∧ is_u 16 src
  end.

Definition bumped (op : operation) (s : FrameState) (a : nat) : bool :=
  let t := top (register_file s) in
  match op with
  | Enter _ n _ _ => in_range t (t + n) a
  | Return _ => in_range (Z.to_nat (state_base s)) t a
  | Unwind d _ => in_range (height (take d (frames (call_stack s)))) t a
  | DropRef src => (a =? Z.to_nat (abs_index s src))%nat
  | _ => false
  end.

Abbreviation gen s a := (generation (register_file s) a).
Abbreviation reg_at s a := (registers (register_file s) !! a).
Abbreviation slots s := (capacity (register_file s)).

Record effect (bump : nat → bool) (s s' : FrameState) : Prop := {
  effect_ok : frames_ok s';
  effect_slots : (slots s ≤ slots s')%nat;
  effect_enabled : cbgr_enabled s' = cbgr_enabled s;
  effect_depth : max_depth (call_stack s') = max_depth (call_stack s);
  effect_same a : (a < slots s)%nat → bump a = false → gen s' a = gen s a;
  effect_bump a : (a < slots s)%nat → bump a = true → gen s a < GEN_MAX → gen s' a = gen s a + 1;
}.

(** Registers below both windows are left alone. *)
Definition keeps_below (s s' : FrameState) : Prop :=
  ∀ a, (a < slots s)%nat → Z.of_nat a < state_base s → Z.of_nat a < state_base s' →
    reg_at s' a = reg_at s a.

Lemma quiet_effect s s' : frames_ok s → quiet s s' → effect (λ _, false) s s'.
Proof.
  intros Hok Hq. split.
  - by eapply quiet_ok.
  - by rewrite (quiet_capacity _ _ Hq).
  - apply Hq.
  - by rewrite (quiet_stack _ _ Hq).
  - intros a _ _. unfold generation. by rewrite (quiet_generations _ _ Hq).
  - done.
Qed.

Lemma slot_spec s r : frames_ok s → is_u 16 r →
  slot (state_base s) r = Z.to_nat (state_base s + r) ∧
  abs_index s r = state_base s + r ∧ 0 ≤ state_base s.
Proof.
  intros Hok Hr. destruct (state_base_le s Hok) as (b & E & Hb). pose proof (top_bound s Hok).
  assert (0 ≤ state_base s ≤ MAX_SIZE) by lia.
  unfold slot, abs_index. rewrite wrap_id; [done || lia|].
  unfold is_u, MAX_SIZE in *. change (2 ^ 16) with 65536 in Hr. change (2 ^ 32) with 4294967296. lia.
Qed.

Lemma set_reg_lookup s r v a : frames_ok s → is_u 16 r →
  reg_at (set_reg s r v) a =
  (if decide (Z.of_nat a = state_base s + r ∧ (a < slots s)%nat) then Some v else reg_at s a).
Proof.
  intros Hok Hr. destruct (slot_spec s r Hok Hr) as (E & _ & H0). unfold set_reg, set, with_registers. cbn.
  unfold is_u in Hr. rewrite E, list_lookup_insert. unfold capacity. repeat case_decide; lia || done.
Qed.

Lemma set_reg_below s r v a : frames_ok s → is_u 16 r → Z.of_nat a < state_base s →
  reg_at (set_reg s r v) a = reg_at s a.
Proof.
  intros Hok Hr Ha. rewrite set_reg_lookup by done. unfold is_u in Hr. by rewrite decide_False by lia.
Qed.

(** ** Copying the arguments *)
Section copy.
Context (cb : Z) (nb : nat) (st : Reg).

Lemma get_below rf (a : nat) (v : Value) (r : Reg) :
  slot cb r ≠ a → get (with_registers rf (<[a := v]> (registers rf))) cb r = get rf cb r.
Proof. intros H. unfold get, with_registers. cbn. by rewrite list_lookup_insert_ne. Qed.

Lemma copy_arguments_spec rf i n :
  Z.of_nat nb + Z.of_nat (i + n) < 2 ^ 32 →
  let rf' := copy_arguments rf cb (Z.of_nat nb) st i n in
  top rf' = top rf ∧ slot_generations rf' = slot_generations rf ∧ slot_epochs rf' = slot_epochs rf ∧
  capacity rf' = capacity rf ∧
  (∀ a, ¬ (nb + i ≤ a < nb + i + n)%nat → registers rf' !! a = registers rf !! a) ∧
  ((nb + i + n ≤ capacity rf)%nat →
   (∀ j, (j < i + n)%nat → (slot cb (wrap 16 (st + Z.of_nat j)) < nb)%nat) →
   ∀ j, (i ≤ j < i + n)%nat →
     registers rf' !! (nb + j)%nat = Some (get rf cb (wrap 16 (st + Z.of_nat j)))).
Proof.
  revert rf i. induction n as [|n IH]; intros rf i Hb; cbn [copy_arguments]; cbv zeta.
  { split_and!; try done. intros. lia. }
  set (v := get rf cb (wrap 16 (st + Z.of_nat i))).
  assert (Es : slot (Z.of_nat nb) (Z.of_nat i) = (nb + i)%nat).
  { unfold slot. rewrite wrap_id by (unfold is_u; lia). lia. }
  assert (Ew : set rf (Z.of_nat nb) (Z.of_nat i) v = with_registers rf (<[(nb + i)%nat := v]> (registers rf))).
  { unfold set. by rewrite Es. }
  rewrite Ew. specialize (IH (with_registers rf (<[(nb + i)%nat := v]> (registers rf))) (S i) ltac:(lia)).
  cbv zeta in IH. destruct IH as (H1 & H2 & H3 & H4 & H5 & H6).
  rewrite H1, H2, H3, H4. unfold capacity at 1 in H6. unfold capacity at 1. cbn [with_registers registers] in *.
  rewrite !length_insert in *. split_and!; try done.
  - intros a Ha. rewrite H5 by lia. cbn. by rewrite list_lookup_insert_ne by lia.
  - intros Hc Hs j Hj. destruct (decide (j = i)) as [->|Hne].
    + rewrite H5 by lia. rewrite list_lookup_insert_eq by (unfold capacity in Hc; lia). done.
    + rewrite H6; [|unfold capacity in *; lia| |lia].
      * by rewrite get_below by (specialize (Hs j ltac:(lia)); lia).
      * intros k Hk. apply Hs. lia.
Qed.
End copy.

(** ** Entering a function *)
Lemma u16_small z : is_u 16 z → 0 ≤ z < 65536.
Proof. done. Qed.

Lemma wrap_succ g : 0 ≤ g < GEN_MAX → wrap 32 (g + 1) = g + 1.
Proof. intros H. apply wrap_id. unfold is_u, GEN_MAX in *. change (2 ^ 32) with 4294967296. lia. Qed.

Lemma generation_step rf a : registers_ok rf → generation rf a < GEN_MAX →
  wrap 32 (generation rf a + 1) = generation rf a + 1.
Proof. intros Hr H. apply wrap_succ. pose proof (generation_range rf a Hr) as []. done. Qed.

Lemma enter_spec s fid n dst args : frames_ok s → is_u 16 dst → is_u 16 (count args) →
  match enter_function s fid n dst args with
  | Ok s' =>
      (depth (call_stack s) < max_depth (call_stack s))%nat ∧
      effect (in_range (top (register_file s)) (top (register_file s) + n)) s s' ∧
      frames (call_stack s') = frames (call_stack s) ++
        [new_frame fid (Z.of_nat (top (register_file s))) n (pc (call_stack s)) dst (state_base s)] ∧
      generic_witnesses (call_stack s') = generic_witnesses (call_stack s) ∧
      cbgr_deref_source s' = cbgr_deref_source s ∧ escape_cells s' = escape_cells s ∧ tables s' = tables s ∧
      ∃ rf, try_push_frame (register_file s) n = Pushed (Z.of_nat (top (register_file s))) rf ∧
        register_file s' = copy_arguments rf (state_base s) (Z.of_nat (top (register_file s)))
                             (start args) 0 (Z.to_nat (count args))
  | Err (Raised (StackOverflow _ _)) => depth (call_stack s) = max_depth (call_stack s)
  | Err RegisterPanic => MAX_SIZE < Z.of_nat (top (register_file s) + n)
  | _ => False
  end.
Proof.
  intros Hok Hdst Hn. unfold enter_function. pose proof (push_frame_spec s fid n (pc (call_stack s)) dst Hok) as Hp.
  destruct (push_frame _ _ _ _ _) as [[nb cs]|e|]; [|by destruct Hp as [? ->]|done].
  destruct Hp as (Hd & -> & ->). cbn [mbind outcome_bind]. unfold push_registers.
  pose proof Hok as (Hr & _). pose proof (try_push_frame_spec (register_file s) n Hr) as Hp.
  pose proof (top_bound s Hok) as Hb.
  destruct (try_push_frame _ _) as [b rf|m|]; [|cbn; tauto|done].
  destruct Hp as (Hm & -> & Hr' & Ht & Hc & _ & Hs). cbn [mbind outcome_bind].
  destruct (copy_arguments_spec (state_base s) (top (register_file s)) (start args) rf 0 (Z.to_nat (count args)))
    as (C1 & C2 & C3 & C4 & _).
  { apply u16_small in Hn. unfold MAX_SIZE in *. change (2 ^ 32) with 4294967296. lia. }
  set (rf' := copy_arguments _ _ _ _ _ _) in *.
  assert (Hr'' : registers_ok rf').
  { unfold registers_ok in *. by rewrite C1, C2, C3, C4. }
  pose proof (push_ok s fid n (pc (call_stack s)) dst rf' Hok Hd Hr'' ltac:(congruence) Hdst) as Hok'.
  apply (set_pc_ok _ 0) in Hok'. cbn [call_stack with_call_stack] in Hok'.
  split; [done|]. split.
  - split; cbn; try done.
    + by rewrite C4.
    + by rewrite (proj1 (set_pc_spec _ _)).
    + intros a Ha E. destruct (Hs a Ha) as [_ G]. rewrite E in G. unfold generation at 1. by rewrite C2.
    + intros a Ha E Hlt. destruct (Hs a Ha) as [_ G]. rewrite E in G. unfold generation at 1. rewrite C2.
      etrans; [exact G|]. by apply generation_step.
  - cbn. unfold set_pc, update_current, current. cbn. rewrite last_snoc, removelast_last. cbn.
    split_and!; try done. by exists rf.
Qed.

Lemma enter_below s fid n dst args s' a : frames_ok s → is_u 16 dst → is_u 16 (count args) →
  enter_function s fid n dst args = Ok s' → (a < top (register_file s))%nat →
  reg_at s' a = reg_at s a ∧ gen s' a = gen s a.
Proof.
  intros Hok Hd Hn E Ha. pose proof (enter_spec s fid n dst args Hok Hd Hn) as H. rewrite E in H.
  destruct H as (_ & [_ _ _ _ Hg _] & _ & _ & _ & _ & _ & rf & Hp & Hrf).
  pose proof Hok as ((_ & _ & _ & Ht & _) & _).
  assert (Hr : in_range (top (register_file s)) (top (register_file s) + n) a = false).
  { unfold in_range. by rewrite (proj2 (Nat.leb_gt _ _)) by lia. }
  split; [|apply Hg; done || lia]. rewrite Hrf.
  pose proof (try_push_frame_spec (register_file s) n (proj1 Hok)) as Hs. rewrite Hp in Hs.
  destruct Hs as (_ & _ & _ & _ & _ & _ & Hs). destruct (Hs a ltac:(lia)) as [Hv _]. rewrite Hr in Hv.
  destruct (copy_arguments_spec (state_base s) (top (register_file s)) (start args) rf 0 (Z.to_nat (count args)))
    as (_ & _ & _ & _ & C5 & _).
  { apply u16_small in Hn. pose proof (top_bound s Hok). unfold MAX_SIZE in *. change (2 ^ 32) with 4294967296. lia. }
  rewrite C5 by lia. done.
Qed.

(** ** Tail calls *)
Lemma set_arguments_spec s values (b i : nat) rf :
  Z.of_nat b + Z.of_nat (i + length values) < 2 ^ 32 → quiet s (with_register_file s rf) →
  let rf' := set_arguments rf (Z.of_nat b) i values in
  quiet s (with_register_file s rf') ∧
  (∀ a, ¬ (b + i ≤ a < b + i + length values)%nat → registers rf' !! a = registers rf !! a) ∧
  ((b + i + length values ≤ capacity rf)%nat →
   ∀ j v, values !! j = Some v → registers rf' !! (b + i + j)%nat = Some v).
Proof.
  revert i rf. induction values as [|v values IH]; intros i rf Hb Hq; cbn [set_arguments length] in *; cbv zeta.
  { split_and!; done. }
  assert (Es : slot (Z.of_nat b) (Z.of_nat i) = (b + i)%nat).
  { unfold slot. rewrite wrap_id by (unfold is_u; lia). lia. }
  assert (Ew : set rf (Z.of_nat b) (Z.of_nat i) v = with_registers rf (<[(b + i)%nat := v]> (registers rf))).
  { unfold set. by rewrite Es. }
  rewrite Ew. assert (Hq' : quiet s (with_register_file s (with_registers rf (<[(b + i)%nat := v]> (registers rf))))).
  { destruct Hq as [H1 H2 H3 H4 H5 H6]. split; try done. rewrite <- H3. unfold capacity. cbn. by rewrite length_insert. }
  destruct (IH (S i) _ ltac:(lia) Hq') as (H1 & H2 & H3). split; [done|]. split.
  - intros a Ha. rewrite H2 by lia. cbn. by rewrite list_lookup_insert_ne by lia.
  - intros Hc [|j] w Hw; cbn in Hw.
    + injection Hw as ->. rewrite H2 by lia. cbn. rewrite Nat.add_0_r. apply list_lookup_insert_eq.
      unfold capacity in Hc. lia.
    + replace (b + i + S j)%nat with (b + S i + j)%nat by lia. apply H3; [|done].
      unfold capacity in *. cbn. rewrite length_insert. lia.
Qed.

Lemma frames_update f cs : max_depth (update_current f cs) = max_depth cs ∧
  frames (update_current f cs) =
    match current cs with Some g => removelast (frames cs) ++ [f g] | None => frames cs end.
Proof. unfold update_current. by destruct (current cs). Qed.

(** A tail call between functions with the same number of registers. *)
Lemma tail_call_spec s fid n args : frames_ok s → operation_ok s (TailCall fid n args) →
  let s' := tail_call s fid n args in
  effect (λ _, false) s s' ∧
  (frames (call_stack s) = [] ∧ frames (call_stack s') = [] ∨
   ∃ fs f, frames (call_stack s) = fs ++ [f] ∧ frames (call_stack s') = fs ++ [frame_with_function fid n f]) ∧
  (∀ a, Z.of_nat a < state_base s → reg_at s' a = reg_at s a) ∧
  (state_base s + count args ≤ Z.of_nat (slots s) → ∀ j, 0 ≤ j < count args →
   reg_at s' (Z.to_nat (state_base s + j)) =
     Some (get (register_file s) (state_base s) (wrap 16 (start args + j)))).
Proof.
  intros Hok [Hc Hn]. cbv zeta. destruct (state_base_le s Hok) as (b & Eb & Hb). pose proof (top_bound s Hok) as Hm.
  apply u16_small in Hc.
  destruct (set_arguments_spec s (collect_arguments s args) b 0 (register_file s)) as (Hq & Hbelow & Hargs).
  { unfold collect_arguments. rewrite length_map, length_seq. unfold MAX_SIZE in *.
    change (2 ^ 32) with 4294967296. lia. }
  { by split. }
  assert (El : length (collect_arguments s args) = Z.to_nat (count args))
    by (unfold collect_arguments; by rewrite length_map, length_seq).
  unfold tail_call. rewrite Eb. set (rf := set_arguments _ _ _ _) in *.
  set (cs := set_pc _ 0).
  assert (Hcs : max_depth cs = max_depth (call_stack s) ∧
    (frames (call_stack s) = [] ∧ frames cs = [] ∨
     ∃ fs f, frames (call_stack s) = fs ++ [f] ∧ frames cs = fs ++ [frame_with_function fid n f])).
  { subst cs. unfold set_pc. rewrite !(proj1 (frames_update _ _)). split; [done|].
    rewrite !(proj2 (frames_update _ _)). unfold current. rewrite !(proj2 (frames_update _ _)). unfold current. cbn.
    destruct (frames (call_stack s)) as [|f fs _] using rev_ind; [by left|].
    right. exists fs, f. split; [done|]. rewrite (last_snoc f fs), removelast_last.
    by rewrite last_snoc, removelast_last. }
  destruct Hcs as [Hmd Hfs].
  pose proof (quiet_ok _ _ Hq Hok) as (Hr & Hch & Hh & Hd). cbn in Hr, Hch, Hh, Hd.
  destruct Hq as [_ Ht Hcap Hgen _ _]. cbn in Ht, Hcap, Hgen.
  split; [split; cbn; try done|split; [exact Hfs|split]].
  - unfold frames_ok. cbn. rewrite Hmd. split; [done|].
    destruct Hfs as [[E ->]|(fs & f & E & ->)]; [by rewrite E in *|].
    rewrite E in *. assert (reg_count f = n) as En.
    { apply Hn. unfold current. by rewrite E, last_snoc. }
    rewrite chain_snoc, height_snoc, length_app in *. cbn. rewrite <- En. done.
  - by rewrite Hcap.
  - intros a _ _. unfold generation. by rewrite Hgen.
  - intros a Ha. cbn. apply Hbelow. lia.
  - intros Hsl j Hj. cbn. replace (Z.to_nat (Z.of_nat b + j)) with (b + 0 + Z.to_nat j)%nat by lia.
    apply Hargs; [rewrite El; lia|]. unfold collect_arguments. rewrite Eb.
    rewrite (list_lookup_fmap _ (seq 0 (Z.to_nat (count args)))), lookup_seq_lt by lia. cbn.
    do 3 f_equal. lia.
Qed.

(** ** Leaving frames *)
Lemma pop_effect s fs f cs rf :
  frames_ok s → frames (call_stack s) = fs ++ [f] →
  frames_ok (popped s rf cs) → max_depth cs = max_depth (call_stack s) →
  capacity rf = slots s →
  (∀ a, (a < capacity rf)%nat → generation rf a =
     if in_range (height fs) (top (register_file s)) a
     then wrap 32 (gen s a + 1) else gen s a) →
  effect (in_range (height fs) (top (register_file s))) s (popped s rf cs).
Proof.
  intros Hok E Hok' Hd Hc Hg. split; cbn; try done.
  - by rewrite Hc.
  - intros a Ha E'. rewrite Hg by (unfold capacity in *; lia). by rewrite E'.
  - intros a Ha E' Hlt. rewrite Hg by (unfold capacity in *; lia). rewrite E'.
    by apply generation_step, Hlt; destruct Hok.
Qed.

Lemma effect_mono b b' s s' :
  (∀ a, (a < slots s)%nat → b a = b' a) → effect b s s' → effect b' s s'.
Proof. intros H []. split; try done; intros a Ha; rewrite <- H by done; auto. Qed.

(** Two steps that touch different slots. *)
Lemma effect_trans b1 b2 s1 s2 s3 :
  (∀ a, b1 a && b2 a = false) →
  effect b1 s1 s2 → effect b2 s2 s3 → effect (λ a, b1 a || b2 a) s1 s3.
Proof.
  intros Hd [] []. split; try done || lia || congruence.
  - intros a Ha [E1 E2]%orb_false_iff. rewrite effect_same1, effect_same0; done || lia.
  - intros a Ha E Hlt. specialize (Hd a). destruct (b1 a) eqn:E1; cbn in *.
    + rewrite effect_same1, effect_bump0; done || lia.
    + rewrite effect_bump1, effect_same0; try done || lia. by rewrite effect_same0.
Qed.

Lemma take_snoc {A} (l : list A) x n : (n ≤ length l)%nat → take n (l ++ [x]) = take n l.
Proof. intros H. by rewrite take_app_le. Qed.

Lemma height_take fs n : (height (take n fs) ≤ height fs)%nat.
Proof. rewrite <- (take_drop n fs) at 2. rewrite height_app. lia. Qed.

Lemma unwind_spec n s : frames_ok s → (n ≤ depth (call_stack s))%nat →
  let fs := take (depth (call_stack s) - n) (frames (call_stack s)) in
  ∃ s', unwind n s = Ok s' ∧ frames (call_stack s') = fs ∧
    registers (register_file s') = registers (register_file s) ∧
    effect (in_range (height fs) (top (register_file s))) s s'.
Proof.
  revert s. induction n as [|n IH]; intros s Hok Hn; cbv zeta.
  { exists s. rewrite Nat.sub_0_r, take_ge by done. do 3 (split; [done|]).
    destruct Hok as (Hr & Hc & Hh & Hd). rewrite Hh.
    eapply effect_mono, quiet_effect; [|done|reflexivity].
    intros a _. unfold in_range. symmetry. apply andb_false_iff.
    destruct (Nat.leb_spec (top (register_file s)) a); [right; apply Nat.ltb_ge; lia|by left]. }
  unfold depth in *. destruct (frames_cases s Hok) as [(E & _)|(fs & f & E & _ & _ & _ & _ & Ht & _)].
  { rewrite E in Hn. cbn in Hn. lia. }
  destruct (pop_spec s fs f Hok E) as (cs & rf & Ep & Ef & Em & Er & Ev & Ec & Hg & Et & Hok').
  cbn [unwind]. rewrite Ep. cbn [mbind outcome_bind]. rewrite Er.
  rewrite E, length_app in *. cbn in Hn.
  assert (Ed : frames (call_stack (popped s rf cs)) = fs) by done.
  destruct (IH (popped s rf cs) Hok') as (s' & Eu & Efs & Ereg & Heff); [cbn; rewrite Ef; lia|].
  rewrite Ed in *. replace (length fs + length [f] - S n)%nat with (length fs - n)%nat by (cbn; lia).
  rewrite take_snoc by lia. exists s'. do 2 (split; [done|]). split; [by rewrite Ereg|].
  pose proof (height_take fs (length fs - n)) as Hle. cbn [register_file with_call_stack with_register_file] in Heff.
  eapply (effect_mono (λ a, in_range (height fs) (top (register_file s)) a || in_range (height (take (length fs - n) fs)) (height fs) a)).
  - intros a _. unfold in_range. rewrite Ht.
    repeat match goal with |- context [(?x <=? ?y)%nat] => destruct (Nat.leb_spec x y)
      | |- context [(?x <? ?y)%nat] => destruct (Nat.ltb_spec x y) end; try done; lia.
  - eapply effect_trans; [|by eapply pop_effect|].
    + intros a. unfold in_range. destruct (Nat.leb_spec (height fs) a); cbn [andb]; [|done].
      rewrite (proj2 (Nat.ltb_ge a (height fs))) by lia. by rewrite !andb_false_r.
    + change (top (register_file (popped s rf cs))) with (top rf) in Heff. by rewrite Et in Heff.
Qed.

(** What a return makes of its value: a reference into the departing window becomes
    a heap reference to a new cell, which holds what it points to. *)
Definition returns_as (cell : nat → Z) (s : FrameState) (v v' : Value) (cells : list Value) : Prop :=
  if is_cbgr_ref v && ((state_base s <=? cbgr_regref_abs v) && (cbgr_regref_abs v <? Z.of_nat (top (register_file s))))
  then ∃ x, reg_at s (Z.to_nat (cbgr_regref_abs v)) = Some x ∧ cells = escape_cells s ++ [x] ∧
         v' = (from_thin_ref (tables s)
                (thin_ref_new (cell (length (escape_cells s))) 0 (wrap 16 (cbgr_epoch s)) READ_ONLY)).2
  else v' = v ∧ cells = escape_cells s.

Lemma stabilise_spec cell s v : frames_ok s →
  ∃ s' v', stabilise cell s v = Ok (s', v') ∧ quiet s s' ∧ register_file s' = register_file s ∧
    call_stack s' = call_stack s ∧ returns_as cell s v v' (escape_cells s').
Proof.
  intros Hok. unfold stabilise, returns_as. destruct (is_cbgr_ref v); [|by exists s, v].
  cbn [decode_cbgr_ref andb]. rewrite wrap_u32 by by apply top_bound.
  destruct (Z.leb_spec (state_base s) (cbgr_regref_abs v)); [|by exists s, v].
  destruct (Z.ltb_spec (cbgr_regref_abs v) (Z.of_nat (top (register_file s)))); cbn [andb]; [|by exists s, v].
  unfold get_absolute. destruct (state_base_le s Hok) as (b & Eb & _). destruct Hok as ((_ & _ & _ & Ht & _) & _).
  destruct (lookup_lt_is_Some_2 (registers (register_file s)) (Z.to_nat (cbgr_regref_abs v))) as [x E];
    [unfold capacity in Ht; lia|].
  rewrite E. cbn [ok_or mbind outcome_bind]. destruct (from_thin_ref _ _) as [t v'].
  eexists _, v'. split; [done|]. split_and!; try done. by exists x.
Qed.

(** A return leaves the current frame and hands the value to the frame below. *)
Lemma do_return_spec cell s v : frames_ok s →
  ∃ r s', do_return cell s v = Ok (r, s') ∧ effect (bumped (Return v) s) s s' ∧
    (frames (call_stack s) = [] ∧ register_file s' = register_file s ∧ frames (call_stack s') = [] ∨
     ∃ fs f v', frames (call_stack s) = fs ++ [f] ∧
       returns_as cell s v v' (escape_cells s') ∧
       if decide (fs = []) then r = FinalReturn v' ∧ frames (call_stack s') = fs ∧
         registers (register_file s') = registers (register_file s)
       else r = Continue ∧
         (∃ gs g, fs = gs ++ [g] ∧ frames (call_stack s') = gs ++ [frame_with_pc (return_pc f) g]) ∧
         registers (register_file s') = <[slot (caller_base f) (return_reg f) := v']> (registers (register_file s))).
Proof.
  intros Hok. unfold do_return.
  destruct (stabilise_spec cell s v Hok) as (s1 & v' & -> & Hq & Erf & Ecs & Hv).
  cbn [mbind outcome_bind]. assert (Hok1 : frames_ok s1) by by eapply quiet_ok.
  cbn [bumped]. destruct (frames_cases s Hok) as [(E & Et & Eb)|(fs & f & E & _ & Hb & _ & _ & Ht & Eb)].
  { unfold pop_frame, current. rewrite Ecs, E. cbn [last]. eexists _, s1. split; [done|]. split.
    - eapply effect_mono, (quiet_effect s s1); try done. intros a _. cbn [bumped]. rewrite Et, Eb. unfold in_range.
      by rewrite andb_false_r.
    - left. by rewrite Ecs. }
  rewrite <- Ecs in E. destruct (pop_spec s1 fs f Hok1 E) as (cs & rf & Ep & Ef & Em & Er & Ev & Ec & Hg & Et' & Hok2).
  rewrite Ep, Er. cbn [mbind outcome_bind].
  assert (Heff : effect (bumped (Return v) s) s (popped s1 rf cs)).
  { unfold bumped. rewrite Eb, Nat2Z.id. destruct (pop_effect s1 fs f cs rf Hok1 E Hok2 Em Ec Hg) as [H1 H2 H3 H4 H5 H6].
    rewrite Erf in *. split; try done; [by rewrite H3, (quiet_enabled _ _ Hq)|by rewrite H4, Ecs]. }
  unfold depth. cbn [call_stack with_call_stack with_register_file]. rewrite Ef, <- Ecs.
  assert (Hfs : fs = [] ∨ ∃ gs g, fs = gs ++ [g]).
  { destruct fs as [|g gs _] using rev_ind; eauto. }
  destruct Hfs as [Efs|(gs & g & Efs)].
  - rewrite (proj2 (Nat.eqb_eq (length fs) 0)) by (by rewrite Efs). eexists _, _. split; [done|]. split; [done|]. right.
    exists fs, f, v'. split; [done|]. split; [done|]. rewrite decide_True by done.
    split_and!; [done|done|]. cbn. by rewrite Ev, Erf.
  - rewrite (proj2 (Nat.eqb_neq (length fs) 0)) by (rewrite Efs, length_app; cbn; lia).
    eexists _, _. split; [done|]. split.
    + destruct Heff as [H1 H2 H3 H4 H5 H6]. set (s3 := with_register_file _ _).
      assert (Hq3 : quiet (popped s1 rf cs) s3).
      { subst s3. split; try done. unfold capacity. cbn. by rewrite length_insert. }
      split; cbn [register_file with_call_stack cbgr_enabled call_stack].
      * apply set_pc_ok. by eapply quiet_ok.
      * by rewrite (quiet_capacity _ _ Hq3).
      * by rewrite <- H3, <- (quiet_enabled _ _ Hq3).
      * by rewrite (proj1 (set_pc_spec _ _)).
      * done.
      * done.
    + right. exists fs, f, v'. split; [done|]. split; [done|].
      rewrite decide_False by (rewrite Efs; by destruct gs). split; [done|]. split.
      * exists gs, g. split; [done|]. cbn. unfold set_pc, update_current, current. cbn.
        by rewrite Ef, Efs, last_snoc, removelast_last.
      * cbn. by rewrite Ev, Erf.
Qed.

(** ** Dropping a reference *)
Lemma drop_spec s r : frames_ok s → is_u 16 r → (Z.to_nat (abs_index s r) < slots s)%nat →
  ∃ s', drop_register s r = Ok s' ∧ effect (bumped (DropRef r) s) s s' ∧
    call_stack s' = call_stack s ∧
    ∀ a, Z.of_nat a < state_base s → reg_at s' a = reg_at s a.
Proof.
  intros Hok Hr Ha. pose proof Hok as (Hrf & Hrest). pose proof Hrf as (Hg & He & Hc & Ht & Hu).
  destruct (slot_spec s r Hok Hr) as (_ & Ei & H0).
  set (i := Z.to_nat (abs_index s r)) in *.
  assert (Hi : abs_index s r = Z.of_nat i) by (subst i; rewrite Ei; apply u16_small in Hr; lia).
  unfold drop_register, bump_generation. rewrite Hi, get_generation_ok by done. cbn [mbind outcome_bind].
  rewrite Nat2Z.id.
  assert (Hfin : ∀ g e ge, is_u 32 g → length e = slots s → (gen s i < GEN_MAX → g = gen s i + 1) →
    let rf := {| registers := registers (register_file s);
      slot_generations := <[i := g]> (slot_generations (register_file s));
      slot_epochs := e; top := top (register_file s); global_epoch := ge |} in
    let s' := set_reg (with_register_file s rf) r unit_value in
    effect (bumped (DropRef r) s) s s' ∧ call_stack s' = call_stack s ∧
    ∀ a, Z.of_nat a < state_base s → reg_at s' a = reg_at s a).
  { intros g e ge Hgu Hel Hgv. cbv zeta. set (s0 := with_register_file s _).
    assert (Hok0 : frames_ok s0).
    { subst s0. split; [|done]. unfold registers_ok, capacity in *. cbn. rewrite length_insert.
      split_and!; try done. by apply Forall_insert. }
    assert (Hg0 : ∀ a, (a < slots s)%nat → gen s0 a = if decide (i = a) then g else gen s a).
    { intros a Hal. subst s0. unfold generation. cbn. case_decide as E.
      - rewrite <- E, list_lookup_insert_eq by lia. done.
      - by rewrite list_lookup_insert_ne. }
    destruct (quiet_effect s0 (set_reg s0 r unit_value) Hok0 ltac:(auto with verum)) as [H1 H2 H3 H4 H5 _].
    split; [|split; [done|]].
    - split; try done.
      + intros a Hal E. rewrite H5, Hg0 by done. cbn [bumped] in E. apply Nat.eqb_neq in E.
        rewrite decide_False; [done|]. subst i. congruence.
      + intros a Hal E Hlt. rewrite H5, Hg0 by done. cbn [bumped] in E. apply Nat.eqb_eq in E.
        fold i in E. subst a. rewrite decide_True by done. auto.
    - intros a Hal. by rewrite set_reg_below. }
  destruct (Z.leb_spec GEN_MAX (gen s i)) as [Hge|Hlt].
  - unfold get_epoch. rewrite Nat2Z.id.
    destruct (lookup_lt_is_Some_2 (slot_epochs (register_file s)) i) as [e ->]; [lia|].
    cbn [ok_or mbind outcome_bind]. eexists. split; [done|].
    apply Hfin; [done|by rewrite length_insert|lia].
  - eexists. split; [done|]. apply Hfin; [|done|done].
    pose proof (generation_range (register_file s) i Hrf) as []. unfold is_u, GEN_MAX in *.
    change (2 ^ 32) with 4294967296. lia.
Qed.

(** ** References *)

(** The reference an operation uses, and the slot it refers to by number. *)
Definition used_reference (op : operation) (s : FrameState) : option Value :=
  match op with
  | Deref _ r | DerefMut r _ | ChkRef r => Some (get_reg s r)
  | _ => None
  end.

Definition used_slot (op : operation) (s : FrameState) : option Z :=
  match op with
  | RefCreate _ src | RefMut _ src | DropRef src => Some (abs_index s src)
  | _ => cbgr_regref_abs <$> used_reference op s
  end.

(** The only ways an operation fails. *)
Definition failure (op : operation) (s : FrameState) (f : interpreter_fault) : Prop :=
  match f with
  | Raised (StackOverflow d m) =>
      (∃ fid n dst args, op = Enter fid n dst args) ∧
      depth (call_stack s) = max_depth (call_stack s)
  | RegisterPanic =>
      ∃ fid n dst args, op = Enter fid n dst args ∧ MAX_SIZE < Z.of_nat (top (register_file s) + n)
  | Raised (CbgrPanic a expected actual) =>
      ∃ v, used_reference op s = Some v ∧ decode_cbgr_ref v = (a, expected) ∧
        cbgr_enabled s = true ∧ expected ≠ CBGR_NO_CHECK_GENERATION ∧
        actual = gen s (Z.to_nat a) ∧ expected mod 2 ^ 22 ≠ actual mod 2 ^ 22
  | IndexPanic => ∃ a, used_slot op s = Some a ∧ (slots s ≤ Z.to_nat a)%nat
  | _ => False
  end.

Lemma get_generation_cases rf a : registers_ok rf →
  (Z.to_nat a < capacity rf)%nat ∧ get_generation rf a = Ok (generation rf (Z.to_nat a)) ∨
  (capacity rf ≤ Z.to_nat a)%nat ∧ get_generation rf a = Err IndexPanic.
Proof.
  intros (Hg & _). unfold get_generation, generation.
  destruct (lookup_lt_is_Some (slot_generations rf) (Z.to_nat a)) as [H1 H2].
  destruct (slot_generations rf !! Z.to_nat a) as [g|] eqn:E.
  - left. split; [|done]. rewrite <- Hg. by apply H1.
  - right. split; [|done]. destruct (decide (Z.to_nat a < length (slot_generations rf))%nat) as [H|]; [|lia].
    by destruct (H2 H).
Qed.

Lemma validate_cases s a g : frames_ok s →
  match validate_cbgr_generation s a g with
  | Ok _ => True
  | Err IndexPanic => (slots s ≤ Z.to_nat a)%nat
  | Err (Raised (CbgrPanic a' expected actual)) =>
      a' = a ∧ expected = g ∧ actual = gen s (Z.to_nat a) ∧ cbgr_enabled s = true ∧
      g ≠ CBGR_NO_CHECK_GENERATION ∧ g mod 2 ^ 22 ≠ actual mod 2 ^ 22
  | _ => False
  end.
Proof.
  intros [Hr _]. unfold validate_cbgr_generation. destruct (cbgr_enabled s); [|done]. cbn [negb].
  destruct (Z.eqb_spec g CBGR_NO_CHECK_GENERATION), (Z.eqb_spec g GEN_NO_CHECK); try done. cbn [negb andb].
  destruct (get_generation_cases (register_file s) a Hr) as [[Ha ->]|[Ha ->]]; [|done].
  cbn [mbind outcome_bind]. unfold regref_generation_matches.
  destruct (Z.eqb_spec (Z.land g CBGR_REGREF_GEN_MASK)
    (Z.land (gen s (Z.to_nat a)) CBGR_REGREF_GEN_MASK)) as [|Hne]; [done|].
  cbn [negb]. do 5 (split; [done|]). unfold CBGR_REGREF_GEN_MASK, CBGR_REGREF_GEN_BITS in Hne.
  by rewrite !land_mask in Hne by lia.
Qed.

(** The operations that write one register of the current frame. *)
Definition writes_register (s : FrameState) (o : result FrameState) : Prop :=
  match o with
  | Ok s' => quiet s s' ∧ ∀ a, Z.of_nat a < state_base s → reg_at s' a = reg_at s a
  | _ => True
  end.

Lemma writes_set_reg s s0 r v : frames_ok s → is_u 16 r →
  quiet s s0 → register_file s0 = register_file s →
  writes_register s (Ok (set_reg s0 r v)).
Proof.
  intros Hok Hr Hq Hrf. split; [etrans; [done|apply quiet_set_reg]|].
  intros a Ha. assert (Hb : state_base s0 = state_base s) by (unfold state_base; by rewrite (quiet_stack _ _ Hq)).
  rewrite set_reg_below, Hrf; [done|by eapply quiet_ok|done|by rewrite Hb].
Qed.

(** ** One step of the interpreter's frames

    The summary of every operation ([execute_spec]): it keeps the invariant, or
    fails for the reason its arguments give; it leaves alone what lies below
    the current window, and every frame but the current one. *)

Definition is_deref_mut (op : operation) : bool :=
  match op with DerefMut _ _ => true | _ => false end.

(** A frame without its function and program counter. *)
Definition frame_shape (f : CallFrame) : CallFrame := frame_with_function 0 (reg_count f) f.

(** Frames common to both states are the same, apart from the function and program
    counter of a frame that is or becomes the current one. *)
Definition keeps_frames (s s' : FrameState) : Prop :=
  ∀ i, (i < depth (call_stack s))%nat → (i < depth (call_stack s'))%nat →
    frame_shape <$> frames (call_stack s') !! i = frame_shape <$> frames (call_stack s) !! i ∧
    ((S i < depth (call_stack s))%nat → (S i < depth (call_stack s'))%nat →
     frames (call_stack s') !! i = frames (call_stack s) !! i).

Record step_ok (op : operation) (s s' : FrameState) : Prop := {
  step_effect : effect (bumped op s) s s';
  step_below : is_deref_mut op = false → keeps_below s s';
  step_frames : keeps_frames s s';
}.

Lemma keeps_frames_refl s s' : frames (call_stack s') = frames (call_stack s) → keeps_frames s s'.
Proof. intros E i _ _. by rewrite E. Qed.

(** The frames after a step are a prefix of those before, up to the program
    counter of the last. *)
Lemma keeps_frames_prefix s s' fs gs f g :
  frames (call_stack s) = fs ++ [f] ++ gs → frames (call_stack s') = fs ++ [g] →
  frame_shape g = frame_shape f → keeps_frames s s'.
Proof.
  intros E E' Hpc i _. unfold depth. rewrite E, E', !length_app. cbn. intros Hi.
  destruct (decide (i < length fs)%nat) as [H|H].
  - by rewrite !lookup_app_l by done.
  - assert (i = length fs) as -> by lia. rewrite !list_lookup_middle by done. cbn. split; [by f_equal|lia].
Qed.

Lemma keeps_frames_push s s' gs :
  frames (call_stack s') = frames (call_stack s) ++ gs → keeps_frames s s'.
Proof. intros E i Hi _. rewrite E. by rewrite lookup_app_l. Qed.

Lemma keeps_frames_set_pc s p : keeps_frames s (with_call_stack s (set_pc (call_stack s) p)).
Proof.
  destruct (set_pc_spec (call_stack s) p) as (_ & [[E E']|(fs & f & E & E')]).
  - apply keeps_frames_refl. cbn. by rewrite E'.
  - by apply (keeps_frames_prefix _ _ fs [] f (frame_with_pc p f)).
Qed.

Lemma quiet_step op s s' : frames_ok s → (∀ a, bumped op s a = false) →
  writes_register s (Ok s') → step_ok op s s'.
Proof.
  intros Hok Hb [Hq Hr]. split.
  - eapply effect_mono, quiet_effect; done.
  - intros _ a _ Ha _. by apply Hr.
  - apply keeps_frames_refl. by rewrite (quiet_stack _ _ Hq).
Qed.

Lemma writes_pointers s s' a b c :
  writes_register s (Ok s') → writes_register s (Ok (with_pointers s' a b c)).
Proof. intros [[] H]. by split. Qed.

(** ** Each operation *)
Section steps.
Context (cell : nat → Z) (s : FrameState) (Hok : frames_ok s).

Abbreviation outcome_ok op o :=
  (match o with
   | Ok s' => step_ok op s s'
   | Err f => failure op s f
   | Gas _ => False
   end).

Lemma enter_step fid n dst args :
  operation_ok s (Enter fid n dst args) →
  outcome_ok (Enter fid n dst args) (execute cell (Enter fid n dst args) s).
Proof.
  intros [Hd Hn]. cbn [execute]. pose proof (enter_spec s fid n dst args Hok Hd Hn) as H.
  destruct (enter_function _ _ _ _ _) as [s'|f|] eqn:E; [|destruct f as [[]| | | |]; try done; cbn; eauto 10|done].
  destruct H as (_ & Heff & Hf & _). split; [done| |by eapply keeps_frames_push].
  intros _ a _ Ha _. destruct (state_base_le s Hok) as (b & Eb & Hbt).
  eapply (enter_below s fid n dst args s' a); [done..|lia].
Qed.

Lemma tail_step fid n args :
  operation_ok s (TailCall fid n args) →
  outcome_ok (TailCall fid n args) (execute cell (TailCall fid n args) s).
Proof.
  intros Hop. destruct (tail_call_spec s fid n args Hok Hop) as (Heff & Hf & Hb & _). split.
  - done.
  - intros _ a _ Ha _. by apply Hb.
  - destruct Hf as [[E E']|(fs & f & E & E')]; [apply keeps_frames_refl; by rewrite E, E'|].
    apply (keeps_frames_prefix _ _ fs [] f (frame_with_function fid n f)); [done|done|].
    destruct Hop as [_ Hn]. unfold frame_shape, frame_with_function. cbn.
    rewrite (Hn f); [done|]. unfold current. by rewrite E, last_snoc.
Qed.

Lemma return_step v : outcome_ok (Return v) (execute cell (Return v) s).
Proof.
  cbn [execute]. destruct (do_return_spec cell s v Hok) as (r & s' & -> & Heff & H).
  cbn [mbind outcome_bind]. split; [done| |].
  - intros _ a Ha Hb Hb'. destruct H as [(_ & -> & _)|(fs & f & v' & E & _ & H)]; [done|].
    case_decide as Hfs; [by destruct H as (_ & _ & ->)|]. destruct H as (_ & (gs & g & Efs & Ef') & ->).
    destruct (frames_cases s Hok) as [(E0 & _)|(fs0 & f0 & E0 & Hch & _ & Hcb & Hrr & _)].
    { rewrite E0 in E. by destruct fs. }
    rewrite E in E0. apply app_inj_tail in E0 as [<- <-].
    rewrite list_lookup_insert_ne; [done|]. rewrite Hcb, Efs, base_of_snoc.
    assert (Eb : state_base s' = reg_base g).
    { unfold state_base, current_base, current. by rewrite Ef', last_snoc. }
    rewrite Efs in Hch. apply chain_snoc in Hch as (_ & Hbg & _). unfold slot. intros Hs.
    assert (height gs ≤ top (register_file s))%nat.
    { destruct Hok as (_ & _ & <- & _). rewrite E, Efs, !height_snoc. lia. }
    pose proof (top_bound s Hok). apply u16_small in Hrr. rewrite wrap_id in Hs; [lia|].
    unfold is_u, MAX_SIZE in *. change (2 ^ 32) with 4294967296. lia.
  - destruct H as [(E & _ & E')|(fs & f & v' & E & _ & H)]; [apply keeps_frames_refl; congruence|].
    case_decide as Hfs.
    + destruct H as (_ & E' & _). intros i _. unfold depth. rewrite E', Hfs. cbn. lia.
    + destruct H as (_ & (gs & g & -> & E') & _). rewrite <- app_assoc in E. by eapply keeps_frames_prefix.
Qed.

Lemma unwind_step d p : outcome_ok (Unwind d p) (execute cell (Unwind d p) s).
Proof.
  cbn [execute]. unfold unwind_to_handler. set (k := (depth (call_stack s) - d)%nat).
  destruct (unwind_spec k s Hok) as (s' & -> & Ef & Er & Heff); [lia|]. cbn [mbind outcome_bind].
  assert (Et : take (depth (call_stack s) - k) (frames (call_stack s)) = take d (frames (call_stack s))).
  { subst k. unfold depth. destruct (decide (d ≤ length (frames (call_stack s)))%nat); [f_equal; lia|].
    rewrite !take_ge; done || lia. }
  rewrite Et in *. split.
  - destruct Heff. split; try done. { by apply set_pc_ok. } cbn. by rewrite (proj1 (set_pc_spec _ _)).
  - intros _ a _ _ _. cbn. by rewrite Er.
  - destruct (set_pc_spec (call_stack s') (wrap 32 p)) as (_ & [[E E']|(fs & f & E & E')]).
    + intros i _. unfold depth. cbn. rewrite E'. cbn. lia.
    + rewrite E in Ef. pose proof (take_drop d (frames (call_stack s))) as Htd.
      rewrite <- Ef, <- app_assoc in Htd. by eapply keeps_frames_prefix.
Qed.

(** Operations that validate, read and write one register. *)
Lemma quiet_outcome op o : (∀ a, bumped op s a = false) →
  (∀ s', o = Ok s' → writes_register s (Ok s')) → (∀ f, o = Err f → failure op s f) →
  (∀ k, o ≠ Gas k) → outcome_ok op o.
Proof.
  intros Hb Hw Hf Hg. destruct o as [s'|f|k]; [|by apply Hf|by eapply Hg].
  apply quiet_step; auto.
Qed.

Lemma generation_failure op i f : used_slot op s = Some i →
  get_generation (register_file s) i = Err f → failure op s f.
Proof.
  intros Hu H. destruct (get_generation_cases (register_file s) i (proj1 Hok)) as [[_ E]|[Hi E]];
    rewrite E in H; simplify_eq. by exists i.
Qed.

Lemma generation_gas i k : get_generation (register_file s) i ≠ Gas k.
Proof.
  destruct (get_generation_cases (register_file s) i (proj1 Hok)) as [[_ ->]|[_ ->]]; done.
Qed.

Lemma validation_failure op v f : used_reference op s = Some v →
  used_slot op s = Some (cbgr_regref_abs v) →
  validate_cbgr_generation s (cbgr_regref_abs v) (cbgr_regref_generation v) = Err f → failure op s f.
Proof.
  intros Hv Hu E. pose proof (validate_cases s (cbgr_regref_abs v) (cbgr_regref_generation v) Hok) as H.
  rewrite E in H. destruct f as [[]| | | |]; try done; cbn.
  - destruct H as (-> & -> & -> & H1 & H2 & H3). exists v. done.
  - by eexists.
Qed.

Lemma validate_gas a g k : validate_cbgr_generation s a g ≠ Gas k.
Proof. intros E. pose proof (validate_cases s a g Hok) as H. by rewrite E in H. Qed.

Lemma create_step dst src (mutable : bool) :
  let op := if mutable then RefMut dst src else RefCreate dst src in
  operation_ok s op → outcome_ok op (execute cell op s).
Proof.
  cbv zeta. intros Hop. assert (Hdst : is_u 16 dst) by (by destruct mutable; destruct Hop).
  assert (Hus : used_slot (if mutable then RefMut dst src else RefCreate dst src) s = Some (abs_index s src))
    by by destruct mutable.
  apply quiet_outcome; [by destruct mutable|..].
  - intros s'. destruct mutable; cbn [execute]; unfold handle_ref_mut, handle_ref_create;
      destruct (taken_source s src); [| destruct (is_cbgr_ref _ && is_cbgr_ref_mutable _)| |];
      intros H; invert_ok; try (by apply writes_set_reg).
    by apply writes_pointers, writes_set_reg.
  - intros f. destruct mutable; cbn [execute]; unfold handle_ref_mut, handle_ref_create;
      destruct (taken_source s src); [done|destruct (is_cbgr_ref _ && is_cbgr_ref_mutable _); [done|]|done|];
      intros [E|(? & _ & ?)]%bind_Err; try done; by eapply generation_failure.
  - intros k. destruct mutable; cbn [execute]; unfold handle_ref_mut, handle_ref_create;
      destruct (taken_source s src); [done|destruct (is_cbgr_ref _ && is_cbgr_ref_mutable _); [done|]|done|];
      intros [E|(? & _ & ?)]%bind_Gas; try done; by eapply generation_gas.
Qed.

Lemma deref_step dst src : operation_ok s (Deref dst src) →
  outcome_ok (Deref dst src) (execute cell (Deref dst src) s).
Proof.
  intros [Hd _]. apply quiet_outcome; [done|..]; cbn [execute]; unfold deref_register; cbn [decode_cbgr_ref].
  - intros s' H. invert_ok. by apply writes_set_reg.
  - intros f [E|(u & _ & [E|(? & _ & ?)]%bind_Err)]%bind_Err; [by eapply validation_failure| |done].
    apply ok_or_Err in E as [-> E]. eexists. split; [done|]. by apply lookup_ge_None in E.
  - intros k [E|(u & _ & [E|(? & _ & ?)]%bind_Gas)]%bind_Gas; [by eapply validate_gas| |done].
    unfold get_absolute, ok_or in E. by destruct (_ !! _) in E.
Qed.

Lemma deref_mut_step r src :
  outcome_ok (DerefMut r src) (execute cell (DerefMut r src) s).
Proof.
  cbn [execute]. unfold deref_mut_register. cbn [decode_cbgr_ref].
  destruct (validate_cbgr_generation _ _ _) eqn:E; cbn [mbind outcome_bind];
    [|by eapply validation_failure|by eapply validate_gas].
  unfold set_absolute. destruct (Nat.ltb_spec (Z.to_nat (cbgr_regref_abs (get_reg s r))) (length (registers (register_file s)))).
  - cbn [mbind outcome_bind]. split; [|done|by apply keeps_frames_refl].
    eapply effect_mono, quiet_effect; [done..|]. split; try done. unfold capacity. cbn. by rewrite length_insert.
  - cbn. eexists. done.
Qed.

Lemma chk_step src : outcome_ok (ChkRef src) (execute cell (ChkRef src) s).
Proof.
  apply quiet_outcome; [done|..]; cbn [execute]; unfold chk_ref_register; cbn [decode_cbgr_ref].
  - intros s' H. invert_ok. done.
  - intros f [E|(u & _ & ?)]%bind_Err; [by eapply validation_failure|done].
  - intros k [E|(u & _ & ?)]%bind_Gas; [by eapply validate_gas|done].
Qed.

Lemma drop_step src : operation_ok s (DropRef src) →
  outcome_ok (DropRef src) (execute cell (DropRef src) s).
Proof.
  intros Hs. cbn [execute].
  destruct (decide (Z.to_nat (abs_index s src) < slots s)%nat) as [Hi|Hi].
  - destruct (drop_spec s src Hok Hs Hi) as (s' & -> & Heff & Hcs & Hr).
    split; [done| |by apply keeps_frames_refl; rewrite Hcs]. intros _ a _ Ha _. by apply Hr.
  - unfold drop_register, bump_generation.
    destruct (get_generation_cases (register_file s) (abs_index s src) (proj1 Hok)) as [[? _]|[Hge ->]]; [lia|].
    cbn. eexists. done.
Qed.

(** Every operation either fails for its reason or has its effect. *)
Lemma execute_spec op : operation_ok s op → outcome_ok op (execute cell op s).
Proof.
  intros Hop. destruct op.
  - by apply enter_step.
  - by apply tail_step.
  - apply return_step.
  - apply unwind_step.
  - apply quiet_step; [done..|]. by apply writes_set_reg.
  - split; [|done|apply keeps_frames_set_pc].
    destruct (quiet_effect s s Hok ltac:(reflexivity)). split; try done; [by apply set_pc_ok|].
    by apply set_pc_spec.
  - by apply (create_step dst src false).
  - by apply (create_step dst src true).
  - apply quiet_step; [done..|]. destruct Hop. by apply writes_set_reg.
  - apply quiet_step; [done..|]. destruct Hop. by apply writes_set_reg.
  - by apply deref_step.
  - apply deref_mut_step.
  - apply chk_step.
  - by apply drop_step.
Qed.

Lemma execute_Ok op s' : operation_ok s op → execute cell op s = Ok s' → step_ok op s s'.
Proof. intros Hop E. pose proof (execute_spec op Hop) as H. by rewrite E in H. Qed.
End steps.
