(* ===== verification/FrameFacts.v ===== *)
(** * Correctness of calls, returns and register references

    No sequence of operations breaks the frames or indexes out of the register
    file by itself ([frames_safe]); a call leaves its caller as it was
    ([call_preserves_caller], with the arguments of [enter_arguments]); a
    register reference is refused exactly when the generation of its slot has
    moved on, up to the width of its field and the sentinel
    ([register_reference_exact], [sentinel_generation]); a reset keeps the
    generic witnesses ([reset_keeps_witnesses]). *)

From S2P Require Import Prelude Words Encoding TypeRefs NanBox NanBoxFacts Registers FrameInvariant.
From S2P Require Import Frames FrameEffects.

(** ** Reachable states *)

(** Runs of operations with operands as [operation_ok] asks where they are executed. *)
Fixpoint operations_ok (cell : nat → Z) (ops : list operation) (s : FrameState) : Prop :=
  match ops with
  | [] => True
  | op :: ops =>
      operation_ok s op ∧
      match execute cell op s with Ok s' => operations_ok cell ops s' | _ => True end
  end.

Lemma execute_all_ok cell ops s s' : frames_ok s → operations_ok cell ops s →
  execute_all cell ops s = Ok s' → frames_ok s' ∧ cbgr_enabled s' = cbgr_enabled s ∧ (slots s ≤ slots s')%nat.
Proof.
  revert s. induction ops as [|op ops IH]; intros s Hok Hops; cbn [execute_all].
  { intros [= <-]. done. }
  intros (s1 & E & H)%bind_Ok. destruct Hops as [Hop Hops]. rewrite E in Hops.
  destruct (execute_Ok cell s Hok op s1 Hop E) as [[H1 H2 H3 _ _ _] _ _].
  destruct (IH s1 H1 Hops H) as (? & ? & ?). split_and!; [done|congruence|lia].
Qed.

Lemma initial_ok n depth : Z.of_nat n ≤ MAX_SIZE → frames_ok (initial_state (with_capacity n) depth).
Proof. intros H. split; [by apply with_capacity_ok|]. cbn. split_and!; done || lia. Qed.

(** C30. In every state a program can reach from the start whose tail calls go to
    functions with as many registers as the frame they replace (the handler does not
    check this, see [tail_call_outgrows]), the windows of the
    frames tile the register file up to its top within the depth limit, and the
    next operation, with the same condition on a tail call, keeps this or fails for a reason its arguments give: a full
    call stack or register file on a call, a stale reference on a checked
    use, a slot outside the file named by an operand.  No operation underflows
    the call stack, and a reset keeps the invariant as well. *)
Theorem frames_safe cell capacity max_depth ops s op :
  Z.of_nat capacity ≤ MAX_SIZE →
  operations_ok cell ops (initial_state (with_capacity capacity) max_depth) → operation_ok s op →
  execute_all cell ops (initial_state (with_capacity capacity) max_depth) = Ok s →
  frames_ok s ∧ frames_ok (reset s) ∧
  match execute cell op s with
  | Ok s' => frames_ok s'
  | Err f => failure op s f
  | Gas _ => False
  end.
Proof.
  intros Hc Hops Hop E. apply (initial_ok _ max_depth) in Hc.
  destruct (execute_all_ok cell ops _ s Hc Hops E) as (Hok & _). split; [done|]. split.
  - destruct Hok as ((H1 & H2 & H3 & _ & H4) & _). unfold frames_ok, registers_ok. cbn.
    split_and!; done || lia.
  - pose proof (execute_spec cell s Hok op Hop) as H. destruct (execute cell op s); [|done..].
    by destruct H as [[]].
Qed.

(** ** Calls *)

(** A call gives the callee its arguments in order and unit values in its other
    registers, starts it at its first instruction, and records where and in
    which register to return. *)
Theorem enter_arguments s fid n dst args s' :
  frames_ok s → is_u 16 dst → is_u 16 (count args) → 0 ≤ start args →
  state_base s + start args + count args ≤ Z.of_nat (top (register_file s)) →
  start args + count args ≤ 2 ^ 16 → count args ≤ Z.of_nat n →
  enter_function s fid n dst args = Ok s' →
  current (call_stack s') = Some (new_frame fid (Z.of_nat (top (register_file s))) n
    (pc (call_stack s)) dst (state_base s)) ∧
  ∀ j, 0 ≤ j < Z.of_nat n → get_reg s' j =
    if j <? count args then get_reg s (start args + j) else unit_value.
Proof.
  intros Hok Hdst Hcnt Hst Htop H16 Hn E. pose proof (enter_spec s fid n dst args Hok Hdst Hcnt) as H.
  rewrite E in H. destruct H as (_ & Heff & Hf & _ & _ & _ & _ & rf & Hp & Hrf).
  assert (Hcur : current (call_stack s') = Some (new_frame fid (Z.of_nat (top (register_file s))) n
    (pc (call_stack s)) dst (state_base s))) by (unfold current; by rewrite Hf, last_snoc).
  split; [done|]. intros j Hj. pose proof (top_bound s Hok) as Hb.
  destruct (state_base_le s Hok) as (b & Eb & Hbt). apply u16_small in Hcnt.
  pose proof (try_push_frame_spec (register_file s) n (proj1 Hok)) as Hs. rewrite Hp in Hs.
  destruct Hs as (Hm & _ & Hrok & Ht & Hcap & Hunit & Hold).
  assert (H32 : ∀ z, 0 ≤ z ≤ MAX_SIZE → wrap 32 z = z).
  { intros z Hz. apply wrap_id. unfold is_u, MAX_SIZE in *. change (2 ^ 32) with 4294967296. lia. }
  assert (Hs16 : ∀ i, 0 ≤ i < count args → wrap 16 (start args + i) = start args + i).
  { intros i Hi. apply wrap_id. unfold is_u. lia. }
  assert (Hsl : ∀ i, 0 ≤ i < count args →
    slot (state_base s) (start args + i) = Z.to_nat (state_base s + start args + i)).
  { intros i Hi. unfold slot. rewrite H32 by lia. f_equal. lia. }
  destruct (copy_arguments_spec (state_base s) (top (register_file s)) (start args) rf 0 (Z.to_nat (count args)))
    as (_ & _ & _ & _ & C5 & C6).
  { unfold MAX_SIZE in *. change (2 ^ 32) with 4294967296. lia. }
  assert (Hget : get_reg s' j = default unit_value (reg_at s' (top (register_file s) + Z.to_nat j)%nat)).
  { unfold get_reg, get, state_base, current_base. rewrite Hcur. cbn. unfold slot. rewrite H32 by lia.
    do 2 f_equal. lia. }
  rewrite Hget, Hrf. destruct (Z.ltb_spec j (count args)).
  - rewrite C6; [| |intros i Hi; rewrite Hs16, Hsl by lia; lia|lia].
    + rewrite Z2Nat.id, Hs16 by lia. unfold get_reg, get. cbn [default]. rewrite Hsl by lia.
      f_equal. pose proof Hok as ((_ & _ & _ & Htc & _) & _).
      destruct (Hold (Z.to_nat (state_base s + start args + j)) ltac:(lia)) as [Hv _].
      unfold in_range in Hv. rewrite (proj2 (Nat.leb_gt _ _)) in Hv by lia. cbn in Hv. by rewrite Hv.
    + destruct Hrok as (_ & _ & _ & Htr & _). lia.
  - rewrite C5 by lia. by rewrite Hunit by lia.
Qed.

(** The body of a call: more than [d] frames throughout, no write through a
    mutable reference. *)
Fixpoint inside (cell : nat → Z) (d : nat) (ops : list operation) (s : FrameState) : bool :=
  match ops with
  | [] => true
  | op :: ops =>
      negb (is_deref_mut op) &&
      match execute cell op s with
      | Ok s' => (d <? depth (call_stack s'))%nat && inside cell d ops s'
      | _ => false
      end
  end.

Lemma base_above s d f : frames_ok s → frames (call_stack s) !! d = Some f →
  reg_base f ≤ state_base s ∧ ∃ b, reg_base f = Z.of_nat b ∧ b = height (take d (frames (call_stack s))).
Proof.
  intros (_ & Hc & _) Hf. unfold state_base, current_base, current.
  assert (E := take_drop_middle _ _ _ Hf). rewrite <- E in Hc. apply chain_app in Hc as [Hc1 (Hb & _ & _ & Hc2)].
  rewrite Nat.add_0_l in Hb, Hc2. split; [|eauto]. rewrite <- E, last_app, last_cons.
  destruct (drop (S d) (frames (call_stack s))) as [|g gs _] eqn:Ed using rev_ind; [done|].
  rewrite last_snoc. cbn. rewrite chain_app in Hc2. cbn in Hc2. lia.
Qed.

Lemma bumped_below cell s op s' a : frames_ok s → operation_ok s op → execute cell op s = Ok s' →
  Z.of_nat a < state_base s → Z.of_nat a < state_base s' → bumped op s a = false.
Proof.
  intros Hok Hop E Ha Ha'. destruct (state_base_le s Hok) as (b & Eb & Hb).
  destruct op; try done; cbn [bumped]; unfold in_range.
  - by rewrite (proj2 (Nat.leb_gt _ _)) by lia.
  - by rewrite (proj2 (Nat.leb_gt _ _)) by lia.
  - cbn [execute] in E. unfold unwind_to_handler in E. apply bind_Ok in E as (s1 & E1 & [= <-]).
    destruct (unwind_spec (depth (call_stack s) - stack_depth) s Hok) as (s2 & E2 & Ef & _ & [Hok2 _]); [lia|].
    rewrite E1 in E2. injection E2 as <-.
    assert (Hb' : state_base (with_call_stack s1 (set_pc (call_stack s1) (wrap 32 handler_pc))) = state_base s1)
      by apply set_pc_base.
    rewrite Hb' in Ha'. destruct (state_base_le s1 Hok2) as (b1 & Eb1 & Hb1).
    destruct Hok2 as (_ & _ & Hh2 & _).
    assert (height (take stack_depth (frames (call_stack s))) = height (frames (call_stack s1))) as ->.
    { rewrite Ef. unfold depth. destruct (decide (stack_depth ≤ length (frames (call_stack s)))%nat).
      - f_equal. f_equal. lia.
      - f_equal. rewrite !take_ge; done || lia. }
    by rewrite (proj2 (Nat.leb_gt _ _)) by lia.
  - destruct (slot_spec s src Hok Hop) as (_ & -> & _). apply Nat.eqb_neq. apply u16_small in Hop. lia.
Qed.

(** What a body keeps: the frames below, the current one up to its counter, and
    every slot below its window. *)
Record kept (d : nat) (s s' : FrameState) : Prop := {
  kept_ok : frames_ok s';
  kept_depth : (d < depth (call_stack s'))%nat;
  kept_below i : (i < d)%nat → frames (call_stack s') !! i = frames (call_stack s) !! i;
  kept_frame : frame_shape <$> frames (call_stack s') !! d =
    frame_shape <$> frames (call_stack s) !! d;
  kept_slots : (slots s ≤ slots s')%nat;
  kept_values a f : frames (call_stack s) !! d = Some f → (a < slots s)%nat → Z.of_nat a < reg_base f →
    reg_at s' a = reg_at s a ∧ gen s' a = gen s a;
}.

Lemma frame_at_base s s' d f f' : frames (call_stack s) !! d = Some f →
  frames (call_stack s') !! d = Some f' →
  frame_shape <$> frames (call_stack s') !! d = frame_shape <$> frames (call_stack s) !! d →
  reg_base f' = reg_base f.
Proof. intros -> -> [= H]. done. Qed.

Lemma inside_kept cell d ops s s' : frames_ok s → operations_ok cell ops s →
  (d < depth (call_stack s))%nat → inside cell d ops s = true → execute_all cell ops s = Ok s' →
  kept d s s'.
Proof.
  revert s. induction ops as [|op ops IH]; intros s Hok Hops Hd; cbn [inside execute_all].
  { intros _ [= <-]. by split. }
  destruct Hops as [Hop Hops]. intros [Hm Hin]%andb_prop (s1 & E & H)%bind_Ok.
  rewrite E in Hin, Hops. apply andb_prop in Hin as [Hd1%Nat.ltb_lt Hin].
  apply negb_true_iff in Hm.
  destruct (execute_Ok cell s Hok op s1 Hop E) as [[Hok1 Hs1 _ _ Hg _] Hbelow Hfr].
  destruct (IH s1 Hok1 Hops Hd1 Hin H) as [K1 K2 K3 K4 K5 K6].
  destruct (Hfr d Hd Hd1) as [Hfd _]. split; try done || lia.
  - intros i Hi. rewrite K3 by done. apply Hfr; lia.
  - by rewrite K4.
  - intros a f Hf Ha Hlt. destruct (lookup_lt_is_Some_2 (frames (call_stack s1)) d Hd1) as [f1 Hf1].
    assert (Hb1 : reg_base f1 = reg_base f) by by eapply frame_at_base.
    destruct (base_above s d f Hok Hf) as [Hab _]. destruct (base_above s1 d f1 Hok1 Hf1) as [Hab1 _].
    destruct (K6 a f1 Hf1 ltac:(lia) ltac:(lia)) as [-> ->].
    split; [apply Hbelow; done || lia|]. apply Hg; [done|]. eapply bumped_below; done || lia.
Qed.

(** Returning from a frame that a call of [s] pushed restores the frames of [s]. *)
Lemma return_restores cell s s2 fid n dst v f' r s3 :
  frames_ok s → (0 < depth (call_stack s))%nat → frames_ok s2 →
  frames (call_stack s2) = frames (call_stack s) ++ [f'] →
  frame_shape f' = frame_shape (new_frame fid (Z.of_nat (top (register_file s))) n
    (pc (call_stack s)) dst (state_base s)) →
  do_return cell s2 v = Ok (r, s3) →
  r = Continue ∧ frames (call_stack s3) = frames (call_stack s) ∧
  top (register_file s3) = top (register_file s) ∧ state_base s2 = Z.of_nat (top (register_file s)) ∧
  effect (bumped (Return v) s2) s2 s3 ∧
  ∃ v', returns_as cell s2 v v' (escape_cells s3) ∧
    registers (register_file s3) = <[slot (state_base s) dst := v']> (registers (register_file s2)).
Proof.
  intros Hok Hd Hok2 Hf2 [= Foe Fb Fc Frp Frr Fcb] E3.
  destruct (do_return_spec cell s2 v Hok2) as (r' & s3' & E3' & Heff & H).
  rewrite E3 in E3'. injection E3' as <- <-.
  destruct H as [(Hnil & _)|(fs & f2 & v' & Hfs & Hv' & H)]; [by rewrite Hf2 in Hnil; destruct (frames (call_stack s))|].
  rewrite Hf2 in Hfs. apply app_inj_tail in Hfs as [<- <-].
  rewrite decide_False in H by (unfold depth in Hd; intros E; rewrite E in Hd; cbn in Hd; lia).
  destruct H as (-> & (gs & g & Egs & Ef3) & Hr3). split; [done|].
  assert (Epc : pc (call_stack s) = frame_pc g) by (unfold pc, current; by rewrite Egs, last_snoc).
  assert (Hf3 : frames (call_stack s3) = frames (call_stack s)).
  { rewrite Ef3, Egs, Frp. cbn. rewrite Epc. by destruct g. }
  split; [done|]. split.
  { destruct (effect_ok _ _ _ Heff) as (_ & _ & <- & _), Hok as (_ & _ & <- & _). by rewrite Hf3. }
  split. { unfold state_base, current_base, current. rewrite Hf2, last_snoc. cbn. by rewrite Fb. }
  split; [done|]. exists v'. split; [done|]. by rewrite Hr3, Fcb, Frr.
Qed.

(** The frames between a call and its return. *)
Lemma kept_frames s f s1 s2 :
  frames (call_stack s1) = frames (call_stack s) ++ [f] →
  kept (depth (call_stack s)) s1 s2 → depth (call_stack s2) = S (depth (call_stack s)) →
  ∃ f', frames (call_stack s2) = frames (call_stack s) ++ [f'] ∧ frame_shape f' = frame_shape f.
Proof.
  intros Hf1 [_ _ K3 K4 _ _] Hd2. set (d := depth (call_stack s)) in *.
  assert (Hf1d : frames (call_stack s1) !! d = Some f) by (rewrite Hf1; by apply list_lookup_middle).
  destruct (lookup_lt_is_Some_2 (frames (call_stack s2)) d) as [f' Hf']; [unfold depth in Hd2; lia|].
  exists f'. split; [|rewrite Hf', Hf1d in K4; by apply (inj Some)].
  rewrite <- (take_drop_middle _ _ _ Hf'). f_equal.
  - apply list_eq. intros i. destruct (decide (i < d)%nat).
    + rewrite lookup_take_lt, K3, Hf1 by done. by rewrite lookup_app_l.
    + rewrite (proj2 (lookup_ge_None _ _)) by (rewrite length_take; lia).
      symmetry. apply lookup_ge_None. unfold d, depth in *. lia.
  - f_equal. apply nil_length_inv. rewrite length_drop. unfold depth in Hd2. lia.
Qed.

(** C28. A call whose body writes through no mutable reference returns to its
    caller with the same frames, the same instruction, and the same registers
    and generations in every slot up to the caller's top, the return register
    apart.  That holds the value returned or, when this is a reference into the
    callee's own window, a heap reference to a new cell that holds what it pointed to
    ([returns_as]).  Tail calls in the body go to functions with as many registers as
    the frame they replace. *)
Theorem call_preserves_caller cell s fid n dst args body v s1 s2 s3 r :
  frames_ok s → (0 < depth (call_stack s))%nat →
  is_u 16 dst → is_u 16 (count args) →
  enter_function s fid n dst args = Ok s1 → operations_ok cell body s1 →
  inside cell (depth (call_stack s)) body s1 = true → execute_all cell body s1 = Ok s2 →
  depth (call_stack s2) = S (depth (call_stack s)) →
  do_return cell s2 v = Ok (r, s3) →
  r = Continue ∧ frames (call_stack s3) = frames (call_stack s) ∧
  top (register_file s3) = top (register_file s) ∧
  ∃ v', returns_as cell s2 v v' (escape_cells s3) ∧
  ∀ a, (a < top (register_file s))%nat →
    reg_at s3 a = (if Z.of_nat a =? state_base s + dst then Some v' else reg_at s a) ∧
    gen s3 a = gen s a.
Proof.
  intros Hok Hd Hdst Hcnt E1 Hbody Hin E2 Hd2 E3. set (d := depth (call_stack s)) in *.
  pose proof (enter_spec s fid n dst args Hok Hdst Hcnt) as H. rewrite E1 in H.
  destruct H as (_ & Heff & Hf1 & _). set (f := new_frame _ _ _ _ _ _) in Hf1.
  pose proof (enter_step cell s Hok fid n dst args (conj Hdst Hcnt)) as Hst.
  cbn [execute] in Hst. rewrite E1 in Hst. destruct Hst as [[Hok1 Hs1 _ _ Hg1 _] Hb1 _].
  assert (Hf1d : frames (call_stack s1) !! d = Some f) by (rewrite Hf1; by apply list_lookup_middle).
  assert (Hd1 : (d < depth (call_stack s1))%nat).
  { subst d. unfold depth. rewrite Hf1, length_app. cbn. lia. }
  assert (K := inside_kept cell d body s1 s2 Hok1 Hbody Hd1 Hin E2).
  destruct (kept_frames s f s1 s2 Hf1 K Hd2) as (f' & Hf2 & Hff). destruct K as [Hok2 _ _ _ K5 K6].
  destruct (return_restores cell s s2 fid n dst v f' r s3 Hok Hd Hok2 Hf2 Hff E3)
    as (-> & Hf3 & Ht3 & Hb2' & [Hok3 Hs3 _ _ Hg3 _] & v' & Hv' & Hr3).
  do 3 (split; [done|]). exists v'. split; [done|]. intros a Ha.
  pose proof Hok as ((_ & _ & _ & Htc & _) & _).
  destruct (K6 a f Hf1d ltac:(lia) ltac:(cbn; lia)) as [Kv Kg].
  destruct (state_base_le s Hok) as (b & Eb & Hb). pose proof (top_bound s Hok) as Hm.
  destruct (enter_below s fid n dst args s1 a Hok Hdst Hcnt E1 Ha) as [Hv1 Hg1'].
  split.
  - rewrite Hr3, list_lookup_insert. unfold slot. apply u16_small in Hdst.
    rewrite wrap_id by (unfold is_u, MAX_SIZE in *; change (2 ^ 32) with 4294967296; lia).
    rewrite Kv, Hv1. destruct (Z.eqb_spec (Z.of_nat a) (state_base s + dst)).
    + rewrite decide_True; [done|]. unfold capacity in *. lia.
    + by rewrite decide_False by lia.
  - rewrite Hg3, Kg, Hg1'; [done|lia|]. cbn [bumped]. unfold in_range. rewrite Hb2'.
    by rewrite (proj2 (Nat.leb_gt _ _)) by lia.
Qed.

(** ** References to registers *)

(** How often the slot [a] is given out, taken back or dropped in a run. *)
Fixpoint bumps (cell : nat → Z) (a : nat) (ops : list operation) (s : FrameState) : Z :=
  match ops with
  | [] => 0
  | op :: ops =>
      Z.b2z (bumped op s a) +
      match execute cell op s with Ok s' => bumps cell a ops s' | _ => 0 end
  end.

Lemma bumps_nonneg cell a ops s : 0 ≤ bumps cell a ops s.
Proof.
  revert s. induction ops as [|op ops IH]; intros s; cbn [bumps]; [done|].
  assert (0 ≤ Z.b2z (bumped op s a)) by by destruct (bumped op s a).
  destruct (execute cell op s) as [s'| |]; [specialize (IH s')|..]; lia.
Qed.

Lemma generation_run cell a ops s s' : frames_ok s → operations_ok cell ops s →
  execute_all cell ops s = Ok s' → (a < slots s)%nat → gen s a + bumps cell a ops s ≤ GEN_MAX →
  gen s' a = gen s a + bumps cell a ops s.
Proof.
  revert s. induction ops as [|op ops IH]; intros s Hok Hops; cbn [execute_all bumps].
  { intros [= <-]. lia. }
  intros (s1 & E & H)%bind_Ok Ha. destruct Hops as [Hop Hops]. rewrite E in Hops |- *.
  destruct (execute_Ok cell s Hok op s1 Hop E) as [[Hok1 Hs1 _ _ Hg Hb] _ _].
  pose proof (bumps_nonneg cell a ops s1) as Hn. intros Hm.
  assert (Hg1 : gen s1 a = gen s a + Z.b2z (bumped op s a)).
  { destruct (bumped op s a) eqn:Eb; cbn in *; [apply Hb; done || lia|rewrite Hg; done || lia]. }
  rewrite (IH s1); done || lia.
Qed.

(** Checking a reference made at generation [g] against generation [g']. *)
Lemma chk_reference s a g : frames_ok s → (a < slots s)%nat → cbgr_enabled s = true →
  chk_ref_register s (encode_cbgr_ref (Z.of_nat a) g) =
  if (g mod 2 ^ 22 =? GEN_NO_CHECK) || ((gen s a - g) mod 2 ^ 22 =? 0) then Ok tt
  else Err (Raised (CbgrPanic (Z.of_nat a) (g mod 2 ^ 22) (gen s a))).
Proof.
  intros Hok Ha He. pose proof Hok as ((_ & _ & Hm & _) & _).
  destruct (regref_word (Z.of_nat a) g false) as (_ & _ & Eabs & Eg & _).
  { unfold capacity, MAX_SIZE in *. change (2 ^ 24) with 16777216. lia. }
  unfold chk_ref_register, encode_cbgr_ref. cbn [decode_cbgr_ref]. rewrite Eabs, Eg.
  unfold validate_cbgr_generation. rewrite He. cbn [negb].
  change CBGR_NO_CHECK_GENERATION with GEN_NO_CHECK.
  destruct (Z.eqb_spec (g mod 2 ^ 22) GEN_NO_CHECK); cbn [negb andb orb]; [done|].
  rewrite get_generation_ok by done || apply Hok. cbn [mbind outcome_bind].
  unfold regref_generation_matches, CBGR_REGREF_GEN_MASK, CBGR_REGREF_GEN_BITS.
  rewrite !land_mask, Z.mod_mod by lia.
  assert (Hiff : (g mod 2 ^ 22 =? gen s a mod 2 ^ 22) = ((gen s a - g) mod 2 ^ 22 =? 0)).
  { apply eq_bool_prop_intro. rewrite !Is_true_true, !Z.eqb_eq. split.
    - intros E. by rewrite Zminus_mod, <- E, Z.sub_diag, Zmod_0_l.
    - intros E. replace (gen s a) with (g + (gen s a - g)) by lia.
      by rewrite <- Zplus_mod_idemp_r, E, Z.add_0_r. }
  rewrite Hiff. by destruct ((gen s a - g) mod 2 ^ 22 =? 0).
Qed.

(** C29. While checking is enabled and the generation of its slot has not gone past
    [GEN_MAX], a shared reference to a register is accepted exactly when its slot has
    been given out, taken back or dropped a multiple of 2^22 times since it was made,
    or when the generation at which it was made is, in 22 bits, the sentinel of
    unchecked references; otherwise the use fails and names the slot and both
    generations.  Any operations may run in between, tail calls to functions with as
    many registers as the current frame included; a tail call moves no generation. *)
Theorem register_reference_exact cell s dst src ops s1 s2 :
  frames_ok s → cbgr_enabled s = true → is_u 16 dst → is_u 16 src →
  taken_source s src = None →
  handle_ref_create s dst src = Ok s1 → operations_ok cell ops s1 → execute_all cell ops s1 = Ok s2 →
  let a := Z.to_nat (abs_index s src) in
  let g := gen s a in
  let k := bumps cell a ops s1 in
  g + k ≤ GEN_MAX →
  s1 = set_reg (with_pointers s None (cbgr_ref_creation_epoch s) (cbgr_mutable_ptrs s)) dst
         (encode_cbgr_ref (Z.of_nat a) g) ∧
  chk_ref_register s2 (encode_cbgr_ref (Z.of_nat a) g) =
    if (g mod 2 ^ 22 =? GEN_NO_CHECK) || (k mod 2 ^ 22 =? 0) then Ok tt
    else Err (Raised (CbgrPanic (Z.of_nat a) (g mod 2 ^ 22) (g + k))).
Proof.
  intros Hok He Hdst Hsrc Hts E1 Hops E2. cbv zeta. set (a := Z.to_nat (abs_index s src)).
  destruct (slot_spec s src Hok Hsrc) as (_ & Ei & H0).
  assert (Ha : abs_index s src = Z.of_nat a) by (subst a; rewrite Ei; apply u16_small in Hsrc; lia).
  pose proof (create_step cell s Hok dst src false (conj Hdst Hsrc)) as Hst. cbn [execute] in Hst.
  rewrite E1 in Hst. destruct Hst as [[Hok1 Hs1 He1 _ Hg1 _] _ _].
  unfold handle_ref_create in E1. rewrite Hts in E1. apply bind_Ok in E1 as (g & Eg & [= E1]).
  change (get_generation (register_file s) (abs_index s src) = Ok g) in Eg.
  destruct (get_generation_cases (register_file s) (abs_index s src) (proj1 Hok)) as [[Hc Eg']|[_ Eg']];
    rewrite Eg' in Eg; [injection Eg as <-|discriminate].
  fold a in Hc. intros Hk. split; [rewrite <- E1, <- Ha; done|].
  destruct (execute_all_ok cell ops s1 s2 Hok1 Hops E2) as (Hok2 & He2 & Hs2).
  rewrite chk_reference; [|done|lia|congruence]. rewrite <- (Hg1 a Hc eq_refl) in Hk.
  rewrite (generation_run cell a ops s1 s2 Hok1 Hops E2 ltac:(lia) Hk), (Hg1 a Hc eq_refl).
  by replace (gen s a + bumps cell a ops s1 - gen s a) with (bumps cell a ops s1) by lia.
Qed.

(** ** The sentinel generation *)

(** A call and its return. *)
Lemma cycle cell s fid n dst args v : frames_ok s →
  is_u 16 dst → is_u 16 (count args) →
  (0 < depth (call_stack s) < max_depth (call_stack s))%nat →
  Z.of_nat (top (register_file s) + n) ≤ MAX_SIZE →
  ∃ s1 s', execute cell (Enter fid n dst args) s = Ok s1 ∧ execute cell (Return v) s1 = Ok s' ∧
    frames_ok s1 ∧ frames_ok s' ∧ cbgr_enabled s1 = cbgr_enabled s ∧ cbgr_enabled s' = cbgr_enabled s ∧
    (slots s ≤ slots s1)%nat ∧ (slots s ≤ slots s')%nat ∧
    frames (call_stack s') = frames (call_stack s) ∧ top (register_file s') = top (register_file s) ∧
    max_depth (call_stack s') = max_depth (call_stack s) ∧
    ∀ a, in_range (top (register_file s)) (top (register_file s) + n) a = true → (a < slots s)%nat →
      gen s a + 2 ≤ GEN_MAX → gen s1 a = gen s a + 1 ∧ gen s' a = gen s a + 2.
Proof.
  intros Hok Hdst Hcnt Hd Hm. pose proof (enter_spec s fid n dst args Hok Hdst Hcnt) as H. cbn [execute].
  destruct (enter_function s fid n dst args) as [s1|[[]| | | |]|]; try (lia || done).
  destruct H as (_ & [Hok1 Hs1 He1 Hm1 _ Hb1] & Hf1 & _).
  destruct (do_return_spec cell s1 v Hok1) as (r & s' & E & _).
  assert (Er : execute cell (Return v) s1 = Ok s') by (cbn [execute]; by rewrite E).
  exists s1, s'. do 2 (split; [done|]).
  destruct (return_restores cell s s1 fid n dst v _ r s' Hok ltac:(lia) Hok1 Hf1 eq_refl E)
    as (_ & Hf & Ht & Hb & [Hok2 Hs2 He2 Hm2 _ Hb2] & _).
  split_and!; try (done || lia || congruence). intros a Ha Hlt Hg.
  assert (E1 : gen s1 a = gen s a + 1) by (apply Hb1; done || lia). split; [done|].
  rewrite Hb2; [lia|lia| |lia]. cbn [bumped]. rewrite Hb, Nat2Z.id.
  destruct Hok1 as (_ & _ & <- & _). rewrite Hf1, height_snoc. destruct Hok as (_ & _ & -> & _). done.
Qed.

Lemma execute_all_app cell ops1 ops2 s :
  execute_all cell (ops1 ++ ops2) s = (s ← execute_all cell ops1 s; execute_all cell ops2 s).
Proof.
  revert s. induction ops1 as [|op ops1 IH]; intros s; cbn; [done|].
  destruct (execute cell op s); cbn; [apply IH|done|done].
Qed.

(** [k] calls and returns one after another. *)
Definition calls (k : nat) (call : operation) (v : Value) : list operation :=
  concat (replicate k [call; Return v]).

Lemma cycles cell k s fid n dst args v : frames_ok s →
  is_u 16 dst → is_u 16 (count args) →
  (0 < depth (call_stack s) < max_depth (call_stack s))%nat →
  Z.of_nat (top (register_file s) + n) ≤ MAX_SIZE →
  ∃ s', execute_all cell (calls k (Enter fid n dst args) v) s = Ok s' ∧
    frames_ok s' ∧ cbgr_enabled s' = cbgr_enabled s ∧ (slots s ≤ slots s')%nat ∧
    frames (call_stack s') = frames (call_stack s) ∧ top (register_file s') = top (register_file s) ∧
    max_depth (call_stack s') = max_depth (call_stack s) ∧
    ∀ a, in_range (top (register_file s)) (top (register_file s) + n) a = true → (a < slots s)%nat →
      gen s a + 2 * Z.of_nat k ≤ GEN_MAX → gen s' a = gen s a + 2 * Z.of_nat k.
Proof.
  intros Hok Hdst Hcnt Hd Hm. revert s Hok Hd Hm. induction k as [|k IH]; intros s Hok Hd Hm.
  { exists s. split_and!; try done. intros. lia. }
  destruct (cycle cell s fid n dst args v Hok Hdst Hcnt Hd Hm)
    as (s1 & s2 & E1 & E2 & _ & Hok2 & _ & He2 & _ & Hs2 & Hf2 & Ht2 & Hm2 & Hg2).
  destruct (IH s2 Hok2) as (s' & E & Hok' & He & Hs & Hf & Ht & Hm' & Hg);
    [unfold depth in *; by rewrite Hf2, Hm2|by rewrite Ht2|].
  exists s'. split.
  { unfold calls. cbn [replicate concat app execute_all]. rewrite E1. cbn [mbind outcome_bind].
    rewrite E2. cbn [mbind outcome_bind]. exact E. }
  split_and!; try (done || lia || congruence). intros a Ha Hlt Hk.
  destruct (Hg2 a Ha Hlt ltac:(lia)) as [_ Eg]. rewrite Hg; [lia|by rewrite Ht2|lia|lia].
Qed.

(** The generation that marks unchecked references is also a generation that
    slots reach: in the 16383rd call made from the same frame, each register of
    the callee that started out fresh has generation 0x7FFE, and a reference
    made then is still accepted after that call has returned and the slot has
    been given to the next call. *)
Theorem sentinel_generation cell s fid n dst args v a :
  frames_ok s → cbgr_enabled s = true → is_u 16 dst → is_u 16 (count args) →
  (0 < depth (call_stack s) < max_depth (call_stack s))%nat →
  Z.of_nat (top (register_file s) + n) ≤ MAX_SIZE →
  in_range (top (register_file s)) (top (register_file s) + n) a = true → (a < slots s)%nat →
  gen s a = GEN_INITIAL →
  let call := Enter fid n dst args in
  ∃ s1 s2, execute_all cell (calls (Z.to_nat 16382) call v ++ [call]) s = Ok s1 ∧
    execute_all cell [Return v; call] s1 = Ok s2 ∧
    gen s1 a = GEN_NO_CHECK ∧ gen s2 a = GEN_NO_CHECK + 2 ∧
    chk_ref_register s2 (encode_cbgr_ref (Z.of_nat a) (gen s1 a)) = Ok tt.
Proof.
  intros Hok He Hdst Hcnt Hd Hm Ha Hlt Hg. cbv zeta.
  destruct (cycles cell (Z.to_nat 16382) s fid n dst args v Hok Hdst Hcnt Hd Hm)
    as (s0 & E0 & Hok0 & He0 & Hs0 & Hf0 & Ht0 & Hm0 & Hg0).
  rewrite Z2Nat.id in Hg0 by done. set (k := Z.to_nat 16382) in *. clearbody k.
  assert (G0 : gen s0 a = 32765) by (rewrite Hg0; [rewrite Hg; done|done|done|rewrite Hg; done]).
  assert (Hd0 : (0 < depth (call_stack s0) < max_depth (call_stack s0))%nat)
    by (unfold depth in *; by rewrite Hf0, Hm0).
  destruct (cycle cell s0 fid n dst args v Hok0 Hdst Hcnt Hd0 ltac:(by rewrite Ht0))
    as (s1 & s2 & E1 & E2 & _ & Hok2 & He1 & He2 & Hs1 & Hs2 & Hf2 & Ht2 & Hm2 & Hg2).
  destruct (Hg2 a) as [G1 G2]; [by rewrite Ht0|lia|rewrite G0; done|].
  assert (Hd2 : (0 < depth (call_stack s2) < max_depth (call_stack s2))%nat)
    by (unfold depth in *; by rewrite Hf2, Hm2).
  destruct (cycle cell s2 fid n dst args v Hok2 Hdst Hcnt Hd2 ltac:(by rewrite Ht2, Ht0))
    as (s3 & s4 & E3 & _ & Hok3 & _ & He3 & _ & Hs3 & _ & _ & _ & _ & Hg3).
  destruct (Hg3 a) as [G3 _]; [by rewrite Ht2, Ht0|lia|rewrite G2, G0; done|].
  exists s1, s3. rewrite execute_all_app, E0. cbn [mbind outcome_bind execute_all].
  rewrite E1. cbn [mbind outcome_bind]. rewrite E2. cbn [mbind outcome_bind]. rewrite E3.
  split_and!; try done; [by rewrite G1, G0|by rewrite G3, G2, G0|].
  rewrite chk_reference by (done || lia || congruence). by rewrite G1, G0.
Qed.

(** ** Generic witnesses *)

(** A reset forgets the frames but not the generic witnesses recorded for them:
    the first function called after it finds, at its depth, the witnesses of
    the frame that was there before. *)
Theorem reset_keeps_witnesses s witnesses fid n dst args s' :
  frames_ok s → is_u 16 dst → is_u 16 (count args) → depth (call_stack s) = 1%nat →
  let before := with_call_stack s (set_generic_witnesses (call_stack s) witnesses) in
  enter_function (reset before) fid n dst args = Ok s' →
  current_generic_witnesses (call_stack s') = Some witnesses.
Proof.
  intros Hok Hdst Hcnt Hd before E. assert (Hok' : frames_ok (reset before)).
  { destruct Hok as ((H1 & H2 & H3 & _ & H4) & _). unfold frames_ok, registers_ok. cbn.
    split_and!; done || lia. }
  pose proof (enter_spec (reset before) fid n dst args Hok' Hdst Hcnt) as H. rewrite E in H.
  destruct H as (_ & _ & Hf & Hw & _). unfold current_generic_witnesses. rewrite Hw, Hf. cbn.
  rewrite last_snoc. unfold depth in Hd. by rewrite Hd.
Qed.

(** ** Instances *)
Definition no_arguments : RegRange := {| start := 0; count := 0 |}.
Definition one_argument : RegRange := {| start := 1; count := 1 |}.
Definition cells_from_4096 (k : nat) : Z := 4096 + 16 * Z.of_nat k.

(** A program in its first function, which has two registers. *)
Definition main_running : FrameState :=
  match enter_function (initial_state (with_capacity 8) 8) 0 2 0 no_arguments with
  | Ok s => s
  | _ => initial_state (with_capacity 8) 8
  end.

Lemma main_running_ok : frames_ok main_running.
Proof.
  destruct (execute_all_ok cells_from_4096 [Enter 0 2 0 no_arguments]
    (initial_state (with_capacity 8) 8) main_running) as [H _]; [by apply initial_ok| |done|done].
  by repeat split.
Qed.

(** A tail call to a function with more registers: the top of the register file stays
    behind, the next call gets a window above it, and its return panics. *)
Lemma tail_call_outgrows :
  ∃ s, execute_all cells_from_4096 [TailCall 1 5 no_arguments; Enter 2 1 0 no_arguments] main_running = Ok s ∧
    ¬ frames_ok s ∧ execute cells_from_4096 (Return (from_ptr 9)) s = Err IndexPanic.
Proof.
  eexists. split; [vm_compute; reflexivity|]. split; [|reflexivity].
  intros (_ & _ & Hh & _). cbn in Hh. lia.
Qed.

Lemma frames_safe_witness :
  frames_ok main_running ∧
  failure (Enter 1 (Z.to_nat MAX_SIZE) 0 no_arguments) main_running RegisterPanic.
Proof.
  destruct (frames_safe cells_from_4096 8 8 [Enter 0 2 0 no_arguments] main_running
    (Unwind 0 0)) as (H & _ & _); [done|by repeat split|done|done|].
  split; [exact H|]. exists 1, (Z.to_nat MAX_SIZE), 0, no_arguments. split; [done|].
  rewrite Nat2Z.inj_add, Z2Nat.id by done. done.
Defined.

Lemma enter_arguments_witness :
  ∃ s', enter_function (set_reg main_running 1 (from_ptr 7)) 1 3 0 one_argument = Ok s' ∧
    get_reg s' 0 = from_ptr 7 ∧ get_reg s' 2 = unit_value.
Proof.
  eexists. split; [reflexivity|].
  edestruct (enter_arguments (set_reg main_running 1 (from_ptr 7)) 1 3 0 one_argument) as [_ H];
    [eapply quiet_ok, main_running_ok; apply quiet_set_reg|done..|].
  split; [exact (H 0 ltac:(done))|exact (H 2 ltac:(done))].
Defined.

Lemma call_preserves_caller_witness :
  ∃ s1 s3, enter_function main_running 1 3 1 one_argument = Ok s1 ∧
    do_return cells_from_4096 (set_reg s1 2 (from_ptr 9)) (from_ptr 9) = Ok (Continue, s3) ∧
    frames (call_stack s3) = frames (call_stack main_running) ∧
    reg_at s3 1%nat = Some (from_ptr 9) ∧ reg_at s3 0%nat = reg_at main_running 0%nat.
Proof.
  do 2 eexists. split; [reflexivity|]. split; [reflexivity|].
  edestruct (call_preserves_caller cells_from_4096 main_running 1 3 1 one_argument [SetReg 2 (from_ptr 9)]
    (from_ptr 9)) as (_ & H1 & _ & v' & [-> _] & H2);
    [exact main_running_ok|by apply Nat.ltb_lt|done|done|reflexivity|by repeat split|reflexivity..|].
  split; [exact H1|]. split; [apply (H2 1%nat), Nat.ltb_lt; done|apply (H2 0%nat), Nat.ltb_lt; done].
Defined.

Lemma register_reference_exact_witness :
  ∃ s1 s2, handle_ref_create main_running 0 1 = Ok s1 ∧ drop_register s1 1 = Ok s2 ∧
    chk_ref_register s2 (get_reg s1 0) = Err (Raised (CbgrPanic 1 2 3)).
Proof.
  do 2 eexists. split; [reflexivity|]. split; [reflexivity|].
  edestruct (register_reference_exact cells_from_4096 main_running 0 1 [DropRef 1]) as [_ H];
    [exact main_running_ok|done|done|done|reflexivity|reflexivity|by repeat split|reflexivity|done|exact H].
Defined.

Lemma sentinel_generation_witness :
  ∃ s1 s2, execute_all cells_from_4096 (calls (Z.to_nat 16382) (Enter 1 3 0 no_arguments) (from_ptr 9) ++
      [Enter 1 3 0 no_arguments]) main_running = Ok s1 ∧
    execute_all cells_from_4096 [Return (from_ptr 9); Enter 1 3 0 no_arguments] s1 = Ok s2 ∧
    chk_ref_register s2 (encode_cbgr_ref 2 (gen s1 2%nat)) = Ok tt.
Proof.
  destruct (sentinel_generation cells_from_4096 main_running 1 3 0 no_arguments (from_ptr 9) 2)
    as (s1 & s2 & H1 & H2 & _ & _ & H3);
    [exact main_running_ok|done|done|done|split; by apply Nat.ltb_lt|done|done|by apply Nat.ltb_lt|done|].
  exists s1, s2. split; [exact H1|]. split; [exact H2|exact H3].
Defined.

Lemma reset_keeps_witnesses_witness :
  ∃ s', enter_function
      (reset (with_call_stack main_running (set_generic_witnesses (call_stack main_running) [TypeRefs.Generic 3])))
      1 3 0 no_arguments = Ok s' ∧
    current_generic_witnesses (call_stack s') = Some [TypeRefs.Generic 3].
Proof.
  eexists. split; [reflexivity|].
  eapply (reset_keeps_witnesses main_running [TypeRefs.Generic 3] 1 3 0 no_arguments);
    [exact main_running_ok|done|done|reflexivity|reflexivity].
Defined.
