(* ===== verification/Opcodes.v ===== *)
(** * Opcodes and operation codes

    The enums of [verum_vbc/src/instruction.rs] that appear in the bytecode,
    one module each: [t] is the enum, [to_byte] its discriminant, [from_byte]
    the code's decoding of a byte.  A byte outside every arm of [Opcode::from_byte]
    is one the code rejects before its [transmute]. *)

From S2P Require Import Prelude Words.


Module Opcode.
Inductive t :=
| Mov | LoadK | LoadI | LoadF | LoadTrue | LoadFalse | LoadUnit | LoadT | LoadSmallI | LoadNil
| Nop | CvtIF | CvtFI | CvtIC | CvtCI | CvtBI | AddI | SubI | MulI | DivI | ModI | NegI | AbsI
| PowI | Inc | Dec | CvtToI | UDivI | UModI | IntArith1D | IntArith1E | Extended | AddF | SubF
| MulF | DivF | ModF | NegF | AbsF | PowF | CvtToF | MathExtended | SimdExtended | CharExtended
| FloatArith2C | FloatArith2D | FloatArith2E | FloatArith2F | Band | Bor | Bxor | Bnot | Shl
| Shr | Ushr | Bitwise37 | AddG | SubG | MulG | DivG | GenArith3C | GenArith3D | GenArith3E
| GenArith3F | EqI | NeI | LtI | LeI | GtI | GeI | EqF | NeF | LtF | LeF | GtF | GeF | EqG | CmpG
| EqRef | CmpExtended | Jmp | JmpIf | JmpNot | JmpEq | JmpNe | JmpLt | JmpLe | JmpGt | JmpGe
| Ret | RetV | Call | TailCall | CallM | CallClosure | CallR | New | NewG | GetF | SetF | GetE
| SetE | Len | NewArray | NewList | ListPush | ListPop | NewMap | MapGet | MapSet | MapContains
| Clone | Ref | RefMut | Deref | DerefMut | ChkRef | RefChecked | RefUnsafe | DropRef
| CbgrExtended | TextExtended | RefLocal | RefObj | Cbgr7C | Cbgr7D | Cbgr7E | Cbgr7F | CallG
| CallV | CallC | SizeOfG | AlignOfG | Instantiate | MakeVariant | SetVariantData
| GetVariantData | GetTag | NewClosure | GetVariantDataRef | TypeOf | MakePi | MakeSigma
| MakeWitness | IsVar | AsVar | Unpack | Pack | Switch | MatchGuard | And | Or | Xor | Not
| IsType | Pattern9B | Pattern9C | Pattern9D | Pattern9E | Pattern9F | Spawn | Await | Yield
| Select | Join | FutureReady | FutureGet | AsyncNext | NurseryInit | NurserySpawn | NurseryAwait
| NurseryCancel | NurseryConfig | NurseryError | AsyncYield | AsyncAF | CtxGet | CtxProvide
| CtxEnd | PushContext | PopContext | Attenuate | HasCapability | RequireCapability | MetaEval
| MetaQuote | MetaSplice | MetaReflect | FfiExtended | ArithExtended | LogExtended | MemExtended
| IterNew | IterNext | GenCreate | GenNext | GenHasNext | ToString | Concat | NewSet | SetInsert
| SetContains | SetRemove | CharToStr | NewRange | NewDeque | Push | Pop | Throw | TryBegin
| TryEnd | GetException | Spec | Guard | Assert | Panic | Unreachable | DebugPrint | Requires
| Ensures | Invariant | NewChannel | CubicalExtended | DebugDF | SyscallLinux | Mmap | Munmap
| AtomicLoad | AtomicStore | AtomicCas | AtomicFence | IoSubmit | IoPoll | TlsGet | TlsSet
| GradBegin | GradEnd | GradCheckpoint | GradAccumulate | GradStop | TimeExtended | SysExtended
| MachExtended | SyncExtended | GpuExtended | GpuSync | GpuMemcpy | GpuAlloc | TensorExtended
| MlExtended.

Definition to_byte (op : t) : Z :=
  match op with
  | Mov => 0x00 | LoadK => 0x01 | LoadI => 0x02 | LoadF => 0x03 | LoadTrue => 0x04
  | LoadFalse => 0x05 | LoadUnit => 0x06 | LoadT => 0x07 | LoadSmallI => 0x08 | LoadNil => 0x09
  | Nop => 0x0A | CvtIF => 0x0B | CvtFI => 0x0C | CvtIC => 0x0D | CvtCI => 0x0E | CvtBI => 0x0F
  | AddI => 0x10 | SubI => 0x11 | MulI => 0x12 | DivI => 0x13 | ModI => 0x14 | NegI => 0x15
  | AbsI => 0x16 | PowI => 0x17 | Inc => 0x18 | Dec => 0x19 | CvtToI => 0x1A | UDivI => 0x1B
  | UModI => 0x1C | IntArith1D => 0x1D | IntArith1E => 0x1E | Extended => 0x1F | AddF => 0x20
  | SubF => 0x21 | MulF => 0x22 | DivF => 0x23 | ModF => 0x24 | NegF => 0x25 | AbsF => 0x26
  | PowF => 0x27 | CvtToF => 0x28 | MathExtended => 0x29 | SimdExtended => 0x2A
  | CharExtended => 0x2B | FloatArith2C => 0x2C | FloatArith2D => 0x2D | FloatArith2E => 0x2E
  | FloatArith2F => 0x2F | Band => 0x30 | Bor => 0x31 | Bxor => 0x32 | Bnot => 0x33 | Shl => 0x34
  | Shr => 0x35 | Ushr => 0x36 | Bitwise37 => 0x37 | AddG => 0x38 | SubG => 0x39 | MulG => 0x3A
  | DivG => 0x3B | GenArith3C => 0x3C | GenArith3D => 0x3D | GenArith3E => 0x3E
  | GenArith3F => 0x3F | EqI => 0x40 | NeI => 0x41 | LtI => 0x42 | LeI => 0x43 | GtI => 0x44
  | GeI => 0x45 | EqF => 0x46 | NeF => 0x47 | LtF => 0x48 | LeF => 0x49 | GtF => 0x4A
  | GeF => 0x4B | EqG => 0x4C | CmpG => 0x4D | EqRef => 0x4E | CmpExtended => 0x4F | Jmp => 0x50
  | JmpIf => 0x51 | JmpNot => 0x52 | JmpEq => 0x53 | JmpNe => 0x54 | JmpLt => 0x55
  | JmpLe => 0x56 | JmpGt => 0x57 | JmpGe => 0x58 | Ret => 0x59 | RetV => 0x5A | Call => 0x5B
  | TailCall => 0x5C | CallM => 0x5D | CallClosure => 0x5E | CallR => 0x5F | New => 0x60
  | NewG => 0x61 | GetF => 0x62 | SetF => 0x63 | GetE => 0x64 | SetE => 0x65 | Len => 0x66
  | NewArray => 0x67 | NewList => 0x68 | ListPush => 0x69 | ListPop => 0x6A | NewMap => 0x6B
  | MapGet => 0x6C | MapSet => 0x6D | MapContains => 0x6E | Clone => 0x6F | Ref => 0x70
  | RefMut => 0x71 | Deref => 0x72 | DerefMut => 0x73 | ChkRef => 0x74 | RefChecked => 0x75
  | RefUnsafe => 0x76 | DropRef => 0x77 | CbgrExtended => 0x78 | TextExtended => 0x79
  | RefLocal => 0x7A | RefObj => 0x7B | Cbgr7C => 0x7C | Cbgr7D => 0x7D | Cbgr7E => 0x7E
  | Cbgr7F => 0x7F | CallG => 0x80 | CallV => 0x81 | CallC => 0x82 | SizeOfG => 0x83
  | AlignOfG => 0x84 | Instantiate => 0x85 | MakeVariant => 0x86 | SetVariantData => 0x87
  | GetVariantData => 0x88 | GetTag => 0x89 | NewClosure => 0x8A | GetVariantDataRef => 0x8B
  | TypeOf => 0x8C | MakePi => 0x8D | MakeSigma => 0x8E | MakeWitness => 0x8F | IsVar => 0x90
  | AsVar => 0x91 | Unpack => 0x92 | Pack => 0x93 | Switch => 0x94 | MatchGuard => 0x95
  | And => 0x96 | Or => 0x97 | Xor => 0x98 | Not => 0x99 | IsType => 0x9A | Pattern9B => 0x9B
  | Pattern9C => 0x9C | Pattern9D => 0x9D | Pattern9E => 0x9E | Pattern9F => 0x9F | Spawn => 0xA0
  | Await => 0xA1 | Yield => 0xA2 | Select => 0xA3 | Join => 0xA4 | FutureReady => 0xA5
  | FutureGet => 0xA6 | AsyncNext => 0xA7 | NurseryInit => 0xA8 | NurserySpawn => 0xA9
  | NurseryAwait => 0xAA | NurseryCancel => 0xAB | NurseryConfig => 0xAC | NurseryError => 0xAD
  | AsyncYield => 0xAE | AsyncAF => 0xAF | CtxGet => 0xB0 | CtxProvide => 0xB1 | CtxEnd => 0xB2
  | PushContext => 0xB3 | PopContext => 0xB4 | Attenuate => 0xB5 | HasCapability => 0xB6
  | RequireCapability => 0xB7 | MetaEval => 0xB8 | MetaQuote => 0xB9 | MetaSplice => 0xBA
  | MetaReflect => 0xBB | FfiExtended => 0xBC | ArithExtended => 0xBD | LogExtended => 0xBE
  | MemExtended => 0xBF | IterNew => 0xC0 | IterNext => 0xC1 | GenCreate => 0xC2
  | GenNext => 0xC3 | GenHasNext => 0xC4 | ToString => 0xC5 | Concat => 0xC6 | NewSet => 0xC7
  | SetInsert => 0xC8 | SetContains => 0xC9 | SetRemove => 0xCA | CharToStr => 0xCB
  | NewRange => 0xCC | NewDeque => 0xCD | Push => 0xCE | Pop => 0xCF | Throw => 0xD0
  | TryBegin => 0xD1 | TryEnd => 0xD2 | GetException => 0xD3 | Spec => 0xD4 | Guard => 0xD5
  | Assert => 0xD6 | Panic => 0xD7 | Unreachable => 0xD8 | DebugPrint => 0xD9 | Requires => 0xDA
  | Ensures => 0xDB | Invariant => 0xDC | NewChannel => 0xDD | CubicalExtended => 0xDE
  | DebugDF => 0xDF | SyscallLinux => 0xE0 | Mmap => 0xE1 | Munmap => 0xE2 | AtomicLoad => 0xE3
  | AtomicStore => 0xE4 | AtomicCas => 0xE5 | AtomicFence => 0xE6 | IoSubmit => 0xE7
  | IoPoll => 0xE8 | TlsGet => 0xE9 | TlsSet => 0xEA | GradBegin => 0xEB | GradEnd => 0xEC
  | GradCheckpoint => 0xED | GradAccumulate => 0xEE | GradStop => 0xEF | TimeExtended => 0xF0
  | SysExtended => 0xF1 | MachExtended => 0xF2 | SyncExtended => 0xF3 | GpuExtended => 0xF8
  | GpuSync => 0xF9 | GpuMemcpy => 0xFA | GpuAlloc => 0xFB | TensorExtended => 0xFC
  | MlExtended => 0xFD
  end.

(** [matches!(byte, 0xF4..=0xF7 | 0xFE | 0xFF)]. *)
Definition reclaimed (byte : Z) : bool :=
  ((0xF4 <=? byte) && (byte <=? 0xF7)) || (byte =? 0xFE) || (byte =? 0xFF).

(** The [transmute] of a byte to the variant with that discriminant. *)
Definition transmute (byte : Z) : t :=
  match byte with
  | 0x00 => Mov | 0x01 => LoadK | 0x02 => LoadI | 0x03 => LoadF | 0x04 => LoadTrue
  | 0x05 => LoadFalse | 0x06 => LoadUnit | 0x07 => LoadT | 0x08 => LoadSmallI | 0x09 => LoadNil
  | 0x0A => Nop | 0x0B => CvtIF | 0x0C => CvtFI | 0x0D => CvtIC | 0x0E => CvtCI | 0x0F => CvtBI
  | 0x10 => AddI | 0x11 => SubI | 0x12 => MulI | 0x13 => DivI | 0x14 => ModI | 0x15 => NegI
  | 0x16 => AbsI | 0x17 => PowI | 0x18 => Inc | 0x19 => Dec | 0x1A => CvtToI | 0x1B => UDivI
  | 0x1C => UModI | 0x1D => IntArith1D | 0x1E => IntArith1E | 0x1F => Extended | 0x20 => AddF
  | 0x21 => SubF | 0x22 => MulF | 0x23 => DivF | 0x24 => ModF | 0x25 => NegF | 0x26 => AbsF
  | 0x27 => PowF | 0x28 => CvtToF | 0x29 => MathExtended | 0x2A => SimdExtended
  | 0x2B => CharExtended | 0x2C => FloatArith2C | 0x2D => FloatArith2D | 0x2E => FloatArith2E
  | 0x2F => FloatArith2F | 0x30 => Band | 0x31 => Bor | 0x32 => Bxor | 0x33 => Bnot | 0x34 => Shl
  | 0x35 => Shr | 0x36 => Ushr | 0x37 => Bitwise37 | 0x38 => AddG | 0x39 => SubG | 0x3A => MulG
  | 0x3B => DivG | 0x3C => GenArith3C | 0x3D => GenArith3D | 0x3E => GenArith3E
  | 0x3F => GenArith3F | 0x40 => EqI | 0x41 => NeI | 0x42 => LtI | 0x43 => LeI | 0x44 => GtI
  | 0x45 => GeI | 0x46 => EqF | 0x47 => NeF | 0x48 => LtF | 0x49 => LeF | 0x4A => GtF
  | 0x4B => GeF | 0x4C => EqG | 0x4D => CmpG | 0x4E => EqRef | 0x4F => CmpExtended | 0x50 => Jmp
  | 0x51 => JmpIf | 0x52 => JmpNot | 0x53 => JmpEq | 0x54 => JmpNe | 0x55 => JmpLt
  | 0x56 => JmpLe | 0x57 => JmpGt | 0x58 => JmpGe | 0x59 => Ret | 0x5A => RetV | 0x5B => Call
  | 0x5C => TailCall | 0x5D => CallM | 0x5E => CallClosure | 0x5F => CallR | 0x60 => New
  | 0x61 => NewG | 0x62 => GetF | 0x63 => SetF | 0x64 => GetE | 0x65 => SetE | 0x66 => Len
  | 0x67 => NewArray | 0x68 => NewList | 0x69 => ListPush | 0x6A => ListPop | 0x6B => NewMap
  | 0x6C => MapGet | 0x6D => MapSet | 0x6E => MapContains | 0x6F => Clone | 0x70 => Ref
  | 0x71 => RefMut | 0x72 => Deref | 0x73 => DerefMut | 0x74 => ChkRef | 0x75 => RefChecked
  | 0x76 => RefUnsafe | 0x77 => DropRef | 0x78 => CbgrExtended | 0x79 => TextExtended
  | 0x7A => RefLocal | 0x7B => RefObj | 0x7C => Cbgr7C | 0x7D => Cbgr7D | 0x7E => Cbgr7E
  | 0x7F => Cbgr7F | 0x80 => CallG | 0x81 => CallV | 0x82 => CallC | 0x83 => SizeOfG
  | 0x84 => AlignOfG | 0x85 => Instantiate | 0x86 => MakeVariant | 0x87 => SetVariantData
  | 0x88 => GetVariantData | 0x89 => GetTag | 0x8A => NewClosure | 0x8B => GetVariantDataRef
  | 0x8C => TypeOf | 0x8D => MakePi | 0x8E => MakeSigma | 0x8F => MakeWitness | 0x90 => IsVar
  | 0x91 => AsVar | 0x92 => Unpack | 0x93 => Pack | 0x94 => Switch | 0x95 => MatchGuard
  | 0x96 => And | 0x97 => Or | 0x98 => Xor | 0x99 => Not | 0x9A => IsType | 0x9B => Pattern9B
  | 0x9C => Pattern9C | 0x9D => Pattern9D | 0x9E => Pattern9E | 0x9F => Pattern9F | 0xA0 => Spawn
  | 0xA1 => Await | 0xA2 => Yield | 0xA3 => Select | 0xA4 => Join | 0xA5 => FutureReady
  | 0xA6 => FutureGet | 0xA7 => AsyncNext | 0xA8 => NurseryInit | 0xA9 => NurserySpawn
  | 0xAA => NurseryAwait | 0xAB => NurseryCancel | 0xAC => NurseryConfig | 0xAD => NurseryError
  | 0xAE => AsyncYield | 0xAF => AsyncAF | 0xB0 => CtxGet | 0xB1 => CtxProvide | 0xB2 => CtxEnd
  | 0xB3 => PushContext | 0xB4 => PopContext | 0xB5 => Attenuate | 0xB6 => HasCapability
  | 0xB7 => RequireCapability | 0xB8 => MetaEval | 0xB9 => MetaQuote | 0xBA => MetaSplice
  | 0xBB => MetaReflect | 0xBC => FfiExtended | 0xBD => ArithExtended | 0xBE => LogExtended
  | 0xBF => MemExtended | 0xC0 => IterNew | 0xC1 => IterNext | 0xC2 => GenCreate
  | 0xC3 => GenNext | 0xC4 => GenHasNext | 0xC5 => ToString | 0xC6 => Concat | 0xC7 => NewSet
  | 0xC8 => SetInsert | 0xC9 => SetContains | 0xCA => SetRemove | 0xCB => CharToStr
  | 0xCC => NewRange | 0xCD => NewDeque | 0xCE => Push | 0xCF => Pop | 0xD0 => Throw
  | 0xD1 => TryBegin | 0xD2 => TryEnd | 0xD3 => GetException | 0xD4 => Spec | 0xD5 => Guard
  | 0xD6 => Assert | 0xD7 => Panic | 0xD8 => Unreachable | 0xD9 => DebugPrint | 0xDA => Requires
  | 0xDB => Ensures | 0xDC => Invariant | 0xDD => NewChannel | 0xDE => CubicalExtended
  | 0xDF => DebugDF | 0xE0 => SyscallLinux | 0xE1 => Mmap | 0xE2 => Munmap | 0xE3 => AtomicLoad
  | 0xE4 => AtomicStore | 0xE5 => AtomicCas | 0xE6 => AtomicFence | 0xE7 => IoSubmit
  | 0xE8 => IoPoll | 0xE9 => TlsGet | 0xEA => TlsSet | 0xEB => GradBegin | 0xEC => GradEnd
  | 0xED => GradCheckpoint | 0xEE => GradAccumulate | 0xEF => GradStop | 0xF0 => TimeExtended
  | 0xF1 => SysExtended | 0xF2 => MachExtended | 0xF3 => SyncExtended | 0xF8 => GpuExtended
  | 0xF9 => GpuSync | 0xFA => GpuMemcpy | 0xFB => GpuAlloc | 0xFC => TensorExtended
  | 0xFD => MlExtended
  | _ => Unreachable
  end.

Definition from_byte (byte : Z) : t :=
  if reclaimed byte then Unreachable else transmute byte.

End Opcode.

Module GpuSubOpcode.
Inductive t :=
| Launch | LaunchCooperative | LaunchMultiDevice | SyncStream | SyncDevice | SyncEvent
| QueryStream | Memcpy | MemcpyAsync | Alloc | Free | PinMemory | UnpinMemory | Prefetch | Memset
| MemsetAsync | Memcpy2D | Memcpy2DAsync | MemcpyH2D | MemcpyD2H | MemcpyD2D | MemcpyAsyncH2D
| MemcpyAsyncD2H | StreamCreate | StreamDestroy | StreamQuery | StreamWaitEvent
| StreamCreateWithPriority | StreamGetPriority | StreamCreateNonBlocking | StreamAddCallback
| EventCreate | EventDestroy | EventRecord | EventSynchronize | EventQuery | EventElapsed
| EventCreateWithFlags | EventRecordWithFlags | GetDevice | SetDevice | GetDeviceCount
| GetDeviceProperty | GetMemoryInfo | CanAccessPeer | EnablePeerAccess | DisablePeerAccess
| DeviceReset | SetDeviceFlags | MallocManaged | MemAdvise | PrefetchAsync | MemGetAttribute
| GraphCreate | GraphBeginCapture | GraphEndCapture | GraphInstantiate | GraphLaunch
| GraphDestroy | GraphExecDestroy | GraphExecUpdate | ProfileRangeStart | ProfileRangeEnd
| ProfileMarkerPush | ProfileMarkerPop | EnumerateCuda | EnumerateMetal | EnumerateRocm
| EnumerateVulkan | ThreadIdX | ThreadIdY | ThreadIdZ | BlockIdX | BlockIdY | BlockIdZ
| BlockDimX | BlockDimY | BlockDimZ | GridDimX | GridDimY | GridDimZ | SyncThreads | SyncWarp
| WarpSize | LinearThreadId | SharedMemAlloc | SharedMemLoadI64 | SharedMemStoreI64
| SharedMemLoadF64 | SharedMemStoreF64 | SharedMemAtomicAddI64 | SharedMemAtomicAddF64
| SharedMemAtomicCasI64 | SharedMemAtomicMaxI64 | SharedMemAtomicMinI64 | SharedMemLoadU32
| SharedMemStoreU32.

Definition to_byte (op : t) : Z :=
  match op with
  | Launch => 0x00 | LaunchCooperative => 0x01 | LaunchMultiDevice => 0x02 | SyncStream => 0x10
  | SyncDevice => 0x11 | SyncEvent => 0x12 | QueryStream => 0x13 | Memcpy => 0x20
  | MemcpyAsync => 0x21 | Alloc => 0x22 | Free => 0x23 | PinMemory => 0x24 | UnpinMemory => 0x25
  | Prefetch => 0x26 | Memset => 0x27 | MemsetAsync => 0x28 | Memcpy2D => 0x29
  | Memcpy2DAsync => 0x2A | MemcpyH2D => 0x2B | MemcpyD2H => 0x2C | MemcpyD2D => 0x2D
  | MemcpyAsyncH2D => 0x2E | MemcpyAsyncD2H => 0x2F | StreamCreate => 0x30
  | StreamDestroy => 0x31 | StreamQuery => 0x32 | StreamWaitEvent => 0x33
  | StreamCreateWithPriority => 0x34 | StreamGetPriority => 0x35
  | StreamCreateNonBlocking => 0x36 | StreamAddCallback => 0x37 | EventCreate => 0x40
  | EventDestroy => 0x41 | EventRecord => 0x42 | EventSynchronize => 0x43 | EventQuery => 0x44
  | EventElapsed => 0x45 | EventCreateWithFlags => 0x46 | EventRecordWithFlags => 0x47
  | GetDevice => 0x50 | SetDevice => 0x51 | GetDeviceCount => 0x52 | GetDeviceProperty => 0x53
  | GetMemoryInfo => 0x54 | CanAccessPeer => 0x55 | EnablePeerAccess => 0x56
  | DisablePeerAccess => 0x57 | DeviceReset => 0x58 | SetDeviceFlags => 0x59
  | MallocManaged => 0x60 | MemAdvise => 0x61 | PrefetchAsync => 0x62 | MemGetAttribute => 0x63
  | GraphCreate => 0x70 | GraphBeginCapture => 0x71 | GraphEndCapture => 0x72
  | GraphInstantiate => 0x73 | GraphLaunch => 0x74 | GraphDestroy => 0x75
  | GraphExecDestroy => 0x76 | GraphExecUpdate => 0x77 | ProfileRangeStart => 0x80
  | ProfileRangeEnd => 0x81 | ProfileMarkerPush => 0x82 | ProfileMarkerPop => 0x83
  | EnumerateCuda => 0x90 | EnumerateMetal => 0x91 | EnumerateRocm => 0x92
  | EnumerateVulkan => 0x93 | ThreadIdX => 0xA0 | ThreadIdY => 0xA1 | ThreadIdZ => 0xA2
  | BlockIdX => 0xA3 | BlockIdY => 0xA4 | BlockIdZ => 0xA5 | BlockDimX => 0xA6
  | BlockDimY => 0xA7 | BlockDimZ => 0xA8 | GridDimX => 0xA9 | GridDimY => 0xAA
  | GridDimZ => 0xAB | SyncThreads => 0xAC | SyncWarp => 0xAD | WarpSize => 0xAE
  | LinearThreadId => 0xAF | SharedMemAlloc => 0xB0 | SharedMemLoadI64 => 0xB1
  | SharedMemStoreI64 => 0xB2 | SharedMemLoadF64 => 0xB3 | SharedMemStoreF64 => 0xB4
  | SharedMemAtomicAddI64 => 0xB5 | SharedMemAtomicAddF64 => 0xB6 | SharedMemAtomicCasI64 => 0xB7
  | SharedMemAtomicMaxI64 => 0xB8 | SharedMemAtomicMinI64 => 0xB9 | SharedMemLoadU32 => 0xBA
  | SharedMemStoreU32 => 0xBB
  end.

Definition from_byte (byte : Z) : option t :=
  match byte with
  | 0x00 => Some Launch | 0x01 => Some LaunchCooperative | 0x02 => Some LaunchMultiDevice
  | 0x10 => Some SyncStream | 0x11 => Some SyncDevice | 0x12 => Some SyncEvent
  | 0x13 => Some QueryStream | 0x20 => Some Memcpy | 0x21 => Some MemcpyAsync
  | 0x22 => Some Alloc | 0x23 => Some Free | 0x24 => Some PinMemory | 0x25 => Some UnpinMemory
  | 0x26 => Some Prefetch | 0x27 => Some Memset | 0x28 => Some MemsetAsync
  | 0x29 => Some Memcpy2D | 0x2A => Some Memcpy2DAsync | 0x2B => Some MemcpyH2D
  | 0x2C => Some MemcpyD2H | 0x2D => Some MemcpyD2D | 0x2E => Some MemcpyAsyncH2D
  | 0x2F => Some MemcpyAsyncD2H | 0x30 => Some StreamCreate | 0x31 => Some StreamDestroy
  | 0x32 => Some StreamQuery | 0x33 => Some StreamWaitEvent
  | 0x34 => Some StreamCreateWithPriority | 0x35 => Some StreamGetPriority
  | 0x36 => Some StreamCreateNonBlocking | 0x37 => Some StreamAddCallback
  | 0x40 => Some EventCreate | 0x41 => Some EventDestroy | 0x42 => Some EventRecord
  | 0x43 => Some EventSynchronize | 0x44 => Some EventQuery | 0x45 => Some EventElapsed
  | 0x46 => Some EventCreateWithFlags | 0x47 => Some EventRecordWithFlags
  | 0x50 => Some GetDevice | 0x51 => Some SetDevice | 0x52 => Some GetDeviceCount
  | 0x53 => Some GetDeviceProperty | 0x54 => Some GetMemoryInfo | 0x55 => Some CanAccessPeer
  | 0x56 => Some EnablePeerAccess | 0x57 => Some DisablePeerAccess | 0x58 => Some DeviceReset
  | 0x59 => Some SetDeviceFlags | 0x60 => Some MallocManaged | 0x61 => Some MemAdvise
  | 0x62 => Some PrefetchAsync | 0x63 => Some MemGetAttribute | 0x70 => Some GraphCreate
  | 0x71 => Some GraphBeginCapture | 0x72 => Some GraphEndCapture | 0x73 => Some GraphInstantiate
  | 0x74 => Some GraphLaunch | 0x75 => Some GraphDestroy | 0x76 => Some GraphExecDestroy
  | 0x77 => Some GraphExecUpdate | 0x80 => Some ProfileRangeStart | 0x81 => Some ProfileRangeEnd
  | 0x82 => Some ProfileMarkerPush | 0x83 => Some ProfileMarkerPop | 0x90 => Some EnumerateCuda
  | 0x91 => Some EnumerateMetal | 0x92 => Some EnumerateRocm | 0x93 => Some EnumerateVulkan
  | 0xA0 => Some ThreadIdX | 0xA1 => Some ThreadIdY | 0xA2 => Some ThreadIdZ
  | 0xA3 => Some BlockIdX | 0xA4 => Some BlockIdY | 0xA5 => Some BlockIdZ
  | 0xA6 => Some BlockDimX | 0xA7 => Some BlockDimY | 0xA8 => Some BlockDimZ
  | 0xA9 => Some GridDimX | 0xAA => Some GridDimY | 0xAB => Some GridDimZ
  | 0xAC => Some SyncThreads | 0xAD => Some SyncWarp | 0xAE => Some WarpSize
  | 0xAF => Some LinearThreadId | 0xB0 => Some SharedMemAlloc | 0xB1 => Some SharedMemLoadI64
  | 0xB2 => Some SharedMemStoreI64 | 0xB3 => Some SharedMemLoadF64
  | 0xB4 => Some SharedMemStoreF64 | 0xB5 => Some SharedMemAtomicAddI64
  | 0xB6 => Some SharedMemAtomicAddF64 | 0xB7 => Some SharedMemAtomicCasI64
  | 0xB8 => Some SharedMemAtomicMaxI64 | 0xB9 => Some SharedMemAtomicMinI64
  | 0xBA => Some SharedMemLoadU32 | 0xBB => Some SharedMemStoreU32
  | _ => None
  end.

End GpuSubOpcode.

Module TensorSubOpcode.
Inductive t :=
| Pool | NewFromArgs | FillFromArgs | FromSliceArgs | Argmin | Nansum | Nanmean | BinopFromArgs
| UnopFromArgs | MatmulFromArgs | ReduceFromArgs | ReshapeFromArgs | TransposeFromArgs
| SliceFromArgs | GetElementFromArgs | SetElementFromArgs | Gather | Permute | Flip | Roll
| Solve | Lstsq | TriSolve | QR | SVD | LU | Eig | EigSymmetric | Schur | Det | Rank | Cond
| Trace | Norm | Kron | Cross | Contract | MatrixPower | Expm | Logm | Inverse | Rfft | Irfft
| ComplexMul | ComplexPow | SsmScan | Uniform | Bincount | GatherNd | ArangeUsize | Repeat | Tanh
| SumAll | FromArray | IsTraining | RandomFloat01 | MaskedSelect | LeakyRelu | Diag | Triu | Tril
| Nonzero | OneHot | Split | SplitAt | GetScalar | TokenizerLoadBpe | TokenizerLoadPretrained
| TokenizerEncode | TokenizerDecode | TokenizerLoadSpm | TokenizerSpmEncode | TokenizerSpmDecode
| SampleTopP | SampleTemperature | PagedAttention | ParseToolCall | FormatValue
| TensorFromSliceUsize | QuantizedMatmul | TensorNorm | GenerateRequestId | JsonSchemaToJson
| FunctionSchemaToJson | ParseFunctionCalls | AllReduce | AllGather | Broadcast | ReduceScatter
| Barrier | PmapPsum | PmapPmean | PmapPmax | PmapAllGather | VmapTransform | PmapTransform
| DistWorldGroup | DistNewGroup | DistGetRank | P2PSend | P2PRecv | CollectiveGather
| CollectiveScatter | BucketGradients | GetGrad | SetGrad | ModuleBackward | MeshSelect
| ActorNewId | RdmaCreateRef | RdmaFetch | RdmaWrite | RdmaCheckValid | Unsqueeze | SetScalar
| Contiguous | ToDevice | RegexFindAll | RegexReplaceAll | RegexIsMatch | RegexSplit | Arange
| Linspace | Rand | Clone | Identity | Index | Concat | Stack | BroadcastToShape | Squeeze | Cmp
| Where | Clamp | Cast | MaskedFill | Lerp | Dot | Conv | BatchMatmul | Einsum | Outer | Cholesky
| Argmax | Topk | Cumulative | Softmax | LayerNorm | BatchNorm.

Definition to_byte (op : t) : Z :=
  match op with
  | Pool => 0x00 | NewFromArgs => 0x0D | FillFromArgs => 0x0E | FromSliceArgs => 0x0F
  | Argmin => 0x10 | Nansum => 0x11 | Nanmean => 0x12 | BinopFromArgs => 0x13
  | UnopFromArgs => 0x14 | MatmulFromArgs => 0x15 | ReduceFromArgs => 0x16
  | ReshapeFromArgs => 0x17 | TransposeFromArgs => 0x18 | SliceFromArgs => 0x19
  | GetElementFromArgs => 0x1A | SetElementFromArgs => 0x1B | Gather => 0x20 | Permute => 0x21
  | Flip => 0x22 | Roll => 0x23 | Solve => 0x30 | Lstsq => 0x31 | TriSolve => 0x32 | QR => 0x40
  | SVD => 0x41 | LU => 0x42 | Eig => 0x43 | EigSymmetric => 0x44 | Schur => 0x45 | Det => 0x60
  | Rank => 0x61 | Cond => 0x62 | Trace => 0x63 | Norm => 0x64 | Kron => 0x70 | Cross => 0x71
  | Contract => 0x72 | MatrixPower => 0x73 | Expm => 0x74 | Logm => 0x75 | Inverse => 0x76
  | Rfft => 0x77 | Irfft => 0x78 | ComplexMul => 0x79 | ComplexPow => 0x7A | SsmScan => 0x7B
  | Uniform => 0x7C | Bincount => 0x7D | GatherNd => 0x7E | ArangeUsize => 0x7F | Repeat => 0x80
  | Tanh => 0x81 | SumAll => 0x82 | FromArray => 0x83 | IsTraining => 0x84
  | RandomFloat01 => 0x85 | MaskedSelect => 0x86 | LeakyRelu => 0x87 | Diag => 0x88
  | Triu => 0x89 | Tril => 0x8A | Nonzero => 0x8B | OneHot => 0x8C | Split => 0x8D
  | SplitAt => 0x8E | GetScalar => 0x8F | TokenizerLoadBpe => 0x90
  | TokenizerLoadPretrained => 0x91 | TokenizerEncode => 0x92 | TokenizerDecode => 0x93
  | TokenizerLoadSpm => 0x94 | TokenizerSpmEncode => 0x95 | TokenizerSpmDecode => 0x96
  | SampleTopP => 0xA0 | SampleTemperature => 0xA1 | PagedAttention => 0xA2
  | ParseToolCall => 0xB0 | FormatValue => 0xB1 | TensorFromSliceUsize => 0xB2
  | QuantizedMatmul => 0xB3 | TensorNorm => 0xB4 | GenerateRequestId => 0xB5
  | JsonSchemaToJson => 0xB6 | FunctionSchemaToJson => 0xB7 | ParseFunctionCalls => 0xB8
  | AllReduce => 0xC0 | AllGather => 0xC1 | Broadcast => 0xC2 | ReduceScatter => 0xC3
  | Barrier => 0xC4 | PmapPsum => 0xC5 | PmapPmean => 0xC6 | PmapPmax => 0xC7
  | PmapAllGather => 0xC8 | VmapTransform => 0xC9 | PmapTransform => 0xCA
  | DistWorldGroup => 0xCB | DistNewGroup => 0xCC | DistGetRank => 0xCD | P2PSend => 0xCE
  | P2PRecv => 0xCF | CollectiveGather => 0xD0 | CollectiveScatter => 0xD1
  | BucketGradients => 0xD2 | GetGrad => 0xD3 | SetGrad => 0xD4 | ModuleBackward => 0xD5
  | MeshSelect => 0xD6 | ActorNewId => 0xD7 | RdmaCreateRef => 0xD8 | RdmaFetch => 0xD9
  | RdmaWrite => 0xDA | RdmaCheckValid => 0xDB | Unsqueeze => 0xDC | SetScalar => 0xDD
  | Contiguous => 0xDE | ToDevice => 0xDF | RegexFindAll => 0xE0 | RegexReplaceAll => 0xE1
  | RegexIsMatch => 0xE2 | RegexSplit => 0xE3 | Arange => 0xE4 | Linspace => 0xE5 | Rand => 0xE6
  | Clone => 0xE7 | Identity => 0xE8 | Index => 0xE9 | Concat => 0xEA | Stack => 0xEB
  | BroadcastToShape => 0xEC | Squeeze => 0xED | Cmp => 0xEE | Where => 0xEF | Clamp => 0xF0
  | Cast => 0xF1 | MaskedFill => 0xF2 | Lerp => 0xF3 | Dot => 0xF4 | Conv => 0xF5
  | BatchMatmul => 0xF6 | Einsum => 0xF7 | Outer => 0xF8 | Cholesky => 0xF9 | Argmax => 0xFA
  | Topk => 0xFB | Cumulative => 0xFC | Softmax => 0xFD | LayerNorm => 0xFE | BatchNorm => 0xFF
  end.

Definition from_byte (byte : Z) : option t :=
  match byte with
  | 0x00 => Some Pool | 0x0D => Some NewFromArgs | 0x0E => Some FillFromArgs
  | 0x0F => Some FromSliceArgs | 0x10 => Some Argmin | 0x11 => Some Nansum | 0x12 => Some Nanmean
  | 0x13 => Some BinopFromArgs | 0x14 => Some UnopFromArgs | 0x15 => Some MatmulFromArgs
  | 0x16 => Some ReduceFromArgs | 0x17 => Some ReshapeFromArgs | 0x18 => Some TransposeFromArgs
  | 0x19 => Some SliceFromArgs | 0x1A => Some GetElementFromArgs
  | 0x1B => Some SetElementFromArgs | 0x20 => Some Gather | 0x21 => Some Permute
  | 0x22 => Some Flip | 0x23 => Some Roll | 0x30 => Some Solve | 0x31 => Some Lstsq
  | 0x32 => Some TriSolve | 0x40 => Some QR | 0x41 => Some SVD | 0x42 => Some LU
  | 0x43 => Some Eig | 0x44 => Some EigSymmetric | 0x45 => Some Schur | 0x60 => Some Det
  | 0x61 => Some Rank | 0x62 => Some Cond | 0x63 => Some Trace | 0x64 => Some Norm
  | 0x70 => Some Kron | 0x71 => Some Cross | 0x72 => Some Contract | 0x73 => Some MatrixPower
  | 0x74 => Some Expm | 0x75 => Some Logm | 0x76 => Some Inverse | 0x77 => Some Rfft
  | 0x78 => Some Irfft | 0x79 => Some ComplexMul | 0x7A => Some ComplexPow | 0x7B => Some SsmScan
  | 0x7C => Some Uniform | 0x7D => Some Bincount | 0x7E => Some GatherNd
  | 0x7F => Some ArangeUsize | 0x80 => Some Repeat | 0x81 => Some Tanh | 0x82 => Some SumAll
  | 0x83 => Some FromArray | 0x84 => Some IsTraining | 0x85 => Some RandomFloat01
  | 0x86 => Some MaskedSelect | 0x87 => Some LeakyRelu | 0x88 => Some Diag | 0x89 => Some Triu
  | 0x8A => Some Tril | 0x8B => Some Nonzero | 0x8C => Some OneHot | 0x8D => Some Split
  | 0x8E => Some SplitAt | 0x8F => Some GetScalar | 0x90 => Some TokenizerLoadBpe
  | 0x91 => Some TokenizerLoadPretrained | 0x92 => Some TokenizerEncode
  | 0x93 => Some TokenizerDecode | 0x94 => Some TokenizerLoadSpm
  | 0x95 => Some TokenizerSpmEncode | 0x96 => Some TokenizerSpmDecode | 0xA0 => Some SampleTopP
  | 0xA1 => Some SampleTemperature | 0xA2 => Some PagedAttention | 0xB0 => Some ParseToolCall
  | 0xB1 => Some FormatValue | 0xB2 => Some TensorFromSliceUsize | 0xB3 => Some QuantizedMatmul
  | 0xB4 => Some TensorNorm | 0xB5 => Some GenerateRequestId | 0xB6 => Some JsonSchemaToJson
  | 0xB7 => Some FunctionSchemaToJson | 0xB8 => Some ParseFunctionCalls | 0xC0 => Some AllReduce
  | 0xC1 => Some AllGather | 0xC2 => Some Broadcast | 0xC3 => Some ReduceScatter
  | 0xC4 => Some Barrier | 0xC5 => Some PmapPsum | 0xC6 => Some PmapPmean | 0xC7 => Some PmapPmax
  | 0xC8 => Some PmapAllGather | 0xC9 => Some VmapTransform | 0xCA => Some PmapTransform
  | 0xCB => Some DistWorldGroup | 0xCC => Some DistNewGroup | 0xCD => Some DistGetRank
  | 0xCE => Some P2PSend | 0xCF => Some P2PRecv | 0xD0 => Some CollectiveGather
  | 0xD1 => Some CollectiveScatter | 0xD2 => Some BucketGradients | 0xD3 => Some GetGrad
  | 0xD4 => Some SetGrad | 0xD5 => Some ModuleBackward | 0xD6 => Some MeshSelect
  | 0xD7 => Some ActorNewId | 0xD8 => Some RdmaCreateRef | 0xD9 => Some RdmaFetch
  | 0xDA => Some RdmaWrite | 0xDB => Some RdmaCheckValid | 0xDC => Some Unsqueeze
  | 0xDD => Some SetScalar | 0xDE => Some Contiguous | 0xDF => Some ToDevice
  | 0xE0 => Some RegexFindAll | 0xE1 => Some RegexReplaceAll | 0xE2 => Some RegexIsMatch
  | 0xE3 => Some RegexSplit | 0xE4 => Some Arange | 0xE5 => Some Linspace | 0xE6 => Some Rand
  | 0xE7 => Some Clone | 0xE8 => Some Identity | 0xE9 => Some Index | 0xEA => Some Concat
  | 0xEB => Some Stack | 0xEC => Some BroadcastToShape | 0xED => Some Squeeze | 0xEE => Some Cmp
  | 0xEF => Some Where | 0xF0 => Some Clamp | 0xF1 => Some Cast | 0xF2 => Some MaskedFill
  | 0xF3 => Some Lerp | 0xF4 => Some Dot | 0xF5 => Some Conv | 0xF6 => Some BatchMatmul
  | 0xF7 => Some Einsum | 0xF8 => Some Outer | 0xF9 => Some Cholesky | 0xFA => Some Argmax
  | 0xFB => Some Topk | 0xFC => Some Cumulative | 0xFD => Some Softmax | 0xFE => Some LayerNorm
  | 0xFF => Some BatchNorm
  | _ => None
  end.

End TensorSubOpcode.

Module TensorExtSubOpcode.
Inductive t :=
| RmsNorm | FlashAttention | Fft | Scatter | ContiguousView | RandomU64 | RandomFloat
| GlobalAllocator | MemNewId | MemAllocTensor | RegexFind | RegexReplace | RegexCaptures
| PermissionCheckWire | PermissionAssert | PermissionStatsRead | PermissionStatsClear.

Definition to_byte (op : t) : Z :=
  match op with
  | RmsNorm => 0x00 | FlashAttention => 0x01 | Fft => 0x02 | Scatter => 0x03
  | ContiguousView => 0x04 | RandomU64 => 0x05 | RandomFloat => 0x06 | GlobalAllocator => 0x07
  | MemNewId => 0x08 | MemAllocTensor => 0x09 | RegexFind => 0x0A | RegexReplace => 0x0B
  | RegexCaptures => 0x0C | PermissionCheckWire => 0x1C | PermissionAssert => 0x1D
  | PermissionStatsRead => 0x1E | PermissionStatsClear => 0x1F
  end.

Definition from_byte (byte : Z) : option t :=
  match byte with
  | 0x00 => Some RmsNorm | 0x01 => Some FlashAttention | 0x02 => Some Fft | 0x03 => Some Scatter
  | 0x04 => Some ContiguousView | 0x05 => Some RandomU64 | 0x06 => Some RandomFloat
  | 0x07 => Some GlobalAllocator | 0x08 => Some MemNewId | 0x09 => Some MemAllocTensor
  | 0x0A => Some RegexFind | 0x0B => Some RegexReplace | 0x0C => Some RegexCaptures
  | 0x1C => Some PermissionCheckWire | 0x1D => Some PermissionAssert
  | 0x1E => Some PermissionStatsRead | 0x1F => Some PermissionStatsClear
  | _ => None
  end.

End TensorExtSubOpcode.

Module ExtendedSubOpcode.
Inductive t :=
| Reserved | MakeVariantTyped | SetCallWitness | TypeLayout | TypeResource | NewClosureTyped
| NewClosureWitnessed | DropTyped | BindMethodReceiver | ProcessExit | ScriptEngineNew
| ScriptEngineFree | ScriptEngineEval | ScriptOutcomeIsOk | ScriptOutcomeKind
| ScriptOutcomeAsInt | ScriptOutcomeAsFloat | ScriptOutcomeAsBool | ScriptOutcomeFree
| ScriptOutcomeAsText | ScriptOutcomeError | ScriptOutcomeStdout | ScriptEngineNewSandboxed
| ScriptEngineSetGlobalInt | ScriptEngineSetGlobalText | ScriptGlobalKind | ScriptGlobalInt
| ScriptGlobalText | ScriptEngineRegister | ScriptHostCallInt | ScriptWorldNew | ScriptWorldEval
| ScriptWorldFree | ScriptSetInt | ScriptSetText | ScriptEngineSetGlobalBool
| ScriptEngineSetGlobalFloat | ScriptGlobalBool | ScriptGlobalFloat | ScriptSetBool
| ScriptSetFloat | ScriptOutcomeListLen | ScriptOutcomeListElemKind | ScriptOutcomeListElemInt
| ScriptOutcomeListElemFloat | ScriptOutcomeListElemBool | ScriptOutcomeListElemText
| ScriptOutcomeMapLen | ScriptOutcomeMapKeyKind | ScriptOutcomeMapKeyInt
| ScriptOutcomeMapKeyFloat | ScriptOutcomeMapKeyBool | ScriptOutcomeMapKeyText
| ScriptOutcomeMapValueKind | ScriptOutcomeMapValueInt | ScriptOutcomeMapValueFloat
| ScriptOutcomeMapValueBool | ScriptOutcomeMapValueText | ScriptOutcomeListElemSub
| ScriptOutcomeMapKeySub | ScriptOutcomeMapValueSub | ScriptGlobalList | ScriptGlobalMap
| ScriptSetList | ScriptSetMap | ScriptEngineCall | GetFieldNamed | SetFieldNamed
| ScriptEngineCallArgs | ScriptEngineLink2 | ScriptSessionCall | ScriptSessionFree
| ScriptEngineLink | ScriptEngineStdout | ScriptEngineLastError | ScriptEngineLastErrorKind
| ScriptEngineSetGlobalValue.

Definition to_byte (op : t) : Z :=
  match op with
  | Reserved => 0x00 | MakeVariantTyped => 0x01 | SetCallWitness => 0x02 | TypeLayout => 0x05
  | TypeResource => 0x06 | NewClosureTyped => 0x07 | NewClosureWitnessed => 0x08
  | DropTyped => 0x09 | BindMethodReceiver => 0x0A | ProcessExit => 0x10
  | ScriptEngineNew => 0x20 | ScriptEngineFree => 0x21 | ScriptEngineEval => 0x22
  | ScriptOutcomeIsOk => 0x23 | ScriptOutcomeKind => 0x24 | ScriptOutcomeAsInt => 0x25
  | ScriptOutcomeAsFloat => 0x26 | ScriptOutcomeAsBool => 0x27 | ScriptOutcomeFree => 0x28
  | ScriptOutcomeAsText => 0x29 | ScriptOutcomeError => 0x2A | ScriptOutcomeStdout => 0x2B
  | ScriptEngineNewSandboxed => 0x2C | ScriptEngineSetGlobalInt => 0x2D
  | ScriptEngineSetGlobalText => 0x2E | ScriptGlobalKind => 0x2F | ScriptGlobalInt => 0x30
  | ScriptGlobalText => 0x31 | ScriptEngineRegister => 0x32 | ScriptHostCallInt => 0x33
  | ScriptWorldNew => 0x34 | ScriptWorldEval => 0x35 | ScriptWorldFree => 0x36
  | ScriptSetInt => 0x37 | ScriptSetText => 0x38 | ScriptEngineSetGlobalBool => 0x39
  | ScriptEngineSetGlobalFloat => 0x3A | ScriptGlobalBool => 0x3B | ScriptGlobalFloat => 0x3C
  | ScriptSetBool => 0x3D | ScriptSetFloat => 0x3E | ScriptOutcomeListLen => 0x3F
  | ScriptOutcomeListElemKind => 0x40 | ScriptOutcomeListElemInt => 0x41
  | ScriptOutcomeListElemFloat => 0x42 | ScriptOutcomeListElemBool => 0x43
  | ScriptOutcomeListElemText => 0x44 | ScriptOutcomeMapLen => 0x45
  | ScriptOutcomeMapKeyKind => 0x46 | ScriptOutcomeMapKeyInt => 0x47
  | ScriptOutcomeMapKeyFloat => 0x48 | ScriptOutcomeMapKeyBool => 0x49
  | ScriptOutcomeMapKeyText => 0x4A | ScriptOutcomeMapValueKind => 0x4B
  | ScriptOutcomeMapValueInt => 0x4C | ScriptOutcomeMapValueFloat => 0x4D
  | ScriptOutcomeMapValueBool => 0x4E | ScriptOutcomeMapValueText => 0x4F
  | ScriptOutcomeListElemSub => 0x50 | ScriptOutcomeMapKeySub => 0x51
  | ScriptOutcomeMapValueSub => 0x52 | ScriptGlobalList => 0x53 | ScriptGlobalMap => 0x54
  | ScriptSetList => 0x55 | ScriptSetMap => 0x56 | ScriptEngineCall => 0x57
  | GetFieldNamed => 0x03 | SetFieldNamed => 0x04 | ScriptEngineCallArgs => 0x58
  | ScriptEngineLink2 => 0x59 | ScriptSessionCall => 0x5A | ScriptSessionFree => 0x5B
  | ScriptEngineLink => 0x5C | ScriptEngineStdout => 0x5D | ScriptEngineLastError => 0x5E
  | ScriptEngineLastErrorKind => 0x5F | ScriptEngineSetGlobalValue => 0x60
  end.

Definition from_byte (byte : Z) : option t :=
  match byte with
  | 0x00 => Some Reserved | 0x01 => Some MakeVariantTyped | 0x02 => Some SetCallWitness
  | 0x05 => Some TypeLayout | 0x06 => Some TypeResource | 0x07 => Some NewClosureTyped
  | 0x08 => Some NewClosureWitnessed | 0x09 => Some DropTyped | 0x0A => Some BindMethodReceiver
  | 0x10 => Some ProcessExit | 0x20 => Some ScriptEngineNew | 0x21 => Some ScriptEngineFree
  | 0x22 => Some ScriptEngineEval | 0x23 => Some ScriptOutcomeIsOk
  | 0x24 => Some ScriptOutcomeKind | 0x25 => Some ScriptOutcomeAsInt
  | 0x26 => Some ScriptOutcomeAsFloat | 0x27 => Some ScriptOutcomeAsBool
  | 0x28 => Some ScriptOutcomeFree | 0x29 => Some ScriptOutcomeAsText
  | 0x2A => Some ScriptOutcomeError | 0x2B => Some ScriptOutcomeStdout
  | 0x2C => Some ScriptEngineNewSandboxed | 0x2D => Some ScriptEngineSetGlobalInt
  | 0x2E => Some ScriptEngineSetGlobalText | 0x2F => Some ScriptGlobalKind
  | 0x30 => Some ScriptGlobalInt | 0x31 => Some ScriptGlobalText
  | 0x32 => Some ScriptEngineRegister | 0x33 => Some ScriptHostCallInt
  | 0x34 => Some ScriptWorldNew | 0x35 => Some ScriptWorldEval | 0x36 => Some ScriptWorldFree
  | 0x37 => Some ScriptSetInt | 0x38 => Some ScriptSetText
  | 0x39 => Some ScriptEngineSetGlobalBool | 0x3A => Some ScriptEngineSetGlobalFloat
  | 0x3B => Some ScriptGlobalBool | 0x3C => Some ScriptGlobalFloat | 0x3D => Some ScriptSetBool
  | 0x3E => Some ScriptSetFloat | 0x3F => Some ScriptOutcomeListLen
  | 0x40 => Some ScriptOutcomeListElemKind | 0x41 => Some ScriptOutcomeListElemInt
  | 0x42 => Some ScriptOutcomeListElemFloat | 0x43 => Some ScriptOutcomeListElemBool
  | 0x44 => Some ScriptOutcomeListElemText | 0x45 => Some ScriptOutcomeMapLen
  | 0x46 => Some ScriptOutcomeMapKeyKind | 0x47 => Some ScriptOutcomeMapKeyInt
  | 0x48 => Some ScriptOutcomeMapKeyFloat | 0x49 => Some ScriptOutcomeMapKeyBool
  | 0x4A => Some ScriptOutcomeMapKeyText | 0x4B => Some ScriptOutcomeMapValueKind
  | 0x4C => Some ScriptOutcomeMapValueInt | 0x4D => Some ScriptOutcomeMapValueFloat
  | 0x4E => Some ScriptOutcomeMapValueBool | 0x4F => Some ScriptOutcomeMapValueText
  | 0x50 => Some ScriptOutcomeListElemSub | 0x51 => Some ScriptOutcomeMapKeySub
  | 0x52 => Some ScriptOutcomeMapValueSub | 0x53 => Some ScriptGlobalList
  | 0x54 => Some ScriptGlobalMap | 0x55 => Some ScriptSetList | 0x56 => Some ScriptSetMap
  | 0x57 => Some ScriptEngineCall | 0x03 => Some GetFieldNamed | 0x04 => Some SetFieldNamed
  | 0x58 => Some ScriptEngineCallArgs | 0x59 => Some ScriptEngineLink2
  | 0x5A => Some ScriptSessionCall | 0x5B => Some ScriptSessionFree
  | 0x5C => Some ScriptEngineLink | 0x5D => Some ScriptEngineStdout
  | 0x5E => Some ScriptEngineLastError | 0x5F => Some ScriptEngineLastErrorKind
  | 0x60 => Some ScriptEngineSetGlobalValue
  | _ => None
  end.

End ExtendedSubOpcode.

Module CmpSubOpcode.
Inductive t :=
| LtU | LeU | GtU | GeU.

Definition to_byte (op : t) : Z :=
  match op with
  | LtU => 0x00 | LeU => 0x01 | GtU => 0x02 | GeU => 0x03
  end.

Definition from_byte (byte : Z) : option t :=
  match byte with
  | 0x00 => Some LtU | 0x01 => Some LeU | 0x02 => Some GtU | 0x03 => Some GeU
  | _ => None
  end.

End CmpSubOpcode.

Module LayoutProperty.
Inductive t :=
| Size | Alignment | Stride.

Definition to_byte (op : t) : Z :=
  match op with
  | Size => 0x00 | Alignment => 0x01 | Stride => 0x02
  end.

Definition from_byte (byte : Z) : option t :=
  match byte with
  | 0x00 => Some Size | 0x01 => Some Alignment | 0x02 => Some Stride
  | _ => None
  end.

End LayoutProperty.

Module BinaryIntOp.
Inductive t :=
| Add | Sub | Mul | Div | Mod | Pow | UDiv | UMod.

Definition to_byte (op : t) : Z :=
  match op with
  | Add => 0x00 | Sub => 0x01 | Mul => 0x02 | Div => 0x03 | Mod => 0x04 | Pow => 0x05
  | UDiv => 0x06 | UMod => 0x07
  end.

End BinaryIntOp.

Module BinaryFloatOp.
Inductive t :=
| Add | Sub | Mul | Div | Pow | Mod.

Definition to_byte (op : t) : Z :=
  match op with
  | Add => 0x00 | Sub => 0x01 | Mul => 0x02 | Div => 0x03 | Pow => 0x04 | Mod => 0x05
  end.

End BinaryFloatOp.

Module BinaryGenericOp.
Inductive t :=
| Add | Sub | Mul | Div.

Definition to_byte (op : t) : Z :=
  match op with
  | Add => 0x00 | Sub => 0x01 | Mul => 0x02 | Div => 0x03
  end.

End BinaryGenericOp.

Module FloatToIntMode.
Inductive t :=
| Trunc | Floor | Ceil | Round.

Definition to_byte (op : t) : Z :=
  match op with
  | Trunc => 0x00 | Floor => 0x01 | Ceil => 0x02 | Round => 0x03
  end.

Definition from_byte (byte : Z) : option t :=
  match byte with
  | 0x00 => Some Trunc | 0x01 => Some Floor | 0x02 => Some Ceil | 0x03 => Some Round
  | _ => None
  end.

End FloatToIntMode.

Module UnaryIntOp.
Inductive t :=
| Neg | Abs | Inc | Dec.

Definition to_byte (op : t) : Z :=
  match op with
  | Neg => 0x00 | Abs => 0x01 | Inc => 0x02 | Dec => 0x03
  end.

End UnaryIntOp.

Module UnaryFloatOp.
Inductive t :=
| Neg | Abs | Sqrt | Exp | Log | Sin | Cos | Tan | Floor | Ceil | Round | Asin | Acos | Atan
| Sinh | Cosh | Tanh | Asinh | Acosh | Atanh | Log10 | Log2 | Exp2 | Cbrt | Expm1 | Ln1p | Signum
| Trunc | Fract | Recip.

Definition to_byte (op : t) : Z :=
  match op with
  | Neg => 0x00 | Abs => 0x01 | Sqrt => 0x02 | Exp => 0x03 | Log => 0x04 | Sin => 0x05
  | Cos => 0x06 | Tan => 0x07 | Floor => 0x08 | Ceil => 0x09 | Round => 0x0A | Asin => 0x0B
  | Acos => 0x0C | Atan => 0x0D | Sinh => 0x0E | Cosh => 0x0F | Tanh => 0x10 | Asinh => 0x11
  | Acosh => 0x12 | Atanh => 0x13 | Log10 => 0x14 | Log2 => 0x15 | Exp2 => 0x16 | Cbrt => 0x17
  | Expm1 => 0x18 | Ln1p => 0x19 | Signum => 0x1A | Trunc => 0x1B | Fract => 0x1C | Recip => 0x1D
  end.

(** [TryFrom<u8>], of bytecode.rs. *)
Definition try_from (value : Z) : option t :=
  match value with
  | 0 => Some Neg | 1 => Some Abs | 2 => Some Sqrt | 3 => Some Exp | 4 => Some Log
  | 5 => Some Sin | 6 => Some Cos | 7 => Some Tan | 8 => Some Floor | 9 => Some Ceil
  | 10 => Some Round
  | _ => None
  end.

End UnaryFloatOp.

Module BitwiseOp.
Inductive t :=
| And | Or | Xor | Not | Shl | Shr | Ushr.

Definition to_byte (op : t) : Z :=
  match op with
  | And => 0x00 | Or => 0x01 | Xor => 0x02 | Not => 0x03 | Shl => 0x04 | Shr => 0x05
  | Ushr => 0x06
  end.

End BitwiseOp.

Module CompareOp.
Inductive t :=
| Eq | Ne | Lt | Le | Gt | Ge.

Definition to_byte (op : t) : Z :=
  match op with
  | Eq => 0x00 | Ne => 0x01 | Lt => 0x02 | Le => 0x03 | Gt => 0x04 | Ge => 0x05
  end.

Definition from_byte (byte : Z) : t :=
  match byte with
  | 0x00 => Eq | 0x01 => Ne | 0x02 => Lt | 0x03 => Le | 0x04 => Gt | 0x05 => Ge
  | _ => Eq
  end.

End CompareOp.

Module GradMode.
Inductive t :=
| Reverse | Forward | Auto.

Definition to_byte (op : t) : Z :=
  match op with
  | Reverse => 0x00 | Forward => 0x01 | Auto => 0x02
  end.

End GradMode.

Module TensorDType.
Inductive t :=
| F64 | F32 | F16 | BF16 | I64 | I32 | I16 | I8 | U64 | U32 | U16 | U8 | Bool | Complex64
| Complex128.

Definition to_byte (op : t) : Z :=
  match op with
  | F64 => 0x00 | F32 => 0x01 | F16 => 0x02 | BF16 => 0x03 | I64 => 0x04 | I32 => 0x05
  | I16 => 0x06 | I8 => 0x07 | U64 => 0x08 | U32 => 0x09 | U16 => 0x0A | U8 => 0x0B
  | Bool => 0x0C | Complex64 => 0x0D | Complex128 => 0x0E
  end.

Definition from_byte (byte : Z) : t :=
  match byte with
  | 0x00 => F64 | 0x01 => F32 | 0x02 => F16 | 0x03 => BF16 | 0x04 => I64 | 0x05 => I32
  | 0x06 => I16 | 0x07 => I8 | 0x08 => U64 | 0x09 => U32 | 0x0A => U16 | 0x0B => U8
  | 0x0C => Bool | 0x0D => Complex64 | 0x0E => Complex128
  | _ => F64
  end.

End TensorDType.

Module TensorCumulativeOp.
Inductive t :=
| Sum | Prod | Max | Min.

Definition to_byte (op : t) : Z :=
  match op with
  | Sum => 0x00 | Prod => 0x01 | Max => 0x02 | Min => 0x03
  end.

Definition from_byte (byte : Z) : t :=
  match byte with
  | 0x00 => Sum | 0x01 => Prod | 0x02 => Max | 0x03 => Min
  | _ => Sum
  end.

End TensorCumulativeOp.

Module TensorPoolOp.
Inductive t :=
| Max | Avg | Sum | AdaptiveMax | AdaptiveAvg.

Definition to_byte (op : t) : Z :=
  match op with
  | Max => 0x00 | Avg => 0x01 | Sum => 0x02 | AdaptiveMax => 0x03 | AdaptiveAvg => 0x04
  end.

Definition from_byte (byte : Z) : t :=
  match byte with
  | 0x00 => Max | 0x01 => Avg | 0x02 => Sum | 0x03 => AdaptiveMax | 0x04 => AdaptiveAvg
  | _ => Max
  end.

End TensorPoolOp.
