(* ===== verification/Instruction.v ===== *)
(** * The instruction set

    [Instruction] of [verum_vbc/src/instruction.rs], its variants in the order of
    the source and their fields by position. *)

From S2P Require Import Prelude Words Encoding TypeRefs Opcodes.

(** The widths of the fields.  A float is its bit pattern. *)
Abbreviation u8 := Z (only parsing).
Abbreviation u16 := Z (only parsing).
Abbreviation u32 := Z (only parsing).
Abbreviation i8 := Z (only parsing).
Abbreviation i32 := Z (only parsing).
Abbreviation i64 := Z (only parsing).
Abbreviation f32 := Z (only parsing).
Abbreviation f64 := Z (only parsing).

(** [[Reg; 3]]. *)
Abbreviation reg3 := (Reg * Reg * Reg)%type (only parsing).

(** The hints of [verum_vbc/src/module.rs]. *)
Inductive LoopUnrollHint := UnrollCount (n : u32) | UnrollFull | UnrollDisable.
Inductive VectorizeHint := VectorizeEnable | VectorizeForce | VectorizeWidth (n : u32) | VectorizeDisable.
Record LoopHints := { unroll : option LoopUnrollHint; vectorize : option VectorizeHint }.

Module Instruction.
Inductive t :=
| Mov (dst src : Reg)
| LoadK (dst : Reg) (const_id : u32)
| LoadI (dst : Reg) (value : i64)
| LoadF (dst : Reg) (value : f64)
| LoadTrue (dst : Reg)
| LoadFalse (dst : Reg)
| LoadUnit (dst : Reg)
| LoadT (dst : Reg) (type_ref : TypeRef)
| TypeLayout (dst : Reg) (type_ref : TypeRef) (property : LayoutProperty.t)
| TypeResource (dst : Reg) (type_ref : TypeRef)
| LoadSmallI (dst : Reg) (value : i8)
| CvtIF (dst src : Reg)
| CvtFI (mode : FloatToIntMode.t) (dst src : Reg)
| CvtIC (dst src : Reg)
| CvtCI (dst src : Reg)
| CvtBI (dst src : Reg)
| CvtToI (dst src : Reg)
| CvtToF (dst src : Reg)
| BinaryI (op : BinaryIntOp.t) (dst a b : Reg)
| BinaryF (op : BinaryFloatOp.t) (dst a b : Reg)
| BinaryG (op : BinaryGenericOp.t) (dst a b : Reg) (protocol_id : u32)
| UnaryI (op : UnaryIntOp.t) (dst src : Reg)
| UnaryF (op : UnaryFloatOp.t) (dst src : Reg)
| Not (dst src : Reg)
| Bitwise (op : BitwiseOp.t) (dst a b : Reg)
| CmpI (op : CompareOp.t) (dst a b : Reg)
| CmpF (op : CompareOp.t) (dst a b : Reg)
| CmpG (eq : bool) (dst a b : Reg) (protocol_id : u32)
| CmpU (sub_op : CmpSubOpcode.t) (dst a b : Reg)
| Nop
| Jmp (offset : i32)
| JmpIf (cond : Reg) (offset : i32)
| JmpNot (cond : Reg) (offset : i32)
| JmpCmp (op : CompareOp.t) (a b : Reg) (offset : i32)
| Ret (value : Reg)
| RetV
| Call (dst : Reg) (func_id : u32) (args : RegRange)
| TailCall (func_id : u32) (args : RegRange)
| CallM (dst receiver : Reg) (method_id : u32) (args : RegRange)
| CallClosure (dst closure : Reg) (args : RegRange)
| NewClosure (dst : Reg) (func_id : u32) (captures : list Reg) (capture_types : option (list
    (option TypeRef))) (lexical_types : list TypeRef)
| New (dst : Reg) (type_id field_count : u32)
| NewG (dst : Reg) (type_id : u32) (type_args : list Reg)
| GetF (dst obj : Reg) (field_idx : u32)
| SetF (obj : Reg) (field_idx : u32) (value : Reg)
| GetE (dst arr idx : Reg)
| SetE (arr idx value : Reg)
| Len (dst arr : Reg) (type_hint : u8)
| NewList (dst : Reg) (capacity_hint : u16)
| ListPush (list val : Reg)
| ListPop (dst list : Reg)
| NewMap (dst : Reg) (capacity_hint : u16)
| MapGet (dst map key : Reg)
| MapSet (map key val : Reg)
| MapContains (dst map key : Reg)
| IterNew (dst iterable : Reg)
| IterNext (dst has_next iter : Reg)
| Clone (dst src : Reg)
| Ref (dst src : Reg)
| RefMut (dst src : Reg)
| RefLocal (dst src : Reg)
| RefObj (dst src : Reg)
| Deref (dst ref_reg : Reg)
| DerefMut (ref_reg value : Reg)
| ChkRef (ref_reg : Reg)
| RefChecked (dst src : Reg)
| RefUnsafe (dst src : Reg)
| DropRef (src : Reg)
| DropTyped (src : Reg) (type_ref : TypeRef)
| CallG (dst : Reg) (func_id : u32) (type_args : list TypeRef) (args : RegRange)
| CallV (dst receiver : Reg) (vtable_slot : u32) (args : RegRange)
| CallC (dst : Reg) (cache_id : u32) (args : RegRange)
| IsVar (dst value : Reg) (tag : u32)
| IsType (dst value : Reg) (type_id : u32)
| AsVar (dst value : Reg) (tag : u32)
| Unpack (dst_start tuple : Reg) (count : u8)
| Pack (dst src_start : Reg) (count : u8)
| Switch (value : Reg) (default_offset : i32) (cases : list (u32 * i32))
| GenCreate (dst : Reg) (func_id : u32) (args : RegRange)
| GenNext (dst generator : Reg)
| GenHasNext (dst generator : Reg)
| Spawn (dst : Reg) (func_id : u32) (args : RegRange)
| Await (dst task : Reg)
| Yield (value : Reg)
| AsyncYield
| Select (dst : Reg) (futures : list Reg) (handlers : list i32)
| NurseryInit (dst : Reg)
| NurserySetTimeout (nursery timeout : Reg)
| NurserySetMaxTasks (nursery max_tasks : Reg)
| NurserySetErrorBehavior (nursery behavior : Reg)
| NurseryEnter (nursery : Reg)
| NurseryExit (nursery : Reg)
| NurserySpawn (dst nursery task : Reg)
| NurseryAwaitAll (nursery success : Reg)
| NurseryGetError (nursery dst : Reg)
| NurseryCancel (nursery : Reg)
| GradBegin (scope_id : u32) (mode : GradMode.t) (wrt : list Reg)
| GradEnd (scope_id : u32) (out_reg grad_out : Reg) (grad_regs : list Reg)
| GradCheckpoint (id : u32) (tensors : list Reg)
| GradAccumulate (dst src : Reg)
| GradStop (dst src : Reg)
| CtxGet (dst : Reg) (ctx_type : u32)
| CtxProvide (ctx_type : u32) (value : Reg) (body_offset : i32)
| CtxEnd
| CtxCheckNegative (ctx_type func_name : u32)
| Spec (reg : Reg) (expected_type : u32)
| Guard (reg : Reg) (expected_type : u32) (deopt_offset : i32)
| Assert (cond : Reg) (message_id : u32)
| Panic (message_id : u32)
| Unreachable
| DebugPrint (value : Reg)
| NewSet (dst : Reg) (capacity_hint : u16)
| NewDeque (dst : Reg) (capacity_hint : u16)
| SetInsert (set elem : Reg)
| SetContains (dst set elem : Reg)
| SetRemove (set elem : Reg)
| ToString (dst src : Reg)
| Concat (dst a b : Reg)
| CharToStr (dst src : Reg)
| NewRange (dst start end_ : Reg) (inclusive : bool)
| Push (src : Reg)
| Pop (dst : Reg)
| CallR (dst func : Reg) (argc : u8)
| LoadNil (dst : Reg)
| Throw (error : Reg)
| TryBegin (handler_offset : i32)
| TryEnd
| GetException (dst : Reg)
| FutureReady (dst future : Reg)
| FutureGet (dst future : Reg)
| AsyncNext (dst iter : Reg)
| PushContext (name : u32) (handler : Reg)
| PopContext (name : u32)
| Attenuate (dst context : Reg) (capabilities : u32)
| MetaQuote (dst : Reg) (bytes_const_id : u32)
| MetaSplice (src : Reg)
| MetaEval (dst expr : Reg)
| MetaReflect (dst : Reg) (type_id : u32)
| Iter (dst iterable : Reg)
| GetTag (dst variant : Reg)
| MakeVariant (dst : Reg) (tag field_count : u32)
| BindMethodReceiver (type_ref : TypeRef)
| SetCallWitness (type_args : list TypeRef)
| MakeVariantTyped (dst : Reg) (type_id tag field_count : u32)
| GetFieldNamed (dst obj : Reg) (name : u32)
| SetFieldNamed (obj : Reg) (name : u32) (value : Reg)
| SetVariantData (variant : Reg) (field : u32) (value : Reg)
| GetVariantData (dst variant : Reg) (field : u32)
| GetVariantDataRef (dst variant : Reg) (field : u32)
| MakePi (dst param : Reg) (return_type_id : u32)
| MakeSigma (dst witness payload : Reg)
| MakeWitness (dst value : Reg) (proof_hash : u32)
| MapInsert (map key value : Reg)
| MakeTensor (dst : Reg) (shape_len : u16) (total_size : u32) (data : Reg)
| TensorFlashAttention (dst q k v : Reg) (mask : option Reg) (scale : Reg) (causal : bool)
| TensorContiguousView (dst src : Reg)
| RandomU64 (dst : Reg)
| RandomFloat (dst low high : Reg)
| GlobalAllocator (dst : Reg)
| MemNewId (dst : Reg)
| MemAllocTensor (dst shape : Reg) (dtype : u8)
| PermissionCheckWire (dst scope_tag target_id : Reg)
| PermissionAssert (scope_tag : u8) (target_id : Reg)
| PermissionStatsRead (dst selector : Reg)
| PermissionStatsClear (dst : Reg)
| GpuLaunch (kernel_id : u32) (grid block : reg3) (shared_mem stream : Reg) (args : list Reg)
| GpuSync (stream : Reg)
| GpuMemcpy (dst src : Reg) (direction : u8)
| GpuAlloc (dst size device : Reg)
| GpuStreamCreate (dst : Reg)
| GpuStreamCreateWithPriority (dst priority : Reg)
| GpuStreamCreateNonBlocking (dst : Reg)
| GpuStreamDestroy (stream : Reg)
| GpuStreamQuery (dst stream : Reg)
| GpuStreamWaitEvent (stream event : Reg)
| GpuStreamGetPriority (dst stream : Reg)
| GpuStreamAddCallback (stream : Reg) (callback_id : u32) (user_data : Reg)
| GpuEventCreate (dst : Reg)
| GpuEventCreateWithFlags (dst : Reg) (flags : u8)
| GpuEventDestroy (event : Reg)
| GpuEventRecord (event stream : Reg)
| GpuEventRecordWithFlags (event stream : Reg) (flags : u8)
| GpuEventSynchronize (event : Reg)
| GpuEventQuery (dst event : Reg)
| GpuEventElapsed (dst start_event end_event : Reg)
| GpuGetDevice (dst : Reg)
| GpuSetDevice (device : Reg)
| GpuGetDeviceCount (dst : Reg)
| GpuGetDeviceProperty (dst device : Reg) (property_id : u8)
| GpuGetMemoryInfo (free total device : Reg)
| GpuCanAccessPeer (dst device peer_device : Reg)
| GpuEnablePeerAccess (device peer_device : Reg)
| GpuDisablePeerAccess (device peer_device : Reg)
| GpuDeviceReset (device : Reg)
| GpuSetDeviceFlags (flags : u8)
| GpuMemcpyAsync (dst src size : Reg) (direction : u8) (stream : Reg)
| GpuFree (ptr : Reg)
| GpuPinMemory (ptr size : Reg)
| GpuUnpinMemory (ptr : Reg)
| GpuPrefetch (ptr size device stream : Reg)
| GpuMemset (ptr : Reg) (value : u8) (size : Reg)
| GpuMemsetAsync (ptr : Reg) (value : u8) (size stream : Reg)
| GpuMemcpy2D (dst dst_pitch src src_pitch width height : Reg) (direction : u8)
| GpuMemcpy2DAsync (dst dst_pitch src src_pitch width height : Reg) (direction : u8) (stream :
    Reg)
| GpuMemcpyH2D (dst src size : Reg)
| GpuMemcpyD2H (dst src size : Reg)
| GpuMemcpyD2D (dst src size : Reg)
| GpuMemcpyAsyncH2D (dst src size stream : Reg)
| GpuMemcpyAsyncD2H (dst src size stream : Reg)
| GpuMallocManaged (dst size : Reg) (attach_flags : u8)
| GpuMemAdvise (ptr size : Reg) (advice : u8) (device : Reg)
| GpuPrefetchAsync (ptr size device stream : Reg)
| GpuMemGetAttribute (dst ptr : Reg) (attribute : u8)
| GpuGraphCreate (dst : Reg)
| GpuGraphBeginCapture (stream : Reg) (mode : u8)
| GpuGraphEndCapture (dst stream : Reg)
| GpuGraphInstantiate (dst graph : Reg)
| GpuGraphLaunch (graph_exec stream : Reg)
| GpuGraphDestroy (graph : Reg)
| GpuGraphExecDestroy (graph_exec : Reg)
| GpuGraphExecUpdate (graph_exec graph : Reg)
| GpuProfileRangeStart (name_id : u32)
| GpuProfileRangeEnd
| GpuProfileMarkerPush (name_id : u32)
| GpuProfileMarkerPop
| GpuEnumerateDevices (dst : Reg) (backend : u8)
| GpuLaunchCooperative (kernel_id : u32) (grid block : reg3) (shared_mem stream : Reg) (args :
    list Reg)
| GpuLaunchMultiDevice (kernel_id : u32) (devices : Reg) (grid block : reg3) (shared_mem : Reg)
    (args : list Reg)
| GpuDeviceSync
| TensorArange (dst start end_ step : Reg) (dtype : TensorDType.t)
| TensorLinspace (dst start end_ num : Reg) (dtype : TensorDType.t)
| TensorRand (dst : Reg) (shape : list Reg) (dtype : TensorDType.t)
| TensorClone (dst src : Reg)
| TensorIdentity (dst size : Reg) (dtype : TensorDType.t)
| TensorIndex (dst src indices : Reg) (axis : u8)
| TensorConcat (dst : Reg) (tensors : list Reg) (axis : u8)
| TensorStack (dst : Reg) (tensors : list Reg) (axis : u8)
| TensorBroadcast (dst src : Reg) (shape : list Reg)
| TensorSqueeze (dst src : Reg) (axes : list u8)
| TensorCmp (op : CompareOp.t) (dst a b : Reg)
| TensorWhere (dst cond x y : Reg)
| TensorClamp (dst src min max : Reg)
| TensorCast (dst src : Reg) (dtype : TensorDType.t)
| TensorMaskedFill (dst src mask value : Reg)
| TensorLerp (dst a b t : Reg)
| TensorDot (dst a b : Reg) (axes_a axes_b : list u8)
| TensorConv (dst input kernel : Reg) (bias : option Reg) (stride padding dilation : list u8)
    (groups : u8)
| TensorBatchMatmul (dst a b : Reg)
| TensorEinsum (dst : Reg) (inputs : list Reg) (equation_id : u32)
| TensorOuter (dst a b : Reg)
| TensorTriSolve (dst a b : Reg) (upper : bool)
| TensorCholesky (dst src : Reg) (upper : bool)
| TensorArgmax (dst src : Reg) (axis : i8) (keepdim : bool)
| TensorTopk (values indices src k : Reg) (axis : i8) (largest : bool)
| TensorCumulative (op : TensorCumulativeOp.t) (dst src : Reg) (axis : i8)
| TensorSoftmax (dst src : Reg) (axis : i8)
| TensorLayerNorm (dst input : Reg) (gamma beta : option Reg) (normalized_shape : u32) (eps :
    f32)
| TensorBatchNorm (dst input : Reg) (gamma beta running_mean running_var : option Reg) (training
    : bool) (momentum eps : f32)
| TensorRmsNorm (dst input : Reg) (gamma : option Reg) (eps : f32)
| TensorFft (dst src : Reg) (dim : i8) (inverse : bool)
| TensorScatter (dst src index values : Reg) (axis : i8) (mode : u8)
| TensorPool (op : TensorPoolOp.t) (dst src : Reg) (kernel_size stride padding : list u8)
| TensorArgmin (dst src : Reg) (axis : i8) (keepdim : bool)
| TensorSolve (dst a b : Reg)
| TensorGather (dst src index : Reg) (axis : i8)
| TensorPermute (dst src : Reg) (axes : list u8)
| TensorQR (q r src : Reg) (mode : u8)
| TensorSVD (u s vh src : Reg) (full_matrices compute_uv : bool)
| TensorLU (p l u src : Reg)
| TensorEig (eigenvalues eigenvectors src : Reg) (compute_v : bool)
| TensorEigSymmetric (eigenvalues eigenvectors src : Reg) (upper : bool)
| TensorLstsq (x residuals rank s a b : Reg) (rcond : f64)
| TensorDet (dst src : Reg)
| TensorTrace (dst src : Reg)
| TensorNorm (dst src : Reg) (ord : i8)
| SyscallLinux (dst num a1 a2 a3 a4 a5 a6 : Reg)
| Mmap (dst addr len prot flags fd offset : Reg)
| Munmap (dst addr len : Reg)
| AtomicLoad (dst ptr : Reg) (ordering size : u8)
| AtomicStore (ptr val : Reg) (ordering size : u8)
| AtomicCas (dst ptr expected desired : Reg) (ordering size : u8)
| AtomicFence (ordering : u8)
| IoSubmit (dst engine ops : Reg)
| IoPoll (dst engine timeout : Reg)
| TlsGet (dst slot : Reg)
| TlsSet (slot val : Reg)
| ArithExtended (sub_op : u8) (operands : list u8)
| TensorExtended (sub_op : u8) (operands : list u8)
| MathExtended (sub_op : u8) (operands : list u8)
| SimdExtended (sub_op : u8) (operands : list u8)
| CharExtended (sub_op : u8) (operands : list u8)
| CbgrExtended (sub_op : u8) (operands : list u8)
| TextExtended (sub_op : u8) (operands : list u8)
| CubicalExtended (sub_op : u8) (dst : Reg) (args : list Reg)
| GpuExtended (sub_op : u8) (operands : list u8)
| FfiExtended (sub_op : u8) (operands : list u8)
| TimeExtended (sub_op : u8) (operands : list u8)
| SysExtended (sub_op : u8) (operands : list u8)
| MachExtended (sub_op : u8) (operands : list u8)
| SyncExtended (sub_op : u8) (operands : list u8)
| Extended (sub_op : u8) (operands : list u8)
| MemExtended (sub_op : u8) (operands : list u8)
| LogExtended (sub_op : u8) (operands : list u8)
| LoopHint (hints : LoopHints)
| BranchHint (likely : bool)
| PrefetchHint (addr : Reg) (is_read : bool) (locality : u8)
| OptBarrier (reg : Reg)
| Raw (opcode : Opcode.t) (data : list u8).
End Instruction.
