(* ===== verification/InstructionEncode.v ===== *)
(** * Encoding of instructions

    [encode_instruction] of [verum_vbc/src/bytecode.rs].  An arm is the sequence
    of its writes; the match is split at the headings of the source, each part a
    function that answers the variants of its section. *)

From S2P Require Import Prelude Words Encoding TypeRefs Opcodes Instruction.

(** ** Writes *)

(** What a statement appends to the output vector. *)
Definition writer : Type := bytes → bytes.

Definition then_write (e e' : writer) : writer := λ output, e' (e output).
Notation "e |> e'" := (then_write e e') (at level 62, right associativity).

Definition push (byte : Z) : writer := λ output, output ++ [byte].
Definition push_op (opcode : Opcode.t) : writer := push (Opcode.to_byte opcode).
Definition push_ext (sub_op : ExtendedSubOpcode.t) : writer := push (ExtendedSubOpcode.to_byte sub_op).
Definition push_gpu (sub_op : GpuSubOpcode.t) : writer := push (GpuSubOpcode.to_byte sub_op).
Definition push_tensor (sub_op : TensorSubOpcode.t) : writer := push (TensorSubOpcode.to_byte sub_op).
Definition push_tensor_ext (sub_op : TensorExtSubOpcode.t) : writer :=
  push (TensorExtSubOpcode.to_byte sub_op).
Definition extend (slice : bytes) : writer := λ output, output ++ slice.
Definition for_each {A} (l : list A) (write : A → writer) : writer :=
  λ output, fold_left (λ output x, write x output) l output.
Definition when (b : bool) (write : writer) : writer := if b then write else λ output, output.
Definition if_some {A} (o : option A) (write : A → writer) : writer :=
  match o with Some a => write a | None => λ output, output end.
Definition put_signed_varint (v : Z) : writer := λ output, (encode_signed_varint v output).1.
Definition encode_reg3 (r : reg3) : writer :=
  let '(x, y, z) := r in encode_reg x |> encode_reg y |> encode_reg z.

Definition encode_escaped_tensor_header (sub_op : TensorExtSubOpcode.t) (operand_size : nat) : writer :=
  push_op Opcode.TensorExtended |> push 0xFF |> put_varint (Z.of_nat (1 + operand_size))
  |> push_tensor_ext sub_op.

(** The capture types of a closure, each behind a presence byte. *)
Definition encode_capture_types (types : list (option TypeRef)) : writer :=
  put_len types |> for_each types (λ ty, push (Z.b2z (is_some ty)) |> if_some ty encode_type_ref).

Definition enumerate_sub_op (backend : u8) : GpuSubOpcode.t :=
  match backend with
  | 0 => GpuSubOpcode.EnumerateCuda
  | 1 => GpuSubOpcode.EnumerateMetal
  | 2 => GpuSubOpcode.EnumerateRocm
  | 3 => GpuSubOpcode.EnumerateVulkan
  | _ => GpuSubOpcode.EnumerateCuda
  end.

(** The first section that answers. *)
Fixpoint first_some {A B} (a : A) (fs : list (A → option B)) : option B :=
  match fs with
  | [] => None
  | f :: fs => match f a with Some b => Some b | None => first_some a fs end
  end.

(** ** Opcodes of the operation codes *)

Definition binary_int_op_to_opcode (op : BinaryIntOp.t) : Opcode.t :=
  match op with
  | BinaryIntOp.Add => Opcode.AddI | BinaryIntOp.Sub => Opcode.SubI
  | BinaryIntOp.Mul => Opcode.MulI | BinaryIntOp.Div => Opcode.DivI
  | BinaryIntOp.Mod => Opcode.ModI | BinaryIntOp.Pow => Opcode.PowI
  | BinaryIntOp.UDiv => Opcode.UDivI | BinaryIntOp.UMod => Opcode.UModI
  end.

Definition binary_float_op_to_opcode (op : BinaryFloatOp.t) : Opcode.t :=
  match op with
  | BinaryFloatOp.Add => Opcode.AddF | BinaryFloatOp.Sub => Opcode.SubF
  | BinaryFloatOp.Mul => Opcode.MulF | BinaryFloatOp.Div => Opcode.DivF
  | BinaryFloatOp.Pow => Opcode.PowF | BinaryFloatOp.Mod => Opcode.ModF
  end.

Definition binary_generic_op_to_opcode (op : BinaryGenericOp.t) : Opcode.t :=
  match op with
  | BinaryGenericOp.Add => Opcode.AddG | BinaryGenericOp.Sub => Opcode.SubG
  | BinaryGenericOp.Mul => Opcode.MulG | BinaryGenericOp.Div => Opcode.DivG
  end.

Definition unary_int_op_to_opcode (op : UnaryIntOp.t) : Opcode.t :=
  match op with
  | UnaryIntOp.Neg => Opcode.NegI | UnaryIntOp.Abs => Opcode.AbsI | UnaryIntOp.Inc => Opcode.Inc
  | UnaryIntOp.Dec => Opcode.Dec
  end.

Definition bitwise_op_to_opcode (op : BitwiseOp.t) : Opcode.t :=
  match op with
  | BitwiseOp.And => Opcode.Band | BitwiseOp.Or => Opcode.Bor | BitwiseOp.Xor => Opcode.Bxor
  | BitwiseOp.Not => Opcode.Bnot | BitwiseOp.Shl => Opcode.Shl | BitwiseOp.Shr => Opcode.Shr
  | BitwiseOp.Ushr => Opcode.Ushr
  end.

Definition cmp_int_op_to_opcode (op : CompareOp.t) : Opcode.t :=
  match op with
  | CompareOp.Eq => Opcode.EqI | CompareOp.Ne => Opcode.NeI | CompareOp.Lt => Opcode.LtI
  | CompareOp.Le => Opcode.LeI | CompareOp.Gt => Opcode.GtI | CompareOp.Ge => Opcode.GeI
  end.

Definition cmp_float_op_to_opcode (op : CompareOp.t) : Opcode.t :=
  match op with
  | CompareOp.Eq => Opcode.EqF | CompareOp.Ne => Opcode.NeF | CompareOp.Lt => Opcode.LtF
  | CompareOp.Le => Opcode.LeF | CompareOp.Gt => Opcode.GtF | CompareOp.Ge => Opcode.GeF
  end.

Definition jmp_cmp_op_to_opcode (op : CompareOp.t) : Opcode.t :=
  match op with
  | CompareOp.Eq => Opcode.JmpEq | CompareOp.Ne => Opcode.JmpNe | CompareOp.Lt => Opcode.JmpLt
  | CompareOp.Le => Opcode.JmpLe | CompareOp.Gt => Opcode.JmpGt | CompareOp.Ge => Opcode.JmpGe
  end.

(** ** The arms *)

Definition encode_data_movement (instr : Instruction.t) : option writer :=
  match instr with
  | Instruction.Mov dst src => Some (push_op Opcode.Mov |> encode_reg dst |> encode_reg src)
  | Instruction.SetCallWitness type_args =>
      Some (push_op Opcode.Extended |> push_ext ExtendedSubOpcode.SetCallWitness
       |> put_len type_args |> for_each type_args encode_type_ref)
  | Instruction.BindMethodReceiver type_ref =>
      Some (push_op Opcode.Extended |> push_ext ExtendedSubOpcode.BindMethodReceiver
       |> encode_type_ref type_ref)
  | Instruction.TypeResource dst type_ref =>
      Some (push_op Opcode.Extended |> push_ext ExtendedSubOpcode.TypeResource
       |> encode_reg dst |> encode_type_ref type_ref)
  | Instruction.DropTyped src type_ref =>
      Some (push_op Opcode.Extended |> push_ext ExtendedSubOpcode.DropTyped |> encode_reg src
       |> encode_type_ref type_ref)
  | Instruction.LoadK dst const_id =>
      Some (push_op Opcode.LoadK |> encode_reg dst |> put_varint const_id)
  | Instruction.LoadI dst value =>
      Some (push_op Opcode.LoadI |> encode_reg dst |> put_signed_varint value)
  | Instruction.LoadF dst value =>
      Some (push_op Opcode.LoadF |> encode_reg dst |> encode_f64 value)
  | Instruction.LoadTrue dst => Some (push_op Opcode.LoadTrue |> encode_reg dst)
  | Instruction.LoadFalse dst => Some (push_op Opcode.LoadFalse |> encode_reg dst)
  | Instruction.LoadUnit dst => Some (push_op Opcode.LoadUnit |> encode_reg dst)
  | Instruction.LoadT dst type_ref =>
      Some (push_op Opcode.LoadT |> encode_reg dst |> encode_type_ref type_ref)
  | Instruction.TypeLayout dst type_ref property =>
      Some (push_op Opcode.Extended |> push_ext ExtendedSubOpcode.TypeLayout |> encode_reg dst
       |> push (LayoutProperty.to_byte property) |> encode_type_ref type_ref)
  | Instruction.LoadSmallI dst value =>
      Some (push_op Opcode.LoadSmallI |> encode_reg dst |> push (wrap 8 value))
  | _ => None
  end.

Definition encode_type_conversions (instr : Instruction.t) : option writer :=
  match instr with
  | Instruction.CvtIF dst src => Some (push_op Opcode.CvtIF |> encode_reg dst |> encode_reg src)
  | Instruction.CvtFI mode dst src =>
      Some (push_op Opcode.CvtFI |> push (FloatToIntMode.to_byte mode) |> encode_reg dst
       |> encode_reg src)
  | Instruction.CvtIC dst src => Some (push_op Opcode.CvtIC |> encode_reg dst |> encode_reg src)
  | Instruction.CvtCI dst src => Some (push_op Opcode.CvtCI |> encode_reg dst |> encode_reg src)
  | Instruction.CvtBI dst src => Some (push_op Opcode.CvtBI |> encode_reg dst |> encode_reg src)
  | Instruction.CvtToI dst src =>
      Some (push_op Opcode.CvtToI |> encode_reg dst |> encode_reg src)
  | Instruction.CvtToF dst src =>
      Some (push_op Opcode.CvtToF |> encode_reg dst |> encode_reg src)
  | _ => None
  end.

Definition encode_arithmetic (instr : Instruction.t) : option writer :=
  match instr with
  | Instruction.BinaryI op dst a b =>
      Some (push_op (binary_int_op_to_opcode op) |> encode_reg dst |> encode_reg a
       |> encode_reg b)
  | Instruction.BinaryF op dst a b =>
      Some (push_op (binary_float_op_to_opcode op) |> encode_reg dst |> encode_reg a
       |> encode_reg b)
  | Instruction.BinaryG op dst a b protocol_id =>
      Some (push_op (binary_generic_op_to_opcode op) |> encode_reg dst |> encode_reg a
       |> encode_reg b |> put_varint protocol_id)
  | Instruction.UnaryI op dst src =>
      Some (push_op (unary_int_op_to_opcode op) |> encode_reg dst |> encode_reg src)
  | Instruction.UnaryF op dst src =>
      Some (push_op Opcode.NegF |> push (UnaryFloatOp.to_byte op) |> encode_reg dst
       |> encode_reg src)
  | Instruction.Not dst src => Some (push_op Opcode.Not |> encode_reg dst |> encode_reg src)
  | Instruction.Bitwise op dst a b =>
      Some (push_op (bitwise_op_to_opcode op) |> encode_reg dst |> encode_reg a
       |> encode_reg b)
  | _ => None
  end.

Definition encode_comparison (instr : Instruction.t) : option writer :=
  match instr with
  | Instruction.CmpI op dst a b =>
      Some (push_op (cmp_int_op_to_opcode op) |> encode_reg dst |> encode_reg a
       |> encode_reg b)
  | Instruction.CmpF op dst a b =>
      Some (push_op (cmp_float_op_to_opcode op) |> encode_reg dst |> encode_reg a
       |> encode_reg b)
  | Instruction.CmpG eq dst a b protocol_id =>
      Some (push_op (if eq then Opcode.EqG else Opcode.CmpG) |> encode_reg dst |> encode_reg a
       |> encode_reg b |> put_varint protocol_id)
  | Instruction.CmpU sub_op dst a b =>
      Some (push_op Opcode.CmpExtended |> push (CmpSubOpcode.to_byte sub_op) |> encode_reg dst
       |> encode_reg a |> encode_reg b)
  | _ => None
  end.

Definition encode_control_flow (instr : Instruction.t) : option writer :=
  match instr with
  | Instruction.Jmp offset => Some (push_op Opcode.Jmp |> put_signed_varint offset)
  | Instruction.JmpIf cond offset =>
      Some (push_op Opcode.JmpIf |> encode_reg cond |> put_signed_varint offset)
  | Instruction.JmpNot cond offset =>
      Some (push_op Opcode.JmpNot |> encode_reg cond |> put_signed_varint offset)
  | Instruction.JmpCmp op a b offset =>
      Some (push_op (jmp_cmp_op_to_opcode op) |> encode_reg a |> encode_reg b
       |> put_signed_varint offset)
  | Instruction.Ret value => Some (push_op Opcode.Ret |> encode_reg value)
  | Instruction.RetV => Some (push_op Opcode.RetV)
  | Instruction.Call dst func_id args =>
      Some (push_op Opcode.Call |> encode_reg dst |> put_varint func_id
       |> encode_reg_range args)
  | Instruction.TailCall func_id args =>
      Some (push_op Opcode.TailCall |> put_varint func_id |> encode_reg_range args)
  | Instruction.CallM dst receiver method_id args =>
      Some (push_op Opcode.CallM |> encode_reg dst |> encode_reg receiver
       |> put_varint method_id |> encode_reg_range args)
  | _ => None
  end.

Definition encode_memory (instr : Instruction.t) : option writer :=
  match instr with
  | Instruction.New dst type_id field_count =>
      Some (push_op Opcode.New |> encode_reg dst |> put_varint type_id
       |> put_varint field_count)
  | Instruction.NewG dst type_id type_args =>
      Some (push_op Opcode.NewG |> encode_reg dst |> put_varint type_id
       |> encode_reg_vec type_args)
  | Instruction.GetF dst obj field_idx =>
      Some (push_op Opcode.GetF |> encode_reg dst |> encode_reg obj |> put_varint field_idx)
  | Instruction.SetF obj field_idx value =>
      Some (push_op Opcode.SetF |> encode_reg obj |> put_varint field_idx |> encode_reg value)
  | Instruction.GetE dst arr idx =>
      Some (push_op Opcode.GetE |> encode_reg dst |> encode_reg arr |> encode_reg idx)
  | Instruction.SetE arr idx value =>
      Some (push_op Opcode.SetE |> encode_reg arr |> encode_reg idx |> encode_reg value)
  | Instruction.Len dst arr type_hint =>
      Some (push_op Opcode.Len |> encode_reg dst |> encode_reg arr |> push type_hint)
  | _ => None
  end.

Definition encode_cbgr (instr : Instruction.t) : option writer :=
  match instr with
  | Instruction.Ref dst src => Some (push_op Opcode.Ref |> encode_reg dst |> encode_reg src)
  | Instruction.RefMut dst src =>
      Some (push_op Opcode.RefMut |> encode_reg dst |> encode_reg src)
  | Instruction.RefLocal dst src =>
      Some (push_op Opcode.RefLocal |> encode_reg dst |> encode_reg src)
  | Instruction.RefObj dst src =>
      Some (push_op Opcode.RefObj |> encode_reg dst |> encode_reg src)
  | Instruction.Deref dst ref_reg =>
      Some (push_op Opcode.Deref |> encode_reg dst |> encode_reg ref_reg)
  | Instruction.DerefMut ref_reg value =>
      Some (push_op Opcode.DerefMut |> encode_reg ref_reg |> encode_reg value)
  | Instruction.ChkRef ref_reg => Some (push_op Opcode.ChkRef |> encode_reg ref_reg)
  | Instruction.DropRef src => Some (push_op Opcode.DropRef |> encode_reg src)
  | Instruction.RefChecked dst src =>
      Some (push_op Opcode.RefChecked |> encode_reg dst |> encode_reg src)
  | Instruction.RefUnsafe dst src =>
      Some (push_op Opcode.RefUnsafe |> encode_reg dst |> encode_reg src)
  | _ => None
  end.

Definition encode_generic (instr : Instruction.t) : option writer :=
  match instr with
  | Instruction.CallG dst func_id type_args args =>
      Some (push_op Opcode.CallG |> encode_reg dst |> put_varint func_id |> put_len type_args
       |> for_each type_args encode_type_ref |> encode_reg_range args)
  | Instruction.CallV dst receiver vtable_slot args =>
      Some (push_op Opcode.CallV |> encode_reg dst |> encode_reg receiver
       |> put_varint vtable_slot |> encode_reg_range args)
  | Instruction.CallC dst cache_id args =>
      Some (push_op Opcode.CallC |> encode_reg dst |> put_varint cache_id
       |> encode_reg_range args)
  | _ => None
  end.

Definition encode_pattern_matching (instr : Instruction.t) : option writer :=
  match instr with
  | Instruction.IsVar dst value tag =>
      Some (push_op Opcode.IsVar |> encode_reg dst |> encode_reg value |> put_varint tag)
  | Instruction.IsType dst value type_id =>
      Some (push_op Opcode.IsType |> encode_reg dst |> encode_reg value |> put_varint type_id)
  | Instruction.AsVar dst value tag =>
      Some (push_op Opcode.AsVar |> encode_reg dst |> encode_reg value |> put_varint tag)
  | Instruction.Unpack dst_start tuple count =>
      Some (push_op Opcode.Unpack |> encode_reg dst_start |> encode_reg tuple |> push count)
  | Instruction.Pack dst src_start count =>
      Some (push_op Opcode.Pack |> encode_reg dst |> encode_reg src_start |> push count)
  | Instruction.Switch value default_offset cases =>
      Some (push_op Opcode.Switch |> encode_reg value |> put_signed_varint default_offset
       |> put_len cases
       |> for_each cases (λ case, put_varint case.1 |> put_signed_varint case.2))
  | _ => None
  end.

Definition encode_generators (instr : Instruction.t) : option writer :=
  match instr with
  | Instruction.GenCreate dst func_id args =>
      Some (push_op Opcode.GenCreate |> encode_reg dst |> put_varint func_id
       |> encode_reg_range args)
  | Instruction.GenNext dst generator =>
      Some (push_op Opcode.GenNext |> encode_reg dst |> encode_reg generator)
  | Instruction.GenHasNext dst generator =>
      Some (push_op Opcode.GenHasNext |> encode_reg dst |> encode_reg generator)
  | _ => None
  end.

Definition encode_async (instr : Instruction.t) : option writer :=
  match instr with
  | Instruction.Spawn dst func_id args =>
      Some (push_op Opcode.Spawn |> encode_reg dst |> put_varint func_id
       |> encode_reg_range args)
  | Instruction.Await dst task =>
      Some (push_op Opcode.Await |> encode_reg dst |> encode_reg task)
  | Instruction.Yield value => Some (push_op Opcode.Yield |> encode_reg value)
  | Instruction.AsyncYield => Some (push_op Opcode.AsyncYield)
  | Instruction.Select dst futures handlers =>
      Some (push_op Opcode.Select |> encode_reg dst |> encode_reg_vec futures
       |> put_len handlers |> for_each handlers put_signed_varint)
  | _ => None
  end.

Definition encode_autodiff (instr : Instruction.t) : option writer :=
  match instr with
  | Instruction.GradBegin scope_id mode wrt =>
      Some (push_op Opcode.GradBegin |> put_varint scope_id |> push (GradMode.to_byte mode)
       |> encode_reg_vec wrt)
  | Instruction.GradEnd scope_id out_reg grad_out grad_regs =>
      Some (push_op Opcode.GradEnd |> put_varint scope_id |> encode_reg out_reg
       |> encode_reg grad_out |> encode_reg_vec grad_regs)
  | Instruction.GradCheckpoint id tensors =>
      Some (push_op Opcode.GradCheckpoint |> put_varint id |> encode_reg_vec tensors)
  | Instruction.GradAccumulate dst src =>
      Some (push_op Opcode.GradAccumulate |> encode_reg dst |> encode_reg src)
  | Instruction.GradStop dst src =>
      Some (push_op Opcode.GradStop |> encode_reg dst |> encode_reg src)
  | _ => None
  end.

Definition encode_context (instr : Instruction.t) : option writer :=
  match instr with
  | Instruction.CtxGet dst ctx_type =>
      Some (push_op Opcode.CtxGet |> encode_reg dst |> put_varint ctx_type)
  | Instruction.CtxProvide ctx_type value body_offset =>
      Some (push_op Opcode.CtxProvide |> put_varint ctx_type |> encode_reg value
       |> put_signed_varint body_offset)
  | _ => None
  end.

Definition encode_debug_verify (instr : Instruction.t) : option writer :=
  match instr with
  | Instruction.Spec reg expected_type =>
      Some (push_op Opcode.Spec |> encode_reg reg |> put_varint expected_type)
  | Instruction.Guard reg expected_type deopt_offset =>
      Some (push_op Opcode.Guard |> encode_reg reg |> put_varint expected_type
       |> put_signed_varint deopt_offset)
  | Instruction.Assert cond message_id =>
      Some (push_op Opcode.Assert |> encode_reg cond |> put_varint message_id)
  | Instruction.Panic message_id => Some (push_op Opcode.Panic |> put_varint message_id)
  | Instruction.Unreachable => Some (push_op Opcode.Unreachable)
  | _ => None
  end.

Definition encode_tensor_operations (instr : Instruction.t) : option writer :=
  match instr with
  | Instruction.TensorFlashAttention dst q k v mask scale causal =>
      Some (push_op Opcode.TensorExtended |> push_tensor_ext TensorExtSubOpcode.FlashAttention
       |> encode_reg dst |> encode_reg q |> encode_reg k |> encode_reg v
       |> encode_optional_reg mask |> encode_reg scale |> push (if causal then 1 else 0))
  | Instruction.TensorContiguousView dst src =>
      Some (push_op Opcode.TensorExtended |> push_tensor_ext TensorExtSubOpcode.ContiguousView
       |> encode_reg dst |> encode_reg src)
  | Instruction.RandomU64 dst =>
      Some (push_op Opcode.TensorExtended |> push_tensor_ext TensorExtSubOpcode.RandomU64
       |> encode_reg dst)
  | Instruction.RandomFloat dst low high =>
      Some (push_op Opcode.TensorExtended |> push_tensor_ext TensorExtSubOpcode.RandomFloat
       |> encode_reg dst |> encode_reg low |> encode_reg high)
  | Instruction.GlobalAllocator dst =>
      Some (push_op Opcode.TensorExtended
       |> push_tensor_ext TensorExtSubOpcode.GlobalAllocator |> encode_reg dst)
  | Instruction.MemNewId dst =>
      Some (push_op Opcode.TensorExtended |> push_tensor_ext TensorExtSubOpcode.MemNewId
       |> encode_reg dst)
  | Instruction.MemAllocTensor dst shape dtype =>
      Some (push_op Opcode.TensorExtended |> push_tensor_ext TensorExtSubOpcode.MemAllocTensor
       |> encode_reg dst |> encode_reg shape |> push dtype)
  | Instruction.PermissionCheckWire dst scope_tag target_id =>
      Some (encode_escaped_tensor_header TensorExtSubOpcode.PermissionCheckWire (reg_size dst + reg_size scope_tag + reg_size target_id)%nat
       |> encode_reg dst |> encode_reg scope_tag |> encode_reg target_id)
  | Instruction.PermissionAssert scope_tag target_id =>
      Some (encode_escaped_tensor_header TensorExtSubOpcode.PermissionAssert (1 + reg_size target_id)%nat
       |> push scope_tag |> encode_reg target_id)
  | Instruction.PermissionStatsRead dst selector =>
      Some (encode_escaped_tensor_header TensorExtSubOpcode.PermissionStatsRead (reg_size dst + reg_size selector)%nat
       |> encode_reg dst |> encode_reg selector)
  | Instruction.PermissionStatsClear dst =>
      Some (encode_escaped_tensor_header TensorExtSubOpcode.PermissionStatsClear (reg_size dst)%nat
       |> encode_reg dst)
  | _ => None
  end.

Definition encode_gpu_fast_path (instr : Instruction.t) : option writer :=
  match instr with
  | Instruction.GpuLaunch kernel_id grid block shared_mem stream args =>
      Some (push_op Opcode.GpuExtended |> push_gpu GpuSubOpcode.Launch |> put_varint kernel_id
       |> encode_reg3 grid |> encode_reg3 block |> encode_reg shared_mem |> encode_reg stream
       |> encode_reg_vec args)
  | Instruction.GpuSync stream => Some (push_op Opcode.GpuSync |> encode_reg stream)
  | Instruction.GpuMemcpy dst src direction =>
      Some (push_op Opcode.GpuMemcpy |> encode_reg dst |> encode_reg src |> push direction)
  | Instruction.GpuAlloc dst size device =>
      Some (push_op Opcode.GpuAlloc |> encode_reg dst |> encode_reg size |> encode_reg device)
  | _ => None
  end.

Definition encode_gpu_streams (instr : Instruction.t) : option writer :=
  match instr with
  | Instruction.GpuStreamCreate dst =>
      Some (push_op Opcode.GpuExtended |> push_gpu GpuSubOpcode.StreamCreate |> encode_reg dst)
  | Instruction.GpuStreamCreateWithPriority dst priority =>
      Some (push_op Opcode.GpuExtended |> push_gpu GpuSubOpcode.StreamCreateWithPriority
       |> encode_reg dst |> encode_reg priority)
  | Instruction.GpuStreamCreateNonBlocking dst =>
      Some (push_op Opcode.GpuExtended |> push_gpu GpuSubOpcode.StreamCreateNonBlocking
       |> encode_reg dst)
  | Instruction.GpuStreamDestroy stream =>
      Some (push_op Opcode.GpuExtended |> push_gpu GpuSubOpcode.StreamDestroy
       |> encode_reg stream)
  | Instruction.GpuStreamQuery dst stream =>
      Some (push_op Opcode.GpuExtended |> push_gpu GpuSubOpcode.StreamQuery |> encode_reg dst
       |> encode_reg stream)
  | Instruction.GpuStreamWaitEvent stream event =>
      Some (push_op Opcode.GpuExtended |> push_gpu GpuSubOpcode.StreamWaitEvent
       |> encode_reg stream |> encode_reg event)
  | Instruction.GpuStreamGetPriority dst stream =>
      Some (push_op Opcode.GpuExtended |> push_gpu GpuSubOpcode.StreamGetPriority
       |> encode_reg dst |> encode_reg stream)
  | Instruction.GpuStreamAddCallback stream callback_id user_data =>
      Some (push_op Opcode.GpuExtended |> push_gpu GpuSubOpcode.StreamAddCallback
       |> encode_reg stream |> put_varint callback_id |> encode_reg user_data)
  | _ => None
  end.

Definition encode_gpu_events (instr : Instruction.t) : option writer :=
  match instr with
  | Instruction.GpuEventCreate dst =>
      Some (push_op Opcode.GpuExtended |> push_gpu GpuSubOpcode.EventCreate |> encode_reg dst)
  | Instruction.GpuEventCreateWithFlags dst flags =>
      Some (push_op Opcode.GpuExtended |> push_gpu GpuSubOpcode.EventCreateWithFlags
       |> encode_reg dst |> push flags)
  | Instruction.GpuEventDestroy event =>
      Some (push_op Opcode.GpuExtended |> push_gpu GpuSubOpcode.EventDestroy
       |> encode_reg event)
  | Instruction.GpuEventRecord event stream =>
      Some (push_op Opcode.GpuExtended |> push_gpu GpuSubOpcode.EventRecord
       |> encode_reg event |> encode_reg stream)
  | Instruction.GpuEventRecordWithFlags event stream flags =>
      Some (push_op Opcode.GpuExtended |> push_gpu GpuSubOpcode.EventRecordWithFlags
       |> encode_reg event |> encode_reg stream |> push flags)
  | Instruction.GpuEventSynchronize event =>
      Some (push_op Opcode.GpuExtended |> push_gpu GpuSubOpcode.EventSynchronize
       |> encode_reg event)
  | Instruction.GpuEventQuery dst event =>
      Some (push_op Opcode.GpuExtended |> push_gpu GpuSubOpcode.EventQuery |> encode_reg dst
       |> encode_reg event)
  | Instruction.GpuEventElapsed dst start_event end_event =>
      Some (push_op Opcode.GpuExtended |> push_gpu GpuSubOpcode.EventElapsed |> encode_reg dst
       |> encode_reg start_event |> encode_reg end_event)
  | _ => None
  end.

Definition encode_gpu_devices (instr : Instruction.t) : option writer :=
  match instr with
  | Instruction.GpuGetDevice dst =>
      Some (push_op Opcode.GpuExtended |> push_gpu GpuSubOpcode.GetDevice |> encode_reg dst)
  | Instruction.GpuSetDevice device =>
      Some (push_op Opcode.GpuExtended |> push_gpu GpuSubOpcode.SetDevice |> encode_reg device)
  | Instruction.GpuGetDeviceCount dst =>
      Some (push_op Opcode.GpuExtended |> push_gpu GpuSubOpcode.GetDeviceCount
       |> encode_reg dst)
  | Instruction.GpuGetDeviceProperty dst device property_id =>
      Some (push_op Opcode.GpuExtended |> push_gpu GpuSubOpcode.GetDeviceProperty
       |> encode_reg dst |> encode_reg device |> push property_id)
  | Instruction.GpuGetMemoryInfo free total device =>
      Some (push_op Opcode.GpuExtended |> push_gpu GpuSubOpcode.GetMemoryInfo
       |> encode_reg free |> encode_reg total |> encode_reg device)
  | Instruction.GpuCanAccessPeer dst device peer_device =>
      Some (push_op Opcode.GpuExtended |> push_gpu GpuSubOpcode.CanAccessPeer
       |> encode_reg dst |> encode_reg device |> encode_reg peer_device)
  | Instruction.GpuEnablePeerAccess device peer_device =>
      Some (push_op Opcode.GpuExtended |> push_gpu GpuSubOpcode.EnablePeerAccess
       |> encode_reg device |> encode_reg peer_device)
  | Instruction.GpuDisablePeerAccess device peer_device =>
      Some (push_op Opcode.GpuExtended |> push_gpu GpuSubOpcode.DisablePeerAccess
       |> encode_reg device |> encode_reg peer_device)
  | Instruction.GpuDeviceReset device =>
      Some (push_op Opcode.GpuExtended |> push_gpu GpuSubOpcode.DeviceReset
       |> encode_reg device)
  | Instruction.GpuSetDeviceFlags flags =>
      Some (push_op Opcode.GpuExtended |> push_gpu GpuSubOpcode.SetDeviceFlags |> push flags)
  | _ => None
  end.

Definition encode_gpu_memory (instr : Instruction.t) : option writer :=
  match instr with
  | Instruction.GpuMemcpyAsync dst src size direction stream =>
      Some (push_op Opcode.GpuExtended |> push_gpu GpuSubOpcode.MemcpyAsync |> encode_reg dst
       |> encode_reg src |> encode_reg size |> push direction |> encode_reg stream)
  | Instruction.GpuFree ptr =>
      Some (push_op Opcode.GpuExtended |> push_gpu GpuSubOpcode.Free |> encode_reg ptr)
  | Instruction.GpuPinMemory ptr size =>
      Some (push_op Opcode.GpuExtended |> push_gpu GpuSubOpcode.PinMemory |> encode_reg ptr
       |> encode_reg size)
  | Instruction.GpuUnpinMemory ptr =>
      Some (push_op Opcode.GpuExtended |> push_gpu GpuSubOpcode.UnpinMemory |> encode_reg ptr)
  | Instruction.GpuPrefetch ptr size device stream =>
      Some (push_op Opcode.GpuExtended |> push_gpu GpuSubOpcode.Prefetch |> encode_reg ptr
       |> encode_reg size |> encode_reg device |> encode_reg stream)
  | Instruction.GpuMemset ptr value size =>
      Some (push_op Opcode.GpuExtended |> push_gpu GpuSubOpcode.Memset |> encode_reg ptr
       |> push value |> encode_reg size)
  | Instruction.GpuMemsetAsync ptr value size stream =>
      Some (push_op Opcode.GpuExtended |> push_gpu GpuSubOpcode.MemsetAsync |> encode_reg ptr
       |> push value |> encode_reg size |> encode_reg stream)
  | Instruction.GpuMemcpy2D dst dst_pitch src src_pitch width height direction =>
      Some (push_op Opcode.GpuExtended |> push_gpu GpuSubOpcode.Memcpy2D |> encode_reg dst
       |> encode_reg dst_pitch |> encode_reg src |> encode_reg src_pitch |> encode_reg width
       |> encode_reg height |> push direction)
  | Instruction.GpuMemcpy2DAsync dst dst_pitch src src_pitch width height direction stream =>
      Some (push_op Opcode.GpuExtended |> push_gpu GpuSubOpcode.Memcpy2DAsync
       |> encode_reg dst |> encode_reg dst_pitch |> encode_reg src |> encode_reg src_pitch
       |> encode_reg width |> encode_reg height |> push direction |> encode_reg stream)
  | Instruction.GpuMemcpyH2D dst src size =>
      Some (push_op Opcode.GpuExtended |> push_gpu GpuSubOpcode.MemcpyH2D |> encode_reg dst
       |> encode_reg src |> encode_reg size)
  | Instruction.GpuMemcpyD2H dst src size =>
      Some (push_op Opcode.GpuExtended |> push_gpu GpuSubOpcode.MemcpyD2H |> encode_reg dst
       |> encode_reg src |> encode_reg size)
  | Instruction.GpuMemcpyD2D dst src size =>
      Some (push_op Opcode.GpuExtended |> push_gpu GpuSubOpcode.MemcpyD2D |> encode_reg dst
       |> encode_reg src |> encode_reg size)
  | Instruction.GpuMemcpyAsyncH2D dst src size stream =>
      Some (push_op Opcode.GpuExtended |> push_gpu GpuSubOpcode.MemcpyAsyncH2D
       |> encode_reg dst |> encode_reg src |> encode_reg size |> encode_reg stream)
  | Instruction.GpuMemcpyAsyncD2H dst src size stream =>
      Some (push_op Opcode.GpuExtended |> push_gpu GpuSubOpcode.MemcpyAsyncD2H
       |> encode_reg dst |> encode_reg src |> encode_reg size |> encode_reg stream)
  | _ => None
  end.

Definition encode_gpu_unified_memory (instr : Instruction.t) : option writer :=
  match instr with
  | Instruction.GpuMallocManaged dst size attach_flags =>
      Some (push_op Opcode.GpuExtended |> push_gpu GpuSubOpcode.MallocManaged
       |> encode_reg dst |> encode_reg size |> push attach_flags)
  | Instruction.GpuMemAdvise ptr size advice device =>
      Some (push_op Opcode.GpuExtended |> push_gpu GpuSubOpcode.MemAdvise |> encode_reg ptr
       |> encode_reg size |> push advice |> encode_reg device)
  | Instruction.GpuPrefetchAsync ptr size device stream =>
      Some (push_op Opcode.GpuExtended |> push_gpu GpuSubOpcode.PrefetchAsync
       |> encode_reg ptr |> encode_reg size |> encode_reg device |> encode_reg stream)
  | Instruction.GpuMemGetAttribute dst ptr attribute =>
      Some (push_op Opcode.GpuExtended |> push_gpu GpuSubOpcode.MemGetAttribute
       |> encode_reg dst |> encode_reg ptr |> push attribute)
  | _ => None
  end.

Definition encode_gpu_graphs (instr : Instruction.t) : option writer :=
  match instr with
  | Instruction.GpuGraphCreate dst =>
      Some (push_op Opcode.GpuExtended |> push_gpu GpuSubOpcode.GraphCreate |> encode_reg dst)
  | Instruction.GpuGraphBeginCapture stream mode =>
      Some (push_op Opcode.GpuExtended |> push_gpu GpuSubOpcode.GraphBeginCapture
       |> encode_reg stream |> push mode)
  | Instruction.GpuGraphEndCapture dst stream =>
      Some (push_op Opcode.GpuExtended |> push_gpu GpuSubOpcode.GraphEndCapture
       |> encode_reg dst |> encode_reg stream)
  | Instruction.GpuGraphInstantiate dst graph =>
      Some (push_op Opcode.GpuExtended |> push_gpu GpuSubOpcode.GraphInstantiate
       |> encode_reg dst |> encode_reg graph)
  | Instruction.GpuGraphLaunch graph_exec stream =>
      Some (push_op Opcode.GpuExtended |> push_gpu GpuSubOpcode.GraphLaunch
       |> encode_reg graph_exec |> encode_reg stream)
  | Instruction.GpuGraphDestroy graph =>
      Some (push_op Opcode.GpuExtended |> push_gpu GpuSubOpcode.GraphDestroy
       |> encode_reg graph)
  | Instruction.GpuGraphExecDestroy graph_exec =>
      Some (push_op Opcode.GpuExtended |> push_gpu GpuSubOpcode.GraphExecDestroy
       |> encode_reg graph_exec)
  | Instruction.GpuGraphExecUpdate graph_exec graph =>
      Some (push_op Opcode.GpuExtended |> push_gpu GpuSubOpcode.GraphExecUpdate
       |> encode_reg graph_exec |> encode_reg graph)
  | _ => None
  end.

Definition encode_gpu_profiling (instr : Instruction.t) : option writer :=
  match instr with
  | Instruction.GpuProfileRangeStart name_id =>
      Some (push_op Opcode.GpuExtended |> push_gpu GpuSubOpcode.ProfileRangeStart
       |> put_varint name_id)
  | Instruction.GpuProfileRangeEnd =>
      Some (push_op Opcode.GpuExtended |> push_gpu GpuSubOpcode.ProfileRangeEnd)
  | Instruction.GpuProfileMarkerPush name_id =>
      Some (push_op Opcode.GpuExtended |> push_gpu GpuSubOpcode.ProfileMarkerPush
       |> put_varint name_id)
  | Instruction.GpuProfileMarkerPop =>
      Some (push_op Opcode.GpuExtended |> push_gpu GpuSubOpcode.ProfileMarkerPop)
  | Instruction.GpuEnumerateDevices dst backend =>
      Some (push_op Opcode.GpuExtended |> push_gpu (enumerate_sub_op backend)
       |> encode_reg dst)
  | _ => None
  end.

Definition encode_gpu_kernels (instr : Instruction.t) : option writer :=
  match instr with
  | Instruction.GpuLaunchCooperative kernel_id grid block shared_mem stream args =>
      Some (push_op Opcode.GpuExtended |> push_gpu GpuSubOpcode.LaunchCooperative
       |> put_varint kernel_id |> encode_reg3 grid |> encode_reg3 block
       |> encode_reg shared_mem |> encode_reg stream |> encode_reg_vec args)
  | Instruction.GpuLaunchMultiDevice kernel_id devices grid block shared_mem args =>
      Some (push_op Opcode.GpuExtended |> push_gpu GpuSubOpcode.LaunchMultiDevice
       |> put_varint kernel_id |> encode_reg devices |> encode_reg3 grid |> encode_reg3 block
       |> encode_reg shared_mem |> encode_reg_vec args)
  | Instruction.GpuDeviceSync =>
      Some (push_op Opcode.GpuExtended |> push_gpu GpuSubOpcode.SyncDevice)
  | _ => None
  end.

Definition encode_tensor_elements (instr : Instruction.t) : option writer :=
  match instr with
  | Instruction.TensorArange dst start end_ step dtype =>
      Some (push_op Opcode.TensorExtended |> push_tensor TensorSubOpcode.Arange
       |> encode_reg dst |> encode_reg start |> encode_reg end_ |> encode_reg step
       |> push (TensorDType.to_byte dtype))
  | Instruction.TensorLinspace dst start end_ num dtype =>
      Some (push_op Opcode.TensorExtended |> push_tensor TensorSubOpcode.Linspace
       |> encode_reg dst |> encode_reg start |> encode_reg end_ |> encode_reg num
       |> push (TensorDType.to_byte dtype))
  | Instruction.TensorRand dst shape dtype =>
      Some (push_op Opcode.TensorExtended |> push_tensor TensorSubOpcode.Rand
       |> encode_reg dst |> encode_reg_vec shape |> push (TensorDType.to_byte dtype))
  | Instruction.TensorClone dst src =>
      Some (push_op Opcode.TensorExtended |> push_tensor TensorSubOpcode.Clone
       |> encode_reg dst |> encode_reg src)
  | Instruction.TensorIdentity dst size dtype =>
      Some (push_op Opcode.TensorExtended |> push_tensor TensorSubOpcode.Identity
       |> encode_reg dst |> encode_reg size |> push (TensorDType.to_byte dtype))
  | Instruction.TensorIndex dst src indices axis =>
      Some (push_op Opcode.TensorExtended |> push_tensor TensorSubOpcode.Index
       |> encode_reg dst |> encode_reg src |> encode_reg indices |> push axis)
  | Instruction.TensorConcat dst tensors axis =>
      Some (push_op Opcode.TensorExtended |> push_tensor TensorSubOpcode.Concat
       |> encode_reg dst |> encode_reg_vec tensors |> push axis)
  | Instruction.TensorStack dst tensors axis =>
      Some (push_op Opcode.TensorExtended |> push_tensor TensorSubOpcode.Stack
       |> encode_reg dst |> encode_reg_vec tensors |> push axis)
  | Instruction.TensorBroadcast dst src shape =>
      Some (push_op Opcode.TensorExtended |> push_tensor TensorSubOpcode.BroadcastToShape
       |> encode_reg dst |> encode_reg src |> encode_reg_vec shape)
  | Instruction.TensorSqueeze dst src axes =>
      Some (push_op Opcode.TensorExtended |> push_tensor TensorSubOpcode.Squeeze
       |> encode_reg dst |> encode_reg src |> put_len axes |> extend axes)
  | Instruction.TensorCmp op dst a b =>
      Some (push_op Opcode.TensorExtended |> push_tensor TensorSubOpcode.Cmp
       |> push (CompareOp.to_byte op) |> encode_reg dst |> encode_reg a |> encode_reg b)
  | Instruction.TensorWhere dst cond x y =>
      Some (push_op Opcode.TensorExtended |> push_tensor TensorSubOpcode.Where
       |> encode_reg dst |> encode_reg cond |> encode_reg x |> encode_reg y)
  | Instruction.TensorClamp dst src min max =>
      Some (push_op Opcode.TensorExtended |> push_tensor TensorSubOpcode.Clamp
       |> encode_reg dst |> encode_reg src |> encode_reg min |> encode_reg max)
  | Instruction.TensorCast dst src dtype =>
      Some (push_op Opcode.TensorExtended |> push_tensor TensorSubOpcode.Cast
       |> encode_reg dst |> encode_reg src |> push (TensorDType.to_byte dtype))
  | _ => None
  end.

Definition encode_tensor_algebra (instr : Instruction.t) : option writer :=
  match instr with
  | Instruction.TensorMaskedFill dst src mask value =>
      Some (push_op Opcode.TensorExtended |> push_tensor TensorSubOpcode.MaskedFill
       |> encode_reg dst |> encode_reg src |> encode_reg mask |> encode_reg value)
  | Instruction.TensorLerp dst a b t =>
      Some (push_op Opcode.TensorExtended |> push_tensor TensorSubOpcode.Lerp
       |> encode_reg dst |> encode_reg a |> encode_reg b |> encode_reg t)
  | Instruction.TensorDot dst a b axes_a axes_b =>
      Some (push_op Opcode.TensorExtended |> push_tensor TensorSubOpcode.Dot |> encode_reg dst
       |> encode_reg a |> encode_reg b |> put_len axes_a |> extend axes_a |> put_len axes_b
       |> extend axes_b)
  | Instruction.TensorConv dst input kernel bias stride padding dilation groups =>
      Some (push_op Opcode.TensorExtended |> push_tensor TensorSubOpcode.Conv
       |> encode_reg dst |> encode_reg input |> encode_reg kernel |> encode_optional_reg bias
       |> put_len stride |> extend stride |> put_len padding |> extend padding
       |> put_len dilation |> extend dilation |> push groups)
  | Instruction.TensorBatchMatmul dst a b =>
      Some (push_op Opcode.TensorExtended |> push_tensor TensorSubOpcode.BatchMatmul
       |> encode_reg dst |> encode_reg a |> encode_reg b)
  | Instruction.TensorEinsum dst inputs equation_id =>
      Some (push_op Opcode.TensorExtended |> push_tensor TensorSubOpcode.Einsum
       |> encode_reg dst |> encode_reg_vec inputs |> put_varint equation_id)
  | Instruction.TensorOuter dst a b =>
      Some (push_op Opcode.TensorExtended |> push_tensor TensorSubOpcode.Outer
       |> encode_reg dst |> encode_reg a |> encode_reg b)
  | Instruction.TensorTriSolve dst a b upper =>
      Some (push_op Opcode.TensorExtended |> push_tensor TensorSubOpcode.TriSolve
       |> encode_reg dst |> encode_reg a |> encode_reg b |> push (if upper then 1 else 0))
  | Instruction.TensorCholesky dst src upper =>
      Some (push_op Opcode.TensorExtended |> push_tensor TensorSubOpcode.Cholesky
       |> encode_reg dst |> encode_reg src |> push (if upper then 1 else 0))
  | Instruction.TensorArgmax dst src axis keepdim =>
      Some (push_op Opcode.TensorExtended |> push_tensor TensorSubOpcode.Argmax
       |> encode_reg dst |> encode_reg src |> push (wrap 8 axis)
       |> push (if keepdim then 1 else 0))
  | Instruction.TensorTopk values indices src k axis largest =>
      Some (push_op Opcode.TensorExtended |> push_tensor TensorSubOpcode.Topk
       |> encode_reg values |> encode_reg indices |> encode_reg src |> encode_reg k
       |> push (wrap 8 axis) |> push (if largest then 1 else 0))
  | _ => None
  end.

Definition encode_tensor_layers (instr : Instruction.t) : option writer :=
  match instr with
  | Instruction.TensorCumulative op dst src axis =>
      Some (push_op Opcode.TensorExtended |> push_tensor TensorSubOpcode.Cumulative
       |> push (TensorCumulativeOp.to_byte op) |> encode_reg dst |> encode_reg src
       |> push (wrap 8 axis))
  | Instruction.TensorSoftmax dst src axis =>
      Some (push_op Opcode.TensorExtended |> push_tensor TensorSubOpcode.Softmax
       |> encode_reg dst |> encode_reg src |> push (wrap 8 axis))
  | Instruction.TensorLayerNorm dst input gamma beta normalized_shape eps =>
      Some (push_op Opcode.TensorExtended |> push_tensor TensorSubOpcode.LayerNorm
       |> encode_reg dst |> encode_reg input |> encode_optional_reg gamma
       |> encode_optional_reg beta |> put_varint normalized_shape |> extend (to_le_bytes 4 eps))
  | Instruction.TensorBatchNorm dst input gamma beta running_mean running_var training momentum
      eps =>
      Some (push_op Opcode.TensorExtended |> push_tensor TensorSubOpcode.BatchNorm
       |> encode_reg dst |> encode_reg input |> encode_optional_reg gamma
       |> encode_optional_reg beta |> encode_optional_reg running_mean
       |> encode_optional_reg running_var |> push (if training then 1 else 0)
       |> extend (to_le_bytes 4 momentum) |> extend (to_le_bytes 4 eps))
  | Instruction.TensorRmsNorm dst input gamma eps =>
      Some (push_op Opcode.TensorExtended |> push_tensor_ext TensorExtSubOpcode.RmsNorm
       |> encode_reg dst |> encode_reg input |> encode_optional_reg gamma
       |> extend (to_le_bytes 4 eps))
  | Instruction.TensorFft dst src dim inverse =>
      Some (push_op Opcode.TensorExtended |> push_tensor_ext TensorExtSubOpcode.Fft
       |> encode_reg dst |> encode_reg src |> push (wrap 8 dim)
       |> push (if inverse then 1 else 0))
  | Instruction.TensorScatter dst src index values axis mode =>
      Some (push_op Opcode.TensorExtended |> push_tensor_ext TensorExtSubOpcode.Scatter
       |> encode_reg dst |> encode_reg src |> encode_reg index |> encode_reg values
       |> push (wrap 8 axis) |> push mode)
  | Instruction.TensorPool op dst src kernel_size stride padding =>
      Some (push_op Opcode.TensorExtended |> push_tensor TensorSubOpcode.Pool
       |> push (TensorPoolOp.to_byte op) |> encode_reg dst |> encode_reg src
       |> put_len kernel_size |> extend kernel_size |> put_len stride |> extend stride
       |> put_len padding |> extend padding)
  | Instruction.TensorArgmin dst src axis keepdim =>
      Some (push_op Opcode.TensorExtended |> push_tensor TensorSubOpcode.Argmin
       |> encode_reg dst |> encode_reg src |> push (wrap 8 axis)
       |> push (if keepdim then 1 else 0))
  | _ => None
  end.

Definition encode_tensor_decompositions (instr : Instruction.t) : option writer :=
  match instr with
  | Instruction.TensorSolve dst a b =>
      Some (push_op Opcode.TensorExtended |> push_tensor TensorSubOpcode.Solve
       |> encode_reg dst |> encode_reg a |> encode_reg b)
  | Instruction.TensorGather dst src index axis =>
      Some (push_op Opcode.TensorExtended |> push_tensor TensorSubOpcode.Gather
       |> encode_reg dst |> encode_reg src |> encode_reg index |> push (wrap 8 axis))
  | Instruction.TensorPermute dst src axes =>
      Some (push_op Opcode.TensorExtended |> push_tensor TensorSubOpcode.Permute
       |> encode_reg dst |> encode_reg src |> put_len axes |> extend axes)
  | Instruction.TensorQR q r src mode =>
      Some (push_op Opcode.TensorExtended |> push_tensor TensorSubOpcode.QR |> encode_reg q
       |> encode_reg r |> encode_reg src |> push mode)
  | Instruction.TensorSVD u s vh src full_matrices compute_uv =>
      Some (push_op Opcode.TensorExtended |> push_tensor TensorSubOpcode.SVD |> encode_reg u
       |> encode_reg s |> encode_reg vh |> encode_reg src
       |> push (if full_matrices then 1 else 0) |> push (if compute_uv then 1 else 0))
  | Instruction.TensorLU p l u src =>
      Some (push_op Opcode.TensorExtended |> push_tensor TensorSubOpcode.LU |> encode_reg p
       |> encode_reg l |> encode_reg u |> encode_reg src)
  | Instruction.TensorEig eigenvalues eigenvectors src compute_v =>
      Some (push_op Opcode.TensorExtended |> push_tensor TensorSubOpcode.Eig
       |> encode_reg eigenvalues |> encode_reg eigenvectors |> encode_reg src
       |> push (if compute_v then 1 else 0))
  | Instruction.TensorEigSymmetric eigenvalues eigenvectors src upper =>
      Some (push_op Opcode.TensorExtended |> push_tensor TensorSubOpcode.EigSymmetric
       |> encode_reg eigenvalues |> encode_reg eigenvectors |> encode_reg src
       |> push (if upper then 1 else 0))
  | Instruction.TensorLstsq x residuals rank s a b rcond =>
      Some (push_op Opcode.TensorExtended |> push_tensor TensorSubOpcode.Lstsq |> encode_reg x
       |> encode_reg residuals |> encode_reg rank |> encode_reg s |> encode_reg a
       |> encode_reg b |> encode_f64 rcond)
  | Instruction.TensorDet dst src =>
      Some (push_op Opcode.TensorExtended |> push_tensor TensorSubOpcode.Det |> encode_reg dst
       |> encode_reg src)
  | Instruction.TensorTrace dst src =>
      Some (push_op Opcode.TensorExtended |> push_tensor TensorSubOpcode.Trace
       |> encode_reg dst |> encode_reg src)
  | Instruction.TensorNorm dst src ord =>
      Some (push_op Opcode.TensorExtended |> push_tensor TensorSubOpcode.Norm
       |> encode_reg dst |> encode_reg src |> push (wrap 8 ord))
  | _ => None
  end.

Definition encode_collections (instr : Instruction.t) : option writer :=
  match instr with
  | Instruction.NewList dst capacity_hint =>
      Some (push_op Opcode.NewList |> encode_reg dst |> put_varint capacity_hint)
  | Instruction.ListPush list val =>
      Some (push_op Opcode.ListPush |> encode_reg list |> encode_reg val)
  | Instruction.ListPop dst list =>
      Some (push_op Opcode.ListPop |> encode_reg dst |> encode_reg list)
  | Instruction.NewMap dst capacity_hint =>
      Some (push_op Opcode.NewMap |> encode_reg dst |> put_varint capacity_hint)
  | Instruction.MapGet dst map key =>
      Some (push_op Opcode.MapGet |> encode_reg dst |> encode_reg map |> encode_reg key)
  | Instruction.MapSet map key val =>
      Some (push_op Opcode.MapSet |> encode_reg map |> encode_reg key |> encode_reg val)
  | Instruction.MapContains dst map key =>
      Some (push_op Opcode.MapContains |> encode_reg dst |> encode_reg map |> encode_reg key)
  | Instruction.IterNew dst iterable =>
      Some (push_op Opcode.IterNew |> encode_reg dst |> encode_reg iterable)
  | Instruction.IterNext dst has_next iter =>
      Some (push_op Opcode.IterNext |> encode_reg dst |> encode_reg has_next
       |> encode_reg iter)
  | Instruction.Clone dst src => Some (push_op Opcode.Clone |> encode_reg dst |> encode_reg src)
  | _ => None
  end.

Definition encode_closures (instr : Instruction.t) : option writer :=
  match instr with
  | Instruction.CallClosure dst closure args =>
      Some (push_op Opcode.CallClosure |> encode_reg dst |> encode_reg closure
       |> encode_reg (start args) |> push (count args))
  | Instruction.NewClosure dst func_id captures capture_types lexical_types =>
      Some ((if negb (is_empty lexical_types) then
         push_op Opcode.Extended |> push_ext ExtendedSubOpcode.NewClosureWitnessed
       else if is_some capture_types then
         push_op Opcode.Extended |> push_ext ExtendedSubOpcode.NewClosureTyped
       else push_op Opcode.NewClosure)
       |> encode_reg dst |> put_varint func_id |> encode_reg_vec captures
       |> when (negb (is_empty lexical_types)) (push (Z.b2z (is_some capture_types)))
       |> if_some capture_types encode_capture_types
       |> when (negb (is_empty lexical_types))
           (put_len lexical_types |> for_each lexical_types encode_type_ref))
  | _ => None
  end.

Definition encode_context_end (instr : Instruction.t) : option writer :=
  match instr with
  | Instruction.CtxEnd => Some (push_op Opcode.CtxEnd)
  | Instruction.CtxCheckNegative ctx_type _ =>
      Some (push_op Opcode.CtxGet |> encode_reg 0 |> put_varint ctx_type)
  | Instruction.DebugPrint value => Some (push_op Opcode.DebugPrint |> encode_reg value)
  | Instruction.Nop => Some (push_op Opcode.Nop)
  | _ => None
  end.

Definition encode_sets_strings_stack (instr : Instruction.t) : option writer :=
  match instr with
  | Instruction.NewSet dst capacity_hint =>
      Some (push_op Opcode.NewSet |> encode_reg dst |> put_varint capacity_hint)
  | Instruction.NewDeque dst capacity_hint =>
      Some (push_op Opcode.NewDeque |> encode_reg dst |> put_varint capacity_hint)
  | Instruction.SetInsert set elem =>
      Some (push_op Opcode.SetInsert |> encode_reg set |> encode_reg elem)
  | Instruction.SetContains dst set elem =>
      Some (push_op Opcode.SetContains |> encode_reg dst |> encode_reg set |> encode_reg elem)
  | Instruction.SetRemove set elem =>
      Some (push_op Opcode.SetRemove |> encode_reg set |> encode_reg elem)
  | Instruction.ToString dst src =>
      Some (push_op Opcode.ToString |> encode_reg dst |> encode_reg src)
  | Instruction.Concat dst a b =>
      Some (push_op Opcode.Concat |> encode_reg dst |> encode_reg a |> encode_reg b)
  | Instruction.CharToStr dst src =>
      Some (push_op Opcode.CharToStr |> encode_reg dst |> encode_reg src)
  | Instruction.NewRange dst start end_ inclusive =>
      Some (push_op Opcode.NewRange |> encode_reg dst |> encode_reg start |> encode_reg end_
       |> push (if inclusive then 1 else 0))
  | Instruction.Push src => Some (push_op Opcode.Push |> encode_reg src)
  | Instruction.Pop dst => Some (push_op Opcode.Pop |> encode_reg dst)
  | Instruction.CallR dst func argc =>
      Some (push_op Opcode.CallR |> encode_reg dst |> encode_reg func |> push argc)
  | Instruction.LoadNil dst => Some (push_op Opcode.LoadNil |> encode_reg dst)
  | _ => None
  end.

Definition encode_exceptions_futures (instr : Instruction.t) : option writer :=
  match instr with
  | Instruction.Throw error => Some (push_op Opcode.Throw |> encode_reg error)
  | Instruction.TryBegin handler_offset =>
      Some (push_op Opcode.TryBegin |> put_signed_varint handler_offset)
  | Instruction.TryEnd => Some (push_op Opcode.TryEnd)
  | Instruction.GetException dst => Some (push_op Opcode.GetException |> encode_reg dst)
  | Instruction.FutureReady dst future =>
      Some (push_op Opcode.FutureReady |> encode_reg dst |> encode_reg future)
  | Instruction.FutureGet dst future =>
      Some (push_op Opcode.FutureGet |> encode_reg dst |> encode_reg future)
  | Instruction.AsyncNext dst iter =>
      Some (push_op Opcode.AsyncNext |> encode_reg dst |> encode_reg iter)
  | Instruction.PushContext name handler =>
      Some (push_op Opcode.PushContext |> put_varint name |> encode_reg handler)
  | Instruction.PopContext name => Some (push_op Opcode.PopContext |> put_varint name)
  | Instruction.Attenuate dst context capabilities =>
      Some (push_op Opcode.Attenuate |> encode_reg dst |> encode_reg context
       |> put_varint capabilities)
  | _ => None
  end.

Definition encode_variants (instr : Instruction.t) : option writer :=
  match instr with
  | Instruction.Iter dst iterable =>
      Some (push_op Opcode.IterNew |> encode_reg dst |> encode_reg iterable)
  | Instruction.GetTag dst variant =>
      Some (push_op Opcode.GetTag |> encode_reg dst |> encode_reg variant)
  | Instruction.MakeVariant dst tag field_count =>
      Some (push_op Opcode.MakeVariant |> encode_reg dst |> put_varint tag
       |> put_varint field_count)
  | Instruction.MakeVariantTyped dst type_id tag field_count =>
      Some (push_op Opcode.Extended |> push_ext ExtendedSubOpcode.MakeVariantTyped
       |> encode_reg dst |> put_varint type_id |> put_varint tag |> put_varint field_count)
  | Instruction.GetFieldNamed dst obj name =>
      Some (push_op Opcode.Extended |> push_ext ExtendedSubOpcode.GetFieldNamed
       |> encode_reg dst |> encode_reg obj |> put_varint name)
  | Instruction.SetFieldNamed obj name value =>
      Some (push_op Opcode.Extended |> push_ext ExtendedSubOpcode.SetFieldNamed
       |> encode_reg obj |> put_varint name |> encode_reg value)
  | Instruction.SetVariantData variant field value =>
      Some (push_op Opcode.SetVariantData |> encode_reg variant |> put_varint field
       |> encode_reg value)
  | Instruction.GetVariantData dst variant field =>
      Some (push_op Opcode.GetVariantData |> encode_reg dst |> encode_reg variant
       |> put_varint field)
  | Instruction.GetVariantDataRef dst variant field =>
      Some (push_op Opcode.GetVariantDataRef |> encode_reg dst |> encode_reg variant
       |> put_varint field)
  | Instruction.MakePi dst param return_type_id =>
      Some (push_op Opcode.MakePi |> encode_reg dst |> encode_reg param
       |> put_varint return_type_id)
  | Instruction.MakeSigma dst witness payload =>
      Some (push_op Opcode.MakeSigma |> encode_reg dst |> encode_reg witness
       |> encode_reg payload)
  | Instruction.MakeWitness dst value proof_hash =>
      Some (push_op Opcode.MakeWitness |> encode_reg dst |> encode_reg value
       |> put_varint proof_hash)
  | Instruction.MapInsert map key value =>
      Some (push_op Opcode.MapSet |> encode_reg map |> encode_reg key |> encode_reg value)
  | Instruction.MakeTensor dst shape_len total_size data =>
      Some (push_op Opcode.TensorExtended |> push_tensor TensorSubOpcode.NewFromArgs
       |> encode_reg dst |> put_varint shape_len |> put_varint total_size |> encode_reg data)
  | _ => None
  end.

Definition encode_nursery (instr : Instruction.t) : option writer :=
  match instr with
  | Instruction.NurseryInit dst => Some (push_op Opcode.NurseryInit |> encode_reg dst)
  | Instruction.NurserySetTimeout nursery timeout =>
      Some (push_op Opcode.NurseryConfig |> encode_reg nursery |> put_varint 0
       |> encode_reg timeout)
  | Instruction.NurserySetMaxTasks nursery max_tasks =>
      Some (push_op Opcode.NurseryConfig |> encode_reg nursery |> put_varint 1
       |> encode_reg max_tasks)
  | Instruction.NurserySetErrorBehavior nursery behavior =>
      Some (push_op Opcode.NurseryConfig |> encode_reg nursery |> put_varint 2
       |> encode_reg behavior)
  | Instruction.NurseryEnter nursery =>
      Some (push_op Opcode.NurseryConfig |> encode_reg nursery |> put_varint 3
       |> encode_reg nursery)
  | Instruction.NurseryExit nursery =>
      Some (push_op Opcode.NurseryConfig |> encode_reg nursery |> put_varint 4
       |> encode_reg nursery)
  | Instruction.NurserySpawn dst nursery task =>
      Some (push_op Opcode.NurserySpawn |> encode_reg dst |> encode_reg nursery
       |> encode_reg task)
  | Instruction.NurseryAwaitAll nursery success =>
      Some (push_op Opcode.NurseryAwait |> encode_reg success |> encode_reg nursery)
  | Instruction.NurseryGetError nursery dst =>
      Some (push_op Opcode.NurseryError |> encode_reg dst |> encode_reg nursery)
  | Instruction.NurseryCancel nursery =>
      Some (push_op Opcode.NurseryCancel |> encode_reg nursery)
  | _ => None
  end.

Definition encode_system (instr : Instruction.t) : option writer :=
  match instr with
  | Instruction.SyscallLinux dst num a1 a2 a3 a4 a5 a6 =>
      Some (push_op Opcode.SyscallLinux |> encode_reg dst |> encode_reg num |> encode_reg a1
       |> encode_reg a2 |> encode_reg a3 |> encode_reg a4 |> encode_reg a5 |> encode_reg a6)
  | Instruction.Mmap dst addr len prot flags fd offset =>
      Some (push_op Opcode.Mmap |> encode_reg dst |> encode_reg addr |> encode_reg len
       |> encode_reg prot |> encode_reg flags |> encode_reg fd |> encode_reg offset)
  | Instruction.Munmap dst addr len =>
      Some (push_op Opcode.Munmap |> encode_reg dst |> encode_reg addr |> encode_reg len)
  | Instruction.AtomicLoad dst ptr ordering size =>
      Some (push_op Opcode.AtomicLoad |> encode_reg dst |> encode_reg ptr |> push ordering
       |> push size)
  | Instruction.AtomicStore ptr val ordering size =>
      Some (push_op Opcode.AtomicStore |> encode_reg ptr |> encode_reg val |> push ordering
       |> push size)
  | Instruction.AtomicCas dst ptr expected desired ordering size =>
      Some (push_op Opcode.AtomicCas |> encode_reg dst |> encode_reg ptr
       |> encode_reg expected |> encode_reg desired |> push ordering |> push size)
  | Instruction.AtomicFence ordering => Some (push_op Opcode.AtomicFence |> push ordering)
  | Instruction.IoSubmit dst engine ops =>
      Some (push_op Opcode.IoSubmit |> encode_reg dst |> encode_reg engine |> encode_reg ops)
  | Instruction.IoPoll dst engine timeout =>
      Some (push_op Opcode.IoPoll |> encode_reg dst |> encode_reg engine |> encode_reg timeout)
  | Instruction.TlsGet dst slot =>
      Some (push_op Opcode.TlsGet |> encode_reg dst |> encode_reg slot)
  | Instruction.TlsSet slot val =>
      Some (push_op Opcode.TlsSet |> encode_reg slot |> encode_reg val)
  | _ => None
  end.

Definition encode_extended (instr : Instruction.t) : option writer :=
  match instr with
  | Instruction.ArithExtended sub_op operands =>
      Some (push_op Opcode.ArithExtended |> push sub_op |> put_len operands |> extend operands)
  | Instruction.TensorExtended sub_op operands =>
      Some (push_op Opcode.TensorExtended |> push sub_op |> put_len operands
       |> extend operands)
  | Instruction.MathExtended sub_op operands =>
      Some (push_op Opcode.MathExtended |> push sub_op |> put_len operands |> extend operands)
  | Instruction.SimdExtended sub_op operands =>
      Some (push_op Opcode.SimdExtended |> push sub_op |> put_len operands |> extend operands)
  | Instruction.CharExtended sub_op operands =>
      Some (push_op Opcode.CharExtended |> push sub_op |> put_len operands |> extend operands)
  | Instruction.CbgrExtended sub_op operands =>
      Some (push_op Opcode.CbgrExtended |> push sub_op |> put_len operands |> extend operands)
  | Instruction.TextExtended sub_op operands =>
      Some (push_op Opcode.TextExtended |> push sub_op |> put_len operands |> extend operands)
  | Instruction.GpuExtended sub_op operands =>
      Some (push_op Opcode.GpuExtended |> push sub_op |> put_len operands |> extend operands)
  | Instruction.FfiExtended sub_op operands =>
      Some (push_op Opcode.FfiExtended |> push sub_op |> put_len operands |> extend operands)
  | Instruction.TimeExtended sub_op operands =>
      Some (push_op Opcode.TimeExtended |> push sub_op |> put_len operands |> extend operands)
  | Instruction.SysExtended sub_op operands =>
      Some (push_op Opcode.SysExtended |> push sub_op |> put_len operands |> extend operands)
  | Instruction.MachExtended sub_op operands =>
      Some (push_op Opcode.MachExtended |> push sub_op |> put_len operands |> extend operands)
  | Instruction.SyncExtended sub_op operands =>
      Some (push_op Opcode.SyncExtended |> push sub_op |> put_len operands |> extend operands)
  | Instruction.MemExtended sub_op operands =>
      Some (push_op Opcode.MemExtended |> push sub_op |> put_len operands |> extend operands)
  | Instruction.Extended sub_op operands =>
      Some (push_op Opcode.Extended |> push sub_op |> extend operands)
  | Instruction.LogExtended sub_op operands =>
      Some (push_op Opcode.LogExtended |> push sub_op |> put_len operands |> extend operands)
  | _ => None
  end.

Definition encode_meta_hints_raw (instr : Instruction.t) : option writer :=
  match instr with
  | Instruction.MetaQuote dst bytes_const_id =>
      Some (push_op Opcode.MetaQuote |> encode_reg dst |> put_varint bytes_const_id)
  | Instruction.MetaSplice src => Some (push_op Opcode.MetaSplice |> encode_reg src)
  | Instruction.MetaEval dst expr =>
      Some (push_op Opcode.MetaEval |> encode_reg dst |> encode_reg expr)
  | Instruction.MetaReflect dst type_id =>
      Some (push_op Opcode.MetaReflect |> encode_reg dst |> put_varint type_id)
  | Instruction.LoopHint _ | Instruction.BranchHint _ | Instruction.PrefetchHint _ _ _ |
      Instruction.OptBarrier _ =>
      Some (push_op Opcode.Nop)
  | Instruction.Raw opcode data => Some (push_op opcode |> extend data)
  | Instruction.CubicalExtended sub_op dst args =>
      Some (push_op Opcode.CubicalExtended |> push sub_op |> encode_reg dst
       |> push (wrap 8 (Z.of_nat (length args))) |> for_each args encode_reg)
  | _ => None
  end.

(** The sections of the match, and the match, which is exhaustive. *)
Definition encode_sections : list (Instruction.t → option writer) :=
  [encode_data_movement; encode_type_conversions; encode_arithmetic; encode_comparison;
   encode_control_flow; encode_memory; encode_cbgr; encode_generic; encode_pattern_matching;
   encode_generators; encode_async; encode_autodiff; encode_context; encode_debug_verify;
   encode_tensor_operations; encode_gpu_fast_path; encode_gpu_streams; encode_gpu_events;
   encode_gpu_devices; encode_gpu_memory; encode_gpu_unified_memory; encode_gpu_graphs;
   encode_gpu_profiling; encode_gpu_kernels; encode_tensor_elements; encode_tensor_algebra;
   encode_tensor_layers; encode_tensor_decompositions; encode_collections; encode_closures;
   encode_context_end; encode_sets_strings_stack; encode_exceptions_futures; encode_variants;
   encode_nursery; encode_system; encode_extended; encode_meta_hints_raw].

Definition encode_arm (instr : Instruction.t) : writer :=
  match first_some instr encode_sections with
  | Some write => write
  | None => λ output, output
  end.

Definition encode_instruction (instr : Instruction.t) (output : bytes) : bytes * nat :=
  let start_len := length output in
  let output := encode_arm instr output in
  (output, (length output - start_len)%nat).

(** ** Sequences *)

Definition encode_instructions (instructions : list Instruction.t) (output : bytes) : bytes * nat :=
  let start_len := length output in
  let output :=
    fold_left (λ output instr, (encode_instruction instr output).1) instructions output in
  (output, (length output - start_len)%nat).

Definition instruction_size (instr : Instruction.t) : nat := (encode_instruction instr []).2.
