(* ===== verification/InstructionDecode.v ===== *)
(** * Decoding of instructions

    [decode_instruction] of [verum_vbc/src/bytecode.rs] and the tensor part of
    the intrinsic registry it consults.  The match on the opcode is split at the
    headings of the source; an opcode of no section is the wildcard arm. *)

From stdpp Require Import pretty gmap.
From S2P Require Import Prelude Words Encoding TypeRefs Opcodes Instruction InstructionEncode.

(** ** The registry of intrinsics *)

(** The strategies of [ALL_INTRINSICS] that name a tensor sub-opcode, in the
    order of the table. *)
Inductive CodegenStrategy :=
| TensorExtendedOpcode (op : TensorSubOpcode.t)
| TensorExtendedOpcodeWithMode (op : TensorSubOpcode.t) (mode : u8).

Definition tensor_intrinsics : list CodegenStrategy :=
  [TensorExtendedOpcode TensorSubOpcode.NewFromArgs;
  TensorExtendedOpcode TensorSubOpcode.FillFromArgs;
  TensorExtendedOpcode TensorSubOpcode.FromSliceArgs;
  TensorExtendedOpcode TensorSubOpcode.FromSliceArgs;
  TensorExtendedOpcode TensorSubOpcode.Arange; TensorExtendedOpcode TensorSubOpcode.Linspace;
  TensorExtendedOpcodeWithMode TensorSubOpcode.Rand 0;
  TensorExtendedOpcodeWithMode TensorSubOpcode.Rand 1;
  TensorExtendedOpcodeWithMode TensorSubOpcode.Rand 2;
  TensorExtendedOpcode TensorSubOpcode.Clone; TensorExtendedOpcode TensorSubOpcode.Identity;
  TensorExtendedOpcode TensorSubOpcode.ReshapeFromArgs;
  TensorExtendedOpcode TensorSubOpcode.TransposeFromArgs;
  TensorExtendedOpcode TensorSubOpcode.Permute;
  TensorExtendedOpcode TensorSubOpcode.SliceFromArgs;
  TensorExtendedOpcodeWithMode TensorSubOpcode.Index 0;
  TensorExtendedOpcodeWithMode TensorSubOpcode.Index 1;
  TensorExtendedOpcode TensorSubOpcode.Gather; TensorExtendedOpcode TensorSubOpcode.Concat;
  TensorExtendedOpcode TensorSubOpcode.Concat; TensorExtendedOpcode TensorSubOpcode.Stack;
  TensorExtendedOpcode TensorSubOpcode.BroadcastToShape;
  TensorExtendedOpcode TensorSubOpcode.BroadcastToShape;
  TensorExtendedOpcode TensorSubOpcode.Squeeze;
  TensorExtendedOpcode TensorSubOpcode.BinopFromArgs;
  TensorExtendedOpcode TensorSubOpcode.UnopFromArgs; TensorExtendedOpcode TensorSubOpcode.Cmp;
  TensorExtendedOpcode TensorSubOpcode.Where; TensorExtendedOpcode TensorSubOpcode.Clamp;
  TensorExtendedOpcode TensorSubOpcode.Cast; TensorExtendedOpcode TensorSubOpcode.MaskedFill;
  TensorExtendedOpcode TensorSubOpcode.Lerp; TensorExtendedOpcode TensorSubOpcode.MatmulFromArgs;
  TensorExtendedOpcode TensorSubOpcode.MatmulFromArgs;
  TensorExtendedOpcode TensorSubOpcode.MatmulFromArgs;
  TensorExtendedOpcode TensorSubOpcode.BatchMatmul; TensorExtendedOpcode TensorSubOpcode.Dot;
  TensorExtendedOpcode TensorSubOpcode.Outer; TensorExtendedOpcode TensorSubOpcode.Einsum;
  TensorExtendedOpcodeWithMode TensorSubOpcode.Conv 0;
  TensorExtendedOpcodeWithMode TensorSubOpcode.Conv 1; TensorExtendedOpcode TensorSubOpcode.SVD;
  TensorExtendedOpcode TensorSubOpcode.QR; TensorExtendedOpcode TensorSubOpcode.LU;
  TensorExtendedOpcode TensorSubOpcode.Cholesky; TensorExtendedOpcode TensorSubOpcode.Eig;
  TensorExtendedOpcode TensorSubOpcode.EigSymmetric; TensorExtendedOpcode TensorSubOpcode.Solve;
  TensorExtendedOpcode TensorSubOpcode.TriSolve; TensorExtendedOpcode TensorSubOpcode.Inverse;
  TensorExtendedOpcode TensorSubOpcode.Det; TensorExtendedOpcode TensorSubOpcode.Trace;
  TensorExtendedOpcodeWithMode TensorSubOpcode.ReduceFromArgs 0;
  TensorExtendedOpcodeWithMode TensorSubOpcode.ReduceFromArgs 1;
  TensorExtendedOpcodeWithMode TensorSubOpcode.ReduceFromArgs 2;
  TensorExtendedOpcode TensorSubOpcode.Argmax; TensorExtendedOpcode TensorSubOpcode.Argmin;
  TensorExtendedOpcode TensorSubOpcode.Topk; TensorExtendedOpcode TensorSubOpcode.Cumulative;
  TensorExtendedOpcodeWithMode TensorSubOpcode.Softmax 0;
  TensorExtendedOpcodeWithMode TensorSubOpcode.Softmax 1;
  TensorExtendedOpcode TensorSubOpcode.LayerNorm; TensorExtendedOpcode TensorSubOpcode.BatchNorm;
  TensorExtendedOpcode TensorSubOpcode.Repeat;
  TensorExtendedOpcode TensorSubOpcode.GetElementFromArgs;
  TensorExtendedOpcode TensorSubOpcode.SetElementFromArgs;
  TensorExtendedOpcode TensorSubOpcode.SsmScan; TensorExtendedOpcode TensorSubOpcode.Expm;
  TensorExtendedOpcode TensorSubOpcode.Inverse; TensorExtendedOpcode TensorSubOpcode.ComplexPow;
  TensorExtendedOpcode TensorSubOpcode.ComplexMul; TensorExtendedOpcode TensorSubOpcode.Rfft;
  TensorExtendedOpcode TensorSubOpcode.Irfft; TensorExtendedOpcode TensorSubOpcode.Uniform;
  TensorExtendedOpcode TensorSubOpcode.IsTraining; TensorExtendedOpcode TensorSubOpcode.Bincount;
  TensorExtendedOpcode TensorSubOpcode.GatherNd;
  TensorExtendedOpcode TensorSubOpcode.ArangeUsize; TensorExtendedOpcode TensorSubOpcode.Repeat;
  TensorExtendedOpcode TensorSubOpcode.Tanh; TensorExtendedOpcode TensorSubOpcode.SumAll;
  TensorExtendedOpcode TensorSubOpcode.FromArray;
  TensorExtendedOpcode TensorSubOpcode.RandomFloat01;
  TensorExtendedOpcode TensorSubOpcode.TokenizerLoadBpe;
  TensorExtendedOpcode TensorSubOpcode.TokenizerLoadPretrained;
  TensorExtendedOpcode TensorSubOpcode.TokenizerEncode;
  TensorExtendedOpcode TensorSubOpcode.TokenizerDecode;
  TensorExtendedOpcode TensorSubOpcode.TokenizerLoadSpm;
  TensorExtendedOpcode TensorSubOpcode.TokenizerSpmEncode;
  TensorExtendedOpcode TensorSubOpcode.TokenizerSpmDecode;
  TensorExtendedOpcode TensorSubOpcode.SampleTopP;
  TensorExtendedOpcode TensorSubOpcode.SampleTemperature;
  TensorExtendedOpcode TensorSubOpcode.PagedAttention;
  TensorExtendedOpcode TensorSubOpcode.ParseToolCall;
  TensorExtendedOpcode TensorSubOpcode.FormatValue;
  TensorExtendedOpcode TensorSubOpcode.TensorFromSliceUsize;
  TensorExtendedOpcode TensorSubOpcode.QuantizedMatmul;
  TensorExtendedOpcode TensorSubOpcode.Norm;
  TensorExtendedOpcode TensorSubOpcode.GenerateRequestId;
  TensorExtendedOpcode TensorSubOpcode.JsonSchemaToJson;
  TensorExtendedOpcode TensorSubOpcode.FunctionSchemaToJson;
  TensorExtendedOpcode TensorSubOpcode.ParseFunctionCalls;
  TensorExtendedOpcode TensorSubOpcode.AllReduce; TensorExtendedOpcode TensorSubOpcode.AllGather;
  TensorExtendedOpcode TensorSubOpcode.Broadcast;
  TensorExtendedOpcode TensorSubOpcode.ReduceScatter;
  TensorExtendedOpcode TensorSubOpcode.Barrier; TensorExtendedOpcode TensorSubOpcode.PmapPsum;
  TensorExtendedOpcode TensorSubOpcode.PmapPmean; TensorExtendedOpcode TensorSubOpcode.PmapPmax;
  TensorExtendedOpcode TensorSubOpcode.PmapAllGather;
  TensorExtendedOpcode TensorSubOpcode.VmapTransform;
  TensorExtendedOpcode TensorSubOpcode.PmapTransform;
  TensorExtendedOpcode TensorSubOpcode.ModuleBackward;
  TensorExtendedOpcode TensorSubOpcode.DistWorldGroup;
  TensorExtendedOpcode TensorSubOpcode.DistNewGroup;
  TensorExtendedOpcode TensorSubOpcode.DistGetRank; TensorExtendedOpcode TensorSubOpcode.P2PSend;
  TensorExtendedOpcode TensorSubOpcode.P2PRecv;
  TensorExtendedOpcode TensorSubOpcode.CollectiveGather;
  TensorExtendedOpcode TensorSubOpcode.CollectiveScatter;
  TensorExtendedOpcode TensorSubOpcode.BucketGradients;
  TensorExtendedOpcode TensorSubOpcode.GetGrad; TensorExtendedOpcode TensorSubOpcode.SetGrad;
  TensorExtendedOpcode TensorSubOpcode.ModuleBackward;
  TensorExtendedOpcode TensorSubOpcode.MeshSelect;
  TensorExtendedOpcode TensorSubOpcode.ActorNewId;
  TensorExtendedOpcode TensorSubOpcode.RdmaCreateRef;
  TensorExtendedOpcode TensorSubOpcode.RdmaFetch; TensorExtendedOpcode TensorSubOpcode.RdmaWrite;
  TensorExtendedOpcode TensorSubOpcode.RdmaCheckValid;
  TensorExtendedOpcode TensorSubOpcode.BroadcastToShape;
  TensorExtendedOpcode TensorSubOpcode.Cmp; TensorExtendedOpcodeWithMode TensorSubOpcode.Conv 1;
  TensorExtendedOpcodeWithMode TensorSubOpcode.Conv 1;
  TensorExtendedOpcode TensorSubOpcode.ReshapeFromArgs;
  TensorExtendedOpcode TensorSubOpcode.TransposeFromArgs].

Definition tensor_carrier_sub_ops : gset Z :=
  fold_left (λ (set : gset Z) strategy,
    match strategy with
    | TensorExtendedOpcode op | TensorExtendedOpcodeWithMode op _ =>
        {[ TensorSubOpcode.to_byte op ]} ∪ set
    end) tensor_intrinsics ∅.

Definition tensor_arity (kind : TensorSubOpcode.t) : option nat :=
  match kind with
  | TensorSubOpcode.NewFromArgs => Some 3%nat | TensorSubOpcode.FillFromArgs => Some 4%nat
  | TensorSubOpcode.FromSliceArgs => Some 4%nat | TensorSubOpcode.Arange => Some 5%nat
  | TensorSubOpcode.ArangeUsize => Some 4%nat | TensorSubOpcode.Linspace => Some 5%nat
  | TensorSubOpcode.Rand => Some 4%nat | TensorSubOpcode.RandomFloat01 => Some 1%nat
  | TensorSubOpcode.Identity => Some 3%nat | TensorSubOpcode.Clone => Some 2%nat
  | TensorSubOpcode.Uniform => Some 4%nat | TensorSubOpcode.FromArray => Some 2%nat
  | TensorSubOpcode.TensorFromSliceUsize => Some 2%nat
  | TensorSubOpcode.ReshapeFromArgs => Some 3%nat
  | TensorSubOpcode.TransposeFromArgs => Some 2%nat | TensorSubOpcode.Permute => Some 3%nat
  | TensorSubOpcode.SliceFromArgs => Some 3%nat | TensorSubOpcode.Index => Some 3%nat
  | TensorSubOpcode.Squeeze => Some 3%nat | TensorSubOpcode.Broadcast => Some 3%nat
  | TensorSubOpcode.Repeat => Some 3%nat | TensorSubOpcode.Stack => Some 3%nat
  | TensorSubOpcode.Concat => Some 3%nat | TensorSubOpcode.ToDevice => Some 3%nat
  | TensorSubOpcode.Contiguous => Some 2%nat | TensorSubOpcode.GetElementFromArgs => Some 3%nat
  | TensorSubOpcode.SetElementFromArgs => Some 4%nat | TensorSubOpcode.GetScalar => Some 3%nat
  | TensorSubOpcode.SetScalar => Some 4%nat | TensorSubOpcode.Gather => Some 4%nat
  | TensorSubOpcode.GatherNd => Some 3%nat | TensorSubOpcode.MaskedSelect => Some 3%nat
  | TensorSubOpcode.MaskedFill => Some 4%nat | TensorSubOpcode.Nonzero => Some 2%nat
  | TensorSubOpcode.Where => Some 4%nat | TensorSubOpcode.Cast => Some 3%nat
  | TensorSubOpcode.Lerp => Some 4%nat | TensorSubOpcode.Clamp => Some 4%nat
  | TensorSubOpcode.Cmp => Some 4%nat | TensorSubOpcode.Bincount => Some 3%nat
  | TensorSubOpcode.OneHot => Some 4%nat | TensorSubOpcode.Split => Some 4%nat
  | TensorSubOpcode.SplitAt => Some 4%nat | TensorSubOpcode.Diag => Some 2%nat
  | TensorSubOpcode.UnopFromArgs => Some 2%nat | TensorSubOpcode.BinopFromArgs => Some 4%nat
  | TensorSubOpcode.Tanh => Some 2%nat | TensorSubOpcode.LeakyRelu => Some 3%nat
  | TensorSubOpcode.Expm => Some 2%nat | TensorSubOpcode.Inverse => Some 2%nat
  | TensorSubOpcode.Tril => Some 2%nat | TensorSubOpcode.Triu => Some 2%nat
  | TensorSubOpcode.IsTraining => Some 1%nat | TensorSubOpcode.SumAll => Some 2%nat
  | TensorSubOpcode.Unsqueeze => Some 3%nat | TensorSubOpcode.FormatValue => Some 2%nat
  | TensorSubOpcode.FunctionSchemaToJson => Some 2%nat
  | TensorSubOpcode.JsonSchemaToJson => Some 2%nat
  | TensorSubOpcode.ParseFunctionCalls => Some 2%nat
  | TensorSubOpcode.ParseToolCall => Some 2%nat | TensorSubOpcode.Cumulative => Some 4%nat
  | TensorSubOpcode.ReduceFromArgs => Some 3%nat | TensorSubOpcode.Argmax => Some 3%nat
  | TensorSubOpcode.Topk => Some 3%nat | TensorSubOpcode.Trace => Some 2%nat
  | TensorSubOpcode.TensorNorm => Some 2%nat | TensorSubOpcode.MatmulFromArgs => Some 3%nat
  | TensorSubOpcode.BatchMatmul => Some 3%nat | TensorSubOpcode.Dot => Some 3%nat
  | TensorSubOpcode.Outer => Some 3%nat | TensorSubOpcode.Einsum => Some 3%nat
  | TensorSubOpcode.Conv => Some 3%nat | TensorSubOpcode.Solve => Some 3%nat
  | TensorSubOpcode.TriSolve => Some 3%nat | TensorSubOpcode.QR => Some 2%nat
  | TensorSubOpcode.SVD => Some 2%nat | TensorSubOpcode.LU => Some 2%nat
  | TensorSubOpcode.Eig => Some 2%nat | TensorSubOpcode.EigSymmetric => Some 2%nat
  | TensorSubOpcode.Cholesky => Some 2%nat | TensorSubOpcode.Det => Some 2%nat
  | TensorSubOpcode.QuantizedMatmul => Some 5%nat | TensorSubOpcode.Softmax => Some 3%nat
  | TensorSubOpcode.LayerNorm => Some 5%nat | TensorSubOpcode.BatchNorm => Some 6%nat
  | TensorSubOpcode.PagedAttention => Some 5%nat | TensorSubOpcode.Rfft => Some 3%nat
  | TensorSubOpcode.Irfft => Some 3%nat | TensorSubOpcode.ComplexMul => Some 3%nat
  | TensorSubOpcode.ComplexPow => Some 3%nat | TensorSubOpcode.SsmScan => Some 5%nat
  | TensorSubOpcode.AllReduce => Some 4%nat | TensorSubOpcode.AllGather => Some 3%nat
  | TensorSubOpcode.ReduceScatter => Some 4%nat | TensorSubOpcode.Barrier => Some 2%nat
  | TensorSubOpcode.DistGetRank => Some 2%nat | TensorSubOpcode.DistNewGroup => Some 2%nat
  | TensorSubOpcode.DistWorldGroup => Some 1%nat | TensorSubOpcode.CollectiveGather => Some 4%nat
  | TensorSubOpcode.CollectiveScatter => Some 3%nat | TensorSubOpcode.P2PSend => Some 3%nat
  | TensorSubOpcode.P2PRecv => Some 2%nat | TensorSubOpcode.MeshSelect => Some 3%nat
  | TensorSubOpcode.PmapTransform => Some 5%nat | TensorSubOpcode.PmapAllGather => Some 3%nat
  | TensorSubOpcode.PmapPmax => Some 3%nat | TensorSubOpcode.PmapPmean => Some 3%nat
  | TensorSubOpcode.PmapPsum => Some 3%nat | TensorSubOpcode.VmapTransform => Some 4%nat
  | TensorSubOpcode.SampleTemperature => Some 3%nat | TensorSubOpcode.SampleTopP => Some 3%nat
  | TensorSubOpcode.GenerateRequestId => Some 1%nat
  | TensorSubOpcode.TokenizerEncode => Some 3%nat | TensorSubOpcode.TokenizerDecode => Some 3%nat
  | TensorSubOpcode.TokenizerLoadBpe => Some 3%nat
  | TensorSubOpcode.TokenizerLoadPretrained => Some 2%nat
  | TensorSubOpcode.TokenizerLoadSpm => Some 2%nat
  | TensorSubOpcode.TokenizerSpmEncode => Some 3%nat
  | TensorSubOpcode.TokenizerSpmDecode => Some 3%nat
  | TensorSubOpcode.RdmaCreateRef => Some 3%nat | TensorSubOpcode.RdmaCheckValid => Some 2%nat
  | TensorSubOpcode.RdmaFetch => Some 2%nat | TensorSubOpcode.RdmaWrite => Some 3%nat
  | TensorSubOpcode.GetGrad => Some 2%nat | TensorSubOpcode.SetGrad => Some 3%nat
  | TensorSubOpcode.ModuleBackward => Some 3%nat | TensorSubOpcode.BucketGradients => Some 3%nat
  | TensorSubOpcode.ActorNewId => Some 1%nat | TensorSubOpcode.RegexFindAll => Some 3%nat
  | TensorSubOpcode.RegexIsMatch => Some 3%nat | TensorSubOpcode.RegexReplaceAll => Some 4%nat
  | TensorSubOpcode.RegexSplit => Some 3%nat
  | _ => None
  end.

Definition registry_driven_tensor_arity (sub_op : u8) : option nat :=
  TensorSubOpcode.from_byte sub_op ≫= tensor_arity.

(** ** Helpers *)

Definition flag (byte : Z) : bool := negb (byte =? 0).

Definition ok_or {A} (o : option A) (e : VbcError) : decoder A :=
  match o with Some a => mret a | None => fail e end.

(** The result of a decoder that ran on another input. *)
Definition returned {A} (result : outcome fault A) : decoder A := λ offset, (result, offset).

Definition decode_permission_instruction (sub_op : u8) (data : bytes) :
    option (decoder Instruction.t) :=
  match TensorExtSubOpcode.from_byte sub_op with
  | Some TensorExtSubOpcode.PermissionCheckWire =>
      Some (dst ← decode_reg data; scope_tag ← decode_reg data; target_id ← decode_reg data;
        mret (Instruction.PermissionCheckWire dst scope_tag target_id))
  | Some TensorExtSubOpcode.PermissionAssert =>
      Some (scope_tag ← decode_u8 data; target_id ← decode_reg data;
        mret (Instruction.PermissionAssert scope_tag target_id))
  | Some TensorExtSubOpcode.PermissionStatsRead =>
      Some (dst ← decode_reg data; selector ← decode_reg data;
        mret (Instruction.PermissionStatsRead dst selector))
  | Some TensorExtSubOpcode.PermissionStatsClear =>
      Some (dst ← decode_reg data; mret (Instruction.PermissionStatsClear dst))
  | _ => None
  end.

Section Decode.
Context (data : bytes).

(** [SmallVec::with_capacity], of another crate: whether it can provide a
    capacity. *)
Context (with_capacity : Z → bool).

(** [for _ in 0..count] with a push per round. *)
Definition times {A} (d : decoder A) (count : Z) : decoder (list A) :=
  decode_times d (loop_fuel data) count.

Definition decode_binary_i (op : BinaryIntOp.t) : decoder Instruction.t :=
  dst ← decode_reg data;
  a ← decode_reg data;
  b ← decode_reg data;
  mret (Instruction.BinaryI op dst a b).

Definition decode_binary_f (op : BinaryFloatOp.t) : decoder Instruction.t :=
  dst ← decode_reg data;
  a ← decode_reg data;
  b ← decode_reg data;
  mret (Instruction.BinaryF op dst a b).

Definition decode_binary_g (op : BinaryGenericOp.t) : decoder Instruction.t :=
  dst ← decode_reg data;
  a ← decode_reg data;
  b ← decode_reg data;
  protocol_id ← wrap 32 <$> decode_varint data;
  mret (Instruction.BinaryG op dst a b protocol_id).

Definition decode_unary_i (op : UnaryIntOp.t) : decoder Instruction.t :=
  dst ← decode_reg data;
  src ← decode_reg data;
  mret (Instruction.UnaryI op dst src).

Definition decode_bitwise (op : BitwiseOp.t) : decoder Instruction.t :=
  dst ← decode_reg data;
  a ← decode_reg data;
  b ← decode_reg data;
  mret (Instruction.Bitwise op dst a b).

Definition decode_cmp_i (op : CompareOp.t) : decoder Instruction.t :=
  dst ← decode_reg data;
  a ← decode_reg data;
  b ← decode_reg data;
  mret (Instruction.CmpI op dst a b).

Definition decode_cmp_f (op : CompareOp.t) : decoder Instruction.t :=
  dst ← decode_reg data;
  a ← decode_reg data;
  b ← decode_reg data;
  mret (Instruction.CmpF op dst a b).

Definition decode_jmp_cmp (op : CompareOp.t) : decoder Instruction.t :=
  a ← decode_reg data;
  b ← decode_reg data;
  offset_val ← to_signed 32 <$> decode_signed_varint data;
  mret (Instruction.JmpCmp op a b offset_val).

Definition decode_type_hint : decoder u8 := λ offset,
  match data !! offset with
  | Some b => (Ok b, S offset)
  | None => (Ok 0, offset)
  end.

Definition decode_case : decoder (u32 * i32) :=
  case_val ← wrap 32 <$> decode_varint data;
  case_offset ← to_signed 32 <$> decode_signed_varint data;
  mret (case_val, case_offset).

Definition grad_mode (mode_byte : u8) : GradMode.t :=
  match mode_byte with
  | 0 => GradMode.Reverse
  | 1 => GradMode.Forward
  | _ => GradMode.Auto
  end.

Definition nursery_config (opcode : Opcode.t) (nursery : Reg) (config_type : Z) (value : Reg) :
    Instruction.t :=
  match config_type with
  | 0 => Instruction.NurserySetTimeout nursery value
  | 1 => Instruction.NurserySetMaxTasks nursery value
  | 2 => Instruction.NurserySetErrorBehavior nursery value
  | 3 => Instruction.NurseryEnter nursery
  | 4 => Instruction.NurseryExit nursery
  | _ => Instruction.Raw opcode []
  end.

Definition no_wire_decoding (opcode : string) : decoder Instruction.t :=
  fail (Deserialization ("decode_instruction: opcode " +:+ opcode +:+
    " has no canonical wire decoding (never emitted); refusing to guess")).

(** ** The arms *)

Definition decode_data_movement (opcode : Opcode.t) : option (decoder Instruction.t) :=
  match opcode with
  | Opcode.Mov =>
      Some (dst ← decode_reg data; src ← decode_reg data; mret (Instruction.Mov dst src))
  | Opcode.LoadK =>
      Some (dst ← decode_reg data; const_id ← wrap 32 <$> decode_varint data;
        mret (Instruction.LoadK dst const_id))
  | Opcode.LoadI =>
      Some (dst ← decode_reg data; value ← decode_signed_varint data;
        mret (Instruction.LoadI dst value))
  | Opcode.LoadF =>
      Some (dst ← decode_reg data; value ← decode_f64 data; mret (Instruction.LoadF dst value))
  | Opcode.LoadTrue => Some (dst ← decode_reg data; mret (Instruction.LoadTrue dst))
  | Opcode.LoadFalse => Some (dst ← decode_reg data; mret (Instruction.LoadFalse dst))
  | Opcode.LoadUnit => Some (dst ← decode_reg data; mret (Instruction.LoadUnit dst))
  | Opcode.LoadT =>
      Some (dst ← decode_reg data; type_ref ← decode_type_ref data with_capacity;
        mret (Instruction.LoadT dst type_ref))
  | Opcode.LoadSmallI =>
      Some (dst ← decode_reg data; value ← to_signed 8 <$> decode_u8 data;
        mret (Instruction.LoadSmallI dst value))
  | Opcode.LoadNil => Some (dst ← decode_reg data; mret (Instruction.LoadNil dst))
  | _ => None
  end.

Definition decode_type_conversions (opcode : Opcode.t) : option (decoder Instruction.t) :=
  match opcode with
  | Opcode.CvtIF =>
      Some (dst ← decode_reg data; src ← decode_reg data; mret (Instruction.CvtIF dst src))
  | Opcode.CvtFI =>
      Some (mode_byte ← decode_u8 data;
        let mode := default FloatToIntMode.Trunc (FloatToIntMode.from_byte mode_byte) in
        dst ← decode_reg data; src ← decode_reg data; mret (Instruction.CvtFI mode dst src))
  | Opcode.CvtIC =>
      Some (dst ← decode_reg data; src ← decode_reg data; mret (Instruction.CvtIC dst src))
  | Opcode.CvtCI =>
      Some (dst ← decode_reg data; src ← decode_reg data; mret (Instruction.CvtCI dst src))
  | Opcode.CvtBI =>
      Some (dst ← decode_reg data; src ← decode_reg data; mret (Instruction.CvtBI dst src))
  | Opcode.CvtToI =>
      Some (dst ← decode_reg data; src ← decode_reg data; mret (Instruction.CvtToI dst src))
  | Opcode.CvtToF =>
      Some (dst ← decode_reg data; src ← decode_reg data; mret (Instruction.CvtToF dst src))
  | _ => None
  end.

Definition decode_arithmetic (opcode : Opcode.t) : option (decoder Instruction.t) :=
  match opcode with
  | Opcode.AddI => Some (decode_binary_i BinaryIntOp.Add)
  | Opcode.SubI => Some (decode_binary_i BinaryIntOp.Sub)
  | Opcode.MulI => Some (decode_binary_i BinaryIntOp.Mul)
  | Opcode.DivI => Some (decode_binary_i BinaryIntOp.Div)
  | Opcode.ModI => Some (decode_binary_i BinaryIntOp.Mod)
  | Opcode.PowI => Some (decode_binary_i BinaryIntOp.Pow)
  | Opcode.UDivI => Some (decode_binary_i BinaryIntOp.UDiv)
  | Opcode.UModI => Some (decode_binary_i BinaryIntOp.UMod)
  | Opcode.AddF => Some (decode_binary_f BinaryFloatOp.Add)
  | Opcode.SubF => Some (decode_binary_f BinaryFloatOp.Sub)
  | Opcode.MulF => Some (decode_binary_f BinaryFloatOp.Mul)
  | Opcode.DivF => Some (decode_binary_f BinaryFloatOp.Div)
  | Opcode.PowF => Some (decode_binary_f BinaryFloatOp.Pow)
  | Opcode.ModF => Some (decode_binary_f BinaryFloatOp.Mod)
  | Opcode.AddG => Some (decode_binary_g BinaryGenericOp.Add)
  | Opcode.SubG => Some (decode_binary_g BinaryGenericOp.Sub)
  | Opcode.MulG => Some (decode_binary_g BinaryGenericOp.Mul)
  | Opcode.DivG => Some (decode_binary_g BinaryGenericOp.Div)
  | Opcode.NegI => Some (decode_unary_i UnaryIntOp.Neg)
  | Opcode.NegF =>
      Some (sub_op ← decode_u8 data;
        let op := default UnaryFloatOp.Neg (UnaryFloatOp.try_from sub_op) in
        dst ← decode_reg data; src ← decode_reg data; mret (Instruction.UnaryF op dst src))
  | Opcode.AbsI => Some (decode_unary_i UnaryIntOp.Abs)
  | Opcode.AbsF =>
      Some (dst ← decode_reg data; src ← decode_reg data;
        mret (Instruction.UnaryF UnaryFloatOp.Abs dst src))
  | Opcode.Inc => Some (decode_unary_i UnaryIntOp.Inc)
  | Opcode.Dec => Some (decode_unary_i UnaryIntOp.Dec)
  | Opcode.Not =>
      Some (dst ← decode_reg data; src ← decode_reg data; mret (Instruction.Not dst src))
  | _ => None
  end.

Definition decode_bitwise_comparison (opcode : Opcode.t) : option (decoder Instruction.t) :=
  match opcode with
  | Opcode.Band => Some (decode_bitwise BitwiseOp.And)
  | Opcode.Bor => Some (decode_bitwise BitwiseOp.Or)
  | Opcode.Bxor => Some (decode_bitwise BitwiseOp.Xor)
  | Opcode.Bnot => Some (decode_bitwise BitwiseOp.Not)
  | Opcode.Shl => Some (decode_bitwise BitwiseOp.Shl)
  | Opcode.Shr => Some (decode_bitwise BitwiseOp.Shr)
  | Opcode.Ushr => Some (decode_bitwise BitwiseOp.Ushr)
  | Opcode.EqI => Some (decode_cmp_i CompareOp.Eq)
  | Opcode.NeI => Some (decode_cmp_i CompareOp.Ne)
  | Opcode.LtI => Some (decode_cmp_i CompareOp.Lt)
  | Opcode.LeI => Some (decode_cmp_i CompareOp.Le)
  | Opcode.GtI => Some (decode_cmp_i CompareOp.Gt)
  | Opcode.GeI => Some (decode_cmp_i CompareOp.Ge)
  | Opcode.EqF => Some (decode_cmp_f CompareOp.Eq)
  | Opcode.NeF => Some (decode_cmp_f CompareOp.Ne)
  | Opcode.LtF => Some (decode_cmp_f CompareOp.Lt)
  | Opcode.LeF => Some (decode_cmp_f CompareOp.Le)
  | Opcode.GtF => Some (decode_cmp_f CompareOp.Gt)
  | Opcode.GeF => Some (decode_cmp_f CompareOp.Ge)
  | Opcode.EqG =>
      Some (dst ← decode_reg data; a ← decode_reg data; b ← decode_reg data;
        protocol_id ← wrap 32 <$> decode_varint data;
        mret (Instruction.CmpG true dst a b protocol_id))
  | Opcode.CmpG =>
      Some (dst ← decode_reg data; a ← decode_reg data; b ← decode_reg data;
        protocol_id ← wrap 32 <$> decode_varint data;
        mret (Instruction.CmpG false dst a b protocol_id))
  | Opcode.EqRef =>
      Some (dst ← decode_reg data; a ← decode_reg data; b ← decode_reg data;
        mret (Instruction.CmpI CompareOp.Eq dst a b))
  | Opcode.CmpExtended =>
      Some (sub_byte ← decode_u8 data;
        sub_op ← ok_or (CmpSubOpcode.from_byte sub_byte) (InvalidOpcode sub_byte);
        dst ← decode_reg data; a ← decode_reg data; b ← decode_reg data;
        mret (Instruction.CmpU sub_op dst a b))
  | Opcode.And => Some (decode_bitwise BitwiseOp.And)
  | Opcode.Or => Some (decode_bitwise BitwiseOp.Or)
  | Opcode.Xor => Some (decode_bitwise BitwiseOp.Xor)
  | _ => None
  end.

Definition decode_control_flow (opcode : Opcode.t) : option (decoder Instruction.t) :=
  match opcode with
  | Opcode.Jmp =>
      Some (offset_val ← to_signed 32 <$> decode_signed_varint data;
        mret (Instruction.Jmp offset_val))
  | Opcode.JmpIf =>
      Some (cond ← decode_reg data; offset_val ← to_signed 32 <$> decode_signed_varint data;
        mret (Instruction.JmpIf cond offset_val))
  | Opcode.JmpNot =>
      Some (cond ← decode_reg data; offset_val ← to_signed 32 <$> decode_signed_varint data;
        mret (Instruction.JmpNot cond offset_val))
  | Opcode.JmpEq => Some (decode_jmp_cmp CompareOp.Eq)
  | Opcode.JmpNe => Some (decode_jmp_cmp CompareOp.Ne)
  | Opcode.JmpLt => Some (decode_jmp_cmp CompareOp.Lt)
  | Opcode.JmpLe => Some (decode_jmp_cmp CompareOp.Le)
  | Opcode.JmpGt => Some (decode_jmp_cmp CompareOp.Gt)
  | Opcode.JmpGe => Some (decode_jmp_cmp CompareOp.Ge)
  | Opcode.Ret => Some (value ← decode_reg data; mret (Instruction.Ret value))
  | Opcode.RetV => Some (mret Instruction.RetV)
  | Opcode.Call =>
      Some (dst ← decode_reg data; func_id ← wrap 32 <$> decode_varint data;
        args ← decode_reg_range data; mret (Instruction.Call dst func_id args))
  | Opcode.TailCall =>
      Some (func_id ← wrap 32 <$> decode_varint data; args ← decode_reg_range data;
        mret (Instruction.TailCall func_id args))
  | Opcode.CallM =>
      Some (dst ← decode_reg data; receiver ← decode_reg data;
        method_id ← wrap 32 <$> decode_varint data; args ← decode_reg_range data;
        mret (Instruction.CallM dst receiver method_id args))
  | Opcode.CallClosure =>
      Some (dst ← decode_reg data; closure ← decode_reg data; args ← decode_reg_range data;
        mret (Instruction.CallClosure dst closure args))
  | Opcode.NewClosure =>
      Some (dst ← decode_reg data; func_id ← wrap 32 <$> decode_varint data;
        captures ← decode_reg_vec data;
        mret (Instruction.NewClosure dst func_id captures None []))
  | _ => None
  end.

Definition decode_memory (opcode : Opcode.t) : option (decoder Instruction.t) :=
  match opcode with
  | Opcode.New =>
      Some (dst ← decode_reg data; type_id ← wrap 32 <$> decode_varint data;
        field_count ← wrap 32 <$> decode_varint data;
        mret (Instruction.New dst type_id field_count))
  | Opcode.NewG =>
      Some (dst ← decode_reg data; type_id ← wrap 32 <$> decode_varint data;
        type_args ← decode_reg_vec data; mret (Instruction.NewG dst type_id type_args))
  | Opcode.GetF =>
      Some (dst ← decode_reg data; obj ← decode_reg data;
        field_idx ← wrap 32 <$> decode_varint data; mret (Instruction.GetF dst obj field_idx))
  | Opcode.SetF =>
      Some (obj ← decode_reg data; field_idx ← wrap 32 <$> decode_varint data;
        value ← decode_reg data; mret (Instruction.SetF obj field_idx value))
  | Opcode.GetE =>
      Some (dst ← decode_reg data; arr ← decode_reg data; idx ← decode_reg data;
        mret (Instruction.GetE dst arr idx))
  | Opcode.SetE =>
      Some (arr ← decode_reg data; idx ← decode_reg data; value ← decode_reg data;
        mret (Instruction.SetE arr idx value))
  | Opcode.Len =>
      Some (dst ← decode_reg data; arr ← decode_reg data; type_hint ← decode_type_hint;
        mret (Instruction.Len dst arr type_hint))
  | Opcode.NewArray => Some (mret (Instruction.Raw opcode []))
  | Opcode.NewList =>
      Some (dst ← decode_reg data; capacity_hint ← wrap 16 <$> decode_varint data;
        mret (Instruction.NewList dst capacity_hint))
  | Opcode.ListPush =>
      Some (list ← decode_reg data; val ← decode_reg data; mret (Instruction.ListPush list val))
  | Opcode.ListPop =>
      Some (dst ← decode_reg data; list ← decode_reg data; mret (Instruction.ListPop dst list))
  | Opcode.NewMap =>
      Some (dst ← decode_reg data; capacity ← wrap 16 <$> decode_varint data;
        mret (Instruction.NewMap dst capacity))
  | Opcode.MapGet =>
      Some (dst ← decode_reg data; map ← decode_reg data; key ← decode_reg data;
        mret (Instruction.MapGet dst map key))
  | Opcode.MapSet =>
      Some (map ← decode_reg data; key ← decode_reg data; val ← decode_reg data;
        mret (Instruction.MapSet map key val))
  | Opcode.MapContains =>
      Some (dst ← decode_reg data; map ← decode_reg data; key ← decode_reg data;
        mret (Instruction.MapContains dst map key))
  | _ => None
  end.

Definition decode_cbgr (opcode : Opcode.t) : option (decoder Instruction.t) :=
  match opcode with
  | Opcode.Ref =>
      Some (dst ← decode_reg data; src ← decode_reg data; mret (Instruction.Ref dst src))
  | Opcode.RefMut =>
      Some (dst ← decode_reg data; src ← decode_reg data; mret (Instruction.RefMut dst src))
  | Opcode.RefLocal =>
      Some (dst ← decode_reg data; src ← decode_reg data; mret (Instruction.RefLocal dst src))
  | Opcode.RefObj =>
      Some (dst ← decode_reg data; src ← decode_reg data; mret (Instruction.RefObj dst src))
  | Opcode.Deref =>
      Some (dst ← decode_reg data; ref_reg ← decode_reg data;
        mret (Instruction.Deref dst ref_reg))
  | Opcode.DerefMut =>
      Some (ref_reg ← decode_reg data; value ← decode_reg data;
        mret (Instruction.DerefMut ref_reg value))
  | Opcode.ChkRef => Some (ref_reg ← decode_reg data; mret (Instruction.ChkRef ref_reg))
  | Opcode.RefChecked =>
      Some (dst ← decode_reg data; src ← decode_reg data; mret (Instruction.RefChecked dst src))
  | Opcode.RefUnsafe =>
      Some (dst ← decode_reg data; src ← decode_reg data; mret (Instruction.RefUnsafe dst src))
  | Opcode.DropRef => Some (src ← decode_reg data; mret (Instruction.DropRef src))
  | Opcode.Clone =>
      Some (dst ← decode_reg data; src ← decode_reg data; mret (Instruction.Clone dst src))
  | _ => None
  end.

Definition decode_generic (opcode : Opcode.t) : option (decoder Instruction.t) :=
  match opcode with
  | Opcode.CallG =>
      Some (dst ← decode_reg data; func_id ← wrap 32 <$> decode_varint data;
        type_arg_count ← decode_varint data;
        type_args ← times (decode_type_ref data with_capacity) type_arg_count;
        args ← decode_reg_range data; mret (Instruction.CallG dst func_id type_args args))
  | Opcode.CallV =>
      Some (dst ← decode_reg data; receiver ← decode_reg data;
        vtable_slot ← wrap 32 <$> decode_varint data; args ← decode_reg_range data;
        mret (Instruction.CallV dst receiver vtable_slot args))
  | Opcode.CallC =>
      Some (dst ← decode_reg data; cache_id ← wrap 32 <$> decode_varint data;
        args ← decode_reg_range data; mret (Instruction.CallC dst cache_id args))
  | Opcode.SizeOfG => Some (no_wire_decoding "SizeOfG")
  | Opcode.AlignOfG => Some (no_wire_decoding "AlignOfG")
  | Opcode.Instantiate => Some (no_wire_decoding "Instantiate")
  | _ => None
  end.

Definition decode_pattern_matching (opcode : Opcode.t) : option (decoder Instruction.t) :=
  match opcode with
  | Opcode.IsVar =>
      Some (dst ← decode_reg data; value ← decode_reg data;
        tag ← wrap 32 <$> decode_varint data; mret (Instruction.IsVar dst value tag))
  | Opcode.IsType =>
      Some (dst ← decode_reg data; value ← decode_reg data;
        type_id ← wrap 32 <$> decode_varint data; mret (Instruction.IsType dst value type_id))
  | Opcode.AsVar =>
      Some (dst ← decode_reg data; value ← decode_reg data;
        tag ← wrap 32 <$> decode_varint data; mret (Instruction.AsVar dst value tag))
  | Opcode.Unpack =>
      Some (dst_start ← decode_reg data; tuple ← decode_reg data; count ← decode_u8 data;
        mret (Instruction.Unpack dst_start tuple count))
  | Opcode.Pack =>
      Some (dst ← decode_reg data; src_start ← decode_reg data; count ← decode_u8 data;
        mret (Instruction.Pack dst src_start count))
  | Opcode.Switch =>
      Some (value ← decode_reg data;
        default_offset ← to_signed 32 <$> decode_signed_varint data;
        case_count ← decode_varint data; cases ← times decode_case case_count;
        mret (Instruction.Switch value default_offset cases))
  | Opcode.MatchGuard => Some (mret (Instruction.Raw opcode []))
  | _ => None
  end.

Definition decode_generators_async (opcode : Opcode.t) : option (decoder Instruction.t) :=
  match opcode with
  | Opcode.GenCreate =>
      Some (dst ← decode_reg data; func_id ← wrap 32 <$> decode_varint data;
        args ← decode_reg_range data; mret (Instruction.GenCreate dst func_id args))
  | Opcode.GenNext =>
      Some (dst ← decode_reg data; generator ← decode_reg data;
        mret (Instruction.GenNext dst generator))
  | Opcode.GenHasNext =>
      Some (dst ← decode_reg data; generator ← decode_reg data;
        mret (Instruction.GenHasNext dst generator))
  | Opcode.Spawn =>
      Some (dst ← decode_reg data; func_id ← wrap 32 <$> decode_varint data;
        args ← decode_reg_range data; mret (Instruction.Spawn dst func_id args))
  | Opcode.Await =>
      Some (dst ← decode_reg data; task ← decode_reg data; mret (Instruction.Await dst task))
  | Opcode.Yield => Some (value ← decode_reg data; mret (Instruction.Yield value))
  | Opcode.AsyncYield => Some (mret Instruction.AsyncYield)
  | Opcode.Select =>
      Some (dst ← decode_reg data; futures ← decode_reg_vec data;
        handler_count ← decode_varint data;
        handlers ← times (to_signed 32 <$> decode_signed_varint data) handler_count;
        mret (Instruction.Select dst futures handlers))
  | Opcode.Join => Some (mret (Instruction.Raw opcode []))
  | _ => None
  end.

Definition decode_autodiff_context (opcode : Opcode.t) : option (decoder Instruction.t) :=
  match opcode with
  | Opcode.GradBegin =>
      Some (scope_id ← wrap 32 <$> decode_varint data; mode_byte ← decode_u8 data;
        let mode := grad_mode mode_byte in wrt ← decode_reg_vec data;
        mret (Instruction.GradBegin scope_id mode wrt))
  | Opcode.GradEnd =>
      Some (scope_id ← wrap 32 <$> decode_varint data; out_reg ← decode_reg data;
        grad_out ← decode_reg data; grad_regs ← decode_reg_vec data;
        mret (Instruction.GradEnd scope_id out_reg grad_out grad_regs))
  | Opcode.GradCheckpoint =>
      Some (id ← wrap 32 <$> decode_varint data; tensors ← decode_reg_vec data;
        mret (Instruction.GradCheckpoint id tensors))
  | Opcode.GradAccumulate =>
      Some (dst ← decode_reg data; src ← decode_reg data;
        mret (Instruction.GradAccumulate dst src))
  | Opcode.GradStop =>
      Some (dst ← decode_reg data; src ← decode_reg data; mret (Instruction.GradStop dst src))
  | Opcode.CtxGet =>
      Some (dst ← decode_reg data; ctx_type ← wrap 32 <$> decode_varint data;
        mret (Instruction.CtxGet dst ctx_type))
  | Opcode.CtxProvide =>
      Some (ctx_type ← wrap 32 <$> decode_varint data; value ← decode_reg data;
        body_offset ← to_signed 32 <$> decode_signed_varint data;
        mret (Instruction.CtxProvide ctx_type value body_offset))
  | Opcode.CtxEnd => Some (mret Instruction.CtxEnd)
  | _ => None
  end.

Definition decode_debug_verify (opcode : Opcode.t) : option (decoder Instruction.t) :=
  match opcode with
  | Opcode.Spec =>
      Some (reg ← decode_reg data; expected_type ← wrap 32 <$> decode_varint data;
        mret (Instruction.Spec reg expected_type))
  | Opcode.Guard =>
      Some (reg ← decode_reg data; expected_type ← wrap 32 <$> decode_varint data;
        deopt_offset ← to_signed 32 <$> decode_signed_varint data;
        mret (Instruction.Guard reg expected_type deopt_offset))
  | Opcode.Assert =>
      Some (cond ← decode_reg data; message_id ← wrap 32 <$> decode_varint data;
        mret (Instruction.Assert cond message_id))
  | Opcode.Panic =>
      Some (message_id ← wrap 32 <$> decode_varint data; mret (Instruction.Panic message_id))
  | Opcode.Unreachable => Some (mret Instruction.Unreachable)
  | Opcode.Requires | Opcode.Ensures | Opcode.Invariant => Some (mret (Instruction.Raw opcode []))
  | _ => None
  end.

Definition decode_gpu_meta_mem (opcode : Opcode.t) : option (decoder Instruction.t) :=
  match opcode with
  | Opcode.GpuSync => Some (stream ← decode_reg data; mret (Instruction.GpuSync stream))
  | Opcode.GpuMemcpy =>
      Some (dst ← decode_reg data; src ← decode_reg data; direction ← decode_u8 data;
        mret (Instruction.GpuMemcpy dst src direction))
  | Opcode.GpuAlloc =>
      Some (dst ← decode_reg data; size ← decode_reg data; device ← decode_reg data;
        mret (Instruction.GpuAlloc dst size device))
  | Opcode.GpuExtended =>
      Some (sub_op_byte ← decode_u8 data; operands ← decode_bytes data;
        mret (Instruction.GpuExtended sub_op_byte operands))
  | Opcode.MetaQuote =>
      Some (dst ← decode_reg data; bytes_const_id ← wrap 32 <$> decode_varint data;
        mret (Instruction.MetaQuote dst bytes_const_id))
  | Opcode.MetaSplice => Some (src ← decode_reg data; mret (Instruction.MetaSplice src))
  | Opcode.MetaEval =>
      Some (dst ← decode_reg data; expr ← decode_reg data; mret (Instruction.MetaEval dst expr))
  | Opcode.MetaReflect =>
      Some (dst ← decode_reg data; type_id ← wrap 32 <$> decode_varint data;
        mret (Instruction.MetaReflect dst type_id))
  | Opcode.MemExtended =>
      Some (sub_op ← decode_u8 data; operands ← decode_bytes data;
        mret (Instruction.MemExtended sub_op operands))
  | Opcode.MlExtended =>
      Some (sub_op ← decode_u8 data; operands ← decode_bytes data;
        mret (Instruction.Raw opcode (put_len operands [sub_op] ++ operands)))
  | _ => None
  end.

Definition decode_extended_families (opcode : Opcode.t) : option (decoder Instruction.t) :=
  match opcode with
  | Opcode.ArithExtended =>
      Some (sub_op ← decode_u8 data; operands ← decode_bytes data;
        mret (Instruction.ArithExtended sub_op operands))
  | Opcode.FfiExtended =>
      Some (sub_op ← decode_u8 data; operands ← decode_bytes data;
        mret (Instruction.FfiExtended sub_op operands))
  | Opcode.TimeExtended =>
      Some (sub_op ← decode_u8 data; operands ← decode_bytes data;
        mret (Instruction.TimeExtended sub_op operands))
  | Opcode.SysExtended =>
      Some (sub_op ← decode_u8 data; operands ← decode_bytes data;
        mret (Instruction.SysExtended sub_op operands))
  | Opcode.MachExtended =>
      Some (sub_op ← decode_u8 data; operands ← decode_bytes data;
        mret (Instruction.MachExtended sub_op operands))
  | Opcode.SyncExtended =>
      Some (sub_op ← decode_u8 data; operands ← decode_bytes data;
        mret (Instruction.SyncExtended sub_op operands))
  | Opcode.MathExtended =>
      Some (sub_op ← decode_u8 data; operands ← decode_bytes data;
        mret (Instruction.MathExtended sub_op operands))
  | Opcode.SimdExtended =>
      Some (sub_op ← decode_u8 data; operands ← decode_bytes data;
        mret (Instruction.SimdExtended sub_op operands))
  | Opcode.CharExtended =>
      Some (sub_op ← decode_u8 data; operands ← decode_bytes data;
        mret (Instruction.CharExtended sub_op operands))
  | Opcode.CbgrExtended =>
      Some (sub_op ← decode_u8 data; operands ← decode_bytes data;
        mret (Instruction.CbgrExtended sub_op operands))
  | Opcode.TextExtended =>
      Some (sub_op ← decode_u8 data; operands ← decode_bytes data;
        mret (Instruction.TextExtended sub_op operands))
  | Opcode.LogExtended =>
      Some (sub_op ← decode_u8 data; operands ← decode_bytes data;
        mret (Instruction.LogExtended sub_op operands))
  | _ => None
  end.

Definition decode_iterators_atomics (opcode : Opcode.t) : option (decoder Instruction.t) :=
  match opcode with
  | Opcode.IterNew =>
      Some (dst ← decode_reg data; iterable ← decode_reg data;
        mret (Instruction.IterNew dst iterable))
  | Opcode.IterNext =>
      Some (dst ← decode_reg data; has_next ← decode_reg data; iter ← decode_reg data;
        mret (Instruction.IterNext dst has_next iter))
  | Opcode.AtomicLoad =>
      Some (dst ← decode_reg data; ptr ← decode_reg data; ordering ← decode_u8 data;
        size ← decode_u8 data; mret (Instruction.AtomicLoad dst ptr ordering size))
  | Opcode.AtomicStore =>
      Some (ptr ← decode_reg data; val ← decode_reg data; ordering ← decode_u8 data;
        size ← decode_u8 data; mret (Instruction.AtomicStore ptr val ordering size))
  | Opcode.AtomicCas =>
      Some (dst ← decode_reg data; ptr ← decode_reg data; expected ← decode_reg data;
        desired ← decode_reg data; ordering ← decode_u8 data; size ← decode_u8 data;
        mret (Instruction.AtomicCas dst ptr expected desired ordering size))
  | Opcode.AtomicFence =>
      Some (ordering ← decode_u8 data; mret (Instruction.AtomicFence ordering))
  | Opcode.Nop => Some (mret Instruction.Nop)
  | Opcode.DebugPrint => Some (value ← decode_reg data; mret (Instruction.DebugPrint value))
  | Opcode.MakePi =>
      Some (dst ← decode_reg data; param ← decode_reg data;
        return_type_id ← wrap 32 <$> decode_varint data;
        mret (Instruction.MakePi dst param return_type_id))
  | Opcode.MakeSigma =>
      Some (dst ← decode_reg data; witness ← decode_reg data; payload ← decode_reg data;
        mret (Instruction.MakeSigma dst witness payload))
  | Opcode.MakeWitness =>
      Some (dst ← decode_reg data; value ← decode_reg data;
        proof_hash ← wrap 32 <$> decode_varint data;
        mret (Instruction.MakeWitness dst value proof_hash))
  | _ => None
  end.

Definition decode_variants_strings (opcode : Opcode.t) : option (decoder Instruction.t) :=
  match opcode with
  | Opcode.TlsGet =>
      Some (dst ← decode_reg data; slot ← decode_reg data; mret (Instruction.TlsGet dst slot))
  | Opcode.TlsSet =>
      Some (slot ← decode_reg data; val ← decode_reg data; mret (Instruction.TlsSet slot val))
  | Opcode.GetVariantData =>
      Some (dst ← decode_reg data; variant ← decode_reg data;
        field ← wrap 32 <$> decode_varint data;
        mret (Instruction.GetVariantData dst variant field))
  | Opcode.GetVariantDataRef =>
      Some (dst ← decode_reg data; variant ← decode_reg data;
        field ← wrap 32 <$> decode_varint data;
        mret (Instruction.GetVariantDataRef dst variant field))
  | Opcode.Concat =>
      Some (dst ← decode_reg data; a ← decode_reg data; b ← decode_reg data;
        mret (Instruction.Concat dst a b))
  | Opcode.ToString =>
      Some (dst ← decode_reg data; src ← decode_reg data; mret (Instruction.ToString dst src))
  | Opcode.CharToStr =>
      Some (dst ← decode_reg data; src ← decode_reg data; mret (Instruction.CharToStr dst src))
  | Opcode.MakeVariant =>
      Some (dst ← decode_reg data; tag ← wrap 32 <$> decode_varint data;
        field_count ← wrap 32 <$> decode_varint data;
        mret (Instruction.MakeVariant dst tag field_count))
  | Opcode.SetVariantData =>
      Some (variant ← decode_reg data; field ← wrap 32 <$> decode_varint data;
        value ← decode_reg data; mret (Instruction.SetVariantData variant field value))
  | Opcode.GetTag =>
      Some (dst ← decode_reg data; variant ← decode_reg data;
        mret (Instruction.GetTag dst variant))
  | Opcode.Push => Some (src ← decode_reg data; mret (Instruction.Push src))
  | Opcode.Pop => Some (dst ← decode_reg data; mret (Instruction.Pop dst))
  | Opcode.CallR =>
      Some (dst ← decode_reg data; func ← decode_reg data; argc ← decode_u8 data;
        mret (Instruction.CallR dst func argc))
  | _ => None
  end.

Definition decode_exceptions_context (opcode : Opcode.t) : option (decoder Instruction.t) :=
  match opcode with
  | Opcode.Throw => Some (error ← decode_reg data; mret (Instruction.Throw error))
  | Opcode.TryBegin =>
      Some (handler_offset ← to_signed 32 <$> decode_signed_varint data;
        mret (Instruction.TryBegin handler_offset))
  | Opcode.TryEnd => Some (mret Instruction.TryEnd)
  | Opcode.GetException => Some (dst ← decode_reg data; mret (Instruction.GetException dst))
  | Opcode.FutureReady =>
      Some (dst ← decode_reg data; future ← decode_reg data;
        mret (Instruction.FutureReady dst future))
  | Opcode.FutureGet =>
      Some (dst ← decode_reg data; future ← decode_reg data;
        mret (Instruction.FutureGet dst future))
  | Opcode.AsyncNext =>
      Some (dst ← decode_reg data; iter ← decode_reg data; mret (Instruction.AsyncNext dst iter))
  | Opcode.PushContext =>
      Some (name ← wrap 32 <$> decode_varint data; handler ← decode_reg data;
        mret (Instruction.PushContext name handler))
  | Opcode.PopContext =>
      Some (name ← wrap 32 <$> decode_varint data; mret (Instruction.PopContext name))
  | Opcode.Attenuate =>
      Some (dst ← decode_reg data; context ← decode_reg data;
        capabilities ← wrap 32 <$> decode_varint data;
        mret (Instruction.Attenuate dst context capabilities))
  | _ => None
  end.

Definition decode_sets (opcode : Opcode.t) : option (decoder Instruction.t) :=
  match opcode with
  | Opcode.NewSet =>
      Some (dst ← decode_reg data; capacity ← wrap 16 <$> decode_varint data;
        mret (Instruction.NewSet dst capacity))
  | Opcode.NewDeque =>
      Some (dst ← decode_reg data; capacity_hint ← wrap 16 <$> decode_varint data;
        mret (Instruction.NewDeque dst capacity_hint))
  | Opcode.NewRange =>
      Some (dst ← decode_reg data; start ← decode_reg data; end_ ← decode_reg data;
        inclusive ← flag <$> decode_u8 data;
        mret (Instruction.NewRange dst start end_ inclusive))
  | Opcode.SetInsert =>
      Some (set ← decode_reg data; elem ← decode_reg data; mret (Instruction.SetInsert set elem))
  | Opcode.SetContains =>
      Some (dst ← decode_reg data; set ← decode_reg data; elem ← decode_reg data;
        mret (Instruction.SetContains dst set elem))
  | Opcode.SetRemove =>
      Some (set ← decode_reg data; elem ← decode_reg data; mret (Instruction.SetRemove set elem))
  | _ => None
  end.

Definition decode_system (opcode : Opcode.t) : option (decoder Instruction.t) :=
  match opcode with
  | Opcode.SyscallLinux =>
      Some (dst ← decode_reg data; num ← decode_reg data; a1 ← decode_reg data;
        a2 ← decode_reg data; a3 ← decode_reg data; a4 ← decode_reg data; a5 ← decode_reg data;
        a6 ← decode_reg data; mret (Instruction.SyscallLinux dst num a1 a2 a3 a4 a5 a6))
  | Opcode.Mmap =>
      Some (dst ← decode_reg data; addr ← decode_reg data; len ← decode_reg data;
        prot ← decode_reg data; flags ← decode_reg data; fd ← decode_reg data;
        mmap_offset ← decode_reg data;
        mret (Instruction.Mmap dst addr len prot flags fd mmap_offset))
  | Opcode.Munmap =>
      Some (dst ← decode_reg data; addr ← decode_reg data; len ← decode_reg data;
        mret (Instruction.Munmap dst addr len))
  | Opcode.IoSubmit =>
      Some (dst ← decode_reg data; engine ← decode_reg data; ops ← decode_reg data;
        mret (Instruction.IoSubmit dst engine ops))
  | Opcode.IoPoll =>
      Some (dst ← decode_reg data; engine ← decode_reg data; timeout ← decode_reg data;
        mret (Instruction.IoPoll dst engine timeout))
  | _ => None
  end.

Definition decode_nursery_cubical (opcode : Opcode.t) : option (decoder Instruction.t) :=
  match opcode with
  | Opcode.NurseryInit => Some (dst ← decode_reg data; mret (Instruction.NurseryInit dst))
  | Opcode.NurseryConfig =>
      Some (nursery ← decode_reg data; config_type ← decode_varint data;
        value ← decode_reg data; mret (nursery_config opcode nursery config_type value))
  | Opcode.NurserySpawn =>
      Some (dst ← decode_reg data; nursery ← decode_reg data; task ← decode_reg data;
        mret (Instruction.NurserySpawn dst nursery task))
  | Opcode.NurseryAwait =>
      Some (success ← decode_reg data; nursery ← decode_reg data;
        mret (Instruction.NurseryAwaitAll nursery success))
  | Opcode.NurseryError =>
      Some (dst ← decode_reg data; nursery ← decode_reg data;
        mret (Instruction.NurseryGetError nursery dst))
  | Opcode.NurseryCancel =>
      Some (nursery ← decode_reg data; mret (Instruction.NurseryCancel nursery))
  | Opcode.CubicalExtended =>
      Some (sub_op ← decode_u8 data; dst ← decode_reg data; args_len ← decode_u8 data;
        args ← times (decode_reg data) args_len;
        mret (Instruction.CubicalExtended sub_op dst args))
  | _ => None
  end.

(** ** Tensor sub-opcodes *)

(** The length-prefixed operands, and the permission operations among them. *)
Definition decode_tensor_carrier (sub_opcode_byte : u8) : decoder Instruction.t :=
  operands ← decode_bytes data;
  let carrier := mret (Instruction.TensorExtended sub_opcode_byte operands) in
  if sub_opcode_byte =? 0xFF then
    match head operands with
    | Some extended =>
        match decode_permission_instruction extended operands with
        | Some decode_operands =>
            let '(result, operand_offset) := decode_operands 1%nat in
            decoded ← returned result;
            if (operand_offset =? length operands)%nat then mret decoded
            else
              offset ← here;
              fail (InvalidInstructionEncoding (Z.of_nat offset)
                "permission instruction has trailing operands")
        | None => carrier
        end
    | None => carrier
    end
  else carrier.

(** The sub-opcodes whose operands are a fixed number of registers. *)
Definition tensor_register_count (sub_opcode : TensorSubOpcode.t) : option nat :=
  match sub_opcode with
  | TensorSubOpcode.NewFromArgs => Some 3%nat | TensorSubOpcode.FillFromArgs => Some 4%nat
  | TensorSubOpcode.FromSliceArgs => Some 4%nat | TensorSubOpcode.BinopFromArgs => Some 4%nat
  | TensorSubOpcode.UnopFromArgs => Some 3%nat | TensorSubOpcode.MatmulFromArgs => Some 3%nat
  | TensorSubOpcode.ReduceFromArgs => Some 4%nat | TensorSubOpcode.ReshapeFromArgs => Some 3%nat
  | TensorSubOpcode.TransposeFromArgs => Some 2%nat | TensorSubOpcode.SliceFromArgs => Some 3%nat
  | TensorSubOpcode.GetElementFromArgs => Some 3%nat
  | TensorSubOpcode.SetElementFromArgs => Some 4%nat | TensorSubOpcode.OneHot => Some 4%nat
  | TensorSubOpcode.Split => Some 4%nat | TensorSubOpcode.SplitAt => Some 4%nat
  | TensorSubOpcode.Bincount => Some 3%nat | TensorSubOpcode.Tanh => Some 2%nat
  | TensorSubOpcode.Repeat => Some 3%nat | TensorSubOpcode.ToDevice => Some 3%nat
  | TensorSubOpcode.Diag => Some 2%nat | TensorSubOpcode.Expm => Some 2%nat
  | TensorSubOpcode.Inverse => Some 2%nat | TensorSubOpcode.Tril => Some 2%nat
  | TensorSubOpcode.Triu => Some 2%nat | TensorSubOpcode.Uniform => Some 4%nat
  | TensorSubOpcode.Contiguous => Some 2%nat | TensorSubOpcode.SumAll => Some 2%nat
  | TensorSubOpcode.Unsqueeze => Some 3%nat | TensorSubOpcode.IsTraining => Some 1%nat
  | TensorSubOpcode.LeakyRelu => Some 3%nat | TensorSubOpcode.GatherNd => Some 3%nat
  | TensorSubOpcode.GetScalar => Some 3%nat | TensorSubOpcode.SetScalar => Some 4%nat
  | TensorSubOpcode.MaskedSelect => Some 3%nat | TensorSubOpcode.Nonzero => Some 2%nat
  | TensorSubOpcode.ArangeUsize => Some 4%nat | TensorSubOpcode.ComplexMul => Some 3%nat
  | TensorSubOpcode.ComplexPow => Some 3%nat | TensorSubOpcode.Rfft => Some 3%nat
  | TensorSubOpcode.Irfft => Some 3%nat | TensorSubOpcode.FromArray => Some 2%nat
  | TensorSubOpcode.RegexFindAll => Some 3%nat | TensorSubOpcode.RegexIsMatch => Some 3%nat
  | TensorSubOpcode.RegexReplaceAll => Some 4%nat | TensorSubOpcode.RegexSplit => Some 3%nat
  | TensorSubOpcode.SsmScan => Some 5%nat | TensorSubOpcode.BatchNorm => Some 6%nat
  | _ => None
  end.

Definition decode_tensor_registers (sub_opcode : TensorSubOpcode.t) :
    option (decoder Instruction.t) :=
  (λ param_count,
    operands ← decode_extended_reg_operands data param_count;
    mret (Instruction.TensorExtended (TensorSubOpcode.to_byte sub_opcode) operands))
  <$> tensor_register_count sub_opcode.

Definition decode_tensor_pool (sub_opcode : TensorSubOpcode.t) :
    option (decoder Instruction.t) :=
  match sub_opcode with
  | TensorSubOpcode.Pool =>
      Some (op_byte ← decode_u8 data; let op := TensorPoolOp.from_byte op_byte in
        dst ← decode_reg data; src ← decode_reg data; kernel_size_len ← decode_varint data;
        kernel_size ← times (decode_u8 data) kernel_size_len; stride_len ← decode_varint data;
        stride ← times (decode_u8 data) stride_len; padding_len ← decode_varint data;
        padding ← times (decode_u8 data) padding_len;
        mret (Instruction.TensorPool op dst src kernel_size stride padding))
  | _ => None
  end.

Definition decode_tensor_decompositions (sub_opcode : TensorSubOpcode.t) :
    option (decoder Instruction.t) :=
  match sub_opcode with
  | TensorSubOpcode.Argmin =>
      Some (dst ← decode_reg data; src ← decode_reg data; axis ← to_signed 8 <$> decode_u8 data;
        keepdim ← flag <$> decode_u8 data; mret (Instruction.TensorArgmin dst src axis keepdim))
  | TensorSubOpcode.Solve =>
      Some (dst ← decode_reg data; a ← decode_reg data; b ← decode_reg data;
        mret (Instruction.TensorSolve dst a b))
  | TensorSubOpcode.Gather =>
      Some (dst ← decode_reg data; src ← decode_reg data; index ← decode_reg data;
        axis ← to_signed 8 <$> decode_u8 data;
        mret (Instruction.TensorGather dst src index axis))
  | TensorSubOpcode.Permute =>
      Some (dst ← decode_reg data; src ← decode_reg data; axes_len ← decode_varint data;
        axes ← times (decode_u8 data) axes_len; mret (Instruction.TensorPermute dst src axes))
  | TensorSubOpcode.QR =>
      Some (q ← decode_reg data; r ← decode_reg data; src ← decode_reg data;
        mode ← decode_u8 data; mret (Instruction.TensorQR q r src mode))
  | TensorSubOpcode.SVD =>
      Some (u ← decode_reg data; s ← decode_reg data; vh ← decode_reg data;
        src ← decode_reg data; full_matrices ← flag <$> decode_u8 data;
        compute_uv ← flag <$> decode_u8 data;
        mret (Instruction.TensorSVD u s vh src full_matrices compute_uv))
  | TensorSubOpcode.LU =>
      Some (p ← decode_reg data; l ← decode_reg data; u ← decode_reg data;
        src ← decode_reg data; mret (Instruction.TensorLU p l u src))
  | TensorSubOpcode.Eig =>
      Some (eigenvalues ← decode_reg data; eigenvectors ← decode_reg data;
        src ← decode_reg data; compute_v ← flag <$> decode_u8 data;
        mret (Instruction.TensorEig eigenvalues eigenvectors src compute_v))
  | TensorSubOpcode.EigSymmetric =>
      Some (eigenvalues ← decode_reg data; eigenvectors ← decode_reg data;
        src ← decode_reg data; upper ← flag <$> decode_u8 data;
        mret (Instruction.TensorEigSymmetric eigenvalues eigenvectors src upper))
  | TensorSubOpcode.Lstsq =>
      Some (x ← decode_reg data; residuals ← decode_reg data; rank_reg ← decode_reg data;
        s ← decode_reg data; a ← decode_reg data; b ← decode_reg data; rcond ← decode_f64 data;
        mret (Instruction.TensorLstsq x residuals rank_reg s a b rcond))
  | TensorSubOpcode.Det =>
      Some (dst ← decode_reg data; src ← decode_reg data; mret (Instruction.TensorDet dst src))
  | TensorSubOpcode.Trace =>
      Some (dst ← decode_reg data; src ← decode_reg data; mret (Instruction.TensorTrace dst src))
  | TensorSubOpcode.Norm =>
      Some (dst ← decode_reg data; src ← decode_reg data; ord ← to_signed 8 <$> decode_u8 data;
        mret (Instruction.TensorNorm dst src ord))
  | _ => None
  end.

Definition decode_tensor_elements (sub_opcode : TensorSubOpcode.t) :
    option (decoder Instruction.t) :=
  match sub_opcode with
  | TensorSubOpcode.Arange =>
      Some (dst ← decode_reg data; start ← decode_reg data; end_ ← decode_reg data;
        step ← decode_reg data; dtype ← TensorDType.from_byte <$> decode_u8 data;
        mret (Instruction.TensorArange dst start end_ step dtype))
  | TensorSubOpcode.Linspace =>
      Some (dst ← decode_reg data; start ← decode_reg data; end_ ← decode_reg data;
        num ← decode_reg data; dtype ← TensorDType.from_byte <$> decode_u8 data;
        mret (Instruction.TensorLinspace dst start end_ num dtype))
  | TensorSubOpcode.Rand =>
      Some (dst ← decode_reg data; shape ← decode_reg_vec data;
        dtype ← TensorDType.from_byte <$> decode_u8 data;
        mret (Instruction.TensorRand dst shape dtype))
  | TensorSubOpcode.Clone =>
      Some (dst ← decode_reg data; src ← decode_reg data; mret (Instruction.TensorClone dst src))
  | TensorSubOpcode.Identity =>
      Some (dst ← decode_reg data; size ← decode_reg data;
        dtype ← TensorDType.from_byte <$> decode_u8 data;
        mret (Instruction.TensorIdentity dst size dtype))
  | TensorSubOpcode.Index =>
      Some (dst ← decode_reg data; src ← decode_reg data; indices ← decode_reg data;
        axis ← decode_u8 data; mret (Instruction.TensorIndex dst src indices axis))
  | TensorSubOpcode.Concat =>
      Some (dst ← decode_reg data; tensors ← decode_reg_vec data; axis ← decode_u8 data;
        mret (Instruction.TensorConcat dst tensors axis))
  | TensorSubOpcode.Stack =>
      Some (dst ← decode_reg data; tensors ← decode_reg_vec data; axis ← decode_u8 data;
        mret (Instruction.TensorStack dst tensors axis))
  | TensorSubOpcode.BroadcastToShape =>
      Some (dst ← decode_reg data; src ← decode_reg data; shape ← decode_reg_vec data;
        mret (Instruction.TensorBroadcast dst src shape))
  | TensorSubOpcode.Squeeze =>
      Some (dst ← decode_reg data; src ← decode_reg data; axes_len ← decode_varint data;
        axes ← times (decode_u8 data) axes_len; mret (Instruction.TensorSqueeze dst src axes))
  | TensorSubOpcode.Cmp =>
      Some (op ← CompareOp.from_byte <$> decode_u8 data; dst ← decode_reg data;
        a ← decode_reg data; b ← decode_reg data; mret (Instruction.TensorCmp op dst a b))
  | TensorSubOpcode.Where =>
      Some (dst ← decode_reg data; cond ← decode_reg data; x ← decode_reg data;
        y ← decode_reg data; mret (Instruction.TensorWhere dst cond x y))
  | TensorSubOpcode.Clamp =>
      Some (dst ← decode_reg data; src ← decode_reg data; min ← decode_reg data;
        max ← decode_reg data; mret (Instruction.TensorClamp dst src min max))
  | TensorSubOpcode.Cast =>
      Some (dst ← decode_reg data; src ← decode_reg data;
        dtype ← TensorDType.from_byte <$> decode_u8 data;
        mret (Instruction.TensorCast dst src dtype))
  | TensorSubOpcode.MaskedFill =>
      Some (dst ← decode_reg data; src ← decode_reg data; mask ← decode_reg data;
        value ← decode_reg data; mret (Instruction.TensorMaskedFill dst src mask value))
  | TensorSubOpcode.Lerp =>
      Some (dst ← decode_reg data; a ← decode_reg data; b ← decode_reg data;
        t ← decode_reg data; mret (Instruction.TensorLerp dst a b t))
  | _ => None
  end.

Definition decode_tensor_algebra (sub_opcode : TensorSubOpcode.t) :
    option (decoder Instruction.t) :=
  match sub_opcode with
  | TensorSubOpcode.Dot =>
      Some (dst ← decode_reg data; a ← decode_reg data; b ← decode_reg data;
        axes_a_len ← decode_varint data; axes_a ← times (decode_u8 data) axes_a_len;
        axes_b_len ← decode_varint data; axes_b ← times (decode_u8 data) axes_b_len;
        mret (Instruction.TensorDot dst a b axes_a axes_b))
  | TensorSubOpcode.Conv =>
      Some (dst ← decode_reg data; input ← decode_reg data; kernel ← decode_reg data;
        bias ← decode_optional_reg data; stride_len ← decode_varint data;
        stride ← times (decode_u8 data) stride_len; padding_len ← decode_varint data;
        padding ← times (decode_u8 data) padding_len; dilation_len ← decode_varint data;
        dilation ← times (decode_u8 data) dilation_len; groups ← wrap 8 <$> decode_varint data;
        mret (Instruction.TensorConv dst input kernel bias stride padding dilation groups))
  | TensorSubOpcode.BatchMatmul =>
      Some (dst ← decode_reg data; a ← decode_reg data; b ← decode_reg data;
        mret (Instruction.TensorBatchMatmul dst a b))
  | TensorSubOpcode.Einsum =>
      Some (dst ← decode_reg data; inputs ← decode_reg_vec data;
        equation_id ← wrap 32 <$> decode_varint data;
        mret (Instruction.TensorEinsum dst inputs equation_id))
  | TensorSubOpcode.Outer =>
      Some (dst ← decode_reg data; a ← decode_reg data; b ← decode_reg data;
        mret (Instruction.TensorOuter dst a b))
  | TensorSubOpcode.TriSolve =>
      Some (dst ← decode_reg data; a ← decode_reg data; b ← decode_reg data;
        upper ← flag <$> decode_u8 data; mret (Instruction.TensorTriSolve dst a b upper))
  | TensorSubOpcode.Cholesky =>
      Some (dst ← decode_reg data; src ← decode_reg data; upper ← flag <$> decode_u8 data;
        mret (Instruction.TensorCholesky dst src upper))
  | TensorSubOpcode.Argmax =>
      Some (dst ← decode_reg data; src ← decode_reg data; axis ← to_signed 8 <$> decode_u8 data;
        keepdim ← flag <$> decode_u8 data; mret (Instruction.TensorArgmax dst src axis keepdim))
  | TensorSubOpcode.Topk =>
      Some (values ← decode_reg data; indices ← decode_reg data; src ← decode_reg data;
        k ← decode_reg data; axis ← to_signed 8 <$> decode_u8 data;
        largest ← flag <$> decode_u8 data;
        mret (Instruction.TensorTopk values indices src k axis largest))
  | TensorSubOpcode.Cumulative =>
      Some (op_byte ← decode_u8 data; let op := TensorCumulativeOp.from_byte op_byte in
        dst ← decode_reg data; src ← decode_reg data; axis ← to_signed 8 <$> decode_u8 data;
        mret (Instruction.TensorCumulative op dst src axis))
  | TensorSubOpcode.Softmax =>
      Some (dst ← decode_reg data; src ← decode_reg data; axis ← to_signed 8 <$> decode_u8 data;
        mret (Instruction.TensorSoftmax dst src axis))
  | TensorSubOpcode.LayerNorm =>
      Some (dst ← decode_reg data; input ← decode_reg data; gamma ← decode_optional_reg data;
        beta ← decode_optional_reg data; normalized_shape ← wrap 32 <$> decode_varint data;
        eps ← decode_f32 data;
        mret (Instruction.TensorLayerNorm dst input gamma beta normalized_shape eps))
  | _ => None
  end.

Definition decode_tensor_ext (sub_opcode_byte : u8) (ext_sub_opcode : TensorExtSubOpcode.t) :
    decoder Instruction.t :=
  match ext_sub_opcode with
  | TensorExtSubOpcode.RmsNorm =>
      dst ← decode_reg data; input ← decode_reg data; gamma ← decode_optional_reg data;
        eps ← decode_f32 data; mret (Instruction.TensorRmsNorm dst input gamma eps)
  | TensorExtSubOpcode.Fft =>
      dst ← decode_reg data; src ← decode_reg data; dim ← to_signed 8 <$> decode_u8 data;
        inverse ← flag <$> decode_u8 data; mret (Instruction.TensorFft dst src dim inverse)
  | TensorExtSubOpcode.Scatter =>
      dst ← decode_reg data; src ← decode_reg data; index ← decode_reg data;
        values ← decode_reg data; axis ← to_signed 8 <$> decode_u8 data; mode ← decode_u8 data;
        mret (Instruction.TensorScatter dst src index values axis mode)
  | TensorExtSubOpcode.FlashAttention =>
      dst ← decode_reg data; q ← decode_reg data; k ← decode_reg data;
        v ← decode_reg data; mask ← decode_optional_reg data; scale ← decode_reg data;
        causal ← flag <$> decode_u8 data;
        mret (Instruction.TensorFlashAttention dst q k v mask scale causal)
  | TensorExtSubOpcode.ContiguousView =>
      dst ← decode_reg data; src ← decode_reg data;
        mret (Instruction.TensorContiguousView dst src)
  | TensorExtSubOpcode.RandomU64 => dst ← decode_reg data; mret (Instruction.RandomU64 dst)
  | TensorExtSubOpcode.RandomFloat =>
      dst ← decode_reg data; low ← decode_reg data; high ← decode_reg data;
        mret (Instruction.RandomFloat dst low high)
  | TensorExtSubOpcode.GlobalAllocator =>
      dst ← decode_reg data; mret (Instruction.GlobalAllocator dst)
  | TensorExtSubOpcode.MemNewId => dst ← decode_reg data; mret (Instruction.MemNewId dst)
  | TensorExtSubOpcode.MemAllocTensor =>
      dst ← decode_reg data; shape ← decode_reg data; dtype ← decode_u8 data;
        mret (Instruction.MemAllocTensor dst shape dtype)
  | TensorExtSubOpcode.RegexFind | TensorExtSubOpcode.RegexReplace |
    TensorExtSubOpcode.RegexCaptures =>
      fail (InvalidOpcode sub_opcode_byte)
  | TensorExtSubOpcode.PermissionCheckWire | TensorExtSubOpcode.PermissionAssert
  | TensorExtSubOpcode.PermissionStatsRead | TensorExtSubOpcode.PermissionStatsClear =>
      default panic (decode_permission_instruction sub_opcode_byte data)
  end.

Definition tensor_sections : list (TensorSubOpcode.t → option (decoder Instruction.t)) :=
  [decode_tensor_pool; decode_tensor_registers; decode_tensor_decompositions;
   decode_tensor_elements; decode_tensor_algebra].

(** Whether the operands of a sub-opcode are length-prefixed. *)
Definition tensor_carrier (sub_opcode_byte : u8) : bool :=
  bool_decide (sub_opcode_byte ∈ tensor_carrier_sub_ops)
  || is_some (registry_driven_tensor_arity sub_opcode_byte).

Definition decode_tensor_extended : decoder Instruction.t :=
  sub_opcode_byte ← decode_u8 data;
  if tensor_carrier sub_opcode_byte then decode_tensor_carrier sub_opcode_byte
  else
    match TensorSubOpcode.from_byte sub_opcode_byte with
    | Some sub_opcode =>
        default (fail (InvalidOpcode sub_opcode_byte)) (first_some sub_opcode tensor_sections)
    | None =>
        match TensorExtSubOpcode.from_byte sub_opcode_byte with
        | Some ext_sub_opcode => decode_tensor_ext sub_opcode_byte ext_sub_opcode
        | None => fail (InvalidOpcode sub_opcode_byte)
        end
    end.

(** ** Generic extended sub-opcodes *)

Definition decode_presence (message : string) : decoder bool :=
  byte ← decode_u8 data;
  match byte with
  | 0 => mret false
  | 1 => mret true
  | _ => fail (Deserialization message)
  end.

Definition decode_capture_type : decoder (option TypeRef) :=
  present ← decode_presence "invalid closure capture type presence";
  if (present : bool) then (ty ← decode_type_ref data with_capacity; mret (Some ty)) else mret None.

Definition decode_lexical_types (witnessed : bool) : decoder (list TypeRef) :=
  if witnessed then
    count ← decode_varint data;
    if 0xFFFF <? count
    then fail (Deserialization "excessive closure lexical type count")
    else times (decode_type_ref data with_capacity) count
  else mret [].

Definition decode_closure (witnessed : bool) : decoder Instruction.t :=
  dst ← decode_reg data;
  func_id ← wrap 32 <$> decode_varint data;
  captures ← decode_reg_vec data;
  present ←
    (if witnessed then decode_presence "invalid closure capture declaration presence"
     else mret true);
  count ← (if (present : bool) then decode_varint data else mret 0);
  if 0xFFFF <? count
  then fail (Deserialization "excessive closure capture type count")
  else
    types ← times decode_capture_type count;
    lexical_types ← decode_lexical_types witnessed;
    mret (Instruction.NewClosure dst func_id captures (if (present : bool) then Some types else None)
      lexical_types).

(** The scripting sub-opcodes, by the number of their register operands. *)
Definition script_operands (kind : ExtendedSubOpcode.t) : option nat :=
  match kind with
  | ExtendedSubOpcode.ScriptEngineNew | ExtendedSubOpcode.ScriptEngineFree
  | ExtendedSubOpcode.ScriptOutcomeFree | ExtendedSubOpcode.ScriptWorldNew
  | ExtendedSubOpcode.ScriptWorldFree | ExtendedSubOpcode.ScriptSessionFree => Some 1%nat
  | ExtendedSubOpcode.ScriptOutcomeIsOk | ExtendedSubOpcode.ScriptOutcomeKind
  | ExtendedSubOpcode.ScriptOutcomeAsInt | ExtendedSubOpcode.ScriptOutcomeAsFloat
  | ExtendedSubOpcode.ScriptOutcomeAsBool | ExtendedSubOpcode.ScriptOutcomeAsText
  | ExtendedSubOpcode.ScriptOutcomeError | ExtendedSubOpcode.ScriptOutcomeStdout
  | ExtendedSubOpcode.ScriptGlobalKind | ExtendedSubOpcode.ScriptGlobalInt
  | ExtendedSubOpcode.ScriptGlobalText | ExtendedSubOpcode.ScriptGlobalBool
  | ExtendedSubOpcode.ScriptGlobalFloat | ExtendedSubOpcode.ScriptSetInt
  | ExtendedSubOpcode.ScriptSetText | ExtendedSubOpcode.ScriptSetBool
  | ExtendedSubOpcode.ScriptSetFloat | ExtendedSubOpcode.ScriptOutcomeListLen
  | ExtendedSubOpcode.ScriptOutcomeMapLen | ExtendedSubOpcode.ScriptGlobalList
  | ExtendedSubOpcode.ScriptGlobalMap | ExtendedSubOpcode.ScriptSetList
  | ExtendedSubOpcode.ScriptSetMap | ExtendedSubOpcode.ScriptEngineStdout
  | ExtendedSubOpcode.ScriptEngineLastError | ExtendedSubOpcode.ScriptEngineLastErrorKind => Some 2%nat
  | ExtendedSubOpcode.ScriptEngineEval | ExtendedSubOpcode.ScriptEngineSetGlobalInt
  | ExtendedSubOpcode.ScriptEngineSetGlobalText | ExtendedSubOpcode.ScriptEngineSetGlobalBool
  | ExtendedSubOpcode.ScriptEngineSetGlobalFloat | ExtendedSubOpcode.ScriptEngineSetGlobalValue
  | ExtendedSubOpcode.ScriptEngineRegister | ExtendedSubOpcode.ScriptHostCallInt
  | ExtendedSubOpcode.ScriptWorldEval | ExtendedSubOpcode.ScriptOutcomeListElemKind
  | ExtendedSubOpcode.ScriptOutcomeListElemInt | ExtendedSubOpcode.ScriptOutcomeListElemFloat
  | ExtendedSubOpcode.ScriptOutcomeListElemBool | ExtendedSubOpcode.ScriptOutcomeListElemText
  | ExtendedSubOpcode.ScriptOutcomeMapKeyKind | ExtendedSubOpcode.ScriptOutcomeMapKeyInt
  | ExtendedSubOpcode.ScriptOutcomeMapKeyFloat | ExtendedSubOpcode.ScriptOutcomeMapKeyBool
  | ExtendedSubOpcode.ScriptOutcomeMapKeyText | ExtendedSubOpcode.ScriptOutcomeMapValueKind
  | ExtendedSubOpcode.ScriptOutcomeMapValueInt | ExtendedSubOpcode.ScriptOutcomeMapValueFloat
  | ExtendedSubOpcode.ScriptOutcomeMapValueBool | ExtendedSubOpcode.ScriptOutcomeMapValueText
  | ExtendedSubOpcode.ScriptOutcomeListElemSub | ExtendedSubOpcode.ScriptOutcomeMapKeySub
  | ExtendedSubOpcode.ScriptOutcomeMapValueSub | ExtendedSubOpcode.ScriptSessionCall
  | ExtendedSubOpcode.ScriptEngineLink => Some 3%nat
  | ExtendedSubOpcode.ScriptEngineNewSandboxed | ExtendedSubOpcode.ScriptEngineCall
  | ExtendedSubOpcode.ScriptEngineLink2 => Some 4%nat
  | ExtendedSubOpcode.ScriptEngineCallArgs => Some 5%nat
  | _ => None
  end.

Definition decode_extended_kind (sub_op : u8) (kind : ExtendedSubOpcode.t) :
    decoder Instruction.t :=
  match kind with
  | ExtendedSubOpcode.NewClosureTyped => decode_closure false
  | ExtendedSubOpcode.NewClosureWitnessed => decode_closure true
  | ExtendedSubOpcode.TypeResource =>
      dst ← decode_reg data; type_ref ← decode_type_ref data with_capacity;
      mret (Instruction.TypeResource dst type_ref)
  | ExtendedSubOpcode.BindMethodReceiver =>
      type_ref ← decode_type_ref data with_capacity; mret (Instruction.BindMethodReceiver type_ref)
  | ExtendedSubOpcode.DropTyped =>
      src ← decode_reg data; type_ref ← decode_type_ref data with_capacity;
      mret (Instruction.DropTyped src type_ref)
  | ExtendedSubOpcode.TypeLayout =>
      dst ← decode_reg data; raw_property ← decode_u8 data;
      property ← ok_or (LayoutProperty.from_byte raw_property)
        (Deserialization ("invalid layout property " +:+ pretty (Z.to_N raw_property)));
      type_ref ← decode_type_ref data with_capacity;
      mret (Instruction.TypeLayout dst type_ref property)
  | ExtendedSubOpcode.SetCallWitness =>
      count ← decode_varint data;
      type_args ← times (decode_type_ref data with_capacity) count;
      mret (Instruction.SetCallWitness type_args)
  | ExtendedSubOpcode.MakeVariantTyped =>
      dst ← decode_reg data; type_id ← wrap 32 <$> decode_varint data;
      tag ← wrap 32 <$> decode_varint data; field_count ← wrap 32 <$> decode_varint data;
      mret (Instruction.MakeVariantTyped dst type_id tag field_count)
  | ExtendedSubOpcode.GetFieldNamed =>
      dst ← decode_reg data; obj ← decode_reg data; name ← wrap 32 <$> decode_varint data;
      mret (Instruction.GetFieldNamed dst obj name)
  | ExtendedSubOpcode.SetFieldNamed =>
      obj ← decode_reg data; name ← wrap 32 <$> decode_varint data; value ← decode_reg data;
      mret (Instruction.SetFieldNamed obj name value)
  | ExtendedSubOpcode.ProcessExit =>
      operands ← decode_extended_reg_operands data 1;
      mret (Instruction.Extended sub_op operands)
  | ExtendedSubOpcode.Reserved => mret (Instruction.Extended sub_op [])
  | _ =>
      operands ← decode_extended_reg_operands data (default 0%nat (script_operands kind));
      mret (Instruction.Extended sub_op operands)
  end.

Definition decode_extended : decoder Instruction.t :=
  sub_op ← decode_u8 data;
  match ExtendedSubOpcode.from_byte sub_op with
  | Some kind => decode_extended_kind sub_op kind
  | None => fail (InvalidOpcode sub_op)
  end.

(** ** The instruction *)

Definition decode_extended_gateways (opcode : Opcode.t) : option (decoder Instruction.t) :=
  match opcode with
  | Opcode.TensorExtended => Some decode_tensor_extended
  | Opcode.Extended => Some decode_extended
  | _ => None
  end.

Definition decode_sections : list (Opcode.t → option (decoder Instruction.t)) :=
  [decode_data_movement; decode_type_conversions; decode_arithmetic; decode_bitwise_comparison;
   decode_control_flow; decode_memory; decode_cbgr; decode_generic; decode_pattern_matching;
   decode_generators_async; decode_autodiff_context; decode_debug_verify; decode_gpu_meta_mem;
   decode_extended_families; decode_iterators_atomics; decode_variants_strings;
   decode_exceptions_context; decode_sets; decode_system; decode_nursery_cubical;
   decode_extended_gateways].

Definition decode_opcode (opcode : Opcode.t) : decoder Instruction.t :=
  match first_some opcode decode_sections with
  | Some decode => decode
  | None => mret (Instruction.Raw opcode [])
  end.

Definition decode_instruction : decoder Instruction.t :=
  opcode_byte ← decode_u8 data;
  if Opcode.reclaimed opcode_byte then fail (InvalidOpcode opcode_byte)
  else
    let opcode := Opcode.from_byte opcode_byte in
    decode_opcode opcode.

(** [while offset < data.len()]: each round reads at least one byte. *)
Fixpoint decode_while (fuel : nat) : decoder (list Instruction.t) := λ offset,
  match fuel with
  | O => (Gas TraversalGas, offset)
  | S fuel =>
      if (offset <? length data)%nat then
        (instr ← decode_instruction; instructions ← decode_while fuel;
         mret (instr :: instructions)) offset
      else (Ok [], offset)
  end.

Definition decode_instructions : outcome fault (list Instruction.t) :=
  (decode_while (S (length data)) 0%nat).1.
End Decode.
