(* ===== verification/InstructionOk.v ===== *)
(** * Instructions that survive encoding

    [instruction_ok] says which instructions [decode_instruction] reads back: the
    fields are in the range of their types (a register below 32768, since only
    its low fifteen bits are written), and the form is one the decoder returns.
    Not of such a form are: the structured GPU operations, the structured tensor
    operations whose sub-opcode the decoder takes for the length-prefixed carrier,
    the hints, [Iter], [MapInsert] and [CtxCheckNegative], which share the
    encoding of another instruction. *)

From stdpp Require Import gmap.
From S2P Require Import Prelude Words Encoding EncodingFacts Codec TypeRefs TypeRefFacts Opcodes.
From S2P Require Import Instruction InstructionEncode InstructionDecode.

(** ** Matching a writer with a decoder

    [codec data m e d a]: the writer [e] appends some bytes, at least [m], from
    which the decoder [d] on the input [data] returns [a].  One rule per kind of
    field relates the statements of an encoding arm to those of a decoding arm;
    the tactic [codec] applies them from left to right. *)

(** ** Opcodes: facts

    [from_byte] inverts [to_byte] for every enum, and the opcode bytes are exactly
    those the decoder does not reject. *)

Lemma GpuSubOpcode_from_to op : GpuSubOpcode.from_byte (GpuSubOpcode.to_byte op) = Some op.
Proof. by destruct op. Qed.

Lemma TensorSubOpcode_from_to op : TensorSubOpcode.from_byte (TensorSubOpcode.to_byte op) = Some op.
Proof. by destruct op. Qed.

Lemma TensorExtSubOpcode_from_to op : TensorExtSubOpcode.from_byte (TensorExtSubOpcode.to_byte op) = Some op.
Proof. by destruct op. Qed.

Lemma ExtendedSubOpcode_from_to op : ExtendedSubOpcode.from_byte (ExtendedSubOpcode.to_byte op) = Some op.
Proof. by destruct op. Qed.

Lemma CmpSubOpcode_from_to op : CmpSubOpcode.from_byte (CmpSubOpcode.to_byte op) = Some op.
Proof. by destruct op. Qed.

Lemma LayoutProperty_from_to op : LayoutProperty.from_byte (LayoutProperty.to_byte op) = Some op.
Proof. by destruct op. Qed.

Lemma FloatToIntMode_from_to op : FloatToIntMode.from_byte (FloatToIntMode.to_byte op) = Some op.
Proof. by destruct op. Qed.

Lemma CompareOp_from_to op : CompareOp.from_byte (CompareOp.to_byte op) = op.
Proof. by destruct op. Qed.

Lemma TensorDType_from_to op : TensorDType.from_byte (TensorDType.to_byte op) = op.
Proof. by destruct op. Qed.

Lemma TensorCumulativeOp_from_to op : TensorCumulativeOp.from_byte (TensorCumulativeOp.to_byte op) = op.
Proof. by destruct op. Qed.

Lemma TensorPoolOp_from_to op : TensorPoolOp.from_byte (TensorPoolOp.to_byte op) = op.
Proof. by destruct op. Qed.

Lemma Opcode_from_to op : Opcode.from_byte (Opcode.to_byte op) = op.
Proof. by destruct op. Qed.

Lemma Opcode_live op : Opcode.reclaimed (Opcode.to_byte op) = false.
Proof. by destruct op. Qed.

(** A byte outside the reclaimed ones is the discriminant of what it decodes to. *)
Lemma Opcode_to_from byte :
  is_u 8 byte → Opcode.reclaimed byte = false → Opcode.to_byte (Opcode.from_byte byte) = byte.
Proof.
  intros Hb Hr. apply Z.eqb_eq.
  assert (H : Opcode.reclaimed byte || (Opcode.to_byte (Opcode.from_byte byte) =? byte) = true).
  { apply (byte_cases (λ b, Opcode.reclaimed b || (Opcode.to_byte (Opcode.from_byte b) =? b)));
      [by vm_compute|done]. }
  by rewrite Hr in H.
Qed.

#[export] Instance Opcode_to_byte_inj : Inj (=) (=) Opcode.to_byte.
Proof. intros x y H. by rewrite <- (Opcode_from_to x), H, Opcode_from_to. Qed.

#[export] Instance Opcode_eq_dec : EqDecision Opcode.t.
Proof.
  intros x y. destruct (decide (Opcode.to_byte x = Opcode.to_byte y)) as [H|H].
  - left. by apply (inj Opcode.to_byte).
  - right. by intros ->.
Defined.

(** Nothing left to write. *)
Definition done_writing : writer := λ output, output.

Section codec.
Context (data : bytes) (with_capacity : Z → bool).
Context (Hcap : ∀ n, (n ≤ length data)%nat → with_capacity (Z.of_nat n) = true).

Definition codec {A} (m : nat) (e : writer) (d : decoder A) (a : A) : Prop :=
  ∃ out, writes e out ∧ reads_at data d out a ∧ (m ≤ length out)%nat.

(** ** Structure *)
Lemma codec_done {A} (a b : A) : a = b → codec 0 done_writing (mret a) b.
Proof.
  intros ->. exists []. split_and!; [|apply reads_at_ret|done]. intros output. by rewrite app_nil_r.
Qed.

Lemma codec_weaken {A} m e (d : decoder A) a : codec m e d a → codec 0 e d a.
Proof. intros (out & ? & ? & ?). exists out. split_and!; [done..|lia]. Qed.

Lemma codec_ext {A} m e (d d' : decoder A) a :
  (∀ offset, d offset = d' offset) → codec m e d a → codec m e d' a.
Proof.
  intros E (out & ? & R & ?). exists out. split_and!; [done| |done].
  intros before after Hd. rewrite <- E. exact (R _ _ Hd).
Qed.

Lemma codec_writer {A} m (e e' : writer) (d : decoder A) a :
  (∀ output, e output = e' output) → codec m e d a → codec m e' d a.
Proof.
  intros E (out & W & R & ?). exists out. split_and!; [|done|done]. intros output. by rewrite <- E.
Qed.

Lemma codec_step {A B} m e1 e2 (d : decoder A) (k : A → decoder B) a b :
  codec m e1 d a → codec 0 e2 (k a) b → codec m (e1 |> e2) (d ≫= k) b.
Proof.
  intros (out1 & W1 & R1 & ?) (out2 & W2 & R2 & _). exists (out1 ++ out2). split_and!.
  - intros output. unfold then_write. by rewrite W1, W2, <- (assoc_L app).
  - by eapply reads_at_bind.
  - rewrite length_app. lia.
Qed.

Lemma codec_next {A B} m e1 e2 (d : decoder A) (k : A → decoder B) a b :
  codec m e1 d a → codec 0 e2 (k a) b → codec 0 (e1 |> e2) (d ≫= k) b.
Proof. intros H H'. eapply codec_weaken, codec_step; [exact H|exact H']. Qed.

Lemma codec_fmap {A B C} m e (f : A → B) (d : decoder A) (k : B → decoder C) c :
  codec m e (d ≫= λ a, k (f a)) c → codec m e ((f <$> d) ≫= k) c.
Proof.
  apply codec_ext. intros offset. unfold fmap, decoder_fmap, mbind, decoder_bind.
  by destruct (d offset) as [[] ?].
Qed.

Lemma codec_map {A B} m e (f : A → B) (d : decoder A) a b :
  codec m e d a → f a = b → codec m e (f <$> d) b.
Proof.
  intros (out & W & R & ?) <-. exists out. split_and!; [done| |done]. by apply (reads_at_last data d f).
Qed.

Lemma codec_bind_assoc {A B C} m e (d : decoder A) (f : A → decoder B) (k : B → decoder C) c :
  codec m e (d ≫= λ a, f a ≫= k) c → codec m e ((d ≫= f) ≫= k) c.
Proof.
  apply codec_ext. intros offset. unfold mbind, decoder_bind. by destruct (d offset) as [[] ?].
Qed.

Lemma codec_ret_bind {A B} m e (a : A) (k : A → decoder B) b :
  codec m e (k a) b → codec m e (mret a ≫= k) b.
Proof. done. Qed.

Lemma codec_ok_or {A B} m e (o : option A) err (k : A → decoder B) a b :
  o = Some a → codec m e (k a) b → codec m e (ok_or o err ≫= k) b.
Proof. by intros ->. Qed.

Lemma codec_if_else {A} m e (c : bool) (d d' : decoder A) a :
  c = false → codec m e d' a → codec m e (if c then d else d') a.
Proof. by intros ->. Qed.

(** ** Fields *)
Lemma codec_byte b : codec 1 (push b) (decode_u8 data) b.
Proof. exists [b]. split_and!; [done|apply u8_reads_at|done]. Qed.

Lemma codec_reg r : u_ok 15 r = true → codec 1 (encode_reg r) (decode_reg data) r.
Proof.
  intros H. exists (reg_bytes r). split_and!.
  - apply encode_reg_writes.
  - by apply reads_reads_at, reg_reads, u_ok_true.
  - rewrite reg_bytes_length. unfold reg_size. case_match; lia.
Qed.

Lemma codec_varint w v :
  w ≤ 64 → 0 ≤ w → u_ok w v = true → codec 1 (put_varint v) (decode_varint data) v.
Proof.
  intros Hw Hw' H. exists (varint_bytes v). apply (u_ok_mono w 64) in H; [|lia]. split_and!.
  - intros output. apply put_varint_writes.
  - by apply varint_reads_at.
  - by apply varint_bytes_wf.
Qed.

Lemma codec_len {A} (l : list A) :
  len_ok l = true → codec 1 (put_len l) (decode_varint data) (Z.of_nat (length l)).
Proof.
  intros H%len_ok_true. apply (codec_varint 64); [done|done|].
  unfold u_ok. by rewrite andb_true_iff, Z.leb_le, Z.ltb_lt.
Qed.

Lemma codec_signed v : i_ok 64 v = true → codec 1 (put_signed_varint v) (decode_signed_varint data) v.
Proof.
  intros H%i_ok_true. destruct (varint_bytes_wf (zigzag v) (zigzag_range v H)) as [_ Hl].
  exists (varint_bytes (zigzag v)). split_and!; [|intros before after E|done].
  - intros output. apply encode_varint_writes.
  - unfold decode_signed_varint, mbind, decoder_bind.
    rewrite (varint_reads_at data (zigzag v) (zigzag_range v H) before after E).
    cbn [mret decoder_ret]. by rewrite zigzag_inverse.
Qed.

Lemma codec_type t : type_ok t = true → codec 1 (encode_type_ref t) (decode_type_ref data with_capacity) t.
Proof.
  intros H. exists (type_bytes t). split_and!; [|intros before after E|apply type_bytes_pos].
  - intros output. apply encode_type_writes.
  - refine (fuel_reads data with_capacity (S (length data)) t Hcap H _ _ before after E); [|lia].
    rewrite E, !length_app. lia.
Qed.

Lemma codec_f64 v : u_ok 64 v = true → codec 1 (encode_f64 v) (decode_f64 data) v.
Proof.
  intros H%u_ok_true. exists (to_le_bytes 8 v).
  split_and!; [done| |rewrite length_to_le_bytes; lia].
  pose proof (decode_word_reads 8 from_le_bytes v) as R. rewrite word_bytes in R by done.
  by apply reads_reads_at.
Qed.

Lemma codec_f32 v : u_ok 32 v = true → codec 1 (extend (to_le_bytes 4 v)) (decode_f32 data) v.
Proof.
  intros H%u_ok_true. exists (to_le_bytes 4 v).
  split_and!; [done| |rewrite length_to_le_bytes; lia].
  pose proof (decode_word_reads 4 from_le_bytes v) as R. rewrite word_bytes in R by done.
  by apply reads_reads_at.
Qed.

Lemma codec_type_hint b : codec 1 (push b) (decode_type_hint data) b.
Proof.
  exists [b]. split_and!; [done| |done]. intros before after E. unfold decode_type_hint.
  rewrite E. cbn [app]. by rewrite list_lookup_middle, Nat.add_1_r by done.
Qed.

(** ** Lists *)
Lemma codec_for_each {A} (f : A → writer) (d : decoder A) l :
  (∀ x, x ∈ l → codec 1 (f x) d x) →
  codec (length l) (for_each l f) (times data d (Z.of_nat (length l))) l.
Proof.
  intros H. assert (Hall : ∃ outs, Forall2 (λ out x, writes (f x) out ∧ reads_at data d out x ∧
      (1 ≤ length out)%nat) outs l).
  { induction l as [|x l IH]; [by exists []|].
    destruct (H x ltac:(left)) as (out & Hx). destruct IH as [outs IH]; [intros; apply H; by right|].
    exists (out :: outs). by constructor. }
  clear H. destruct Hall as [outs H]. exists (concat outs).
  assert (Hl : (length l ≤ length (concat outs))%nat).
  { clear -H. induction H as [|out x outs l (_ & _ & Hx) _ IH]; cbn [concat length]; [lia|].
    rewrite length_app. lia. }
  split_and!; [| |done].
  - clear Hl. unfold for_each. induction H as [|out x outs l (W & _ & _) _ IH]; intros output;
      cbn [fold_left concat]; [by rewrite app_nil_r|]. by rewrite IH, W, <- (assoc_L app).
  - intros before after E.
    refine (decode_times_reads data d (loop_fuel data) outs l _ _ before after E).
    + clear -H. induction H as [|out x outs l (_ & R & _) _ IH]; by constructor.
    + unfold loop_fuel. rewrite E, !length_app. lia.
Qed.

Lemma codec_times {A B} n (f : A → writer) (d : decoder A) l rest (k : list A → decoder B) b :
  n = Z.of_nat (length l) → (∀ x, x ∈ l → codec 1 (f x) d x) → codec 0 rest (k l) b →
  codec 0 (for_each l f |> rest) (times data d n ≫= k) b.
Proof. intros -> H. by apply codec_step, (codec_weaken (length l)), codec_for_each. Qed.

Lemma codec_bytes {B} l rest (k : bytes → decoder B) b :
  len_ok l = true → codec 0 rest (k l) b →
  codec 0 (put_len l |> extend l |> rest) (decode_bytes data ≫= k) b.
Proof.
  intros Hl H. change (put_len l |> extend l |> rest) with ((put_len l |> extend l) |> rest).
  apply codec_step with l; [|done].
  exists (len_bytes l ++ l). split_and!; [|apply reads_reads_at, decode_bytes_reads|apply Nat.le_0_l].
  - intros output. unfold then_write, extend. by rewrite put_len_writes, <- (assoc_L app).
  - by apply Z.ltb_lt.
Qed.

(** A list of plain bytes, pushed at once. *)
Lemma codec_extend_bytes {B} n l rest (k : bytes → decoder B) b :
  n = Z.of_nat (length l) → codec 0 rest (k l) b →
  codec 0 (extend l |> rest) (times data (decode_u8 data) n ≫= k) b.
Proof.
  intros Hn H. apply (codec_writer 0 (for_each l push |> rest)).
  - intros output. unfold then_write. f_equal. clear. unfold for_each, extend, push.
    revert output. induction l as [|x l IH]; intros output; cbn [fold_left]; [by rewrite app_nil_r|].
    by rewrite IH, <- (assoc_L app).
  - apply codec_times; [done| |done]. intros. apply codec_byte.
Qed.

Lemma codec_regs l :
  len_ok l = true → forallb (u_ok 15) l = true → codec 0 (encode_reg_vec l) (decode_reg_vec data) l.
Proof.
  intros Hl Hr. exists (len_bytes l ++ concat (map reg_bytes l)). split_and!; [|apply reads_reads_at|apply Nat.le_0_l].
  - intros output. apply encode_reg_vec_writes.
  - apply reg_vec_reads; [|done]. apply Forall_forall. intros r Hin. apply u_ok_true.
    rewrite forallb_forall in Hr. by apply Hr, list_elem_of_In.
Qed.

Lemma codec_optional o :
  match o with Some r => u_ok 15 r | None => true end = true →
  codec 0 (encode_optional_reg o) (decode_optional_reg data) o.
Proof.
  intros H. unfold decode_optional_reg. destruct o as [r|].
  - change (encode_optional_reg (Some r)) with (push 1 |> encode_reg r |> done_writing).
    eapply codec_weaken, codec_step; [apply codec_byte|]. apply codec_if_else; [done|].
    eapply codec_weaken, codec_step; [by apply codec_reg|]. by apply codec_done.
  - change (encode_optional_reg None) with (push 0 |> done_writing).
    eapply codec_weaken, codec_step; [apply codec_byte|]. by apply codec_done.
Qed.

Lemma codec_range r : u_ok 15 (start r) = true → codec 0 (encode_reg_range r) (decode_reg_range data) r.
Proof.
  intros H. change (encode_reg_range r) with (encode_reg (start r) |> push (count r) |> done_writing).
  unfold decode_reg_range. eapply codec_weaken, codec_step; [by apply codec_reg|].
  eapply codec_weaken, codec_step; [apply codec_byte|]. apply codec_done. by destruct r.
Qed.
End codec.

(** Sequences to the right, ending in [done_writing]. *)
Ltac flatten e rest :=
  lazymatch e with
  | ?a |> ?b => let r := flatten b rest in flatten a r
  | _ => constr:(e |> rest)
  end.

Ltac flatten_writer :=
  lazymatch goal with
  | |- codec ?data ?m ?e ?d ?a =>
      let e := flatten e done_writing in change (codec data m e d a)
  end.

Definition regs_ok (l : list Reg) : bool := len_ok l && forallb (u_ok 15) l.
Definition types_ok (l : list TypeRef) : bool := len_ok l && forallb type_ok l.
Definition optional_ok (o : option Reg) : bool :=
  match o with Some r => u_ok 15 r | None => true end.
Definition cases_ok (l : list (u32 * i32)) : bool :=
  len_ok l && forallb (λ case, u_ok 32 case.1 && i_ok 32 case.2) l.
Definition offsets_ok (l : list i32) : bool := len_ok l && forallb (i_ok 32) l.

(** A unary float operation that [try_from] knows. *)
Definition unary_float_ok (op : UnaryFloatOp.t) : bool :=
  is_some (UnaryFloatOp.try_from (UnaryFloatOp.to_byte op)).

(** [operands] is the bytes of [n] registers. *)
Fixpoint registers (n : nat) (operands : bytes) : bool :=
  match n, operands with
  | O, [] => true
  | S n, first :: operands =>
      if negb (Z.land first 0x80 =? 0)
      then match operands with _ :: operands => registers n operands | [] => false end
      else registers n operands
  | _, _ => false
  end.

(** The sub-opcodes that decode to the generic form, with their operands. *)
Definition opaque_operands (kind : ExtendedSubOpcode.t) : option nat :=
  match kind with
  | ExtendedSubOpcode.Reserved => Some 0%nat
  | ExtendedSubOpcode.ProcessExit => Some 1%nat
  | _ => script_operands kind
  end.

Definition extended_ok (sub_op : u8) (operands : bytes) : bool :=
  match ExtendedSubOpcode.from_byte sub_op ≫= opaque_operands with
  | Some n => registers n operands
  | None => false
  end.

Definition is_permission (byte : Z) : bool :=
  is_some (decode_permission_instruction byte []).

(** The escape [0xFF] followed by a permission sub-opcode is another instruction. *)
Definition tensor_extended_ok (sub_op : u8) (operands : bytes) : bool :=
  tensor_carrier sub_op && len_ok operands &&
  negb ((sub_op =? 0xFF) && match operands with b :: _ => is_permission b | [] => false end).

Definition capture_ok (o : option TypeRef) : bool :=
  match o with Some t => type_ok t | None => true end.

Definition closure_types_ok (capture_types : option (list (option TypeRef)))
    (lexical_types : list TypeRef) : bool :=
  match capture_types with
  | Some l => (Z.of_nat (length l) <=? 0xFFFF) &&
      forallb capture_ok l
  | None => true
  end && ((Z.of_nat (length lexical_types) <=? 0xFFFF) && forallb type_ok lexical_types).

(** The opcodes without operands that decode to [Raw]. *)
Definition raw_opcode (opcode : Opcode.t) : bool :=
  match opcode with
  | Opcode.NewArray | Opcode.MatchGuard | Opcode.Join | Opcode.Requires | Opcode.Ensures
  | Opcode.Invariant => true
  | _ => negb (is_some (first_some opcode (decode_sections [] (λ _, true))))
  end.

(** The carrier that decodes to [Raw]: the data is the sub-opcode and the
    length-prefixed operands. *)
Definition ml_ok (data : bytes) : bool :=
  match data, decode_bytes data 1%nat with
  | sub_op :: _, (Ok operands, _) =>
      len_ok operands && bool_decide (data = put_len operands [sub_op] ++ operands)
  | _, _ => false
  end.

Definition raw_ok (opcode : Opcode.t) (data : bytes) : bool :=
  match opcode with
  | Opcode.MlExtended => ml_ok data
  | _ => raw_opcode opcode && is_empty data
  end.

Definition instruction_ok (instr : Instruction.t) : bool :=
  match instr with
  | Instruction.Mov dst src => u_ok 15 dst && u_ok 15 src
  | Instruction.LoadK dst const_id => u_ok 15 dst && u_ok 32 const_id
  | Instruction.LoadI dst value => u_ok 15 dst && i_ok 64 value
  | Instruction.LoadF dst value => u_ok 15 dst && u_ok 64 value
  | Instruction.LoadTrue dst => u_ok 15 dst
  | Instruction.LoadFalse dst => u_ok 15 dst
  | Instruction.LoadUnit dst => u_ok 15 dst
  | Instruction.LoadT dst type_ref => u_ok 15 dst && type_ok type_ref
  | Instruction.TypeLayout dst type_ref _ => u_ok 15 dst && type_ok type_ref
  | Instruction.TypeResource dst type_ref => u_ok 15 dst && type_ok type_ref
  | Instruction.LoadSmallI dst value => u_ok 15 dst && i_ok 8 value
  | Instruction.CvtIF dst src => u_ok 15 dst && u_ok 15 src
  | Instruction.CvtFI _ dst src => u_ok 15 dst && u_ok 15 src
  | Instruction.CvtIC dst src => u_ok 15 dst && u_ok 15 src
  | Instruction.CvtCI dst src => u_ok 15 dst && u_ok 15 src
  | Instruction.CvtBI dst src => u_ok 15 dst && u_ok 15 src
  | Instruction.CvtToI dst src => u_ok 15 dst && u_ok 15 src
  | Instruction.CvtToF dst src => u_ok 15 dst && u_ok 15 src
  | Instruction.BinaryI _ dst a b => u_ok 15 dst && u_ok 15 a && u_ok 15 b
  | Instruction.BinaryF _ dst a b => u_ok 15 dst && u_ok 15 a && u_ok 15 b
  | Instruction.BinaryG _ dst a b protocol_id =>
      u_ok 15 dst && u_ok 15 a && u_ok 15 b && u_ok 32 protocol_id
  | Instruction.UnaryI _ dst src => u_ok 15 dst && u_ok 15 src
  | Instruction.Not dst src => u_ok 15 dst && u_ok 15 src
  | Instruction.Bitwise _ dst a b => u_ok 15 dst && u_ok 15 a && u_ok 15 b
  | Instruction.CmpI _ dst a b => u_ok 15 dst && u_ok 15 a && u_ok 15 b
  | Instruction.CmpF _ dst a b => u_ok 15 dst && u_ok 15 a && u_ok 15 b
  | Instruction.CmpG _ dst a b protocol_id =>
      u_ok 15 dst && u_ok 15 a && u_ok 15 b && u_ok 32 protocol_id
  | Instruction.CmpU _ dst a b => u_ok 15 dst && u_ok 15 a && u_ok 15 b
  | Instruction.Nop => true
  | Instruction.Jmp offset => i_ok 32 offset
  | Instruction.JmpIf cond offset => u_ok 15 cond && i_ok 32 offset
  | Instruction.JmpNot cond offset => u_ok 15 cond && i_ok 32 offset
  | Instruction.JmpCmp _ a b offset => u_ok 15 a && u_ok 15 b && i_ok 32 offset
  | Instruction.Ret value => u_ok 15 value
  | Instruction.RetV => true
  | Instruction.Call dst func_id args => u_ok 15 dst && u_ok 32 func_id && u_ok 15 (start args)
  | Instruction.TailCall func_id args => u_ok 32 func_id && u_ok 15 (start args)
  | Instruction.CallM dst receiver method_id args =>
      u_ok 15 dst && u_ok 15 receiver && u_ok 32 method_id && u_ok 15 (start args)
  | Instruction.CallClosure dst closure args =>
      u_ok 15 dst && u_ok 15 closure && u_ok 15 (start args)
  | Instruction.New dst type_id field_count =>
      u_ok 15 dst && u_ok 32 type_id && u_ok 32 field_count
  | Instruction.NewG dst type_id type_args =>
      u_ok 15 dst && u_ok 32 type_id && regs_ok type_args
  | Instruction.GetF dst obj field_idx => u_ok 15 dst && u_ok 15 obj && u_ok 32 field_idx
  | Instruction.SetF obj field_idx value => u_ok 15 obj && u_ok 32 field_idx && u_ok 15 value
  | Instruction.GetE dst arr idx => u_ok 15 dst && u_ok 15 arr && u_ok 15 idx
  | Instruction.SetE arr idx value => u_ok 15 arr && u_ok 15 idx && u_ok 15 value
  | Instruction.Len dst arr _ => u_ok 15 dst && u_ok 15 arr
  | Instruction.NewList dst capacity_hint => u_ok 15 dst && u_ok 16 capacity_hint
  | Instruction.ListPush list val => u_ok 15 list && u_ok 15 val
  | Instruction.ListPop dst list => u_ok 15 dst && u_ok 15 list
  | Instruction.NewMap dst capacity_hint => u_ok 15 dst && u_ok 16 capacity_hint
  | Instruction.MapGet dst map key => u_ok 15 dst && u_ok 15 map && u_ok 15 key
  | Instruction.MapSet map key val => u_ok 15 map && u_ok 15 key && u_ok 15 val
  | Instruction.MapContains dst map key => u_ok 15 dst && u_ok 15 map && u_ok 15 key
  | Instruction.IterNew dst iterable => u_ok 15 dst && u_ok 15 iterable
  | Instruction.IterNext dst has_next iter => u_ok 15 dst && u_ok 15 has_next && u_ok 15 iter
  | Instruction.Clone dst src => u_ok 15 dst && u_ok 15 src
  | Instruction.Ref dst src => u_ok 15 dst && u_ok 15 src
  | Instruction.RefMut dst src => u_ok 15 dst && u_ok 15 src
  | Instruction.RefLocal dst src => u_ok 15 dst && u_ok 15 src
  | Instruction.RefObj dst src => u_ok 15 dst && u_ok 15 src
  | Instruction.Deref dst ref_reg => u_ok 15 dst && u_ok 15 ref_reg
  | Instruction.DerefMut ref_reg value => u_ok 15 ref_reg && u_ok 15 value
  | Instruction.ChkRef ref_reg => u_ok 15 ref_reg
  | Instruction.RefChecked dst src => u_ok 15 dst && u_ok 15 src
  | Instruction.RefUnsafe dst src => u_ok 15 dst && u_ok 15 src
  | Instruction.DropRef src => u_ok 15 src
  | Instruction.DropTyped src type_ref => u_ok 15 src && type_ok type_ref
  | Instruction.CallG dst func_id type_args args =>
      u_ok 15 dst && u_ok 32 func_id && types_ok type_args && u_ok 15 (start args)
  | Instruction.CallV dst receiver vtable_slot args =>
      u_ok 15 dst && u_ok 15 receiver && u_ok 32 vtable_slot && u_ok 15 (start args)
  | Instruction.CallC dst cache_id args =>
      u_ok 15 dst && u_ok 32 cache_id && u_ok 15 (start args)
  | Instruction.IsVar dst value tag => u_ok 15 dst && u_ok 15 value && u_ok 32 tag
  | Instruction.IsType dst value type_id => u_ok 15 dst && u_ok 15 value && u_ok 32 type_id
  | Instruction.AsVar dst value tag => u_ok 15 dst && u_ok 15 value && u_ok 32 tag
  | Instruction.Unpack dst_start tuple _ => u_ok 15 dst_start && u_ok 15 tuple
  | Instruction.Pack dst src_start _ => u_ok 15 dst && u_ok 15 src_start
  | Instruction.Switch value default_offset cases =>
      u_ok 15 value && i_ok 32 default_offset && cases_ok cases
  | Instruction.GenCreate dst func_id args =>
      u_ok 15 dst && u_ok 32 func_id && u_ok 15 (start args)
  | Instruction.GenNext dst generator => u_ok 15 dst && u_ok 15 generator
  | Instruction.GenHasNext dst generator => u_ok 15 dst && u_ok 15 generator
  | Instruction.Spawn dst func_id args => u_ok 15 dst && u_ok 32 func_id && u_ok 15 (start args)
  | Instruction.Await dst task => u_ok 15 dst && u_ok 15 task
  | Instruction.Yield value => u_ok 15 value
  | Instruction.AsyncYield => true
  | Instruction.Select dst futures handlers =>
      u_ok 15 dst && regs_ok futures && offsets_ok handlers
  | Instruction.NurseryInit dst => u_ok 15 dst
  | Instruction.NurserySetTimeout nursery timeout => u_ok 15 nursery && u_ok 15 timeout
  | Instruction.NurserySetMaxTasks nursery max_tasks => u_ok 15 nursery && u_ok 15 max_tasks
  | Instruction.NurserySetErrorBehavior nursery behavior => u_ok 15 nursery && u_ok 15 behavior
  | Instruction.NurseryEnter nursery => u_ok 15 nursery
  | Instruction.NurseryExit nursery => u_ok 15 nursery
  | Instruction.NurserySpawn dst nursery task => u_ok 15 dst && u_ok 15 nursery && u_ok 15 task
  | Instruction.NurseryAwaitAll nursery success => u_ok 15 nursery && u_ok 15 success
  | Instruction.NurseryGetError nursery dst => u_ok 15 nursery && u_ok 15 dst
  | Instruction.NurseryCancel nursery => u_ok 15 nursery
  | Instruction.GradBegin scope_id _ wrt => u_ok 32 scope_id && regs_ok wrt
  | Instruction.GradEnd scope_id out_reg grad_out grad_regs =>
      u_ok 32 scope_id && u_ok 15 out_reg && u_ok 15 grad_out && regs_ok grad_regs
  | Instruction.GradCheckpoint id tensors => u_ok 32 id && regs_ok tensors
  | Instruction.GradAccumulate dst src => u_ok 15 dst && u_ok 15 src
  | Instruction.GradStop dst src => u_ok 15 dst && u_ok 15 src
  | Instruction.CtxGet dst ctx_type => u_ok 15 dst && u_ok 32 ctx_type
  | Instruction.CtxProvide ctx_type value body_offset =>
      u_ok 32 ctx_type && u_ok 15 value && i_ok 32 body_offset
  | Instruction.CtxEnd => true
  | Instruction.Spec reg expected_type => u_ok 15 reg && u_ok 32 expected_type
  | Instruction.Guard reg expected_type deopt_offset =>
      u_ok 15 reg && u_ok 32 expected_type && i_ok 32 deopt_offset
  | Instruction.Assert cond message_id => u_ok 15 cond && u_ok 32 message_id
  | Instruction.Panic message_id => u_ok 32 message_id
  | Instruction.Unreachable => true
  | Instruction.DebugPrint value => u_ok 15 value
  | Instruction.NewSet dst capacity_hint => u_ok 15 dst && u_ok 16 capacity_hint
  | Instruction.NewDeque dst capacity_hint => u_ok 15 dst && u_ok 16 capacity_hint
  | Instruction.SetInsert set elem => u_ok 15 set && u_ok 15 elem
  | Instruction.SetContains dst set elem => u_ok 15 dst && u_ok 15 set && u_ok 15 elem
  | Instruction.SetRemove set elem => u_ok 15 set && u_ok 15 elem
  | Instruction.ToString dst src => u_ok 15 dst && u_ok 15 src
  | Instruction.Concat dst a b => u_ok 15 dst && u_ok 15 a && u_ok 15 b
  | Instruction.CharToStr dst src => u_ok 15 dst && u_ok 15 src
  | Instruction.NewRange dst start end_ _ => u_ok 15 dst && u_ok 15 start && u_ok 15 end_
  | Instruction.Push src => u_ok 15 src
  | Instruction.Pop dst => u_ok 15 dst
  | Instruction.CallR dst func _ => u_ok 15 dst && u_ok 15 func
  | Instruction.LoadNil dst => u_ok 15 dst
  | Instruction.Throw error => u_ok 15 error
  | Instruction.TryBegin handler_offset => i_ok 32 handler_offset
  | Instruction.TryEnd => true
  | Instruction.GetException dst => u_ok 15 dst
  | Instruction.FutureReady dst future => u_ok 15 dst && u_ok 15 future
  | Instruction.FutureGet dst future => u_ok 15 dst && u_ok 15 future
  | Instruction.AsyncNext dst iter => u_ok 15 dst && u_ok 15 iter
  | Instruction.PushContext name handler => u_ok 32 name && u_ok 15 handler
  | Instruction.PopContext name => u_ok 32 name
  | Instruction.Attenuate dst context capabilities =>
      u_ok 15 dst && u_ok 15 context && u_ok 32 capabilities
  | Instruction.MetaQuote dst bytes_const_id => u_ok 15 dst && u_ok 32 bytes_const_id
  | Instruction.MetaSplice src => u_ok 15 src
  | Instruction.MetaEval dst expr => u_ok 15 dst && u_ok 15 expr
  | Instruction.MetaReflect dst type_id => u_ok 15 dst && u_ok 32 type_id
  | Instruction.GetTag dst variant => u_ok 15 dst && u_ok 15 variant
  | Instruction.MakeVariant dst tag field_count =>
      u_ok 15 dst && u_ok 32 tag && u_ok 32 field_count
  | Instruction.BindMethodReceiver type_ref => type_ok type_ref
  | Instruction.SetCallWitness type_args => types_ok type_args
  | Instruction.MakeVariantTyped dst type_id tag field_count =>
      u_ok 15 dst && u_ok 32 type_id && u_ok 32 tag && u_ok 32 field_count
  | Instruction.GetFieldNamed dst obj name => u_ok 15 dst && u_ok 15 obj && u_ok 32 name
  | Instruction.SetFieldNamed obj name value => u_ok 15 obj && u_ok 32 name && u_ok 15 value
  | Instruction.SetVariantData variant field value =>
      u_ok 15 variant && u_ok 32 field && u_ok 15 value
  | Instruction.GetVariantData dst variant field =>
      u_ok 15 dst && u_ok 15 variant && u_ok 32 field
  | Instruction.GetVariantDataRef dst variant field =>
      u_ok 15 dst && u_ok 15 variant && u_ok 32 field
  | Instruction.MakePi dst param return_type_id =>
      u_ok 15 dst && u_ok 15 param && u_ok 32 return_type_id
  | Instruction.MakeSigma dst witness payload =>
      u_ok 15 dst && u_ok 15 witness && u_ok 15 payload
  | Instruction.MakeWitness dst value proof_hash =>
      u_ok 15 dst && u_ok 15 value && u_ok 32 proof_hash
  | Instruction.TensorFlashAttention dst q k v mask scale _ =>
      u_ok 15 dst && u_ok 15 q && u_ok 15 k && u_ok 15 v && optional_ok mask && u_ok 15
      scale
  | Instruction.TensorContiguousView dst src => u_ok 15 dst && u_ok 15 src
  | Instruction.RandomU64 dst => u_ok 15 dst
  | Instruction.RandomFloat dst low high => u_ok 15 dst && u_ok 15 low && u_ok 15 high
  | Instruction.GlobalAllocator dst => u_ok 15 dst
  | Instruction.MemNewId dst => u_ok 15 dst
  | Instruction.MemAllocTensor dst shape _ => u_ok 15 dst && u_ok 15 shape
  | Instruction.PermissionCheckWire dst scope_tag target_id =>
      u_ok 15 dst && u_ok 15 scope_tag && u_ok 15 target_id
  | Instruction.PermissionAssert _ target_id => u_ok 15 target_id
  | Instruction.PermissionStatsRead dst selector => u_ok 15 dst && u_ok 15 selector
  | Instruction.PermissionStatsClear dst => u_ok 15 dst
  | Instruction.GpuSync stream => u_ok 15 stream
  | Instruction.GpuMemcpy dst src _ => u_ok 15 dst && u_ok 15 src
  | Instruction.GpuAlloc dst size device => u_ok 15 dst && u_ok 15 size && u_ok 15 device
  | Instruction.TensorFft dst src dim _ => u_ok 15 dst && u_ok 15 src && i_ok 8 dim
  | Instruction.TensorScatter dst src index values axis _ =>
      u_ok 15 dst && u_ok 15 src && u_ok 15 index && u_ok 15 values && i_ok 8 axis
  | Instruction.TensorPool _ dst src kernel_size stride padding =>
      u_ok 15 dst && u_ok 15 src && len_ok kernel_size && len_ok stride && len_ok
      padding
  | Instruction.TensorLstsq x residuals rank s a b rcond =>
      u_ok 15 x && u_ok 15 residuals && u_ok 15 rank && u_ok 15 s && u_ok 15 a && u_ok
      15 b && u_ok 64 rcond
  | Instruction.SyscallLinux dst num a1 a2 a3 a4 a5 a6 =>
      u_ok 15 dst && u_ok 15 num && u_ok 15 a1 && u_ok 15 a2 && u_ok 15 a3 && u_ok 15 a4
      && u_ok 15 a5 && u_ok 15 a6
  | Instruction.Mmap dst addr len prot flags fd offset =>
      u_ok 15 dst && u_ok 15 addr && u_ok 15 len && u_ok 15 prot && u_ok 15 flags &&
      u_ok 15 fd && u_ok 15 offset
  | Instruction.Munmap dst addr len => u_ok 15 dst && u_ok 15 addr && u_ok 15 len
  | Instruction.AtomicLoad dst ptr _ _ => u_ok 15 dst && u_ok 15 ptr
  | Instruction.AtomicStore ptr val _ _ => u_ok 15 ptr && u_ok 15 val
  | Instruction.AtomicCas dst ptr expected desired _ _ =>
      u_ok 15 dst && u_ok 15 ptr && u_ok 15 expected && u_ok 15 desired
  | Instruction.AtomicFence _ => true
  | Instruction.IoSubmit dst engine ops => u_ok 15 dst && u_ok 15 engine && u_ok 15 ops
  | Instruction.IoPoll dst engine timeout => u_ok 15 dst && u_ok 15 engine && u_ok 15 timeout
  | Instruction.TlsGet dst slot => u_ok 15 dst && u_ok 15 slot
  | Instruction.TlsSet slot val => u_ok 15 slot && u_ok 15 val
  | Instruction.ArithExtended _ operands => len_ok operands
  | Instruction.MathExtended _ operands => len_ok operands
  | Instruction.SimdExtended _ operands => len_ok operands
  | Instruction.CharExtended _ operands => len_ok operands
  | Instruction.CbgrExtended _ operands => len_ok operands
  | Instruction.TextExtended _ operands => len_ok operands
  | Instruction.GpuExtended _ operands => len_ok operands
  | Instruction.FfiExtended _ operands => len_ok operands
  | Instruction.TimeExtended _ operands => len_ok operands
  | Instruction.SysExtended _ operands => len_ok operands
  | Instruction.MachExtended _ operands => len_ok operands
  | Instruction.SyncExtended _ operands => len_ok operands
  | Instruction.MemExtended _ operands => len_ok operands
  | Instruction.LogExtended _ operands => len_ok operands
  | Instruction.UnaryF op dst src => unary_float_ok op && u_ok 15 dst && u_ok 15 src
  | Instruction.NewClosure dst func_id captures capture_types lexical_types =>
      u_ok 15 dst && u_ok 32 func_id && regs_ok captures
      && closure_types_ok capture_types lexical_types
  | Instruction.TensorExtended sub_op operands => tensor_extended_ok sub_op operands
  | Instruction.Extended sub_op operands => extended_ok sub_op operands
  | Instruction.CubicalExtended _ dst args =>
      u_ok 15 dst && (Z.of_nat (length args) <=? 0xFF) && regs_ok args
  | Instruction.Raw opcode data => raw_ok opcode data
  | _ => false
  end.
