(* ===== verification/InstructionFacts.v ===== *)
(** * The instruction codec: facts

    Decoding inverts encoding on the instructions of [instruction_ok], alone and
    in sequences; what becomes of the others that the code generator can emit. *)

From stdpp Require Import gmap.
From S2P Require Import Prelude Words Encoding EncodingFacts Codec TypeRefs TypeRefFacts.
From S2P Require Import Opcodes InstructionOk Instruction InstructionEncode InstructionDecode.


(** ** Fields at the end of an arm *)
Lemma wrap_ok w v : u_ok w v = true → wrap w v = v.
Proof. intros H. by apply wrap_id, u_ok_true. Qed.

Lemma signed_ok w v : 0 < w → i_ok w v = true → to_signed w v = v.
Proof. intros Hw H. by apply to_signed_id, i_ok_true. Qed.

Lemma byte_signed v : i_ok 8 v = true → to_signed 8 (wrap 8 v) = v.
Proof. intros H. by apply to_signed_wrap, i_ok_true. Qed.

Lemma i_ok_mono w w' v : 1 ≤ w ≤ w' → i_ok w v = true → i_ok w' v = true.
Proof.
  intros Hw H%i_ok_true. unfold i_ok, is_i in *.
  assert (2 ^ (w - 1) ≤ 2 ^ (w' - 1)) by (apply Z.pow_le_mono_r; lia).
  rewrite andb_true_iff, Z.leb_le, Z.ltb_lt. lia.
Qed.

Lemma flag_b2z b : flag (Z.b2z b) = b.
Proof. by destruct b. Qed.

Lemma flag_if (b : bool) : flag (if b then 1 else 0) = b.
Proof. by destruct b. Qed.

Lemma grad_mode_from_to m : grad_mode (GradMode.to_byte m) = m.
Proof. by destruct m. Qed.

Lemma default_float_to_int m :
  default FloatToIntMode.Trunc (FloatToIntMode.from_byte (FloatToIntMode.to_byte m)) = m.
Proof. by rewrite FloatToIntMode_from_to. Qed.

Lemma default_unary_float op :
  unary_float_ok op = true →
  default UnaryFloatOp.Neg (UnaryFloatOp.try_from (UnaryFloatOp.to_byte op)) = op.
Proof. by destruct op. Qed.

#[local] Create HintDb codec_field.
#[local] Hint Resolve wrap_ok byte_signed flag_b2z flag_if grad_mode_from_to default_float_to_int
  default_unary_float CompareOp_from_to TensorDType_from_to TensorCumulativeOp_from_to
  TensorPoolOp_from_to : codec_field.
#[local] Hint Extern 1 (to_signed _ _ = _) => apply signed_ok; [lia|assumption] : codec_field.
#[local] Hint Extern 5 (_ = _) => reflexivity : codec_field.

Lemma andb_split a b : a && b = true → a = true ∧ b = true.
Proof. apply andb_true_iff. Qed.

(** The conjuncts of [instruction_ok] as hypotheses. *)
Ltac split_ok :=
  repeat match goal with
  | H : _ && _ = true |- _ => apply andb_split in H as [? ?]
  | H : regs_ok _ = true |- _ => unfold regs_ok in H
  | H : types_ok _ = true |- _ => unfold types_ok in H
  | H : cases_ok _ = true |- _ => unfold cases_ok in H
  | H : offsets_ok _ = true |- _ => unfold offsets_ok in H
  end.

Lemma forallb_elem {A} (P : A → bool) l x : forallb P l = true → x ∈ l → P x = true.
Proof. rewrite forallb_forall. intros H Hx. by apply H, list_elem_of_In. Qed.

(** One field. *)
Ltac codec_field :=
  lazymatch goal with
  | |- codec _ _ (push _) (decode_type_hint _) _ => apply codec_type_hint
  | |- codec _ _ (push _) _ _ => apply codec_byte
  | |- codec _ _ (push_ext _) _ _ => apply codec_byte
  | |- codec _ _ (push_tensor _) _ _ => apply codec_byte
  | |- codec _ _ (encode_reg _) _ _ => apply codec_reg; eassumption
  | |- codec _ _ (put_len _) _ _ => apply codec_len; eassumption
  | |- codec _ _ (put_varint ?v) _ _ =>
      first [ apply (codec_varint _ 32); [done|done|first [eassumption|reflexivity]]
            | apply (codec_varint _ 16); [done|done|eassumption] ]
  | |- codec _ _ (put_signed_varint _) _ _ =>
      apply codec_signed; first [eassumption | eapply (i_ok_mono 32); [done|eassumption]]
  | |- codec _ _ (encode_type_ref _) _ _ => eapply codec_type; [eassumption|eassumption]
  | |- codec _ _ (encode_f64 _) _ _ => apply codec_f64; eassumption
  | |- codec _ _ (extend (to_le_bytes 4 _)) _ _ => apply codec_f32; eassumption
  | |- codec _ _ (extend (to_le_bytes 8 _)) _ _ => apply codec_f64; eassumption
  | |- codec _ _ (encode_reg_vec _) _ _ => apply codec_regs; eassumption
  | |- codec _ _ (encode_optional_reg _) _ _ => apply codec_optional; eassumption
  | |- codec _ _ (encode_reg_range _) _ _ => apply codec_range; eassumption
  end.

(** The body of a loop: one field, or the fields of a pair. *)
Ltac codec_element :=
  first [codec_field | eapply codec_map; [codec_field|auto with codec_field]].

(** The statements of an arm against those of the decoding arm. *)
Ltac codec_arm :=
  cbv beta zeta;
  lazymatch goal with
  | |- codec _ _ done_writing _ _ =>
      apply codec_done; repeat f_equal; auto with codec_field
  | |- codec _ _ _ ((_ <$> _) ≫= _) _ => apply codec_fmap; codec_arm
  | |- codec _ _ _ ((_ ≫= _) ≫= _) _ => apply codec_bind_assoc; codec_arm
  | |- codec _ _ _ (mret _ ≫= _) _ => apply codec_ret_bind; codec_arm
  | |- codec _ _ _ (ok_or _ _ ≫= _) _ =>
      eapply codec_ok_or;
        [first [apply LayoutProperty_from_to|apply CmpSubOpcode_from_to]|codec_arm]
  | |- codec _ _ (put_len _ |> extend _ |> _) (decode_bytes _ ≫= _) _ =>
      apply codec_bytes; [eassumption|codec_arm]
  | |- codec _ _ (extend _ |> _) (times _ (decode_u8 _) _ ≫= _) _ =>
      apply codec_extend_bytes; [reflexivity|codec_arm]
  | |- codec _ _ (for_each _ _ |> _) (times _ _ _ ≫= _) _ =>
      apply codec_times;
        [ reflexivity
        | let x := fresh "x" in let Hx := fresh "Hx" in intros x Hx;
          repeat match goal with
          | H : forallb _ _ = true |- _ => apply forallb_elem with (x := x) in H; [|exact Hx]
          end; split_ok; codec_element
        | codec_arm ]
  | |- codec _ _ (_ |> _) (_ ≫= _) _ => eapply codec_next; [codec_field|codec_arm]
  end.

(** ** Unfolding *)
Ltac unfold_encoder :=
  lazy [encode_arm encode_sections first_some
  binary_int_op_to_opcode binary_float_op_to_opcode binary_generic_op_to_opcode
  unary_int_op_to_opcode bitwise_op_to_opcode cmp_int_op_to_opcode cmp_float_op_to_opcode
  jmp_cmp_op_to_opcode
  encode_data_movement encode_type_conversions encode_arithmetic encode_comparison
  encode_control_flow encode_memory encode_cbgr encode_generic encode_pattern_matching
  encode_generators encode_async encode_autodiff encode_context encode_debug_verify
  encode_tensor_operations encode_gpu_fast_path encode_gpu_streams encode_gpu_events
  encode_gpu_devices encode_gpu_memory encode_gpu_unified_memory encode_gpu_graphs
  encode_gpu_profiling encode_gpu_kernels encode_tensor_elements encode_tensor_algebra
  encode_tensor_layers encode_tensor_decompositions encode_collections encode_closures
  encode_context_end encode_sets_strings_stack encode_exceptions_futures encode_variants
  encode_nursery encode_system encode_extended encode_meta_hints_raw].

Ltac unfold_decoder :=
  lazy [decode_opcode decode_sections first_some
  decode_data_movement decode_type_conversions decode_arithmetic decode_bitwise_comparison
  decode_control_flow decode_memory decode_cbgr decode_generic decode_pattern_matching
  decode_generators_async decode_autodiff_context decode_debug_verify decode_gpu_meta_mem
  decode_extended_families decode_iterators_atomics decode_variants_strings
  decode_exceptions_context decode_sets decode_system decode_nursery_cubical
  decode_extended_gateways
  decode_binary_i decode_binary_f decode_binary_g decode_unary_i decode_bitwise decode_cmp_i
  decode_cmp_f decode_jmp_cmp].

Section opcodes.
Context (data : bytes) (with_capacity : Z → bool).

(** ** The opcode byte *)
Lemma codec_op op rest i :
  codec data 0 rest (decode_opcode data with_capacity op) i →
  codec data 1 (push_op op |> rest) (decode_instruction data with_capacity) i.
Proof.
  intros H. unfold decode_instruction. eapply codec_step; [apply codec_byte|].
  apply codec_if_else; [apply Opcode_live|]. by rewrite Opcode_from_to.
Qed.

Lemma codec_ext_op kind rest i :
  codec data 0 rest (decode_extended_kind data with_capacity (ExtendedSubOpcode.to_byte kind) kind) i →
  codec data 1 (push_op Opcode.Extended |> push_ext kind |> rest) (decode_instruction data with_capacity) i.
Proof.
  intros H. apply codec_op. change (decode_opcode data with_capacity Opcode.Extended)
    with (decode_extended data with_capacity). unfold decode_extended.
  eapply codec_weaken, codec_step; [apply codec_byte|]. by rewrite ExtendedSubOpcode_from_to.
Qed.

Lemma codec_tensor_op sub_op rest d i :
  tensor_carrier (TensorSubOpcode.to_byte sub_op) = false →
  first_some sub_op (tensor_sections data) = Some d → codec data 0 rest d i →
  codec data 1 (push_op Opcode.TensorExtended |> push_tensor sub_op |> rest)
    (decode_instruction data with_capacity) i.
Proof.
  intros Hc Hd H. apply codec_op. change (decode_opcode data with_capacity Opcode.TensorExtended)
    with (decode_tensor_extended data). unfold decode_tensor_extended.
  eapply codec_weaken, codec_step; [apply codec_byte|]. rewrite Hc, TensorSubOpcode_from_to, Hd. done.
Qed.

Lemma codec_tensor_ext_op sub_op rest i :
  TensorSubOpcode.from_byte (TensorExtSubOpcode.to_byte sub_op) = None →
  codec data 0 rest (decode_tensor_ext data (TensorExtSubOpcode.to_byte sub_op) sub_op) i →
  codec data 1 (push_op Opcode.TensorExtended |> push_tensor_ext sub_op |> rest)
    (decode_instruction data with_capacity) i.
Proof.
  intros Hn H. apply codec_op. change (decode_opcode data with_capacity Opcode.TensorExtended)
    with (decode_tensor_extended data). unfold decode_tensor_extended.
  eapply codec_weaken, codec_step; [apply codec_byte|]. apply codec_if_else.
  - by destruct sub_op; vm_compute.
  - by rewrite Hn, TensorExtSubOpcode_from_to.
Qed.
End opcodes.

(** One arm, from its opcode on. *)
Ltac arm :=
  unfold_encoder; flatten_writer;
  lazymatch goal with
  | |- codec _ _ (push_op Opcode.Extended |> push_ext _ |> _) _ _ =>
      apply codec_ext_op; cbn [decode_extended_kind]
  | |- codec _ _ (push_op Opcode.TensorExtended |> push_tensor _ |> _) _ _ =>
      eapply codec_tensor_op; [by vm_compute|reflexivity|]
  | |- codec _ _ (push_op Opcode.TensorExtended |> push_tensor_ext _ |> _) _ _ =>
      apply codec_tensor_ext_op; [reflexivity|]; cbn [decode_tensor_ext]
  | |- codec _ _ (push_op ?op |> _) _ _ => apply codec_op; unfold_decoder
  end.

(** The operations whose opcode depends on a field. *)
Ltac split_op :=
  match goal with
  | op : ?T |- _ =>
      lazymatch T with
      | BinaryIntOp.t => idtac | BinaryFloatOp.t => idtac | BinaryGenericOp.t => idtac
      | UnaryIntOp.t => idtac | BitwiseOp.t => idtac | CompareOp.t => idtac | bool => idtac
      end; destruct op
  end.

Section arms.
Context (data : bytes) (with_capacity : Z → bool).
Context (Hcap : ∀ n, (n ≤ length data)%nat → with_capacity (Z.of_nat n) = true).

Lemma codec_case case :
  u_ok 32 case.1 && i_ok 32 case.2 = true →
  codec data 1 (put_varint case.1 |> put_signed_varint case.2) (decode_case data) case.
Proof.
  intros [Hv Ho]%andb_split. destruct case as [v o]. cbn [fst snd] in *. flatten_writer.
  unfold decode_case. apply codec_fmap. eapply codec_step; [codec_field|]. codec_arm.
Qed.

Lemma codec_switch value default_offset cases :
  instruction_ok (Instruction.Switch value default_offset cases) = true →
  codec data 1 (encode_arm (Instruction.Switch value default_offset cases))
    (decode_instruction data with_capacity) (Instruction.Switch value default_offset cases).
Proof.
  cbn [instruction_ok]. intros. split_ok. arm.
  do 3 (first [apply codec_fmap|idtac]; eapply codec_next; [codec_field|]).
  apply codec_times; [done| |codec_arm]. intros case Hc. apply codec_case.
  by apply (forallb_elem (λ case, u_ok 32 case.1 && i_ok 32 case.2) cases).
Qed.

Lemma codec_call_closure dst closure args :
  instruction_ok (Instruction.CallClosure dst closure args) = true →
  codec data 1 (encode_arm (Instruction.CallClosure dst closure args))
    (decode_instruction data with_capacity) (Instruction.CallClosure dst closure args).
Proof.
  cbn [instruction_ok]. intros. split_ok. arm.
  change (encode_reg (start args) |> push (count args) |> done_writing)
    with (encode_reg_range args |> done_writing). codec_arm.
Qed.

Lemma codec_cubical sub_op dst args :
  instruction_ok (Instruction.CubicalExtended sub_op dst args) = true →
  codec data 1 (encode_arm (Instruction.CubicalExtended sub_op dst args))
    (decode_instruction data with_capacity) (Instruction.CubicalExtended sub_op dst args).
Proof.
  cbn [instruction_ok]. intros. split_ok. arm.
  do 3 (eapply codec_next; [codec_field|]). apply codec_times; [| |codec_arm].
  - apply wrap_id. unfold is_u. lia.
  - intros x Hx. by apply codec_reg, (forallb_elem _ args).
Qed.

(** Operands carried verbatim. *)
Lemma codec_registers n operands rest (k : bytes → decoder Instruction.t) b :
  registers n operands = true → codec data 0 rest (k operands) b →
  codec data 0 (extend operands |> rest) (decode_extended_reg_operands data n ≫= k) b.
Proof.
  revert operands k. induction n as [|n IH]; intros [|first operands] k Hr H; try discriminate Hr.
  - apply codec_ret_bind. revert H. apply codec_writer. intros output. unfold then_write, extend.
    by rewrite app_nil_r.
  - cbn [decode_extended_reg_operands registers] in *.
    apply (codec_writer data 0 (push first |> extend operands |> rest)).
    { intros output. unfold then_write, extend, push. by rewrite <- (assoc_L app). }
    apply codec_bind_assoc. eapply codec_next; [apply codec_byte|]. cbv beta.
    destruct (negb (Z.land first 0x80 =? 0)).
    + destruct operands as [|second operands]; [discriminate Hr|].
      apply (codec_writer data 0 (push second |> extend operands |> rest)).
      { intros output. unfold then_write, extend, push. by rewrite <- (assoc_L app). }
      apply codec_bind_assoc. eapply codec_next; [apply codec_byte|]. cbv beta.
      apply codec_bind_assoc. apply IH; [done|]. by apply codec_ret_bind.
    + apply codec_bind_assoc. apply IH; [done|]. by apply codec_ret_bind.
Qed.

Lemma codec_extended sub_op operands :
  instruction_ok (Instruction.Extended sub_op operands) = true →
  codec data 1 (encode_arm (Instruction.Extended sub_op operands))
    (decode_instruction data with_capacity) (Instruction.Extended sub_op operands).
Proof.
  cbn [instruction_ok]. unfold extended_ok. intros H. unfold_encoder. flatten_writer.
  apply codec_op. change (decode_opcode data with_capacity Opcode.Extended)
    with (decode_extended data with_capacity). unfold decode_extended.
  eapply codec_next; [apply codec_byte|]. cbv beta.
  destruct (ExtendedSubOpcode.from_byte sub_op) as [kind|]; [|discriminate H].
  cbn [mbind option_bind] in H. destruct (opaque_operands kind) as [n|] eqn:E; [|discriminate H].
  assert (Hd : decode_extended_kind data with_capacity sub_op kind =
    (operands ← decode_extended_reg_operands data n; mret (Instruction.Extended sub_op operands))).
  { by destruct kind; try discriminate E; injection E as <-. }
  rewrite Hd. apply codec_registers; [done|]. by apply codec_done.
Qed.

Lemma codec_ml bytes :
  ml_ok bytes = true →
  codec data 1 (encode_arm (Instruction.Raw Opcode.MlExtended bytes))
    (decode_instruction data with_capacity) (Instruction.Raw Opcode.MlExtended bytes).
Proof.
  unfold ml_ok. destruct bytes as [|sub_op bytes]; [done|].
  destruct (decode_bytes (sub_op :: bytes) 1%nat) as [[operands| |] ?]; [|done..].
  intros [Hl E%bool_decide_eq_true_1]%andb_split. rewrite E. unfold_encoder.
  apply (codec_writer data 1 (push_op Opcode.MlExtended |> push sub_op |> put_len operands
    |> extend operands |> done_writing)).
  { intros output. unfold then_write, extend, push. rewrite !put_len_writes. by rewrite <- !(assoc_L app). }
  apply codec_op. unfold_decoder. codec_arm.
Qed.

Lemma codec_raw opcode bytes :
  instruction_ok (Instruction.Raw opcode bytes) = true →
  codec data 1 (encode_arm (Instruction.Raw opcode bytes))
    (decode_instruction data with_capacity) (Instruction.Raw opcode bytes).
Proof.
  cbn [instruction_ok]. intros H. destruct (decide (opcode = Opcode.MlExtended)) as [->|Hm];
    [by apply codec_ml|].
  assert (raw_opcode opcode && is_empty bytes = true) as [Hr Hd]%andb_split by by destruct opcode.
  clear H. destruct bytes; [|discriminate Hd].
  unfold_encoder. apply (codec_writer data 1 (push_op opcode |> done_writing)).
  { intros output. unfold then_write, extend. by rewrite app_nil_r. }
  apply codec_op. replace (decode_opcode data with_capacity opcode)
    with (mret (M:=decoder) (Instruction.Raw opcode [])); [by apply codec_done|].
  by destruct opcode; try discriminate Hr.
Qed.

(** ** The tensor carrier *)
Lemma permission_data byte operands : is_permission byte = false → decode_permission_instruction byte operands = None.
Proof.
  unfold is_permission, decode_permission_instruction.
  by destruct (TensorExtSubOpcode.from_byte byte) as [[]|].
Qed.

Lemma codec_carrier sub_op operands rest i :
  tensor_carrier sub_op = true → len_ok operands = true →
  (∀ offset, (if sub_op =? 0xFF then
      match head operands with
      | Some extended =>
          match decode_permission_instruction extended operands with
          | Some decode_operands =>
              let '(result, operand_offset) := decode_operands 1%nat in
              decoded ← returned result;
              if (operand_offset =? length operands)%nat then mret decoded
              else
                offset ← here;
                fail (InvalidInstructionEncoding (Z.of_nat offset)
                  "permission instruction has trailing operands")
          | None => mret (Instruction.TensorExtended sub_op operands)
          end
      | None => mret (Instruction.TensorExtended sub_op operands)
      end
    else mret (Instruction.TensorExtended sub_op operands)) offset = (Ok i, offset)) →
  rest = done_writing →
  codec data 1 (push_op Opcode.TensorExtended |> push sub_op |> put_len operands |> extend operands |> rest)
    (decode_instruction data with_capacity) i.
Proof.
  intros Hc Hl H ->. apply codec_op. change (decode_opcode data with_capacity Opcode.TensorExtended)
    with (decode_tensor_extended data). unfold decode_tensor_extended.
  eapply codec_next; [apply codec_byte|]. cbv beta. rewrite Hc. apply codec_bytes; [done|].
  eapply codec_ext; [|by apply (codec_done data i)]. intros offset. symmetry. apply H.
Qed.

Lemma codec_tensor_extended sub_op operands :
  instruction_ok (Instruction.TensorExtended sub_op operands) = true →
  codec data 1 (encode_arm (Instruction.TensorExtended sub_op operands))
    (decode_instruction data with_capacity) (Instruction.TensorExtended sub_op operands).
Proof.
  cbn [instruction_ok]. unfold tensor_extended_ok. intros [[Hc Hl]%andb_split Hp]%andb_split.
  unfold_encoder. flatten_writer. apply codec_carrier; [done|done| |done]. intros offset.
  destruct (sub_op =? 0xFF); [|done]. destruct operands as [|b operands]; [done|]. cbn [head].
  rewrite permission_data; [done|]. by destruct (is_permission b).
Qed.

Lemma writes_length e out : writes e out → out = e [].
Proof. intros H. by rewrite (H []). Qed.

Lemma codec_permission sub_op fields d i size :
  (∀ operands, decode_permission_instruction (TensorExtSubOpcode.to_byte sub_op) operands = Some (d operands)) →
  (∀ operands, codec operands 0 fields (d operands) i) →
  length (fields []) = size → (size ≤ 6)%nat →
  codec data 1 (encode_escaped_tensor_header sub_op size |> fields)
    (decode_instruction data with_capacity) i.
Proof.
  intros Hd Hf Hs Hz. set (operands := TensorExtSubOpcode.to_byte sub_op :: fields []).
  assert (Hw : ∀ output, fields output = output ++ fields []).
  { destruct (Hf []) as (out & W & _). intros output. by rewrite W, (writes_length _ _ W). }
  apply (codec_writer data 1 (push_op Opcode.TensorExtended |> push 0xFF |> put_len operands
    |> extend operands |> done_writing)).
  { intros output. unfold encode_escaped_tensor_header, then_write, extend, put_len, push_tensor_ext, push.
    rewrite (Hw (_ ++ _)). subst operands. cbn [length]. rewrite Hs, <- (assoc_L app). done. }
  apply codec_carrier; [by vm_compute| | |done].
  - unfold len_ok. subst operands. cbn [length]. rewrite Hs. apply Z.ltb_lt. lia.
  - intros offset. cbn [head operands]. change (0xFF =? 0xFF) with true. cbv iota.
    rewrite Hd. destruct (Hf operands) as (out & W & R & _). apply writes_length in W as ->.
    pose proof (R [TensorExtSubOpcode.to_byte sub_op] [] ltac:(by rewrite app_nil_r)) as E.
    cbn [length] in E. rewrite E. subst operands. cbn [length Nat.add]. by rewrite Nat.eqb_refl.
Qed.

Lemma reg_size_small r : (reg_size r ≤ 2)%nat.
Proof. unfold reg_size. case_match; lia. Qed.

Ltac permission :=
  cbn [instruction_ok]; intros; split_ok; unfold_encoder;
  eapply codec_permission;
    [ intros; reflexivity
    | intros; flatten_writer; codec_arm
    | unfold then_write, push; rewrite ?encode_reg_writes, ?length_app, ?reg_bytes_length; cbn [length app]; lia
    | repeat (match goal with |- context [reg_size ?r] =>
        pose proof (reg_size_small r); generalize dependent (reg_size r); intros end); lia ].

Lemma codec_permissions i :
  instruction_ok i = true →
  match i with
  | Instruction.PermissionCheckWire _ _ _ | Instruction.PermissionAssert _ _
  | Instruction.PermissionStatsRead _ _ | Instruction.PermissionStatsClear _ => true
  | _ => false
  end = true →
  codec data 1 (encode_arm i) (decode_instruction data with_capacity) i.
Proof. intros H. destruct i; try discriminate; intros _; revert H; permission. Qed.

(** ** Closures *)
Lemma codec_presence {B} (b : bool) m rest (k : bool → decoder B) x :
  codec data 0 rest (k b) x → codec data 0 (push (Z.b2z b) |> rest) (decode_presence data m ≫= k) x.
Proof.
  intros H. unfold decode_presence. apply codec_bind_assoc. eapply codec_next; [apply codec_byte|].
  by destruct b.
Qed.

Lemma codec_capture_type o :
  capture_ok o = true →
  codec data 1 (push (Z.b2z (is_some o)) |> if_some o encode_type_ref)
    (decode_capture_type data with_capacity) o.
Proof.
  intros H. unfold decode_capture_type, decode_presence.
  apply codec_bind_assoc. eapply codec_step; [apply codec_byte|]. cbv beta.
  destruct o as [t|]; cbn [is_some Z.b2z if_some].
  - apply codec_ret_bind. flatten_writer. codec_arm.
  - apply codec_ret_bind. by apply codec_done.
Qed.

(** The capture types, their count included. *)
Lemma codec_capture_types l rest (k : Z → decoder Instruction.t) (k' : list (option TypeRef) → decoder Instruction.t) x :
  (Z.of_nat (length l) <=? 0xFFFF) = true →
  forallb capture_ok l = true →
  k (Z.of_nat (length l)) =
    (times data (decode_capture_type data with_capacity) (Z.of_nat (length l)) ≫= k') →
  codec data 0 rest (k' l) x →
  codec data 0 (encode_capture_types l |> rest) (decode_varint data ≫= k) x.
Proof.
  intros Hl Ht Hk H. change (encode_capture_types l |> rest) with (put_len l |>
    for_each l (λ ty, push (Z.b2z (is_some ty)) |> if_some ty encode_type_ref) |> rest).
  eapply codec_next; [apply codec_len, Z.ltb_lt; lia|]. rewrite Hk. apply codec_times; [done| |done].
  intros o Ho. apply codec_capture_type. exact (forallb_elem _ _ _ Ht Ho).
Qed.

Lemma codec_lexical_types l (k : list TypeRef → decoder Instruction.t) x :
  (Z.of_nat (length l) <=? 0xFFFF) = true → forallb type_ok l = true →
  codec data 0 done_writing (k l) x →
  codec data 0 (when (negb (is_empty l)) (put_len l |> for_each l encode_type_ref) |> done_writing)
    (decode_lexical_types data with_capacity (negb (is_empty l)) ≫= k) x.
Proof.
  intros Hl Ht H. destruct l as [|t l']; [exact H|]. set (l := t :: l') in *. cbn [negb is_empty l when].
  flatten_writer. unfold decode_lexical_types. apply codec_bind_assoc.
  eapply codec_next; [apply codec_len, Z.ltb_lt; lia|]. cbv beta.
  rewrite (proj2 (Z.ltb_ge _ _)) by lia. apply codec_times; [done| |done].
  intros y Hy. eapply codec_type; [eassumption|]. by eapply forallb_elem.
Qed.

(** The types of a closure, from its presence byte on. *)
Lemma codec_closure_types dst func_id captures capture_types lexical_types :
  closure_types_ok capture_types lexical_types = true →
  codec data 0
    (if_some capture_types encode_capture_types
     |> when (negb (is_empty lexical_types)) (put_len lexical_types |> for_each lexical_types encode_type_ref)
     |> done_writing)
    (count ← (if is_some capture_types then decode_varint data else mret 0);
     if 0xFFFF <? count
     then fail (Deserialization "excessive closure capture type count")
     else
       types ← times data (decode_capture_type data with_capacity) count;
       lexical_types ← decode_lexical_types data with_capacity (negb (is_empty lexical_types));
       mret (Instruction.NewClosure dst func_id captures
         (if is_some capture_types then Some types else None) lexical_types))
    (Instruction.NewClosure dst func_id captures capture_types lexical_types).
Proof.
  unfold closure_types_ok. intros H. split_ok. destruct capture_types as [l|]; cbn [is_some if_some].
  - split_ok. refine (codec_capture_types l _ _ (λ types,
      lexical_types ← decode_lexical_types data with_capacity (negb (is_empty lexical_types));
      mret (Instruction.NewClosure dst func_id captures (Some types) lexical_types)) _ _ _ _ _);
      [done|done| |].
    + cbv beta. by rewrite (proj2 (Z.ltb_ge _ _)) by lia.
    + apply codec_lexical_types; [done|done|]. by apply codec_done.
  - apply codec_ret_bind. apply (codec_ret_bind data 0 _ ([] : list (option TypeRef))).
    apply codec_lexical_types; [done|done|]. by apply codec_done.
Qed.

Lemma codec_closure_tail dst func_id captures capture_types lexical_types :
  let witnessed := negb (is_empty lexical_types) in
  witnessed || is_some capture_types = true →
  instruction_ok (Instruction.NewClosure dst func_id captures capture_types lexical_types) = true →
  codec data 0
    (encode_reg dst |> put_varint func_id |> encode_reg_vec captures
     |> when witnessed (push (Z.b2z (is_some capture_types)))
     |> if_some capture_types encode_capture_types
     |> when witnessed (put_len lexical_types |> for_each lexical_types encode_type_ref)
     |> done_writing)
    (decode_closure data with_capacity witnessed)
    (Instruction.NewClosure dst func_id captures capture_types lexical_types).
Proof.
  intros witnessed Hs H. cbn [instruction_ok] in H. split_ok. unfold decode_closure.
  do 3 (first [apply codec_fmap|idtac]; eapply codec_next; [codec_field|]; cbv beta).
  rewrite wrap_ok by done.
  pose proof (codec_closure_types dst func_id captures capture_types lexical_types ltac:(done)) as Ht.
  subst witnessed. destruct (negb (is_empty lexical_types)); cbn [when].
  - by apply codec_presence.
  - destruct capture_types; [|discriminate Hs]. by apply codec_ret_bind.
Qed.

Lemma codec_new_closure dst func_id captures capture_types lexical_types :
  instruction_ok (Instruction.NewClosure dst func_id captures capture_types lexical_types) = true →
  codec data 1 (encode_arm (Instruction.NewClosure dst func_id captures capture_types lexical_types))
    (decode_instruction data with_capacity)
    (Instruction.NewClosure dst func_id captures capture_types lexical_types).
Proof.
  intros Hok. pose proof (codec_closure_tail dst func_id captures capture_types lexical_types) as H.
  cbv zeta in H. unfold_encoder.
  destruct (negb (is_empty lexical_types)) eqn:E; [|destruct capture_types as [l|] eqn:Ec].
  - exact (codec_ext_op data with_capacity ExtendedSubOpcode.NewClosureWitnessed _ _ (H eq_refl Hok)).
  - exact (codec_ext_op data with_capacity ExtendedSubOpcode.NewClosureTyped _ _ (H eq_refl Hok)).
  - destruct lexical_types; [|discriminate E]. cbn [is_some when if_some].
    apply (codec_writer data 1 (push_op Opcode.NewClosure |> encode_reg dst |> put_varint func_id
      |> encode_reg_vec captures |> done_writing)); [done|].
    cbn [instruction_ok] in Hok. split_ok. apply codec_op. unfold_decoder. codec_arm.
Qed.

(** ** All instructions *)
Lemma arm_codec i :
  instruction_ok i = true → codec data 1 (encode_arm i) (decode_instruction data with_capacity) i.
Proof.
  intros Hok. destruct i; try discriminate Hok;
    lazymatch goal with
    | |- codec _ _ _ _ (Instruction.Switch _ _ _) => exact (codec_switch _ _ _ Hok)
    | |- codec _ _ _ _ (Instruction.CallClosure _ _ _) => exact (codec_call_closure _ _ _ Hok)
    | |- codec _ _ _ _ (Instruction.CubicalExtended _ _ _) => exact (codec_cubical _ _ _ Hok)
    | |- codec _ _ _ _ (Instruction.Extended _ _) => exact (codec_extended _ _ Hok)
    | |- codec _ _ _ _ (Instruction.Raw _ _) => exact (codec_raw _ _ Hok)
    | |- codec _ _ _ _ (Instruction.TensorExtended _ _) => exact (codec_tensor_extended _ _ Hok)
    | |- codec _ _ _ _ (Instruction.NewClosure _ _ _ _ _) => exact (codec_new_closure _ _ _ _ _ Hok)
    | |- codec _ _ _ _ (Instruction.PermissionCheckWire _ _ _) => exact (codec_permissions _ Hok eq_refl)
    | |- codec _ _ _ _ (Instruction.PermissionAssert _ _) => exact (codec_permissions _ Hok eq_refl)
    | |- codec _ _ _ _ (Instruction.PermissionStatsRead _ _) => exact (codec_permissions _ Hok eq_refl)
    | |- codec _ _ _ _ (Instruction.PermissionStatsClear _) => exact (codec_permissions _ Hok eq_refl)
    | |- _ =>
        cbn [instruction_ok] in Hok; split_ok;
        first [arm; solve [codec_arm] | split_op; arm; solve [codec_arm]]
    end.
Qed.
End arms.
