(* ===== verification/InstructionRoundtrip.v ===== *)
(** * Round trips of instructions

    The theorems about encoding followed by decoding: for one instruction, for a
    sequence, and for the operations that do not survive. *)

From stdpp Require Import gmap.
From S2P Require Import Prelude Words Encoding EncodingFacts Codec TypeRefs TypeRefFacts Opcodes.
From S2P Require Import Instruction InstructionEncode InstructionDecode InstructionOk.
From S2P Require Import InstructionFacts.

(** ** What encoding an instruction writes

    Every arm of [encode_instruction], of all the variants of [Instruction], only
    appends, and what it appends does not depend on the output so far and begins
    with the byte of an opcode. *)

Definition appends (e : writer) : Prop := writes e (e []).

Lemma appends_of e out : writes e out → appends e.
Proof. intros H. unfold appends. by rewrite <- (writes_length e out H). Qed.

Lemma appends_then e e' : appends e → appends e' → appends (e |> e').
Proof.
  intros H H'. apply (appends_of _ (e [] ++ e' [])). intros output. unfold then_write.
  by rewrite (H' (e output)), (H output), (assoc_L app).
Qed.

Lemma appends_extend l : appends (extend l).
Proof. by apply (appends_of _ l). Qed.

Lemma appends_nothing : appends (λ output, output).
Proof. apply (appends_of _ []). intros output. by rewrite app_nil_r. Qed.

Lemma appends_for_each {A} (l : list A) f : (∀ x, appends (f x)) → appends (for_each l f).
Proof.
  intros H. apply (appends_of _ (concat (map (λ x, f x []) l))). unfold for_each.
  induction l as [|x l IH]; intros output; cbn; [by rewrite app_nil_r|].
  by rewrite IH, (H x), (assoc_L app).
Qed.

Lemma appends_varint v : appends (put_varint v).
Proof. exact (appends_of _ _ (encode_varint_writes v)). Qed.

Lemma appends_len {A} (l : list A) : appends (put_len l).
Proof. exact (appends_of _ _ (put_len_writes l)). Qed.

Lemma appends_signed v : appends (put_signed_varint v).
Proof. exact (appends_of _ _ (encode_varint_writes (zigzag v))). Qed.

Lemma appends_reg r : appends (encode_reg r).
Proof. exact (appends_of _ _ (encode_reg_writes r)). Qed.

Lemma appends_type t : appends (encode_type_ref t).
Proof. exact (appends_of _ _ (encode_type_writes t)). Qed.

Lemma appends_reg_vec l : appends (encode_reg_vec l).
Proof. exact (appends_of _ _ (encode_reg_vec_writes l)). Qed.

Lemma appends_when b e : appends e → appends (when b e).
Proof. destruct b; [done|]. intros _. exact appends_nothing. Qed.

Lemma appends_if_some {A} (o : option A) f : (∀ x, appends (f x)) → appends (if_some o f).
Proof. destruct o; intros H; [exact (H _)|exact appends_nothing]. Qed.

Lemma appends_f64 v : appends (encode_f64 v).
Proof. by apply (appends_of _ (to_le_bytes 8 v)). Qed.

Lemma appends_optional o : appends (encode_optional_reg o).
Proof.
  destruct o as [r|]; [|by apply (appends_of _ [0])].
  exact (appends_then (push 1) (encode_reg r) (appends_extend [1]) (appends_reg r)).
Qed.

Ltac appends :=
  cbv beta zeta;
  lazymatch goal with
  | |- appends (_ |> _) => apply appends_then; appends
  | |- appends (push_op _) => apply appends_extend
  | |- appends (push_ext _) => apply appends_extend
  | |- appends (push_gpu _) => apply appends_extend
  | |- appends (push_tensor _) => apply appends_extend
  | |- appends (push_tensor_ext _) => apply appends_extend
  | |- appends (push _) => apply appends_extend
  | |- appends (extend _) => apply appends_extend
  | |- appends (put_varint _) => apply appends_varint
  | |- appends (put_len _) => apply appends_len
  | |- appends (put_signed_varint _) => apply appends_signed
  | |- appends (encode_reg _) => apply appends_reg
  | |- appends (encode_f64 _) => apply appends_f64
  | |- appends (encode_optional_reg _) => apply appends_optional
  | |- appends (encode_type_ref _) => apply appends_type
  | |- appends (encode_reg_vec _) => apply appends_reg_vec
  | |- appends (for_each _ _) => apply appends_for_each; intros; appends
  | |- appends (when _ _) => apply appends_when; appends
  | |- appends (if_some _ _) => apply appends_if_some; intros; appends
  | |- appends (encode_reg_range _) => unfold encode_reg_range; apply (appends_then (encode_reg _) (push _)); appends
  | |- appends (λ output, output) => apply appends_nothing
  | |- appends (if ?b then _ else _) => destruct b; appends
  | |- appends (match ?x with _ => _ end) => destruct x; appends
  | |- appends (encode_escaped_tensor_header _ _) => unfold encode_escaped_tensor_header; appends
  | |- appends (encode_capture_types _) => unfold encode_capture_types; appends
  | |- appends (encode_reg3 ?r) => destruct r as [[? ?] ?]; cbn [encode_reg3]; appends
  end.

Lemma appends_arm i : appends (encode_arm i).
Proof. destruct i; unfold_encoder; appends. Qed.

(** The first write of an arm is an opcode. *)
Definition opens (e : writer) : Prop :=
  ∃ op e', (∀ output, e output = (push_op op |> e') output) ∧ appends e'.

Lemma opens_op op : opens (push_op op).
Proof. exists op, (λ output, output). split; [done|]. apply appends_nothing. Qed.

Lemma opens_then e e' : opens e → appends e' → opens (e |> e').
Proof.
  intros (op & e1 & E & H1) H'. exists op, (e1 |> e'). split; [|by apply appends_then].
  intros output. unfold then_write. by rewrite E.
Qed.

Ltac opens :=
  lazymatch goal with
  | |- opens (push_op _) => apply opens_op
  | |- opens (_ |> _) => apply opens_then; [opens|appends]
  | |- opens (encode_escaped_tensor_header _ _) => unfold encode_escaped_tensor_header; opens
  | |- opens (if ?b then _ else _) => destruct b; opens
  | |- opens (match ?x with _ => _ end) => destruct x; opens
  end.

Lemma opens_arm i : opens (encode_arm i).
Proof. destruct i; unfold_encoder; cbv beta zeta; opens. Qed.

(** ** The bytes of an instruction *)

Definition instruction_bytes (i : Instruction.t) : bytes := encode_arm i [].
Definition program_bytes (l : list Instruction.t) : bytes := concat (map instruction_bytes l).

Lemma arm_writes i output : encode_arm i output = output ++ instruction_bytes i.
Proof. exact (appends_arm i output). Qed.

Lemma instruction_bytes_cons i : ∃ op rest, instruction_bytes i = Opcode.to_byte op :: rest.
Proof.
  destruct (opens_arm i) as (op & e & E & H). exists op, (e []). unfold instruction_bytes.
  rewrite E. exact (H [Opcode.to_byte op]).
Qed.

Lemma encode_instruction_bytes i output :
  encode_instruction i output = (output ++ instruction_bytes i, length (instruction_bytes i)).
Proof. unfold encode_instruction. rewrite arm_writes, length_app. f_equal. lia. Qed.

Lemma instruction_size_bytes i : instruction_size i = length (instruction_bytes i).
Proof. unfold instruction_size. by rewrite encode_instruction_bytes. Qed.

Lemma instruction_size_pos i : (1 ≤ instruction_size i)%nat.
Proof.
  rewrite instruction_size_bytes. destruct (instruction_bytes_cons i) as (op & rest & ->). cbn. lia.
Qed.

Lemma encode_program_bytes l output :
  encode_instructions l output = (output ++ program_bytes l, length (program_bytes l)).
Proof.
  unfold encode_instructions.
  assert (E : ∀ output, fold_left (λ output instr, (encode_instruction instr output).1) l output
    = output ++ program_bytes l).
  { clear output. unfold program_bytes. induction l as [|i l IH]; intros output;
      cbn [fold_left map concat]; [by rewrite app_nil_r|].
    rewrite encode_instruction_bytes. cbn [fst]. by rewrite IH, <- (assoc_L app). }
  rewrite E, length_app. f_equal. lia.
Qed.

Lemma program_bytes_app l l' : program_bytes (l ++ l') = program_bytes l ++ program_bytes l'.
Proof. unfold program_bytes. by rewrite map_app, concat_app. Qed.

Lemma program_bytes_length l : length (program_bytes l) = list_sum (map instruction_size l).
Proof.
  unfold program_bytes. induction l as [|i l IH]; cbn [map concat]; [done|].
  rewrite length_app, IH, <- instruction_size_bytes. done.
Qed.

Lemma length_program l : (length l ≤ length (program_bytes l))%nat.
Proof.
  rewrite program_bytes_length. induction l as [|i l IH]; cbn [length map]; [done|].
  pose proof (instruction_size_pos i). change (list_sum _) with
    (instruction_size i + list_sum (map instruction_size l))%nat. lia.
Qed.

(** ** Theorem *)

(** Encoding any instruction, of whatever variant and fields, appends to the
    output: the byte of an opcode that the decoder does not refuse, then bytes
    that do not depend on the output; the size returned is that of the bytes and
    is what [instruction_size] says.  Encoding a program appends the bytes of its
    instructions in order. *)
Theorem encode_appends (i : Instruction.t) (program : list Instruction.t) (output : bytes) :
  (∃ op rest,
    encode_instruction i output = (output ++ Opcode.to_byte op :: rest, instruction_size i) ∧
    (encode_instruction i []).1 = Opcode.to_byte op :: rest ∧
    Opcode.reclaimed (Opcode.to_byte op) = false ∧ instruction_size i = S (length rest)) ∧
  encode_instructions program output =
    (output ++ concat (map (λ i, (encode_instruction i []).1) program),
     list_sum (map instruction_size program)).
Proof.
  split.
  - destruct (instruction_bytes_cons i) as (op & rest & E). exists op, rest.
    rewrite encode_instruction_bytes, instruction_size_bytes, E. split_and!; [done| |apply Opcode_live|done].
    by rewrite encode_instruction_bytes, E.
  - by rewrite encode_program_bytes, program_bytes_length.
Qed.

(** What the decoder asks of the allocator on a given input. *)
Definition capacity_ok (with_capacity : Z → bool) (data : bytes) : Prop :=
  ∀ n, (n ≤ length data)%nat → with_capacity (Z.of_nat n) = true.

(** The bytes do not depend on the input they are read from. *)
Lemma instruction_reads with_capacity data i :
  capacity_ok with_capacity data → instruction_ok i = true →
  reads_at data (decode_instruction data with_capacity) (instruction_bytes i) i.
Proof.
  intros Hcap Hok. destruct (arm_codec data with_capacity Hcap i Hok) as (out & W & R & _).
  pose proof (writes_length _ _ W) as E. by subst out.
Qed.

(** C5. Decoding inverts the encoding of an instruction: appended to any output, the
    bytes of an instruction whose form and fields the format can carry are read
    back, whatever follows them, and the decoder stops right after them; the
    returned size is the number of bytes appended. *)
Theorem instruction_roundtrip (with_capacity : Z → bool) (i : Instruction.t) (before after : bytes) :
  instruction_ok i = true →
  let '(out, n) := encode_instruction i before in
  (∀ k : nat, (k ≤ length (out ++ after))%nat → with_capacity (Z.of_nat k) = true) →
  take (length before) out = before ∧ length out = (length before + n)%nat ∧ (1 ≤ n)%nat ∧
  n = instruction_size i ∧
  decode_instruction (out ++ after) with_capacity (length before) = (Ok i, length out).
Proof.
  intros Hok. rewrite encode_instruction_bytes. intros Hcap.
  pose proof (instruction_reads with_capacity _ i Hcap Hok) as R. split_and!.
  - by rewrite take_app_length.
  - by rewrite length_app.
  - rewrite <- instruction_size_bytes. apply instruction_size_pos.
  - by rewrite instruction_size_bytes.
  - rewrite (R before after); [|by rewrite <- (assoc_L app)]. by rewrite length_app.
Qed.

(** A closure with a captured and a lexical type. *)
Definition sample_closure : Instruction.t :=
  Instruction.NewClosure 300 7 [1; 200] (Some [Some (Concrete 4); None]) [Generic 2].

Lemma instruction_roundtrip_witness :
  instruction_ok sample_closure = true ∧
  decode_instruction ((encode_instruction sample_closure [9]).1 ++ [7]) (λ _, true) 1%nat =
    (Ok sample_closure, length (encode_instruction sample_closure [9]).1).
Proof.
  split; [by vm_compute|].
  pose proof (instruction_roundtrip (λ _, true) sample_closure [9] [7] eq_refl) as H.
  destruct (encode_instruction sample_closure [9]) as [out n]. by apply H.
Defined.

(** ** Sequences *)
Section program.
Context (data : bytes) (with_capacity : Z → bool).
Context (Hcap : capacity_ok with_capacity data).

Lemma decode_while_reads fuel l before :
  forallb instruction_ok l = true → data = before ++ program_bytes l → (length l < fuel)%nat →
  decode_while data with_capacity fuel (length before) = (Ok l, length data).
Proof.
  revert l before. induction fuel as [|fuel IH]; intros l before Hl E Hf; [lia|].
  cbn [decode_while]. destruct l as [|i l].
  - unfold program_bytes in E. cbn [map concat] in E. rewrite app_nil_r in E.
    by rewrite E, Nat.ltb_irrefl.
  - cbn [forallb] in Hl. apply andb_split in Hl as [Hi Hl]. cbn [program_bytes map concat length] in E, Hf.
    pose proof (instruction_size_pos i) as Hp. rewrite instruction_size_bytes in Hp.
    pose proof (instruction_reads with_capacity data i Hcap Hi) as R.
    rewrite (proj2 (Nat.ltb_lt _ _)) by (rewrite E, !length_app; lia).
    rewrite (reads_at_step data _ _ _ _ before (program_bytes l) R E).
    rewrite (assoc_L app) in E. unfold mbind, decoder_bind.
    by rewrite (IH l (before ++ instruction_bytes i) Hl E ltac:(lia)).
Qed.
End program.

(** A program comes back from its bytes: the sequential decoder splits the
    concatenated encodings exactly at the instructions they came from. *)
Theorem instructions_roundtrip (with_capacity : Z → bool) (l : list Instruction.t) :
  forallb instruction_ok l = true →
  let '(out, n) := encode_instructions l [] in
  (∀ k : nat, (k ≤ length out)%nat → with_capacity (Z.of_nat k) = true) →
  n = length out ∧ decode_instructions out with_capacity = Ok l.
Proof.
  intros Hl. rewrite encode_program_bytes. cbn [app]. intros Hcap. split; [done|].
  unfold decode_instructions.
  rewrite (decode_while_reads _ with_capacity Hcap _ l [] Hl); [done|done|].
  pose proof (length_program l). lia.
Qed.

Definition sample_program : list Instruction.t :=
  [Instruction.LoadI 1 (-300); sample_closure; Instruction.JmpIf 1 (-4); Instruction.Nop].

Lemma instructions_roundtrip_witness :
  forallb instruction_ok sample_program = true ∧
  decode_instructions (encode_instructions sample_program []).1 (λ _, true) = Ok sample_program.
Proof.
  split; [by vm_compute|]. pose proof (instructions_roundtrip (λ _, true) sample_program eq_refl) as H.
  destruct (encode_instructions sample_program []) as [out n]. by apply H.
Defined.

(** ** Operations that do not survive *)

(** A unary float operation above [Round] comes back as a negation: the bytes
    decode without an error, to another instruction of the same size. *)
Theorem unary_float_lost (with_capacity : Z → bool) (op : UnaryFloatOp.t) (dst src : Reg)
    (before after : bytes) :
  10 < UnaryFloatOp.to_byte op → is_u 15 dst → is_u 15 src →
  let '(out, _) := encode_instruction (Instruction.UnaryF op dst src) before in
  decode_instruction (out ++ after) with_capacity (length before) =
    (Ok (Instruction.UnaryF UnaryFloatOp.Neg dst src), length out).
Proof.
  intros Hop Hd Hs.
  assert (C : ∀ data, codec data 1 (encode_arm (Instruction.UnaryF op dst src))
      (decode_instruction data with_capacity) (Instruction.UnaryF UnaryFloatOp.Neg dst src)).
  { intros data.
    assert (u_ok 15 dst = true ∧ u_ok 15 src = true) as [? ?].
    { unfold u_ok, is_u in *. rewrite !andb_true_iff, !Z.leb_le, !Z.ltb_lt. lia. }
    assert (E : default UnaryFloatOp.Neg (UnaryFloatOp.try_from (UnaryFloatOp.to_byte op)) = UnaryFloatOp.Neg)
      by (by destruct op; cbn in Hop; try lia).
    arm. eapply codec_next; [codec_field|]. cbv zeta. rewrite E. codec_arm. }
  unfold encode_instruction. destruct (C ([] ++ [])) as (out & W & _). rewrite W.
  destruct (C ((before ++ out) ++ after)) as (out' & W' & R & _).
  apply writes_length in W as E. apply writes_length in W' as E'. rewrite <- E in E'. subst out'.
  rewrite (R before after) by by rewrite <- (assoc_L app). by rewrite length_app.
Qed.

Lemma unary_float_lost_witness :
  10 < UnaryFloatOp.to_byte UnaryFloatOp.Cbrt ∧
  decode_instruction (encode_instruction (Instruction.UnaryF UnaryFloatOp.Cbrt 5 6) [9]).1 (λ _, true) 1%nat =
    (Ok (Instruction.UnaryF UnaryFloatOp.Neg 5 6), 5%nat).
Proof.
  split; [by vm_compute|].
  exact (unary_float_lost (λ _, true) UnaryFloatOp.Cbrt 5 6 [9] [] eq_refl ltac:(done) ltac:(done)).
Defined.
