(* ===== verification/InstructionImage.v ===== *)
(** * What the instruction decoder returns

    [yields d P]: whatever the decoder [d] returns satisfies [P].  Decoding any
    bytes gives an instruction of [instruction_ok], so that decoding, encoding
    and decoding again gives the same instruction, and the decoder always ends
    inside its input. *)

From stdpp Require Import gmap.
From S2P Require Import Prelude Words Encoding EncodingFacts Codec TypeRefs TypeRefFacts.
From S2P Require Import Opcodes InstructionOk Instruction InstructionEncode InstructionDecode.
From S2P Require Import InstructionFacts InstructionRoundtrip.

Definition yields {A} (d : decoder A) (P : A → Prop) : Prop :=
  ∀ offset a offset', d offset = (Ok a, offset') → P a.

(** ** Structure *)
Lemma yields_ret {A} (a : A) (P : A → Prop) : P a → yields (mret a) P.
Proof. intros H offset b offset' [= <- _]. done. Qed.

Lemma yields_fail {A} e (P : A → Prop) : yields (fail e) P.
Proof. intros offset b offset' [=]. Qed.

Lemma yields_panic {A} (P : A → Prop) : yields panic P.
Proof. intros offset b offset' [=]. Qed.

Lemma yields_bind {A B} (d : decoder A) (k : A → decoder B) P Q :
  yields d P → (∀ a, P a → yields (k a) Q) → yields (d ≫= k) Q.
Proof.
  intros Hd Hk offset b offset'. unfold mbind, decoder_bind.
  destruct (d offset) as [[a| |] o] eqn:E; [|by intros [=]..]. apply Hk. by eapply Hd.
Qed.

Lemma yields_map {A B} (f : A → B) (d : decoder A) P (Q : B → Prop) :
  yields d P → (∀ a, P a → Q (f a)) → yields (f <$> d) Q.
Proof. intros Hd Hf. eapply yields_bind; [exact Hd|]. intros a Ha. by apply yields_ret, Hf. Qed.

Lemma yields_if {A} (b : bool) (d d' : decoder A) P :
  (b = true → yields d P) → (b = false → yields d' P) → yields (if b then d else d') P.
Proof. destruct b; auto. Qed.

Lemma yields_weaken {A} (d : decoder A) (P Q : A → Prop) :
  (∀ a, P a → Q a) → yields d P → yields d Q.
Proof. intros H Hd offset a offset' E. by eapply H, Hd. Qed.

Lemma yields_any {A} (d : decoder A) : yields d (λ _, True).
Proof. done. Qed.

(** ** Casts *)
Lemma u_ok_wrap w v : 0 ≤ w → u_ok w (wrap w v) = true.
Proof.
  intros Hw. pose proof (wrap_range w v Hw) as H. unfold is_u, u_ok in *.
  by rewrite andb_true_iff, Z.leb_le, Z.ltb_lt.
Qed.

Lemma i_ok_signed w v : 0 < w → i_ok w (to_signed w v) = true.
Proof.
  intros Hw. pose proof (to_signed_range w v Hw) as H. unfold is_i, i_ok in *.
  by rewrite andb_true_iff, Z.leb_le, Z.ltb_lt.
Qed.

Lemma is_u_ok w v : is_u w v → u_ok w v = true.
Proof. unfold is_u, u_ok. by rewrite andb_true_iff, Z.leb_le, Z.ltb_lt. Qed.

(** ** Loops *)
Lemma yields_len_loop {A} (d : decoder A) fuel count P :
  yields d P → yields (decode_times d fuel count) (λ l, (length l ≤ fuel)%nat ∧ Forall P l).
Proof.
  intros Hd. revert count. induction fuel as [|fuel IH]; intros count; cbn [decode_times].
  - apply yields_if; intros _; [by apply yields_ret|]. intros offset a offset' [=].
  - apply yields_if; intros _; [apply yields_ret; split; [cbn; lia|done]|].
    eapply yields_bind; [exact Hd|]. intros x Hx. eapply yields_bind; [apply IH|].
    intros l [Hl Hf]. apply yields_ret. split; [cbn; lia|by constructor].
Qed.

(** A loop yields no more elements than asked for. *)
Lemma yields_count {A} (d : decoder A) fuel count P :
  yields d P →
  yields (decode_times d fuel count) (λ l, Z.of_nat (length l) ≤ Z.max 0 count ∧ Forall P l).
Proof.
  intros Hd. revert count. induction fuel as [|fuel IH]; intros count; cbn [decode_times].
  - apply yields_if; intros H; [apply yields_ret; split; [cbn; lia|done]|]. intros offset a offset' [=].
  - apply yields_if; intros H; [apply yields_ret; split; [cbn; lia|done]|].
    eapply yields_bind; [exact Hd|]. intros x Hx. eapply yields_bind; [apply IH|].
    intros l [Hl Hf]. apply yields_ret. split; [cbn [length]; lia|by constructor].
Qed.

Lemma forallb_Forall {A} (P : A → bool) l : Forall (λ x, P x = true) l → forallb P l = true.
Proof. induction 1; cbn; [done|]. by apply andb_true_iff. Qed.

(** ** Fields *)
Section fields.
Context (data : bytes) (with_capacity : Z → bool).
Context (Hdata : well_formed_bytes data) (Hlen : Z.of_nat (length data) < 2 ^ 63).

Lemma yields_u8 : yields (decode_u8 data) (is_u 8).
Proof.
  intros offset b offset'. unfold decode_u8. destruct (data !! offset) eqn:E; [|by intros [=]].
  intros [= <- _]. exact (Forall_lookup_1 _ _ _ _ Hdata E).
Qed.

Lemma yields_reg : yields (decode_reg data) (λ r, u_ok 15 r = true).
Proof.
  unfold decode_reg. eapply yields_bind; [apply yields_u8|]. intros b Hb.
  rewrite byte_continued by done. apply yields_if; intros Hc.
  - apply yields_ret, is_u_ok. unfold is_u in *. lia.
  - eapply yields_bind; [apply yields_u8|]. intros c Hc'. apply yields_ret, is_u_ok.
    unfold is_u in *. change (2 ^ 8) with 256 in *. change (2 ^ 15) with 32768.
    rewrite byte_low. pose proof (Z.mod_pos_bound b 128 ltac:(lia)).
    rewrite wrap_id by (rewrite Z.shiftl_mul_pow2 by lia; unfold is_u; lia).
    rewrite Z.lor_comm, lor_shiftl by lia. lia.
Qed.

Lemma yields_signed : yields (decode_signed_varint data) (λ v, i_ok 64 v = true).
Proof.
  unfold decode_signed_varint. eapply yields_bind; [apply yields_any|]. intros z _. apply yields_ret.
  pose proof (to_signed_range 64 (Z.shiftr z 1) ltac:(lia)) as Hs.
  change 1 with (2 ^ 1 - 1) at 2. rewrite land_mask by lia. change (2 ^ 1) with 2.
  unfold i_ok, is_i in *. rewrite andb_true_iff, Z.leb_le, Z.ltb_lt.
  rewrite Zmod_odd. destruct (Z.odd z).
  all: first [change (- to_signed 64 1) with (-1); rewrite lxor_minus_1; lia
             | change (- to_signed 64 0) with 0; rewrite Z.lxor_0_r; lia].
Qed.

Lemma yields_times {A} (d : decoder A) count (P : A → bool) :
  yields d (λ x, P x = true) → yields (times data d count) (λ l, len_ok l = true ∧ forallb P l = true).
Proof.
  intros Hd. unfold times. eapply yields_weaken; [|by apply yields_len_loop].
  intros l [Hl Hf]. split; [|by apply forallb_Forall].
  unfold len_ok, loop_fuel in *. apply Z.ltb_lt. lia.
Qed.

Lemma yields_reg_vec : yields (decode_reg_vec data) (λ l, regs_ok l = true).
Proof.
  unfold decode_reg_vec. eapply yields_bind; [apply yields_any|]. intros n _.
  eapply yields_weaken; [|apply (yields_times _ n (u_ok 15)), yields_reg].
  intros l [H H']. unfold regs_ok. by rewrite H, H'.
Qed.

Lemma yields_optional : yields (decode_optional_reg data) (λ o, optional_ok o = true).
Proof.
  unfold decode_optional_reg. eapply yields_bind; [apply yields_any|]. intros b _.
  apply yields_if; intros _; [by apply yields_ret|]. eapply yields_bind; [apply yields_reg|].
  intros r Hr. by apply yields_ret.
Qed.

Lemma yields_range : yields (decode_reg_range data) (λ r, u_ok 15 (start r) = true).
Proof.
  unfold decode_reg_range. eapply yields_bind; [apply yields_reg|]. intros r Hr.
  eapply yields_bind; [apply yields_any|]. intros c _. by apply yields_ret.
Qed.

Lemma yields_bytes : yields (decode_bytes data) (λ l, len_ok l = true).
Proof.
  unfold decode_bytes. eapply yields_bind; [apply yields_any|]. intros [s n] _. apply yields_ret.
  unfold len_ok, slice. apply Z.ltb_lt. rewrite length_take, length_drop. lia.
Qed.

Lemma yields_registers n : yields (decode_extended_reg_operands data n) (λ l, registers n l = true).
Proof.
  induction n as [|n IH]; cbn [decode_extended_reg_operands]; [by apply yields_ret|].
  eapply yields_bind; [apply yields_any|]. intros b _. apply yields_if; intros Hb.
  - eapply yields_bind; [apply yields_any|]. intros c _. eapply yields_bind; [exact IH|].
    intros l Hl. apply yields_ret. cbn [registers]. by rewrite Hb.
  - eapply yields_bind; [exact IH|]. intros l Hl. apply yields_ret. cbn [registers]. by rewrite Hb.
Qed.

Lemma yields_fixed n : yields (decode_fixed data n) (λ l, is_u (8 * Z.of_nat n) (from_le_bytes l)).
Proof.
  intros offset a offset'. unfold decode_fixed. destruct (offset <=? length data)%nat; [|by intros [=]].
  cbn [mbind option_bind]. destruct (n <=? length (drop offset data))%nat eqn:E; [|by intros [=]].
  intros [= <- _]. apply Nat.leb_le in E.
  assert (Hn : length (take n (drop offset data)) = n) by (rewrite length_take; lia).
  rewrite <- Hn at 1. apply from_le_bytes_range. by apply Forall_take, Forall_drop.
Qed.

Lemma yields_f32 : yields (decode_f32 data) (λ v, u_ok 32 v = true).
Proof. eapply yields_map; [apply (yields_fixed 4)|]. intros l H. by apply is_u_ok. Qed.

Lemma yields_f64 : yields (decode_f64 data) (λ v, u_ok 64 v = true).
Proof. eapply yields_map; [apply (yields_fixed 8)|]. intros l H. by apply is_u_ok. Qed.
End fields.

(** ** Instructions *)

(** The type references in an instruction. *)
Definition types_of (i : Instruction.t) : list TypeRef :=
  match i with
  | Instruction.LoadT _ t | Instruction.TypeLayout _ t _ | Instruction.TypeResource _ t
  | Instruction.DropTyped _ t | Instruction.BindMethodReceiver t => [t]
  | Instruction.SetCallWitness l | Instruction.CallG _ _ l _ => l
  | Instruction.NewClosure _ _ _ capture_types lexical_types =>
      omap id (default [] capture_types) ++ lexical_types
  | _ => []
  end.

(** An instruction that encoding keeps, up to its types; the exception is the
    configuration of a nursery of a kind that the decoder does not know. *)
Definition image (i : Instruction.t) : Prop :=
  i = Instruction.Raw Opcode.NurseryConfig [] ∨
  (forallb type_ok (types_of i) = true → instruction_ok i = true).

Lemma yields_wrap w d : 0 ≤ w → yields (wrap w <$> d) (λ v, u_ok w v = true).
Proof. intros. eapply yields_map; [apply yields_any|]. intros. by apply u_ok_wrap. Qed.

Lemma yields_signed_cast w d : 0 < w → yields (to_signed w <$> d) (λ v, i_ok w v = true).
Proof. intros. eapply yields_map; [apply yields_any|]. intros. by apply i_ok_signed. Qed.

Ltac yields_field Hdata Hlen :=
  lazymatch goal with
  | |- yields (decode_reg _) _ => exact (yields_reg _ Hdata)
  | |- yields (wrap _ <$> _) _ => apply yields_wrap; done
  | |- yields (to_signed _ <$> _) _ => apply yields_signed_cast; done
  | |- yields (decode_signed_varint _) _ => apply yields_signed
  | |- yields (decode_reg_vec _) _ => exact (yields_reg_vec _ Hdata Hlen)
  | |- yields (decode_optional_reg _) _ => exact (yields_optional _ Hdata)
  | |- yields (decode_reg_range _) _ => exact (yields_range _ Hdata)
  | |- yields (decode_bytes _) _ => exact (yields_bytes _ Hlen)
  | |- yields (decode_f32 _) _ => exact (yields_f32 _ Hdata)
  | |- yields (decode_f64 _) _ => exact (yields_f64 _ Hdata)
  | |- yields (times _ ?d _) _ =>
      first [ eapply (yields_times _ Hlen); yields_field Hdata Hlen
            | exact (yields_times _ Hlen d _ (λ _, true) (λ _ _ _ _, eq_refl)) ]
  | |- yields _ _ => apply yields_any
  end.

(** The fields of the instruction returned are those read. *)
Ltac yields_image :=
  right; cbn [types_of instruction_ok forallb]; intros;
  unfold cases_ok, offsets_ok, types_ok in *;
  repeat match goal with
  | H : _ && true = true |- _ => rewrite andb_true_r in H
  | H : _ ∧ _ |- _ => destruct H
  | H : ?b = true |- context [?b] => rewrite H
  end; reflexivity.

Ltac yields_arm Hdata Hlen :=
  cbv beta zeta;
  lazymatch goal with
  | |- yields (mret _) _ => apply yields_ret; yields_image
  | |- yields (fail _) _ => apply yields_fail
  | |- yields (no_wire_decoding _) _ => apply yields_fail
  | |- yields ((_ ≫= _) ≫= _) _ => fail
  | |- yields (_ ≫= _) _ =>
      eapply yields_bind;
        [yields_field Hdata Hlen|let x := fresh "x" in let Hx := fresh "Hx" in intros x Hx; yields_arm Hdata Hlen]
  end.

Section image.
Context (data : bytes) (with_capacity : Z → bool).
Context (Hdata : well_formed_bytes data) (Hlen : Z.of_nat (length data) < 2 ^ 63).

Lemma default_float_ok sub_op :
  unary_float_ok (default UnaryFloatOp.Neg (UnaryFloatOp.try_from sub_op)) = true.
Proof. unfold UnaryFloatOp.try_from. by repeat case_match. Qed.

Lemma yields_unary_float :
  yields (sub_op ← decode_u8 data;
    dst ← decode_reg data; src ← decode_reg data;
    mret (Instruction.UnaryF (default UnaryFloatOp.Neg (UnaryFloatOp.try_from sub_op)) dst src)) image.
Proof.
  eapply yields_bind; [apply yields_any|]. intros b _. pose proof (default_float_ok b).
  yields_arm Hdata Hlen.
Qed.

Lemma yields_case : yields (decode_case data) (λ c, u_ok 32 c.1 && i_ok 32 c.2 = true).
Proof.
  unfold decode_case. do 2 (eapply yields_bind; [yields_field Hdata Hlen|intros ? ?]).
  apply yields_ret. cbn [fst snd]. by apply andb_true_iff.
Qed.

Lemma yields_switch :
  yields (value ← decode_reg data; default_offset ← to_signed 32 <$> decode_signed_varint data;
    case_count ← decode_varint data; cases ← times data (decode_case data) case_count;
    mret (Instruction.Switch value default_offset cases)) image.
Proof.
  do 3 (eapply yields_bind; [yields_field Hdata Hlen|intros ? ?]).
  eapply yields_bind; [apply (yields_times data Hlen), yields_case|]. intros ? ?. yields_arm Hdata Hlen.
Qed.

Lemma yields_cubical :
  yields (sub_op ← decode_u8 data; dst ← decode_reg data; args_len ← decode_u8 data;
    args ← times data (decode_reg data) args_len;
    mret (Instruction.CubicalExtended sub_op dst args)) image.
Proof.
  do 2 (eapply yields_bind; [yields_field Hdata Hlen|intros ? ?]).
  eapply yields_bind; [apply (yields_u8 data Hdata)|]. intros n Hn.
  eapply yields_bind; [apply yields_count, (yields_reg data Hdata)|]. intros args [Hl Hf].
  assert (Ha : (Z.of_nat (length args) <=? 0xFF) = true) by (unfold is_u in Hn; lia).
  assert (Hr : regs_ok args = true).
  { unfold regs_ok. rewrite (forallb_Forall _ _ Hf), andb_true_r. apply Z.ltb_lt. lia. }
  yields_arm Hdata Hlen.
Qed.

Lemma yields_ml :
  yields (sub_op ← decode_u8 data; operands ← decode_bytes data;
    mret (Instruction.Raw Opcode.MlExtended (put_len operands [sub_op] ++ operands))) image.
Proof.
  eapply yields_bind; [apply yields_any|]. intros b _.
  eapply yields_bind; [apply (yields_bytes data Hlen)|]. intros operands Hl. apply yields_ret.
  right. intros _. cbn [instruction_ok raw_ok]. unfold ml_ok.
  pose proof (decode_bytes_reads operands ltac:(by apply Z.ltb_lt) [b] []) as R.
  rewrite put_len_writes. rewrite app_nil_r in R. rewrite <- (assoc_L app). cbn [app length] in R |- *.
  fold (len_bytes operands) in R. cbv beta in Hl. rewrite R, Hl. apply bool_decide_eq_true_2. by rewrite put_len_writes, <- (assoc_L app).
Qed.

Lemma yields_nursery :
  yields (nursery ← decode_reg data; config_type ← decode_varint data; value ← decode_reg data;
    mret (nursery_config Opcode.NurseryConfig nursery config_type value)) image.
Proof.
  eapply yields_bind; [yields_field Hdata Hlen|]. intros nursery Hn.
  eapply yields_bind; [apply yields_any|]. intros n _.
  eapply yields_bind; [yields_field Hdata Hlen|]. intros value Hv. apply yields_ret.
  unfold nursery_config. repeat case_match; first [by left|yields_image].
Qed.

(** ** Sub-opcodes *)
Lemma yields_closure witnessed : yields (decode_closure data with_capacity witnessed) image.
Proof.
  unfold decode_closure. do 3 (eapply yields_bind; [yields_field Hdata Hlen|intros ? ?]).
  eapply yields_bind; [apply yields_any|]. intros present _.
  eapply yields_bind; [apply yields_any|]. intros n _. apply yields_if; intros Hn; [apply yields_fail|].
  eapply yields_bind; [apply yields_count, yields_any|]. intros types [Ht _].
  eapply yields_bind with (P := λ l, (Z.of_nat (length l) <=? 0xFFFF) = true).
  - unfold decode_lexical_types. destruct witnessed; [|by apply yields_ret].
    eapply yields_bind; [apply yields_any|]. intros k _. apply yields_if; intros Hk; [apply yields_fail|].
    eapply yields_weaken; [|apply yields_count, yields_any]. cbv beta. intros l [Hl _]. lia.
  - intros lexical_types Hl. apply yields_ret. right. cbn [types_of instruction_ok].
    rewrite forallb_app. intros [Hty Hlt]%andb_split. unfold closure_types_ok.
    rewrite H, H0, H1, Hl, Hlt. destruct present; [|done]. cbn [default from_option id] in Hty.
    rewrite (proj2 (Z.leb_le _ _)) by lia. rewrite !andb_true_r. cbn [andb].
    clear -Hty. induction types as [|[t|] types IH]; cbn in *; [done| |by apply IH].
    apply andb_split in Hty as [-> Hty]. by apply IH.
Qed.

Lemma yields_kind sub_op kind :
  ExtendedSubOpcode.from_byte sub_op = Some kind →
  yields (decode_extended_kind data with_capacity sub_op kind) image.
Proof.
  intros Hk. destruct (opaque_operands kind) as [n|] eqn:En.
  - assert (Hd : decode_extended_kind data with_capacity sub_op kind =
      (operands ← decode_extended_reg_operands data n; mret (Instruction.Extended sub_op operands))).
    { by destruct kind; try discriminate En; injection En as <-. }
    rewrite Hd. eapply yields_bind; [apply yields_registers|]. intros l Hl. apply yields_ret.
    right. intros _. cbn [instruction_ok]. unfold extended_ok. rewrite Hk. cbn [mbind option_bind].
    by rewrite En.
  - clear Hk. destruct kind; try discriminate En; cbn [decode_extended_kind];
      first [apply yields_closure | solve [yields_arm Hdata Hlen]].
Qed.

Lemma yields_extended : yields (decode_extended data with_capacity) image.
Proof.
  unfold decode_extended. eapply yields_bind; [apply yields_any|]. intros b _.
  destruct (ExtendedSubOpcode.from_byte b) eqn:E; [by apply yields_kind|apply yields_fail].
Qed.

(** ** Tensor sub-opcodes *)
Lemma permission_ok b operands : is_permission b = is_some (decode_permission_instruction b operands).
Proof. unfold is_permission, decode_permission_instruction. by destruct (TensorExtSubOpcode.from_byte b) as [[]|]. Qed.

Lemma yields_permission b operands d :
  well_formed_bytes operands → decode_permission_instruction b operands = Some d → yields d image.
Proof.
  intros Ho. unfold decode_permission_instruction.
  destruct (TensorExtSubOpcode.from_byte b) as [[]|]; intros [= <-].
  all: yields_arm Ho Hlen.
Qed.

Lemma yields_slice : yields (decode_bytes data) well_formed_bytes.
Proof.
  unfold decode_bytes. eapply yields_bind; [apply yields_any|]. intros [s n] _. apply yields_ret.
  unfold slice. by apply Forall_take, Forall_drop.
Qed.

Lemma yields_and {A} (d : decoder A) (P Q : A → Prop) :
  yields d P → yields d Q → yields d (λ a, P a ∧ Q a).
Proof. intros HP HQ offset a offset' E. split; [by eapply HP|by eapply HQ]. Qed.

Lemma yields_carrier sub_op : tensor_carrier sub_op = true → yields (decode_tensor_carrier data sub_op) image.
Proof.
  intros Hc. unfold decode_tensor_carrier.
  eapply yields_bind; [exact (yields_and _ _ _ (yields_bytes data Hlen) yields_slice)|].
  intros operands [Hl Hw]. cbv beta in Hl. cbv zeta.
  assert (C : (sub_op =? 0xFF) = false ∨ is_some (head operands ≫= λ b, decode_permission_instruction b operands) = false →
    yields (mret (Instruction.TensorExtended sub_op operands)) image).
  { intros Hp. apply yields_ret. right. intros _. cbn [instruction_ok]. unfold tensor_extended_ok.
    rewrite Hc, Hl. destruct Hp as [->|Hp]; [done|]. destruct operands as [|b operands]; [by rewrite andb_false_r|].
    rewrite (permission_ok b (b :: operands)). cbn [head mbind option_bind] in Hp. rewrite Hp.
    by rewrite andb_false_r. }
  apply yields_if; intros E; [|by apply C; left].
  destruct (head operands) as [b|] eqn:Eh; [|by apply C; right].
  destruct (decode_permission_instruction b operands) as [d|] eqn:Ed;
    [|by apply C; right; cbn [mbind option_bind]; rewrite Ed].
  destruct (d 1%nat) as [[i| |] o] eqn:Er; intros offset i' offset'; cbn; try by intros [=].
  destruct (o =? length operands)%nat; [|by intros [=]]. intros [= <- _].
  by apply (yields_permission b operands d Hw Ed 1%nat i o).
Qed.

Lemma tensor_from_byte b sub_opcode :
  is_u 8 b → TensorSubOpcode.from_byte b = Some sub_opcode → TensorSubOpcode.to_byte sub_opcode = b.
Proof.
  intros Hb E. apply Z.eqb_eq.
  pose proof (byte_cases (λ b, match TensorSubOpcode.from_byte b with
    | Some s => TensorSubOpcode.to_byte s =? b | None => true end) ltac:(by vm_compute) b Hb) as H.
  cbv beta in H. by rewrite E in H.
Qed.

Lemma tensor_ext_from_byte b sub_opcode :
  is_u 8 b → TensorExtSubOpcode.from_byte b = Some sub_opcode → TensorExtSubOpcode.to_byte sub_opcode = b.
Proof.
  intros Hb E. apply Z.eqb_eq.
  pose proof (byte_cases (λ b, match TensorExtSubOpcode.from_byte b with
    | Some s => TensorExtSubOpcode.to_byte s =? b | None => true end) ltac:(by vm_compute) b Hb) as H.
  cbv beta in H. by rewrite E in H.
Qed.

(** The sub-opcodes without the carrier: two are decoded, the others refused. *)
Definition structured (sub_opcode : TensorSubOpcode.t) : bool :=
  match sub_opcode with
  | TensorSubOpcode.Pool | TensorSubOpcode.Lstsq => true
  | _ => negb (is_some (first_some sub_opcode (tensor_sections [])))
  end.

Definition strategy_byte (strategy : CodegenStrategy) : Z :=
  match strategy with
  | TensorExtendedOpcode op | TensorExtendedOpcodeWithMode op _ => TensorSubOpcode.to_byte op
  end.

Lemma tensor_carrier_list b :
  tensor_carrier b =
    existsb (Z.eqb b) (map strategy_byte tensor_intrinsics) || is_some (registry_driven_tensor_arity b).
Proof.
  unfold tensor_carrier. f_equal. apply eq_iff_eq_true. rewrite bool_decide_eq_true.
  transitivity (b ∈ (∅ : gset Z) ∨ existsb (Z.eqb b) (map strategy_byte tensor_intrinsics) = true);
    [|set_solver].
  unfold tensor_carrier_sub_ops. generalize (∅ : gset Z) as e. generalize tensor_intrinsics as l.
  induction l as [|s l IH]; intros e; cbn [fold_left map existsb]; [set_solver|].
  rewrite IH, orb_true_iff, Z.eqb_eq.
  assert (Hs : ∀ n, b ∈ ({[ n ]} ∪ e : gset Z) ↔ b = n ∨ b ∈ e) by set_solver.
  destruct s; cbn [strategy_byte]; rewrite Hs; tauto.
Qed.

Lemma tensor_structured sub_opcode :
  tensor_carrier (TensorSubOpcode.to_byte sub_opcode) = false → structured sub_opcode = true.
Proof.
  assert (Hb : is_u 8 (TensorSubOpcode.to_byte sub_opcode)) by (by destruct sub_opcode). intros Hc.
  pose proof (byte_cases (λ b, match TensorSubOpcode.from_byte b with
    | Some s => existsb (Z.eqb b) (map strategy_byte tensor_intrinsics)
        || is_some (registry_driven_tensor_arity b) || structured s
    | None => true end) ltac:(by vm_compute) _ Hb) as H.
  cbv beta in H. by rewrite TensorSubOpcode_from_to, <- tensor_carrier_list, Hc in H.
Qed.

Lemma yields_tensor_structured sub_opcode b :
  tensor_carrier (TensorSubOpcode.to_byte sub_opcode) = false →
  yields (default (fail (InvalidOpcode b)) (first_some sub_opcode (tensor_sections data))) image.
Proof.
  intros Hc%tensor_structured. destruct sub_opcode; try discriminate Hc; try apply yields_fail; clear Hc;
    cbn [default from_option id first_some tensor_sections decode_tensor_pool decode_tensor_registers
      tensor_register_count decode_tensor_decompositions fmap option_fmap option_map];
    solve [yields_arm Hdata Hlen].
Qed.

Lemma yields_tensor_ext b ext_sub_opcode :
  TensorExtSubOpcode.from_byte b = Some ext_sub_opcode →
  TensorSubOpcode.from_byte b = None → is_u 8 b →
  yields (decode_tensor_ext data b ext_sub_opcode) image.
Proof.
  intros He Hn Hb. pose proof (tensor_ext_from_byte b _ Hb He) as E.
  destruct ext_sub_opcode; cbn [decode_tensor_ext].
  1: by rewrite <- E in Hn.
  all: first
    [ solve [yields_arm Hdata Hlen]
    | destruct (decode_permission_instruction b data) eqn:Ep;
        [by apply (yields_permission b data)|apply yields_panic] ].
Qed.

Lemma yields_tensor_extended : yields (decode_tensor_extended data) image.
Proof.
  unfold decode_tensor_extended. eapply yields_bind; [exact (yields_u8 data Hdata)|]. intros b Hb.
  apply yields_if; intros Hc; [by apply yields_carrier|].
  destruct (TensorSubOpcode.from_byte b) as [s|] eqn:E.
  - apply yields_tensor_structured. by rewrite (tensor_from_byte b).
  - destruct (TensorExtSubOpcode.from_byte b) eqn:Ee; [by apply yields_tensor_ext|apply yields_fail].
Qed.

(** ** All opcodes *)
Lemma yields_opcode opcode : yields (decode_opcode data with_capacity opcode) image.
Proof.
  destruct opcode;
    lazymatch goal with
    | |- yields (decode_opcode _ _ Opcode.TensorExtended) _ => exact yields_tensor_extended
    | |- yields (decode_opcode _ _ Opcode.Extended) _ => exact yields_extended
    | |- yields (decode_opcode _ _ Opcode.NegF) _ => exact yields_unary_float
    | |- yields (decode_opcode _ _ Opcode.Switch) _ => exact yields_switch
    | |- yields (decode_opcode _ _ Opcode.CubicalExtended) _ => exact yields_cubical
    | |- yields (decode_opcode _ _ Opcode.MlExtended) _ => exact yields_ml
    | |- yields (decode_opcode _ _ Opcode.NurseryConfig) _ => exact yields_nursery
    | |- _ =>
        unfold_decoder;
        first [ solve [yields_arm Hdata Hlen] | apply yields_ret; right; intros _; reflexivity ]
    end.
Qed.

Lemma yields_instruction : yields (decode_instruction data with_capacity) image.
Proof.
  unfold decode_instruction. eapply yields_bind; [apply yields_any|]. intros b _.
  apply yields_if; intros _; [apply yields_fail|apply yields_opcode].
Qed.
End image.

(** ** Theorems *)

(** C6. Whatever the decoder returns is an instruction that the encoder keeps:
    encoding it and decoding the bytes again, at any place of any output, gives
    the same instruction.  The exceptions are a type reference that the format
    cannot nest and the configuration of a nursery of an unknown kind. *)
Theorem reencode_stable (with_capacity : Z → bool) (data : bytes) (offset offset' : nat)
    (i : Instruction.t) (before after : bytes) :
  well_formed_bytes data → Z.of_nat (length data) < 2 ^ 63 →
  decode_instruction data with_capacity offset = (Ok i, offset') →
  forallb type_ok (types_of i) = true → i ≠ Instruction.Raw Opcode.NurseryConfig [] →
  let '(out, n) := encode_instruction i before in
  (∀ k : nat, (k ≤ length (out ++ after))%nat → with_capacity (Z.of_nat k) = true) →
  decode_instruction (out ++ after) with_capacity (length before) = (Ok i, length out).
Proof.
  intros Hdata Hlen E Ht Hn.
  destruct (yields_instruction data with_capacity Hdata Hlen _ _ _ E) as [Hi|Hi]; [done|].
  rewrite encode_instruction_bytes. intros Hcap.
  pose proof (instruction_reads with_capacity _ i Hcap (Hi Ht)) as R.
  rewrite (R before after); [|by rewrite <- (assoc_L app)]. by rewrite length_app.
Qed.

Lemma reencode_stable_witness :
  let data := [Opcode.to_byte Opcode.NegF; 77; 1; 0x81; 0x2C] in
  let i := Instruction.UnaryF UnaryFloatOp.Neg 1 300 in
  decode_instruction data (λ _, true) 0%nat = (Ok i, 5%nat) ∧
  decode_instruction ((encode_instruction i [9]).1 ++ [7]) (λ _, true) 1%nat =
    (Ok i, length (encode_instruction i [9]).1).
Proof.
  intros data i. split; [by vm_compute|].
  pose proof (reencode_stable (λ _, true) data 0%nat 5%nat i [9] [7] ltac:(by repeat constructor)
    ltac:(by vm_compute) ltac:(by vm_compute) eq_refl ltac:(done)) as H.
  destruct (encode_instruction i [9]) as [out n]. by apply H.
Defined.

(** A nursery whose kind byte is unknown decodes to an instruction without its
    operands: encoding it writes the opcode only, and the decoder then takes the
    next instruction for the operands of this one. *)
Theorem nursery_config_desynchronises :
  let data := [Opcode.to_byte Opcode.NurseryConfig; 1; 9; 2; Opcode.to_byte Opcode.Nop] in
  decode_instructions data (λ _, true) =
    Ok [Instruction.Raw Opcode.NurseryConfig []; Instruction.Nop] ∧
  encode_instructions [Instruction.Raw Opcode.NurseryConfig []; Instruction.Nop] [] =
    ([Opcode.to_byte Opcode.NurseryConfig; Opcode.to_byte Opcode.Nop], 2%nat) ∧
  decode_instructions [Opcode.to_byte Opcode.NurseryConfig; Opcode.to_byte Opcode.Nop] (λ _, true) =
    Err (Failed (UnexpectedEof 2 1)).
Proof. split_and!; by vm_compute. Qed.
