(* ===== verification/InstructionTotal.v ===== *)
(** * The instruction decoder on arbitrary input

    On every input, well-formed or not, the decoder answers within the input: an
    instruction that is decoded took at least one byte, so that the sequential
    decoder ends; the panics are those of the type references. *)

From stdpp Require Import gmap.
From S2P Require Import Prelude Words Encoding EncodingFacts Codec TypeRefs TypeRefFacts.
From S2P Require Import Opcodes InstructionOk Instruction InstructionEncode InstructionDecode.
From S2P Require Import InstructionFacts.

Section total.
Context (data : bytes) (may_panic : Prop).

Abbreviation total_from := (total_from data may_panic).

Lemma total_any {A} low (d : decoder A) : total_from low 1 d → total_from low 0 d.
Proof. intros H. eapply total_weaken; [exact H|lia..]. Qed.

Lemma total_map {A B} low (f : A → B) (d : decoder A) :
  total_from low 0 d → total_from low 0 (f <$> d).
Proof. intros H. apply total_step; [exact H|]. intros. apply total_ret. Qed.

Lemma total_byte low : total_from low 0 (decode_u8 data).
Proof. apply total_any, total_u8. Qed.

Lemma total_reg low : total_from low 1 (decode_reg data).
Proof.
  unfold decode_reg. apply total_u8_bind. intros b _. apply total_if; intros _; [apply total_ret|].
  apply total_step; [apply total_byte|]. intros. apply total_ret.
Qed.

Lemma total_signed low : total_from low 1 (decode_signed_varint data).
Proof. apply (total_bind _ _ _ 1 0); [apply total_varint|]. intros. apply total_ret. Qed.

Lemma total_loop {A} low (d : decoder A) count :
  total_from low 1 d → total_from low 0 (times data d count).
Proof. intros H. apply total_times; [done|]. unfold loop_fuel. lia. Qed.

Lemma total_reg_vec low : total_from low 0 (decode_reg_vec data).
Proof. apply total_step; [apply total_varint_0|]. intros n. apply total_loop, total_reg. Qed.

Lemma total_optional low : total_from low 0 (decode_optional_reg data).
Proof.
  apply total_step; [apply total_byte|]. intros b. apply total_if; intros _; [apply total_ret|].
  apply total_step; [apply total_any, total_reg|]. intros. apply total_ret.
Qed.

Lemma total_range low : total_from low 0 (decode_reg_range data).
Proof.
  apply total_step; [apply total_any, total_reg|]. intros r.
  apply total_step; [apply total_byte|]. intros. apply total_ret.
Qed.

Lemma total_bytes low : total_from low 0 (decode_bytes data).
Proof.
  apply total_step; [|intros [start len]; apply total_ret].
  apply total_step; [apply total_varint_0|]. intros len. apply total_here. intros start Ho.
  destruct (Z.ltb_spec (Z.of_nat (length data) - Z.of_nat start) len).
  - by apply (total_fail _ _ low).
  - apply (total_seek _ _ low); [lia..|apply total_ret].
Qed.

Lemma total_fixed low n : total_from low 0 (decode_fixed data n).
Proof.
  intros offset Ho. unfold total_at, decode_fixed. rewrite (proj2 (Nat.leb_le _ _)) by lia.
  cbn [mbind option_bind]. destruct (Nat.leb_spec n (length (drop offset data))); [|split; [lia|done]].
  rewrite length_drop in *. lia.
Qed.

Lemma total_hint low : total_from low 0 (decode_type_hint data).
Proof.
  intros offset Ho. unfold total_at, decode_type_hint. destruct (data !! offset) eqn:E; [|lia].
  apply lookup_lt_Some in E. lia.
Qed.

Lemma total_registers low n : total_from low 0 (decode_extended_reg_operands data n).
Proof.
  induction n as [|n IH]; cbn [decode_extended_reg_operands]; [apply total_ret|].
  apply total_step; [apply total_byte|]. intros b. apply total_if; intros _.
  - apply total_step; [apply total_byte|]. intros c. apply total_step; [exact IH|]. intros. apply total_ret.
  - apply total_step; [exact IH|]. intros. apply total_ret.
Qed.

Lemma total_case low : total_from low 1 (decode_case data).
Proof.
  apply (total_bind _ _ _ 1 0); [apply (total_bind _ _ _ 1 0); [apply total_varint|intros; apply total_ret]|].
  intros. apply total_step; [apply total_map, total_any, total_signed|]. intros. apply total_ret.
Qed.

Lemma total_ok_or {A} low (o : option A) e : total_from low 0 (ok_or o e).
Proof. destruct o; [apply total_ret|apply total_fail]. Qed.

Lemma total_cast {A B} low (f : A → B) (d : decoder A) :
  total_from low 1 d → total_from low 1 (f <$> d).
Proof. intros H. apply (total_bind _ _ _ 1 0); [exact H|]. intros. apply total_ret. Qed.
End total.

Section instruction.
Context (data : bytes) (with_capacity : Z → bool) (may_panic : Prop).
Context (Hcapacity : ∀ n, with_capacity n = false → may_panic).
Context (Hlegacy : 0x09 ∈ data → may_panic).

Lemma total_type low : total_from data may_panic low 1 (decode_type_ref data with_capacity).
Proof. unfold decode_type_ref. apply total_fuel; [done..|lia]. Qed.

Lemma total_presence low m : total_from data may_panic low 1 (decode_presence data m).
Proof.
  apply total_u8_bind. intros b _. repeat case_match; first [apply total_ret|apply total_fail].
Qed.

Lemma total_capture low : total_from data may_panic low 1 (decode_capture_type data with_capacity).
Proof.
  apply (total_bind _ _ _ 1 0); [apply total_presence|]. intros b. apply total_if; intros _; [|apply total_ret].
  apply total_map, total_any, total_type.
Qed.
End instruction.

(** By the head of the decoder: fields, loops that read at least a byte, steps. *)
Ltac total_item Hcap Hleg :=
  lazymatch goal with
  | |- TypeRefFacts.total_from _ _ _ _ (decode_reg _) => apply total_reg
  | |- TypeRefFacts.total_from _ _ _ _ (decode_u8 _) => apply total_u8
  | |- TypeRefFacts.total_from _ _ _ _ (decode_varint _) => apply total_varint
  | |- TypeRefFacts.total_from _ _ _ _ (decode_signed_varint _) => apply total_signed
  | |- TypeRefFacts.total_from _ _ _ _ (decode_case _) => apply total_case
  | |- TypeRefFacts.total_from _ _ _ _ (decode_presence _ _) => apply total_presence
  | |- TypeRefFacts.total_from _ _ _ _ (decode_type_ref _ _) => exact (total_type _ _ _ Hcap Hleg _)
  | |- TypeRefFacts.total_from _ _ _ _ (decode_capture_type _ _) => exact (total_capture _ _ _ Hcap Hleg _)
  | |- TypeRefFacts.total_from _ _ _ _ (_ <$> _) => apply total_cast; total_item Hcap Hleg
  end.

Ltac total_arm Hcap Hleg :=
  cbv beta zeta;
  lazymatch goal with
  | |- TypeRefFacts.total_from _ _ _ _ (_ ≫= _) =>
      apply total_step; [total_arm Hcap Hleg|intros; total_arm Hcap Hleg]
  | |- TypeRefFacts.total_from _ _ _ _ (if _ then _ else _) =>
      apply total_if; intros _; total_arm Hcap Hleg
  | |- TypeRefFacts.total_from _ _ _ _ (mret _) => apply total_ret
  | |- TypeRefFacts.total_from _ _ _ _ (fail _) => apply total_fail
  | |- TypeRefFacts.total_from _ _ _ _ (no_wire_decoding _) => apply total_fail
  | |- TypeRefFacts.total_from _ _ _ _ (ok_or _ _) => apply total_ok_or
  | |- TypeRefFacts.total_from _ _ _ _ (decode_reg_vec _) => apply total_reg_vec
  | |- TypeRefFacts.total_from _ _ _ _ (decode_optional_reg _) => apply total_optional
  | |- TypeRefFacts.total_from _ _ _ _ (decode_reg_range _) => apply total_range
  | |- TypeRefFacts.total_from _ _ _ _ (decode_bytes _) => apply total_bytes
  | |- TypeRefFacts.total_from _ _ _ _ (decode_type_hint _) => apply total_hint
  | |- TypeRefFacts.total_from _ _ _ _ (decode_extended_reg_operands _ _) => apply total_registers
  | |- TypeRefFacts.total_from _ _ _ _ (decode_f32 _) => apply total_map, total_fixed
  | |- TypeRefFacts.total_from _ _ _ _ (decode_f64 _) => apply total_map, total_fixed
  | |- TypeRefFacts.total_from _ _ _ _ (times _ _ _) => apply total_loop; total_item Hcap Hleg
  | |- TypeRefFacts.total_from _ _ _ _ _ => apply total_any; total_item Hcap Hleg
  end.

Section arms.
Context (data : bytes) (with_capacity : Z → bool) (may_panic : Prop).
Context (Hcap : ∀ n, with_capacity n = false → may_panic).
Context (Hleg : 0x09 ∈ data → may_panic).

Lemma total_permission operands low b d :
  decode_permission_instruction b operands = Some d →
  total_from operands False low 0 d.
Proof.
  unfold decode_permission_instruction.
  destruct (TensorExtSubOpcode.from_byte b) as [[]|]; intros [= <-]; total_arm I I.
Qed.

Lemma total_carrier low b : total_from data may_panic low 0 (decode_tensor_carrier data b).
Proof.
  unfold decode_tensor_carrier. apply total_step; [apply total_bytes|]. intros operands. cbv zeta.
  apply total_if; intros _; [|apply total_ret].
  destruct operands as [|e operands]; [apply total_ret|]. cbn [head].
  destruct (decode_permission_instruction e (e :: operands)) as [d|] eqn:E; [|apply total_ret].
  pose proof (total_permission _ 0 _ _ E 1%nat) as H. unfold total_at in H.
  destruct (d 1%nat) as [[i|[err|]|] o].
  - apply total_step; [apply (total_ret data may_panic low i)|]. intros decoded.
    apply total_if; intros _; [apply total_ret|]. apply total_here. intros offset Ho.
    by apply (total_fail data may_panic low).
  - apply total_step; [apply (total_fail data may_panic low 0 err)|]. intros decoded.
    apply total_if; intros _; [apply total_ret|]. apply total_here. intros offset Ho.
    by apply (total_fail data may_panic low).
  - exfalso. apply H. cbn [length]. lia.
  - exfalso. apply H. cbn [length]. lia.
Qed.

Lemma total_tensor_ext low b ext :
  TensorExtSubOpcode.from_byte b = Some ext →
  total_from data may_panic low 0 (decode_tensor_ext data b ext).
Proof.
  intros E. destruct ext; cbn [decode_tensor_ext]; unfold decode_permission_instruction; rewrite ?E;
    cbn [default from_option id]; total_arm Hcap Hleg.
Qed.

Lemma total_tensor_sections low b sub_opcode :
  total_from data may_panic low 0
    (default (fail (InvalidOpcode b)) (first_some sub_opcode (tensor_sections data))).
Proof.
  destruct sub_opcode; cbn [default from_option id first_some tensor_sections decode_tensor_pool
    decode_tensor_registers tensor_register_count decode_tensor_decompositions decode_tensor_elements
    decode_tensor_algebra fmap option_fmap option_map];
    total_arm Hcap Hleg.
Qed.

Lemma total_tensor_extended low : total_from data may_panic low 0 (decode_tensor_extended data).
Proof.
  apply total_step; [apply total_byte|]. intros b. apply total_if; intros _; [apply total_carrier|].
  destruct (TensorSubOpcode.from_byte b); [apply total_tensor_sections|].
  destruct (TensorExtSubOpcode.from_byte b) eqn:E; [by apply total_tensor_ext|apply total_fail].
Qed.

Lemma total_closure low witnessed :
  total_from data may_panic low 0 (decode_closure data with_capacity witnessed).
Proof. unfold decode_closure, decode_lexical_types. total_arm Hcap Hleg. Qed.

Lemma total_extended low : total_from data may_panic low 0 (decode_extended data with_capacity).
Proof.
  apply total_step; [apply total_byte|]. intros b.
  destruct (ExtendedSubOpcode.from_byte b) as [kind|]; [|apply total_fail].
  destruct kind; cbn [decode_extended_kind script_operands]; try apply total_closure; total_arm Hcap Hleg.
Qed.

Lemma total_opcode low opcode :
  total_from data may_panic low 0 (decode_opcode data with_capacity opcode).
Proof.
  destruct opcode;
    lazymatch goal with
    | |- TypeRefFacts.total_from _ _ _ _ (decode_opcode _ _ Opcode.TensorExtended) => apply total_tensor_extended
    | |- TypeRefFacts.total_from _ _ _ _ (decode_opcode _ _ Opcode.Extended) => apply total_extended
    | |- _ => unfold_decoder; total_arm Hcap Hleg
    end.
Qed.

Lemma total_instruction low :
  total_from data may_panic low 1 (decode_instruction data with_capacity).
Proof.
  apply total_u8_bind. intros b _. apply total_if; intros _; [apply total_fail|apply total_opcode].
Qed.
End arms.

(** ** Sequences *)
Section sequence.
Context (data : bytes) (with_capacity : Z → bool) (may_panic : Prop).
Context (Hcap : ∀ n, with_capacity n = false → may_panic).
Context (Hleg : 0x09 ∈ data → may_panic).

(** A round reads at least a byte, so the fuel of one unit per byte is enough. *)
Lemma total_while fuel low :
  (length data < fuel + low)%nat → total_from data may_panic low 0 (decode_while data with_capacity fuel).
Proof.
  revert low. induction fuel as [|fuel IH]; intros low Hf offset Ho; [lia|].
  unfold total_at. cbn [decode_while]. destruct (offset <? length data)%nat; [|cbn; lia].
  assert (H : total_from data may_panic low (1 + (0 + 0))
    (instr ← decode_instruction data with_capacity; l ← decode_while data with_capacity fuel;
     mret (instr :: l))).
  { apply total_bind; [by apply total_instruction|]. intros i.
    apply total_bind; [apply IH; lia|]. intros l. apply total_ret. }
  exact (total_weaken _ _ _ low _ 0 _ H ltac:(lia) ltac:(lia) offset Ho).
Qed.

(** Every instruction took a byte, and the loop stops at the end of the input only. *)
Lemma while_length fuel offset l offset' :
  (offset ≤ length data)%nat →
  decode_while data with_capacity fuel offset = (Ok l, offset') →
  offset' = length data ∧ (offset + length l ≤ length data)%nat.
Proof.
  revert offset l. induction fuel as [|fuel IH]; intros offset l Ho; [by intros [=]|].
  cbn [decode_while]. destruct (Nat.ltb_spec offset (length data)); [|intros [= <- <-]; cbn; lia].
  pose proof (total_instruction data with_capacity may_panic Hcap Hleg offset offset ltac:(lia)) as Hi.
  unfold total_at in Hi. unfold mbind, decoder_bind.
  destruct (decode_instruction data with_capacity offset) as [[i| |] o]; [|by intros [=]..].
  destruct (decode_while data with_capacity fuel o) as [[l'| |] o'] eqn:E; [|by intros [=]..].
  intros [= <- <-]. apply IH in E as [-> E]; [|lia]. cbn [length]. split; [done|lia].
Qed.
End sequence.

(** ** Theorems *)

(** One instruction at a place of any input. *)
Lemma decode_instruction_total (with_capacity : Z → bool) (data : bytes) (offset : nat) :
  let may_panic := (∃ n, with_capacity n = false) ∨ 0x09 ∈ data in
  (offset ≤ length data)%nat →
  let '(r, offset') := decode_instruction data with_capacity offset in
  (offset ≤ offset' ≤ length data)%nat ∧
  match r with
  | Ok _ => (offset < offset')%nat
  | Err (Failed _) => True
  | Err Panicked => may_panic
  | Gas _ => False
  end.
Proof.
  intros may_panic Ho.
  assert (Hcap : ∀ n, with_capacity n = false → may_panic) by (subst may_panic; eauto).
  assert (Hleg : 0x09 ∈ data → may_panic) by (subst may_panic; eauto).
  pose proof (total_instruction data with_capacity may_panic Hcap Hleg 0 offset ltac:(lia)) as H.
  unfold total_at in H. destruct (decode_instruction _ _ _) as [[|[]|] o]; naive_solver lia.
Qed.

(** C32. On every input, well-formed or not, the decoders answer without reading past
    the end.  At every place an instruction that is decoded took at least a byte;
    the sequential decoder ends, with no more instructions than bytes or with an
    error.  The panics are those of the type references, a capacity that the
    allocator refuses and the tag of the legacy projection: no opcode adds
    another. *)
Theorem decode_total (with_capacity : Z → bool) (data : bytes) :
  let may_panic := (∃ n, with_capacity n = false) ∨ 0x09 ∈ data in
  (∀ offset : nat, (offset ≤ length data)%nat →
    let '(r, offset') := decode_instruction data with_capacity offset in
    (offset ≤ offset' ≤ length data)%nat ∧
    match r with
    | Ok _ => (offset < offset')%nat
    | Err (Failed _) => True
    | Err Panicked => may_panic
    | Gas _ => False
    end) ∧
  match decode_instructions data with_capacity with
  | Ok l => (length l ≤ length data)%nat
  | Err (Failed _) => True
  | Err Panicked => may_panic
  | Gas _ => False
  end.
Proof.
  intros may_panic.
  assert (Hcap : ∀ n, with_capacity n = false → may_panic) by (subst may_panic; eauto).
  assert (Hleg : 0x09 ∈ data → may_panic) by (subst may_panic; eauto).
  split.
  - intros offset. apply decode_instruction_total.
  - pose proof (total_while data with_capacity may_panic Hcap Hleg (S (length data)) 0
      ltac:(lia) 0%nat ltac:(lia)) as H.
    unfold total_at in H. unfold decode_instructions.
    destruct (decode_while data with_capacity (S (length data)) 0%nat) as [[l|[]|] o] eqn:E; cbn [fst];
      [|naive_solver..].
    apply (while_length data with_capacity may_panic Hcap Hleg) in E as [_ E]; lia.
Qed.
