(* ===== verification/JumpFixup.v ===== *)
(** * Jump offsets

    The end of [verum_vbc/src/bytecode.rs]: jumps count instructions in the code
    generator and bytes in the encoded program.  [fixup_jump_offsets] computes
    the second from the first, in passes, because the size of a jump depends on
    its offset; [jump_offsets_to_instr_indices] is the way back.  [idx as i32] and
    the sums of [i32] wrap, as in a build of the release profile; a [usize] that is
    a position in a vector is a [nat]. *)

From stdpp Require Import list.
From S2P Require Import Prelude Words Encoding TypeRefs Opcodes Instruction InstructionEncode.

(** The instructions both functions convert, with the field they convert. *)
Definition jump_offset (instr : Instruction.t) : option i32 :=
  match instr with
  | Instruction.Jmp offset | Instruction.JmpIf _ offset | Instruction.JmpNot _ offset
  | Instruction.JmpCmp _ _ _ offset => Some offset
  | Instruction.CtxProvide _ _ body_offset => Some body_offset
  | Instruction.TryBegin handler_offset => Some handler_offset
  | _ => None
  end.

Definition set_jump_offset (v : i32) (instr : Instruction.t) : Instruction.t :=
  match instr with
  | Instruction.Jmp _ => Instruction.Jmp v
  | Instruction.JmpIf cond _ => Instruction.JmpIf cond v
  | Instruction.JmpNot cond _ => Instruction.JmpNot cond v
  | Instruction.JmpCmp op a b _ => Instruction.JmpCmp op a b v
  | Instruction.CtxProvide ctx_type value _ => Instruction.CtxProvide ctx_type value v
  | Instruction.TryBegin _ => Instruction.TryBegin v
  | _ => instr
  end.

(** [x + y] on [i32]. *)
Definition add_i32 (x y : Z) : Z := to_signed 32 (x + y).
Definition sub_i32 (x y : Z) : Z := to_signed 32 (x - y).

(** The vector of the start of every instruction, and of the end. *)
Fixpoint byte_offsets (current : nat) (instructions : list Instruction.t) : list nat :=
  match instructions with
  | [] => [current]
  | instr :: instructions => current :: byte_offsets (current + instruction_size instr) instructions
  end.

(** ** From bytes to instructions *)

(** [binary_search] on the increasing vector: the place of the element, if it
    has one. *)
Definition byte_to_idx (offsets : list nat) (byte : Z) : option Z :=
  if byte <? 0 then None
  else (λ found, to_signed 32 (Z.of_nat found.1)) <$> list_find (eq (Z.to_nat byte)) offsets.

Definition convert (offsets : list nat) (idx : nat) (instr : Instruction.t) : Instruction.t :=
  match jump_offset instr with
  | Some byte_off =>
      let instr_end := Z.of_nat (default 0%nat (offsets !! idx) + instruction_size instr) in
      match byte_to_idx offsets (instr_end + byte_off) with
      | Some t => set_jump_offset (sub_i32 t (to_signed 32 (Z.of_nat idx))) instr
      | None => instr
      end
  | None => instr
  end.

Definition jump_offsets_to_instr_indices (instructions : list Instruction.t) : list Instruction.t :=
  if is_empty instructions then instructions
  else imap (convert (byte_offsets 0 instructions)) instructions.

(** ** From instructions to bytes *)

(** The index of the target, as [usize]. *)
Definition jump_target (idx : nat) (instr : Instruction.t) : option Z :=
  (λ offset, wrap 64 (add_i32 (to_signed 32 (Z.of_nat idx)) offset)) <$> jump_offset instr.

(** One instruction of a pass, and whether its offset changed. *)
Definition fixup_instr (offsets : list nat) (target : option Z) (idx : nat) (instr : Instruction.t) :
    Instruction.t * bool :=
  let instr_end_byte := (default 0%nat (offsets !! idx) + instruction_size instr)%nat in
  match target with
  | Some target_idx =>
      if target_idx <? Z.of_nat (length offsets) then
        let target_byte := default 0%nat (offsets !! Z.to_nat target_idx) in
        let new_offset :=
          sub_i32 (to_signed 32 (Z.of_nat target_byte)) (to_signed 32 (Z.of_nat instr_end_byte)) in
        match jump_offset instr with
        | Some offset =>
            if offset =? new_offset then (instr, false)
            else (set_jump_offset new_offset instr, true)
        | None => (instr, false)
        end
      else (instr, false)
  | None => (instr, false)
  end.

Definition fixup_pass (targets : list (option Z)) (instructions : list Instruction.t) :
    list Instruction.t * bool :=
  let offsets := byte_offsets 0 instructions in
  let results := imap (λ idx instr, fixup_instr offsets (mjoin (targets !! idx)) idx instr) instructions in
  (results.*1, existsb snd results).

(** [for iteration in 0..10], left when a pass changes nothing. *)
Fixpoint fixup_loop (iterations : nat) (targets : list (option Z)) (instructions : list Instruction.t) :
    list Instruction.t :=
  match iterations with
  | O => instructions
  | S iterations =>
      let '(instructions, changed) := fixup_pass targets instructions in
      if changed then fixup_loop iterations targets instructions else instructions
  end.

Definition jump_targets (instructions : list Instruction.t) : list (option Z) :=
  imap jump_target instructions.

Definition fixup_jump_offsets (instructions : list Instruction.t) : list Instruction.t :=
  fixup_loop 10 (jump_targets instructions) instructions.

Definition encode_instructions_with_fixup (instructions : list Instruction.t) (output : bytes) :
    bytes * nat :=
  encode_instructions (fixup_jump_offsets instructions) output.
