(* ===== verification/JumpFixupFacts.v ===== *)
(** * Jump offsets: facts

    Once a pass changes nothing, every jump of the encoded program lands on the
    instruction it named; short jumps need two passes; ten passes are not always
    enough. *)

From stdpp Require Import gmap list.
From S2P Require Import Prelude Words Encoding EncodingFacts Codec TypeRefs TypeRefFacts.
From S2P Require Import Opcodes InstructionOk Instruction InstructionEncode InstructionDecode.
From S2P Require Import InstructionFacts InstructionRoundtrip.
From S2P Require Import JumpFixup.

(** ** The field of a jump *)

Lemma jump_offset_set v i : jump_offset (set_jump_offset v i) = (λ _, v) <$> jump_offset i.
Proof. by destruct i. Qed.

Lemma set_jump_offset_twice v w i : set_jump_offset v (set_jump_offset w i) = set_jump_offset v i.
Proof. by destruct i. Qed.

Lemma set_jump_offset_same v i : jump_offset i = Some v → set_jump_offset v i = i.
Proof. by destruct i; intros [= ->]. Qed.

Lemma set_jump_offset_other v i : jump_offset i = None → set_jump_offset v i = i.
Proof. by destruct i. Qed.

Lemma jump_offset_ok i v : instruction_ok i = true → jump_offset i = Some v → i_ok 32 v = true.
Proof. destruct i; intros Hok [= <-]; cbn [instruction_ok] in Hok; split_ok; assumption. Qed.

Lemma set_jump_offset_ok i v :
  instruction_ok i = true → i_ok 32 v = true → instruction_ok (set_jump_offset v i) = true.
Proof.
  intros Hok Hv. destruct i; cbn [set_jump_offset]; try exact Hok; cbn [instruction_ok] in *;
    split_ok; rewrite ?andb_true_iff; split_and?; assumption.
Qed.

Lemma i_ok_is w v : i_ok w v = true ↔ is_i w v.
Proof. unfold i_ok, is_i. by rewrite andb_true_iff, Z.leb_le, Z.ltb_lt. Qed.

(** The size of a jump is that of its offset, up to a constant. *)
Lemma signed_size e v :
  length ((e |> put_signed_varint v) []) = (length (e []) + length (varint_bytes (zigzag v)))%nat.
Proof.
  unfold then_write, put_signed_varint, encode_signed_varint.
  by rewrite encode_varint_writes, length_app.
Qed.

Lemma jump_size i off :
  jump_offset i = Some off →
  ∃ h, ∀ v, instruction_size (set_jump_offset v i) = (h + length (varint_bytes (zigzag v)))%nat.
Proof.
  intros Hj.
  assert (H : ∃ e, ∀ v, instruction_bytes (set_jump_offset v i) = (e |> put_signed_varint v) []).
  { destruct i; try discriminate Hj.
    - by exists (push_op Opcode.Jmp).
    - by exists (push_op Opcode.JmpIf |> encode_reg cond).
    - by exists (push_op Opcode.JmpNot |> encode_reg cond).
    - by exists (push_op (jmp_cmp_op_to_opcode op) |> encode_reg a |> encode_reg b).
    - by exists (push_op Opcode.CtxProvide |> put_varint ctx_type |> encode_reg value).
    - by exists (push_op Opcode.TryBegin). }
  destruct H as [e H]. exists (length (e [])). intros v.
  by rewrite instruction_size_bytes, H, signed_size.
Qed.

(** ** Positions *)

(** The place of an instruction in the encoded program. *)
Definition position (l : list Instruction.t) (k : nat) : nat := length (program_bytes (take k l)).

Lemma position_S l k i : l !! k = Some i → position l (S k) = (position l k + instruction_size i)%nat.
Proof.
  intros E. unfold position. rewrite (take_S_r _ _ _ E), program_bytes_app, length_app.
  unfold program_bytes at 2. cbn [map concat]. by rewrite app_nil_r, instruction_size_bytes.
Qed.

Lemma position_0 l : position l 0 = 0%nat.
Proof. done. Qed.

Lemma position_cons i l k : position (i :: l) (S k) = (instruction_size i + position l k)%nat.
Proof.
  unfold position. cbn [take].
  change (program_bytes (i :: take k l)) with (instruction_bytes i ++ program_bytes (take k l)).
  by rewrite length_app, instruction_size_bytes.
Qed.

Lemma position_all l k : (length l ≤ k)%nat → position l k = length (program_bytes l).
Proof. intros H. unfold position. by rewrite take_ge. Qed.

Lemma position_lt l j k : (j < k ≤ length l)%nat → (position l j < position l k)%nat.
Proof.
  intros [Hj Hk]. induction k as [|k IH]; [lia|].
  destruct (lookup_lt_is_Some_2 l k ltac:(lia)) as [i E]. rewrite (position_S _ _ _ E).
  pose proof (instruction_size_pos i). destruct (decide (j = k)) as [->|]; [lia|].
  specialize (IH ltac:(lia) ltac:(lia)). lia.
Qed.

Lemma position_le l j k : (j ≤ k)%nat → (position l j ≤ position l k)%nat.
Proof.
  intros H. destruct (decide (k ≤ length l)%nat).
  - destruct (decide (j = k)) as [->|]; [done|]. pose proof (position_lt l j k ltac:(lia)). lia.
  - rewrite (position_all l k) by lia. unfold position.
    rewrite <- (take_drop j l) at 2. rewrite program_bytes_app, length_app. lia.
Qed.

Lemma length_byte_offsets current l : length (byte_offsets current l) = S (length l).
Proof. revert current. induction l as [|i l IH]; intros current; cbn; [done|]. by rewrite IH. Qed.

Lemma byte_offsets_lookup current l k :
  (k ≤ length l)%nat → byte_offsets current l !! k = Some (current + position l k)%nat.
Proof.
  revert current k. induction l as [|i l IH]; intros current [|k] Hk; cbn in Hk; try lia.
  1,2: by cbn; rewrite Nat.add_0_r.
  cbn [byte_offsets]. change ((current :: ?t) !! S k) with (t !! k). rewrite IH by lia. f_equal.
  unfold position. cbn [take]. change (program_bytes (i :: ?l)) with (instruction_bytes i ++ program_bytes l).
  rewrite length_app, instruction_size_bytes. lia.
Qed.

(** The vector increases, so the search finds a position in one place. *)
Lemma byte_offsets_find l k :
  (k ≤ length l)%nat →
  list_find (eq (position l k)) (byte_offsets 0 l) = Some (k, position l k).
Proof.
  intros Hk. apply list_find_Some. split_and!; [by apply byte_offsets_lookup|done|].
  intros j y Hj Hlt <-. rewrite byte_offsets_lookup in Hj by lia.
  pose proof (position_lt l j k ltac:(lia)). injection Hj as Hj. lia.
Qed.

(** ** A pass *)

(** What passes change: the offset of a jump, to a 32-bit value. *)
Definition moved (i i' : Instruction.t) : Prop := ∃ v, is_i 32 v ∧ i' = set_jump_offset v i.

Definition offsets_in_range (l : list Instruction.t) : Prop :=
  ∀ i off, i ∈ l → jump_offset i = Some off → is_i 32 off.

Lemma moved_trans i i1 i2 : moved i i1 → moved i1 i2 → moved i i2.
Proof. intros (v & _ & ->) (w & Hw & ->). exists w. by rewrite set_jump_offset_twice. Qed.

Lemma moved_refl i : (∀ off, jump_offset i = Some off → is_i 32 off) → moved i i.
Proof.
  intros H. destruct (jump_offset i) as [off|] eqn:E.
  - exists off. split; [by apply H|]. by rewrite set_jump_offset_same.
  - exists 0. split; [done|]. by rewrite set_jump_offset_other.
Qed.

Lemma moved_in_range i i' off : moved i i' → jump_offset i' = Some off → is_i 32 off.
Proof. intros (v & Hv & ->). rewrite jump_offset_set. by destruct (jump_offset i); intros [= <-]. Qed.

Lemma fixup_instr_moved offsets target idx i :
  (∀ off, jump_offset i = Some off → is_i 32 off) → moved i (fixup_instr offsets target idx i).1.
Proof.
  intros H%moved_refl. unfold fixup_instr. repeat case_match; cbn [fst]; try exact H.
  eexists. split; [|done]. by apply to_signed_range.
Qed.

Lemma fixup_pass_moved targets l0 l :
  Forall2 moved l0 l → Forall2 moved l0 (fixup_pass targets l).1.
Proof.
  intros H. apply Forall2_same_length_lookup. cbn [fixup_pass fst].
  pose proof (Forall2_length _ _ _ H) as Hl. split; [by rewrite length_fmap, length_imap|].
  intros k i i' Hi. rewrite list_lookup_fmap, list_lookup_imap.
  destruct (l !! k) as [i1|] eqn:E; [|by intros [=]]. intros [= <-].
  pose proof (Forall2_lookup_lr _ _ _ _ _ _ H Hi E) as Hm. eapply moved_trans; [exact Hm|].
  apply fixup_instr_moved. intros off. by apply (moved_in_range i).
Qed.

Lemma fixup_loop_moved n targets l0 l :
  Forall2 moved l0 l → Forall2 moved l0 (fixup_loop n targets l).
Proof.
  revert l. induction n as [|n IH]; intros l H; cbn [fixup_loop]; [done|].
  destruct (fixup_pass targets l) as [l' changed] eqn:E.
  assert (H' : Forall2 moved l0 l') by (change l' with (l', changed).1; rewrite <- E; by apply fixup_pass_moved).
  destruct changed; auto.
Qed.

Lemma fixup_moved l : offsets_in_range l → Forall2 moved l (fixup_jump_offsets l).
Proof.
  intros H. apply fixup_loop_moved, Forall_Forall2_diag, Forall_forall.
  intros i Hi. apply moved_refl. intros off. by apply H.
Qed.

(** The target is in the program, or its end. *)
Definition targets_inside (l : list Instruction.t) : Prop :=
  ∀ idx i off, l !! idx = Some i → jump_offset i = Some off →
    0 ≤ Z.of_nat idx + off ≤ Z.of_nat (length l).

Lemma jump_targets_lookup l idx i off :
  l !! idx = Some i → jump_offset i = Some off → targets_inside l → Z.of_nat (length l) < 2 ^ 31 →
  mjoin (jump_targets l !! idx) = Some (Z.of_nat idx + off).
Proof.
  intros Hi Hj Ht Hn. specialize (Ht idx i off Hi Hj). pose proof (lookup_lt_Some _ _ _ Hi).
  unfold jump_targets. rewrite list_lookup_imap, Hi. unfold jump_target.
  cbn [fmap option_fmap option_map]. rewrite Hj. cbn. f_equal. unfold add_i32.
  change (2 ^ 31) with (2 ^ (32 - 1)) in Hn.
  rewrite (to_signed_small 32 (Z.of_nat idx)) by lia.
  rewrite to_signed_small by lia. apply wrap_id. unfold is_u. change (2 ^ (32 - 1)) with 2147483648 in *. lia.
Qed.

(** The byte distance of a jump, from its end to its target. *)
Definition distance (l : list Instruction.t) (idx target : nat) : Z :=
  Z.of_nat (position l target) - Z.of_nat (position l (S idx)).

Lemma fixup_instr_distance l t idx i off :
  l !! idx = Some i → jump_offset i = Some off → (t ≤ length l)%nat →
  Z.of_nat (length (program_bytes l)) < 2 ^ 31 →
  fixup_instr (byte_offsets 0 l) (Some (Z.of_nat t)) idx i =
    if off =? distance l idx t then (i, false) else (set_jump_offset (distance l idx t) i, true).
Proof.
  intros Hi Hj Ht Hn. pose proof (lookup_lt_Some _ _ _ Hi). unfold fixup_instr.
  rewrite length_byte_offsets, (proj2 (Z.ltb_lt _ _)), Nat2Z.id, Hj by lia.
  rewrite !byte_offsets_lookup by lia. cbn [default from_option id Nat.add].
  rewrite <- (position_S _ _ _ Hi). unfold sub_i32, distance.
  pose proof (position_le l t (length l) ltac:(lia)). pose proof (position_le l (S idx) (length l) ltac:(lia)).
  rewrite (position_all l (length l)) in * by lia. change (2 ^ 31) with (2 ^ (32 - 1)) in Hn.
  rewrite (to_signed_small 32 (Z.of_nat (position l t))) by lia.
  rewrite (to_signed_small 32 (Z.of_nat (position l (S idx)))) by lia.
  rewrite to_signed_id; [done|done|]. unfold is_i. lia.
Qed.

(** ** Programs that settle *)

(** One more pass would change nothing. *)
Definition settled (l : list Instruction.t) : bool :=
  negb (fixup_pass (jump_targets l) (fixup_jump_offsets l)).2.

Lemma existsb_lookup {A} (f : A → bool) l k x : existsb f l = false → l !! k = Some x → f x = false.
Proof.
  revert k. induction l as [|y l IH]; intros [|k] H E; try discriminate E; cbn in H;
    apply orb_false_iff in H as [H1 H2]; [by injection E as <-|by apply (IH k)].
Qed.

Section settled.
Context (l : list Instruction.t).
Context (Hin : targets_inside l) (Hrange : offsets_in_range l) (Hn : Z.of_nat (length l) < 2 ^ 31).
Let l' := fixup_jump_offsets l.

Lemma fixup_length : length l' = length l.
Proof. symmetry. exact (Forall2_length _ _ _ (fixup_moved l Hrange)). Qed.

Lemma fixup_lookup idx i :
  l !! idx = Some i → ∃ v, is_i 32 v ∧ l' !! idx = Some (set_jump_offset v i).
Proof.
  intros E. destruct (Forall2_lookup_l _ _ _ _ _ (fixup_moved l Hrange) E) as (i' & E' & v & Hv & ->).
  by exists v.
Qed.

Context (Hbytes : Z.of_nat (length (program_bytes l')) < 2 ^ 31) (Hsettled : settled l = true).

Lemma settled_distance idx i off :
  l !! idx = Some i → jump_offset i = Some off →
  l' !! idx = Some (set_jump_offset (distance l' idx (Z.to_nat (Z.of_nat idx + off))) i).
Proof.
  intros Hi Hj. destruct (fixup_lookup idx i Hi) as (v & Hv & E). pose proof (Hin idx i off Hi Hj) as Ht.
  assert (Hj' : jump_offset (set_jump_offset v i) = Some v) by by rewrite jump_offset_set, Hj.
  unfold settled, fixup_pass in Hsettled. cbn [snd] in Hsettled. apply negb_true_iff in Hsettled.
  apply (existsb_lookup _ _ idx (fixup_instr (byte_offsets 0 l') (mjoin (jump_targets l !! idx)) idx
    (set_jump_offset v i))) in Hsettled;
    [|rewrite list_lookup_imap; change (fixup_jump_offsets l) with l'; by rewrite E].
  rewrite (jump_targets_lookup l idx i off) in Hsettled by done.
  rewrite <- (Z2Nat.id (Z.of_nat idx + off)) in Hsettled by lia.
  rewrite (fixup_instr_distance l' _ idx _ v) in Hsettled by (done || (rewrite fixup_length; lia)).
  rewrite E. destruct (Z.eqb_spec v (distance l' idx (Z.to_nat (Z.of_nat idx + off)))) as [<-|];
    [done|discriminate Hsettled].
Qed.
End settled.

(** Decoding at the position of an instruction. *)
Lemma decode_at with_capacity l k i :
  capacity_ok with_capacity (program_bytes l) → instruction_ok i = true → l !! k = Some i →
  decode_instruction (program_bytes l) with_capacity (position l k) = (Ok i, position l (S k)).
Proof.
  intros Hcap Hok E. pose proof (instruction_reads with_capacity _ i Hcap Hok) as R.
  assert (P : program_bytes l = program_bytes (take k l) ++ instruction_bytes i ++ program_bytes (drop (S k) l)).
  { rewrite <- (take_drop_middle _ _ _ E) at 1. by rewrite program_bytes_app. }
  unfold position at 1. rewrite (R _ _ P), (position_S _ _ _ E), instruction_size_bytes. done.
Qed.

Lemma ok_in_range l : forallb instruction_ok l = true → offsets_in_range l.
Proof.
  intros H i off Hi Hj. apply i_ok_is, (jump_offset_ok i); [|done]. by apply (forallb_elem _ l).
Qed.

Lemma fixup_ok l : forallb instruction_ok l = true → forallb instruction_ok (fixup_jump_offsets l) = true.
Proof.
  intros H. pose proof (fixup_moved l (ok_in_range l H)) as Hm. clear -H Hm.
  induction Hm as [|i i' l l' (v & Hv & ->) Hm IH]; [done|]. cbn [forallb] in *.
  apply andb_split in H as [Hi H]. by rewrite set_jump_offset_ok, IH by (done || by apply i_ok_is).
Qed.

(** C7. Once the passes have settled, the encoded program decodes to the program, up
    to the offsets, and every jump lands where it meant to: at the byte that its
    new offset reaches from its own end, the decoder finds the instruction that
    the old offset counted to, or the end of the program.  The instructions are
    encodable, the old offsets stay in the program, and program and bytes are
    below 2^31; the cases of a switch are not converted by the code and are not
    among the jumps. *)
Theorem fixup_lands (with_capacity : Z → bool) (l : list Instruction.t) :
  forallb instruction_ok l = true → targets_inside l → Z.of_nat (length l) < 2 ^ 31 →
  settled l = true →
  let '(out, n) := encode_instructions_with_fixup l [] in
  Z.of_nat n < 2 ^ 31 →
  (∀ k : nat, (k ≤ length out)%nat → with_capacity (Z.of_nat k) = true) →
  ∃ l', decode_instructions out with_capacity = Ok l' ∧ length l' = length l ∧
  ∀ idx i, l !! idx = Some i →
    match jump_offset i with
    | None => l' !! idx = Some i
    | Some off => ∃ (byte_offset : Z) (next : nat),
        let target := Z.to_nat (Z.of_nat next + byte_offset) in
        l' !! idx = Some (set_jump_offset byte_offset i) ∧
        (decode_instruction out with_capacity (length (program_bytes (take idx l')))) =
          (Ok (set_jump_offset byte_offset i), next) ∧
        0 ≤ Z.of_nat next + byte_offset ∧
        match l' !! Z.to_nat (Z.of_nat idx + off) with
        | Some j => (decode_instruction out with_capacity target).1 = Ok j
        | None => target = length out
        end
    end.
Proof.
  intros Hok Hin Hn Hs. unfold encode_instructions_with_fixup. rewrite encode_program_bytes. cbn [app].
  intros Hb Hcap. set (l' := fixup_jump_offsets l) in *. exists l'.
  pose proof (fixup_ok l Hok) as Hok'. pose proof (ok_in_range l Hok) as Hr.
  assert (Hd : ∀ k j, l' !! k = Some j →
    decode_instruction (program_bytes l') with_capacity (position l' k) = (Ok j, position l' (S k))).
  { intros k j E. apply decode_at; [done| |done]. apply (forallb_elem _ l'); [done|].
    by apply list_elem_of_lookup_2 in E. }
  split_and!.
  - pose proof (instructions_roundtrip with_capacity l' Hok') as R. rewrite encode_program_bytes in R.
    by apply R.
  - by apply fixup_length.
  - intros idx i Hi. destruct (jump_offset i) as [off|] eqn:Hj.
    + pose proof (settled_distance l Hin Hr Hn Hb Hs idx i off Hi Hj) as E. fold l' in E.
      set (t := Z.to_nat (Z.of_nat idx + off)) in *. exists (distance l' idx t), (position l' (S idx)).
      assert (Ht : Z.of_nat (position l' (S idx)) + distance l' idx t = Z.of_nat (position l' t))
        by (unfold distance; lia).
      rewrite Ht, Nat2Z.id. split_and!; [done|by apply Hd|lia|].
      destruct (l' !! t) as [j|] eqn:Ej; [by rewrite (Hd t j Ej)|].
      apply lookup_ge_None_1 in Ej. by rewrite position_all.
    + destruct (fixup_lookup l Hr idx i Hi) as (v & _ & E). fold l' in E. by rewrite set_jump_offset_other in E.
Qed.

(** A loop: a jump out of it, a conditional jump back and a handler. *)
Definition sample_loop : list Instruction.t :=
  [Instruction.TryBegin 5; Instruction.JmpNot 200 4; Instruction.LoadI 3 1000; Instruction.Nop;
   Instruction.JmpCmp CompareOp.Lt 1 2 (-2); Instruction.Jmp (-5)].

Lemma targets_inside_list l :
  forallb (λ p : nat * Instruction.t, match jump_offset p.2 with
    | Some off => (0 <=? Z.of_nat p.1 + off) && (Z.of_nat p.1 + off <=? Z.of_nat (length l))
    | None => true end) (imap pair l) = true → targets_inside l.
Proof.
  intros H idx i off Hi Hj. apply (forallb_elem _ _ (idx, i)) in H.
  - cbn [fst snd] in H. rewrite Hj in H. lia.
  - apply list_elem_of_lookup. exists idx. by rewrite list_lookup_imap, Hi.
Qed.

Lemma fixup_lands_witness :
  let out := (encode_instructions_with_fixup sample_loop []).1 in
  settled sample_loop = true ∧
  ∃ l', decode_instructions out (λ _, true) = Ok l' ∧ length l' = length sample_loop ∧
    ∃ (byte_offset : Z) (next : nat),
      l' !! 4%nat = Some (Instruction.JmpCmp CompareOp.Lt 1 2 byte_offset) ∧
      (decode_instruction out (λ _, true) (Z.to_nat (Z.of_nat next + byte_offset))).1 =
        Ok (Instruction.LoadI 3 1000).
Proof.
  intros out. split; [by vm_compute|].
  destruct (fixup_lands (λ _, true) sample_loop eq_refl
    ltac:(by apply targets_inside_list; vm_compute) ltac:(by vm_compute) ltac:(by vm_compute)
    ltac:(by vm_compute) ltac:(done)) as (l' & Hd & Hl & H).
  exists l'. split; [exact Hd|]. split; [exact Hl|].
  destruct (H 4%nat _ eq_refl) as (b & next & E & _ & _ & Ht). exists b, next. split; [exact E|].
  pose proof (H 2%nat _ eq_refl) as H2. cbn [jump_offset] in H2.
  change (Z.to_nat (Z.of_nat 4 + -2)) with 2%nat in Ht. rewrite H2 in Ht. exact Ht.
Defined.

(** ** The way back *)

Lemma byte_to_idx_position l k :
  (k ≤ length l)%nat → Z.of_nat (length l) < 2 ^ 31 →
  byte_to_idx (byte_offsets 0 l) (Z.of_nat (position l k)) = Some (Z.of_nat k).
Proof.
  intros Hk Hn. unfold byte_to_idx. rewrite (proj2 (Z.ltb_ge _ _)), Nat2Z.id by lia.
  rewrite byte_offsets_find by done. cbn [fmap option_fmap option_map fst]. f_equal.
  apply to_signed_small; [lia|]. change (2 ^ (32 - 1)) with (2 ^ 31). lia.
Qed.

(** The conversion of freshly decoded code undoes the fixup: it gives back the
    program with the instruction-level offsets. *)
Theorem fixup_inverse (l : list Instruction.t) :
  offsets_in_range l → targets_inside l → Z.of_nat (length l) < 2 ^ 31 →
  Z.of_nat (length (program_bytes (fixup_jump_offsets l))) < 2 ^ 31 → settled l = true →
  jump_offsets_to_instr_indices (fixup_jump_offsets l) = l.
Proof.
  intros Hr Hin Hn Hb Hs. pose proof (fixup_length l Hr) as Hlen.
  assert (E : imap (convert (byte_offsets 0 (fixup_jump_offsets l))) (fixup_jump_offsets l) = l).
  { apply list_eq. intros idx. rewrite list_lookup_imap. destruct (l !! idx) as [i|] eqn:Hi.
    - destruct (jump_offset i) as [off|] eqn:Hj.
      + pose proof (settled_distance l Hin Hr Hn Hb Hs idx i off Hi Hj) as Hl. rewrite Hl.
        cbn [fmap option_fmap option_map]. f_equal. set (t := Z.to_nat (Z.of_nat idx + off)) in *.
        pose proof (Hin idx i off Hi Hj) as Ht. pose proof (lookup_lt_Some _ _ _ Hi) as Hidx.
        unfold convert. rewrite jump_offset_set, Hj. cbn [fmap option_fmap option_map].
        rewrite byte_offsets_lookup by lia. cbn [default from_option id Nat.add].
        rewrite <- (position_S _ _ _ Hl). unfold distance.
        rewrite Z.add_sub_assoc, Z.add_simpl_l, byte_to_idx_position by lia.
        rewrite !set_jump_offset_twice. unfold sub_i32. change (2 ^ 31) with (2 ^ (32 - 1)) in Hn.
        rewrite (to_signed_small 32 (Z.of_nat idx)) by lia. subst t. rewrite Z2Nat.id by lia.
        rewrite Z.add_simpl_l, to_signed_id; [by apply set_jump_offset_same|done|].
        apply (Hr i); [by eapply list_elem_of_lookup_2|done].
      + destruct (fixup_lookup l Hr idx i Hi) as (v & _ & Hl). rewrite Hl, set_jump_offset_other by done.
        cbn [fmap option_fmap option_map]. f_equal. unfold convert. by rewrite Hj.
    - rewrite (lookup_ge_None_2 (fixup_jump_offsets l)); [done|]. rewrite Hlen. by apply lookup_ge_None. }
  unfold jump_offsets_to_instr_indices. destruct (is_empty _) eqn:Ee; [|exact E].
  destruct (fixup_jump_offsets l); [|discriminate Ee]. exact E.
Qed.

Lemma fixup_inverse_witness :
  settled sample_loop = true ∧
  jump_offsets_to_instr_indices (fixup_jump_offsets sample_loop) = sample_loop.
Proof.
  split; [by vm_compute|]. apply (fixup_inverse sample_loop).
  - by apply ok_in_range.
  - by apply targets_inside_list; vm_compute.
  - by vm_compute.
  - by vm_compute.
  - by vm_compute.
Defined.

(** ** Short jumps *)

(** Every jump counts, in instructions and in bytes, to a distance that one byte
    encodes. *)
Definition short_jumps (l : list Instruction.t) : Prop :=
  ∀ idx i off, l !! idx = Some i → jump_offset i = Some off →
    -64 ≤ off < 64 ∧ -64 ≤ distance l idx (Z.to_nat (Z.of_nat idx + off)) < 64.

Lemma zigzag_short v : -64 ≤ v < 64 → length (varint_bytes (zigzag v)) = 1%nat.
Proof.
  intros Hv. assert (E : forallb (λ v, (length (varint_bytes (zigzag v)) =? 1)%nat) (seqZ (-64) 128) = true)
    by by vm_compute.
  apply Nat.eqb_eq. rewrite forallb_forall in E. apply E, list_elem_of_In, elem_of_seqZ. lia.
Qed.

Lemma short_size i off v :
  jump_offset i = Some off → -64 ≤ off < 64 → -64 ≤ v < 64 →
  instruction_size (set_jump_offset v i) = instruction_size i.
Proof.
  intros Hj Ho Hv. destruct (jump_size i off Hj) as [h H]. rewrite H, zigzag_short by done.
  rewrite <- (set_jump_offset_same off i) at 1 by done. by rewrite H, zigzag_short.
Qed.

(** Equal sizes give equal distances. *)
Lemma position_sizes l l' k :
  map instruction_size l = map instruction_size l' → position l k = position l' k.
Proof.
  intros E. unfold position. by rewrite !program_bytes_length, <- !firstn_map, E.
Qed.

Section short.
Context (l : list Instruction.t).
Context (Hin : targets_inside l) (Hn : Z.of_nat (length l) < 2 ^ 31).
Context (Hbytes : Z.of_nat (length (program_bytes l)) < 2 ^ 31) (Hshort : short_jumps l).
Let targets := jump_targets l.
Let l1 := (fixup_pass targets l).1.

(** The result of the first pass. *)
Lemma first_pass idx i :
  l !! idx = Some i →
  l1 !! idx = Some match jump_offset i with
    | Some off => set_jump_offset (distance l idx (Z.to_nat (Z.of_nat idx + off))) i
    | None => i
    end.
Proof.
  intros Hi. subst l1. unfold fixup_pass. cbn [fst]. rewrite list_lookup_fmap, list_lookup_imap, Hi.
  cbn [fmap option_fmap option_map]. f_equal. destruct (jump_offset i) as [off|] eqn:Hj.
  - subst targets. rewrite (jump_targets_lookup l idx i off) by done. pose proof (Hin idx i off Hi Hj).
    rewrite <- (Z2Nat.id (Z.of_nat idx + off)) at 1 by lia.
    rewrite (fixup_instr_distance l _ idx i off) by (done || lia).
    destruct (Z.eqb_spec off (distance l idx (Z.to_nat (Z.of_nat idx + off)))) as [<-|]; [|done].
    cbn [fst]. by rewrite set_jump_offset_same.
  - unfold fixup_instr. rewrite Hj. by repeat case_match.
Qed.

Lemma first_pass_length : length l1 = length l.
Proof. subst l1. unfold fixup_pass. cbn [fst]. by rewrite length_fmap, length_imap. Qed.

Lemma first_pass_sizes : map instruction_size l = map instruction_size l1.
Proof.
  apply list_eq. intros idx. change (@map ?A ?B) with (@fmap list _ A B). rewrite !list_lookup_fmap.
  destruct (l !! idx) as [i|] eqn:Hi.
  - rewrite (first_pass idx i Hi). cbn [fmap option_fmap option_map]. f_equal.
    destruct (jump_offset i) as [off|] eqn:Hj; [|done].
    destruct (Hshort idx i off Hi Hj). by rewrite (short_size i off).
  - rewrite (lookup_ge_None_2 l1); [done|]. rewrite first_pass_length. by apply lookup_ge_None.
Qed.

(** A second pass finds every offset as it is. *)
Lemma second_pass : fixup_pass targets l1 = (l1, false).
Proof.
  assert (H : ∀ idx i1, l1 !! idx = Some i1 →
    fixup_instr (byte_offsets 0 l1) (mjoin (targets !! idx)) idx i1 = (i1, false)).
  { intros idx i1 H1. pose proof (lookup_lt_Some _ _ _ H1) as Hidx. rewrite first_pass_length in Hidx.
    destruct (lookup_lt_is_Some_2 l idx Hidx) as [i Hi]. rewrite (first_pass idx i Hi) in H1.
    injection H1 as <-. destruct (jump_offset i) as [off|] eqn:Hj.
    - set (d := distance l idx (Z.to_nat (Z.of_nat idx + off))). unfold targets.
      rewrite (jump_targets_lookup l idx i off) by done. pose proof (Hin idx i off Hi Hj).
      rewrite <- (Z2Nat.id (Z.of_nat idx + off)) at 1 by lia.
      rewrite (fixup_instr_distance l1 _ idx _ d).
      + unfold distance at 1. rewrite <- !(position_sizes l l1) by apply first_pass_sizes.
        fold (distance l idx (Z.to_nat (Z.of_nat idx + off))). fold d. by rewrite Z.eqb_refl.
      + rewrite (first_pass idx i Hi). by rewrite Hj.
      + by rewrite jump_offset_set, Hj.
      + rewrite first_pass_length. lia.
      + by rewrite program_bytes_length, <- first_pass_sizes, <- program_bytes_length.
    - unfold fixup_instr. rewrite Hj. by repeat case_match. }
  unfold fixup_pass. set (results := imap _ l1).
  assert (Hr : results = (λ i, (i, false)) <$> l1).
  { apply list_eq. intros idx. unfold results. rewrite list_lookup_imap, list_lookup_fmap.
    destruct (l1 !! idx) as [i1|] eqn:E; [|done]. cbn [fmap option_fmap option_map]. by rewrite H. }
  rewrite Hr, <- list_fmap_compose. f_equal.
  - by rewrite list_fmap_id.
  - clear. by induction l1.
Qed.
End short.

(** A program of short jumps, however long it is, settles: the second pass finds
    nothing to change, so that the limit of ten passes is not reached. *)
Theorem short_jumps_settle (l : list Instruction.t) :
  targets_inside l → Z.of_nat (length l) < 2 ^ 31 → Z.of_nat (length (program_bytes l)) < 2 ^ 31 →
  short_jumps l →
  fixup_jump_offsets l = (fixup_pass (jump_targets l) l).1 ∧ settled l = true ∧
  length (program_bytes (fixup_jump_offsets l)) = length (program_bytes l).
Proof.
  intros Hin Hn Hb Hs. pose proof (second_pass l Hin Hn Hb Hs) as H2.
  assert (E : fixup_jump_offsets l = (fixup_pass (jump_targets l) l).1).
  { unfold fixup_jump_offsets. change 10%nat with (S (S 8)). cbn [fixup_loop].
    destruct (fixup_pass (jump_targets l) l) as [l1 changed]. cbn [fst] in H2. rewrite H2.
    by destruct changed. }
  split_and!; [done| |].
  - unfold settled. by rewrite E, H2.
  - rewrite E, !program_bytes_length. by rewrite <- (first_pass_sizes l Hin Hn Hb Hs).
Qed.

(** The same for the offsets and distances of a concrete program. *)
Lemma short_jumps_list l :
  forallb (λ p : nat * Instruction.t, match jump_offset p.2 with
    | Some off => (-64 <=? off) && (off <? 64)
        && (-64 <=? distance l p.1 (Z.to_nat (Z.of_nat p.1 + off)))
        && (distance l p.1 (Z.to_nat (Z.of_nat p.1 + off)) <? 64)
    | None => true end) (imap pair l) = true → short_jumps l.
Proof.
  intros H idx i off Hi Hj. apply (forallb_elem _ _ (idx, i)) in H.
  - cbn [fst snd] in H. rewrite Hj in H. split_ok. lia.
  - apply list_elem_of_lookup. exists idx. by rewrite list_lookup_imap, Hi.
Qed.

Lemma short_jumps_settle_witness : short_jumps sample_loop ∧ settled sample_loop = true.
Proof.
  assert (H : short_jumps sample_loop) by (by apply short_jumps_list; vm_compute).
  split; [exact H|]. apply (short_jumps_settle sample_loop).
  - by apply targets_inside_list; vm_compute.
  - by vm_compute.
  - by vm_compute.
  - exact H.
Defined.

(** ** Ten passes *)

(** Twelve jumps, each over the next one, over which a growing jump is carried
    from the last to the first, one jump per pass. *)
Definition cascade : list Instruction.t :=
  concat (repeat (Instruction.Jmp 63 :: repeat Instruction.Nop 40) 11)
  ++ Instruction.Jmp 65 :: repeat Instruction.Nop 65.

(** The limit of ten passes is not always enough, and nothing tells: the program
    has 517 instructions, all of its targets inside, and 540 bytes, but its first
    jump, meant for the instruction 63, is written with the offset of a layout that
    is out of date and lands on the instruction 62; it decodes without an error, and
    the conversion back does not return the program. *)
Theorem cascade_lands_short :
  forallb instruction_ok cascade = true ∧ targets_inside cascade ∧ settled cascade = false ∧
  let '(out, n) := encode_instructions_with_fixup cascade [] in
  let l' := fixup_jump_offsets cascade in
  length cascade = 517%nat ∧ n = 540%nat ∧ decode_instructions out (λ _, true) = Ok l' ∧
  (cascade !! 0%nat, l' !! 0%nat) = (Some (Instruction.Jmp 63), Some (Instruction.Jmp 63)) ∧
  position l' 63 = (position l' 1 + 64)%nat ∧ position l' 62 = (position l' 1 + 63)%nat ∧
  jump_offsets_to_instr_indices l' !! 0%nat = Some (Instruction.Jmp 62).
Proof.
  split; [by vm_compute|]. split; [by apply targets_inside_list; vm_compute|]. by vm_compute.
Qed.
