(* ===== verification/Validate.v ===== *)
(** * Validation of bytecode

    [verum_vbc/src/validate.rs]: the checks that a module passes before it runs,
    of type references, constants and above all of the bytecode of each function.
    The errors a validator pushes are the list a function returns, in order.  A
    module has the fields that these checks read. *)

From stdpp Require Import gmap pretty.
From S2P Require Import Prelude Words Encoding TypeRefs Opcodes Instruction InstructionEncode.
From S2P Require Import InstructionDecode.

(** ** Modules *)

(** [FunctionDescriptor] of module.rs; [param_count] is [params.len()]. *)
Record FunctionDescriptor := {
  func_id : u32;
  bytecode_offset : u32;
  bytecode_length : u32;
  register_count : u16;
  param_count : nat;
}.

Inductive Constant :=
| ConstInt (value : i64)
| ConstInt128 (raw : Z) (signed : bool)
| ConstFloat (value : f64)
| ConstString (id : u32)
| ConstType (type_ref : TypeRef)
| ConstFunction (id : u32)
| ConstProtocol (id : u32)
| ConstArray (items : list u32)
| ConstBytes (data : bytes).

(** [VbcModule]; [type_ids] are the identifiers of [types], [string_ids] those of
    the interned strings, [strings_size] is [strings.serialized_size()]. *)
Record VbcModule := {
  type_ids : list u32;
  functions : list FunctionDescriptor;
  constants : list Constant;
  string_ids : list u32;
  strings_size : u32;
  bytecode : bytes;
}.

Definition FIRST_USER : Z := 19.
Definition FIRST_SEMANTIC : Z := 512.
Definition LAST_SEMANTIC : Z := 1023.

Definition is_builtin (id : u32) : bool := id <? FIRST_USER.
Definition is_semantic_type (id : u32) : bool := (FIRST_SEMANTIC <=? id) && (id <=? LAST_SEMANTIC).

(** [get_type(id).is_none()] and its likes ask whether there is an entry. *)
Definition has_type (module : VbcModule) (id : u32) : bool := existsb (Z.eqb id) (type_ids module).
Definition has_string (module : VbcModule) (id : u32) : bool := existsb (Z.eqb id) (string_ids module).
Definition get_function (module : VbcModule) (id : u32) : option FunctionDescriptor :=
  functions module !! Z.to_nat id.
Definition has_constant (module : VbcModule) (id : u32) : bool :=
  is_some (constants module !! Z.to_nat id).

(** [{:x}] of an integer. *)
Definition hex_digit (d : Z) : string :=
  String (Ascii.ascii_of_nat (Z.to_nat (if d <? 10 then 48 + d else 87 + d))) EmptyString.
Fixpoint hex_fuel (fuel : nat) (n : Z) : string :=
  match fuel with
  | O => ""
  | S fuel => if n <? 16 then hex_digit n else hex_fuel fuel (n / 16) +:+ hex_digit (n mod 16)
  end.
Definition hex (n : nat) : string := hex_fuel (S n) (Z.of_nat n).

Definition push_if (b : bool) (e : VbcError) : list VbcError := if b then [e] else [].

Section Validator.
Context (module : VbcModule).
Context (max_type_depth : nat).

(** The message of an error, which a macro of another crate generates. *)
Context (to_string : VbcError → string).

(** [SmallVec::with_capacity], as in the decoder. *)
Context (with_capacity : Z → bool).

(** ** Type references *)

Definition known_type (id : u32) : bool := is_builtin id || is_semantic_type id || has_type module id.

Definition validate_concrete (id : u32) (depth : nat) : list VbcError :=
  if (max_type_depth <? depth)%nat then [CircularType 0]
  else push_if (negb (known_type id)) (InvalidTypeId id).

Fixpoint validate_type_ref_in_record (type_ref : TypeRef) (depth : nat) (record_field : bool) :
    list VbcError :=
  if (max_type_depth <? depth)%nat then [CircularType 0]
  else
    let nested (t : TypeRef) := validate_type_ref_in_record t (S depth) record_field in
    match type_ref with
    | Concrete id => push_if (negb (known_type id)) (InvalidTypeId id)
    | Generic _ => []
    | RecordFieldProjection owner _ =>
        push_if (negb record_field) (Deserialization
          "record field projection requires its declaration telescope or an actual receiver witness")
        ++ push_if (negb (has_type module owner)) (InvalidTypeId owner)
    | Instantiated base args =>
        push_if (negb (known_type base)) (InvalidTypeId base)
        ++ concat (map (λ arg, validate_type_ref_in_record arg (S depth) record_field) args)
    | Function _ params return_type _ =>
        concat (map (λ param, validate_type_ref_in_record param (S depth) record_field) params)
        ++ nested return_type
    | Reference inner _ _ => nested inner
    | Tuple elems =>
        concat (map (λ elem, validate_type_ref_in_record elem (S depth) record_field) elems)
    | Array element _ => nested element
    | Slice inner => nested inner
    | AssociatedProjection qualifier args base assoc =>
        nested base
        ++ push_if (is_empty assoc || (MAX_TYPE_APPLICATION_ARGUMENTS <? length args)%nat)
             (Deserialization "invalid associated projection application")
        ++ concat (map (λ arg, validate_type_ref_in_record arg (S depth) record_field) args)
        ++ match qualifier with
           | Some application =>
               validate_concrete (protocol application) (S depth)
               ++ push_if (MAX_TYPE_APPLICATION_ARGUMENTS <? length (application_args application))%nat
                    (Deserialization "protocol application exceeds argument budget")
               ++ concat (map (λ arg, validate_type_ref_in_record arg (S depth) record_field)
                    (application_args application))
           | None => []
           end
    | ConstValue _ => []
    | Rank2Function _ _ params return_type _ =>
        concat (map (λ param, validate_type_ref_in_record param (S depth) record_field) params)
        ++ nested return_type
    end.

Definition validate_type_ref (type_ref : TypeRef) (depth : nat) : list VbcError :=
  validate_type_ref_in_record type_ref depth false.

(** ** Constants *)

Definition validate_constant (constant : Constant) : list VbcError :=
  match constant with
  | ConstString id => push_if (negb (has_string module id)) (InvalidStringId id)
  | ConstType type_ref => validate_type_ref type_ref 0
  | ConstFunction id => push_if (negb (is_some (get_function module id))) (InvalidFunctionId id)
  | ConstArray items =>
      concat (map (λ item, push_if (negb (has_constant module item)) (InvalidConstId item)) items)
  | _ => []
  end.

Definition validate_constants : list VbcError := concat (map validate_constant (constants module)).

(** ** Registers and calls *)

Definition check_reg (reg : Reg) (max : u16) (context : string) : list VbcError :=
  push_if (max <=? reg) (RegisterOutOfBounds reg max context).

Definition check_call_arity (func_id arg_count : u32) (context : string) : list VbcError :=
  match get_function module func_id with
  | Some target =>
      let expected := wrap 32 (Z.of_nat (param_count target)) in
      push_if (negb (expected =? arg_count)) (InvalidInstructionEncoding 0
        ("call-arity mismatch in " +:+ context +:+ ": target FunctionId(" +:+ pretty (Z.to_N func_id)
         +:+ ") declares " +:+ pretty (Z.to_N expected) +:+ " parameters, but call site passes "
         +:+ pretty (Z.to_N arg_count)))
  | None => []
  end.

Definition check_reg_range (range : RegRange) (max : u16) (context : string) : list VbcError :=
  if count range =? 0 then []
  else
    let last := Z.min (2 ^ 16 - 1) (start range + (count range - 1)) in
    push_if (max <=? last) (RegisterOutOfBounds last max context).

(** ** Instructions *)

(** [(next_offset as i64 + offset as i64) as u32]. *)
Definition jump_to (next_offset : nat) (offset : i32) : u32 := wrap 32 (Z.of_nat next_offset + offset).

(** The types an instruction names, in the order of the checks. *)
Definition check_types (types : list TypeRef) : list VbcError :=
  concat (map (λ ty, validate_type_ref ty 0) types).

Definition check_func (func_id function_count arg_count : u32) (context : string) : list VbcError :=
  if function_count <=? func_id then [InvalidFunctionId func_id]
  else check_call_arity func_id arg_count context.

(** The errors of one instruction, and the jumps left for later with the place
    they come from. *)
Definition validate_instruction (instr : Instruction.t) (instr_start next_offset : nat)
    (func : FunctionDescriptor) (max_reg : u16) (function_count constant_count string_count : u32) :
    list VbcError * list (u32 * u32) :=
  let func_name := "fn#" +:+ pretty (Z.to_N (func_id func)) +:+ "@0x" +:+ hex instr_start in
  let from (offset : i32) := (wrap 32 (Z.of_nat instr_start), jump_to next_offset offset) in
  match instr with
  | Instruction.DropTyped src type_ref =>
      (check_reg src max_reg func_name ++ validate_type_ref type_ref 0, [])
  | Instruction.LoadT dst type_ref | Instruction.TypeResource dst type_ref
  | Instruction.TypeLayout dst type_ref _ =>
      (check_reg dst max_reg func_name ++ validate_type_ref type_ref 0, [])
  | Instruction.SetCallWitness type_args => (check_types type_args, [])
  | Instruction.Call dst func_id args =>
      (check_func func_id function_count (count args) func_name
       ++ check_reg dst max_reg func_name ++ check_reg_range args max_reg func_name, [])
  | Instruction.CallG dst func_id type_args args =>
      (check_func func_id function_count (count args) func_name
       ++ check_reg dst max_reg func_name ++ check_types type_args
       ++ check_reg_range args max_reg func_name, [])
  | Instruction.TailCall func_id args =>
      (check_func func_id function_count (count args) func_name
       ++ check_reg_range args max_reg func_name, [])
  | Instruction.CallC dst _ args =>
      (check_reg dst max_reg func_name ++ check_reg_range args max_reg func_name, [])
  | Instruction.CallM dst receiver method_id args =>
      (push_if (string_count <=? method_id) (InvalidStringId method_id)
       ++ check_reg dst max_reg func_name ++ check_reg receiver max_reg func_name
       ++ check_reg_range args max_reg func_name, [])
  | Instruction.CallV dst receiver _ args =>
      (check_reg dst max_reg func_name ++ check_reg receiver max_reg func_name
       ++ check_reg_range args max_reg func_name, [])
  | Instruction.CallR dst func _ =>
      (check_reg dst max_reg func_name ++ check_reg func max_reg func_name, [])
  | Instruction.CallClosure dst closure args =>
      (check_reg dst max_reg func_name ++ check_reg closure max_reg func_name
       ++ check_reg_range args max_reg func_name, [])
  | Instruction.LoadK dst const_id =>
      (push_if (constant_count <=? const_id) (InvalidConstId const_id)
       ++ check_reg dst max_reg func_name, [])
  | Instruction.Jmp offset => ([], [from offset])
  | Instruction.JmpIf cond offset | Instruction.JmpNot cond offset =>
      (check_reg cond max_reg func_name, [from offset])
  | Instruction.JmpCmp _ a b offset =>
      (check_reg a max_reg func_name ++ check_reg b max_reg func_name, [from offset])
  | Instruction.Switch value default_offset cases =>
      (check_reg value max_reg func_name,
       from default_offset :: map (λ case, from case.2) cases)
  | Instruction.TryBegin handler_offset => ([], [from handler_offset])
  | Instruction.NewClosure dst func_id captures capture_types lexical_types =>
      (push_if (function_count <=? func_id) (InvalidFunctionId func_id)
       ++ check_reg dst max_reg func_name
       ++ concat (map (λ r, check_reg r max_reg func_name) captures)
       ++ check_types lexical_types
       ++ match capture_types with Some types => check_types (omap id types) | None => [] end, [])
  | Instruction.Panic message_id =>
      (push_if (string_count <=? message_id) (InvalidStringId message_id), [])
  | Instruction.New dst type_id _ =>
      (push_if (negb (known_type type_id)) (InvalidTypeId type_id) ++ check_reg dst max_reg func_name, [])
  | Instruction.NewG dst type_id type_args =>
      (push_if (negb (known_type type_id)) (InvalidTypeId type_id) ++ check_reg dst max_reg func_name
       ++ concat (map (λ r, check_reg r max_reg func_name) type_args), [])
  | _ => ([], [])
  end.

(** ** Functions *)

(** What the walk has gathered. *)
Record walk := {
  instr_starts : gset u32;
  pending_jumps : list (u32 * u32);
  errors : list VbcError;
}.

(** The walk ends at the end of the function, or at an instruction that stops it. *)
Inductive walked := Finished (w : walk) | Stopped (errors : list VbcError).

Definition end_message (instr_start offset func_end : nat) : string :=
  "decoded instruction extends past function end (instr_start=" +:+ pretty (N.of_nat instr_start)
  +:+ ", decoded_end=" +:+ pretty (N.of_nat offset) +:+ ", func_end=" +:+ pretty (N.of_nat func_end)
  +:+ ")".

(** The declaration of a receiver: its error, and the call it is bound to. *)
Definition check_receiver (instr : Instruction.t) (instr_start offset func_end : nat) :
    list VbcError * option nat :=
  match instr with
  | Instruction.BindMethodReceiver type_ref =>
      let type_errors := validate_type_ref type_ref 0 in
      if (func_end <=? offset)%nat
         || negb (bool_decide (bytecode module !! offset = Some (Opcode.to_byte Opcode.CallM)))
      then (type_errors ++ [InvalidInstructionEncoding (Z.of_nat instr_start)
              "receiver declaration must immediately precede a method call"], None)
      else (type_errors, Some offset)
  | _ => ([], None)
  end.

Definition record_start (bound_call : option nat) (offset : nat) (starts : gset u32) : gset u32 :=
  if bool_decide (bound_call = Some offset) then starts
  else {[ wrap 32 (Z.of_nat offset) ]} ∪ starts.

(** [while offset < func_end]: a round decodes at least a byte. *)
Fixpoint walk_function (fuel : nat) (func : FunctionDescriptor) (func_end : nat)
    (function_count constant_count string_count : u32) (offset : nat) (bound_call : option nat)
    (w : walk) : outcome fault walked :=
  match fuel with
  | O => Gas TraversalGas
  | S fuel =>
      if (offset <? func_end)%nat then
        let starts := record_start bound_call offset (instr_starts w) in
        match decode_instruction (bytecode module) with_capacity offset with
        | (Gas k, _) => Gas k
        | (Err Panicked, _) => Err Panicked
        | (Err (Failed err), _) =>
            Ok (Stopped (errors w ++ [InvalidInstructionEncoding (Z.of_nat offset) (to_string err)]))
        | (Ok instr, next) =>
            if (func_end <? next)%nat
            then Ok (Stopped (errors w ++ [InvalidInstructionEncoding (Z.of_nat offset)
                   (end_message offset next func_end)]))
            else
              let '(receiver_errors, bound_call) := check_receiver instr offset next func_end in
              let '(instr_errors, jumps) :=
                validate_instruction instr offset next func (register_count func)
                  function_count constant_count string_count in
              walk_function fuel func func_end function_count constant_count string_count next bound_call
                {| instr_starts := starts;
                   pending_jumps := pending_jumps w ++ jumps;
                   errors := errors w ++ receiver_errors ++ instr_errors |}
        end
      else Ok (Finished w)
  end.

Definition check_jump (func_start func_end : nat) (starts : gset u32) (jump : u32 * u32) :
    list VbcError :=
  let '(source_offset, target) := jump in
  let func_end_u32 := wrap 32 (Z.of_nat func_end) in
  push_if ((target <? Z.of_nat func_start) || (func_end_u32 <? target)
           || ((target <? func_end_u32) && negb (bool_decide (target ∈ starts))))
    (JumpOutOfBounds (to_signed 32 target) func_end_u32 source_offset).

Definition validate_function_bytecode (func : FunctionDescriptor)
    (function_count constant_count string_count : u32) : outcome fault (list VbcError) :=
  let func_start := Z.to_nat (bytecode_offset func) in
  let func_end := (func_start + Z.to_nat (bytecode_length func))%nat in
  if (length (bytecode module) <? func_end)%nat then Ok []
  else
    w ← walk_function (S (length (bytecode module))) func func_end
          function_count constant_count string_count func_start None
          {| instr_starts := ∅; pending_jumps := []; errors := [] |};
    match w with
    | Stopped errors => Ok errors
    | Finished w =>
        Ok (errors w ++ concat (map (check_jump func_start func_end (instr_starts w)) (pending_jumps w)))
    end.

Definition validate_bytecode : outcome fault (list VbcError) :=
  let function_count := wrap 32 (Z.of_nat (length (functions module))) in
  let constant_count := wrap 32 (Z.of_nat (length (constants module))) in
  let string_count := strings_size module in
  fold_left (λ result func,
    errors ← result;
    func_errors ← validate_function_bytecode func function_count constant_count string_count;
    Ok (errors ++ func_errors)) (functions module) (Ok []).
End Validator.
