(* ===== verification/ValidateFacts.v ===== *)
(** * Validation of bytecode: facts

    What the validator accepts: on every path of decoded instructions through a
    function without errors the offset stays on instructions of the function.
    Of their operands the checked ones name registers, functions, constants and
    types that exist; a string is compared with the size of the string table
    only ([message_inside_a_string]).  Compiled code without a switch and
    without receiver declarations passes. *)

From stdpp Require Import gmap list.
From S2P Require Import Prelude Words Encoding EncodingFacts Codec TypeRefs TypeRefFacts.
From S2P Require Import Opcodes InstructionOk Instruction InstructionEncode InstructionDecode.
From S2P Require Import InstructionFacts InstructionRoundtrip.
From S2P Require Import InstructionImage InstructionTotal JumpFixup JumpFixupFacts Validate.

(** ** What an instruction names *)

(** The registers and ranges that are checked. *)
Definition registers_of (i : Instruction.t) : list Reg :=
  match i with
  | Instruction.DropTyped r _ | Instruction.LoadT r _ | Instruction.TypeResource r _
  | Instruction.TypeLayout r _ _ | Instruction.Call r _ _ | Instruction.CallG r _ _ _
  | Instruction.CallC r _ _ | Instruction.LoadK r _ | Instruction.JmpIf r _ | Instruction.JmpNot r _
  | Instruction.Switch r _ _ | Instruction.New r _ _ => [r]
  | Instruction.CallM a b _ _ | Instruction.CallV a b _ _ | Instruction.CallR a b _
  | Instruction.CallClosure a b _ | Instruction.JmpCmp _ a b _ => [a; b]
  | Instruction.NewClosure dst _ captures _ _ => dst :: captures
  | Instruction.NewG dst _ type_args => dst :: type_args
  | _ => []
  end.

Definition ranges_of (i : Instruction.t) : list RegRange :=
  match i with
  | Instruction.Call _ _ args | Instruction.CallG _ _ _ args | Instruction.TailCall _ args
  | Instruction.CallC _ _ args | Instruction.CallM _ _ _ args | Instruction.CallV _ _ _ args
  | Instruction.CallClosure _ _ args => [args]
  | _ => []
  end.

(** The function called, with the number of arguments where it is checked. *)
Definition callee_of (i : Instruction.t) : option (u32 * option Z) :=
  match i with
  | Instruction.Call _ f args | Instruction.CallG _ f _ args | Instruction.TailCall f args =>
      Some (f, Some (count args))
  | Instruction.NewClosure _ f _ _ _ => Some (f, None)
  | _ => None
  end.

(** The places a jump may go to, relative to the next instruction. *)
Definition branch_offsets (i : Instruction.t) : list i32 :=
  match i with
  | Instruction.Jmp offset | Instruction.JmpIf _ offset | Instruction.JmpNot _ offset
  | Instruction.JmpCmp _ _ _ offset | Instruction.TryBegin offset => [offset]
  | Instruction.Switch _ default_offset cases => default_offset :: map snd cases
  | _ => []
  end.

Lemma push_if_nil b e : push_if b e = [] ↔ b = false.
Proof. by destruct b. Qed.

Lemma concat_map_nil {A} (f : A → list VbcError) l : concat (map f l) = [] ↔ Forall (λ x, f x = []) l.
Proof.
  induction l as [|x l IH]; cbn [map concat]; [by rewrite Forall_nil|].
  rewrite app_nil, IH, Forall_cons. done.
Qed.

Lemma app_cons_not_nil' {A} (l : list A) x : l ++ [x] ≠ [].
Proof. by destruct l. Qed.

Section facts.
Context (module : VbcModule) (max_type_depth : nat) (to_string : VbcError → string) (with_capacity : Z → bool).
Context (func : FunctionDescriptor).
Context (Hregs : register_count func < 2 ^ 16).

Abbreviation type_valid t := (validate_type_ref module max_type_depth t 0 = []).
Abbreviation instr_errors i a b f c s :=
  (validate_instruction module max_type_depth i a b func (register_count func) f c s).1.

Definition reg_valid (r : Reg) : Prop := r < register_count func.
Definition range_valid (r : RegRange) : Prop :=
  count r = 0 ∨ start r + count r ≤ register_count func.

Definition callee_valid (function_count : Z) (callee : u32 * option Z) : Prop :=
  callee.1 < function_count ∧
  match callee.2 with
  | Some args => ∀ g, get_function module callee.1 = Some g → wrap 32 (Z.of_nat (param_count g)) = args
  | None => True
  end.

(** The operands that the validator checks are valid. *)
Definition operands_valid (function_count constant_count string_count : Z) (i : Instruction.t) : Prop :=
  Forall reg_valid (registers_of i) ∧ Forall range_valid (ranges_of i) ∧
  Forall (λ t, type_valid t) (types_of i) ∧
  match callee_of i with Some callee => callee_valid function_count callee | None => True end ∧
  match i with
  | Instruction.LoadK _ const_id => const_id < constant_count
  | Instruction.CallM _ _ id _ | Instruction.Panic id => id < string_count
  | Instruction.New _ id _ | Instruction.NewG _ id _ => known_type module id = true
  | _ => True
  end.

Lemma check_reg_nil r context : check_reg r (register_count func) context = [] ↔ reg_valid r.
Proof. unfold check_reg, reg_valid. rewrite push_if_nil, Z.leb_gt. done. Qed.

Lemma check_regs_nil l context :
  concat (map (λ r, check_reg r (register_count func) context) l) = [] ↔ Forall reg_valid l.
Proof. rewrite concat_map_nil. apply Forall_iff. intros r. apply check_reg_nil. Qed.

Lemma check_reg_range_nil r context :
  check_reg_range r (register_count func) context = [] ↔ range_valid r.
Proof.
  unfold check_reg_range, range_valid. destruct (Z.eqb_spec (count r) 0); [tauto|].
  rewrite push_if_nil, Z.leb_gt. change (2 ^ 16) with 65536 in *. lia.
Qed.

Lemma check_types_nil l : check_types module max_type_depth l = [] ↔ Forall (λ t, type_valid t) l.
Proof. apply concat_map_nil. Qed.

Lemma check_func_nil f function_count args context :
  check_func module f function_count args context = [] ↔ callee_valid function_count (f, Some args).
Proof.
  unfold check_func, callee_valid, check_call_arity. cbn [fst snd].
  destruct (Z.leb_spec function_count f); [split; [done|lia]|].
  destruct (get_function module f) as [g|].
  - rewrite push_if_nil, negb_false_iff, Z.eqb_eq. split; [by intros; split; [|intros ? [= <-]]|].
    intros [_ Hg]. by apply Hg.
  - by split; [split|].
Qed.

(** The errors of an instruction are none exactly when its operands are valid; the
    type of a receiver declaration is checked by the walk. *)
Lemma validate_instruction_exact i a b function_count constant_count string_count :
  (∀ t, i ≠ Instruction.BindMethodReceiver t) →
  instr_errors i a b function_count constant_count string_count = [] ↔
  operands_valid function_count constant_count string_count i.
Proof.
  intros Hb. unfold operands_valid.
  destruct i; try (by destruct (Hb type_ref));
    try (match goal with o : option (list (option TypeRef)) |- _ => destruct o end);
    cbn [validate_instruction fst registers_of ranges_of types_of callee_of default from_option Datatypes.id];
    rewrite ?app_nil, ?check_reg_nil, ?check_regs_nil, ?check_reg_range_nil, ?check_types_nil,
      ?check_func_nil, ?push_if_nil, ?Z.leb_gt, ?negb_false_iff, ?Forall_app, ?Forall_cons, ?Forall_nil;
    unfold callee_valid; cbn [fst snd]; tauto.
Qed.

Lemma validate_instruction_jumps i a b f c s :
  (validate_instruction module max_type_depth i a b func (register_count func) f c s).2 =
  map (λ offset, (wrap 32 (Z.of_nat a), jump_to b offset)) (branch_offsets i).
Proof. destruct i; cbn [validate_instruction snd branch_offsets List.map]; rewrite ?map_map; done. Qed.

(** ** The walk *)
Context (function_count constant_count string_count : Z) (func_end : nat).

Abbreviation decode := (decode_instruction (bytecode module) with_capacity).
Abbreviation walk_from fuel := (walk_function module max_type_depth to_string with_capacity fuel func
  func_end function_count constant_count string_count).
Abbreviation valid := (operands_valid function_count constant_count string_count).

(** The instructions from an offset to the end of the function, each with the
    offset after it. *)
Inductive segmented : nat → list (nat * Instruction.t * nat) → Prop :=
| segmented_end : segmented func_end []
| segmented_cons offset i next l :
    (offset < func_end)%nat → decode offset = (Ok i, next) → (offset < next ≤ func_end)%nat →
    segmented next l → segmented offset ((offset, i, next) :: l).

Definition jumps_of (entry : nat * Instruction.t * nat) : list (u32 * u32) :=
  map (λ off, (wrap 32 (Z.of_nat entry.1.1), jump_to entry.2 off)) (branch_offsets entry.1.2).

Lemma check_receiver_valid i a b e bc :
  check_receiver module max_type_depth i a b func_end = (e, bc) → e = [] →
  (validate_instruction module max_type_depth i a b func (register_count func)
    function_count constant_count string_count).1 = [] → valid i.
Proof.
  intros Hr -> He. assert (Hc : (∃ t, i = Instruction.BindMethodReceiver t) ∨ ∀ t, i ≠ Instruction.BindMethodReceiver t)
    by (destruct i; first [right; discriminate|left; eauto]).
  destruct Hc as [[t ->]|Hb].
  - unfold operands_valid. cbn. repeat split; try constructor; [|done].
    cbn [check_receiver] in Hr. destruct (_ || _); injection Hr as Hr _; [|exact Hr].
    by apply app_nil in Hr as [Hr _].
  - by apply validate_instruction_exact in He.
Qed.

Lemma walk_segments fuel offset bc w w' :
  (offset ≤ func_end ≤ length (bytecode module))%nat →
  walk_from fuel offset bc w = Ok (Finished w') →
  ∃ l, segmented offset l ∧
    pending_jumps w' = pending_jumps w ++ concat (map jumps_of l) ∧
    (errors w' = [] → errors w = [] ∧ Forall (λ entry, valid entry.1.2) l) ∧
    (∀ t, t ∈ instr_starts w' → t ∈ instr_starts w ∨ ∃ a i b, (a, i, b) ∈ l ∧ t = wrap 32 (Z.of_nat a)).
Proof.
  revert offset bc w. induction fuel as [|fuel IH]; intros offset bc w Ho; [by intros [=]|].
  cbn [walk_function]. destruct (Nat.ltb_spec offset func_end) as [Hlt|].
  2: { intros [= <-]. assert (offset = func_end) as -> by lia. exists []. split_and!.
    - constructor.
    - cbn. by rewrite app_nil_r.
    - by repeat split; [|constructor].
    - auto. }
  pose proof (decode_instruction_total with_capacity (bytecode module) offset ltac:(lia)) as Ht.
  destruct (decode offset) as [[i|[e|]|k] next] eqn:Ed; try by intros [=].
  destruct Ht as [_ Hn]. destruct (Nat.ltb_spec func_end next); [by intros [=]|].
  destruct (check_receiver module max_type_depth i offset next func_end) as [re bc'] eqn:Er.
  destruct (validate_instruction module max_type_depth i offset next func (register_count func)
    function_count constant_count string_count) as [ie jumps] eqn:Ei.
  intros Hw. apply IH in Hw; [|lia]. destruct Hw as (l & Hs & Hj & He & Hst). cbn [pending_jumps errors instr_starts] in *.
  exists ((offset, i, next) :: l). split_and!.
  - by constructor.
  - cbn [List.map concat]. unfold jumps_of at 1. cbn [fst snd].
    pose proof (validate_instruction_jumps i offset next function_count constant_count string_count) as Hm.
    rewrite Ei in Hm. cbn [snd] in Hm. by rewrite <- Hm, Hj, <- (assoc_L app).
  - intros Hw'. apply He in Hw' as [Hw Hl]. apply app_nil in Hw as [Hw [-> ->]%app_nil].
    split; [done|]. constructor; [|done]. exact (check_receiver_valid _ _ _ _ _ Er eq_refl (f_equal fst Ei)).
  - intros t [Ht|(a & i' & b & Hin & ->)]%Hst.
    + unfold record_start in Ht. case_bool_decide; [by left|].
      apply elem_of_union in Ht as [->%elem_of_singleton|Ht]; [|by left].
      right. exists offset, i, next. split; [constructor|done].
    + right. exists a, i', b. split; [by constructor|done].
Qed.

(** The walk stops at an error. *)
Lemma walk_stopped fuel offset bc w errs :
  walk_from fuel offset bc w = Ok (Stopped errs) → errs ≠ [].
Proof.
  revert offset bc w. induction fuel as [|fuel IH]; intros offset bc w; [by intros [=]|].
  cbn [walk_function]. destruct (offset <? func_end)%nat; [|by intros [=]].
  destruct (decode offset) as [[i|[e|]|k] next]; try by intros [=].
  - destruct (func_end <? next)%nat; [intros [= <-]; apply app_cons_not_nil'|].
    destruct (check_receiver module max_type_depth i offset next func_end) as [re bc'].
    destruct (validate_instruction module max_type_depth i offset next func (register_count func)
      function_count constant_count string_count) as [ie jumps]. apply IH.
  - intros [= <-]. apply app_cons_not_nil'.
Qed.

(** ** Paths *)

Lemma segmented_entry offset l a i b :
  segmented offset l → (a, i, b) ∈ l →
  decode a = (Ok i, b) ∧ (offset ≤ a)%nat ∧ (a < b ≤ func_end)%nat ∧
  (b = func_end ∨ ∃ i' b', (b, i', b') ∈ l).
Proof.
  induction 1 as [|offset i0 next l Ho Hd Hn Hs IH]; [by intros ?%elem_of_nil|].
  intros [E|Hin]%elem_of_cons.
  - injection E as -> -> ->. split_and!; [done|lia..|]. inversion Hs; subst; [by left|].
    right. do 2 eexists. apply elem_of_cons. right. apply elem_of_cons. by left.
  - destruct (IH Hin) as (E & Hr & Hr' & Hb). split_and!; [done|lia..|].
    destruct Hb as [|(i' & b' & Hb)]; [by left|]. right. exists i', b'. by apply elem_of_cons; right.
Qed.

(** The program counters that execution can reach in the function, from its
    start, by the next instruction or by a jump. *)
Inductive flows (func_start : nat) : nat → Prop :=
| flows_start : flows func_start func_start
| flows_next pc i next :
    flows func_start pc → (pc < func_end)%nat → decode pc = (Ok i, next) → flows func_start next
| flows_jump pc i next offset :
    flows func_start pc → (pc < func_end)%nat → decode pc = (Ok i, next) →
    offset ∈ branch_offsets i → flows func_start (Z.to_nat (jump_to next offset)).

Definition on_instruction (l : list (nat * Instruction.t * nat)) (pc : nat) : Prop :=
  pc = func_end ∨ ∃ i next, (pc, i, next) ∈ l.

Lemma check_jump_target func_start starts source target :
  0 ≤ target → Z.of_nat func_end < 2 ^ 31 →
  check_jump func_start func_end starts (source, target) = [] →
  Z.of_nat func_start ≤ target ≤ Z.of_nat func_end ∧ (target < Z.of_nat func_end → target ∈ starts).
Proof.
  intros Ht Hf. change (2 ^ 31) with 2147483648 in Hf. unfold check_jump.
  rewrite push_if_nil, wrap_id by (unfold is_u; change (2 ^ 32) with 4294967296; lia).
  rewrite !orb_false_iff, andb_false_iff, negb_false_iff, bool_decide_eq_true, !Z.ltb_ge.
  intros [[H1 H2] H3]. split; [lia|]. intros Hlt. destruct H3 as [H3|H3]; [lia|done].
Qed.

Lemma flows_on_instruction func_start l starts pc :
  Z.of_nat func_end < 2 ^ 31 → segmented func_start l →
  (∀ t, t ∈ starts → ∃ a i b, (a, i, b) ∈ l ∧ t = wrap 32 (Z.of_nat a)) →
  concat (map (check_jump func_start func_end starts) (concat (map jumps_of l))) = [] →
  flows func_start pc → on_instruction l pc.
Proof.
  intros Hf Hs Hst Hj. rewrite concat_map_nil, Forall_forall in Hj.
  induction 1 as [|pc i next _ IH Hlt Hd|pc i next off _ IH Hlt Hd Hoff].
  - inversion Hs; subst; [by left|]. right. do 2 eexists. apply elem_of_cons. by left.
  - destruct IH as [|(i' & b & Hin)]; [lia|].
    destruct (segmented_entry _ _ _ _ _ Hs Hin) as (E & _ & _ & Hn). rewrite Hd in E. by injection E as -> ->.
  - destruct IH as [|(i' & b & Hin)]; [lia|].
    destruct (segmented_entry _ _ _ _ _ Hs Hin) as (E & _). rewrite Hd in E. injection E as <- <-.
    set (target := jump_to next off). assert (Hu : 0 ≤ target) by (apply (wrap_range 32); lia).
    assert (Hc : check_jump func_start func_end starts (wrap 32 (Z.of_nat pc), target) = []).
    { apply Hj. apply list_elem_of_In, in_concat. exists (jumps_of (pc, i, next)). split.
      - by apply in_map, list_elem_of_In.
      - unfold jumps_of. cbn [fst snd]. apply in_map_iff. exists off. split; [done|]. by apply list_elem_of_In. }
    apply check_jump_target in Hc as [Hr Hc]; [|done..].
    destruct (decide (target = Z.of_nat func_end)) as [->|Hne]; [left; lia|].
    destruct (Hst target (Hc ltac:(lia))) as (a & i' & b & Ha & Et).
    destruct (segmented_entry _ _ _ _ _ Hs Ha) as (_ & Hab & Hab' & _).
    rewrite wrap_id in Et by (unfold is_u; change (2 ^ 31) with 2147483648 in *; change (2 ^ 32) with 4294967296; lia).
    right. rewrite Et, Nat2Z.id. eauto.
Qed.

(** ** The walk over valid instructions *)

Definition is_binding (i : Instruction.t) : bool :=
  match i with Instruction.BindMethodReceiver _ => true | _ => false end.

Lemma check_receiver_other i a b :
  is_binding i = false → check_receiver module max_type_depth i a b func_end = ([], None).
Proof. by destruct i. Qed.

Lemma walk_valid fuel offset w l :
  segmented offset l → (length l < fuel)%nat →
  Forall (λ entry, is_binding entry.1.2 = false ∧ valid entry.1.2) l →
  ∃ w', walk_from fuel offset None w = Ok (Finished w') ∧ errors w' = errors w ∧
    pending_jumps w' = pending_jumps w ++ concat (map jumps_of l) ∧
    instr_starts w ⊆ instr_starts w' ∧
    (∀ a i b, (a, i, b) ∈ l → wrap 32 (Z.of_nat a) ∈ instr_starts w').
Proof.
  revert offset w l. induction fuel as [|fuel IH]; intros offset w l Hs Hf Hv; [lia|].
  cbn [walk_function]. destruct Hs as [|offset i next l Ho Hd Hn Hs].
  - rewrite Nat.ltb_irrefl. exists w. split_and!; [done|done|cbn; by rewrite app_nil_r|done|].
    intros a i b ?%elem_of_nil. done.
  - apply Forall_cons in Hv as [[Hb Hi] Hv]. cbn [fst snd] in Hb, Hi.
    rewrite (proj2 (Nat.ltb_lt _ _)), Hd, (proj2 (Nat.ltb_ge _ _)), check_receiver_other by (done || lia).
    destruct (validate_instruction module max_type_depth i offset next func (register_count func)
      function_count constant_count string_count) as [ie jumps] eqn:Ei.
    apply (validate_instruction_exact i offset next) in Hi; [|by intros t ->].
    rewrite Ei in Hi. cbn [fst] in Hi. subst ie.
    pose proof (validate_instruction_jumps i offset next function_count constant_count string_count) as Hm.
    rewrite Ei in Hm. cbn [snd] in Hm. cbn [length] in Hf.
    edestruct (IH next {| instr_starts := record_start None offset (instr_starts w);
      pending_jumps := pending_jumps w ++ jumps; errors := errors w ++ [] ++ [] |} l Hs ltac:(lia) Hv)
      as (w' & Hw & He & Hj & Hsub & Hin).
    exists w'. cbn [errors pending_jumps instr_starts] in *.
    assert (Hrec : record_start None offset (instr_starts w) = {[ wrap 32 (Z.of_nat offset) ]} ∪ instr_starts w)
      by (unfold record_start; by rewrite bool_decide_eq_false_2).
    rewrite Hrec in *. split_and!.
    + exact Hw.
    + by rewrite He, !app_nil_r.
    + cbn [List.map concat]. unfold jumps_of at 1. cbn [fst snd]. by rewrite <- Hm, Hj, <- (assoc_L app).
    + set_solver.
    + intros a i' b [E|Hl]%elem_of_cons; [|by eapply Hin]. injection E as -> -> ->. set_solver.
Qed.

(** The segments of an encoded program. *)
Fixpoint segments (offset : nat) (l : list Instruction.t) : list (nat * Instruction.t * nat) :=
  match l with
  | [] => []
  | i :: l => (offset, i, (offset + instruction_size i)%nat) :: segments (offset + instruction_size i) l
  end.

Lemma length_segments offset l : length (segments offset l) = length l.
Proof. revert offset. induction l as [|i l IH]; intros offset; cbn; [done|]. by rewrite IH. Qed.

Lemma program_segmented l before after :
  capacity_ok with_capacity (bytecode module) → forallb instruction_ok l = true →
  bytecode module = before ++ program_bytes l ++ after →
  func_end = (length before + length (program_bytes l))%nat →
  segmented (length before) (segments (length before) l).
Proof.
  intros Hcap. revert before. induction l as [|i l IH]; intros before Hok Hd He.
  - cbn in He. rewrite Nat.add_0_r in He. rewrite <- He. constructor.
  - cbn [forallb] in Hok. apply andb_split in Hok as [Hi Hok].
    change (program_bytes (i :: l)) with (instruction_bytes i ++ program_bytes l) in *.
    rewrite length_app in He. pose proof (instruction_size_bytes i) as Hsz.
    pose proof (instruction_size_pos i). cbn [segments]. rewrite <- (assoc_L app) in Hd. constructor.
    + lia.
    + rewrite (instruction_reads with_capacity _ i Hcap Hi _ _ Hd). by rewrite Hsz.
    + lia.
    + rewrite Hsz, <- length_app. apply IH; [done| |rewrite length_app; lia]. by rewrite <- (assoc_L app).
Qed.

Lemma segments_entry offset l a i b :
  (a, i, b) ∈ segments offset l →
  ∃ k, l !! k = Some i ∧ a = (offset + position l k)%nat ∧ b = (offset + position l (S k))%nat.
Proof.
  revert offset. induction l as [|j l IH]; intros offset; cbn [segments]; [by intros ?%elem_of_nil|].
  intros [E|Hin]%elem_of_cons.
  - injection E as -> -> ->. exists 0%nat. rewrite position_cons, !position_0. split_and!; [done|lia..].
  - destruct (IH _ Hin) as (k & Hk & -> & ->). exists (S k). rewrite !position_cons. split_and!; [done|lia..].
Qed.

Lemma segments_lookup offset l k i :
  l !! k = Some i → ((offset + position l k)%nat, i, (offset + position l (S k))%nat) ∈ segments offset l.
Proof.
  revert offset k. induction l as [|j l IH]; intros offset [|k] Hk; try discriminate Hk; cbn [segments].
  - injection Hk as ->. apply elem_of_cons. left. by rewrite position_cons, !position_0, !Nat.add_0_r.
  - apply elem_of_cons. right. rewrite !position_cons, !Nat.add_assoc. by apply IH.
Qed.
End facts.

(** ** Modules *)

Definition func_start (func : FunctionDescriptor) : nat := Z.to_nat (bytecode_offset func).
Definition func_end (func : FunctionDescriptor) : nat :=
  (func_start func + Z.to_nat (bytecode_length func))%nat.

(** What the bytecode pass compares with. *)
Definition function_count (module : VbcModule) : Z := wrap 32 (Z.of_nat (length (functions module))).
Definition constant_count (module : VbcModule) : Z := wrap 32 (Z.of_nat (length (constants module))).

Definition validates (module : VbcModule) (max_type_depth : nat) (to_string : VbcError → string)
    (with_capacity : Z → bool) (func : FunctionDescriptor) : Prop :=
  validate_function_bytecode module max_type_depth to_string with_capacity func (function_count module)
    (constant_count module) (strings_size module) = Ok [].

Lemma validate_bytecode_functions module max_type_depth to_string with_capacity :
  validate_bytecode module max_type_depth to_string with_capacity = Ok [] ↔
  Forall (validates module max_type_depth to_string with_capacity) (functions module).
Proof.
  unfold validate_bytecode. fold (function_count module) (constant_count module).
  set (step := λ result func, _).
  assert (H : ∀ l r, fold_left step l r = Ok [] ↔
    r = Ok [] ∧ Forall (validates module max_type_depth to_string with_capacity) l).
  { induction l as [|f l IH]; intros r; cbn [fold_left]; [by rewrite Forall_nil; split; [|intros []]|].
    rewrite IH, Forall_cons. unfold step, validates.
    destruct r as [errors| |]; cbn; [|by split; intros [? ?]..].
    destruct (validate_function_bytecode _ _ _ _ _ _ _ _) as [errors'| |]; cbn;
      [|by split; intros (?&?&?) || by intros [? ?]..].
    split; [intros ([= [-> ->]%app_nil] & Hl); done|]. by intros ([= ->] & [= ->] & Hl). }
  rewrite H. by split; [intros []|].
Qed.

(** C8. The decoded control flow of a validated function stays on its
    instructions: an offset that falling through, a jump, a case of a switch or
    an exception handler, as the decoder reads them, can reach from the start of
    the function is its end or the start of an instruction that ends inside it;
    and of that instruction's operands those the validator looks at are right:
    registers below the register count, functions of the module called with the
    number of their parameters, constants and types that exist, and string
    identifiers below the serialized size of the string table, which does not
    make them identifiers of a string.  The function's range must lie inside the
    bytecode, which is smaller than two gigabytes, and its register count is
    the 16-bit field it is.  The offsets are those of the decoder; handlers that
    read other operands than the decoder (OperandsFacts.operands_misread) can
    leave them. *)
Theorem validated_paths (module : VbcModule) (max_type_depth : nat) (to_string : VbcError → string)
    (with_capacity : Z → bool) (func : FunctionDescriptor) (pc : nat) :
  validate_bytecode module max_type_depth to_string with_capacity = Ok [] →
  func ∈ functions module → register_count func < 2 ^ 16 →
  (func_end func ≤ length (bytecode module))%nat → Z.of_nat (length (bytecode module)) < 2 ^ 31 →
  flows module with_capacity (func_end func) (func_start func) pc →
  (func_start func ≤ pc ≤ func_end func)%nat ∧
  (pc = func_end func ∨
   ∃ i next, decode_instruction (bytecode module) with_capacity pc = (Ok i, next) ∧
     (pc < next ≤ func_end func)%nat ∧
     operands_valid module max_type_depth func (function_count module) (constant_count module)
       (strings_size module) i).
Proof.
  intros Hv Hin Hregs Hend Hlen Hpc. apply validate_bytecode_functions in Hv.
  rewrite Forall_forall in Hv. specialize (Hv func Hin). unfold validates, validate_function_bytecode in Hv.
  change (Z.to_nat (bytecode_offset func)) with (func_start func) in Hv. fold (func_end func) in Hv.
  rewrite (proj2 (Nat.ltb_ge _ _)) in Hv by lia.
  destruct (walk_function _ _ _ _ _ _ _ _ _ _ _ _ _) as [[w|errs]| |] eqn:Ew; [| |discriminate Hv..].
  - cbn in Hv. injection Hv as [He Hj]%app_nil.
    apply walk_segments in Ew as (l & Hs & Hp & Hval & Hst); [|done|split; [unfold func_end; lia|done]].
    apply Hval in He as [_ Hops]. cbn [pending_jumps instr_starts] in *. rewrite Hp in Hj.
    assert (Hst' : ∀ t, t ∈ instr_starts w → ∃ a i b, (a, i, b) ∈ l ∧ t = wrap 32 (Z.of_nat a)).
    { intros t Ht. destruct (Hst t Ht) as [?|?]; [set_solver|done]. }
    pose proof (flows_on_instruction module with_capacity (func_end func) _ l _ pc ltac:(lia) Hs Hst' Hj Hpc)
      as [->|(i & next & Hi)].
    + split; [unfold func_end; lia|by left].
    + destruct (segmented_entry _ _ _ _ _ _ _ _ Hs Hi) as (Hd & Ha & Hb & _).
      split; [lia|]. right. exists i, next. split_and!; [done|lia..|].
      rewrite Forall_forall in Hops. exact (Hops _ Hi).
  - injection Hv as ->. by apply walk_stopped in Ew.
Qed.

(** ** Compiled code *)

Lemma operands_valid_moved module depth func f c s v i :
  operands_valid module depth func f c s (set_jump_offset v i) ↔ operands_valid module depth func f c s i.
Proof. by destruct i. Qed.

Lemma is_binding_moved v i : is_binding (set_jump_offset v i) = is_binding i.
Proof. by destruct i. Qed.

(** The jumps the fixup converts: no switch, and no receiver declaration, whose call
    must not be a target. *)
Definition plain (i : Instruction.t) : bool :=
  match i with Instruction.Switch _ _ _ => false | _ => negb (is_binding i) end.

Lemma branch_offsets_plain i off :
  plain i = true → off ∈ branch_offsets i → jump_offset i = Some off.
Proof.
  destruct i; try discriminate; intros _; cbn [branch_offsets jump_offset];
    first [by intros ->%list_elem_of_singleton|by intros ?%elem_of_nil].
Qed.

Section compiled.
Context (module : VbcModule) (max_type_depth : nat) (to_string : VbcError → string) (with_capacity : Z → bool).
Context (func : FunctionDescriptor) (l : list Instruction.t) (before after : bytes).
Context (Hok : forallb instruction_ok l = true) (Hin : targets_inside l) (Hset : settled l = true).
Let l' := fixup_jump_offsets l.
Context (Hd : bytecode module = before ++ program_bytes l' ++ after).
Context (Hlen : Z.of_nat (length (bytecode module)) < 2 ^ 31).
Context (He : func_end func = (length before + length (program_bytes l'))%nat).

Abbreviation valid := (λ i, plain i = true ∧ operands_valid module max_type_depth func
  (function_count module) (constant_count module) (strings_size module) i).
Context (Hval : Forall valid l).

Lemma compiled_length : length l' = length l.
Proof. apply fixup_length, ok_in_range, Hok. Qed.

Lemma compiled_valid i : i ∈ l' → valid i.
Proof.
  intros Hi. pose proof (fixup_moved l (ok_in_range l Hok)) as Hm. fold l' in Hm.
  apply list_elem_of_lookup in Hi as [k Hk]. destruct (Forall2_lookup_r _ _ _ _ _ Hm Hk) as (i0 & Hi0 & v & _ & ->).
  rewrite Forall_forall in Hval. destruct (Hval i0) as [Hp Hv]; [by eapply list_elem_of_lookup_2|].
  split; [by destruct i0|by apply operands_valid_moved].
Qed.

(** A jump of the compiled program reaches the position of its target. *)
Lemma compiled_jump k i off :
  l' !! k = Some i → off ∈ branch_offsets i →
  ∃ t, (t ≤ length l')%nat ∧
    jump_to (length before + position l' (S k)) off = Z.of_nat (length before + position l' t).
Proof.
  intros Hk Hoff. destruct (compiled_valid i) as [Hplain _]; [by eapply list_elem_of_lookup_2|].
  pose proof (branch_offsets_plain i off Hplain Hoff) as Hj'. pose proof compiled_length as Hl'.
  pose proof (ok_in_range l Hok) as Hr.
  destruct (lookup_lt_is_Some_2 l k) as [i0 Hi0]; [apply lookup_lt_Some in Hk; lia|].
  destruct (fixup_lookup l Hr k i0 Hi0) as (v & _ & E). fold l' in E. rewrite Hk in E. injection E as ->.
  rewrite jump_offset_set in Hj'. destruct (jump_offset i0) as [off0|] eqn:Hj; [|discriminate].
  injection Hj' as ->. pose proof (Hin k i0 off0 Hi0 Hj) as Ht.
  assert (Hn : Z.of_nat (length (program_bytes l')) < 2 ^ 31 ∧ Z.of_nat (length l) < 2 ^ 31).
  { rewrite Hd, !length_app in Hlen. pose proof (length_program l'). lia. }
  pose proof (settled_distance l Hin Hr (proj2 Hn) (proj1 Hn) Hset k i0 off0 Hi0 Hj) as E. fold l' in E.
  rewrite Hk in E. injection E as E. apply (f_equal jump_offset) in E.
  rewrite !jump_offset_set, Hj in E. injection E as ->.
  exists (Z.to_nat (Z.of_nat k + off0)). split; [lia|].
  pose proof (position_le l' (Z.to_nat (Z.of_nat k + off0)) (length l') ltac:(lia)) as Hpt.
  rewrite (position_all l' (length l')) in Hpt by lia. rewrite Hd, !length_app in Hlen.
  unfold jump_to, distance. change (2 ^ 31) with 2147483648 in *.
  rewrite wrap_id; [lia|]. unfold is_u. change (2 ^ 32) with 4294967296. lia.
Qed.

Lemma compiled_checks starts entry :
  (∀ a i b, (a, i, b) ∈ segments (length before) l' → wrap 32 (Z.of_nat a) ∈ starts) →
  entry ∈ segments (length before) l' →
  Forall (λ jump, check_jump (length before) (func_end func) starts jump = []) (jumps_of entry).
Proof.
  intros Hst Hi. destruct entry as [[a i] b]. destruct (segments_entry _ _ _ _ _ Hi) as (k & Hk & -> & ->).
  apply Forall_forall. intros [source target] Hjump. unfold jumps_of in Hjump. cbn [fst snd] in Hjump.
  apply list_elem_of_In, in_map_iff in Hjump as (off & E & Hoff%list_elem_of_In). injection E as _ <-.
  destruct (compiled_jump k i off Hk Hoff) as (t & Ht & ->).
  pose proof (position_le l' t (length l') Ht) as Hpt. rewrite (position_all l' (length l')) in Hpt by lia.
  rewrite Hd, !length_app in Hlen. change (2 ^ 31) with 2147483648 in Hlen.
  unfold check_jump. rewrite push_if_nil, He, wrap_id by (unfold is_u; change (2 ^ 32) with 4294967296; lia).
  rewrite !orb_false_iff, andb_false_iff, negb_false_iff, bool_decide_eq_true, !Z.ltb_ge.
  split; [lia|]. destruct (decide (t < length l')%nat) as [Htl|Htl].
  - right. destruct (lookup_lt_is_Some_2 l' t Htl) as [j Hjt].
    pose proof (Hst _ _ _ (segments_lookup (length before) l' t j Hjt)) as H.
    rewrite wrap_id in H; [done|]. unfold is_u. change (2 ^ 32) with 4294967296. lia.
  - left. rewrite (position_all l' t) by lia. lia.
Qed.
End compiled.

(** C9. What the fixup produces passes the validator: a program of encodable
    instructions without a switch (whose case offsets the fixup does not
    convert) and without BindMethodReceiver (whose call must not be a jump
    target), whose jumps stay inside the program, whose fixup has settled and
    whose operands are those the validator wants, is, placed anywhere in the
    bytecode of a module (smaller than two gigabytes, with capacities granted up
    to its length), a function without errors. *)
Theorem compiled_code_validates (module : VbcModule) (max_type_depth : nat)
    (to_string : VbcError → string) (with_capacity : Z → bool) (func : FunctionDescriptor)
    (l : list Instruction.t) (before after : bytes) :
  forallb instruction_ok l = true → targets_inside l → settled l = true →
  let '(out, n) := encode_instructions_with_fixup l [] in
  bytecode module = before ++ out ++ after → Z.of_nat (length (bytecode module)) < 2 ^ 31 →
  func_start func = length before → func_end func = (length before + n)%nat →
  register_count func < 2 ^ 16 →
  (∀ k : nat, (k ≤ length (bytecode module))%nat → with_capacity (Z.of_nat k) = true) →
  Forall (λ i, plain i = true ∧ operands_valid module max_type_depth func (function_count module)
    (constant_count module) (strings_size module) i) l →
  validates module max_type_depth to_string with_capacity func.
Proof.
  intros Hok Hin Hset. unfold encode_instructions_with_fixup. rewrite encode_program_bytes. cbn [app].
  intros Hd Hlen Hs He Hregs Hcap Hval. set (l' := fixup_jump_offsets l) in *.
  pose proof (program_segmented module with_capacity (func_end func) l' before after Hcap
    (fixup_ok l Hok) Hd He) as Hseg.
  destruct (walk_valid module max_type_depth to_string with_capacity func Hregs (function_count module)
    (constant_count module) (strings_size module) (func_end func) (S (length (bytecode module))) _
    {| instr_starts := ∅; pending_jumps := []; errors := [] |} _ Hseg)
    as (w & Hw & Hwe & Hwj & _ & Hwst).
  { rewrite length_segments, Hd, !length_app. pose proof (length_program l'). lia. }
  { apply Forall_forall. intros [[a i] b] Hi. apply segments_entry in Hi as (k & Hk & _).
    destruct (compiled_valid module max_type_depth func l Hok Hval i) as [Hp Hv];
      [by eapply list_elem_of_lookup_2|]. cbn [fst snd]. split; [by destruct i|done]. }
  unfold validates, validate_function_bytecode.
  change (Z.to_nat (bytecode_offset func)) with (func_start func). fold (func_end func).
  rewrite (proj2 (Nat.ltb_ge _ _)) by (rewrite He, Hd, !length_app; lia).
  rewrite Hs, Hw. cbn [errors pending_jumps] in *. cbn. f_equal. rewrite Hwe, Hwj. cbn [app].
  apply concat_map_nil, Forall_forall. intros jump Hjump.
  apply list_elem_of_In, in_concat in Hjump as (js & Hjs & Hjump).
  apply in_map_iff in Hjs as (entry & <- & Hi%list_elem_of_In).
  pose proof (compiled_checks module max_type_depth func l before after Hok Hin Hset Hd Hlen He Hval
    (instr_starts w) entry Hwst Hi) as Hc.
  rewrite Forall_forall in Hc. by apply Hc, list_elem_of_In.
Qed.

(** ** A module *)

(** A function that calls the other one in a loop. *)
Definition sample_body : list Instruction.t :=
  [Instruction.JmpNot 1 4; Instruction.LoadK 2 0; Instruction.Call 3 1 {| start := 1; count := 2 |};
   Instruction.Jmp (-3); Instruction.Nop].

Definition sample_func : FunctionDescriptor :=
  {| func_id := 0; bytecode_offset := 1; bytecode_length := 14; register_count := 4; param_count := 1 |}.

Definition sample_module : VbcModule :=
  {| type_ids := []; constants := [ConstInt 7]; string_ids := []; strings_size := 0;
     functions := [sample_func;
       {| func_id := 1; bytecode_offset := 0; bytecode_length := 1; register_count := 2; param_count := 2 |}];
     bytecode := (encode_instructions [Instruction.Nop] []).1
       ++ (encode_instructions_with_fixup sample_body []).1 ++ [0] |}.

Lemma compiled_code_validates_witness :
  forallb instruction_ok sample_body = true ∧
  validates sample_module 100 (λ _, ""%string) (λ _, true) sample_func.
Proof.
  split; [by vm_compute|].
  assert (Hval : Forall (λ i, plain i = true ∧ operands_valid sample_module 100 sample_func
    (function_count sample_module) (constant_count sample_module) (strings_size sample_module) i) sample_body).
  { repeat constructor; try done; try (by right); intros ? [= <-]; done. }
  pose proof (compiled_code_validates sample_module 100 (λ _, ""%string) (λ _, true) sample_func
    sample_body [Opcode.to_byte Opcode.Nop] [0] eq_refl ltac:(by apply targets_inside_list; vm_compute)
    ltac:(by vm_compute)) as H.
  assert (E : encode_instructions_with_fixup sample_body [] =
    ([82; 1; 20; 1; 2; 0; 91; 3; 1; 1; 2; 80; 25; 10], 14%nat)) by (by vm_compute).
  rewrite E in H. apply H; [by vm_compute|by vm_compute|by vm_compute|by vm_compute|by vm_compute|done|exact Hval].
Defined.

Lemma validated_paths_witness :
  validate_bytecode sample_module 100 (λ _, ""%string) (λ _, true) = Ok [] ∧
  ∃ pc, flows sample_module (λ _, true) (func_end sample_func) (func_start sample_func) pc ∧ pc = 14%nat ∧
    ∃ i next, decode_instruction (bytecode sample_module) (λ _, true) pc = (Ok i, next) ∧
      (pc < next ≤ func_end sample_func)%nat.
Proof.
  assert (Hv : validate_bytecode sample_module 100 (λ _, ""%string) (λ _, true) = Ok []) by (by vm_compute).
  assert (Hf : flows sample_module (λ _, true) (func_end sample_func) (func_start sample_func) 14).
  { refine (flows_jump sample_module (λ _, true) _ _ 1%nat (Instruction.JmpNot 1 10) 4%nat 10 _ _ _ _).
    - exact (flows_start sample_module (λ _, true) _ 1%nat).
    - by vm_compute; lia.
    - by vm_compute.
    - apply elem_of_cons. by left. }
  split; [exact Hv|]. exists 14%nat. split; [exact Hf|]. split; [done|].
  destruct (validated_paths sample_module 100 (λ _, ""%string) (λ _, true) sample_func 14 Hv
    ltac:(apply elem_of_cons; by left) ltac:(by vm_compute) ltac:(vm_compute; lia) ltac:(by vm_compute) Hf)
    as (_ & [E|(i & next & Hd & Hn & _)]); [by vm_compute in E|].
  exists i, next. split; [exact Hd|exact Hn].
Defined.

(** The bound on a string identifier is the size of the table in bytes: with the
    one string at offset 0, a message at offset 1, inside it, passes. *)
Definition string_module : VbcModule :=
  {| type_ids := []; constants := []; string_ids := [0]; strings_size := 9;
     functions :=
       [{| func_id := 0; bytecode_offset := 0; bytecode_length := 2; register_count := 1; param_count := 0 |}];
     bytecode := (encode_instructions [Instruction.Panic 1] []).1 |}.

Lemma message_inside_a_string :
  validate_bytecode string_module 100 (λ _, ""%string) (λ _, true) = Ok [] ∧
  (decode_instruction (bytecode string_module) (λ _, true) 0%nat).1 = Ok (Instruction.Panic 1) ∧
  has_string string_module 1 = false.
Proof. by vm_compute. Qed.
