(* ===== verification/WidthArith.v ===== *)
(** * Arithmetic at a width

    [verum_vbc/src/interpreter/dispatch_table/handlers/arith_helpers.rs], the
    bit operations of [arith_extended.rs] and the coercions of operands in
    [lenient.rs] and [value.rs].  An operand is an [i64]; the width is the byte
    that the instruction carries.  Shifts and subtractions of that byte behave
    as in a release build; [None] is the panic of a division by zero. *)

From S2P Require Import Prelude Words NanBox.

Abbreviation i64 := Z (only parsing).
Abbreviation u64 := Z (only parsing).

(** [a as u64] and [a as i64]. *)
Definition as_u64 (a : Z) : u64 := wrap 64 a.
Definition as_i64_cast (a : Z) : i64 := to_signed 64 a.

Definition I64_MIN : i64 := - 2 ^ 63.
Definition I64_MAX : i64 := 2 ^ 63 - 1.

(** ** Masks and sign extension *)
Definition type_mask (width : Z) : u64 :=
  if width =? 8 then 0xFF else if width =? 16 then 0xFFFF
  else if width =? 32 then 0xFFFFFFFF else 0xFFFFFFFFFFFFFFFF.

(** [1u64 << (width - 1)], the byte wrapping and the shift taken modulo 64. *)
Definition sign_bit (width : Z) : u64 := 2 ^ (Z.land (wrap 8 (width - 1)) 63).

Definition sign_extend (value : u64) (width : Z) (mask : u64) : i64 :=
  if negb (Z.land value (sign_bit width) =? 0)
  then as_i64_cast (Z.lor value (as_u64 (Z.lnot mask)))
  else as_i64_cast value.

(** The end of every operation that wraps. *)
Definition finish (result : u64) (width : Z) (signed : bool) : i64 :=
  if signed then sign_extend result width (type_mask width) else as_i64_cast result.

(** ** Wrapping *)
Definition wrapping_add (a b : i64) (width : Z) (signed : bool) : i64 :=
  finish (Z.land (as_u64 (as_u64 a + as_u64 b)) (type_mask width)) width signed.
Definition wrapping_sub (a b : i64) (width : Z) (signed : bool) : i64 :=
  finish (Z.land (as_u64 (as_u64 a - as_u64 b)) (type_mask width)) width signed.
Definition wrapping_mul (a b : i64) (width : Z) (signed : bool) : i64 :=
  finish (Z.land (as_u64 (as_u64 a * as_u64 b)) (type_mask width)) width signed.
Definition wrapping_neg (a : i64) (width : Z) (signed : bool) : i64 :=
  finish (Z.land (as_u64 (0 - as_u64 a)) (type_mask width)) width signed.

(** The operand at the width, as the division and the absolute value see it. *)
Definition operand (a : i64) (width : Z) : u64 := Z.land (as_u64 a) (type_mask width).

Definition wrapping_div (a b : i64) (width : Z) (signed : bool) : option i64 :=
  let mask := type_mask width in
  if signed then
    let av := sign_extend (operand a width) width mask in
    let bv := sign_extend (operand b width) width mask in
    if bv =? 0 then None
    else Some (sign_extend (Z.land (as_u64 (as_i64_cast (Z.quot av bv))) mask) width mask)
  else
    let av := operand a width in
    let bv := operand b width in
    if bv =? 0 then None else Some (as_i64_cast (Z.land (Z.quot av bv) mask)).

Definition wrapping_rem (a b : i64) (width : Z) (signed : bool) : option i64 :=
  let mask := type_mask width in
  if signed then
    let av := sign_extend (operand a width) width mask in
    let bv := sign_extend (operand b width) width mask in
    if bv =? 0 then None
    else Some (sign_extend (Z.land (as_u64 (Z.rem av bv)) mask) width mask)
  else
    let av := operand a width in
    let bv := operand b width in
    if bv =? 0 then None else Some (as_i64_cast (Z.land (Z.rem av bv) mask)).

Definition wrapping_abs (a : i64) (width : Z) (signed : bool) : i64 :=
  let mask := type_mask width in
  if signed then
    let av := sign_extend (operand a width) width mask in
    sign_extend (Z.land (as_u64 (as_i64_cast (Z.abs av))) mask) width mask
  else as_i64_cast (operand a width).

(** The shifts take the amount modulo the width, which panics when it is zero. *)
Definition wrapping_shl (a : i64) (b : Z) (width : Z) (signed : bool) : option i64 :=
  if width =? 0 then None
  else
    let shift := b mod width in
    Some (finish (Z.land (as_u64 (Z.shiftl (as_u64 a) (Z.land shift 63))) (type_mask width)) width signed).

Definition wrapping_shr (a : i64) (b : Z) (width : Z) (signed : bool) : option i64 :=
  if width =? 0 then None
  else
    let shift := Z.land (b mod width) 63 in
    let mask := as_i64_cast (type_mask width) in
    if signed then
      let sign_bit := as_i64_cast (2 ^ Z.land (width - 1) 63) in
      let val := Z.land a mask in
      let extended := if negb (Z.land val sign_bit =? 0) then Z.lor val (Z.lnot mask) else val in
      Some (Z.land (Z.shiftr extended shift) mask)
    else Some (as_i64_cast (Z.shiftr (operand a width) shift)).

(** ** Saturating *)
Definition type_bounds (width : Z) (signed : bool) : i64 * i64 :=
  if signed then
    if width =? 8 then (- 2 ^ 7, 2 ^ 7 - 1) else if width =? 16 then (- 2 ^ 15, 2 ^ 15 - 1)
    else if width =? 32 then (- 2 ^ 31, 2 ^ 31 - 1) else (I64_MIN, I64_MAX)
  else
    if width =? 8 then (0, 2 ^ 8 - 1) else if width =? 16 then (0, 2 ^ 16 - 1)
    else if width =? 32 then (0, 2 ^ 32 - 1) else (0, I64_MAX).

(** [checked_op]: the exact result where the type holds it. *)
Definition checked_i64 (z : Z) : option i64 :=
  if (I64_MIN <=? z) && (z <=? I64_MAX) then Some z else None.
Definition checked_u64 (z : Z) : option u64 :=
  if (0 <=? z) && (z <=? 2 ^ 64 - 1) then Some z else None.

Definition saturating_add (a b : i64) (width : Z) (signed : bool) : i64 :=
  let '(min_val, max_val) := type_bounds width signed in
  if signed then
    match checked_i64 (a + b) with
    | Some result => if max_val <? result then max_val else if result <? min_val then min_val else result
    | None => if 0 <? b then max_val else min_val
    end
  else
    match checked_u64 (as_u64 a + as_u64 b) with
    | Some result => if as_u64 max_val <? result then max_val else as_i64_cast result
    | None => max_val
    end.

Definition saturating_sub (a b : i64) (width : Z) (signed : bool) : i64 :=
  let '(min_val, max_val) := type_bounds width signed in
  if signed then
    match checked_i64 (a - b) with
    | Some result => if max_val <? result then max_val else if result <? min_val then min_val else result
    | None => if b <? 0 then max_val else min_val
    end
  else
    let au := as_u64 a in
    let bu := as_u64 b in
    if au <? bu then 0 else as_i64_cast (au - bu).

Definition saturating_mul (a b : i64) (width : Z) (signed : bool) : i64 :=
  let '(min_val, max_val) := type_bounds width signed in
  if signed then
    match checked_i64 (a * b) with
    | Some result => if max_val <? result then max_val else if result <? min_val then min_val else result
    | None => if ((0 <? a) && (0 <? b)) || ((a <? 0) && (b <? 0)) then max_val else min_val
    end
  else
    match checked_u64 (as_u64 a * as_u64 b) with
    | Some result => if as_u64 max_val <? result then max_val else as_i64_cast result
    | None => max_val
    end.

(** [-a] wraps in a release build. *)
Definition saturating_neg (a : i64) (width : Z) (signed : bool) : i64 :=
  if negb signed then 0
  else
    let '(min_val, max_val) := type_bounds width true in
    if a =? min_val then max_val else as_i64_cast (- a).

Definition saturating_abs (a : i64) (width : Z) (signed : bool) : i64 :=
  if negb signed then a
  else
    let '(min_val, max_val) := type_bounds width true in
    if a =? min_val then max_val else if a <? 0 then as_i64_cast (- a) else a.

(** ** Checked negation and absolute value: the value, and whether there is one *)
Definition checked_neg (a : i64) (width : Z) (signed : bool) : i64 * bool :=
  if negb signed then (0, a =? 0)
  else
    let '(min_val, _) := type_bounds width true in
    if a =? min_val then (0, false) else (as_i64_cast (- a), true).

Definition checked_abs (a : i64) (width : Z) (signed : bool) : i64 * bool :=
  if negb signed then (a, true)
  else
    let '(min_val, _) := type_bounds width true in
    if a =? min_val then (0, false)
    else if a <? 0 then (as_i64_cast (- a), true) else (a, true).

(** ** Bits of a 64-bit word *)

(** [leading_zeros], [trailing_zeros], [count_ones]. *)
Definition leading_zeros (v : u64) : Z := if v =? 0 then 64 else 63 - Z.log2 v.
Fixpoint count_trailing (fuel : nat) (v : u64) : Z :=
  match fuel with
  | O => 0
  | S fuel => if Z.odd v then 0 else 1 + count_trailing fuel (Z.shiftr v 1)
  end.
Definition trailing_zeros (v : u64) : Z := count_trailing 64 v.
Definition count_ones (v : u64) : Z :=
  foldr (λ i n, Z.b2z (Z.testbit v (Z.of_nat i)) + n) 0 (seq 0 64).
Definition swap_bytes (v : u64) : u64 := from_le_bytes (rev (to_le_bytes 8 v)).
Definition reverse_bits (v : u64) : u64 :=
  foldl (λ r i, 2 * r + Z.b2z (Z.testbit v (Z.of_nat i))) 0 (seq 0 64).

(** [rotate_left] and [rotate_right] take the amount modulo 64. *)
Definition rotate_left (v : u64) (amount : Z) : u64 :=
  let n := amount mod 64 in Z.lor (as_u64 (Z.shiftl v n)) (Z.shiftr v (64 - n)).
Definition rotate_right (v : u64) (amount : Z) : u64 :=
  let n := amount mod 64 in Z.lor (Z.shiftr v n) (as_u64 (Z.shiftl v (64 - n))).

Definition funnel_shift_left (hi lo : u64) (amount : Z) : u64 :=
  let n := Z.land amount 63 in
  if n =? 0 then hi else Z.lor (as_u64 (Z.shiftl hi n)) (Z.shiftr lo (64 - n)).
Definition funnel_shift_right (hi lo : u64) (amount : Z) : u64 :=
  let n := Z.land amount 63 in
  if n =? 0 then lo else Z.lor (as_u64 (Z.shiftl hi (64 - n))) (Z.shiftr lo n).

(** ** Conversions between widths *)
Definition sext (v : i64) (from_bits : Z) : i64 :=
  if from_bits =? 8 then to_signed 8 v else if from_bits =? 16 then to_signed 16 v
  else if from_bits =? 32 then to_signed 32 v else v.
Definition low_bits (v : u64) (bits : Z) : i64 :=
  let mask := if 64 <=? bits then 2 ^ 64 - 1 else 2 ^ bits - 1 in
  as_i64_cast (Z.land v mask).

(** ** Operands *)

(** [f64 as i64]: truncation, with the range of the target as a limit and zero
    for a NaN. *)
Definition f64_as_i64 (bits : Z) : i64 :=
  let exponent := Z.land (Z.shiftr bits 52) 0x7FF in
  let mantissa := Z.land bits (2 ^ 52 - 1) in
  let negative := Z.testbit bits 63 in
  if exponent =? 0x7FF
  then if negb (mantissa =? 0) then 0 else if negative then I64_MIN else I64_MAX
  else
    let m := if exponent =? 0 then mantissa else mantissa + 2 ^ 52 in
    let magnitude := Z.shiftl m (Z.max exponent 1 - 1075) in
    let z := if negative then - magnitude else magnitude in
    Z.max I64_MIN (Z.min I64_MAX z).

(** [floor], [ceil] and [round], which rounds half away from zero, before the
    cast: whether the magnitude goes up, from its sign and its remainder. *)
Definition f64_round_as_i64 (up : bool → Z → Z → bool) (bits : Z) : i64 :=
  let exponent := Z.land (Z.shiftr bits 52) 0x7FF in
  let mantissa := Z.land bits (2 ^ 52 - 1) in
  let negative := Z.testbit bits 63 in
  if exponent =? 0x7FF then f64_as_i64 bits
  else
    let m := if exponent =? 0 then mantissa else mantissa + 2 ^ 52 in
    let shift := 1075 - Z.max exponent 1 in
    if shift <=? 0 then f64_as_i64 bits
    else
      let magnitude := Z.shiftr m shift in
      let remainder := Z.land m (2 ^ shift - 1) in
      let magnitude := if up negative remainder shift then magnitude + 1 else magnitude in
      let z := if negative then - magnitude else magnitude in
      Z.max I64_MIN (Z.min I64_MAX z).
Definition up_floor (negative : bool) (remainder shift : Z) : bool := negative && negb (remainder =? 0).
Definition up_ceil (negative : bool) (remainder shift : Z) : bool := negb negative && negb (remainder =? 0).
Definition up_round (negative : bool) (remainder shift : Z) : bool := 2 ^ (shift - 1) <=? remainder.

(** [i64 as f64]: the nearest float, ties to even. *)
Definition f64_of_i64 (i : i64) : Z :=
  let n := Z.abs i in
  let sign := if i <? 0 then 2 ^ 63 else 0 in
  if n =? 0 then 0
  else
    let l := Z.log2 n in
    let mantissa :=
      if l <=? 52 then Z.shiftl n (52 - l)
      else
        let r := l - 52 in
        let q := Z.shiftr n r in
        let remainder := Z.land n (2 ^ r - 1) in
        if (2 ^ (r - 1) <? remainder) || ((remainder =? 2 ^ (r - 1)) && Z.odd q) then q + 1 else q in
    (* a mantissa of 2 ^ 53 carries into the exponent *)
    sign + Z.shiftl (l + 1022) 52 + mantissa.

(** [i64_or_zero]. *)
Definition lenient_i64 (t : Tables) (v : Value) : i64 :=
  if is_int v then as_i64 t v
  else if is_float v || is_nan_float v then f64_as_i64 (float_bits v)
  else 0.

(** [Value::as_integer_compatible]. *)
Definition as_integer_compatible (t : Tables) (v : Value) : i64 :=
  if is_bool v then Z.land v 1
  else if is_float v then f64_as_i64 (float_bits v)
  else if is_int v then as_i64 t v
  else if is_ptr v then Z.land v PAYLOAD_MASK
  else if is_unit v || is_nil v then 0
  else sign_extend_48 v.
