(* ===== verification/WidthArithFacts.v ===== *)
(** * Arithmetic at a width: facts

    Wrapping operations give the exact result modulo the width, saturating
    operations the nearest value in range, with the exceptions stated. *)

From S2P Require Import Prelude Words NanBox WidthArith.

(** The widths that instructions carry. *)
Definition is_width (w : Z) : Prop := w = 8 ∨ w = 16 ∨ w = 32 ∨ w = 64.

(** The number an operand stands for, and the [i64] that stands for a number. *)
Definition number (w : Z) (signed : bool) (a : Z) : Z := if signed then to_signed w a else wrap w a.
Definition represent (w : Z) (signed : bool) (z : Z) : Z :=
  if signed then to_signed w z else to_signed 64 (wrap w z).

Section width.
Context (w : Z) (Hw : is_width w).

Lemma width_bounds : 8 ≤ w ≤ 64.
Proof using Hw. destruct Hw as [->|[->|[->| ->]]]; lia. Qed.

Lemma type_mask_pow : type_mask w = 2 ^ w - 1.
Proof using Hw. destruct Hw as [->|[->|[->| ->]]]; reflexivity. Qed.

Lemma sign_bit_pow : sign_bit w = 2 ^ (w - 1).
Proof using Hw. destruct Hw as [->|[->|[->| ->]]]; reflexivity. Qed.

Lemma land_type_mask z : Z.land z (type_mask w) = wrap w z.
Proof using Hw. rewrite type_mask_pow. apply land_mask. pose proof width_bounds. lia. Qed.

(** A 64-bit word differs from its number by a multiple of the width's modulus. *)
Lemma modulus_64 : 2 ^ 64 = 2 ^ (64 - w) * 2 ^ w.
Proof using Hw. pose proof width_bounds. rewrite <- Z.pow_add_r by lia. f_equal. lia. Qed.

Lemma as_u64_shift z : ∃ k, as_u64 z = z + k * 2 ^ w.
Proof using Hw.
  exists (- (z / 2 ^ 64) * 2 ^ (64 - w)). unfold as_u64, wrap. rewrite Z.mod_eq by lia.
  rewrite modulus_64 at 1. ring.
Qed.

Lemma as_i64_shift z : ∃ k, as_i64_cast z = z + k * 2 ^ w.
Proof using Hw.
  destruct (as_u64_shift z) as [k Hk]. unfold as_i64_cast, to_signed. fold (as_u64 z). cbv zeta.
  destruct (_ <? _); [by exists k|]. exists (k - 2 ^ (64 - w)). rewrite Hk, modulus_64 at 1. ring.
Qed.

Lemma to_signed_shift z : ∃ k, to_signed w z = z + k * 2 ^ w.
Proof using Hw.
  pose proof width_bounds. unfold to_signed, wrap. cbv zeta. rewrite !Z.mod_eq by lia.
  destruct (_ <? _); [exists (- (z / 2 ^ w))|exists (- (z / 2 ^ w) - 1)]; ring.
Qed.

Lemma wrap_congr a b k : a = b + k * 2 ^ w → wrap w a = wrap w b.
Proof using Hw. intros ->. apply wrap_shift. pose proof width_bounds. lia. Qed.

Lemma wrap_as_u64 z : wrap w (as_u64 z) = wrap w z.
Proof using Hw. destruct (as_u64_shift z) as [k ->]. by eapply wrap_congr. Qed.
Lemma wrap_as_i64 z : wrap w (as_i64_cast z) = wrap w z.
Proof using Hw. destruct (as_i64_shift z) as [k ->]. by eapply wrap_congr. Qed.
Lemma wrap_to_signed z : wrap w (to_signed w z) = wrap w z.
Proof using Hw. destruct (to_signed_shift z) as [k ->]. by eapply wrap_congr. Qed.
Lemma wrap_idem z : wrap w (wrap w z) = wrap w z.
Proof using Hw. apply wrap_id, wrap_range. pose proof width_bounds. lia. Qed.

(** Operations modulo the width. *)
Lemma wrap_add_u64 a b : wrap w (as_u64 a + as_u64 b) = wrap w (a + b).
Proof using Hw.
  destruct (as_u64_shift a) as [k ->], (as_u64_shift b) as [j ->].
  apply (wrap_congr _ _ (k + j)). ring.
Qed.
Lemma wrap_sub_u64 a b : wrap w (as_u64 a - as_u64 b) = wrap w (a - b).
Proof using Hw.
  destruct (as_u64_shift a) as [k ->], (as_u64_shift b) as [j ->].
  apply (wrap_congr _ _ (k - j)). ring.
Qed.
Lemma wrap_mul_u64 a b : wrap w (as_u64 a * as_u64 b) = wrap w (a * b).
Proof using Hw.
  destruct (as_u64_shift a) as [k ->], (as_u64_shift b) as [j ->].
  apply (wrap_congr _ _ (a * j + k * b + k * j * 2 ^ w)). ring.
Qed.

(** ** The end of an operation *)
Lemma sign_extend_spec v : is_u w v → sign_extend v w (type_mask w) = to_signed w v.
Proof using Hw.
  intros Hv. pose proof width_bounds as B. unfold sign_extend. rewrite sign_bit_pow, land_bit_zero, negb_involutive by lia.
  unfold is_u in Hv. rewrite testbit_top by (replace (w - 1 + 1) with w by lia; lia).
  unfold to_signed at 1. cbv zeta. rewrite (wrap_id w v) by done.
  pose proof (pow2_half w ltac:(lia)) as P. pose proof (Z.pow_le_mono_r 2 w 64 ltac:(lia) ltac:(lia)) as Hle.
  destruct (Z.leb_spec (2 ^ (w - 1)) v) as [Hge|Hlt]; [rewrite (proj2 (Z.ltb_ge _ _)) by lia|rewrite (proj2 (Z.ltb_lt _ _)) by lia].
  - unfold as_u64. rewrite type_mask_pow. unfold Z.lnot.
    replace (Z.pred (- (2 ^ w - 1))) with ((2 ^ (64 - w) - 1) * 2 ^ w + (-1) * 2 ^ 64) by (rewrite modulus_64; lia).
    rewrite wrap_shift, wrap_id, <- Z.shiftl_mul_pow2, lor_shiftl by (unfold is_u; pose proof modulus_64; nia || lia).
    replace (v + (2 ^ (64 - w) - 1) * 2 ^ w) with ((v - 2 ^ w) + 1 * 2 ^ 64) by (rewrite modulus_64; lia).
    unfold as_i64_cast, to_signed. rewrite wrap_shift by lia. fold (to_signed 64 (v - 2 ^ w)).
    apply to_signed_id; [lia|]. unfold is_i. change (64 - 1) with 63. pose proof (Z.pow_le_mono_r 2 (w - 1) 63 ltac:(lia) ltac:(lia)). lia.
  - apply to_signed_small; [lia|]. pose proof (Z.pow_le_mono_r 2 (w - 1) 63 ltac:(lia) ltac:(lia)). change (64 - 1) with 63. lia.
Qed.

Lemma to_signed_of_wrap z : to_signed w (wrap w z) = to_signed w z.
Proof using Hw. unfold to_signed. by rewrite wrap_idem. Qed.

Lemma finish_spec z signed : finish (wrap w z) w signed = represent w signed z.
Proof using Hw.
  unfold finish, represent. destruct signed; [|done].
  rewrite sign_extend_spec, to_signed_of_wrap by (apply wrap_range; pose proof width_bounds; lia). done.
Qed.

Lemma number_signed a : sign_extend (operand a w) w (type_mask w) = to_signed w a.
Proof using Hw.
  unfold operand. rewrite land_type_mask, sign_extend_spec by (apply wrap_range; pose proof width_bounds; lia).
  by rewrite to_signed_of_wrap, <- (to_signed_of_wrap (as_u64 a)), wrap_as_u64, to_signed_of_wrap.
Qed.

Lemma number_unsigned a : operand a w = wrap w a.
Proof using Hw. unfold operand. by rewrite land_type_mask, wrap_as_u64. Qed.

(** Equal modulo the width, equal in the register. *)
Lemma represent_congr signed x y : wrap w x = wrap w y → represent w signed x = represent w signed y.
Proof using Hw.
  intros H. unfold represent. destruct signed; [|by rewrite H].
  by rewrite <- (to_signed_of_wrap x), H, to_signed_of_wrap.
Qed.

Lemma finish_congr signed x y : wrap w x = wrap w y →
  finish (Z.land x (type_mask w)) w signed = represent w signed y.
Proof using Hw. intros H. rewrite land_type_mask, finish_spec. by apply represent_congr. Qed.

Lemma represent_false z : as_i64_cast (wrap w z) = represent w false z.
Proof using Hw. done. Qed.

Lemma signed_again z : sign_extend (Z.land (as_u64 z) (type_mask w)) w (type_mask w) = represent w true z.
Proof using Hw.
  rewrite land_type_mask, sign_extend_spec, to_signed_of_wrap by (apply wrap_range; pose proof width_bounds; lia).
  apply (represent_congr true), wrap_as_u64.
Qed.

Lemma signed_again_cast z :
  sign_extend (Z.land (as_u64 (as_i64_cast z)) (type_mask w)) w (type_mask w) = represent w true z.
Proof using Hw. rewrite signed_again. apply (represent_congr true), wrap_as_i64. Qed.

Lemma shift_amount b : Z.land (b mod w) 63 = b mod w.
Proof using Hw.
  pose proof width_bounds. pose proof (Z.mod_pos_bound b w ltac:(lia)).
  change 63 with (2 ^ 6 - 1). rewrite land_mask by lia. apply Z.mod_small. lia.
Qed.

Lemma width_not_zero : (w =? 0) = false.
Proof using Hw. pose proof width_bounds. lia. Qed.

Lemma wrapping_shl_spec a b signed :
  wrapping_shl a b w signed = Some (represent w signed (a * 2 ^ (b mod w))).
Proof using Hw.
  pose proof width_bounds. pose proof (Z.mod_pos_bound b w ltac:(lia)).
  unfold wrapping_shl. rewrite width_not_zero, shift_amount. f_equal. apply finish_congr.
  rewrite wrap_as_u64, Z.shiftl_mul_pow2 by lia. destruct (as_u64_shift a) as [k ->].
  apply (wrap_congr _ _ (k * 2 ^ (b mod w))). ring.
Qed.

Lemma division_spec a b signed : number w signed b ≠ 0 →
  wrapping_div a b w signed = Some (represent w signed (Z.quot (number w signed a) (number w signed b))) ∧
  wrapping_rem a b w signed = Some (represent w signed (Z.rem (number w signed a) (number w signed b))).
Proof using Hw.
  unfold number, wrapping_div, wrapping_rem. cbv zeta. destruct signed; intros Hb.
  - rewrite !number_signed, (proj2 (Z.eqb_neq _ _)) by done.
    by rewrite signed_again_cast, signed_again.
  - rewrite !number_unsigned, (proj2 (Z.eqb_neq _ _)) by done. by rewrite !land_type_mask.
Qed.
End width.

(** At a width of the language each result represents the exact one. *)
Lemma wrapping_at_width (w a b : Z) (signed : bool) : is_width w →
  wrapping_add a b w signed = represent w signed (a + b) ∧
  wrapping_sub a b w signed = represent w signed (a - b) ∧
  wrapping_mul a b w signed = represent w signed (a * b) ∧
  wrapping_neg a w signed = represent w signed (- a) ∧
  wrapping_abs a w signed = represent w signed (Z.abs (number w signed a)) ∧
  wrapping_shl a b w signed = Some (represent w signed (a * 2 ^ (b mod w))) ∧
  (number w signed b ≠ 0 →
   wrapping_div a b w signed = Some (represent w signed (Z.quot (number w signed a) (number w signed b))) ∧
   wrapping_rem a b w signed = Some (represent w signed (Z.rem (number w signed a) (number w signed b)))).
Proof.
  intros Hw. split_and!; try apply finish_congr; try done.
  - by rewrite wrap_as_u64, wrap_add_u64.
  - by rewrite wrap_as_u64, wrap_sub_u64.
  - by rewrite wrap_as_u64, wrap_mul_u64.
  - rewrite wrap_as_u64 by done. change 0 with (as_u64 0). by rewrite wrap_sub_u64.
  - unfold wrapping_abs, number. destruct signed; cbv zeta.
    + by rewrite number_signed, signed_again_cast.
    + rewrite number_unsigned by done. unfold represent, as_i64_cast.
      pose proof (wrap_range w a ltac:(pose proof (width_bounds w Hw); lia)) as [? _].
      by rewrite Z.abs_eq, wrap_idem.
  - by apply wrapping_shl_spec.
  - by apply division_spec.
Qed.

(** ** Shifting right *)

(** A quotient lies between the operand and zero. *)
Lemma div_range w a p : 0 < w → 0 < p → is_i w a → is_i w (a / p).
Proof.
  intros Hw Hp [Hl Hu]. pose proof (Z.pow_pos_nonneg 2 (w - 1) ltac:(lia) ltac:(lia)) as Hm.
  pose proof (Z.mul_nonneg_nonneg (p - 1) (2 ^ (w - 1)) ltac:(lia) ltac:(lia)). unfold is_i. split.
  - apply Z.div_le_lower_bound; lia.
  - apply Z.div_lt_upper_bound; lia.
Qed.

Section shift_right.
Context (w : Z) (Hw : is_width w).

Lemma extended_spec a : is_i 64 a →
  let mask := as_i64_cast (type_mask w) in
  let val := Z.land a mask in
  (if negb (Z.land val (as_i64_cast (2 ^ Z.land (w - 1) 63)) =? 0) then Z.lor val (Z.lnot mask) else val)
  = to_signed w a.
Proof using Hw.
  intros Ha. cbv zeta. destruct (decide (w = 64)) as [->|Hne].
  - change (as_i64_cast (type_mask 64)) with (-1). change (Z.lnot (-1)) with 0.
    rewrite Z.land_m1_r, Z.lor_0_r, to_signed_id by (done || lia). by case_match.
  - pose proof (width_bounds w Hw) as B. rewrite type_mask_pow by done.
    pose proof (Z.pow_le_mono_r 2 w 63 ltac:(lia) ltac:(unfold is_width in Hw; lia)).
    pose proof (Z.pow_le_mono_r 2 (w - 1) 62 ltac:(lia) ltac:(unfold is_width in Hw; lia)).
    pose proof (Z.pow_pos_nonneg 2 w ltac:(lia) ltac:(lia)).
    unfold as_i64_cast. rewrite to_signed_small by (change (64 - 1) with 63; lia).
    rewrite land_mask by lia. fold (wrap w a).
    replace (Z.land (w - 1) 63) with (w - 1) by (destruct Hw as [->|[->|[->| ->]]]; reflexivity).
    rewrite to_signed_small by (change (64 - 1) with 63; lia).
    pose proof (wrap_range w a ltac:(lia)) as Hr. unfold is_u in Hr.
    rewrite land_bit_zero, negb_involutive, testbit_top by (lia || (replace (w - 1 + 1) with w by lia; lia)).
    unfold to_signed. cbv zeta. destruct (Z.leb_spec (2 ^ (w - 1)) (wrap w a)).
    + rewrite (proj2 (Z.ltb_ge _ _)) by lia. unfold Z.lnot.
      replace (Z.pred (- (2 ^ w - 1))) with (-1 * 2 ^ w) by lia.
      rewrite <- Z.shiftl_mul_pow2, lor_shiftl by lia. lia.
    + by rewrite (proj2 (Z.ltb_lt _ _)) by lia.
Qed.

Lemma wrapping_shr_spec a b signed : is_i 64 a →
  wrapping_shr a b w signed
  = Some (represent w (signed && (w =? 64)) (number w signed a / 2 ^ (b mod w))).
Proof using Hw.
  intros Ha. pose proof (width_bounds w Hw). pose proof (Z.mod_pos_bound b w ltac:(lia)).
  unfold wrapping_shr. rewrite width_not_zero, shift_amount by done. cbv zeta.
  destruct signed; f_equal; cbn [andb number].
  - rewrite extended_spec, shiftr_div by (done || lia).
    destruct (Z.eqb_spec w 64) as [->|Hne]; cbn [represent].
    + change (as_i64_cast (type_mask 64)) with (-1). rewrite Z.land_m1_r. symmetry.
      apply to_signed_id; [lia|]. rewrite to_signed_id by (done || lia).
      pose proof (Z.pow_pos_nonneg 2 (b mod 64) ltac:(lia) ltac:(lia)).
      by apply div_range.
    + pose proof (Z.pow_le_mono_r 2 w 63 ltac:(lia) ltac:(unfold is_width in Hw; lia)).
      pose proof (Z.pow_pos_nonneg 2 w ltac:(lia) ltac:(lia)).
      unfold as_i64_cast. rewrite type_mask_pow, (to_signed_small 64) by solve [done|lia|change (64 - 1) with 63; lia].
      rewrite land_mask by lia. fold (wrap w (to_signed w a / 2 ^ (b mod w))). symmetry. apply to_signed_small; [lia|].
      pose proof (wrap_range w (to_signed w a / 2 ^ (b mod w)) ltac:(lia)) as Hr. unfold is_u in Hr.
      change (64 - 1) with 63. lia.
  - rewrite number_unsigned, shiftr_div by (done || lia). unfold represent, as_i64_cast. f_equal. symmetry.
    apply wrap_id. pose proof (wrap_range w a ltac:(lia)) as Hr. unfold is_u in *.
    pose proof (Z.pow_pos_nonneg 2 (b mod w) ltac:(lia) ltac:(lia)).
    split; [apply Z.div_pos; lia|]. apply Z.div_lt_upper_bound; nia.
Qed.
End shift_right.

(** Shifting right forgets the sign: below 64 bits the result of a signed shift
    keeps the bits of the width only, so a negative operand, however it is shifted,
    leaves a non-negative number in the register and never the one that represents
    the arithmetic shift; the unsigned shift and the one at 64 bits are exact. *)
Theorem wrapping_shr_sign_lost (w a b : Z) (signed : bool) : is_width w → is_i 64 a →
  wrapping_shr a b w signed
  = Some (represent w (signed && (w =? 64)) (number w signed a / 2 ^ (b mod w))) ∧
  (signed = true → w < 64 → to_signed w a < 0 →
   ∃ r, wrapping_shr a b w signed = Some r ∧ 0 ≤ r ∧ r ≠ represent w true (to_signed w a / 2 ^ (b mod w))).
Proof.
  intros Hw Ha. split; [by apply wrapping_shr_spec|]. intros -> Hlt Hneg.
  eexists. split; [by apply wrapping_shr_spec|]. pose proof (width_bounds w Hw).
  replace (w =? 64) with false by lia. cbn [andb number]. set (q := to_signed w a / 2 ^ (b mod w)).
  pose proof (Z.mod_pos_bound b w ltac:(lia)). pose proof (Z.pow_pos_nonneg 2 (b mod w) ltac:(lia) ltac:(lia)).
  assert (q < 0) by (apply Z.div_lt_upper_bound; lia).
  assert (is_i w q) as Hq.
  { apply div_range; [lia|lia|]. apply to_signed_range. lia. }
  cbn [represent]. pose proof (wrap_range w q ltac:(lia)) as Hr. unfold is_u in Hr.
  pose proof (Z.pow_le_mono_r 2 w 63 ltac:(lia) ltac:(unfold is_width in Hw; lia)).
  rewrite to_signed_small by (change (64 - 1) with 63; lia). rewrite to_signed_id by (done || lia). lia.
Qed.

Lemma wrapping_shr_sign_lost_witness :
  is_width 8 ∧ ∃ r, wrapping_shr (-128) 1 8 true = Some r ∧ 0 ≤ r ∧ r ≠ -64.
Proof.
  split; [by left|].
  exact (proj2 (wrapping_shr_sign_lost 8 (-128) 1 true (or_introl eq_refl)
    ltac:(unfold is_i; lia)) eq_refl ltac:(lia) ltac:(vm_compute; done)).
Defined.

(** ** The documented widths *)

(** [instruction.rs] documents the widths 8, 16, 32, 64 and 128. *)
Definition documented (w : Z) : Prop := is_width w ∨ w = 128.

(** The width the code computes at. *)
Definition effective (w : Z) : Z := Z.min w 64.

Lemma effective_width w : documented w → is_width (effective w).
Proof. intros [[->|[->|[->| ->]]]| ->]; vm_compute; auto. Qed.

Lemma effective_id w : is_width w → effective w = w.
Proof. by intros [->|[->|[->| ->]]]. Qed.

Lemma land_mod_128 b : Z.land (b mod 128) 63 = Z.land (b mod 64) 63.
Proof.
  change 63 with (Z.ones 6). rewrite !Z.land_ones by lia. change (2 ^ 6) with 64.
  rewrite Z.mod_mod by lia. change 128 with (64 * 2). rewrite Z.rem_mul_r by lia.
  by rewrite Z.mul_comm, Z.mod_add, Z.mod_mod by lia.
Qed.

(** At 128 the arithmetic is the one at 64. *)
Lemma width_128 a b signed :
  wrapping_add a b 128 signed = wrapping_add a b 64 signed ∧
  wrapping_sub a b 128 signed = wrapping_sub a b 64 signed ∧
  wrapping_mul a b 128 signed = wrapping_mul a b 64 signed ∧
  wrapping_neg a 128 signed = wrapping_neg a 64 signed ∧
  wrapping_abs a 128 signed = wrapping_abs a 64 signed ∧
  wrapping_shl a b 128 signed = wrapping_shl a b 64 signed ∧
  wrapping_div a b 128 signed = wrapping_div a b 64 signed ∧
  wrapping_rem a b 128 signed = wrapping_rem a b 64 signed ∧
  wrapping_shr a b 128 signed = wrapping_shr a b 64 signed.
Proof.
  split_and!; try reflexivity;
    unfold wrapping_shl, wrapping_shr; cbv zeta; rewrite land_mod_128; reflexivity.
Qed.

(** C36. At the documented widths 8, 16, 32, 64 and 128 the wrapping operations
    compute modulo the width, cut to 64 bits: at 128, documented for the 128-bit
    types, they are those of 64 bits.  Each result of an addition, subtraction,
    multiplication, negation, absolute value and shift to the left represents
    the exact one at that width; shifts take their amount modulo it; a division
    by a number that is not zero rounds to zero and wraps at the one quotient
    out of range.  The shift to the right of an i64 gives the bits of the
    arithmetic (or unsigned) quotient, but a signed result of less than 64 bits
    is left without its sign extension. *)
Theorem wrapping_exact (w a b : Z) (signed : bool) : documented w →
  let e := effective w in
  wrapping_add a b w signed = represent e signed (a + b) ∧
  wrapping_sub a b w signed = represent e signed (a - b) ∧
  wrapping_mul a b w signed = represent e signed (a * b) ∧
  wrapping_neg a w signed = represent e signed (- a) ∧
  wrapping_abs a w signed = represent e signed (Z.abs (number e signed a)) ∧
  wrapping_shl a b w signed = Some (represent e signed (a * 2 ^ (b mod e))) ∧
  (number e signed b ≠ 0 →
   wrapping_div a b w signed = Some (represent e signed (Z.quot (number e signed a) (number e signed b))) ∧
   wrapping_rem a b w signed = Some (represent e signed (Z.rem (number e signed a) (number e signed b)))) ∧
  (is_i 64 a →
   wrapping_shr a b w signed
   = Some (represent e (signed && (e =? 64)) (number e signed a / 2 ^ (b mod e)))).
Proof.
  intros Hw e. subst e. pose proof (effective_width w Hw) as He.
  pose proof (wrapping_at_width _ a b signed He) as H.
  pose proof (λ Ha, wrapping_shr_spec _ He a b signed Ha) as Hr.
  destruct Hw as [Hw| ->].
  - rewrite effective_id in * by done. by split_and!; try apply H.
  - change (effective 128) with 64 in *.
    pose proof (width_128 a b signed) as (-> & -> & -> & -> & -> & -> & -> & -> & ->).
    by split_and!; try apply H.
Qed.

Lemma wrapping_exact_witness :
  documented 8 ∧ wrapping_add 127 1 8 true = -128 ∧ wrapping_div (-128) (-1) 8 true = Some (-128) ∧
  wrapping_shr (-128) 1 8 true = Some 192 ∧ wrapping_add (2 ^ 63 - 1) 1 128 true = - 2 ^ 63.
Proof.
  pose proof (wrapping_exact 8 127 1 true (or_introl (or_introl eq_refl))) as (H & _).
  pose proof (wrapping_exact 8 (-128) (-1) true (or_introl (or_introl eq_refl))) as (_ & _ & _ & _ & _ & _ & Hd & _).
  pose proof (wrapping_exact 8 (-128) 1 true (or_introl (or_introl eq_refl))) as (_ & _ & _ & _ & _ & _ & _ & Hr).
  pose proof (wrapping_exact 128 (2 ^ 63 - 1) 1 true (or_intror eq_refl)) as (H128 & _).
  split_and!; [by left; left|exact H|exact (proj1 (Hd ltac:(vm_compute; discriminate)))| |exact H128].
  exact (Hr ltac:(unfold is_i; lia)).
Defined.

(** ** Saturation *)
Definition lower (w : Z) (signed : bool) : Z := if signed then - 2 ^ (w - 1) else 0.
Definition upper (w : Z) (signed : bool) : Z := if signed then 2 ^ (w - 1) - 1 else 2 ^ w - 1.
Definition fits (w : Z) (signed : bool) (z : Z) : Prop := lower w signed ≤ z ≤ upper w signed.
Definition clamp (w : Z) (signed : bool) (z : Z) : Z := Z.max (lower w signed) (Z.min (upper w signed) z).

(** The types whose bounds [type_bounds] knows: all but the unsigned one of 64 bits. *)
Definition bounded_type (w : Z) (signed : bool) : Prop := is_width w ∧ (signed = false → w < 64).

Lemma type_bounds_spec w signed : bounded_type w signed →
  type_bounds w signed = (lower w signed, upper w signed).
Proof. intros [[->|[->|[->| ->]]] H]; destruct signed; try reflexivity. specialize (H eq_refl). lia. Qed.

Lemma bounded_in_i64 w signed : bounded_type w signed → I64_MIN ≤ lower w signed ∧ upper w signed ≤ I64_MAX ∧
  lower w signed ≤ 0 ≤ upper w signed ∧ (signed = false → lower w signed = 0 ∧ upper w signed < 2 ^ 32).
Proof.
  intros [[->|[->|[->| ->]]] H]; destruct signed; try (specialize (H eq_refl); lia); split_and!; try done;
    vm_compute; try done; try (split; done); intros; split; done.
Qed.

(** The result of an operation of exact value [z], cut to the bounds. *)
Lemma saturate_signed w z (positive : bool) : bounded_type w true →
  (I64_MAX < z → positive = true) → (z < I64_MIN → positive = false) →
  match checked_i64 z with
  | Some r => if upper w true <? r then upper w true else if r <? lower w true then lower w true else r
  | None => if positive then upper w true else lower w true
  end = clamp w true z.
Proof.
  intros Hw Hp Hn. destruct (bounded_in_i64 w true Hw) as (Hl & Hu & H0 & _). unfold checked_i64, clamp.
  destruct (Z.leb_spec I64_MIN z), (Z.leb_spec z I64_MAX); cbn [andb].
  - destruct (Z.ltb_spec (upper w true) z); [lia|]. destruct (Z.ltb_spec z (lower w true)); lia.
  - rewrite Hp by lia. lia.
  - rewrite Hn by lia. lia.
  - unfold I64_MIN, I64_MAX in *. lia.
Qed.

Lemma saturate_unsigned w z : bounded_type w false → 0 ≤ z < 2 ^ 64 →
  match checked_u64 z with
  | Some r => if as_u64 (upper w false) <? r then upper w false else as_i64_cast r
  | None => upper w false
  end = clamp w false z.
Proof.
  intros Hw Hz. destruct (bounded_in_i64 w false Hw) as (_ & Hu & H0 & H32). destruct (H32 eq_refl) as [Hlow H].
  unfold checked_u64, clamp. rewrite Hlow, (proj2 (Z.leb_le 0 z)), (proj2 (Z.leb_le z _)) by lia. cbn [andb].
  unfold as_u64. rewrite wrap_id by (unfold is_u; lia).
  destruct (Z.ltb_spec (upper w false) z); [lia|]. unfold as_i64_cast. rewrite to_signed_small; [lia|lia|].
  change (64 - 1) with 63. lia.
Qed.

Lemma fits_u64 w a : bounded_type w false → fits w false a → as_u64 a = a.
Proof.
  intros Hw Ha. destruct (bounded_in_i64 w false Hw) as (_ & _ & _ & H32). destruct (H32 eq_refl).
  apply wrap_id. unfold fits in Ha. unfold is_u. lia.
Qed.

Lemma saturating_at_width (w a b : Z) (signed : bool) :
  bounded_type w signed → fits w signed a → fits w signed b →
  saturating_add a b w signed = clamp w signed (a + b) ∧
  saturating_sub a b w signed = clamp w signed (a - b) ∧
  saturating_mul a b w signed = clamp w signed (a * b) ∧
  saturating_neg a w signed = clamp w signed (- a) ∧
  saturating_abs a w signed = clamp w signed (Z.abs a).
Proof.
  intros Hw Ha Hb. destruct (bounded_in_i64 w signed Hw) as (Hl & Hu & H0 & H32).
  assert (Hclamp : ∀ z, fits w signed z → clamp w signed z = z) by (unfold fits, clamp; lia).
  unfold saturating_add, saturating_sub, saturating_mul, saturating_neg, saturating_abs.
  rewrite !type_bounds_spec by done. split_and!.
  - destruct signed.
    + apply saturate_signed; [done| |]; unfold fits in *; unfold I64_MAX, I64_MIN in *; lia.
    + rewrite !(fits_u64 w) by done. destruct (H32 eq_refl). apply saturate_unsigned; [done|]. unfold fits in *. lia.
  - destruct signed.
    + replace (if b <? 0 then upper w true else lower w true) with (if (b <? 0) then upper w true else lower w true) by done.
      apply saturate_signed; [done| |]; unfold fits in *; unfold I64_MAX, I64_MIN in *; lia.
    + rewrite !(fits_u64 w) by done. destruct (H32 eq_refl) as [Hlow ?]. unfold clamp, fits in *.
      destruct (Z.ltb_spec a b); [lia|]. unfold as_i64_cast. rewrite to_signed_small; [lia|lia|change (64 - 1) with 63; lia].
  - destruct signed.
    + apply saturate_signed; [done| |]; unfold fits in *; unfold I64_MAX, I64_MIN in *; intros Hz.
      * destruct (Z.ltb_spec 0 a), (Z.ltb_spec 0 b), (Z.ltb_spec a 0), (Z.ltb_spec b 0); cbn [andb orb]; try done; nia.
      * destruct (Z.ltb_spec 0 a), (Z.ltb_spec 0 b), (Z.ltb_spec a 0), (Z.ltb_spec b 0); cbn [andb orb]; try done; nia.
    + rewrite !(fits_u64 w) by done. destruct (H32 eq_refl). apply saturate_unsigned; [done|]. unfold fits in *. nia.
  - destruct signed; cbn [negb].
    + unfold fits in *. rewrite type_bounds_spec by done. destruct (Z.eqb_spec a (lower w true)) as [->|].
      * cbv [clamp lower upper] in *. lia.
      * unfold as_i64_cast. rewrite to_signed_id; [cbv [clamp lower upper] in *; lia|lia|].
        cbv [is_i lower upper I64_MIN I64_MAX] in *. change (64 - 1) with 63. lia.
    + destruct (H32 eq_refl). unfold clamp, fits in *. lia.
  - destruct signed; cbn [negb].
    + unfold fits in *. rewrite type_bounds_spec by done. destruct (Z.eqb_spec a (lower w true)) as [->|]; [cbv [clamp lower upper] in *; lia|].
      destruct (Z.ltb_spec a 0); [|unfold clamp; lia].
      unfold as_i64_cast. rewrite to_signed_id; [cbv [clamp lower upper] in *; lia|lia|].
      cbv [is_i lower upper I64_MIN I64_MAX] in *. change (64 - 1) with 63. lia.
    + destruct (H32 eq_refl). rewrite Z.abs_eq by (unfold fits in Ha; lia). by rewrite Hclamp.
Qed.

Lemma saturating_unsigned_64 a b :
  as_u64 (saturating_add a b 64 false) = Z.min I64_MAX (as_u64 a + as_u64 b).
Proof.
  unfold saturating_add. pose proof (wrap_range 64 a ltac:(lia)) as Ra. pose proof (wrap_range 64 b ltac:(lia)) as Rb.
    fold (as_u64 a) in Ra. fold (as_u64 b) in Rb. unfold is_u in Ra, Rb.
    change (type_bounds 64 false) with (0, I64_MAX). cbv iota beta zeta. unfold checked_u64.
    change (as_u64 I64_MAX) with I64_MAX.
    rewrite (proj2 (Z.leb_le 0 _)) by lia. cbn [andb].
    destruct (Z.leb_spec (as_u64 a + as_u64 b) (2 ^ 64 - 1)).
    + destruct (Z.ltb_spec I64_MAX (as_u64 a + as_u64 b)).
      * change (as_u64 I64_MAX) with I64_MAX. lia.
      * unfold I64_MAX in *. unfold as_i64_cast. rewrite to_signed_small by (lia || change (64 - 1) with 63; lia).
        unfold as_u64 at 1. rewrite wrap_id by (unfold is_u; lia). lia.
    + change (as_u64 I64_MAX) with I64_MAX. unfold I64_MAX. lia.
Qed.

(** C37. At the documented widths 8, 16, 32, 64 and 128, of which the last has the
    bounds of 64, the saturating operations on operands of a signed type or of
    an unsigned type below 64 bits return the value of the type nearest to the
    exact result.  At unsigned 64 and 128 bits addition stops at the largest
    i64, half of the range of an unsigned 64-bit type. *)
Theorem saturating_exact (w a b : Z) (signed : bool) :
  documented w →
  let e := effective w in
  (bounded_type e signed → fits e signed a → fits e signed b →
   saturating_add a b w signed = clamp e signed (a + b) ∧
   saturating_sub a b w signed = clamp e signed (a - b) ∧
   saturating_mul a b w signed = clamp e signed (a * b) ∧
   saturating_neg a w signed = clamp e signed (- a) ∧
   saturating_abs a w signed = clamp e signed (Z.abs a)) ∧
  (64 ≤ w → as_u64 (saturating_add a b w false) = Z.min I64_MAX (as_u64 a + as_u64 b)).
Proof.
  intros Hw e. subst e.
  assert (w = effective w ∧ w ≤ 64 ∨ w = 128) as [[He Hle]| ->]
    by (destruct Hw as [Hw| ->]; [left; rewrite effective_id; [destruct Hw as [->|[->|[->| ->]]]; lia|done]|by right]).
  - rewrite <- He. split; [apply saturating_at_width|]. intros H. replace w with 64 by lia.
    apply saturating_unsigned_64.
  - change (effective 128) with 64. split; [exact (saturating_at_width 64 a b signed)|].
    intros _. exact (saturating_unsigned_64 a b).
Qed.

Lemma saturating_exact_witness :
  bounded_type 8 true ∧ fits 8 true (-128) ∧ saturating_sub (-128) 1 8 true = -128 ∧
  saturating_neg (-128) 8 true = 127 ∧
  as_u64 (saturating_add (-1) 1 128 false) = 2 ^ 63 - 1.
Proof.
  pose proof (proj1 (saturating_exact 8 (-128) 1 true (or_introl (or_introl eq_refl)))
    ltac:(split; [by left|done]) ltac:(by vm_compute) ltac:(by vm_compute)) as (_ & Hs & _ & Hn & _).
  pose proof (proj2 (saturating_exact 128 (-1) 1 false (or_intror eq_refl)) ltac:(lia)) as Ha.
  split; [split; [by left|done]|]. split; [by vm_compute|]. split; [exact Hs|]. split; [exact Hn|exact Ha].
Defined.
