(* ===== verification/Operands.v ===== *)
(** * Operands of the interpreter's handlers

    Under [verum_vbc/src/interpreter/dispatch_table/handlers] every handler reads
    the operands of its instruction from the bytecode itself; nothing but
    convention makes it read what the encoder wrote.  This file transcribes that
    part of the handlers, in the order of the reads, and the table of
    [dispatch_table/mod.rs]; a handler of an extended family reads the byte of the
    family and the length of its operands ([dispatch_enveloped]).  The gateways
    [Extended] and [CubicalExtended], whose reads depend on a sub-opcode, and the
    opcodes without an entry in the enum are left out. *)

From S2P Require Import Prelude Words Encoding TypeRefs Opcodes Instruction InstructionDecode.

(** What one read takes: the functions of [bytecode_io.rs], and loops of them.  The
    error of a handler that refuses a count stands as an encoding error. *)
Inductive operand :=
| Reg_
| Byte
| Varint
| Signed
| Float
| Range
| Type_
| Payload
(** A count, then as many registers, types or signed integers. *)
| Regs
| Types
| Signeds
(** The registers of [create_closure], at most [u16::MAX]. *)
| Captures
(** The cases of [handle_switch]: a byte, the default, as many offsets. *)
| Jumps.

Section Reading.
Context (data : bytes) (with_capacity : Z → bool).

Definition void {A} (d : decoder A) : decoder unit := _ ← d; mret tt.

Definition read_operand (o : operand) : decoder unit :=
  match o with
  | Reg_ => void (decode_reg data)
  | Byte => void (decode_u8 data)
  | Varint => void (decode_varint data)
  | Signed => void (decode_signed_varint data)
  | Float => void (decode_f64 data)
  | Range => void (decode_reg_range data)
  | Type_ => void (decode_type_ref data with_capacity)
  | Payload => void (decode_payload_range data)
  | Regs => count ← decode_varint data; void (times data (decode_reg data) count)
  | Types => count ← decode_varint data; void (times data (decode_type_ref data with_capacity) count)
  | Signeds => count ← decode_varint data; void (times data (decode_signed_varint data) count)
  | Captures =>
      capture_count ← decode_varint data;
      if 65535 <? capture_count
      then fail (InvalidInstructionEncoding capture_count "excessive closure capture count")
      else void (times data (decode_reg data) capture_count)
  | Jumps =>
      case_count ← decode_u8 data; _ ← decode_signed_varint data;
      void (times data (decode_signed_varint data) case_count)
  end.

Fixpoint read_operands (operands : list operand) : decoder unit :=
  match operands with
  | [] => mret tt
  | o :: operands => _ ← read_operand o; read_operands operands
  end.
End Reading.

(** ** The handlers *)
Module Handler.
Definition handle_mov : list operand := [Reg_; Reg_].
Definition handle_loadk : list operand := [Reg_; Varint].
Definition handle_loadi : list operand := [Reg_; Signed].
Definition handle_loadf : list operand := [Reg_; Float].
Definition handle_load_true : list operand := [Reg_].
Definition handle_load_false : list operand := [Reg_].
Definition handle_load_unit : list operand := [Reg_].
Definition handle_loadt : list operand := [Reg_; Type_].
Definition handle_load_smalli : list operand := [Reg_; Byte].
Definition handle_load_nil : list operand := [Reg_].
Definition handle_nop : list operand := [].
Definition handle_cvt_if : list operand := [Reg_; Reg_].
Definition handle_cvt_fi : list operand := [Byte; Reg_; Reg_].
Definition handle_cvt_ic : list operand := [Reg_; Reg_].
Definition handle_cvt_ci : list operand := [Reg_; Reg_].
Definition handle_cvt_bi : list operand := [Reg_; Reg_].
Definition handle_addi : list operand := [Reg_; Reg_; Reg_].
Definition handle_subi : list operand := [Reg_; Reg_; Reg_].
Definition handle_muli : list operand := [Reg_; Reg_; Reg_].
Definition handle_divi : list operand := [Reg_; Reg_; Reg_].
Definition handle_modi : list operand := [Reg_; Reg_; Reg_].
Definition handle_negi : list operand := [Reg_; Reg_].
Definition handle_absi : list operand := [Reg_; Reg_].
Definition handle_powi : list operand := [Reg_; Reg_; Reg_].
Definition handle_inc : list operand := [Reg_; Reg_].
Definition handle_dec : list operand := [Reg_; Reg_].
Definition handle_cvt_toi : list operand := [Reg_; Reg_].
Definition handle_udivi : list operand := [Reg_; Reg_; Reg_].
Definition handle_umodi : list operand := [Reg_; Reg_; Reg_].
Definition handle_addf : list operand := [Reg_; Reg_; Reg_].
Definition handle_subf : list operand := [Reg_; Reg_; Reg_].
Definition handle_mulf : list operand := [Reg_; Reg_; Reg_].
Definition handle_divf : list operand := [Reg_; Reg_; Reg_].
Definition handle_modf : list operand := [Reg_; Reg_; Reg_].
Definition handle_negf : list operand := [Byte; Reg_; Reg_].
Definition handle_absf : list operand := [Reg_; Reg_].
Definition handle_powf : list operand := [Reg_; Reg_; Reg_].
Definition handle_cvt_tof : list operand := [Reg_; Reg_].
Definition handle_math_extended : list operand := [Byte; Payload].
Definition handle_simd_extended : list operand := [Byte; Payload].
Definition handle_char_extended : list operand := [Byte; Payload].
Definition handle_band : list operand := [Reg_; Reg_; Reg_].
Definition handle_bor : list operand := [Reg_; Reg_; Reg_].
Definition handle_bxor : list operand := [Reg_; Reg_; Reg_].
Definition handle_bnot : list operand := [Reg_; Reg_; Reg_].
Definition handle_shl : list operand := [Reg_; Reg_; Reg_].
Definition handle_shr : list operand := [Reg_; Reg_; Reg_].
Definition handle_ushr : list operand := [Reg_; Reg_; Reg_].
Definition handle_addg : list operand := [Reg_; Reg_; Reg_].
Definition handle_subg : list operand := [Reg_; Reg_; Reg_].
Definition handle_mulg : list operand := [Reg_; Reg_; Reg_].
Definition handle_divg : list operand := [Reg_; Reg_; Reg_].
Definition handle_eqi : list operand := [Reg_; Reg_; Reg_].
Definition handle_nei : list operand := [Reg_; Reg_; Reg_].
Definition handle_lti : list operand := [Reg_; Reg_; Reg_].
Definition handle_lei : list operand := [Reg_; Reg_; Reg_].
Definition handle_gti : list operand := [Reg_; Reg_; Reg_].
Definition handle_gei : list operand := [Reg_; Reg_; Reg_].
Definition handle_eqf : list operand := [Reg_; Reg_; Reg_].
Definition handle_nef : list operand := [Reg_; Reg_; Reg_].
Definition handle_ltf : list operand := [Reg_; Reg_; Reg_].
Definition handle_lef : list operand := [Reg_; Reg_; Reg_].
Definition handle_gtf : list operand := [Reg_; Reg_; Reg_].
Definition handle_gef : list operand := [Reg_; Reg_; Reg_].
Definition handle_eqg : list operand := [Reg_; Reg_; Reg_; Varint].
Definition handle_cmpg : list operand := [Reg_; Reg_; Reg_; Varint].
Definition handle_eqref : list operand := [Reg_; Reg_; Reg_].
Definition handle_cmp_extended : list operand := [Byte; Reg_; Reg_; Reg_].
Definition handle_jump : list operand := [Signed].
Definition handle_jump_if : list operand := [Reg_; Signed].
Definition handle_jump_if_not : list operand := [Reg_; Signed].
Definition handle_jump_eq : list operand := [Reg_; Reg_; Signed].
Definition handle_jump_ne : list operand := [Reg_; Reg_; Signed].
Definition handle_jump_lt : list operand := [Reg_; Reg_; Signed].
Definition handle_jump_le : list operand := [Reg_; Reg_; Signed].
Definition handle_jump_gt : list operand := [Reg_; Reg_; Signed].
Definition handle_jump_ge : list operand := [Reg_; Reg_; Signed].
Definition handle_return : list operand := [Reg_].
Definition handle_return_unit : list operand := [].
Definition handle_call : list operand := [Reg_; Varint; Range].
Definition handle_tail_call_op : list operand := [Varint; Range].
Definition handle_call_method : list operand := [Reg_; Reg_; Varint; Range].
Definition handle_call_closure : list operand := [Reg_; Reg_; Reg_; Byte].
Definition handle_call_indirect : list operand := [Reg_; Reg_; Range].
Definition handle_new : list operand := [Reg_; Varint; Varint].
Definition handle_new_generic : list operand := [Reg_; Varint; Varint; Regs].
Definition handle_get_field : list operand := [Reg_; Reg_; Varint].
Definition handle_set_field : list operand := [Reg_; Varint; Reg_].
Definition handle_get_index : list operand := [Reg_; Reg_; Reg_].
Definition handle_set_index : list operand := [Reg_; Reg_; Reg_].
Definition handle_array_len : list operand := [Reg_; Reg_; Byte].
Definition handle_new_array : list operand := [Reg_; Reg_; Reg_].
Definition handle_new_list : list operand := [Reg_; Varint].
Definition handle_list_push : list operand := [Reg_; Reg_].
Definition handle_list_pop : list operand := [Reg_; Reg_].
Definition handle_new_map : list operand := [Reg_; Varint].
Definition handle_map_get : list operand := [Reg_; Reg_; Reg_].
Definition handle_map_set : list operand := [Reg_; Reg_; Reg_].
Definition handle_map_contains : list operand := [Reg_; Reg_; Reg_].
Definition handle_clone : list operand := [Reg_; Reg_].
Definition handle_ref_create : list operand := [Reg_; Reg_].
Definition handle_ref_mut : list operand := [Reg_; Reg_].
Definition handle_deref : list operand := [Reg_; Reg_].
Definition handle_deref_mut : list operand := [Reg_; Reg_].
Definition handle_chk_ref : list operand := [Reg_].
Definition handle_ref_checked : list operand := [Reg_; Reg_].
Definition handle_ref_unsafe : list operand := [Reg_; Reg_].
Definition handle_drop_ref : list operand := [Reg_].
Definition handle_cbgr_extended : list operand := [Byte; Payload].
Definition handle_text_extended : list operand := [Byte; Payload].
Definition handle_call_generic : list operand := [Reg_; Varint; Types; Range].
Definition handle_call_virtual : list operand := [Reg_; Reg_; Varint; Range].
Definition handle_call_cached : list operand := [Reg_; Varint; Byte; Range].
Definition handle_size_of : list operand := [Reg_; Varint].
Definition handle_align_of : list operand := [Reg_; Varint].
Definition handle_specialize : list operand := [].
Definition handle_make_variant : list operand := [Reg_; Varint; Varint].
Definition handle_set_variant_data : list operand := [Reg_; Varint; Reg_].
Definition handle_get_variant_data : list operand := [Reg_; Reg_; Varint].
Definition handle_get_tag : list operand := [Reg_; Reg_].
Definition handle_new_closure : list operand := [Reg_; Varint; Captures].
Definition handle_get_variant_data_ref : list operand := [Reg_; Reg_; Varint].
Definition handle_type_of : list operand := [Reg_; Reg_].
Definition handle_make_pi : list operand := [Reg_; Reg_; Varint].
Definition handle_make_sigma : list operand := [Reg_; Reg_; Reg_].
Definition handle_make_witness : list operand := [Reg_; Reg_; Varint].
Definition handle_match_tag : list operand := [Reg_; Reg_; Varint].
Definition handle_as_var : list operand := [Reg_; Reg_; Varint].
Definition handle_unpack : list operand := [Reg_; Reg_; Byte].
Definition handle_pack : list operand := [Reg_; Reg_; Byte].
Definition handle_switch : list operand := [Reg_; Jumps].
Definition handle_match_guard : list operand := [Reg_; Signed].
Definition handle_land : list operand := [Reg_; Reg_; Reg_].
Definition handle_lor : list operand := [Reg_; Reg_; Reg_].
Definition handle_lxor : list operand := [Reg_; Reg_; Reg_].
Definition handle_lnot : list operand := [Reg_; Reg_].
Definition handle_is_type : list operand := [Reg_; Reg_; Varint].
Definition handle_spawn : list operand := [Reg_; Varint; Range].
Definition handle_await : list operand := [Reg_; Reg_].
Definition handle_generator_yield : list operand := [Reg_].
Definition handle_select : list operand := [Reg_; Regs; Signeds].
Definition handle_join : list operand := [Reg_; Range].
Definition handle_future_ready : list operand := [Reg_; Reg_].
Definition handle_future_get : list operand := [Reg_; Reg_].
Definition handle_async_next : list operand := [Reg_; Reg_].
Definition handle_nursery_init : list operand := [Reg_].
Definition handle_nursery_spawn : list operand := [Reg_; Reg_].
Definition handle_nursery_await : list operand := [Reg_; Reg_].
Definition handle_nursery_cancel : list operand := [Reg_].
Definition handle_nursery_config : list operand := [Reg_; Reg_].
Definition handle_nursery_error : list operand := [Reg_; Reg_].
Definition handle_async_yield : list operand := [].
Definition handle_ctx_get : list operand := [Reg_; Varint].
Definition handle_ctx_provide : list operand := [Varint; Reg_; Signed].
Definition handle_ctx_pop : list operand := [].
Definition handle_ctx_push : list operand := [Signed].
Definition handle_attenuate : list operand := [Reg_; Reg_; Varint].
Definition handle_has_capability : list operand := [Reg_; Reg_; Varint].
Definition handle_require_capability : list operand := [Reg_; Varint].
Definition handle_meta_eval : list operand := [Reg_; Reg_].
Definition handle_meta_quote : list operand := [Reg_; Varint].
Definition handle_meta_splice : list operand := [Reg_].
Definition handle_meta_reflect : list operand := [Byte; Reg_; Reg_].
Definition handle_ffi_extended : list operand := [Byte; Payload].
Definition handle_arith_extended : list operand := [Byte; Payload].
Definition handle_log_extended : list operand := [Byte; Payload].
Definition handle_mem_extended : list operand := [Byte; Payload].
Definition handle_iter_new : list operand := [Reg_; Reg_].
Definition handle_iter_next : list operand := [Reg_; Reg_; Reg_].
Definition handle_generator_create : list operand := [Reg_; Varint; Range].
Definition handle_generator_next : list operand := [Reg_; Reg_].
Definition handle_generator_has_next : list operand := [Reg_; Reg_].
Definition handle_to_string : list operand := [Reg_; Reg_].
Definition handle_concat : list operand := [Reg_; Reg_; Reg_].
Definition handle_new_set : list operand := [Reg_; Varint].
Definition handle_set_insert : list operand := [Reg_; Reg_].
Definition handle_set_contains : list operand := [Reg_; Reg_; Reg_].
Definition handle_set_remove : list operand := [Reg_; Reg_].
Definition handle_char_to_str : list operand := [Reg_; Reg_].
Definition handle_new_range : list operand := [Reg_; Reg_; Reg_; Byte].
Definition handle_new_deque : list operand := [Reg_; Varint].
Definition handle_push : list operand := [Reg_].
Definition handle_pop : list operand := [Reg_].
Definition handle_throw : list operand := [Reg_].
Definition handle_try_begin : list operand := [Signed].
Definition handle_try_end : list operand := [].
Definition handle_get_exception : list operand := [Reg_].
Definition handle_spec : list operand := [Reg_; Varint].
Definition handle_guard : list operand := [Reg_; Varint; Signed].
Definition handle_assert : list operand := [Reg_; Varint].
Definition handle_panic : list operand := [Varint].
Definition handle_unreachable : list operand := [].
Definition handle_debug_print : list operand := [Reg_].
Definition handle_requires : list operand := [Reg_; Varint].
Definition handle_ensures : list operand := [Reg_; Varint].
Definition handle_invariant : list operand := [Reg_; Varint].
Definition handle_new_channel : list operand := [Reg_; Reg_].
Definition handle_syscall : list operand := [Reg_; Reg_; Reg_; Reg_; Reg_; Reg_; Reg_; Reg_].
Definition handle_mmap : list operand := [Reg_; Varint; Varint; Varint; Varint; Signed; Varint].
Definition handle_munmap : list operand := [Reg_; Varint; Varint].
Definition handle_atomic_load : list operand := [Reg_; Reg_; Byte; Byte].
Definition handle_atomic_store : list operand := [Reg_; Reg_; Byte; Byte].
Definition handle_atomic_cas : list operand := [Reg_; Reg_; Reg_; Reg_; Byte; Byte].
Definition handle_atomic_fence : list operand := [].
Definition handle_io_submit : list operand := [Reg_; Reg_].
Definition handle_io_poll : list operand := [Reg_; Reg_].
Definition handle_tls_get : list operand := [Reg_; Reg_].
Definition handle_tls_set : list operand := [Reg_; Reg_].
Definition handle_grad_begin : list operand := [Varint; Byte; Regs].
Definition handle_grad_end : list operand := [Varint; Reg_; Reg_; Regs].
Definition handle_grad_checkpoint : list operand := [Varint; Regs].
Definition handle_grad_accumulate : list operand := [Reg_; Reg_].
Definition handle_grad_stop : list operand := [Reg_; Reg_].
Definition handle_time_extended : list operand := [Byte; Payload].
Definition handle_sys_extended : list operand := [Byte; Payload].
Definition handle_mach_extended : list operand := [Byte; Payload].
Definition handle_sync_extended : list operand := [Byte; Payload].
Definition handle_gpu_extended : list operand := [Byte; Payload].
Definition handle_gpu_sync : list operand := [Reg_].
Definition handle_gpu_memcpy : list operand := [Reg_; Reg_; Byte].
Definition handle_gpu_alloc : list operand := [Reg_; Reg_; Reg_].
Definition handle_tensor_extended : list operand := [Byte; Payload].
Definition handle_ml_extended : list operand := [Byte; Payload].
End Handler.

(** ** The table *)
Definition DISPATCH_TABLE (opcode : Z) : option (list operand) :=
  match opcode with
  | 0x00 => Some Handler.handle_mov
  | 0x01 => Some Handler.handle_loadk
  | 0x02 => Some Handler.handle_loadi
  | 0x03 => Some Handler.handle_loadf
  | 0x04 => Some Handler.handle_load_true
  | 0x05 => Some Handler.handle_load_false
  | 0x06 => Some Handler.handle_load_unit
  | 0x07 => Some Handler.handle_loadt
  | 0x08 => Some Handler.handle_load_smalli
  | 0x09 => Some Handler.handle_load_nil
  | 0x0A => Some Handler.handle_nop
  | 0x0B => Some Handler.handle_cvt_if
  | 0x0C => Some Handler.handle_cvt_fi
  | 0x0D => Some Handler.handle_cvt_ic
  | 0x0E => Some Handler.handle_cvt_ci
  | 0x0F => Some Handler.handle_cvt_bi
  | 0x10 => Some Handler.handle_addi
  | 0x11 => Some Handler.handle_subi
  | 0x12 => Some Handler.handle_muli
  | 0x13 => Some Handler.handle_divi
  | 0x14 => Some Handler.handle_modi
  | 0x15 => Some Handler.handle_negi
  | 0x16 => Some Handler.handle_absi
  | 0x17 => Some Handler.handle_powi
  | 0x18 => Some Handler.handle_inc
  | 0x19 => Some Handler.handle_dec
  | 0x1A => Some Handler.handle_cvt_toi
  | 0x1B => Some Handler.handle_udivi
  | 0x1C => Some Handler.handle_umodi
  | 0x20 => Some Handler.handle_addf
  | 0x21 => Some Handler.handle_subf
  | 0x22 => Some Handler.handle_mulf
  | 0x23 => Some Handler.handle_divf
  | 0x24 => Some Handler.handle_modf
  | 0x25 => Some Handler.handle_negf
  | 0x26 => Some Handler.handle_absf
  | 0x27 => Some Handler.handle_powf
  | 0x28 => Some Handler.handle_cvt_tof
  | 0x29 => Some Handler.handle_math_extended
  | 0x2A => Some Handler.handle_simd_extended
  | 0x2B => Some Handler.handle_char_extended
  | 0x30 => Some Handler.handle_band
  | 0x31 => Some Handler.handle_bor
  | 0x32 => Some Handler.handle_bxor
  | 0x33 => Some Handler.handle_bnot
  | 0x34 => Some Handler.handle_shl
  | 0x35 => Some Handler.handle_shr
  | 0x36 => Some Handler.handle_ushr
  | 0x38 => Some Handler.handle_addg
  | 0x39 => Some Handler.handle_subg
  | 0x3A => Some Handler.handle_mulg
  | 0x3B => Some Handler.handle_divg
  | 0x40 => Some Handler.handle_eqi
  | 0x41 => Some Handler.handle_nei
  | 0x42 => Some Handler.handle_lti
  | 0x43 => Some Handler.handle_lei
  | 0x44 => Some Handler.handle_gti
  | 0x45 => Some Handler.handle_gei
  | 0x46 => Some Handler.handle_eqf
  | 0x47 => Some Handler.handle_nef
  | 0x48 => Some Handler.handle_ltf
  | 0x49 => Some Handler.handle_lef
  | 0x4A => Some Handler.handle_gtf
  | 0x4B => Some Handler.handle_gef
  | 0x4C => Some Handler.handle_eqg
  | 0x4D => Some Handler.handle_cmpg
  | 0x4E => Some Handler.handle_eqref
  | 0x4F => Some Handler.handle_cmp_extended
  | 0x50 => Some Handler.handle_jump
  | 0x51 => Some Handler.handle_jump_if
  | 0x52 => Some Handler.handle_jump_if_not
  | 0x53 => Some Handler.handle_jump_eq
  | 0x54 => Some Handler.handle_jump_ne
  | 0x55 => Some Handler.handle_jump_lt
  | 0x56 => Some Handler.handle_jump_le
  | 0x57 => Some Handler.handle_jump_gt
  | 0x58 => Some Handler.handle_jump_ge
  | 0x59 => Some Handler.handle_return
  | 0x5A => Some Handler.handle_return_unit
  | 0x5B => Some Handler.handle_call
  | 0x5C => Some Handler.handle_tail_call_op
  | 0x5D => Some Handler.handle_call_method
  | 0x5E => Some Handler.handle_call_closure
  | 0x5F => Some Handler.handle_call_indirect
  | 0x60 => Some Handler.handle_new
  | 0x61 => Some Handler.handle_new_generic
  | 0x62 => Some Handler.handle_get_field
  | 0x63 => Some Handler.handle_set_field
  | 0x64 => Some Handler.handle_get_index
  | 0x65 => Some Handler.handle_set_index
  | 0x66 => Some Handler.handle_array_len
  | 0x67 => Some Handler.handle_new_array
  | 0x68 => Some Handler.handle_new_list
  | 0x69 => Some Handler.handle_list_push
  | 0x6A => Some Handler.handle_list_pop
  | 0x6B => Some Handler.handle_new_map
  | 0x6C => Some Handler.handle_map_get
  | 0x6D => Some Handler.handle_map_set
  | 0x6E => Some Handler.handle_map_contains
  | 0x6F => Some Handler.handle_clone
  | 0x70 => Some Handler.handle_ref_create
  | 0x71 => Some Handler.handle_ref_mut
  | 0x72 => Some Handler.handle_deref
  | 0x73 => Some Handler.handle_deref_mut
  | 0x74 => Some Handler.handle_chk_ref
  | 0x75 => Some Handler.handle_ref_checked
  | 0x76 => Some Handler.handle_ref_unsafe
  | 0x77 => Some Handler.handle_drop_ref
  | 0x78 => Some Handler.handle_cbgr_extended
  | 0x79 => Some Handler.handle_text_extended
  | 0x7A => Some Handler.handle_ref_mut
  | 0x7B => Some Handler.handle_ref_mut
  | 0x80 => Some Handler.handle_call_generic
  | 0x81 => Some Handler.handle_call_virtual
  | 0x82 => Some Handler.handle_call_cached
  | 0x83 => Some Handler.handle_size_of
  | 0x84 => Some Handler.handle_align_of
  | 0x85 => Some Handler.handle_specialize
  | 0x86 => Some Handler.handle_make_variant
  | 0x87 => Some Handler.handle_set_variant_data
  | 0x88 => Some Handler.handle_get_variant_data
  | 0x89 => Some Handler.handle_get_tag
  | 0x8A => Some Handler.handle_new_closure
  | 0x8B => Some Handler.handle_get_variant_data_ref
  | 0x8C => Some Handler.handle_type_of
  | 0x8D => Some Handler.handle_make_pi
  | 0x8E => Some Handler.handle_make_sigma
  | 0x8F => Some Handler.handle_make_witness
  | 0x90 => Some Handler.handle_match_tag
  | 0x91 => Some Handler.handle_as_var
  | 0x92 => Some Handler.handle_unpack
  | 0x93 => Some Handler.handle_pack
  | 0x94 => Some Handler.handle_switch
  | 0x95 => Some Handler.handle_match_guard
  | 0x96 => Some Handler.handle_land
  | 0x97 => Some Handler.handle_lor
  | 0x98 => Some Handler.handle_lxor
  | 0x99 => Some Handler.handle_lnot
  | 0x9A => Some Handler.handle_is_type
  | 0xA0 => Some Handler.handle_spawn
  | 0xA1 => Some Handler.handle_await
  | 0xA2 => Some Handler.handle_generator_yield
  | 0xA3 => Some Handler.handle_select
  | 0xA4 => Some Handler.handle_join
  | 0xA5 => Some Handler.handle_future_ready
  | 0xA6 => Some Handler.handle_future_get
  | 0xA7 => Some Handler.handle_async_next
  | 0xA8 => Some Handler.handle_nursery_init
  | 0xA9 => Some Handler.handle_nursery_spawn
  | 0xAA => Some Handler.handle_nursery_await
  | 0xAB => Some Handler.handle_nursery_cancel
  | 0xAC => Some Handler.handle_nursery_config
  | 0xAD => Some Handler.handle_nursery_error
  | 0xAE => Some Handler.handle_async_yield
  | 0xB0 => Some Handler.handle_ctx_get
  | 0xB1 => Some Handler.handle_ctx_provide
  | 0xB2 => Some Handler.handle_ctx_pop
  | 0xB3 => Some Handler.handle_ctx_push
  | 0xB4 => Some Handler.handle_ctx_pop
  | 0xB5 => Some Handler.handle_attenuate
  | 0xB6 => Some Handler.handle_has_capability
  | 0xB7 => Some Handler.handle_require_capability
  | 0xB8 => Some Handler.handle_meta_eval
  | 0xB9 => Some Handler.handle_meta_quote
  | 0xBA => Some Handler.handle_meta_splice
  | 0xBB => Some Handler.handle_meta_reflect
  | 0xBC => Some Handler.handle_ffi_extended
  | 0xBD => Some Handler.handle_arith_extended
  | 0xBE => Some Handler.handle_log_extended
  | 0xBF => Some Handler.handle_mem_extended
  | 0xC0 => Some Handler.handle_iter_new
  | 0xC1 => Some Handler.handle_iter_next
  | 0xC2 => Some Handler.handle_generator_create
  | 0xC3 => Some Handler.handle_generator_next
  | 0xC4 => Some Handler.handle_generator_has_next
  | 0xC5 => Some Handler.handle_to_string
  | 0xC6 => Some Handler.handle_concat
  | 0xC7 => Some Handler.handle_new_set
  | 0xC8 => Some Handler.handle_set_insert
  | 0xC9 => Some Handler.handle_set_contains
  | 0xCA => Some Handler.handle_set_remove
  | 0xCB => Some Handler.handle_char_to_str
  | 0xCC => Some Handler.handle_new_range
  | 0xCD => Some Handler.handle_new_deque
  | 0xCE => Some Handler.handle_push
  | 0xCF => Some Handler.handle_pop
  | 0xD0 => Some Handler.handle_throw
  | 0xD1 => Some Handler.handle_try_begin
  | 0xD2 => Some Handler.handle_try_end
  | 0xD3 => Some Handler.handle_get_exception
  | 0xD4 => Some Handler.handle_spec
  | 0xD5 => Some Handler.handle_guard
  | 0xD6 => Some Handler.handle_assert
  | 0xD7 => Some Handler.handle_panic
  | 0xD8 => Some Handler.handle_unreachable
  | 0xD9 => Some Handler.handle_debug_print
  | 0xDA => Some Handler.handle_requires
  | 0xDB => Some Handler.handle_ensures
  | 0xDC => Some Handler.handle_invariant
  | 0xDD => Some Handler.handle_new_channel
  | 0xE0 => Some Handler.handle_syscall
  | 0xE1 => Some Handler.handle_mmap
  | 0xE2 => Some Handler.handle_munmap
  | 0xE3 => Some Handler.handle_atomic_load
  | 0xE4 => Some Handler.handle_atomic_store
  | 0xE5 => Some Handler.handle_atomic_cas
  | 0xE6 => Some Handler.handle_atomic_fence
  | 0xE7 => Some Handler.handle_io_submit
  | 0xE8 => Some Handler.handle_io_poll
  | 0xE9 => Some Handler.handle_tls_get
  | 0xEA => Some Handler.handle_tls_set
  | 0xEB => Some Handler.handle_grad_begin
  | 0xEC => Some Handler.handle_grad_end
  | 0xED => Some Handler.handle_grad_checkpoint
  | 0xEE => Some Handler.handle_grad_accumulate
  | 0xEF => Some Handler.handle_grad_stop
  | 0xF0 => Some Handler.handle_time_extended
  | 0xF1 => Some Handler.handle_sys_extended
  | 0xF2 => Some Handler.handle_mach_extended
  | 0xF3 => Some Handler.handle_sync_extended
  | 0xF8 => Some Handler.handle_gpu_extended
  | 0xF9 => Some Handler.handle_gpu_sync
  | 0xFA => Some Handler.handle_gpu_memcpy
  | 0xFB => Some Handler.handle_gpu_alloc
  | 0xFC => Some Handler.handle_tensor_extended
  | 0xFD => Some Handler.handle_ml_extended
  | _ => None
  end.

Definition handler_operands (opcode : Opcode.t) : option (list operand) :=
  DISPATCH_TABLE (Opcode.to_byte opcode).
