(* ===== verification/OperandsFacts.v ===== *)
(** * Operands of the interpreter's handlers: facts

    A handler and the decoder of [bytecode.rs] agree when they leave the offset at
    the same place. *)

From S2P Require Import Prelude Words Encoding TypeRefs Opcodes InstructionOk Instruction InstructionEncode.
From S2P Require Import InstructionDecode.
From S2P Require Import InstructionFacts Operands.

Section follows.
Context (data : bytes) (with_capacity : Z → bool).

(** Where the decoder succeeds, the reads succeed and end at the same place. *)
Definition follows {A} (d : decoder A) (operands : list operand) : Prop :=
  ∀ offset a next, d offset = (Ok a, next) →
    read_operands data with_capacity operands offset = (Ok tt, next).

Definition reads_as {A} (d : decoder A) (o : operand) : Prop :=
  ∀ offset a next, d offset = (Ok a, next) → read_operand data with_capacity o offset = (Ok tt, next).




Lemma follows_last {A} (d : decoder A) o : reads_as d o → follows d [o].
Proof. intros Hd offset a next H. apply Hd in H. cbn [read_operands]. unfold mbind, decoder_bind. by rewrite H. Qed.







End follows.



(** ** Two reads of one decoder, loops of a cast, and the payload carriers *)
Section special.
Context (data : bytes) (with_capacity : Z → bool).




End special.

(** The opcodes whose handler reads other operands than the decoder. *)
Definition misread (opcode : Opcode.t) : bool :=
  match opcode with
  | Opcode.AddG | Opcode.SubG | Opcode.MulG | Opcode.DivG | Opcode.CallR | Opcode.CallC | Opcode.NewG
  | Opcode.Switch | Opcode.NurserySpawn | Opcode.NurseryConfig | Opcode.PushContext | Opcode.PopContext
  | Opcode.MetaReflect | Opcode.Mmap | Opcode.Munmap | Opcode.AtomicFence | Opcode.IoSubmit
  | Opcode.IoPoll | Opcode.NewArray | Opcode.TypeOf | Opcode.MatchGuard | Opcode.Join
  | Opcode.HasCapability | Opcode.RequireCapability | Opcode.Requires | Opcode.Ensures
  | Opcode.Invariant | Opcode.NewChannel | Opcode.TensorExtended => true
  | _ => false
  end.

(** An instruction of each of the opcodes in [misread]. *)
Definition misread_instance (opcode : Opcode.t) : Instruction.t :=
  let r := 1 in
  let no_args := {| start := r; count := 0 |} in
  match opcode with
  | Opcode.AddG => Instruction.BinaryG BinaryGenericOp.Add r r r 1
  | Opcode.SubG => Instruction.BinaryG BinaryGenericOp.Sub r r r 1
  | Opcode.MulG => Instruction.BinaryG BinaryGenericOp.Mul r r r 1
  | Opcode.DivG => Instruction.BinaryG BinaryGenericOp.Div r r r 1
  | Opcode.CallR => Instruction.CallR r r 2
  | Opcode.CallC => Instruction.CallC r 1 no_args
  | Opcode.NewG => Instruction.NewG r 20 [r]
  | Opcode.Switch => Instruction.Switch r 10 [(5, 20)]
  | Opcode.NurserySpawn => Instruction.NurserySpawn r r r
  | Opcode.NurseryConfig => Instruction.NurserySetTimeout r r
  | Opcode.PushContext => Instruction.PushContext 7 r
  | Opcode.PopContext => Instruction.PopContext 7
  | Opcode.MetaReflect => Instruction.MetaReflect r 3
  | Opcode.Mmap => Instruction.Mmap r r 200 r r r r
  | Opcode.Munmap => Instruction.Munmap r r 200
  | Opcode.AtomicFence => Instruction.AtomicFence 4
  | Opcode.IoSubmit => Instruction.IoSubmit r r r
  | Opcode.IoPoll => Instruction.IoPoll r r r
  | Opcode.TensorExtended => Instruction.RandomU64 r
  | opcode => Instruction.Raw opcode []
  end.

Section agreement.
Context (data : bytes) (with_capacity : Z → bool).




End agreement.



(** The list of exceptions is exact: for every opcode in [misread] there is an
    instruction which the encoder writes under that opcode and the decoder reads
    back up to its last byte, while the reads of the handler, over the same bytes and
    whatever the archive's capacity, end elsewhere, before or past the end of the
    instruction, so the next opcode is fetched from the wrong place. *)
Theorem operands_misread (with_capacity : Z → bool) (opcode : Opcode.t) :
  misread opcode = true →
  let i := misread_instance opcode in
  let code := (encode_instruction i []).1 in
  let data := code ++ replicate 16 0 in
  ∃ operands, handler_operands opcode = Some operands ∧
    data !! 0%nat = Some (Opcode.to_byte opcode) ∧
    decode_instruction data with_capacity 0%nat = (Ok i, length code) ∧
    (read_operands data with_capacity operands 1%nat).2 ≠ length code.
Proof. intros H. destruct opcode; try discriminate H; eexists; (split; [reflexivity|]); by vm_compute. Qed.

Lemma operands_misread_witness :
  misread Opcode.AtomicFence = true ∧
  (read_operands ((encode_instruction (Instruction.AtomicFence 4) []).1 ++ replicate 16 0) (λ _, true)
    Handler.handle_atomic_fence 1%nat).2 ≠ 2%nat.
Proof.
  split; [reflexivity|].
  destruct (operands_misread (λ _, true) Opcode.AtomicFence eq_refl) as (operands & E & _ & _ & H).
  vm_compute in E. injection E as <-. exact H.
Defined.
