(* ===== verification/Interp.v ===== *)
(** * The interpreter: state, bytecode and operands

    The frame of [verum_vbc/src/interpreter]: the computations of handlers, the
    bytecode of the current function ([state.rs]), the readers of operands
    ([bytecode_io.rs]), the length envelope of an extended family ([envelope.rs])
    and the values of registers.  A computation changes the state and ends with a
    value or an error, or leaves what is modelled: it reads the heap, whose objects
    are not in the state, or computes on floats. *)

From stdpp Require Import gmap.
From S2P Require Import Prelude Words Encoding TypeRefs NanBox Registers Frames.
From S2P Require Import Instruction Validate WidthArith.

Inductive verdict (A : Type) :=
| Done (a : A)
| Throw (e : interpreter_fault)
| Outside.
Arguments Done {A} a.
Arguments Throw {A} e.
Arguments Outside {A}.

Definition M (A : Type) : Type := FrameState → verdict A * FrameState.

#[export] Instance M_ret : MRet M := λ A a s, (Done a, s).
#[export] Instance M_bind : MBind M := λ A B f m s,
  match m s with
  | (Done a, s) => f a s
  | (Throw e, s) => (Throw e, s)
  | (Outside, s) => (Outside, s)
  end.

Definition raise {A} (e : InterpreterError) : M A := λ s, (Throw (Raised e), s).
Definition panics {A} (e : interpreter_fault) : M A := λ s, (Throw e, s).
Definition outside {A} : M A := λ s, (Outside, s).
Definition gets {A} (f : FrameState → A) : M A := λ s, (Done (f s), s).
Definition modify (f : FrameState → FrameState) : M unit := λ s, (Done tt, f s).

(** The operations of [Frames.v] as computations. *)
Definition verdict_of {A} (x : result A) : verdict A :=
  match x with Ok a => Done a | Err e => Throw e | Gas _ => Outside end.
Definition reads {A} (f : FrameState → verdict A) : M A := λ s, (f s, s).
Definition change (f : FrameState → result FrameState) : M unit := λ s,
  match f s with Ok s => (Done tt, s) | Err e => (Throw e, s) | Gas _ => (Outside, s) end.

(** ** Registers *)
Definition reg_value (reg : Reg) : M Value := gets (λ s, get_reg s reg).
Definition put (reg : Reg) (v : Value) : M unit := modify (λ s, set_reg s reg v).

(** [state.set_reg(dst, Value::from_i64(i))], which may box. *)
Definition with_tables (s : FrameState) (t : Tables) : FrameState := with_cells s (escape_cells s) t.
Definition put_boxed (reg : Reg) (box : Tables → Tables * Value) : M unit :=
  modify (λ s, let '(t, v) := box (tables s) in set_reg (with_tables s t) reg v).
Definition put_i64 (reg : Reg) (i : i64) : M unit := put_boxed reg (λ t, from_i64 t i).
Definition put_i128 (reg : Reg) (raw : Z) (signed : bool) : M unit :=
  put_boxed reg (λ t, from_i128_raw_signed t raw signed).
Definition put_bool (reg : Reg) (b : bool) : M unit := put reg (from_bool b).

(** An extractor of values, with the tables it looks into. *)
Definition extract {A} (f : Tables → Value → A) (v : Value) : M A := gets (λ s, f (tables s) v).

(** ** Reference operands *)

(** [reference_value_slot] and [resolve_arg_value]: a register reference is read,
    without a check of its generation; a value slot in the heap is outside.  The
    alignment of a value is eight bytes. *)
Definition reference_value_slot (s : FrameState) (v : Value) : verdict bool :=
  if is_regular_ptr v && negb (is_nil v) && (as_ptr v mod 8 =? 0) &&
     bool_decide (as_ptr v ∈ cbgr_mutable_ptrs s)
  then Outside
  else if is_thin_ref v then
    match try_as_thin_ref (tables s) v with
    | Some reference =>
        if negb (ptr reference =? 0) && (ptr reference mod 8 =? 0) then Outside else Done false
    | None => Outside
    end
  else Done false.

Definition resolve_arg_value (v : Value) : M Value := reads (λ s,
  if Frames.is_cbgr_ref v
  then verdict_of (get_absolute (register_file s) (decode_cbgr_ref v).1)
  else
    match reference_value_slot s v with
    | Done _ => Done v
    | Throw e => Throw e
    | Outside => Outside
    end).

(** [arith_operand] and [ord_operand]. *)
Definition arith_operand (reg : Reg) : M Value := v ← reg_value reg; resolve_arg_value v.

(** ** Bytecode *)
Section Bytecode.
Context (module : VbcModule) (to_string : VbcError → string) (with_capacity : Z → bool).

(** [current_bytecode]: the slice of the module that the current function names. *)
Definition current_bytecode (s : FrameState) : option bytes :=
  frame ← current (call_stack s);
  func ← get_function module (function frame);
  let start := Z.to_nat (bytecode_offset func) in
  let stop := (start + Z.to_nat (bytecode_length func))%nat in
  if (stop <=? length (bytecode module))%nat
  then Some (take (stop - start) (drop start (bytecode module))) else None.

Definition operand_bytecode (s : FrameState) : option bytes :=
  code ← current_bytecode s;
  frame ← current (call_stack s);
  Some (take (Z.to_nat (operand_end frame)) code).

Definition set_state_pc (to : Z) : M unit :=
  modify (λ s, with_call_stack s (set_pc (call_stack s) to)).

(** [read_operand]: decode at the program counter, move it past the operand on
    success only. *)
Definition read_operand {A} (decode : bytes → decoder A) : M A := λ s,
  let at_pc := Z.to_nat (pc (call_stack s)) in
  match operand_bytecode s with
  | None => raise (InvalidBytecode at_pc "missing current function bytecode") s
  | Some data =>
      match decode data at_pc with
      | (Ok value, next) => (_ ← set_state_pc (wrap 32 (Z.of_nat next)); mret value) s
      | (Err (Failed error), _) => raise (InvalidBytecode at_pc (to_string error)) s
      | (Err Panicked, _) => panics IndexPanic s
      | (Gas _, _) => outside s
      end
  end.

Definition read_reg : M Reg := read_operand decode_reg.
Definition read_u8 : M u8 := read_operand decode_u8.
Definition read_i8 : M Z := v ← read_operand decode_u8; mret (to_signed 8 v).
Definition read_varint : M u64 := read_operand decode_varint.
Definition read_signed_varint : M i64 := read_operand decode_signed_varint.
Definition read_f64 : M f64 := read_operand decode_f64.

(** ** The envelope of an extended family *)

Definition frame_window (to limit : Z) (f : CallFrame) : CallFrame :=
  {| function := function f; frame_pc := to; operand_end := limit; reg_base := reg_base f;
     reg_count := reg_count f; return_pc := return_pc f; return_reg := return_reg f;
     caller_base := caller_base f |}.

Definition set_window (to limit : Z) (s : FrameState) : FrameState :=
  with_call_stack s (update_current (frame_window to limit) (call_stack s)).

(** [call_stack.at_mut(depth)]: the frame the instruction belongs to. *)
Definition set_window_at (at_index : nat) (to limit : Z) (s : FrameState) : option FrameState :=
  frame ← frames (call_stack s) !! at_index;
  Some (with_call_stack s
    (with_frames (call_stack s) (<[at_index := frame_window to limit frame]> (frames (call_stack s))))).

(** The end of the body, whether it failed or not: the window and the program
    counter of the frame are put back. *)
Definition close_envelope {A} (at_index start : nat) (stop previous_end : Z) (result : verdict A) : M A := λ s,
  match result with
  | Done _ | Throw (Raised _) =>
      match set_window_at at_index stop previous_end s with
      | Some s => (result, s)
      | None => raise (InvalidBytecode start "extended instruction removed its caller frame") s
      end
  | _ => (result, s)
  end.

Definition dispatch_enveloped {A} (body : u8 → M A) : M A :=
  sub_op ← read_u8;
  '(start, len) ← read_operand decode_payload_range;
  let stop := wrap 32 (Z.of_nat (start + len)) in
  s ← gets id;
  let at_index := (depth (call_stack s) - 1)%nat in
  match current (call_stack s) with
  | Some frame => λ s,
      let '(result, s) := body sub_op (set_window (wrap 32 (Z.of_nat start)) stop s) in
      close_envelope at_index start stop (operand_end frame) result s
  | None => panics ExpectPanic
  end.
End Bytecode.
