(* ===== verification/IntegerOps.v ===== *)
(** * Integer instructions

    The handlers of [integer_arith.rs], [bitwise.rs], the orderings of
    [comparison.rs] and the arm families of [arith_extended.rs] on integers, from
    their operands on.  An arm that computes on floats, concatenates strings or
    looks up the operator of an object leaves the model; the test that decides it
    is the source's, except that any object counts where the source looks at its
    header. *)

From S2P Require Import Prelude Words Encoding TypeRefs NanBox Registers Frames.
From S2P Require Import Opcodes WidthArith Interp.

(** A pointer to an object. *)
Definition is_object (v : Value) : bool := is_ptr v && negb (is_nil v).

(** [wrapping_pow] by squaring, on [w] bits. *)
Fixpoint wrapping_pow_pos (w base : Z) (exp : positive) : Z :=
  match exp with
  | xH => wrap w base
  | xO exp => let x := wrapping_pow_pos w base exp in wrap w (x * x)
  | xI exp => let x := wrapping_pow_pos w base exp in wrap w (base * wrap w (x * x))
  end.
Definition wrapping_pow (w base exp : Z) : Z :=
  match exp with Zpos exp => wrapping_pow_pos w base exp | _ => wrap w 1 end.

Definition is_i128_op (a b : Value) : bool := is_boxed_i128 a || is_boxed_i128 b.

(** ** Integer arithmetic *)
Section Arithmetic.
Context (dst : Reg).

(** The two continuations of a binary instruction: the operands as [i64] or as
    [i128], and the sign of the wide result. *)
Definition result_signed (t : Tables) (a b : Value) : bool :=
  if is_boxed_i128 a then boxed_i128_is_signed t a
  else if is_boxed_i128 b then boxed_i128_is_signed t b
  else true.

Definition finish_i64 (i : i64) : M DispatchResult := put_i64 dst i;; mret Continue.
Definition finish_i128 (raw : Z) (signed : bool) : M DispatchResult :=
  put_i128 dst raw signed;; mret Continue.

Definition do_addi (a b : Reg) : M DispatchResult :=
  val_a ← arith_operand a; val_b ← arith_operand b;
  t ← gets tables;
  let sum := to_signed 64 (as_integer_compatible t val_a + as_integer_compatible t val_b) in
  if is_inline_int val_a && is_inline_int val_b then finish_i64 sum
  else if is_float val_a || is_float val_b then outside
  else if is_i128_op val_a val_b then
    finish_i128 (wrap 128 (as_i128_raw t val_a + as_i128_raw t val_b)) (result_signed t val_a val_b)
  else if is_small_string val_a || is_small_string val_b || is_object val_a || is_object val_b then outside
  else finish_i64 sum.

Definition do_subi (a b : Reg) : M DispatchResult :=
  va ← arith_operand a; vb ← arith_operand b;
  t ← gets tables;
  if is_float va || is_float vb then outside
  else if is_i128_op va vb then
    finish_i128 (wrap 128 (as_i128_raw t va - as_i128_raw t vb)) (result_signed t va vb)
  else if is_object va then outside
  else finish_i64 (to_signed 64 (as_integer_compatible t va - as_integer_compatible t vb)).

Definition do_muli (a b : Reg) : M DispatchResult :=
  va ← arith_operand a; vb ← arith_operand b;
  t ← gets tables;
  if is_float va || is_float vb then outside
  else if is_i128_op va vb then
    finish_i128 (wrap 128 (as_i128_raw t va * as_i128_raw t vb)) (result_signed t va vb)
  else if is_object va then outside
  else finish_i64 (to_signed 64 (as_integer_compatible t va * as_integer_compatible t vb)).

(** The signed division and remainder; [MIN / -1] wraps. *)
Definition do_signed_division (op : Z → Z → Z) (a b : Reg) : M DispatchResult :=
  va ← arith_operand a; vb ← arith_operand b;
  t ← gets tables;
  if is_float va || is_float vb then outside
  else if is_i128_op va vb then
    let b := to_signed 128 (as_i128_raw t vb) in
    if b =? 0 then raise DivisionByZero
    else finish_i128 (wrap 128 (op (to_signed 128 (as_i128_raw t va)) b)) (result_signed t va vb)
  else if is_object va then outside
  else
    let divisor := as_integer_compatible t vb in
    if divisor =? 0 then raise DivisionByZero
    else finish_i64 (to_signed 64 (op (as_integer_compatible t va) divisor)).

Definition do_divi : Reg → Reg → M DispatchResult := do_signed_division Z.quot.
Definition do_modi : Reg → Reg → M DispatchResult := do_signed_division Z.rem.

Definition do_unsigned_division (op : Z → Z → Z) (a b : Reg) : M DispatchResult :=
  va ← arith_operand a; vb ← arith_operand b;
  t ← gets tables;
  if is_i128_op va vb then
    let divisor := as_i128_raw t vb in
    if divisor =? 0 then raise DivisionByZero
    else finish_i128 (op (as_i128_raw t va) divisor) false
  else
    let divisor := as_u64 (as_integer_compatible t vb) in
    if divisor =? 0 then raise DivisionByZero
    else finish_i64 (as_i64_cast (op (as_u64 (as_integer_compatible t va)) divisor)).

Definition do_udivi : Reg → Reg → M DispatchResult := do_unsigned_division Z.quot.
Definition do_umodi : Reg → Reg → M DispatchResult := do_unsigned_division Z.rem.

Definition do_powi (base exp : Reg) : M DispatchResult :=
  base_v ← arith_operand base; exp_v ← arith_operand exp;
  t ← gets tables;
  if is_float base_v || is_float exp_v then outside
  else if is_boxed_i128 base_v then
    let exp := to_signed 128 (as_i128_raw t exp_v) in
    finish_i128 (if (0 <=? exp) && (exp <=? 0xFFFFFFFF) then wrapping_pow 128 (as_i128_raw t base_v) exp else 0)
      (boxed_i128_is_signed t base_v)
  else
    let exp_val := as_integer_compatible t exp_v in
    finish_i64 (if (0 <=? exp_val) && (exp_val <=? 0xFFFFFFFF)
                then as_i64_cast (wrapping_pow 64 (as_integer_compatible t base_v) exp_val) else 0).

(** The sign of a float is its top bit. *)
Definition do_negi (src : Reg) : M DispatchResult :=
  sv ← arith_operand src; t ← gets tables;
  if is_float sv then put dst (from_f64 (Z.lxor (float_bits sv) (2 ^ 63)));; mret Continue
  else if is_boxed_i128 sv then finish_i128 (wrap 128 (0 - as_i128_raw t sv)) (boxed_i128_is_signed t sv)
  else if is_object sv then outside
  else finish_i64 (to_signed 64 (- as_integer_compatible t sv)).

Definition do_absi (src : Reg) : M DispatchResult :=
  sv ← arith_operand src; t ← gets tables;
  if is_float sv then put dst (from_f64 (Z.land (float_bits sv) (2 ^ 63 - 1)));; mret Continue
  else if is_boxed_i128 sv then
    let raw := as_i128_raw t sv in
    let signed := boxed_i128_is_signed t sv in
    finish_i128 (if signed then wrap 128 (Z.abs (to_signed 128 raw)) else raw) signed
  else finish_i64 (to_signed 64 (Z.abs (as_integer_compatible t sv))).

Definition do_step (delta : Z) (src : Reg) : M DispatchResult :=
  sv ← arith_operand src; t ← gets tables;
  if is_boxed_i128 sv then finish_i128 (wrap 128 (as_i128_raw t sv + delta)) (boxed_i128_is_signed t sv)
  else finish_i64 (to_signed 64 (as_integer_compatible t sv + delta)).

Definition do_inc : Reg → M DispatchResult := do_step 1.
Definition do_dec : Reg → M DispatchResult := do_step (- 1).

(** ** Bits *)

(** [&], [|] and [^] on [i64]s and on the raw 128 bits. *)
Definition do_bits (op : Z → Z → Z) (a b : Reg) : M DispatchResult :=
  va ← arith_operand a; vb ← arith_operand b;
  t ← gets tables;
  if is_i128_op va vb then
    finish_i128 (op (as_i128_raw t va) (as_i128_raw t vb)) (result_signed t va vb)
  else finish_i64 (op (as_integer_compatible t va) (as_integer_compatible t vb)).

Definition do_band : Reg → Reg → M DispatchResult := do_bits Z.land.
Definition do_bor : Reg → Reg → M DispatchResult := do_bits Z.lor.
Definition do_bxor : Reg → Reg → M DispatchResult := do_bits Z.lxor.

Definition do_bnot (src : Reg) : M DispatchResult :=
  sv ← arith_operand src; t ← gets tables;
  if is_boxed_i128 sv then finish_i128 (wrap 128 (Z.lnot (as_i128_raw t sv))) (boxed_i128_is_signed t sv)
  else finish_i64 (Z.lnot (as_integer_compatible t sv)).

Definition do_shl (a b : Reg) : M DispatchResult :=
  va ← arith_operand a; vb ← arith_operand b;
  t ← gets tables;
  if is_boxed_i128 va then
    let shift := Z.land (as_integer_compatible t vb) 127 in
    finish_i128 (wrap 128 (Z.shiftl (as_i128_raw t va) shift)) (boxed_i128_is_signed t va)
  else
    let shift := Z.land (as_integer_compatible t vb) 63 in
    finish_i64 (to_signed 64 (Z.shiftl (as_integer_compatible t va) shift)).

Definition do_shr (a b : Reg) : M DispatchResult :=
  va ← arith_operand a; vb ← arith_operand b;
  t ← gets tables;
  if is_boxed_i128 va then
    let shift := Z.land (as_integer_compatible t vb) 127 in
    finish_i128 (wrap 128 (Z.shiftr (to_signed 128 (as_i128_raw t va)) shift)) (boxed_i128_is_signed t va)
  else
    let shift := Z.land (as_integer_compatible t vb) 63 in
    finish_i64 (Z.shiftr (as_integer_compatible t va) shift).

Definition do_ushr (a b : Reg) : M DispatchResult :=
  va ← arith_operand a; vb ← arith_operand b;
  t ← gets tables;
  if is_boxed_i128 va then
    let shift := Z.land (as_integer_compatible t vb) 127 in
    finish_i128 (Z.shiftr (as_i128_raw t va) shift) false
  else
    let shift := Z.land (as_integer_compatible t vb) 63 in
    finish_i64 (as_i64_cast (Z.shiftr (as_u64 (as_integer_compatible t va)) shift)).

(** ** Orderings *)
Definition i128_ordering (t : Tables) (a b : Value) : comparison :=
  let ra := as_i128_raw t a in
  let rb := as_i128_raw t b in
  if result_signed t a b then Z.compare (to_signed 128 ra) (to_signed 128 rb) else Z.compare ra rb.

(** [ord_operand] is [arith_operand]. *)
Definition do_ordering (holds : comparison → bool) (a b : Reg) : M DispatchResult :=
  va ← arith_operand a; vb ← arith_operand b;
  t ← gets tables;
  put_bool dst (holds (if is_i128_op va vb then i128_ordering t va vb
                       else Z.compare (as_integer_compatible t va) (as_integer_compatible t vb)));;
  mret Continue.

Definition is_lt (c : comparison) : bool := match c with Lt => true | _ => false end.
Definition is_le (c : comparison) : bool := match c with Gt => false | _ => true end.
Definition is_gt (c : comparison) : bool := match c with Gt => true | _ => false end.
Definition is_ge (c : comparison) : bool := match c with Lt => false | _ => true end.

Definition do_lti : Reg → Reg → M DispatchResult := do_ordering is_lt.
Definition do_lei : Reg → Reg → M DispatchResult := do_ordering is_le.
Definition do_gti : Reg → Reg → M DispatchResult := do_ordering is_gt.
Definition do_gei : Reg → Reg → M DispatchResult := do_ordering is_ge.

(** The unsigned orderings take the registers as they are. *)
Definition unsigned_holds (sub_op : Z) : option (comparison → bool) :=
  if sub_op =? 0 then Some is_lt else if sub_op =? 1 then Some is_le
  else if sub_op =? 2 then Some is_gt else if sub_op =? 3 then Some is_ge else None.

Definition do_cmp_extended (sub_op : Z) (a b : Reg) : M DispatchResult :=
  va ← reg_value a; vb ← reg_value b;
  t ← gets tables;
  match unsigned_holds sub_op with
  | Some holds =>
      put_bool dst (holds (if is_i128_op va vb then Z.compare (as_i128_raw t va) (as_i128_raw t vb)
                           else Z.compare (as_u64 (as_integer_compatible t va))
                                  (as_u64 (as_integer_compatible t vb))));;
      mret Continue
  | None => raise (NotImplemented "CmpExtended unknown sub-opcode" (Some (Opcode.to_byte Opcode.CmpExtended)))
  end.
End Arithmetic.
