(* ===== verification/ArithExtended.v ===== *)
(** * Extended arithmetic

    The family [ArithExtended] of [arith_extended.rs]: the arms on integers, from
    the sub-opcode on, each reading its operands inside the envelope.  The arms
    that build a tuple or a [Maybe] on the heap and those on floats leave the
    model; so does a polymorphic arm whose first operand is a float, except for
    the sign operations. *)

From S2P Require Import Prelude Words Encoding TypeRefs NanBox Registers Frames.
From S2P Require Import Opcodes Instruction Validate WidthArith Interp.

Module ArithSubOpcode.
Inductive t :=
| CheckedAddI | CheckedSubI | CheckedMulI | CheckedDivI | CheckedAddU | CheckedSubU | CheckedMulU
| CheckedNeg | CheckedAbs | OverflowingAddI | OverflowingSubI | OverflowingMulI | PolyAdd
| PolySub | PolyMul | PolyDiv | PolyNeg | PolyRem | PolyAbs | PolySignum | PolyMin | PolyMax
| PolyClamp | SaturatingAdd | SaturatingSub | SaturatingNeg | SaturatingAbs | SaturatingMul
| WrappingAdd | WrappingSub | WrappingMul | WrappingNeg | WrappingShl | WrappingShr | WrappingDiv
| WrappingRem | WrappingAbs | Clz | Ctz | Popcnt | Bswap | BitReverse | RotateLeft | RotateRight
| FunnelShiftLeft | FunnelShiftRight | Atan2 | Hypot | Copysign | Pow | LogBase | Fmod
| Remainder | Fdim | SextI | ZextI | FptruncF | FpextF | IntTrunc | F32ToBits | F32FromBits
| F64ToBits | F64FromBits.

Definition from_byte (byte : Z) : option t :=
  match byte with
  | 0x00 => Some CheckedAddI | 0x01 => Some CheckedSubI | 0x02 => Some CheckedMulI
  | 0x03 => Some CheckedDivI | 0x04 => Some CheckedAddU | 0x05 => Some CheckedSubU
  | 0x06 => Some CheckedMulU | 0x07 => Some CheckedNeg | 0x08 => Some CheckedAbs
  | 0x10 => Some OverflowingAddI | 0x11 => Some OverflowingSubI | 0x12 => Some OverflowingMulI
  | 0x20 => Some PolyAdd | 0x21 => Some PolySub | 0x22 => Some PolyMul | 0x23 => Some PolyDiv
  | 0x24 => Some PolyNeg | 0x25 => Some PolyRem | 0x26 => Some PolyAbs | 0x27 => Some PolySignum
  | 0x28 => Some PolyMin | 0x29 => Some PolyMax | 0x2A => Some PolyClamp
  | 0x30 => Some SaturatingAdd | 0x31 => Some SaturatingSub | 0x32 => Some SaturatingMul
  | 0x33 => Some SaturatingNeg | 0x34 => Some SaturatingAbs | 0x40 => Some WrappingAdd
  | 0x41 => Some WrappingSub | 0x42 => Some WrappingMul | 0x43 => Some WrappingNeg
  | 0x44 => Some WrappingShl | 0x45 => Some WrappingShr | 0x46 => Some WrappingDiv
  | 0x47 => Some WrappingRem | 0x48 => Some WrappingAbs | 0x50 => Some Clz | 0x51 => Some Ctz
  | 0x52 => Some Popcnt | 0x53 => Some Bswap | 0x54 => Some BitReverse | 0x55 => Some RotateLeft
  | 0x56 => Some RotateRight | 0x57 => Some FunnelShiftLeft | 0x58 => Some FunnelShiftRight
  | 0x60 => Some Atan2 | 0x61 => Some Hypot | 0x62 => Some Copysign | 0x63 => Some Pow
  | 0x64 => Some LogBase | 0x65 => Some Fmod | 0x66 => Some Remainder | 0x67 => Some Fdim
  | 0x70 => Some SextI | 0x71 => Some ZextI | 0x72 => Some FptruncF | 0x73 => Some FpextF
  | 0x74 => Some IntTrunc | 0x75 => Some F32ToBits | 0x76 => Some F32FromBits
  | 0x77 => Some F64ToBits | 0x78 => Some F64FromBits
  | _ => None
  end.
End ArithSubOpcode.

(** The sign operations on the bits of a float. *)
Definition float_neg (bits : Z) : Z := Z.lxor bits (2 ^ 63).
Definition float_abs (bits : Z) : Z := Z.land bits (2 ^ 63 - 1).

Section Body.
Context (module : VbcModule) (to_string : VbcError → string).

Abbreviation read_reg := (read_reg module to_string).
Abbreviation read_u8 := (read_u8 module to_string).

(** [lenient_i64(state.get_reg(reg))]. *)
Definition lenient (reg : Reg) : M i64 := v ← reg_value reg; extract lenient_i64 v.

Definition finish (dst : Reg) (result : i64) : M DispatchResult := put_i64 dst result;; mret Continue.

(** [read_u8(state)? != 0]. *)
Definition read_flag : M bool := b ← read_u8; mret (negb (b =? 0)).

(** A library function that may divide by zero. *)
Definition or_panic {A} (o : option A) : M A :=
  match o with Some a => mret a | None => panics DivisionPanic end.

(** [dst, a, b, width, signed]. *)
Definition width_binary (op : i64 → i64 → Z → bool → option i64) : M DispatchResult :=
  dst ← read_reg; a_reg ← read_reg; b_reg ← read_reg;
  width ← read_u8; signed ← read_flag;
  a ← lenient a_reg; b ← lenient b_reg;
  result ← or_panic (op a b width signed);
  finish dst result.

(** [dst, src, width, signed]. *)
Definition width_unary (op : i64 → Z → bool → i64) : M DispatchResult :=
  dst ← read_reg; src_reg ← read_reg;
  width ← read_u8; signed ← read_flag;
  src ← lenient src_reg;
  finish dst (op src width signed).

(** The division checks the whole divisor before the operation narrows it. *)
Definition width_division (op : i64 → i64 → Z → bool → option i64) : M DispatchResult :=
  dst ← read_reg; a_reg ← read_reg; b_reg ← read_reg;
  width ← read_u8; signed ← read_flag;
  a ← lenient a_reg; b ← lenient b_reg;
  if b =? 0 then raise DivisionByZero
  else
    result ← or_panic (op a b width signed);
    finish dst result.

(** [dst, src] and [dst, val, amount] on the 64 bits. *)
Definition bits_unary (op : u64 → Z) : M DispatchResult :=
  dst ← read_reg; src ← read_reg;
  v ← lenient src;
  finish dst (as_i64_cast (op (as_u64 v))).

Definition bits_rotate (op : u64 → Z → u64) : M DispatchResult :=
  dst ← read_reg; val_reg ← read_reg; amount_reg ← read_reg;
  v ← lenient val_reg; amount ← lenient amount_reg;
  finish dst (as_i64_cast (op (as_u64 v) (wrap 32 amount))).

Definition bits_funnel (op : u64 → u64 → Z → u64) : M DispatchResult :=
  dst ← read_reg; hi_reg ← read_reg; lo_reg ← read_reg; amount_reg ← read_reg;
  hi ← lenient hi_reg; lo ← lenient lo_reg; amount ← lenient amount_reg;
  finish dst (as_i64_cast (op (as_u64 hi) (as_u64 lo) (wrap 32 amount))).

(** The polymorphic arms look at the first operand only. *)
Definition poly_binary (op : i64 → i64 → i64) : M DispatchResult :=
  dst ← read_reg; a_reg ← read_reg; b_reg ← read_reg;
  a ← reg_value a_reg; b ← reg_value b_reg;
  if is_float a then outside
  else x ← extract as_i64 a; y ← extract as_i64 b; finish dst (op x y).

Definition poly_division (op : Z → Z → Z) : M DispatchResult :=
  dst ← read_reg; a_reg ← read_reg; b_reg ← read_reg;
  a ← reg_value a_reg; b ← reg_value b_reg;
  if is_float a then outside
  else
    divisor ← extract as_i64 b;
    if divisor =? 0 then raise DivisionByZero
    else x ← extract as_i64 a; finish dst (to_signed 64 (op x divisor)).

Definition poly_unary (on_float : option (Z → Z)) (op : i64 → i64) : M DispatchResult :=
  dst ← read_reg; src_reg ← read_reg;
  src ← reg_value src_reg;
  if is_float src then
    match on_float with
    | Some f => put dst (from_f64 (f (float_bits src)));; mret Continue
    | None => outside
    end
  else x ← extract as_i64 src; finish dst (op x).

Definition poly_clamp : M DispatchResult :=
  dst ← read_reg; val_reg ← read_reg; min_reg ← read_reg; max_reg ← read_reg;
  val ← reg_value val_reg; min_val ← reg_value min_reg; max_val ← reg_value max_reg;
  if is_float val then outside
  else
    v ← extract as_i64 val; lo ← extract as_i64 min_val; hi ← extract as_i64 max_val;
    finish dst (Z.min (Z.max v lo) hi).

Definition arm_sext : M DispatchResult :=
  dst ← read_reg; src ← read_reg; from_bits ← read_u8; _ ← read_u8;
  v ← lenient src;
  finish dst (sext v from_bits).

Definition arm_zext : M DispatchResult :=
  dst ← read_reg; src ← read_reg; from_bits ← read_u8; _ ← read_u8;
  v ← lenient src;
  finish dst (low_bits (as_u64 v) from_bits).

Definition arm_int_trunc : M DispatchResult :=
  dst ← read_reg; src ← read_reg; to_bits ← read_u8;
  v ← lenient src;
  finish dst (low_bits (as_u64 v) to_bits).

Definition arm_f64_from_bits : M DispatchResult :=
  dst ← read_reg; src ← read_reg;
  v ← lenient src;
  put dst (from_f64 (as_u64 v));; mret Continue.

Definition total (op : i64 → i64 → Z → bool → i64) : i64 → i64 → Z → bool → option i64 :=
  λ a b width signed, Some (op a b width signed).

Definition arith_extended_body (sub_op_byte : u8) : M DispatchResult :=
  match ArithSubOpcode.from_byte sub_op_byte with
  | Some ArithSubOpcode.PolyAdd => poly_binary (λ x y, to_signed 64 (x + y))
  | Some ArithSubOpcode.PolySub => poly_binary (λ x y, to_signed 64 (x - y))
  | Some ArithSubOpcode.PolyMul => poly_binary (λ x y, to_signed 64 (x * y))
  | Some ArithSubOpcode.PolyDiv => poly_division Z.quot
  | Some ArithSubOpcode.PolyRem => poly_division Z.rem
  | Some ArithSubOpcode.PolyNeg => poly_unary (Some float_neg) (λ x, to_signed 64 (- x))
  | Some ArithSubOpcode.PolyAbs => poly_unary (Some float_abs) (λ x, to_signed 64 (Z.abs x))
  | Some ArithSubOpcode.PolySignum => poly_unary None Z.sgn
  | Some ArithSubOpcode.PolyMin => poly_binary Z.min
  | Some ArithSubOpcode.PolyMax => poly_binary Z.max
  | Some ArithSubOpcode.PolyClamp => poly_clamp
  | Some ArithSubOpcode.SaturatingAdd => width_binary (total saturating_add)
  | Some ArithSubOpcode.SaturatingSub => width_binary (total saturating_sub)
  | Some ArithSubOpcode.SaturatingMul => width_binary (total saturating_mul)
  | Some ArithSubOpcode.SaturatingNeg => width_unary saturating_neg
  | Some ArithSubOpcode.SaturatingAbs => width_unary saturating_abs
  | Some ArithSubOpcode.WrappingAdd => width_binary (total wrapping_add)
  | Some ArithSubOpcode.WrappingSub => width_binary (total wrapping_sub)
  | Some ArithSubOpcode.WrappingMul => width_binary (total wrapping_mul)
  | Some ArithSubOpcode.WrappingNeg => width_unary wrapping_neg
  | Some ArithSubOpcode.WrappingShl => width_binary (λ a b, wrapping_shl a (wrap 32 b))
  | Some ArithSubOpcode.WrappingShr => width_binary (λ a b, wrapping_shr a (wrap 32 b))
  | Some ArithSubOpcode.WrappingDiv => width_division wrapping_div
  | Some ArithSubOpcode.WrappingRem => width_division wrapping_rem
  | Some ArithSubOpcode.WrappingAbs => width_unary wrapping_abs
  | Some ArithSubOpcode.Clz => bits_unary leading_zeros
  | Some ArithSubOpcode.Ctz => bits_unary trailing_zeros
  | Some ArithSubOpcode.Popcnt => bits_unary count_ones
  | Some ArithSubOpcode.Bswap => bits_unary swap_bytes
  | Some ArithSubOpcode.BitReverse => bits_unary reverse_bits
  | Some ArithSubOpcode.RotateLeft => bits_rotate rotate_left
  | Some ArithSubOpcode.RotateRight => bits_rotate rotate_right
  | Some ArithSubOpcode.FunnelShiftLeft => bits_funnel funnel_shift_left
  | Some ArithSubOpcode.FunnelShiftRight => bits_funnel funnel_shift_right
  | Some ArithSubOpcode.SextI => arm_sext
  | Some ArithSubOpcode.ZextI => arm_zext
  | Some ArithSubOpcode.IntTrunc => arm_int_trunc
  | Some ArithSubOpcode.F64FromBits => arm_f64_from_bits
  | Some _ => outside
  | None => raise (NotImplemented "unknown arithmetic sub-opcode" None)
  end.

Definition handle_arith_extended : M DispatchResult :=
  dispatch_enveloped module to_string arith_extended_body.
End Body.
