(* ===== verification/Machine.v ===== *)
(** * The dispatch loop

    [dispatch_table/mod.rs] over the handlers of [data_movement.rs],
    [control_flow.rs], [cbgr.rs] and the integer instructions: the table, a turn
    of the loop and the loop with its instruction limit.  Of the 230 handlers
    those are here whose effect stays within the state of [Frames.v]; the others,
    which use the heap, floats or other parts of the interpreter, are [outside].
    The loop has neither a cancellation flag nor a deadline, and no exception
    handler is installed: [TryBegin] is outside. *)

From S2P Require Import Prelude Words Encoding TypeRefs NanBox Registers Frames.
From S2P Require Import Opcodes Instruction Validate WidthArith Operands Interp IntegerOps ArithExtended.

(** ** Effects, from the operands on *)

Definition continue_with (m : M unit) : M DispatchResult := m;; mret Continue.

Definition do_mov (dst src : Reg) : M DispatchResult :=
  value ← reg_value src; continue_with (put dst value).
Definition do_loadi (dst : Reg) (value : i64) : M DispatchResult := continue_with (put_i64 dst value).
Definition do_loadf (dst : Reg) (value : f64) : M DispatchResult :=
  continue_with (put dst (from_f64 value)).
Definition do_load (dst : Reg) (value : Value) : M DispatchResult := continue_with (put dst value).

(** *** Conversions *)
Definition do_cvt_if (dst src : Reg) : M DispatchResult :=
  v ← reg_value src; int_val ← extract as_i64 v;
  continue_with (put dst (from_f64 (f64_of_i64 int_val))).

Definition float_to_int (mode : Z) : Z → i64 :=
  if mode =? 1 then f64_round_as_i64 up_floor
  else if mode =? 2 then f64_round_as_i64 up_ceil
  else if mode =? 3 then f64_round_as_i64 up_round
  else f64_as_i64.

Definition do_cvt_fi (mode : Z) (dst src : Reg) : M DispatchResult :=
  v ← reg_value src; continue_with (put_i64 dst (float_to_int mode (float_bits v))).

Definition is_scalar_value (c : Z) : bool :=
  (0 <=? c) && (c <=? 0x10FFFF) && negb ((0xD800 <=? c) && (c <=? 0xDFFF)).

Definition do_cvt_ic (dst src : Reg) : M DispatchResult :=
  v ← reg_value src; int_val ← extract as_i64 v;
  if negb (is_scalar_value int_val)
  then raise (InvalidCharConversion int_val "out of Unicode range or surrogate")
  else continue_with (put_boxed dst (λ t, from_char t int_val)).

(** [as_char] expects the low 32 bits to be a scalar value. *)
Definition do_cvt_ci (dst src : Reg) : M DispatchResult :=
  v ← reg_value src; codepoint ← extract as_i64 v;
  let c := wrap 32 codepoint in
  if is_scalar_value c then continue_with (put_i64 dst c) else panics ExpectPanic.

Definition do_cvt_bi (dst src : Reg) : M DispatchResult :=
  v ← reg_value src; continue_with (put_i64 dst (Z.b2z (as_bool v))).

Definition do_cvt_toi (dst src : Reg) : M DispatchResult :=
  val ← reg_value src; int_val ← extract as_i64 val;
  continue_with (put_i64 dst
    (if is_int val then int_val
     else if is_float val then f64_as_i64 (float_bits val)
     else if is_bool val then Z.b2z (as_bool val)
     else if is_ptr val then as_ptr val
     else 0)).

Definition do_cvt_tof (dst src : Reg) : M DispatchResult :=
  val ← reg_value src; int_val ← extract as_i64 val;
  continue_with (put dst (from_f64
    (if is_float val then float_bits val
     else if is_int val then f64_of_i64 int_val
     else if is_bool val then (if as_bool val then f64_of_i64 1 else 0)
     else 0))).

(** *** Logic *)
Definition do_logic (op : bool → bool → bool) (dst a b : Reg) : M DispatchResult :=
  va ← reg_value a; vb ← reg_value b;
  continue_with (put_bool dst (op (as_bool va) (as_bool vb))).

Definition do_lnot (dst src : Reg) : M DispatchResult :=
  val ← reg_value src; truthy ← extract is_truthy val;
  continue_with (put_bool dst (negb truthy)).

(** *** Jumps and returns *)

(** [(state.pc() as i64 + offset as i64) as u32]. *)
Definition jump_by (offset : i32) : M unit :=
  pc ← gets (λ s, pc (call_stack s)); set_state_pc (wrap 32 (pc + offset)).

Definition when (b : bool) (m : M unit) : M unit := if b then m else mret tt.

Definition do_jump (offset : i32) : M DispatchResult := continue_with (jump_by offset).
Definition do_jump_if (taken : bool) (cond : Reg) (offset : i32) : M DispatchResult :=
  v ← reg_value cond; truthy ← extract is_truthy v;
  continue_with (when (Bool.eqb truthy taken) (jump_by offset)).
Definition do_jump_cmp (holds : comparison → bool) (a b : Reg) (offset : i32) : M DispatchResult :=
  va ← reg_value a; vb ← reg_value b;
  x ← extract as_i64 va; y ← extract as_i64 vb;
  continue_with (when (holds (Z.compare x y)) (jump_by offset)).

Section Return.
Context (cell_address : nat → Z).

Definition return_with (value : Value) : M DispatchResult := λ s,
  match do_return cell_address s value with
  | Ok (r, s) => (Done r, s)
  | Err e => (Throw e, s)
  | Gas _ => (Outside, s)
  end.

Definition do_ret (src : Reg) : M DispatchResult := value ← reg_value src; return_with value.
Definition do_ret_unit : M DispatchResult := return_with unit_value.
End Return.

(** *** References to registers: the operations of [Frames.v] *)
Definition do_ref (op : FrameState → Reg → Reg → result FrameState) (dst src : Reg) : M DispatchResult :=
  continue_with (change (λ s, op s dst src)).

(** [TypeOf] names the kind of a value. *)
Definition type_tag (v : Value) : Z :=
  if is_float v then 3 else if is_int v then 2 else if is_bool v then 1
  else if is_unit v then 0 else if is_nil v then 0
  else if is_small_string v then 4 else if is_ptr v then 14 else 0.
Definition do_type_of (dst src : Reg) : M DispatchResult :=
  val ← reg_value src; continue_with (put_i64 dst (type_tag val)).

(** The case of [handle_switch]: [as_i64] of the selector as an unsigned index. *)
Definition do_switch (selector : Reg) (default_offset : i32) (case_offsets : list i32) : M DispatchResult :=
  v ← reg_value selector; i ← extract as_i64 v;
  let selector_val := as_u64 i in
  continue_with (jump_by (if selector_val <? Z.of_nat (length case_offsets)
                          then default 0 (case_offsets !! Z.to_nat selector_val) else default_offset)).

(** ** Handlers: the operands, then the effect *)
Section Machine.
Context (module : VbcModule) (to_string : VbcError → string) (cell_address : nat → Z).

Abbreviation read_reg := (read_reg module to_string).
Abbreviation read_u8 := (read_u8 module to_string).
Abbreviation read_i8 := (read_i8 module to_string).
Abbreviation read_signed_varint := (read_signed_varint module to_string).
Abbreviation read_f64 := (read_f64 module to_string).

(** [read_signed_varint(state)? as i32]. *)
Definition read_offset : M i32 := v ← read_signed_varint; mret (to_signed 32 v).

Definition handle_1 (effect : Reg → M DispatchResult) : M DispatchResult :=
  a ← read_reg; effect a.
Definition handle_2 (effect : Reg → Reg → M DispatchResult) : M DispatchResult :=
  a ← read_reg; b ← read_reg; effect a b.
Definition handle_3 (effect : Reg → Reg → Reg → M DispatchResult) : M DispatchResult :=
  a ← read_reg; b ← read_reg; c ← read_reg; effect a b c.

Definition handle_loadi : M DispatchResult :=
  dst ← read_reg; value ← read_signed_varint; do_loadi dst value.
Definition handle_loadf : M DispatchResult :=
  dst ← read_reg; value ← read_f64; do_loadf dst value.
Definition handle_load_smalli : M DispatchResult :=
  dst ← read_reg; value ← read_i8; do_loadi dst value.
Definition handle_cvt_fi : M DispatchResult :=
  mode ← read_u8; dst ← read_reg; src ← read_reg; do_cvt_fi mode dst src.
Definition handle_cmp_extended : M DispatchResult :=
  sub_op_byte ← read_u8; dst ← read_reg; a ← read_reg; b ← read_reg;
  do_cmp_extended dst sub_op_byte a b.
Definition handle_jump : M DispatchResult := offset ← read_offset; do_jump offset.
Definition handle_jump_if (taken : bool) : M DispatchResult :=
  cond ← read_reg; offset ← read_offset; do_jump_if taken cond offset.
Definition handle_jump_cmp (holds : comparison → bool) : M DispatchResult :=
  a ← read_reg; b ← read_reg; offset ← read_offset; do_jump_cmp holds a b offset.

Fixpoint read_offsets (count : nat) : M (list i32) :=
  match count with
  | O => mret []
  | S count => o ← read_offset; l ← read_offsets count; mret (o :: l)
  end.
Definition handle_switch : M DispatchResult :=
  selector ← read_reg; case_count ← read_u8; default_offset ← read_offset;
  case_offsets ← read_offsets (Z.to_nat case_count);
  do_switch selector default_offset case_offsets.

(** [handle_not_implemented]. *)
Definition handle_not_implemented : M DispatchResult := raise (NotImplemented "unknown opcode" None).

Definition other_handler (opcode_byte : Z) : M DispatchResult :=
  if is_some (DISPATCH_TABLE opcode_byte) || (opcode_byte =? 0x1F) || (opcode_byte =? 0xDE)
  then outside else handle_not_implemented.

Definition handler (opcode_byte : Z) : M DispatchResult :=
  match opcode_byte with
  | 0x00 => handle_2 do_mov
  | 0x02 => handle_loadi
  | 0x03 => handle_loadf
  | 0x04 => handle_1 (λ dst, do_load dst (from_bool true))
  | 0x05 => handle_1 (λ dst, do_load dst (from_bool false))
  | 0x06 => handle_1 (λ dst, do_load dst unit_value)
  | 0x08 => handle_load_smalli
  | 0x09 => handle_1 (λ dst, do_load dst nil)
  | 0x0A => mret Continue
  | 0x0B => handle_2 do_cvt_if
  | 0x0C => handle_cvt_fi
  | 0x0D => handle_2 do_cvt_ic
  | 0x0E => handle_2 do_cvt_ci
  | 0x0F => handle_2 do_cvt_bi
  | 0x10 => handle_3 do_addi
  | 0x11 => handle_3 do_subi
  | 0x12 => handle_3 do_muli
  | 0x13 => handle_3 do_divi
  | 0x14 => handle_3 do_modi
  | 0x15 => handle_2 do_negi
  | 0x16 => handle_2 do_absi
  | 0x17 => handle_3 do_powi
  | 0x18 => handle_2 do_inc
  | 0x19 => handle_2 do_dec
  | 0x1A => handle_2 do_cvt_toi
  | 0x1B => handle_3 do_udivi
  | 0x1C => handle_3 do_umodi
  | 0x28 => handle_2 do_cvt_tof
  | 0x30 => handle_3 do_band
  | 0x31 => handle_3 do_bor
  | 0x32 => handle_3 do_bxor
  | 0x33 => handle_3 (λ dst src _, do_bnot dst src)
  | 0x34 => handle_3 do_shl
  | 0x35 => handle_3 do_shr
  | 0x36 => handle_3 do_ushr
  | 0x42 => handle_3 do_lti
  | 0x43 => handle_3 do_lei
  | 0x44 => handle_3 do_gti
  | 0x45 => handle_3 do_gei
  | 0x4F => handle_cmp_extended
  | 0x50 => handle_jump
  | 0x51 => handle_jump_if true
  | 0x52 => handle_jump_if false
  | 0x55 => handle_jump_cmp is_lt
  | 0x56 => handle_jump_cmp is_le
  | 0x57 => handle_jump_cmp is_gt
  | 0x58 => handle_jump_cmp is_ge
  | 0x59 => handle_1 (do_ret cell_address)
  | 0x5A => do_ret_unit cell_address
  | 0x70 => handle_2 (do_ref handle_ref_create)
  | 0x71 => handle_2 (do_ref handle_ref_mut)
  | 0x75 => handle_2 (do_ref (λ s dst src, Ok (handle_ref_checked s dst src)))
  | 0x76 => handle_2 (do_ref (λ s dst src, Ok (handle_ref_unsafe s dst src)))
  | 0x85 => mret Continue
  | 0x8C => handle_2 do_type_of
  | 0x94 => handle_switch
  | 0x95 => handle_jump_if false
  | 0x96 => handle_3 (do_logic andb)
  | 0x97 => handle_3 (do_logic orb)
  | 0x98 => handle_3 (do_logic xorb)
  | 0x99 => handle_2 do_lnot
  | 0xBD => handle_arith_extended module to_string
  | opcode_byte => other_handler opcode_byte
  end.

(** ** A turn of the loop *)

Inductive progress := Next | Finished (value : Value).

(** After an instruction, and after the implicit return at the end of the code:
    the value of a nested loop is register 0 of the caller, or the unit value. *)
Definition after_dispatch (entry_depth : nat) (nested_value : FrameState → Value) (r : DispatchResult) :
    M progress := λ s,
  match r with
  | FinalReturn value => (Done (Finished value), s)
  | Continue =>
      if (0 <? entry_depth)%nat && (depth (call_stack s) <=? entry_depth)%nat
      then (Done (Finished (nested_value s)), s) else (Done Next, s)
  end.

(** The opcode of a [NotImplemented] without one is filled in. *)
Definition name_opcode {A} (opcode_byte : Z) (pc : nat) (v : verdict A) : verdict A :=
  match v with
  | Throw (Raised (NotImplemented _ None)) => Throw (Raised (InvalidOpcode opcode_byte pc))
  | v => v
  end.

Definition dispatch_step (entry_depth : nat) : M progress := λ s,
  match current_bytecode module s with
  | None => (Done (Finished unit_value), s)
  | Some code =>
      let at_pc := Z.to_nat (pc (call_stack s)) in
      match code !! at_pc with
      | None =>
          (r ← return_with cell_address unit_value; after_dispatch entry_depth (λ _, unit_value) r) s
      | Some opcode_byte =>
          let s := with_call_stack s (advance_pc (call_stack s) 1) in
          let '(result, s) := handler opcode_byte s in
          match name_opcode opcode_byte at_pc result with
          | Done r => after_dispatch entry_depth (λ s, get_reg s 0) r s
          | Throw e => (Throw e, s)
          | Outside => (Outside, s)
          end
      end
  end.

(** [dispatch_loop_table_with_entry_depth]; zero is no limit.  [None] when the
    fuel runs out, which a limit excludes. *)
Context (max_instructions : Z).

Fixpoint dispatch_loop (fuel : nat) (entry_depth : nat) (count : Z) (s : FrameState) :
    option (verdict Value * FrameState) :=
  match fuel with
  | O => None
  | S fuel =>
      let count := wrap 64 (count + 1) in
      if (max_instructions <? count) && (0 <? max_instructions)
      then Some (Throw (Raised (InstructionLimitExceeded count max_instructions)), s)
      else
        match dispatch_step entry_depth s with
        | (Done Next, s) => dispatch_loop fuel entry_depth count s
        | (Done (Finished value), s) => Some (Done value, s)
        | (Throw e, s) => Some (Throw e, s)
        | (Outside, s) => Some (Outside, s)
        end
  end.
End Machine.
