(* ===== verification/MachineSpec.v ===== *)
(** * Instruction-level semantics

    What a program means before it is bytes: the effect of a decoded instruction,
    and the machine that runs a list of instructions, whose program counter is an
    index and whose jumps count instructions from the jump itself, as the code
    generator emits them.  The source has no such machine; the theorems of
    [MachineFacts.v] show that the dispatch loop on the encoded program implements
    it. *)

From S2P Require Import Prelude Words Encoding TypeRefs NanBox NanBoxFacts Registers Frames Opcodes.
From S2P Require Import Instruction JumpFixup WidthArith Interp IntegerOps Machine.

Section Spec.
Context (cell_address : nat → Z).

Definition execute_compare (op : CompareOp.t) : option (comparison → bool) :=
  match op with
  | CompareOp.Lt => Some is_lt | CompareOp.Le => Some is_le
  | CompareOp.Gt => Some is_gt | CompareOp.Ge => Some is_ge
  | CompareOp.Eq | CompareOp.Ne => None
  end.

(** The program counter stands at the end of the instruction. *)
Definition execute_instruction (i : Instruction.t) : option (M DispatchResult) :=
  match i with
  | Instruction.Mov dst src => Some (do_mov dst src)
  | Instruction.LoadI dst value => Some (do_loadi dst value)
  | Instruction.LoadF dst value => Some (do_loadf dst value)
  | Instruction.LoadTrue dst => Some (do_load dst (from_bool true))
  | Instruction.LoadFalse dst => Some (do_load dst (from_bool false))
  | Instruction.LoadUnit dst => Some (do_load dst unit_value)
  | Instruction.LoadSmallI dst value => Some (do_loadi dst value)
  | Instruction.Nop => Some (mret Continue)
  | Instruction.CvtIF dst src => Some (do_cvt_if dst src)
  | Instruction.CvtFI mode dst src => Some (do_cvt_fi (FloatToIntMode.to_byte mode) dst src)
  | Instruction.CvtIC dst src => Some (do_cvt_ic dst src)
  | Instruction.CvtCI dst src => Some (do_cvt_ci dst src)
  | Instruction.CvtBI dst src => Some (do_cvt_bi dst src)
  | Instruction.CvtToI dst src => Some (do_cvt_toi dst src)
  | Instruction.CvtToF dst src => Some (do_cvt_tof dst src)
  | Instruction.BinaryI op dst a b => Some
      match op with
      | BinaryIntOp.Add => do_addi dst a b
      | BinaryIntOp.Sub => do_subi dst a b
      | BinaryIntOp.Mul => do_muli dst a b
      | BinaryIntOp.Div => do_divi dst a b
      | BinaryIntOp.Mod => do_modi dst a b
      | BinaryIntOp.Pow => do_powi dst a b
      | BinaryIntOp.UDiv => do_udivi dst a b
      | BinaryIntOp.UMod => do_umodi dst a b
      end
  | Instruction.UnaryI op dst src => Some
      match op with
      | UnaryIntOp.Neg => do_negi dst src
      | UnaryIntOp.Abs => do_absi dst src
      | UnaryIntOp.Inc => do_inc dst src
      | UnaryIntOp.Dec => do_dec dst src
      end
  | Instruction.Bitwise op dst a b => Some
      match op with
      | BitwiseOp.And => do_band dst a b
      | BitwiseOp.Or => do_bor dst a b
      | BitwiseOp.Xor => do_bxor dst a b
      | BitwiseOp.Not => do_bnot dst a
      | BitwiseOp.Shl => do_shl dst a b
      | BitwiseOp.Shr => do_shr dst a b
      | BitwiseOp.Ushr => do_ushr dst a b
      end
  | Instruction.Not dst src => Some (do_lnot dst src)
  | Instruction.CmpI op dst a b => (λ holds, do_ordering dst holds a b) <$> execute_compare op
  | Instruction.CmpU sub_op dst a b => Some (do_cmp_extended dst (CmpSubOpcode.to_byte sub_op) a b)
  | Instruction.Jmp offset => Some (do_jump offset)
  | Instruction.JmpIf cond offset => Some (do_jump_if true cond offset)
  | Instruction.JmpNot cond offset => Some (do_jump_if false cond offset)
  | Instruction.JmpCmp op a b offset => (λ holds, do_jump_cmp holds a b offset) <$> execute_compare op
  | Instruction.Ret value => Some (do_ret cell_address value)
  | Instruction.RetV => Some (do_ret_unit cell_address)
  | Instruction.Ref dst src => Some (do_ref handle_ref_create dst src)
  | Instruction.RefMut dst src => Some (do_ref handle_ref_mut dst src)
  | Instruction.RefChecked dst src => Some (do_ref (λ s dst src, Ok (handle_ref_checked s dst src)) dst src)
  | Instruction.RefUnsafe dst src => Some (do_ref (λ s dst src, Ok (handle_ref_unsafe s dst src)) dst src)
  | _ => None
  end.

Definition covered (i : Instruction.t) : bool := is_some (execute_instruction i).

(** ** The machine on instructions *)

(** The instruction with its offset counted from the next instruction, as
    [execute_instruction] takes it. *)
Definition from_next (i : Instruction.t) : Instruction.t :=
  match jump_offset i with Some offset => set_jump_offset (offset - 1) i | None => i end.

Definition index_step (program : list Instruction.t) (entry_depth : nat) : M progress := λ s,
  let idx := Z.to_nat (pc (call_stack s)) in
  match program !! idx with
  | None => (r ← return_with cell_address unit_value; after_dispatch entry_depth (λ _, unit_value) r) s
  | Some i =>
      match execute_instruction (from_next i) with
      | Some effect =>
          (_ ← set_state_pc (Z.of_nat (S idx)); r ← effect;
           after_dispatch entry_depth (λ s, get_reg s 0) r) s
      | None => (Outside, s)
      end
  end.

Fixpoint index_loop (program : list Instruction.t) (max_instructions : Z) (fuel : nat) (entry_depth : nat)
    (count : Z) (s : FrameState) : option (verdict Value * FrameState) :=
  match fuel with
  | O => None
  | S fuel =>
      let count := wrap 64 (count + 1) in
      if (max_instructions <? count) && (0 <? max_instructions)
      then Some (Throw (Raised (InstructionLimitExceeded count max_instructions)), s)
      else
        match index_step program entry_depth s with
        | (Done Next, s) => index_loop program max_instructions fuel entry_depth count s
        | (Done (Finished value), s) => Some (Done value, s)
        | (Throw e, s) => Some (Throw e, s)
        | (Outside, s) => Some (Outside, s)
        end
  end.
End Spec.

(** ** What integer instructions compute

    The integers that registers hold and the arithmetic of the integer
    instructions on them: a narrow integer is an [i64], a wide one has 128 bits
    and a sign.  A result is wide when an operand is, with the sign of the first
    wide operand, and is the mathematical result reduced to the width.
    [IntegerFacts.v] shows that the handlers of [IntegerOps.v] compute this. *)

Inductive integer := Narrow (i : i64) | Wide (raw : Z) (signed : bool).

#[export] Instance integer_eq_dec : EqDecision integer.
Proof. solve_decision. Defined.

Definition is_wide (x : integer) : bool := match x with Wide _ _ => true | _ => false end.
Definition signed_of (x : integer) : bool := match x with Wide _ s => s | _ => true end.

(** The number in two's complement, and without a sign. *)
Definition number (x : integer) : Z :=
  match x with Narrow i => i | Wide raw _ => to_signed 128 raw end.
Definition unsigned (w : Z) (x : integer) : Z := wrap w (number x).

Definition bits (x : integer) : Z := if is_wide x then 128 else 64.
Definition bits2 (x y : integer) : Z := if is_wide x || is_wide y then 128 else 64.
Definition sign2 (x y : integer) : bool := if is_wide x then signed_of x else signed_of y.

Definition fit (w : Z) (signed : bool) (z : Z) : integer :=
  if w =? 128 then Wide (wrap 128 z) signed else Narrow (to_signed 64 z).

Inductive answer := Number (x : integer) | Truth (b : bool) | ZeroDivisor.

Definition binary_answer (op : BinaryIntOp.t) (x y : integer) : answer :=
  let w := bits2 x y in
  let s := sign2 x y in
  match op with
  | BinaryIntOp.Add => Number (fit w s (number x + number y))
  | BinaryIntOp.Sub => Number (fit w s (number x - number y))
  | BinaryIntOp.Mul => Number (fit w s (number x * number y))
  | BinaryIntOp.Div =>
      if number y =? 0 then ZeroDivisor else Number (fit w s (Z.quot (number x) (number y)))
  | BinaryIntOp.Mod =>
      if number y =? 0 then ZeroDivisor else Number (fit w s (Z.rem (number x) (number y)))
  | BinaryIntOp.UDiv =>
      if number y =? 0 then ZeroDivisor
      else Number (fit w false (Z.quot (unsigned w x) (unsigned w y)))
  | BinaryIntOp.UMod =>
      if number y =? 0 then ZeroDivisor
      else Number (fit w false (Z.rem (unsigned w x) (unsigned w y)))
  | BinaryIntOp.Pow =>
      let exp := if is_wide x then number y else to_signed 64 (number y) in
      Number (fit (bits x) (signed_of x)
        (if (0 <=? exp) && (exp <=? 0xFFFFFFFF) then number x ^ exp else 0))
  end.

Definition unary_answer (op : UnaryIntOp.t) (x : integer) : answer :=
  Number (fit (bits x) (signed_of x)
    match op with
    | UnaryIntOp.Neg => - number x
    | UnaryIntOp.Abs => if signed_of x then Z.abs (number x) else number x
    | UnaryIntOp.Inc => number x + 1
    | UnaryIntOp.Dec => number x - 1
    end).

Definition bitwise_answer (op : BitwiseOp.t) (x y : integer) : answer :=
  let shift := number y mod bits x in
  Number
    match op with
    | BitwiseOp.And => fit (bits2 x y) (sign2 x y) (Z.land (number x) (number y))
    | BitwiseOp.Or => fit (bits2 x y) (sign2 x y) (Z.lor (number x) (number y))
    | BitwiseOp.Xor => fit (bits2 x y) (sign2 x y) (Z.lxor (number x) (number y))
    | BitwiseOp.Not => fit (bits x) (signed_of x) (Z.lnot (number x))
    | BitwiseOp.Shl => fit (bits x) (signed_of x) (number x * 2 ^ shift)
    | BitwiseOp.Shr => fit (bits x) (signed_of x) (number x `div` 2 ^ shift)
    | BitwiseOp.Ushr => fit (bits x) false (unsigned (bits x) x `div` 2 ^ shift)
    end.

Definition order (x y : integer) : comparison :=
  if sign2 x y then Z.compare (number x) (number y)
  else Z.compare (unsigned 128 x) (unsigned 128 y).

Definition order_unsigned (x y : integer) : comparison :=
  Z.compare (unsigned (bits2 x y) x) (unsigned (bits2 x y) y).

(** The operands of an integer instruction, and its answer on their values. *)
Definition integer_sources (i : Instruction.t) : list Reg :=
  match i with
  | Instruction.BinaryI _ _ a b | Instruction.CmpI _ _ a b | Instruction.CmpU _ _ a b => [a; b]
  | Instruction.UnaryI _ _ src => [src]
  | Instruction.Bitwise BitwiseOp.Not _ a _ => [a]
  | Instruction.Bitwise _ _ a b => [a; b]
  | _ => []
  end.

Definition integer_answer (i : Instruction.t) (val : Reg → integer) : option (Reg * answer) :=
  match i with
  | Instruction.BinaryI op dst a b => Some (dst, binary_answer op (val a) (val b))
  | Instruction.UnaryI op dst src => Some (dst, unary_answer op (val src))
  | Instruction.Bitwise op dst a b => Some (dst, bitwise_answer op (val a) (val b))
  | Instruction.CmpI op dst a b =>
      holds ← execute_compare op; Some (dst, Truth (holds (order (val a) (val b))))
  | Instruction.CmpU op dst a b =>
      holds ← unsigned_holds (CmpSubOpcode.to_byte op);
      Some (dst, Truth (holds (order_unsigned (val a) (val b))))
  | _ => None
  end.

(** ** The integer of a register word *)
Definition integer_of (t : Tables) (v : Value) : option integer :=
  if is_boxed_i128 v then
    '(raw, signed) ← BOXED_I128S t !! index_of v BOXED_INT_INDEX_MASK; Some (Wide raw signed)
  else if is_boxed_int v then Narrow <$> BOXED_INTS t !! index_of v BOXED_INT_INDEX_MASK
  else if is_inline_int v then Some (Narrow (sign_extend_48 v))
  else None.

(** The tables hold integers of their types. *)
Definition tables_ok (t : Tables) : Prop :=
  Forall (is_i 64) (BOXED_INTS t) ∧ Forall (λ p, is_u 128 p.1) (BOXED_I128S t).

Definition holds (t : Tables) (a : answer) (v : Value) : Prop :=
  match a with
  | Number x => integer_of t v = Some x
  | Truth b => v = from_bool b
  | ZeroDivisor => False
  end.

(** From [s] to [s'] the register [dst] alone has changed, to the answer [a]. *)
Record answered (dst : Reg) (a : answer) (s s' : FrameState) : Prop := {
  answered_value : holds (tables s') a (get_reg s' dst);
  answered_others : ∀ r, slot (state_base s) r ≠ slot (state_base s) dst → get_reg s' r = get_reg s r;
  answered_stack : call_stack s' = call_stack s;
  answered_tables : tables_extend (tables s) (tables s') ∧ tables_ok (tables s');
}.
