(* ===== verification/MachineFacts.v ===== *)
(** * The dispatch loop: facts

    A turn of the loop executes the instruction that the decoder finds at the
    program counter; the loop on an encoded program implements the machine on
    instructions; the instruction limit ends every run. *)

From stdpp Require Import gmap.
From S2P Require Import Prelude Words Encoding EncodingFacts TypeRefs TypeRefFacts NanBox Registers FrameInvariant Frames.
From S2P Require Import Opcodes InstructionOk Instruction InstructionEncode InstructionDecode InstructionFacts InstructionTotal.
From S2P Require Import InstructionRoundtrip JumpFixup JumpFixupFacts Validate Interp IntegerOps Machine MachineSpec.

(** ** Moving the program counter *)

Definition at_pc (p : Z) (s : FrameState) : FrameState := with_call_stack s (set_pc (call_stack s) p).

Lemma set_state_pc_spec p s : set_state_pc p s = (Done tt, at_pc p s).
Proof. done. Qed.

Section window.
Context (module : VbcModule) (code : bytes).
Context (Hcode : Z.of_nat (length code) < 2 ^ 32).

(** The current function has this code and the frame is not inside an envelope. *)
Definition runs_code (s : FrameState) : Prop :=
  current_bytecode module s = Some code ∧
  ∃ frame, current (call_stack s) = Some frame ∧ Z.of_nat (length code) ≤ operand_end frame.

Definition at_offset (offset : nat) (s : FrameState) : Prop :=
  runs_code s ∧ pc (call_stack s) = Z.of_nat offset.

Lemma current_update f cs : current (update_current f cs) = f <$> current cs.
Proof.
  unfold update_current. destruct (current cs) as [x|] eqn:E; [|by rewrite E].
  unfold current. cbn. by rewrite last_snoc.
Qed.

Lemma current_at_pc p s : current (call_stack (at_pc p s)) = frame_with_pc p <$> current (call_stack s).
Proof. unfold at_pc, set_pc. cbn. apply current_update. Qed.

Lemma at_pc_offset p s : runs_code s → at_offset p (at_pc (Z.of_nat p) s).
Proof.
  intros [Hb (frame & Hc & He)]. split; [split|].
  - unfold current_bytecode in *. rewrite current_at_pc. rewrite Hc in *. exact Hb.
  - rewrite current_at_pc, Hc. by eexists.
  - unfold pc. by rewrite current_at_pc, Hc.
Qed.

Lemma update_current_twice f g cs : update_current f (update_current g cs) = update_current (λ x, f (g x)) cs.
Proof.
  unfold update_current at 1. rewrite current_update. destruct (current cs) as [x|] eqn:E; cbn [fmap option_fmap option_map].
  - unfold update_current. rewrite E. unfold with_frames; cbn. by rewrite removelast_last.
  - unfold update_current. by rewrite E.
Qed.

Lemma at_pc_twice p q s : at_pc p (at_pc q s) = at_pc p s.
Proof. unfold at_pc, set_pc, with_call_stack. cbn. f_equal. by rewrite update_current_twice. Qed.

Lemma update_current_id f cs x : current cs = Some x → f x = x → update_current f cs = cs.
Proof.
  intros E Hf. unfold update_current. rewrite E, Hf. unfold with_frames, current in *.
  destruct cs as [l m w]; cbn in *. f_equal. destruct l as [|y l] using rev_ind; [done|].
  rewrite last_snoc in E. injection E as ->. by rewrite removelast_last.
Qed.

Lemma at_pc_same s p : pc (call_stack s) = p → at_pc p s = s.
Proof.
  intros <-. unfold at_pc, set_pc, pc, with_call_stack. destruct s as [rf cs]; cbn. f_equal.
  destruct (current cs) as [x|] eqn:E; cbn.
  - apply (update_current_id _ _ x); [done|]. by destruct x.
  - unfold update_current. by rewrite E.
Qed.

(** ** A handler reads what the decoder reads *)

Definition runs {A B} (m : M A) (d : decoder B) (k : B → M A) : Prop :=
  ∀ offset b next s, at_offset offset s → (offset ≤ length code)%nat → d offset = (Ok b, next) →
    m s = k b (at_pc (Z.of_nat next) s).

Definition bounded {A} (d : decoder A) : Prop := total_from code True 0 0 d.

Context (to_string : VbcError → string).

Lemma read_operand_runs {A} (decode : bytes → decoder A) offset a next s :
  bounded (decode code) → at_offset offset s → (offset ≤ length code)%nat →
  decode code offset = (Ok a, next) →
  read_operand module to_string decode s = (Done a, at_pc (Z.of_nat next) s) ∧ (next ≤ length code)%nat.
Proof.
  intros Hb [[Hcur (frame & Hf & He)] Hpc] Ho Hd.
  pose proof (Hb offset ltac:(lia)) as Ht. unfold total_at in Ht. rewrite Hd in Ht.
  split; [|lia]. unfold read_operand, operand_bytecode. rewrite Hcur, Hf. cbn [mbind option_bind].
  rewrite Hpc, Nat2Z.id, take_ge by lia. rewrite Hd. unfold mbind, M_bind. rewrite set_state_pc_spec.
  rewrite wrap_id by (unfold is_u; lia). done.
Qed.

Lemma runs_ret {A B} (b : B) (k : B → M A) (m : M A) : (∀ s, m s = k b s) → runs m (mret b) k.
Proof.
  intros Hm offset b' next s Ha Ho [= <- <-]. rewrite (at_pc_same s); [apply Hm|apply Ha].
Qed.

Lemma runs_step {A B C} (decode : bytes → decoder C) (f : C → M A) (g : C → decoder B) k :
  bounded (decode code) → (∀ c, runs (f c) (g c) k) →
  runs (read_operand module to_string decode ≫= f) (decode code ≫= g) k.
Proof.
  intros Hb Hf offset b next s Ha Ho Hd. unfold mbind at 1, decoder_bind in Hd.
  destruct (decode code offset) as [[c| |] o] eqn:E; [|by simplify_eq..].
  destruct (read_operand_runs decode offset c o s Hb Ha Ho E) as [Hr Hn].
  unfold mbind, M_bind. rewrite Hr. rewrite (Hf c o b next); [|apply at_pc_offset, Ha|done|done].
  by rewrite at_pc_twice.
Qed.

(** A decoder that casts what it reads. *)
Lemma runs_cast {A B C D} (decode : bytes → decoder C) (h : C → D) (f : D → M A) (g : D → decoder B) k :
  bounded (decode code) → (∀ d, runs (f d) (g d) k) →
  runs ((c ← read_operand module to_string decode; mret (h c)) ≫= f) ((h <$> decode code) ≫= g) k.
Proof.
  intros Hb Hf offset b next s Ha Ho Hd.
  apply (runs_step decode (λ c, f (h c)) (λ c, g (h c)) k Hb (λ c, Hf (h c)) offset b next s) in Ha; [|done|].
  - rewrite <- Ha. unfold mbind, M_bind. by destruct (read_operand _ _ _ _) as [[] ?].
  - rewrite <- Hd. unfold fmap, decoder_fmap, mbind, decoder_bind. by destruct (decode code offset) as [[] ?].
Qed.

Lemma runs_fail {A B} (m : M A) e (k : B → M A) : runs m (fail e) k.
Proof. intros offset b next s _ _ [=]. Qed.

Lemma runs_ok_or {A B C} (m : M A) (x : option C) e (g : C → decoder B) k :
  (∀ c, x = Some c → runs m (g c) k) → runs m (ok_or x e ≫= g) k.
Proof.
  intros H offset b next s Ha Ho Hd. unfold mbind, decoder_bind, ok_or in Hd. destruct x as [c|]; [|by simplify_eq].
  by apply (H c eq_refl offset b next s) in Hd.
Qed.

Lemma bounded_reg : bounded (decode_reg code).
Proof. apply total_any, total_reg. Qed.
Lemma bounded_u8 : bounded (decode_u8 code).
Proof. apply total_byte. Qed.
Lemma bounded_signed : bounded (decode_signed_varint code).
Proof. apply total_any, total_signed. Qed.
Lemma bounded_f64 : bounded (decode_f64 code).
Proof. unfold decode_f64. apply total_map, total_fixed. Qed.
End window.

Create HintDb bounded.
#[export] Hint Resolve bounded_reg bounded_u8 bounded_signed bounded_f64 : bounded.

(** The opcodes whose instruction the model executes; the logical [And], [Or] and
    [Xor] decode as bitwise operations and are not among them. *)
Definition runnable (opcode : Opcode.t) : bool :=
  match opcode with
  | Opcode.Mov | Opcode.LoadI | Opcode.LoadF | Opcode.LoadTrue | Opcode.LoadFalse | Opcode.LoadUnit
  | Opcode.LoadSmallI | Opcode.Nop | Opcode.CvtIF | Opcode.CvtFI | Opcode.CvtIC | Opcode.CvtCI
  | Opcode.CvtBI | Opcode.CvtToI | Opcode.CvtToF | Opcode.AddI | Opcode.SubI | Opcode.MulI
  | Opcode.DivI | Opcode.ModI | Opcode.PowI | Opcode.UDivI | Opcode.UModI | Opcode.NegI | Opcode.AbsI
  | Opcode.Inc | Opcode.Dec | Opcode.Band | Opcode.Bor | Opcode.Bxor | Opcode.Bnot | Opcode.Shl
  | Opcode.Shr | Opcode.Ushr | Opcode.Not | Opcode.LtI | Opcode.LeI | Opcode.GtI | Opcode.GeI
  | Opcode.CmpExtended | Opcode.Jmp | Opcode.JmpIf | Opcode.JmpNot | Opcode.JmpLt | Opcode.JmpLe
  | Opcode.JmpGt | Opcode.JmpGe | Opcode.Ret | Opcode.RetV | Opcode.Ref | Opcode.RefMut
  | Opcode.RefChecked | Opcode.RefUnsafe => true
  | _ => false
  end.

Lemma float_to_int_mode b :
  float_to_int (FloatToIntMode.to_byte (default FloatToIntMode.Trunc (FloatToIntMode.from_byte b))) = float_to_int b.
Proof.
  unfold float_to_int, FloatToIntMode.from_byte.
  destruct (decide (b = 1)) as [->|]; [done|]. destruct (decide (b = 2)) as [->|]; [done|].
  destruct (decide (b = 3)) as [->|]; [done|].
  replace (b =? 1) with false by lia. replace (b =? 2) with false by lia. replace (b =? 3) with false by lia.
  by repeat case_match.
Qed.

Lemma sub_op_byte b op : CmpSubOpcode.from_byte b = Some op → CmpSubOpcode.to_byte op = b.
Proof. unfold CmpSubOpcode.from_byte. intros H. repeat case_match; simplify_eq; done. Qed.

(** What [execute_instruction] gives, on instructions of the model. *)
Definition effect_of (cell_address : nat → Z) (i : Instruction.t) : M DispatchResult :=
  default outside (execute_instruction cell_address i).

Ltac runs_arm :=
  cbv beta zeta;
  lazymatch goal with
  | |- runs _ _ _ (fail _) _ => apply runs_fail
  | |- runs _ _ _ (mret _) _ => apply runs_ret; intros; reflexivity
  | |- runs _ _ _ (ok_or _ _ ≫= _) _ => apply runs_ok_or; intros; runs_arm
  | |- runs _ _ _ ((_ <$> _) ≫= _) _ => apply runs_cast; [assumption|auto with bounded|intros; runs_arm]
  | |- runs _ _ _ (_ ≫= _) _ => apply runs_step; [assumption|auto with bounded|intros; runs_arm]
  end.

Section handlers.
Context (module : VbcModule) (code : bytes) (to_string : VbcError → string) (cell_address : nat → Z).
Context (with_capacity : Z → bool) (Hcode : Z.of_nat (length code) < 2 ^ 32).

Lemma handler_runs opcode :
  runnable opcode = true →
  runs module code (handler module to_string cell_address (Opcode.to_byte opcode))
    (decode_opcode code with_capacity opcode) (effect_of cell_address).
Proof using Hcode.
  intros Hr. destruct opcode; try discriminate Hr; clear Hr; unfold_decoder; cbn [Opcode.to_byte handler];
    unfold handle_1, handle_2, handle_3, handle_loadi, handle_loadf, handle_load_smalli, handle_cvt_fi,
      handle_cmp_extended, handle_jump, handle_jump_if, handle_jump_cmp, read_offset,
      Interp.read_reg, Interp.read_u8, Interp.read_i8, Interp.read_signed_varint, Interp.read_f64.
  all: try runs_arm.
  - do 3 (apply runs_step; [assumption|auto with bounded|intros]). apply runs_ret. intros s.
    unfold effect_of. cbn [execute_instruction default from_option]. unfold do_cvt_fi. by rewrite float_to_int_mode.
  - apply runs_step; [assumption|auto with bounded|]. intros b. apply runs_ok_or. intros op Hop.
    apply sub_op_byte in Hop as <-. runs_arm.
Qed.
End handlers.

(** ** Effects that leave the calls alone *)

(** An effect that neither moves the program counter nor calls or returns: it does
    not depend on the program counter, and no error of its own is renamed. *)
Definition plain {A} (m : M A) : Prop := ∀ s,
  let '(r, s') := m s in
  call_stack s' = call_stack s ∧
  (∀ f, r ≠ Throw (Raised (NotImplemented f None))) ∧
  ∀ p, m (at_pc p s) = (r, at_pc p s').

Lemma plain_ret {A} (a : A) : plain (mret a).
Proof. intros s. cbn. done. Qed.

Lemma plain_raise {A} e : (∀ f, e ≠ NotImplemented f None) → plain (raise (A:=A) e).
Proof. intros He s. cbn. split_and!; [done| |done]. intros f [=]. by eapply He. Qed.

Lemma plain_panics {A} e : (∀ e', e ≠ Raised e') → plain (panics (A:=A) e).
Proof. intros He s. cbn. split_and!; [done| |done]. intros f [=]. by eapply He. Qed.

Lemma plain_outside {A} : plain (outside (A:=A)).
Proof. intros s. cbn. done. Qed.

Lemma plain_bind {A B} (m : M A) (k : A → M B) : plain m → (∀ a, plain (k a)) → plain (m ≫= k).
Proof.
  intros Hm Hk s. specialize (Hm s). unfold mbind, M_bind. destruct (m s) as [r s1].
  destruct Hm as (Hc & Hn & Hp). destruct r as [a|e|].
  - specialize (Hk a s1). destruct (k a s1) as [r s2]. destruct Hk as (Hc2 & Hn2 & Hp2).
    split_and!; [by rewrite Hc2| |]; [done|]. intros p. by rewrite Hp, Hp2.
  - split_and!; [done| |]; [intros f [= ->]; by eapply Hn|]. intros p. by rewrite Hp.
  - split_and!; [done..|]. intros p. by rewrite Hp.
Qed.

Lemma plain_reads {A} (f : FrameState → verdict A) :
  (∀ p s, f (at_pc p s) = f s) → (∀ s g, f s ≠ Throw (Raised (NotImplemented g None))) → plain (reads f).
Proof. intros Hf Hn s. cbn. split_and!; [done..|]. intros p. unfold reads. by rewrite Hf. Qed.

Lemma plain_gets {A} (f : FrameState → A) : (∀ p s, f (at_pc p s) = f s) → plain (gets f).
Proof. intros Hf s. cbn. split_and!; [done..|]. intros p. unfold gets. by rewrite Hf. Qed.

Lemma plain_modify f :
  (∀ s, call_stack (f s) = call_stack s) → (∀ p s, f (at_pc p s) = at_pc p (f s)) → plain (modify f).
Proof. intros Hc Hp s. cbn. split_and!; [by rewrite Hc|done|]. intros p. unfold modify. by rewrite Hp. Qed.

Lemma plain_if {A} (b : bool) (m m' : M A) : plain m → plain m' → plain (if b then m else m').
Proof. by destruct b. Qed.

Lemma state_base_at_pc p s : state_base (at_pc p s) = state_base s.
Proof.
  unfold state_base, current_base. rewrite current_at_pc. by destruct (current (call_stack s)).
Qed.

Lemma plain_put dst v : plain (put dst v).
Proof. apply plain_modify; [done|]. intros p s. unfold set_reg. by rewrite state_base_at_pc. Qed.

Lemma plain_put_boxed dst box : plain (put_boxed dst box).
Proof.
  apply plain_modify; intros; cbn; [by destruct (box _)|]. destruct (box _) as [t v].
  unfold set_reg. f_equal. unfold with_tables, with_cells. unfold state_base, current_base.
  fold (at_pc p s). cbn [call_stack]. by rewrite current_at_pc; destruct (current (call_stack s)).
Qed.

Lemma plain_resolve v : plain (resolve_arg_value v).
Proof.
  apply plain_reads; intros; [done|]. cbv beta. destruct (Frames.is_cbgr_ref v).
  - unfold get_absolute, Prelude.ok_or. by case_match.
  - unfold reference_value_slot. destruct (_ && _); [done|]. destruct (is_thin_ref v); [|done].
    destruct (try_as_thin_ref _ _); [|done]. by destruct (_ && _).
Qed.

Lemma plain_reg_value r : plain (reg_value r).
Proof. apply plain_gets. intros p s. unfold get_reg. by rewrite state_base_at_pc. Qed.

Lemma plain_extract {A} (f : Tables → Value → A) v : plain (extract f v).
Proof. by apply plain_gets. Qed.

Lemma plain_tables : plain (gets tables).
Proof. by apply plain_gets. Qed.

Lemma plain_operand r : plain (arith_operand r).
Proof. apply plain_bind; [apply plain_reg_value|]. intros v. apply plain_resolve. Qed.

Create HintDb plain.
#[export] Hint Resolve plain_ret plain_outside plain_put plain_put_boxed plain_reg_value plain_extract
  plain_tables plain_operand : plain.

Ltac plain :=
  cbv beta zeta;
  lazymatch goal with
  | |- plain (if _ then _ else _) => apply plain_if; plain
  | |- plain (raise _) => apply plain_raise; done
  | |- plain (panics _) => apply plain_panics; done
  | |- plain (match unsigned_holds ?b with _ => _ end) => destruct (unsigned_holds b); plain
  | |- plain (continue_with _) => unfold continue_with; plain
  | |- plain (finish_i64 _ _) => unfold finish_i64, put_i64; plain
  | |- plain (finish_i128 _ _ _) => unfold finish_i128, put_i128; plain
  | |- plain (put_i64 _ _) => apply plain_put_boxed
  | |- plain (put_bool _ _) => apply plain_put
  | |- plain (_ ≫= _) => apply plain_bind; [plain|intros; plain]
  | |- _ => auto with plain
  end.

Lemma plain_change op :
  (∀ s, match op s with
        | Ok s' => call_stack s' = call_stack s
        | Err e => ∀ e', e ≠ Raised e'
        | Gas _ => True
        end) →
  (∀ p s, op (at_pc p s) = match op s with Ok s' => Ok (at_pc p s') | r => r end) →
  plain (change op).
Proof.
  intros Hc Hp s. specialize (Hc s). unfold change. destruct (op s) as [s'|e|k] eqn:E.
  - split_and!; [done..|]. intros p. by rewrite Hp, E.
  - split_and!; [done| |].
    + intros f [=]. by eapply Hc.
    + intros p. by rewrite Hp, E.
  - split_and!; [done..|]. intros p. by rewrite Hp, E.
Qed.

Lemma get_reg_at_pc p s r : get_reg (at_pc p s) r = get_reg s r.
Proof. unfold get_reg. by rewrite state_base_at_pc. Qed.

Lemma abs_index_at_pc p s r : abs_index (at_pc p s) r = abs_index s r.
Proof. unfold abs_index. by rewrite state_base_at_pc. Qed.

(** [set_reg] of a state that differs from one below the program counter only. *)
Lemma set_reg_at_pc p s r v : set_reg (at_pc p s) r v = at_pc p (set_reg s r v).
Proof. unfold set_reg. by rewrite state_base_at_pc. Qed.

Lemma with_pointers_at_pc p s a b c : with_pointers (at_pc p s) a b c = at_pc p (with_pointers s a b c).
Proof. done. Qed.

Lemma get_generation_fault rf a e : get_generation rf a = Err e → e = IndexPanic.
Proof. unfold get_generation, Prelude.ok_or. by case_match; intros [= <-]. Qed.

Lemma plain_ref_create dst src : plain (change (λ s, handle_ref_create s dst src)).
Proof.
  apply plain_change.
  - intros s. unfold handle_ref_create. destruct (taken_source s src); [done|]. cbn [mbind outcome_bind].
    destruct (get_generation _ _) as [g|e|k] eqn:E; [done| |done]. by apply get_generation_fault in E as ->.
  - intros p s. unfold handle_ref_create. change (taken_source (at_pc p s) src) with (taken_source s src).
    destruct (taken_source s src); cbv zeta; [by rewrite <- set_reg_at_pc|].
    rewrite with_pointers_at_pc, abs_index_at_pc. change (register_file (at_pc p ?s)) with (register_file s).
    destruct (get_generation _ _) as [g|e|k]; cbn [mbind outcome_bind]; [|done..]. by rewrite set_reg_at_pc.
Qed.

Lemma plain_ref_mut dst src : plain (change (λ s, handle_ref_mut s dst src)).
Proof.
  apply plain_change.
  - intros s. unfold handle_ref_mut. destruct (taken_source s src); [done|]. cbv zeta.
    destruct (_ && _); [done|]. cbn [mbind outcome_bind].
    destruct (get_generation _ _) as [g|e|k] eqn:E; [done| |done]. by apply get_generation_fault in E as ->.
  - intros p s. unfold handle_ref_mut. change (taken_source (at_pc p s) src) with (taken_source s src).
    destruct (taken_source s src); cbv zeta; [by rewrite !with_pointers_at_pc, set_reg_at_pc|].
    rewrite with_pointers_at_pc, abs_index_at_pc, get_reg_at_pc.
    change (register_file (at_pc p ?s)) with (register_file s).
    destruct (_ && _); [by rewrite set_reg_at_pc|].
    destruct (get_generation _ _) as [g|e|k]; cbn [mbind outcome_bind]; [|done..]. by rewrite set_reg_at_pc.
Qed.

Lemma plain_ref_checked dst src : plain (change (λ s, Ok (handle_ref_checked s dst src))).
Proof.
  apply plain_change; [done|]. intros p s. f_equal. unfold handle_ref_checked.
  by rewrite abs_index_at_pc, set_reg_at_pc.
Qed.

Definition is_return (i : Instruction.t) : bool :=
  match i with Instruction.Ret _ | Instruction.RetV => true | _ => false end.

(** An effect that lets the loop go on. *)
Definition continues (m : M DispatchResult) : Prop := ∀ s r s', m s = (Done r, s') → r = Continue.

Lemma continues_bind {A} (m : M A) k : (∀ a, continues (k a)) → continues (m ≫= k).
Proof.
  intros Hk s r s' H. unfold mbind, M_bind in H. destruct (m s) as [[a|e|] s1]; [by eapply Hk|done..].
Qed.

Ltac continues :=
  cbv beta zeta;
  lazymatch goal with
  | |- continues (continue_with _) => unfold continue_with; continues
  | |- continues (finish_i64 _ _) => unfold finish_i64; continues
  | |- continues (finish_i128 _ _ _) => unfold finish_i128; continues
  | |- continues (_ ≫= _) => apply continues_bind; intros; continues
  | |- continues (if ?b then _ else _) => destruct b; continues
  | |- continues (match unsigned_holds ?b with _ => _ end) => destruct (unsigned_holds b); continues
  | |- _ => intros ? ? ? [=]; congruence
  end.

Ltac unfold_effects :=
  unfold do_mov, do_loadi, do_loadf, do_load, do_cvt_if, do_cvt_fi, do_cvt_ic, do_cvt_ci, do_cvt_bi,
    do_cvt_toi, do_cvt_tof, do_lnot, do_addi, do_subi, do_muli, do_divi, do_modi, do_signed_division,
    do_udivi, do_umodi, do_unsigned_division, do_powi, do_negi, do_absi, do_inc, do_dec, do_step,
    do_band, do_bor, do_bxor, do_bits, do_bnot, do_shl, do_shr, do_ushr, do_ordering, do_cmp_extended, do_ref.

(** Every effect but the jumps and the returns is plain and lets the loop go on. *)
Lemma plain_effect cell_address i m :
  execute_instruction cell_address i = Some m → jump_offset i = None →
  is_return i = false → plain m ∧ continues m.
Proof.
  intros Hm Hj Hr. destruct i; try discriminate Hm; try discriminate Hj; try discriminate Hr.
  all: cbn [execute_instruction] in Hm; try (destruct (execute_compare _); [|discriminate Hm]);
    injection Hm as <-; try match goal with |- plain (match ?op with _ => _ end) ∧ _ => destruct op end.
  all: unfold_effects; (split; [|continues]).
  all: try plain.
  - apply plain_ref_create.
  - apply plain_ref_mut.
  - apply plain_ref_checked.
  - apply plain_ref_checked.
Qed.

(** A jump decides and moves. *)
Lemma jump_effect cell_address i off :
  jump_offset i = Some off → covered cell_address i = true →
  ∃ c : M bool, plain c ∧ ∀ v s,
    effect_of cell_address (set_jump_offset v i) s = (b ← c; continue_with (when b (jump_by v))) s.
Proof.
  intros Hj Hc. destruct i; try discriminate Hj; try discriminate Hc.
  - exists (mret true). split; [plain|done].
  - exists (v ← reg_value cond; truthy ← extract is_truthy v; mret (Bool.eqb truthy true)). split; [plain|done].
  - exists (v ← reg_value cond; truthy ← extract is_truthy v; mret (Bool.eqb truthy false)). split; [plain|done].
  - cbn [covered execute_instruction] in Hc. unfold covered in Hc. cbn [execute_instruction] in Hc.
    destruct (execute_compare op) as [holds|] eqn:E; [|discriminate Hc].
    exists (va ← reg_value a; vb ← reg_value b; x ← extract as_i64 va; y ← extract as_i64 vb;
      mret (holds (Z.compare x y))). split; [plain|].
    intros v s. unfold effect_of. cbn [set_jump_offset execute_instruction]. by rewrite E.
Qed.

(** ** Returns *)

Lemma current_set_pc cs p : current (set_pc cs p) = frame_with_pc p <$> current cs.
Proof. unfold set_pc. apply current_update. Qed.

Lemma pop_frame_at_pc cs p f cs' : pop_frame cs = Ok (f, cs') → pop_frame (set_pc cs p) = Ok (frame_with_pc p f, cs').
Proof.
  unfold pop_frame. rewrite current_set_pc. destruct (current cs) as [x|] eqn:E; [|done].
  cbn [fmap option_fmap option_map]. intros [= -> <-]. unfold set_pc, update_current. rewrite E.
  unfold with_frames; cbn. by rewrite removelast_last.
Qed.

Lemma stabilise_at_pc cell s p v :
  stabilise cell (at_pc p s) v =
  match stabilise cell s v with Ok (s', v') => Ok (at_pc p s', v') | Err e => Err e | Gas k => Gas k end.
Proof.
  unfold stabilise. destruct (Frames.is_cbgr_ref v); [|done]. destruct (decode_cbgr_ref v) as [a g].
  rewrite state_base_at_pc. change (register_file (at_pc p s)) with (register_file s).
  destruct (_ && _); [|done]. destruct (get_absolute _ _); cbn [mbind outcome_bind]; [|done..].
  change (tables (at_pc p s)) with (tables s). change (cbgr_epoch (at_pc p s)) with (cbgr_epoch s).
  change (escape_cells (at_pc p s)) with (escape_cells s). by destruct (from_thin_ref _ _).
Qed.

Lemma stabilise_frames cell s v s' v' : stabilise cell s v = Ok (s', v') → call_stack s' = call_stack s.
Proof.
  unfold stabilise. destruct (Frames.is_cbgr_ref v); [|by intros [= <- <-]]. destruct (decode_cbgr_ref v) as [a g].
  destruct (_ && _); [|by intros [= <- <-]]. destruct (get_absolute _ _); cbn [mbind outcome_bind]; [|done..].
  destruct (from_thin_ref _ _). by intros [= <- <-].
Qed.

Lemma return_at_pc cell s p v :
  is_Some (current (call_stack s)) →
  return_with cell v (at_pc p s) =
  match return_with cell v s with
  | (Done r, s') => (Done r, s')
  | (r, s') => (r, at_pc p s')
  end.
Proof.
  intros [x Hx]. unfold return_with, do_return. rewrite stabilise_at_pc.
  destruct (stabilise cell s v) as [[s1 v1]|e|k] eqn:E; cbn [mbind outcome_bind]; [|done..].
  apply stabilise_frames in E. rewrite <- E in Hx.
  assert (∃ cs', pop_frame (call_stack s1) = Ok (x, cs')) as [cs' Hpop].
  { unfold pop_frame. rewrite Hx. by eexists. }
  change (call_stack (at_pc p s1)) with (set_pc (call_stack s1) p).
  rewrite (pop_frame_at_pc _ _ _ _ Hpop), Hpop. cbn [reg_base frame_with_pc].
  change (register_file (at_pc p s1)) with (register_file s1).
  destruct (pop_registers _ _) as [rf| |]; [|done..]. by destruct (depth cs' =? 0)%nat.
Qed.

(** A return leaves one frame less, or ends the run with the last one. *)
Lemma return_leaves cell s v r s' :
  is_Some (current (call_stack s)) → return_with cell v s = (r, s') →
  match r with
  | Done Continue => (1 < depth (call_stack s))%nat ∧ depth (call_stack s') = (depth (call_stack s) - 1)%nat
  | Done (FinalReturn _) => depth (call_stack s) = 1%nat
  | Throw e => ∀ f, e ≠ Raised (NotImplemented f None)
  | Outside => True
  end.
Proof.
  intros [x Hx]. unfold return_with, do_return.
  destruct (stabilise cell s v) as [[s1 v1]|e|k] eqn:E; cbn [mbind outcome_bind].
  - apply stabilise_frames in E. rewrite <- E in Hx |- *. unfold pop_frame. rewrite Hx.
    assert (Hl : length (removelast (frames (call_stack s1))) = (depth (call_stack s1) - 1)%nat).
    { unfold depth, current in *. destruct (frames (call_stack s1)) as [|y l] using rev_ind; [done|].
      rewrite removelast_last, length_app. cbn. lia. }
    assert (0 < depth (call_stack s1))%nat.
    { unfold depth, current in *. destruct (frames (call_stack s1)); [done|]. cbn. lia. }
    cbn [mbind outcome_bind]. destruct (pop_registers _ _) as [rf|e|k] eqn:Ep.
    + unfold depth at 1. cbn [frames]. rewrite Hl. destruct (Nat.eqb_spec (depth (call_stack s1) - 1) 0).
      * intros [= <- <-]. lia.
      * intros [= <- <-]. split; [lia|]. rewrite <- Hl. unfold set_pc, update_current. cbn.
        case_match; [|done]. unfold depth. cbn. rewrite length_app.
        destruct (removelast (frames (call_stack s1))) as [|y l] using rev_ind; [done|].
        rewrite removelast_last, length_app. done.
    + unfold pop_registers in Ep. case_match; simplify_eq. intros [= <- <-]. done.
    + unfold pop_registers in Ep. by case_match.
  - unfold stabilise in E. destruct (Frames.is_cbgr_ref v); [|done]. destruct (decode_cbgr_ref v) as [a g].
    destruct (_ && _); [|done]. unfold get_absolute in E.
    destruct (Registers.registers (register_file s) !! Z.to_nat a); cbn in E; [by destruct (from_thin_ref _ _)|].
    simplify_eq. intros [= <- <-]. done.
  - by intros [= <- <-].
Qed.

Lemma return_effect cell i :
  is_return i = true → ∃ value, ∀ s, effect_of cell i s = return_with cell (value s) s ∧ ∀ p, value (at_pc p s) = value s.
Proof.
  intros H. destruct i; try discriminate H.
  - exists (λ s, get_reg s value). intros s. split; [done|]. intros p. apply get_reg_at_pc.
  - by exists (λ _, unit_value).
Qed.
