(* ===== verification/MachineProgram.v ===== *)
(** * Running encoded programs

    The dispatch loop against the decoder and against the machine on
    instructions of [MachineSpec.v]. *)

From stdpp Require Import gmap.
From S2P Require Import Prelude Words Encoding EncodingFacts TypeRefs TypeRefFacts NanBox Registers FrameInvariant Frames.
From S2P Require Import Opcodes InstructionOk Instruction InstructionEncode InstructionDecode InstructionFacts InstructionTotal.
From S2P Require Import InstructionRoundtrip JumpFixup JumpFixupFacts Validate.
From S2P Require Import Interp IntegerOps Machine MachineSpec MachineFacts.

(** ** One turn *)

(** No effect fails with an error that the loop renames. *)
Lemma effect_named cell i s f :
  is_Some (current (call_stack s)) → (effect_of cell i s).1 ≠ Throw (Raised (NotImplemented f None)).
Proof.
  intros Hs. unfold effect_of. destruct (execute_instruction cell i) as [m|] eqn:E; [|done]. cbn.
  destruct (jump_offset i) as [off|] eqn:Hj.
  - destruct (jump_effect cell i off Hj) as (c & Hc & He); [unfold covered; by rewrite E|].
    specialize (He off s). rewrite set_jump_offset_same in He by done. unfold effect_of in He.
    rewrite E in He. cbn in He. rewrite He. specialize (Hc s). unfold mbind, M_bind. destruct (c s) as [r s'].
    destruct Hc as (_ & Hn & _). destruct r as [b|e|]; [by destruct b| |done]. intros [=->]. by apply (Hn f).
  - destruct (is_return i) eqn:Hr.
    + destruct (return_effect cell i Hr) as (value & Hv). destruct (Hv s) as [He _].
      unfold effect_of in He. rewrite E in He. cbn in He. rewrite He.
      destruct (return_with cell (value s) s) as [r s'] eqn:R. apply return_leaves in R; [|done].
      cbn. intros ->. by apply (R f).
    + pose proof (proj1 (plain_effect cell i m E Hj Hr) s) as Hp. destruct (m s) as [r s'].
      destruct Hp as (_ & Hn & _). by apply Hn.
Qed.

Lemma advance_at_pc module code offset s :
  at_offset module code offset s → Z.of_nat offset + 1 < 2 ^ 32 →
  with_call_stack s (advance_pc (call_stack s) 1) = at_pc (Z.of_nat (S offset)) s.
Proof.
  intros [[_ (frame & Hf & _)] Hpc] Ho. unfold at_pc. f_equal. unfold advance_pc, set_pc, update_current.
  unfold pc in Hpc. rewrite Hf in *. cbn in Hpc. rewrite Hpc, wrap_id by (unfold is_u; lia).
  do 4 f_equal. lia.
Qed.

(** A turn of the loop executes the instruction that the decoder reads at the program
    counter, from its end on: for the opcodes of the model, in any function whose
    code is below four gigabytes. *)
Theorem dispatch_decoded (module : VbcModule) (to_string : VbcError → string) (cell_address : nat → Z)
    (with_capacity : Z → bool) (entry_depth : nat) (code : bytes) (s : FrameState) (offset next : nat)
    (opcode : Opcode.t) (i : Instruction.t) :
  Z.of_nat (length code) < 2 ^ 32 → at_offset module code offset s →
  code !! offset = Some (Opcode.to_byte opcode) → runnable opcode = true →
  decode_instruction code with_capacity offset = (Ok i, next) →
  dispatch_step module to_string cell_address entry_depth s =
    (r ← effect_of cell_address i; after_dispatch entry_depth (λ s, get_reg s 0) r)
      (at_pc (Z.of_nat next) s).
Proof.
  intros Hcode Ha Hb Hr Hd. pose proof (lookup_lt_Some _ _ _ Hb) as Hlt.
  unfold decode_instruction, decode_u8, mbind, decoder_bind in Hd. rewrite Hb in Hd.
  destruct (Opcode.reclaimed _); [discriminate Hd|]. rewrite Opcode_from_to in Hd.
  unfold dispatch_step. destruct Ha as [Hrun Hpc]. rewrite (proj1 Hrun), Hpc, Nat2Z.id, Hb.
  rewrite (advance_at_pc module code offset) by (done || lia).
  pose proof (handler_runs module code to_string cell_address with_capacity Hcode opcode Hr
    (S offset) i next (at_pc (Z.of_nat (S offset)) s)) as H.
  rewrite at_pc_twice in H. rewrite H; [|by apply at_pc_offset|lia|done].
  unfold mbind, M_bind.
  pose proof (effect_named cell_address i (at_pc (Z.of_nat next) s)) as Hn.
  destruct (effect_of cell_address i (at_pc (Z.of_nat next) s)) as [r s'].
  destruct Hrun as [_ (frame & Hf & _)]. cbn [fst] in Hn.
  destruct r as [r|e|]; [done| |done]. destruct e as [[]| | | |]; try done. cbn [name_opcode].
  destruct opcode0; [done|]. exfalso. eapply Hn; [rewrite current_at_pc, Hf; by eexists|reflexivity].
Qed.

(** ** Programs *)

(** The first byte that a writer leaves. *)
Definition starts (b : Z) (e : writer) : Prop := ∃ rest, e [] = b :: rest.

Lemma starts_op op : starts (Opcode.to_byte op) (push_op op).
Proof. by exists []. Qed.

Lemma starts_then b e e' : starts b e → appends e' → starts b (e |> e').
Proof. intros [rest E] H. exists (rest ++ e' []). unfold then_write. by rewrite E, H. Qed.

Ltac starts :=
  lazymatch goal with
  | |- starts _ (push_op _) => apply starts_op
  | |- starts _ (_ |> _) => apply starts_then; [starts|appends]
  end.

(** The first byte of an instruction of the model. *)
Lemma covered_opcode cell i :
  covered cell i = true → ∃ opcode, starts (Opcode.to_byte opcode) (encode_arm i) ∧ runnable opcode = true.
Proof.
  intros Hc. destruct i; try discriminate Hc;
    try (unfold covered in Hc; cbn [execute_instruction] in Hc);
    try match goal with
    | op : CompareOp.t |- _ => destruct op; try discriminate Hc
    | op : BinaryIntOp.t |- _ => destruct op
    | op : UnaryIntOp.t |- _ => destruct op
    | op : BitwiseOp.t |- _ => destruct op
    end; eexists; (split; [unfold_encoder; cbv beta zeta; starts|reflexivity]).
Qed.

(** The simulation at one turn: what the machine on instructions does in [x],
    the loop does in [y]; a finished run leaves the same state. *)
Definition matches (related : FrameState → FrameState → Prop) (x y : verdict progress * FrameState) : Prop :=
  match x with
  | (Done Next, s) => ∃ s', y = (Done Next, s') ∧ related s' s
  | (Done (Finished v), s) => y = (Done (Finished v), s)
  | (r, _) => y.1 = r
  end.

Lemma return_matches related cell entry_depth nested v s p :
  is_Some (current (call_stack s)) → depth (call_stack s) = S entry_depth →
  matches related ((r ← return_with cell v; after_dispatch entry_depth nested r) s)
    ((r ← return_with cell v; after_dispatch entry_depth nested r) (at_pc p s)).
Proof.
  intros Hs Hd. unfold mbind, M_bind. rewrite return_at_pc by done.
  destruct (return_with cell v s) as [r s'] eqn:R. apply return_leaves in R; [|done].
  destruct r as [[|w]|e|]; [|done..]. unfold after_dispatch. destruct R as [H1 H2].
  rewrite (proj2 (Nat.ltb_lt _ _)), (proj2 (Nat.leb_le _ _)) by lia. done.
Qed.

Lemma depth_at_pc p s : depth (call_stack (at_pc p s)) = depth (call_stack s).
Proof.
  unfold at_pc, set_pc, update_current. cbn. case_match eqn:E; [|done]. unfold depth, current in *. cbn.
  destruct (frames (call_stack s)) as [|y l] using rev_ind; [done|]. rewrite removelast_last, !length_app. done.
Qed.

Lemma pc_at_pc p s : is_Some (current (call_stack s)) → pc (call_stack (at_pc p s)) = p.
Proof. intros [x Hx]. unfold pc. by rewrite current_at_pc, Hx. Qed.

Lemma goes_on entry_depth nested s :
  depth (call_stack s) = S entry_depth → after_dispatch entry_depth nested Continue s = (Done Next, s).
Proof.
  intros Hd. unfold after_dispatch. rewrite Hd, (proj2 (Nat.leb_gt _ _)) by lia. by rewrite andb_false_r.
Qed.

Lemma bind_at {A B} (m : M A) (k : A → M B) s r s' :
  m s = (r, s') →
  (m ≫= k) s = match r with Done a => k a s' | Throw e => (Throw e, s') | Outside => (Outside, s') end.
Proof. intros E. unfold mbind, M_bind. rewrite E. by destruct r. Qed.

(** A jump decides on the registers; only its landing depends on the counter. *)
Lemma jump_effect_at cell i off s :
  jump_offset i = Some off → covered cell i = true → is_Some (current (call_stack s)) →
  ∃ (r : verdict bool) s1, call_stack s1 = call_stack s ∧ ∀ v p,
    effect_of cell (set_jump_offset v i) (at_pc p s) =
    match r with
    | Done b => (Done Continue, at_pc (if b then wrap 32 (p + v) else p) s1)
    | Throw e => (Throw e, at_pc p s1)
    | Outside => (Outside, at_pc p s1)
    end.
Proof.
  intros Hj Hc Hs. destruct (jump_effect cell i off Hj Hc) as (c & Hp & He). specialize (Hp s).
  destruct (c s) as [r s1]. destruct Hp as (Hcs & _ & Hp). exists r, s1. split; [done|]. intros v p.
  rewrite He, (bind_at _ _ _ _ _ (Hp p)). destruct r as [b|e|]; [|done..].
  unfold continue_with, when, jump_by. destruct b; [|done].
  unfold mbind, M_bind, gets. rewrite set_state_pc_spec, pc_at_pc, at_pc_twice by (by rewrite Hcs). done.
Qed.

Section program.
Context (module : VbcModule) (to_string : VbcError → string) (cell_address : nat → Z).
Context (l : list Instruction.t) (Hok : forallb instruction_ok l = true).
Context (Hcovered : forallb (covered cell_address) l = true) (Hin : targets_inside l).
Context (Hn : Z.of_nat (length l) < 2 ^ 31) (Hsettled : settled l = true).
Let l' := fixup_jump_offsets l.
Let code := program_bytes l'.
Context (Hbytes : Z.of_nat (length code) < 2 ^ 31).

Definition related (s_bytes s : FrameState) : Prop :=
  ∃ idx, (idx ≤ length l)%nat ∧ pc (call_stack s) = Z.of_nat idx ∧ runs_code module code s ∧
    s_bytes = at_pc (Z.of_nat (position l' idx)) s.

Lemma program_code_length k : (position l' k ≤ length code)%nat.
Proof.
  destruct (decide (k ≤ length l')%nat).
  - unfold code. rewrite <- (position_all l' (length l')) by lia. by apply position_le.
  - by rewrite position_all by lia.
Qed.

Lemma related_at idx s q :
  (idx ≤ length l)%nat → runs_code module code s → q = at_pc (Z.of_nat (position l' idx)) s →
  related q (at_pc (Z.of_nat idx) s).
Proof using Hbytes.
  intros Hi Hr ->. exists idx. destruct (at_pc_offset module code idx s Hr) as [Hr' Hp].
  split_and!; [done..|]. by rewrite at_pc_twice.
Qed.

(** The encoded instruction at an index. *)
Lemma program_decodes idx i :
  l' !! idx = Some i →
  decode_instruction code (λ _, true) (position l' idx) = (Ok i, position l' (S idx)) ∧
  (covered cell_address i = true → ∃ opcode, code !! position l' idx = Some (Opcode.to_byte opcode) ∧
    runnable opcode = true).
Proof using Hok.
  intros E. split.
  - apply decode_at; [done| |done]. apply (forallb_elem _ l'); [by apply fixup_ok|].
    by apply list_elem_of_lookup_2 in E.
  - intros Hc. destruct (covered_opcode _ _ Hc) as (opcode & [rest Er] & Hr). exists opcode. split; [|done].
    assert (P : code = program_bytes (take idx l') ++ instruction_bytes i ++ program_bytes (drop (S idx) l')).
    { unfold code. rewrite <- (take_drop_middle _ _ _ E) at 1. by rewrite program_bytes_app. }
    rewrite P, lookup_app_r by done. unfold position. rewrite Nat.sub_diag. unfold instruction_bytes at 1.
    by rewrite Er.
Qed.

Lemma covered_set v i : covered cell_address i = true → covered cell_address (set_jump_offset v i) = true.
Proof. unfold covered. destruct i; try done; cbn; by destruct (execute_compare op). Qed.

Lemma runs_code_frames s s' : call_stack s' = call_stack s → runs_code module code s → runs_code module code s'.
Proof. unfold runs_code, current_bytecode. by intros ->. Qed.

(** A jump: the two counters end at the same instruction. *)
Lemma jump_matches entry_depth idx i off v s :
  l !! idx = Some i → jump_offset i = Some off → covered cell_address i = true →
  l' !! idx = Some (set_jump_offset v i) →
  runs_code module code s → depth (call_stack s) = S entry_depth →
  matches (λ s_bytes s, related s_bytes s ∧ depth (call_stack s) = S entry_depth)
    ((r ← effect_of cell_address (set_jump_offset (off - 1) i);
      after_dispatch entry_depth (λ s, get_reg s 0) r) (at_pc (Z.of_nat (S idx)) s))
    ((r ← effect_of cell_address (set_jump_offset v i);
      after_dispatch entry_depth (λ s, get_reg s 0) r) (at_pc (Z.of_nat (position l' (S idx))) s)).
Proof using Hok Hin Hn Hsettled Hbytes.
  intros Hi Hj Hc Hi' Hrun Hd. pose proof (Hin idx i off Hi Hj) as Ht.
  pose proof (settled_distance l Hin (ok_in_range l Hok) Hn Hbytes Hsettled idx i off Hi Hj) as E. fold l' in E.
  assert (Hv : set_jump_offset v i = set_jump_offset (distance l' idx (Z.to_nat (Z.of_nat idx + off))) i) by congruence.
  rewrite Hv. set (t := Z.to_nat (Z.of_nat idx + off)) in *.
  destruct (proj2 Hrun) as (frame & Hf & _). assert (Hs : is_Some (current (call_stack s))) by by eexists.
  destruct (jump_effect_at cell_address i off s Hj Hc Hs) as (r & s1 & Hcs & He).
  destruct r as [b|e|]; rewrite !(bind_at _ _ _ _ _ (He _ _)); [|done..].
  pose proof (runs_code_frames _ _ Hcs Hrun) as Hrun1. rewrite <- Hcs in Hd.
  rewrite !goes_on by (by rewrite depth_at_pc). pose proof (lookup_lt_Some _ _ _ Hi).
  pose proof (program_code_length t). pose proof (program_code_length (S idx)).
  eexists. split; [done|]. rewrite depth_at_pc. split; [|done]. destruct b.
  - unfold distance. rewrite !wrap_id by (unfold is_u; lia).
    replace (Z.of_nat (S idx) + (off - 1)) with (Z.of_nat t) by lia.
    apply related_at; [lia|done|]. f_equal. lia.
  - apply related_at; [lia|done|done].
Qed.

Lemma step_matches entry_depth s_bytes s :
  related s_bytes s → depth (call_stack s) = S entry_depth →
  matches (λ s_bytes s, related s_bytes s ∧ depth (call_stack s) = S entry_depth)
    (index_step cell_address l entry_depth s)
    (dispatch_step module to_string cell_address entry_depth s_bytes).
Proof using Hok Hcovered Hin Hn Hsettled Hbytes.
  intros (idx & Hidx & Hpc & Hrun & ->) Hd.
  pose proof Hrun as [Hcode (frame & Hf & Hend)].
  assert (Hs : is_Some (current (call_stack s))) by by eexists.
  assert (Hl : length l' = length l) by (apply fixup_length, ok_in_range, Hok).
  unfold index_step. rewrite Hpc, Nat2Z.id. destruct (l !! idx) as [i|] eqn:Hi.
  - destruct (fixup_lookup l (ok_in_range l Hok) idx i Hi) as (v & _ & Ei'). fold l' in Ei'.
    destruct (program_decodes idx _ Ei') as [Hdec Hop].
    assert (Hci : covered cell_address i = true)
      by (apply (forallb_elem _ l); [done|by apply list_elem_of_lookup_2 in Hi]).
    destruct (Hop (covered_set v i Hci)) as (opcode & Hb & Hr).
    rewrite (dispatch_decoded module to_string cell_address (λ _, true) entry_depth code _ _ _ opcode _
      ltac:(lia) (at_pc_offset module code (position l' idx) s Hrun) Hb Hr Hdec). rewrite at_pc_twice.
    set (i' := set_jump_offset v i) in *.
    assert (El : match execute_instruction cell_address (from_next i) with
                 | Some effect =>
                     (_ ← set_state_pc (Z.of_nat (S idx)); r ← effect;
                      after_dispatch entry_depth (λ s, get_reg s 0) r) s
                 | None => (Outside, s)
                 end = (r ← effect_of cell_address (from_next i);
                        after_dispatch entry_depth (λ s, get_reg s 0) r) (at_pc (Z.of_nat (S idx)) s)).
    { assert (Hc : covered cell_address (from_next i) = true)
        by (unfold from_next; destruct (jump_offset i); [by apply covered_set|done]).
      unfold covered in Hc. unfold effect_of. by destruct (execute_instruction _ _). }
    rewrite El. clear El. pose proof (lookup_lt_Some _ _ _ Hi) as Hlt. unfold from_next.
    destruct (jump_offset i) as [off|] eqn:Hj; [|destruct (is_return i) eqn:Hret].
    + by apply (jump_matches entry_depth idx i off).
    + unfold i'. rewrite set_jump_offset_other by done.
      destruct (return_effect cell_address i Hret) as (value & Hv).
      set (s0 := at_pc (Z.of_nat (S idx)) s). rewrite <- (at_pc_twice _ (Z.of_nat (S idx)) s). fold s0.
      unfold mbind, M_bind. rewrite (proj1 (Hv s0)), (proj1 (Hv (at_pc _ s0))), (proj2 (Hv s0)).
      apply (return_matches _ cell_address entry_depth (λ s, get_reg s 0)); unfold s0; [|by rewrite depth_at_pc].
      rewrite current_at_pc, Hf. by eexists.
    + unfold i'. rewrite set_jump_offset_other by done. unfold covered in Hci. unfold effect_of.
      destruct (execute_instruction cell_address i) as [m|] eqn:E; [|done]. cbn [default from_option id].
      destruct (plain_effect cell_address i m E Hj Hret) as [Hp Hcont]. specialize (Hp s).
      destruct (m s) as [r s1] eqn:Em. destruct Hp as (Hcs & _ & Hp).
      rewrite !(bind_at _ _ _ _ _ (Hp _)). destruct r as [r|e|]; [|done..].
      apply Hcont in Em as ->. rewrite <- Hcs in Hd. rewrite !goes_on by (by rewrite depth_at_pc).
      eexists. split; [done|]. rewrite depth_at_pc. split; [|done].
      apply related_at; [lia|by apply (runs_code_frames s)|done].
  - apply lookup_ge_None in Hi. unfold dispatch_step.
    pose proof (at_pc_offset module code (position l' idx) s Hrun) as [[Hc _] Hp]. rewrite Hc, Hp, Nat2Z.id.
    rewrite position_all, (lookup_ge_None_2 code) by (done || lia).
    by apply return_matches.
Qed.

Lemma loop_matches max_instructions fuel entry_depth count s_bytes s :
  related s_bytes s → depth (call_stack s) = S entry_depth →
  let run := dispatch_loop module to_string cell_address max_instructions fuel entry_depth count s_bytes in
  match index_loop cell_address l max_instructions fuel entry_depth count s with
  | None => run = None
  | Some (Done value, s') => run = Some (Done value, s')
  | Some (failed, _) => fst <$> run = Some failed
  end.
Proof using Hok Hcovered Hin Hn Hsettled Hbytes.
  revert count s_bytes s. induction fuel as [|fuel IH]; intros count s_bytes s R Hd; [done|].
  cbn [index_loop dispatch_loop]. destruct (_ && _); [done|].
  pose proof (step_matches entry_depth s_bytes s R Hd) as H.
  destruct (index_step cell_address l entry_depth s) as [[[|v]|e|] s'].
  - destruct H as (s'' & -> & R' & Hd'). by apply IH.
  - by rewrite H.
  - cbn in H. destruct (dispatch_step _ _ _ _ _) as [r s'']. cbn in H. by subst.
  - cbn in H. destruct (dispatch_step _ _ _ _ _) as [r s'']. cbn in H. by subst.
Qed.
End program.

(** C10. A program of the model's instructions means the same as bytes and as a list: from
    the start of a function whose code is the encoded program, the dispatch loop of
    that call (nested at its depth) runs out of fuel, fails, leaves the model or
    returns exactly when the machine on instructions does, with the same error, and
    after a return in the same state with the same value. *)
Theorem program_runs (module : VbcModule) (to_string : VbcError → string) (cell_address : nat → Z)
    (l : list Instruction.t) (max_instructions count : Z) (fuel entry_depth : nat) (s : FrameState) :
  let code := (encode_instructions_with_fixup l []).1 in
  forallb instruction_ok l = true → forallb (covered cell_address) l = true → targets_inside l →
  Z.of_nat (length l) < 2 ^ 31 → settled l = true → Z.of_nat (length code) < 2 ^ 31 →
  at_offset module code 0 s → depth (call_stack s) = S entry_depth →
  let run := dispatch_loop module to_string cell_address max_instructions fuel entry_depth count s in
  match index_loop cell_address l max_instructions fuel entry_depth count s with
  | None => run = None
  | Some (Done value, s') => run = Some (Done value, s')
  | Some (failed, _) => fst <$> run = Some failed
  end.
Proof.
  unfold encode_instructions_with_fixup. rewrite encode_program_bytes. cbn [fst app].
  intros Hok Hc Hin Hn Hs Hb [Hrun Hpc] Hd. apply loop_matches; [done..| |done].
  exists 0%nat. split_and!; [lia|done|done|]. symmetry. by apply at_pc_same.
Qed.

(** The instruction limit bounds the model's loop: from a count up to the limit it
    has an outcome, the same for every fuel that exceeds what is left of the
    limit.  Leaving the model ([Outside]) is one of the outcomes. *)
Theorem loop_terminates (module : VbcModule) (to_string : VbcError → string) (cell_address : nat → Z)
    (max_instructions count : Z) (entry_depth : nat) (s : FrameState) :
  0 < max_instructions < 2 ^ 64 - 1 → 0 ≤ count ≤ max_instructions →
  ∃ r s', ∀ fuel, max_instructions - count < Z.of_nat fuel →
    dispatch_loop module to_string cell_address max_instructions fuel entry_depth count s = Some (r, s').
Proof.
  intros Hm. remember (Z.to_nat (max_instructions - count)) as n eqn:En. revert count s En.
  induction n as [|n IH]; intros count s En Hc.
  - eexists _, _. intros [|fuel] Hf; [lia|]. cbn [dispatch_loop].
    rewrite wrap_id by (unfold is_u; lia). by replace ((max_instructions <? count + 1) && (0 <? max_instructions)) with true by lia.
  - destruct (dispatch_step module to_string cell_address entry_depth s) as [r s'] eqn:E.
    assert (Hw : wrap 64 (count + 1) = count + 1) by (apply wrap_id; unfold is_u; lia).
    assert (Hl : (max_instructions <? count + 1) && (0 <? max_instructions) = false) by lia.
    destruct r as [[|v]|e|].
    + destruct (IH (count + 1) s' ltac:(lia) ltac:(lia)) as (r & s'' & H). exists r, s''.
      intros [|fuel] Hf; [lia|]. cbn [dispatch_loop]. rewrite Hw, Hl, E. apply H. lia.
    + eexists _, _. intros [|fuel] Hf; [lia|]. cbn [dispatch_loop]. by rewrite Hw, Hl, E.
    + eexists _, _. intros [|fuel] Hf; [lia|]. cbn [dispatch_loop]. by rewrite Hw, Hl, E.
    + eexists _, _. intros [|fuel] Hf; [lia|]. cbn [dispatch_loop]. by rewrite Hw, Hl, E.
Qed.

(** ** Examples *)

(** The sum of the numbers from ten down to one. *)
Definition sample_sum : list Instruction.t :=
  [Instruction.LoadI 0 10; Instruction.LoadI 200 0; Instruction.LoadSmallI 2 0;
   Instruction.BinaryI BinaryIntOp.Add 200 200 0; Instruction.UnaryI UnaryIntOp.Dec 0 0;
   Instruction.JmpCmp CompareOp.Gt 0 2 (-2); Instruction.Ret 200].

Definition sample_module : VbcModule :=
  let code := (encode_instructions_with_fixup sample_sum []).1 in
  {| type_ids := [];
     functions := [{| func_id := 0; bytecode_offset := 0; bytecode_length := Z.of_nat (length code);
                      register_count := 201; param_count := 0 |}];
     constants := []; string_ids := []; strings_size := 0; bytecode := code |}.

(** The state in which the function has just been entered from nowhere. *)
Definition sample_state : FrameState :=
  match enter_function (initial_state (with_capacity 256) 8) 0 201 0 {| start := 0; count := 0 |} with
  | Ok s => s
  | _ => initial_state (with_capacity 256) 8
  end.

Lemma sample_at_offset : at_offset sample_module (encode_instructions_with_fixup sample_sum []).1 0 sample_state.
Proof. split; [split|]; [by vm_compute| |by vm_compute]. eexists. split; [by vm_compute|]. by vm_compute. Qed.

Lemma dispatch_decoded_witness :
  dispatch_step sample_module (λ _, EmptyString) Z.of_nat 0 sample_state =
  (r ← effect_of Z.of_nat (Instruction.LoadI 0 10); after_dispatch 0 (λ s, get_reg s 0) r) (at_pc 3 sample_state).
Proof.
  apply (dispatch_decoded sample_module (λ _, EmptyString) Z.of_nat (λ _, true) 0
    (encode_instructions_with_fixup sample_sum []).1 sample_state 0 3 Opcode.LoadI); [by vm_compute| |by vm_compute..].
  exact sample_at_offset.
Defined.

Lemma program_runs_witness :
  fst <$> dispatch_loop sample_module (λ _, EmptyString) Z.of_nat 1000 50 0 0 sample_state =
  Some (Done (from_i64 empty_tables 55).2).
Proof.
  pose proof (program_runs sample_module (λ _, EmptyString) Z.of_nat sample_sum 1000 0 50 0 sample_state
    ltac:(by vm_compute) ltac:(by vm_compute) ltac:(by apply targets_inside_list; vm_compute)
    ltac:(by vm_compute) ltac:(by vm_compute) ltac:(by vm_compute) sample_at_offset ltac:(by vm_compute)) as H.
  assert (E : fst <$> index_loop Z.of_nat sample_sum 1000 50 0 0 sample_state =
    Some (Done (from_i64 empty_tables 55).2)) by by vm_compute.
  destruct (index_loop _ _ _ _ _ _ _) as [[[v|e|] s']|]; cbn in E; try discriminate E.
  injection E as ->. cbv zeta in H. by rewrite H.
Defined.

Lemma loop_terminates_witness :
  ∃ r s', ∀ fuel, 1000 < Z.of_nat fuel →
    dispatch_loop sample_module (λ _, EmptyString) Z.of_nat 1000 fuel 0 0 sample_state = Some (r, s').
Proof.
  destruct (loop_terminates sample_module (λ _, EmptyString) Z.of_nat 1000 0 0 sample_state
    ltac:(lia) ltac:(lia)) as (r & s' & H).
  exists r, s'. intros fuel Hf. apply H. lia.
Defined.
