(* ===== verification/IntegerFacts.v ===== *)
(** * Integer instructions: facts

    The handlers of the integer instructions compute the arithmetic of
    [MachineSpec.v] and change their destination only. *)

From Stdlib Require Import Zpow_facts.
From S2P Require Import Prelude Words Encoding TypeRefs NanBox NanBoxFacts Registers Frames.
From S2P Require Import Opcodes Instruction WidthArith WidthArithFacts Interp IntegerOps Machine MachineSpec MachineFacts.

(** ** Reduction *)

Lemma to_signed_wrap_eq w z z' : wrap w z = wrap w z' → to_signed w z = to_signed w z'.
Proof. unfold to_signed. by intros ->. Qed.

Section reduce.
Context (w : Z) (Hw : 0 < w).

Lemma wrap_signed z : wrap w (to_signed w z) = wrap w z.
Proof using Hw.
  unfold to_signed. case_match; unfold wrap.
  - by rewrite Zmod_mod.
  - replace (z mod 2 ^ w - 2 ^ w) with (z mod 2 ^ w + (-1) * 2 ^ w) by lia.
    by rewrite Z.mod_add, Zmod_mod by lia.
Qed.

Lemma wrap_wrap z : wrap w (wrap w z) = wrap w z.
Proof. apply Zmod_mod. Qed.
Lemma wrap_add a b : wrap w (wrap w a + wrap w b) = wrap w (a + b).
Proof. symmetry. apply Zplus_mod. Qed.
Lemma wrap_sub a b : wrap w (wrap w a - wrap w b) = wrap w (a - b).
Proof. symmetry. apply Zminus_mod. Qed.
Lemma wrap_mul a b : wrap w (wrap w a * wrap w b) = wrap w (a * b).
Proof. symmetry. apply Zmult_mod. Qed.
Lemma wrap_add_r a b : wrap w (wrap w a + b) = wrap w (a + b).
Proof. apply Zplus_mod_idemp_l. Qed.
Lemma wrap_mul_r a b : wrap w (a * wrap w b) = wrap w (a * b).
Proof. apply Zmult_mod_idemp_r. Qed.
Lemma wrap_mul_l a b : wrap w (wrap w a * b) = wrap w (a * b).
Proof. apply Zmult_mod_idemp_l. Qed.

Lemma testbit_wrap z i : 0 ≤ i → Z.testbit (wrap w z) i = (i <? w) && Z.testbit z i.
Proof using Hw.
  intros Hi. unfold wrap. destruct (Z.ltb_spec i w).
  - by rewrite Z.mod_pow2_bits_low by lia.
  - by rewrite Z.mod_pow2_bits_high by lia.
Qed.

Lemma wrap_bitwise (f : Z → Z → Z) (g : bool → bool → bool) a b :
  (∀ a b i, Z.testbit (f a b) i = g (Z.testbit a i) (Z.testbit b i)) → g false false = false →
  f (wrap w a) (wrap w b) = wrap w (f a b).
Proof using Hw.
  intros Hf Hg. apply Z.bits_inj'. intros i Hi. rewrite Hf, !testbit_wrap, Hf by done.
  by destruct (i <? w).
Qed.

Lemma wrap_shiftl z s : 0 ≤ s → wrap w (Z.shiftl (wrap w z) s) = wrap w (z * 2 ^ s).
Proof. intros. rewrite Z.shiftl_mul_pow2 by done. apply wrap_mul_l. Qed.

Lemma wrapping_pow_pos_spec b e : wrapping_pow_pos w b e = wrap w (b ^ Zpos e).
Proof.
  induction e as [e IH|e IH|]; cbn [wrapping_pow_pos].
  - rewrite IH, wrap_mul, wrap_mul_r. f_equal.
    change (Zpos e~1) with (2 * Zpos e + 1). rewrite Z.pow_add_r, Z.pow_twice_r, Z.pow_1_r by lia. ring.
  - rewrite IH, wrap_mul. f_equal. change (Zpos e~0) with (2 * Zpos e). by rewrite Z.pow_twice_r.
  - by rewrite Z.pow_1_r.
Qed.

Lemma wrapping_pow_spec b e : 0 ≤ e → wrapping_pow w b e = wrap w (b ^ e).
Proof. intros He. destruct e; [done|apply wrapping_pow_pos_spec|lia]. Qed.

Lemma wrap_pow b e : 0 ≤ e → wrap w (wrap w b ^ e) = wrap w (b ^ e).
Proof. intros He. unfold wrap. symmetry. by apply Zpower_mod; lia. Qed.

(** A signed range by bits. *)
Lemma is_i_shift z : is_i w z ↔ Z.shiftr z (w - 1) = 0 ∨ Z.shiftr z (w - 1) = -1.
Proof using Hw.
  unfold is_i. rewrite shiftr_div by lia. pose proof (Z.div_mod z (2 ^ (w - 1)) ltac:(lia)).
  pose proof (Z.mod_pos_bound z (2 ^ (w - 1)) ltac:(lia)). split.
  - intros. nia.
  - intros [E|E]; rewrite E in *; lia.
Qed.

Lemma is_i_bitwise (f : Z → Z → Z) (g : bool → bool → bool) a b :
  (∀ a b i, Z.testbit (f a b) i = g (Z.testbit a i) (Z.testbit b i)) →
  is_i w a → is_i w b → is_i w (f a b).
Proof using Hw.
  intros Hf. rewrite !is_i_shift. intros Ha Hb.
  assert (E : Z.shiftr (f a b) (w - 1) = f (Z.shiftr a (w - 1)) (Z.shiftr b (w - 1))).
  { apply Z.bits_inj'. intros i Hi. by rewrite Hf, !Z.shiftr_spec, Hf by done. }
  rewrite E.
  assert (B : ∀ (x y : Z), (x = 0 ∨ x = -1) → (y = 0 ∨ y = -1) → f x y = 0 ∨ f x y = -1).
  { intros x y Hx Hy. destruct (g (Z.testbit x 0) (Z.testbit y 0)) eqn:G; [right|left];
      apply Z.bits_inj'; intros i Hi; rewrite Hf, ?Z.bits_m1, ?Z.bits_0 by done;
      destruct Hx as [-> | ->], Hy as [-> | ->]; rewrite ?Z.bits_0, ?Z.bits_m1 in * by done; done. }
  by apply B.
Qed.
End reduce.

(** ** The integer of a word *)

(** What the handlers ask of an operand. *)
Record views (s : FrameState) (v : Value) (x : integer) : Prop := {
  view_float : is_float v = false;
  view_string : is_small_string v = false;
  view_object : is_object v = false;
  view_reference : Frames.is_cbgr_ref v = false;
  view_slot : reference_value_slot s v = Done false;
  view_wide : is_boxed_i128 v = is_wide x;
  view_inline : is_inline_int v = true → is_wide x = false;
  view_narrow : as_integer_compatible (tables s) v = to_signed 64 (number x);
  view_raw : as_i128_raw (tables s) v = wrap 128 (number x);
  view_signed : boxed_i128_is_signed (tables s) v = signed_of x;
  view_range : ∀ i, x = Narrow i → is_i 64 i;
}.

Lemma has_tag_float v t : has_tag v t = true → is_float v = false.
Proof. unfold has_tag, tag. by destruct (is_float v). Qed.

Lemma has_tag_other v t t' : has_tag v t = true → 0 ≤ t < 256 → 0 ≤ t' < 256 → t ≠ t' → has_tag v t' = false.
Proof.
  unfold has_tag, tag. destruct (is_float v); [done|]. intros H Ht Ht' Hn. apply Z.eqb_eq in H. rewrite H.
  rewrite !wrap_id by (unfold is_u; change (2 ^ 8) with 256; lia). by apply Z.eqb_neq.
Qed.

Lemma sign_extend_range v : is_i 64 (sign_extend_48 v).
Proof.
  unfold sign_extend_48. rewrite shiftr_div by done. apply div_range; [done..|]. by apply to_signed_range.
Qed.

Lemma wrap_64_128 z : wrap 64 (wrap 128 z) = wrap 64 z.
Proof.
  unfold wrap. change (2 ^ 128) with (2 ^ 64 * 2 ^ 64). rewrite Z.rem_mul_r by lia.
  by rewrite (Z.mul_comm (2 ^ 64) (_ mod _)), Z.mod_add, Zmod_mod by lia.
Qed.

Lemma low_64 z : to_signed 64 (to_signed 128 z) = to_signed 64 z.
Proof.
  apply to_signed_wrap_eq. rewrite <- wrap_64_128, wrap_signed by done. apply wrap_64_128.
Qed.

(** A pointer-tagged word with the markers of a boxed integer is no reference. *)
Lemma boxed_kinds s v :
  has_tag v TAG_POINTER = true → Z.land v BOXED_INT_MARKER = BOXED_INT_MARKER →
  is_boxed_int v || is_boxed_i128 v = true →
  is_small_string v = false ∧ is_bool v = false ∧ is_inline_int v = false ∧ is_ptr v = false ∧
  is_object v = false ∧ Frames.is_cbgr_ref v = false ∧ reference_value_slot s v = Done false.
Proof.
  intros Ht Hm Hb. assert (Hp : is_ptr v = false).
  { unfold is_ptr. rewrite Ht. cbn [andb]. by destruct (is_boxed_int v), (is_boxed_i128 v). }
  assert (Hbits : Z.testbit v 47 && Z.testbit v 46 = true).
  { rewrite <- mask2 by done. apply Z.eqb_eq. exact Hm. }
  apply andb_true_iff in Hbits as [H47 H46].
  split_and!; try (by apply (has_tag_other v TAG_POINTER)).
  - done.
  - unfold is_object. by rewrite Hp.
  - unfold Frames.is_cbgr_ref, is_cbgr_regref. by rewrite (has_tag_other v TAG_POINTER).
  - unfold reference_value_slot, is_regular_ptr, is_thin_ref.
    unfold SPECIAL_VALUE_MARKER, BOXED_INT_SUB_MARKER. rewrite !land_bit_zero, H47, H46 by done.
    by rewrite !andb_false_r.
Qed.

Lemma views_boxed s v x :
  has_tag v TAG_POINTER = true → Z.land v BOXED_INT_MARKER = BOXED_INT_MARKER →
  is_boxed_int v || is_boxed_i128 v = true → is_boxed_i128 v = is_wide x →
  as_i64 (tables s) v = to_signed 64 (number x) → as_i128_raw (tables s) v = wrap 128 (number x) →
  boxed_i128_is_signed (tables s) v = signed_of x → (∀ i, x = Narrow i → is_i 64 i) → views s v x.
Proof.
  intros Ht Hm Hb Hw Hn Hr Hs Hi. destruct (boxed_kinds s v Ht Hm Hb) as (? & Hbool & Hin & ? & ? & ? & ?).
  split; try done; [by eapply has_tag_float|by rewrite Hin|].
  unfold as_integer_compatible, is_int. by rewrite Hbool, (has_tag_float v _ Ht), <- orb_assoc, Hb, orb_true_r.
Qed.

Lemma views_inline s v : is_inline_int v = true → views s v (Narrow (sign_extend_48 v)).
Proof.
  intros Ht. pose proof (sign_extend_range v) as Hi.
  assert (Hk : ∀ t, 0 ≤ t < 8 → t ≠ TAG_INTEGER → has_tag v t = false).
  { intros t Hb Hn. apply (has_tag_other v TAG_INTEGER); [done|done|lia|congruence]. }
  assert (Hp : has_tag v TAG_POINTER = false) by by apply Hk.
  split; unfold is_small_string, is_object, is_ptr, Frames.is_cbgr_ref, is_cbgr_regref, reference_value_slot,
    is_regular_ptr, is_thin_ref, as_integer_compatible, as_i128_raw, boxed_i128_is_signed, is_int, as_i64,
    is_boxed_i128, is_boxed_int, is_bool; rewrite ?Hp, ?Ht; cbn [andb orb number is_wide signed_of].
  all: rewrite ?Hk by done; cbn [andb]; rewrite ?(has_tag_float v _ Ht); try done.
  - by rewrite to_signed_id.
  - by intros i [= <-].
Qed.

Lemma integer_views s v x : tables_ok (tables s) → integer_of (tables s) v = Some x → views s v x.
Proof.
  intros [Hn Hw]. unfold integer_of. destruct (is_boxed_i128 v) eqn:E.
  - pose proof E as E'. unfold is_boxed_i128 in E'. rewrite !andb_true_iff, !Z.eqb_eq in E'.
    destruct E' as [[[Ht Hm] _] _].
    destruct (BOXED_I128S _ !! _) as [[raw signed]|] eqn:El; [|done]. intros [= <-].
    rewrite Forall_lookup in Hw. pose proof (Hw _ _ El) as Hr. cbn in Hr.
    apply views_boxed; try done; [by rewrite E, orb_true_r|..];
      unfold as_i64, as_i128_raw, boxed_i128_is_signed, boxed_i128_raw; rewrite E, ?El; cbn [number].
    + by rewrite low_64.
    + by rewrite wrap_signed, wrap_id.
    + done.
  - destruct (is_boxed_int v) eqn:E'.
    + pose proof E' as Ek. unfold is_boxed_int in Ek. rewrite !andb_true_iff, !Z.eqb_eq in Ek.
      destruct Ek as [[[Ht Hm] _] _].
      destruct (BOXED_INTS _ !! _) as [i|] eqn:El; [|done]. intros [= <-].
      rewrite Forall_lookup in Hn. pose proof (Hn _ _ El) as Hr.
      apply views_boxed; try done; [by rewrite E'|..];
        unfold as_i128_raw, is_int, boxed_i128_is_signed, as_i64; rewrite ?E, ?E', ?El; cbn [number default from_option].
      * by rewrite to_signed_id.
      * by rewrite orb_true_r.
      * done.
      * by intros ? [= <-].
    + destruct (is_inline_int v) eqn:Ei; [|done]. intros [= <-]. by apply views_inline.
Qed.

Lemma is_i_64_128 z : is_i 64 z → is_i 128 z.
Proof. unfold is_i. change (2 ^ (128 - 1)) with (2 ^ 63 * 2 ^ 64). change (2 ^ (64 - 1)) with (2 ^ 63). lia. Qed.

Section operand.
Context (s : FrameState) (v : Value) (x : integer) (V : views s v x).

Lemma view_narrow_range : is_wide x = false → is_i 64 (number x).
Proof using V. destruct x; [|done]. intros _. by apply (view_range _ _ _ V). Qed.

Lemma view_number : is_wide x = false → as_integer_compatible (tables s) v = number x.
Proof using V.
  intros Hx. rewrite (view_narrow _ _ _ V). by apply to_signed_id, view_narrow_range.
Qed.

Lemma view_number_range : is_i 128 (number x).
Proof using V.
  destruct x as [i|raw signed]; [|by apply to_signed_range].
  apply is_i_64_128. by apply (view_range _ _ _ V).
Qed.

Lemma view_wide_number : to_signed 128 (as_i128_raw (tables s) v) = number x.
Proof using V. rewrite (view_raw _ _ _ V). apply to_signed_wrap; [done|]. apply view_number_range. Qed.

(** The low bits of the operand, as a shift takes them. *)
Lemma view_low n : 0 ≤ n ≤ 64 →
  Z.land (as_integer_compatible (tables s) v) (2 ^ n - 1) = number x mod 2 ^ n.
Proof using V.
  intros Hn. rewrite land_mask, (view_narrow _ _ _ V) by lia.
  assert (E : ∀ z, z mod 2 ^ n = (wrap 64 z) mod 2 ^ n).
  { intros z. unfold wrap. replace 64 with (n + (64 - n)) by lia. rewrite Z.pow_add_r, Z.rem_mul_r by lia.
    by rewrite (Z.mul_comm (2 ^ n)), Z.mod_add, Zmod_mod by lia. }
  by rewrite E, wrap_signed, <- E by done.
Qed.

Lemma zero_wrap w : is_i w (number x) → 0 < w → (wrap w (number x) =? 0) = (number x =? 0).
Proof using.
  intros Hi Hw. apply eq_true_iff_eq. rewrite !Z.eqb_eq. split; [|by intros ->].
  intros E. rewrite <- (to_signed_wrap w (number x) Hw Hi), E. apply to_signed_small; [done|].
  split; [done|]. apply Z.pow_pos_nonneg; lia.
Qed.
End operand.

(** ** Results *)

(** The effect ends with the answer in [dst], or with the division by zero. *)
Definition gives (m : M DispatchResult) (dst : Reg) (a : answer) (s : FrameState) : Prop :=
  match a with
  | ZeroDivisor => m s = (Throw (Raised DivisionByZero), s)
  | _ => ∃ s', m s = (Done Continue, s') ∧ answered dst a s s'
  end.

Lemma gives_eq m m' dst a s : m s = m' s → gives m' dst a s → gives m dst a s.
Proof. unfold gives. intros E. by rewrite E. Qed.

(** A new integer in the tables. *)
Lemma from_i64_integer t i : has_room t → tables_ok t → is_i 64 i →
  let '(t', v) := from_i64 t i in
  tables_extend t t' ∧ tables_ok t' ∧ integer_of t' v = Some (Narrow i).
Proof.
  intros (H1 & _) [Ht Hw] Hi. unfold from_i64, MIN_SMALL_INT, MAX_SMALL_INT.
  destruct (Z.leb_spec (- 2 ^ 47) i), (Z.leb_spec i (2 ^ 47 - 1)); cbn [andb].
  1: { destruct (inline_int_word i ltac:(lia)) as (K1 & K2 & K3 & K4). split_and!; [reflexivity|done|].
       unfold integer_of. by rewrite K1, K2, K3, K4. }
  all: unfold from_i64_boxed; rewrite (proj2 (Z.ltb_ge BOXED_INT_INDEX_MASK _))
    by (unfold BOXED_INT_INDEX_MASK; lia).
  all: destruct (boxed_word (Z.of_nat (length (BOXED_INTS t))) ltac:(lia)) as (_ & K1 & K2 & K3).
  all: split_and!; [unfold tables_extend; cbn; split_and!; first [reflexivity|by apply prefix_app_r]| |].
  all: try (split; cbn; [|done]; apply Forall_app; split; [done|by constructor]).
  all: unfold integer_of; rewrite K1, K2, K3, Nat2Z.id; cbn [BOXED_INTS]; by rewrite list_lookup_middle.
Qed.

Lemma from_i128_integer t raw signed : has_room t → tables_ok t → is_u 128 raw →
  let '(t', v) := from_i128_raw_signed t raw signed in
  tables_extend t t' ∧ tables_ok t' ∧ integer_of t' v = Some (Wide raw signed).
Proof.
  intros (_ & H1 & _) [Ht Hw] Hr. unfold from_i128_raw_signed.
  rewrite (proj2 (Z.ltb_ge BOXED_INT_INDEX_MASK _)) by (unfold BOXED_INT_INDEX_MASK; lia).
  destruct (boxed_i128_word (Z.of_nat (length (BOXED_I128S t))) ltac:(lia)) as (K1 & K2 & K3).
  split_and!; [unfold tables_extend; cbn; split_and!; first [reflexivity|by apply prefix_app_r]| |].
  - split; cbn; [done|]. apply Forall_app; split; [done|by constructor].
  - unfold integer_of. rewrite K2, K3, Nat2Z.id. cbn [BOXED_I128S]. by rewrite list_lookup_middle.
Qed.

Section results.
Context (s : FrameState) (dst : Reg).
Context (Hok : tables_ok (tables s)) (Hroom : has_room (tables s)).
Context (Hdst : (slot (state_base s) dst < length (registers (register_file s)))%nat).

Lemma get_set_reg s' v : register_file s' = register_file s → call_stack s' = call_stack s →
  get_reg (set_reg s' dst v) dst = v ∧
  ∀ r, slot (state_base s) r ≠ slot (state_base s) dst → get_reg (set_reg s' dst v) r = get_reg s r.
Proof using Hdst.
  intros Hf Hc. unfold get_reg, set_reg, get, set, state_base in *. cbn. rewrite Hf, Hc. split.
  - by rewrite list_lookup_insert_eq.
  - intros r Hr. by rewrite list_lookup_insert_ne.
Qed.

Lemma boxed_answered box x :
  (let '(t, v) := box (tables s) in
   tables_extend (tables s) t ∧ tables_ok t ∧ integer_of t v = Some x) →
  gives (put_boxed dst box;; mret Continue) dst (Number x) s.
Proof using Hdst.
  unfold gives, mbind, M_bind, put_boxed, modify. destruct (box (tables s)) as [t v] eqn:E.
  intros (He & Ht & Hx). eexists. split; [done|].
  destruct (get_set_reg (with_tables s t) v eq_refl eq_refl) as [H1 H2].
  split; [by rewrite H1|done|done|done].
Qed.

Lemma finish_i64_answered i : is_i 64 i → gives (finish_i64 dst i) dst (Number (Narrow i)) s.
Proof using Hdst Hok Hroom.
  intros Hi. apply boxed_answered. pose proof (from_i64_integer _ i Hroom Hok Hi) as H.
  destruct (from_i64 _ _). exact H.
Qed.

Lemma finish_i128_answered raw signed : is_u 128 raw →
  gives (finish_i128 dst raw signed) dst (Number (Wide raw signed)) s.
Proof using Hdst Hok Hroom.
  intros Hi. apply boxed_answered. pose proof (from_i128_integer _ raw signed Hroom Hok Hi) as H.
  by destruct (from_i128_raw_signed _ _ _).
Qed.

Lemma truth_answered b : gives (put_bool dst b;; mret Continue) dst (Truth b) s.
Proof using Hdst Hok.
  unfold gives, mbind, M_bind, put_bool, put, modify. eexists. split; [done|].
  destruct (get_set_reg s (from_bool b) eq_refl eq_refl) as [H1 H2]. split; [done..|].
  split; [reflexivity|done].
Qed.

(** The two continuations of an instruction. *)
Lemma finish_fit (wide : bool) raw i signed z :
  (wide = true → raw = wrap 128 z) → (wide = false → i = to_signed 64 z) →
  gives (if wide then finish_i128 dst raw signed else finish_i64 dst i) dst
    (Number (fit (if wide then 128 else 64) signed z)) s.
Proof using Hdst Hok Hroom.
  destruct wide; intros Hr Hn; [rewrite Hr by done|rewrite Hn by done].
  - by apply finish_i128_answered, wrap_range.
  - by apply finish_i64_answered, to_signed_range.
Qed.
End results.

(** ** Instructions *)

Lemma gives_operand {s dst a} r x k : views s (get_reg s r) x →
  gives (k (get_reg s r)) dst a s → gives (arith_operand r ≫= k) dst a s.
Proof.
  intros V. apply gives_eq. unfold arith_operand, mbind, M_bind, reg_value, gets, resolve_arg_value, reads.
  by rewrite (view_reference _ _ _ V), (view_slot _ _ _ V).
Qed.

Lemma gives_tables {s dst a} k : gives (k (tables s)) dst a s → gives (gets tables ≫= k) dst a s.
Proof. by apply gives_eq. Qed.

Section instructions.
Context (s : FrameState) (dst : Reg).
Context (Hok : tables_ok (tables s)) (Hroom : has_room (tables s)).
Context (Hdst : (slot (state_base s) dst < length (registers (register_file s)))%nat).
Context (a b : Reg) (x y : integer).
Context (Va : views s (get_reg s a) x) (Vb : views s (get_reg s b) y).

Lemma is_wide_op : is_i128_op (get_reg s a) (get_reg s b) = is_wide x || is_wide y.
Proof using Va Vb. unfold is_i128_op. by rewrite (view_wide _ _ _ Va), (view_wide _ _ _ Vb). Qed.

Lemma result_sign : result_signed (tables s) (get_reg s a) (get_reg s b) = sign2 x y.
Proof using Va Vb.
  unfold result_signed, sign2. rewrite (view_wide _ _ _ Va), (view_wide _ _ _ Vb),
    (view_signed _ _ _ Va), (view_signed _ _ _ Vb). destruct (is_wide x); [done|]. by destruct y.
Qed.

Lemma inline_narrow : is_inline_int (get_reg s a) && is_inline_int (get_reg s b) = true → is_wide x || is_wide y = false.
Proof using Va Vb.
  rewrite andb_true_iff. intros [H1 H2].
  by rewrite (view_inline _ _ _ Va H1), (view_inline _ _ _ Vb H2).
Qed.

(** Both operands of a narrow operation are narrow. *)
Lemma narrow_numbers : is_wide x || is_wide y = false →
  as_integer_compatible (tables s) (get_reg s a) = number x ∧
  as_integer_compatible (tables s) (get_reg s b) = number y ∧ is_i 64 (number x) ∧ is_i 64 (number y).
Proof using Va Vb.
  rewrite orb_false_iff. intros [Hx Hy]. split_and!.
  - by apply (view_number _ _ _ Va).
  - by apply (view_number _ _ _ Vb).
  - by apply (view_narrow_range _ _ _ Va).
  - by apply (view_narrow_range _ _ _ Vb).
Qed.

(** The kinds of the operands decide the tests of a handler. *)
Ltac enter2 :=
  eapply (gives_operand a); [exact Va|]; eapply (gives_operand b); [exact Vb|]; apply gives_tables; cbv beta zeta;
  rewrite ?(view_float _ _ _ Va), ?(view_float _ _ _ Vb), ?(view_object _ _ _ Va), ?(view_object _ _ _ Vb),
    ?(view_string _ _ _ Va), ?(view_string _ _ _ Vb), ?is_wide_op, ?result_sign; cbn [orb].
Ltac enter1 :=
  eapply (gives_operand a); [exact Va|]; apply gives_tables; cbv beta zeta;
  rewrite ?(view_float _ _ _ Va), ?(view_object _ _ _ Va), ?(view_wide _ _ _ Va), ?(view_signed _ _ _ Va); cbn [orb].

(** The two cases of a result that is an operation on the numbers. *)
Ltac fit2 :=
  apply finish_fit; [done..| |];
  [intros Hw; rewrite ?(view_wide_number _ _ _ Va), ?(view_wide_number _ _ _ Vb), ?(view_raw _ _ _ Va), ?(view_raw _ _ _ Vb)
  |intros Hw; destruct (narrow_numbers Hw) as (-> & -> & ? & ?)].

Lemma add_exact : gives (do_addi dst a b) dst (binary_answer BinaryIntOp.Add x y) s.
Proof using Hok Hroom Hdst Va Vb.
  unfold do_addi. enter2. pose proof inline_narrow as Hin.
  destruct (is_inline_int (get_reg s a) && is_inline_int (get_reg s b)) eqn:E.
  - specialize (Hin eq_refl). cbn [binary_answer]. unfold bits2. rewrite Hin. destruct (narrow_numbers Hin) as (-> & -> & _).
    apply finish_i64_answered; try done. by apply to_signed_range.
  - unfold bits2. cbn [binary_answer]. unfold bits2. fit2; [|done]. apply wrap_add.
Qed.

Lemma sub_exact : gives (do_subi dst a b) dst (binary_answer BinaryIntOp.Sub x y) s.
Proof using Hok Hroom Hdst Va Vb. unfold do_subi. enter2. cbn [binary_answer]. unfold bits2. fit2; [|done]. apply wrap_sub. Qed.

Lemma mul_exact : gives (do_muli dst a b) dst (binary_answer BinaryIntOp.Mul x y) s.
Proof using Hok Hroom Hdst Va Vb. unfold do_muli. enter2. cbn [binary_answer]. unfold bits2. fit2; [|done]. apply wrap_mul. Qed.

(** A division checks the divisor at the width of the operation. *)
Lemma gives_division (wide : bool) (raw_zero zero : bool) m m' n z signed :
  (wide = true → raw_zero = (n =? 0)) → (wide = false → zero = (n =? 0)) →
  (n ≠ 0 → gives (if wide then m else m') dst (Number (fit (if wide then 128 else 64) signed z)) s) →
  gives (if wide then if raw_zero then raise DivisionByZero else m
         else if zero then raise DivisionByZero else m') dst
    (if n =? 0 then ZeroDivisor else Number (fit (if wide then 128 else 64) signed z)) s.
Proof using.
  intros Hr Hn H. destruct wide; [rewrite Hr by done|rewrite Hn by done];
    (destruct (Z.eqb_spec n 0); [done|by apply H]).
Qed.

Lemma signed_division_exact op : gives (do_signed_division dst op a b) dst
    (if number y =? 0 then ZeroDivisor else Number (fit (bits2 x y) (sign2 x y) (op (number x) (number y)))) s.
Proof using Hok Hroom Hdst Va Vb.
  unfold do_signed_division, bits2. enter2. apply gives_division.
  - intros _. by rewrite (view_wide_number _ _ _ Vb).
  - intros Hw. by destruct (narrow_numbers Hw) as (_ & -> & _).
  - intros _. fit2; done.
Qed.

Lemma unsigned_division_exact op : (∀ w p q, is_u w p → 0 < q → is_u w (op p q)) →
  gives (do_unsigned_division dst op a b) dst
    (if number y =? 0 then ZeroDivisor
     else Number (fit (bits2 x y) false (op (unsigned (bits2 x y) x) (unsigned (bits2 x y) y)))) s.
Proof using Hok Hroom Hdst Va Vb.
  intros Hop. unfold do_unsigned_division, bits2. enter2. apply gives_division.
  - intros _. rewrite (view_raw _ _ _ Vb). apply zero_wrap; [|done]. apply (view_number_range _ _ _ Vb).
  - intros Hw. destruct (narrow_numbers Hw) as (_ & -> & _ & Hy). by apply zero_wrap.
  - intros Hy.
    assert (Hq : ∀ w, 0 < w → is_i w (number y) → 0 < wrap w (number y)).
    { intros w Hw Hi. pose proof (zero_wrap y w Hi Hw). pose proof (wrap_range w (number y) ltac:(lia)).
      unfold is_u in *. lia. }
    unfold unsigned. fit2; rewrite Hw; unfold as_i64_cast, as_u64; [|done].
    symmetry. apply wrap_id, Hop; [by apply wrap_range|]. apply Hq; [done|]. apply (view_number_range _ _ _ Vb).
Qed.

Lemma pow_exact : gives (do_powi dst a b) dst (binary_answer BinaryIntOp.Pow x y) s.
Proof using Hok Hroom Hdst Va Vb.
  unfold do_powi. enter2. rewrite (view_wide _ _ _ Va), (view_signed _ _ _ Va).
  cbn [binary_answer]. unfold bits. set (e := if is_wide x then number y else to_signed 64 (number y)).
  apply finish_fit; try done; intros Hw; subst e; rewrite Hw.
  - rewrite (view_wide_number _ _ _ Vb), (view_raw _ _ _ Va).
    destruct (Z.leb_spec 0 (number y)); [|done]. destruct (_ <=? _); [|done]. cbn [andb].
    by rewrite wrapping_pow_spec, wrap_pow.
  - rewrite (view_narrow _ _ _ Vb), (view_number _ _ _ Va) by done.
    destruct (Z.leb_spec 0 (to_signed 64 (number y))); [|done]. destruct (_ <=? _); [|done]. cbn [andb].
    rewrite wrapping_pow_spec by done. unfold as_i64_cast. apply to_signed_wrap_eq, wrap_wrap.
Qed.

Lemma binary_exact op : gives
    match op with
    | BinaryIntOp.Add => do_addi dst a b | BinaryIntOp.Sub => do_subi dst a b
    | BinaryIntOp.Mul => do_muli dst a b | BinaryIntOp.Div => do_divi dst a b
    | BinaryIntOp.Mod => do_modi dst a b | BinaryIntOp.Pow => do_powi dst a b
    | BinaryIntOp.UDiv => do_udivi dst a b | BinaryIntOp.UMod => do_umodi dst a b
    end dst (binary_answer op x y) s.
Proof using Hok Hroom Hdst Va Vb.
  destruct op; [apply add_exact|apply sub_exact|apply mul_exact|apply signed_division_exact
    |apply signed_division_exact|apply pow_exact|apply unsigned_division_exact|apply unsigned_division_exact].
  - intros w p q [Hp Hl] Hq. split; [apply Z.quot_pos; lia|]. apply Z.le_lt_trans with p; [|done].
    rewrite Z.quot_div_nonneg by lia. apply Z.div_le_upper_bound; nia.
  - intros w p q [Hp Hl] Hq. pose proof (Z.rem_bound_pos p q Hp Hq) as [Hr Hr']. split; [done|].
    apply Z.le_lt_trans with p; [|done]. apply Z.rem_le; lia.
Qed.

(** *** One operand *)
Ltac fit1 :=
  unfold bits; apply finish_fit; [done..| |];
  [intros Hw; rewrite ?(view_wide_number _ _ _ Va), ?(view_raw _ _ _ Va)
  |intros Hw; rewrite ?(view_number _ _ _ Va Hw)].

Lemma step_exact delta :
  gives (do_step dst delta a) dst (Number (fit (bits x) (signed_of x) (number x + delta))) s.
Proof using Hok Hroom Hdst Va. unfold do_step. enter1. fit1; [apply wrap_add_r|done]. Qed.

Lemma neg_exact : gives (do_negi dst a) dst (unary_answer UnaryIntOp.Neg x) s.
Proof using Hok Hroom Hdst Va.
  unfold do_negi. enter1. fit1; [|done]. change (- number x) with (0 - number x). apply Zminus_mod_idemp_r.
Qed.

Lemma abs_exact : gives (do_absi dst a) dst (unary_answer UnaryIntOp.Abs x) s.
Proof using Hok Hroom Hdst Va.
  unfold do_absi. enter1. fit1; [by destruct (signed_of x)|]. by destruct x.
Qed.

Lemma unary_exact op : gives
    match op with
    | UnaryIntOp.Neg => do_negi dst a | UnaryIntOp.Abs => do_absi dst a
    | UnaryIntOp.Inc => do_inc dst a | UnaryIntOp.Dec => do_dec dst a
    end dst (unary_answer op x) s.
Proof using Hok Hroom Hdst Va.
  destruct op; [apply neg_exact|apply abs_exact|apply step_exact|apply step_exact].
Qed.

(** *** Bits *)
Lemma bits_exact f g : (∀ a b i, Z.testbit (f a b) i = g (Z.testbit a i) (Z.testbit b i)) → g false false = false →
  gives (do_bits dst f a b) dst (Number (fit (bits2 x y) (sign2 x y) (f (number x) (number y)))) s.
Proof using Hok Hroom Hdst Va Vb.
  intros Hf Hg. unfold do_bits, bits2. enter2. fit2.
  - by apply (wrap_bitwise 128 eq_refl f g).
  - symmetry. apply to_signed_id; [done|]. by apply (is_i_bitwise 64 eq_refl f g).
Qed.

Lemma not_exact : gives (do_bnot dst a) dst (Number (fit (bits x) (signed_of x) (Z.lnot (number x)))) s.
Proof using Hok Hroom Hdst Va.
  unfold do_bnot. enter1. fit1.
  - apply Z.bits_inj'. intros i Hi. rewrite !testbit_wrap, !Z.lnot_spec, testbit_wrap by done.
    by destruct (i <? 128).
  - symmetry. apply to_signed_id; [done|]. pose proof (view_narrow_range _ _ _ Va Hw) as [Hl Hu].
    unfold is_i, Z.lnot in *. lia.
Qed.

Lemma shift_low n : 0 ≤ n ≤ 64 →
  Z.land (as_integer_compatible (tables s) (get_reg s b)) (2 ^ n - 1) = number y mod 2 ^ n.
Proof using Vb. apply (view_low _ _ _ Vb). Qed.

Ltac shift :=
  enter2; rewrite ?(view_wide _ _ _ Va), ?(view_signed _ _ _ Va);
  change 127 with (2 ^ 7 - 1); change 63 with (2 ^ 6 - 1); rewrite !shift_low by done;
  pose proof (Z.mod_pos_bound (number y) (2 ^ 7) ltac:(done));
  pose proof (Z.mod_pos_bound (number y) (2 ^ 6) ltac:(done));
  fit1; match goal with H : is_wide x = _ |- _ => rewrite H end; rewrite ?Z.shiftl_mul_pow2, ?Z.shiftr_div_pow2 by lia.

Lemma shl_exact :
  gives (do_shl dst a b) dst (Number (fit (bits x) (signed_of x) (number x * 2 ^ (number y mod bits x)))) s.
Proof using Hok Hroom Hdst Va Vb. unfold do_shl. shift; [apply wrap_mul_l|done]. Qed.

Lemma shr_exact :
  gives (do_shr dst a b) dst (Number (fit (bits x) (signed_of x) (number x `div` 2 ^ (number y mod bits x)))) s.
Proof using Hok Hroom Hdst Va Vb.
  unfold do_shr. shift; [done|]. symmetry. apply to_signed_id; [done|].
  apply div_range; [done| |by apply (view_narrow_range _ _ _ Va)]. apply Z.pow_pos_nonneg; lia.
Qed.

Lemma ushr_exact :
  gives (do_ushr dst a b) dst
    (Number (fit (bits x) false (unsigned (bits x) x `div` 2 ^ (number y mod bits x)))) s.
Proof using Hok Hroom Hdst Va Vb.
  unfold do_ushr, unsigned. shift; [|done]. symmetry. apply wrap_id.
  pose proof (wrap_range 128 (number x) ltac:(done)) as [Hl Hu]. split; [apply Z.div_pos; lia|].
  apply Z.le_lt_trans with (wrap 128 (number x)); [|done].
  apply Z.div_le_upper_bound; [apply Z.pow_pos_nonneg; lia|].
  pose proof (Z.pow_pos_nonneg 2 (number y mod 2 ^ 7) ltac:(lia) ltac:(lia)). nia.
Qed.

Lemma bitwise_exact op : gives
    match op with
    | BitwiseOp.And => do_band dst a b | BitwiseOp.Or => do_bor dst a b | BitwiseOp.Xor => do_bxor dst a b
    | BitwiseOp.Not => do_bnot dst a | BitwiseOp.Shl => do_shl dst a b | BitwiseOp.Shr => do_shr dst a b
    | BitwiseOp.Ushr => do_ushr dst a b
    end dst (bitwise_answer op x y) s.
Proof using Hok Hroom Hdst Va Vb.
  destruct op; [eapply bits_exact..|apply not_exact|apply shl_exact|apply shr_exact|apply ushr_exact];
    [apply Z.land_spec|done|apply Z.lor_spec|done|apply Z.lxor_spec|done].
Qed.

(** *** Orderings *)
Lemma ordering_exact holds :
  gives (do_ordering dst holds a b) dst (Truth (holds (order x y))) s.
Proof using Hok Hdst Va Vb.
  unfold do_ordering. enter2.
  assert (E : (if is_wide x || is_wide y then i128_ordering (tables s) (get_reg s a) (get_reg s b)
      else Z.compare (as_integer_compatible (tables s) (get_reg s a))
             (as_integer_compatible (tables s) (get_reg s b))) = order x y).
  { destruct (is_wide x || is_wide y) eqn:Hw.
    - unfold i128_ordering, order. rewrite result_sign, (view_wide_number _ _ _ Va), (view_wide_number _ _ _ Vb).
      by rewrite (view_raw _ _ _ Va), (view_raw _ _ _ Vb).
    - destruct (narrow_numbers Hw) as (-> & -> & _). unfold order, sign2.
      by destruct x, y. }
  rewrite E. by apply truth_answered.
Qed.

Lemma cmp_exact sub_op holds : unsigned_holds sub_op = Some holds →
  gives (do_cmp_extended dst sub_op a b) dst (Truth (holds (order_unsigned x y))) s.
Proof using Hok Hdst Va Vb.
  intros Hs.
  assert (E : (if is_wide x || is_wide y
      then Z.compare (as_i128_raw (tables s) (get_reg s a)) (as_i128_raw (tables s) (get_reg s b))
      else Z.compare (as_u64 (as_integer_compatible (tables s) (get_reg s a)))
             (as_u64 (as_integer_compatible (tables s) (get_reg s b)))) = order_unsigned x y).
  { unfold order_unsigned, bits2, unsigned. destruct (is_wide x || is_wide y) eqn:Hw.
    - by rewrite (view_raw _ _ _ Va), (view_raw _ _ _ Vb).
    - by destruct (narrow_numbers Hw) as (-> & -> & _). }
  apply (gives_eq _ (put_bool dst (holds (order_unsigned x y));; mret Continue)); [|by apply truth_answered].
  unfold do_cmp_extended, reg_value, gets, mbind, M_bind. cbv beta iota. by rewrite Hs, is_wide_op, E.
Qed.
End instructions.

(** *** The theorem *)

(** C11. The integer instructions of the dispatch loop compute the arithmetic of
    [MachineSpec.v].  For every binary, unary, bitwise and ordering instruction
    and all integers in the source registers, narrow (inline or boxed) and wide
    in any mixture, the handler ends normally with the answer in the destination,
    where the answer is the mathematical result reduced to 64 bits, or to 128 bits
    with the sign of the first wide operand when one is wide; a zero divisor
    raises [DivisionByZero] and leaves the state as it was.  Nothing else changes:
    the other registers keep their words, the call stack is the same and the
    side tables only grow, so integers elsewhere keep their values. *)
Theorem integer_exact cell_address i s val dst ans :
  tables_ok (tables s) → has_room (tables s) →
  (∀ r, r ∈ integer_sources i → integer_of (tables s) (get_reg s r) = Some (val r)) →
  integer_answer i val = Some (dst, ans) →
  (slot (state_base s) dst < length (registers (register_file s)))%nat →
  match ans with
  | ZeroDivisor => effect_of cell_address i s = (Throw (Raised DivisionByZero), s)
  | _ => ∃ s', effect_of cell_address i s = (Done Continue, s') ∧ answered dst ans s s'
  end.
Proof.
  intros Hok Hroom Hval Ha Hdst. change (gives (effect_of cell_address i) dst ans s).
  assert (V : ∀ r, In r (integer_sources i) → views s (get_reg s r) (val r))
    by (intros r Hr; by apply integer_views, Hval, list_elem_of_In).
  destruct i; try discriminate Ha; cbn [integer_answer] in Ha; unfold effect_of; cbn [execute_instruction].
  - simplify_eq. apply binary_exact; try done; apply V; cbn; auto.
  - simplify_eq. apply unary_exact; try done; apply V; cbn; auto.
  - injection Ha as <- <-.
    assert (op = BitwiseOp.Not ∨ integer_sources (Instruction.Bitwise op dst0 a b) = [a; b]) as [-> | E]
      by (destruct op; auto).
    + apply not_exact; try done; apply V; cbn; auto.
    + rewrite E in V. apply bitwise_exact; try done; apply V; cbn; auto.
  - destruct (execute_compare op) as [ordered|]; [|done]. cbn in Ha. simplify_eq.
    apply ordering_exact; try done; apply V; cbn; auto.
  - destruct (unsigned_holds _) as [ordered|] eqn:E; [|done]. cbn in Ha. simplify_eq.
    apply cmp_exact; try done; apply V; cbn; auto.
Qed.

(** A narrow and a wide integer in two registers, and their wide product. *)
Definition two_integers : FrameState :=
  ((put_i64 0 (- 7);; put_i128 1 (2 ^ 100) true) (initial_state (Registers.with_capacity 16) 8)).2.

Lemma integer_exact_witness :
  ∃ s', effect_of Z.of_nat (Instruction.BinaryI BinaryIntOp.Mul 2 0 1) two_integers = (Done Continue, s') ∧
    integer_of (tables s') (get_reg s' 2) = Some (Wide (2 ^ 128 - 7 * 2 ^ 100) true).
Proof.
  pose (val := λ r : Reg, if r =? 0 then Narrow (- 7) else Wide (2 ^ 100) true).
  destruct (integer_exact Z.of_nat (Instruction.BinaryI BinaryIntOp.Mul 2 0 1) two_integers val 2
    (Number (Wide (2 ^ 128 - 7 * 2 ^ 100) true))) as (s' & E & A).
  - assert (BOXED_INTS (tables two_integers) = []) as E1 by by vm_compute.
    assert (BOXED_I128S (tables two_integers) = [(2 ^ 100, true)]) as E2 by by vm_compute.
    split; rewrite ?E1, ?E2; [constructor|]. apply Forall_singleton. split; by vm_compute.
  - split_and!; by vm_compute.
  - intros r Hr. cbn in Hr. apply list_elem_of_In in Hr as [<- | [<- | []]]; by vm_compute.
  - by vm_compute.
  - vm_compute. lia.
  - exists s'. split; [exact E|]. exact (answered_value _ _ _ _ A).
Defined.
