(* ===== verification/LockOrder.v ===== *)
(** * Lock ordering

    [verum_verification/src/lock_ordering.rs]: levels of lock types, the locks held
    at a program point, the check of an acquisition, and the graph of
    acquisitions with its search for cycles.  The iteration orders of hash maps
    and hash sets are unspecified: they are parameters, permutations of the
    contents in the theorems. *)

From stdpp Require Import gmap strings.
From S2P Require Import Prelude.
Open Scope Z_scope.

(** ** Lock types *)
Record LockTypeId := { module : string; name : string }.

#[export] Instance LockTypeId_eq_dec : EqDecision LockTypeId.
Proof. solve_decision. Defined.
#[export] Instance LockTypeId_countable : Countable LockTypeId.
Proof.
  apply (inj_countable' (λ id, (module id, name id)) (λ p, {| module := p.1; name := p.2 |})). by intros [].
Defined.

Definition qualified_name (id : LockTypeId) : string := (module id ++ "::" ++ name id)%string.

Abbreviation LockLevel := Z (only parsing).

Record SourceLocation := { file : string; line : Z; column : Z }.
Record LockInfo := { info_id : LockTypeId; level : LockLevel; source_location : option SourceLocation }.

(** ** The registry *)
Definition LockRegistry : Type := gmap LockTypeId LockInfo.

Definition register (r : LockRegistry) (id : LockTypeId) (level : LockLevel)
    (location : option SourceLocation) : LockRegistry :=
  <[id := {| info_id := id; level := level; source_location := location |}]> r.
Definition get_level (r : LockRegistry) (id : LockTypeId) : option LockLevel := level <$> r !! id.

Inductive LockOrderingError :=
| OrderViolation (acquired : string) (acquired_level : LockLevel) (held : string)
    (held_level : LockLevel) (location : SourceLocation)
| UnknownLock (lock_type : string) (location : SourceLocation)
| MissingLockLevel (lock_type : string).

(** ** The locks held at a program point *)
Record HeldLocks := { locks : gmap LockTypeId LockLevel; max_level : LockLevel }.

Definition no_locks : HeldLocks := {| locks := ∅; max_level := 0 |}.
Definition acquire (h : HeldLocks) (id : LockTypeId) (level : LockLevel) : HeldLocks :=
  {| locks := <[id := level]> (locks h);
     max_level := if max_level h <? level then level else max_level h |}.

(** [values().copied().max().unwrap_or(0)]. *)
Definition highest (m : gmap LockTypeId LockLevel) : LockLevel := map_fold (λ _, Z.max) 0 m.
Definition release (h : HeldLocks) (id : LockTypeId) : HeldLocks :=
  let m := delete id (locks h) in {| locks := m; max_level := highest m |}.

Section Verifier.
Context (entries : gmap LockTypeId LockLevel → list (LockTypeId * LockLevel)).

(** The first held lock, in iteration order, that is not below the level. *)
Definition would_violate (h : HeldLocks) (level : LockLevel) : option (LockTypeId * LockLevel) :=
  head (filter (λ p, level ≤ p.2) (entries (locks h))).

(** ** Verifying an acquisition *)
Record LockOrderingConfig := { require_levels : bool; detect_cycles_flag : bool; strict_mode : bool }.
Record LockOrderingVerifier := {
  registry : LockRegistry;
  graph : gset (LockTypeId * LockTypeId);
  violations : list LockOrderingError;
  config : LockOrderingConfig;
}.

Definition add_edges (h : HeldLocks) (acquired : LockTypeId) (g : gset (LockTypeId * LockTypeId)) :
    gset (LockTypeId * LockTypeId) :=
  set_map (D:=gset (LockTypeId * LockTypeId)) (λ held, (held, acquired)) (dom (locks h)) ∪ g.

Definition verify_acquisition (v : LockOrderingVerifier) (held : HeldLocks) (lock_id : LockTypeId)
    (location : SourceLocation) : outcome LockOrderingError unit * LockOrderingVerifier :=
  match get_level (registry v) lock_id with
  | None =>
      if require_levels (config v) then (Err (MissingLockLevel (qualified_name lock_id)), v)
      else if strict_mode (config v) then (Err (UnknownLock (qualified_name lock_id) location), v)
      else (Ok tt, v)
  | Some lock_level =>
      match would_violate held lock_level with
      | Some (held_id, held_level) =>
          let err := OrderViolation (qualified_name lock_id) lock_level (qualified_name held_id)
                       held_level location in
          (Err err, {| registry := registry v; graph := graph v; violations := violations v ++ [err];
                       config := config v |})
      | None =>
          (Ok tt,
           if detect_cycles_flag (config v)
           then {| registry := registry v; graph := add_edges held lock_id (graph v);
                   violations := violations v; config := config v |}
           else v)
      end
  end.

Definition register_lock (v : LockOrderingVerifier) (id : LockTypeId) (level : LockLevel)
    (location : option SourceLocation) : LockOrderingVerifier :=
  {| registry := register (registry v) id level location; graph := graph v;
     violations := violations v; config := config v |}.

Definition is_valid (v : LockOrderingVerifier) : bool :=
  match violations v with [] => true | _ => false end.

(** The convenience function, which verifies no unknown lock. *)
Definition verify_lock_acquisition (r : LockRegistry) (held : HeldLocks) (lock_id : LockTypeId) :
    outcome LockOrderingError unit :=
  match get_level r lock_id with
  | None => Ok tt
  | Some lock_level =>
      match would_violate held lock_level with
      | Some (held_id, held_level) =>
          Err (OrderViolation (qualified_name lock_id) lock_level (qualified_name held_id) held_level
                 {| file := "<unknown>"; line := 0; column := 0 |})
      | None => Ok tt
      end
  end.
End Verifier.

(** ** The search for cycles *)

(** A reference to one end of an edge: where it points, and the lock type there.
    The search compares lock types by value, except for the start of a cycle in
    the path, which it finds by address. *)
Record node_ref := { at_edge : nat; at_target : bool; value : LockTypeId }.
Definition ptr_eq (a b : node_ref) : bool :=
  bool_decide (at_edge a = at_edge b) && Bool.eqb (at_target a) (at_target b).

Record search := {
  visited : gset LockTypeId;
  on_stack : gset LockTypeId;
  path : list node_ref;
  cycles : list (list LockTypeId);
}.

Definition enter (node : node_ref) (s : search) : search :=
  {| visited := {[value node]} ∪ visited s; on_stack := {[value node]} ∪ on_stack s;
     path := path s ++ [node]; cycles := cycles s |}.
Definition leave (node : node_ref) (s : search) : search :=
  {| visited := visited s; on_stack := on_stack s ∖ {[value node]};
     path := removelast (path s); cycles := cycles s |}.

(** From the first reference equal to the neighbour to the end of the path. *)
Fixpoint in_cycle (neighbor : node_ref) (l : list node_ref) : list LockTypeId :=
  match l with
  | [] => []
  | n :: l' => if ptr_eq n neighbor then value <$> l else in_cycle neighbor l'
  end.
Definition report (neighbor : node_ref) (s : search) : search :=
  {| visited := visited s; on_stack := on_stack s; path := path s;
     cycles := cycles s ++ [in_cycle neighbor (path s) ++ [value neighbor]] |}.

Section Search.
Context (edges : list (LockTypeId * LockTypeId)).

(** The adjacency list of a lock type. *)
Definition neighbors_from (i : nat) (l : list (LockTypeId * LockTypeId)) (node : LockTypeId) : list node_ref :=
  omap (λ '(i, (from, to)),
    if decide (from = node) then Some {| at_edge := i; at_target := true; value := to |} else None)
    (zip (seq i (length l)) l).
Definition neighbors (node : LockTypeId) : list node_ref := neighbors_from 0 edges node.

(** The ends of all edges, the first reference to a lock type standing for it. *)
Fixpoint insert_new (l : list node_ref) (seen : list node_ref) : list node_ref :=
  match l with
  | [] => seen
  | n :: l => insert_new l (if existsb (λ m, bool_decide (value m = value n)) seen then seen else seen ++ [n])
  end.
Definition ends : list node_ref :=
  concat (map (λ '(i, (a, b)),
    [{| at_edge := i; at_target := false; value := a |}; {| at_edge := i; at_target := true; value := b |}])
    (zip (seq 0 (length edges)) edges)).
Definition nodes : list node_ref := insert_new ends [].

(** [f] visits the neighbours in order. *)
Fixpoint visit_all (f : node_ref → search → option search) (l : list node_ref) (s : search) : option search :=
  match l with
  | [] => Some s
  | n :: l => s ← f n s; visit_all f l s
  end.

(** [None] when the fuel runs out; as many units as there are lock types do. *)
Fixpoint dfs_cycle_detection (fuel : nat) (node : node_ref) (s : search) : option search :=
  match fuel with
  | O => None
  | S fuel =>
      s ← visit_all (λ neighbor s,
            if negb (bool_decide (value neighbor ∈ visited s)) then dfs_cycle_detection fuel neighbor s
            else if bool_decide (value neighbor ∈ on_stack s) then Some (report neighbor s)
            else Some s)
          (neighbors (value node)) (enter node s);
      Some (leave node s)
  end.

Definition start_search : search := {| visited := ∅; on_stack := ∅; path := []; cycles := [] |}.

Definition search_from (fuel : nat) (start : node_ref) (s : search) : option search :=
  if negb (bool_decide (value start ∈ visited s)) then dfs_cycle_detection fuel start s else Some s.

Definition detect_cycles (order : list node_ref → list node_ref) (fuel : nat) :
    option (list (list LockTypeId)) :=
  s ← visit_all (search_from fuel) (order nodes) start_search; Some (cycles s).
End Search.
