(* ===== verification/LockOrderFacts.v ===== *)
(** * Lock ordering: facts

    The check of an acquisition is exact; the search reports exactly when the
    graph has a cycle; accepted acquisitions build graphs without one, and threads
    that request locks only when the check accepts never wait in a circle. *)

From stdpp Require Import gmap strings relations.
From S2P Require Import Prelude LockOrder.
Open Scope Z_scope.

(** ** The search *)
Section search.
Context (edges : list (LockTypeId * LockTypeId)).

Definition edge (a b : LockTypeId) : Prop := (a, b) ∈ edges.
(** The ends of the edges. *)
Definition all : gset LockTypeId := list_to_set (edges.*1 ++ edges.*2).

Lemma neighbors_from_value i l a n :
  n ∈ neighbors_from i l a → (a, value n) ∈ l.
Proof.
  unfold neighbors_from. revert i. induction l as [|[x y] l IH]; intros i; cbn; [by intros ?%not_elem_of_nil|].
  case_decide as Hd; cbn; [intros [->|Hn]%elem_of_cons|intros Hn]; [subst; by left|right; by eapply IH..].
Qed.

Lemma value_neighbors_from i l a b :
  (a, b) ∈ l → ∃ n, n ∈ neighbors_from i l a ∧ value n = b.
Proof.
  unfold neighbors_from. revert i. induction l as [|[x y] l IH]; intros i; cbn; [by intros ?%not_elem_of_nil|].
  intros [[= -> ->]|H]%elem_of_cons.
  - rewrite decide_True by done. cbn. eexists. split; [by left|done].
  - destruct (IH (S i) H) as (n & Hn & Hv). exists n. split; [|done]. case_decide; cbn; [by right|done].
Qed.

Lemma neighbors_edge a n : n ∈ neighbors edges a → edge a (value n).
Proof. apply neighbors_from_value. Qed.
Lemma edge_neighbor a b : edge a b → ∃ n, n ∈ neighbors edges a ∧ value n = b.
Proof. apply value_neighbors_from. Qed.

Lemma edge_all a b : edge a b → a ∈ all ∧ b ∈ all.
Proof.
  intros H. unfold all. rewrite !elem_of_list_to_set, !elem_of_app. split; [left|right];
    apply list_elem_of_fmap; by exists (a, b).
Qed.

(** What the search knows at any time. *)
Record search_ok (s : search) : Prop := {
  ok_stack : ∀ x, x ∈ on_stack s ↔ x ∈ value <$> path s;
  ok_visited : on_stack s ⊆ visited s;
  ok_nodup : NoDup (value <$> path s);
  ok_path : ∀ i a b, path s !! i = Some a → path s !! S i = Some b → edge (value a) (value b);
  (** Without a report the finished lock types lead to no cycle. *)
  ok_finished : cycles s = [] → ∀ x, x ∈ visited s → x ∉ on_stack s → Acc (flip edge) x;
  ok_reported : cycles s ≠ [] → ∃ x, tc edge x x;
}.

(** The last node of the path leads to [n]. *)
Definition leads (s : search) (n : LockTypeId) : Prop :=
  ∀ a, last (path s) = Some a → edge (value a) n.

(** What a visit changes. *)
Record extends (s s' : search) : Prop := {
  extends_path : path s' = path s;
  extends_stack : on_stack s' = on_stack s;
  extends_visited : visited s ⊆ visited s';
  extends_cycles : cycles s' = [] → cycles s = [];
}.

#[local] Instance extends_preorder : PreOrder extends.
Proof.
  split; [by intros s|]. intros s1 s2 s3 [] []. split; [congruence|congruence|set_solver|naive_solver].
Qed.

Lemma enter_ok n s : search_ok s → leads s (value n) → value n ∉ visited s → search_ok (enter n s).
Proof.
  intros [Hs Hv Hn Hp Hf Hr] Hl Hnew. split; cbn.
  - intros x. rewrite fmap_app, elem_of_app, elem_of_union, Hs. cbn. set_solver.
  - set_solver.
  - rewrite fmap_app. apply NoDup_app. split_and!; [done| |apply NoDup_singleton].
    intros x Hx. cbn. intros ->%list_elem_of_singleton. apply Hnew, Hv, Hs, Hx.
  - intros i a b Ha Hb. destruct (decide (S i < length (path s))%nat) as [Hi|Hi].
    + rewrite lookup_app_l in Ha, Hb by lia. by eapply Hp.
    + assert (S i = length (path s)) as Hi'.
      { apply lookup_lt_Some in Hb. rewrite length_app in Hb. cbn in Hb. lia. }
      rewrite lookup_app_l in Ha by lia. rewrite lookup_app_r, Hi', Nat.sub_diag in Hb by lia.
      injection Hb as <-. apply Hl. rewrite last_lookup, <- Hi'. done.
  - intros Hc x Hx Hns. apply Hf; [done| |]; set_solver.
  - done.
Qed.

(** Along the path every node leads to every later one. *)
Lemma path_reaches (l : list node_ref) i j a b :
  (∀ i a b, l !! i = Some a → l !! S i = Some b → edge (value a) (value b)) →
  l !! i = Some a → l !! j = Some b → (i ≤ j)%nat → rtc edge (value a) (value b).
Proof.
  intros Hp Ha Hb Hij. revert b Hb. induction Hij as [|j Hij IH]; intros b Hb.
  - simplify_eq. by constructor.
  - destruct (lookup_lt_is_Some_2 l j) as [c Hc]; [apply lookup_lt_Some in Hb; lia|].
    eapply rtc_r; [by apply IH|]. by eapply Hp.
Qed.

Lemma report_ok n s : search_ok s → leads s (value n) → value n ∈ on_stack s → search_ok (report n s).
Proof.
  intros [Hs Hv Hn Hp Hf Hr] Hl Hin. split; cbn; [done..| |].
  - by intros []%app_nil.
  - intros _. apply Hs, list_elem_of_fmap in Hin as (m & Em & Hm). rewrite Em in Hl.
    apply list_elem_of_lookup in Hm as [i Hi].
    destruct (last (path s)) as [z|] eqn:Ez; [|by apply last_None in Ez; rewrite Ez in Hi].
    exists (value m). specialize (Hl z Ez). rewrite last_lookup in Ez.
    eapply tc_rtc_l; [|by apply tc_once]. eapply path_reaches; [exact Hp|exact Hi|exact Ez|].
    apply lookup_lt_Some in Hi. lia.
Qed.

(** ** One visit *)
Section visit.
Context (f : node_ref → search → option search).

(** The visits of a list of neighbours of the last node of the path. *)
Lemma visit_all_ok (P : search → Prop) l s :
  (∀ n s, n ∈ l → P s → search_ok s → leads s (value n) →
     ∃ s', f n s = Some s' ∧ P s' ∧ search_ok s' ∧ extends s s' ∧
       value n ∈ visited s' ∧ (cycles s' = [] → value n ∉ on_stack s')) →
  P s → search_ok s → (∀ n, n ∈ l → leads s (value n)) →
  ∃ s', visit_all f l s = Some s' ∧ P s' ∧ search_ok s' ∧ extends s s' ∧
    ∀ n, n ∈ l → value n ∈ visited s' ∧ (cycles s' = [] → value n ∉ on_stack s').
Proof.
  intros Hf. revert s. induction l as [|n l IH]; intros s HP Hok Hl.
  - exists s. split_and!; [done..|]. intros n ?%elem_of_nil. done.
  - cbn [visit_all]. destruct (Hf n s) as (s1 & E1 & HP1 & Hok1 & X1 & Hv & Hc);
      [by left|done|done|apply Hl; by left|].
    rewrite E1. cbn [mbind option_bind].
    destruct (IH (λ n s Hn, Hf n s (list_elem_of_further _ _ _ Hn)) s1) as (s2 & E2 & HP2 & Hok2 & X2 & Hall);
      [done|done|..].
    { intros m Hm a. unfold leads. rewrite (extends_path _ _ X1). apply Hl. by right. }
    exists s2. split_and!; [done|done|done|by etrans|].
    intros m [->|Hm]%elem_of_cons; [|by apply Hall]. split.
    + by apply (extends_visited _ _ X2).
    + intros Hc2. rewrite (extends_stack _ _ X2). by apply Hc, (extends_cycles _ _ X2).
Qed.
End visit.

(** The unvisited lock types bound the depth of the search. *)
Definition fuel_for (fuel : nat) (s : search) : Prop := (size (all ∖ visited s) ≤ fuel)%nat.

Lemma fuel_mono fuel s s' : visited s ⊆ visited s' → fuel_for fuel s → fuel_for fuel s'.
Proof.
  unfold fuel_for. intros Hv Hs. etrans; [|exact Hs]. apply subseteq_size. set_solver.
Qed.

Lemma fuel_enter fuel n s : value n ∈ all → value n ∉ visited s → fuel_for fuel s →
  ∃ fuel', fuel = S fuel' ∧ fuel_for fuel' (enter n s).
Proof.
  unfold fuel_for. cbn. intros Ha Hv Hs.
  set (rest := all ∖ ({[value n]} ∪ visited s)).
  assert (all ∖ visited s = {[value n]} ∪ rest) as E.
  { apply set_eq. intros x. unfold rest.
    rewrite elem_of_difference, elem_of_union, elem_of_difference, elem_of_union, elem_of_singleton.
    destruct (decide (x = value n)) as [->|]; tauto. }
  assert (value n ∉ rest) as Hn by (unfold rest; rewrite elem_of_difference, elem_of_union, elem_of_singleton; tauto).
  rewrite E, size_union, size_singleton in Hs by by apply disjoint_singleton_l.
  destruct fuel as [|fuel]; [lia|]. exists fuel. split; [done|lia].
Qed.

Lemma leave_ok n s s' : search_ok s → leads s (value n) → value n ∉ visited s →
  search_ok s' → extends (enter n s) s' →
  (cycles s' = [] → Acc (flip edge) (value n)) →
  search_ok (leave n s') ∧ extends s (leave n s').
Proof.
  intros Hok Hl Hnew [Hs Hv Hn Hp Hf Hr] [Xp Xs Xv Xc] Hacc.
  assert (value n ∉ on_stack s) as Hns by (intros H; by apply Hnew, (ok_visited _ Hok)).
  assert (removelast (path s') = path s) as Ep by (rewrite Xp; cbn; apply removelast_last).
  assert (on_stack s' ∖ {[value n]} = on_stack s) as Es by (rewrite Xs; cbn; set_solver).
  assert (leave n s' = {| visited := visited s'; on_stack := on_stack s; path := path s; cycles := cycles s' |})
    as -> by (unfold leave; by rewrite Ep, Es).
  split; [split|split]; cbn.
  - apply Hok.
  - etrans; [apply Hok|]. etrans; [|exact Xv]. apply union_subseteq_r.
  - apply Hok.
  - apply Hok.
  - intros Hc x Hx Hxs. destruct (decide (x = value n)) as [->|]; [by apply Hacc|].
    apply Hf; [exact Hc|exact Hx|]. rewrite Xs. cbn. by rewrite elem_of_union, elem_of_singleton; intros [].
  - exact Hr.
  - done.
  - done.
  - etrans; [|exact Xv]. apply union_subseteq_r.
  - exact Xc.
Qed.

Lemma dfs_ok fuel n s :
  fuel_for fuel s → search_ok s → value n ∈ all → value n ∉ visited s → leads s (value n) →
  ∃ s', dfs_cycle_detection edges fuel n s = Some s' ∧ search_ok s' ∧ extends s s' ∧ value n ∈ visited s'.
Proof.
  revert n s. induction fuel as [|fuel IH]; intros n s Hfuel Hok Ha Hnew Hl;
    destruct (fuel_enter _ n s Ha Hnew Hfuel) as (fuel' & [=] & Hfuel'); subst fuel'.
  cbn [dfs_cycle_detection].
  destruct (visit_all_ok (λ neighbor s,
      if negb (bool_decide (value neighbor ∈ visited s)) then dfs_cycle_detection edges fuel neighbor s
      else if bool_decide (value neighbor ∈ on_stack s) then Some (report neighbor s) else Some s)
    (fuel_for fuel) (neighbors edges (value n)) (enter n s)) as (s' & E & _ & Hok' & X & Hall).
  - intros m s1 Hm Hf1 Hok1 Hl1. pose proof (neighbors_edge _ _ Hm) as He.
    destruct (decide (value m ∈ visited s1)) as [Hin|Hin].
    + rewrite bool_decide_true by done. cbn [negb]. destruct (decide (value m ∈ on_stack s1)) as [Hst|Hst].
      * rewrite bool_decide_true by done. eexists. split_and!; [done|done|by apply report_ok| |done|].
        -- split; cbn; [done..|]. by intros []%app_nil.
        -- cbn. by intros []%app_nil.
      * rewrite bool_decide_false by done. exists s1. split_and!; done.
    + rewrite bool_decide_false by done. cbn [negb].
      destruct (IH m s1) as (s2 & E2 & Hok2 & X2 & Hin2); [done|done|by eapply edge_all|done|done|].
      exists s2. split_and!; [done|by eapply fuel_mono, Hf1; apply X2|done|done|done|].
      intros _. rewrite (extends_stack _ _ X2). intros H. by apply Hin, (ok_visited _ Hok1).
  - done.
  - by apply enter_ok.
  - intros m Hm a. cbn. rewrite last_snoc. intros [= <-]. by apply neighbors_edge.
  - rewrite E. cbn [mbind option_bind]. eexists. split; [done|].
    destruct (leave_ok n s s' Hok Hl Hnew Hok' X) as [H1 H2].
    { intros Hc. constructor. intros y Hy. destruct (edge_neighbor _ _ Hy) as (m & Hm & <-).
      destruct (Hall m Hm) as [Hv Hs]. apply (ok_finished _ Hok'); auto. }
    split_and!; [done|done|]. cbn. apply (extends_visited _ _ X). cbn. set_solver.
Qed.
End search.

Section nodes.
Context (edges : list (LockTypeId * LockTypeId)).

Lemma insert_new_seen l seen n : n ∈ seen → n ∈ insert_new l seen.
Proof.
  revert seen. induction l as [|m l IH]; intros seen Hn; cbn [insert_new]; [done|].
  apply IH. destruct (existsb _ seen); [done|]. apply elem_of_app. by left.
Qed.

Lemma insert_new_value l seen n : n ∈ l → ∃ m, m ∈ insert_new l seen ∧ value m = value n.
Proof.
  revert seen. induction l as [|m l IH]; intros seen; [by intros ?%not_elem_of_nil|].
  intros [->|Hn]%elem_of_cons; cbn [insert_new]; [|by apply IH].
  destruct (existsb _ seen) eqn:E.
  - apply existsb_exists in E as (k & Hk & Hv). exists k. split; [apply insert_new_seen; by apply list_elem_of_In|].
    by apply bool_decide_eq_true in Hv.
  - exists m. split; [|done]. apply insert_new_seen, elem_of_app. right. by apply list_elem_of_singleton.
Qed.

Lemma insert_new_from l seen n : n ∈ insert_new l seen → n ∈ l ∨ n ∈ seen.
Proof.
  revert seen. induction l as [|m l IH]; intros seen; cbn [insert_new]; [by right|].
  intros [Hn|Hn]%IH; [left; by right|]. destruct (existsb _ seen); [by right|].
  apply elem_of_app in Hn as [Hn| ->%list_elem_of_singleton]; [by right|left; by left].
Qed.

Lemma ends_value i l n :
  n ∈ concat (map (λ '(i, (a, b)), [{| at_edge := i; at_target := false; value := a |};
    {| at_edge := i; at_target := true; value := b |}]) (zip (seq i (length l)) l)) →
  value n ∈ l.*1 ++ l.*2.
Proof.
  revert i. induction l as [|[a b] l IH]; intros i; cbn; [by intros ?%not_elem_of_nil|].
  rewrite !elem_of_cons, !elem_of_app, elem_of_cons. intros [-> | [-> | Hn]]; cbn; [by auto..|].
  specialize (IH _ Hn). apply elem_of_app in IH as []; auto.
Qed.

Lemma value_ends i l x : x ∈ l.*1 ++ l.*2 →
  ∃ n, n ∈ concat (map (λ '(i, (a, b)), [{| at_edge := i; at_target := false; value := a |};
    {| at_edge := i; at_target := true; value := b |}]) (zip (seq i (length l)) l)) ∧ value n = x.
Proof.
  revert i. induction l as [|[a b] l IH]; intros i; cbn; [by intros ?%not_elem_of_nil|].
  rewrite elem_of_cons, elem_of_app, elem_of_cons.
  assert (x ∈ l.*1 ++ l.*2 → ∃ n, n ∈ {| at_edge := i; at_target := false; value := a |} ::
    {| at_edge := i; at_target := true; value := b |} :: concat (map (λ '(i, (a, b)),
      [{| at_edge := i; at_target := false; value := a |}; {| at_edge := i; at_target := true; value := b |}])
      (zip (seq (S i) (length l)) l)) ∧ value n = x) as Hl.
  { intros (n & Hn & Hv)%(IH (S i)). exists n. split; [|done]. do 2 right. exact Hn. }
  rewrite elem_of_app in Hl. intros [-> | [Hx | [-> | Hx]]]; [|auto| |auto].
  - eexists. split; [by left|done].
  - eexists. split; [right; by left|done].
Qed.

Lemma nodes_value n : n ∈ nodes edges → value n ∈ all edges.
Proof.
  intros [Hn|?%not_elem_of_nil]%insert_new_from; [|done]. unfold all. rewrite elem_of_list_to_set.
  by eapply ends_value.
Qed.

Lemma value_nodes x : x ∈ all edges → ∃ n, n ∈ nodes edges ∧ value n = x.
Proof.
  unfold all. rewrite elem_of_list_to_set. intros (n & Hn & <-)%(value_ends 0).
  destruct (insert_new_value _ [] n Hn) as (m & Hm & Hv). by exists m.
Qed.
End nodes.

(** Being on the way of a finished search excludes a cycle. *)
Lemma acc_no_cycle {A} (R : A → A → Prop) x : Acc (flip R) x → ¬ tc R x x.
Proof.
  induction 1 as [x _ IH]. intros Hx.
  assert (∃ y, R x y ∧ rtc R y x) as (y & Hy & Hyx).
  { inversion Hx as [? ? H|? y ? H Ht]; subst; [exists x; by split; [|constructor]|].
    exists y. split; [done|]. by apply tc_rtc. }
  apply (IH y Hy). by eapply tc_rtc_l; [|apply tc_once].
Qed.

(** The search, whatever the order in which the hash maps and sets are walked. *)
Lemma search_exact (edges : list (LockTypeId * LockTypeId)) (order : list node_ref → list node_ref)
    (fuel : nat) :
  (∀ l, order l ≡ₚ l) → (size (all edges) ≤ fuel)%nat →
  ∃ reports, detect_cycles edges order fuel = Some reports ∧
    (reports ≠ [] ↔ ∃ x, tc (edge edges) x x).
Proof.
  intros Horder Hfuel. unfold detect_cycles.
  destruct (visit_all_ok edges (search_from edges fuel)
    (λ s, fuel_for edges fuel s ∧ path s = []) (order (nodes edges)) start_search)
    as (s & E & [_ Hpath] & Hok & X & Hall).
  - intros n s Hn [Hf Hp] Hok _. unfold search_from.
    destruct (decide (value n ∈ visited s)) as [Hin|Hin].
    + rewrite bool_decide_true by done. exists s. split_and!; try done.
      intros _. rewrite (ok_stack _ _ Hok), Hp. by intros ?%not_elem_of_nil.
    + rewrite bool_decide_false by done. cbn [negb].
      destruct (dfs_ok edges fuel n s) as (s' & E' & Hok' & X' & Hv'); try done.
      { rewrite Horder in Hn. by apply nodes_value. }
      { intros z. by rewrite Hp. }
      exists s'. rewrite (extends_path _ _ X'). split_and!; try done.
      * eapply fuel_mono, Hf. apply X'.
      * intros _. rewrite (ok_stack _ _ Hok'), (extends_path _ _ X'), Hp. by intros ?%not_elem_of_nil.
  - split; [|done]. unfold fuel_for. cbn. by rewrite difference_empty_L.
  - split; cbn.
    + intros x. by rewrite elem_of_nil, elem_of_empty.
    + done.
    + constructor.
    + done.
    + intros _ x Hx. by apply not_elem_of_empty in Hx.
    + done.
  - intros n _ a. by cbn.
  - rewrite E. cbn [mbind option_bind]. exists (cycles s). split; [done|]. split; [apply (ok_reported _ _ Hok)|].
    intros [x Hx] Hc.
    assert (x ∈ all edges) as Hin.
    { inversion Hx as [? ? H|? y ? H Ht]; subst; apply (edge_all _ _ _ H). }
    apply value_nodes in Hin as (n & Hn & <-). rewrite <- Horder in Hn.
    destruct (Hall n Hn) as [Hv Hs]. apply (acc_no_cycle (edge edges) (value n)); [|exact Hx].
    apply (ok_finished _ _ Hok); auto.
Qed.

(** C15. The search for cycles is exact, in whatever order the hash maps and sets are
    walked: with as much fuel as there are lock types it ends, and it reports
    something exactly when some lock type reaches itself along the edges. *)
Theorem detect_cycles_exact (edges : list (LockTypeId * LockTypeId)) (order : list node_ref → list node_ref)
    (fuel : nat) :
  (∀ l, order l ≡ₚ l) → (size (all edges) ≤ fuel)%nat →
  ∃ reports, detect_cycles edges order fuel = Some reports ∧
    (reports ≠ [] ↔ ∃ x, tc (edge edges) x x).
Proof. exact (search_exact edges order fuel). Qed.

(** ** The check of an acquisition *)
Section verify.
Context (entries : gmap LockTypeId LockLevel → list (LockTypeId * LockLevel)).
Context (Hentries : ∀ m, entries m ≡ₚ map_to_list m).

Lemma would_violate_Some h level id l : would_violate entries h level = Some (id, l) →
  locks h !! id = Some l ∧ level ≤ l.
Proof using Hentries.
  unfold would_violate. intros H%head_Some_elem_of. apply list_elem_of_filter in H as [Hl H]. split; [|done].
  rewrite Hentries in H. by apply elem_of_map_to_list.
Qed.

Lemma would_violate_None h level : would_violate entries h level = None ↔
  ∀ id l, locks h !! id = Some l → l < level.
Proof using Hentries.
  unfold would_violate. split.
  - intros H%head_None id l Hid. destruct (decide (level ≤ l)) as [Hl|]; [|lia].
    assert ((id, l) ∈ filter (λ p, level ≤ p.2) (entries (locks h))) as Hin.
    { apply list_elem_of_filter. split; [done|]. rewrite Hentries. by apply elem_of_map_to_list. }
    rewrite H in Hin. by apply not_elem_of_nil in Hin.
  - intros H. destruct (head _) as [[id l]|] eqn:E; [|done].
    destruct (would_violate_Some h level id l E) as [Hid Hl]. specialize (H id l Hid). lia.
Qed.

(** What accepting says, whatever the configuration. *)
Lemma verify_accepts v h id loc :
  (verify_acquisition entries v h id loc).1 = Ok tt →
  match get_level (registry v) id with
  | Some level => ∀ other l, locks h !! other = Some l → l < level
  | None => require_levels (config v) = false ∧ strict_mode (config v) = false
  end.
Proof using Hentries.
  unfold verify_acquisition. destruct (get_level (registry v) id) as [level|] eqn:El.
  - destruct (would_violate entries h level) as [[held l]|] eqn:E; [done|]. intros _. by apply would_violate_None.
  - by destruct (require_levels (config v)), (strict_mode (config v)).
Qed.

Lemma verify_keeps v h id loc :
  let v' := (verify_acquisition entries v h id loc).2 in
  registry v' = registry v ∧ config v' = config v.
Proof using. unfold verify_acquisition. by repeat case_match. Qed.
End verify.

(** The check of an acquisition is exact.  A lock type with a level is accepted
    exactly when the level is above that of every lock held; the error of a refusal
    names a lock that is held at a level not below, and is recorded.  A lock type
    without a level is an error under [require_levels] or [strict_mode], which is
    not recorded, and accepted unseen otherwise.  Only an acceptance changes the
    graph, by edges from all locks held. *)
Theorem verify_acquisition_exact (entries : gmap LockTypeId LockLevel → list (LockTypeId * LockLevel))
    (v : LockOrderingVerifier) (h : HeldLocks) (id : LockTypeId) (loc : SourceLocation) :
  (∀ m, entries m ≡ₚ map_to_list m) →
  let '(r, v') := verify_acquisition entries v h id loc in
  match get_level (registry v) id with
  | Some level =>
      (r = Ok tt ↔ ∀ other l, locks h !! other = Some l → l < level) ∧
      (∀ e, r = Err e → violations v' = violations v ++ [e] ∧ graph v' = graph v ∧
         ∃ other l, locks h !! other = Some l ∧ level ≤ l ∧
           e = OrderViolation (qualified_name id) level (qualified_name other) l loc) ∧
      (r = Ok tt → violations v' = violations v ∧
         ∀ a b, (a, b) ∈ graph v' ↔ (a, b) ∈ graph v ∨
           detect_cycles_flag (config v) = true ∧ b = id ∧ is_Some (locks h !! a))
  | None =>
      v' = v ∧
      r = (if require_levels (config v) then Err (MissingLockLevel (qualified_name id))
           else if strict_mode (config v) then Err (UnknownLock (qualified_name id) loc) else Ok tt)
  end.
Proof.
  intros Hentries. unfold verify_acquisition.
  destruct (get_level (registry v) id) as [level|] eqn:El.
  - destruct (would_violate entries h level) as [[other l]|] eqn:E.
    + destruct (would_violate_Some entries Hentries h level other l E) as [Hother Hl]. split_and!.
      * split; [done|]. intros H. specialize (H other l Hother). lia.
      * intros e [= <-]. split_and!; [done..|]. by exists other, l.
      * done.
    + split_and!; [split; [|done]|done|].
      * intros _. by apply (would_violate_None entries Hentries).
      * intros _. destruct (detect_cycles_flag (config v)); cbn; split; [done| |done|naive_solver].
        intros a b. unfold add_edges. rewrite elem_of_union, elem_of_map.
        setoid_rewrite elem_of_dom. naive_solver.
  - by destruct (require_levels (config v)), (strict_mode (config v)).
Qed.

Definition lock_a := {| module := "cache"; name := "CacheLock" |}.
Definition lock_b := {| module := "db"; name := "DatabaseLock" |}.
Definition here := {| file := "main.vr"; line := 3; column := 5 |}.

Lemma detect_cycles_exact_witness :
  ∃ reports, detect_cycles [(lock_a, lock_b); (lock_b, lock_a)] reverse 2 = Some reports ∧
    (reports ≠ [] ↔ ∃ x, tc (edge [(lock_a, lock_b); (lock_b, lock_a)]) x x).
Proof.
  apply (detect_cycles_exact [(lock_a, lock_b); (lock_b, lock_a)] reverse 2).
  - intros l. apply reverse_Permutation.
  - vm_compute. lia.
Defined.

Lemma verify_acquisition_exact_witness :
  let v := {| registry := register (register ∅ lock_a 2 None) lock_b 1 None; graph := ∅; violations := [];
              config := {| require_levels := true; detect_cycles_flag := true; strict_mode := false |} |} in
  let '(r, v') := verify_acquisition map_to_list v (acquire no_locks lock_a 2) lock_b here in
  match get_level (registry v) lock_b with
  | Some level =>
      (r = Ok tt ↔ ∀ other l, locks (acquire no_locks lock_a 2) !! other = Some l → l < level) ∧
      (∀ e, r = Err e → violations v' = violations v ++ [e] ∧ graph v' = graph v ∧
         ∃ other l, locks (acquire no_locks lock_a 2) !! other = Some l ∧ level ≤ l ∧
           e = OrderViolation (qualified_name lock_b) level (qualified_name other) l here) ∧
      (r = Ok tt → violations v' = violations v ∧
         ∀ a b, (a, b) ∈ graph v' ↔ (a, b) ∈ graph v ∨
           detect_cycles_flag (config v) = true ∧ b = lock_b ∧ is_Some (locks (acquire no_locks lock_a 2) !! a))
  | None =>
      v' = v ∧
      r = (if require_levels (config v) then Err (MissingLockLevel (qualified_name lock_b))
           else if strict_mode (config v) then Err (UnknownLock (qualified_name lock_b) here) else Ok tt)
  end.
Proof. intros v. apply (verify_acquisition_exact map_to_list v). by intros m. Defined.

(** Two lock types that lead to each other.  The search finds the cycle, and reports
    one lock type: the reference in the path is the first to that lock type, the
    neighbour is another one, and the start of the cycle is looked for by address. *)
Lemma cycle_report_short : detect_cycles [(lock_a, lock_b); (lock_b, lock_a)] (λ l, l) 2 = Some [[lock_a]].
Proof. vm_compute. reflexivity. Qed.

(** A refusal for a missing level leaves the verifier valid. *)
Lemma missing_level_stays_valid entries h id loc c :
  require_levels c = true →
  let v := {| registry := ∅; graph := ∅; violations := []; config := c |} in
  (verify_acquisition entries v h id loc).1 = Err (MissingLockLevel (qualified_name id)) ∧
  is_valid (verify_acquisition entries v h id loc).2 = true.
Proof.
  intros Hc v. assert (get_level (registry v) id = None) as Hn by reflexivity.
  unfold verify_acquisition. rewrite Hn. cbn. by rewrite Hc.
Qed.

(** ** The graph of checked acquisitions *)
Section checked.
Context (entries : gmap LockTypeId LockLevel → list (LockTypeId * LockLevel)).
Context (Hentries : ∀ m, entries m ≡ₚ map_to_list m).

Definition checks (v : LockOrderingVerifier) (l : list (HeldLocks * LockTypeId * SourceLocation)) :
    LockOrderingVerifier :=
  foldl (λ v '(h, id, loc), (verify_acquisition entries v h id loc).2) v l.

(** A verifier that has checked nothing. *)
Definition with_registry (r : LockRegistry) (c : LockOrderingConfig) : LockOrderingVerifier :=
  {| registry := r; graph := ∅; violations := []; config := c |}.

(** The levels of the locks held are those registered. *)
Definition agrees (r : LockRegistry) (h : HeldLocks) : Prop :=
  ∀ id l, locks h !! id = Some l → get_level r id = Some l.

(** Every edge leads to a higher level. *)
Definition rising (r : LockRegistry) (g : gset (LockTypeId * LockTypeId)) : Prop :=
  ∀ a b, (a, b) ∈ g → ∃ la lb, get_level r a = Some la ∧ get_level r b = Some lb ∧ la < lb.

Lemma verify_rising v h id loc : agrees (registry v) h → rising (registry v) (graph v) →
  rising (registry v) (graph (verify_acquisition entries v h id loc).2).
Proof using Hentries.
  intros Hh Hg. unfold verify_acquisition. destruct (get_level (registry v) id) as [level|] eqn:El;
    [|by repeat case_match].
  destruct (would_violate entries h level) as [[held l]|] eqn:E; [done|].
  destruct (detect_cycles_flag (config v)); [|done]. cbn. intros a b. unfold add_edges.
  intros [Hin|Hin]%elem_of_union; [|by apply Hg].
  apply elem_of_map in Hin as (x & [= -> ->] & [l Hl]%elem_of_dom). exists l, level.
  split_and!; [by apply Hh|done|]. by eapply (would_violate_None entries Hentries); eauto.
Qed.

Lemma checks_rising l v : Forall (λ p, agrees (registry v) p.1.1) l → rising (registry v) (graph v) →
  rising (registry v) (graph (checks v l)).
Proof using Hentries.
  revert v. induction l as [|[[h id] loc] l IH]; intros v Hl Hg; [done|].
  apply Forall_cons in Hl as [Hh Hl]. cbn [checks foldl].
  destruct (verify_keeps entries v h id loc) as [Hr _]. rewrite <- Hr. apply IH; rewrite Hr; [done|].
  by apply verify_rising.
Qed.

Lemma rising_tc r g edges : (∀ p, p ∈ edges ↔ p ∈ g) → rising r g → ∀ a b, tc (edge edges) a b →
  ∃ la lb, get_level r a = Some la ∧ get_level r b = Some lb ∧ la < lb.
Proof using.
  intros He Hg a b. induction 1 as [a b H|a b c H _ IH].
  - by apply Hg, He.
  - destruct (Hg a b) as (la & lb & Ha & Hb & ?); [by apply He|].
    destruct IH as (lb' & lc & Hb' & Hc & ?). exists la, lc. split_and!; [done|done|]. simplify_eq. lia.
Qed.
End checked.

(** C16. Whatever acquisitions are checked, accepted or refused, the search finds no
    cycle in the graph they leave, as long as the levels of the locks held are those
    registered: cycles can only come from levels that disagree with the registry. *)
Theorem checked_graph_acyclic (entries : gmap LockTypeId LockLevel → list (LockTypeId * LockLevel))
    (order : list node_ref → list node_ref) (r : LockRegistry) (c : LockOrderingConfig)
    (l : list (HeldLocks * LockTypeId * SourceLocation)) (edges : list (LockTypeId * LockTypeId)) (fuel : nat) :
  (∀ m, entries m ≡ₚ map_to_list m) → (∀ l, order l ≡ₚ l) →
  Forall (λ p, agrees r p.1.1) l →
  (∀ p, p ∈ edges ↔ p ∈ graph (checks entries (with_registry r c) l)) →
  (size (all edges) ≤ fuel)%nat →
  detect_cycles edges order fuel = Some [].
Proof.
  intros Hentries Horder Hl Hedges Hfuel.
  destruct (search_exact edges order fuel Horder Hfuel) as (reports & -> & Hx). f_equal.
  destruct reports as [|x reports]; [done|]. exfalso.
  destruct Hx as [[y Hy] _]; [done|].
  pose proof (checks_rising entries Hentries l (with_registry r c) Hl ltac:(by intros a b ?%not_elem_of_empty)) as Hr.
  destruct (rising_tc r _ edges Hedges Hr y y Hy) as (? & ? & ? & ? & ?). simplify_eq. lia.
Qed.

Definition example_registry : LockRegistry := register (register ∅ lock_a 2 None) lock_b 1 None.
Definition default_config :=
  {| require_levels := true; detect_cycles_flag := true; strict_mode := false |}.

Lemma checked_graph_acyclic_witness : detect_cycles [(lock_b, lock_a)] reverse 2 = Some [].
Proof.
  apply (checked_graph_acyclic map_to_list reverse example_registry default_config
    [(acquire no_locks lock_b 1, lock_a, here); (acquire no_locks lock_a 2, lock_b, here)]).
  - by intros m.
  - intros l. apply reverse_Permutation.
  - repeat constructor; intros id l; cbn -[lookup insert lock_a lock_b example_registry];
      rewrite lookup_insert_Some, lookup_empty; by intros [[<- <-]|[_ ?]].
  - intros p. change (graph _) with ({[(lock_b, lock_a)]} ∪ ∅ : gset (LockTypeId * LockTypeId)).
    set_solver.
  - vm_compute. lia.
Defined.

(** ** Threads that ask before they lock *)

(** A thread: the locks it holds, by type, and the lock it waits for. *)
Record thread := { held : HeldLocks; waits : option nat }.
(** The threads, the owner of every lock that is taken, and the verifier. *)
Record world := { checker : LockOrderingVerifier; threads : gmap nat thread; owner : gmap nat nat }.

Section threads.
Context (entries : gmap LockTypeId LockLevel → list (LockTypeId * LockLevel)).
Context (Hentries : ∀ m, entries m ≡ₚ map_to_list m).
Context (type_of : nat → LockTypeId).
Context (r : LockRegistry) (c : LockOrderingConfig).
Context (Hstrict : require_levels c = true ∨ strict_mode c = true).

(** A thread asks for a lock when the check accepts it, gets it when it is free, and
    gives it back when it is not waiting itself. *)
Inductive step : world → world → Prop :=
| step_request w t th i loc v' :
    threads w !! t = Some th → waits th = None →
    verify_acquisition entries (checker w) (held th) (type_of i) loc = (Ok tt, v') →
    step w {| checker := v'; threads := <[t := {| held := held th; waits := Some i |}]> (threads w);
              owner := owner w |}
| step_grant w t th i level :
    threads w !! t = Some th → waits th = Some i → owner w !! i = None →
    get_level (registry (checker w)) (type_of i) = Some level →
    step w {| checker := checker w;
              threads := <[t := {| held := acquire (held th) (type_of i) level; waits := None |}]> (threads w);
              owner := <[i := t]> (owner w) |}
| step_release w t th i :
    threads w !! t = Some th → waits th = None → owner w !! i = Some t →
    step w {| checker := checker w;
              threads := <[t := {| held := release (held th) (type_of i); waits := None |}]> (threads w);
              owner := delete i (owner w) |}.

Definition idle : thread := {| held := no_locks; waits := None |}.
Definition initial (w : world) : Prop :=
  checker w = with_registry r c ∧ owner w = ∅ ∧ ∀ t th, threads w !! t = Some th → th = idle.
Definition reachable (w : world) : Prop := ∃ w0, initial w0 ∧ rtc step w0 w.

Definition level_of (i : nat) : option LockLevel := get_level r (type_of i).

Record world_ok (w : world) : Prop := {
  w_registry : registry (checker w) = r;
  w_config : config (checker w) = c;
  (** What a thread owns it holds, at the registered level, *)
  w_owner : ∀ i t, owner w !! i = Some t → ∃ th l, threads w !! t = Some th ∧
    level_of i = Some l ∧ locks (held th) !! type_of i = Some l;
  (** one lock of every type, *)
  w_distinct : ∀ i j t, owner w !! i = Some t → owner w !! j = Some t → type_of i = type_of j → i = j;
  (** and what it waits for is above all it holds. *)
  w_waits : ∀ t th i, threads w !! t = Some th → waits th = Some i → ∃ l, level_of i = Some l ∧
    ∀ id l', locks (held th) !! id = Some l' → l' < l;
}.

Lemma start_ok w : initial w → world_ok w.
Proof using.
  intros (Hc & Ho & Ht). split; rewrite ?Hc, ?Ho; [done|done|intros i t; by rewrite lookup_empty..|].
  intros t th i ->%Ht. done.
Qed.

Lemma request_ok w t th i loc v' : world_ok w → threads w !! t = Some th → waits th = None →
  verify_acquisition entries (checker w) (held th) (type_of i) loc = (Ok tt, v') →
  world_ok {| checker := v'; threads := <[t := {| held := held th; waits := Some i |}]> (threads w);
              owner := owner w |}.
Proof using Hentries Hstrict.
  intros [Hr Hc Ho Hd Hw] Ht _ Hv.
  destruct (verify_keeps entries (checker w) (held th) (type_of i) loc) as [Kr Kc].
  pose proof (verify_accepts entries Hentries (checker w) (held th) (type_of i) loc) as Ha.
  rewrite Hv in Kr, Kc, Ha. specialize (Ha eq_refl). cbn in Kr, Kc. rewrite Hr in Ha. rewrite Hc in Ha.
  split; cbn; [congruence|congruence| |done|].
  - intros j t' Hj. destruct (Ho j t' Hj) as (th' & l & Ht' & Hl & Hh).
    destruct (decide (t' = t)) as [->|]; [|exists th', l; by rewrite lookup_insert_ne].
    rewrite Ht in Ht'. injection Ht' as <-. eexists _, l. by rewrite lookup_insert_eq.
  - intros t' th' j Ht' Hj. apply lookup_insert_Some in Ht' as [[<- <-]|[_ Ht']]; [|by eapply Hw].
    cbn in Hj. injection Hj as <-. unfold level_of.
    destruct (get_level r (type_of i)) as [l|]; [by exists l|]. destruct Ha, Hstrict; congruence.
Qed.

Lemma grant_ok w t th i level : world_ok w → threads w !! t = Some th → waits th = Some i →
  owner w !! i = None → get_level (registry (checker w)) (type_of i) = Some level →
  world_ok {| checker := checker w;
              threads := <[t := {| held := acquire (held th) (type_of i) level; waits := None |}]> (threads w);
              owner := <[i := t]> (owner w) |}.
Proof using Hstrict.
  intros [Hr Hc Ho Hd Hw] Ht Hi Hfree Hl. rewrite Hr in Hl.
  destruct (Hw t th i Ht Hi) as (l & El & Habove). unfold level_of in El. rewrite Hl in El. injection El as <-.
  (** No lock of this type is owned by the thread: it would hold the level. *)
  assert (∀ j, owner w !! j = Some t → type_of j ≠ type_of i) as Hnew.
  { intros j (th' & l' & Ht' & El' & Hh)%Ho E. rewrite Ht in Ht'. injection Ht' as <-.
    apply Habove in Hh. unfold level_of in El'. rewrite E, Hl in El'. injection El' as <-. lia. }
  split; cbn; [done|done| | |].
  - intros j t' [[<- <-]|[Hj Hjo]]%lookup_insert_Some.
    + eexists _, level. rewrite lookup_insert_eq. split_and!; [done|done|]. cbn. by rewrite lookup_insert_eq.
    + destruct (Ho j t' Hjo) as (th' & l' & Ht' & El' & Hh).
      destruct (decide (t' = t)) as [->|]; [|exists th', l'; by rewrite lookup_insert_ne].
      rewrite Ht in Ht'. injection Ht' as <-. eexists _, l'. rewrite lookup_insert_eq.
      split_and!; [done|done|]. cbn. rewrite lookup_insert_ne; [done|]. by apply not_eq_sym, Hnew.
  - intros j k t' [[<- <-]|[Hj Hjo]]%lookup_insert_Some [[<- E]|[Hk Hko]]%lookup_insert_Some Eq; subst;
      [done|by destruct (Hnew _ Hko)|by destruct (Hnew _ Hjo)|by eapply Hd].
  - intros t' th' j [[<- <-]|[_ Ht']]%lookup_insert_Some Hj; [done|by eapply Hw].
Qed.

Lemma release_ok w t th i : world_ok w → threads w !! t = Some th → waits th = None →
  owner w !! i = Some t →
  world_ok {| checker := checker w;
              threads := <[t := {| held := release (held th) (type_of i); waits := None |}]> (threads w);
              owner := delete i (owner w) |}.
Proof using.
  intros [Hr Hc Ho Hd Hw] Ht Hi Hown. split; cbn; [done|done| | |].
  - intros j t' [Hj Hjo]%lookup_delete_Some. destruct (Ho j t' Hjo) as (th' & l & Ht' & El & Hh).
    destruct (decide (t' = t)) as [->|]; [|exists th', l; by rewrite lookup_insert_ne].
    rewrite Ht in Ht'. injection Ht' as <-. eexists _, l. rewrite lookup_insert_eq.
    split_and!; [done|done|]. cbn. rewrite lookup_delete_ne; [done|]. intros E. by apply Hj, (Hd i j t).
  - intros j k t' [_ Hj]%lookup_delete_Some [_ Hk]%lookup_delete_Some. by eapply Hd.
  - intros t' th' j [[<- <-]|[_ Ht']]%lookup_insert_Some Hj; [done|by eapply Hw].
Qed.

Lemma reachable_ok w : reachable w → world_ok w.
Proof using Hentries Hstrict.
  intros (w0 & Hw0%start_ok & Hsteps). induction Hsteps as [|w1 w2 w3 H _ IH]; [done|].
  apply IH. destruct H; by eauto using request_ok, grant_ok, release_ok.
Qed.

(** The level of the lock a thread waits for. *)
Definition waiting_level (w : world) (t : nat) : LockLevel :=
  default 0 (th ← threads w !! t; i ← waits th; level_of i).

Definition above (w : world) (a b : nat) : Prop := waiting_level w b < waiting_level w a.
#[local] Instance above_transitive w : Transitive (above w).
Proof using. intros a b e. unfold above. lia. Qed.
#[local] Instance above_decision w a b : Decision (above w a b).
Proof using. unfold above. apply _. Defined.

(** A thread that waits for a lock of a waiting thread waits below it. *)
Lemma waits_below w t th i t' th' j : world_ok w →
  threads w !! t = Some th → waits th = Some i → owner w !! i = Some t' →
  threads w !! t' = Some th' → waits th' = Some j → waiting_level w t < waiting_level w t'.
Proof using.
  intros [Hr Hc Ho Hd Hw] Ht Hi Hown Ht' Hj.
  destruct (Ho i t' Hown) as (th2 & l & Ht2 & El & Hh). rewrite Ht' in Ht2. injection Ht2 as <-.
  destruct (Hw t' th' j Ht' Hj) as (l' & El' & Habove). apply Habove in Hh.
  unfold waiting_level. rewrite Ht, Ht'. cbn. rewrite Hi, Hj. cbn. rewrite El, El'. done.
Qed.

(** In a set of waiting threads one waits for a lock nobody in the set owns. *)
Lemma highest_waits_outside w (d : gset nat) : world_ok w → d ≢ ∅ →
  (∀ t, t ∈ d → ∃ th i, threads w !! t = Some th ∧ waits th = Some i) →
  ∃ t th i, t ∈ d ∧ threads w !! t = Some th ∧ waits th = Some i ∧
    ∀ t', owner w !! i = Some t' → t' ∉ d.
Proof using Hstrict.
  intros Hok Hne Hd.
  destruct (minimal_exists_elem_of (above w) d) as (t & Ht & Hmin); [done|].
  destruct (Hd t Ht) as (th & i & Eth & Ei). exists t, th, i. split_and!; [done..|].
  intros t' Hown Hin. destruct (Hd t' Hin) as (th' & j & Eth' & Ej).
  pose proof (waits_below w t th i t' th' j Hok Eth Ei Hown Eth' Ej) as Hlt.
  specialize (Hmin t' Hin Hlt). unfold above in Hmin. lia.
Qed.
End threads.

(** C14. Threads that request a lock only when the check accepts the acquisition never
    wait in a circle: there is no set of waiting threads in which each waits for a
    lock owned in the set, in any interleaving of requests, grants and releases, as
    long as locks without a level are refused. *)
Theorem no_deadlock (entries : gmap LockTypeId LockLevel → list (LockTypeId * LockLevel))
    (type_of : nat → LockTypeId) (r : LockRegistry) (c : LockOrderingConfig) (w : world) (d : gset nat) :
  (∀ m, entries m ≡ₚ map_to_list m) → require_levels c = true ∨ strict_mode c = true →
  reachable entries type_of r c w → d ≢ ∅ →
  ¬ ∀ t, t ∈ d → ∃ th i t', threads w !! t = Some th ∧ waits th = Some i ∧ owner w !! i = Some t' ∧ t' ∈ d.
Proof.
  intros Hentries Hstrict Hw Hne Hd.
  destruct (highest_waits_outside type_of r c Hstrict w d) as (t & th & i & Ht & Eth & Ei & Hout);
    [by eapply reachable_ok|done| |].
  - intros t Ht. destruct (Hd t Ht) as (th & i & _ & ? & ? & _). eauto.
  - destruct (Hd t Ht) as (th' & j & t' & Eth' & Ej & Hown & Hin). simplify_eq. by apply (Hout t').
Qed.

(** C17. While some thread waits the system can go on: a thread that waits can be given
    its lock, or a thread that does not wait can release the lock it waits for. *)
Theorem waiting_progress (entries : gmap LockTypeId LockLevel → list (LockTypeId * LockLevel))
    (type_of : nat → LockTypeId) (r : LockRegistry) (c : LockOrderingConfig) (w : world) (t : nat) (th : thread) :
  (∀ m, entries m ≡ₚ map_to_list m) → require_levels c = true ∨ strict_mode c = true →
  reachable entries type_of r c w → threads w !! t = Some th → waits th ≠ None →
  ∃ t1 th1 i w', threads w !! t1 = Some th1 ∧ waits th1 = Some i ∧ step entries type_of w w' ∧
    (owner w' !! i = Some t1 ∨ owner w' !! i = None).
Proof.
  intros Hentries Hstrict Hr Ht Hwaits.
  pose proof (reachable_ok entries Hentries type_of r c Hstrict w Hr) as Hok.
  set (d := dom (filter (λ p, waits p.2 ≠ None) (threads w))).
  assert (∀ t, t ∈ d ↔ ∃ th, threads w !! t = Some th ∧ waits th ≠ None) as Hd.
  { intros x. unfold d. rewrite elem_of_dom. split.
    - intros [th' [? ?]%map_lookup_filter_Some]. eauto.
    - intros (th' & ? & ?). exists th'. by apply map_lookup_filter_Some. }
  destruct (highest_waits_outside type_of r c Hstrict w d Hok) as (t1 & th1 & i & Hin & Eth & Ei & Hout).
  - assert (t ∈ d) by (apply Hd; eauto). set_solver.
  - intros x (th' & ? & Hn)%Hd. destruct (waits th') as [j|] eqn:?; [|done]. eauto.
  - destruct (owner w !! i) as [t2|] eqn:Eo.
    + destruct (w_owner _ _ _ _ Hok i t2 Eo) as (th2 & l & Eth2 & _).
      eexists t1, th1, i, _. split_and!; [done|done| |].
      * eapply (step_release entries type_of w t2 th2 i); [done| |done].
        destruct (waits th2) as [j|] eqn:E2; [|done]. destruct (Hout t2 eq_refl). apply Hd. exists th2. by rewrite E2.
      * right. cbn. by rewrite lookup_delete_eq.
    + destruct (w_waits _ _ _ _ Hok t1 th1 i Eth Ei) as (l & El & _).
      eexists t1, th1, i, _. split_and!; [done|done| |].
      * eapply (step_grant entries type_of w t1 th1 i l); [done..|]. by rewrite (w_registry _ _ _ _ Hok).
      * left. cbn. by rewrite lookup_insert_eq.
Qed.

(** Thread 0 owns lock 0, thread 1 waits for it. *)
Definition types (i : nat) : LockTypeId := match i with O => lock_b | _ => lock_a end.
Definition asking : thread := {| held := no_locks; waits := Some 0%nat |}.
Definition owning : thread := {| held := acquire no_locks lock_b 1; waits := None |}.
Definition start_world : world :=
  {| checker := with_registry example_registry default_config; threads := <[0%nat := idle]> {[1%nat := idle]};
     owner := ∅ |}.
Definition example_world : world :=
  {| checker := with_registry example_registry default_config;
     threads := <[1%nat := asking]> (<[0%nat := owning]> (<[0%nat := asking]> (threads start_world)));
     owner := {[0%nat := 0%nat]} |}.

Lemma example_reachable : reachable map_to_list types example_registry default_config example_world.
Proof.
  exists start_world. split.
  - split_and!; [done..|]. intros t th. cbn. intros [[_ <-]|[_ [_ <-]%lookup_singleton_Some]]%lookup_insert_Some; done.
  - eapply rtc_l; [by apply (step_request map_to_list types _ 0 idle 0 here (checker start_world))|].
    eapply rtc_l; [by apply (step_grant map_to_list types _ 0 asking 0 1)|].
    eapply rtc_l; [by apply (step_request map_to_list types _ 1 idle 0 here (checker start_world))|].
    constructor.
Defined.

Lemma no_deadlock_witness :
  ¬ ∀ t, t ∈ ({[1%nat]} : gset nat) → ∃ th i t', threads example_world !! t = Some th ∧ waits th = Some i ∧
    owner example_world !! i = Some t' ∧ t' ∈ ({[1%nat]} : gset nat).
Proof.
  apply (no_deadlock map_to_list types example_registry default_config).
  - by intros m.
  - by left.
  - apply example_reachable.
  - apply non_empty_singleton.
Defined.

Lemma waiting_progress_witness :
  ∃ t1 th1 i w', threads example_world !! t1 = Some th1 ∧ waits th1 = Some i ∧
    step map_to_list types example_world w' ∧ (owner w' !! i = Some t1 ∨ owner w' !! i = None).
Proof.
  apply (waiting_progress map_to_list types example_registry default_config example_world 1 asking).
  - by intros m.
  - by left.
  - apply example_reachable.
  - reflexivity.
  - discriminate.
Defined.
