(* ===== verification/Cbgr.v ===== *)
(** * Headers of checked allocations

    [verum_common/src/cbgr.rs]: capabilities, the packed header of the interpreter's
    heap and the wide header of allocations, with the operations on their atomic
    words.  A call is a program that performs one atomic access per step, so that
    calls of several threads interleave; a call that runs alone is [run].  The
    interleavings are sequentially consistent; for a single word, as in the packed
    header, every memory ordering is. *)

From stdpp Require Import list.
From S2P Require Import Prelude Words.
Open Scope Z_scope.

Definition GEN_UNALLOCATED : Z := 0.
Definition GEN_INITIAL : Z := 1.
Definition GEN_MAX : Z := 0xFFFFFFFE.
Definition GEN_PERMANENT : Z := 2 ^ 32 - 1.

(** ** Capabilities *)
Module caps.
Definition READ : Z := Z.shiftl 1 0.
Definition WRITE : Z := Z.shiftl 1 1.
Definition EXECUTE : Z := Z.shiftl 1 2.
Definition DELEGATE : Z := Z.shiftl 1 3.
Definition REVOKE : Z := Z.shiftl 1 4.
Definition BORROWED : Z := Z.shiftl 1 5.
Definition MUTABLE : Z := Z.shiftl 1 6.
Definition NO_ESCAPE : Z := Z.shiftl 1 7.
Definition ALL : Z := Z.shiftl 1 8 - 1.
Definition MASK : Z := 0xFFFF.
Definition EPOCH_SHIFT : Z := 16.
Definition READ_ONLY : Z := Z.lor READ BORROWED.
Definition READ_WRITE : Z := Z.lor READ WRITE.
Definition EXCLUSIVE : Z := Z.lor (Z.lor READ WRITE) MUTABLE.
Definition OWNER : Z := Z.lor (Z.lor (Z.lor (Z.lor READ WRITE) MUTABLE) DELEGATE) REVOKE.
End caps.

Inductive Capability := NoCapability | ReadOnly | ReadWrite | Exclusive | Owner | AllCapabilities.

Definition capability_bits (c : Capability) : Z :=
  match c with
  | NoCapability => 0
  | ReadOnly => caps.READ_ONLY
  | ReadWrite => caps.READ_WRITE
  | Exclusive => caps.EXCLUSIVE
  | Owner => caps.OWNER
  | AllCapabilities => caps.ALL
  end.

Definition is_present (c : Capability) (bitfield : Z) : bool :=
  Z.land bitfield (capability_bits c) =? capability_bits c.
Definition has_flag (bitfield flag : Z) : bool := negb (Z.land bitfield flag =? 0).
Definition from_bits (bits : Z) : Capability :=
  let x := Z.land bits caps.MASK in
  if x =? 0 then NoCapability
  else if x =? caps.READ_ONLY then ReadOnly
  else if x =? caps.READ_WRITE then ReadWrite
  else if x =? caps.EXCLUSIVE then Exclusive
  else if x =? caps.OWNER then Owner
  else if x =? caps.ALL then AllCapabilities
  else NoCapability.

Inductive CbgrErrorCode :=
| Success | GenerationMismatch | EpochMismatch | ExpiredReference
| NullPointer | OutOfBounds | AllocationFailed | InvalidAlignment.

#[export] Instance CbgrErrorCode_eq_dec : EqDecision CbgrErrorCode.
Proof. solve_decision. Defined.

Definition error_as_u32 (c : CbgrErrorCode) : Z :=
  match c with
  | Success => 0 | GenerationMismatch => 1 | EpochMismatch => 2 | ExpiredReference => 3
  | NullPointer => 4 | OutOfBounds => 5 | AllocationFailed => 6 | InvalidAlignment => 7
  end.
Definition is_success (c : CbgrErrorCode) : bool := match c with Success => true | _ => false end.

(** The answer of a call. *)
Inductive answer := Generation (g : Z) | Code (c : CbgrErrorCode) | Done.

(** ** The global epoch *)
Definition truncate_epoch (global_epoch : Z) : Z := Z.land global_epoch 0xFFFF.
Definition advance_epoch (global_epoch : Z) : Z := wrap 64 (global_epoch + 1).

(** ** The packed header: generation, epoch and capabilities in one word *)
Module CbgrHeader.
Definition SIZE : Z := 8.

Definition pack (generation epoch_caps : Z) : Z := Z.lor (Z.shiftl generation 32) epoch_caps.
Definition unpack_generation (packed : Z) : Z := wrap 32 (Z.shiftr packed 32).
Definition unpack_epoch_caps (packed : Z) : Z := wrap 32 packed.

Definition epoch_caps_of (epoch capabilities : Z) : Z :=
  Z.lor (wrap 32 (Z.shiftl epoch caps.EPOCH_SHIFT)) capabilities.
Definition new (epoch : Z) : Z := pack GEN_INITIAL (epoch_caps_of epoch caps.READ_WRITE).
Definition with_generation (epoch generation capabilities : Z) : Z :=
  pack generation (epoch_caps_of epoch (Z.land capabilities caps.MASK)).

Definition generation (packed : Z) : Z := unpack_generation packed.
Definition epoch (packed : Z) : Z := Z.shiftr (unpack_epoch_caps packed) caps.EPOCH_SHIFT.
Definition capabilities (packed : Z) : Z := Z.land (unpack_epoch_caps packed) caps.MASK.
Definition is_valid (packed : Z) : bool := negb (unpack_generation packed =? GEN_UNALLOCATED).

(** What [validate] decides from the word it loads. *)
Definition validate_word (packed expected_gen expected_epoch : Z) : CbgrErrorCode :=
  let actual_gen := unpack_generation packed in
  if actual_gen =? GEN_UNALLOCATED then ExpiredReference
  else if negb (actual_gen =? expected_gen) then GenerationMismatch
  else
    let actual_epoch := Z.shiftr (unpack_epoch_caps packed) caps.EPOCH_SHIFT in
    if negb (actual_epoch =? expected_epoch) then EpochMismatch else Success.

(** The word and the global epoch. *)
Record memory := { packed : Z; GLOBAL_EPOCH : Z }.
Definition store (m : memory) (word : Z) : memory := {| packed := word; GLOBAL_EPOCH := GLOBAL_EPOCH m |}.

(** A call, by the next atomic access it makes. *)
Inductive call :=
| increment_load
| increment_epoch (old_packed : Z)
| increment_reset (old_packed new_packed : Z)
| increment_advance
| increment_next (old_packed : Z)
| validate_load (expected_gen expected_epoch : Z)
| invalidate_load
| invalidate_store (epoch_caps : Z)
| returned (r : answer).

Definition increment_generation : call := increment_load.
Definition validate : Z → Z → call := validate_load.
Definition invalidate : call := invalidate_load.

Definition call_step (c : call) (m : memory) : option (call * memory) :=
  match c with
  | increment_load =>
      let old_packed := packed m in
      if GEN_MAX <=? unpack_generation old_packed then Some (increment_epoch old_packed, m)
      else Some (increment_next old_packed, m)
  | increment_epoch old_packed =>
      let old_epoch_caps := unpack_epoch_caps old_packed in
      let capabilities := Z.land old_epoch_caps caps.MASK in
      let new_epoch := truncate_epoch (GLOBAL_EPOCH m) in
      Some (increment_reset old_packed (pack GEN_INITIAL (epoch_caps_of new_epoch capabilities)), m)
  | increment_reset old_packed new_packed =>
      if packed m =? old_packed then Some (increment_advance, store m new_packed)
      else Some (returned (Generation GEN_INITIAL), m)
  | increment_advance =>
      Some (returned (Generation GEN_INITIAL),
            {| packed := packed m; GLOBAL_EPOCH := advance_epoch (GLOBAL_EPOCH m) |})
  | increment_next old_packed =>
      if packed m =? old_packed
      then Some (returned (Generation (unpack_generation old_packed + 1)),
                 store m (wrap 64 (old_packed + Z.shiftl 1 32)))
      else Some (increment_load, m)
  | validate_load expected_gen expected_epoch =>
      Some (returned (Code (validate_word (packed m) expected_gen expected_epoch)), m)
  | invalidate_load => Some (invalidate_store (unpack_epoch_caps (packed m)), m)
  | invalidate_store epoch_caps => Some (returned Done, store m (pack GEN_UNALLOCATED epoch_caps))
  | returned _ => None
  end.

(** A call alone, for at most [fuel] accesses. *)
Fixpoint run (fuel : nat) (c : call) (m : memory) : option (answer * memory) :=
  match c, fuel with
  | returned r, _ => Some (r, m)
  | _, O => None
  | _, S fuel => p ← call_step c m; run fuel p.1 p.2
  end.

(** Calls of several threads on one header.  Other headers advance the epoch. *)
Inductive thread_step : memory * list call → memory * list call → Prop :=
| thread_access i c c' m m' calls : calls !! i = Some c → call_step c m = Some (c', m') →
    thread_step (m, calls) (m', <[i := c']> calls).
Inductive step : memory * list call → memory * list call → Prop :=
| step_thread w w' : thread_step w w' → step w w'
| step_epoch m calls :
    step (m, calls) ({| packed := packed m; GLOBAL_EPOCH := advance_epoch (GLOBAL_EPOCH m) |}, calls).
End CbgrHeader.

(** ** The wide header: one word for each field *)
Module AllocationHeader.
Definition SIZE : Z := 32.
Definition ALIGN : Z := 32.

Record AllocationHeader := {
  size : Z; alignment : Z; base_offset : Z; generation : Z; epoch : Z; capabilities : Z;
  type_id : Z; flags : Z; ref_count : Z; total : Z;
}.

Definition new (global_epoch size alignment type_id capabilities : Z) : AllocationHeader :=
  {| size := size; alignment := wrap 16 alignment; base_offset := 0; generation := GEN_INITIAL;
     epoch := truncate_epoch global_epoch; capabilities := capabilities; type_id := type_id; flags := 0;
     ref_count := 1; total := 0 |}.
Definition with_capability (global_epoch size alignment type_id : Z) (cap : Capability) : AllocationHeader :=
  new global_epoch size alignment type_id (wrap 16 (capability_bits cap)).

Definition store_generation (h : AllocationHeader) (g : Z) : AllocationHeader :=
  {| size := size h; alignment := alignment h; base_offset := base_offset h; generation := g;
     epoch := epoch h; capabilities := capabilities h; type_id := type_id h; flags := flags h;
     ref_count := ref_count h; total := total h |}.
Definition store_epoch (h : AllocationHeader) (e : Z) : AllocationHeader :=
  {| size := size h; alignment := alignment h; base_offset := base_offset h; generation := generation h;
     epoch := e; capabilities := capabilities h; type_id := type_id h; flags := flags h;
     ref_count := ref_count h; total := total h |}.
Definition store_capabilities (h : AllocationHeader) (c : Z) : AllocationHeader :=
  {| size := size h; alignment := alignment h; base_offset := base_offset h; generation := generation h;
     epoch := epoch h; capabilities := c; type_id := type_id h; flags := flags h;
     ref_count := ref_count h; total := total h |}.
Definition is_valid (h : AllocationHeader) : bool := negb (generation h =? GEN_UNALLOCATED).
Definition total_size (h : AllocationHeader) : Z := SIZE + size h.

(** The header before user data, and back. *)
Definition try_from_user_ptr (user_ptr : Z) : option Z :=
  if user_ptr =? 0 then None else Some (user_ptr - SIZE).
Definition user_ptr (header_ptr : Z) : Z := header_ptr + SIZE.

Record memory := { header : AllocationHeader; GLOBAL_EPOCH : Z }.
Definition set_header (m : memory) (h : AllocationHeader) : memory :=
  {| header := h; GLOBAL_EPOCH := GLOBAL_EPOCH m |}.

Inductive call :=
| increment_load
| increment_reset (old_gen : Z)
| increment_advance
| increment_epoch
| increment_store (epoch : Z)
| increment_next (old_gen : Z)
| validate_generation (expected_gen expected_epoch : Z)
| validate_epoch (actual_gen expected_epoch : Z)
| validate_recheck (actual_gen : Z)
| invalidate_store
| returned (r : answer).

Definition increment_generation : call := increment_load.
Definition validate : Z → Z → call := validate_generation.
Definition invalidate : call := invalidate_store.

Definition call_step (c : call) (m : memory) : option (call * memory) :=
  let h := header m in
  match c with
  | increment_load =>
      if GEN_MAX <=? generation h then Some (increment_reset (generation h), m)
      else Some (increment_next (generation h), m)
  | increment_reset old_gen =>
      if generation h =? old_gen then Some (increment_advance, set_header m (store_generation h GEN_INITIAL))
      else Some (returned (Generation GEN_INITIAL), m)
  | increment_advance =>
      Some (increment_epoch, {| header := h; GLOBAL_EPOCH := advance_epoch (GLOBAL_EPOCH m) |})
  | increment_epoch => Some (increment_store (truncate_epoch (GLOBAL_EPOCH m)), m)
  | increment_store epoch => Some (returned (Generation GEN_INITIAL), set_header m (store_epoch h epoch))
  | increment_next old_gen =>
      if generation h =? old_gen
      then Some (returned (Generation (old_gen + 1)), set_header m (store_generation h (old_gen + 1)))
      else Some (increment_load, m)
  | validate_generation expected_gen expected_epoch =>
      let actual_gen := generation h in
      if actual_gen =? GEN_UNALLOCATED then Some (returned (Code ExpiredReference), m)
      else if negb (actual_gen =? expected_gen) then Some (returned (Code GenerationMismatch), m)
      else Some (validate_epoch actual_gen expected_epoch, m)
  | validate_epoch actual_gen expected_epoch =>
      if negb (epoch h =? expected_epoch) then Some (returned (Code EpochMismatch), m)
      else Some (validate_recheck actual_gen, m)
  | validate_recheck actual_gen =>
      if negb (generation h =? actual_gen) then Some (returned (Code GenerationMismatch), m)
      else Some (returned (Code Success), m)
  | invalidate_store => Some (returned Done, set_header m (store_generation h GEN_UNALLOCATED))
  | returned _ => None
  end.

Fixpoint run (fuel : nat) (c : call) (m : memory) : option (answer * memory) :=
  match c, fuel with
  | returned r, _ => Some (r, m)
  | _, O => None
  | _, S fuel => p ← call_step c m; run fuel p.1 p.2
  end.

Inductive thread_step : memory * list call → memory * list call → Prop :=
| thread_access i c c' m m' calls : calls !! i = Some c → call_step c m = Some (c', m') →
    thread_step (m, calls) (m', <[i := c']> calls).
Inductive step : memory * list call → memory * list call → Prop :=
| step_thread w w' : thread_step w w' → step w w'
| step_epoch m calls :
    step (m, calls) ({| header := header m; GLOBAL_EPOCH := advance_epoch (GLOBAL_EPOCH m) |}, calls).
End AllocationHeader.

(** ** Allocation *)

(** [usize::is_power_of_two]. *)
Definition is_power_of_two (z : Z) : bool := (0 <? z) && (z =? 2 ^ Z.log2 z).

(** [Layout::from_size_align]: the size rounded up must not exceed [isize::MAX]. *)
Definition from_size_align (size align : Z) : option (Z * Z) :=
  if is_power_of_two align && (size <=? 2 ^ 63 - align) then Some (size, align) else None.

Section alloc.
(** The allocator: the address of a zeroed block for a layout, or null. *)
Context (alloc_zeroed : Z → Z → option Z).

(** The address of the user data and the header word before it; [usize] additions
    wrap as in a release build. *)
Definition tracked_alloc_zeroed (size align : Z) : outcome CbgrErrorCode (Z * Z) :=
  if negb (is_power_of_two align) || (align =? 0) then Err InvalidAlignment
  else
    let total_size := wrap 64 (CbgrHeader.SIZE + size) in
    let actual_align := Z.max align 8 in
    match from_size_align total_size actual_align with
    | None => Err AllocationFailed
    | Some (size, align) =>
        match alloc_zeroed size align with
        | None => Err AllocationFailed
        | Some base_ptr => Ok (base_ptr + CbgrHeader.SIZE, CbgrHeader.new 0)
        end
    end.
End alloc.

(** Marks the header only. *)
Definition tracked_dealloc : CbgrHeader.call := CbgrHeader.invalidate.
