(* ===== verification/CbgrFacts.v ===== *)
(** * Headers of checked allocations: facts

    When a stale reference is refused, after any number of increments of either
    header; what concurrent increments return and that they end; that an invalid
    header stays invalid without them; what an allocation gives. *)

From stdpp Require Import list relations.
From S2P Require Import Prelude Words Cbgr.
Open Scope Z_scope.

Import CbgrHeader.

(** ** The packed word *)

(** The word of a generation, an epoch and capabilities. *)
Definition word (g e c : Z) : Z := g * 2 ^ 32 + (e * 2 ^ 16 + c).
Definition fields_ok (g e c : Z) : Prop := is_u 32 g ∧ is_u 16 e ∧ is_u 16 c.

Lemma epoch_caps_of_eq e c : is_u 16 e → is_u 16 c → epoch_caps_of e c = e * 2 ^ 16 + c.
Proof.
  unfold is_u, epoch_caps_of, caps.EPOCH_SHIFT. intros He Hc.
  rewrite wrap_id by (unfold is_u; rewrite Z.shiftl_mul_pow2; lia).
  rewrite Z.lor_comm, lor_shiftl by lia. lia.
Qed.

Lemma pack_eq g ec : is_u 32 ec → pack g ec = g * 2 ^ 32 + ec.
Proof. intros H. unfold pack. rewrite Z.lor_comm, lor_shiftl by (unfold is_u in H; lia). lia. Qed.

Lemma unpack_generation_eq g ec : is_u 32 g → is_u 32 ec → unpack_generation (g * 2 ^ 32 + ec) = g.
Proof.
  unfold is_u. intros Hg Hec. unfold unpack_generation. rewrite shiftr_div by lia.
  rewrite Z.div_add_l, Z.div_small by lia. rewrite Z.add_0_r. by apply wrap_id.
Qed.
Lemma unpack_epoch_caps_eq g ec : is_u 32 ec → unpack_epoch_caps (g * 2 ^ 32 + ec) = ec.
Proof.
  unfold is_u. intros Hec. unfold unpack_epoch_caps. rewrite Z.add_comm, wrap_shift by lia. by apply wrap_id.
Qed.

Lemma lower_ok e c : is_u 16 e → is_u 16 c → is_u 32 (e * 2 ^ 16 + c).
Proof. unfold is_u. lia. Qed.

Section word.
Context (g e c : Z) (Hok : fields_ok g e c).

Lemma generation_word : unpack_generation (word g e c) = g.
Proof using Hok. destruct Hok as (?&?&?). by apply unpack_generation_eq, lower_ok. Qed.
Lemma caps_word : unpack_epoch_caps (word g e c) = e * 2 ^ 16 + c.
Proof using Hok. destruct Hok as (?&?&?). by apply unpack_epoch_caps_eq, lower_ok. Qed.
Lemma epoch_word : Z.shiftr (unpack_epoch_caps (word g e c)) caps.EPOCH_SHIFT = e.
Proof using Hok.
  rewrite caps_word. destruct Hok as (?&?&Hc). unfold caps.EPOCH_SHIFT, is_u in *.
  rewrite shiftr_div, Z.div_add_l, Z.div_small by lia. lia.
Qed.
Lemma capabilities_word : Z.land (unpack_epoch_caps (word g e c)) caps.MASK = c.
Proof using Hok.
  rewrite caps_word. destruct Hok as (?&?&Hc). change caps.MASK with (2 ^ 16 - 1). unfold is_u in *.
  rewrite land_mask, Z.add_comm, Z.mod_add by lia. by apply Z.mod_small.
Qed.
Lemma next_word : g < 2 ^ 32 - 1 → wrap 64 (word g e c + Z.shiftl 1 32) = word (g + 1) e c.
Proof using Hok.
  intros Hg. destruct Hok as (?&?&?). unfold is_u in *. rewrite Z.shiftl_mul_pow2 by lia.
  rewrite wrap_id by (unfold is_u, word; lia). unfold word. lia.
Qed.
Lemma validate_fields gen epoch : validate_word (word g e c) gen epoch =
  if g =? 0 then ExpiredReference else if negb (g =? gen) then GenerationMismatch
  else if negb (e =? epoch) then EpochMismatch else Success.
Proof using Hok. unfold validate_word. by rewrite generation_word, epoch_word. Qed.
End word.

Lemma fields_exist packed : is_u 64 packed → ∃ g e c, fields_ok g e c ∧ packed = word g e c.
Proof.
  intros H. exists (packed / 2 ^ 32), (packed / 2 ^ 16 mod 2 ^ 16), (packed mod 2 ^ 16).
  unfold fields_ok, is_u, word in *.
  assert (packed / 2 ^ 16 / 2 ^ 16 = packed / 2 ^ 32) as E by (rewrite Z.div_div by lia; f_equal; lia).
  pose proof (Z.div_mod packed (2 ^ 16)). pose proof (Z.div_mod (packed / 2 ^ 16) (2 ^ 16)).
  pose proof (Z.mod_pos_bound packed (2 ^ 16)). pose proof (Z.mod_pos_bound (packed / 2 ^ 16) (2 ^ 16)).
  assert (packed / 2 ^ 32 < 2 ^ 32) by (apply Z.div_lt_upper_bound; lia).
  assert (0 ≤ packed / 2 ^ 32) by (apply Z.div_pos; lia). lia.
Qed.

(** The fields of a header are those it is made with, truncated to their widths, and
    validation compares all bits of generation and epoch, in this order: an
    unallocated header is expired, then the generation is compared, then the epoch. *)
Theorem header_exact (epoch0 generation0 capabilities0 gen ep : Z) :
  is_u 32 generation0 → is_u 32 epoch0 → is_u 32 capabilities0 →
  let h := with_generation epoch0 generation0 capabilities0 in
  generation h = generation0 ∧ epoch h = wrap 16 epoch0 ∧ capabilities h = wrap 16 capabilities0 ∧
  (is_valid h = true ↔ generation0 ≠ GEN_UNALLOCATED) ∧
  validate_word h gen ep =
    (if generation0 =? GEN_UNALLOCATED then ExpiredReference
     else if negb (generation0 =? gen) then GenerationMismatch
     else if negb (wrap 16 epoch0 =? ep) then EpochMismatch else Success).
Proof.
  intros Hg He Hc h.
  assert (h = word generation0 (wrap 16 epoch0) (wrap 16 capabilities0)) as ->.
  { unfold h, with_generation, epoch_caps_of. change caps.MASK with (2 ^ 16 - 1). rewrite land_mask by lia.
    assert (wrap 32 (Z.shiftl epoch0 caps.EPOCH_SHIFT) = Z.shiftl (wrap 16 epoch0) 16) as ->.
    { unfold caps.EPOCH_SHIFT. rewrite !Z.shiftl_mul_pow2 by lia. unfold wrap.
      replace (2 ^ 32) with (2 ^ 16 * 2 ^ 16) by lia. by rewrite Z.mul_mod_distr_r by lia. }
    rewrite Z.lor_comm, lor_shiftl by (pose proof (Z.mod_pos_bound capabilities0 (2 ^ 16)); lia).
    pose proof (wrap_range 16 epoch0). pose proof (wrap_range 16 capabilities0).
    rewrite pack_eq by (unfold is_u, wrap in *; lia). unfold word, wrap. lia. }
  assert (fields_ok generation0 (wrap 16 epoch0) (wrap 16 capabilities0)) as Hok
    by (split_and!; [done|apply wrap_range; lia..]).
  split_and!.
  - by apply generation_word.
  - by apply epoch_word.
  - by apply capabilities_word.
  - unfold is_valid. rewrite generation_word by done. unfold GEN_UNALLOCATED.
    destruct (Z.eqb_spec generation0 0); cbn; naive_solver.
  - by apply validate_fields.
Qed.

Lemma header_exact_witness :
  let h := with_generation (2 ^ 16 + 3) 7 (2 ^ 16 + 5) in
  generation h = 7 ∧ epoch h = wrap 16 (2 ^ 16 + 3) ∧ capabilities h = wrap 16 (2 ^ 16 + 5) ∧
  (is_valid h = true ↔ 7 ≠ GEN_UNALLOCATED) ∧
  validate_word h 7 3 =
    (if 7 =? GEN_UNALLOCATED then ExpiredReference
     else if negb (7 =? 7) then GenerationMismatch
     else if negb (wrap 16 (2 ^ 16 + 3) =? 3) then EpochMismatch else Success).
Proof. apply (header_exact (2 ^ 16 + 3) 7 (2 ^ 16 + 5) 7 3); unfold is_u; lia. Defined.

(** ** One thread *)

(** [n] increments, one after the other. *)
Fixpoint increments (n : nat) (m : memory) : option memory :=
  match n with
  | O => Some m
  | S n => m' ← increments n m; p ← run 4 increment_generation m'; Some p.2
  end.

Lemma run_increment g e c E : fields_ok g e c → g < GEN_MAX →
  run 4 increment_generation {| packed := word g e c; GLOBAL_EPOCH := E |} =
  Some (Generation (g + 1), {| packed := word (g + 1) e c; GLOBAL_EPOCH := E |}).
Proof.
  intros Hok Hg. cbn [run call_step increment_generation mbind option_bind packed].
  rewrite generation_word by assumption. rewrite (proj2 (Z.leb_gt _ _)) by assumption.
  cbn [run call_step mbind option_bind packed fst snd]. rewrite Z.eqb_refl.
  assert (g < 2 ^ 32 - 1) by (unfold GEN_MAX in Hg; lia).
  rewrite generation_word, next_word by assumption. reflexivity.
Qed.

Lemma run_increment_max g e c E : fields_ok g e c → GEN_MAX ≤ g →
  run 4 increment_generation {| packed := word g e c; GLOBAL_EPOCH := E |} =
  Some (Generation GEN_INITIAL, {| packed := word 1 (wrap 16 E) c; GLOBAL_EPOCH := advance_epoch E |}).
Proof.
  intros Hok Hg. cbn [run call_step increment_generation mbind option_bind packed].
  rewrite generation_word by assumption. rewrite (proj2 (Z.leb_le _ _)) by assumption.
  cbn [run call_step mbind option_bind packed fst snd GLOBAL_EPOCH]. rewrite Z.eqb_refl.
  cbn [run call_step mbind option_bind packed fst snd GLOBAL_EPOCH store]. do 3 f_equal.
  rewrite capabilities_word by assumption. unfold truncate_epoch. change 0xFFFF with (2 ^ 16 - 1).
  rewrite land_mask by lia. destruct Hok as (_ & _ & Hc). pose proof (wrap_range 16 E).
  change (E mod 2 ^ 16) with (wrap 16 E).
  rewrite epoch_caps_of_eq by auto with lia. rewrite pack_eq by (unfold is_u in *; lia).
  unfold word. reflexivity.
Qed.

(** The epoch in the header after [k] wrap-arounds: the first stores the epoch that
    was current before it. *)
Definition epoch_after (e E k : Z) : Z := if k =? 0 then e else wrap 16 (E + k - 1).

Lemma laps_step n : 0 ≤ n → n mod GEN_MAX < GEN_MAX - 1 →
  (n + 1) mod GEN_MAX = n mod GEN_MAX + 1 ∧ (n + 1) / GEN_MAX = n / GEN_MAX.
Proof.
  intros Hn Hm. pose proof (Z.div_mod n GEN_MAX ltac:(done)). pose proof (Z.mod_pos_bound n GEN_MAX ltac:(done)).
  split; symmetry; [eapply (Z.mod_unique _ _ (n / GEN_MAX))|eapply (Z.div_unique _ _ _ (n mod GEN_MAX + 1))]; lia.
Qed.
Lemma laps_wrap n : 0 ≤ n → n mod GEN_MAX = GEN_MAX - 1 →
  (n + 1) mod GEN_MAX = 0 ∧ (n + 1) / GEN_MAX = n / GEN_MAX + 1.
Proof.
  intros Hn Hm. pose proof (Z.div_mod n GEN_MAX ltac:(done)). unfold GEN_MAX in *.
  split; symmetry; [eapply (Z.mod_unique _ _ (n / 4294967294 + 1))|eapply (Z.div_unique _ _ _ 0)]; lia.
Qed.
Lemma mod_below n : 0 ≤ n mod GEN_MAX < GEN_MAX.
Proof. by apply Z.mod_pos_bound. Qed.

Lemma epoch_after_ok e E k : is_u 16 e → is_u 16 (epoch_after e E k).
Proof. intros He. unfold epoch_after. destruct (k =? 0); [done|]. apply wrap_range. lia. Qed.

(** The header after any number of increments of a new one. *)
Lemma increments_exact n e c E : is_u 16 e → is_u 16 c → is_u 64 E →
  let k := Z.of_nat n / GEN_MAX in
  increments n {| packed := word 1 e c; GLOBAL_EPOCH := E |} =
  Some {| packed := word (1 + Z.of_nat n mod GEN_MAX) (epoch_after e E k) c; GLOBAL_EPOCH := wrap 64 (E + k) |}.
Proof.
  intros He Hc HE. induction n as [|n IH]; intros k.
  - cbn [increments]. unfold k. change (Z.of_nat 0 / GEN_MAX) with 0. change (Z.of_nat 0 mod GEN_MAX) with 0.
    rewrite !Z.add_0_r, wrap_id by assumption. reflexivity.
  - cbn [increments]. rewrite IH. cbn [mbind option_bind].
    set (i := Z.of_nat n) in *. assert (Z.of_nat (S n) = i + 1) as Ei by lia. unfold k. rewrite Ei.
    pose proof (mod_below i) as Hm.
    assert (fields_ok (1 + i mod GEN_MAX) (epoch_after e E (i / GEN_MAX)) c) as Hok.
    { split_and!; [unfold is_u, GEN_MAX in *; lia|by apply epoch_after_ok|done]. }
    destruct (decide (i mod GEN_MAX < GEN_MAX - 1)) as [Hlt|Hge].
    + destruct (laps_step i) as [-> ->]; [lia|done|].
      rewrite run_increment by (done || lia). cbn. do 2 f_equal. f_equal. lia.
    + destruct (laps_wrap i) as [-> ->]; [lia|lia|].
      rewrite run_increment_max by (done || lia). cbn [mbind option_bind snd]. do 2 f_equal.
      * f_equal. unfold epoch_after. pose proof (Z.div_pos i GEN_MAX ltac:(lia) ltac:(done)).
        rewrite (proj2 (Z.eqb_neq _ _)) by lia. unfold wrap.
        rewrite Z.mod_mod_divide by (exists (2 ^ 48); lia). f_equal. lia.
      * unfold advance_epoch, wrap. rewrite Zplus_mod_idemp_l. f_equal. lia.
Qed.

Lemma new_word e : is_u 16 e → new e = word 1 e 3.
Proof.
  intros He. unfold new. change caps.READ_WRITE with 3. rewrite epoch_caps_of_eq by (done || unfold is_u; lia).
  unfold is_u in He. by rewrite pack_eq by (unfold is_u; lia).
Qed.

Lemma mod_eq_multiple m n : 0 ≤ m → m ≤ n → m mod GEN_MAX = n mod GEN_MAX ↔ ∃ k, 0 ≤ k ∧ n = m + k * GEN_MAX.
Proof.
  intros Hm Hmn. split.
  - intros E. pose proof (Z.div_mod m GEN_MAX ltac:(done)). pose proof (Z.div_mod n GEN_MAX ltac:(done)).
    exists (n / GEN_MAX - m / GEN_MAX). pose proof (Z.div_le_mono m n GEN_MAX ltac:(done) Hmn). lia.
  - intros (k & _ & ->). by rewrite Z.mod_add.
Qed.

(** C23. A reference taken after [m] increments of a header is accepted after [n] exactly
    when they are whole laps of [GEN_MAX] increments apart and the epochs stored in
    the two laps agree: [e] in the first lap, then [E], [E + 1], ... for the epoch
    [E] at the start.  Within a lap no stale reference is accepted, but a header
    made at the current epoch stores the same epoch in its first two laps.  The
    increments run one after the other, and nothing else advances the global
    epoch meanwhile. *)
Theorem stale_reference_exact (m n : nat) (e E : Z) :
  is_u 16 e → is_u 64 E → (m ≤ n)%nat →
  ∃ before after,
    increments m {| packed := new e; GLOBAL_EPOCH := E |} = Some before ∧
    increments n {| packed := new e; GLOBAL_EPOCH := E |} = Some after ∧
    let reference_gen := generation (packed before) in
    let reference_epoch := epoch (packed before) in
    let lap := Z.of_nat m / GEN_MAX in
    validate_word (packed before) reference_gen reference_epoch = Success ∧
    (validate_word (packed after) reference_gen reference_epoch = Success ↔
     ∃ k, 0 ≤ k ∧ Z.of_nat n = Z.of_nat m + k * GEN_MAX ∧
       epoch_after e E lap = epoch_after e E (lap + k)).
Proof.
  intros He HE Hmn. eexists _, _. rewrite new_word by done.
  rewrite !increments_exact by (done || unfold is_u; lia). do 2 (split; [reflexivity|]).
  set (i := Z.of_nat m). set (j := Z.of_nat n).
  assert (∀ z, fields_ok (1 + z mod GEN_MAX) (epoch_after e E (z / GEN_MAX)) 3) as Hok.
  { intros z. pose proof (mod_below z). split_and!; [unfold is_u, GEN_MAX in *; lia|by apply epoch_after_ok|].
    unfold is_u; lia. }
  intros gen ep lap. unfold gen, ep, generation, epoch. cbn [packed]. rewrite generation_word, epoch_word by done.
  rewrite !validate_fields by done. pose proof (mod_below i). pose proof (mod_below j).
  rewrite !(proj2 (Z.eqb_neq _ 0)) by lia. rewrite !Z.eqb_refl. split; [done|].
  destruct (Z.eqb_spec (1 + j mod GEN_MAX) (1 + i mod GEN_MAX)) as [Eg|Eg]; cbn [negb].
  - assert (i mod GEN_MAX = j mod GEN_MAX) as Em by lia.
    apply mod_eq_multiple in Em as (k & Hk & Ej); [|lia..].
    assert (j / GEN_MAX = lap + k) as -> by (unfold lap; rewrite Ej; by apply Z.div_add).
    destruct (Z.eqb_spec (epoch_after e E (lap + k)) (epoch_after e E (i / GEN_MAX))) as [Ee|Ee]; cbn [negb].
    + split; [|done]. intros _. by exists k.
    + split; [done|]. intros (k' & _ & Ej' & Ee'). assert (k' = k) as -> by (unfold GEN_MAX in *; lia).
      by destruct Ee.
  - split; [done|]. intros (k & _ & Ej & _). destruct Eg. rewrite Ej. by rewrite Z.mod_add.
Qed.

Lemma stale_reference_exact_witness :
  ∃ before after,
    increments 1 {| packed := new 5; GLOBAL_EPOCH := 5 |} = Some before ∧
    increments 3 {| packed := new 5; GLOBAL_EPOCH := 5 |} = Some after ∧
    let reference_gen := generation (packed before) in
    let reference_epoch := epoch (packed before) in
    let lap := Z.of_nat 1 / GEN_MAX in
    validate_word (packed before) reference_gen reference_epoch = Success ∧
    (validate_word (packed after) reference_gen reference_epoch = Success ↔
     ∃ k, 0 ≤ k ∧ Z.of_nat 3 = Z.of_nat 1 + k * GEN_MAX ∧ epoch_after 5 5 lap = epoch_after 5 5 (lap + k)).
Proof. apply (stale_reference_exact 1 3 5 5); unfold is_u; lia. Defined.

(** The header the allocator makes returns to its first word after a lap. *)
Lemma first_lap_reused (n : nat) : Z.of_nat n = GEN_MAX →
  packed <$> increments n {| packed := new 0; GLOBAL_EPOCH := 0 |} = Some (new 0).
Proof.
  intros Hn. rewrite new_word, increments_exact by (unfold is_u; lia). rewrite Hn. reflexivity.
Qed.

(** Incrementing an invalidated header makes it valid again, for references of its
    first generation. *)
Lemma increment_resurrects g e c E : fields_ok g e c →
  ∃ m1 m2, run 2 invalidate {| packed := word g e c; GLOBAL_EPOCH := E |} = Some (Done, m1) ∧
    is_valid (packed m1) = false ∧
    run 4 increment_generation m1 = Some (Generation 1, m2) ∧ validate_word (packed m2) 1 e = Success.
Proof.
  intros Hok. exists {| packed := word 0 e c; GLOBAL_EPOCH := E |}, {| packed := word 1 e c; GLOBAL_EPOCH := E |}.
  assert (fields_ok 0 e c ∧ fields_ok 1 e c) as [H0 H1] by (unfold fields_ok, is_u in *; lia).
  split_and!.
  - cbn [run call_step invalidate mbind option_bind packed fst snd store]. rewrite caps_word by done.
    destruct Hok as (?&?&?). unfold store. cbn. rewrite pack_eq by by apply lower_ok. done.
  - cbn [packed]. unfold is_valid. by rewrite generation_word.
  - by apply run_increment.
  - cbn [packed]. rewrite validate_fields by done. cbn. by rewrite Z.eqb_refl.
Qed.

(** ** Several threads *)

(** The access of a given call, on concrete values. *)
Ltac access i := eapply (thread_access i); [reflexivity|reflexivity].

Definition result (c : call) : option Z := match c with returned (Generation g) => Some g | _ => None end.
(** The results of the calls that have returned. *)
Definition results (calls : list call) : list Z := omap result calls.

Lemma results_insert calls i c c' : calls !! i = Some c → result c = None →
  results (<[i := c']> calls) ≡ₚ option_list (result c') ++ results calls.
Proof.
  intros Hi Hc. rewrite insert_take_drop by by eapply lookup_lt_Some.
  rewrite <- (take_drop_middle calls i c Hi) at 3. unfold results. rewrite !omap_app. cbn [omap list_omap].
  rewrite Hc. destruct (result c') as [r|]; cbn; [|done]. by rewrite <- Permutation_middle.
Qed.

Lemma results_length calls : (length (results calls) ≤ length calls)%nat.
Proof. unfold results. induction calls as [|a l IH]; cbn; [done|]. destruct (result a); cbn; lia. Qed.

(** A call that has not returned leaves room for its result. *)
Lemma results_lt (k : nat) calls i a : calls !! i = Some a → result a = None → length calls = k →
  (length (results calls) < k)%nat.
Proof.
  intros Hi Ha <-. pose proof (results_length (<[i := returned (Generation 0)]> calls)) as H.
  rewrite (results_insert _ _ _ _ Hi Ha) in H. rewrite length_insert in H. cbn in H. lia.
Qed.

Lemma results_replicate k : results (replicate k increment_generation) = [].
Proof. by induction k. Qed.

Section increments.
Context (g e c : Z) (k : nat).
Context (Hok : fields_ok g e c) (Hmax : g + Z.of_nat k ≤ GEN_MAX).

(** What [k] increments know about the header and their own results. *)
Record incrementing (w : memory * list call) : Prop := {
  inc_length : length w.2 = k;
  inc_calls : Forall (λ a, a = increment_load ∨ (∃ old, a = increment_next old) ∨ is_Some (result a)) w.2;
  inc_packed : packed w.1 = word (g + Z.of_nat (length (results w.2))) e c;
  inc_results : results w.2 ≡ₚ seqZ (g + 1) (Z.of_nat (length (results w.2)));
}.

Lemma fields_at j : (j ≤ k)%nat → fields_ok (g + Z.of_nat j) e c.
Proof using Hok Hmax.
  intros Hj. destruct Hok as (Hg & He & Hc). split_and!; [|done..]. unfold is_u, GEN_MAX in *. lia.
Qed.

Lemma incrementing_step w w' : incrementing w → step w w' → incrementing w'.
Proof using Hok Hmax.
  intros [Hl Hf Hp Hr] Hs. destruct Hs as [w w' Ht|m calls]; [|by split].
  destruct Ht as [i a a' m m' calls Hi Ha]. cbn [fst snd] in *.
  destruct (proj1 (Forall_lookup _ _) Hf i a Hi) as [->|[[old ->]|[r Hres]]]; cbn [call_step] in Ha.
  - pose proof (results_lt k calls i _ Hi eq_refl Hl) as Hlt. rewrite Hp in Ha.
    rewrite generation_word in Ha by (apply fields_at; lia). rewrite (proj2 (Z.leb_gt _ _)) in Ha by lia.
    injection Ha as <- <-.
    pose proof (results_insert calls i _ (increment_next (word (g + Z.of_nat (length (results calls))) e c)) Hi eq_refl) as E.
    cbn [result option_list app] in E. split; cbn [fst snd].
    + by rewrite length_insert.
    + apply Forall_insert; [done|]. right; left. by eexists.
    + by rewrite E.
    + by rewrite E.
  - pose proof (results_lt k calls i _ Hi eq_refl Hl) as Hlt. destruct (Z.eqb_spec (packed m) old) as [Eold|_].
    + rewrite <- Eold, Hp in Ha. rewrite generation_word, next_word in Ha
        by (try apply fields_at; unfold GEN_MAX in *; lia).
      injection Ha as <- <-.
      pose proof (results_insert calls i _ (returned (Generation (g + Z.of_nat (length (results calls)) + 1)))
        Hi eq_refl) as E.
      cbn [result option_list option_rect app] in E. split; cbn [fst snd store packed].
      * by rewrite length_insert.
      * apply Forall_insert; [done|]. right; right. by eexists.
      * rewrite E. cbn [length]. by rewrite Nat2Z.inj_succ, <- Z.add_1_r, Z.add_assoc.
      * etrans; [exact E|]. rewrite E. cbn [length]. set (n := length (results calls)) in *.
        replace (Z.of_nat (S n)) with (Z.of_nat n + 1) by lia. rewrite (seqZ_app _ (Z.of_nat n) 1) by lia.
        rewrite <- Hr, Permutation_app_comm.
        assert (seqZ (g + 1 + Z.of_nat n) 1 = [g + Z.of_nat n + 1]) as -> by (cbn; apply (f_equal (λ z, [z])); lia). done.
    + injection Ha as <- <-.
      pose proof (results_insert calls i _ increment_load Hi eq_refl) as E. cbn [result option_list app] in E.
      split; cbn [fst snd]; [by rewrite length_insert| |by rewrite E..]. apply Forall_insert; [done|]. by left.
  - destruct a as [| | | | | | | |[]]; done.
Qed.
End increments.

(** C25. Increments are atomic under any interleaving: of [k] concurrent increments of a
    header whose generation does not reach the last, those that have returned got the
    next generations, each one once, and the header has moved by their number; its
    epoch and capabilities are unchanged. *)
Theorem concurrent_increments (g e c E : Z) (k : nat) (m : memory) (calls : list call) :
  fields_ok g e c → g + Z.of_nat k ≤ GEN_MAX →
  rtc step ({| packed := word g e c; GLOBAL_EPOCH := E |}, replicate k increment_generation) (m, calls) →
  results calls ≡ₚ seqZ (g + 1) (Z.of_nat (length (results calls))) ∧
  packed m = word (g + Z.of_nat (length (results calls))) e c ∧
  (Forall (λ a, call_step a m = None) calls → length (results calls) = k).
Proof.
  intros Hok Hmax Hs.
  pose proof (results_replicate k) as E0.
  assert (incrementing g e c k (m, calls)) as [Hl Hf Hp Hr].
  { set (w0 := (_, _)) in Hs. set (w := (m, calls)) in *.
    assert (incrementing g e c k w0) as H0.
    { split; unfold w0; cbn [fst snd]; rewrite ?E0; [by rewrite length_replicate| |by rewrite Z.add_0_r|done].
      apply Forall_replicate. by left. }
    clearbody w0 w. induction Hs as [|w1 w2 w3 H _ IH]; [done|]. apply IH. by eapply incrementing_step. }
  cbn [fst snd] in *. split_and!; [done|done|].
  intros Hdone. rewrite <- Hl. clear -Hf Hdone. induction calls as [|a calls IH]; [done|].
  apply Forall_cons in Hf as [Ha Hf]. apply Forall_cons in Hdone as [Hd Hdone].
  cbn. destruct Ha as [->|[[old ->]|[r Ha]]].
  - cbn in Hd. by destruct (_ <=? _) in Hd.
  - cbn in Hd. by destruct (_ =? _) in Hd.
  - rewrite Ha. cbn. f_equal. by apply IH.
Qed.

Lemma concurrent_increments_witness :
  let m := {| packed := word 2 0 3; GLOBAL_EPOCH := 0 |} in
  let calls := [returned (Generation 2); increment_next (word 1 0 3)] in
  results calls ≡ₚ seqZ (1 + 1) (Z.of_nat (length (results calls))) ∧
  packed m = word (1 + Z.of_nat (length (results calls))) 0 3 ∧
  (Forall (λ a, call_step a m = None) calls → length (results calls) = 2%nat).
Proof.
  apply (concurrent_increments 1 0 3 0 2); [unfold fields_ok, is_u; lia|done|].
  eapply rtc_l; [apply step_thread; access 0%nat|].
  eapply rtc_l; [apply step_thread; access 1%nat|].
  eapply rtc_l; [apply step_thread; access 0%nat|].
  constructor.
Defined.

(** *** Increments end *)
(** Accesses left to a call when nobody interferes; a call whose word is outdated
    has to start again. *)
Definition weight (current : Z) (a : call) : nat :=
  match a with
  | increment_load => 2
  | increment_next old => if old =? current then 1 else 3
  | _ => 0
  end.
Definition pending (calls : list call) : nat :=
  length (filter (λ a, result a = None) calls).
Definition potential (w : memory * list call) : nat :=
  sum_list (weight (packed w.1) <$> w.2) + pending w.2 * (pending w.2 - 1).

Lemma sum_insert (f : call → nat) calls i a a' : calls !! i = Some a →
  (sum_list (f <$> <[i := a']> calls) + f a = sum_list (f <$> calls) + f a')%nat.
Proof.
  revert i. induction calls as [|b calls IH]; intros [|i]; cbn [lookup list_lookup]; intros Hi; [done..| |].
  - injection Hi as ->. cbn. lia.
  - specialize (IH i Hi). change (<[S i := a']> (b :: calls)) with (b :: <[i := a']> calls).
    rewrite !fmap_cons. cbn [sum_list]. lia.
Qed.

Lemma pending_insert calls i a a' : calls !! i = Some a → result a = None →
  (pending (<[i := a']> calls) + (match result a' with Some _ => 1 | None => 0 end) = pending calls)%nat.
Proof.
  unfold pending. revert i. induction calls as [|b calls IH]; intros [|i]; cbn [lookup list_lookup];
    intros Hi Ha; [done..| |].
  - injection Hi as ->. change (<[0%nat := a']> (a :: calls)) with (a' :: calls). rewrite !filter_cons. rewrite (decide_True (P := result a = None)) by done.
    destruct (result a') eqn:E; case_decide; (done || cbn; lia).
  - specialize (IH i Hi Ha). change (<[S i := a']> (b :: calls)) with (b :: <[i := a']> calls).
    rewrite !filter_cons. destruct (decide _); cbn; lia.
Qed.

(** A new word makes at most all pending calls outdated. *)
Lemma weight_change new old calls : Forall (λ a, a = increment_load ∨ (∃ old, a = increment_next old) ∨ is_Some (result a)) calls →
  (sum_list (weight new <$> calls) ≤ sum_list (weight old <$> calls) + 2 * pending calls)%nat.
Proof.
  unfold pending. induction 1 as [|a calls Ha _ IH]; [done|]. rewrite filter_cons. cbn.
  destruct Ha as [->|[[o ->]|[r Hr]]].
  - rewrite decide_True by done. cbn. lia.
  - rewrite decide_True by done. cbn. destruct (o =? new), (o =? old); lia.
  - rewrite decide_False by (by rewrite Hr). destruct a as [| | | | | | | |[]]; cbn in *; (done || lia).
Qed.

Lemma pending_replicate k : pending (replicate k increment_generation) = k.
Proof. unfold pending. induction k as [|k IH]; [done|].
  cbn [replicate]. rewrite filter_cons, decide_True by done. cbn [length]. by rewrite IH.
Qed.

Section lock_free.
Context (g e c : Z) (k : nat).
Context (Hok : fields_ok g e c) (Hmax : g + Z.of_nat k ≤ GEN_MAX).

Lemma potential_step w w' : incrementing g e c k w → thread_step w w' → (potential w' < potential w)%nat.
Proof using Hok Hmax.
  intros [Hl Hf Hp Hr] Ht. destruct Ht as [i a a' m m' calls Hi Ha]. cbn [fst snd] in *. unfold potential. cbn [fst snd].
  destruct (proj1 (Forall_lookup _ _) Hf i a Hi) as [->|[[old ->]|[r Hres]]]; cbn [call_step] in Ha.
  - pose proof (results_lt k calls i _ Hi eq_refl Hl) as Hlt. rewrite Hp in Ha.
    rewrite generation_word in Ha by (eapply fields_at; [done|done|lia]).
    rewrite (proj2 (Z.leb_gt _ _)) in Ha by lia. injection Ha as <- <-. rewrite <- Hp.
    pose proof (pending_insert calls i _ (increment_next (packed m)) Hi eq_refl) as P. cbn in P.
    pose proof (sum_insert (weight (packed m)) calls i _ (increment_next (packed m)) Hi) as S.
    cbn in S. rewrite Z.eqb_refl in S. rewrite <- P, Nat.add_0_r. lia.
  - pose proof (results_lt k calls i _ Hi eq_refl Hl) as Hlt. destruct (Z.eqb_spec (packed m) old) as [Eold|Hne].
    + injection Ha as <- <-. cbn [store packed].
      set (a' := returned _) in *. set (new := wrap _ _).
      pose proof (pending_insert calls i _ a' Hi eq_refl) as P. cbn in P.
      pose proof (sum_insert (weight (packed m)) calls i _ a' Hi) as S. cbn in S.
      rewrite (proj2 (Z.eqb_eq _ _)) in S by done.
      pose proof (weight_change new (packed m) (<[i := a']> calls)
        ltac:(apply Forall_insert; [done|right; right; by eexists])) as W.
      set (p := pending (<[i := a']> calls)) in *. rewrite <- P.
      destruct p as [|p]; nia.
    + injection Ha as <- <-.
      pose proof (pending_insert calls i _ increment_load Hi eq_refl) as P. cbn in P.
      pose proof (sum_insert (weight (packed m)) calls i _ increment_load Hi) as S.
      cbn in S. rewrite (proj2 (Z.eqb_neq _ _)) in S by congruence. rewrite <- P, Nat.add_0_r. lia.
  - destruct a as [| | | | | | | |[]]; done.
Qed.

Lemma potential_bound n w w' : incrementing g e c k w → nsteps thread_step n w w' → (n ≤ potential w)%nat.
Proof using Hok Hmax.
  intros Hw Hs. induction Hs as [w|n w1 w2 w3 H _ IH]; [lia|].
  pose proof (potential_step w1 w2 Hw H). specialize (IH ltac:(by eapply incrementing_step, step_thread; eauto)). lia.
Qed.
End lock_free.

(** Concurrent increments below the wrap-around end: however [k] of them are
    scheduled, they make at most [k * (k + 1)] accesses, although each retries when
    another one was first. *)
Theorem increments_end (g e c E : Z) (k n : nat) (w : memory * list call) :
  fields_ok g e c → g + Z.of_nat k ≤ GEN_MAX →
  nsteps thread_step n ({| packed := word g e c; GLOBAL_EPOCH := E |}, replicate k increment_generation) w →
  (n ≤ k * (k + 1))%nat.
Proof.
  intros Hok Hmax Hs. eapply (potential_bound g e c k) in Hs; [|done|done|].
  - etrans; [exact Hs|]. unfold potential. cbn [fst snd].
    rewrite pending_replicate, fmap_replicate, sum_list_replicate. cbn. destruct k; nia.
  - pose proof (results_replicate k) as E0. split; cbn [fst snd]; rewrite ?E0;
      [by rewrite length_replicate| |by rewrite Z.add_0_r|done]. apply Forall_replicate. by left.
Qed.

Lemma increments_end_witness : (3 ≤ 2 * (2 + 1))%nat.
Proof.
  apply (increments_end 1 0 3 0 2 3 ({| packed := word 2 0 3; GLOBAL_EPOCH := 0 |},
    [returned (Generation 2); increment_next (word 1 0 3)])); [unfold fields_ok, is_u; lia|done|].
  eapply nsteps_l; [access 0%nat|].
  eapply nsteps_l; [access 1%nat|].
  eapply nsteps_l; [access 0%nat|].
  constructor.
Defined.

(** *** Invalidation *)

(** Calls that read or invalidate. *)
Definition no_increment (a : call) : Prop :=
  match a with
  | validate_load _ _ | invalidate_load => True
  | invalidate_store epoch_caps => is_u 32 epoch_caps
  | returned _ => True
  | _ => False
  end.

Lemma invalid_packs ec : is_u 32 ec → is_valid (pack GEN_UNALLOCATED ec) = false.
Proof.
  intros H. unfold is_valid. rewrite pack_eq by done. by rewrite unpack_generation_eq by (done || unfold is_u; lia).
Qed.

(** What holds while an invalid header is read and invalidated. *)
Definition invalidated (calls0 : list call) (w : memory * list call) : Prop :=
  is_valid (packed w.1) = false ∧ Forall no_increment w.2 ∧
  ∀ i a r, calls0 !! i = Some a → (∀ r, a ≠ returned r) → w.2 !! i = Some (returned (Code r)) → r = ExpiredReference.

Lemma invalidated_step calls0 w w' : invalidated calls0 w → step w w' → invalidated calls0 w'.
Proof.
  intros (Hv & Hf & Hr) Hs. destruct Hs as [w w' Ht|m calls]; [|by split_and!].
  destruct Ht as [i a a' m m' calls Hi Ha]. cbn [fst snd] in *.
  pose proof (proj1 (Forall_lookup _ _) Hf i a Hi) as Hno.
  assert (∀ x, validate_word (packed m) x.1 x.2 = ExpiredReference) as Hexp.
  { intros x. unfold validate_word. unfold is_valid in Hv. by destruct (_ =? GEN_UNALLOCATED). }
  assert (is_valid (packed m') = false ∧ no_increment a' ∧ ∀ r, a' = returned (Code r) → r = ExpiredReference)
    as (Hv' & Hno' & Hr').
  { destruct a; try done; cbn in Ha; injection Ha as <- <-; cbn.
    - split_and!; [done|done|]. intros r [= <-]. apply (Hexp (_, _)).
    - split_and!; [done| |done]. apply wrap_range. lia.
    - split_and!; [by apply invalid_packs|done|done]. }
  split_and!; cbn [fst snd]; [done|by apply Forall_insert|].
  intros j b r Hb Hnb Hj. destruct (decide (i = j)) as [->|Hne].
  - rewrite list_lookup_insert_eq in Hj by by eapply lookup_lt_Some. injection Hj as ->. by apply Hr'.
  - rewrite list_lookup_insert_ne in Hj by done. by eapply Hr.
Qed.

(** C24. No reference is accepted after an invalidation: while any number of threads read
    and invalidate a header that has been invalidated, in any interleaving, it stays
    invalid and every validation that ends finds an expired reference. *)
Theorem no_success_after_invalidate (m m' : memory) (calls calls' : list call) :
  is_valid (packed m) = false → Forall no_increment calls → rtc step (m, calls) (m', calls') →
  is_valid (packed m') = false ∧
  ∀ i gen ep r, calls !! i = Some (validate gen ep) → calls' !! i = Some (returned (Code r)) → r = ExpiredReference.
Proof.
  intros Hv Hf Hs.
  assert (invalidated calls (m', calls')) as (Hv' & _ & Hr).
  { set (w := (m, calls)) in Hs.
    assert (invalidated calls w) as H0.
    { split_and!; [done|done|]. intros i a r Ha Hn Hr. unfold w in Hr. cbn in Hr. rewrite Ha in Hr.
      injection Hr as ->. by destruct (Hn (Code r)). }
    clearbody w. set (w' := (m', calls')) in *. clearbody w'.
    induction Hs as [|w1 w2 w3 H _ IH]; [done|]. apply IH. exact (invalidated_step _ _ _ H0 H). }
  split; [done|]. intros i gen ep r Hi Hi'. by eapply Hr.
Qed.

Lemma no_success_after_invalidate_witness :
  let m := {| packed := word 0 0 3; GLOBAL_EPOCH := 0 |} in
  is_valid (packed m) = false ∧
  ∀ i gen ep r, [validate 1 0; invalidate] !! i = Some (validate gen ep) →
    [returned (Code ExpiredReference); invalidate_store 3] !! i = Some (returned (Code r)) → r = ExpiredReference.
Proof.
  apply (no_success_after_invalidate {| packed := word 0 0 3; GLOBAL_EPOCH := 0 |}); [reflexivity|by repeat constructor|].
  eapply rtc_l; [apply step_thread; access 0%nat|].
  eapply rtc_l; [apply step_thread; access 1%nat|].
  constructor.
Defined.

(** ** The wide header *)
Module Wide.
Import AllocationHeader.

Fixpoint increments (n : nat) (m : memory) : option memory :=
  match n with
  | O => Some m
  | S n => m' ← increments n m; p ← run 5 increment_generation m'; Some p.2
  end.

(** [validate] of a reference that nothing disturbs. *)
Definition validates (m : memory) (gen ep : Z) : option CbgrErrorCode :=
  p ← run 3 (validate gen ep) m; match p.1 with Code c => Some c | _ => None end.

Definition with_counters (h : AllocationHeader) (g e : Z) : AllocationHeader := store_epoch (store_generation h g) e.

Lemma wide_run_increment h E : generation h < GEN_MAX →
  run 5 increment_generation {| header := h; GLOBAL_EPOCH := E |} =
  Some (Generation (generation h + 1),
        {| header := store_generation h (generation h + 1); GLOBAL_EPOCH := E |}).
Proof.
  intros Hg. cbn [run call_step increment_generation mbind option_bind header].
  rewrite (proj2 (Z.leb_gt _ _)) by assumption.
  cbn [run call_step mbind option_bind header fst snd]. by rewrite Z.eqb_refl.
Qed.

Lemma wide_run_increment_max h E : GEN_MAX ≤ generation h →
  run 5 increment_generation {| header := h; GLOBAL_EPOCH := E |} =
  Some (Generation GEN_INITIAL,
        {| header := with_counters h GEN_INITIAL (truncate_epoch (advance_epoch E));
           GLOBAL_EPOCH := advance_epoch E |}).
Proof.
  intros Hg. cbn [run call_step increment_generation mbind option_bind header].
  rewrite (proj2 (Z.leb_le _ _)) by assumption.
  cbn [run call_step mbind option_bind header fst snd]. by rewrite Z.eqb_refl.
Qed.

Lemma truncate_eq E k : truncate_epoch (wrap 64 (E + k)) = wrap 16 (E + k).
Proof.
  unfold truncate_epoch, wrap. change 0xFFFF with (2 ^ 16 - 1). rewrite land_mask by lia.
  by rewrite Z.mod_mod_divide by (exists (2 ^ 48); lia).
Qed.

Lemma wide_increments_exact n h E : is_u 64 E →
  generation h = GEN_INITIAL → epoch h = truncate_epoch E →
  let k := Z.of_nat n / GEN_MAX in
  increments n {| header := h; GLOBAL_EPOCH := E |} =
  Some {| header := with_counters h (1 + Z.of_nat n mod GEN_MAX) (wrap 16 (E + k)); GLOBAL_EPOCH := wrap 64 (E + k) |}.
Proof.
  intros HE Hg He. induction n as [|n IH]; intros k.
  - cbn [increments]. unfold k. change (Z.of_nat 0 / GEN_MAX) with 0. change (Z.of_nat 0 mod GEN_MAX) with 0.
    rewrite <- truncate_eq, !Z.add_0_r, wrap_id, <- He by assumption. change 1 with GEN_INITIAL. rewrite <- Hg.
    by destruct h.
  - cbn [increments]. rewrite IH. cbn [mbind option_bind].
    set (i := Z.of_nat n) in *. assert (Z.of_nat (S n) = i + 1) as Ei by lia. unfold k. rewrite Ei.
    pose proof (mod_below i) as Hm.
    set (h' := with_counters h (1 + i mod GEN_MAX) (wrap 16 (E + i / GEN_MAX))).
    assert (generation h' = 1 + i mod GEN_MAX) as Eg by reflexivity.
    destruct (decide (i mod GEN_MAX < GEN_MAX - 1)) as [Hlt|Hge].
    + destruct (laps_step i) as [-> ->]; [lia|done|].
      rewrite wide_run_increment by (rewrite Eg; lia). cbn [mbind option_bind snd]. rewrite Eg.
      rewrite Z.add_assoc. reflexivity.
    + destruct (laps_wrap i) as [-> ->]; [lia|lia|].
      rewrite wide_run_increment_max by (rewrite Eg; lia). cbn [mbind option_bind snd].
      assert (advance_epoch (wrap 64 (E + i / GEN_MAX)) = wrap 64 (E + (i / GEN_MAX + 1))) as ->.
      { unfold advance_epoch, wrap. rewrite Zplus_mod_idemp_l. f_equal. lia. }
      rewrite truncate_eq. reflexivity.
Qed.

Lemma validates_fields m gen ep : validates m gen ep = Some
  (if generation (header m) =? 0 then ExpiredReference else if negb (generation (header m) =? gen) then GenerationMismatch
   else if negb (epoch (header m) =? ep) then EpochMismatch else Success).
Proof.
  unfold validates. cbn [run call_step validate mbind option_bind]. unfold GEN_UNALLOCATED.
  destruct (Z.eqb_spec (generation (header m)) 0); [done|].
  destruct (Z.eqb_spec (generation (header m)) gen); cbn [negb]; [|done].
  cbn [run call_step mbind option_bind fst snd].
  destruct (Z.eqb_spec (epoch (header m)) ep); cbn [negb]; [|done].
  cbn [run call_step mbind option_bind fst snd]. by rewrite Z.eqb_refl.
Qed.

(** C27. A reference to a new allocation taken after [m] increments is accepted after [n]
    exactly when all generations of all 65536 epochs lie between, a whole number of
    times: the wide header stores the epoch it advanced to, so no two laps before
    that share an epoch.  The increments run one after the other, and nothing else
    advances the global epoch meanwhile. *)
Theorem allocation_stale_exact (m n : nat) (E size alignment type_id caps : Z) :
  is_u 64 E → (m ≤ n)%nat →
  let start := {| header := new E size alignment type_id caps; GLOBAL_EPOCH := E |} in
  ∃ before after, increments m start = Some before ∧ increments n start = Some after ∧
    let gen := generation (header before) in
    let ep := epoch (header before) in
    validates before gen ep = Some Success ∧
    (validates after gen ep = Some Success ↔ ∃ k, 0 ≤ k ∧ Z.of_nat n = Z.of_nat m + k * (2 ^ 16 * GEN_MAX)).
Proof.
  intros HE Hmn start. eexists _, _. unfold start. rewrite !wide_increments_exact by done.
  do 2 (split; [reflexivity|]). cbn [header]. rewrite !validates_fields. cbn [header].
  set (i := Z.of_nat m). set (j := Z.of_nat n). cbn.
  pose proof (mod_below i). pose proof (mod_below j).
  rewrite !(proj2 (Z.eqb_neq _ 0)) by lia. rewrite !Z.eqb_refl. split; [done|].
  destruct (Z.eqb_spec (1 + j mod GEN_MAX) (1 + i mod GEN_MAX)) as [Eg|Eg]; cbn [negb].
  - assert (i mod GEN_MAX = j mod GEN_MAX) as Em by lia.
    apply mod_eq_multiple in Em as (k & Hk & Ej); [|lia..].
    assert (j / GEN_MAX = i / GEN_MAX + k) as -> by (rewrite Ej; by apply Z.div_add).
    destruct (Z.eqb_spec (wrap 16 (E + (i / GEN_MAX + k))) (wrap 16 (E + i / GEN_MAX))) as [Ee|Ee]; cbn [negb].
    + split; [|done]. intros _. unfold wrap in Ee. rewrite Z.add_assoc in Ee.
      pose proof (Z.div_mod (E + i / GEN_MAX) (2 ^ 16)). pose proof (Z.div_mod (E + i / GEN_MAX + k) (2 ^ 16)).
      pose proof (Z.div_le_mono (E + i / GEN_MAX) (E + i / GEN_MAX + k) (2 ^ 16)).
      exists ((E + i / GEN_MAX + k) / 2 ^ 16 - (E + i / GEN_MAX) / 2 ^ 16). split; [lia|].
      unfold GEN_MAX in *. lia.
    + split; [done|]. intros (k' & _ & Ej'). destruct Ee. assert (k = k' * 2 ^ 16) as -> by (unfold GEN_MAX in *; lia).
      rewrite Z.add_assoc. apply wrap_shift. lia.
  - split; [done|]. intros (k & _ & Ej). destruct Eg. rewrite Ej.
    replace (i + k * (2 ^ 16 * GEN_MAX)) with (i + k * 2 ^ 16 * GEN_MAX) by lia. by rewrite Z.mod_add.
Qed.

Lemma allocation_stale_exact_witness :
  let start := {| header := new 9 64 8 3 255; GLOBAL_EPOCH := 9 |} in
  ∃ before after, increments 1 start = Some before ∧ increments 2 start = Some after ∧
    let gen := generation (header before) in
    let ep := epoch (header before) in
    validates before gen ep = Some Success ∧
    (validates after gen ep = Some Success ↔ ∃ k, 0 ≤ k ∧ Z.of_nat 2 = Z.of_nat 1 + k * (2 ^ 16 * GEN_MAX)).
Proof. apply (allocation_stale_exact 1 2 9 64 8 3 255); [unfold is_u; lia|lia]. Defined.

(** Between the reset of the generation and the store of the epoch a reference of
    the last lap is accepted: both of its reads of the generation see the new one. *)
Lemma reset_window : let h := store_generation (new 0 64 8 3 255) GEN_MAX in
  rtc step ({| header := h; GLOBAL_EPOCH := 0 |}, [increment_generation; validate 1 0])
    ({| header := store_generation h 1; GLOBAL_EPOCH := 0 |}, [increment_advance; returned (Code Success)]).
Proof.
  intros h.
  eapply rtc_l; [apply step_thread; eapply (thread_access 0); reflexivity|].
  eapply rtc_l; [apply step_thread; eapply (thread_access 0); reflexivity|].
  eapply rtc_l; [apply step_thread; eapply (thread_access 1); reflexivity|].
  eapply rtc_l; [apply step_thread; eapply (thread_access 1); reflexivity|].
  eapply rtc_l; [apply step_thread; eapply (thread_access 1); reflexivity|].
  constructor.
Qed.
End Wide.

(** ** Allocation *)

Lemma power_of_two_le a b : is_power_of_two a = true → is_power_of_two b = true → a ≤ b → (a | b).
Proof.
  unfold is_power_of_two. intros [_ ->%Z.eqb_eq]%andb_prop [Hb ->%Z.eqb_eq]%andb_prop Hle.
  set (i := Z.log2 a) in *. set (j := Z.log2 b) in *.
  assert (0 ≤ i) by apply Z.log2_nonneg. assert (0 ≤ j) by apply Z.log2_nonneg.
  assert (i ≤ j) by (apply (Z.pow_le_mono_r_iff 2); lia).
  exists (2 ^ (j - i)). rewrite <- Z.pow_add_r by lia. f_equal. lia.
Qed.

(** An allocation of a size that fits is a block of that size and eight bytes for the
    header, aligned as asked (and to eight), with a valid header of the first
    generation; the user data start eight bytes into it, so above an alignment of
    eight they are not aligned as asked. *)
Theorem allocation_exact (alloc_zeroed : Z → Z → option Z) (size align user_ptr header : Z) :
  (∀ size align base, alloc_zeroed size align = Some base → 0 < base ∧ (align | base)) →
  0 ≤ size < 2 ^ 63 → tracked_alloc_zeroed alloc_zeroed size align = Ok (user_ptr, header) →
  is_power_of_two align = true ∧
  alloc_zeroed (8 + size) (Z.max align 8) = Some (user_ptr - 8) ∧
  is_valid header = true ∧ generation header = GEN_INITIAL ∧ epoch header = 0 ∧
  (8 | user_ptr) ∧ ((align | user_ptr) ↔ align ≤ 8).
Proof.
  intros Halloc Hsize. unfold tracked_alloc_zeroed.
  destruct (is_power_of_two align) eqn:Hp; cbn [negb orb]; [|done].
  destruct (align =? 0); [done|]. unfold SIZE. rewrite wrap_id by (unfold is_u; lia).
  unfold from_size_align. destruct (_ && _) eqn:Hc; [|done].
  destruct (alloc_zeroed (8 + size) (Z.max align 8)) as [base|] eqn:Ha; [|done]. intros [= <- <-].
  destruct (Halloc _ _ _ Ha) as [Hbase Hal].
  replace (base + 8 - 8) with base by lia.
  assert (is_power_of_two 8 = true) as H8 by reflexivity.
  assert ((8 | base)) as Hb8.
  { etrans; [|exact Hal]. destruct (Z.max_spec align 8) as [[? ->]|[? ->]]; [done|]. by apply power_of_two_le. }
  split_and!; [done|done|done|done|done|by apply Z.divide_add_r|].
  split.
  - intros Hd. destruct (decide (align ≤ 8)) as [|Hlt]; [done|]. exfalso.
    rewrite Z.max_l in Hal by lia. assert ((align | 8)) as H by by apply (Z.divide_add_cancel_r align base 8).
    apply Z.divide_pos_le in H; lia.
  - intros Hle. etrans; [apply (power_of_two_le align 8 Hp H8 Hle)|]. by apply Z.divide_add_r.
Qed.

Lemma allocation_exact_witness :
  is_power_of_two 16 = true ∧ (λ _ _, Some 4096) (8 + 24) (Z.max 16 8) = Some (4104 - 8) ∧
  is_valid (new 0) = true ∧ generation (new 0) = GEN_INITIAL ∧ epoch (new 0) = 0 ∧
  (8 | 4104) ∧ ((16 | 4104) ↔ 16 ≤ 8).
Proof.
  pose (a := λ (size align : Z), if align =? 16 then Some 4096 else None).
  apply (allocation_exact a 24 16 4104 (new 0)); [|lia|reflexivity].
  intros size align base. unfold a. destruct (Z.eqb_spec align 16) as [->|]; [|done].
  intros [= <-]. split; [lia|by exists 256].
Defined.

(** A size near the top of [usize] wraps to a block without room. *)
Lemma allocation_size_wraps : tracked_alloc_zeroed (λ size _, if size =? 1 then Some 4096 else None) (2 ^ 64 - 7) 8 =
  Ok (4104, new 0).
Proof. reflexivity. Qed.
