(* ===== verification/Dominance.v ===== *)
(** * Dominators of control flow graphs

    [verum_cbgr/src/dominance_analysis.rs], and the dominators of
    [ControlFlowGraph] in [verum_cbgr/src/analysis.rs]: reverse postorder, the
    iterative computation of dominator sets, immediate dominators, the dominator
    tree, dominance frontiers, and the decision to promote a reference.  The
    iteration orders of hash maps and hash sets are parameters. *)

From stdpp Require Import gmap list.
From S2P Require Import Prelude.
Open Scope Z_scope.

Abbreviation BlockId := Z (only parsing).
Abbreviation RefId := Z (only parsing).

(** ** Control flow graphs *)
Record DefSite := { def_block : BlockId; def_reference : RefId; def_is_stack_allocated : bool; def_span : option (Z * Z) }.
Record UseeSite := { use_block : BlockId; use_reference : RefId; use_is_mutable : bool; use_span : option (Z * Z) }.

(** Calls, await points and exceptions of a block do not matter here. *)
Record BasicBlock := {
  block_id : BlockId;
  predecessors : gset BlockId;
  successors : gset BlockId;
  definitions : list DefSite;
  uses : list UseeSite;
}.
Record ControlFlowGraph := { blocks : gmap BlockId BasicBlock; entry : BlockId; exit : BlockId }.

Definition new_cfg (entry exit : BlockId) : ControlFlowGraph := {| blocks := ∅; entry := entry; exit := exit |}.
Definition add_block (cfg : ControlFlowGraph) (b : BasicBlock) : ControlFlowGraph :=
  {| blocks := <[block_id b := b]> (blocks cfg); entry := entry cfg; exit := exit cfg |}.

Abbreviation dominator_sets := (gmap BlockId (gset BlockId)).

(** [for x in l { s = f(x, s)? }]. *)
Fixpoint for_each {A S} (f : A → S → option S) (l : list A) (s : S) : option S :=
  match l with
  | [] => Some s
  | x :: l => s ← f x s; for_each f l s
  end.

Section Orders.
(** Iteration over a hash set and over the entries of a hash map. *)
Context (order : gset BlockId → list BlockId).
Context (entries : ∀ A, gmap BlockId A → list (BlockId * A)).

(** ** The dominators of [ControlFlowGraph] *)
Section Cfg.
Context (cfg : ControlFlowGraph).

Definition all_blocks : gset BlockId := dom (blocks cfg).

Definition intersect_predecessors (dominators : dominator_sets) (block : BasicBlock) : gset BlockId :=
  foldl (λ new_dom pred_id, match dominators !! pred_id with
                            | Some pred_dom => new_dom ∩ pred_dom
                            | None => new_dom
                            end) all_blocks (order (predecessors block)).

(** One block of a sweep: the sets, and whether one has changed. *)
Definition cfg_visit (st : dominator_sets * bool) (e : BlockId * BasicBlock) : dominator_sets * bool :=
  let '(dominators, changed) := st in
  let '(block_id, block) := e in
  if decide (block_id = entry cfg) then (dominators, changed)
  else
    let new_dom := {[block_id]} ∪ intersect_predecessors dominators block in
    match dominators !! block_id with
    | Some old_dom =>
        if decide (new_dom = old_dom) then (dominators, changed)
        else (<[block_id := new_dom]> dominators, true)
    | None => (dominators, changed)
    end.

Definition cfg_sweep (dominators : dominator_sets) : dominator_sets * bool :=
  foldl cfg_visit (dominators, false) (entries _ (blocks cfg)).

(** [while changed]; the fuel counts sweeps. *)
Fixpoint cfg_iterate (fuel : nat) (dominators : dominator_sets) : option dominator_sets :=
  match fuel with
  | O => None
  | S fuel =>
      let '(dominators, changed) := cfg_sweep dominators in
      if changed then cfg_iterate fuel dominators else Some dominators
  end.

Definition cfg_initial : dominator_sets :=
  foldl (λ d block_id, if decide (block_id = entry cfg) then d else <[block_id := all_blocks]> d)
    {[entry cfg := {[entry cfg]}]} (order all_blocks).

Definition compute_dominators (fuel : nat) : option dominator_sets := cfg_iterate fuel cfg_initial.

Definition cfg_dominates (fuel : nat) (a b : BlockId) : option bool :=
  if decide (a = b) then Some true
  else
    dom ← compute_dominators fuel;
    Some (match dom !! b with Some doms => bool_decide (a ∈ doms) | None => false end).
End Cfg.

(** ** [DominanceInfo] *)
Record DominanceInfo := {
  dominators : dominator_sets;
  immediate_dom : gmap BlockId BlockId;
  dominance_frontier : gmap BlockId (gset BlockId);
  dom_tree_children : gmap BlockId (gset BlockId);
  info_entry : BlockId;
  postorder_numbers : gmap BlockId nat;
}.

Section Info.
Context (cfg : ControlFlowGraph).

(** *** Reverse postorder; as many units of fuel as there are blocks, and one more. *)
Fixpoint rpo_visit (fuel : nat) (b : BlockId) (st : gset BlockId * list BlockId) :
    option (gset BlockId * list BlockId) :=
  match fuel with
  | O => None
  | S fuel =>
      let '(visited, result) := st in
      if decide (b ∈ visited) then Some st
      else
        st ← match blocks cfg !! b with
             | Some block => for_each (rpo_visit fuel) (order (successors block)) ({[b]} ∪ visited, result)
             | None => Some ({[b]} ∪ visited, result)
             end;
        Some (st.1, st.2 ++ [b])
  end.
Definition compute_reverse_postorder (fuel : nat) : option (list BlockId) :=
  st ← rpo_visit fuel (entry cfg) (∅, []); Some (reverse st.2).

Fixpoint postorder_visit (fuel : nat) (b : BlockId) (st : gset BlockId * (gmap BlockId nat * nat)) :
    option (gset BlockId * (gmap BlockId nat * nat)) :=
  match fuel with
  | O => None
  | S fuel =>
      let '(visited, (numbers, counter)) := st in
      if decide (b ∈ visited) then Some st
      else
        st ← match blocks cfg !! b with
             | Some block =>
                 for_each (postorder_visit fuel) (order (successors block)) ({[b]} ∪ visited, (numbers, counter))
             | None => Some ({[b]} ∪ visited, (numbers, counter))
             end;
        Some (st.1, (<[b := st.2.2]> st.2.1, S st.2.2))
  end.
Definition compute_postorder_numbers (fuel : nat) : option (gmap BlockId nat) :=
  st ← postorder_visit fuel (entry cfg) (∅, (∅, 0%nat)); Some st.2.1.

(** *** The sets *)
Definition initial_sets (rpo : list BlockId) : dominator_sets :=
  foldl (λ d block_id, if decide (block_id = entry cfg) then d else <[block_id := all_blocks cfg]> d)
    {[entry cfg := {[entry cfg]}]} rpo.

Definition meet_predecessors (dominators : dominator_sets) (block : BasicBlock) : option (gset BlockId) :=
  foldl (λ new_dom pred_id, match dominators !! pred_id with
                            | Some pred_dom =>
                                match new_dom with
                                | None => Some pred_dom
                                | Some current => Some (current ∩ pred_dom)
                                end
                            | None => new_dom
                            end) None (order (predecessors block)).

Definition visit_block (st : dominator_sets * bool) (block_id : BlockId) : dominator_sets * bool :=
  let '(dominators, changed) := st in
  if decide (block_id = entry cfg) then (dominators, changed)
  else
    match blocks cfg !! block_id with
    | Some block =>
        let new_dom := {[block_id]} ∪ default ∅ (meet_predecessors dominators block) in
        match dominators !! block_id with
        | Some old_dom =>
            if decide (new_dom = old_dom) then (dominators, changed)
            else (<[block_id := new_dom]> dominators, true)
        | None => (<[block_id := new_dom]> dominators, true)
        end
    | None => (dominators, changed)
    end.

Fixpoint iterate (iterations : nat) (rpo : list BlockId) (dominators : dominator_sets) : dominator_sets :=
  match iterations with
  | O => dominators
  | S iterations =>
      let '(dominators, changed) := foldl visit_block (dominators, false) rpo in
      if changed then iterate iterations rpo dominators else dominators
  end.
Definition max_iterations : nat := size (blocks cfg) * size (blocks cfg) + 10.
Definition compute_dominators_iterative (rpo : list BlockId) : dominator_sets :=
  iterate max_iterations rpo (initial_sets rpo).

(** *** Immediate dominators and the tree *)
Definition closest (dominators : dominator_sets) (block_id : BlockId) (dom_set : gset BlockId) : option BlockId :=
  (foldl (λ '(idom, max_dom_count) dom_id,
     if decide (dom_id = block_id) then (idom, max_dom_count)
     else
       let dom_count := match dominators !! dom_id with Some s => size s | None => 0%nat end in
       if (max_dom_count <? dom_count)%nat then (Some dom_id, dom_count) else (idom, max_dom_count))
    (None, 0%nat) (order dom_set)).1.

Definition compute_immediate_dominators (dominators : dominator_sets) : gmap BlockId BlockId :=
  foldl (λ idoms '(block_id, dom_set),
    if decide (block_id = entry cfg) then idoms
    else match closest dominators block_id dom_set with
         | Some idom_id => <[block_id := idom_id]> idoms
         | None => idoms
         end) ∅ (entries _ dominators).

Definition insert_into (key x : BlockId) (m : gmap BlockId (gset BlockId)) : gmap BlockId (gset BlockId) :=
  <[key := {[x]} ∪ default ∅ (m !! key)]> m.

Definition build_dominator_tree (immediate_dom : gmap BlockId BlockId) : gmap BlockId (gset BlockId) :=
  foldl (λ children '(block_id, idom_id), insert_into idom_id block_id children)
    (gset_to_gmap ∅ (all_blocks cfg)) (entries _ immediate_dom).

(** *** Frontiers; the fuel bounds the depth of the tree. *)
Fixpoint walk_up (fuel : nat) (immediate_dom : gmap BlockId BlockId) (block_id runner : BlockId)
    (frontier : gmap BlockId (gset BlockId)) : option (gmap BlockId (gset BlockId)) :=
  match fuel with
  | O => None
  | S fuel =>
      match immediate_dom !! block_id with
      | None => Some frontier
      | Some idom =>
          if decide (runner = idom) then Some frontier
          else
            let frontier := insert_into runner block_id frontier in
            match immediate_dom !! runner with
            | Some runner_idom =>
                if decide (runner_idom = runner) then Some frontier
                else walk_up fuel immediate_dom block_id runner_idom frontier
            | None => Some frontier
            end
      end
  end.

Definition compute_dominance_frontiers (fuel : nat) (immediate_dom : gmap BlockId BlockId) :
    option (gmap BlockId (gset BlockId)) :=
  for_each (λ '(block_id, block) frontier,
      if (2 <=? size (predecessors block))%nat
      then for_each (walk_up fuel immediate_dom block_id) (order (predecessors block)) frontier
      else Some frontier)
    (entries _ (blocks cfg)) (gset_to_gmap ∅ (all_blocks cfg)).

Definition empty_info : DominanceInfo :=
  {| dominators := ∅; immediate_dom := ∅; dominance_frontier := ∅; dom_tree_children := ∅;
     info_entry := entry cfg; postorder_numbers := ∅ |}.

Definition compute (fuel : nat) : option DominanceInfo :=
  if decide (blocks cfg = ∅) then Some empty_info
  else
    rpo ← compute_reverse_postorder fuel;
    numbers ← compute_postorder_numbers fuel;
    let doms := compute_dominators_iterative rpo in
    let idoms := compute_immediate_dominators doms in
    frontiers ← compute_dominance_frontiers fuel idoms;
    Some {| dominators := doms; immediate_dom := idoms; dominance_frontier := frontiers;
            dom_tree_children := build_dominator_tree idoms; info_entry := entry cfg; postorder_numbers := numbers |}.
End Info.

(** ** Queries *)
Definition dominates (info : DominanceInfo) (a b : BlockId) : bool :=
  if decide (a = b) then true
  else match dominators info !! b with Some dom_set => bool_decide (a ∈ dom_set) | None => false end.
Definition strictly_dominates (info : DominanceInfo) (a b : BlockId) : bool :=
  negb (bool_decide (a = b)) && dominates info a b.
Definition get_immediate_dominator (info : DominanceInfo) (b : BlockId) : option BlockId := immediate_dom info !! b.
Definition frontier (info : DominanceInfo) (b : BlockId) : gset BlockId := default ∅ (dominance_frontier info !! b).

Definition allocation_dominates_uses (info : DominanceInfo) (allocation_block : BlockId) (use_blocks : gset BlockId) :
    bool :=
  forallb (dominates info allocation_block) (order use_blocks).
Definition check_reference_dominance (info : DominanceInfo) (def_site : DefSite) (use_sites : list UseeSite) : bool :=
  allocation_dominates_uses info (def_block def_site) (list_to_set (use_block <$> use_sites)).

(** The queue, the result and the processed blocks. *)
Fixpoint idf_loop (fuel : nat) (info : DominanceInfo) (work_list : list BlockId) (result processed : gset BlockId) :
    option (gset BlockId) :=
  match work_list with
  | [] => Some result
  | b :: work_list =>
      match fuel with
      | O => None
      | S fuel =>
          if decide (b ∈ processed) then idf_loop fuel info work_list result processed
          else
            let '(result, work_list) :=
              match dominance_frontier info !! b with
              | Some frontier =>
                  foldl (λ '(result, work_list) df_block,
                    if decide (df_block ∈ result) then (result, work_list)
                    else ({[df_block]} ∪ result, work_list ++ [df_block])) (result, work_list) (order frontier)
              | None => (result, work_list)
              end in
            idf_loop fuel info work_list result ({[b]} ∪ processed)
      end
  end.
Definition iterated_dominance_frontier (fuel : nat) (info : DominanceInfo) (bs : gset BlockId) :
    option (gset BlockId) :=
  idf_loop fuel info (order bs) ∅ ∅.

(** ** Promotion *)
Inductive EscapeCategory := NoEscape | MayEscape | Escapes | Unknown.
Definition allows_promotion (c : EscapeCategory) : bool := match c with NoEscape => true | _ => false end.

Record ReferenceInfo := {
  ref_id : RefId;
  allocation_site : BlockId;
  use_sites : gset BlockId;
  is_stack_allocated : bool;
  escape_category : EscapeCategory;
}.
Definition add_use_site (r : ReferenceInfo) (b : BlockId) : ReferenceInfo :=
  {| ref_id := ref_id r; allocation_site := allocation_site r; use_sites := {[b]} ∪ use_sites r;
     is_stack_allocated := is_stack_allocated r; escape_category := escape_category r |}.
Definition single_block_usage (r : ReferenceInfo) : bool :=
  (size (use_sites r) <=? 1)%nat && forallb (λ b, bool_decide (b = allocation_site r)) (order (use_sites r)).

Inductive PromotionDecision :=
| PromoteToChecked | KeepManagedEscape | KeepManagedDominance | KeepManagedConservative.
Definition should_promote (d : PromotionDecision) : bool :=
  match d with PromoteToChecked => true | _ => false end.
Definition overhead_ns (d : PromotionDecision) : Z := match d with PromoteToChecked => 0 | _ => 15 end.

Definition decide_promotion (ref_info : ReferenceInfo) (dominance : DominanceInfo) : PromotionDecision :=
  if negb (allows_promotion (escape_category ref_info)) then KeepManagedEscape
  else if negb (allocation_dominates_uses dominance (allocation_site ref_info) (use_sites ref_info))
  then KeepManagedDominance
  else if negb (is_stack_allocated ref_info) then KeepManagedConservative
  else PromoteToChecked.
End Orders.
