(* ===== verification/DominanceFacts.v ===== *)
(** * Dominators: facts

    A block dominates another when it lies on every path from the entry.  Both
    computations of dominator sets end and find exactly this relation, whatever the
    iteration orders, and promotions rest on it. *)

From stdpp Require Import gmap list relations.
From S2P Require Import Prelude Dominance.
Open Scope Z_scope.

(** ** Paths *)
Section paths.
Context (cfg : ControlFlowGraph).

Definition preds (b : BlockId) : gset BlockId :=
  match blocks cfg !! b with Some block => predecessors block | None => ∅ end.
Definition succs (b : BlockId) : gset BlockId :=
  match blocks cfg !! b with Some block => successors block | None => ∅ end.

(** The paths from the entry, with the blocks they pass. *)
Inductive walk : BlockId → list BlockId → Prop :=
| walk_entry : walk (entry cfg) [entry cfg]
| walk_step p b l : walk p l → p ∈ preds b → walk b (l ++ [b]).

Definition reachable (b : BlockId) : Prop := ∃ l, walk b l.
(** [a] lies on every path to [b]. *)
Definition dominated (a b : BlockId) : Prop := ∀ l, walk b l → a ∈ l.

(** The graph is consistent: the entry is a block, edges lead to blocks, and
    predecessors are the converse of successors. *)
Record cfg_ok : Prop := {
  ok_entry : entry cfg ∈ all_blocks cfg;
  ok_targets : ∀ a b, b ∈ succs a → b ∈ all_blocks cfg;
  ok_converse : ∀ a b, a ∈ all_blocks cfg → b ∈ all_blocks cfg → b ∈ succs a ↔ a ∈ preds b;
}.

Lemma walk_end b l : walk b l → b ∈ l.
Proof. destruct 1; [by left|]. apply elem_of_app. right. by left. Qed.

Lemma dominated_refl b : dominated b b.
Proof. intros l. apply walk_end. Qed.

Lemma preds_block p b : p ∈ preds b → b ∈ all_blocks cfg.
Proof. unfold preds, all_blocks. destruct (blocks cfg !! b) eqn:E; [|set_solver]. intros _. by apply elem_of_dom_2 in E. Qed.

Lemma walk_blocks b l x : entry cfg ∈ all_blocks cfg → walk b l → x ∈ l → x ∈ all_blocks cfg.
Proof.
  intros He. induction 1 as [|p b l _ IH Hp]; [by intros ->%list_elem_of_singleton|].
  intros [Hx|Hx]%elem_of_app; [auto|]. apply list_elem_of_singleton in Hx as ->. by eapply preds_block.
Qed.

Lemma dominated_pred a p b : dominated a b → a ≠ b → p ∈ preds b → dominated a p.
Proof.
  intros Hd Hne Hp l Hl. specialize (Hd (l ++ [b]) (walk_step p b l Hl Hp)).
  apply elem_of_app in Hd as [| ->%list_elem_of_singleton]; done.
Qed.

Lemma dominated_block a b : entry cfg ∈ all_blocks cfg → reachable b → dominated a b → a ∈ all_blocks cfg.
Proof. intros He [l Hl] Hd. by eapply walk_blocks, Hd. Qed.

Lemma dominated_entry a : dominated a (entry cfg) → a = entry cfg.
Proof. intros Hd. specialize (Hd _ walk_entry). by apply list_elem_of_singleton in Hd. Qed.

Lemma reachable_step p b : reachable p → p ∈ preds b → reachable b.
Proof. intros [l Hl] Hp. eexists. by eapply walk_step. Qed.
End paths.

(** ** Sets that shrink *)

Definition total (d : dominator_sets) : nat := sum_list (size ∘ snd <$> map_to_list d).

Lemma total_delete d b s : d !! b = Some s → total d = (size s + total (delete b d))%nat.
Proof.
  intros Hb. unfold total. rewrite <- (map_to_list_delete d b s Hb). done.
Qed.

Lemma total_insert d b (s s' : gset BlockId) : d !! b = Some s → s' ⊂ s → (total (<[b := s']> d) < total d)%nat.
Proof.
  intros Hb Hs. rewrite (total_delete d b s Hb), (total_delete (<[b := s']> d) b s') by apply lookup_insert_eq.
  rewrite delete_insert_eq. apply subset_size in Hs. lia.
Qed.

Lemma total_bound d (k : nat) : (∀ b s, d !! b = Some s → (size s ≤ k)%nat) → (total d ≤ size d * k)%nat.
Proof.
  unfold total. intros Hk.
  assert (∀ l : list (BlockId * gset BlockId), (∀ p, p ∈ l → (size p.2 ≤ k)%nat) →
    (sum_list (size ∘ snd <$> l) ≤ length l * k)%nat) as Hl.
  { induction l as [|p l IH]; intros H; [done|]. cbn. pose proof (H p ltac:(by left)).
    specialize (IH (λ q Hq, H q (list_elem_of_further _ _ _ Hq))). unfold compose in *. lia. }
  rewrite <- length_map_to_list. apply Hl. intros [b s] Hp%elem_of_map_to_list. by eapply Hk.
Qed.

(** ** The iteration *)
Section iteration.
Context (cfg : ControlFlowGraph).
Context (keys : gset BlockId).
Context (transfer : dominator_sets → BlockId → gset BlockId).

(** [x] dominates [b] as far as the sets of its predecessors say. *)
Definition inherits (d : dominator_sets) (b x : BlockId) : Prop :=
  x = b ∨ x ∈ all_blocks cfg ∧ ∀ p s, p ∈ preds cfg b → d !! p = Some s → x ∈ s.

(** The sets at any time: they contain all dominators, and what their predecessors
    say they contain. *)
Record sets_ok (d : dominator_sets) : Prop := {
  s_dom : dom d = keys;
  s_entry : d !! entry cfg = Some {[entry cfg]};
  s_blocks : ∀ b s, d !! b = Some s → s ⊆ all_blocks cfg;
  s_inherits : ∀ b s x, b ≠ entry cfg → d !! b = Some s → inherits d b x → x ∈ s;
  s_over : ∀ b s x, d !! b = Some s → x ∈ all_blocks cfg → dominated cfg x b → x ∈ s;
}.

Context (Hkeys : keys ⊆ all_blocks cfg).
Context (Htransfer : ∀ d b, sets_ok d → b ∈ keys → b ≠ entry cfg → ∀ x, x ∈ transfer d b ↔ inherits d b x).

Definition visit (st : dominator_sets * bool) (b : BlockId) : dominator_sets * bool :=
  let '(d, changed) := st in
  if decide (b = entry cfg) then (d, changed)
  else match d !! b with
       | Some old => if decide (transfer d b = old) then (d, changed) else (<[b := transfer d b]> d, true)
       | None => (d, changed)
       end.

Lemma inherits_shrink d b (s s' : gset BlockId) b' x : d !! b = Some s → s' ⊆ s →
  inherits (<[b := s']> d) b' x → inherits d b' x.
Proof using.
  intros Hb Hs [->|[Hx H]]; [by left|right]. split; [done|]. intros p t Hp Ht.
  destruct (decide (p = b)) as [->|Hne]; [|eapply H; [done|by rewrite lookup_insert_ne]].
  simplify_eq. apply Hs. eapply H; [done|]. apply lookup_insert_eq.
Qed.

Lemma transfer_shrinks d b s : sets_ok d → b ∈ keys → b ≠ entry cfg → d !! b = Some s → transfer d b ⊆ s.
Proof using Htransfer. intros Hok Hb Hne Hs x Hx. apply (s_inherits d Hok b s x Hne Hs). by apply Htransfer. Qed.

Lemma visit_ok d b s : sets_ok d → b ∈ keys → b ≠ entry cfg → d !! b = Some s →
  sets_ok (<[b := transfer d b]> d).
Proof using Htransfer Hkeys.
  intros Hok Hb Hne Hs. pose proof (transfer_shrinks d b s Hok Hb Hne Hs) as Hsub.
  destruct Hok as [Hd He Hbl Hi Ho] eqn:Eok. clear Eok. split.
  - rewrite dom_insert_L, <- Hd. apply elem_of_dom_2 in Hs. set_solver.
  - by rewrite lookup_insert_ne.
  - intros b' t [[<- <-]|[_ Ht]]%lookup_insert_Some; [|by eapply Hbl]. etrans; [exact Hsub|]. by eapply Hbl.
  - intros b' t x Hne' [[<- <-]|[Hbb Ht]]%lookup_insert_Some Hx%(inherits_shrink d b s); try done.
    + apply Htransfer; [by split|done|done|done].
    + by eapply Hi.
  - intros b' t x [[<- <-]|[_ Ht]]%lookup_insert_Some Hx Hdom; [|by eapply Ho].
    apply Htransfer; [by split|done|done|]. destruct (decide (x = b)) as [|Hxb]; [by left|right]. split; [done|].
    intros p t Hp Ht. eapply Ho; [done|done|]. by eapply dominated_pred.
Qed.

(** What a sweep does: without a change all visited sets are stable. *)
Definition stable (d : dominator_sets) (b : BlockId) : Prop :=
  b ≠ entry cfg → ∀ s, d !! b = Some s → transfer d b = s.

Lemma sweep_ok l d changed : sets_ok d → (∀ b, b ∈ l → b ∈ keys) →
  let '(d', changed') := foldl visit (d, changed) l in
  sets_ok d' ∧ (total d' ≤ total d)%nat ∧
  (changed' = false → changed = false ∧ d' = d ∧ ∀ b, b ∈ l → stable d b) ∧
  (changed' = true → changed = true ∨ (total d' < total d)%nat).
Proof using Htransfer Hkeys.
  revert d changed. induction l as [|b l IH]; intros d changed Hok Hl; cbn [foldl].
  - split_and!; [done|done|intros ->; split_and!; [done|done|by intros b ?%not_elem_of_nil]|by left].
  - assert (∀ b', b' ∈ l → b' ∈ keys) as Hl' by (intros b' ?; apply Hl; by right).
    cbn [visit]. destruct (decide (b = entry cfg)) as [->|Hne].
    { specialize (IH d changed Hok Hl'). destruct (foldl visit (d, changed) l) as [d' ch'].
      destruct IH as (H1 & H2 & H3 & H4). split_and!; [done|done| |done].
      intros E. destruct (H3 E) as (-> & -> & H). split_and!; [done|done|].
      intros b [->|Hb]%elem_of_cons; [by intros []|by apply H]. }
    assert (b ∈ keys) as Hb by (apply Hl; by left).
    destruct (d !! b) as [s|] eqn:Es; [|by apply not_elem_of_dom in Es; rewrite (s_dom d Hok) in Es].
    destruct (decide (transfer d b = s)) as [Et|Et].
    + specialize (IH d changed Hok Hl'). destruct (foldl visit (d, changed) l) as [d' ch'].
      destruct IH as (H1 & H2 & H3 & H4). split_and!; [done|done| |done].
      intros E. destruct (H3 E) as (-> & -> & H). split_and!; [done|done|].
      intros b' [->|Hb']%elem_of_cons; [|by apply H]. intros _ s' Hs'. by simplify_eq.
    + specialize (IH _ true (visit_ok d b s Hok Hb Hne Es) Hl').
      pose proof (total_insert d b s (transfer d b) Es) as Ht.
      assert (transfer d b ⊂ s) as Hsub.
      { split; [by apply transfer_shrinks|]. intros Hge. apply Et, set_eq. intros x.
        split; [by apply (transfer_shrinks d b s Hok)|apply Hge]. }
      specialize (Ht Hsub). destruct (foldl visit _ l) as [d' ch'].
      destruct IH as (H1 & H2 & H3 & H4). split_and!; [done|lia| |intros _; right; lia].
      intros E. by destruct (H3 E).
Qed.

(** The sets when nothing changes any more. *)
Definition settled (d : dominator_sets) : Prop := sets_ok d ∧ ∀ b, b ∈ keys → stable d b.

Lemma settled_exact d b s : (∀ b, reachable cfg b → b ∈ keys) → settled d → d !! b = Some s → reachable cfg b →
  ∀ x, x ∈ s ↔ dominated cfg x b.
Proof using Htransfer Hkeys.
  intros Hreach [Hok Hst] Hs Hb x. split.
  - intros Hx l Hl. revert s Hs x Hx Hb. induction Hl as [|p b l Hl IH Hp]; intros s Hs x Hx _.
    + rewrite (s_entry d Hok) in Hs. injection Hs as <-. apply elem_of_singleton in Hx as ->. by left.
    + assert (reachable cfg p) as Hrp by by eexists.
      assert (b ∈ keys) as Hbk by (apply Hreach; by eapply reachable_step).
      apply elem_of_app. destruct (decide (b = entry cfg)) as [->|Hne].
      { rewrite (s_entry d Hok) in Hs. injection Hs as <-. apply elem_of_singleton in Hx as ->. right. by left. }
      rewrite <- (Hst b Hbk Hne s Hs) in Hx. apply Htransfer in Hx; [|done..].
      destruct Hx as [->|[_ H]]; [right; by left|left].
      destruct (d !! p) as [t|] eqn:Et; [by eapply IH; eauto|].
      apply not_elem_of_dom in Et. rewrite (s_dom d Hok) in Et. by destruct Et; apply Hreach.
  - intros Hd. eapply (s_over d Hok); [done| |done].
    assert (entry cfg ∈ all_blocks cfg) as He.
    { apply Hkeys, Hreach. eexists. constructor. }
    by eapply dominated_block.
Qed.

(** The first sets: every block but the entry is dominated by all. *)
Lemma first_sets_ok d : entry cfg ∈ keys → dom d = keys → d !! entry cfg = Some {[entry cfg]} →
  (∀ b s, b ≠ entry cfg → d !! b = Some s → s = all_blocks cfg) → sets_ok d.
Proof using Hkeys.
  intros He Hd Hde Ha. split; [done|done| | |].
  - intros b s Hs. destruct (decide (b = entry cfg)) as [->|Hne]; [|by rewrite (Ha b s Hne Hs)].
    simplify_eq. apply singleton_subseteq_l. by apply Hkeys.
  - intros b s x Hne Hs Hx. rewrite (Ha b s Hne Hs). destruct Hx as [->|[? _]]; [|done].
    apply Hkeys. rewrite <- Hd. by eapply elem_of_dom_2.
  - intros b s x Hs Hx Hdom. destruct (decide (b = entry cfg)) as [->|Hne]; [|by rewrite (Ha b s Hne Hs)].
    simplify_eq. apply elem_of_singleton. by apply dominated_entry.
Qed.
End iteration.

(** ** The dominators of [ControlFlowGraph] *)
Section cfg_dominators.
Context (order : gset BlockId → list BlockId) (entries : ∀ A, gmap BlockId A → list (BlockId * A)).
Context (Horder : ∀ s, order s ≡ₚ elements s) (Hentries : ∀ A (m : gmap BlockId A), entries A m ≡ₚ map_to_list m).
Context (cfg : ControlFlowGraph) (Hentry : entry cfg ∈ all_blocks cfg).

Lemma elem_of_order s x : x ∈ order s ↔ x ∈ s.
Proof using Horder. rewrite Horder. apply elem_of_elements. Qed.

Lemma elem_of_entries {A} (m : gmap BlockId A) b x : (b, x) ∈ entries A m ↔ m !! b = Some x.
Proof using Hentries. rewrite Hentries. apply elem_of_map_to_list. Qed.

Definition cfg_transfer (d : dominator_sets) (b : BlockId) : gset BlockId :=
  {[b]} ∪ match blocks cfg !! b with Some block => intersect_predecessors order cfg d block | None => ∅ end.

Lemma intersect_spec d block x : x ∈ intersect_predecessors order cfg d block ↔
  x ∈ all_blocks cfg ∧ ∀ p s, p ∈ predecessors block → d !! p = Some s → x ∈ s.
Proof using Horder.
  unfold intersect_predecessors. setoid_rewrite <- (elem_of_order (predecessors block)).
  generalize (all_blocks cfg). induction (order (predecessors block)) as [|p l IH]; intros acc; cbn.
  - split; [intros Hx; split; [done|by intros p s ?%not_elem_of_nil]|by intros []].
  - rewrite IH. destruct (d !! p) as [s|] eqn:Ep.
    + rewrite elem_of_intersection. setoid_rewrite elem_of_cons. naive_solver.
    + setoid_rewrite elem_of_cons. naive_solver.
Qed.

Lemma cfg_transfer_spec d b x : b ∈ all_blocks cfg → x ∈ cfg_transfer d b ↔ inherits cfg d b x.
Proof using Horder.
  unfold all_blocks. intros [block Hb]%elem_of_dom. unfold cfg_transfer, inherits, preds. rewrite Hb.
  by rewrite elem_of_union, elem_of_singleton, intersect_spec.
Qed.

Lemma cfg_sweep_eq d : cfg_sweep order entries cfg d =
  foldl (visit cfg cfg_transfer) (d, false) (entries _ (blocks cfg)).*1.
Proof using Hentries.
  unfold cfg_sweep. assert (∀ b block, (b, block) ∈ entries _ (blocks cfg) → blocks cfg !! b = Some block) as H
    by (intros b block; apply elem_of_entries).
  revert H. generalize (d, false). induction (entries _ (blocks cfg)) as [|[b block] l IH]; intros st H; [done|].
  cbn [foldl fmap list_fmap fst]. rewrite <- IH by (intros b' block' ?; apply H; by right).
  assert (cfg_visit order cfg st (b, block) = visit cfg cfg_transfer st b) as ->; [|done].
  destruct st as [d' changed]. cbn. unfold cfg_transfer. by rewrite (H b block) by by left.
Qed.

Lemma cfg_iterate_ok fuel d : sets_ok cfg (all_blocks cfg) d → (total d < fuel)%nat →
  ∃ d', cfg_iterate order entries cfg fuel d = Some d' ∧ settled cfg (all_blocks cfg) cfg_transfer d'.
Proof using Horder Hentries.
  revert d. induction fuel as [|fuel IH]; intros d Hok Hf; [lia|]. cbn [cfg_iterate].
  rewrite cfg_sweep_eq.
  assert (∀ b, b ∈ (entries _ (blocks cfg)).*1 ↔ b ∈ all_blocks cfg) as Hl.
  { intros b. unfold all_blocks. rewrite elem_of_dom, list_elem_of_fmap. split.
    - intros ([b' block] & -> & Hb%elem_of_entries). by eexists.
    - intros [block Hb]. exists (b, block). by rewrite elem_of_entries. }
  pose proof (sweep_ok cfg (all_blocks cfg) cfg_transfer (reflexivity _)
    (λ d b _ Hb _ x, cfg_transfer_spec d b x Hb) (entries _ (blocks cfg)).*1 d false Hok (λ b, proj1 (Hl b))) as Hs.
  destruct (foldl _ _ _) as [d' changed]. destruct Hs as (Hok' & Hle & Hno & Hyes). destruct changed.
  - apply IH; [done|]. destruct (Hyes eq_refl); [done|lia].
  - destruct (Hno eq_refl) as (_ & -> & Hst). exists d. split; [done|]. split; [done|].
    intros b Hb. by apply Hst, Hl.
Qed.

(** Inserting the set of all blocks for every block of a list. *)
Lemma initial_lookup (l : list BlockId) (d : dominator_sets) b :
  foldl (λ d b, if decide (b = entry cfg) then d else <[b := all_blocks cfg]> d) d l !! b =
  if decide (b ∈ l ∧ b ≠ entry cfg) then Some (all_blocks cfg) else d !! b.
Proof using.
  clear. revert d. induction l as [|b' l IH]; intros d; cbn [foldl].
  - rewrite decide_False; [done|]. by intros [?%not_elem_of_nil _].
  - rewrite IH. destruct (decide (b ∈ l ∧ b ≠ entry cfg)) as [H|H].
    + rewrite decide_True by (set_solver). done.
    + destruct (decide (b' = entry cfg)) as [->|Hne].
      * rewrite decide_False by (rewrite elem_of_cons; naive_solver). done.
      * destruct (decide (b = b')) as [->|Hbb].
        -- rewrite lookup_insert_eq, decide_True; [done|]. split; [by left|done].
        -- rewrite lookup_insert_ne by done. rewrite decide_False; [done|].
           rewrite elem_of_cons. naive_solver.
Qed.

Lemma initial_sets_ok (l : list BlockId) keys : keys ⊆ all_blocks cfg → entry cfg ∈ keys →
  (∀ b, b ∈ l ↔ b ∈ keys) →
  sets_ok cfg keys (initial_sets cfg l) ∧
  (total (initial_sets cfg l) ≤ size (all_blocks cfg) * size (all_blocks cfg))%nat.
Proof using Hentry.
  intros Hk He Hl. unfold initial_sets.
  set (d := foldl _ _ _). assert (∀ b, d !! b = _) as Hd by (intros b; apply initial_lookup).
  assert (dom d = keys) as Hdom.
  { apply set_eq. intros b. rewrite elem_of_dom, Hd, <- Hl. destruct (decide (b = entry cfg)) as [->|Hne].
    - rewrite decide_False by naive_solver. rewrite lookup_singleton_eq. split; [intros _; by apply Hl|by eexists].
    - destruct (decide (b ∈ l)).
      + rewrite decide_True by done. split; [done|by eexists].
      + rewrite decide_False by naive_solver. rewrite lookup_singleton_ne by done. split; [by intros []|done]. }
  assert (d !! entry cfg = Some {[entry cfg]}) as Hde.
  { rewrite Hd, decide_False by naive_solver. apply lookup_singleton_eq. }
  assert (∀ b s, b ≠ entry cfg → d !! b = Some s → s = all_blocks cfg) as Ha.
  { intros b s Hne. rewrite Hd. destruct (decide _); [by intros [= <-]|]. by rewrite lookup_singleton_ne. }
  split; [by apply first_sets_ok|].
  etrans; [apply (total_bound d (size (all_blocks cfg)))|].
  - intros b s Hs. destruct (decide (b = entry cfg)) as [->|Hne]; [|by rewrite (Ha b s Hne Hs)].
    rewrite Hde in Hs. injection Hs as <-. apply subseteq_size. by apply singleton_subseteq_l.
  - apply Nat.mul_le_mono_r. rewrite <- (size_dom d), Hdom. by apply subseteq_size.
Qed.
End cfg_dominators.

(** [dominates] of a control flow graph decides dominance by paths. *)
Lemma cfg_dominates_decides (order : gset BlockId → list BlockId) (entries : ∀ A, gmap BlockId A → list (BlockId * A))
    (cfg : ControlFlowGraph) (fuel : nat) (a b : BlockId) :
  (∀ s, order s ≡ₚ elements s) → (∀ A (m : gmap BlockId A), entries A m ≡ₚ map_to_list m) →
  entry cfg ∈ all_blocks cfg → a ∈ all_blocks cfg → b ∈ all_blocks cfg →
  (size (all_blocks cfg) * size (all_blocks cfg) < fuel)%nat →
  ∃ r, cfg_dominates order entries cfg fuel a b = Some r ∧ (r = true ↔ ∀ l, walk cfg b l → a ∈ l).
Proof.
  intros Horder Hentries He Ha Hb Hfuel. unfold cfg_dominates.
  destruct (decide (a = b)) as [->|Hne].
  { exists true. split; [done|]. split; [intros _; apply dominated_refl|done]. }
  unfold compute_dominators, cfg_initial.
  destruct (initial_sets_ok cfg He (order (all_blocks cfg)) (all_blocks cfg)) as [Hok Htot]; [done|done| |].
  { intros x. by apply elem_of_order. }
  destruct (cfg_iterate_ok order entries Horder Hentries cfg fuel _ Hok) as (d & E & Hd); [lia|].
  unfold initial_sets in E. rewrite E. cbn [mbind option_bind].
  destruct Hd as [Hdok Hst] eqn:Ed. clear Ed.
  destruct (d !! b) as [s|] eqn:Es; [|apply not_elem_of_dom in Es; by rewrite (s_dom _ _ _ Hdok) in Es].
  eexists. split; [done|]. rewrite bool_decide_eq_true. split.
  - intros Hx l Hl.
    apply (settled_exact cfg (all_blocks cfg) (cfg_transfer order cfg) (reflexivity _)
      (λ d b _ Hb _ x, cfg_transfer_spec order Horder cfg d b x Hb) d b s); try done.
    + intros y [l' Hl']. by eapply walk_blocks, walk_end.
    + by eexists.
  - intros Hall. by apply (s_over _ _ _ Hdok b s a Es Ha).
Qed.

(** C19. The dominators of a control flow graph are exact: for blocks [a] and [b] of a
    graph with its entry, one sweep more than the square of the number of blocks is
    enough, and [dominates] answers whether every path from the entry to [b] passes
    [a]; a block that no path reaches is dominated by all. *)
Theorem cfg_dominates_exact (order : gset BlockId → list BlockId) (entries : ∀ A, gmap BlockId A → list (BlockId * A))
    (cfg : ControlFlowGraph) (fuel : nat) (a b : BlockId) :
  (∀ s, order s ≡ₚ elements s) → (∀ A (m : gmap BlockId A), entries A m ≡ₚ map_to_list m) →
  entry cfg ∈ all_blocks cfg → a ∈ all_blocks cfg → b ∈ all_blocks cfg →
  (size (all_blocks cfg) * size (all_blocks cfg) < fuel)%nat →
  ∃ r, cfg_dominates order entries cfg fuel a b = Some r ∧ (r = true ↔ ∀ l, walk cfg b l → a ∈ l).
Proof. exact (cfg_dominates_decides order entries cfg fuel a b). Qed.

(** A loop whose head is reached over a branch. *)
Definition example_block (i : BlockId) (p s : list BlockId) : BasicBlock :=
  {| block_id := i; predecessors := list_to_set p; successors := list_to_set s; definitions := []; uses := [] |}.
Definition example_cfg : ControlFlowGraph :=
  foldl add_block (new_cfg 0 4)
    [example_block 0 [] [1; 2]; example_block 1 [0] [3]; example_block 2 [0] [3]; example_block 3 [1; 2; 4] [4];
     example_block 4 [3] [3]].

Lemma cfg_dominates_exact_witness :
  ∃ r, cfg_dominates elements (λ _, map_to_list) example_cfg 26 3 4 = Some r ∧
    (r = true ↔ ∀ l, walk example_cfg 4 l → 3 ∈ l).
Proof.
  apply (cfg_dominates_exact elements (λ _, map_to_list) example_cfg 26 3 4); [done|done| | | |];
    [by apply elem_of_dom; eexists..|]. vm_compute. lia.
Defined.

(** The join dominates what follows it, a branch does not. *)
Lemma cfg_dominates_example :
  cfg_dominates elements (λ _, map_to_list) example_cfg 26 3 4 = Some true ∧
  cfg_dominates elements (λ _, map_to_list) example_cfg 26 1 3 = Some false.
Proof. split; vm_compute; reflexivity. Qed.

(** ** Reverse postorder *)
Section rpo.
Context (order : gset BlockId → list BlockId) (Horder : ∀ s, order s ≡ₚ elements s).
Context (cfg : ControlFlowGraph) (Hcfg : cfg_ok cfg).

Definition edge (a b : BlockId) : Prop := b ∈ succs cfg a.
Abbreviation state := (gset BlockId * list BlockId)%type.

(** What visits of the blocks of [l] add: they list the newly visited blocks, which
    are reached from [l], and all their successors are visited. *)
Record grows (l : list BlockId) (st st' : state) : Prop := {
  g_mono : st.1 ⊆ st'.1;
  g_roots : ∀ b, b ∈ l → b ∈ st'.1;
  g_new : ∃ new, st'.2 = st.2 ++ new ∧ ∀ x, x ∈ new ↔ x ∈ st'.1 ∧ x ∉ st.1;
  g_closed : ∀ x y, x ∈ st'.1 → x ∉ st.1 → edge x y → y ∈ st'.1;
  g_reached : ∀ x, x ∈ st'.1 → x ∉ st.1 → ∃ b, b ∈ l ∧ rtc edge b x;
}.

Lemma grows_nil st : grows [] st st.
Proof.
  split; [done|by intros b ?%not_elem_of_nil| |done|done]. exists []. rewrite app_nil_r. split; [done|].
  intros x. split; [by intros ?%not_elem_of_nil|by intros []].
Qed.

Lemma grows_cons b l st st1 st2 : grows [b] st st1 → grows l st1 st2 → grows (b :: l) st st2.
Proof.
  intros [M1 R1 [n1 [E1 N1]] C1 H1] [M2 R2 [n2 [E2 N2]] C2 H2]. split.
  - by etrans.
  - intros x [->|Hx]%elem_of_cons; [apply M2, R1; by left|by apply R2].
  - exists (n1 ++ n2). rewrite E2, E1, app_assoc. split; [done|]. intros x.
    rewrite elem_of_app, N1, N2. destruct (decide (x ∈ st1.1)); set_solver.
  - intros x y Hx Hn He. destruct (decide (x ∈ st1.1)) as [Hin|Hin]; [by apply M2, (C1 x y)|by apply (C2 x y)].
  - intros x Hx Hn. destruct (decide (x ∈ st1.1)) as [Hin|Hin].
    + destruct (H1 x Hin Hn) as (c & ->%list_elem_of_singleton & Hc). exists b. split; [by left|done].
    + destruct (H2 x Hx Hin) as (c & ? & Hc). exists c. split; [by right|done].
Qed.

Lemma for_each_grows (f : BlockId → state → option state) (P : state → Prop) l st :
  (∀ b st, b ∈ l → P st → ∃ st', f b st = Some st' ∧ grows [b] st st') →
  (∀ b st st', P st → grows [b] st st' → P st') → P st →
  ∃ st', for_each f l st = Some st' ∧ grows l st st'.
Proof.
  intros Hf HP. revert st. induction l as [|b l IH]; intros st Hst.
  - exists st. split; [done|apply grows_nil].
  - destruct (Hf b st) as (st1 & E1 & G1); [by left|done|].
    destruct (IH (λ b st Hb, Hf b st (list_elem_of_further _ _ _ Hb)) st1) as (st2 & E2 & G2); [by eapply HP|].
    exists st2. cbn. rewrite E1. split; [done|]. by eapply grows_cons.
Qed.

(** The unvisited blocks bound the depth. *)
Definition room (fuel : nat) (st : state) : Prop := (size (all_blocks cfg ∖ st.1) < fuel)%nat.

Lemma room_grows fuel b st st' : room fuel st → grows [b] st st' → room fuel st'.
Proof.
  unfold room. intros Hr [Hm _ _ _ _]. eapply Nat.le_lt_trans; [|exact Hr]. apply subseteq_size. set_solver.
Qed.

Lemma room_enter fuel b (v : gset BlockId) (r : list BlockId) : b ∈ all_blocks cfg → b ∉ v → room (S fuel) (v, r) →
  room fuel ({[b]} ∪ v, r).
Proof.
  unfold room. cbn. intros Hb Hv Hr. set (rest := all_blocks cfg ∖ ({[b]} ∪ v)).
  assert (all_blocks cfg ∖ v = {[b]} ∪ rest) as E.
  { apply set_eq. intros x. unfold rest. rewrite elem_of_difference, elem_of_union, elem_of_difference, elem_of_union, elem_of_singleton.
    destruct (decide (x = b)) as [->|]; tauto. }
  rewrite E, size_union, size_singleton in Hr by (unfold rest; set_solver). lia.
Qed.

Lemma succs_order b block : blocks cfg !! b = Some block → ∀ x, x ∈ order (successors block) ↔ edge b x.
Proof. intros Hb x. unfold edge, succs. by rewrite Hb, elem_of_order. Qed.

Lemma rpo_visit_ok fuel b st : b ∈ all_blocks cfg → room fuel st →
  ∃ st', rpo_visit order cfg fuel b st = Some st' ∧ grows [b] st st'.
Proof.
  revert b st. induction fuel as [|fuel IH]; intros b [v r] Hb Hr; [unfold room in Hr; lia|].
  cbn [rpo_visit]. destruct (decide (b ∈ v)) as [Hin|Hin].
  - eexists. split; [done|]. split; cbn; [done|by intros x ->%list_elem_of_singleton| |done|done].
    exists []. rewrite app_nil_r. split; [done|]. intros x. split; [by intros ?%not_elem_of_nil|by intros []].
  - assert (∃ block, blocks cfg !! b = Some block) as [block Hblock] by (by apply elem_of_dom).
    rewrite Hblock. destruct (for_each_grows (rpo_visit order cfg fuel) (room fuel) (order (successors block)) ({[b]} ∪ v, r))
      as ([v' r'] & E & [M R [new [En Hn]] C H]).
    + intros x st Hx Hst. apply IH; [|done]. rewrite (succs_order b block Hblock) in Hx. by eapply ok_targets.
    + intros x st st' Hst Hg. by eapply room_grows.
    + by apply room_enter.
    + rewrite E. cbn [mbind option_bind fst snd] in *. eexists. split; [done|]. subst r'.
      assert (b ∈ v') as Hbv by set_solver. split; cbn [fst snd].
      * set_solver.
      * by intros x ->%list_elem_of_singleton.
      * exists (new ++ [b]). rewrite app_assoc. split; [done|]. intros x.
        rewrite elem_of_app, list_elem_of_singleton, Hn, elem_of_union, elem_of_singleton.
        destruct (decide (x = b)) as [->|]; [tauto|]. tauto.
      * intros x y Hx Hxv He. destruct (decide (x = b)) as [->|Hne]; [apply R; by rewrite (succs_order b block)|].
        apply (C x y); [done|set_solver|done].
      * intros x Hx Hxv. exists b. split; [by left|]. destruct (decide (x = b)) as [->|Hne]; [done|].
        destruct (H x Hx) as (c & Hc & Hcx); [set_solver|].
        rewrite (succs_order b block Hblock) in Hc. by eapply rtc_l.
Qed.

Lemma edge_pred a b : a ∈ all_blocks cfg → edge a b → a ∈ preds cfg b.
Proof. intros Ha He. apply (ok_converse cfg Hcfg a b Ha); [by eapply ok_targets|done]. Qed.

Lemma reachable_edges b : reachable cfg b ↔ rtc edge (entry cfg) b.
Proof.
  split.
  - intros [l Hl]. induction Hl as [|p b l Hl IH Hp]; [done|]. eapply rtc_r; [exact IH|].
    apply (ok_converse cfg Hcfg p b); [|by eapply preds_block|done].
    eapply walk_blocks; [apply ok_entry, Hcfg|exact Hl|by eapply walk_end].
  - intros H. revert b H. apply (rtc_ind_r (reachable cfg) (entry cfg)).
    + eexists. constructor.
    + intros x y _ He [l Hl]. eapply reachable_step; [by exists l|]. apply edge_pred; [|done].
      eapply walk_blocks; [apply ok_entry, Hcfg|exact Hl|by eapply walk_end].
Qed.

Lemma reachable_block b : reachable cfg b → b ∈ all_blocks cfg.
Proof. intros [l Hl]. eapply walk_blocks; [apply ok_entry, Hcfg|exact Hl|by eapply walk_end]. Qed.

(** The order lists exactly the blocks that are reached. *)
Lemma rpo_ok fuel : (size (all_blocks cfg) < fuel)%nat →
  ∃ rpo, compute_reverse_postorder order cfg fuel = Some rpo ∧ ∀ b, b ∈ rpo ↔ reachable cfg b.
Proof.
  intros Hf. unfold compute_reverse_postorder.
  destruct (rpo_visit_ok fuel (entry cfg) (∅, [])) as ([v r] & E & [M R [new [En Hn]] C H]).
  - apply ok_entry, Hcfg.
  - unfold room. cbn. by rewrite difference_empty_L.
  - rewrite E. cbn [mbind option_bind fst snd] in *. eexists. split; [done|]. subst r.
    intros b. rewrite elem_of_reverse, app_nil_l, Hn, reachable_edges. split.
    + intros [Hb Hne]. destruct (H b Hb Hne) as (c & ->%list_elem_of_singleton & Hc). done.
    + intros Hb. split; [|apply not_elem_of_empty]. revert b Hb.
      apply (rtc_ind_r (λ b, b ∈ v) (entry cfg)); [apply R; by left|].
      intros x y _ He IH. apply (C x y); [done|apply not_elem_of_empty|done].
Qed.

(** The postorder numbers are positions in the same order. *)
Definition numbers_of (r : list BlockId) : gmap BlockId nat * nat :=
  foldl (λ '(m, c) b, (<[b := c]> m, S c)) (∅, 0%nat) r.

Lemma postorder_visit_eq fuel b v r :
  postorder_visit order cfg fuel b (v, numbers_of r) =
  (λ st, (st.1, numbers_of st.2)) <$> rpo_visit order cfg fuel b (v, r).
Proof.
  revert b v r. induction fuel as [|fuel IH]; intros b v r; [done|]. cbn [rpo_visit postorder_visit].
  destruct (numbers_of r) as [m c] eqn:En. destruct (decide (b ∈ v)); [by cbn [fmap option_fmap option_map fst snd]; rewrite En|].
  rewrite <- En. clear m c En.
  assert (∀ l v r, for_each (postorder_visit order cfg fuel) l (v, numbers_of r) =
    (λ st, (st.1, numbers_of st.2)) <$> for_each (rpo_visit order cfg fuel) l (v, r)) as Hl.
  { induction l as [|x l IHl]; intros v' r'; [done|]. cbn [for_each]. rewrite IH.
    destruct (rpo_visit order cfg fuel x (v', r')) as [[v1 r1]|]; [|done].
    cbn [fmap option_fmap option_map mbind option_bind fst snd]. by rewrite IHl. }
  assert (∀ r b, numbers_of (r ++ [b]) = (<[b := (numbers_of r).2]> (numbers_of r).1, S (numbers_of r).2)) as Hs.
  { intros r' b'. unfold numbers_of at 1. rewrite foldl_app. cbn. fold (numbers_of r'). by destruct (numbers_of r'). }
  destruct (blocks cfg !! b) as [block|]; cbn [mbind option_bind].
  - rewrite Hl. destruct (for_each _ _ _) as [[v1 r1]|]; [|done].
    cbn [fmap option_fmap option_map mbind option_bind fst snd]. by rewrite Hs.
  - cbn [fmap option_fmap option_map fst snd]. by rewrite Hs.
Qed.
End rpo.

(** ** The dominators of [DominanceInfo] *)
(** The intersection over a list of predecessors, after some of them. *)
Lemma meet_spec (d : dominator_sets) (l : list BlockId) acc :
  match foldl (λ new_dom p, match d !! p with
        | Some s => match new_dom with None => Some s | Some current => Some (current ∩ s) end
        | None => new_dom
        end) acc l with
  | Some s => ∀ x, x ∈ s ↔ (∀ t, acc = Some t → x ∈ t) ∧ ∀ p t, p ∈ l → d !! p = Some t → x ∈ t
  | None => acc = None ∧ ∀ p, p ∈ l → d !! p = None
  end.
Proof.
  revert acc. induction l as [|p l IH]; intros acc; cbn [foldl].
  - destruct acc as [s|]; [|split; [done|by intros p ?%not_elem_of_nil]].
    intros x. split; [intros Hx; split; [by intros t [= <-]|by intros p t ?%not_elem_of_nil]|intros [H _]; by apply H].
  - destruct (d !! p) as [s|] eqn:Ep.
    + specialize (IH (match acc with None => Some s | Some current => Some (current ∩ s) end)).
      destruct (foldl _ _ l) as [m|]; [|by destruct acc, IH].
      intros x. rewrite IH. setoid_rewrite elem_of_cons. destruct acc as [t|].
      * split.
        -- intros [H1 H2]. specialize (H1 _ eq_refl). apply elem_of_intersection in H1 as [? ?].
           split; [by intros u [= <-]|]. intros q u [->|Hq] Hu; [by simplify_eq|by eapply H2].
        -- intros [H1 H2]. split; [|intros q u Hq Hu; eapply H2; eauto].
           intros u [= <-]. apply elem_of_intersection. split; [by apply H1|]. eapply H2; [by left|done].
      * split.
        -- intros [H1 H2]. split; [done|]. intros q u [->|Hq] Hu; [|by eapply H2]. simplify_eq. by apply H1.
        -- intros [_ H2]. split; [|intros q u Hq Hu; eapply H2; eauto]. intros u [= <-]. eapply H2; [by left|done].
    + specialize (IH acc). destruct (foldl _ _ l) as [m|].
      * intros x. rewrite IH. setoid_rewrite elem_of_cons. naive_solver.
      * destruct IH as [? H]. split; [done|]. intros q [->|Hq]%elem_of_cons; [done|by apply H].
Qed.

Section info_dominators.
Context (order : gset BlockId → list BlockId) (Horder : ∀ s, order s ≡ₚ elements s).
Context (cfg : ControlFlowGraph) (Hcfg : cfg_ok cfg).
Context (rpo : list BlockId) (Hrpo : ∀ b, b ∈ rpo ↔ reachable cfg b).

Definition keys : gset BlockId := list_to_set rpo.

Lemma elem_of_keys b : b ∈ keys ↔ reachable cfg b.
Proof. unfold keys. by rewrite elem_of_list_to_set, Hrpo. Qed.

Definition info_transfer (d : dominator_sets) (b : BlockId) : gset BlockId :=
  {[b]} ∪ match blocks cfg !! b with Some block => default ∅ (meet_predecessors order d block) | None => ∅ end.

Lemma reachable_pred b : reachable cfg b → b ≠ entry cfg → ∃ p, p ∈ preds cfg b ∧ reachable cfg p.
Proof. intros [l Hl] Hne. inversion Hl as [|p ? l' Hl' Hp]; subst; [done|]. exists p. split; [done|by eexists]. Qed.

Lemma info_transfer_spec d b : sets_ok cfg keys d → b ∈ keys → b ≠ entry cfg →
  ∀ x, x ∈ info_transfer d b ↔ inherits cfg d b x.
Proof.
  intros Hok Hb Hne x. apply elem_of_keys in Hb. destruct (reachable_pred b Hb Hne) as (p & Hp & Hrp).
  unfold info_transfer, inherits. unfold preds in *. destruct (blocks cfg !! b) as [block|]; [|set_solver].
  rewrite elem_of_union, elem_of_singleton. unfold meet_predecessors.
  pose proof (meet_spec d (order (predecessors block)) None) as Hm.
  assert (∃ s, d !! p = Some s) as [s Hs].
  { apply elem_of_dom. by rewrite (s_dom _ _ _ Hok), elem_of_keys. }
  destruct (foldl _ _ _) as [m|].
  - cbn. rewrite Hm. setoid_rewrite (elem_of_order order Horder). split.
    + intros [->|[_ H]]; [by left|right]. split; [|done]. apply (s_blocks _ _ _ Hok p s Hs). by eapply H.
    + intros [->|[_ H]]; [by left|right]. split; [done|exact H].
  - destruct Hm as [_ Hm]. rewrite Hm in Hs; [done|]. by rewrite elem_of_order.
Qed.

Lemma visit_block_eq st b : b ∈ keys → dom st.1 = keys →
  visit_block order cfg st b = visit cfg info_transfer st b.
Proof.
  intros Hb Hd. destruct st as [d changed]. cbn in *. destruct (decide (b = entry cfg)); [done|].
  assert (b ∈ all_blocks cfg) as Hblock by by apply reachable_block, elem_of_keys.
  unfold all_blocks in Hblock.
  apply elem_of_dom in Hblock as [block Hblock]. unfold info_transfer. rewrite Hblock.
  destruct (d !! b) eqn:E; [done|]. apply not_elem_of_dom in E. by rewrite Hd in E.
Qed.

Lemma visits_eq l st : (∀ b, b ∈ l → b ∈ keys) → dom st.1 = keys →
  foldl (visit_block order cfg) st l = foldl (visit cfg info_transfer) st l.
Proof.
  revert st. induction l as [|b l IH]; intros st Hl Hd; [done|]. cbn [foldl].
  rewrite visit_block_eq by (done || apply Hl; by left). apply IH; [intros ? ?; apply Hl; by right|].
  destruct st as [d changed]. cbn in *. destruct (decide _); [done|]. destruct (d !! b) as [s|] eqn:E; [|done].
  destruct (decide _); [done|]. cbn. rewrite dom_insert_L, Hd. assert (b ∈ keys) by (apply Hl; by left).
  apply subseteq_union_1_L. by apply singleton_subseteq_l.
Qed.

Lemma keys_blocks : keys ⊆ all_blocks cfg.
Proof. intros b Hb%elem_of_keys. by apply reachable_block. Qed.

Lemma iterate_ok n d : sets_ok cfg keys d → (total d < n)%nat →
  settled cfg keys info_transfer (iterate order cfg n rpo d).
Proof.
  revert d. induction n as [|n IH]; intros d Hok Hn; [lia|]. cbn [iterate].
  assert (∀ b, b ∈ rpo → b ∈ keys) as Hl by (intros b ?; unfold keys; by apply elem_of_list_to_set).
  rewrite visits_eq by (done || apply Hok).
  pose proof (sweep_ok cfg keys info_transfer keys_blocks info_transfer_spec rpo d false Hok Hl) as Hs.
  destruct (foldl _ _ _) as [d' changed]. destruct Hs as (Hok' & Hle & Hno & Hyes). destruct changed.
  - apply IH; [done|]. destruct (Hyes eq_refl); [done|lia].
  - destruct (Hno eq_refl) as (_ & -> & Hst). split; [done|]. intros b Hb. apply Hst.
    unfold keys in Hb. by apply elem_of_list_to_set in Hb.
Qed.

(** The sets are exact on the blocks that are reached, and there are no others. *)
Lemma info_sets : let d := compute_dominators_iterative order cfg rpo in
  dom d = keys ∧ ∀ b s, d !! b = Some s → ∀ x, x ∈ s ↔ dominated cfg x b.
Proof.
  intros d. unfold d, compute_dominators_iterative, max_iterations.
  assert (entry cfg ∈ keys) as He by (apply elem_of_keys; eexists; constructor).
  destruct (initial_sets_ok cfg (ok_entry cfg Hcfg) rpo keys keys_blocks He) as [Hok Ht].
  { intros b. unfold keys. by rewrite elem_of_list_to_set. }
  assert (settled cfg keys info_transfer
    (iterate order cfg (size (blocks cfg) * size (blocks cfg) + 10) rpo (initial_sets cfg rpo))) as Hset.
  { apply iterate_ok; [done|]. unfold all_blocks in Ht. rewrite size_dom in Ht. lia. }
  pose proof Hset as [Hok' _]. split; [apply Hok'|]. intros b s Hs.
  eapply (settled_exact cfg keys info_transfer keys_blocks info_transfer_spec); [|exact Hset|exact Hs|].
  - intros y Hy. by apply elem_of_keys.
  - apply elem_of_keys. rewrite <- (s_dom _ _ _ Hok'). by eapply elem_of_dom_2.
Qed.
End info_dominators.
