(* ===== verification/DominanceTree.v ===== *)
(** * Dominator trees, frontiers and promotions: facts

    Dominators of a block form a chain, so the immediate dominator is the one with
    the most dominators; frontiers are collected by climbing the tree.  What
    [DominanceInfo::compute] returns is exact, and a promoted reference is
    allocated on every path to its uses. *)

From stdpp Require Import gmap list relations.
From S2P Require Import Prelude Dominance DominanceFacts.
Open Scope Z_scope.

(** ** Dominance is a tree order *)
Section order_facts.
Context (cfg : ControlFlowGraph).
Abbreviation walk := (walk cfg).
Abbreviation dominated := (dominated cfg).
Abbreviation reachable := (reachable cfg).

Lemma walk_last b l : walk b l → last l = Some b.
Proof. destruct 1; [done|]. apply last_snoc. Qed.

Lemma walk_prefix b l x : walk b l → x ∈ l → ∃ l1 l2, l = (l1 ++ [x]) ++ l2 ∧ walk x (l1 ++ [x]).
Proof.
  intros Hw. revert x. induction Hw as [|p b l Hw IH Hp]; intros x Hx.
  - apply list_elem_of_singleton in Hx as ->. exists [], []. split; [done|constructor].
  - apply elem_of_app in Hx as [Hx| ->%list_elem_of_singleton].
    + destruct (IH x Hx) as (l1 & l2 & -> & H). exists l1, (l2 ++ [b]). split; [by rewrite app_assoc|done].
    + exists l, []. rewrite app_nil_r. split; [done|by eapply walk_step].
Qed.

(** A path may be entered at any block by another path to it. *)
Lemma walk_replace b l1 x l2 l' : walk b ((l1 ++ [x]) ++ l2) → walk x l' → walk b (l' ++ l2).
Proof.
  intros Hw Hx. remember ((l1 ++ [x]) ++ l2) as l eqn:El. revert l2 El.
  induction Hw as [|p b l Hw IH Hp]; intros l2 El.
  - destruct l2 as [|y l2 _] using rev_ind.
    + rewrite app_nil_r in El |- *. destruct l1 as [|? [|? ?]]; try done. by injection El as <-.
    + rewrite app_assoc in El. apply (app_inj_tail [] _) in El as [El _]. by destruct l1.
  - destruct l2 as [|y l2 _] using rev_ind.
    + rewrite app_nil_r in El |- *. by apply app_inj_tail in El as [_ ->].
    + rewrite app_assoc in El. apply app_inj_tail in El as [-> ->].
      rewrite app_assoc. eapply walk_step; [by apply IH|done].
Qed.

Lemma dominated_reachable a b : dominated a b → reachable b → reachable a.
Proof.
  intros Hd [l Hl]. destruct (walk_prefix b l a Hl (Hd l Hl)) as (l1 & l2 & _ & H). by eexists.
Qed.

Lemma dominated_trans a b c : dominated a b → dominated b c → dominated a c.
Proof.
  intros Hab Hbc l Hl. destruct (walk_prefix c l b Hl (Hbc l Hl)) as (l1 & l2 & -> & H).
  apply elem_of_app. left. by apply Hab.
Qed.

Lemma dominated_antisym a b : reachable b → dominated a b → dominated b a → a = b.
Proof.
  intros [l Hl] Hab Hba. remember (length l) as n eqn:En. revert l Hl En.
  induction n as [n IH] using (well_founded_induction lt_wf). intros l Hl ->.
  destruct (walk_prefix b l a Hl (Hab l Hl)) as (l1 & l2 & El & Ha).
  destruct (walk_prefix a _ b Ha (Hba _ Ha)) as (l3 & l4 & El' & Hb).
  destruct l2 as [|x l2].
  - apply walk_last in Hl. rewrite El, app_nil_r, last_snoc in Hl. by injection Hl.
  - apply (IH (length (l3 ++ [b]))) with (l := l3 ++ [b]); [|done|done].
    rewrite El, El', !length_app. cbn. lia.
Qed.

(** The last element of a list with a property. *)
Lemma last_occurrence {A} (P : A → Prop) `{!∀ x, Decision (P x)} (l : list A) x : x ∈ l → P x →
  ∃ l1 y l2, l = (l1 ++ [y]) ++ l2 ∧ P y ∧ ∀ z, z ∈ l2 → ¬ P z.
Proof.
  intros Hx HP. induction l as [|a l IH] using rev_ind; [by apply not_elem_of_nil in Hx|].
  destruct (decide (P a)) as [Ha|Ha].
  - exists l, a, []. rewrite app_nil_r. split_and!; [done|done|by intros z ?%not_elem_of_nil].
  - apply elem_of_app in Hx as [Hx| ->%list_elem_of_singleton]; [|done].
    destruct (IH Hx) as (l1 & y & l2 & -> & Hy & Hz). exists l1, y, (l2 ++ [a]).
    rewrite <- !app_assoc. split_and!; [done|done|]. intros z [?| ->%list_elem_of_singleton]%elem_of_app; auto.
Qed.

Lemma dominated_chain x y b : reachable b → dominated x b → dominated y b → dominated x y ∨ dominated y x.
Proof.
  intros [l Hl] Hx Hy.
  destruct (last_occurrence (λ z, z = x ∨ z = y) l x (Hx l Hl)) as (l1 & z & l2 & -> & Hz & Hno); [by left|].
  assert (∀ u, dominated u b → u ∉ l2 → dominated u z) as Hu.
  { intros u Hu Hnu l' Hl'. pose proof (Hu _ (walk_replace b l1 z l2 l' Hl Hl')) as Hin.
    by apply elem_of_app in Hin as [|]. }
  destruct Hz as [->| ->]; [right|left]; apply Hu; [done| |done|]; intros Hin; apply (Hno _ Hin); auto.
Qed.

(** [d] is the immediate dominator of [b]. *)
Definition idom (d b : BlockId) : Prop :=
  d ≠ b ∧ dominated d b ∧ ∀ c, c ≠ b → dominated c b → dominated c d.

Lemma idom_unique d d' b : reachable b → idom d b → idom d' b → d = d'.
Proof.
  intros Hb (Hn & Hd & Hc) (Hn' & Hd' & Hc').
  apply dominated_antisym; [by eapply dominated_reachable|auto|auto].
Qed.

(** Strict dominators are the dominators of the immediate one. *)
Lemma idom_strict d b x : reachable b → idom d b → dominated x d ↔ x ≠ b ∧ dominated x b.
Proof.
  intros Hb (Hn & Hd & Hc). split; [|intros []; auto]. intros Hx. split; [|by eapply dominated_trans].
  intros ->. apply Hn. by apply dominated_antisym.
Qed.

(** A block that only precedes itself is not reached. *)
Lemma pred_other b : reachable b → b ≠ entry cfg → ∃ p, p ∈ preds cfg b ∧ p ≠ b ∧ reachable p.
Proof.
  intros [l Hl] Hne. induction Hl as [|p b l Hl IH Hp]; [done|].
  destruct (decide (p = b)) as [->|Hpb]; [by apply IH|]. exists p. split_and!; [done|done|by eexists].
Qed.

Lemma dominated_by_entry b : dominated (entry cfg) b.
Proof. intros l Hl. induction Hl as [|p b l _ IH _]; [by left|]. apply elem_of_app. by left. Qed.
End order_facts.

(** ** Immediate dominators *)
Section tree.
Context (order : gset BlockId → list BlockId) (entries : ∀ A, gmap BlockId A → list (BlockId * A)).
Context (Horder : ∀ s, order s ≡ₚ elements s) (Hentries : ∀ A (m : gmap BlockId A), entries A m ≡ₚ map_to_list m).
Context (cfg : ControlFlowGraph) (Hcfg : cfg_ok cfg).
(** Exact sets of dominators of the blocks that are reached. *)
Context (d : dominator_sets) (Hdom : ∀ b, b ∈ dom d ↔ reachable cfg b)
  (Hd : ∀ b s, d !! b = Some s → ∀ x, x ∈ s ↔ dominated cfg x b).

Definition count (b : BlockId) : nat := match d !! b with Some s => size s | None => 0%nat end.

Lemma sets_lookup b : reachable cfg b → ∃ s, d !! b = Some s ∧ ∀ x, x ∈ s ↔ dominated cfg x b.
Proof. intros Hb. apply Hdom, elem_of_dom in Hb as [s Hs]. exists s. split; [done|by eapply Hd]. Qed.

Lemma count_lt a b : reachable cfg b → dominated cfg a b → a ≠ b → (count a < count b)%nat.
Proof.
  intros Hb Hab Hne. destruct (sets_lookup b Hb) as (s & Hs & Hsx).
  destruct (sets_lookup a) as (t & Ht & Htx); [by eapply dominated_reachable|].
  unfold count. rewrite Hs, Ht. apply subset_size. split.
  - intros x Hx. apply Hsx. eapply dominated_trans; [by apply Htx|done].
  - intros Hge. apply Hne. apply (dominated_antisym cfg a b Hb Hab). apply Htx, Hge, Hsx, dominated_refl.
Qed.

Definition closest_step (b : BlockId) (st : option BlockId * nat) (x : BlockId) : option BlockId * nat :=
  if decide (x = b) then st else if (st.2 <? count x)%nat then (Some x, count x) else st.

Lemma closest_eq b s : closest order d b s = (foldl (closest_step b) (None, 0%nat) (order s)).1.
Proof.
  unfold closest. f_equal. generalize (@None BlockId, 0%nat). induction (order s) as [|x l IH]; intros [i m]; [done|].
  cbn [foldl]. rewrite <- IH. done.
Qed.

(** The fold keeps a candidate with the largest count. *)
Lemma closest_max b (s : gset BlockId) :
  match closest order d b s with
  | Some i => i ∈ s ∧ i ≠ b ∧ ∀ c, c ∈ s → c ≠ b → (count c ≤ count i)%nat
  | None => ∀ c, c ∈ s → c ≠ b → count c = 0%nat
  end.
Proof.
  rewrite closest_eq. set (f := closest_step b).
  assert (∀ l (P : BlockId → Prop) i m, (match i with Some i => i ≠ b ∧ P i ∧ m = count i | None => m = 0%nat end) →
    (∀ c, P c → c ≠ b → (count c ≤ m)%nat) →
    match (foldl f (i, m) l).1 with
    | Some i => (P i ∨ i ∈ l) ∧ i ≠ b ∧ ∀ c, P c ∨ c ∈ l → c ≠ b → (count c ≤ count i)%nat
    | None => ∀ c, P c ∨ c ∈ l → c ≠ b → count c = 0%nat
    end) as Hl.
  { induction l as [|x l IH]; intros P i m Hi Hm; cbn [foldl].
    - cbn. destruct i as [i|].
      + destruct Hi as (? & ? & ->). split_and!; [by left|done|]. intros c [Hc|?%not_elem_of_nil]; [auto|done].
      + subst m. intros c [Hc|?%not_elem_of_nil] Hne; [|done]. specialize (Hm c Hc Hne). lia.
    - assert (∀ i m, (match i with Some i => i ≠ b ∧ (P i ∨ i = x) ∧ m = count i | None => m = 0%nat end) →
        (∀ c, P c ∨ c = x → c ≠ b → (count c ≤ m)%nat) →
        match (foldl f (i, m) l).1 with
        | Some i => (P i ∨ i ∈ x :: l) ∧ i ≠ b ∧ ∀ c, P c ∨ c ∈ x :: l → c ≠ b → (count c ≤ count i)%nat
        | None => ∀ c, P c ∨ c ∈ x :: l → c ≠ b → count c = 0%nat
        end) as Hnext.
      { intros i' m' Hi' Hm'. specialize (IH (λ c, P c ∨ c = x) i' m' Hi' Hm'). cbn beta in IH.
        destruct (foldl f (i', m') l).1; setoid_rewrite elem_of_cons; naive_solver. }
      assert (f (i, m) x = if decide (x = b) then (i, m) else if (m <? count x)%nat then (Some x, count x) else (i, m))
        as -> by reflexivity.
      destruct (decide (x = b)) as [->|Hxb].
      + apply Hnext; [destruct i; naive_solver|]. intros c [Hc| ->] Hne; [auto|done].
      + destruct (Nat.ltb_spec m (count x)) as [Hlt|Hge].
        * apply Hnext; [naive_solver|]. intros c [Hc| ->] Hne; [|done]. specialize (Hm c Hc Hne). lia.
        * apply Hnext; [destruct i; naive_solver|]. intros c [Hc| ->] Hne; [auto|done]. }
  specialize (Hl (order s) (λ _, False) None 0%nat eq_refl ltac:(done)).
  destruct (foldl f _ _).1 as [i|]; setoid_rewrite (elem_of_order order Horder) in Hl; naive_solver.
Qed.

Lemma closest_idom b s : reachable cfg b → b ≠ entry cfg → d !! b = Some s →
  ∃ i, closest order d b s = Some i ∧ idom cfg i b.
Proof.
  intros Hb Hne Hs. pose proof (closest_max b s) as Hc. pose proof (Hd b s Hs) as Hx.
  destruct (closest order d b s) as [i|].
  - destruct Hc as (Hi & Hib & Hmax). apply Hx in Hi. exists i. split; [done|]. split_and!; [done|done|].
    intros c Hcb Hcd. destruct (dominated_chain cfg c i b Hb Hcd Hi) as [|Hic]; [done|].
    destruct (decide (i = c)) as [->|Hic']; [done|].
    assert (count i < count c)%nat by (apply count_lt; [by eapply dominated_reachable|done|done]).
    specialize (Hmax c). rewrite Hx in Hmax. specialize (Hmax Hcd Hcb). lia.
  - exfalso. specialize (Hc (entry cfg)). rewrite Hx in Hc.
    specialize (Hc (dominated_by_entry cfg b) (not_eq_sym Hne)).
    destruct (sets_lookup (entry cfg)) as (t & Ht & Htx); [eexists; constructor|].
    unfold count in Hc. rewrite Ht in Hc. apply size_empty_inv in Hc.
    apply (not_elem_of_empty (C := gset BlockId) (entry cfg)). rewrite <- Hc. apply Htx, dominated_refl.
Qed.

(** A fold that inserts at most once for every key. *)
Lemma foldl_insert {A} (f : BlockId → A → option BlockId) (l : list (BlockId * A)) (m : gmap BlockId BlockId) b x :
  NoDup l.*1 → (b, x) ∈ l →
  foldl (λ (m : gmap BlockId BlockId) '(b, x), match f b x with Some y => <[b := y]> m | None => m end) m l !! b =
  match f b x with Some y => Some y | None => m !! b end.
Proof.
  assert (∀ l m, b ∉ l.*1 →
    foldl (λ (m : gmap BlockId BlockId) '(b, x), match f b x with Some y => <[b := y]> m | None => m end) m l !! b = m !! b) as Hno.
  { induction l0 as [|[b' x'] l0 IH]; intros m' Hb; [done|]. cbn [foldl fmap list_fmap fst] in *.
    apply not_elem_of_cons in Hb as [? ?]. rewrite IH by done. destruct (f b' x'); [|done]. by rewrite lookup_insert_ne. }
  revert m. induction l as [|[b' x'] l IH]; intros m Hnd; [by intros ?%not_elem_of_nil|].
  cbn [fmap list_fmap fst] in Hnd. apply NoDup_cons in Hnd as [Hn Hnd].
  intros [[= -> ->]|Hin]%elem_of_cons; cbn [foldl].
  - rewrite Hno by done. destruct (f b' x'); [by rewrite lookup_insert_eq|done].
  - rewrite (IH _ Hnd Hin). destruct (f b x); [done|].
    assert (b ≠ b') by (intros ->; apply Hn, list_elem_of_fmap; by exists (b', x)).
    destruct (f b' x'); [by rewrite lookup_insert_ne|done].
Qed.

Lemma entries_keys {A} (m : gmap BlockId A) : NoDup (entries A m).*1.
Proof. rewrite Hentries. apply NoDup_fst_map_to_list. Qed.

Abbreviation idoms := (compute_immediate_dominators order entries cfg d).

Lemma idoms_lookup b : idoms !! b =
  match d !! b with Some s => if decide (b = entry cfg) then None else closest order d b s | None => None end.
Proof.
  set (f := λ b s, if decide (b = entry cfg) then None else closest order d b s).
  assert (idoms = foldl (λ (m : gmap BlockId BlockId) '(b, x), match f b x with Some y => <[b := y]> m | None => m end) ∅ (entries _ d)) as ->.
  { unfold compute_immediate_dominators, f. generalize (∅ : gmap BlockId BlockId).
    induction (entries _ d) as [|[b' s'] l IH]; intros m; [done|]. cbn [foldl]. rewrite IH. f_equal.
    by destruct (decide (b' = entry cfg)). }
  destruct (d !! b) as [s|] eqn:E.
  - rewrite (foldl_insert f _ _ b s (entries_keys d)) by by apply elem_of_entries.
    rewrite lookup_empty. unfold f. destruct (decide _); [done|]. by destruct (closest _ _ _ _).
  - assert (∀ l m, (∀ s, (b, s) ∉ l) →
      foldl (λ (m : gmap BlockId BlockId) '(b, x), match f b x with Some y => <[b := y]> m | None => m end) m l !! b = m !! b) as Hno.
    { induction l as [|[b' s'] l IH]; intros m Hl; [done|]. cbn [foldl].
      rewrite IH by (intros s Hs; apply (Hl s); by right).
      destruct (f b' s'); [|done]. rewrite lookup_insert_ne; [done|]. intros ->. apply (Hl s'). by left. }
    rewrite Hno; [apply lookup_empty|]. intros s Hs. apply elem_of_entries in Hs; [|done]. by rewrite E in Hs.
Qed.

(** The immediate dominators are exact. *)
Lemma idoms_exact b i : idoms !! b = Some i ↔ reachable cfg b ∧ b ≠ entry cfg ∧ idom cfg i b.
Proof.
  rewrite idoms_lookup. destruct (d !! b) as [s|] eqn:E.
  - assert (reachable cfg b) as Hb by (apply Hdom; by eapply elem_of_dom_2).
    destruct (decide (b = entry cfg)) as [->|Hne]; [naive_solver|].
    destruct (closest_idom b s Hb Hne E) as (j & -> & Hj). split; [naive_solver|].
    intros (_ & _ & Hi). f_equal. by eapply idom_unique.
  - split; [done|]. intros (Hb & _). apply Hdom in Hb. by apply not_elem_of_dom in E.
Qed.

Lemma idoms_some b : reachable cfg b → b ≠ entry cfg → ∃ i, idoms !! b = Some i ∧ idom cfg i b.
Proof.
  intros Hb Hne. destruct (sets_lookup b Hb) as (s & Hs & _). destruct (closest_idom b s Hb Hne Hs) as (i & _ & Hi).
  exists i. split; [|done]. by apply idoms_exact.
Qed.

(** *** The tree *)
Definition at_key (m : gmap BlockId (gset BlockId)) (x : BlockId) : gset BlockId := default ∅ (m !! x).

Lemma at_key_insert m x y k : at_key (insert_into x y m) k = if decide (k = x) then {[y]} ∪ at_key m k else at_key m k.
Proof.
  unfold insert_into, at_key. destruct (decide (k = x)) as [->|]; [by rewrite lookup_insert_eq|by rewrite lookup_insert_ne].
Qed.

Lemma at_key_empty (X : gset BlockId) k : at_key (gset_to_gmap ∅ X) k = ∅.
Proof. unfold at_key. rewrite lookup_gset_to_gmap. by case_guard. Qed.

Lemma tree_children x y : y ∈ at_key (build_dominator_tree entries cfg idoms) x ↔ idoms !! y = Some x.
Proof.
  unfold build_dominator_tree.
  assert (∀ l m, y ∈ at_key (foldl (λ children '(b, i), insert_into i b children) m l) x ↔
    y ∈ at_key m x ∨ (y, x) ∈ l) as Hl.
  { induction l as [|[b i] l IH]; intros m; cbn [foldl]; [rewrite elem_of_nil; tauto|].
    rewrite IH, at_key_insert, elem_of_cons. destruct (decide (x = i)) as [->|Hne]; [set_solver|naive_solver]. }
  rewrite Hl, at_key_empty, (elem_of_entries entries Hentries). set_solver.
Qed.

(** *** Frontiers *)

(** Climbing from [r] to the immediate dominator of [y] puts [y] into the frontiers
    of the dominators of [r] that do not dominate it. *)
Lemma walk_up_ok fuel y i r m : idoms !! y = Some i → dominated cfg i r → reachable cfg r → (count r < fuel)%nat →
  ∃ m', walk_up fuel idoms y r m = Some m' ∧
    ∀ x z, z ∈ at_key m' x ↔ z ∈ at_key m x ∨ z = y ∧ dominated cfg x r ∧ ¬ dominated cfg x i.
Proof.
  intros Hy. revert r m. induction fuel as [|fuel IH]; intros r m Hir Hr Hf; [lia|]. cbn [walk_up]. rewrite Hy.
  destruct (decide (r = i)) as [->|Hne]; [exists m; split; [done|naive_solver]|].
  assert (r ≠ entry cfg) as Hre.
  { intros ->. apply Hne. symmetry. by apply dominated_entry. }
  destruct (idoms_some r Hr Hre) as (r' & Er & Hr'). rewrite Er.
  pose proof Hr' as (Hn & Hrr & Hc). rewrite decide_False by done.
  destruct (IH r' (insert_into r y m)) as (m' & E & Hm).
  - by apply Hc.
  - by eapply dominated_reachable.
  - pose proof (count_lt r' r Hr Hrr Hn). lia.
  - exists m'. split; [done|]. intros x z. rewrite Hm, at_key_insert.
    rewrite (idom_strict cfg r' r x Hr Hr'). destruct (decide (x = r)) as [->|Hxr].
    + rewrite elem_of_union, elem_of_singleton.
      assert (¬ dominated cfg r i) by (intros H; apply Hne; symmetry; by apply (dominated_antisym cfg)).
      pose proof (dominated_refl cfg r). naive_solver.
    + naive_solver.
Qed.

(** What a predecessor adds. *)
Definition contributes (y p x : BlockId) : Prop :=
  reachable cfg y ∧ y ≠ entry cfg ∧
  if decide (p ∈ dom d) then dominated cfg x p ∧ ∀ i, idom cfg i y → ¬ dominated cfg x i else x = p.

Lemma walk_up_pred fuel y p m : p ∈ preds cfg y → (size (all_blocks cfg) < fuel)%nat →
  ∃ m', walk_up fuel idoms y p m = Some m' ∧
    ∀ x z, z ∈ at_key m' x ↔ z ∈ at_key m x ∨ z = y ∧ contributes y p x.
Proof.
  intros Hp Hf. destruct (idoms !! y) as [i|] eqn:Ei.
  - pose proof Ei as (Hy & Hne & Hi)%idoms_exact. unfold contributes. destruct (decide (p ∈ dom d)) as [Hpd|Hpd].
    + apply Hdom in Hpd as Hrp. destruct (walk_up_ok fuel y i p m Ei) as (m' & E & Hm).
      * destruct Hi as (Hn & Hd' & _). exact (dominated_pred cfg i p y Hd' Hn Hp).
      * done.
      * eapply Nat.le_lt_trans; [|exact Hf]. unfold count. destruct (sets_lookup p Hrp) as (s & -> & Hs).
        apply subseteq_size. intros x Hx%Hs. eapply dominated_block; [apply ok_entry, Hcfg|exact Hrp|done].
      * exists m'. split; [done|]. intros x z. rewrite Hm.
        assert (∀ j, idom cfg j y ↔ j = i) as Hu
          by (intros j; split; [intros Hj; exact (idom_unique cfg j i y Hy Hj Hi)|by intros ->]).
        setoid_rewrite Hu. naive_solver.
    + destruct fuel as [|fuel]; [lia|]. cbn [walk_up]. rewrite Ei.
      assert (p ≠ i) as Hpi.
      { intros ->. apply Hpd, Hdom. destruct Hi as (_ & Hd' & _). by eapply dominated_reachable. }
      rewrite decide_False by done.
      destruct (idoms !! p) as [j|] eqn:Ej; [apply idoms_exact in Ej as [Hrp _]; by apply Hdom in Hrp|].
      eexists. split; [done|]. intros x z. rewrite at_key_insert. destruct (decide (x = p)) as [->|]; set_solver.
  - destruct fuel as [|fuel]; [lia|]. cbn [walk_up]. rewrite Ei. exists m. split; [done|]. intros x z.
    unfold contributes. split; [by left|]. intros [|(-> & Hy & Hne & _)]; [done|].
    destruct (idoms_some y Hy Hne) as (i & Hi & _). by rewrite Ei in Hi.
Qed.

Lemma for_each_adds {A} (f : A → gmap BlockId (gset BlockId) → option (gmap BlockId (gset BlockId)))
    (R : A → BlockId → BlockId → Prop) (l : list A) m :
  (∀ a m, a ∈ l → ∃ m', f a m = Some m' ∧ ∀ x z, z ∈ at_key m' x ↔ z ∈ at_key m x ∨ R a x z) →
  ∃ m', for_each f l m = Some m' ∧ ∀ x z, z ∈ at_key m' x ↔ z ∈ at_key m x ∨ ∃ a, a ∈ l ∧ R a x z.
Proof.
  revert m. induction l as [|a l IH]; intros m Hf.
  - exists m. split; [done|]. intros x z. setoid_rewrite elem_of_nil. naive_solver.
  - destruct (Hf a m) as (m1 & E1 & H1); [by left|].
    destruct (IH m1) as (m2 & E2 & H2); [intros b m' Hb; apply Hf; by right|].
    exists m2. cbn [for_each]. rewrite E1. split; [done|]. intros x z. rewrite H2, H1. setoid_rewrite elem_of_cons.
    naive_solver.
Qed.

(** The frontiers at blocks that are reached, but for the entry: the definition. *)
Definition in_frontier (x y : BlockId) : Prop :=
  (∃ p, p ∈ preds cfg y ∧ reachable cfg p ∧ dominated cfg x p) ∧ ¬ (x ≠ y ∧ dominated cfg x y).

Lemma frontiers_ok fuel : (size (all_blocks cfg) < fuel)%nat →
  ∃ m, compute_dominance_frontiers order entries cfg fuel idoms = Some m ∧
    ∀ x y, reachable cfg x → y ∈ at_key m x ↔ y ≠ entry cfg ∧ in_frontier x y.
Proof.
  intros Hf. unfold compute_dominance_frontiers. set (m0 := gset_to_gmap ∅ (all_blocks cfg)).
  destruct (for_each_adds (λ '(y, block) frontier,
      if (2 <=? size (predecessors block))%nat
      then for_each (walk_up fuel idoms y) (order (predecessors block)) frontier else Some frontier)
    (λ e x z, (2 ≤ size (predecessors e.2))%nat ∧ ∃ p, p ∈ order (predecessors e.2) ∧ z = e.1 ∧ contributes e.1 p x)
    (entries _ (blocks cfg)) m0) as (m & E & Hm).
  { intros [y block] m Hin. apply (elem_of_entries entries Hentries) in Hin.
    destruct (Nat.leb_spec 2 (size (predecessors block))) as [H2|H2].
    - destruct (for_each_adds (walk_up fuel idoms y) (λ p x z, z = y ∧ contributes y p x)
        (order (predecessors block)) m) as (m' & E & Hm).
      { intros p m1 Hp. apply walk_up_pred; [|done]. unfold preds. rewrite Hin. by apply (elem_of_order order Horder). }
      exists m'. split; [done|]. intros x z. rewrite Hm. cbn. naive_solver.
    - exists m. split; [done|]. intros x z. split; [by left|]. intros [|[? _]]; [done|cbn in *; lia]. }
  exists m. split; [done|]. intros x y Hx. rewrite Hm. unfold m0. rewrite at_key_empty. split.
  - intros [?|([y' block] & Hin & H2 & p & Hp & -> & Hc)]; [set_solver|]. cbn in *.
    apply (elem_of_entries entries Hentries) in Hin. apply (elem_of_order order Horder) in Hp.
    destruct Hc as (Hy & Hne & Hc). split; [done|].
    destruct (decide (p ∈ dom d)) as [Hpd|Hpd]; [|subst x; by apply Hdom in Hx].
    destruct Hc as [Hxp Hni]. split.
    + exists p. split_and!; [unfold preds; by rewrite Hin|by apply Hdom|done].
    + destruct (idoms_some y' Hy Hne) as (i & _ & Hi). intros Hs. apply (Hni i Hi). by apply (idom_strict cfg i y').
  - intros (Hne & (p & Hp & Hrp & Hxp) & Hs). right.
    assert (reachable cfg y) as Hy by by eapply reachable_step.
    unfold preds in Hp. destruct (blocks cfg !! y) as [block|] eqn:Eb; [|set_solver].
    exists (y, block). split; [by apply (elem_of_entries entries Hentries)|]. cbn. split.
    + destruct (pred_other cfg y Hy Hne) as (q & Hq & Hqy & Hrq). unfold preds in Hq. rewrite Eb in Hq.
      destruct (decide (p = q)) as [->|Hpq].
      * (** With the one predecessor the frontier would be empty. *)
        destruct (decide (size (predecessors block) = 1%nat)) as [H1|H1].
        -- exfalso. apply size_1_elem_of in H1 as [p' Hp'].
           assert (∀ c, c ∈ preds cfg y → c = q) as Hall.
           { intros c. unfold preds. rewrite Eb, Hp'. rewrite Hp' in Hq. set_solver. }
           assert (dominated cfg x y) as Hxy.
           { intros l Hl. inversion Hl as [|c ? l' Hl' Hcp]; subst; [done|]. apply Hall in Hcp as ->.
             apply elem_of_app. left. by apply Hxp. }
           destruct (decide (x = y)) as [->|]; [|by apply Hs].
           apply Hqy. apply (dominated_antisym cfg q y Hy); [|done].
           intros l Hl. inversion Hl as [|c ? l' Hl' Hcp]; subst; [done|]. apply Hall in Hcp as ->.
           apply elem_of_app. left. by eapply walk_end.
        -- assert (size (predecessors block) ≠ 0%nat); [|lia]. intros H0. apply size_empty_inv in H0. set_solver.
      * assert (({[p; q]} : gset BlockId) ⊆ predecessors block) as Hsub by set_solver.
        apply subseteq_size in Hsub. rewrite size_union, !size_singleton in Hsub by set_solver. lia.
    + exists p. split; [by apply (elem_of_order order Horder)|]. split; [done|].
      split_and!; [done|done|]. rewrite decide_True by by apply Hdom. split; [done|].
      intros i Hi Hxi. apply Hs. by apply (idom_strict cfg i y).
Qed.
End tree.

(** ** What [DominanceInfo::compute] returns *)
Section compute.
Context (order : gset BlockId → list BlockId) (entries : ∀ A, gmap BlockId A → list (BlockId * A)).
Context (Horder : ∀ s, order s ≡ₚ elements s) (Hentries : ∀ A (m : gmap BlockId A), entries A m ≡ₚ map_to_list m).
Context (cfg : ControlFlowGraph) (Hcfg : cfg_ok cfg).

Record info_ok (info : DominanceInfo) : Prop := {
  i_dom : ∀ b, b ∈ dom (dominators info) ↔ reachable cfg b;
  i_sets : ∀ b s, dominators info !! b = Some s → ∀ x, x ∈ s ↔ dominated cfg x b;
  i_idom : ∀ b i, immediate_dom info !! b = Some i ↔ reachable cfg b ∧ b ≠ entry cfg ∧ idom cfg i b;
  i_children : ∀ x y, y ∈ at_key (dom_tree_children info) x ↔ immediate_dom info !! y = Some x;
  i_frontier : ∀ x y, reachable cfg x →
    y ∈ frontier info x ↔ y ≠ entry cfg ∧ in_frontier cfg x y;
}.

Lemma compute_ok fuel : (size (all_blocks cfg) < fuel)%nat →
  ∃ info, compute order entries cfg fuel = Some info ∧ info_ok info.
Proof.
  intros Hf. unfold compute. rewrite decide_False.
  2: { intros E. pose proof (ok_entry cfg Hcfg) as He. unfold all_blocks in He. rewrite E, dom_empty_L in He.
       by apply not_elem_of_empty in He. }
  destruct (rpo_ok order Horder cfg Hcfg fuel Hf) as (rpo & Er & Hrpo). rewrite Er. cbn [mbind option_bind].
  unfold compute_postorder_numbers, compute_reverse_postorder in *.
  destruct (rpo_visit order cfg fuel (entry cfg) (∅, [])) as [[v l]|] eqn:Ev; [|done].
  change (∅ : gmap BlockId nat, 0%nat) with (numbers_of []). rewrite postorder_visit_eq, Ev.
  cbn [fmap option_fmap option_map mbind option_bind fst snd].
  destruct (info_sets order Horder cfg Hcfg rpo Hrpo) as [Hk Hd].
  set (d := compute_dominators_iterative order cfg rpo) in *.
  assert (∀ b, b ∈ dom d ↔ reachable cfg b) as Hdom by (intros b; rewrite Hk; by apply elem_of_keys).
  destruct (frontiers_ok order entries Horder Hentries cfg Hcfg d Hdom Hd fuel Hf) as (m & Em & Hm).
  rewrite Em. eexists. split; [done|]. split; cbn.
  - done.
  - done.
  - intros b i. by apply idoms_exact.
  - intros x y. by apply tree_children.
  - done.
Qed.
End compute.

(** Dominance is exact: with more fuel than there are blocks [compute] ends, and then
    [dominates] holds exactly of equal blocks and of a reached block and the blocks
    on every path to it, in any iteration order of the hash maps and sets. *)
Theorem dominance_exact (order : gset BlockId → list BlockId) (entries : ∀ A, gmap BlockId A → list (BlockId * A))
    (cfg : ControlFlowGraph) (fuel : nat) :
  (∀ s, order s ≡ₚ elements s) → (∀ A (m : gmap BlockId A), entries A m ≡ₚ map_to_list m) →
  cfg_ok cfg → (size (all_blocks cfg) < fuel)%nat →
  ∃ info, compute order entries cfg fuel = Some info ∧
    ∀ a b, dominates info a b = true ↔ a = b ∨ reachable cfg b ∧ ∀ l, walk cfg b l → a ∈ l.
Proof.
  intros Horder Hentries Hcfg Hf. destruct (compute_ok order entries Horder Hentries cfg Hcfg fuel Hf) as (info & E & Hi).
  exists info. split; [done|]. intros a b. unfold dominates. destruct (decide (a = b)) as [->|Hne]; [naive_solver|].
  destruct (dominators info !! b) as [s|] eqn:Es.
  - rewrite bool_decide_eq_true, (i_sets cfg info Hi b s Es).
    assert (reachable cfg b) by (apply (i_dom cfg info Hi); by eapply elem_of_dom_2). unfold dominated. naive_solver.
  - split; [done|]. intros [|[Hb _]]; [done|]. apply (i_dom cfg info Hi) in Hb. by apply not_elem_of_dom in Es.
Qed.

(** The example graph is consistent. *)
Lemma example_ok : cfg_ok example_cfg.
Proof.
  assert (∀ a b, (a, b) ∈ ([(0, 1); (0, 2); (1, 3); (2, 3); (4, 3); (3, 4)] : list (BlockId * BlockId)) ↔
    b ∈ succs example_cfg a) as Hs.
  { intros a b. unfold succs.
    destruct (blocks example_cfg !! a) as [block|] eqn:E.
    - unfold example_cfg, foldl, add_block, new_cfg in E. cbn [blocks block_id example_block] in E.
      rewrite !lookup_insert_Some, lookup_empty in E.
      naive_solver (cbn [successors example_block]; set_solver).
    - split; [|set_solver]. unfold example_cfg, foldl, add_block, new_cfg in E. cbn [blocks block_id example_block] in E.
      rewrite !lookup_insert_None in E. set_solver. }
  assert (∀ a b, (a, b) ∈ ([(0, 1); (0, 2); (1, 3); (2, 3); (4, 3); (3, 4)] : list (BlockId * BlockId)) ↔
    a ∈ preds example_cfg b) as Hp.
  { intros a b. unfold preds.
    destruct (blocks example_cfg !! b) as [block|] eqn:E.
    - unfold example_cfg, foldl, add_block, new_cfg in E. cbn [blocks block_id example_block] in E.
      rewrite !lookup_insert_Some, lookup_empty in E.
      naive_solver (cbn [predecessors example_block]; set_solver).
    - split; [|set_solver]. unfold example_cfg, foldl, add_block, new_cfg in E. cbn [blocks block_id example_block] in E.
      rewrite !lookup_insert_None in E. set_solver. }
  split.
  - apply elem_of_dom. by eexists.
  - intros a b Hb%Hs. apply elem_of_dom.
    assert (b = 1 ∨ b = 2 ∨ b = 3 ∨ b = 4) as [->|[->|[->| ->]]] by set_solver; by eexists.
  - intros a b _ _. by rewrite <- Hs, <- Hp.
Qed.

Lemma dominance_exact_witness :
  ∃ info, compute elements (λ _, map_to_list) example_cfg 6 = Some info ∧
    ∀ a b, dominates info a b = true ↔ a = b ∨ reachable example_cfg b ∧ ∀ l, walk example_cfg b l → a ∈ l.
Proof.
  apply (dominance_exact elements (λ _, map_to_list) example_cfg 6); [done|done|apply example_ok|].
  vm_compute. lia.
Defined.

(** C20. The two computations of dominators in the crate agree on the blocks that are
    reached, although one starts from all blocks and counts unreached predecessors
    and the other leaves them out. *)
Theorem dominators_agree (order : gset BlockId → list BlockId) (entries : ∀ A, gmap BlockId A → list (BlockId * A))
    (cfg : ControlFlowGraph) (fuel : nat) (a b : BlockId) :
  (∀ s, order s ≡ₚ elements s) → (∀ A (m : gmap BlockId A), entries A m ≡ₚ map_to_list m) →
  cfg_ok cfg → (size (all_blocks cfg) * size (all_blocks cfg) + 1 < fuel)%nat →
  a ∈ all_blocks cfg → reachable cfg b →
  ∃ info, compute order entries cfg fuel = Some info ∧
    cfg_dominates order entries cfg fuel a b = Some (dominates info a b).
Proof.
  intros Horder Hentries Hcfg Hf Ha Hb.
  assert (b ∈ all_blocks cfg) as Hbb by by apply reachable_block.
  destruct (compute_ok order entries Horder Hentries cfg Hcfg fuel) as (info & E & Hi).
  { destruct (size (all_blocks cfg)); nia. }
  exists info. split; [done|].
  destruct (cfg_dominates_decides order entries cfg fuel a b) as (r & -> & Hr); [done|done|apply Hcfg|done|done|lia|].
  f_equal. apply eq_true_iff_eq. rewrite Hr. unfold dominates.
  destruct (decide (a = b)) as [->|Hne]; [split; [done|intros _; apply dominated_refl]|].
  destruct (dominators info !! b) as [s|] eqn:Es.
  - by rewrite bool_decide_eq_true, (i_sets cfg info Hi b s Es).
  - apply (i_dom cfg info Hi) in Hb. by apply not_elem_of_dom in Es.
Qed.

Lemma dominators_agree_witness :
  ∃ info, compute elements (λ _, map_to_list) example_cfg 27 = Some info ∧
    cfg_dominates elements (λ _, map_to_list) example_cfg 27 0 3 = Some (dominates info 0 3).
Proof.
  apply (dominators_agree elements (λ _, map_to_list) example_cfg 27 0 3); [done|done|apply example_ok| | |].
  - vm_compute. lia.
  - by apply elem_of_dom; eexists.
  - exists [0; 1; 3]. change [0; 1; 3] with (([0] ++ [1]) ++ [3]).
    eapply (walk_step _ 1); [eapply (walk_step _ 0); [exact (walk_entry example_cfg)|]|]; vm_compute; reflexivity.
Defined.

(** C21. The tree is exact: every reached block but the entry has one immediate dominator,
    a strict dominator that all its strict dominators dominate; it is the one
    recorded, and the children of a block are those whose immediate dominator it is. *)
Theorem immediate_dominators_exact (order : gset BlockId → list BlockId)
    (entries : ∀ A, gmap BlockId A → list (BlockId * A)) (cfg : ControlFlowGraph) (fuel : nat) :
  (∀ s, order s ≡ₚ elements s) → (∀ A (m : gmap BlockId A), entries A m ≡ₚ map_to_list m) →
  cfg_ok cfg → (size (all_blocks cfg) < fuel)%nat →
  ∃ info, compute order entries cfg fuel = Some info ∧
    (∀ b, is_Some (get_immediate_dominator info b) ↔ reachable cfg b ∧ b ≠ entry cfg) ∧
    (∀ b i, get_immediate_dominator info b = Some i ↔ reachable cfg b ∧ b ≠ entry cfg ∧
       i ≠ b ∧ dominated cfg i b ∧ ∀ c, c ≠ b → dominated cfg c b → dominated cfg c i) ∧
    (∀ x y, y ∈ default ∅ (dom_tree_children info !! x) ↔ get_immediate_dominator info y = Some x).
Proof.
  intros Horder Hentries Hcfg Hf. destruct (compute_ok order entries Horder Hentries cfg Hcfg fuel Hf) as (info & E & Hi).
  exists info. split; [done|]. split; [|split].
  - intros b. unfold get_immediate_dominator. split.
    + intros [i Hb]. apply (i_idom cfg info Hi) in Hb. naive_solver.
    + intros [Hb Hne]. destruct (immediate_dom info !! b) as [i|] eqn:Eb; [by eexists|].
      assert (b ∈ dom (dominators info)) as Hbd by by apply (i_dom cfg info Hi).
      apply elem_of_dom in Hbd as [s Hs].
      destruct (closest_idom order Horder cfg (dominators info) (i_dom cfg info Hi) (i_sets cfg info Hi) b s Hb Hne Hs)
        as (i & _ & Hib).
      assert (immediate_dom info !! b = Some i) as Hbi by by apply (i_idom cfg info Hi).
      by rewrite Eb in Hbi.
  - intros b i. apply (i_idom cfg info Hi).
  - apply (i_children cfg info Hi).
Qed.

Lemma immediate_dominators_exact_witness :
  ∃ info, compute elements (λ _, map_to_list) example_cfg 6 = Some info ∧
    (∀ b, is_Some (get_immediate_dominator info b) ↔ reachable example_cfg b ∧ b ≠ entry example_cfg) ∧
    (∀ b i, get_immediate_dominator info b = Some i ↔ reachable example_cfg b ∧ b ≠ entry example_cfg ∧
       i ≠ b ∧ dominated example_cfg i b ∧
       ∀ c, c ≠ b → dominated example_cfg c b → dominated example_cfg c i) ∧
    (∀ x y, y ∈ default ∅ (dom_tree_children info !! x) ↔ get_immediate_dominator info y = Some x).
Proof.
  apply (immediate_dominators_exact elements (λ _, map_to_list) example_cfg 6); [done|done|apply example_ok|].
  vm_compute. lia.
Defined.

(** C22. The frontier of a reached block is exact but for the entry: it has the blocks of
    which it dominates a reached predecessor and which it does not strictly dominate,
    and never the entry, even when a loop leads back to it. *)
Theorem frontier_exact (order : gset BlockId → list BlockId) (entries : ∀ A, gmap BlockId A → list (BlockId * A))
    (cfg : ControlFlowGraph) (fuel : nat) :
  (∀ s, order s ≡ₚ elements s) → (∀ A (m : gmap BlockId A), entries A m ≡ₚ map_to_list m) →
  cfg_ok cfg → (size (all_blocks cfg) < fuel)%nat →
  ∃ info, compute order entries cfg fuel = Some info ∧
    ∀ x y, reachable cfg x → y ∈ frontier info x ↔
      y ≠ entry cfg ∧ (∃ p, p ∈ preds cfg y ∧ reachable cfg p ∧ dominated cfg x p) ∧
      ¬ (x ≠ y ∧ dominated cfg x y).
Proof.
  intros Horder Hentries Hcfg Hf. destruct (compute_ok order entries Horder Hentries cfg Hcfg fuel Hf) as (info & E & Hi).
  exists info. split; [done|]. apply (i_frontier cfg info Hi).
Qed.

Lemma frontier_exact_witness :
  ∃ info, compute elements (λ _, map_to_list) example_cfg 6 = Some info ∧
    ∀ x y, reachable example_cfg x → y ∈ frontier info x ↔
      y ≠ entry example_cfg ∧
      (∃ p, p ∈ preds example_cfg y ∧ reachable example_cfg p ∧ dominated example_cfg x p) ∧
      ¬ (x ≠ y ∧ dominated example_cfg x y).
Proof.
  apply (frontier_exact elements (λ _, map_to_list) example_cfg 6); [done|done|apply example_ok|].
  vm_compute. lia.
Defined.

(** Two blocks that lead to each other: the entry is in both frontiers by definition,
    and the computation leaves both empty. *)
Lemma frontier_misses_entry :
  let cfg := foldl add_block (new_cfg 0 1) [example_block 0 [1] [1]; example_block 1 [0] [0]] in
  in_frontier cfg 1 0 ∧
  (dominance_frontier <$> compute elements (λ _, map_to_list) cfg 3) = Some (gset_to_gmap ∅ {[0; 1]}).
Proof.
  intros cfg. split; [|vm_compute; reflexivity].
  assert (walk cfg 1 ([0] ++ [1])) as H1 by (eapply (walk_step _ 0); [exact (walk_entry cfg)|vm_compute; reflexivity]).
  split.
  - exists 1. split; [vm_compute; reflexivity|]. split; [by eexists|apply dominated_refl].
  - intros [_ Hd]. specialize (Hd _ (walk_entry cfg)). set_solver.
Qed.

(** ** Iterated frontiers *)
Section idf.
Context (order : gset BlockId → list BlockId) (Horder : ∀ s, order s ≡ₚ elements s).
Context (info : DominanceInfo) (all : gset BlockId) (Hall : ∀ x, frontier info x ⊆ all).

Definition df (x y : BlockId) : Prop := y ∈ frontier info x.

Lemma frontier_push_ok (l : list BlockId) (result : gset BlockId) (work : list BlockId) :
  let '(result', work') := foldl (λ '(result, work_list) df_block,
      if decide (df_block ∈ result) then (result, work_list)
      else ({[df_block]} ∪ result, work_list ++ [df_block])) (result, work) l in
  result' = result ∪ list_to_set l ∧ ∃ new, work' = work ++ new ∧ (∀ x, x ∈ new ↔ x ∈ l ∧ x ∉ result) ∧
    (length new = size result' - size result)%nat.
Proof.
  revert result work. induction l as [|y l IH]; intros result work; cbn [foldl].
  - split; [set_solver|]. exists []. rewrite app_nil_r, Nat.sub_diag. split_and!; [done| |done].
    intros x. rewrite elem_of_nil. tauto.
  - destruct (decide (y ∈ result)) as [Hin|Hin].
    + specialize (IH result work). destruct (foldl _ _ l) as [r w]. destruct IH as (-> & new & -> & Hn & Hl).
      split; [set_solver|]. exists new. split_and!; [done| |done]. intros x. rewrite Hn, elem_of_cons. naive_solver.
    + specialize (IH ({[y]} ∪ result) (work ++ [y])). destruct (foldl _ _ l) as [r w].
      destruct IH as (-> & new & -> & Hn & Hl). split; [set_solver|]. exists (y :: new).
      rewrite <- app_assoc. split_and!; [done| |].
      * intros x. rewrite !elem_of_cons, Hn. destruct (decide (x = y)) as [->|]; set_solver.
      * cbn [length]. rewrite Hl. rewrite (size_union {[y]} result), size_singleton by set_solver.
        assert (({[y]} ∪ result : gset BlockId) ⊆ {[y]} ∪ result ∪ list_to_set l) as Hs by set_solver.
        apply subseteq_size in Hs. rewrite (size_union {[y]} result), size_singleton in Hs by set_solver. lia.
Qed.

(** The queue holds what may still have an unseen frontier. *)
Lemma idf_loop_ok (bs : gset BlockId) fuel work result processed :
  (length work + (size all - size result) ≤ fuel)%nat → result ⊆ all →
  (∀ x, x ∈ work ∨ x ∈ processed → x ∈ bs ∨ x ∈ result) →
  (∀ x, x ∈ result → ∃ b, b ∈ bs ∧ tc df b x) →
  (∀ x, x ∈ bs ∨ x ∈ result → x ∈ work ∨ x ∈ processed) →
  (∀ x y, x ∈ processed → df x y → y ∈ result) →
  ∃ r, idf_loop order fuel info work result processed = Some r ∧ ∀ y, y ∈ r ↔ ∃ b, b ∈ bs ∧ tc df b y.
Proof.
  revert work result processed. induction fuel as [|fuel IH]; intros work result processed Hf Hra Hw Hr Hc Hp.
  - destruct work as [|b work]; [|cbn in Hf; lia]. exists result. split; [done|]. intros y.
    split; [apply Hr|]. intros (b & Hb & Ht). assert (∀ x, x ∈ bs ∨ x ∈ result → x ∈ processed) as Hcp.
    { intros x Hx. by destruct (Hc x Hx) as [?%not_elem_of_nil|]. }
    assert (b ∈ bs ∨ b ∈ result) as Hbr by by left. clear Hb.
    induction Ht as [x y H|x y z H _ IHt]; [by eapply Hp; eauto|]. apply IHt. right. by eapply Hp; eauto.
  - destruct work as [|b work].
    + cbn. exists result. split; [done|]. intros y.
      split; [apply Hr|]. intros (b & Hb & Ht). assert (∀ x, x ∈ bs ∨ x ∈ result → x ∈ processed) as Hcp.
      { intros x Hx. by destruct (Hc x Hx) as [?%not_elem_of_nil|]. }
      assert (b ∈ bs ∨ b ∈ result) as Hbr by by left. clear Hb.
      induction Ht as [x y H|x y z H _ IHt]; [by eapply Hp; eauto|]. apply IHt. right. by eapply Hp; eauto.
    + cbn [idf_loop]. destruct (decide (b ∈ processed)) as [Hbp|Hbp].
      * apply IH; [cbn in Hf; lia|done| |done| |done].
        -- intros x Hx. apply Hw. rewrite elem_of_cons. tauto.
        -- intros x Hx. destruct (Hc x Hx) as [[->|]%elem_of_cons|]; auto.
      * assert (b ∈ bs ∨ b ∈ result) as Hb by (apply Hw; left; by left).
        assert (∃ l, (∀ y, y ∈ l ↔ df b y) ∧
          (match dominance_frontier info !! b with
           | Some frontier => foldl (λ '(result, work_list) df_block,
               if decide (df_block ∈ result) then (result, work_list)
               else ({[df_block]} ∪ result, work_list ++ [df_block])) (result, work) (order frontier)
           | None => (result, work)
           end) = foldl (λ '(result, work_list) df_block,
               if decide (df_block ∈ result) then (result, work_list)
               else ({[df_block]} ∪ result, work_list ++ [df_block])) (result, work) l) as (l & Hl & El).
        { unfold df, frontier. destruct (dominance_frontier info !! b) as [s|].
          - exists (order s). split; [intros y; by apply elem_of_order|done].
          - exists []. split; [intros y; cbn; set_solver|done]. }
        rewrite El. pose proof (frontier_push_ok l result work) as Hpush. destruct (foldl _ _ l) as [r w].
        destruct Hpush as (-> & new & -> & Hnew & Hlen).
        assert ((list_to_set l : gset BlockId) ⊆ all) as Hla.
        { intros y Hy%elem_of_list_to_set. apply (Hall b). by apply Hl. }
        apply IH.
        -- rewrite length_app, Hlen. cbn in Hf.
           assert (result ∪ list_to_set l ⊆ all) as Hs by set_solver. apply subseteq_size in Hs.
           assert (result ⊆ result ∪ list_to_set l) as Hs' by set_solver. apply subseteq_size in Hs'. lia.
        -- set_solver.
        -- intros x [[Hx|Hx]%elem_of_app|Hx]; [|set_solver|].
           ++ destruct (Hw x); [left; by right|by left|right; set_solver].
           ++ apply elem_of_union in Hx as [->%elem_of_singleton|Hx]; [set_solver|].
              destruct (Hw x); [by right|by left|right; set_solver].
        -- intros x [Hx|Hx%elem_of_list_to_set]%elem_of_union; [auto|]. apply Hl in Hx.
           destruct Hb as [Hb|Hb]; [exists b; split; [done|by apply tc_once]|].
           destruct (Hr b Hb) as (c & Hcb & Ht). exists c. split; [done|]. eapply tc_r; eauto.
        -- intros x Hx. rewrite elem_of_app, elem_of_union, elem_of_singleton, Hnew.
           destruct (decide (x ∈ l ∧ x ∉ result)); [tauto|].
           assert (x ∈ bs ∨ x ∈ result) as Hx'.
           { destruct Hx as [|[|Hxl%elem_of_list_to_set]%elem_of_union]; [by left|by right|].
             destruct (decide (x ∈ result)); [by right|tauto]. }
           destruct (Hc x Hx') as [[->|]%elem_of_cons|]; tauto.
        -- intros x y [->%elem_of_singleton|Hx]%elem_of_union Hxy; [|set_solver].
           apply elem_of_union. right. apply elem_of_list_to_set. by apply Hl.
Qed.
End idf.

(** The iterated frontier is exact: with fuel for the blocks asked for and all blocks of
    frontiers it ends, with the blocks that one or more steps through frontiers
    reach. *)
Theorem iterated_frontier_exact (order : gset BlockId → list BlockId) (info : DominanceInfo) (bs all : gset BlockId)
    (fuel : nat) :
  (∀ s, order s ≡ₚ elements s) → (∀ x, frontier info x ⊆ all) → (size bs + size all ≤ fuel)%nat →
  ∃ r, iterated_dominance_frontier order fuel info bs = Some r ∧
    ∀ y, y ∈ r ↔ ∃ b, b ∈ bs ∧ tc (λ x y, y ∈ frontier info x) b y.
Proof.
  intros Horder Hall Hf. apply (idf_loop_ok order Horder info all Hall bs).
  - rewrite Horder, size_empty. unfold size, set_size in *. cbn in *. lia.
  - set_solver.
  - intros x [Hx|Hx]; [left; by apply (elem_of_order order Horder)|set_solver].
  - set_solver.
  - intros x [Hx|Hx]; [left; by apply (elem_of_order order Horder)|set_solver].
  - set_solver.
Qed.

Lemma iterated_frontier_exact_witness :
  let info := {| dominators := ∅; immediate_dom := ∅; dominance_frontier := {[1 := {[3]}; 2 := {[3]}]};
                 dom_tree_children := ∅; info_entry := 0; postorder_numbers := ∅ |} in
  ∃ r, iterated_dominance_frontier elements 3 info {[1; 2]} = Some r ∧
    ∀ y, y ∈ r ↔ ∃ b, b ∈ ({[1; 2]} : gset BlockId) ∧ tc (λ x y, y ∈ frontier info x) b y.
Proof.
  intros info. apply (iterated_frontier_exact elements info {[1; 2]} {[3]} 3); [done| |vm_compute; lia].
  intros x. unfold frontier. cbn [dominance_frontier info].
  destruct (_ !! x) as [s|] eqn:E; [|apply empty_subseteq].
  apply lookup_insert_Some in E as [[_ <-]|[_ [_ <-]%lookup_singleton_Some]]; done.
Defined.

(** ** Promotion *)

(** C18. A reference is promoted to an unchecked one exactly when it does not escape, is
    allocated on the stack, and its allocation lies on every path from the entry to
    every other block that uses it, all of which are reached. *)
Theorem promotion_exact (order : gset BlockId → list BlockId) (entries : ∀ A, gmap BlockId A → list (BlockId * A))
    (cfg : ControlFlowGraph) (fuel : nat) (reference : ReferenceInfo) :
  (∀ s, order s ≡ₚ elements s) → (∀ A (m : gmap BlockId A), entries A m ≡ₚ map_to_list m) →
  cfg_ok cfg → (size (all_blocks cfg) < fuel)%nat →
  ∃ info, compute order entries cfg fuel = Some info ∧
    (decide_promotion order reference info = PromoteToChecked ↔
     escape_category reference = NoEscape ∧ is_stack_allocated reference = true ∧
     ∀ u, u ∈ use_sites reference → u ≠ allocation_site reference →
       reachable cfg u ∧ ∀ l, walk cfg u l → allocation_site reference ∈ l).
Proof.
  intros Horder Hentries Hcfg Hf. destruct (compute_ok order entries Horder Hentries cfg Hcfg fuel Hf) as (info & E & Hi).
  exists info. split; [done|].
  assert (allocation_dominates_uses order info (allocation_site reference) (use_sites reference) = true ↔
    ∀ u, u ∈ use_sites reference → u ≠ allocation_site reference →
      reachable cfg u ∧ dominated cfg (allocation_site reference) u) as Ha.
  { unfold allocation_dominates_uses. rewrite forallb_forall. setoid_rewrite <- list_elem_of_In.
    setoid_rewrite (elem_of_order order Horder). unfold dominates. split.
    - intros H u Hu Hne. specialize (H u Hu). rewrite decide_False in H by done.
      destruct (dominators info !! u) as [s|] eqn:Es; [|done]. apply bool_decide_eq_true in H.
      split; [apply (i_dom cfg info Hi); by eapply elem_of_dom_2|by apply (i_sets cfg info Hi u s Es)].
    - intros H u Hu. destruct (decide _) as [|Hne]; [done|]. destruct (H u Hu (not_eq_sym Hne)) as [Hr Hd].
      apply (i_dom cfg info Hi), elem_of_dom in Hr as [s Hs]. rewrite Hs. apply bool_decide_eq_true.
      by apply (i_sets cfg info Hi u s Hs). }
  unfold decide_promotion, dominated in *. destruct (escape_category reference); cbn [allows_promotion negb]; [|naive_solver..].
  destruct (allocation_dominates_uses _ _ _ _); cbn [negb].
  - destruct (is_stack_allocated reference); cbn [negb]; naive_solver.
  - split; [done|]. intros (_ & _ & H). by apply Ha in H.
Qed.

Lemma promotion_exact_witness :
  let reference := {| ref_id := 0; allocation_site := 3; use_sites := {[4]}; is_stack_allocated := true;
                      escape_category := NoEscape |} in
  ∃ info, compute elements (λ _, map_to_list) example_cfg 6 = Some info ∧
    (decide_promotion elements reference info = PromoteToChecked ↔
     escape_category reference = NoEscape ∧ is_stack_allocated reference = true ∧
     ∀ u, u ∈ use_sites reference → u ≠ allocation_site reference →
       reachable example_cfg u ∧ ∀ l, walk example_cfg u l → allocation_site reference ∈ l).
Proof.
  intros reference. apply (promotion_exact elements (λ _, map_to_list) example_cfg 6 reference);
    [done|done|apply example_ok|]. vm_compute. lia.
Defined.
