(* ===== verification/Assertions.v ===== *)
(** * Formulas and weakest preconditions

    The terms and formulas of [verum_verification/src/vcgen.rs] with substitution
    and free variables, and the commands and the calculator of
    [verum_verification/src/hoare_logic.rs]: weakest preconditions, termination
    conditions, modified variables, the frame rule.  The order in which a hash set
    is walked is a parameter. *)

From stdpp Require Import gmap list strings pretty.
From S2P Require Import Prelude.
Open Scope Z_scope.

(** ** Variables *)
Inductive VarType :=
| T_Int | T_Bool | T_Real
| T_BitVec (w : N)
| T_Array (index element : VarType)
| T_Sort (name : string).

Record Variable_t := { name : string; version : option N; ty : option VarType }.

(** What [PartialEq] and [Hash] read: a hash set of variables is a set of these. *)
Abbreviation ident := (string * option N)%type (only parsing).
Definition ident_of (v : Variable_t) : ident := (name v, version v).
Definition Variable_eqb (v w : Variable_t) : bool :=
  String.eqb (name v) (name w) && bool_decide (version v = version w).

Definition Variable_new (n : string) : Variable_t := {| name := n; version := None; ty := None |}.
Definition Variable_versioned (n : string) (k : N) : Variable_t := {| name := n; version := Some k; ty := None |}.
Definition Variable_typed (n : string) (t : VarType) : Variable_t := {| name := n; version := None; ty := Some t |}.
Definition Variable_result : Variable_t := Variable_new "result".

Lemma Variable_eqb_spec v w : Variable_eqb v w = true ↔ ident_of v = ident_of w.
Proof.
  unfold Variable_eqb, ident_of. rewrite andb_true_iff, String.eqb_eq, bool_decide_eq_true.
  split; [intros [-> ->]; done | intros [= -> ->]; done].
Qed.

(** ** Terms and formulas *)
Inductive SmtBinOp := B_Add | B_Sub | B_Mul | B_Div | B_Mod | B_Pow | B_Select.
Inductive SmtUnOp := U_Neg | U_Abs | U_Deref | U_Len | U_GetVariantValue.

(** A real constant is the 64 bits of an [f64]. *)
Inductive SmtExpr :=
| E_Var (v : Variable_t)
| E_IntConst (n : Z)
| E_BoolConst (b : bool)
| E_RealConst (bits : N)
| E_BitVecConst (value width : N)
| E_BinOp (op : SmtBinOp) (left right : SmtExpr)
| E_UnOp (op : SmtUnOp) (e : SmtExpr)
| E_Apply (f : string) (args : list SmtExpr)
| E_Select (arr idx : SmtExpr)
| E_Store (arr idx val : SmtExpr)
| E_Ite (cond : Formula) (then_e else_e : SmtExpr)
| E_Let (bound_var : Variable_t) (bound_expr body : SmtExpr)
with Formula :=
| F_True
| F_False
| F_Var (v : Variable_t)
| F_Not (inner : Formula)
| F_And (formulas : list Formula)
| F_Or (formulas : list Formula)
| F_Implies (ante cons : Formula)
| F_Iff (left right : Formula)
| F_Forall (bound_vars : list Variable_t) (inner : Formula)
| F_Exists (bound_vars : list Variable_t) (inner : Formula)
| F_Eq (left right : SmtExpr)
| F_Ne (left right : SmtExpr)
| F_Lt (left right : SmtExpr)
| F_Le (left right : SmtExpr)
| F_Gt (left right : SmtExpr)
| F_Ge (left right : SmtExpr)
| F_Predicate (p : string) (args : list SmtExpr)
| F_Let (bound_var : Variable_t) (bound_expr : SmtExpr) (body : Formula)
| F_Labeled (id : N) (inner : Formula).

Definition f_and (fs : list Formula) : Formula :=
  match fs with [] => F_True | [f] => f | _ => F_And fs end.
Definition f_or (fs : list Formula) : Formula :=
  match fs with [] => F_False | [f] => f | _ => F_Or fs end.

(** ** Substitution *)
Fixpoint substitute_expr (var : Variable_t) (replacement e : SmtExpr) : SmtExpr :=
  match e with
  | E_Var v => if Variable_eqb v var then replacement else e
  | E_IntConst _ | E_BoolConst _ | E_RealConst _ | E_BitVecConst _ _ => e
  | E_BinOp op l r => E_BinOp op (substitute_expr var replacement l) (substitute_expr var replacement r)
  | E_UnOp op e1 => E_UnOp op (substitute_expr var replacement e1)
  | E_Apply f args => E_Apply f (map (λ a, substitute_expr var replacement a) args)
  | E_Select a i => E_Select (substitute_expr var replacement a) (substitute_expr var replacement i)
  | E_Store a i x =>
      E_Store (substitute_expr var replacement a) (substitute_expr var replacement i)
        (substitute_expr var replacement x)
  | E_Ite c t f =>
      E_Ite (substitute var replacement c) (substitute_expr var replacement t)
        (substitute_expr var replacement f)
  | E_Let b x body =>
      if Variable_eqb b var then E_Let b (substitute_expr var replacement x) body
      else E_Let b (substitute_expr var replacement x) (substitute_expr var replacement body)
  end
with substitute (var : Variable_t) (replacement : SmtExpr) (f : Formula) : Formula :=
  match f with
  | F_True | F_False => f
  | F_Var v =>
      if Variable_eqb v var then
        match replacement with
        | E_BoolConst b => if b then F_True else F_False
        | E_Var w => F_Var w
        | _ => F_Predicate "bool" [replacement]
        end
      else f
  | F_Not g => F_Not (substitute var replacement g)
  | F_And fs => F_And (map (λ g, substitute var replacement g) fs)
  | F_Or fs => F_Or (map (λ g, substitute var replacement g) fs)
  | F_Implies a c => F_Implies (substitute var replacement a) (substitute var replacement c)
  | F_Iff a c => F_Iff (substitute var replacement a) (substitute var replacement c)
  | F_Forall bs g =>
      if existsb (λ b, Variable_eqb b var) bs then f else F_Forall bs (substitute var replacement g)
  | F_Exists bs g =>
      if existsb (λ b, Variable_eqb b var) bs then f else F_Exists bs (substitute var replacement g)
  | F_Eq l r => F_Eq (substitute_expr var replacement l) (substitute_expr var replacement r)
  | F_Ne l r => F_Ne (substitute_expr var replacement l) (substitute_expr var replacement r)
  | F_Lt l r => F_Lt (substitute_expr var replacement l) (substitute_expr var replacement r)
  | F_Le l r => F_Le (substitute_expr var replacement l) (substitute_expr var replacement r)
  | F_Gt l r => F_Gt (substitute_expr var replacement l) (substitute_expr var replacement r)
  | F_Ge l r => F_Ge (substitute_expr var replacement l) (substitute_expr var replacement r)
  | F_Predicate p args => F_Predicate p (map (λ a, substitute_expr var replacement a) args)
  | F_Let b x body =>
      if Variable_eqb b var then F_Let b (substitute_expr var replacement x) body
      else F_Let b (substitute_expr var replacement x) (substitute var replacement body)
  | F_Labeled id g => F_Labeled id (substitute var replacement g)
  end.

(** ** Free variables *)
Fixpoint collect_free_vars_expr (e : SmtExpr) (bound vars : gset ident) : gset ident :=
  match e with
  | E_Var v => if bool_decide (ident_of v ∈ bound) then vars else {[ident_of v]} ∪ vars
  | E_IntConst _ | E_BoolConst _ | E_RealConst _ | E_BitVecConst _ _ => vars
  | E_BinOp _ l r => collect_free_vars_expr r bound (collect_free_vars_expr l bound vars)
  | E_UnOp _ e1 => collect_free_vars_expr e1 bound vars
  | E_Apply _ args => fold_left (λ vs a, collect_free_vars_expr a bound vs) args vars
  | E_Select a i => collect_free_vars_expr i bound (collect_free_vars_expr a bound vars)
  | E_Store a i x =>
      collect_free_vars_expr x bound (collect_free_vars_expr i bound (collect_free_vars_expr a bound vars))
  | E_Ite c t f =>
      collect_free_vars_expr f bound (collect_free_vars_expr t bound (collect_free_vars c bound vars))
  | E_Let b x body =>
      collect_free_vars_expr body ({[ident_of b]} ∪ bound) (collect_free_vars_expr x bound vars)
  end
with collect_free_vars (f : Formula) (bound vars : gset ident) : gset ident :=
  match f with
  | F_True | F_False => vars
  | F_Var v => if bool_decide (ident_of v ∈ bound) then vars else {[ident_of v]} ∪ vars
  | F_Not g => collect_free_vars g bound vars
  | F_And fs | F_Or fs => fold_left (λ vs g, collect_free_vars g bound vs) fs vars
  | F_Implies a c | F_Iff a c => collect_free_vars c bound (collect_free_vars a bound vars)
  | F_Forall bs g | F_Exists bs g =>
      collect_free_vars g (fold_left (λ s b, {[ident_of b]} ∪ s) bs bound) vars
  | F_Eq l r | F_Ne l r | F_Lt l r | F_Le l r | F_Gt l r | F_Ge l r =>
      collect_free_vars_expr r bound (collect_free_vars_expr l bound vars)
  | F_Predicate _ args => fold_left (λ vs a, collect_free_vars_expr a bound vs) args vars
  | F_Let b x body =>
      collect_free_vars body ({[ident_of b]} ∪ bound) (collect_free_vars_expr x bound vars)
  | F_Labeled _ g => collect_free_vars g bound vars
  end.

Definition free_variables_expr (e : SmtExpr) : gset ident := collect_free_vars_expr e ∅ ∅.
Definition free_variables (f : Formula) : gset ident := collect_free_vars f ∅ ∅.

(** ** Commands *)
Inductive Command :=
| C_Skip
| C_Assign (var : Variable_t) (expr : SmtExpr)
| C_Seq (first second : Command)
| C_If (condition : Formula) (then_branch : Command) (else_branch : option Command)
| C_While (condition invariant : Formula) (body : Command)
    (decreases : option SmtExpr) (lexicographic_decreases : option (list SmtExpr))
| C_For (var : Variable_t) (start end_ : SmtExpr) (invariant : Formula) (body : Command)
| C_Assert (p : Formula)
| C_Assume (p : Formula)
| C_Havoc (v : Variable_t)
| C_Call (result : option Variable_t) (function : string) (args : list SmtExpr) (requires ensures : Formula)
| C_ArrayUpdate (array : Variable_t) (index value : SmtExpr)
| C_Block (cmds : list Command).

(** [collect_modified_vars_rec]: the loop variable of a [For] is not inserted. *)
Fixpoint collect_modified_vars_rec (c : Command) (vars : gset ident) : gset ident :=
  match c with
  | C_Assign v _ => {[ident_of v]} ∪ vars
  | C_Seq c1 c2 => collect_modified_vars_rec c2 (collect_modified_vars_rec c1 vars)
  | C_If _ t e =>
      let vars := collect_modified_vars_rec t vars in
      match e with Some e => collect_modified_vars_rec e vars | None => vars end
  | C_While _ _ body _ _ => collect_modified_vars_rec body vars
  | C_For _ _ _ _ body => collect_modified_vars_rec body vars
  | C_Call result _ _ _ _ => match result with Some v => {[ident_of v]} ∪ vars | None => vars end
  | C_ArrayUpdate a _ _ => {[ident_of a]} ∪ vars
  | C_Havoc v => {[ident_of v]} ∪ vars
  | C_Block cmds => fold_left (λ vs d, collect_modified_vars_rec d vs) cmds vars
  | C_Skip | C_Assert _ | C_Assume _ => vars
  end.
Definition collect_modified_vars (c : Command) : gset ident := collect_modified_vars_rec c ∅.

(** ** The calculator *)

(** [fetch_add] on the counter of fresh names, an [AtomicU64]. *)
Definition fetch_add (counter k : N) : N * N := (counter, (counter + k) mod 2 ^ 64)%N.

Definition fresh_var (base : string) (counter : N) : Variable_t * N :=
  let '(k, counter) := fetch_add counter 1 in (Variable_versioned base k, counter).

Fixpoint fresh_vars (vars : list ident) (counter : N) : list Variable_t * N :=
  match vars with
  | [] => ([], counter)
  | v :: vars =>
      let '(w, counter) := fresh_var v.1 counter in
      let '(ws, counter) := fresh_vars vars counter in (w :: ws, counter)
  end.

(** A calculation returns a formula and the new counter; no branch of [wp] fails. *)
Abbreviation calc := (N → Formula * N) (only parsing).

Definition measure_before_name (id : N) : string := String.append "__measure_before_" (pretty id).
Definition measure_before_name_at (base_id i : N) : string :=
  String.append (measure_before_name base_id) (String.append "_" (pretty i)).

Definition generate_single_measure_termination_vcs (invariant condition : Formula) (wp_body : Formula → calc)
    (measure : SmtExpr) (counter : N) : list Formula * N :=
  let '(id, counter) := fetch_add counter 1 in
  let measure_before := E_Var (Variable_new (measure_before_name id)) in
  let measure_before_var := Variable_typed (measure_before_name id) T_Int in
  let well_foundedness := F_Implies (f_and [invariant; condition]) (F_Ge measure (E_IntConst 0)) in
  let '(termination_wp, counter) := wp_body (F_Lt measure measure_before) counter in
  let measure_snapshot := F_Eq measure measure_before in
  ([well_foundedness;
    F_Forall [measure_before_var] (F_Implies (f_and [invariant; condition; measure_snapshot]) termination_wp)],
   counter).

Fixpoint lexicographic_disjuncts (equality_prefix : list Formula) (measures : list (SmtExpr * SmtExpr))
    : list Formula :=
  match measures with
  | [] => []
  | (current, before) :: rest =>
      let strict_decrease := F_Lt current before in
      (match equality_prefix with [] => strict_decrease | _ => f_and (equality_prefix ++ [strict_decrease]) end)
      :: lexicographic_disjuncts (equality_prefix ++ [F_Eq current before]) rest
  end.
Definition build_lexicographic_decrease (current_measures before_measures : list SmtExpr) : Formula :=
  match current_measures with
  | [] => F_False
  | _ => f_or (lexicographic_disjuncts [] (zip current_measures before_measures))
  end.

Definition generate_lexicographic_termination_vcs (invariant condition : Formula) (wp_body : Formula → calc)
    (measures : list SmtExpr) (counter : N) : list Formula * N :=
  match measures with
  | [] => ([], counter)
  | _ =>
      let '(base_id, counter) := fetch_add counter (N.of_nat (length measures)) in
      let names := imap (λ i _, measure_before_name_at base_id (N.of_nat i)) measures in
      let measures_before := map (λ x, E_Var (Variable_new x)) names in
      let well_foundedness :=
        F_Implies (f_and [invariant; condition]) (f_and (map (λ m, F_Ge m (E_IntConst 0)) measures)) in
      let lex_decrease := build_lexicographic_decrease measures measures_before in
      let '(termination_wp, counter) := wp_body lex_decrease counter in
      let snapshot_conditions := map (λ '(m, before), F_Eq m before) (zip measures measures_before) in
      let quantified_vars := map (λ x, Variable_typed x T_Int) names in
      ([well_foundedness;
        F_Forall quantified_vars
          (F_Implies (f_and ([invariant; condition] ++ snapshot_conditions)) termination_wp)],
       counter)
  end.

(** The conditions of termination, lexicographic measures first. *)
Definition termination_vcs (wp_body : Formula → calc) (condition invariant : Formula)
    (decreases : option SmtExpr) (lexicographic_decreases : option (list SmtExpr)) (counter : N)
    : list Formula * N :=
  match lexicographic_decreases with
  | Some measures =>
      match measures with
      | [] => ([], counter)
      | _ => generate_lexicographic_termination_vcs invariant condition wp_body measures counter
      end
  | None =>
      match decreases with
      | Some measure => generate_single_measure_termination_vcs invariant condition wp_body measure counter
      | None => ([], counter)
      end
  end.

Section Calculator.
Context (order : gset ident → list ident).

(** The arm of [While], over the weakest precondition of the body. *)
Definition wp_while (wp_body : Formula → calc) (modified : gset ident) (condition invariant : Formula)
    (decreases : option SmtExpr) (lexicographic_decreases : option (list SmtExpr)) (postcondition : Formula)
    : calc := λ counter,
  let '(body_wp, counter) := wp_body invariant counter in
  let '(fresh, counter) := fresh_vars (order modified) counter in
  let preservation := F_Implies (f_and [invariant; condition]) body_wp in
  let conditions :=
    [invariant;
     match fresh with [] => preservation | _ => F_Forall fresh preservation end;
     F_Implies (f_and [invariant; F_Not condition]) postcondition] in
  let '(vcs, counter) :=
    termination_vcs wp_body condition invariant decreases lexicographic_decreases counter in
  (f_and (conditions ++ vcs), counter).

(** The commands a [For] is turned into. *)
Definition for_increment (var : Variable_t) : Command :=
  C_Assign var (E_BinOp B_Add (E_Var var) (E_IntConst 1)).
Definition for_body (var : Variable_t) (body : Command) : Command := C_Seq body (for_increment var).
Definition for_condition (var : Variable_t) (end_ : SmtExpr) : Formula := F_Lt (E_Var var) end_.
Definition for_measure (var : Variable_t) (end_ : SmtExpr) : SmtExpr := E_BinOp B_Sub end_ (E_Var var).
Definition for_loop (var : Variable_t) (start end_ : SmtExpr) (invariant : Formula) (body : Command) : Command :=
  C_Seq (C_Assign var start)
    (C_While (for_condition var end_) invariant (for_body var body) (Some (for_measure var end_)) None).

(** The arm of [For] calls [wp] on [for_loop]; the call is unfolded here, where the
    body is smaller ([wp_for_loop]). *)
Fixpoint wp (command : Command) (postcondition : Formula) (counter : N) : Formula * N :=
  match command with
  | C_Skip => (postcondition, counter)
  | C_Assign var expr => (substitute var expr postcondition, counter)
  | C_Seq first second =>
      let '(wp2, counter) := wp second postcondition counter in wp first wp2 counter
  | C_If condition then_branch else_branch =>
      let '(wp_then, counter) := wp then_branch postcondition counter in
      let '(wp_else, counter) :=
        match else_branch with Some eb => wp eb postcondition counter | None => (postcondition, counter) end in
      (f_and [F_Implies condition wp_then; F_Implies (F_Not condition) wp_else], counter)
  | C_While condition invariant body decreases lexicographic_decreases =>
      wp_while (wp body) (collect_modified_vars body) condition invariant decreases lexicographic_decreases
        postcondition counter
  | C_For var start end_ invariant body =>
      let wp_loop_body q counter :=
        wp body (substitute var (E_BinOp B_Add (E_Var var) (E_IntConst 1)) q) counter in
      let '(wp2, counter) :=
        wp_while wp_loop_body (collect_modified_vars (for_body var body)) (for_condition var end_) invariant
          (Some (for_measure var end_)) None postcondition counter in
      (substitute var start wp2, counter)
  | C_Assert p => (f_and [p; postcondition], counter)
  | C_Assume p => (F_Implies p postcondition, counter)
  | C_Havoc var => (F_Forall [var] postcondition, counter)
  | C_Call result _ _ requires ensures =>
      (f_and [requires;
              match result with
              | Some res_var =>
                  F_Forall [Variable_result]
                    (F_Implies ensures (substitute res_var (E_Var Variable_result) postcondition))
              | None => ensures
              end], counter)
  | C_ArrayUpdate array index value =>
      (substitute array (E_Store (E_Var array) index value) postcondition, counter)
  | C_Block cmds => fold_right (λ c '(q, counter), wp c q counter) (postcondition, counter) cmds
  end.

(** ** Triples *)
Record HoareTriple := { precondition : Formula; command : Command; postcondition : Formula }.

Definition generate_vc (t : HoareTriple) (counter : N) : Formula * N :=
  let '(wp_q, counter) := wp (command t) (postcondition t) counter in
  (F_Implies (precondition t) wp_q, counter).

End Calculator.

(** [FrameRule::apply]: the variable in the error is the first the set gives. *)
Inductive WPError := FrameViolation (var : ident) (frame : Formula).

Definition frame_apply (walk : gset ident → list ident) (t : HoareTriple) (frame : Formula)
    : sum WPError HoareTriple :=
  let modified := collect_modified_vars (command t) in
  match List.find (λ v, bool_decide (v ∈ modified)) (walk (free_variables frame)) with
  | Some v => inl (FrameViolation v frame)
  | None =>
      inr {| precondition := f_and [precondition t; frame]; command := command t;
             postcondition := f_and [postcondition t; frame] |}
  end.

Definition is_frame_safe (c : Command) (frame_vars : gset ident) : bool :=
  bool_decide (frame_vars ## collect_modified_vars c).
