(* ===== verification/AssertionFacts.v ===== *)
(** * What formulas mean

    A first-order semantics of the terms and formulas of [vcgen.rs] over any
    interpretation, the facts about free variables, and the condition under which
    substitution is assignment. *)

From Stdlib Require Import ClassicalDescription.
From stdpp Require Import gmap list strings.
From S2P Require Import Prelude Assertions.
Open Scope Z_scope.

(** ** Induction *)
Section Induction.
Context (P : SmtExpr → Prop) (Q : Formula → Prop).
Context (PVar : ∀ v, P (E_Var v)) (PInt : ∀ n, P (E_IntConst n)) (PBool : ∀ b, P (E_BoolConst b))
  (PReal : ∀ r, P (E_RealConst r)) (PBv : ∀ n w, P (E_BitVecConst n w))
  (PBin : ∀ op l r, P l → P r → P (E_BinOp op l r)) (PUn : ∀ op e, P e → P (E_UnOp op e))
  (PApply : ∀ f args, Forall P args → P (E_Apply f args))
  (PSelect : ∀ a i, P a → P i → P (E_Select a i))
  (PStore : ∀ a i x, P a → P i → P x → P (E_Store a i x))
  (PIte : ∀ c t f, Q c → P t → P f → P (E_Ite c t f))
  (PLet : ∀ b x e, P x → P e → P (E_Let b x e)).
Context (QTrue : Q F_True) (QFalse : Q F_False) (QVar : ∀ v, Q (F_Var v))
  (QNot : ∀ f, Q f → Q (F_Not f)) (QAnd : ∀ fs, Forall Q fs → Q (F_And fs))
  (QOr : ∀ fs, Forall Q fs → Q (F_Or fs))
  (QImplies : ∀ a c, Q a → Q c → Q (F_Implies a c)) (QIff : ∀ a c, Q a → Q c → Q (F_Iff a c))
  (QForall : ∀ bs f, Q f → Q (F_Forall bs f)) (QExists : ∀ bs f, Q f → Q (F_Exists bs f))
  (QEq : ∀ l r, P l → P r → Q (F_Eq l r)) (QNe : ∀ l r, P l → P r → Q (F_Ne l r))
  (QLt : ∀ l r, P l → P r → Q (F_Lt l r)) (QLe : ∀ l r, P l → P r → Q (F_Le l r))
  (QGt : ∀ l r, P l → P r → Q (F_Gt l r)) (QGe : ∀ l r, P l → P r → Q (F_Ge l r))
  (QPred : ∀ p args, Forall P args → Q (F_Predicate p args))
  (QLet : ∀ b x f, P x → Q f → Q (F_Let b x f)) (QLabeled : ∀ n f, Q f → Q (F_Labeled n f)).

Fixpoint expr_rec (e : SmtExpr) : P e :=
  let fix list_rec (l : list SmtExpr) : Forall P l :=
    match l with [] => Forall_nil_2 _ | x :: l => Forall_cons_2 _ _ _ (expr_rec x) (list_rec l) end in
  match e with
  | E_Var v => PVar v
  | E_IntConst n => PInt n
  | E_BoolConst b => PBool b
  | E_RealConst r => PReal r
  | E_BitVecConst n w => PBv n w
  | E_BinOp op l r => PBin op l r (expr_rec l) (expr_rec r)
  | E_UnOp op e1 => PUn op e1 (expr_rec e1)
  | E_Apply f args => PApply f args (list_rec args)
  | E_Select a i => PSelect a i (expr_rec a) (expr_rec i)
  | E_Store a i x => PStore a i x (expr_rec a) (expr_rec i) (expr_rec x)
  | E_Ite c t f => PIte c t f (formula_rec c) (expr_rec t) (expr_rec f)
  | E_Let b x body => PLet b x body (expr_rec x) (expr_rec body)
  end
with formula_rec (f : Formula) : Q f :=
  let fix list_rec (l : list SmtExpr) : Forall P l :=
    match l with [] => Forall_nil_2 _ | x :: l => Forall_cons_2 _ _ _ (expr_rec x) (list_rec l) end in
  let fix formulas_rec (l : list Formula) : Forall Q l :=
    match l with [] => Forall_nil_2 _ | x :: l => Forall_cons_2 _ _ _ (formula_rec x) (formulas_rec l) end in
  match f with
  | F_True => QTrue
  | F_False => QFalse
  | F_Var v => QVar v
  | F_Not g => QNot g (formula_rec g)
  | F_And fs => QAnd fs (formulas_rec fs)
  | F_Or fs => QOr fs (formulas_rec fs)
  | F_Implies a c => QImplies a c (formula_rec a) (formula_rec c)
  | F_Iff a c => QIff a c (formula_rec a) (formula_rec c)
  | F_Forall bs g => QForall bs g (formula_rec g)
  | F_Exists bs g => QExists bs g (formula_rec g)
  | F_Eq l r => QEq l r (expr_rec l) (expr_rec r)
  | F_Ne l r => QNe l r (expr_rec l) (expr_rec r)
  | F_Lt l r => QLt l r (expr_rec l) (expr_rec r)
  | F_Le l r => QLe l r (expr_rec l) (expr_rec r)
  | F_Gt l r => QGt l r (expr_rec l) (expr_rec r)
  | F_Ge l r => QGe l r (expr_rec l) (expr_rec r)
  | F_Predicate p args => QPred p args (list_rec args)
  | F_Let b x body => QLet b x body (expr_rec x) (formula_rec body)
  | F_Labeled n g => QLabeled n g (formula_rec g)
  end.

Lemma term_formula_ind : (∀ e, P e) ∧ (∀ f, Q f).
Proof. exact (conj expr_rec formula_rec). Qed.
End Induction.

(** ** Interpretations *)

(** What solvers and programs mean by the symbols.  A real constant is its bits. *)
Class Interp (D : Type) := {
  i_int : Z → D;
  i_bool : bool → D;
  i_real : N → D;
  i_bitvec : N → N → D;
  i_bin : SmtBinOp → D → D → D;
  i_un : SmtUnOp → D → D;
  i_apply : string → list D → D;
  i_select : D → D → D;
  i_store : D → D → D → D;
  i_truth : D → Prop;
  i_lt : D → D → Prop;
  i_le : D → D → Prop;
  i_pred : string → list D → Prop;
}.

(** The two facts substitution needs of Boolean values: the constants, and that the
    predicate ["bool"] it makes up is truth. *)
Class BooleanLaws (D : Type) `{Interp D} := {
  truth_bool : ∀ b, i_truth (i_bool b) ↔ b = true;
  pred_bool : ∀ d, i_pred "bool" [d] ↔ i_truth d;
}.

Abbreviation state D := (ident → D) (only parsing).

Definition upd {D : Type} (k : ident) (d : D) (σ : state D) : state D := λ j, if decide (j = k) then d else σ j.

(** Quantifying over the values of a list of variables. *)
Fixpoint for_all {D : Type} (bs : list Variable_t) (K : state D → Prop) (σ : state D) : Prop :=
  match bs with [] => K σ | b :: bs => ∀ d, for_all bs K (upd (ident_of b) d σ) end.
Fixpoint for_some {D : Type} (bs : list Variable_t) (K : state D → Prop) (σ : state D) : Prop :=
  match bs with [] => K σ | b :: bs => ∃ d, for_some bs K (upd (ident_of b) d σ) end.

Fixpoint eval {D : Type} `{Interp D} (σ : state D) (e : SmtExpr) : D :=
  match e with
  | E_Var v => σ (ident_of v)
  | E_IntConst n => i_int n
  | E_BoolConst b => i_bool b
  | E_RealConst r => i_real r
  | E_BitVecConst n w => i_bitvec n w
  | E_BinOp op l r => i_bin op (eval σ l) (eval σ r)
  | E_UnOp op e1 => i_un op (eval σ e1)
  | E_Apply f args => i_apply f (map (λ a, eval σ a) args)
  | E_Select a i => i_select (eval σ a) (eval σ i)
  | E_Store a i x => i_store (eval σ a) (eval σ i) (eval σ x)
  | E_Ite c t f => if excluded_middle_informative (holds σ c) then eval σ t else eval σ f
  | E_Let b x body => eval (upd (ident_of b) (eval σ x) σ) body
  end
with holds {D : Type} `{Interp D} (σ : state D) (f : Formula) : Prop :=
  match f with
  | F_True => True
  | F_False => False
  | F_Var v => i_truth (σ (ident_of v))
  | F_Not g => ¬ holds σ g
  | F_And fs => fold_right (λ g R, holds σ g ∧ R) True fs
  | F_Or fs => fold_right (λ g R, holds σ g ∨ R) False fs
  | F_Implies a c => holds σ a → holds σ c
  | F_Iff a c => holds σ a ↔ holds σ c
  | F_Forall bs g => for_all bs (λ s, holds s g) σ
  | F_Exists bs g => for_some bs (λ s, holds s g) σ
  | F_Eq l r => eval σ l = eval σ r
  | F_Ne l r => eval σ l ≠ eval σ r
  | F_Lt l r => i_lt (eval σ l) (eval σ r)
  | F_Le l r => i_le (eval σ l) (eval σ r)
  | F_Gt l r => i_lt (eval σ r) (eval σ l)
  | F_Ge l r => i_le (eval σ r) (eval σ l)
  | F_Predicate p args => i_pred p (map (λ a, eval σ a) args)
  | F_Let b x body => holds (upd (ident_of b) (eval σ x) σ) body
  | F_Labeled _ g => holds σ g
  end.

(** ** Free variables, without accumulators *)
Definition idents (bs : list Variable_t) : gset ident := list_to_set (map ident_of bs).

Fixpoint fv_expr (e : SmtExpr) : gset ident :=
  match e with
  | E_Var v => {[ident_of v]}
  | E_IntConst _ | E_BoolConst _ | E_RealConst _ | E_BitVecConst _ _ => ∅
  | E_BinOp _ l r | E_Select l r => fv_expr l ∪ fv_expr r
  | E_UnOp _ e1 => fv_expr e1
  | E_Apply _ args => ⋃ map (λ a, fv_expr a) args
  | E_Store a i x => fv_expr a ∪ fv_expr i ∪ fv_expr x
  | E_Ite c t f => fv c ∪ fv_expr t ∪ fv_expr f
  | E_Let b x body => fv_expr x ∪ fv_expr body ∖ {[ident_of b]}
  end
with fv (f : Formula) : gset ident :=
  match f with
  | F_True | F_False => ∅
  | F_Var v => {[ident_of v]}
  | F_Not g | F_Labeled _ g => fv g
  | F_And fs | F_Or fs => ⋃ map (λ g, fv g) fs
  | F_Implies a c | F_Iff a c => fv a ∪ fv c
  | F_Forall bs g | F_Exists bs g => fv g ∖ idents bs
  | F_Eq l r | F_Ne l r | F_Lt l r | F_Le l r | F_Gt l r | F_Ge l r => fv_expr l ∪ fv_expr r
  | F_Predicate _ args => ⋃ map (λ a, fv_expr a) args
  | F_Let b x body => fv_expr x ∪ fv body ∖ {[ident_of b]}
  end.

Lemma bound_fold (bs : list Variable_t) (bound : gset ident) :
  fold_left (λ s b, {[ident_of b]} ∪ s) bs bound = idents bs ∪ bound.
Proof.
  revert bound; induction bs as [|b bs IH]; intros bound; simpl; [set_solver|].
  rewrite IH. unfold idents. simpl. set_solver.
Qed.

Lemma collect_list {A : Type} (collect : A → gset ident → gset ident → gset ident) (free : A → gset ident) l :
  Forall (λ a, ∀ bound vars, collect a bound vars = free a ∖ bound ∪ vars) l →
  ∀ bound vars, fold_left (λ vs a, collect a bound vs) l vars = (⋃ map free l) ∖ bound ∪ vars.
Proof.
  induction 1 as [|a l Ha _ IH]; intros bound vars; simpl; [set_solver|].
  rewrite IH, Ha. set_solver.
Qed.

Lemma collect_var (v : ident) (bound vars : gset ident) :
  (if bool_decide (v ∈ bound) then vars else {[v]} ∪ vars) = {[v]} ∖ bound ∪ vars.
Proof. case_bool_decide; set_solver. Qed.

Lemma collect_free_vars_fv :
  (∀ e bound vars, collect_free_vars_expr e bound vars = fv_expr e ∖ bound ∪ vars) ∧
  (∀ f bound vars, collect_free_vars f bound vars = fv f ∖ bound ∪ vars).
Proof.
  apply term_formula_ind; simpl; intros;
    try (apply collect_var); try (by apply collect_list); rewrite ?bound_fold;
    repeat match goal with IH : ∀ _ _, _ = _ |- _ => rewrite IH; clear IH end; set_solver.
Qed.

Lemma free_variables_fv f : free_variables f = fv f.
Proof. unfold free_variables. rewrite (proj2 collect_free_vars_fv). set_solver. Qed.
Lemma free_variables_expr_fv e : free_variables_expr e = fv_expr e.
Proof. unfold free_variables_expr. rewrite (proj1 collect_free_vars_fv). set_solver. Qed.

(** ** States that agree *)
Definition agree {D : Type} (S : gset ident) (σ τ : state D) : Prop := ∀ k, k ∈ S → σ k = τ k.

Lemma agree_refl {D : Type} S (σ : state D) : agree S σ σ.
Proof. done. Qed.
Lemma agree_sym {D : Type} S (σ τ : state D) : agree S σ τ → agree S τ σ.
Proof. intros H k Hk. symmetry. auto. Qed.
Lemma agree_mono {D : Type} S T (σ τ : state D) : agree T σ τ → S ⊆ T → agree S σ τ.
Proof. intros H HS k Hk. auto. Qed.
Lemma agree_upd {D : Type} S k d (σ τ : state D) : agree (S ∖ {[k]}) σ τ → agree S (upd k d σ) (upd k d τ).
Proof. intros H j Hj. unfold upd. case_decide; [done|]. apply H. set_solver. Qed.
Lemma agree_upd_l {D : Type} S k d (σ τ : state D) : agree S σ τ → k ∉ S → agree S (upd k d σ) τ.
Proof. intros H Hk j Hj. unfold upd. case_decide; [set_solver|]. auto. Qed.
Lemma upd_self {D : Type} S k (σ : state D) : agree S (upd k (σ k) σ) σ.
Proof. intros j _. unfold upd. case_decide; congruence. Qed.
Lemma upd_comm {D : Type} S j k c d (σ : state D) : j ≠ k → agree S (upd j c (upd k d σ)) (upd k d (upd j c σ)).
Proof. intros H i _. unfold upd. repeat case_decide; congruence. Qed.
Lemma upd_shadow {D : Type} S k c d (σ : state D) : agree S (upd k c (upd k d σ)) (upd k c σ).
Proof. intros i _. unfold upd. repeat case_decide; congruence. Qed.
Lemma upd_eq {D : Type} k d (σ : state D) : upd k d σ k = d.
Proof. unfold upd. by rewrite decide_True. Qed.
Lemma upd_ne {D : Type} j k d (σ : state D) : j ≠ k → upd k d σ j = σ j.
Proof. intros. unfold upd. by rewrite decide_False. Qed.

(** Quantifiers over states that agree off the bound variables. *)
Lemma binder_agree {D : Type} (bs : list Variable_t) S (K L : state D → Prop) :
  (∀ σ τ, agree S σ τ → (K σ ↔ L τ)) →
  ∀ σ τ, agree (S ∖ idents bs) σ τ →
  (for_all bs K σ ↔ for_all bs L τ) ∧ (for_some bs K σ ↔ for_some bs L τ).
Proof.
  intros HK. induction bs as [|b bs IH]; intros σ τ Hag; simpl.
  - assert (agree S σ τ) by (eapply agree_mono; [done | set_solver]). by rewrite (HK σ τ).
  - assert (∀ d, agree (S ∖ idents bs) (upd (ident_of b) d σ) (upd (ident_of b) d τ)) as Hd.
    { intros d. apply agree_upd. eapply agree_mono; [done|]. unfold idents. simpl. set_solver. }
    split; split.
    + intros H d. by apply (IH _ _ (Hd d)).
    + intros H d. by apply (IH _ _ (Hd d)).
    + intros [d H]. exists d. by apply (IH _ _ (Hd d)).
    + intros [d H]. exists d. by apply (IH _ _ (Hd d)).
Qed.

Lemma for_all_here {D : Type} (bs : list Variable_t) S (K : state D → Prop) σ :
  (∀ σ τ, agree S σ τ → (K σ ↔ K τ)) → for_all bs K σ → K σ.
Proof.
  intros HK. revert σ; induction bs as [|b bs IH]; intros σ; simpl; [done|].
  intros H. apply IH. specialize (H (σ (ident_of b))).
  eapply (binder_agree bs S K K HK); [|exact H]. apply agree_sym, upd_self.
Qed.

Section Semantics.
Context {D : Type} `{Interp D}.
Implicit Types (σ τ : state D) (e : SmtExpr) (f : Formula) (v b : Variable_t) (bs : list Variable_t) (d : D).

Lemma union_list_agree {A : Type} (free : A → gset ident) (x : A) l σ τ :
  agree (⋃ map free (x :: l)) σ τ → agree (free x) σ τ ∧ agree (⋃ map free l) σ τ.
Proof. simpl. intros Hag. split; (eapply agree_mono; [exact Hag | set_solver]). Qed.

Lemma map_agree {A B : Type} (free : A → gset ident) (g : state D → A → B) l :
  Forall (λ a, ∀ σ τ, agree (free a) σ τ → g σ a = g τ a) l →
  ∀ σ τ, agree (⋃ map free l) σ τ → map (g σ) l = map (g τ) l.
Proof.
  induction 1 as [|a l Ha _ IH]; intros σ τ Hag; [done|].
  apply union_list_agree in Hag as [Hx Hl]. simpl. by rewrite (Ha σ τ), (IH σ τ).
Qed.

Lemma fold_agree (fs : list Formula) :
  Forall (λ f, ∀ σ τ, agree (fv f) σ τ → (holds σ f ↔ holds τ f)) fs →
  ∀ σ τ, agree (⋃ map (λ g, fv g) fs) σ τ →
  (fold_right (λ g R, holds σ g ∧ R) True fs ↔ fold_right (λ g R, holds τ g ∧ R) True fs) ∧
  (fold_right (λ g R, holds σ g ∨ R) False fs ↔ fold_right (λ g R, holds τ g ∨ R) False fs).
Proof.
  induction 1 as [|f fs Hf _ IH]; intros σ τ Hag; [done|].
  apply union_list_agree in Hag as [Hx Hl]. simpl.
  pose proof (Hf σ τ Hx). pose proof (IH σ τ Hl). tauto.
Qed.

Lemma ite_ext (P Q : Prop) d d' c c' :
  (P ↔ Q) → d = d' → c = c' →
  (if excluded_middle_informative P then d else c) = (if excluded_middle_informative Q then d' else c').
Proof. intros HPQ -> ->. do 2 destruct excluded_middle_informative; tauto. Qed.

Ltac agree_part := first [done | eapply agree_mono; [eassumption | set_solver]].

(** The value of a term and the truth of a formula depend on the free variables. *)
Lemma coincidence :
  (∀ e σ τ, agree (fv_expr e) σ τ → eval σ e = eval τ e) ∧
  (∀ f σ τ, agree (fv f) σ τ → (holds σ f ↔ holds τ f)).
Proof.
  apply term_formula_ind.
  - intros v σ τ Hag. apply Hag. set_solver.
  - done.
  - done.
  - done.
  - done.
  - intros op l r IHl IHr σ τ Hag. simpl in *. rewrite (IHl σ τ), (IHr σ τ); agree_part.
  - intros op e IH σ τ Hag. simpl in *. rewrite (IH σ τ); agree_part.
  - intros g args IH σ τ Hag. simpl. f_equal. exact (map_agree fv_expr eval args IH σ τ Hag).
  - intros l r IHl IHr σ τ Hag. simpl in *. rewrite (IHl σ τ), (IHr σ τ); agree_part.
  - intros a i x IHa IHi IHx σ τ Hag. simpl in *. rewrite (IHa σ τ), (IHi σ τ), (IHx σ τ); agree_part.
  - intros c t g IHc IHt IHg σ τ Hag. simpl in *.
    apply ite_ext; [apply IHc | apply IHt | apply IHg]; agree_part.
  - intros b x body IHx IHb σ τ Hag. simpl in *. rewrite (IHx σ τ) by agree_part.
    apply IHb, agree_upd. agree_part.
  - done.
  - done.
  - intros v σ τ Hag. simpl. rewrite (Hag (ident_of v)) by set_solver. done.
  - intros g IH σ τ Hag. simpl. by rewrite (IH σ τ).
  - intros fs IH σ τ Hag. exact (proj1 (fold_agree fs IH σ τ Hag)).
  - intros fs IH σ τ Hag. exact (proj2 (fold_agree fs IH σ τ Hag)).
  - intros a c IHa IHc σ τ Hag. simpl in *. rewrite (IHa σ τ), (IHc σ τ); agree_part.
  - intros a c IHa IHc σ τ Hag. simpl in *. rewrite (IHa σ τ), (IHc σ τ); agree_part.
  - intros bs g IH σ τ Hag. exact (proj1 (binder_agree bs (fv g) _ _ IH σ τ Hag)).
  - intros bs g IH σ τ Hag. exact (proj2 (binder_agree bs (fv g) _ _ IH σ τ Hag)).
  - intros l r IHl IHr σ τ Hag. simpl in *. rewrite (IHl σ τ), (IHr σ τ); agree_part.
  - intros l r IHl IHr σ τ Hag. simpl in *. rewrite (IHl σ τ), (IHr σ τ); agree_part.
  - intros l r IHl IHr σ τ Hag. simpl in *. rewrite (IHl σ τ), (IHr σ τ); agree_part.
  - intros l r IHl IHr σ τ Hag. simpl in *. rewrite (IHl σ τ), (IHr σ τ); agree_part.
  - intros l r IHl IHr σ τ Hag. simpl in *. rewrite (IHl σ τ), (IHr σ τ); agree_part.
  - intros l r IHl IHr σ τ Hag. simpl in *. rewrite (IHl σ τ), (IHr σ τ); agree_part.
  - intros p args IH σ τ Hag. simpl.
    assert (map (λ a, eval σ a) args = map (λ a, eval τ a) args) as ->; [|done].
    exact (map_agree fv_expr eval args IH σ τ Hag).
  - intros b x body IHx IHb σ τ Hag. simpl in *. rewrite (IHx σ τ) by agree_part.
    apply IHb, agree_upd. agree_part.
  - intros n g IH σ τ Hag. apply IH. exact Hag.
Qed.

Lemma eval_agree e σ τ : agree (fv_expr e) σ τ → eval σ e = eval τ e.
Proof. apply coincidence. Qed.
Lemma holds_agree f σ τ : agree (fv f) σ τ → (holds σ f ↔ holds τ f).
Proof. apply coincidence. Qed.

(** ** Substitution *)

(** No binder above a free occurrence of [v] is in [avoid]. *)
Fixpoint capture_free_expr (v : Variable_t) (avoid : gset ident) (e : SmtExpr) : bool :=
  match e with
  | E_Var _ | E_IntConst _ | E_BoolConst _ | E_RealConst _ | E_BitVecConst _ _ => true
  | E_BinOp _ l r | E_Select l r => capture_free_expr v avoid l && capture_free_expr v avoid r
  | E_UnOp _ e1 => capture_free_expr v avoid e1
  | E_Apply _ args => forallb (λ a, capture_free_expr v avoid a) args
  | E_Store a i x => capture_free_expr v avoid a && capture_free_expr v avoid i && capture_free_expr v avoid x
  | E_Ite c t f => capture_free v avoid c && capture_free_expr v avoid t && capture_free_expr v avoid f
  | E_Let b x body =>
      capture_free_expr v avoid x &&
      (bool_decide (ident_of v ∉ fv_expr body) || Variable_eqb b v ||
       (bool_decide (ident_of b ∉ avoid) && capture_free_expr v avoid body))
  end
with capture_free (v : Variable_t) (avoid : gset ident) (f : Formula) : bool :=
  match f with
  | F_True | F_False | F_Var _ => true
  | F_Not g | F_Labeled _ g => capture_free v avoid g
  | F_And fs | F_Or fs => forallb (λ g, capture_free v avoid g) fs
  | F_Implies a c | F_Iff a c => capture_free v avoid a && capture_free v avoid c
  | F_Forall bs g | F_Exists bs g =>
      bool_decide (ident_of v ∉ fv g) || existsb (λ b, Variable_eqb b v) bs ||
      (bool_decide (idents bs ## avoid) && capture_free v avoid g)
  | F_Eq l r | F_Ne l r | F_Lt l r | F_Le l r | F_Gt l r | F_Ge l r =>
      capture_free_expr v avoid l && capture_free_expr v avoid r
  | F_Predicate _ args => forallb (λ a, capture_free_expr v avoid a) args
  | F_Let b x body =>
      capture_free_expr v avoid x &&
      (bool_decide (ident_of v ∉ fv body) || Variable_eqb b v ||
       (bool_decide (ident_of b ∉ avoid) && capture_free v avoid body))
  end.

Lemma existsb_idents v bs : existsb (λ b, Variable_eqb b v) bs = true ↔ ident_of v ∈ idents bs.
Proof.
  unfold idents. rewrite existsb_exists, elem_of_list_to_set, list_elem_of_In, in_map_iff.
  setoid_rewrite Variable_eqb_spec. split; intros (b & ? & ?); by exists b.
Qed.

(** Substituting for a variable that is not free changes nothing. *)
Lemma map_notin {A : Type} (free : A → gset ident) (g : A → A) (v : ident) l :
  Forall (λ a, v ∉ free a → g a = a) l → v ∉ ⋃ map free l → map g l = l.
Proof.
  induction 1 as [|a l Ha _ IH]; simpl; [done|].
  intros [H1 H2]%not_elem_of_union. by rewrite Ha, IH.
Qed.

Lemma let_notin b v (S : gset ident) : Variable_eqb b v = false → ident_of v ∉ S ∖ {[ident_of b]} → ident_of v ∉ S.
Proof.
  intros E Hv Hin. assert (ident_of b ≠ ident_of v) by (rewrite <- Variable_eqb_spec; congruence).
  apply Hv, elem_of_difference. split; [done|]. rewrite elem_of_singleton. congruence.
Qed.
Lemma quantifier_notin bs v (S : gset ident) :
  existsb (λ b, Variable_eqb b v) bs = false → ident_of v ∉ S ∖ idents bs → ident_of v ∉ S.
Proof.
  intros E Hv Hin. apply Hv, elem_of_difference. split; [done|]. rewrite <- existsb_idents. congruence.
Qed.

Lemma substitute_notin v r :
  (∀ e, ident_of v ∉ fv_expr e → substitute_expr v r e = e) ∧
  (∀ f, ident_of v ∉ fv f → substitute v r f = f).
Proof.
  assert (∀ w, ident_of v ∉ ({[ident_of w]} : gset ident) → Variable_eqb w v = false) as Hvar.
  { intros w Hw. apply not_true_iff_false. rewrite Variable_eqb_spec. intros E. apply Hw. by rewrite E, elem_of_singleton. }
  apply term_formula_ind; simpl; intros; rewrite ?not_elem_of_union in *; destruct_and?;
    try (rewrite Hvar by done); try done;
    try (f_equal; auto; apply (map_notin fv_expr _ (ident_of v)); done);
    try (f_equal; auto; apply (map_notin fv _ (ident_of v)); done);
    try (destruct (Variable_eqb _ _) eqn:E); try (destruct (existsb _ _) eqn:E);
    f_equal; eauto using let_notin, quantifier_notin.
Qed.

Lemma binder_substitute bs v r g :
  ident_of v ∉ idents bs → idents bs ## fv_expr r →
  (∀ τ, holds τ (substitute v r g) ↔ holds (upd (ident_of v) (eval τ r) τ) g) →
  ∀ σ, (for_all bs (λ s, holds s (substitute v r g)) σ ↔
          for_all bs (λ s, holds s g) (upd (ident_of v) (eval σ r) σ)) ∧
       (for_some bs (λ s, holds s (substitute v r g)) σ ↔
          for_some bs (λ s, holds s g) (upd (ident_of v) (eval σ r) σ)).
Proof.
  intros Hv Hr Hg. induction bs as [|b bs IH]; intros σ; simpl; [by rewrite Hg|].
  assert (idents (b :: bs) = {[ident_of b]} ∪ idents bs) as E by done. rewrite E in Hv, Hr.
  apply not_elem_of_union in Hv as [Hvb Hv]. rewrite elem_of_singleton in Hvb.
  apply disjoint_union_l in Hr as [Hrb Hr]. rewrite disjoint_singleton_l in Hrb. specialize (IH Hv Hr).
  assert (∀ d, eval (upd (ident_of b) d σ) r = eval σ r) as Hev.
  { intros d. by apply eval_agree, agree_upd_l. }
  assert (∀ d, agree (fv g ∖ idents bs) (upd (ident_of v) (eval (upd (ident_of b) d σ) r) (upd (ident_of b) d σ))
                 (upd (ident_of b) d (upd (ident_of v) (eval σ r) σ))) as Hag.
  { intros d. rewrite Hev. by apply upd_comm. }
  pose proof (λ d, binder_agree bs (fv g) _ _ (holds_agree g) _ _ (Hag d)) as Hb.
  split; split.
  - intros HA d. apply Hb, IH, HA.
  - intros HA d. apply IH, Hb, HA.
  - intros [d HA]. exists d. apply Hb, IH, HA.
  - intros [d HA]. exists d. apply IH, Hb, HA.
Qed.

(** The two binders of one variable. *)
Lemma let_shadowed b v d c σ S : Variable_eqb b v = true →
  agree S (upd (ident_of b) d σ) (upd (ident_of b) d (upd (ident_of v) c σ)).
Proof. intros E%Variable_eqb_spec. rewrite E. apply agree_sym, upd_shadow. Qed.

Lemma let_moved b v r d σ S : Variable_eqb b v = false → ident_of b ∉ fv_expr r →
  agree S (upd (ident_of v) (eval (upd (ident_of b) d σ) r) (upd (ident_of b) d σ))
    (upd (ident_of b) d (upd (ident_of v) (eval σ r) σ)).
Proof.
  intros E Hb. rewrite (eval_agree r (upd (ident_of b) d σ) σ).
  - apply upd_comm. intros E'. assert (Variable_eqb b v = true) by (by apply Variable_eqb_spec). congruence.
  - by apply agree_upd_l.
Qed.

Lemma upd_unused v c σ S : ident_of v ∉ S → agree S σ (upd (ident_of v) c σ).
Proof. intros Hv. by apply agree_sym, agree_upd_l. Qed.

Context `{!BooleanLaws D}.

Lemma map_substitute {B : Type} v r (g : state D → SmtExpr → B) args σ :
  Forall (λ a, capture_free_expr v (fv_expr r) a = true →
     ∀ σ, g σ (substitute_expr v r a) = g (upd (ident_of v) (eval σ r) σ) a) args →
  forallb (λ a, capture_free_expr v (fv_expr r) a) args = true →
  map (g σ) (map (λ a, substitute_expr v r a) args) = map (g (upd (ident_of v) (eval σ r) σ)) args.
Proof.
  induction 1 as [|a l Ha _ IH]; simpl; [done|]. intros [H1 H2]%andb_true_iff. by rewrite Ha, IH.
Qed.

Lemma fold_substitute v r fs σ :
  Forall (λ f, capture_free v (fv_expr r) f = true →
     ∀ σ, holds σ (substitute v r f) ↔ holds (upd (ident_of v) (eval σ r) σ) f) fs →
  forallb (λ g, capture_free v (fv_expr r) g) fs = true →
  (fold_right (λ g R, holds σ g ∧ R) True (map (λ g, substitute v r g) fs) ↔
   fold_right (λ g R, holds (upd (ident_of v) (eval σ r) σ) g ∧ R) True fs) ∧
  (fold_right (λ g R, holds σ g ∨ R) False (map (λ g, substitute v r g) fs) ↔
   fold_right (λ g R, holds (upd (ident_of v) (eval σ r) σ) g ∨ R) False fs).
Proof.
  induction 1 as [|f l Hf _ IH]; simpl; [done|]. intros [H1 H2]%andb_true_iff.
  specialize (Hf H1 σ). specialize (IH H2). tauto.
Qed.

Lemma var_substitute v r w σ :
  holds σ (substitute v r (F_Var w)) ↔ holds (upd (ident_of v) (eval σ r) σ) (F_Var w).
Proof.
  simpl. destruct (Variable_eqb w v) eqn:E.
  - apply Variable_eqb_spec in E. rewrite E, upd_eq.
    destruct r; try (simpl; apply pred_bool); [done|].
    simpl. rewrite truth_bool. by destruct b.
  - assert (ident_of w ≠ ident_of v) by (rewrite <- Variable_eqb_spec; congruence).
    by rewrite upd_ne.
Qed.

Lemma quantifier_substitute v r bs g :
  (capture_free v (fv_expr r) g = true →
     ∀ σ, holds σ (substitute v r g) ↔ holds (upd (ident_of v) (eval σ r) σ) g) →
  capture_free v (fv_expr r) (F_Forall bs g) = true →
  ∀ σ, (holds σ (substitute v r (F_Forall bs g)) ↔ holds (upd (ident_of v) (eval σ r) σ) (F_Forall bs g)) ∧
       (holds σ (substitute v r (F_Exists bs g)) ↔ holds (upd (ident_of v) (eval σ r) σ) (F_Exists bs g)).
Proof.
  intros IH Hc σ. cbn [substitute capture_free] in *.
  assert (ident_of v ∉ fv g ∖ idents bs →
    (for_all bs (λ s, holds s g) σ ↔ for_all bs (λ s, holds s g) (upd (ident_of v) (eval σ r) σ)) ∧
    (for_some bs (λ s, holds s g) σ ↔ for_some bs (λ s, holds s g) (upd (ident_of v) (eval σ r) σ))) as Hsame.
  { intros Hv. apply (binder_agree bs (fv g) _ _ (holds_agree g)). by apply upd_unused. }
  destruct (existsb _ _) eqn:E.
  - apply Hsame. apply existsb_idents in E. by intros [_ ?]%elem_of_difference.
  - rewrite orb_false_r, orb_true_iff, andb_true_iff, !bool_decide_eq_true in Hc.
    destruct Hc as [Hv|[Hb Hg]].
    + rewrite (proj2 (substitute_notin v r)) by done. apply Hsame. by intros [? _]%elem_of_difference.
    + apply binder_substitute; [|done|auto]. rewrite <- existsb_idents. congruence.
Qed.

Lemma substitute_means v r :
  (∀ e, capture_free_expr v (fv_expr r) e = true →
     ∀ σ, eval σ (substitute_expr v r e) = eval (upd (ident_of v) (eval σ r) σ) e) ∧
  (∀ f, capture_free v (fv_expr r) f = true →
     ∀ σ, holds σ (substitute v r f) ↔ holds (upd (ident_of v) (eval σ r) σ) f).
Proof.
  apply term_formula_ind.
  - intros w _ σ. simpl. destruct (Variable_eqb w v) eqn:E.
    + apply Variable_eqb_spec in E. by rewrite E, upd_eq.
    + rewrite upd_ne; [done|]. rewrite <- Variable_eqb_spec. congruence.
  - done.
  - done.
  - done.
  - done.
  - intros op l g IHl IHr [H1 H2]%andb_true_iff σ. simpl. by rewrite IHl, IHr.
  - intros op e IH Hc σ. simpl. by rewrite IH.
  - intros g args IH Hc σ. simpl. f_equal. by apply (map_substitute v r eval).
  - intros l g IHl IHr [H1 H2]%andb_true_iff σ. simpl. by rewrite IHl, IHr.
  - intros a i x IHa IHi IHx [[H1 H2]%andb_true_iff H3]%andb_true_iff σ. simpl. by rewrite IHa, IHi, IHx.
  - intros c t g IHc IHt IHg [[H1 H2]%andb_true_iff H3]%andb_true_iff σ. simpl.
    apply ite_ext; [by apply IHc | by apply IHt | by apply IHg].
  - intros b x body IHx IHb [H1 H2]%andb_true_iff σ. simpl.
    destruct (Variable_eqb b v) eqn:E; simpl; rewrite IHx by done.
    + by apply eval_agree, let_shadowed.
    + rewrite orb_false_r, orb_true_iff, andb_true_iff, !bool_decide_eq_true in H2.
      destruct H2 as [Hv|[Hb Hbody]].
      * rewrite (proj1 (substitute_notin v r)) by done. by apply eval_agree, agree_upd, upd_unused; intros [? _]%elem_of_difference.
      * rewrite IHb by done. by apply eval_agree, let_moved.
  - done.
  - done.
  - intros w _ σ. apply var_substitute.
  - intros g IH Hc σ. simpl. by rewrite IH.
  - intros fs IH Hc σ. by apply fold_substitute.
  - intros fs IH Hc σ. by apply fold_substitute.
  - intros a c IHa IHc [H1 H2]%andb_true_iff σ. simpl. by rewrite IHa, IHc.
  - intros a c IHa IHc [H1 H2]%andb_true_iff σ. simpl. by rewrite IHa, IHc.
  - intros bs g IH Hc σ. exact (proj1 (quantifier_substitute v r bs g IH Hc σ)).
  - intros bs g IH Hc σ. exact (proj2 (quantifier_substitute v r bs g IH Hc σ)).
  - intros l g IHl IHr [H1 H2]%andb_true_iff σ. simpl. by rewrite IHl, IHr.
  - intros l g IHl IHr [H1 H2]%andb_true_iff σ. simpl. by rewrite IHl, IHr.
  - intros l g IHl IHr [H1 H2]%andb_true_iff σ. simpl. by rewrite IHl, IHr.
  - intros l g IHl IHr [H1 H2]%andb_true_iff σ. simpl. by rewrite IHl, IHr.
  - intros l g IHl IHr [H1 H2]%andb_true_iff σ. simpl. by rewrite IHl, IHr.
  - intros l g IHl IHr [H1 H2]%andb_true_iff σ. simpl. by rewrite IHl, IHr.
  - intros p args IH Hc σ. simpl.
    by rewrite (map_substitute v r (λ s a, eval s a) args σ IH Hc).
  - intros b x body IHx IHb [H1 H2]%andb_true_iff σ. simpl.
    destruct (Variable_eqb b v) eqn:E; simpl; rewrite IHx by done.
    + by apply holds_agree, let_shadowed.
    + rewrite orb_false_r, orb_true_iff, andb_true_iff, !bool_decide_eq_true in H2.
      destruct H2 as [Hv|[Hb Hbody]].
      * rewrite (proj2 (substitute_notin v r)) by done. by apply holds_agree, agree_upd, upd_unused; intros [? _]%elem_of_difference.
      * rewrite IHb by done. by apply holds_agree, let_moved.
  - intros n g IH Hc σ. by apply IH.
Qed.
End Semantics.
