(* ===== verification/Hoare.v ===== *)
(** * Hoare logic: what commands do, and what the calculator is for

    Executions of the commands of [hoare_logic.rs] as their comments describe them,
    validity of triples, the commands and postconditions for which the calculator
    is right, and the induction that shows it ([wp_calculates]). *)

From Stdlib Require Import ClassicalDescription.
From stdpp Require Import gmap list strings pretty.
From S2P Require Import Prelude Assertions AssertionFacts.
Open Scope Z_scope.

(** ** Induction on commands *)
Section Induction.
Context (P : Command → Prop).
Context (PSkip : P C_Skip) (PAssign : ∀ v e, P (C_Assign v e)) (PSeq : ∀ c d, P c → P d → P (C_Seq c d))
  (PIf : ∀ b c e, P c → (∀ d, e = Some d → P d) → P (C_If b c e))
  (PWhile : ∀ b i c m ms, P c → P (C_While b i c m ms)) (PFor : ∀ v s e i c, P c → P (C_For v s e i c))
  (PAssert : ∀ p, P (C_Assert p)) (PAssume : ∀ p, P (C_Assume p)) (PHavoc : ∀ v, P (C_Havoc v))
  (PCall : ∀ r f a p q, P (C_Call r f a p q)) (PArray : ∀ a i x, P (C_ArrayUpdate a i x))
  (PBlock : ∀ cs, Forall P cs → P (C_Block cs)).

Fixpoint command_ind' (c : Command) : P c :=
  match c with
  | C_Skip => PSkip
  | C_Assign v e => PAssign v e
  | C_Seq c d => PSeq c d (command_ind' c) (command_ind' d)
  | C_If b c e =>
      PIf b c e (command_ind' c)
        match e with
        | Some d => λ d' E, match E in _ = o return match o with Some x => P x | None => True end with
                            | eq_refl => command_ind' d end
        | None => λ d' E, False_ind _ (eq_ind None (λ o, match o with None => True | Some _ => False end) I _ E)
        end
  | C_While b i c m ms => PWhile b i c m ms (command_ind' c)
  | C_For v s e i c => PFor v s e i c (command_ind' c)
  | C_Assert p => PAssert p
  | C_Assume p => PAssume p
  | C_Havoc v => PHavoc v
  | C_Call r f a p q => PCall r f a p q
  | C_ArrayUpdate a i x => PArray a i x
  | C_Block cs =>
      PBlock cs ((fix go l : Forall P l := match l with
                                           | [] => Forall_nil_2 _
                                           | x :: l => Forall_cons_2 _ _ _ (command_ind' x) (go l) end) cs)
  end.
End Induction.

(** ** Executions *)
Inductive ending (D : Type) := Done (σ : state D) | Failed.
Arguments Done {D} σ.
Arguments Failed {D}.

Section Hoare.
Context {D : Type} `{Interp D}.
Implicit Types (σ τ : state D) (f : Formula) (v : Variable_t) (c : Command) (R : state D → Prop).

(** A call is run by its contract: it fails unless [requires] holds, and gives any
    value with which [ensures] holds. *)
Inductive exec : Command → state D → ending D → Prop :=
| exec_skip σ : exec C_Skip σ (Done σ)
| exec_assign v e σ : exec (C_Assign v e) σ (Done (upd (ident_of v) (eval σ e) σ))
| exec_seq c d σ τ o : exec c σ (Done τ) → exec d τ o → exec (C_Seq c d) σ o
| exec_seq_failed c d σ : exec c σ Failed → exec (C_Seq c d) σ Failed
| exec_then b c e σ o : holds σ b → exec c σ o → exec (C_If b c e) σ o
| exec_else b c d σ o : ¬ holds σ b → exec d σ o → exec (C_If b c (Some d)) σ o
| exec_no_else b c σ : ¬ holds σ b → exec (C_If b c None) σ (Done σ)
| exec_while_end b i c m ms σ : ¬ holds σ b → exec (C_While b i c m ms) σ (Done σ)
| exec_while b i c m ms σ τ o :
    holds σ b → exec c σ (Done τ) → exec (C_While b i c m ms) τ o → exec (C_While b i c m ms) σ o
| exec_while_failed b i c m ms σ : holds σ b → exec c σ Failed → exec (C_While b i c m ms) σ Failed
| exec_for v s e i c σ o : exec (for_loop v s e i c) σ o → exec (C_For v s e i c) σ o
| exec_assert p σ : holds σ p → exec (C_Assert p) σ (Done σ)
| exec_assert_failed p σ : ¬ holds σ p → exec (C_Assert p) σ Failed
| exec_assume p σ : holds σ p → exec (C_Assume p) σ (Done σ)
| exec_havoc v d σ : exec (C_Havoc v) σ (Done (upd (ident_of v) d σ))
| exec_call_failed r g args p q σ : ¬ holds σ p → exec (C_Call r g args p q) σ Failed
| exec_call r g args p q d σ :
    holds σ p → holds (upd (ident_of Variable_result) d σ) q →
    exec (C_Call r g args p q) σ (Done match r with Some v => upd (ident_of v) d σ | None => σ end)
| exec_array a i x σ :
    exec (C_ArrayUpdate a i x) σ
      (Done (upd (ident_of a) (i_store (σ (ident_of a)) (eval σ i) (eval σ x)) σ))
| exec_block_nil σ : exec (C_Block []) σ (Done σ)
| exec_block c cs σ τ o : exec c σ (Done τ) → exec (C_Block cs) τ o → exec (C_Block (c :: cs)) σ o
| exec_block_failed c cs σ : exec c σ Failed → exec (C_Block (c :: cs)) σ Failed.

(** No execution fails, and all that end do so in [R]. *)
Definition ensures_post c R σ : Prop := ¬ exec c σ Failed ∧ ∀ τ, exec c σ (Done τ) → R τ.

Definition triple_valid (t : HoareTriple) : Prop :=
  ∀ σ, holds σ (precondition t) → ensures_post (command t) (λ τ, holds τ (postcondition t)) σ.

Lemma post_mono c R R' σ : ensures_post c R σ → (∀ τ, R τ → R' τ) → ensures_post c R' σ.
Proof. intros [Hf Hd] HR. split; auto. Qed.
Lemma post_iff c R R' σ : (∀ τ, R τ ↔ R' τ) → (ensures_post c R σ ↔ ensures_post c R' σ).
Proof. intros HR. split; intros Hp; (eapply post_mono; [exact Hp|]); intros τ; apply HR. Qed.

(** A command with one execution, which does not fail. *)
Ltac one_run :=
  split; [intros [_ Hd]; apply Hd; constructor|];
  intros HR; split; [intros Hf; inversion Hf | intros ? Hd; inversion Hd; by subst].

Lemma post_skip R σ : ensures_post C_Skip R σ ↔ R σ.
Proof. one_run. Qed.
Lemma post_assign v e R σ : ensures_post (C_Assign v e) R σ ↔ R (upd (ident_of v) (eval σ e) σ).
Proof. one_run. Qed.
Lemma post_array a i x R σ :
  ensures_post (C_ArrayUpdate a i x) R σ ↔
  R (upd (ident_of a) (i_store (σ (ident_of a)) (eval σ i) (eval σ x)) σ).
Proof. one_run. Qed.
Lemma post_seq c d R σ : ensures_post (C_Seq c d) R σ ↔ ensures_post c (ensures_post d R) σ.
Proof.
  split.
  - intros [Hf Hd]. split; [intros Hc; by apply Hf, exec_seq_failed|].
    intros τ Hc. split; [intros Hx; apply Hf | intros υ Hx; apply Hd]; by eapply exec_seq.
  - intros [Hf Hd]. split.
    + intros Hx. inversion Hx; subst; [|done]. by eapply Hd.
    + intros τ Hx. inversion Hx; subst. by eapply Hd.
Qed.
Lemma post_block_nil R σ : ensures_post (C_Block []) R σ ↔ R σ.
Proof. one_run. Qed.
Lemma post_block c cs R σ : ensures_post (C_Block (c :: cs)) R σ ↔ ensures_post c (ensures_post (C_Block cs) R) σ.
Proof.
  split.
  - intros [Hf Hd]. split; [intros Hc; by apply Hf, exec_block_failed|].
    intros τ Hc. split; [intros Hx; apply Hf | intros υ Hx; apply Hd]; by eapply exec_block.
  - intros [Hf Hd]. split.
    + intros Hx. inversion Hx; subst; [|done]. by eapply Hd.
    + intros τ Hx. inversion Hx; subst. by eapply Hd.
Qed.
Lemma post_if b c e R σ :
  ensures_post (C_If b c e) R σ ↔
  (holds σ b → ensures_post c R σ) ∧
  (¬ holds σ b → match e with Some d => ensures_post d R σ | None => R σ end).
Proof.
  split.
  - intros [Hf Hd]. split; intros Hb.
    + split; [intros Hx; apply Hf | intros τ Hx; apply Hd]; by apply exec_then.
    + destruct e as [d|]; [|by apply Hd, exec_no_else].
      split; [intros Hx; apply Hf | intros τ Hx; apply Hd]; by apply exec_else.
  - intros [Ht He]. split; [intros Hx | intros τ Hx]; inversion Hx; subst.
    + by apply Ht.
    + by apply He.
    + by apply Ht.
    + by apply He.
    + by apply He.
Qed.
Lemma post_assert p R σ : ensures_post (C_Assert p) R σ ↔ holds σ p ∧ R σ.
Proof.
  split.
  - intros [Hf Hd]. destruct (excluded_middle_informative (holds σ p)) as [Hp|Hp].
    + split; [done|]. by apply Hd, exec_assert.
    + destruct Hf. by apply exec_assert_failed.
  - intros [Hp HR]. split; [intros Hx | intros τ Hx]; inversion Hx; by subst.
Qed.
Lemma post_assume p R σ : ensures_post (C_Assume p) R σ ↔ (holds σ p → R σ).
Proof.
  split; [intros [_ Hd] Hp; by apply Hd, exec_assume|].
  intros HR. split; [intros Hx; inversion Hx | intros τ Hx; inversion Hx; subst; auto].
Qed.
Lemma post_havoc v R σ : ensures_post (C_Havoc v) R σ ↔ ∀ d, R (upd (ident_of v) d σ).
Proof.
  split; [intros [_ Hd] d; by apply Hd, exec_havoc|].
  intros HR. split; [intros Hx; inversion Hx | intros τ Hx; inversion Hx; by subst].
Qed.
Lemma post_call r g args p q R σ :
  ensures_post (C_Call r g args p q) R σ ↔
  holds σ p ∧ ∀ d, holds (upd (ident_of Variable_result) d σ) q →
    R match r with Some v => upd (ident_of v) d σ | None => σ end.
Proof.
  split.
  - intros [Hf Hd]. destruct (excluded_middle_informative (holds σ p)) as [Hp|Hp].
    + split; [done|]. intros d Hq. by apply Hd, exec_call.
    + destruct Hf. by apply exec_call_failed.
  - intros [Hp HR]. split; [intros Hx | intros τ Hx]; inversion Hx; subst; [done|]. by apply HR.
Qed.
Lemma post_for v s e i c R σ : ensures_post (C_For v s e i c) R σ ↔ ensures_post (for_loop v s e i c) R σ.
Proof.
  split; intros [Hf Hd]; split; [intros Hx; apply Hf | intros τ Hx; apply Hd
    | intros Hx; apply Hf | intros τ Hx; apply Hd]; try (by apply exec_for); by inversion Hx.
Qed.

(** An invariant that every turn keeps holds to the end. *)
Lemma post_while b i c m ms R (I : state D → Prop) σ :
  (∀ τ, I τ → holds τ b → ensures_post c I τ) → (∀ τ, I τ → ¬ holds τ b → R τ) →
  I σ → ensures_post (C_While b i c m ms) R σ.
Proof.
  intros Hkeep Hexit Hσ.
  assert (∀ d σ o, exec d σ o → d = C_While b i c m ms → I σ →
    match o with Done τ => R τ | Failed => False end) as Hruns.
  { induction 1; intros E HI; try done; injection E as -> -> -> -> ->.
    - by apply Hexit.
    - apply IHexec2; [done|]. by apply (Hkeep σ0).
    - by apply (Hkeep σ0). }
  split; [intros Hx | intros τ Hx]; by apply (Hruns _ _ _ Hx).
Qed.
(** ** Where the calculator is right *)
Section Wp.
Context (order : gset ident → list ident).

(** The substitutions the calculator makes do not capture, a call does not hide a
    variable of the postcondition behind ["result"], and every call has a result. *)
Fixpoint capture_ok (c : Command) (Q : Formula) (n : N) : bool :=
  match c with
  | C_Skip | C_Assert _ | C_Assume _ | C_Havoc _ => true
  | C_Assign v e => capture_free v (fv_expr e) Q
  | C_Seq c d => capture_ok d Q n && let '(q, n) := wp order d Q n in capture_ok c q n
  | C_If _ t e =>
      capture_ok t Q n && match e with Some e => capture_ok e Q (wp order t Q n).2 | None => true end
  | C_While _ i body _ _ => capture_ok body i n
  | C_For v s e i body =>
      let incr := E_BinOp B_Add (E_Var v) (E_IntConst 1) in
      capture_free v (fv_expr incr) i && capture_ok body (substitute v incr i) n &&
      capture_free v (fv_expr s)
        (wp order (C_While (for_condition v e) i (for_body v body) (Some (for_measure v e)) None) Q n).1
  | C_Call r _ _ _ _ =>
      match r with
      | Some v =>
          capture_free v {[ident_of Variable_result]} Q &&
          (Variable_eqb v Variable_result || bool_decide (ident_of Variable_result ∉ fv Q))
      | None => false
      end
  | C_ArrayUpdate a i x => capture_free a ({[ident_of a]} ∪ fv_expr i ∪ fv_expr x) Q
  | C_Block cs =>
      (fix go cs := match cs with
                    | [] => true
                    | c :: cs => go cs && let '(q, n) := wp order (C_Block cs) Q n in capture_ok c q n
                    end) cs
  end.

Fixpoint loop_free (c : Command) : bool :=
  match c with
  | C_While _ _ _ _ _ | C_For _ _ _ _ _ => false
  | C_Seq c d => loop_free c && loop_free d
  | C_If _ t e => loop_free t && match e with Some e => loop_free e | None => true end
  | C_Block cs => forallb (λ c, loop_free c) cs
  | _ => true
  end.

(** Every loop keeps its invariant, and gives the postcondition at its end, in all
    states and not only in the one the condition is evaluated in. *)
Fixpoint loops_valid (c : Command) (Q : Formula) (n : N) : Prop :=
  match c with
  | C_While b i body _ _ =>
      (∀ σ, holds σ i → holds σ b → holds σ (wp order body i n).1) ∧
      (∀ σ, holds σ i → ¬ holds σ b → holds σ Q) ∧ loops_valid body i n
  | C_For v s e i body =>
      let incr := E_BinOp B_Add (E_Var v) (E_IntConst 1) in
      (∀ σ, holds σ i → holds σ (for_condition v e) → holds σ (wp order body (substitute v incr i) n).1) ∧
      (∀ σ, holds σ i → ¬ holds σ (for_condition v e) → holds σ Q) ∧
      loops_valid body (substitute v incr i) n
  | C_Seq c d => loops_valid d Q n ∧ let '(q, n) := wp order d Q n in loops_valid c q n
  | C_If _ t e =>
      loops_valid t Q n ∧ match e with Some e => loops_valid e Q (wp order t Q n).2 | None => True end
  | C_Block cs =>
      (fix go cs := match cs with
                    | [] => True
                    | c :: cs => go cs ∧ let '(q, n) := wp order (C_Block cs) Q n in loops_valid c q n
                    end) cs
  | _ => True
  end.

Lemma wp_for_loop v s e i c Q n :
  wp order (C_For v s e i c) Q n = wp order (for_loop v s e i c) Q n.
Proof. reflexivity. Qed.

Lemma wp_block c cs Q n :
  wp order (C_Block (c :: cs)) Q n = let '(q, n) := wp order (C_Block cs) Q n in wp order c q n.
Proof. simpl. by destruct (fold_right _ _ cs). Qed.

Lemma holds_and fs σ : holds σ (f_and fs) ↔ Forall (λ f, holds σ f) fs.
Proof.
  assert (∀ l, fold_right (λ g P, holds σ g ∧ P) True l ↔ Forall (λ f, holds σ f) l) as Hfold.
  { induction l as [|f l IH]; simpl; [by split|]. by rewrite Forall_cons, IH. }
  destruct fs as [|f [|g fs]].
  - by split.
  - unfold f_and. by rewrite Forall_singleton.
  - apply Hfold.
Qed.

Lemma holds_or fs σ : holds σ (f_or fs) ↔ Exists (λ f, holds σ f) fs.
Proof.
  assert (∀ l, fold_right (λ g P, holds σ g ∨ P) False l ↔ Exists (λ f, holds σ f) l) as Hfold.
  { induction l as [|f l IH]; simpl; [by rewrite Exists_nil|]. by rewrite Exists_cons, IH. }
  destruct fs as [|f [|g fs]].
  - unfold f_or. by rewrite Exists_nil.
  - unfold f_or. rewrite Exists_cons, Exists_nil. tauto.
  - apply Hfold.
Qed.

Lemma holds_and2 f g σ : holds σ (f_and [f; g]) ↔ holds σ f ∧ holds σ g.
Proof. rewrite holds_and, Forall_cons, Forall_singleton. done. Qed.

(** The condition of a loop starts with its invariant. *)
Lemma wp_while_invariant wpb m b i dec lex Q n σ : holds σ (wp_while order wpb m b i dec lex Q n).1 → holds σ i.
Proof.
  unfold wp_while. destruct (wpb i n) as [w n1]. destruct (fresh_vars (order m) n1) as [fr n2].
  destruct (termination_vcs wpb b i dec lex n2) as [vcs n3]. cbn [fst].
  rewrite holds_and. by intros [? _]%Forall_cons.
Qed.

Context `{!BooleanLaws D}.

Lemma post_substitute v e Q σ : capture_free v (fv_expr e) Q = true →
  (holds σ (substitute v e Q) ↔ holds (upd (ident_of v) (eval σ e) σ) Q).
Proof. intros Hc. by apply substitute_means. Qed.

Lemma post_call_result v g args p q Q σ :
  capture_free v {[ident_of Variable_result]} Q = true →
  Variable_eqb v Variable_result || bool_decide (ident_of Variable_result ∉ fv Q) = true →
  (holds σ (f_and [p; F_Forall [Variable_result] (F_Implies q (substitute v (E_Var Variable_result) Q))]) ↔
   ensures_post (C_Call (Some v) g args p q) (λ τ, holds τ Q) σ).
Proof.
  intros Hc Hr. rewrite holds_and2, post_call. apply and_iff_compat_l.
  apply forall_proper. intros d. cbn [holds for_all]. apply imp_iff_compat_l.
  rewrite (post_substitute v (E_Var Variable_result)) by done. cbn [eval]. rewrite upd_eq.
  apply holds_agree. rewrite orb_true_iff, Variable_eqb_spec, bool_decide_eq_true in Hr.
  intros k Hk. unfold upd. repeat case_decide; try congruence. destruct Hr as [Hr|Hr]; congruence.
Qed.

(** One induction for soundness and, without loops, completeness. *)
Definition wp_right (c : Command) (Q : Formula) (n : N) : Prop :=
  ∀ σ, (holds σ (wp order c Q n).1 → ensures_post c (λ τ, holds τ Q) σ) ∧
       (loop_free c = true → ensures_post c (λ τ, holds τ Q) σ → holds σ (wp order c Q n).1).

Lemma wp_right_seq c d e Q n :
  (∀ R σ, ensures_post e R σ ↔ ensures_post c (ensures_post d R) σ) →
  (loop_free e = true → loop_free c = true ∧ loop_free d = true) →
  (wp order e Q n = let '(q, n) := wp order d Q n in wp order c q n) →
  wp_right d Q n → wp_right c (wp order d Q n).1 (wp order d Q n).2 → wp_right e Q n.
Proof.
  unfold wp_right. intros He Hl Hw Hd Hc σ. rewrite He, Hw. destruct (wp order d Q n) as [q m]. cbn [fst snd] in *.
  split.
  - intros Hq. apply (proj1 (Hc σ)) in Hq. eapply post_mono; [exact Hq|]. intros τ. exact (proj1 (Hd τ)).
  - intros [Hlc Hld]%Hl Hp. apply (proj2 (Hc σ)); [done|]. eapply post_mono; [exact Hp|]. intros τ. exact (proj2 (Hd τ) Hld).
Qed.

Lemma wp_right_while b i c m ms Q n :
  (∀ σ, holds σ i → holds σ b → holds σ (wp order c i n).1) →
  (∀ σ, holds σ i → ¬ holds σ b → holds σ Q) →
  wp_right c i n → wp_right (C_While b i c m ms) Q n.
Proof.
  intros Hk Hx Hc σ. split; [|done]. intros Hw%wp_while_invariant.
  eapply post_while; [|exact Hx|exact Hw]. intros τ Hi Hb. exact (proj1 (Hc τ) (Hk τ Hi Hb)).
Qed.

Lemma wp_calculates c : ∀ Q n, capture_ok c Q n = true → loops_valid c Q n → wp_right c Q n.
Proof.
  induction c as [|v e|c d IHc IHd|b c e IHc IHe|b i c m ms IH|v s e i c IH|p|p|v|r g args p q|a i x|cs IH]
    using command_ind'; intros Q n Hcap Hloops.
  - intros σ. by rewrite post_skip.
  - intros σ. rewrite post_assign. cbn. by rewrite post_substitute.
  - cbn in Hcap, Hloops. apply andb_true_iff in Hcap as [Hcd Hcc]. destruct Hloops as [Hld Hlc].
    specialize (IHc (wp order d Q n).1 (wp order d Q n).2).
    apply (wp_right_seq c d); [intros; apply post_seq | by intros [? ?]%andb_true_iff | done | by apply IHd |].
    destruct (wp order d Q n). by apply IHc.
  - cbn in Hcap, Hloops. apply andb_true_iff in Hcap as [Hct Hce]. destruct Hloops as [Hlt Hle].
    intros σ. rewrite post_if. specialize (IHc Q n Hct Hlt σ). cbn [wp loop_free]. destruct (wp order c Q n) as [wt m].
    cbn [fst snd] in *. destruct e as [d|].
    + specialize (IHe d eq_refl Q m Hce Hle σ). destruct (wp order d Q m) as [we m']. cbn [fst] in *.
      rewrite holds_and2. cbn [holds]. rewrite andb_true_iff. tauto.
    + cbn [fst]. rewrite holds_and2. cbn [holds]. rewrite andb_true_r. tauto.
  - cbn in Hcap, Hloops. destruct Hloops as (Hk & Hx & Hl). apply wp_right_while; auto.
  - cbn in Hcap, Hloops.
    apply andb_true_iff in Hcap as [[Hci Hcb]%andb_true_iff Hcs]. destruct Hloops as (Hk & Hx & Hl).
    assert (wp_right (for_increment v) i n) as Hincr.
    { intros τ. unfold for_increment. rewrite post_assign. cbn. by rewrite post_substitute. }
    assert (wp_right (for_body v c) i n) as Hbody.
    { apply (wp_right_seq c (for_increment v)); [intros; apply post_seq | | done | done |].
      - intros [? ?]%andb_true_iff. done.
      - by apply IH. }
    assert (wp_right (for_loop v s e i c) Q n) as Hloop.
    { apply (wp_right_seq (C_Assign v s) (C_While (for_condition v e) i (for_body v c) (Some (for_measure v e)) None));
        [intros; apply post_seq | done | done | by apply wp_right_while |].
      intros τ. rewrite post_assign. cbn [wp fst snd]. by rewrite post_substitute. }
    intros σ. rewrite post_for, wp_for_loop. split; [apply Hloop | done].
  - intros σ. rewrite post_assert. cbn [wp fst]. by rewrite holds_and2.
  - intros σ. by rewrite post_assume.
  - intros σ. by rewrite post_havoc.
  - destruct r as [v|]; [|done]. cbn in Hcap. apply andb_true_iff in Hcap as [Hc Hr].
    intros σ. cbn [wp fst]. by rewrite (post_call_result v g args).
  - intros σ. rewrite post_array. cbn in *. by rewrite post_substitute.
  - induction IH as [|c cs Hc _ IHcs]; [by intros σ; rewrite post_block_nil|].
    change (capture_ok (C_Block cs) Q n && (let '(q, n) := wp order (C_Block cs) Q n in capture_ok c q n) = true) in Hcap.
    change (loops_valid (C_Block cs) Q n ∧ (let '(q, n) := wp order (C_Block cs) Q n in loops_valid c q n)) in Hloops.
    apply andb_true_iff in Hcap as [Hcs Hcc]. destruct Hloops as [Hls Hlc].
    specialize (Hc (wp order (C_Block cs) Q n).1 (wp order (C_Block cs) Q n).2).
    apply (wp_right_seq c (C_Block cs)); [intros; apply post_block | by intros [? ?]%andb_true_iff
      | apply wp_block | by apply IHcs |].
    destruct (wp order (C_Block cs) Q n). by apply Hc.
Qed.
End Wp.
End Hoare.

(** ** What commands read and write *)
Fixpoint reads (c : Command) : gset ident :=
  match c with
  | C_Skip | C_Havoc _ => ∅
  | C_Assign _ e => fv_expr e
  | C_Seq c d => reads c ∪ reads d
  | C_If b t e => fv b ∪ reads t ∪ match e with Some e => reads e | None => ∅ end
  | C_While b _ body _ _ => fv b ∪ reads body
  | C_For v s e _ body => {[ident_of v]} ∪ fv_expr s ∪ fv_expr e ∪ reads body
  | C_Assert p | C_Assume p => fv p
  | C_Call _ _ _ p q => fv p ∪ fv q
  | C_ArrayUpdate a i x => {[ident_of a]} ∪ fv_expr i ∪ fv_expr x
  | C_Block cs => ⋃ map (λ c, reads c) cs
  end.

Fixpoint assigned (c : Command) : gset ident :=
  match c with
  | C_Skip | C_Assert _ | C_Assume _ => ∅
  | C_Assign v _ | C_Havoc v | C_ArrayUpdate v _ _ => {[ident_of v]}
  | C_Seq c d => assigned c ∪ assigned d
  | C_If _ t e => assigned t ∪ match e with Some e => assigned e | None => ∅ end
  | C_While _ _ body _ _ | C_For _ _ _ _ body => assigned body
  | C_Call r _ _ _ _ => match r with Some v => {[ident_of v]} | None => ∅ end
  | C_Block cs => ⋃ map (λ c, assigned c) cs
  end.

Fixpoint loop_variables (c : Command) : gset ident :=
  match c with
  | C_For v _ _ _ body => {[ident_of v]} ∪ loop_variables body
  | C_Seq c d => loop_variables c ∪ loop_variables d
  | C_If _ t e => loop_variables t ∪ match e with Some e => loop_variables e | None => ∅ end
  | C_While _ _ body _ _ => loop_variables body
  | C_Block cs => ⋃ map (λ c, loop_variables c) cs
  | _ => ∅
  end.

Definition writes (c : Command) : gset ident := assigned c ∪ loop_variables c.

(** [collect_modified_vars] gives what is written, loop variables apart. *)
Lemma collect_assigned c : ∀ vars, collect_modified_vars_rec c vars = assigned c ∪ vars.
Proof.
  induction c as [|v e|c d IHc IHd|b c e IHc IHe|b i c m ms IH|v s e i c IH|p|p|v|r g args p q|a i x|cs IH]
    using command_ind'; intros vars; cbn; try (clear; set_solver).
  - rewrite IHd, IHc. clear. set_solver.
  - destruct e as [d|]; rewrite ?(IHe d), IHc by done; clear; set_solver.
  - done.
  - done.
  - destruct r; clear; set_solver.
  - revert vars. induction IH as [|c cs Hc _ IHcs]; intros vars; cbn; [clear; set_solver|].
    rewrite IHcs, Hc. clear. set_solver.
Qed.

Lemma collect_modified_vars_assigned c : collect_modified_vars c = assigned c.
Proof. unfold collect_modified_vars. rewrite collect_assigned. set_solver. Qed.

Section Footprint.
Context {D : Type} `{Interp D}.
Implicit Types (σ τ : state D) (c : Command).

(** An execution changes only what is written. *)
Lemma exec_writes c σ o : exec c σ o → ∀ k, k ∉ writes c →
  match o with Done τ => τ k = σ k | Failed => True end.
Proof.
  unfold writes. induction 1; intros k Hk; cbn in Hk;
    rewrite ?not_elem_of_union, ?elem_of_singleton in Hk; destruct_and?; try done;
    repeat match goal with IH : ∀ k, k ∉ _ → _ |- _ =>
             specialize (IH k); cbn in IH; rewrite ?not_elem_of_union, ?elem_of_singleton in IH end;
    try (by apply upd_ne); try (destruct o; [|done]); try intuition congruence.
  - pose proof (not_elem_of_empty (C := gset ident) k). tauto.
  - destruct r as [w|]; [|done]. apply upd_ne. intros ->. by apply H2, elem_of_singleton.
Qed.

Definition agree_off (X : gset ident) (σ τ : state D) : Prop := ∀ k, k ∉ X → σ k = τ k.

Lemma agree_off_agree X S σ τ : agree_off X σ τ → S ## X → agree S σ τ.
Proof. intros Hag HS k Hk. apply Hag. set_solver. Qed.
Lemma agree_off_upd X k d σ τ : agree_off X σ τ → agree_off X (upd k d σ) (upd k d τ).
Proof. intros Hag j Hj. unfold upd. case_decide; auto. Qed.

(** States that differ in variables a command does not read have the same executions. *)
Lemma exec_off X c σ o : exec c σ o → reads c ## X → ∀ τ, agree_off X σ τ →
  ∃ o', exec c τ o' ∧
    match o, o' with Done σ', Done τ' => agree_off X σ' τ' | Failed, Failed => True | _, _ => False end.
Proof.
  intros Hx HX.
  assert (∀ f σ τ, fv f ## X → agree_off X σ τ → (holds σ f ↔ holds τ f)) as Hf.
  { intros f s t Hd Hag. by eapply holds_agree, agree_off_agree. }
  assert (∀ e σ τ, fv_expr e ## X → agree_off X σ τ → eval σ e = eval τ e) as He.
  { intros e s t Hd Hag. by eapply eval_agree, agree_off_agree. }
  revert HX. induction Hx; intros HX υ Hag; cbn in HX; rewrite ?disjoint_union_l in HX; destruct_and?.
  - exists (Done υ). by split; [constructor|].
  - eexists. split; [constructor|]. rewrite (He e σ υ) by done. by apply agree_off_upd.
  - destruct (IHHx1 ltac:(done) υ Hag) as ([τ'|] & Hr1 & Hr2); [|done].
    destruct (IHHx2 ltac:(done) τ' Hr2) as (o' & Hr3 & Hr4). exists o'. split; [by eapply exec_seq | done].
  - destruct (IHHx ltac:(done) υ Hag) as ([τ'|] & Hr1 & Hr2); [done|]. exists Failed.
    split; [by apply exec_seq_failed | done].
  - destruct (IHHx ltac:(done) υ Hag) as (o' & Hr1 & Hr2). exists o'. split; [|done]. apply exec_then; [|done].
    by apply (Hf b σ υ).
  - destruct (IHHx ltac:(done) υ Hag) as (o' & Hr1 & Hr2). exists o'. split; [|done]. apply exec_else; [|done].
    by rewrite <- (Hf b σ υ).
  - exists (Done υ). split; [|done]. apply exec_no_else. by rewrite <- (Hf b σ υ).
  - exists (Done υ). split; [|done]. apply exec_while_end. by rewrite <- (Hf b σ υ).
  - destruct (IHHx1 ltac:(done) υ Hag) as ([τ'|] & Hr1 & Hr2); [|done].
    destruct (IHHx2 ltac:(cbn; by rewrite disjoint_union_l) τ' Hr2) as (o' & Hr3 & Hr4).
    exists o'. split; [|done]. apply (exec_while _ _ _ _ _ _ τ'); [|done|done]. by apply (Hf b σ υ).
  - destruct (IHHx ltac:(done) υ Hag) as ([τ'|] & Hr1 & Hr2); [done|]. exists Failed. split; [|done].
    apply exec_while_failed; [|done]. by apply (Hf b σ υ).
  - assert (reads (for_loop v s e i c) ## X) as Hr.
    { cbn. rewrite !disjoint_union_l. repeat split; done || apply disjoint_empty_l. }
    destruct (IHHx Hr υ Hag) as (o' & Hr3 & Hr4). exists o'. split; [by apply exec_for | done].
  - exists (Done υ). split; [|done]. apply exec_assert. by apply (Hf p σ υ).
  - exists Failed. split; [|done]. apply exec_assert_failed. by rewrite <- (Hf p σ υ).
  - exists (Done υ). split; [|done]. apply exec_assume. by apply (Hf p σ υ).
  - eexists. split; [apply (exec_havoc v d)|]. by apply agree_off_upd.
  - exists Failed. split; [|done]. apply exec_call_failed. by rewrite <- (Hf p σ υ).
  - eexists. split; [apply (exec_call r g args p q d)|].
    + by apply (Hf p σ υ).
    + eapply Hf; [done| |done]. apply agree_off_upd. intros k Hk. symmetry. by apply Hag.
    + destruct r; [by apply agree_off_upd | done].
  - eexists. split; [constructor|]. rewrite (He i σ υ), (He x σ υ), (Hag (ident_of a)) by (done || set_solver).
    by apply agree_off_upd.
  - exists (Done υ). by split; [constructor|].
  - destruct (IHHx1 ltac:(done) υ Hag) as ([τ'|] & Hr1 & Hr2); [|done].
    destruct (IHHx2 ltac:(done) τ' Hr2) as (o' & Hr3 & Hr4). exists o'. split; [by eapply exec_block | done].
  - destruct (IHHx ltac:(done) υ Hag) as ([τ'|] & Hr1 & Hr2); [done|]. exists Failed.
    split; [by apply exec_block_failed | done].
Qed.
End Footprint.
