(* ===== verification/HoareFacts.v ===== *)
(** * Hoare logic: the theorems

    What the calculator of [hoare_logic.rs] guarantees: exactness without loops
    ([wp_exact]), soundness ([verified_sound]), the end of loops with measures
    ([measured_loop_terminates], [lexicographic_loop_terminates]), the frame rule
    ([frame_exact]); and programs for which a condition is valid and the triple
    is not ([while_condition_local] and the lemmas after it). *)

From Stdlib Require Import Zwf.
From stdpp Require Import gmap list strings pretty.
From S2P Require Import Prelude Assertions AssertionFacts Hoare.
Open Scope Z_scope.

(** ** Lexicographic order *)
Fixpoint lex_below {A : Type} (lt : A → A → Prop) (l l' : list A) : Prop :=
  match l, l' with
  | a :: l, b :: l' => lt a b ∨ a = b ∧ lex_below lt l l'
  | _, _ => False
  end.

(** Below a list of numbers that are not negative there is no infinite descent. *)
Definition descends (l l' : list Z) : Prop :=
  length l = length l' ∧ Forall (Z.le 0) l' ∧ lex_below Z.lt l l'.

Lemma descends_wf : well_founded descends.
Proof.
  assert (∀ n l, length l = n → Acc descends l) as Hall; [|intros l; by eapply Hall].
  induction n as [|n IHn]; intros l Hl.
  - destruct l; [|done]. constructor. intros l' (_ & _ & Hlt). by destruct l'.
  - destruct l as [|a t]; [done|]. injection Hl as Hl. revert t Hl.
    induction a as [a IHa] using (well_founded_induction (Zwf_well_founded 0)). intros t Hl.
    pose proof (IHn t Hl) as Ht. induction Ht as [t _ IHt].
    constructor. intros [|a' t'] (Hlen & Hpos & Hlt); [done|].
    injection Hlen as Hlen. apply Forall_cons in Hpos as [Ha Hpos]. destruct Hlt as [Hlt|[-> Hlt]].
    + apply IHa; [done | congruence].
    + apply IHt; [done | congruence].
Qed.

Section Termination.
Context {D : Type} `{Interp D} `{!BooleanLaws D}.
Context (order : gset ident → list ident).
Implicit Types (σ τ : state D) (c : Command) (Q : Formula) (n : N).

(** What the termination conditions need of the order: integers are integers. *)
Class OrderLaws := {
  lt_int : ∀ a b, i_lt (i_int a) (i_int b) ↔ a < b;
  le_int : ∀ a b, i_le (i_int a) (i_int b) ↔ a ≤ b;
  int_inj : ∀ a b, i_int a = i_int b → a = b;
}.

Lemma disjuncts_exact τ pairs : ∀ prefix,
  Exists (λ f, holds τ f) (lexicographic_disjuncts prefix pairs) ↔
  Forall (λ f, holds τ f) prefix ∧ lex_below i_lt (map (eval τ) (map fst pairs)) (map (eval τ) (map snd pairs)).
Proof.
  induction pairs as [|[m b] pairs IH]; intros prefix; simpl.
  - rewrite Exists_nil. tauto.
  - rewrite Exists_cons, IH, Forall_app, Forall_singleton. simpl.
    assert (holds τ (match prefix with [] => F_Lt m b | _ => f_and (prefix ++ [F_Lt m b]) end) ↔
            Forall (λ f, holds τ f) prefix ∧ i_lt (eval τ m) (eval τ b)) as ->; [|tauto].
    destruct prefix as [|p prefix]; [by split; [|intros [_ ?]]|].
    by rewrite holds_and, Forall_app, Forall_singleton.
Qed.

Lemma lexicographic_decrease_below τ ms bs : length ms = length bs →
  (holds τ (build_lexicographic_decrease ms bs) ↔ lex_below i_lt (map (eval τ) ms) (map (eval τ) bs)).
Proof.
  intros Hlen. destruct ms as [|m ms]; [done|]. unfold build_lexicographic_decrease.
  rewrite holds_or, disjuncts_exact. rewrite Forall_nil.
  assert (∀ (A B : Type) (l : list A) (l' : list B), length l = length l' →
    map fst (zip l l') = l ∧ map snd (zip l l') = l') as Hz.
  { induction l as [|x l IH]; intros [|y l'] E; try done. injection E as E. simpl.
    destruct (IH l' E) as [-> ->]. done. }
  destruct (Hz _ _ _ _ Hlen) as [-> ->]. tauto.
Qed.

(** ** Snapshots *)
Fixpoint upd_list (xs : list string) (ds : list D) (σ : state D) : state D :=
  match xs, ds with
  | x :: xs, d :: ds => upd_list xs ds (upd (x, None) d σ)
  | _, _ => σ
  end.
Definition snapshots (xs : list string) : gset ident := list_to_set (map (λ x, (x, None)) xs).

Lemma upd_list_off xs : ∀ ds σ, agree_off (snapshots xs) (upd_list xs ds σ) σ.
Proof.
  induction xs as [|x xs IH]; intros [|d ds] σ k Hk; try done. simpl. unfold snapshots in Hk. simpl in Hk.
  apply not_elem_of_union in Hk as [Hx Hk]. rewrite IH by done. apply upd_ne. set_solver.
Qed.

Lemma upd_list_values xs : NoDup xs → ∀ ds σ, length xs = length ds →
  Forall2 (λ x d, upd_list xs ds σ (x, None) = d) xs ds.
Proof.
  induction 1 as [|x xs Hx _ IH]; intros [|d ds] σ E; try done; constructor.
  - simpl. rewrite (upd_list_off xs ds _ (x, None)); [apply upd_eq|].
    unfold snapshots. rewrite elem_of_list_to_set, list_elem_of_In, in_map_iff.
    intros (y & [= ->] & Hy). apply Hx. by apply list_elem_of_In.
  - injection E as E. simpl. by apply IH.
Qed.

Lemma for_all_list xs : ∀ ds K σ, length xs = length ds →
  for_all (map (λ x, Variable_typed x T_Int) xs) K σ → K (upd_list xs ds σ).
Proof.
  induction xs as [|x xs IH]; intros [|d ds] K σ E HK; try done. injection E as E.
  simpl in *. by apply IH.
Qed.

Lemma fv_union ms m : m ∈ ms → fv_expr m ⊆ ⋃ map (λ a, fv_expr a) ms.
Proof. induction 1; simpl; set_solver. Qed.

Lemma values_kept (υ τ : state D) xs ds :
  Forall2 (λ x d, υ (x, None) = d) xs ds → (∀ x, x ∈ xs → τ (x, None) = υ (x, None)) →
  map (λ x, eval τ (E_Var (Variable_new x))) xs = ds.
Proof.
  induction 1 as [|x d xs ds Hd _ IH]; intros Hkeep; [done|]. simpl. f_equal.
  - change (τ (x, None) = d). rewrite Hkeep by constructor. exact Hd.
  - apply IH. intros y Hy. apply Hkeep. by constructor.
Qed.

(** The premises of the condition hold once the snapshots are taken. *)
Lemma snapshot_taken b I ms xs twp σ :
  NoDup xs → length xs = length ms →
  fv I ∪ fv b ∪ ⋃ map (λ a, fv_expr a) ms ## snapshots xs →
  holds σ (F_Forall (map (λ x, Variable_typed x T_Int) xs)
    (F_Implies (f_and ([I; b] ++ map (λ '(m, before), F_Eq m before) (zip ms (map (λ x, E_Var (Variable_new x)) xs))))
       twp)) →
  holds σ I → holds σ b → holds (upd_list xs (map (eval σ) ms) σ) twp.
Proof.
  intros Hnd Hlen Hfresh Hw HI Hb. rewrite !disjoint_union_l in Hfresh. destruct Hfresh as [[HfI Hfb] Hfm].
  assert (length xs = length (map (eval σ) ms)) as Hlen' by by rewrite length_map.
  set (τ := upd_list xs (map (eval σ) ms) σ).
  assert (∀ S, S ## snapshots xs → agree S τ σ) as Hag by (intros; eapply agree_off_agree; [apply upd_list_off | done]).
  apply (for_all_list xs (map (eval σ) ms)) in Hw; [|done]. fold τ in Hw. apply Hw.
  rewrite holds_and, Forall_app, Forall_cons, Forall_singleton. split; [split|].
  - by apply (holds_agree I τ σ), HI; auto.
  - by apply (holds_agree b τ σ), Hb; auto.
  - pose proof (upd_list_values xs Hnd (map (eval σ) ms) σ Hlen') as Hv. fold τ in Hv.
    clear Hw Hnd Hlen Hlen'. assert (∀ m, m ∈ ms → eval τ m = eval σ m) as He.
    { intros m Hm. apply eval_agree, Hag. intros k Hk. apply Hfm. by eapply fv_union. }
    clearbody τ. clear Hag Hfm HfI Hfb. revert ms Hv He. induction xs as [|x xs IH]; intros [|m ms] Hv He; try constructor.
    + cbn. apply Forall2_cons in Hv as [Hv _]. rewrite He by constructor. done.
    + apply IH.
      * by apply Forall2_cons in Hv as [_ Hv].
      * intros m' Hm'. apply He. by constructor.
Qed.

Definition body_right c P n : Prop := capture_ok order c P n = true ∧ loops_valid (D := D) order c P n.
Definition turn b c σ τ : Prop := holds σ b ∧ exec c σ (Done τ).

(** What a turn of the loop does to the measures. *)
Lemma measures_below b I c ms xs n σ τ :
  let post := build_lexicographic_decrease ms (map (λ x, E_Var (Variable_new x)) xs) in
  NoDup xs → length xs = length ms →
  fv I ∪ fv b ∪ ⋃ map (λ a, fv_expr a) ms ## snapshots xs → reads c ∪ writes c ## snapshots xs →
  (∀ σ, holds σ (wp order c post n).1 → ensures_post c (λ τ, holds τ post) σ) →
  holds (upd_list xs (map (eval σ) ms) σ) (wp order c post n).1 →
  exec c σ (Done τ) → lex_below i_lt (map (eval τ) ms) (map (eval σ) ms).
Proof.
  intros post Hnd Hlen Hfresh Hbody Hright Hw Hx.
  apply disjoint_union_l in Hbody as [Hr Hwr].
  assert (agree_off (snapshots xs) σ (upd_list xs (map (eval σ) ms) σ)) as Hoff.
  { intros k Hk. symmetry. by apply upd_list_off. }
  destruct (exec_off (snapshots xs) c σ _ Hx Hr _ Hoff) as ([τ'|] & Hx' & Hag); [|done].
  apply Hright in Hw as [_ Hpost]. specialize (Hpost _ Hx'). unfold post in Hpost.
  rewrite lexicographic_decrease_below in Hpost by by rewrite length_map.
  assert (map (eval τ') ms = map (eval τ) ms) as <-.
  { apply map_ext_in. intros m Hm%list_elem_of_In. symmetry. eapply eval_agree, agree_off_agree; [exact Hag|].
    apply fv_union in Hm. set_solver. }
  assert (map (eval τ') (map (λ x, E_Var (Variable_new x)) xs) = map (eval σ) ms) as <-; [|done].
  pose proof (upd_list_values xs Hnd (map (eval σ) ms) σ ltac:(by rewrite length_map)) as Hv.
  rewrite map_map. apply (values_kept (upd_list xs (map (eval σ) ms) σ)); [done|].
  intros x Hx1. apply (exec_writes _ _ _ Hx'). intros Hin. apply (Hwr _ Hin).
  unfold snapshots. rewrite elem_of_list_to_set, list_elem_of_In, in_map_iff. exists x.
  by rewrite <- list_elem_of_In.
Qed.

Context {ints : OrderLaws}.

Lemma lex_below_int l l' : lex_below i_lt (map i_int l) (map i_int l') ↔ lex_below Z.lt l l'.
Proof.
  revert l'. induction l as [|a l IH]; intros [|b l']; simpl; try done. rewrite lt_int, IH.
  assert (i_int a = i_int b ↔ a = b) as ->; [|done]. split; [apply int_inj | by intros ->].
Qed.

Definition integer_valued (I : Formula) (ms : list SmtExpr) : Prop :=
  ∀ σ, holds σ I → ∃ zs, map (eval σ) ms = map i_int zs.

(** A loop that keeps [I], bounds the measures below and makes them smaller ends. *)
Lemma turns_end b I c ms :
  integer_valued I ms →
  (∀ σ τ, holds σ I → turn b c σ τ → holds τ I) →
  (∀ σ, holds σ I → holds σ b → Forall (λ m, holds σ (F_Ge m (E_IntConst 0))) ms) →
  (∀ σ τ, holds σ I → turn b c σ τ → lex_below i_lt (map (eval τ) ms) (map (eval σ) ms)) →
  ∀ σ, holds σ I → Acc (λ τ σ, turn b c σ τ) σ.
Proof.
  intros Hint Hkeep Hpos Hlt σ HI. destruct (Hint σ HI) as [zs Hzs].
  revert σ HI Hzs. induction zs as [zs IH] using (well_founded_induction descends_wf). intros σ HI Hzs.
  constructor. intros τ Ht. assert (holds τ I) as HI' by by eapply Hkeep.
  destruct (Hint τ HI') as [zs' Hzs']. apply (IH zs'); [|done|done].
  pose proof (Hlt σ τ HI Ht) as Hl. rewrite Hzs, Hzs', lex_below_int in Hl.
  assert (length zs = length ms ∧ length zs' = length ms) as [E E'].
  { split; [apply (f_equal length) in Hzs | apply (f_equal length) in Hzs']; rewrite !length_map in *; done. }
  split; [congruence|]. split; [|done].
  destruct Ht as [Hb _]. pose proof (Hpos σ HI Hb) as Hp. revert Hp Hzs. clear -ints.
  revert zs. induction ms as [|m ms IH]; intros [|z zs] Hp E; try done; constructor.
  - apply Forall_cons in Hp as [Hp _]. injection E as E _. cbn in Hp. rewrite E in Hp. by apply le_int.
  - apply Forall_cons in Hp as [_ Hp]. injection E as _ E. by apply IH.
Qed.
(** ** Verified loops *)
Definition loop_counter c I n : N := (fresh_vars (order (collect_modified_vars c)) (wp order c I n).2).2.

Lemma wp_while_conditions wpb vars b I dec lex Q n σ :
  holds σ (wp_while order wpb vars b I dec lex Q n).1 →
  (holds σ b → holds σ (wpb I n).1) ∧ (¬ holds σ b → holds σ Q) ∧
  Forall (λ f, holds σ f) (termination_vcs wpb b I dec lex (fresh_vars (order vars) (wpb I n).2).2).1.
Proof.
  intros Hw. pose proof (wp_while_invariant order _ _ _ _ _ _ _ _ _ Hw) as HI. revert Hw.
  unfold wp_while. destruct (wpb I n) as [w n1]. cbn [fst snd].
  destruct (fresh_vars (order vars) n1) as [fr n2]. cbn [snd].
  destruct (termination_vcs wpb b I dec lex n2) as [vcs n3]. cbn [fst].
  rewrite holds_and, Forall_app, !Forall_cons. intros [(_ & Hk & Hx & _) Hv]. split; [|split; [|done]].
  - intros Hb. assert (holds σ (F_Implies (f_and [I; b]) w)) as Hk'.
    { destruct fr as [|v fr]; [done|]. refine (for_all_here _ _ _ σ (holds_agree (F_Implies (f_and [I; b]) w)) Hk). }
    apply Hk'. by rewrite holds_and2.
  - intros Hb. apply Hx. by rewrite holds_and2.
Qed.

Lemma loop_verified b I c dec lex Q n :
  body_right c I n →
  (∀ σ, holds σ (generate_vc order {| precondition := I; command := C_While b I c dec lex; postcondition := Q |} n).1) →
  (∀ σ τ, holds σ I → turn b c σ τ → holds τ I) ∧
  triple_valid {| precondition := I; command := C_While b I c dec lex; postcondition := Q |} ∧
  (∀ σ, holds σ I → Forall (λ f, holds σ f) (termination_vcs (wp order c) b I dec lex (loop_counter c I n)).1).
Proof.
  intros [Hcap Hl] Hvc.
  assert (∀ σ, holds σ I → holds σ (wp order (C_While b I c dec lex) Q n).1) as Hw.
  { intros σ. specialize (Hvc σ). unfold generate_vc in Hvc. cbn [precondition command postcondition] in Hvc.
    destruct (wp order (C_While b I c dec lex) Q n). exact Hvc. }
  assert (∀ σ, holds σ I → holds σ b → ensures_post c (λ τ, holds τ I) σ) as Hkeep.
  { intros σ HI Hb. apply (wp_calculates order c I n Hcap Hl).
    by apply (wp_while_conditions _ _ _ _ _ _ _ _ _ (Hw σ HI)). }
  split; [|split].
  - intros σ τ HI [Hb Hx]. by apply (Hkeep σ HI Hb).
  - intros σ HI. eapply post_while; [exact Hkeep | | exact HI].
    intros τ HIτ Hb. by apply (wp_while_conditions _ _ _ _ _ _ _ _ _ (Hw τ HIτ)).
  - intros σ HI. by apply (wp_while_conditions _ _ _ _ _ _ _ _ _ (Hw σ HI)).
Qed.

(** Both kinds of measures: the conditions are those of [termination_conditions]. *)
Definition termination_conditions b I c ms xs (w : Formula) σ : Prop :=
  (holds σ I → holds σ b → Forall (λ m, holds σ (F_Ge m (E_IntConst 0))) ms) ∧
  holds σ (F_Forall (map (λ x, Variable_typed x T_Int) xs)
    (F_Implies (f_and ([I; b] ++ map (λ '(m, before), F_Eq m before) (zip ms (map (λ x, E_Var (Variable_new x)) xs)))) w)).

Lemma loop_ends b I c ms xs n :
  let post := build_lexicographic_decrease ms (map (λ x, E_Var (Variable_new x)) xs) in
  NoDup xs → length xs = length ms →
  (fv I ∪ fv b ∪ ⋃ map (λ a, fv_expr a) ms) ∪ (reads c ∪ writes c) ## snapshots xs →
  body_right c post n → integer_valued I ms →
  (∀ σ τ, holds σ I → turn b c σ τ → holds τ I) →
  (∀ σ, holds σ I → termination_conditions b I c ms xs (wp order c post n).1 σ) →
  ∀ σ, holds σ I → Acc (λ τ σ, turn b c σ τ) σ.
Proof.
  intros post Hnd Hlen Hfresh [Hcap Hl] Hint Hkeep Hterm. apply disjoint_union_l in Hfresh as [Hf1 Hf2].
  apply (turns_end b I c ms Hint Hkeep).
  - intros σ HI Hb. by apply (Hterm σ HI).
  - intros σ τ HI [Hb Hx]. apply (measures_below b I c ms xs n σ τ Hnd Hlen Hf1 Hf2); [| |done].
    + intros υ Hw. by apply (wp_calculates order c post n Hcap Hl).
    + eapply snapshot_taken; [done|done|done|by apply (Hterm σ HI)|done|done].
Qed.

(** A loop verified from its invariant with a [decreases] measure ends, under the
    conditions of [lexicographic_loop_terminates]. *)
Theorem measured_loop_terminates b I c m Q n :
  let k := loop_counter c I n in
  let x := measure_before_name k in
  let t := {| precondition := I; command := C_While b I c (Some m) None; postcondition := Q |} in
  body_right c I n → body_right c (F_Lt m (E_Var (Variable_new x))) (fetch_add k 1).2 →
  (fv I ∪ fv b ∪ fv_expr m) ∪ (reads c ∪ writes c) ## {[(x, None)]} →
  integer_valued I [m] →
  (∀ σ, holds σ (generate_vc order t n).1) →
  triple_valid t ∧ ∀ σ, holds σ I → Acc (λ τ σ, turn b c σ τ) σ.
Proof.
  intros k x t HI Hdec Hfresh Hint Hvc.
  destruct (loop_verified b I c (Some m) None Q n HI Hvc) as (Hkeep & Ht & Hv). split; [done|].
  apply (loop_ends b I c [m] [x] (fetch_add k 1).2); try done.
  - apply NoDup_singleton.
  - unfold snapshots. simpl. rewrite !union_empty_r_L. exact Hfresh.
  - intros σ Hσ. specialize (Hv σ Hσ). cbn [termination_vcs] in Hv. fold k in Hv.
    unfold generate_single_measure_termination_vcs in Hv. cbv [fetch_add] in Hv |- *. cbn [snd].
    fold x in Hv. change (build_lexicographic_decrease [m] (map (λ x, E_Var (Variable_new x)) [x]))
      with (F_Lt m (E_Var (Variable_new x))).
    destruct (wp order c (F_Lt m (E_Var (Variable_new x))) ((k + 1) mod 2 ^ 64)) as [w n'].
    cbn [fst] in *. rewrite Forall_cons, Forall_singleton in Hv. destruct Hv as [Hpos Hfall]. split; [|done].
    intros _ Hb. constructor; [|done]. apply Hpos. by rewrite holds_and2.
Qed.

(** The names of the snapshots differ. *)
Lemma measure_names_nodup base l : NoDup (imap (λ i (_ : SmtExpr), measure_before_name_at base (N.of_nat i)) l).
Proof.
  apply NoDup_alt. intros i j x Hi Hj. rewrite list_lookup_imap, fmap_Some in Hi, Hj.
  destruct Hi as (? & _ & ->), Hj as (? & _ & E). unfold measure_before_name_at in E.
  apply (inj (String.append _)), (inj (String.append _)), (inj pretty) in E. lia.
Qed.

Lemma lexicographic_conditions b I c dec ms k σ :
  let xs := imap (λ i _, measure_before_name_at k (N.of_nat i)) ms in
  let post := build_lexicographic_decrease ms (map (λ x, E_Var (Variable_new x)) xs) in
  ms ≠ [] →
  Forall (λ f, holds σ f) (termination_vcs (wp order c) b I dec (Some ms) k).1 →
  termination_conditions b I c ms xs (wp order c post (fetch_add k (N.of_nat (length ms))).2).1 σ.
Proof.
  intros xs post Hne Hv. destruct ms as [|m0 ms0]; [done|]. cbn [termination_vcs] in Hv.
  unfold generate_lexicographic_termination_vcs in Hv. cbv [fetch_add] in Hv |- *. cbn [snd].
  fold xs in Hv. fold post in Hv.
  destruct (wp order c post ((k + N.of_nat (length (m0 :: ms0))) mod 2 ^ 64)) as [w n']. cbn [fst] in *.
  rewrite Forall_cons, Forall_singleton in Hv. destruct Hv as [Hpos Hfall]. split; [|exact Hfall].
  intros Hσ Hb. cbn [holds] in Hpos. rewrite holds_and2, holds_and, Forall_map in Hpos. by apply Hpos.
Qed.

(** C26. A while loop with a non-empty list of lexicographic measures, whose
    generated condition with the invariant as precondition holds in every state,
    is correct and ends: the triple is valid, and from no state in the invariant
    is there an infinite sequence of turns (a turn is an execution of the body
    that ends, from a state in the loop's condition).  Conditions: for the
    invariant and for the decrease as postconditions the calculator is right on
    the body (no capture, the body's own loops keep their invariants); the
    snapshot names the code makes up, without a check that they are fresh, occur
    neither in the measures and formulas nor in the body; where the invariant
    holds the measures are integers, which the interpretation orders as such. *)
Theorem lexicographic_loop_terminates b I c dec ms Q n :
  let k := loop_counter c I n in
  let xs := imap (λ i _, measure_before_name_at k (N.of_nat i)) ms in
  let t := {| precondition := I; command := C_While b I c dec (Some ms); postcondition := Q |} in
  ms ≠ [] →
  body_right c I n →
  body_right c (build_lexicographic_decrease ms (map (λ x, E_Var (Variable_new x)) xs))
    (fetch_add k (N.of_nat (length ms))).2 →
  (fv I ∪ fv b ∪ ⋃ map (λ a, fv_expr a) ms) ∪ (reads c ∪ writes c) ## snapshots xs →
  integer_valued I ms →
  (∀ σ, holds σ (generate_vc order t n).1) →
  triple_valid t ∧ ∀ σ, holds σ I → Acc (λ τ σ, turn b c σ τ) σ.
Proof.
  intros k xs t Hne HI Hdec Hfresh Hint Hvc.
  destruct (loop_verified b I c dec (Some ms) Q n HI Hvc) as (Hkeep & Ht & Hv). split; [done|].
  apply (loop_ends b I c ms xs (fetch_add k (N.of_nat (length ms))).2); try done.
  - apply measure_names_nodup.
  - apply length_imap.
  - intros σ Hσ. apply (lexicographic_conditions b I c dec ms k σ Hne). exact (Hv σ Hσ).
Qed.
End Termination.

(** ** Frames *)
Section Frames.
Context {D : Type} `{Interp D}.
Context (walk : gset ident → list ident) (walk_spec : ∀ s v, v ∈ walk s ↔ v ∈ s).

(** The frame rule accepts a frame exactly when it shares no variable with those
    the code collects as modified, whatever order the set is walked in; then, if
    it mentions no variable of a [for] loop either, which the code does not
    collect ([for_variable_framed]), validity of the triple gives that of the
    framed one. *)
Theorem frame_exact t R :
  ((∃ t', frame_apply walk t R = inr t') ↔ free_variables R ## collect_modified_vars (command t)) ∧
  (∀ t', frame_apply walk t R = inr t' → free_variables R ## loop_variables (command t) →
     triple_valid t → triple_valid t').
Proof.
  unfold frame_apply. destruct (List.find _ _) as [v|] eqn:E.
  - apply find_some in E as [Hv%list_elem_of_In Hm%bool_decide_eq_true]. rewrite walk_spec in Hv.
    split; [|intros t'; done]. split; [intros [t' Ht']; done|]. intros Hd. by destruct (Hd v).
  - assert (free_variables R ## collect_modified_vars (command t)) as Hd.
    { intros v Hv Hm. apply walk_spec, list_elem_of_In in Hv. apply (find_none _ _ E) in Hv.
      by apply bool_decide_eq_false in Hv. }
    split; [by split; eauto|]. intros t' [= <-] Hl Ht σ. cbn [precondition command postcondition].
    change (F_And [precondition t; R]) with (f_and [precondition t; R]).
    change (F_And [postcondition t; R]) with (f_and [postcondition t; R]).
    rewrite holds_and2. intros [HP HR]. destruct (Ht σ HP) as [Hf Hp]. split; [done|].
    intros τ Hx. rewrite holds_and2. split; [by apply Hp|].
    apply (holds_agree R σ τ); [|done]. intros k Hk. symmetry. apply (exec_writes _ _ _ Hx).
    rewrite <- free_variables_fv in Hk. unfold writes. rewrite <- collect_modified_vars_assigned.
    intros [Hin|Hin]%elem_of_union; [by apply (Hd k) | by apply (Hl k)].
Qed.
End Frames.

(** ** An interpretation for examples *)
#[local] Instance integers : Interp Z := {
  i_int z := z;
  i_bool b := if b then 1 else 0;
  i_real := Z.of_N;
  i_bitvec v _ := Z.of_N v;
  i_bin op a b :=
    match op with
    | B_Add => a + b | B_Sub => a - b | B_Mul => a * b | B_Div => a / b | B_Mod => a mod b
    | B_Pow => a ^ b | B_Select => 0
    end;
  i_un op a := match op with U_Neg => - a | U_Abs => Z.abs a | _ => a end;
  i_apply _ _ := 0;
  i_select _ _ := 0;
  i_store a _ _ := a;
  i_truth z := z ≠ 0;
  i_lt := Z.lt;
  i_le := Z.le;
  i_pred _ args := match args with [d] => d ≠ 0 | _ => False end;
}.
#[local] Instance integers_boolean : BooleanLaws Z.
Proof. split; [intros []; simpl; split; done | done]. Qed.
#[local] Instance integers_order : OrderLaws (D := Z).
Proof. split; done. Qed.

Section Exact.
Context {D : Type} `{Interp D} `{!BooleanLaws D}.
Context (order : gset ident → list ident).

Lemma loop_free_valid c : ∀ Q n, loop_free c = true → loops_valid (D := D) order c Q n.
Proof.
  induction c as [|v e|c d IHc IHd|b c e IHc IHe|b i c m ms IH|v s e i c IH|p|p|v|r g args p q|a i x|cs IH]
    using command_ind'; intros Q n Hl; cbn in Hl |- *; try done.
  - apply andb_true_iff in Hl as [? ?]. split; [auto|]. destruct (wp order d Q n). auto.
  - apply andb_true_iff in Hl as [? ?]. split; [auto|]. destruct e; auto.
  - induction IH as [|c cs Hc _ IHcs]; [done|]. cbn in Hl. apply andb_true_iff in Hl as [? ?].
    split; [by apply IHcs|]. case_match. auto.
Qed.

(** Substitution is assignment where it does not capture. *)
Theorem substitute_exact v r f σ :
  capture_free v (free_variables_expr r) f = true →
  (holds σ (substitute v r f) ↔ holds (upd (ident_of v) (eval σ r) σ) f).
Proof. rewrite free_variables_expr_fv. intros Hc. by apply substitute_means. Qed.

(** C13. Without loops the calculator is exact: the formula it computes holds in
    a state if and only if no execution of the command from that state fails (at
    an assertion, or at the requirement of a call) and every execution that ends
    does so in the postcondition.  Executions are the big-step relation of
    Hoare.v, in which a call does what its contract allows; formulas mean what
    they do in first-order logic over any interpretation in which the Boolean
    constants and the predicate "bool" are truth.  The condition capture_ok,
    computed from command and postcondition, asks that no substitution captures,
    that no call hides a variable of the postcondition called result, and that
    every call has a result; without it the equivalence fails (havoc_captures,
    call_result_hides, call_for_effect_drops). *)
Theorem wp_exact c Q n σ :
  loop_free c = true → capture_ok order c Q n = true →
  (holds σ (wp order c Q n).1 ↔ ensures_post c (λ τ, holds τ Q) σ).
Proof.
  intros Hl Hc. pose proof (wp_calculates order c Q n Hc (loop_free_valid c Q n Hl) σ) as [H1 H2].
  split; [exact H1 | exact (H2 Hl)].
Qed.

(** With loops the generated condition is sound for loops that keep their
    invariants in all states, which the condition itself does not ask
    ([while_condition_local]). *)
Theorem verified_sound t n :
  capture_ok order (command t) (postcondition t) n = true →
  loops_valid (D := D) order (command t) (postcondition t) n →
  (∀ σ, holds σ (generate_vc order t n).1) → triple_valid t.
Proof.
  intros Hc Hl Hvc σ HP. apply (wp_calculates order _ _ _ Hc Hl). specialize (Hvc σ). unfold generate_vc in Hvc.
  destruct (wp order (command t) (postcondition t) n). by apply Hvc.
Qed.
End Exact.

(** ** Examples *)
Definition var_x : Variable_t := Variable_new "x".
Definition var_y : Variable_t := Variable_new "y".
Definition x_ : SmtExpr := E_Var var_x.
Definition y_ : SmtExpr := E_Var var_y.
Definition x_plus (k : Z) : SmtExpr := E_BinOp B_Add x_ (E_IntConst k).
Definition walk_set : gset ident → list ident := elements.

(** [if x < 0 then x := 0 - x; assert(x >= 0)]. *)
Definition make_positive : Command :=
  C_Seq (C_If (F_Lt x_ (E_IntConst 0)) (C_Assign var_x (E_BinOp B_Sub (E_IntConst 0) x_)) None)
    (C_Assert (F_Ge x_ (E_IntConst 0))).

(** [while 0 < x inv 0 <= x do x := x - 1 decreases x]. *)
Definition down_invariant : Formula := F_Le (E_IntConst 0) x_.
Definition down_condition : Formula := F_Lt (E_IntConst 0) x_.
Definition down_body : Command := C_Assign var_x (x_plus (-1)).
Definition down_post : Formula := F_Eq x_ (E_IntConst 0).

(** [x := 0; while x < 10 inv x <= 5 do x := x + 1]. *)
Definition weak_invariant : HoareTriple :=
  {| precondition := F_True;
     command := C_Seq (C_Assign var_x (E_IntConst 0))
                  (C_While (F_Lt x_ (E_IntConst 10)) (F_Le x_ (E_IntConst 5)) (C_Assign var_x (x_plus 1)) None None);
     postcondition := F_False |}.

(** [y := x; havoc(x); assert(y == x)]. *)
Definition copied_then_havocked : HoareTriple :=
  {| precondition := F_True;
     command := C_Seq (C_Assign var_y x_) (C_Seq (C_Havoc var_x) (C_Assert (F_Eq y_ x_)));
     postcondition := F_True |}.

(** [f()] with [requires true, ensures true]. *)
Definition call_for_effect : HoareTriple :=
  {| precondition := F_True; command := C_Call None "f" [] F_True F_True; postcondition := F_False |}.

(** [x := f()] with [ensures result = 1], and a program variable called [result]. *)
Definition result_hidden : HoareTriple :=
  {| precondition := F_True;
     command := C_Call (Some var_x) "f" [] F_True (F_Eq (E_Var Variable_result) (E_IntConst 1));
     postcondition := F_Eq (E_Var Variable_result) (E_IntConst 1) |}.

(** [for x in 0..3 inv true do skip]. *)
Definition counting : HoareTriple :=
  {| precondition := F_True;
     command := C_For var_x (E_IntConst 0) (E_IntConst 3) F_True C_Skip;
     postcondition := F_True |}.

(** Evaluation down to linear arithmetic. *)
Ltac run := cbv -[Z.lt Z.le Z.add Z.sub Z.opp not].

Ltac run_vc :=
  match goal with
  | |- holds ?σ ?f => let g := eval vm_compute in f in replace f with g by (vm_compute; reflexivity)
  end; run.

(** [while 0 < x inv 0 <= x do x := x - 1 decreases (y, x)], where [y] stays. *)
Definition pair_invariant : Formula := F_And [F_Le (E_IntConst 0) x_; F_Le (E_IntConst 0) y_].

(** [x := 1], and a frame about [y]. *)
Definition set_x : HoareTriple :=
  {| precondition := F_True; command := C_Assign var_x (E_IntConst 1); postcondition := F_Eq x_ (E_IntConst 1) |}.
Definition y_is_3 : Formula := F_Eq y_ (E_IntConst 3).

Lemma wp_exact_witness : ensures_post make_positive (λ τ, holds τ (F_Ge x_ (E_IntConst 0))) (λ _, -3).
Proof.
  apply (wp_exact walk_set make_positive (F_Ge x_ (E_IntConst 0)) 0 (λ _, -3)); [reflexivity|reflexivity|].
  run. lia.
Defined.

Lemma substitute_exact_witness :
  holds (λ _, 4) (substitute var_x (x_plus 1) (F_Exists [var_y] (F_Eq y_ x_))).
Proof.
  apply (substitute_exact var_x (x_plus 1) (F_Exists [var_y] (F_Eq y_ x_)) (λ _, 4)); [reflexivity|].
  exists 5. reflexivity.
Defined.

Lemma verified_sound_witness :
  triple_valid {| precondition := F_True; command := make_positive; postcondition := F_Ge x_ (E_IntConst 0) |}.
Proof.
  apply (verified_sound walk_set {| precondition := F_True; command := make_positive;
    postcondition := F_Ge x_ (E_IntConst 0) |} 0); [reflexivity | by split|].
  intros σ _. run. lia.
Defined.

Lemma measured_loop_terminates_witness : Acc (λ τ σ : ident → Z, turn down_condition down_body σ τ) (λ _, 3).
Proof.
  refine (proj2 (measured_loop_terminates walk_set down_condition down_invariant down_body x_ down_post 0 _ _ _ _ _) _ _).
  - by split.
  - by split.
  - apply (bool_decide_unpack _). vm_compute. exact I.
  - intros σ _. by exists [σ ("x", None)].
  - intros σ. run_vc. intuition lia.
  - run. lia.
Defined.

Lemma lexicographic_loop_terminates_witness :
  Acc (λ τ σ : ident → Z, turn down_condition down_body σ τ) (λ _, 3).
Proof.
  refine (proj2 (lexicographic_loop_terminates walk_set down_condition pair_invariant down_body None [y_; x_]
    down_post 0 _ _ _ _ _ _) _ _).
  - done.
  - by split.
  - by split.
  - apply (bool_decide_unpack _). vm_compute. exact I.
  - intros σ _. by exists [σ ("y", None); σ ("x", None)].
  - intros σ. run_vc. intuition lia.
  - run. lia.
Defined.

Lemma frame_exact_witness :
  triple_valid (D := Z)
    {| precondition := f_and [F_True; y_is_3]; command := command set_x;
       postcondition := f_and [F_Eq x_ (E_IntConst 1); y_is_3] |}.
Proof.
  apply (proj2 (frame_exact walk_set (λ s v, elem_of_elements s v) set_x y_is_3)).
  - vm_compute. reflexivity.
  - apply (bool_decide_unpack _). vm_compute. exact I.
  - intros σ _. split; [intros Hx; inversion Hx|]. intros τ Hx. inversion Hx; subst. run. reflexivity.
Defined.

(** ** Conditions that are valid for triples that are not *)

(** The condition of a loop asks about the state before the loop only. *)
Lemma while_condition_local :
  (∀ σ, holds (D := Z) σ (generate_vc walk_set weak_invariant 0).1) ∧ ¬ triple_valid (D := Z) weak_invariant.
Proof.
  split; [intros σ; run_vc; intuition lia|].
  assert (∀ k (σ : ident → Z), σ ("x", None) = 10 - Z.of_nat k →
    ∃ τ, exec (C_While (F_Lt x_ (E_IntConst 10)) (F_Le x_ (E_IntConst 5)) (C_Assign var_x (x_plus 1)) None None)
           σ (Done τ)) as Hrun.
  { induction k as [|k IH]; intros σ Hσ.
    - exists σ. apply exec_while_end. change (¬ σ ("x", None) < 10). lia.
    - destruct (IH (upd ("x", None) (σ ("x", None) + 1) σ)) as [τ Hτ]; [rewrite upd_eq; lia|].
      exists τ. eapply exec_while; [change (σ ("x", None) < 10); lia | apply exec_assign | exact Hτ]. }
  intros Ht. destruct (Ht (λ _, 0) I) as [_ Hd].
  destruct (Hrun 10%nat (upd ("x", None) 0 (λ _, 0))) as [τ Hτ]; [apply upd_eq|].
  apply (Hd τ). eapply exec_seq; [apply exec_assign | exact Hτ].
Qed.

(** Substituting under the quantifier of a [Havoc] captures. *)
Lemma havoc_captures :
  (∀ σ, holds (D := Z) σ (generate_vc walk_set copied_then_havocked 0).1) ∧
  exec (D := Z) (command copied_then_havocked) (λ _, 0) Failed.
Proof.
  split; [intros σ; run_vc; intuition lia|].
  eapply exec_seq; [apply exec_assign|]. eapply exec_seq; [apply (exec_havoc _ 1)|].
  apply exec_assert_failed. run. lia.
Qed.

(** A call without a result drops the postcondition. *)
Lemma call_for_effect_drops :
  (∀ σ, holds (D := Z) σ (generate_vc walk_set call_for_effect 0).1) ∧ ¬ triple_valid (D := Z) call_for_effect.
Proof.
  split; [intros σ; run_vc; intuition lia|].
  intros Ht. destruct (Ht (λ _, 0) I) as [_ Hd]. apply (Hd (λ _, 0)).
  apply (exec_call None "f" [] F_True F_True 0); exact I.
Qed.

(** The quantifier of a call's result hides a variable called [result]. *)
Lemma call_result_hides :
  (∀ σ, holds (D := Z) σ (generate_vc walk_set result_hidden 0).1) ∧ ¬ triple_valid (D := Z) result_hidden.
Proof.
  split; [intros σ; run_vc; intuition lia|].
  intros Ht. destruct (Ht (λ _, 0) I) as [_ Hd].
  specialize (Hd _ (exec_call (Some var_x) "f" [] F_True (F_Eq (E_Var Variable_result) (E_IntConst 1)) 1
    (λ _, 0) I eq_refl)). vm_compute in Hd. discriminate.
Qed.

(** A frame about the variable of a [for] loop is accepted. *)
Lemma for_variable_framed :
  triple_valid (D := Z) counting ∧
  ∃ t', frame_apply walk_set counting (F_Eq x_ (E_IntConst 7)) = inr t' ∧ ¬ triple_valid (D := Z) t'.
Proof.
  split.
  - intros σ _. apply post_for. unfold for_loop. rewrite post_seq, post_assign.
    apply (post_while _ _ _ _ _ _ (λ _, True)); [|done|done].
    intros τ _ _. unfold for_body, for_increment. by rewrite post_seq, post_skip, post_assign.
  - eexists. split; [vm_compute; reflexivity|]. intros Ht.
    destruct (Ht (λ _, 7)) as [_ Hd]; [run; lia|].
    assert (∀ k (σ : ident → Z), σ ("x", None) = 3 - Z.of_nat k →
      ∃ τ, exec (C_While (for_condition var_x (E_IntConst 3)) F_True (for_body var_x C_Skip)
                   (Some (for_measure var_x (E_IntConst 3))) None) σ (Done τ) ∧ τ ("x", None) = 3) as Hrun.
    { induction k as [|k IH]; intros σ Hσ.
      - exists σ. split; [|lia]. apply exec_while_end. change (¬ σ ("x", None) < 3). lia.
      - destruct (IH (upd ("x", None) (σ ("x", None) + 1) σ)) as (τ & Hτ & E); [rewrite upd_eq; lia|].
        exists τ. split; [|done]. eapply exec_while; [change (σ ("x", None) < 3); lia | | exact Hτ].
        eapply exec_seq; [apply exec_skip | exact (exec_assign var_x (x_plus 1) σ)]. }
    destruct (Hrun 3%nat (upd ("x", None) 0 (λ _, 7))) as (τ & Hτ & E); [apply upd_eq|].
    assert (holds τ (F_Eq x_ (E_IntConst 7))) as Hx; [|change (τ ("x", None) = 7) in Hx; lia].
    apply (proj1 (holds_and2 F_True _ τ)), (Hd τ). apply exec_for. eapply exec_seq; [apply exec_assign | exact Hτ].
Qed.
